(* ===== verification/_CoqProject ===== *)
-Q . S2P
Prelude.v
DispatchTime.v
DispatchData.v
DispatchDataInv.v
DispatchDataSpec.v
DispatchDataMap.v
DispatchDataWitness.v
DispatchTransform.v
DispatchTransformCodec.v
DispatchDataAppend.v
DispatchTransformSpec.v
DispatchTransformDecode.v
DispatchTransformCorrect.v
DispatchUnicode.v
DispatchUtf16.v
DispatchUtf8.v
BitArray.v
BitArrayInv.v
BitArraySpec.v
BitArrayCorrect.v
BitArrayMultiple.v
BitArrayEquiv.v
Lockf.v
LockfList.v
LockfHeap.v
LockfLinked.v
LockfLoops.v
LockfState.v
LockfCorrect.v
CFBinaryHeap.v
CFBinaryHeapSpec.v
CFBinaryHeapOps.v
CFBinaryHeapValues.v
CFBinaryHeapCorrect.v
Bpf.v
BpfSafe.v
BpfCorrect.v
BpfDev.v
BpfDevCorrect.v
BpfDevFifo.v
BpfDevLife.v
BpfDevRun.v
SyncMachine.v
SyncKernel.v
MachSema.v
DispatchSemaphore.v
DispatchSemaphoreCorrect.v
DispatchGroup.v
DispatchGroupCount.v
DispatchGroupList.v
DispatchGroupNotify.v
DispatchGroupCorrect.v
DispatchGroupWitness.v
DispatchOnce.v
DispatchOnceInv.v
DispatchOnceCorrect.v
DispatchGate.v
OsUnfairLock.v
OsUnfairLockCorrect.v
LibcSort.v
LibcSortHeap.v
LibcSortPart.v
LibcSortCorrect.v
LibcSortBytes.v
IpcSplay.v
IpcSplayTree.v
IpcSplayOps.v
IpcSplayTraverse.v
IpcSplayCorrect.v
IpcForest.v
IpcHash.v
IpcEntry.v
IpcEntryInv.v
IpcHashGlobal.v
IpcEntryOps.v
IpcEntryDealloc.v
IpcEntryAlloc.v
IpcEntryGrow.v
IpcSpace.v
IpcSpaceCorrect.v
