(* ===== verification/Prelude.v ===== *)
(** * Verification of Apple's open-source system libraries

    The repository holds the sources of several system libraries and of the
    kernel (CoreFoundation, Libc, libclosure, libdispatch, libmalloc,
    libplatform, libpthread, objc4, xnu).  This library models the pieces of
    their own logic listed here, each a component with a contract of its own, and proves
    the contract.  Paths below are under [src/].

    ** The parts and the files that model them

    - Times, [libdispatch-913.60.2/src/time.c], [shims/time.h]: the 64-bit
      encoding of mach and wall-clock times and its saturating arithmetic.
      File [DispatchTime], module [Time]; the clock readings are an argument.
    - Data objects, [libdispatch-913.60.2/src/data.c], [data_internal.h], and
      what they use of [object.c].  An immutable byte sequence is a leaf with a
      buffer or a composite of records (object, from, length) that retains its
      parts; a composite can be given a flat copy of its bytes.
      [DispatchData] is the code over a heap of objects and memory blocks with
      reference counts and a schedule of allocation failures;
      [DispatchDataInv] the well-formedness invariant
      (counts equal the references that exist) and the effect of retain and
      release; [DispatchDataSpec] and [DispatchDataMap] the operations;
      [DispatchDataWitness] a concrete heap.
    - Data transforms, [libdispatch-913.60.2/src/transform.c], a client of the
      data objects through [dispatch_data_apply] and
      [dispatch_data_create_concat]: base64, base32, base32hex and the UTF
      transforms.  [DispatchTransform] is the code; [DispatchTransformCodec]
      the encoders and decoders on byte lists and RFC 4648;
      [DispatchDataAppend] the decoder's growing result;
      [DispatchTransformSpec], [DispatchTransformDecode] and
      [DispatchTransformCorrect] the properties.  For the UTF transforms,
      [DispatchUnicode] has the encodings on lists, the bit operations and the
      output buffer, [DispatchUtf16] and [DispatchUtf8] the two directions and
      the round trip.
    - Bit arrays, [libmalloc-67/src/bitarray.c]: a set of up to 2^31 small
      integers with up to three levels of summary bits.  [BitArray] is the
      code over the block of 64-bit words; [BitArrayInv] and [BitArraySpec] words, member lists and the invariant (a summary bit is
      set when its group has a member); [BitArrayCorrect],
      [BitArrayMultiple] and [BitArrayEquiv] the operations.
    - Advisory byte-range locks, [xnu-792/bsd/kern/kern_lockf.c]: the list of
      locks of a vnode, the queues of sleeping requests, and [lf_advlock].
      [Lockf] is the code on a heap of [struct lockf]; [LockfList] the effect
      on the abstract list of locks and on the bytes each owner holds;
      [LockfHeap], [LockfLinked], [LockfLoops] and [LockfState] the linked
      list, the queues and the loops; [LockfCorrect] the calls and the
      transition system of calls, wake-ups and signals, with concrete runs.
    - Binary heaps, [CF-1153.18/CFBinaryHeap.c].  [CFBinaryHeap] is the code
      over a memory of bucket blocks, with heap order on lists; [CFBinaryHeapSpec], [CFBinaryHeapOps] and [CFBinaryHeapValues] the sift loops and the operations;
      [CFBinaryHeapCorrect] the properties, against the class [LawfulClient]
      of what the client's callbacks promise, and a client.
    - Packet filters, [xnu-792/bsd/net/bpf_filter.c].  [Bpf] is the
      interpreter and the validator; [BpfSafe] reads from buffers and mbuf
      chains and the safety of the loads; [BpfCorrect] safety and the comparison of
      the two packet representations.
    - Packet capture, [xnu-792/bsd/net/bpf.c] and [bpfdesc.h], which runs the
      filters.  [BpfDev] is the code: descriptors with store, hold and free
      buffers in kernel memory, [bpf_tap], [bpf_mtap], [catchpacket],
      [bpfread] cut where it sleeps, [bpfpoll] and the requests that change a
      descriptor.  [BpfDevCorrect] has the records in a buffer, a reader's
      walk over them and the invariant of a descriptor;
      [BpfDevFifo] capture, reading and several listeners;
      [BpfDevLife] the requests, their specification and the simulation;
      [BpfDevRun] the properties, with a session.
    - Mach semaphores, [xnu-792/osfmk/kern/sync_sema.c] with the wake-ups of
      [wait_queue.c]: [MachSema] is the code for one semaphore and its queue of
      threads, and shows that it satisfies the class [KernelSemaphoreLaws] of
      [SyncKernel], which the next two components are proved against.
    - Dispatch semaphores and groups, [libdispatch-913.60.2/src/semaphore.c],
      [shims/lock.c] and the lists of [inline_internal.h].
      [DispatchSemaphore] is the code of a semaphore,
      [DispatchSemaphoreCorrect] its properties and schedules;
      [DispatchGroup] the code of a group, [DispatchGroupCount],
      [DispatchGroupList] and [DispatchGroupNotify] the counts, the list of
      continuations and their submission, [DispatchGroupCorrect] and
      [DispatchGroupWitness] the properties and schedules.
    - Once, [libdispatch-913.60.2/src/once.c] with the thread events and gates
      of [shims/lock.h] and [shims/lock.c], in both builds: [DispatchOnce],
      [DispatchOnceInv] and [DispatchOnceCorrect] with a list of waiters on
      the stacks of the callers, [DispatchGate] with a gate.  Both wait on
      addresses: [AddressWaiter] of [SyncKernel] is the interface.
    - Unfair locks, [libplatform-177.250.1/src/os/lock.c]: [OsUnfairLock] is
      the code of [os_unfair_lock] and [os_unfair_recursive_lock] over the same
      interface, [OsUnfairLockCorrect] the properties.
    - Sorting and searching, [Libc-997.90.3/stdlib/FreeBSD/qsort.c],
      [heapsort.c], [bsearch.c]: [LibcSort] is the code on arrays of elements
      and rules for programs on arrays, [LibcSortHeap] heapsort,
      [LibcSortPart] insertion and partition, [LibcSortCorrect] the
      properties; [LibcSortBytes] the exchanges on bytes and concrete arrays.
    - Splay trees of port names, [xnu-792/osfmk/ipc/ipc_splay.c]: [IpcSplay] is
      the code on the memory of tree entries, the five macros written out;
      [IpcSplayTree] a separation logic for it, built on Iris, and trees with a
      hole in memory, [IpcSplayOps] the routines,
      [IpcSplayTraverse] the traversal by reversed pointers; [IpcSplayCorrect]
      maps as the specification and the properties.
    - IPC spaces, [xnu-792/osfmk/ipc/ipc_entry.c], [ipc_hash.c], [ipc_table.c]
      and the creation and death of a space ([ipc_space.c], [kern/ipc_tt.c]): a
      space maps port names to entries, in a table with a free list or, when the
      index is beyond the table or taken, in a splay tree; send rights are also
      found by their object, through an open-addressing hash inside the table
      and global buckets for the tree entries of all spaces.  [IpcHash] (module
      [Ipc]) is the hash of a table and its lemmas, [IpcEntry] (module [Entry])
      the global buckets and the routines on entries; [IpcForest] has the splay
      trees as the spaces see them: one step of a tree routine is a step on finite
      maps; [IpcEntryInv] the invariant of a space, [IpcHashGlobal] the buckets,
      [IpcEntryOps], [IpcEntryDealloc], [IpcEntryAlloc] and [IpcEntryGrow] the
      routines; [IpcSpace] (module [Space]) the sizes of tables, creation, the
      calls and their specification, [IpcSpaceCorrect] the properties and a
      session.

    Transforms work on data objects, packet capture runs filters, dispatch
    semaphores and groups sleep on kernel semaphores, IPC spaces keep entries in
    splay trees, and the other components do not share state.  The concurrent ones are instances of the machine of
    [SyncMachine]: any number of calls in progress, one step of one of them at a
    time.  This file has what all share: machine integers, outcomes and the
    state monad, slices of lists.

    ** How the code is modelled

    A C function is a definition with the name of the function; a structure is
    a record, a pointer an address of a finite map, NULL is [None].  State is
    passed through the monad [M]; a crash of the process, an abort, a panic or
    an access C does not define is a [Crash] with a reason, never a value.
    Integers are [Z], wrapped at their width where the C expression is
    converted or stored.  Loops that are not over a list have fuel taken from
    the state (the number of live structures, the size of a queue, the count of
    a heap, the length of a program); every theorem says that the code returns,
    so the fuel is enough where the theorem applies.  Allocation failures are
    a schedule in the state, or an argument.

    In the concurrent components one step of a call is one access to shared
    memory or one system call, with the local computation up to the next one;
    memory is sequentially consistent.  What is left to chance (interruptions,
    expiring timeouts, weak compare-and-swaps that fail, a system call that
    fails with an error, a client's function that does not return, the client's
    next call) is a choice of the step.  Theorems are about all reachable states
    of all interleavings; for progress they describe the states in which no call
    can go on.  The kernel is a parameter with laws, each with an instance.

    ** What the theorems show

    - Data objects: each operation returns an object with the bytes it should
      (concatenation, slice, region, map), keeps the heap well-formed and every
      other object as it was, and is undone by the release of its result;
      memory failure returns NULL and changes nothing.
    - Transforms: the encoders give RFC 4648 for any division into regions,
      decoding an encoding gives the bytes back, decoders do not depend on the
      division when there is no padding, and a bad symbol returns NULL; the UTF
      transforms convert data whose regions hold whole characters, and back.
    - Times: arithmetic is exact or saturates, encodings round-trip.
    - Bit arrays: every operation has its effect on the set of members and
      keeps the summaries; the batched search equals the simple loop.
    - Locks: calls refine the specification "who holds which type on which
      byte"; in every state reachable by calls whose ranges end before the
      largest offset there is mutual exclusion, no use after free, and no sleeper
      without a lock it waits for or a wake-up.  Ranges up to the largest offset
      break all of this: [lf_end + 1] overflows, and two theorems show a lock on
      every byte and a free of memory that is not allocated.
    - Heaps: add and remove implement a priority queue; the value list is the
      sorted list of the items and leaves no trace.
    - Packet filters: a validated program (apart from the check the validator
      lacks) is safe and terminates on packets without empty mbufs; under the
      conditions on loads and mbufs that the theorem states, what is accepted from
      a buffer is accepted from a chain of mbufs.
    - Packet capture: every sequence of packets, reads and requests that keeps
      the conditions of [run_ok] (no new buffer length while there are buffers,
      packets without empty mbufs, no program with the scratch access that the
      validator lets pass) refines a queue of records: no fault, packets in order
      of arrival, bytes and times exact, received and lost packets counted
      exactly; a descriptor reported readable is readable.
    - Semaphores: successful waits never exceed the units, whatever the
      timeouts and interruptions, and no wake-up is lost.
    - Groups: when a group is empty and no call can go on, every wait has
      returned, every continuation was submitted exactly once and every
      reference is given back; nothing happens before the group was empty; a
      step aborts exactly when a leave is unbalanced, the counter overflows or a
      kernel semaphore fails.
    - Once: the function is called once and has returned when any call returns;
      no caller uses the stack of one that has returned, and nobody is left
      waiting unless the function does not return; a step aborts only when the
      kernel reports an error, or, with gates, on a recursive call.
    - Unfair locks: mutual exclusion, at any depth for recursive locks; no
      wake-up is lost; a step aborts exactly on misuse or on an error of the
      kernel.
    - Sorting: on arrays of fewer than 2^32 bytes [qsort] terminates on every
      comparison function and permutes the range; with an order, and memory for
      [heapsort], it sorts, and [bsearch] then finds what is there; the byte loops
      exchange elements.
    - Splay trees: every history of calls on any number of trees behaves as the
      same operations on finite maps; the bounds are the neighbours in the map; a
      split and a join give the tree back; a traversal visits every entry once, in
      order, whatever it deletes.
    - IPC spaces: over every history of calls on any number of spaces, with the
      sections of growing a table between any other calls, each call returns and
      behaves as on one finite map of rights for each space; the reverse hash is
      its inverse on send rights; no tree entry is lost; the table sizes the
      kernel computes satisfy what the routines rely on.
    - Some theorems state where the code fails: base32hex decoding, base64
      padding across regions, characters cut by two regions in a row, locks up to the largest offset, equality of
      heaps, the validator's missing check, the reads from chains, the buffer length
      of a capture descriptor that lost its interface, a wait on a group that
      returns early, a wait on a semaphore that sleeps though it must not,
      [qsort] without memory for [heapsort], exchanges of 2^31 bytes, and a
      port name with index 0 or one that enters the table while its tree entry is
      being allocated.

    ** Bounds

    Output buffers of UTF transforms are below the limit of 100 MB in the code.
    Sizes are below 2^64 for data objects (a concatenation must fit), counts
    below the limit of the reference counters ([headroom]), bit arrays have at
    most 2^31 bits, heaps fewer than 2^30 items (an [int] shift in the code),
    programs fewer than 2^31 instructions, packets and capture buffers have
    fewer than 2^30 bytes, lock ranges end before the largest
    offset ([ends_below_max]), bit-array batches ask for at least one bit.  At most 2^31 - 2 calls on a semaphore or
    group are in progress at once ([MAX_CALLS]), and the values stay in their
    types.  Recursive locks are taken fewer than 2^32 times at once.  Threads
    that use an unfair lock have different odd ports.  The loops of the sorts
    have the length of the range as fuel, and [qsort] its depth limit.  An array
    to sort has fewer than 2^32 bytes, so that the two blocks that a partition
    exchanges have fewer than 2^31 and the byte count fits the [int] of
    [swapfunc]; the model stops with [INT_TRUNCATION] where it would not.  Port
    names have 32 bits, and the two values that the splay trees use as marks are
    no names of entries; their loops have the number of tree entries as fuel.
    Tables of spaces have fewer than 2^24 entries ([sizes_ok], which the sizes of
    the kernel satisfy); the loops over a table have its length as fuel, those over
    a bucket or a tree the number of tree entries.

    ** What is not modelled

    The queues, sources and I/O channels of libdispatch, the allocators of
    libmalloc, libpthread, libclosure, objc4, and the rest of CoreFoundation,
    Libc, libplatform and xnu.  Weaker memory orders and priority overrides in
    the concurrent code, ports and reference counts of Mach semaphores, elements
    of size 0 in the sorts, and the other locks of [lock.c].  Of the files modelled:
    [dispatch_data_make_memory_entry] (mach calls), debug printers and
    descriptions, the mach timebase conversions of [time.c] (long double), the
    deadlock detection of [kern_lockf.c] (dead code), the table of open bpf
    devices, writing packets, promiscuous mode and signals of [bpf.c], the
    cleaning of a dead space, special and fast spaces and [ipc_hash_init].  What
    rights mean ([ipc_right.c]) is left to the clients of a space, who fill in,
    read and clear entries while they have its lock.  The theorems on the UTF transforms leave out characters that are cut by a
    region. *)

From Stdlib Require Export ZArith Lia.
From stdpp Require Export base tactics numbers list gmap strings.
Export ListNotations.

#[global] Open Scope Z_scope.

(** ** Machine integers

    A w-bit unsigned value is a [Z] in [0, 2^w); a signed one a [Z] in
    [-2^(w-1), 2^(w-1)).  C arithmetic is written on [Z] and wrapped with the
    conversions below at the places where the C expression is converted or
    stored. *)

Definition wrapu (w z : Z) : Z := z `mod` 2 ^ w.
Definition wraps (w z : Z) : Z := (z + 2 ^ (w - 1)) `mod` 2 ^ w - 2 ^ (w - 1).

Abbreviation u8 := (wrapu 8).
Abbreviation u16 := (wrapu 16).
Abbreviation u32 := (wrapu 32).
Abbreviation u64 := (wrapu 64).
Abbreviation i32 := (wraps 32).
Abbreviation i64 := (wraps 64).
Abbreviation INT64_MAX := (2 ^ 63 - 1).
Abbreviation INT64_MIN := (- 2 ^ 63).
Abbreviation UINT64_MAX := (2 ^ 64 - 1).
Abbreviation SIZE_T_MAX := (2 ^ 64 - 1).

Definition is_u64 (z : Z) : Prop := 0 ≤ z < 2 ^ 64.
Definition is_i64 (z : Z) : Prop := - 2 ^ 63 ≤ z < 2 ^ 63.
Definition is_byte (z : Z) : Prop := 0 ≤ z < 256.

Lemma wrapu_range w z : 0 ≤ w → 0 ≤ wrapu w z < 2 ^ w.
Proof. intros Hw. apply Z.mod_pos_bound. by apply Z.pow_pos_nonneg. Qed.

Lemma wrapu_small w z : 0 ≤ z < 2 ^ w → wrapu w z = z.
Proof. apply Z.mod_small. Qed.

Lemma wraps_range w z : 0 < w → - 2 ^ (w - 1) ≤ wraps w z < 2 ^ (w - 1).
Proof.
  intros Hw. unfold wraps.
  assert (2 ^ w = 2 * 2 ^ (w - 1)) as Hp.
  { rewrite <- Z.pow_succ_r by lia. f_equal. lia. }
  assert (0 < 2 ^ (w - 1)) by (apply Z.pow_pos_nonneg; lia).
  pose proof (Z.mod_pos_bound (z + 2 ^ (w - 1)) (2 ^ w)). lia.
Qed.

Lemma wraps_small w z : 0 < w → - 2 ^ (w - 1) ≤ z < 2 ^ (w - 1) → wraps w z = z.
Proof.
  intros Hw Hz. unfold wraps.
  assert (2 ^ w = 2 * 2 ^ (w - 1)) as Hp.
  { rewrite <- Z.pow_succ_r by lia. f_equal. lia. }
  rewrite Z.mod_small; lia.
Qed.

(** [wrap_lia] evaluates every wrap of a bounded width into a quotient and a
    remainder and hands the goal to [lia]. *)
Ltac unfold_wraps :=
  unfold wrapu, wraps, is_u64, is_i64, is_byte in *;
  change (2 ^ 8) with 256 in *; change (2 ^ 7) with 128 in *;
  change (2 ^ 16) with 65536 in *;
  change (2 ^ 32) with 4294967296 in *;
  change (2 ^ (32 - 1)) with 2147483648 in *;
  change (2 ^ 31) with 2147483648 in *;
  change (2 ^ 64) with 18446744073709551616 in *;
  change (2 ^ (64 - 1)) with 9223372036854775808 in *;
  change (2 ^ 63) with 9223372036854775808 in *.
Ltac wrap_lia := unfold_wraps; Z.to_euclidean_division_equations; lia.

(** ** Outcomes and the state monad

    A C function is a computation over a state [S]: it returns a value with
    the new state, or it stops the process ([Crash], with the reason the code
    gives: a [DISPATCH_*_CRASH], a failed assertion, or an access the C
    abstract machine does not define).  NULL results are [None] values of the
    result type, never [Crash]. *)

Inductive crash_reason :=
| INTERNAL_CRASH      (* DISPATCH_INTERNAL_CRASH *)
| CLIENT_CRASH        (* DISPATCH_CLIENT_CRASH, _OS_OBJECT_CLIENT_CRASH *)
| ASSERT_FAILED       (* dispatch_assert, abort(), panic() *)
| NULL_DEREFERENCE
| BAD_ACCESS          (* read or write outside a live block, use after free *)
| BAD_FREE            (* free() of a pointer malloc() did not return *)
| UNDEFINED_BEHAVIOR  (* an operation the C standard leaves undefined *)
| INT_TRUNCATION      (* a conversion to int loses bits, and the model does not follow the code further *)
| OUT_OF_FUEL.        (* the model's recursion bound, never the program's *)

Inductive outcome (A : Type) :=
| Ok (a : A)
| Crash (r : crash_reason).
Arguments Ok {A} a.
Arguments Crash {A} r.

Definition M (S A : Type) : Type := S → outcome (A * S).

#[export] Instance M_ret S : MRet (M S) := λ A a s, Ok (a, s).
#[export] Instance M_bind S : MBind (M S) := λ A B f m s,
  match m s with
  | Ok (a, s') => f a s'
  | Crash r => Crash r
  end.

Definition crash {S A} (r : crash_reason) : M S A := λ _, Crash r.
Definition gets {S A} (f : S → A) : M S A := λ s, Ok (f s, s).
Definition modify {S} (f : S → S) : M S unit := λ s, Ok (tt, f s).

(** An access through a pointer that must not be NULL. *)
Definition nonnull {S A} (o : option A) : M S A :=
  match o with Some a => mret a | None => crash NULL_DEREFERENCE end.

Definition assert_M {S} (b : bool) : M S unit :=
  if b then mret tt else crash ASSERT_FAILED.

(** [for] loop over a list of loop values, in order. *)
Fixpoint for_M {S A} (l : list A) (f : A → M S unit) : M S unit :=
  match l with
  | [] => mret tt
  | a :: l => f a ≫= λ _, for_M l f
  end.

Lemma bind_Ok {S A B} (m : M S A) (f : A → M S B) s a s' :
  m s = Ok (a, s') → (m ≫= f) s = f a s'.
Proof. unfold mbind, M_bind. by intros ->. Qed.

Lemma bind_Crash {S A B} (m : M S A) (f : A → M S B) s r :
  m s = Crash r → (m ≫= f) s = Crash r.
Proof. unfold mbind, M_bind. by intros ->. Qed.

Lemma bind_inv {S A B} (m : M S A) (f : A → M S B) s b s'' :
  (m ≫= f) s = Ok (b, s'') → ∃ a s', m s = Ok (a, s') ∧ f a s' = Ok (b, s'').
Proof.
  unfold mbind, M_bind. destruct (m s) as [[a s']|r]; [eauto|done].
Qed.

Lemma ret_eq {S A} (a : A) (s : S) : mret (M := M S) a s = Ok (a, s).
Proof. done. Qed.

(** [mstep H] runs the first action of a bind with the equation [H]. *)
Ltac mstep H := rewrite (bind_Ok _ _ _ _ _ H).

(** ** Slices of byte lists, indexed by [Z] as C pointers are *)

Definition zlen {A} (l : list A) : Z := Z.of_nat (length l).
Definition zslice {A} (off n : Z) (l : list A) : list A :=
  take (Z.to_nat n) (drop (Z.to_nat off) l).

Create Rewrite HintDb zlen.
Lemma zlen_nil {A} : zlen (@nil A) = 0.
Proof. done. Qed.
Lemma zlen_cons {A} (a : A) l : zlen (a :: l) = 1 + zlen l.
Proof. unfold zlen. simpl. lia. Qed.
Lemma zlen_app {A} (l k : list A) : zlen (l ++ k) = zlen l + zlen k.
Proof. unfold zlen. rewrite length_app. lia. Qed.
Lemma zlen_nonneg {A} (l : list A) : 0 ≤ zlen l.
Proof. unfold zlen. lia. Qed.
Lemma zlen_replicate {A} n (a : A) : zlen (replicate n a) = Z.of_nat n.
Proof. unfold zlen. by rewrite length_replicate. Qed.
Lemma zlen_map {A B} (f : A → B) l : zlen (map f l) = zlen l.
Proof. unfold zlen. by rewrite length_map. Qed.
#[export] Hint Rewrite @zlen_nil @zlen_cons @zlen_app @zlen_replicate @zlen_map : zlen.

Lemma zlen_zslice {A} off n (l : list A) :
  0 ≤ off → 0 ≤ n → off + n ≤ zlen l → zlen (zslice off n l) = n.
Proof. unfold zlen, zslice. intros. rewrite length_take, length_drop. lia. Qed.

Lemma zslice_full {A} n (l : list A) : n = zlen l → zslice 0 n l = l.
Proof. unfold zlen, zslice. intros ->. rewrite drop_0, take_ge; [done|lia]. Qed.

Lemma zslice_zslice {A} o1 n1 o2 n2 (l : list A) :
  0 ≤ o1 → 0 ≤ n1 → 0 ≤ o2 → o1 + n1 ≤ n2 →
  zslice o1 n1 (zslice o2 n2 l) = zslice (o1 + o2) n1 l.
Proof.
  unfold zslice. intros.
  rewrite skipn_firstn_comm, drop_drop, take_take. f_equal; [lia|]. f_equal. lia.
Qed.

Lemma zslice_app_l {A} off n (l k : list A) :
  0 ≤ off → 0 ≤ n → off + n ≤ zlen l → zslice off n (l ++ k) = zslice off n l.
Proof.
  unfold zslice, zlen. intros.
  rewrite drop_app_le by lia. rewrite take_app_le; [done|]. rewrite length_drop. lia.
Qed.

Lemma zslice_app_r {A} off n (l k : list A) :
  zlen l ≤ off → zslice off n (l ++ k) = zslice (off - zlen l) n k.
Proof.
  unfold zslice, zlen. intros. rewrite drop_app_ge by lia. do 2 f_equal. lia.
Qed.

Lemma zslice_app_mid {A} off n (l k : list A) :
  0 ≤ off ≤ zlen l → zlen l - off ≤ n →
  zslice off n (l ++ k) = zslice off (zlen l - off) l ++ zslice 0 (n - (zlen l - off)) k.
Proof.
  unfold zslice, zlen. intros.
  rewrite drop_app_le by lia. rewrite take_app_ge by (rewrite length_drop; lia).
  rewrite (take_ge (drop _ l)) by (rewrite length_drop; lia).
  rewrite length_drop, drop_0. do 2 f_equal. lia.
Qed.

Lemma zslice_0 {A} off (l : list A) : zslice off 0 l = [].
Proof. done. Qed.

Lemma zslice_0_app {A} (l k : list A) : zslice 0 (zlen l) (l ++ k) = l.
Proof. rewrite zslice_app_l by (pose proof (zlen_nonneg l); lia). by apply zslice_full. Qed.

Lemma zslice_clip {A} off n (l : list A) :
  0 ≤ off ≤ zlen l → zlen l - off ≤ n → zslice off n l = zslice off (zlen l - off) l.
Proof.
  unfold zslice, zlen. intros. rewrite !take_ge; [done|..]; rewrite length_drop; lia.
Qed.

Lemma zslice_past {A} off n (l : list A) : zlen l ≤ off → zslice off n l = [].
Proof. unfold zslice, zlen. intros. rewrite drop_ge by lia. by rewrite take_nil. Qed.

(** ** Total correctness *)

(** [wp m s Q]: [m] returns from [s], and [Q] holds of result and state. *)
Definition wp {S A} (m : M S A) (s : S) (Q : A → S → Prop) : Prop :=
  match m s with Ok (a, s') => Q a s' | Crash _ => False end.

Section wp.
Context {S A B : Type}.
Implicit Types (s : S).

Lemma wp_ret (a : A) s (Q : A → S → Prop) : Q a s → wp (mret a) s Q.
Proof. done. Qed.
Lemma wp_bind (m : M S A) (f : A → M S B) s Q :
  wp m s (λ a s', wp (f a) s' Q) → wp (m ≫= f) s Q.
Proof. unfold wp, mbind, M_bind. by destruct (m s) as [[a s']|]. Qed.
Lemma wp_then {C} (m : M S A) (f : A → M S B) (g : B → M S C) s Q :
  wp (m ≫= f) s (λ b s', wp (g b) s' Q) → wp (a ← m; b ← f a; g b) s Q.
Proof. unfold wp, mbind, M_bind. destruct (m s) as [[a s1]|]; [|done]. by destruct (f a s1) as [[b s2]|]. Qed.
Lemma wp_mono (m : M S A) s (Q Q' : A → S → Prop) :
  wp m s Q → (∀ a s', Q a s' → Q' a s') → wp m s Q'.
Proof. unfold wp. destruct (m s) as [[a s']|]; auto. Qed.
Lemma wp_inv (m : M S A) s Q : wp m s Q → ∃ a s', m s = Ok (a, s') ∧ Q a s'.
Proof. unfold wp. destruct (m s) as [[a s']|]; [eauto|done]. Qed.
Lemma wp_and (m : M S A) s (Q Q' : A → S → Prop) : wp m s Q → wp m s Q' → wp m s (λ a s', Q a s' ∧ Q' a s').
Proof. unfold wp. destruct (m s) as [[a s']|]; auto. Qed.
Lemma wp_gets (f : S → A) s (Q : A → S → Prop) : Q (f s) s → wp (gets f) s Q.
Proof. done. Qed.
Lemma wp_assert b s (Q : unit → S → Prop) : b = true → Q tt s → wp (assert_M b) s Q.
Proof. by intros ->. Qed.
End wp.
