(* ===== verification/DispatchTime.v ===== *)
(** * libdispatch time values

    Model of src/libdispatch-913.60.2/src/time.c in the build where mach time
    is counted in nanoseconds ([DISPATCH_TIME_UNIT_USES_NANOSECONDS], x86, from
    shims/time.h), so the [long double] conversions of the host-time build are
    not compiled.  A [dispatch_time_t] is a 64-bit word: 0 is "now", all ones is
    "forever", a word whose sign bit is set is the negated number of nanoseconds
    since the epoch (wall clock) and any other word is a mach absolute time.

    The two clocks the code reads ([mach_absolute_time] and
    [clock_gettime_nsec_np]) are the fields of [clocks], one reading per call. *)

From S2P Require Import Prelude.

Module Time.

Record clocks := {
  mach_absolute_time : Z;
  clock_realtime_nsec : Z;
}.

Record timespec := { tv_sec : Z; tv_nsec : Z }.

Definition NSEC_PER_SEC : Z := 1000000000.
Definition DISPATCH_TIME_FOREVER : Z := UINT64_MAX.
Definition DISPATCH_TIME_NOW : Z := 0.

Definition dispatch_time_mach2nano (machtime : Z) : Z := machtime.
Definition dispatch_time_nano2mach (nsec : Z) : Z := nsec.

Definition dispatch_timespec_to_nano (ts : timespec) : Z :=
  u64 (u64 (tv_sec ts) * NSEC_PER_SEC + u64 (tv_nsec ts)).

Definition dispatch_time (clk : clocks) (inval delta : Z) : Z :=
  if inval =? DISPATCH_TIME_FOREVER then DISPATCH_TIME_FOREVER
  else if i64 inval <? 0 then
    (* wall clock *)
    if 0 <=? delta then
      let offset := u64 delta in
      let inval := u64 (inval - offset) in
      if 0 <=? i64 inval then DISPATCH_TIME_FOREVER (* overflow *) else inval
    else
      let offset := u64 (i64 (- delta)) in
      let inval := u64 (inval + offset) in
      if -1 <=? i64 inval then u64 (-2) (* underflow *) else inval
  else
    (* mach clock *)
    let inval := if inval =? 0 then mach_absolute_time clk else inval in
    if 0 <=? delta then
      let offset := dispatch_time_nano2mach (u64 delta) in
      let inval := u64 (inval + offset) in
      if i64 inval <=? 0 then DISPATCH_TIME_FOREVER (* overflow *) else inval
    else
      let offset := dispatch_time_nano2mach (u64 (i64 (- delta))) in
      let inval := u64 (inval - offset) in
      if i64 inval <? 1 then 1 (* underflow *) else inval.

Definition dispatch_walltime (clk : clocks) (inval : option timespec) (delta : Z) : Z :=
  let nsec :=
    match inval with
    | Some ts => i64 (dispatch_timespec_to_nano ts)
    | None => i64 (clock_realtime_nsec clk)
    end in
  let nsec := i64 (nsec + delta) in
  if nsec <=? 1 then
    if 0 <=? delta then DISPATCH_TIME_FOREVER else u64 (-2)
  else u64 (- nsec).

Definition dispatch_timeout (clk : clocks) (when : Z) : Z :=
  if when =? DISPATCH_TIME_FOREVER then DISPATCH_TIME_FOREVER
  else if when =? 0 then 0
  else if i64 when <? 0 then
    let when := u64 (i64 (- i64 when)) in
    let now := clock_realtime_nsec clk in
    if when <=? now then 0 else u64 (when - now)
  else
    let now := mach_absolute_time clk in
    if when <=? now then 0 else dispatch_time_mach2nano (u64 (when - now)).

Definition dispatch_time_nanoseconds_since_epoch (clk : clocks) (when : Z) : Z :=
  if when =? DISPATCH_TIME_FOREVER then DISPATCH_TIME_FOREVER
  else if i64 when <? 0 then u64 (i64 (- i64 when))
  else u64 (clock_realtime_nsec clk + dispatch_timeout clk when).

(** The value in nanoseconds of a timespec whose fields are in range. *)
Definition timespec_ok (ts : timespec) : Prop :=
  0 ≤ tv_sec ts ∧ 0 ≤ tv_nsec ts < NSEC_PER_SEC ∧
  tv_sec ts * NSEC_PER_SEC + tv_nsec ts < 2 ^ 63.

Lemma timespec_to_nano_ok ts :
  timespec_ok ts →
  dispatch_timespec_to_nano ts = tv_sec ts * NSEC_PER_SEC + tv_nsec ts.
Proof.
  unfold timespec_ok, dispatch_timespec_to_nano, NSEC_PER_SEC. intros (?&?&?).
  rewrite (wrapu_small 64 (tv_sec ts)), (wrapu_small 64 (tv_nsec ts)) by lia.
  apply wrapu_small. lia.
Qed.

(** Moving a wall-clock time by [delta] nanoseconds saturates: past the
    representable range the result is "forever", at or before 1 ns after the
    epoch it is the earliest wall time (2 ns), otherwise it is exact; the
    64-bit wrap-around never leaks out. *)
Theorem dispatch_time_wall_saturates clk t delta :
  2 ≤ t ≤ 2 ^ 63 → is_i64 delta →
  dispatch_time clk (u64 (- t)) delta =
    if t + delta >? 2 ^ 63 then DISPATCH_TIME_FOREVER
    else if t + delta <=? 1 then u64 (-2)
    else u64 (- (t + delta)).
Proof.
  intros Ht Hd. unfold dispatch_time, DISPATCH_TIME_FOREVER.
  repeat case_match; wrap_lia.
Qed.

Lemma dispatch_time_wall_saturates_witness :
  dispatch_time {| mach_absolute_time := 5; clock_realtime_nsec := 7 |} (u64 (- 1000)) (-400)
  = u64 (- 600).
Proof.
  rewrite (dispatch_time_wall_saturates _ 1000 (-400)); [reflexivity | lia | ].
  unfold is_i64; lia.
Defined.

(** The same for the mach clock: a positive absolute time (or "now")
    plus [delta] is exact while it stays in 1 .. INT64_MAX, "forever" above
    and 1 below. *)
Theorem dispatch_time_mach_saturates clk inval delta :
  0 ≤ inval < 2 ^ 63 → 0 < mach_absolute_time clk < 2 ^ 63 → is_i64 delta →
  let base := if inval =? DISPATCH_TIME_NOW then mach_absolute_time clk else inval in
  dispatch_time clk inval delta =
    if base + delta >? INT64_MAX then DISPATCH_TIME_FOREVER
    else if base + delta <? 1 then 1
    else base + delta.
Proof.
  intros Hi Hn Hd base. subst base.
  unfold dispatch_time, dispatch_time_nano2mach, DISPATCH_TIME_FOREVER, DISPATCH_TIME_NOW.
  destruct (inval =? 2 ^ 64 - 1) eqn:?; [wrap_lia|].
  destruct (i64 inval <? 0) eqn:?; [wrap_lia|].
  destruct (inval =? 0) eqn:?; repeat case_match; wrap_lia.
Qed.

Lemma dispatch_time_mach_saturates_witness :
  dispatch_time {| mach_absolute_time := 5; clock_realtime_nsec := 7 |} 0 INT64_MAX
  = DISPATCH_TIME_FOREVER.
Proof.
  rewrite (dispatch_time_mach_saturates _ 0 INT64_MAX);
    [reflexivity | lia | simpl; lia | unfold is_i64; lia].
Defined.

(** Round trip through the wall-clock encoding: for an in-range timespec
    moved by [delta] to an instant at least 2 ns after the epoch, the
    nanoseconds since the epoch of the encoded time are exactly the sum. *)
Theorem dispatch_walltime_roundtrip clk ts delta :
  timespec_ok ts → is_i64 delta →
  let n := tv_sec ts * NSEC_PER_SEC + tv_nsec ts + delta in
  2 ≤ n < 2 ^ 63 →
  dispatch_time_nanoseconds_since_epoch clk (dispatch_walltime clk (Some ts) delta) = n.
Proof.
  intros Hts Hd n Hn.
  pose proof (timespec_to_nano_ok ts Hts) as Hnano.
  unfold dispatch_walltime. rewrite Hnano.
  destruct Hts as (Hs & Hns & Hb).
  set (m := tv_sec ts * NSEC_PER_SEC + tv_nsec ts) in *.
  assert (0 ≤ m < 2 ^ 63) as Hm by (unfold m, NSEC_PER_SEC in *; lia).
  rewrite (wraps_small 64 m) by (simpl; lia).
  rewrite (wraps_small 64 (m + delta)) by (simpl; lia). fold n.
  destruct (n <=? 1) eqn:?; [lia|].
  unfold dispatch_time_nanoseconds_since_epoch, DISPATCH_TIME_FOREVER.
  clear -Hn. repeat case_match; wrap_lia.
Qed.

Lemma dispatch_walltime_roundtrip_witness :
  dispatch_time_nanoseconds_since_epoch {| mach_absolute_time := 5; clock_realtime_nsec := 7 |}
    (dispatch_walltime {| mach_absolute_time := 5; clock_realtime_nsec := 7 |}
       (Some {| tv_sec := 3; tv_nsec := 14 |}) (-4)) = 3000000010.
Proof.
  rewrite dispatch_walltime_roundtrip; [reflexivity | | | ].
  - unfold timespec_ok, NSEC_PER_SEC; simpl; lia.
  - unfold is_i64; lia.
  - unfold NSEC_PER_SEC; simpl; lia.
Defined.

(** A relative deadline made with either clock is waited for exactly:
    the timeout of [dispatch_time(NOW, delta)] and of
    [dispatch_walltime(NULL, delta)], read at the same instant, is [delta]. *)
Theorem dispatch_timeout_of_deadline clk delta :
  0 < mach_absolute_time clk < 2 ^ 63 → 1 < clock_realtime_nsec clk < 2 ^ 63 →
  0 ≤ delta → mach_absolute_time clk + delta < 2 ^ 63 →
  clock_realtime_nsec clk + delta < 2 ^ 63 →
  dispatch_timeout clk (dispatch_time clk DISPATCH_TIME_NOW delta) = delta ∧
  dispatch_timeout clk (dispatch_walltime clk None delta) = delta.
Proof.
  destruct clk as [abs wall]; simpl. intros Ha Hw Hd Hs1 Hs2. split.
  - unfold dispatch_time, dispatch_timeout, DISPATCH_TIME_NOW, DISPATCH_TIME_FOREVER,
      dispatch_time_nano2mach, dispatch_time_mach2nano.
    cbn [mach_absolute_time clock_realtime_nsec].
    change (0 =? 2 ^ 64 - 1) with false. change (i64 0 <? 0) with false.
    change (0 =? 0) with true. cbv iota beta zeta.
    rewrite (wrapu_small 64 delta), (wrapu_small 64 (abs + delta)) by lia.
    rewrite (wraps_small 64 (abs + delta)) by (simpl; lia).
    destruct (0 <=? delta) eqn:?; [|lia].
    destruct (abs + delta <=? 0) eqn:?; [lia|].
    rewrite (wraps_small 64 (abs + delta)) by (simpl; lia).
    clear -Ha Hd Hs1. repeat case_match; wrap_lia.
  - unfold dispatch_walltime, dispatch_timeout, DISPATCH_TIME_FOREVER.
    cbn [mach_absolute_time clock_realtime_nsec].
    rewrite (wraps_small 64 wall), (wraps_small 64 (wall + delta)) by (simpl; lia).
    destruct (wall + delta <=? 1) eqn:?; [lia|].
    repeat case_match; wrap_lia.
Qed.

Lemma dispatch_timeout_of_deadline_witness :
  let clk := {| mach_absolute_time := 5; clock_realtime_nsec := 7 |} in
  dispatch_timeout clk (dispatch_time clk DISPATCH_TIME_NOW 100) = 100 ∧
  dispatch_timeout clk (dispatch_walltime clk None 100) = 100.
Proof. simpl. apply dispatch_timeout_of_deadline; simpl; lia. Defined.

(** The overflow branch of [dispatch_walltime] is also taken without any
    overflow: an in-range instant at 0 or 1 ns after the epoch with a
    non-negative [delta] is encoded as "forever" although it lies in the past,
    where a negative [delta] would give the earliest wall time. *)
Theorem dispatch_walltime_epoch_is_forever clk ts delta :
  timespec_ok ts → 0 ≤ delta →
  tv_sec ts * NSEC_PER_SEC + tv_nsec ts + delta ≤ 1 →
  dispatch_walltime clk (Some ts) delta = DISPATCH_TIME_FOREVER.
Proof.
  intros Hts Hd Hle. unfold dispatch_walltime. rewrite timespec_to_nano_ok by done.
  destruct Hts as (? & ? & ?).
  set (m := tv_sec ts * NSEC_PER_SEC + tv_nsec ts) in *.
  assert (0 ≤ m) by (unfold m, NSEC_PER_SEC in *; lia).
  rewrite (wraps_small 64 m), (wraps_small 64 (m + delta)) by (simpl; lia).
  repeat case_match; lia.
Qed.

Lemma dispatch_walltime_epoch_is_forever_witness :
  dispatch_walltime {| mach_absolute_time := 5; clock_realtime_nsec := 7 |}
    (Some {| tv_sec := 0; tv_nsec := 0 |}) 0 = DISPATCH_TIME_FOREVER.
Proof.
  apply dispatch_walltime_epoch_is_forever; [|lia|simpl; lia].
  unfold timespec_ok, NSEC_PER_SEC; simpl; lia.
Defined.

End Time.
