(* ===== verification/DispatchData.v ===== *)
(** * Dispatch data objects: definitions

    Model of src/libdispatch-913.60.2/src/data.c (with the inline helpers of
    data_internal.h and the reference counting of object.c), in the build where
    dispatch data is not bridged to NSData.  The heap holds the live data
    objects and the live memory blocks; a [dispatch_data_t] is a location, a
    [void *] a block and an offset into it. *)

From S2P Require Import Prelude.

Module Data.

Abbreviation loc := positive.
Abbreviation block := positive.

Record ptr := Ptr { p_block : block; p_off : Z }.

Definition ptr_add (p : ptr) (n : Z) : ptr := Ptr (p_block p) (p_off p + n).

(** A destructor is one of the constants of dispatch/data.h, a client block,
    or the block [dispatch_data_create_f] wraps around a client function. *)
Inductive destructor :=
| DESTRUCTOR_DEFAULT
| DESTRUCTOR_FREE
| DESTRUCTOR_NONE
| DESTRUCTOR_VM_DEALLOCATE
| DESTRUCTOR_INLINE
| DESTRUCTOR_BLOCK (id : Z)
| DESTRUCTOR_FUNCTION (id : Z) (arg : option ptr).

#[export] Instance ptr_eq_dec : EqDecision ptr.
Proof. solve_decision. Defined.
#[export] Instance destructor_eq_dec : EqDecision destructor.
Proof. solve_decision. Defined.

Record range_record := RR { data_object : loc; from : Z; length_ : Z }.

(** [struct dispatch_data_s]: the object header's two reference counts, the
    target queue ([None] is the default global queue, whose count never
    changes), the fields of data_internal.h, and the block of extra bytes
    allocated with the object itself, if any. [num_records] is the length of
    [records]. *)
Record dispatch_data_s := DD {
  do_xref_cnt : Z;
  do_ref_cnt : Z;
  do_targetq : option Z;
  buf : option ptr;
  destructor_ : destructor;
  size : Z;
  records : list range_record;
  inline_block : option block;
}.

(** What a disposal does outside the heap. *)
Inductive event :=
| EvAsync (queue : option Z) (d : destructor)
| EvVmDeallocate (p : option ptr) (n : Z)
| EvRetainQueue (q : Z)
| EvReleaseQueue (q : Z).

Record heap := Heap {
  objs : gmap loc dispatch_data_s;
  mem : gmap block (list Z);
  next_loc : loc;
  next_block : block;
  malloc_fails : list bool;   (* whether the coming malloc calls return NULL *)
  events : list event;
}.

Abbreviation D := (M heap).

Definition INT_MAX : Z := 2 ^ 31 - 1.
Definition GLOBAL_REFCNT : Z := INT_MAX.
Definition dispatch_data_empty : loc := 1%positive.
Definition empty_object : dispatch_data_s :=
  DD GLOBAL_REFCNT GLOBAL_REFCNT None None DESTRUCTOR_DEFAULT 0 [] None.

Definition initial_heap (faults : list bool) : heap :=
  Heap {[dispatch_data_empty := empty_object]} ∅ 2 1 faults [].

(** ** Memory and object access *)

Definition set_objs (f : gmap loc dispatch_data_s → gmap loc dispatch_data_s) (h : heap) : heap :=
  Heap (f (objs h)) (mem h) (next_loc h) (next_block h) (malloc_fails h) (events h).
Definition set_mem (f : gmap block (list Z) → gmap block (list Z)) (h : heap) : heap :=
  Heap (objs h) (f (mem h)) (next_loc h) (next_block h) (malloc_fails h) (events h).
Definition add_event (e : event) (h : heap) : heap :=
  Heap (objs h) (mem h) (next_loc h) (next_block h) (malloc_fails h) (events h ++ [e]).

Definition get_obj (l : loc) : D dispatch_data_s := λ h,
  match objs h !! l with Some o => Ok (o, h) | None => Crash BAD_ACCESS end.
Definition put_obj (l : loc) (o : dispatch_data_s) : D unit :=
  modify (set_objs (<[l := o]>)).

(** The [n] bytes at [p]. *)
Definition load (m : gmap block (list Z)) (p : ptr) (n : Z) : option (list Z) :=
  match m !! p_block p with
  | Some bs =>
      if (0 <=? p_off p) && (0 <=? n) && (p_off p + n <=? zlen bs)
      then Some (zslice (p_off p) n bs)
      else None
  | None => None
  end.

Definition read_bytes (p : ptr) (n : Z) : D (list Z) := λ h,
  match load (mem h) p n with Some bs => Ok (bs, h) | None => Crash BAD_ACCESS end.

Definition alloc_block (bs : list Z) : D block := λ h,
  Ok (next_block h,
      Heap (objs h) (<[next_block h := bs]> (mem h)) (next_loc h)
           (Pos.succ (next_block h)) (malloc_fails h) (events h)).

(** [malloc]: the schedule says whether the call fails. The bytes of a fresh
    block are unspecified in C; the model has zeros. *)
Definition malloc (n : Z) : D (option ptr) := λ h,
  let fails := match malloc_fails h with b :: _ => b | [] => false end in
  let h := Heap (objs h) (mem h) (next_loc h) (next_block h)
                (tail (malloc_fails h)) (events h) in
  if fails then Ok (None, h)
  else (b ← alloc_block (replicate (Z.to_nat n) 0); mret (Some (Ptr b 0))) h.

(** [memcpy] to [p]: the destination range must lie in a live block. *)
Definition write_bytes (p : ptr) (src : list Z) : D unit := λ h,
  match mem h !! p_block p with
  | Some bs =>
      if (0 <=? p_off p) && (p_off p + Z.of_nat (length src) <=? Z.of_nat (length bs))
      then
        let i := Z.to_nat (p_off p) in
        Ok (tt, set_mem (<[p_block p := take i bs ++ src ++ drop (i + length src)%nat bs]>) h)
      else Crash BAD_ACCESS
  | None => Crash BAD_ACCESS
  end.

Definition free_block (b : block) : D unit := λ h,
  match mem h !! b with
  | Some _ => Ok (tt, set_mem (delete b) h)
  | None => Crash BAD_FREE
  end.

Definition free (p : option ptr) : D unit :=
  match p with
  | None => mret tt
  | Some p => if p_off p =? 0 then free_block (p_block p) else crash BAD_FREE
  end.

(** ** Reference counts (object.c) *)

Definition with_xref (o : dispatch_data_s) (n : Z) : dispatch_data_s :=
  DD n (do_ref_cnt o) (do_targetq o) (buf o) (destructor_ o) (size o) (records o)
     (inline_block o).
Definition with_ref (o : dispatch_data_s) (n : Z) : dispatch_data_s :=
  DD (do_xref_cnt o) n (do_targetq o) (buf o) (destructor_ o) (size o) (records o)
     (inline_block o).
Definition with_buf (o : dispatch_data_s) (p : option ptr) : dispatch_data_s :=
  DD (do_xref_cnt o) (do_ref_cnt o) (do_targetq o) p (destructor_ o) (size o) (records o)
     (inline_block o).
Definition with_targetq (o : dispatch_data_s) (q : option Z) : dispatch_data_s :=
  DD (do_xref_cnt o) (do_ref_cnt o) q (buf o) (destructor_ o) (size o) (records o)
     (inline_block o).

(** [dispatch_retain] / [_os_object_retain]. *)
Definition dispatch_retain (l : loc) : D unit :=
  o ← get_obj l;
  let xref_cnt := do_xref_cnt o in
  (if xref_cnt =? GLOBAL_REFCNT then mret tt
   else put_obj l (with_xref o (i32 (xref_cnt + 1)))) ≫= λ _,
  if xref_cnt <? 0 then crash CLIENT_CRASH else mret tt.

(** ** Destruction of buffers and objects *)

Definition retain_queue (q : option Z) : D unit :=
  match q with Some q => modify (add_event (EvRetainQueue q)) | None => mret tt end.
Definition release_queue (q : option Z) : D unit :=
  match q with Some q => modify (add_event (EvReleaseQueue q)) | None => mret tt end.

Definition _dispatch_data_destroy_buffer (buffer : option ptr) (n : Z) (queue : option Z)
    (d : destructor) : D unit :=
  match d with
  | DESTRUCTOR_FREE => free buffer
  | DESTRUCTOR_NONE => mret tt
  | DESTRUCTOR_VM_DEALLOCATE => modify (add_event (EvVmDeallocate buffer n))
  | d => modify (add_event (EvAsync queue d))
  end.

Definition _dispatch_data_leaf (o : dispatch_data_s) : bool :=
  match records o with [] => true | _ => false end.

Definition _dispatch_data_num_records (o : dispatch_data_s) : nat :=
  match length (records o) with O => 1%nat | n => n end.

(** [_dispatch_data_dispose], given how a constituent is released. *)
Definition _dispatch_data_dispose (release : loc → D unit) (l : loc) : D unit :=
  dd ← get_obj l;
  if _dispatch_data_leaf dd then
    _dispatch_data_destroy_buffer (buf dd) (size dd) (do_targetq dd) (destructor_ dd)
  else
    for_M (records dd) (λ r, release (data_object r)) ≫= λ _,
    free (buf dd).

(** [_dispatch_object_dealloc]: the object's memory, with the bytes inlined
    in it. *)
Definition _dispatch_object_dealloc (l : loc) : D unit :=
  o ← get_obj l;
  modify (set_objs (delete l)) ≫= λ _,
  match inline_block o with Some b => free_block b | None => mret tt end.

(** [_dispatch_dispose]: no finalizer is set on data objects. *)
Definition _dispatch_dispose (release : loc → D unit) (l : loc) : D unit :=
  o ← get_obj l;
  let tq := do_targetq o in
  _dispatch_data_dispose release l ≫= λ _,
  _dispatch_object_dealloc l ≫= λ _,
  release_queue tq.

(** [_os_object_release_internal], reached when the last external reference
    goes. *)
Definition release_internal (release : loc → D unit) (l : loc) : D unit :=
  o ← get_obj l;
  if do_ref_cnt o =? GLOBAL_REFCNT then mret tt
  else
    let ref_cnt := i32 (do_ref_cnt o - 1) in
    put_obj l (with_ref o ref_cnt) ≫= λ _,
    if 0 <=? ref_cnt then mret tt
    else if ref_cnt <? -1 then crash CLIENT_CRASH
    else _dispatch_dispose release l.

(** [dispatch_release] / [_os_object_release]; [fuel] bounds the nesting of
    disposals. *)
Fixpoint dispatch_release_fuel (fuel : nat) (l : loc) : D unit :=
  match fuel with
  | O => crash OUT_OF_FUEL
  | S fuel =>
      o ← get_obj l;
      if do_xref_cnt o =? GLOBAL_REFCNT then mret tt
      else
        let xref_cnt := i32 (do_xref_cnt o - 1) in
        put_obj l (with_xref o xref_cnt) ≫= λ _,
        if 0 <=? xref_cnt then mret tt
        else if xref_cnt <? -1 then crash CLIENT_CRASH
        else release_internal (dispatch_release_fuel fuel) l
  end.

(** "dispatch_data_t's are either leaves, or composite objects pointing to
    leaves. Depth is never greater than 1": two levels of recursion. *)
Definition DATA_DEPTH : nat := 2.
Definition dispatch_release (l : loc) : D unit := dispatch_release_fuel DATA_DEPTH l.

(** ** Creation *)

Definition SIZEOF_DISPATCH_DATA_S : Z := 80.
Definition SIZEOF_RANGE_RECORD : Z := 24.

(** [_dispatch_data_alloc]: zeroed object with room for the records; NULL when
    the size computation overflows.  [_dispatch_object_alloc] retries until
    calloc succeeds.  The caller gives the records it stores; [extra] bytes are
    zeroed in a block that lives and dies with the object. *)
Definition _dispatch_data_alloc (recs : list range_record) (extra : list Z) : D (option loc) := λ h,
  let base_size := SIZEOF_DISPATCH_DATA_S + Z.of_nat (length extra) in
  if base_size >? SIZE_T_MAX then Ok (None, h)
  else if Z.of_nat (length recs) * SIZEOF_RANGE_RECORD + base_size >? SIZE_T_MAX
  then Ok (None, h)
  else
    let l := next_loc h in
    let '(ib, m, nb) :=
      match extra with
      | [] => (None, mem h, next_block h)
      | _ => (Some (next_block h), <[next_block h := extra]> (mem h), Pos.succ (next_block h))
      end in
    Ok (Some l,
        Heap (<[l := DD 0 0 None None DESTRUCTOR_DEFAULT 0 recs ib]> (objs h)) m
             (Pos.succ l) nb (malloc_fails h) (events h)).

Definition _dispatch_data_init (data : loc) (buffer : option ptr) (n : Z)
    (queue : option Z) (d : destructor) : D unit :=
  o ← get_obj data;
  put_obj data (DD (do_xref_cnt o) (do_ref_cnt o) (do_targetq o) buffer d n (records o)
                   (inline_block o)) ≫= λ _,
  match queue with
  | Some q =>
      retain_queue (Some q) ≫= λ _,
      o ← get_obj data;
      put_obj data (with_targetq o (Some q))
  | None => mret tt
  end.

Definition destructor_is_default (d : destructor) : bool :=
  match d with DESTRUCTOR_DEFAULT => true | _ => false end.

Definition _dispatch_data_init_with_bytes (data : loc) (buffer : option ptr) (n : Z)
    (d : destructor) : D unit :=
  if (match buffer with None => true | _ => false end) || (n =? 0) then
    (if destructor_is_default d then mret tt
     else _dispatch_data_destroy_buffer buffer n None d) ≫= λ _,
    _dispatch_data_init data None 0 None DESTRUCTOR_NONE
  else _dispatch_data_init data buffer n None d.

Definition dispatch_data_create (buffer : option ptr) (n : Z) (queue : option Z)
    (d : destructor) : D (option loc) :=
  match buffer with
  | Some p =>
      if n =? 0 then
        (if destructor_is_default d then mret tt
         else _dispatch_data_destroy_buffer (Some p) n queue d) ≫= λ _,
        mret (Some dispatch_data_empty)
      else
        match d with
        | DESTRUCTOR_DEFAULT =>
            bs ← read_bytes p n;
            data_buf ← malloc n;
            match data_buf with
            | None => mret None
            | Some data_buf =>
                write_bytes data_buf bs ≫= λ _,
                data ← _dispatch_data_alloc [] [];
                data ← nonnull data;
                _dispatch_data_init data (Some data_buf) n queue DESTRUCTOR_FREE ≫= λ _,
                mret (Some data)
            end
        | DESTRUCTOR_INLINE =>
            bs ← read_bytes p n;
            data ← _dispatch_data_alloc [] bs;
            data ← nonnull data;
            o ← get_obj data;
            ib ← nonnull (inline_block o);
            _dispatch_data_init data (Some (Ptr ib 0)) n queue DESTRUCTOR_NONE ≫= λ _,
            mret (Some data)
        | d =>
            data ← _dispatch_data_alloc [] [];
            data ← nonnull data;
            _dispatch_data_init data (Some p) n queue d ≫= λ _,
            mret (Some data)
        end
  | None =>
      (if destructor_is_default d then mret tt
       else _dispatch_data_destroy_buffer None n queue d) ≫= λ _,
      mret (Some dispatch_data_empty)
  end.

Definition dispatch_data_create_f (buffer : option ptr) (n : Z) (queue : option Z)
    (destructor_function : destructor) : D (option loc) :=
  let d := match destructor_function with
           | DESTRUCTOR_BLOCK id => DESTRUCTOR_FUNCTION id buffer
           | d => d
           end in
  dispatch_data_create buffer n queue d.

Definition dispatch_data_create_alloc (n : Z) : D (option loc * option ptr) :=
  if n =? 0 then mret (Some dispatch_data_empty, None)
  else
    data ← _dispatch_data_alloc [] (replicate (Z.to_nat n) 0);
    data ← nonnull data;
    o ← get_obj data;
    ib ← nonnull (inline_block o);
    _dispatch_data_init data (Some (Ptr ib 0)) n None DESTRUCTOR_NONE ≫= λ _,
    mret (Some data, Some (Ptr ib 0)).

Definition _dispatch_data_set_target_queue (l : loc) (tq : option Z) : D unit :=
  retain_queue tq ≫= λ _,
  o ← get_obj l;
  put_obj l (with_targetq o tq) ≫= λ _,
  release_queue (do_targetq o).

Definition dispatch_data_get_size (l : loc) : D Z :=
  o ← get_obj l; mret (size o).

(** ** Concatenation and subranges *)

(** The records an object contributes to a composite: its own, or one that
    covers the whole leaf. *)
Definition records_of (l : loc) (o : dispatch_data_s) : list range_record :=
  if _dispatch_data_leaf o then [RR l 0 (size o)] else records o.

(** Allocate the composite, set its size and retain what it points to. *)
Definition alloc_composite (recs : list range_record) (n : Z) : D (option loc) :=
  data ← _dispatch_data_alloc recs [];
  data ← nonnull data;
  o ← get_obj data;
  put_obj data (DD (do_xref_cnt o) (do_ref_cnt o) (do_targetq o) (buf o) (destructor_ o)
                   n (records o) (inline_block o)) ≫= λ _,
  for_M recs (λ r, dispatch_retain (data_object r)) ≫= λ _,
  mret (Some data).

Definition dispatch_data_create_concat (dd1 dd2 : loc) : D (option loc) :=
  o1 ← get_obj dd1;
  o2 ← get_obj dd2;
  if size o1 =? 0 then dispatch_retain dd2 ≫= λ _, mret (Some dd2)
  else if size o2 =? 0 then dispatch_retain dd1 ≫= λ _, mret (Some dd1)
  else
    let n := Z.of_nat (_dispatch_data_num_records o1) + Z.of_nat (_dispatch_data_num_records o2) in
    if n >? SIZE_T_MAX then mret None
    else alloc_composite (records_of dd1 o1 ++ records_of dd2 o2) (u64 (size o1 + size o2)).

(** Find the record containing [offset]: the records from it on, and the
    offset into it. *)
Fixpoint find_record (rs : list range_record) (offset : Z) : list range_record * Z :=
  match rs with
  | [] => ([], offset)
  | r :: rs' => if length_ r <=? offset then find_record rs' (offset - length_ r)
                else (r :: rs', offset)
  end.

(** Find the record containing the end of the range: [rs] are the records
    after the first one; the number of records and the length kept of the
    last. *)
Fixpoint find_last (rs : list range_record) (count : nat) (last_length : Z) : D (nat * Z) :=
  match rs with
  | [] => mret (count, last_length)
  | r :: rs' =>
      let count := S count in
      if last_length <=? length_ r then mret (count, last_length)
      else
        let last_length := last_length - length_ r in
        match rs' with
        | [] => crash INTERNAL_CRASH
        | _ => find_last rs' count last_length
        end
  end.

Definition trim_first (offset : Z) (rs : list range_record) : list range_record :=
  match rs with
  | r :: rs' =>
      if offset =? 0 then rs
      else RR (data_object r) (u64 (from r + offset)) (length_ r - offset) :: rs'
  | [] => []
  end.

Fixpoint set_last_length (last_length : Z) (rs : list range_record) : list range_record :=
  match rs with
  | [] => []
  | [r] => [RR (data_object r) (from r) last_length]
  | r :: rs' => r :: set_last_length last_length rs'
  end.

(** A trivial subrange: one record into a leaf. *)
Definition alloc_subrange (l : loc) (offset n : Z) : D (option loc) :=
  alloc_composite [RR l offset n] n.

Fixpoint create_subrange_fuel (fuel : nat) (dd : loc) (offset n : Z) : D (option loc) :=
  match fuel with
  | O => crash OUT_OF_FUEL
  | S fuel =>
      o ← get_obj dd;
      if (size o <=? offset) || (n =? 0) then mret (Some dispatch_data_empty)
      else if negb (size o - offset <? n) && (n =? size o) then
        dispatch_retain dd ≫= λ _, mret (Some dd)
      else
        let n := if size o - offset <? n then size o - offset else n in
        if _dispatch_data_leaf o then alloc_subrange dd offset n
        else
          let to_the_end := u64 (offset + n) =? size o in
          match find_record (records o) offset with
          | ([], _) => crash INTERNAL_CRASH
          | (r :: rest, offset) =>
              if u64 (offset + n) <=? length_ r then
                create_subrange_fuel fuel (data_object r) (u64 (from r + offset)) n
              else
                '(count, last_length) ←
                  (if to_the_end then mret (S (length rest), 0)
                   else find_last rest 1 (u64 (n - (length_ r - offset))));
                let recs := trim_first offset (take count (r :: rest)) in
                let recs := if to_the_end then recs else set_last_length last_length recs in
                alloc_composite recs n
          end
  end.

Definition dispatch_data_create_subrange (dd : loc) (offset n : Z) : D (option loc) :=
  create_subrange_fuel DATA_DEPTH dd offset n.

(** ** Mapping and iteration *)

(** [_dispatch_data_map_direct] of data_internal.h: the contiguous buffer of
    the object if it has one, seeing through a trivial subrange, with the
    object seen and the offset into it. *)
Definition _dispatch_data_map_direct (dd : loc) (offset : Z) : D (option ptr * loc * Z) :=
  o ← get_obj dd;
  assert_M (negb (size o =? 0)) ≫= λ _,
  '(dd, offset) ← (match records o with
                   | [r] => mret (data_object r, u64 (offset + from r))
                   | _ => mret (dd, offset)
                   end);
  o ← get_obj dd;
  let buffer :=
    match buf o with
    | Some p => Some (ptr_add p offset)
    | None => None
    end in
  mret (buffer, dd, offset).

Section Apply.
Context {S : Type} (f : loc → Z → ptr → Z → S → D (bool * S)).

(** The loop over the records of [_dispatch_data_apply], given how one
    constituent is visited. *)
Fixpoint apply_records (visit : loc → Z → Z → Z → S → D (bool * S))
    (rs : list range_record) (offset : Z) (result : bool) (s : S) : D (bool * S) :=
  match rs with
  | [] => mret (result, s)
  | r :: rs =>
      if result then
        '(result, s) ← visit (data_object r) offset (from r) (length_ r) s;
        apply_records visit rs (u64 (offset + length_ r)) result s
      else mret (result, s)
  end.

Fixpoint _dispatch_data_apply (fuel : nat) (dd : loc) (offset from_ n : Z) (s : S) : D (bool * S) :=
  match fuel with
  | O => crash OUT_OF_FUEL
  | Datatypes.S fuel =>
      '(buffer, _, _) ← _dispatch_data_map_direct dd 0;
      match buffer with
      | Some p => f dd offset (ptr_add p from_) n s
      | None =>
          o ← get_obj dd;
          apply_records (_dispatch_data_apply fuel) (records o) offset true s
      end
  end.

Definition dispatch_data_apply (dd : loc) (s : S) : D (bool * S) :=
  o ← get_obj dd;
  if size o =? 0 then mret (true, s)
  else _dispatch_data_apply DATA_DEPTH dd 0 0 (size o) s.
End Apply.

Definition _dispatch_data_flatten (dd : loc) : D (option ptr) :=
  o ← get_obj dd;
  buffer ← malloc (size o);
  match buffer with
  | None => mret None
  | Some buffer =>
      dispatch_data_apply (λ _ off p len (s : unit),
        bs ← read_bytes p len;
        write_bytes (ptr_add buffer off) bs ≫= λ _,
        mret (true, s)) dd tt ≫= λ _,
      mret (Some buffer)
  end.

(** [dispatch_data_create_map]: the mapped object with its buffer and size;
    a NULL object with size 0 when the flat copy cannot be allocated. *)
Definition dispatch_data_create_map (dd : loc) : D (option loc * option ptr * Z) :=
  o ← get_obj dd;
  let n := size o in
  if n =? 0 then mret (Some dispatch_data_empty, None, n)
  else
    '(buffer, _, _) ← _dispatch_data_map_direct dd 0;
    match buffer with
    | Some p => dispatch_retain dd ≫= λ _, mret (Some dd, Some p, n)
    | None =>
        buffer ← _dispatch_data_flatten dd;
        match buffer with
        | Some p =>
            data ← dispatch_data_create (Some p) n None DESTRUCTOR_FREE;
            mret (data, Some p, n)
        | None => mret (None, None, 0)
        end
    end.

(** [_dispatch_data_get_flattened_bytes]: the flat copy is installed in the
    object's [buf] if it still has none. *)
Definition _dispatch_data_get_flattened_bytes (dd : loc) : D (option ptr) :=
  o ← get_obj dd;
  if size o =? 0 then mret None
  else
    '(buffer, dd, offset) ← _dispatch_data_map_direct dd 0;
    match buffer with
    | Some p => mret (Some p)
    | None =>
        flatbuf ← _dispatch_data_flatten dd;
        match flatbuf with
        | None => mret None
        | Some flat =>
            o ← get_obj dd;
            match buf o with
            | Some p => free (Some flat) ≫= λ _, mret (Some (ptr_add p offset))
            | None =>
                put_obj dd (with_buf o (Some flat)) ≫= λ _,
                mret (Some (ptr_add flat offset))
            end
        end
    end.

(** ** Regions *)

(** The scan of the records in [_dispatch_data_copy_region]: the record that
    contains [location], with the part of it below [from_] cut off; the offset
    accumulated before it. *)
Fixpoint scan_region (rs : list range_record) (from_ location offset : Z)
    : option (range_record * Z * Z * Z) :=
  match rs with
  | [] => None
  | r :: rs =>
      let len := length_ r in
      if len <=? from_ then scan_region rs (from_ - len) location offset
      else
        let len := len - from_ in
        if u64 (offset + len) <=? location then scan_region rs 0 location (u64 (offset + len))
        else Some (r, u64 (from_ + from r), len, offset)
  end.

Fixpoint copy_region_fuel (fuel : nat) (dd : loc) (from_ n location offset_ptr : Z)
    : D (option loc * Z) :=
  match fuel with
  | O => crash OUT_OF_FUEL
  | S fuel =>
      o ← get_obj dd;
      let reusable := (from_ =? 0) && (n =? size o) in
      '(buffer, dd', from') ← _dispatch_data_map_direct dd from_;
      match buffer with
      | Some _ =>
          if reusable then dispatch_retain dd ≫= λ _, mret (Some dd, offset_ptr)
          else
            dispatch_retain dd' ≫= λ _,
            o' ← get_obj dd';
            if (from' =? 0) && (n =? size o') then mret (Some dd', offset_ptr)
            else
              data ← _dispatch_data_alloc [RR dd' from' n] [];
              data ← nonnull data;
              o ← get_obj data;
              put_obj data (DD (do_xref_cnt o) (do_ref_cnt o) (do_targetq o) (buf o)
                               (destructor_ o) n (records o) (inline_block o)) ≫= λ _,
              mret (Some data, offset_ptr)
      | None =>
          o' ← get_obj dd';
          match scan_region (records o') from' location 0 with
          | Some (r, from'', len, offset) =>
              copy_region_fuel fuel (data_object r) from'' len (location - offset)
                (u64 (offset_ptr + offset))
          | None => crash INTERNAL_CRASH
          end
      end
  end.

Definition dispatch_data_copy_region (dd : loc) (location : Z) : D (option loc * Z) :=
  o ← get_obj dd;
  if size o <=? location then mret (Some dispatch_data_empty, size o)
  else copy_region_fuel DATA_DEPTH dd 0 (size o) location 0.

End Data.
