(* ===== verification/DispatchDataInv.v ===== *)
(** * Dispatch data objects: contents, well-formedness, reference counts

    The abstract value of a data object is the byte string it represents; this
    file defines it, the invariant that the comment at the head of data.c
    states (leaves, trivial subranges, flattened and unflattened composites,
    depth at most one), and how retains and releases move the reference
    counts.  The operations' theorems are in DispatchDataSpec.v. *)

From S2P Require Import Prelude DispatchData.
Import Data.

(** ** Contents *)

Definition leaf_bytes (h : heap) (o : dispatch_data_s) : list Z :=
  default [] (buf o ≫= λ p, load (mem h) p (size o)).

Definition rec_bytes (h : heap) (r : range_record) : list Z :=
  match objs h !! data_object r with
  | Some o => zslice (from r) (length_ r) (leaf_bytes h o)
  | None => []
  end.

Definition obj_bytes (h : heap) (o : dispatch_data_s) : list Z :=
  if _dispatch_data_leaf o then leaf_bytes h o
  else concat (map (rec_bytes h) (records o)).

(** The byte string a data object represents. *)
Definition data_bytes (h : heap) (l : loc) : list Z :=
  match objs h !! l with Some o => obj_bytes h o | None => [] end.

(** The contiguous regions [dispatch_data_apply] visits. *)
Definition obj_regions (h : heap) (o : dispatch_data_s) : list (list Z) :=
  if size o =? 0 then []
  else if _dispatch_data_leaf o then [leaf_bytes h o]
  else match buf o with
       | Some _ => [obj_bytes h o]
       | None => map (rec_bytes h) (records o)
       end.
Definition regions (h : heap) (l : loc) : list (list Z) :=
  match objs h !! l with Some o => obj_regions h o | None => [] end.

(** ** Well-formedness *)

Definition sum_lengths (rs : list range_record) : Z :=
  foldr (λ r n, length_ r + n) 0 rs.

Record leaf_ok (h : heap) (o : dispatch_data_s) : Prop := {
  leaf_records : records o = [];
  leaf_size : 0 < size o < 2 ^ 64;
  leaf_buf : ∃ p, buf o = Some p ∧ load (mem h) p (size o) = Some (leaf_bytes h o);
}.

Definition rec_ok (h : heap) (r : range_record) : Prop :=
  data_object r ≠ dispatch_data_empty ∧ 0 ≤ from r ∧ 0 < length_ r ∧
  ∃ o, objs h !! data_object r = Some o ∧ leaf_ok h o ∧ from r + length_ r ≤ size o.

Definition records_fit (n : nat) : Prop :=
  Z.of_nat n * SIZEOF_RANGE_RECORD + SIZEOF_DISPATCH_DATA_S ≤ SIZE_T_MAX.

(** A composite: its records point into leaves; a flat buffer, if there is
    one, belongs to an object of several records and holds its contents. *)
Record comp_ok (h : heap) (o : dispatch_data_s) : Prop := {
  comp_records : records o ≠ [];
  comp_recs : Forall (rec_ok h) (records o);
  comp_size : size o = sum_lengths (records o);
  comp_bound : 0 < size o < 2 ^ 64;
  comp_fit : records_fit (length (records o));
  comp_inline : inline_block o = None;
  comp_buf : ∀ p, buf o = Some p →
    (1 < length (records o))%nat ∧ load (mem h) p (size o) = Some (obj_bytes h o);
}.

Definition obj_ok (h : heap) (o : dispatch_data_s) : Prop := leaf_ok h o ∨ comp_ok h o.

(** The counts of an object that is not the global empty one. *)
Definition counts_ok (o : dispatch_data_s) : Prop :=
  do_ref_cnt o = 0 ∧ 0 ≤ do_xref_cnt o < INT_MAX.

Record wf (h : heap) : Prop := {
  wf_empty : objs h !! dispatch_data_empty = Some empty_object;
  wf_obj : ∀ l o, objs h !! l = Some o → l ≠ dispatch_data_empty → obj_ok h o ∧ counts_ok o;
  wf_loc : ∀ l o, objs h !! l = Some o → (l < next_loc h)%positive;
  wf_block : ∀ b bs, mem h !! b = Some bs → (b < next_block h)%positive;
  wf_bytes : ∀ b bs, mem h !! b = Some bs → Forall is_byte bs;
}.

(** Every count can grow by [n] without reaching the global marker. *)
Definition headroom (h : heap) (n : Z) : Prop :=
  ∀ l o, objs h !! l = Some o → l ≠ dispatch_data_empty → do_xref_cnt o + n < INT_MAX.

Definition live (h : heap) (l : loc) : Prop := is_Some (objs h !! l).

(** [h'] has every object and every block of [h], with the same payload; only
    counts may differ. *)
Definition same_payload (o o' : dispatch_data_s) : Prop :=
  buf o' = buf o ∧ size o' = size o ∧ records o' = records o.
Record extends (h h' : heap) : Prop := {
  ext_obj : ∀ l o, objs h !! l = Some o → ∃ o', objs h' !! l = Some o' ∧ same_payload o o';
  ext_mem : ∀ b bs, mem h !! b = Some bs → mem h' !! b = Some bs;
}.

(** [h'] is [h] up to the names of future allocations and the fault
    schedule: same objects (counts included), same memory, same events. *)
Record restored (h h' : heap) : Prop := {
  res_objs : objs h' = objs h;
  res_mem : mem h' = mem h;
  res_events : events h' = events h;
  res_next_loc : (next_loc h ≤ next_loc h')%positive;
  res_next_block : (next_block h ≤ next_block h')%positive;
  res_faults : malloc_fails h' `suffix_of` malloc_fails h;
}.

#[export] Instance restored_preorder : PreOrder restored.
Proof.
  split; [by split|]. intros h1 h2 h3 [] []. split; [congruence..|lia|lia|by etrans].
Qed.

#[export] Instance extends_preorder : PreOrder extends.
Proof.
  split.
  - intros h. split; [|done]. intros l o Ho. exists o. by repeat split.
  - intros h1 h2 h3 [Ho1 Hm1] [Ho2 Hm2]. split; [|eauto].
    intros l o Ho. destruct (Ho1 _ _ Ho) as (o2 & Hl2 & ? & ? & ?).
    destruct (Ho2 _ _ Hl2) as (o3 & ? & ? & ? & ?).
    exists o3. split; [done|]. repeat split; congruence.
Qed.

(** Reading a live object. *)
Lemma bind_get {A} (f : dispatch_data_s → D A) h l o :
  objs h !! l = Some o → (get_obj l ≫= f) h = f o h.
Proof. intros Ho. unfold mbind, M_bind, get_obj. by rewrite Ho. Qed.

Ltac mget H := rewrite (bind_get _ _ _ _ H).

(** ** Loads *)

Lemma load_Some m p n bs :
  load m p n = Some bs ↔
  ∃ blk, m !! p_block p = Some blk ∧ 0 ≤ p_off p ∧ 0 ≤ n ∧ p_off p + n ≤ zlen blk ∧
         bs = zslice (p_off p) n blk.
Proof.
  unfold load. split.
  - destruct (m !! p_block p) as [blk|] eqn:Hb; [|done].
    destruct (_ && _) eqn:E; [|done]. intros [= <-].
    rewrite !andb_true_iff, !Z.leb_le in E. exists blk. naive_solver.
  - intros (blk & -> & ? & ? & ? & ->).
    destruct (_ && _) eqn:E; [done|].
    rewrite !andb_false_iff, !Z.leb_gt in E. lia.
Qed.

Lemma load_zlen m p n bs : load m p n = Some bs → zlen bs = n.
Proof. intros (blk & _ & ? & ? & ? & ->)%load_Some. by apply zlen_zslice. Qed.

Lemma load_mono (m m' : gmap block (list Z)) p n bs :
  (∀ b blk, m !! b = Some blk → m' !! b = Some blk) →
  load m p n = Some bs → load m' p n = Some bs.
Proof. rewrite !load_Some. naive_solver. Qed.

Lemma load_sub m p n bs o k :
  load m p n = Some bs → 0 ≤ o → 0 ≤ k → o + k ≤ n →
  load m (ptr_add p o) k = Some (zslice o k bs).
Proof.
  intros (blk & ? & ? & ? & ? & ->)%load_Some ???. apply load_Some.
  exists blk. simpl. split_and!; try lia; [done|].
  rewrite zslice_zslice by lia. f_equal. lia.
Qed.

(** ** Lengths of contents *)

Lemma leaf_bytes_zlen h o : leaf_ok h o → zlen (leaf_bytes h o) = size o.
Proof. intros [_ _ (p & _ & Hl)]. by apply load_zlen in Hl. Qed.

Lemma rec_bytes_zlen h r : rec_ok h r → zlen (rec_bytes h r) = length_ r.
Proof.
  intros (_ & ? & ? & o & Ho & Hleaf & ?). unfold rec_bytes. rewrite Ho.
  apply zlen_zslice; [lia|lia|]. rewrite leaf_bytes_zlen by done. lia.
Qed.

Lemma concat_recs_zlen h rs :
  Forall (rec_ok h) rs → zlen (concat (map (rec_bytes h) rs)) = sum_lengths rs.
Proof.
  induction 1 as [|r rs Hr _ IH]; [done|].
  simpl. rewrite zlen_app, IH, rec_bytes_zlen by done. done.
Qed.

Lemma sum_lengths_nonneg h rs : Forall (rec_ok h) rs → 0 ≤ sum_lengths rs.
Proof. induction 1 as [|r rs (?&?&?&?) _ IH]; simpl; lia. Qed.

Lemma sum_lengths_app rs rs' : sum_lengths (rs ++ rs') = sum_lengths rs + sum_lengths rs'.
Proof. induction rs as [|r rs IH]; simpl; lia. Qed.

Lemma obj_bytes_zlen h o : obj_ok h o → zlen (obj_bytes h o) = size o.
Proof.
  unfold obj_bytes, _dispatch_data_leaf. intros [Hl|Hc].
  - rewrite (leaf_records _ _ Hl). by apply leaf_bytes_zlen.
  - pose proof (comp_records _ _ Hc). destruct (records o) as [|r rs] eqn:Hr; [done|].
    rewrite <- Hr, (comp_size _ _ Hc). apply concat_recs_zlen, (comp_recs _ _ Hc).
Qed.

Lemma obj_bytes_comp h o :
  records o ≠ [] → obj_bytes h o = concat (map (rec_bytes h) (records o)).
Proof. unfold obj_bytes, _dispatch_data_leaf. by destruct (records o). Qed.

Lemma obj_regions_comp h o :
  records o ≠ [] → size o ≠ 0 → buf o = None → obj_regions h o = map (rec_bytes h) (records o).
Proof.
  unfold obj_regions, _dispatch_data_leaf. intros ? ? ->.
  destruct (size o =? 0) eqn:?; [lia|]. by destruct (records o).
Qed.

Lemma sum_lengths_pos h rs : rs ≠ [] → Forall (rec_ok h) rs → 0 < sum_lengths rs.
Proof.
  intros Hne H. destruct H as [|r rs (?&?&?&?) Hr2]; [done|].
  apply sum_lengths_nonneg in Hr2. simpl. lia.
Qed.

Lemma data_bytes_zlen h l o : wf h → objs h !! l = Some o → zlen (data_bytes h l) = size o.
Proof.
  intros Hwf Ho. unfold data_bytes. rewrite Ho.
  destruct (decide (l = dispatch_data_empty)) as [->|Hne].
  - rewrite (wf_empty _ Hwf) in Ho. by injection Ho as <-.
  - apply obj_bytes_zlen. by apply (wf_obj _ Hwf l).
Qed.

(** ** Stability under extension *)

Section Stable.
Context (h h' : heap) (Hext : extends h h').

Lemma leaf_bytes_ext o o' : leaf_ok h o → same_payload o o' → leaf_bytes h' o' = leaf_bytes h o.
Proof.
  intros [_ _ (p & Hp & Hl)] (Hb & Hs & _). unfold leaf_bytes.
  rewrite Hb, Hs, Hp. simpl. rewrite Hl. rewrite (load_mono (mem h) _ p _ _ (ext_mem _ _ Hext) Hl).
  unfold leaf_bytes in *. by rewrite Hp in *.
Qed.

Lemma leaf_ok_ext o o' : leaf_ok h o → same_payload o o' → leaf_ok h' o'.
Proof.
  intros Hl Hp. pose proof (leaf_bytes_ext _ _ Hl Hp) as Hbytes.
  destruct Hl as [Hr Hs (p & Hpb & Hload)]. destruct Hp as (Eb & Es & Er).
  split; [congruence| by rewrite Es |]. exists p. split; [congruence|].
  rewrite Es, Hbytes. by apply (load_mono (mem h)); [apply ext_mem|].
Qed.

Lemma rec_ok_ext r : rec_ok h r → rec_ok h' r.
Proof.
  intros (Hne & ? & ? & o & Ho & Hl & ?).
  destruct (ext_obj _ _ Hext _ _ Ho) as (o' & Ho' & Hp).
  split_and!; [done..|]. exists o'. split_and!; [done| by eapply leaf_ok_ext |].
  destruct Hp as (_ & -> & _). done.
Qed.

Lemma rec_bytes_ext r : rec_ok h r → rec_bytes h' r = rec_bytes h r.
Proof.
  intros (Hne & ? & ? & o & Ho & Hl & ?).
  destruct (ext_obj _ _ Hext _ _ Ho) as (o' & Ho' & Hp).
  unfold rec_bytes. rewrite Ho, Ho'. by erewrite leaf_bytes_ext.
Qed.

Lemma recs_bytes_ext rs :
  Forall (rec_ok h) rs → map (rec_bytes h') rs = map (rec_bytes h) rs.
Proof. induction 1; simpl; [done|]. f_equal; [by apply rec_bytes_ext|done]. Qed.

Lemma obj_bytes_ext o o' : obj_ok h o → same_payload o o' → obj_bytes h' o' = obj_bytes h o.
Proof.
  intros Hok Hp. unfold obj_bytes, _dispatch_data_leaf.
  pose proof Hp as (Hb & Hs & Hr). rewrite Hr.
  destruct Hok as [Hl|Hc].
  - rewrite (leaf_records _ _ Hl). by apply leaf_bytes_ext.
  - pose proof (comp_records _ _ Hc) as Hne. destruct (records o) as [|r rs] eqn:E; [done|].
    rewrite recs_bytes_ext; [done|]. rewrite <- E. apply Hc.
Qed.

Lemma obj_regions_ext o o' : obj_ok h o → same_payload o o' → obj_regions h' o' = obj_regions h o.
Proof.
  intros Hok Hp. unfold obj_regions. rewrite (obj_bytes_ext _ _ Hok Hp).
  pose proof Hp as (Hb & Hs & Hr). unfold _dispatch_data_leaf. rewrite Hb, Hs, Hr.
  destruct (size o =? 0); [done|]. destruct Hok as [Hl|Hc].
  - rewrite (leaf_records _ _ Hl). by rewrite (leaf_bytes_ext o o').
  - pose proof (comp_records _ _ Hc). destruct (records o) eqn:E; [done|].
    destruct (buf o); [done|]. apply recs_bytes_ext. rewrite <- E. apply Hc.
Qed.

Lemma obj_ok_ext o o' :
  obj_ok h o → same_payload o o' → inline_block o' = inline_block o → obj_ok h' o'.
Proof.
  intros Hok Hp Hin. pose proof (obj_bytes_ext _ _ Hok Hp) as Hbytes.
  destruct Hok as [Hl|Hc]; [left; by eapply leaf_ok_ext|right].
  destruct Hp as (Hb & Hs & Hr), Hc.
  split; rewrite ?Hb, ?Hs, ?Hr, ?Hin, ?Hbytes; try done.
  - eapply Forall_impl; [done|]. apply rec_ok_ext.
  - intros p Hp. destruct (comp_buf0 p Hp). split; [done|].
    by apply (load_mono (mem h)); [apply ext_mem|].
Qed.
End Stable.

Lemma data_bytes_ext h h' l :
  wf h → wf h' → extends h h' → live h l → data_bytes h' l = data_bytes h l.
Proof.
  intros Hwf Hwf' Hext [o Ho]. unfold data_bytes.
  destruct (ext_obj _ _ Hext _ _ Ho) as (o' & Ho' & Hp). rewrite Ho, Ho'.
  destruct (decide (l = dispatch_data_empty)) as [->|Hne].
  - rewrite (wf_empty _ Hwf) in Ho. rewrite (wf_empty _ Hwf') in Ho'. by simplify_eq.
  - apply obj_bytes_ext; [done| |done]. by apply (wf_obj _ Hwf l).
Qed.

Lemma regions_ext h h' l :
  wf h → wf h' → extends h h' → live h l → regions h' l = regions h l.
Proof.
  intros Hwf Hwf' Hext [o Ho]. unfold regions.
  destruct (ext_obj _ _ Hext _ _ Ho) as (o' & Ho' & Hp). rewrite Ho, Ho'.
  destruct (decide (l = dispatch_data_empty)) as [->|Hne].
  - rewrite (wf_empty _ Hwf) in Ho. rewrite (wf_empty _ Hwf') in Ho'. by simplify_eq.
  - apply obj_regions_ext; [done| |done]. by apply (wf_obj _ Hwf l).
Qed.

Lemma live_ext h h' l : extends h h' → live h l → live h' l.
Proof. intros Hext [o Ho]. destruct (ext_obj _ _ Hext _ _ Ho) as (o' & ? & _). by exists o'. Qed.

Lemma restored_extends h h' : restored h h' → extends h h'.
Proof.
  intros [Ho Hm _ _ _ _]. split; rewrite ?Ho, ?Hm; [|done].
  intros l o ?. exists o. by repeat split.
Qed.

Lemma restored_headroom h h' n : restored h h' → headroom h n → headroom h' n.
Proof. unfold headroom. intros [-> _ _ _ _ _]. done. Qed.

(** ** Moving the reference counts

    [bump c m] adds [c l] to the external count of every object [l]; a retain
    is [bump (one l)], a release that does not dispose is [bump (- one l)]. *)

Definition bump (c : loc → Z) (m : gmap loc dispatch_data_s) : gmap loc dispatch_data_s :=
  map_imap (λ l o, Some (with_xref o (do_xref_cnt o + c l))) m.

Definition one (l l' : loc) : Z := if decide (l = l') then 1 else 0.
Definition count (ls : list loc) (l' : loc) : Z := foldr (λ l n, one l l' + n) 0 ls.

Lemma with_xref_id o : with_xref o (do_xref_cnt o) = o.
Proof. by destruct o. Qed.

Lemma with_xref_payload o n : same_payload o (with_xref o n).
Proof. by destruct o. Qed.

Lemma lookup_bump c m l :
  bump c m !! l = (λ o, with_xref o (do_xref_cnt o + c l)) <$> m !! l.
Proof. unfold bump. rewrite map_lookup_imap. by destruct (m !! l). Qed.

Lemma bump_bump c d m : bump c (bump d m) = bump (λ l, d l + c l) m.
Proof.
  apply map_eq. intros l. rewrite !lookup_bump. destruct (m !! l) as [o|]; [|done].
  simpl. f_equal. unfold with_xref. simpl. f_equal. lia.
Qed.

Lemma bump_ext c d m : (∀ l, is_Some (m !! l) → c l = d l) → bump c m = bump d m.
Proof.
  intros H. apply map_eq. intros l. rewrite !lookup_bump.
  destruct (m !! l) as [o|] eqn:E; [|done]. simpl. by rewrite H by (by rewrite E).
Qed.

Lemma bump_0 c m : (∀ l, is_Some (m !! l) → c l = 0) → bump c m = m.
Proof.
  intros H. apply map_eq. intros l. rewrite lookup_bump.
  destruct (m !! l) as [o|] eqn:E; [|done]. simpl. rewrite H by (by rewrite E).
  by rewrite Z.add_0_r, with_xref_id.
Qed.

Lemma bump_insert c m l o :
  c l = 0 → bump c (<[l := o]> m) = <[l := o]> (bump c m).
Proof.
  intros H. apply map_eq. intros l'. rewrite lookup_bump, !lookup_insert.
  case_decide; subst.
  - simpl. by rewrite H, Z.add_0_r, with_xref_id.
  - by rewrite lookup_bump.
Qed.

Lemma bump_delete c m l : bump c (delete l m) = delete l (bump c m).
Proof.
  apply map_eq. intros l'. rewrite lookup_bump, !lookup_delete.
  case_decide; subst; [done|]. by rewrite lookup_bump.
Qed.

Lemma insert_bump_one m l o n :
  m !! l = Some o → n = do_xref_cnt o + 1 → <[l := with_xref o n]> m = bump (one l) m.
Proof.
  intros Ho ->. apply map_eq. intros l'. rewrite lookup_bump, lookup_insert. unfold one.
  case_decide; subst; [by rewrite Ho|].
  destruct (m !! l') as [o'|]; [|done]. simpl. by rewrite Z.add_0_r, with_xref_id.
Qed.

Lemma insert_bump_minus m l o n :
  m !! l = Some o → n = do_xref_cnt o - 1 → <[l := with_xref o n]> m = bump (λ l', - one l l') m.
Proof.
  intros Ho ->. apply map_eq. intros l'. rewrite lookup_bump, lookup_insert. unfold one.
  case_decide; subst; [by rewrite Ho|].
  destruct (m !! l') as [o'|]; [|done]. simpl. by rewrite Z.add_0_r, with_xref_id.
Qed.

Lemma count_nonneg ls l : 0 ≤ count ls l.
Proof. induction ls; simpl; [done|]. unfold one. case_decide; lia. Qed.

Lemma count_le ls l : count ls l ≤ zlen ls.
Proof. induction ls; simpl; [done|]. rewrite zlen_cons. unfold one. case_decide; lia. Qed.

Lemma count_not_in ls l : l ∉ ls → count ls l = 0.
Proof.
  induction ls as [|l' ls IH]; [done|]. rewrite not_elem_of_cons. intros [? ?].
  simpl. unfold one. rewrite decide_False by done. by apply IH.
Qed.

(** *** Retain *)

Lemma i32_small z : - 2 ^ 31 ≤ z < 2 ^ 31 → i32 z = z.
Proof. intros. by apply wraps_small. Qed.

Lemma retain_ok h l o :
  objs h !! l = Some o → 0 ≤ do_xref_cnt o → do_xref_cnt o + 1 < INT_MAX →
  dispatch_retain l h = Ok (tt, set_objs (bump (one l)) h).
Proof.
  intros Ho H0 H1. unfold dispatch_retain, get_obj, INT_MAX in *.
  unfold mbind at 1, M_bind at 1. rewrite Ho.
  destruct (_ =? GLOBAL_REFCNT) eqn:E; [unfold GLOBAL_REFCNT, INT_MAX in *; lia|].
  unfold put_obj, modify, mbind, M_bind.
  destruct (_ <? 0) eqn:?; [lia|]. rewrite i32_small by lia.
  unfold set_objs. by erewrite insert_bump_one.
Qed.

Lemma retain_empty h : wf h → dispatch_retain dispatch_data_empty h = Ok (tt, h).
Proof.
  intros Hwf. unfold dispatch_retain, get_obj, mbind, M_bind.
  by rewrite (wf_empty _ Hwf).
Qed.

Lemma set_objs_comp f g h : set_objs f (set_objs g h) = set_objs (f ∘ g) h.
Proof. done. Qed.

Lemma set_objs_ext f g h : f (objs h) = g (objs h) → set_objs f h = set_objs g h.
Proof. unfold set_objs. by intros ->. Qed.

(** Retaining a list of objects, one after the other. *)
Lemma retains_ok h ls :
  (∀ l, l ∈ ls → ∃ o, objs h !! l = Some o ∧ 0 ≤ do_xref_cnt o ∧
                      do_xref_cnt o + zlen ls < INT_MAX) →
  for_M ls dispatch_retain h = Ok (tt, set_objs (bump (count ls)) h).
Proof.
  revert h. induction ls as [|l ls IH]; intros h Hls.
  { simpl. rewrite ret_eq. do 2 f_equal. unfold set_objs.
    rewrite bump_0 by done. by destruct h. }
  simpl. destruct (Hls l) as (o & Ho & H0 & H1); [left|].
  rewrite zlen_cons in H1. pose proof (zlen_nonneg ls).
  erewrite bind_Ok; [|apply (retain_ok _ _ o); [done|done|lia]].
  rewrite IH.
  - do 2 f_equal. rewrite set_objs_comp. apply set_objs_ext. simpl.
    rewrite bump_bump. by apply bump_ext.
  - intros l' Hl'. destruct (Hls l') as (o' & Ho' & ? & Hb); [by right|].
    exists (with_xref o' (do_xref_cnt o' + one l l')). simpl.
    rewrite lookup_bump, Ho'. simpl. rewrite zlen_cons in Hb.
    unfold one. case_decide; split_and!; try done; lia.
Qed.

Lemma for_M_map {S A B} (g : A → B) (f : B → M S unit) l s :
  for_M (map g l) f s = for_M l (λ a, f (g a)) s.
Proof.
  revert s. induction l as [|a l IH]; intros s; [done|].
  simpl. unfold mbind, M_bind. destruct (f (g a) s) as [[? s']|]; [apply IH|done].
Qed.

(** *** Release of an object that stays referenced *)

Lemma release_alive fuel h l o :
  objs h !! l = Some o → 1 ≤ do_xref_cnt o < INT_MAX →
  dispatch_release_fuel (S fuel) l h = Ok (tt, set_objs (bump (λ l', - one l l')) h).
Proof.
  intros Ho Hx. unfold INT_MAX in *. simpl.
  unfold get_obj, mbind, M_bind. rewrite Ho.
  destruct (_ =? GLOBAL_REFCNT) eqn:E; [unfold GLOBAL_REFCNT, INT_MAX in *; lia|].
  unfold put_obj, modify. rewrite i32_small by lia.
  destruct (0 <=? _) eqn:?; [|lia].
  rewrite ret_eq. unfold set_objs. by erewrite insert_bump_minus.
Qed.

Lemma release_empty fuel h :
  wf h → dispatch_release_fuel (S fuel) dispatch_data_empty h = Ok (tt, h).
Proof.
  intros Hwf. simpl. unfold get_obj, mbind, M_bind. by rewrite (wf_empty _ Hwf).
Qed.

Lemma releases_ok fuel h ls :
  (∀ l, l ∈ ls → ∃ o, objs h !! l = Some o ∧ count ls l ≤ do_xref_cnt o < INT_MAX) →
  for_M ls (dispatch_release_fuel (S fuel)) h =
  Ok (tt, set_objs (bump (λ l, - count ls l)) h).
Proof.
  revert h. induction ls as [|l ls IH]; intros h Hls.
  { simpl. rewrite ret_eq. do 2 f_equal. unfold set_objs.
    rewrite bump_0 by done. by destruct h. }
  cbn [for_M]. destruct (Hls l) as (o & Ho & H1); [left|].
  assert (1 ≤ do_xref_cnt o < INT_MAX) as H1'.
  { simpl in H1. unfold one at 1 in H1. rewrite decide_True in H1 by done.
    pose proof (count_nonneg ls l). lia. }
  erewrite bind_Ok; [|by apply (release_alive _ _ _ o)].
  rewrite IH.
  - do 2 f_equal. rewrite set_objs_comp. apply set_objs_ext. simpl.
    rewrite bump_bump. apply bump_ext. intros. lia.
  - intros l' Hl'. destruct (Hls l') as (o' & Ho' & Hb); [by right|].
    exists (with_xref o' (do_xref_cnt o' + - one l l')). simpl.
    rewrite lookup_bump, Ho'. simpl. split; [done|]. simpl in Hb.
    unfold one in *. case_decide; lia.
Qed.

(** ** Dispatch data objects: references that are given back

    What a release does when it drops the last reference: a leaf that owns its
    buffer frees it, a composite releases its constituents.  An operation
    returns an *owned* reference when releasing it brings the heap back to the
    one the operation started from. *)

Lemma wf_restored h h' : wf h → restored h h' → wf h'.
Proof.
  intros Hwf Hres. pose proof (restored_extends _ _ Hres) as Hext.
  destruct Hres as [Ho Hm _ Hl Hb _]. split; rewrite ?Ho, ?Hm.
  - apply Hwf.
  - intros l o Hlo Hne. destruct (wf_obj _ Hwf _ _ Hlo Hne) as [Hok ?]. split; [|done].
    by apply (obj_ok_ext h h' Hext o o).
  - intros l o Hlo. apply (wf_loc _ Hwf) in Hlo. lia.
  - intros b bs Hbs. apply (wf_block _ Hwf) in Hbs. lia.
  - apply Hwf.
Qed.

(** [h'] is [h] with one more reference to [l]: its count says so, and giving
    it back brings [h] back. *)
Definition count_of (h : heap) (l : loc) : Z :=
  match objs h !! l with Some o => do_xref_cnt o | None => -1 end.

Record owned (h h' : heap) (l : loc) : Prop := {
  own_count : l ≠ dispatch_data_empty → count_of h' l = count_of h l + 1;
  own_release : ∃ h'', dispatch_release l h' = Ok (tt, h'') ∧ restored h h'';
}.

(** The first steps of the release of the last reference. *)
Lemma release_last fuel h l o :
  objs h !! l = Some o → do_xref_cnt o = 0 → do_ref_cnt o = 0 →
  dispatch_release_fuel (S fuel) l h =
  _dispatch_dispose (dispatch_release_fuel fuel) l
    (set_objs (<[l := with_ref (with_xref o (-1)) (-1)]>) h).
Proof.
  intros Ho Hx Hr. cbn [dispatch_release_fuel].
  unfold get_obj. unfold mbind at 1, M_bind at 1. rewrite Ho, Hx. simpl.
  change (i32 (-1)) with (-1). unfold mbind, M_bind, put_obj, modify. simpl.
  unfold release_internal, get_obj, mbind, M_bind. simpl. rewrite lookup_insert_eq. simpl.
  rewrite Hr. simpl. change (i32 (-1)) with (-1). unfold put_obj, modify. simpl.
  f_equal. unfold set_objs. simpl. f_equal. by rewrite insert_insert_eq.
Qed.

(** Disposal of a composite without a flat buffer. *)
Lemma release_composite h l o :
  objs h !! l = Some o → do_xref_cnt o = 0 → do_ref_cnt o = 0 → do_targetq o = None →
  buf o = None → inline_block o = None → records o ≠ [] → l ∉ map data_object (records o) →
  (∀ l', l' ∈ map data_object (records o) → ∃ o', objs h !! l' = Some o' ∧
     count (map data_object (records o)) l' ≤ do_xref_cnt o' < INT_MAX) →
  dispatch_release l h =
  Ok (tt, set_objs (λ m, delete l (bump (λ l', - count (map data_object (records o)) l') m)) h).
Proof.
  intros Ho Hx Hr Htq Hb Hi Hne Hnin Hls. unfold dispatch_release, DATA_DEPTH.
  rewrite (release_last _ _ _ _ Ho Hx Hr).
  set (o1 := with_ref _ _). set (h1 := set_objs _ h). remember 0%nat as fuel0.
  assert (objs h1 !! l = Some o1) as Ho1 by (simpl; by rewrite lookup_insert_eq).
  unfold _dispatch_dispose, _dispatch_data_dispose, get_obj. unfold mbind, M_bind.
  rewrite Ho1. cbv beta iota. rewrite Ho1.
  unfold _dispatch_data_leaf. change (records o1) with (records o).
  destruct (records o) as [|r rs] eqn:Er; [done|]. rewrite <- Er in *.
  rewrite <- (for_M_map data_object), releases_ok.
  - simpl buf. rewrite Hb. simpl.
    unfold _dispatch_object_dealloc, get_obj, mbind, M_bind, modify. simpl.
    rewrite lookup_bump, lookup_insert_eq. simpl. rewrite Hi, Htq. simpl.
    unfold set_objs. simpl. do 3 f_equal.
    rewrite bump_insert by (by rewrite count_not_in). by rewrite delete_insert_eq.
  - intros l' Hl'. destruct (Hls l' Hl') as (o' & Ho' & Hc). exists o'.
    simpl. rewrite lookup_insert_ne; [done|]. by intros <-.
Qed.

(** Disposal of a leaf: the buffer goes to its destructor, the object and the
    bytes inlined in it are freed. *)
Lemma destroy_set_objs p n q d h h1 f :
  _dispatch_data_destroy_buffer p n q d h = Ok (tt, h1) →
  _dispatch_data_destroy_buffer p n q d (set_objs f h) = Ok (tt, set_objs f h1).
Proof.
  unfold _dispatch_data_destroy_buffer, modify.
  destruct d; try (intros [= <-]; done).
  destruct p as [[b off]|]; simpl; [|by intros [= <-]].
  destruct (off =? 0); [|done]. unfold free_block. simpl.
  destruct (mem h !! b); [|done]. by intros [= <-].
Qed.

Definition free_inline (ib : option block) (h : heap) : heap :=
  match ib with Some b => set_mem (delete b) h | None => h end.

Lemma release_leaf fuel h l o h1 :
  objs h !! l = Some o → do_xref_cnt o = 0 → do_ref_cnt o = 0 → do_targetq o = None →
  records o = [] → _dispatch_data_destroy_buffer (buf o) (size o) None (destructor_ o) h = Ok (tt, h1) →
  objs h1 = objs h → (∀ b, inline_block o = Some b → is_Some (mem h1 !! b)) →
  dispatch_release_fuel (S fuel) l h =
  Ok (tt, set_objs (delete l) (free_inline (inline_block o) h1)).
Proof.
  intros Ho Hx Hr Htq Hrec Hd Hobjs Hib.
  rewrite (release_last _ _ _ _ Ho Hx Hr). remember (dispatch_release_fuel fuel) as rel.
  set (o1 := with_ref _ _).
  apply (destroy_set_objs _ _ _ _ _ _ (<[l := o1]>)) in Hd. set (h2 := set_objs _ h) in *.
  assert (objs h2 !! l = Some o1) as Ho1 by (simpl; by rewrite lookup_insert_eq).
  unfold _dispatch_dispose, _dispatch_data_dispose. mget Ho1. unfold mbind, M_bind.
  unfold get_obj at 1. rewrite Ho1. unfold _dispatch_data_leaf.
  change (records o1) with (records o). change (do_targetq o1) with (do_targetq o).
  change (buf o1) with (buf o). change (size o1) with (size o).
  change (destructor_ o1) with (destructor_ o). rewrite Hrec, Htq, Hd.
  unfold _dispatch_object_dealloc, get_obj, mbind, M_bind, modify. simpl objs.
  rewrite lookup_insert_eq. change (inline_block o1) with (inline_block o).
  assert (set_objs (delete l) (set_objs <[l:=o1]> h1) = set_objs (delete l) h1) as ->.
  { unfold set_objs. simpl. by rewrite delete_insert_eq. }
  destruct (inline_block o) as [b|]; [|done]. destruct (Hib b eq_refl) as [bs Hbs].
  simpl. unfold free_block. simpl. by rewrite Hbs.
Qed.

(** A leaf that owns a malloc'ed buffer. *)
Lemma release_leaf_free fuel h l o b :
  objs h !! l = Some o → do_xref_cnt o = 0 → do_ref_cnt o = 0 → do_targetq o = None →
  buf o = Some (Ptr b 0) → destructor_ o = DESTRUCTOR_FREE → inline_block o = None →
  records o = [] → is_Some (mem h !! b) →
  dispatch_release_fuel (S fuel) l h = Ok (tt, set_objs (delete l) (set_mem (delete b) h)).
Proof.
  intros Ho Hx Hr Htq Hb Hd Hi Hrec [bs Hbs].
  rewrite (release_leaf fuel h l o (set_mem (delete b) h)); try done; rewrite ?Hi; try done.
  rewrite Hb, Hd. simpl. unfold free_block. by rewrite Hbs.
Qed.

(** A reference taken and dropped at once. *)
Lemma owned_retained h l o :
  objs h !! l = Some o → 0 ≤ do_xref_cnt o → do_xref_cnt o + 1 < INT_MAX →
  owned h (set_objs (bump (one l)) h) l.
Proof.
  intros Ho H0 H1. split.
  { intros _. unfold count_of. simpl. rewrite lookup_bump, Ho. simpl.
    unfold one. by rewrite decide_True. }
  eexists. split.
  - apply (release_alive 1 _ _ (with_xref o (do_xref_cnt o + 1))).
    + simpl. rewrite lookup_bump, Ho. simpl. unfold one. by rewrite decide_True.
    + simpl. lia.
  - split; simpl; try done. rewrite bump_bump. apply bump_0. intros. lia.
Qed.

Lemma owned_empty h : wf h → owned h h dispatch_data_empty.
Proof. intros Hwf. split; [done|]. exists h. split; [by apply (release_empty 1)|done]. Qed.
