(* ===== verification/DispatchDataSpec.v ===== *)
(** * Dispatch data objects: what the operations do

    Every operation of data.c, run on a well-formed heap, returns (it neither
    crashes nor runs out of the recursion bound), keeps the heap well-formed
    and the contents of all existing objects, and its result represents the
    byte string its interface promises. *)

From S2P Require Import Prelude DispatchData DispatchDataInv.
Import Data.

Definition fresh_object_heap (h : heap) (recs : list range_record) : heap :=
  Heap (<[next_loc h := DD 0 0 None None DESTRUCTOR_DEFAULT 0 recs None]> (objs h))
       (mem h) (Pos.succ (next_loc h)) (next_block h) (malloc_fails h) (events h).

Lemma data_alloc_eq h recs :
  records_fit (length recs) →
  _dispatch_data_alloc recs [] h = Ok (Some (next_loc h), fresh_object_heap h recs).
Proof.
  unfold records_fit, _dispatch_data_alloc, SIZEOF_DISPATCH_DATA_S, SIZEOF_RANGE_RECORD.
  intros Hfit. simpl length.
  change (80 + Z.of_nat 0 >? SIZE_T_MAX) with false. cbv iota.
  destruct (_ >? _) eqn:E; [|done]. rewrite Z.gtb_lt in E. lia.
Qed.

Lemma records_fit_le m n : (m ≤ n)%nat → records_fit n → records_fit m.
Proof. unfold records_fit, SIZEOF_RANGE_RECORD. lia. Qed.

Lemma records_fit_0 : records_fit 0.
Proof. vm_compute. done. Qed.

(** ** Heaps after a change of counts, and with one more composite *)

Lemma extends_bump h c : extends h (set_objs (bump c) h).
Proof.
  split; simpl; [|done]. intros l o Ho. rewrite lookup_bump, Ho. simpl.
  eexists; split; [done|]. apply with_xref_payload.
Qed.

Lemma wf_bump h c :
  wf h → c dispatch_data_empty = 0 →
  (∀ l o, objs h !! l = Some o → l ≠ dispatch_data_empty →
          0 ≤ do_xref_cnt o + c l < INT_MAX) →
  wf (set_objs (bump c) h).
Proof.
  intros Hwf Hc Hr. pose proof (extends_bump h c) as Hext. split; simpl.
  - rewrite lookup_bump, (wf_empty _ Hwf). simpl. by rewrite Hc.
  - intros l o Ho Hne. rewrite lookup_bump in Ho.
    destruct (objs h !! l) as [o0|] eqn:E; [|done]. injection Ho as <-.
    destruct (wf_obj _ Hwf _ _ E Hne) as [Hok [Href Hx]]. split.
    + by apply (obj_ok_ext h _ Hext o0); [|apply with_xref_payload|].
    + split; simpl; [done|]. by apply Hr.
  - intros l o Ho. rewrite lookup_bump in Ho.
    destruct (objs h !! l) eqn:E; [|done]. by eapply (wf_loc _ Hwf).
  - apply (wf_block _ Hwf).
  - apply (wf_bytes _ Hwf).
Qed.

Definition composite (recs : list range_record) (n : Z) : dispatch_data_s :=
  DD 0 0 None None DESTRUCTOR_DEFAULT n recs None.

Definition composite_heap (h : heap) (recs : list range_record) (n : Z) : heap :=
  Heap (<[next_loc h := composite recs n]> (bump (count (map data_object recs)) (objs h)))
       (mem h) (Pos.succ (next_loc h)) (next_block h) (malloc_fails h) (events h).

Section Composite.
Context (h : heap) (recs : list range_record) (n : Z).
Context (Hwf : wf h) (Hrecs : Forall (rec_ok h) recs) (Hne : recs ≠ [])
        (Hn : n = sum_lengths recs) (Hb : n < 2 ^ 64)
        (Hfit : records_fit (length recs)) (Hroom : headroom h (zlen recs)).

Local Abbreviation h' := (composite_heap h recs n).
Local Abbreviation l' := (next_loc h).

Lemma fresh_loc : objs h !! l' = None.
Proof. destruct (objs h !! l') eqn:E; [|done]. apply (wf_loc _ Hwf) in E. lia. Qed.

Lemma fresh_not_empty : l' ≠ dispatch_data_empty.
Proof. intros E. pose proof fresh_loc. rewrite E, (wf_empty _ Hwf) in *. done. Qed.

Lemma recs_targets l : l ∈ map data_object recs →
  l ≠ dispatch_data_empty ∧ ∃ o, objs h !! l = Some o ∧ leaf_ok h o ∧
    0 ≤ do_xref_cnt o ∧ do_xref_cnt o + zlen recs < INT_MAX.
Proof using Hwf Hrecs Hroom.
  intros (r & -> & Hr)%list_elem_of_fmap.
  rewrite Forall_forall in Hrecs. destruct (Hrecs r Hr) as (? & _ & _ & o & Ho & Hl & _).
  split; [done|]. exists o. split_and!; [done..| |by eapply Hroom].
  by apply (wf_obj _ Hwf _ _ Ho).
Qed.

Lemma recs_count_fresh : count (map data_object recs) l' = 0.
Proof using Hwf Hrecs Hroom.
  apply count_not_in. intros (_ & o & Ho & _)%recs_targets. by rewrite fresh_loc in Ho.
Qed.

Lemma recs_count_empty : count (map data_object recs) dispatch_data_empty = 0.
Proof using Hwf Hrecs Hroom. apply count_not_in. by intros [? _]%recs_targets. Qed.

Lemma alloc_composite_eq : alloc_composite recs n h = Ok (Some l', h').
Proof using Hwf Hrecs Hroom Hfit Hne.
  unfold alloc_composite. mstep (data_alloc_eq h recs Hfit).
  unfold nonnull, mret, M_ret, mbind, M_bind, get_obj; simpl. rewrite lookup_insert_eq.
  unfold put_obj, modify; simpl.
  rewrite <- (for_M_map data_object). rewrite retains_ok; simpl.
  { do 3 f_equal. unfold set_objs, composite_heap; simpl. f_equal.
    rewrite insert_insert_eq. rewrite bump_insert; [done|]. apply recs_count_fresh. }
  intros l Hl. destruct (recs_targets l Hl) as (_ & o & Ho & _ & ? & ?).
  exists o. rewrite zlen_map. rewrite insert_insert_eq, lookup_insert_ne; [done|].
  intros <-. by rewrite fresh_loc in Ho.
Qed.

Lemma extends_composite : extends h h'.
Proof using Hwf.
  split; simpl; [|done]. intros l o Ho. rewrite lookup_insert_ne.
  - rewrite lookup_bump, Ho. simpl. eexists; split; [done|]. apply with_xref_payload.
  - intros <-. by rewrite fresh_loc in Ho.
Qed.

Lemma composite_positive : 0 < n.
Proof using Hrecs Hne Hn. rewrite Hn. by apply (sum_lengths_pos h). Qed.

Lemma composite_bytes_eq : data_bytes h' l' = concat (map (rec_bytes h) recs).
Proof using Hwf Hrecs Hne.
  unfold data_bytes. simpl. rewrite lookup_insert_eq, obj_bytes_comp by done.
  by rewrite (recs_bytes_ext h h' extends_composite).
Qed.

Lemma composite_regions_eq : regions h' l' = map (rec_bytes h) recs.
Proof using Hwf Hrecs Hne Hn.
  pose proof composite_positive.
  unfold regions. simpl. rewrite lookup_insert_eq, obj_regions_comp by (simpl; done || lia).
  by rewrite (recs_bytes_ext h h' extends_composite).
Qed.

Lemma wf_composite : wf h'.
Proof using Hwf Hrecs Hne Hn Hb Hfit Hroom.
  pose proof extends_composite as Hext. pose proof composite_positive.
  split; simpl.
  - rewrite lookup_insert_ne by apply fresh_not_empty.
    rewrite lookup_bump, (wf_empty _ Hwf). simpl. by rewrite recs_count_empty.
  - intros l o Ho Hlne. rewrite lookup_insert in Ho. case_decide; subst.
    + injection Ho as <-. split; [right|by split].
      split; simpl; [done|by eapply Forall_impl; [done|apply rec_ok_ext]|done|lia|done..].
    + rewrite lookup_bump in Ho. destruct (objs h !! l) as [o0|] eqn:E; [|done].
      injection Ho as <-. destruct (wf_obj _ Hwf _ _ E Hlne) as [Hok [Href Hx]]. split.
      * by apply (obj_ok_ext h _ Hext o0); [|apply with_xref_payload|].
      * split; simpl; [done|].
        pose proof (Hroom _ _ E Hlne). pose proof (count_le (map data_object recs) l) as Hle.
        pose proof (count_nonneg (map data_object recs) l). rewrite zlen_map in Hle. lia.
  - intros l o Ho. rewrite lookup_insert in Ho. case_decide; subst; [lia|].
    rewrite lookup_bump in Ho. destruct (objs h !! l) as [o0|] eqn:E; [|done].
    apply (wf_loc _ Hwf) in E. lia.
  - apply (wf_block _ Hwf).
  - apply (wf_bytes _ Hwf).
Qed.

Lemma owned_composite : owned h h' l'.
Proof using Hwf Hrecs Hne Hroom.
  split.
  { intros _. unfold count_of. simpl. by rewrite lookup_insert_eq, fresh_loc. }
  eexists. split.
  - apply (release_composite _ _ (composite recs n)); simpl; try done.
    + by rewrite lookup_insert_eq.
    + intros (_ & o & Ho & _)%recs_targets. by rewrite fresh_loc in Ho.
    + intros l Hl. destruct (recs_targets l Hl) as (_ & o & Ho & _ & ? & ?).
      rewrite lookup_insert_ne by (intros <-; by rewrite fresh_loc in Ho).
      rewrite lookup_bump, Ho. simpl. eexists; split; [done|]. simpl.
      pose proof (count_le (map data_object recs) l) as Hle. rewrite zlen_map in Hle. lia.
  - split; simpl; try done; [|lia].
    rewrite bump_insert by (by rewrite recs_count_fresh).
    rewrite delete_insert_id.
    + rewrite bump_bump. apply bump_0. intros. lia.
    + by rewrite !lookup_bump, fresh_loc.
Qed.
End Composite.

(** ** Heaps with one more leaf *)

Definition leaf_object (p : ptr) (n : Z) (d : destructor) (ib : option block) : dispatch_data_s :=
  DD 0 0 None (Some p) d n [] ib.

Definition leaf_heap (h : heap) (p : ptr) (n : Z) (d : destructor) (ib : option block) : heap :=
  Heap (<[next_loc h := leaf_object p n d ib]> (objs h))
       (mem h) (Pos.succ (next_loc h)) (next_block h) (malloc_fails h) (events h).

Section Leaf.
Context (h : heap) (p : ptr) (n : Z) (d : destructor) (ib : option block) (bs : list Z).
Context (Hwf : wf h) (Hn : 0 < n < 2 ^ 64) (Hload : load (mem h) p n = Some bs).

Local Abbreviation h' := (leaf_heap h p n d ib).
Local Abbreviation l' := (next_loc h).

Lemma extends_leaf : extends h h'.
Proof using Hwf.
  split; simpl; [|done]. intros l o Ho. exists o. split; [|by repeat split].
  rewrite lookup_insert_ne; [done|]. intros <-. by rewrite (fresh_loc _ Hwf) in Ho.
Qed.

Lemma leaf_object_bytes : leaf_bytes h' (leaf_object p n d ib) = bs.
Proof using Hload. unfold leaf_bytes. simpl. by rewrite Hload. Qed.

Lemma leaf_object_ok : leaf_ok h' (leaf_object p n d ib).
Proof using Hload Hn.
  split; [done..|]. exists p. split; [done|]. by rewrite leaf_object_bytes.
Qed.

Lemma leaf_heap_bytes : data_bytes h' l' = bs.
Proof using Hload.
  unfold data_bytes. simpl. rewrite lookup_insert_eq. apply leaf_object_bytes.
Qed.

Lemma live_leaf : live h' l'.
Proof. exists (leaf_object p n d ib). simpl. by rewrite lookup_insert_eq. Qed.

Lemma wf_leaf : wf h'.
Proof using Hwf Hload Hn.
  pose proof extends_leaf as Hext. split; simpl; try apply Hwf.
  - rewrite lookup_insert_ne by (by apply fresh_not_empty). apply Hwf.
  - intros l o Ho Hne. rewrite lookup_insert in Ho. case_decide; subst.
    + injection Ho as <-. split; [left; apply leaf_object_ok|by split].
    + destruct (wf_obj _ Hwf _ _ Ho Hne) as [Hok ?]. split; [|done].
      by apply (obj_ok_ext h _ Hext o).
  - intros l o Ho. rewrite lookup_insert in Ho. case_decide; subst; [lia|].
    apply (wf_loc _ Hwf) in Ho. lia.
Qed.
End Leaf.

(** ** Heaps with one more block *)

Definition block_heap (h : heap) (faults : list bool) (bs : list Z) : heap :=
  Heap (objs h) (<[next_block h := bs]> (mem h)) (next_loc h) (Pos.succ (next_block h))
       faults (events h).

Lemma fresh_block h : wf h → mem h !! next_block h = None.
Proof.
  intros Hwf. destruct (mem h !! next_block h) eqn:E; [|done].
  apply (wf_block _ Hwf) in E. lia.
Qed.

Lemma extends_block h fs bs : wf h → extends h (block_heap h fs bs).
Proof.
  intros Hwf. split; simpl.
  - intros l o Ho. exists o. by repeat split.
  - intros b blk Hb. rewrite lookup_insert_ne; [done|].
    intros <-. by rewrite fresh_block in Hb.
Qed.

Lemma wf_block_heap h fs bs : wf h → Forall is_byte bs → wf (block_heap h fs bs).
Proof.
  intros Hwf Hbs. pose proof (extends_block h fs bs Hwf) as Hext.
  split; simpl; try apply Hwf.
  - intros l o Ho Hne. destruct (wf_obj _ Hwf _ _ Ho Hne) as [Hok ?]. split; [|done].
    by apply (obj_ok_ext h _ Hext o).
  - intros b blk Hb. rewrite lookup_insert in Hb. case_decide; subst; [lia|].
    apply (wf_block _ Hwf) in Hb. lia.
  - intros b blk Hb. rewrite lookup_insert in Hb. case_decide; subst; [by injection Hb as <-|].
    by apply (wf_bytes _ Hwf) in Hb.
Qed.

(** [malloc] does not fail next. *)
Definition malloc_succeeds (h : heap) : Prop := head (malloc_fails h) ≠ Some true.

Lemma malloc_eq h n :
  malloc_succeeds h →
  malloc n h = Ok (Some (Ptr (next_block h) 0),
                   block_heap h (tail (malloc_fails h)) (replicate (Z.to_nat n) 0)).
Proof.
  unfold malloc_succeeds, malloc. destruct (malloc_fails h) as [|[] fs]; done.
Qed.

(** Appending to a block whose first bytes are filled. *)
Lemma write_append h b out k src :
  mem h !! b = Some (out ++ replicate k 0) → (length src ≤ k)%nat →
  write_bytes (Ptr b (zlen out)) src h =
  Ok (tt, set_mem (<[b := (out ++ src) ++ replicate (k - length src) 0]>) h).
Proof.
  intros Hb Hk. unfold write_bytes. simpl. rewrite Hb, length_app, length_replicate.
  unfold zlen. destruct (_ && _) eqn:E; [|rewrite andb_false_iff, !Z.leb_gt in E; lia].
  do 4 f_equal. rewrite Nat2Z.id, take_app_length, <- app_assoc.
  do 2 f_equal. rewrite drop_app_ge by lia.
  rewrite drop_replicate. f_equal. lia.
Qed.

Lemma wf_retain h l o :
  wf h → objs h !! l = Some o → l ≠ dispatch_data_empty → headroom h 1 →
  dispatch_retain l h = Ok (tt, set_objs (bump (one l)) h) ∧ wf (set_objs (bump (one l)) h).
Proof.
  intros Hwf Ho Hne Hroom. destruct (wf_obj _ Hwf _ _ Ho Hne) as [_ [_ Hx]].
  pose proof (Hroom _ _ Ho Hne). split.
  - apply (retain_ok _ _ o); [done|lia|lia].
  - apply wf_bump; [done|unfold one; by rewrite decide_False|].
    intros l' o' Ho' Hne'. destruct (wf_obj _ Hwf _ _ Ho' Hne') as [_ [_ ?]].
    pose proof (Hroom _ _ Ho' Hne'). unfold one. case_decide; lia.
Qed.

(** A retain of any live object: it changes counts only. *)
Lemma retain_spec h l :
  wf h → live h l → headroom h 1 →
  ∃ h', dispatch_retain l h = Ok (tt, h') ∧ wf h' ∧ extends h h' ∧ mem h' = mem h ∧
        owned h h' l.
Proof.
  intros Hwf [o Ho] Hroom. destruct (decide (l = dispatch_data_empty)) as [->|Hne].
  - exists h. split_and!; [by apply retain_empty|done|done|done|by apply owned_empty].
  - destruct (wf_retain _ _ _ Hwf Ho Hne Hroom) as [H1 H2].
    eexists. split_and!; [done..|apply extends_bump|done|].
    destruct (wf_obj _ Hwf _ _ Ho Hne) as [_ [_ ?]]. eapply owned_retained; [done|lia|].
    pose proof (Hroom _ _ Ho Hne). lia.
Qed.

(** The number of records an object contributes to a composite. *)
Definition nrecords (h : heap) (l : loc) : nat :=
  match objs h !! l with Some o => _dispatch_data_num_records o | None => 0 end.

Lemma empty_size h l o : wf h → objs h !! l = Some o → size o ≠ 0 → l ≠ dispatch_data_empty.
Proof. intros Hwf Ho Hs ->. rewrite (wf_empty _ Hwf) in Ho. by injection Ho as <-. Qed.

Lemma records_of_spec h l o :
  wf h → objs h !! l = Some o → size o ≠ 0 →
  Forall (rec_ok h) (records_of l o) ∧ records_of l o ≠ [] ∧
  sum_lengths (records_of l o) = size o ∧
  concat (map (rec_bytes h) (records_of l o)) = data_bytes h l ∧
  length (records_of l o) = nrecords h l.
Proof.
  intros Hwf Ho Hs. pose proof (empty_size _ _ _ Hwf Ho Hs) as Hne.
  unfold data_bytes, nrecords. rewrite Ho.
  unfold records_of, obj_bytes, _dispatch_data_leaf, _dispatch_data_num_records.
  destruct (wf_obj _ Hwf _ _ Ho Hne) as [[Hl|Hc] _].
  - pose proof (leaf_size _ _ Hl). rewrite (leaf_records _ _ Hl). simpl. split_and!.
    + apply Forall_singleton. split_and!; simpl; try done; [lia|].
      exists o. split_and!; [done..|lia].
    + done.
    + lia.
    + rewrite app_nil_r. unfold rec_bytes. simpl. rewrite Ho.
      apply zslice_full. by rewrite leaf_bytes_zlen.
    + done.
  - pose proof (comp_records _ _ Hc). destruct (records o) as [|r rs] eqn:E; [done|].
    rewrite <- E. split_and!; try done; [apply Hc|by rewrite E|symmetry; apply Hc|by rewrite E].
Qed.

Lemma headroom_le h m n : m ≤ n → headroom h n → headroom h m.
Proof. intros ? H l o Ho Hne. specialize (H l o Ho Hne). lia. Qed.

(** What an operation that returns a data object guarantees. *)
Definition returns_data (m : D (option loc)) (h : heap) (bytes : list Z) : Prop :=
  ∃ l h', m h = Ok (Some l, h') ∧ wf h' ∧ extends h h' ∧ live h' l ∧
          data_bytes h' l = bytes ∧ owned h h' l.

Lemma returns_data_eq m m' h bs : m h = m' h → returns_data m' h bs → returns_data m h bs.
Proof. unfold returns_data. by intros ->. Qed.

(** The first object read of an operation. *)
Lemma returns_data_get (f : dispatch_data_s → D (option loc)) l h o bs :
  objs h !! l = Some o → returns_data (f o) h bs → returns_data (get_obj l ≫= f) h bs.
Proof. intros Ho. apply returns_data_eq. unfold mbind, M_bind, get_obj. by rewrite Ho. Qed.

Lemma returns_retained h l :
  wf h → live h l → headroom h 1 →
  returns_data (dispatch_retain l ≫= λ _, mret (Some l)) h (data_bytes h l).
Proof.
  intros Hwf Hl Hroom. destruct (retain_spec _ _ Hwf Hl Hroom) as (h' & E & Hwf' & Hext & _ & Hown).
  exists l, h'. unfold mbind, M_bind. rewrite E.
  split_and!; [done..|by eapply live_ext|by apply data_bytes_ext|done].
Qed.

Lemma alloc_composite_spec h recs n :
  wf h → Forall (rec_ok h) recs → recs ≠ [] → n = sum_lengths recs → n < 2 ^ 64 →
  records_fit (length recs) → headroom h (zlen recs) →
  returns_data (alloc_composite recs n) h (concat (map (rec_bytes h) recs)).
Proof.
  intros. exists (next_loc h), (composite_heap h recs n). split_and!.
  - by apply alloc_composite_eq.
  - by apply wf_composite.
  - by apply extends_composite.
  - unfold live. simpl. rewrite lookup_insert_eq. by eexists.
  - by apply composite_bytes_eq.
  - by apply owned_composite.
Qed.

Lemma create_concat_spec h dd1 dd2 :
  wf h → live h dd1 → live h dd2 →
  zlen (data_bytes h dd1) + zlen (data_bytes h dd2) < 2 ^ 64 →
  records_fit (nrecords h dd1 + nrecords h dd2) →
  headroom h (1 + Z.of_nat (nrecords h dd1) + Z.of_nat (nrecords h dd2)) →
  returns_data (dispatch_data_create_concat dd1 dd2) h
    (data_bytes h dd1 ++ data_bytes h dd2).
Proof.
  intros Hwf Hl1 Hl2 Hsz Hfit Hroom.
  pose proof Hl1 as [o1 Ho1]. pose proof Hl2 as [o2 Ho2].
  pose proof (data_bytes_zlen _ _ _ Hwf Ho1) as Hz1.
  pose proof (data_bytes_zlen _ _ _ Hwf Ho2) as Hz2.
  assert (headroom h 1) by (eapply headroom_le; [|done]; lia).
  unfold returns_data, dispatch_data_create_concat, get_obj, mbind, M_bind.
  rewrite Ho1, Ho2.
  destruct (size o1 =? 0) eqn:E1; [|destruct (size o2 =? 0) eqn:E2].
  - replace (data_bytes h dd1) with (@nil Z); [by apply returns_retained|].
    destruct (data_bytes h dd1); [done|]. rewrite zlen_cons in Hz1.
    pose proof (zlen_nonneg l). lia.
  - replace (data_bytes h dd2) with (@nil Z); [rewrite app_nil_r; by apply returns_retained|].
    destruct (data_bytes h dd2); [done|]. rewrite zlen_cons in Hz2.
    pose proof (zlen_nonneg l). lia.
  - destruct (records_of_spec _ _ _ Hwf Ho1) as (Hr1 & Hn1 & Hs1 & Hb1 & Hc1); [lia|].
    destruct (records_of_spec _ _ _ Hwf Ho2) as (Hr2 & Hn2 & Hs2 & Hb2 & Hc2); [lia|].
    unfold nrecords in *. rewrite Ho1, Ho2 in *. unfold records_fit in Hfit.
    destruct (_ >? SIZE_T_MAX) eqn:E.
    { rewrite Z.gtb_lt in E.
      unfold SIZEOF_RANGE_RECORD, SIZEOF_DISPATCH_DATA_S in *. lia. }
    pose proof (zlen_nonneg (data_bytes h dd1)). pose proof (zlen_nonneg (data_bytes h dd2)).
    rewrite wrapu_small by lia. rewrite <- Hb1, <- Hb2, <- concat_app, <- map_app.
    apply alloc_composite_spec; try done.
    + by apply Forall_app.
    + by destruct (records_of dd1 o1).
    + rewrite sum_lengths_app. lia.
    + lia.
    + by rewrite length_app, Hc1, Hc2.
    + eapply headroom_le; [|exact Hroom]. unfold zlen. rewrite length_app. lia.
Qed.

(** C1. Concatenation: on a well-formed heap with room for the new records
    and counts, [dispatch_data_create_concat] returns an object whose bytes
    are those of its arguments one after the other; the heap stays well-formed
    and every existing object keeps its bytes. *)
Theorem dispatch_data_create_concat_correct h dd1 dd2 :
  wf h → live h dd1 → live h dd2 →
  zlen (data_bytes h dd1) + zlen (data_bytes h dd2) < 2 ^ 64 →
  records_fit (nrecords h dd1 + nrecords h dd2) →
  headroom h (1 + Z.of_nat (nrecords h dd1) + Z.of_nat (nrecords h dd2)) →
  returns_data (dispatch_data_create_concat dd1 dd2) h
    (data_bytes h dd1 ++ data_bytes h dd2).
Proof. apply create_concat_spec. Qed.

(** ** Subranges *)

Lemma sum_zlen_concat h rs :
  Forall (rec_ok h) rs → sum_lengths rs = zlen (concat (map (rec_bytes h) rs)).
Proof. intros. by rewrite concat_recs_zlen. Qed.

Lemma find_record_spec h rs offset :
  Forall (rec_ok h) rs → 0 ≤ offset < sum_lengths rs →
  ∃ pre r rest off', rs = pre ++ r :: rest ∧ find_record rs offset = (r :: rest, off') ∧
    sum_lengths pre + off' = offset ∧ 0 ≤ off' < length_ r.
Proof.
  intros Hrs. revert offset. induction Hrs as [|r rs Hr Hrs IH]; intros offset Ho;
    simpl in *; [lia|].
  destruct (length_ r <=? offset) eqn:E.
  - destruct (IH (offset - length_ r)) as (pre & r' & rest & off' & -> & Ef & Hs & Hb); [lia|].
    exists (r :: pre), r', rest, off'. simpl. split_and!; [done|done|lia|lia|lia].
  - exists [], r, rs, offset. simpl. split_and!; [done|done|lia|lia|lia].
Qed.

Lemma find_last_spec h rs count ll (s : heap) :
  Forall (rec_ok h) rs → 0 < ll ≤ sum_lengths rs →
  ∃ mid x post ll', rs = mid ++ x :: post ∧
    find_last rs count ll s = Ok (((count + length mid + 1)%nat, ll'), s) ∧
    ll = sum_lengths mid + ll' ∧ 0 < ll' ≤ length_ x.
Proof.
  intros Hrs. revert count ll. induction Hrs as [|r rs Hr Hrs IH]; intros count ll Hll;
    simpl in *; [lia|].
  destruct (ll <=? length_ r) eqn:E.
  - exists [], r, rs, ll. simpl. split_and!; [done| |lia|lia|lia].
    rewrite ret_eq. do 3 f_equal. lia.
  - destruct (IH (S count) (ll - length_ r)) as (mid & x & post & ll' & Ers & Ef & Hs & Hb); [lia|].
    exists (r :: mid), x, post, ll'. simpl. rewrite Ers in *.
    destruct (mid ++ x :: post) eqn:E2; [by destruct mid|].
    rewrite Ef. split_and!; [done| |lia|lia|lia]. do 3 f_equal. lia.
Qed.

(** A piece of a record. *)
Definition cut (r : range_record) (off n : Z) : range_record :=
  RR (data_object r) (from r + off) n.

Lemma rec_ok_from h r : rec_ok h r → from r + length_ r < 2 ^ 64.
Proof. intros (_ & _ & _ & o & _ & Hl & ?). pose proof (leaf_size _ _ Hl). lia. Qed.

Lemma cut_ok h r off n : rec_ok h r → 0 ≤ off → 0 < n → off + n ≤ length_ r → rec_ok h (cut r off n).
Proof.
  intros (? & ? & ? & o & ? & ? & ?) ???. split_and!; simpl; [done|lia|lia|].
  exists o. split_and!; [done..|simpl; lia].
Qed.

Lemma cut_bytes h r off n :
  rec_ok h r → 0 ≤ off → 0 < n → off + n ≤ length_ r →
  rec_bytes h (cut r off n) = zslice off n (rec_bytes h r).
Proof.
  intros (? & ? & ? & o & Ho & Hl & ?) ???. unfold rec_bytes. simpl. rewrite Ho.
  rewrite zslice_zslice by lia. f_equal. lia.
Qed.

Lemma cut_0 r : cut r 0 (length_ r) = r.
Proof. destruct r. unfold cut. simpl. f_equal. lia. Qed.

Lemma trim_first_eq h r rs off :
  rec_ok h r → 0 ≤ off < length_ r → trim_first off (r :: rs) = cut r off (length_ r - off) :: rs.
Proof.
  intros Hr Ho. pose proof (rec_ok_from _ _ Hr) as Hf. pose proof Hr as (_ & ? & _).
  unfold trim_first. destruct (off =? 0) eqn:E.
  - assert (off = 0) as -> by lia. by rewrite Z.sub_0_r, cut_0.
  - unfold cut. rewrite wrapu_small by lia. done.
Qed.

Lemma set_last_length_app n rs r :
  set_last_length n (rs ++ [r]) = rs ++ [RR (data_object r) (from r) n].
Proof.
  induction rs as [|r' rs IH]; [done|]. simpl. rewrite IH.
  destruct (rs ++ [r]) eqn:E; [by destruct rs|]. done.
Qed.

Lemma cut_prefix r n : RR (data_object r) (from r) n = cut r 0 n.
Proof. unfold cut. by rewrite Z.add_0_r. Qed.

(** The bytes of a range of a composite that starts in record [r] and goes on
    past it. *)
Lemma slice_from_record h pre r rest off n :
  Forall (rec_ok h) (pre ++ r :: rest) → 0 ≤ off < length_ r → length_ r - off ≤ n →
  zslice (sum_lengths pre + off) n (concat (map (rec_bytes h) (pre ++ r :: rest))) =
  rec_bytes h (cut r off (length_ r - off)) ++
  zslice 0 (n - (length_ r - off)) (concat (map (rec_bytes h) rest)).
Proof.
  intros Hall Ho Hn. apply Forall_app in Hall as [Hpre [Hr Hrest]%Forall_cons].
  rewrite map_app, concat_app. rewrite (sum_zlen_concat h pre) by done.
  pose proof (zlen_nonneg (concat (map (rec_bytes h) pre))).
  rewrite zslice_app_r by lia. simpl.
  replace (_ + off - _) with off by lia.
  rewrite zslice_app_mid; rewrite (rec_bytes_zlen h r) by done; [|lia|lia].
  rewrite cut_bytes by (done || lia). done.
Qed.

Lemma slice_in_record h pre r rest off n :
  Forall (rec_ok h) (pre ++ r :: rest) → 0 ≤ off → 0 < n → off + n ≤ length_ r →
  zslice (sum_lengths pre + off) n (concat (map (rec_bytes h) (pre ++ r :: rest))) =
  zslice off n (rec_bytes h r).
Proof.
  intros Hall ???. apply Forall_app in Hall as [Hpre [Hr Hrest]%Forall_cons].
  rewrite map_app, concat_app. rewrite (sum_zlen_concat h pre) by done.
  pose proof (zlen_nonneg (concat (map (rec_bytes h) pre))).
  rewrite zslice_app_r by lia. simpl.
  replace (_ + off - _) with off by lia.
  apply zslice_app_l; [lia|lia|]. rewrite rec_bytes_zlen by done. lia.
Qed.

(** A subrange of a leaf, clipped to its end. *)
Lemma trivial_subrange_spec h l o off n :
  wf h → objs h !! l = Some o → l ≠ dispatch_data_empty → leaf_ok h o →
  0 ≤ off → 0 < n → off + n ≤ size o → headroom h 1 →
  returns_data (alloc_subrange l off n) h (zslice off n (leaf_bytes h o)).
Proof.
  intros Hwf Ho Hne Hl ? ? ? Hroom. pose proof (leaf_size _ _ Hl).
  replace (zslice off n (leaf_bytes h o)) with (concat (map (rec_bytes h) [RR l off n])).
  - apply alloc_composite_spec; try done; [|simpl; lia|lia].
    apply Forall_singleton. split_and!; simpl; try done. exists o. by split_and!.
  - simpl. rewrite app_nil_r. unfold rec_bytes. simpl. by rewrite Ho.
Qed.

Lemma data_bytes_leaf h l o :
  objs h !! l = Some o → leaf_ok h o → data_bytes h l = leaf_bytes h o.
Proof.
  intros Ho Hl. unfold data_bytes, obj_bytes, _dispatch_data_leaf.
  by rewrite Ho, (leaf_records _ _ Hl).
Qed.

Lemma subrange_leaf_spec fuel h l o off n :
  wf h → objs h !! l = Some o → l ≠ dispatch_data_empty → leaf_ok h o →
  0 ≤ off < size o → 0 < n → headroom h 1 →
  returns_data (create_subrange_fuel (S fuel) l off n) h
    (zslice off (Z.min n (size o - off)) (leaf_bytes h o)).
Proof.
  intros Hwf Ho Hne Hl ? ? Hroom. cbn [create_subrange_fuel].
  apply (returns_data_get _ _ _ o); [done|].
  destruct ((size o <=? off) || (n =? 0)) eqn:E1; [lia|].
  unfold _dispatch_data_leaf. rewrite (leaf_records _ _ Hl).
  destruct (size o - off <? n) eqn:E2; cbn [negb andb]; cbv zeta.
  - rewrite Z.min_r by lia. apply trivial_subrange_spec; done || lia.
  - rewrite Z.min_l by lia. destruct (n =? size o) eqn:E3.
    + assert (off = 0 ∧ n = size o) as [-> ->] by lia.
      rewrite zslice_full by (by rewrite leaf_bytes_zlen).
      rewrite <- (data_bytes_leaf _ _ _ Ho Hl).
      by apply returns_retained; [|by exists o|].
    + apply trivial_subrange_spec; done || lia.
Qed.

Lemma zslice_concat_mid h mid x post n :
  Forall (rec_ok h) (mid ++ x :: post) → 0 < n ≤ length_ x →
  zslice 0 (sum_lengths mid + n) (concat (map (rec_bytes h) (mid ++ x :: post))) =
  concat (map (rec_bytes h) mid) ++ rec_bytes h (cut x 0 n).
Proof.
  intros Hall Hn. apply Forall_app in Hall as [Hmid [Hx _]%Forall_cons].
  rewrite map_app, concat_app, (sum_zlen_concat h mid) by done. simpl.
  pose proof (zlen_nonneg (concat (map (rec_bytes h) mid))).
  rewrite zslice_app_mid by lia. rewrite Z.sub_0_r, zslice_full by done. f_equal.
  replace (_ + n - _) with n by lia.
  rewrite cut_bytes by (done || lia).
  apply zslice_app_l; [lia|lia|]. rewrite rec_bytes_zlen by done. lia.
Qed.

Lemma zslice_concat_all h rs n :
  Forall (rec_ok h) rs → n = sum_lengths rs →
  zslice 0 n (concat (map (rec_bytes h) rs)) = concat (map (rec_bytes h) rs).
Proof. intros ? ->. apply zslice_full. by rewrite concat_recs_zlen. Qed.

(** A range of a composite that spans several records. *)
Lemma subrange_span_spec h pre r rest off n (to_end : bool) :
  wf h → Forall (rec_ok h) (pre ++ r :: rest) → records_fit (length (pre ++ r :: rest)) →
  0 ≤ off < length_ r → length_ r - off < n → n < 2 ^ 64 →
  (if to_end then n = sum_lengths (r :: rest) - off else n < sum_lengths (r :: rest) - off) →
  headroom h (zlen (r :: rest)) →
  returns_data
    ('(count, last_length) ←
        (if to_end then mret (S (length rest), 0)
         else find_last rest 1 (u64 (n - (length_ r - off))));
     let recs := trim_first off (take count (r :: rest)) in
     let recs := if to_end then recs else set_last_length last_length recs in
     alloc_composite recs n) h
    (zslice (sum_lengths pre + off) n (concat (map (rec_bytes h) (pre ++ r :: rest)))).
Proof.
  intros Hwf Hall Hfit Ho Hn Hn64 Hend Hroom.
  rewrite slice_from_record by (done || lia).
  pose proof Hall as [_ [Hr Hrest]%Forall_cons]%Forall_app.
  destruct to_end.
  - unfold returns_data. rewrite (bind_Ok _ _ h _ h (ret_eq _ _)).
    simpl take. rewrite firstn_all, (trim_first_eq h) by done.
    simpl in Hend. rewrite zslice_concat_all by (done || lia).
    apply (alloc_composite_spec h (cut r off (length_ r - off) :: rest)); try done.
    + apply Forall_cons. split; [by apply cut_ok; lia || done|done].
    + simpl. lia.
    + eapply records_fit_le; [|exact Hfit]. rewrite length_app. simpl. lia.
  - simpl in Hend. rewrite (wrapu_small 64) by lia.
    destruct (find_last_spec h rest 1 (n - (length_ r - off)) h Hrest)
      as (mid & x & post & ll' & -> & Ef & Hs & Hb); [lia|].
    unfold returns_data. rewrite (bind_Ok _ _ h _ h Ef).
    rewrite Hs, zslice_concat_mid by done.
    pose proof Hrest as [Hmid [Hx _]%Forall_cons]%Forall_app.
    replace (1 + length mid + 1)%nat with (S (length mid + 1)) by lia. simpl take.
    rewrite take_app_ge by lia. replace (length mid + 1 - length mid)%nat with 1%nat by lia.
    simpl take. rewrite (trim_first_eq h) by done.
    cbv zeta. rewrite app_comm_cons, set_last_length_app, cut_prefix.
    replace (rec_bytes h (cut r off (length_ r - off)) ++
             concat (map (rec_bytes h) mid) ++ rec_bytes h (cut x 0 ll'))
      with (concat (map (rec_bytes h)
              ((cut r off (length_ r - off) :: mid) ++ [cut x 0 ll']))).
    2:{ rewrite map_app, concat_app. simpl. by rewrite app_nil_r, <- app_assoc. }
    apply alloc_composite_spec; try done.
    + rewrite Forall_app, Forall_cons, Forall_singleton.
      split_and!; [by apply cut_ok; lia || done|done|by apply cut_ok; lia || done].
    + rewrite sum_lengths_app. simpl. lia.
    + eapply records_fit_le; [|exact Hfit]. rewrite !length_app. simpl.
      rewrite !length_app. simpl. lia.
    + eapply headroom_le; [|exact Hroom]. autorewrite with zlen.
      pose proof (zlen_nonneg post). lia.
Qed.

(** A subrange of a composite: inside one record, or across several. *)
Lemma subrange_comp_spec fuel h l o off n :
  wf h → objs h !! l = Some o → comp_ok h o → 0 ≤ off < size o → 0 < n →
  headroom h 1 → headroom h (zlen (records o)) →
  returns_data (create_subrange_fuel (S (S fuel)) l off n) h
    (zslice off (Z.min n (size o - off)) (concat (map (rec_bytes h) (records o)))).
Proof.
  intros Hwf Ho Hc Hoff Hn Hroom1 Hroom.
  pose proof (comp_records _ _ Hc) as Hrne. pose proof (comp_recs _ _ Hc) as Hrs.
  pose proof (comp_size _ _ Hc) as Hsz. pose proof (comp_bound _ _ Hc) as Hbd.
  remember (S fuel) as fuel1 eqn:Hfuel. cbn [create_subrange_fuel].
  apply (returns_data_get _ _ _ o); [done|].
  destruct ((size o <=? off) || (n =? 0)) eqn:E1; [lia|].
  destruct (negb (size o - off <? n) && (n =? size o)) eqn:E2.
  { assert (off = 0 ∧ n = size o) as [-> ->] by lia. rewrite Z.min_l by lia.
    rewrite zslice_full by (rewrite concat_recs_zlen by done; lia).
    rewrite <- (obj_bytes_comp h o Hrne).
    replace (obj_bytes h o) with (data_bytes h l) by (unfold data_bytes; by rewrite Ho).
    by apply returns_retained; [|by exists o|]. }
  replace (if size o - off <? n then size o - off else n)
    with (Z.min n (size o - off)) by (destruct (size o - off <? n) eqn:?; lia).
  set (m := Z.min n (size o - off)) in *. cbv zeta.
  unfold _dispatch_data_leaf. destruct (records o) as [|r0 rs0] eqn:Er; [done|].
  rewrite <- Er in *. cbv iota.
  destruct (find_record_spec h (records o) off Hrs)
    as (pre & r & rest & off' & Hsplit & Ef & Hs & Hb); [lia|]. rewrite Ef.
  pose proof (comp_fit _ _ Hc) as Hfit. clear Er Hrne Ef. rewrite Hsplit in *.
  pose proof Hrs as [Hpre [Hr Hrest]%Forall_cons]%Forall_app.
  pose proof (sum_lengths_nonneg _ _ Hpre). pose proof (sum_lengths_nonneg _ _ Hrest).
  rewrite sum_lengths_app in Hsz. simpl in Hsz.
  rewrite <- Hs. rewrite (wrapu_small 64 (off' + m)) by lia.
  destruct (off' + m <=? length_ r) eqn:E3.
  - pose proof Hr as (Hrne' & Hf0 & _ & o' & Ho' & Hl' & Hle').
    pose proof (rec_ok_from _ _ Hr). rewrite (wrapu_small 64) by lia.
    rewrite slice_in_record by (done || lia).
    unfold rec_bytes. rewrite Ho', zslice_zslice by lia.
    rewrite (Z.add_comm off' (from r)), Hfuel.
    pose proof (subrange_leaf_spec fuel h (data_object r) o' (from r + off') m) as Hleaf.
    rewrite Z.min_l in Hleaf by lia. apply Hleaf; done || lia.
  - rewrite (wrapu_small 64 (sum_lengths pre + off' + m)) by lia.
    replace (sum_lengths pre + off' + m =? size o)
      with (bool_decide (sum_lengths pre + off' + m = size o)) by (case_bool_decide; lia).
    apply subrange_span_spec; try done; try lia.
    + case_bool_decide; simpl; lia.
    + eapply headroom_le; [|exact Hroom]. rewrite zlen_app. pose proof (zlen_nonneg pre). lia.
Qed.

Lemma zslice_min {A} off n k (l : list A) :
  k = zlen l → 0 ≤ off ≤ k → zslice off (Z.min n (k - off)) l = zslice off n l.
Proof.
  intros -> ?. destruct (decide (n ≤ zlen l - off)); [by rewrite Z.min_l by lia|].
  rewrite Z.min_r by lia. symmetry. apply zslice_clip; lia.
Qed.

Lemma create_subrange_spec h dd offset n :
  wf h → live h dd → is_u64 offset → is_u64 n →
  headroom h (Z.of_nat (nrecords h dd)) →
  returns_data (dispatch_data_create_subrange dd offset n) h
    (zslice offset n (data_bytes h dd)).
Proof.
  unfold is_u64. intros Hwf Hlive Hoff Hn Hroom. pose proof Hlive as [o Ho].
  pose proof (data_bytes_zlen _ _ _ Hwf Ho) as Hz.
  unfold nrecords, _dispatch_data_num_records in Hroom. rewrite Ho in Hroom.
  assert (headroom h 1) as Hroom1.
  { eapply headroom_le; [|exact Hroom]. destruct (length (records o)); lia. }
  unfold dispatch_data_create_subrange, DATA_DEPTH.
  destruct ((size o <=? offset) || (n =? 0)) eqn:E1.
  { exists dispatch_data_empty, h. simpl. unfold get_obj, mbind, M_bind.
    rewrite Ho, E1. split_and!; try done; [exists empty_object; apply Hwf| |by apply owned_empty].
    unfold data_bytes at 1. rewrite (wf_empty _ Hwf). simpl. symmetry.
    apply orb_true_iff in E1 as [E1|E1]; [apply zslice_past; lia|].
    assert (n = 0) as -> by lia. by rewrite zslice_0. }
  assert (dd ≠ dispatch_data_empty) as Hne by (eapply empty_size; [done..|lia]).
  rewrite <- (zslice_min offset n (size o)) by lia.
  destruct (wf_obj _ Hwf _ _ Ho Hne) as [[Hl|Hc] _].
  - rewrite (data_bytes_leaf _ _ _ Ho Hl). by apply subrange_leaf_spec; try done; lia.
  - unfold data_bytes. rewrite Ho, (obj_bytes_comp h o (comp_records _ _ Hc)).
    apply subrange_comp_spec; try done; try lia.
    eapply headroom_le; [|exact Hroom]. unfold zlen. destruct (length (records o)); lia.
Qed.

(** C19. Subranges: [dispatch_data_create_subrange] never takes its
    out-of-bounds crash on a well-formed object, and returns an object whose
    bytes are the slice of at most [n] bytes at [offset] (empty when [offset]
    is past the end), whatever the kind of the object: empty, leaf, trivial
    subrange, flattened or unflattened composite. *)
Theorem dispatch_data_create_subrange_correct h dd offset n :
  wf h → live h dd → is_u64 offset → is_u64 n →
  headroom h (Z.of_nat (nrecords h dd)) →
  returns_data (dispatch_data_create_subrange dd offset n) h
    (zslice offset n (data_bytes h dd)).
Proof. apply create_subrange_spec. Qed.
