(* ===== verification/DispatchDataMap.v ===== *)
(** * Dispatch data objects: iteration, mapping and regions

    [dispatch_data_apply] and the operations built on it: the flat copy, the
    contiguous maps, and the lookup of a region by its location. *)

From S2P Require Import Prelude DispatchData DispatchDataInv DispatchDataSpec.
Import Data.

(** ** Direct mapping *)

(** What [_dispatch_data_map_direct] finds: a pointer to the bytes at [off],
    or an object of several records that has no contiguous buffer. *)
Lemma map_direct_spec h l o off :
  wf h → objs h !! l = Some o → size o ≠ 0 → 0 ≤ off ≤ size o →
  (∃ p l' off', _dispatch_data_map_direct l off h = Ok ((Some p, l', off'), h) ∧
     regions h l = [data_bytes h l] ∧
     ∀ k, 0 ≤ k → off + k ≤ size o → load (mem h) p k = Some (zslice off k (data_bytes h l))) ∨
  (_dispatch_data_map_direct l off h = Ok ((None, l, off), h) ∧ comp_ok h o ∧
     buf o = None ∧ regions h l = map (rec_bytes h) (records o)).
Proof.
  intros Hwf Ho Hs Hoff. pose proof (empty_size _ _ _ Hwf Ho Hs) as Hne.
  unfold regions, data_bytes, obj_regions. rewrite Ho.
  unfold _dispatch_data_map_direct. mget Ho.
  destruct (size o =? 0) eqn:E0; [lia|]. cbn [negb]. unfold assert_M.
  rewrite (bind_Ok _ _ h _ h (ret_eq tt _)).
  destruct (wf_obj _ Hwf _ _ Ho Hne) as [[Hl|Hc] _].
  - left. pose proof (leaf_records _ _ Hl) as Hr. destruct (leaf_buf _ _ Hl) as (p & Hp & Hload).
    rewrite Hr. exists (ptr_add p off), l, off. unfold get_obj, mbind, M_bind, mret, M_ret.
    rewrite Ho, Hp. unfold obj_bytes, _dispatch_data_leaf. rewrite Hr. split_and!; [done..|].
    intros k Hk Hk'. apply (load_sub _ _ (size o)); [done|lia..].
  - pose proof (comp_records _ _ Hc) as Hr. pose proof (comp_recs _ _ Hc) as Hrs.
    unfold obj_bytes, _dispatch_data_leaf. destruct (records o) as [|r rs] eqn:Er; [done|].
    destruct rs as [|r' rs].
    + left. apply Forall_singleton in Hrs as (Hrne & Hf & Hlr & o' & Ho' & Hl' & Hle).
      pose proof (comp_size _ _ Hc) as Hsz. rewrite Er in Hsz. simpl in Hsz.
      destruct (leaf_buf _ _ Hl') as (p & Hp & Hload). pose proof (leaf_size _ _ Hl').
      rewrite (wrapu_small 64) by lia. unfold get_obj, mbind, M_bind, mret, M_ret. rewrite Ho', Hp.
      eexists _, _, _. split; [done|]. simpl. rewrite app_nil_r. unfold rec_bytes. rewrite Ho'.
      split; [by destruct (buf o)|]. intros k Hk Hk'.
      rewrite zslice_zslice by lia. apply (load_sub _ _ (size o')); [done|lia..].
    + rewrite (bind_Ok _ _ h _ h (ret_eq (l, off) h)).
      unfold get_obj, mbind, M_bind, mret, M_ret. rewrite Ho.
      destruct (buf o) as [p|] eqn:Hb.
      * left. eexists _, _, _. split_and!; [done..|]. intros k Hk Hk'.
        destruct (comp_buf _ _ Hc p Hb) as [_ Hload].
        apply (load_sub _ _ (size o)); [|lia..]. rewrite Hload.
        rewrite obj_bytes_comp by congruence. by rewrite Er.
      * right. by split_and!.
Qed.

(** ** The iteration rule

    To run [dispatch_data_apply] with a client function [f] it is enough to
    give an invariant [I] indexed by the regions already visited, such that
    every call of [f] on the next region re-establishes it, or returns false
    and establishes [F].  [f] may allocate, retain and release, as long as it
    preserves the objects that existed when the iteration started. *)
Section ApplyRule.
Context {S : Type} (f : loc → Z → ptr → Z → S → D (bool * S)).
Context (I : list (list Z) → S → heap → Prop) (F : S → heap → Prop).
Context (h0 : heap) (dd : loc) (o0 : dispatch_data_s) (Hwf0 : wf h0)
        (Ho0 : objs h0 !! dd = Some o0).
Context (HI : ∀ seen s h, I seen s h → wf h ∧ extends h0 h).
Context (Hf : ∀ seen r rest s h x p,
  regions h0 dd = seen ++ r :: rest → I seen s h → load (mem h) p (zlen r) = Some r →
  ∃ b s' h', f x (zlen (concat seen)) p (zlen r) s h = Ok ((b, s'), h') ∧
             (if b then I (seen ++ [r]) s' h' else F s' h')).

Lemma apply_record_step fuel seen r rest s h :
  rec_ok h0 r → regions h0 dd = seen ++ rec_bytes h0 r :: rest → I seen s h →
  ∃ b s' h', _dispatch_data_apply f (Datatypes.S fuel) (data_object r) (zlen (concat seen))
               (from r) (length_ r) s h = Ok ((b, s'), h') ∧
             (if b then I (seen ++ [rec_bytes h0 r]) s' h' else F s' h').
Proof using HI Hf.
  intros Hr Hreg Hinv. destruct (HI _ _ _ Hinv) as [Hwf Hext].
  pose proof (rec_ok_ext _ _ Hext _ Hr) as (Hne & Hf0 & Hl0 & o & Ho & Hl & Hle).
  pose proof (leaf_size _ _ Hl). pose proof (rec_bytes_zlen _ _ Hr) as Hz.
  destruct (map_direct_spec h (data_object r) o 0 Hwf Ho)
    as [(p & l' & off' & Em & _ & Hload)|(_ & Hc & _)]; [lia|lia| |].
  - simpl. rewrite (bind_Ok _ _ h _ h Em). rewrite <- Hz.
    apply Hf with (rest := rest); [done|done|].
    rewrite Hz. unfold load, ptr_add. simpl.
    assert (load (mem h) (ptr_add p (from r)) (length_ r) = Some (rec_bytes h0 r)) as <-; [|done].
    rewrite <- (rec_bytes_ext h0 h) by done. unfold rec_bytes. rewrite Ho.
    apply (load_sub _ _ (size o)); [|lia..].
    rewrite Hload by lia. unfold data_bytes. rewrite Ho.
    unfold obj_bytes, _dispatch_data_leaf. rewrite (leaf_records _ _ Hl).
    by rewrite zslice_full by (by rewrite leaf_bytes_zlen).
  - by destruct (comp_records _ _ Hc), (leaf_records _ _ Hl).
Qed.

Lemma apply_records_spec fuel rs seen s h :
  Forall (rec_ok h0) rs → regions h0 dd = seen ++ map (rec_bytes h0) rs →
  zlen (concat seen) + sum_lengths rs < 2 ^ 64 → I seen s h →
  ∃ b s' h', apply_records (_dispatch_data_apply f (Datatypes.S fuel)) rs
               (zlen (concat seen)) true s h = Ok ((b, s'), h') ∧
             (if b then I (regions h0 dd) s' h' else F s' h').
Proof using HI Hf.
  intros Hrs. revert seen s h. induction Hrs as [|r rs Hr Hrs IH];
    intros seen s h Hreg Hlen Hinv; cbn [apply_records].
  - exists true, s, h. simpl in Hreg. rewrite app_nil_r in Hreg. by rewrite Hreg.
  - simpl in Hreg, Hlen. pose proof (zlen_nonneg (concat seen)).
    pose proof (sum_lengths_nonneg _ _ Hrs). pose proof Hr as (_ & _ & ? & _).
    destruct (apply_record_step fuel seen r _ s h Hr Hreg Hinv) as (b & s' & h' & E & Hpost).
    rewrite (bind_Ok _ _ h _ h' E). rewrite wrapu_small by lia.
    destruct b.
    + assert (zlen (concat (seen ++ [rec_bytes h0 r])) = zlen (concat seen) + length_ r) as Hz.
      { rewrite concat_app, zlen_app. simpl. rewrite app_nil_r, rec_bytes_zlen by done. done. }
      rewrite <- Hz. apply IH; [by rewrite Hreg, <- app_assoc|lia|done].
    + exists false, s', h'. split; [by destruct rs|done].
Qed.

Lemma apply_spec s0 h :
  I [] s0 h →
  ∃ b s' h', dispatch_data_apply f dd s0 h = Ok ((b, s'), h') ∧
             (if b then I (regions h0 dd) s' h' else F s' h').
Proof using HI Hf Hwf0 Ho0.
  intros Hinv. destruct (HI _ _ _ Hinv) as [Hwf Hext].
  destruct (ext_obj _ _ Hext _ _ Ho0) as (o & Ho & Hbo & Hso & Hro).
  assert (live h0 dd) as Hlive by (by exists o0).
  pose proof (regions_ext _ _ _ Hwf0 Hwf Hext Hlive) as Hregs.
  unfold dispatch_data_apply. mget Ho.
  destruct (size o =? 0) eqn:E0.
  { exists true, s0, h. split; [done|]. rewrite <- Hregs.
    unfold regions, obj_regions. by rewrite Ho, E0. }
  unfold DATA_DEPTH. remember 1%nat as fuel1 eqn:Hfuel. cbn [_dispatch_data_apply].
  pose proof (empty_size _ _ _ Hwf Ho) as Hne.
  destruct (wf_obj _ Hwf _ _ Ho) as [Hok _]; [apply Hne; lia|].
  destruct (wf_obj _ Hwf0 _ _ Ho0) as [Hok0 _]; [apply Hne; lia|].
  assert (0 ≤ size o) by (destruct Hok as [Hok|Hok]; destruct Hok; lia).
  destruct (map_direct_spec h dd o 0 Hwf Ho)
    as [(p & l' & off' & Em & Hreg & Hload)|(Em & Hc & Hb & Hreg)]; [lia|lia| |];
    rewrite (bind_Ok _ _ h _ h Em).
  - pose proof (data_bytes_zlen _ _ _ Hwf Ho) as Hz. rewrite <- Hz.
    destruct (Hf [] (data_bytes h dd) [] s0 h dd (ptr_add p 0)) as (b & s' & h' & E & Hpost);
      [by rewrite <- Hregs|done| |].
    { unfold ptr_add. rewrite Z.add_0_r. destruct p. rewrite Hz, Hload by lia.
      by rewrite zslice_full. }
    exists b, s', h'. rewrite <- Hregs, Hreg. split; [exact E|done].
  - mget Ho. rewrite Hfuel.
    assert (comp_ok h0 o0) as Hc0.
    { destruct Hok0 as [Hl0|]; [|done]. destruct (comp_records _ _ Hc).
      rewrite Hro. apply Hl0. }
    rewrite Hregs, Hro, (recs_bytes_ext h0 h Hext _ (comp_recs _ _ Hc0)) in Hreg.
    rewrite Hro. apply (apply_records_spec 0 (records o0) []); [apply Hc0|done| |done].
    rewrite <- (comp_size _ _ Hc0). pose proof (comp_bound _ _ Hc0).
    simpl. rewrite zlen_nil. lia.
Qed.
End ApplyRule.

Lemma regions_concat h l : wf h → live h l → concat (regions h l) = data_bytes h l.
Proof.
  intros Hwf [o Ho]. pose proof (data_bytes_zlen _ _ _ Hwf Ho) as Hz. revert Hz.
  unfold regions, data_bytes, obj_regions. rewrite Ho. intros Hz.
  destruct (size o =? 0) eqn:E0.
  { destruct (obj_bytes h o) as [|z zs]; [done|]. rewrite zlen_cons in Hz.
    pose proof (zlen_nonneg zs). lia. }
  unfold obj_bytes, _dispatch_data_leaf in *. destruct (records o), (buf o); simpl;
    by rewrite ?app_nil_r.
Qed.

(** *** What a client sees

    A client that records its calls and asks to stop as soon as [stop] holds
    of one. *)
Definition collect_until (stop : Z → list Z → bool) (_ : loc) (offset : Z) (p : ptr) (n : Z)
    (calls : list (Z * list Z)) : D (bool * list (Z * list Z)) :=
  bs ← read_bytes p n;
  mret (negb (stop offset bs), calls ++ [(offset, bs)]).

(** The calls that stay: up to and including the first that stops. *)
Fixpoint calls_until (stop : Z → list Z → bool) (offset : Z) (rs : list (list Z))
    : bool * list (Z * list Z) :=
  match rs with
  | [] => (true, [])
  | r :: rs =>
      if stop offset r then (false, [(offset, r)])
      else let '(b, cs) := calls_until stop (offset + zlen r) rs in (b, (offset, r) :: cs)
  end.

Lemma calls_until_app stop off seen rest cs :
  calls_until stop off seen = (true, cs) →
  calls_until stop off (seen ++ rest) =
  let '(b, cs') := calls_until stop (off + zlen (concat seen)) rest in (b, cs ++ cs').
Proof.
  revert off cs. induction seen as [|x seen IH]; intros off cs E.
  { injection E as <-. simpl concat. rewrite zlen_nil, Z.add_0_r. cbn [app].
    by destruct (calls_until _ _ _). }
  cbn [calls_until app] in *. destruct (stop off x); [done|].
  destruct (calls_until stop (off + zlen x) seen) as [b cs0] eqn:E0. injection E as -> <-.
  rewrite (IH _ _ E0). cbn [concat]. rewrite zlen_app, Z.add_assoc.
  by destruct (calls_until _ _ rest).
Qed.

Lemma calls_until_all off rs :
  calls_until (λ _ _, false) off rs = (true, imap (λ i r, (off + zlen (concat (take i rs)), r)) rs).
Proof.
  revert off. induction rs as [|r rs IH]; intros off; [done|].
  cbn [calls_until]. rewrite IH. f_equal. simpl. rewrite zlen_nil, Z.add_0_r. f_equal.
  apply imap_ext. intros i x _. simpl. rewrite zlen_app. f_equal. lia.
Qed.

Lemma apply_calls h dd stop :
  wf h → live h dd →
  dispatch_data_apply (collect_until stop) dd [] h = Ok (calls_until stop 0 (regions h dd), h).
Proof.
  intros Hwf [o Ho].
  set (I := λ (seen : list (list Z)) (s : list (Z * list Z)) (h' : heap),
              h' = h ∧ calls_until stop 0 seen = (true, s)).
  set (F := λ (s : list (Z * list Z)) (h' : heap),
              h' = h ∧ calls_until stop 0 (regions h dd) = (false, s)).
  destruct (apply_spec (collect_until stop) I F h dd o Hwf Ho) with (s0 := @nil (Z * list Z)) (h := h)
    as (b & s' & h' & E & Hpost).
  - intros seen s h' [-> _]. done.
  - intros seen r rest s h' x p Hreg [-> Hseen] Hload.
    unfold collect_until, read_bytes, mbind, M_bind. rewrite Hload.
    exists (negb (stop (zlen (concat seen)) r)), (s ++ [(zlen (concat seen), r)]), h.
    split; [done|]. destruct (stop (zlen (concat seen)) r) eqn:Est; simpl; split; try done.
    + rewrite Hreg, (calls_until_app _ _ _ _ _ Hseen), Z.add_0_l. cbn [calls_until]. by rewrite Est.
    + rewrite (calls_until_app _ _ _ _ _ Hseen), Z.add_0_l. cbn [calls_until]. by rewrite Est.
  - done.
  - rewrite E. destruct b, Hpost as [-> ->]; done.
Qed.

(** Iteration: [dispatch_data_apply] calls the client once per region, in
    order, with the region's offset in the object and its bytes, until a call
    returns false, and returns whether none did; the regions are the object's
    bytes cut into pieces, and the heap is untouched. *)
Theorem dispatch_data_apply_correct h dd stop :
  wf h → live h dd →
  dispatch_data_apply (collect_until stop) dd [] h = Ok (calls_until stop 0 (regions h dd), h) ∧
  concat (regions h dd) = data_bytes h dd ∧
  calls_until (λ _ _, false) 0 (regions h dd) =
    (true, imap (λ i r, (zlen (concat (take i (regions h dd))), r)) (regions h dd)).
Proof.
  intros Hwf Hl. split_and!; [by apply apply_calls|by apply regions_concat|].
  apply calls_until_all.
Qed.

(** ** The flat copy *)

Lemma Forall_zslice {A} (P : A → Prop) off n l : Forall P l → Forall P (zslice off n l).
Proof. intros. by apply Forall_take, Forall_drop. Qed.

Lemma load_is_byte h p n bs : wf h → load (mem h) p n = Some bs → Forall is_byte bs.
Proof.
  intros Hwf (blk & Hb & _ & _ & _ & ->)%load_Some. apply Forall_zslice.
  by apply (wf_bytes _ Hwf) in Hb.
Qed.

Lemma leaf_bytes_is_byte h o : wf h → Forall is_byte (leaf_bytes h o).
Proof.
  intros Hwf. unfold leaf_bytes. destruct (buf o) as [p|]; simpl; [|done].
  destruct (load _ _ _) eqn:E; simpl; [|done]. by eapply load_is_byte.
Qed.

Lemma data_bytes_is_byte h l : wf h → Forall is_byte (data_bytes h l).
Proof.
  intros Hwf. unfold data_bytes. destruct (objs h !! l) as [o|]; [|done].
  unfold obj_bytes. destruct (_dispatch_data_leaf o); [by apply leaf_bytes_is_byte|].
  induction (records o) as [|r rs IH]; [done|]. simpl. apply Forall_app. split; [|done].
  unfold rec_bytes. destruct (objs h !! data_object r) as [o'|]; [|done].
  by apply Forall_zslice, leaf_bytes_is_byte.
Qed.

Lemma flatten_eq h dd o :
  wf h → objs h !! dd = Some o → malloc_succeeds h →
  _dispatch_data_flatten dd h =
  Ok (Some (Ptr (next_block h) 0), block_heap h (tail (malloc_fails h)) (data_bytes h dd)).
Proof.
  intros Hwf Ho Hm. pose proof (data_bytes_zlen _ _ _ Hwf Ho) as Hz.
  pose proof (data_bytes_is_byte h dd Hwf) as Hby.
  assert (live h dd) as Hlive by (by exists o). pose proof (regions_concat _ _ Hwf Hlive) as Hrc.
  unfold _dispatch_data_flatten. mget Ho.
  mstep (malloc_eq h (size o) Hm). set (b := next_block h). set (fs := tail (malloc_fails h)).
  set (J := λ seen : list (list Z), block_heap h fs
              (concat seen ++ replicate (Z.to_nat (size o) - length (concat seen)) 0)).
  set (I := λ seen (_ : unit) h', h' = J seen ∧ ∃ rest, regions h dd = seen ++ rest).
  destruct (apply_spec (λ _ off p len (s : unit),
      bs ← read_bytes p len;
      write_bytes (ptr_add (Ptr b 0) off) bs ≫= λ _, mret (true, s)) I (λ _ _, False) h dd o Hwf Ho)
    with (s0 := tt) (h := J []) as ([] & [] & h' & E & Hpost); [..|done].
  - intros seen _ h' [-> [rest Hreg]]. split; [|by apply extends_block].
    apply wf_block_heap; [done|]. apply Forall_app. split.
    + rewrite <- Hrc, Hreg, concat_app in Hby. by apply Forall_app in Hby as [? _].
    + apply Forall_replicate. done.
  - intros seen r rest [] h' x p Hreg [-> _] Hload.
    rewrite <- Hrc, Hreg, concat_app in Hz. simpl in Hz. rewrite !zlen_app in Hz.
    pose proof (zlen_nonneg (concat rest)). unfold zlen in Hz.
    exists true, tt, (J (seen ++ [r])). split.
    + unfold read_bytes. unfold mbind at 1, M_bind at 1. rewrite Hload.
      change (ptr_add (Ptr b 0) (zlen (concat seen))) with (Ptr b (zlen (concat seen))).
      erewrite bind_Ok; [|apply write_append; [by apply lookup_insert_eq|lia]].
      rewrite ret_eq. do 2 f_equal. unfold J, block_heap, set_mem. simpl.
      rewrite insert_insert_eq, concat_app. simpl. rewrite app_nil_r, length_app.
      do 3 f_equal. f_equal. lia.
    + split; [done|]. exists rest. by rewrite Hreg, <- app_assoc.
  - split; [by unfold J; simpl; rewrite Nat.sub_0_r|by exists (regions h dd)].
  - destruct Hpost as [-> _]. unfold J in E. simpl in E. rewrite Nat.sub_0_r in E.
    erewrite bind_Ok; [|exact E]. rewrite ret_eq, Hrc. do 3 f_equal.
    unfold zlen in Hz. replace (_ - _)%nat with 0%nat by lia. by rewrite app_nil_r.
Qed.

Lemma flatten_fails h dd o :
  objs h !! dd = Some o → head (malloc_fails h) = Some true →
  ∃ h', _dispatch_data_flatten dd h = Ok (None, h') ∧ restored h h'.
Proof.
  intros Ho Hm. unfold _dispatch_data_flatten, get_obj, malloc, mbind, M_bind. rewrite Ho.
  destruct (malloc_fails h) as [|[] fs] eqn:E; try done.
  eexists. split; [done|]. split; simpl; try done.
  rewrite E. by exists [true].
Qed.

(** ** Creation *)

Definition copies (d : destructor) : bool :=
  match d with DESTRUCTOR_DEFAULT | DESTRUCTOR_INLINE => true | _ => false end.

(** A leaf around the caller's buffer. *)
Lemma data_create_eq h p n d :
  n ≠ 0 → copies d = false →
  dispatch_data_create (Some p) n None d h = Ok (Some (next_loc h), leaf_heap h p n d None).
Proof.
  intros Hn Hd. unfold dispatch_data_create. destruct (n =? 0) eqn:E; [lia|].
  destruct d; try done.
  all: mstep (data_alloc_eq h [] records_fit_0); unfold nonnull.
  all: rewrite (bind_Ok _ _ _ _ _ (ret_eq _ _)).
  all: unfold _dispatch_data_init, get_obj, put_obj, modify, mbind, M_bind; simpl.
  all: rewrite lookup_insert_eq; simpl; unfold leaf_heap, set_objs; simpl.
  all: by rewrite insert_insert_eq.
Qed.

(** A leaf that owns the last block allocated gives it back when released. *)
Lemma owned_free_leaf h fs bs n :
  wf h → fs `suffix_of` malloc_fails h →
  owned h (leaf_heap (block_heap h fs bs) (Ptr (next_block h) 0) n DESTRUCTOR_FREE None) (next_loc h).
Proof.
  intros Hwf Hfs. split.
  { intros _. unfold count_of. simpl. by rewrite lookup_insert_eq, (fresh_loc h Hwf). }
  eexists. split.
  - apply (release_leaf_free 1 _ _ (leaf_object (Ptr (next_block h) 0) n DESTRUCTOR_FREE None)
             (next_block h)); try done; simpl; rewrite lookup_insert_eq; [done|by eexists].
  - split; simpl; try done; try lia.
    + apply delete_insert_id, fresh_loc, Hwf.
    + apply delete_insert_id, fresh_block, Hwf.
Qed.

Lemma load_block m b bs : load (<[b := bs]> m) (Ptr b 0) (zlen bs) = Some bs.
Proof.
  apply load_Some. exists bs. simpl. rewrite lookup_insert_eq. pose proof (zlen_nonneg bs).
  split_and!; [done|lia|lia|lia|]. by rewrite zslice_full.
Qed.

(** The leaf made of the last block allocated. *)
Lemma returns_block_leaf h fs bs :
  wf h → Forall is_byte bs → 0 < zlen bs < 2 ^ 64 →
  let h' := leaf_heap (block_heap h fs bs) (Ptr (next_block h) 0) (zlen bs) DESTRUCTOR_FREE None in
  wf h' ∧ extends h h' ∧ live h' (next_loc h) ∧ data_bytes h' (next_loc h) = bs.
Proof.
  intros Hwf Hbs Hn. pose proof (wf_block_heap h fs bs Hwf Hbs) as Hwf'.
  assert (load (mem (block_heap h fs bs)) (Ptr (next_block h) 0) (zlen bs) = Some bs) as Hload
    by apply load_block.
  split_and!.
  - by eapply wf_leaf.
  - etrans; [by apply (extends_block h fs bs)|by apply extends_leaf].
  - apply (live_leaf (block_heap h fs bs)).
  - by apply (leaf_heap_bytes (block_heap h fs bs)).
Qed.

(** Contiguous maps: when memory is available,
    [dispatch_data_create_map] returns the size of the object, a pointer to
    all of its bytes (NULL for an empty object), and an object with the same
    bytes that keeps the pointer valid and whose release undoes the map. *)
Theorem dispatch_data_create_map_correct h dd :
  wf h → live h dd → headroom h 1 → malloc_succeeds h →
  ∃ l p n h', dispatch_data_create_map dd h = Ok ((Some l, p, n), h') ∧
    wf h' ∧ extends h h' ∧ live h' l ∧ data_bytes h' l = data_bytes h dd ∧ owned h h' l ∧
    n = zlen (data_bytes h dd) ∧
    match p with
    | Some p => load (mem h') p n = Some (data_bytes h dd)
    | None => n = 0
    end.
Proof.
  intros Hwf Hlive Hroom Hm. pose proof Hlive as [o Ho].
  pose proof (data_bytes_zlen _ _ _ Hwf Ho) as Hz.
  unfold dispatch_data_create_map. mget Ho.
  destruct (size o =? 0) eqn:E0.
  { assert (data_bytes h dd = []) as ->.
    { destruct (data_bytes h dd) as [|z zs]; [done|]. rewrite zlen_cons in Hz.
      pose proof (zlen_nonneg zs). lia. }
    exists dispatch_data_empty, None, (size o), h.
    split_and!; try done; try (rewrite ?zlen_nil; lia);
      [by exists empty_object; apply Hwf| |by apply owned_empty].
    unfold data_bytes. by rewrite (wf_empty _ Hwf). }
  pose proof (empty_size _ _ _ Hwf Ho) as Hne.
  destruct (wf_obj _ Hwf _ _ Ho) as [Hok _]; [apply Hne; lia|].
  assert (0 < size o < 2 ^ 64) by (destruct Hok as [Hok|Hok]; apply Hok).
  destruct (map_direct_spec h dd o 0 Hwf Ho)
    as [(p & l' & off' & Em & _ & Hload)|(Em & _)]; [lia|lia| |]; mstep Em.
  - destruct (retain_spec _ _ Hwf Hlive Hroom) as (h' & E & Hwf' & Hext & Hmem & Hown).
    mstep E. exists dd, (Some p), (size o), h'.
    split_and!; try done; [by eapply live_ext|by apply data_bytes_ext|].
    rewrite Hmem, Hload, zslice_full by lia. done.
  - mstep (flatten_eq h dd o Hwf Ho Hm).
    destruct (returns_block_leaf h (tail (malloc_fails h)) (data_bytes h dd) Hwf)
      as (Hwf' & Hext & Hl' & Hb'); [by apply data_bytes_is_byte|lia|]. rewrite Hz in *.
    erewrite bind_Ok; [|apply data_create_eq; [lia|done]].
    eexists _, _, _, _. split; [done|]. split_and!; try done.
    + change (next_loc (block_heap _ _ _)) with (next_loc h).
      apply owned_free_leaf; [done|]. destruct (malloc_fails h) as [|f fs]; [done|by exists [f]].
    + simpl. rewrite <- Hz. apply load_block.
Qed.

(** Map failure: when the flat copy is needed and memory is short,
    [dispatch_data_create_map] returns NULL with size 0 and changes nothing. *)
Theorem dispatch_data_create_map_fails h dd o :
  wf h → objs h !! dd = Some o → (1 < length (records o))%nat → buf o = None →
  head (malloc_fails h) = Some true →
  ∃ h', dispatch_data_create_map dd h = Ok ((None, None, 0), h') ∧ restored h h'.
Proof.
  intros Hwf Ho Hlen Hb Hm.
  assert (size o ≠ 0 ∧ 0 ≤ size o) as [Hs Hs0].
  { destruct (decide (dd = dispatch_data_empty)) as [->|Hne].
    - rewrite (wf_empty _ Hwf) in Ho. injection Ho as <-. simpl in Hlen. lia.
    - destruct (wf_obj _ Hwf _ _ Ho Hne) as [[Hl|Hc] _]; [|destruct Hc; lia].
      rewrite (leaf_records _ _ Hl) in Hlen. simpl in Hlen. lia. }
  destruct (flatten_fails h dd o Ho Hm) as (h' & Ef & Hres). exists h'. split; [|done].
  unfold dispatch_data_create_map. mget Ho.
  destruct (size o =? 0) eqn:E0; [lia|].
  assert (_dispatch_data_map_direct dd 0 h = Ok ((None, dd, 0), h)) as Em.
  { unfold _dispatch_data_map_direct, get_obj, mbind, M_bind. rewrite Ho, E0.
    destruct (records o) as [|r [|r' rs]]; simpl in *; [lia|lia|]. by rewrite Ho, Hb. }
  mstep Em. by mstep Ef.
Qed.

(** ** Regions by location *)

(** What the search of a region returns: the [i]-th region, owned, with the
    offset at which it starts. *)
Definition returns_region (m : D (option loc * Z)) (h : heap) (bytes : list Z) (offset : Z) : Prop :=
  ∃ l h', m h = Ok ((Some l, offset), h') ∧ wf h' ∧ extends h h' ∧ live h' l ∧
          data_bytes h' l = bytes ∧ owned h h' l.

Lemma bump_count_one l m : bump (count [l]) m = bump (one l) m.
Proof. apply bump_ext. intros. simpl. lia. Qed.

(** The whole of an object that maps directly. *)
Lemma region_whole fuel h l o p l' off' location offset :
  wf h → objs h !! l = Some o → headroom h 1 →
  _dispatch_data_map_direct l 0 h = Ok ((Some p, l', off'), h) →
  returns_region (copy_region_fuel (S fuel) l 0 (size o) location offset) h (data_bytes h l) offset.
Proof.
  intros Hwf Ho Hroom Em. assert (live h l) as Hl by (by exists o).
  destruct (retain_spec _ _ Hwf Hl Hroom) as (h' & E & Hwf' & Hext & _ & Hown).
  exists l, h'. split_and!; try done; [|by eapply live_ext|by apply data_bytes_ext].
  cbn [copy_region_fuel]. mget Ho.
  mstep Em. rewrite !Z.eqb_refl. cbn [andb]. by mstep E.
Qed.

(** A part of a leaf. *)
Lemma region_of_leaf fuel h l o from_ n location offset :
  wf h → objs h !! l = Some o → l ≠ dispatch_data_empty → leaf_ok h o → headroom h 1 →
  0 ≤ from_ → 0 < n → from_ + n ≤ size o →
  returns_region (copy_region_fuel (S fuel) l from_ n location offset) h
    (zslice from_ n (leaf_bytes h o)) offset.
Proof.
  intros Hwf Ho Hne Hl Hroom Hf Hn Hle. pose proof (leaf_size _ _ Hl) as Hs.
  assert (∃ p, _dispatch_data_map_direct l from_ h = Ok ((Some p, l, from_), h)) as [p Em].
  { unfold _dispatch_data_map_direct, get_obj, mbind, M_bind. rewrite Ho.
    destruct (size o =? 0) eqn:?; [lia|]. rewrite (leaf_records _ _ Hl). simpl. rewrite Ho.
    destruct (leaf_buf _ _ Hl) as (p & -> & _). by eexists. }
  destruct (decide (from_ = 0 ∧ n = size o)) as [[-> ->]|Hpart].
  { rewrite zslice_full, <- (data_bytes_leaf _ _ _ Ho Hl) by (by rewrite leaf_bytes_zlen).
    by eapply region_whole. }
  destruct (trivial_subrange_spec h l o from_ n Hwf Ho Hne Hl Hf Hn Hle Hroom)
    as (x & h' & E & Hpost). exists x, h'. split; [|done].
  unfold alloc_subrange in E. rewrite alloc_composite_eq in E; try done.
  2:{ apply Forall_singleton. split_and!; simpl; try done. exists o. by split_and!. }
  injection E as <- <-. cbn [copy_region_fuel]. mget Ho. mstep Em.
  replace ((from_ =? 0) && (n =? size o)) with false by lia.
  destruct (wf_retain _ _ _ Hwf Ho Hne Hroom) as [Er _]. mstep Er.
  assert (objs (set_objs (bump (one l)) h) !! l = Some (with_xref o (do_xref_cnt o + one l l))) as Ho1
    by (simpl; by rewrite lookup_bump, Ho).
  mget Ho1. change (size (with_xref _ _)) with (size o).
  replace ((from_ =? 0) && (n =? size o)) with false by lia.
  erewrite bind_Ok; [|by apply data_alloc_eq].
  unfold nonnull. rewrite (bind_Ok _ _ _ _ _ (ret_eq _ _)).
  unfold get_obj, put_obj, modify, mbind, M_bind. simpl. rewrite lookup_insert_eq. simpl.
  unfold composite_heap, set_objs. simpl.
  rewrite insert_insert_eq. by rewrite bump_count_one.
Qed.

Lemma scan_region_spec h rs location offset :
  Forall (rec_ok h) rs → 0 ≤ offset ≤ location → location < offset + sum_lengths rs →
  offset + sum_lengths rs < 2 ^ 64 →
  ∃ pre r rest, rs = pre ++ r :: rest ∧
    scan_region rs 0 location offset = Some (r, from r, length_ r, offset + sum_lengths pre) ∧
    offset + sum_lengths pre ≤ location < offset + sum_lengths pre + length_ r.
Proof.
  intros Hrs. revert offset. induction Hrs as [|r rs Hr Hrs IH]; intros offset Ho Hl Hb;
    simpl in Hl, Hb; [lia|].
  pose proof (rec_ok_from _ _ Hr) as Hfr. destruct Hr as (_ & ? & ? & _).
  pose proof (sum_lengths_nonneg _ _ Hrs). cbn [scan_region].
  destruct (length_ r <=? 0) eqn:E1; [lia|].
  rewrite Z.sub_0_r, (wrapu_small 64 (offset + length_ r)) by lia.
  destruct (offset + length_ r <=? location) eqn:E2.
  - destruct (IH (offset + length_ r)) as (pre & r' & rest & -> & Es & Hin); [lia..|].
    exists (r :: pre), r', rest. simpl. rewrite Es. split_and!; [done| |lia|lia].
    do 2 f_equal. lia.
  - exists [], r, rs. simpl. rewrite Z.add_0_r, Z.add_0_l, wrapu_small by lia.
    split_and!; [done|done|lia|lia].
Qed.

(** Regions: for a location inside the object,
    [dispatch_data_copy_region] returns the region of [dispatch_data_apply]
    that contains it, as an owned object, together with its offset; it never
    reaches its "out of bounds" crash. *)
Theorem dispatch_data_copy_region_correct h dd location :
  wf h → live h dd → headroom h 1 → 0 ≤ location < zlen (data_bytes h dd) →
  ∃ seen r rest, regions h dd = seen ++ r :: rest ∧
    zlen (concat seen) ≤ location < zlen (concat seen) + zlen r ∧
    returns_region (dispatch_data_copy_region dd location) h r (zlen (concat seen)).
Proof.
  intros Hwf [o Ho] Hroom Hloc. rewrite (data_bytes_zlen _ _ _ Hwf Ho) in Hloc.
  assert (∀ r off, returns_region (copy_region_fuel 2 dd 0 (size o) location 0) h r off →
                   returns_region (dispatch_data_copy_region dd location) h r off) as Hstart.
  { intros r off (l & h' & E & Hpost). exists l, h'. split; [|done].
    unfold dispatch_data_copy_region, DATA_DEPTH. mget Ho. by replace (size o <=? location) with false by lia. }
  destruct (map_direct_spec h dd o 0 Hwf Ho)
    as [(p & l' & off' & Em & Hreg & _)|(Em & Hc & _ & Hreg)]; [lia|lia| |].
  - exists [], (data_bytes h dd), []. rewrite (data_bytes_zlen _ _ _ Hwf Ho).
    split_and!; [done|simpl; rewrite zlen_nil; lia..|]. by eapply Hstart, region_whole.
  - destruct (scan_region_spec h (records o) location 0)
      as (pre & r & rest & Hsplit & Es & Hin);
      [apply Hc|lia|rewrite <- (comp_size _ _ Hc); lia|
       rewrite <- (comp_size _ _ Hc); pose proof (comp_bound _ _ Hc); lia|].
    pose proof (comp_recs _ _ Hc) as Hrs. rewrite Hsplit in Hrs.
    pose proof Hrs as [Hpre [Hr _]%Forall_cons]%Forall_app.
    exists (map (rec_bytes h) pre), (rec_bytes h r), (map (rec_bytes h) rest).
    rewrite Z.add_0_l, (sum_zlen_concat h pre) in Hin, Es by done.
    rewrite (rec_bytes_zlen _ _ Hr). split_and!; [by rewrite Hreg, Hsplit, map_app|lia|lia|].
    apply Hstart. pose proof Hr as (Hne & ? & ? & o' & Ho' & Hl' & ?).
    pose proof (zlen_nonneg (concat (map (rec_bytes h) pre))).
    pose proof (comp_bound _ _ Hc).
    destruct (region_of_leaf 0 h (data_object r) o' (from r) (length_ r)
                (location - zlen (concat (map (rec_bytes h) pre)))
                (zlen (concat (map (rec_bytes h) pre))))
      as (x & h' & E & Hpost); [done..|].
    exists x, h'. split; [|unfold rec_bytes; rewrite Ho'; exact Hpost]. rewrite <- E.
    remember 1%nat as fuel1. cbn [copy_region_fuel]. mget Ho. mstep Em. mget Ho. rewrite Es.
    by rewrite wrapu_small by lia.
Qed.

(** ** Flattening in place *)

Section Flattened.
Context (h : heap) (dd : loc) (o : dispatch_data_s) (fs : list bool).
Context (Hwf : wf h) (Ho : objs h !! dd = Some o) (Hc : comp_ok h o)
        (Hlen : (1 < length (records o))%nat) (Hne : dd ≠ dispatch_data_empty).

Local Abbreviation flat := (Ptr (next_block h) 0).
Local Abbreviation h1 := (block_heap h fs (data_bytes h dd)).
Definition flattened_heap : heap := set_objs (<[dd := with_buf o (Some flat)]>) h1.
Local Abbreviation h' := flattened_heap.

Lemma flattened_rec r : rec_ok h r → rec_ok h' r ∧ rec_bytes h' r = rec_bytes h r.
Proof using Hwf Ho Hc.
  intros Hr. pose proof (extends_block h fs (data_bytes h dd) Hwf) as Hext.
  pose proof (rec_ok_ext _ _ Hext _ Hr) as (Hrne & ? & ? & o' & Ho' & Hl' & ?).
  assert (objs h' !! data_object r = Some o') as Ho2.
  { simpl in *. rewrite lookup_insert_ne; [done|]. intros E.
    rewrite <- E, Ho in Ho'. injection Ho' as <-. by destruct (comp_records _ _ Hc), Hl'. }
  split.
  - split_and!; [done..|]. exists o'. split_and!; [done| |done]. by destruct Hl'.
  - rewrite <- (rec_bytes_ext h h1) by done. unfold rec_bytes. by rewrite Ho2, Ho'.
Qed.

Lemma flattened_recs rs :
  Forall (rec_ok h) rs → Forall (rec_ok h') rs ∧ map (rec_bytes h') rs = map (rec_bytes h) rs.
Proof using Hwf Ho Hc.
  induction 1 as [|r rs Hr _ [IH1 IH2]]; [done|]. destruct (flattened_rec r Hr) as [? Eb].
  split; [by constructor|]. simpl. by rewrite Eb, IH2.
Qed.

Lemma flattened_comp oc p :
  comp_ok h oc → (p = buf oc ∨ (p = Some flat ∧ oc = o)) →
  comp_ok h' (with_buf oc p) ∧ obj_bytes h' (with_buf oc p) = obj_bytes h oc.
Proof using Hwf Ho Hc Hlen.
  intros Hoc Hp. destruct (flattened_recs _ (comp_recs _ _ Hoc)) as [Hr Hb].
  pose proof (comp_records _ _ Hoc) as Hrne.
  assert (obj_bytes h' (with_buf oc p) = obj_bytes h oc) as Hbytes
    by (rewrite !obj_bytes_comp by done; simpl; by rewrite Hb).
  split; [|done]. destruct Hoc as [? ? Hsz ? ? ? Hbuf]. split; simpl; try done.
  intros q ->. destruct Hp as [Hp|[Hp ->]].
  - destruct (Hbuf q (eq_sym Hp)) as [? Hload]. split; [done|]. rewrite Hbytes.
    apply (load_mono (mem h)); [|done]. apply (extends_block h fs (data_bytes h dd) Hwf).
  - injection Hp as ->. split; [done|]. rewrite Hbytes.
    replace (obj_bytes h o) with (data_bytes h dd) by (unfold data_bytes; by rewrite Ho).
    rewrite <- (data_bytes_zlen _ _ _ Hwf Ho). apply load_block.
Qed.

Lemma flattened_obj l ol :
  objs h !! l = Some ol → l ≠ dispatch_data_empty →
  ∃ ol', objs h' !! l = Some ol' ∧ obj_ok h' ol' ∧ counts_ok ol' ∧
         obj_bytes h' ol' = obj_bytes h ol.
Proof using Hwf Ho Hc Hlen.
  intros Hl Hlne. destruct (wf_obj _ Hwf _ _ Hl Hlne) as [Hok Hcnt]. simpl.
  rewrite lookup_insert. case_decide as E; [subst l|].
  - rewrite Ho in Hl. injection Hl as <-. eexists. split; [done|].
    destruct (flattened_comp o (Some flat) Hc) as [? ?]; [by right|]. by split_and!; [right| |].
  - exists ol. split; [done|]. destruct Hok as [Hleaf|Hcomp].
    + pose proof (extends_block h fs (data_bytes h dd) Hwf) as Hext.
      assert (same_payload ol ol) as Hsp by done.
      pose proof (leaf_ok_ext _ _ Hext _ _ Hleaf Hsp) as Hl1.
      pose proof (leaf_bytes_ext _ _ Hext _ _ Hleaf Hsp) as Hb1.
      split_and!; [left; by destruct Hl1|done|].
      unfold obj_bytes, _dispatch_data_leaf. by rewrite (leaf_records _ _ Hleaf).
    + destruct (flattened_comp ol (buf ol) Hcomp) as [Hk Hb]; [by left|].
      replace (with_buf ol (buf ol)) with ol in * by (by destruct ol).
      by split_and!; [right| |].
Qed.

Lemma flattened_bytes l : live h l → data_bytes h' l = data_bytes h l.
Proof using Hwf Ho Hc Hlen Hne.
  intros [ol Hl]. destruct (decide (l = dispatch_data_empty)) as [->|Hlne].
  - unfold data_bytes. simpl. rewrite lookup_insert_ne by done. by rewrite (wf_empty _ Hwf).
  - destruct (flattened_obj l ol Hl Hlne) as (ol' & Hl' & _ & _ & Hb).
    unfold data_bytes. by rewrite Hl, Hl'.
Qed.

Lemma wf_flattened : wf h'.
Proof using Hwf Ho Hc Hlen Hne.
  pose proof (wf_block_heap h fs _ Hwf (data_bytes_is_byte h dd Hwf)) as Hwf1.
  split; try apply Hwf1.
  - simpl. rewrite lookup_insert_ne by done. apply Hwf.
  - intros l ol' Hl' Hlne.
    assert (is_Some (objs h !! l)) as [ol Hl].
    { simpl in Hl'. rewrite lookup_insert in Hl'. case_decide; subst; by eexists. }
    destruct (flattened_obj l ol Hl Hlne) as (ol2 & Hl2 & ? & ? & _). by simplify_eq.
  - intros l ol Hl. simpl in *. rewrite lookup_insert in Hl.
    case_decide; subst; [by apply (wf_loc _ Hwf) in Ho|by apply (wf_loc _ Hwf) in Hl].
Qed.
End Flattened.

(** Flattening: when memory is available,
    [_dispatch_data_get_flattened_bytes] of a non-empty object returns a
    pointer to all of its bytes, keeps the heap well-formed and the bytes of
    every object, and a second call returns the same pointer without touching
    the heap (the flat copy is made once). *)
Theorem dispatch_data_get_flattened_bytes_correct h dd :
  wf h → live h dd → data_bytes h dd ≠ [] → malloc_succeeds h →
  ∃ p h', _dispatch_data_get_flattened_bytes dd h = Ok (Some p, h') ∧ wf h' ∧
    load (mem h') p (zlen (data_bytes h dd)) = Some (data_bytes h dd) ∧
    (∀ l, live h l → live h' l ∧ data_bytes h' l = data_bytes h l) ∧
    _dispatch_data_get_flattened_bytes dd h' = Ok (Some p, h').
Proof.
  intros Hwf [o Ho] Hnil Hm. pose proof (data_bytes_zlen _ _ _ Hwf Ho) as Hz.
  assert (0 < size o) as Hs.
  { destruct (data_bytes h dd) as [|z zs]; [done|]. rewrite zlen_cons in Hz.
    pose proof (zlen_nonneg zs). lia. }
  assert (dd ≠ dispatch_data_empty) as Hne by (eapply empty_size; [done..|lia]).
  assert (∀ p l' off', _dispatch_data_map_direct dd 0 h = Ok ((Some p, l', off'), h) →
          _dispatch_data_get_flattened_bytes dd h = Ok (Some p, h)) as Hdirect.
  { intros p l' off' Em. unfold _dispatch_data_get_flattened_bytes. mget Ho.
    destruct (size o =? 0) eqn:?; [lia|]. by mstep Em. }
  destruct (map_direct_spec h dd o 0 Hwf Ho)
    as [(p & l' & off' & Em & _ & Hload)|(Em & Hc & Hb & _)]; [lia|lia| |].
  - exists p, h. split_and!; try done; [by eapply Hdirect| |by eapply Hdirect].
    by rewrite Hload, zslice_full by lia.
  - assert (1 < length (records o))%nat as Hlen.
    { unfold _dispatch_data_map_direct in Em. revert Em. mget Ho.
      destruct (records o) as [|r [|r' rs]] eqn:Er; simpl; try lia.
      - by destruct (comp_records _ _ Hc).
      - pose proof (comp_recs _ _ Hc) as Hrs. rewrite Er in Hrs.
        apply Forall_singleton in Hrs as (_ & _ & _ & o' & Ho' & Hl' & _).
        destruct (leaf_buf _ _ Hl') as (p & Hp & _). destruct (size o =? 0) eqn:?; [lia|].
        unfold get_obj, mbind, M_bind, mret, M_ret, assert_M. simpl. rewrite Ho', Hp. done. }
    set (fs := tail (malloc_fails h)).
    exists (Ptr (next_block h) 0), (flattened_heap h dd o fs). split_and!.
    + unfold _dispatch_data_get_flattened_bytes. mget Ho.
      destruct (size o =? 0) eqn:?; [lia|]. mstep Em. mstep (flatten_eq h dd o Hwf Ho Hm).
      assert (objs (block_heap h fs (data_bytes h dd)) !! dd = Some o) as Ho1 by done.
      mget Ho1. by rewrite Hb.
    + by apply wf_flattened.
    + apply load_block.
    + intros l Hl. split; [|by apply flattened_bytes]. unfold live. simpl.
      rewrite lookup_insert. case_decide; [by eexists|done].
    + assert (objs (flattened_heap h dd o fs) !! dd =
              Some (with_buf o (Some (Ptr (next_block h) 0)))) as Ho'
        by (simpl; by rewrite lookup_insert_eq).
      unfold _dispatch_data_get_flattened_bytes. mget Ho'.
      cbn [size with_buf]. destruct (size o =? 0) eqn:E0; [lia|].
      assert (_dispatch_data_map_direct dd 0 (flattened_heap h dd o fs) =
              Ok ((Some (Ptr (next_block h) 0), dd, 0), flattened_heap h dd o fs)) as Em'.
      { unfold _dispatch_data_map_direct. mget Ho'. cbn [size with_buf records]. rewrite E0.
        destruct (records o) as [|r [|r' rs]]; [simpl in Hlen; lia..|].
        cbn [negb assert_M]. rewrite !(bind_Ok _ _ _ _ _ (ret_eq _ _)). by mget Ho'. }
      by mstep Em'.
Qed.

(** ** Creation from a buffer *)

Lemma create_default_eq h p n bs :
  malloc_succeeds h → 0 < n → load (mem h) p n = Some bs →
  dispatch_data_create (Some p) n None DESTRUCTOR_DEFAULT h =
  Ok (Some (next_loc h), leaf_heap (block_heap h (tail (malloc_fails h)) bs)
                           (Ptr (next_block h) 0) n DESTRUCTOR_FREE None).
Proof.
  intros Hm Hn Hload. pose proof (load_zlen _ _ _ _ Hload) as Hz. unfold zlen in Hz.
  unfold dispatch_data_create. destruct (n =? 0) eqn:?; [lia|].
  assert (read_bytes p n h = Ok (bs, h)) as Er by (unfold read_bytes; by rewrite Hload).
  mstep Er. mstep (malloc_eq h n Hm).
  erewrite bind_Ok; [|apply (write_append _ _ [] (Z.to_nat n)); [simpl; by apply lookup_insert_eq|lia]].
  erewrite bind_Ok; [|apply data_alloc_eq, records_fit_0]. unfold nonnull.
  rewrite (bind_Ok _ _ _ _ _ (ret_eq _ _)).
  unfold _dispatch_data_init, get_obj, put_obj, modify, mbind, M_bind. simpl.
  rewrite lookup_insert_eq. simpl. unfold leaf_heap, block_heap, set_objs, fresh_object_heap. simpl.
  rewrite !insert_insert_eq. replace (Z.to_nat n - length bs)%nat with 0%nat by lia.
  by rewrite app_nil_r.
Qed.

Lemma create_inline_eq h p n bs :
  0 < n → n + SIZEOF_DISPATCH_DATA_S ≤ SIZE_T_MAX → load (mem h) p n = Some bs →
  dispatch_data_create (Some p) n None DESTRUCTOR_INLINE h =
  Ok (Some (next_loc h), leaf_heap (block_heap h (malloc_fails h) bs) (Ptr (next_block h) 0) n
                           DESTRUCTOR_NONE (Some (next_block h))).
Proof.
  intros Hn Hfit Hload. pose proof (load_zlen _ _ _ _ Hload) as Hz. unfold zlen in Hz.
  unfold SIZEOF_DISPATCH_DATA_S in Hfit.
  unfold dispatch_data_create. destruct (n =? 0) eqn:?; [lia|].
  assert (read_bytes p n h = Ok (bs, h)) as Er by (unfold read_bytes; by rewrite Hload).
  mstep Er. unfold _dispatch_data_alloc, SIZEOF_DISPATCH_DATA_S, SIZEOF_RANGE_RECORD.
  unfold mbind at 1, M_bind at 1. cbv zeta. rewrite Hz, Z.add_comm.
  destruct (n + 80 >? SIZE_T_MAX) eqn:E; [rewrite Z.gtb_lt in E; lia|].
  change (Z.of_nat (length []) * 24 + (n + 80)) with (n + 80). rewrite E.
  destruct bs as [|z zs]; [simpl in Hz; lia|].
  unfold nonnull, _dispatch_data_init, get_obj, put_obj, modify, mbind, M_bind. simpl.
  rewrite lookup_insert_eq. simpl. rewrite lookup_insert_eq. simpl.
  unfold leaf_heap, block_heap, set_objs. simpl. by rewrite insert_insert_eq.
Qed.

(** What a destructor leaves of the memory, and what it signals. *)
Definition memory_after (p : ptr) (d : destructor) (m : gmap block (list Z)) :=
  match d with DESTRUCTOR_FREE => delete (p_block p) m | _ => m end.
Definition events_of (p : ptr) (n : Z) (d : destructor) : list event :=
  match d with
  | DESTRUCTOR_VM_DEALLOCATE => [EvVmDeallocate (Some p) n]
  | DESTRUCTOR_BLOCK _ | DESTRUCTOR_FUNCTION _ _ => [EvAsync None d]
  | _ => []
  end.

(** What the release of a leaf does with the client's buffer. *)
Lemma destroy_buffer_eq h p n d bs :
  load (mem h) p n = Some bs → copies d = false → (d = DESTRUCTOR_FREE → p_off p = 0) →
  ∃ h1, _dispatch_data_destroy_buffer (Some p) n None d (leaf_heap h p n d None) = Ok (tt, h1) ∧
    objs h1 = objs (leaf_heap h p n d None) ∧ mem h1 = memory_after p d (mem h) ∧
    events h1 = events h ++ events_of p n d.
Proof.
  intros Hload Hd Hoff.
  destruct (_dispatch_data_destroy_buffer (Some p) n None d (leaf_heap h p n d None))
    as [[[] h1]|] eqn:Ed.
  - exists h1. split; [done|].
    destruct d; try done; simpl in Ed; try (injection Ed as <-; simpl; by rewrite ?app_nil_r).
    rewrite Hoff in Ed by done. simpl in Ed. unfold free_block in Ed.
    destruct (mem _ !! _); [|done]. injection Ed as <-. simpl. by rewrite app_nil_r.
  - destruct d; try done. simpl in Ed. rewrite Hoff in Ed by done. simpl in Ed.
    unfold free_block in Ed. simpl in Ed. apply load_Some in Hload as (blk & Hb & _).
    by rewrite Hb in Ed.
Qed.

(** Creation: for every destructor, [dispatch_data_create] of a non-empty
    buffer returns an object with the buffer's bytes.  Its release removes the
    object and disposes of the buffer as the destructor says, exactly once:
    copies (default, inline) leave no trace, FREE frees the block, the others
    leave the memory and signal the client's destructor. *)
Theorem dispatch_data_create_correct h p n d bs :
  wf h → load (mem h) p n = Some bs → 0 < n → n + SIZEOF_DISPATCH_DATA_S ≤ SIZE_T_MAX →
  (d = DESTRUCTOR_DEFAULT → malloc_succeeds h) → (d = DESTRUCTOR_FREE → p_off p = 0) →
  ∃ l h' h'', dispatch_data_create (Some p) n None d h = Ok (Some l, h') ∧
    wf h' ∧ extends h h' ∧ live h' l ∧ data_bytes h' l = bs ∧
    dispatch_release l h' = Ok (tt, h'') ∧ objs h'' = objs h ∧
    mem h'' = memory_after p d (mem h) ∧ events h'' = events h ++ events_of p n d.
Proof.
  intros Hwf Hload Hn Hfit Hm Hoff. pose proof (load_zlen _ _ _ _ Hload) as Hz.
  pose proof (load_is_byte _ _ _ _ Hwf Hload) as Hbs. unfold SIZEOF_DISPATCH_DATA_S in Hfit.
  destruct (copies d) eqn:Hd.
  - destruct d; try done.
    + pose proof (returns_block_leaf h (tail (malloc_fails h)) bs Hwf Hbs) as Hret.
      rewrite Hz in Hret. destruct Hret as (? & ? & ? & ?); [lia|].
      destruct (owned_free_leaf h (tail (malloc_fails h)) bs n Hwf) as [_ (h'' & Er & Hres)].
      { destruct (malloc_fails h) as [|f fs]; [done|by exists [f]]. }
      eexists _, _, h''. split; [by apply create_default_eq; auto|].
      split_and!; try done; try apply Hres. rewrite app_nil_r. apply Hres.
    + set (h1 := block_heap h (malloc_fails h) bs).
      assert (load (mem h1) (Ptr (next_block h) 0) n = Some bs) as Hload1
        by (rewrite <- Hz; apply load_block).
      pose proof (wf_block_heap h (malloc_fails h) bs Hwf Hbs) as Hwf1.
      eexists _, _, _. split; [by apply create_inline_eq|]. fold h1. split_and!.
      * eapply wf_leaf; [done|lia|done].
      * etrans; [by apply extends_block|by apply extends_leaf].
      * apply (live_leaf h1).
      * by apply (leaf_heap_bytes h1).
      * eapply (release_leaf 1 _ _ (leaf_object (Ptr (next_block h) 0) n DESTRUCTOR_NONE
                  (Some (next_block h)))); try done; simpl.
        { by rewrite lookup_insert_eq. }
        intros b [= <-]. simpl. rewrite lookup_insert_eq. by eexists.
      * simpl. by apply delete_insert_id, fresh_loc.
      * simpl. by apply delete_insert_id, fresh_block.
      * simpl. by rewrite app_nil_r.
  - destruct (destroy_buffer_eq _ _ _ _ _ Hload Hd Hoff) as (h1 & Ed & Hobjs & Hmem & Hev).
    eexists _, _, _. split; [apply data_create_eq; [lia|done]|].
    split_and!; [|by apply extends_leaf|apply (live_leaf h)|by apply (leaf_heap_bytes h)|..].
    + eapply wf_leaf; [done|lia|done].
    + eapply (release_leaf 1 _ _ (leaf_object p n d None)); try done. simpl. by rewrite lookup_insert_eq.
    + simpl. rewrite Hobjs. simpl. by apply delete_insert_id, fresh_loc.
    + done.
    + done.
Qed.
