(* ===== verification/DispatchDataWitness.v ===== *)
(** * Dispatch data objects: a concrete heap

    Two objects of every kind on one heap: a leaf of three bytes, and a
    composite of two records into it, with the theorems applied to them. *)

From S2P Require Import Prelude DispatchData DispatchDataInv DispatchDataSpec.
From S2P Require Import DispatchDataMap.
Import Data.

Lemma wf_initial faults : wf (initial_heap faults).
Proof.
  split; simpl; try done; intros l o (<- & <-)%lookup_singleton_Some; [done|].
  unfold dispatch_data_empty. lia.
Qed.

Definition leaf : loc := 2%positive.
Definition pair : loc := 3%positive.
Definition buffer_heap (faults : list bool) : heap := block_heap (initial_heap []) faults [1; 2; 3].
Definition leaf_only (faults : list bool) : heap :=
  leaf_heap (buffer_heap faults) (Ptr 1 0) 3 DESTRUCTOR_FREE None.
Definition pair_records : list range_record := [RR leaf 0 3; RR leaf 1 2].
Definition demo (faults : list bool) : heap := composite_heap (leaf_only faults) pair_records 5.

Definition headroom_check (h : heap) (n : Z) : bool :=
  forallb (λ lo, bool_decide (lo.1 = dispatch_data_empty) || (do_xref_cnt lo.2 + n <? INT_MAX))
    (map_to_list (objs h)).

Lemma headroom_checked h n : headroom_check h n = true → headroom h n.
Proof.
  unfold headroom_check. rewrite forallb_forall. intros H l o Ho Hne.
  specialize (H (l, o)). rewrite <- list_elem_of_In, elem_of_map_to_list in H.
  specialize (H Ho). simpl in H. rewrite bool_decide_false in H by done. simpl in H. lia.
Qed.

Lemma wf_buffer_heap faults : wf (buffer_heap faults).
Proof.
  apply wf_block_heap; [apply wf_initial|]. unfold is_byte. repeat constructor; lia.
Qed.

Lemma wf_leaf_only faults : wf (leaf_only faults).
Proof.
  apply (returns_block_leaf (initial_heap []) faults [1; 2; 3]); [apply wf_initial| |done].
  unfold is_byte. repeat constructor; lia.
Qed.

Lemma wf_demo faults : wf (demo faults).
Proof.
  assert (leaf_ok (leaf_only faults) (leaf_object (Ptr 1 0) 3 DESTRUCTOR_FREE None)) as Hl.
  { by eapply leaf_object_ok. }
  apply wf_composite; try done; [apply wf_leaf_only| |by apply headroom_checked].
  repeat constructor; simpl; try done; eexists; split_and!; try done; simpl; lia.
Qed.

Lemma live_leaf_demo faults : live (demo faults) leaf.
Proof. by eexists. Qed.
Lemma live_pair_demo faults : live (demo faults) pair.
Proof. by eexists. Qed.

#[local] Hint Resolve wf_demo live_leaf_demo live_pair_demo wf_buffer_heap : core.

Lemma dispatch_data_create_concat_witness :
  ∃ l h', dispatch_data_create_concat pair leaf (demo []) = Ok (Some l, h') ∧
          data_bytes h' l = [1; 2; 3; 2; 3; 1; 2; 3].
Proof.
  destruct (dispatch_data_create_concat_correct (demo []) pair leaf)
    as (l & h' & E & _ & _ & _ & Hb & _); [auto..|done|done|by apply headroom_checked|].
  exists l, h'. split; [exact E|exact Hb].
Defined.

Lemma dispatch_data_create_subrange_witness :
  ∃ l h', dispatch_data_create_subrange pair 2 2 (demo []) = Ok (Some l, h') ∧
          data_bytes h' l = [3; 2].
Proof.
  destruct (dispatch_data_create_subrange_correct (demo []) pair 2 2)
    as (l & h' & E & _ & _ & _ & Hb & _); [auto..|done|done|by apply headroom_checked|].
  exists l, h'. split; [exact E|exact Hb].
Defined.

Lemma dispatch_data_apply_witness :
  dispatch_data_apply (collect_until (λ _ _, false)) pair [] (demo []) =
  Ok ((true, [(0, [1; 2; 3]); (3, [2; 3])]), demo []).
Proof.
  destruct (dispatch_data_apply_correct (demo []) pair (λ _ _, false)) as [H _]; [auto..|].
  rewrite H. vm_compute. reflexivity.
Defined.

Lemma dispatch_data_create_map_witness :
  ∃ l p h', dispatch_data_create_map pair (demo [false]) = Ok ((Some l, Some p, 5), h') ∧
            load (mem h') p 5 = Some [1; 2; 3; 2; 3].
Proof.
  destruct (dispatch_data_create_map_correct (demo [false]) pair)
    as (l & [p|] & n & h' & E & _ & _ & _ & _ & _ & -> & Hp);
    [auto..|by apply headroom_checked|done| |by vm_compute in Hp].
  exists l, p, h'. split; [exact E|exact Hp].
Defined.

Lemma dispatch_data_create_map_fails_witness :
  ∃ h', dispatch_data_create_map pair (demo [true]) = Ok ((None, None, 0), h') ∧
        restored (demo [true]) h'.
Proof. by apply (dispatch_data_create_map_fails (demo [true]) pair (composite pair_records 5)); auto. Defined.

Lemma dispatch_data_copy_region_witness :
  ∃ seen r rest, regions (demo []) pair = seen ++ r :: rest ∧
    zlen (concat seen) ≤ 3 < zlen (concat seen) + zlen r ∧
    returns_region (dispatch_data_copy_region pair 3) (demo []) r (zlen (concat seen)).
Proof.
  apply (dispatch_data_copy_region_correct (demo []) pair 3); [auto..|by apply headroom_checked|].
  vm_compute. split; [discriminate|reflexivity].
Defined.

Lemma dispatch_data_get_flattened_bytes_witness :
  ∃ p h', _dispatch_data_get_flattened_bytes pair (demo []) = Ok (Some p, h') ∧
          load (mem h') p 5 = Some [1; 2; 3; 2; 3].
Proof.
  destruct (dispatch_data_get_flattened_bytes_correct (demo []) pair)
    as (p & h' & E & _ & Hload & _); [auto..|done|done|].
  exists p, h'. split; [exact E|exact Hload].
Defined.

Lemma dispatch_data_create_witness :
  ∃ l h' h'', dispatch_data_create (Some (Ptr 1 0)) 3 None DESTRUCTOR_FREE (buffer_heap []) =
                Ok (Some l, h') ∧ data_bytes h' l = [1; 2; 3] ∧
              dispatch_release l h' = Ok (tt, h'') ∧ mem h'' !! 1%positive = None.
Proof.
  destruct (dispatch_data_create_correct (buffer_heap []) (Ptr 1 0) 3 DESTRUCTOR_FREE [1; 2; 3])
    as (l & h' & h'' & E & _ & _ & _ & Hb & Er & _ & Hm & _); [auto|done..|].
  exists l, h', h''. split_and!; [exact E|exact Hb|exact Er|]. by rewrite Hm.
Defined.
