(* ===== verification/DispatchTransform.v ===== *)
(** * Data transforms: definitions

    Model of src/libdispatch-913.60.2/src/transform.c on a little-endian host:
    the base32, base32hex, base64, UTF-8 and UTF-16 transforms, written as the
    callbacks they give to [dispatch_data_apply], and the format table of
    [dispatch_data_create_with_transform].  The [__block] variables of a
    callback are its state; a callback reads its region's bytes once, since no
    store of its loop can alias them. *)

From S2P Require Import Prelude DispatchData.

Module Transform.
Import Data.

Definition _DISPATCH_DATA_FORMAT_NONE : Z := 0x1.
Definition _DISPATCH_DATA_FORMAT_UTF8 : Z := 0x2.
Definition _DISPATCH_DATA_FORMAT_UTF16LE : Z := 0x4.
Definition _DISPATCH_DATA_FORMAT_UTF16BE : Z := 0x8.
Definition _DISPATCH_DATA_FORMAT_UTF_ANY : Z := 0x10.
Definition _DISPATCH_DATA_FORMAT_BASE32 : Z := 0x20.
Definition _DISPATCH_DATA_FORMAT_BASE32HEX : Z := 0x40.
Definition _DISPATCH_DATA_FORMAT_BASE64 : Z := 0x80.

(** ** Tables *)

(** A C string literal: its characters and the terminating NUL. *)
Fixpoint cstring (s : string) : list Z :=
  match s with
  | EmptyString => [0]
  | String c s => Z.of_N (Ascii.N_of_ascii c) :: cstring s
  end.

Definition base32_encode_table : list Z := cstring "ABCDEFGHIJKLMNOPQRSTUVWXYZ234567".

Definition base32_decode_table : list Z := [
  -1; -1; -1; -1; -1; -1; -1; -1; -1; -1; -1; -1; -1; -1; -1; -1; -1;
  -1; -1; -1; -1; -1; -1; -1; -1; -1; -1; -1; -1; -1; -1; -1; -1; -1;
  -1; -1; -1; -1; -1; -1; -1; -1; -1; -1; -1; -1; -1; -1; -1; -1; 26;
  27; 28; 29; 30; 31; -1; -1; -1; -1; -1; -2; -1; -1; -1;  0;  1;  2;
   3;  4;  5;  6;  7;  8;  9; 10; 11; 12; 13; 14; 15; 16; 17; 18; 19;
  20; 21; 22; 23; 24; 25 ].
Definition base32_decode_table_size : Z := zlen base32_decode_table.

Definition base32hex_encode_table : list Z := cstring "0123456789ABCDEFGHIJKLMNOPQRSTUV".

Definition base32hex_decode_table : list Z := [
  -1; -1; -1; -1; -1; -1; -1; -1; -1; -1; -1; -1; -1; -1; -1; -1; -1;
  -1; -1; -1; -1; -1; -1; -1; -1; -1; -1; -1; -1; -1; -1; -1; -1; -1;
  -1; -1; -1; -1; -1; -1; -1; -1; -1; -1; -1; -1; -1; -1;  0;  1;  2;
   3;  4;  5;  6;  7;  8;  9; -1; -1; -1; -2; -1; -1; -1; 10; 11; 12;
  13; 14; 15; 16; 17; 18; 19; 20; 21; 22; 23; 24; 25; 26; 27; 28; 29;
  30; 31 ].
(** As written: the size of the *encode* table. *)
Definition base32hex_decode_table_size : Z := zlen base32hex_encode_table.

Definition base64_encode_table : list Z :=
  cstring "ABCDEFGHIJKLMNOPQRSTUVWXYZabcdefghijklmnopqrstuvwxyz0123456789+/".

Definition base64_decode_table : list Z := [
  -1;  -1;  -1;  -1;  -1;  -1;  -1;  -1;  -1;  -1;  -1;  -1;  -1;  -1;
  -1;  -1;  -1;  -1;  -1;  -1;  -1;  -1;  -1;  -1;  -1;  -1;  -1;  -1;
  -1;  -1;  -1;  -1;  -1;  -1;  -1;  -1;  -1;  -1;  -1;  -1;  -1;  -1;
  -1;  62;  -1;  -1;  -1;  63;  52;  53;  54;  55;  56;  57;  58;  59;
  60;  61;  -1;  -1;  -1;  -2;  -1;  -1;  -1;   0;   1;   2;   3;   4;
   5;   6;   7;   8;   9;  10;  11;  12;  13;  14;  15;  16;  17;  18;
  19;  20;  21;  22;  23;  24;  25;  -1;  -1;  -1;  -1;  -1;  -1;  26;
  27;  28;  29;  30;  31;  32;  33;  34;  35;  36;  37;  38;  39;  40;
  41;  42;  43;  44;  45;  46;  47;  48;  49;  50;  51 ].
Definition base64_decode_table_size : Z := zlen base64_decode_table.

Definition tbl (table : list Z) (i : Z) : Z := nth (Z.to_nat i) table 0.

(** ** The output buffer of the UTF transforms *)

(** [ptr.u8] is kept as its distance [tb_used] from [start]. *)
Record dispatch_transform_buffer_s := TB {
  tb_data : loc;
  tb_start : option ptr;
  tb_used : Z;
  tb_size : Z;
}.

Definition BUFFER_MALLOC_MAX : Z := 100 * 1024 * 1024.

(** Append a buffer of [n] bytes to [data], giving up both references. *)
Definition append_buffer (data : loc) (start : ptr) (n : Z) : D loc :=
  new_ ← dispatch_data_create (Some start) n None DESTRUCTOR_FREE;
  new_ ← nonnull new_;
  concat_ ← dispatch_data_create_concat data new_;
  concat_ ← nonnull concat_;
  dispatch_release new_ ≫= λ _,
  dispatch_release data ≫= λ _,
  mret concat_.

Definition _dispatch_transform_buffer_new (b : dispatch_transform_buffer_s) (required n : Z)
    : D (bool * dispatch_transform_buffer_s) :=
  let remaining := u64 (tb_size b - tb_used b) in
  if (required =? 0) || (remaining <? required) then
    data ← (match tb_start b with
            | Some start =>
                if 0 <? tb_used b then append_buffer (tb_data b) start (tb_used b)
                else free (Some start) ≫= λ _, mret (tb_data b)
            | None => mret (tb_data b)
            end);
    let size_ := u64 (required + n) in
    if 0 <? size_ then
      if BUFFER_MALLOC_MAX <? size_ then mret (false, TB data None 0 size_)
      else
        start ← malloc size_;
        match start with
        | None => mret (false, TB data None 0 size_)
        | Some start => mret (true, TB data (Some start) 0 size_)
        end
    else mret (true, TB data None 0 size_)
  else mret (true, b).

(** [*(buffer.ptr.u8)++ = v] *)
Definition store8 (b : dispatch_transform_buffer_s) (v : Z) : D dispatch_transform_buffer_s :=
  start ← nonnull (tb_start b);
  write_bytes (ptr_add start (tb_used b)) [u8 v] ≫= λ _,
  mret (TB (tb_data b) (Some start) (tb_used b + 1) (tb_size b)).

(** [*(buffer.ptr.u16)++ = v] on a little-endian host *)
Definition store16 (b : dispatch_transform_buffer_s) (v : Z) : D dispatch_transform_buffer_s :=
  start ← nonnull (tb_start b);
  write_bytes (ptr_add start (tb_used b)) [u8 v; u8 (Z.shiftr v 8)] ≫= λ _,
  mret (TB (tb_data b) (Some start) (tb_used b + 2) (tb_size b)).

Fixpoint stores8 (b : dispatch_transform_buffer_s) (vs : list Z) : D dispatch_transform_buffer_s :=
  match vs with
  | [] => mret b
  | v :: vs => b ← store8 b v; stores8 b vs
  end.

(** ** Helpers *)

(** The mapped object with its pointer. *)
Definition _dispatch_data_subrange_map (data : loc) (offset n : Z) : D (option (loc * option ptr)) :=
  subrange ← dispatch_data_create_subrange data offset n;
  subrange ← nonnull subrange;
  sz ← dispatch_data_get_size subrange;
  map_ ← (if sz =? n then
            '(m, p, _) ← dispatch_data_create_map subrange;
            mret (match m with Some m => Some (m, p) | None => None end)
          else mret None);
  dispatch_release subrange ≫= λ _,
  mret map_.

Definition OSLittleEndian : Z := 1.
Definition OSBigEndian : Z := 2.

Definition swap16 (x : Z) : Z := u16 (Z.lor (Z.shiftl x 8) (Z.shiftr x 8)).

Definition _dispatch_transform_swap_to_host (x byteOrder : Z) : Z :=
  if byteOrder =? OSLittleEndian then x else swap16 x.

Definition _dispatch_transform_swap_from_host (x byteOrder : Z) : Z :=
  if byteOrder =? OSLittleEndian then x else swap16 x.

(** [*(const uint8_t * )p], [*(const uint16_t * )p] and the low half of
    [*(uint64_t * )p] *)
Definition load8 (p : ptr) : D Z :=
  bs ← read_bytes p 1; mret (nth 0 bs 0).
Definition load16 (p : ptr) : D Z :=
  bs ← read_bytes p 2; mret (nth 0 bs 0 + 256 * nth 1 bs 0).
Definition load64_low16 (p : ptr) : D Z :=
  bs ← read_bytes p 8; mret (nth 0 bs 0 + 256 * nth 1 bs 0).

(** ** UTF-8 *)

Definition _dispatch_transform_utf8_length (byte : Z) : Z :=
  if Z.land byte 0x80 =? 0 then 1
  else if Z.land byte 0xe0 =? 0xc0 then 2
  else if Z.land byte 0xf0 =? 0xe0 then 3
  else if Z.land byte 0xf8 =? 0xf0 then 4
  else 0.

Fixpoint read_continuation (n : nat) (p : ptr) (wch : Z) : D Z :=
  match n with
  | O => mret wch
  | S n =>
      b ← load8 p;
      let wch := Z.lor wch (Z.land b 0x3f) in
      read_continuation n (ptr_add p 1)
        (match n with O => wch | _ => u32 (Z.shiftl wch 6) end)
  end.

Definition _dispatch_transform_read_utf8_sequence (p : ptr) : D Z :=
  b ← load8 p;
  let seq_length := _dispatch_transform_utf8_length b in
  let wch :=
    if seq_length =? 4 then u32 (Z.shiftl (Z.land b 0x7) 6)
    else if seq_length =? 3 then u32 (Z.shiftl (Z.land b 0xf) 6)
    else if seq_length =? 2 then u32 (Z.shiftl (Z.land b 0x1f) 6)
    else if seq_length =? 1 then Z.land b 0x7f
    else 0 in
  read_continuation (Z.to_nat (u8 (seq_length - 1))) (ptr_add p 1) wch.

(** ** UTF-16 *)

(** The code point at [src], the next [src] and [i], and the new [skip];
    [None] when the callback gives up. *)
Definition to_utf16_next (data : loc) (offset : Z) (src : ptr) (i n skip : Z)
    : D (option (Z * ptr * Z * Z)) :=
  b ← load8 src;
  let byte_size := _dispatch_transform_utf8_length b in
  if byte_size =? 0 then mret None
  else if n <? byte_size + i then
    subrange ← _dispatch_data_subrange_map data (u64 (offset + i)) byte_size;
    match subrange with
    | None => mret None
    | Some (subrange, p) =>
        p ← nonnull p;
        wch ← _dispatch_transform_read_utf8_sequence p;
        dispatch_release subrange ≫= λ _,
        mret (Some (wch, ptr_add src byte_size, n, skip + (byte_size - (n - i))))
    end
  else
    wch ← _dispatch_transform_read_utf8_sequence src;
    mret (Some (wch, ptr_add src byte_size, i + byte_size, skip)).

(** The stores for one code point. *)
Definition to_utf16_put (byteOrder offset i n wch : Z) (b : dispatch_transform_buffer_s)
    : D (bool * dispatch_transform_buffer_s) :=
  if (n - i) * 2 >? SIZE_T_MAX then mret (false, b)
  else
    let next := (n - i) * 2 in
    if (wch =? 0xfeff) && (u64 (offset + i) =? 3) then mret (true, b)
    else if (0xd800 <=? wch) && (wch <? 0xdfff) then mret (false, b)
    else if 0x10000 <=? wch then
      '(ok, b) ← _dispatch_transform_buffer_new b 4 next;
      if ok : bool then
        let wch := wch - 0x10000 in
        b ← store16 b (_dispatch_transform_swap_from_host
                         (Z.land (Z.shiftr wch 10) 0x3ff + 0xd800) byteOrder);
        b ← store16 b (_dispatch_transform_swap_from_host
                         (Z.land wch 0x3ff + 0xdc00) byteOrder);
        mret (true, b)
      else mret (false, b)
    else
      '(ok, b) ← _dispatch_transform_buffer_new b 2 next;
      if ok : bool then
        b ← store16 b (_dispatch_transform_swap_from_host (Z.land wch 0xffff) byteOrder);
        mret (true, b)
      else mret (false, b).

(** The loop over a region: [i] grows at every turn, [fuel] is its length. *)
Fixpoint to_utf16_loop (fuel : nat) (data : loc) (byteOrder offset : Z) (src : ptr) (i n : Z)
    (st : Z * dispatch_transform_buffer_s) : D (bool * (Z * dispatch_transform_buffer_s)) :=
  let '(skip, b) := st in
  if i <? n then
    match fuel with
    | O => crash OUT_OF_FUEL
    | S fuel =>
        next ← to_utf16_next data offset src i n skip;
        match next with
        | None => mret (false, (skip, b))
        | Some (wch, src, i, skip) =>
            '(ok, b) ← to_utf16_put byteOrder offset i n wch b;
            if ok : bool then to_utf16_loop fuel data byteOrder offset src i n (skip, b)
            else mret (false, (skip, b))
        end
    end
  else
    '(_, b) ← _dispatch_transform_buffer_new b 0 0;
    mret (true, (skip, b)).

Definition to_utf16_region (data : loc) (byteOrder : Z) (_ : loc) (offset : Z) (p : ptr) (n : Z)
    (st : Z * dispatch_transform_buffer_s) : D (bool * (Z * dispatch_transform_buffer_s)) :=
  let '(skip, b) := st in
  '(ok, b) ←
    (if offset =? 0 then
       if n * 2 + 2 >? SIZE_T_MAX then mret (false, b)
       else
         '(ok, b) ← _dispatch_transform_buffer_new b (n * 2 + 2) 0;
         if ok : bool then
           b ← store16 b (_dispatch_transform_swap_from_host 0xfeff byteOrder);
           mret (true, b)
         else mret (false, b)
     else mret (true, b));
  if ok : bool then
    if n <=? skip then mret (true, (skip - n, b))
    else
      to_utf16_loop (Z.to_nat n) data byteOrder offset (ptr_add p skip) 0 (n - skip) (0, b)
  else mret (false, (skip, b)).

(** The end of both UTF transforms. *)
Definition utf_finish (r : bool * (Z * dispatch_transform_buffer_s)) : D (option loc) :=
  let '(success, (_, b)) := r in
  if success : bool then mret (Some (tb_data b))
  else
    '(_, b) ← _dispatch_transform_buffer_new b 0 0;
    dispatch_release (tb_data b) ≫= λ _,
    mret None.

Definition _dispatch_transform_to_utf16 (data : loc) (byteOrder : Z) : D (option loc) :=
  r ← dispatch_data_apply (to_utf16_region data byteOrder) data
        (0, TB dispatch_data_empty None 0 0);
  utf_finish r.

(** UTF-8 bytes of a code point; nothing above 0x200000. *)
Definition utf8_bytes (wch : Z) : list Z :=
  if wch <? 0x80 then [Z.land wch 0xff]
  else if wch <? 0x800 then
    [Z.lor 0xc0 (Z.shiftr wch 6); Z.lor 0x80 (Z.land wch 0x3f)]
  else if wch <? 0x10000 then
    [Z.lor 0xe0 (Z.shiftr wch 12); Z.lor 0x80 (Z.land (Z.shiftr wch 6) 0x3f);
     Z.lor 0x80 (Z.land wch 0x3f)]
  else if wch <? 0x200000 then
    [Z.lor 0xf0 (Z.shiftr wch 18); Z.lor 0x80 (Z.land (Z.shiftr wch 12) 0x3f);
     Z.lor 0x80 (Z.land (Z.shiftr wch 6) 0x3f); Z.lor 0x80 (Z.land wch 0x3f)]
  else [].

(** Two bytes at [offset] of the whole data, read with [ld]. *)
Definition read_ahead (ld : ptr → D Z) (data : loc) (byteOrder offset : Z) : D (option Z) :=
  range ← _dispatch_data_subrange_map data offset 2;
  match range with
  | None => mret None
  | Some (range, p) =>
      p ← nonnull p;
      ch ← ld p;
      dispatch_release range ≫= λ _,
      mret (Some (_dispatch_transform_swap_to_host ch byteOrder))
  end.

Definition from_utf16_put (max i wch : Z) (b : dispatch_transform_buffer_s)
    : D (bool * dispatch_transform_buffer_s) :=
  if u64 (max - i) * 2 >? SIZE_T_MAX then mret (false, b)
  else
    let next := u64 (max - i) * 2 in
    match utf8_bytes wch with
    | [] => mret (true, b)
    | vs =>
        '(ok, b) ← _dispatch_transform_buffer_new b (zlen vs) next;
        if ok : bool then b ← stores8 b vs; mret (true, b)
        else mret (false, b)
    end.

Fixpoint from_utf16_loop (fuel : nat) (data : loc) (byteOrder offset : Z) (src : ptr) (i max n : Z)
    (st : Z * dispatch_transform_buffer_s) : D (bool * (Z * dispatch_transform_buffer_s)) :=
  let '(skip, b) := st in
  if i <? max then
    match fuel with
    | O => crash OUT_OF_FUEL
    | S fuel =>
        '(ch, skip) ←
          (if (i =? max - 1) && (n / 2 <? max) then
             ch ← read_ahead load64_low16 data byteOrder (u64 (offset + i * 2));
             mret (ch, match ch with Some _ => skip + 1 | None => skip end)
           else
             ch ← load16 (ptr_add src (i * 2));
             mret (Some (_dispatch_transform_swap_to_host ch byteOrder), skip));
        match ch with
        | None => mret (false, (skip, b))
        | Some ch =>
            if (ch =? 0xfffe) && (offset =? 0) && (i =? 0) then mret (false, (skip, b))
            else if (ch =? 0xfeff) && (offset =? 0) && (i =? 0) then
              from_utf16_loop fuel data byteOrder offset src (i + 1) max n (skip, b)
            else
              '(wch, i, skip) ←
                (if (0xd800 <=? ch) && (ch <=? 0xdbff) then
                   let wch := Z.shiftl (ch - 0xd800) 10 in
                   let i := i + 1 in
                   '(ch, skip) ←
                     (if max <=? i then
                        ch ← read_ahead load16 data byteOrder (u64 (offset + i * 2));
                        mret (ch, match ch with Some _ => skip + 2 | None => skip end)
                      else
                        ch ← load16 (ptr_add src (i * 2));
                        mret (Some (_dispatch_transform_swap_to_host ch byteOrder), skip));
                   match ch with
                   | None => mret (None, i, skip)
                   | Some ch =>
                       if negb ((0xdc00 <=? ch) && (ch <=? 0xdfff)) then mret (None, i, skip)
                       else mret (Some (Z.lor wch (Z.land ch 0x3ff) + 0x10000), i, skip)
                   end
                 else if (0xdc00 <=? ch) && (ch <=? 0xdfff) then mret (None, i, skip)
                 else mret (Some ch, i, skip));
              match wch with
              | None => mret (false, (skip, b))
              | Some wch =>
                  '(ok, b) ← from_utf16_put max i wch b;
                  if ok : bool
                  then from_utf16_loop fuel data byteOrder offset src (i + 1) max n (skip, b)
                  else mret (false, (skip, b))
              end
        end
    end
  else
    '(_, b) ← _dispatch_transform_buffer_new b 0 0;
    mret (true, (skip, b)).

Definition howmany (x y : Z) : Z := if x mod y =? 0 then x / y else x / y + 1.

Definition from_utf16_region (data : loc) (byteOrder : Z) (_ : loc) (offset : Z) (p : ptr) (n : Z)
    (st : Z * dispatch_transform_buffer_s) : D (bool * (Z * dispatch_transform_buffer_s)) :=
  let '(skip, b) := st in
  '(ok, b) ←
    (if offset =? 0 then _dispatch_transform_buffer_new b (howmany n 3 * 2) 0
     else mret (true, b));
  if ok : bool then
    if n <=? skip then mret (true, (skip - n, b))
    else
      let src := ptr_add p skip in
      let n := n - skip in
      let max := n / 2 + (if n mod 2 =? 0 then 0 else 1) in
      from_utf16_loop (Z.to_nat max) data byteOrder offset src 0 max n (0, b)
  else mret (false, (skip, b)).

Definition _dispatch_transform_from_utf16 (data : loc) (byteOrder : Z) : D (option loc) :=
  r ← dispatch_data_apply (from_utf16_region data byteOrder) data
        (0, TB dispatch_data_empty None 0 0);
  utf_finish r.

Definition _dispatch_transform_from_utf16le (data : loc) : D (option loc) :=
  _dispatch_transform_from_utf16 data OSLittleEndian.
Definition _dispatch_transform_from_utf16be (data : loc) : D (option loc) :=
  _dispatch_transform_from_utf16 data OSBigEndian.
Definition _dispatch_transform_to_utf16le (data : loc) : D (option loc) :=
  _dispatch_transform_to_utf16 data OSLittleEndian.
Definition _dispatch_transform_to_utf16be (data : loc) : D (option loc) :=
  _dispatch_transform_to_utf16 data OSBigEndian.

Definition _dispatch_transform_to_utf8_without_bom (data : loc) : D (option loc) :=
  subrange ← _dispatch_data_subrange_map data 0 3;
  has_bom ← (match subrange with
             | Some (subrange, p) =>
                 p ← nonnull p;
                 bs ← read_bytes p 3;
                 dispatch_release subrange ≫= λ _,
                 mret (bool_decide (bs = [0xef; 0xbb; 0xbf]))
             | None => mret false
             end);
  if has_bom : bool then
    sz ← dispatch_data_get_size data;
    dispatch_data_create_subrange data 3 (u64 (sz - 3))
  else
    dispatch_retain data ≫= λ _, mret (Some data).

(** ** Decoding of base32 and base64

    The two callbacks differ in the table, the bits of a symbol, the symbols
    and bytes of a group, and in what padding takes off the end. *)
Record decoder := Decoder {
  dec_table : list Z;
  dec_table_size : Z;
  dec_bits : Z;                     (* x <<= dec_bits *)
  dec_mask : Z;                     (* (count & dec_mask) == 0 ends a group *)
  dec_shifts : list Z;              (* the stores (x >> s) & 0xff *)
  dec_unpad : Z → Z;                (* what [final] loses for a pad count *)
}.

Definition dec_symbols (d : decoder) : Z := dec_mask d + 1.
Definition dec_bytes (d : decoder) : Z := zlen (dec_shifts d).

(** [x], [count] and [pad] *)
Abbreviation dec_state := (Z * Z * Z)%type.

Definition is_space (b : Z) : bool := (b =? 10) || (b =? 9) || (b =? 32).

(** One turn of the loop: the new state and the bytes stored; [None] when the
    symbol is not in the alphabet. *)
Definition dec_step (d : decoder) (b : Z) (st : dec_state) : option (dec_state * list Z) :=
  let '(x, count, pad) := st in
  if is_space b then Some (st, [])
  else if (dec_table_size d <=? b) || (tbl (dec_table d) b =? -1) then None
  else
    let count := u64 (count + 1) in
    let value := tbl (dec_table d) b in
    let '(value, pad) := if value =? -2 then (0, u64 (pad + 1)) else (value, pad) in
    let x := u64 (u64 (Z.shiftl x (dec_bits d)) + value) in
    Some ((x, count, pad),
          if Z.land count (dec_mask d) =? 0
          then map (λ s, Z.land (Z.shiftr x s) 0xff) (dec_shifts d)
          else []).

(** Stores through [*ptr++], one byte at a time. *)
Fixpoint put_bytes (p : ptr) (vs : list Z) : D ptr :=
  match vs with
  | [] => mret p
  | v :: vs => write_bytes p [v] ≫= λ _, put_bytes (ptr_add p 1) vs
  end.

Fixpoint dec_loop (d : decoder) (bytes : list Z) (st : dec_state) (p : ptr)
    : D (option ptr * dec_state) :=
  match bytes with
  | [] => mret (Some p, st)
  | b :: bytes =>
      match dec_step d b st with
      | None => mret (None, st)
      | Some (st, out) => p ← put_bytes p out; dec_loop d bytes st p
      end
  end.

Definition dec_region (d : decoder) (_ : loc) (_ : Z) (buffer : ptr) (n : Z)
    (s : dec_state * loc) : D (bool * (dec_state * loc)) :=
  let '(st, rv) := s in
  let dest_size := howmany n (dec_symbols d) * dec_bytes d in
  dest ← malloc dest_size;
  match dest with
  | None => mret (false, (st, rv))
  | Some dest =>
      bytes ← read_bytes buffer n;
      '(p, st) ← dec_loop d bytes st dest;
      match p with
      | None => free (Some dest) ≫= λ _, mret (false, (st, rv))
      | Some p =>
          let final := u64 (p_off p - p_off dest - dec_unpad d (st.2)) in
          rv ← append_buffer rv dest final;
          mret (true, (st, rv))
      end
  end.

Definition transform_decode (d : decoder) (data : loc) : D (option loc) :=
  '(success, (_, rv)) ← dispatch_data_apply (dec_region d) data ((0, 0, 0), dispatch_data_empty);
  if success : bool then mret (Some rv)
  else dispatch_release rv ≫= λ _, mret None.

Definition base32_unpad (pad : Z) : Z :=
  if pad =? 1 then 1 else if pad =? 3 then 2 else if pad =? 4 then 3
  else if pad =? 6 then 4 else 0.

Definition base32_decoder (table : list Z) (table_size : Z) : decoder :=
  Decoder table table_size 5 0x7 [32; 24; 16; 8; 0] base32_unpad.

Definition base64_decoder : decoder :=
  Decoder base64_decode_table base64_decode_table_size 6 0x3 [16; 8; 0] (λ pad, pad).

Definition _dispatch_transform_from_base32_with_table (data : loc) (table : list Z)
    (table_size : Z) : D (option loc) :=
  transform_decode (base32_decoder table table_size) data.

Definition _dispatch_transform_from_base64 (data : loc) : D (option loc) :=
  transform_decode base64_decoder data.

(** ** Encoding to base32 and base64 *)
Record encoder := Encoder {
  enc_bytes : Z;                      (* bytes of a group *)
  enc_symbols : Z;                    (* symbols of a group *)
  enc_put : Z → Z → Z → list Z;       (* switch (count % enc_bytes), last, curr *)
  enc_finish : Z → Z → list Z;        (* the padding switch, last byte *)
}.

(** The previous byte, across the start of the region. *)
Definition enc_last (data : loc) (offset : Z) (bytes : list Z) (i : Z) : D (option Z) :=
  if i =? 0 then
    subrange ← _dispatch_data_subrange_map data (u64 (offset - 1)) 1;
    match subrange with
    | None => mret None
    | Some (subrange, p) =>
        p ← nonnull p;
        last ← load8 p;
        dispatch_release subrange ≫= λ _,
        mret (Some last)
    end
  else mret (Some (nth (Z.to_nat (i - 1)) bytes 0)).

(** [rest] is [bytes] from index [i] on; the state is [count] and [ptr]. *)
Fixpoint enc_loop (e : encoder) (data : loc) (offset : Z) (bytes rest : list Z) (i : Z)
    (st : Z * ptr) : D (bool * (Z * ptr)) :=
  let '(count, p) := st in
  match rest with
  | [] => mret (true, (count, p))
  | curr :: rest =>
      last ← (if count mod enc_bytes e =? 0 then mret (Some 0)
              else enc_last data offset bytes i);
      match last with
      | None => mret (false, (count, p))
      | Some last =>
          p ← put_bytes p (enc_put e (count mod enc_bytes e) last curr);
          enc_loop e data offset bytes rest (i + 1) (u64 (count + 1), p)
      end
  end.

Definition enc_region (e : encoder) (data : loc) (total : Z) (_ : loc) (offset : Z) (buffer : ptr)
    (n : Z) (st : Z * ptr) : D (bool * (Z * ptr)) :=
  bytes ← read_bytes buffer n;
  '(ok, st) ← enc_loop e data offset bytes bytes 0 st;
  if ok : bool then
    if u64 (offset + n) =? total then
      let '(count, p) := st in
      p ← put_bytes p (enc_finish e (count mod enc_bytes e) (nth (Z.to_nat (n - 1)) bytes 0));
      mret (true, (count, p))
    else mret (true, st)
  else mret (false, st).

Definition transform_encode (e : encoder) (data : loc) : D (option loc) :=
  total ← dispatch_data_get_size data;
  let dest_size := howmany total (enc_bytes e) in
  if SIZE_T_MAX / enc_symbols e <? dest_size then mret None
  else
    let dest_size := dest_size * enc_symbols e in
    dest ← malloc dest_size;
    match dest with
    | None => mret None
    | Some dest =>
        '(success, _) ← dispatch_data_apply (enc_region e data total) data (0, dest);
        if success : bool then dispatch_data_create (Some dest) dest_size None DESTRUCTOR_FREE
        else free (Some dest) ≫= λ _, mret None
    end.

Definition EQUALS : Z := 61.  (* '=' *)

Definition base32_put (table : list Z) (phase last curr : Z) : list Z :=
  if phase =? 0 then [tbl table (Z.land (Z.shiftr curr 3) 0x1f)]
  else if phase =? 1 then
    [tbl table (Z.land (Z.lor (Z.shiftl last 2) (Z.shiftr curr 6)) 0x1f);
     tbl table (Z.land (Z.shiftr curr 1) 0x1f)]
  else if phase =? 2 then
    [tbl table (Z.land (Z.lor (Z.shiftl last 4) (Z.shiftr curr 4)) 0x1f)]
  else if phase =? 3 then
    [tbl table (Z.land (Z.lor (Z.shiftl last 1) (Z.shiftr curr 7)) 0x1f);
     tbl table (Z.land (Z.shiftr curr 2) 0x1f)]
  else
    [tbl table (Z.land (Z.lor (Z.shiftl last 3) (Z.shiftr curr 5)) 0x1f);
     tbl table (Z.land curr 0x1f)].

Definition base32_finish (table : list Z) (phase last : Z) : list Z :=
  if phase =? 0 then []
  else if phase =? 1 then tbl table (Z.land (Z.shiftl last 2) 0x1c) :: replicate 6 EQUALS
  else if phase =? 2 then tbl table (Z.land (Z.shiftl last 4) 0x10) :: replicate 4 EQUALS
  else if phase =? 3 then tbl table (Z.land (Z.shiftl last 1) 0x1e) :: replicate 3 EQUALS
  else tbl table (Z.land (Z.shiftl last 3) 0x18) :: replicate 1 EQUALS.

Definition base32_encoder (table : list Z) : encoder :=
  Encoder 5 8 (base32_put table) (base32_finish table).

Definition base64_put (phase last curr : Z) : list Z :=
  if phase =? 0 then [tbl base64_encode_table (Z.land (Z.shiftr curr 2) 0x3f)]
  else if phase =? 1 then
    [tbl base64_encode_table (Z.land (Z.lor (Z.shiftl last 4) (Z.shiftr curr 4)) 0x3f)]
  else
    [tbl base64_encode_table (Z.land (Z.lor (Z.shiftl last 2) (Z.shiftr curr 6)) 0x3f);
     tbl base64_encode_table (Z.land curr 0x3f)].

Definition base64_finish (phase last : Z) : list Z :=
  if phase =? 0 then []
  else if phase =? 1 then
    [tbl base64_encode_table (Z.land (Z.shiftl last 4) 0x30); EQUALS; EQUALS]
  else [tbl base64_encode_table (Z.land (Z.shiftl last 2) 0x3c); EQUALS].

Definition base64_encoder : encoder := Encoder 3 4 base64_put base64_finish.

Definition _dispatch_transform_to_base32_with_table (data : loc) (table : list Z)
    : D (option loc) := transform_encode (base32_encoder table) data.
Definition _dispatch_transform_to_base64 (data : loc) : D (option loc) :=
  transform_encode base64_encoder data.

Definition _dispatch_transform_from_base32 (data : loc) : D (option loc) :=
  _dispatch_transform_from_base32_with_table data base32_decode_table base32_decode_table_size.
Definition _dispatch_transform_to_base32 (data : loc) : D (option loc) :=
  _dispatch_transform_to_base32_with_table data base32_encode_table.
Definition _dispatch_transform_from_base32hex (data : loc) : D (option loc) :=
  _dispatch_transform_from_base32_with_table data base32hex_decode_table
    base32hex_decode_table_size.
Definition _dispatch_transform_to_base32hex (data : loc) : D (option loc) :=
  _dispatch_transform_to_base32_with_table data base32hex_encode_table.

(** ** Formats *)

Record dispatch_data_format_type_s := Format {
  type_ : Z;
  input_mask : Z;
  output_mask : Z;
  decode : option (loc → D (option loc));
  encode : option (loc → D (option loc));
}.

Definition base_mask : Z :=
  Z.lor (Z.lor _DISPATCH_DATA_FORMAT_NONE _DISPATCH_DATA_FORMAT_BASE32)
        (Z.lor _DISPATCH_DATA_FORMAT_BASE32HEX _DISPATCH_DATA_FORMAT_BASE64).
Definition utf_mask : Z :=
  Z.lor _DISPATCH_DATA_FORMAT_UTF8
        (Z.lor _DISPATCH_DATA_FORMAT_UTF16BE _DISPATCH_DATA_FORMAT_UTF16LE).

Definition _dispatch_data_format_type_none : dispatch_data_format_type_s :=
  Format _DISPATCH_DATA_FORMAT_NONE 0xffffffff 0xffffffff None None.
Definition _dispatch_data_format_type_base32 : dispatch_data_format_type_s :=
  Format _DISPATCH_DATA_FORMAT_BASE32 base_mask base_mask
    (Some _dispatch_transform_from_base32) (Some _dispatch_transform_to_base32).
Definition _dispatch_data_format_type_base32hex : dispatch_data_format_type_s :=
  Format _DISPATCH_DATA_FORMAT_BASE32HEX base_mask base_mask
    (Some _dispatch_transform_from_base32hex) (Some _dispatch_transform_to_base32hex).
Definition _dispatch_data_format_type_base64 : dispatch_data_format_type_s :=
  Format _DISPATCH_DATA_FORMAT_BASE64 base_mask base_mask
    (Some _dispatch_transform_from_base64) (Some _dispatch_transform_to_base64).
Definition _dispatch_data_format_type_utf16le : dispatch_data_format_type_s :=
  Format _DISPATCH_DATA_FORMAT_UTF16LE utf_mask utf_mask
    (Some _dispatch_transform_from_utf16le) (Some _dispatch_transform_to_utf16le).
Definition _dispatch_data_format_type_utf16be : dispatch_data_format_type_s :=
  Format _DISPATCH_DATA_FORMAT_UTF16BE utf_mask utf_mask
    (Some _dispatch_transform_from_utf16be) (Some _dispatch_transform_to_utf16be).
Definition _dispatch_data_format_type_utf8 : dispatch_data_format_type_s :=
  Format _DISPATCH_DATA_FORMAT_UTF8 utf_mask utf_mask
    None (Some _dispatch_transform_to_utf8_without_bom).
Definition _dispatch_data_format_type_utf_any : dispatch_data_format_type_s :=
  Format _DISPATCH_DATA_FORMAT_UTF_ANY 0 0 None None.

Definition _dispatch_transform_detect_utf (data : loc) : D (option dispatch_data_format_type_s) :=
  subrange ← _dispatch_data_subrange_map data 0 2;
  match subrange with
  | None => mret None
  | Some (subrange, p) =>
      p ← nonnull p;
      ch ← load16 p;
      dispatch_release subrange ≫= λ _,
      mret (Some (if ch =? 0xfeff then _dispatch_data_format_type_utf16le
                  else if ch =? 0xfffe then _dispatch_data_format_type_utf16be
                  else _dispatch_data_format_type_utf8))
  end.

(** DISPATCH_BAD_INPUT is NULL. *)
Definition dispatch_data_create_with_transform (data : loc)
    (input output : dispatch_data_format_type_s) : D (option loc) :=
  input ← (if type_ input =? _DISPATCH_DATA_FORMAT_UTF_ANY
           then _dispatch_transform_detect_utf data else mret (Some input));
  match input with
  | None => mret None
  | Some input =>
      if negb (Z.ldiff (type_ input) (input_mask output) =? 0) then mret None
      else if negb (Z.ldiff (type_ output) (output_mask input) =? 0) then mret None
      else
        sz ← dispatch_data_get_size data;
        if sz =? 0 then mret (Some data)
        else
          temp1 ← (match decode input with
                   | Some f => f data
                   | None => dispatch_retain data ≫= λ _, mret (Some data)
                   end);
          match temp1 with
          | None => mret None
          | Some temp1 =>
              temp2 ← (match encode output with
                       | Some f => f temp1
                       | None => dispatch_retain temp1 ≫= λ _, mret (Some temp1)
                       end);
              dispatch_release temp1 ≫= λ _,
              mret temp2
          end
  end.

End Transform.
