(* ===== verification/DispatchTransformCodec.v ===== *)
(** * Base32 and base64: the codecs on byte strings

    The callbacks of transform.c, seen as functions on byte strings: what the
    encoder stores for a string cut anywhere, what the decoder makes of it,
    and that decoding undoes encoding. *)

From S2P Require Import Prelude DispatchData DispatchTransform.
Import Data Transform.

(** ** Encoding as a function of the string *)

(** What the loop stores for [bs], after [count] bytes the last of which is
    [last]. *)
Fixpoint enc_out (e : encoder) (last count : Z) (bs : list Z) : list Z :=
  match bs with
  | [] => []
  | b :: bs => enc_put e (count mod enc_bytes e) last b ++ enc_out e b (count + 1) bs
  end.

(** The same, followed by the padding. *)
Fixpoint enc_from (e : encoder) (last count : Z) (bs : list Z) : list Z :=
  match bs with
  | [] => enc_finish e (count mod enc_bytes e) last
  | b :: bs => enc_put e (count mod enc_bytes e) last b ++ enc_from e b (count + 1) bs
  end.

Definition enc_all (e : encoder) (bs : list Z) : list Z := enc_from e 0 0 bs.

Definition last_byte (d : Z) (bs : list Z) : Z := List.last bs d.

Lemma last_byte_cons d b bs : last_byte d (b :: bs) = last_byte b bs.
Proof.
  unfold last_byte. revert b d. induction bs as [|x bs IH]; intros b d; [done|].
  change (List.last (x :: bs) d = List.last (x :: bs) b). by rewrite !IH.
Qed.

Lemma enc_from_out e l c bs bs' :
  enc_from e l c (bs ++ bs') =
  enc_out e l c bs ++ enc_from e (last_byte l bs) (c + zlen bs) bs'.
Proof.
  revert l c. induction bs as [|b bs IH]; intros l c; cbn [enc_from enc_out app].
  - rewrite zlen_nil. by rewrite Z.add_0_r.
  - rewrite IH, last_byte_cons, zlen_cons, Z.add_assoc, app_assoc. done.
Qed.

Lemma enc_out_app e l c bs bs' :
  enc_out e l c (bs ++ bs') = enc_out e l c bs ++ enc_out e (last_byte l bs) (c + zlen bs) bs'.
Proof.
  revert l c. induction bs as [|b bs IH]; intros l c; cbn [enc_from enc_out app].
  - rewrite zlen_nil. by rewrite Z.add_0_r.
  - rewrite IH, last_byte_cons, zlen_cons, Z.add_assoc, app_assoc. done.
Qed.

Lemma last_byte_app d bs bs' : last_byte d (bs ++ bs') = last_byte (last_byte d bs) bs'.
Proof.
  revert d. induction bs as [|b bs IH]; intros d; [done|].
  simpl app. by rewrite !last_byte_cons.
Qed.

(** ** Decoding as a function of the string *)

Fixpoint dec_run (d : decoder) (bs : list Z) (st : dec_state) : option (dec_state * list Z) :=
  match bs with
  | [] => Some (st, [])
  | b :: bs =>
      '(st, out) ← dec_step d b st;
      '(st, out') ← dec_run d bs st;
      Some (st, out ++ out')
  end.

Lemma dec_run_app d bs bs' st :
  dec_run d (bs ++ bs') st =
  ('(st, out) ← dec_run d bs st; '(st, out') ← dec_run d bs' st; Some (st, out ++ out')).
Proof.
  revert st. induction bs as [|b bs IH]; intros st; simpl.
  - by destruct (dec_run d bs' st) as [[??]|].
  - destruct (dec_step d b st) as [[st1 out1]|]; simpl; [|done]. rewrite IH.
    destruct (dec_run d bs st1) as [[st2 out2]|]; simpl; [|done].
    destruct (dec_run d bs' st2) as [[st3 out3]|]; simpl; [|done]. by rewrite app_assoc.
Qed.

(** ** Alphabets

    What the two tables promise each other: a symbol is neither white space
    nor outside the decoding table, and decodes to its index. *)
Class Alphabet (d : decoder) (table : list Z) : Prop := {
  symbol_value : ∀ s, 0 ≤ s < 2 ^ dec_bits d →
    is_space (tbl table s) = false ∧ tbl table s < dec_table_size d ∧
    tbl (dec_table d) (tbl table s) = s;
  equals_value : EQUALS < dec_table_size d ∧ tbl (dec_table d) EQUALS = -2;
}.

Definition alphabet_check (d : decoder) (table : list Z) (n : Z) : bool :=
  forallb (λ s, negb (is_space (tbl table s)) && (tbl table s <? dec_table_size d) &&
                (tbl (dec_table d) (tbl table s) =? s)) (seqZ 0 n) &&
  (EQUALS <? dec_table_size d) && (tbl (dec_table d) EQUALS =? -2).

Lemma alphabet_checked d table :
  alphabet_check d table (2 ^ dec_bits d) = true → Alphabet d table.
Proof.
  unfold alphabet_check. rewrite !andb_true_iff, forallb_forall. intros [[H H1] H2].
  split; [|lia]. intros s Hs. specialize (H s). rewrite <- list_elem_of_In, elem_of_seqZ in H.
  specialize (H ltac:(lia)). rewrite !andb_true_iff, negb_true_iff in H. naive_solver lia.
Qed.

#[export] Instance base64_alphabet : Alphabet base64_decoder base64_encode_table.
Proof. apply alphabet_checked. vm_compute. reflexivity. Qed.
#[export] Instance base32_alphabet :
  Alphabet (base32_decoder base32_decode_table base32_decode_table_size) base32_encode_table.
Proof. apply alphabet_checked. vm_compute. reflexivity. Qed.
(** The base32hex tables agree with each other, once the size is the decoding
    table's own. *)
#[export] Instance base32hex_alphabet :
  Alphabet (base32_decoder base32hex_decode_table (zlen base32hex_decode_table))
    base32hex_encode_table.
Proof. apply alphabet_checked. vm_compute. reflexivity. Qed.

(** ** One group of symbols *)

(** The value the decoder accumulates. *)
Definition shift_in (d : decoder) (x s : Z) : Z := u64 (u64 (Z.shiftl x (dec_bits d)) + s).

Definition group_bytes (d : decoder) (x : Z) : list Z :=
  map (λ s, Z.land (Z.shiftr x s) 0xff) (dec_shifts d).

Lemma dec_step_symbol `{Alphabet d table} x c p s :
  0 ≤ s < 2 ^ dec_bits d →
  dec_step d (tbl table s) (x, c, p) =
  Some ((shift_in d x s, u64 (c + 1), p),
        if Z.land (u64 (c + 1)) (dec_mask d) =? 0 then group_bytes d (shift_in d x s) else []).
Proof.
  intros Hs. destruct (symbol_value s Hs) as (Hsp & Hlt & Hv).
  unfold dec_step. rewrite Hsp, Hv.
  destruct (dec_table_size d <=? tbl table s) eqn:E1; [lia|].
  destruct (s =? -1) eqn:E2; [lia|]. destruct (s =? -2) eqn:E3; [lia|]. done.
Qed.

Lemma dec_step_equals `{Alphabet d table} x c p :
  dec_step d EQUALS (x, c, p) =
  Some ((shift_in d x 0, u64 (c + 1), u64 (p + 1)),
        if Z.land (u64 (c + 1)) (dec_mask d) =? 0 then group_bytes d (shift_in d x 0) else []).
Proof.
  destruct equals_value as [Hlt Hv]. unfold dec_step. rewrite Hv.
  destruct (dec_table_size d <=? EQUALS) eqn:E1; [lia|]. done.
Qed.

(** What [k] symbols leave in the low bits of [x]. *)
Lemma shift_in_mod d x s m :
  0 ≤ dec_bits d → 0 ≤ m → m + dec_bits d ≤ 64 → 0 ≤ s < 2 ^ dec_bits d →
  shift_in d x s mod 2 ^ (m + dec_bits d) = (x mod 2 ^ m) * 2 ^ dec_bits d + s.
Proof.
  intros Hb Hm Hle Hs. unfold shift_in, wrapu. rewrite Z.shiftl_mul_pow2 by done.
  rewrite Zplus_mod_idemp_l.
  assert (2 ^ 64 = 2 ^ (m + dec_bits d) * 2 ^ (64 - (m + dec_bits d))) as ->
    by (rewrite <- Z.pow_add_r by lia; f_equal; lia).
  assert (0 < 2 ^ (m + dec_bits d)) by (apply Z.pow_pos_nonneg; lia).
  assert (0 < 2 ^ (64 - (m + dec_bits d))) by (apply Z.pow_pos_nonneg; lia).
  rewrite Z.mod_mod_divide by apply Z.divide_factor_l.
  assert (0 < 2 ^ m) by (by apply Z.pow_pos_nonneg).
  assert (0 < 2 ^ dec_bits d) by (by apply Z.pow_pos_nonneg).
  rewrite Z.pow_add_r by done. pose proof (Z.mod_pos_bound x (2 ^ m)).
  rewrite (Z.div_mod x (2 ^ m)) at 1 by lia. symmetry.
  apply (Z.mod_unique_pos _ _ (x / 2 ^ m)); nia.
Qed.

Lemma group_byte x k s n :
  0 ≤ s → s + 8 ≤ n → x mod 2 ^ n = k → Z.land (Z.shiftr x s) 0xff = (k / 2 ^ s) mod 256.
Proof.
  intros Hs Hn <-. change 255 with (Z.ones 8). rewrite Z.land_ones, Z.shiftr_div_pow2 by lia.
  change (2 ^ 8) with 256. symmetry. rewrite <- (Z.shiftr_div_pow2 (x mod _)), <- Z.land_ones by lia.
  change 256 with (2 ^ 8). rewrite <- Z.land_ones by lia.
  rewrite <- Z.shiftr_div_pow2, <- Z.land_ones by lia.
  apply Z.bits_inj'. intros i Hi. rewrite !Z.land_spec, !Z.shiftr_spec, Z.land_spec by lia.
  rewrite !Z.testbit_ones_nonneg by lia.
  destruct (i <? 8) eqn:?; [|by rewrite !andb_false_r].
  destruct (i + s <? n) eqn:?; [by rewrite !andb_true_r|lia].
Qed.

(** Facts about all pairs of bytes, by evaluation. *)
Lemma all_byte_pairs (f : Z → Z → bool) :
  forallb (λ a, forallb (f a) (seqZ 0 256)) (seqZ 0 256) = true →
  ∀ a b, is_byte a → is_byte b → f a b = true.
Proof.
  rewrite forallb_forall. intros H a b Ha Hb. specialize (H a).
  rewrite forallb_forall in H. unfold is_byte in *.
  apply H; rewrite <- list_elem_of_In, elem_of_seqZ; lia.
Qed.

(** ** Tokens: what the encoder writes, symbol by symbol *)

Inductive token := Sym (s : Z) | Pad.

Definition value (t : token) : Z := match t with Sym s => s | Pad => 0 end.
Definition is_pad (t : token) : Z := match t with Sym _ => 0 | Pad => 1 end.
Definition pads (ts : list token) : Z := foldr (λ t n, is_pad t + n) 0 ts.
Definition char (table : list Z) (t : token) : Z :=
  match t with Sym s => tbl table s | Pad => EQUALS end.
Definition token_ok (w : Z) (t : token) : Prop := 0 ≤ value t < 2 ^ w.

(** A number from its digits in base [2^w], most significant first. *)
Definition num (w : Z) (ds : list Z) : Z := foldl (λ n s, n * 2 ^ w + s) 0 ds.

Lemma num_snoc w ds s : num w (ds ++ [s]) = num w ds * 2 ^ w + s.
Proof. unfold num. by rewrite foldl_app. Qed.

Lemma shift_ins_mod d ss x :
  0 ≤ dec_bits d → dec_bits d * zlen ss ≤ 64 → Forall (λ s, 0 ≤ s < 2 ^ dec_bits d) ss →
  foldl (shift_in d) x ss mod 2 ^ (dec_bits d * zlen ss) = num (dec_bits d) ss.
Proof.
  intros Hb Hle Hss. induction ss as [|s ss IH] using rev_ind.
  - rewrite zlen_nil, Z.mul_0_r. simpl. apply Z.mod_1_r.
  - rewrite zlen_app, zlen_cons, zlen_nil in *. pose proof (zlen_nonneg ss).
    apply Forall_app in Hss as [Hss [Hs _]%Forall_cons].
    rewrite foldl_app, num_snoc. cbn [foldl].
    replace (dec_bits d * (zlen ss + (1 + 0))) with (dec_bits d * zlen ss + dec_bits d) by lia.
    rewrite shift_in_mod by (done || nia). rewrite IH by (done || nia). done.
Qed.

(** What the loop of a decoder relies on, whatever its table. *)
Class DecoderShape (d : decoder) : Prop := {
  shape_mask : dec_mask d = Z.ones (Z.log2 (dec_symbols d)) ∧ 0 < Z.log2 (dec_symbols d) ≤ 64;
  shape_bytes : 0 < dec_bytes d ≤ dec_symbols d;
  shape_unpad : ∀ pad, 0 ≤ pad → 0 ≤ dec_unpad d pad;
}.

#[export] Instance base64_shape : DecoderShape base64_decoder.
Proof. split; done. Qed.
#[export] Instance base32_shape table size : DecoderShape (base32_decoder table size).
Proof. split; try done. intros pad _. cbn. unfold base32_unpad. repeat case_match; lia. Qed.

(** What the two halves of a codec promise each other. *)
Class Codec (e : encoder) (d : decoder) (table : list Z) : Prop := {
  codec_alphabet :: Alphabet d table;
  codec_shape :: DecoderShape d;
  codec_bits : 0 < dec_bits d;
  codec_width : dec_bits d * dec_symbols d = 8 * enc_bytes e ∧ 8 * enc_bytes e ≤ 64;
  codec_bytes : 0 < enc_bytes e ∧ dec_bytes d = enc_bytes e ∧ dec_symbols d = enc_symbols e;
  codec_group : ∀ x bs, zlen bs = enc_bytes e → Forall is_byte bs →
    x mod 2 ^ (8 * enc_bytes e) = num 8 bs → group_bytes d x = bs;
  codec_full : ∀ bs last count, count mod enc_bytes e = 0 → zlen bs = enc_bytes e →
    Forall is_byte bs →
    ∃ ts, enc_out e last count bs = map (char table) ts ∧ Forall (token_ok (dec_bits d)) ts ∧
      zlen ts = dec_symbols d ∧ pads ts = 0 ∧ num (dec_bits d) (map value ts) = num 8 bs;
  codec_part : ∀ bs last count, count mod enc_bytes e = 0 → 0 < zlen bs < enc_bytes e →
    Forall is_byte bs →
    ∃ ts tail, enc_from e last count bs = map (char table) ts ∧
      Forall (token_ok (dec_bits d)) ts ∧ zlen ts = dec_symbols d ∧ 0 ≤ pads ts < 2 ^ 64 ∧
      zlen (bs ++ tail) = enc_bytes e ∧ Forall is_byte tail ∧
      zlen tail = dec_unpad d (pads ts) ∧
      num (dec_bits d) (map value ts) = num 8 (bs ++ tail) ∧ Forall (eq 0) tail ∧
      ∃ ss np, ts = map Sym ss ++ replicate np Pad ∧
               zlen ss = howmany (8 * zlen bs) (dec_bits d);
  codec_none : dec_unpad d 0 = 0;
  codec_empty : ∀ last count, count mod enc_bytes e = 0 →
    enc_finish e (count mod enc_bytes e) last = [];
  codec_first : ∀ last b, enc_put e 0 last b = enc_put e 0 0 b;
  codec_put_bytes : ∀ phase last b, Forall is_byte (enc_put e phase last b);
  codec_finish_bytes : ∀ phase last, Forall is_byte (enc_finish e phase last);
}.

Lemma tbl_is_byte table i : forallb (λ b, (0 <=? b) && (b <? 256)) table = true → is_byte (tbl table i).
Proof.
  rewrite forallb_forall. intros H. unfold tbl.
  destruct (nth_in_or_default (Z.to_nat i) table 0) as [Hin| ->]; [|done].
  apply H in Hin. unfold is_byte. lia.
Qed.

Lemma u64_succ n : u64 (u64 n + 1) = u64 (n + 1).
Proof. unfold wrapu. by rewrite Zplus_mod_idemp_l. Qed.
Lemma u64_add n m : u64 (u64 n + m) = u64 (n + m).
Proof. unfold wrapu. by rewrite Zplus_mod_idemp_l. Qed.

Section Shape.
Context {d : decoder} `{!DecoderShape d}.

Lemma symbols_pow : dec_symbols d = 2 ^ Z.log2 (dec_symbols d).
Proof.
  destruct shape_mask as [Hm Hl]. unfold dec_symbols at 1. rewrite Hm, Z.ones_equiv. lia.
Qed.

Lemma symbols_gt1 : 1 < dec_symbols d.
Proof. rewrite symbols_pow. destruct shape_mask. apply Z.pow_gt_1; lia. Qed.

Lemma land_mask n : Z.land (u64 n) (dec_mask d) = n mod dec_symbols d.
Proof.
  destruct shape_mask as [Hm Hl]. rewrite Hm, Z.land_ones by lia. rewrite <- symbols_pow.
  unfold wrapu. apply Z.mod_mod_divide. rewrite symbols_pow.
  exists (2 ^ (64 - Z.log2 (dec_symbols d))). rewrite <- Z.pow_add_r by lia. f_equal. lia.
Qed.

End Shape.

Section Group.
Context {e : encoder} {d : decoder} {table : list Z} `{Hc : !Codec e d table}.

Lemma dec_step_token t x n m :
  token_ok (dec_bits d) t →
  dec_step d (char table t) (x, u64 n, u64 m) =
  Some ((shift_in d x (value t), u64 (n + 1), u64 (m + is_pad t)),
        if (n + 1) mod dec_symbols d =? 0 then group_bytes d (shift_in d x (value t)) else []).
Proof.
  intros Ht. destruct t as [s|]; cbn [char value is_pad].
  - rewrite (dec_step_symbol (table := table)) by done.
    by rewrite u64_succ, land_mask, Z.add_0_r.
  - rewrite (dec_step_equals (table := table)). by rewrite !u64_succ, land_mask.
Qed.

(** A run of tokens inside one group. *)
Lemma dec_run_tokens ts x n m :
  Forall (token_ok (dec_bits d)) ts → ts ≠ [] → n mod dec_symbols d + zlen ts ≤ dec_symbols d →
  dec_run d (map (char table) ts) (x, u64 n, u64 m) =
  Some ((foldl (shift_in d) x (map value ts), u64 (n + zlen ts), u64 (m + pads ts)),
        if n mod dec_symbols d + zlen ts =? dec_symbols d
        then group_bytes d (foldl (shift_in d) x (map value ts)) else []).
Proof.
  pose proof (symbols_gt1 (d := d)) as Hg.
  revert x n m. induction ts as [|t ts IH]; intros x n m Hts Hne Hlen; [done|].
  apply Forall_cons in Hts as [Ht Hts]. rewrite zlen_cons in *.
  pose proof (zlen_nonneg ts). pose proof (Z.mod_pos_bound n (dec_symbols d)).
  cbn [map dec_run foldl pads foldr]. rewrite dec_step_token by done. simpl.
  destruct ts as [|t' ts].
  - change (1 + zlen (@nil token)) with 1. cbn. rewrite Z.add_0_r, app_nil_r.
    assert (((n + 1) mod dec_symbols d =? 0) = (n mod dec_symbols d + 1 =? dec_symbols d))
      as ->; [|done].
    destruct (Z.eqb_spec (n mod dec_symbols d + 1) (dec_symbols d)) as [E|E].
    + apply Z.eqb_eq. rewrite Zplus_mod, (Z.mod_small 1) by lia.
      replace (n mod dec_symbols d + 1) with (dec_symbols d) by lia. apply Z.mod_same. lia.
    + apply Z.eqb_neq. rewrite Zplus_mod, (Z.mod_small 1) by lia. rewrite Z.mod_small; lia.
  - rewrite zlen_cons in *. pose proof (zlen_nonneg ts).
    assert ((n + 1) mod dec_symbols d = n mod dec_symbols d + 1) as Hn1.
    { rewrite Zplus_mod, (Z.mod_small 1) by lia. apply Z.mod_small. lia. }
    rewrite IH; [|done|done|lia]. rewrite Hn1.
    destruct (n mod dec_symbols d + 1 =? 0) eqn:?; [lia|].
    replace (n mod dec_symbols d + 1 + (1 + zlen ts))
      with (n mod dec_symbols d + (1 + (1 + zlen ts))) by lia.
    replace (n + 1 + (1 + zlen ts)) with (n + (1 + (1 + zlen ts))) by lia.
    rewrite <- Z.add_assoc. done.
Qed.

(** A whole group: the bytes it stands for. *)
Lemma dec_run_group ts bs x n m :
  Forall (token_ok (dec_bits d)) ts → zlen ts = dec_symbols d → n mod dec_symbols d = 0 →
  zlen bs = enc_bytes e → Forall is_byte bs → num (dec_bits d) (map value ts) = num 8 bs →
  ∃ x', dec_run d (map (char table) ts) (x, u64 n, u64 m) =
        Some ((x', u64 (n + dec_symbols d), u64 (m + pads ts)), bs).
Proof.
  intros Hts Hlen Hn Hbs Hby Hnum. destruct codec_width as [Hw H64].
  pose proof (symbols_gt1 (d := d)) as Hg.
  rewrite dec_run_tokens; [|done| |lia].
  2:{ intros ->. rewrite zlen_nil in Hlen. lia. }
  rewrite Hn, Hlen, Z.add_0_l, Z.eqb_refl. eexists. do 2 f_equal.
  apply codec_group; [done..|]. rewrite <- Hnum, <- Hw.
  rewrite <- (shift_ins_mod d (map value ts) x); rewrite ?zlen_map, ?Hlen.
  - done.
  - pose proof codec_bits. lia.
  - lia.
  - apply Forall_map. eapply Forall_impl; [done|]. by intros t.
Qed.

(** Decoding undoes encoding, up to what padding adds. *)
Lemma dec_enc_run bs : Forall is_byte bs → ∀ last count x n m,
  count mod enc_bytes e = 0 → n mod dec_symbols d = 0 →
  ∃ x' n' k tail,
    dec_run d (enc_from e last count bs) (x, u64 n, u64 m) =
    Some ((x', u64 n', u64 (m + k)), bs ++ tail) ∧
    0 ≤ k < 2 ^ 64 ∧ zlen tail = dec_unpad d k.
Proof.
  destruct codec_bytes as (Hk0 & Hdb & Hsym). pose proof (symbols_gt1 (d := d)) as Hg.
  remember (length bs) as len eqn:Hlen. revert bs Hlen.
  induction len as [len IH] using lt_wf_ind. intros bs -> Hby last count x n m Hcount Hn.
  destruct (decide (bs = [])) as [->|Hne].
  { exists x, n, 0, []. cbn [enc_from]. rewrite codec_empty by done. simpl.
    rewrite Z.add_0_r, codec_none. split_and!; try done. }
  destruct (decide (zlen bs < enc_bytes e)) as [Hlt|Hge].
  - assert (0 < zlen bs).
    { destruct bs as [|b bs]; [done|]. rewrite zlen_cons. pose proof (zlen_nonneg bs). lia. }
    destruct (codec_part bs last count) as (ts & tail & -> & Hts & Hzt & Hp & Hzb & Htail & Hu & Hnum & _);
      [done|lia|done|].
    destruct (dec_run_group ts (bs ++ tail) x n m) as (x' & Er);
      [done|done|done|done|by apply Forall_app|done|].
    exists x', (n + dec_symbols d), (pads ts), tail. split_and!; [done|lia|lia|done].
  - set (k := Z.to_nat (enc_bytes e)).
    assert (zlen (take k bs) = enc_bytes e) as Hz1.
    { unfold zlen in *. rewrite length_take. lia. }
    rewrite <- (take_drop k bs) in Hby |- *. apply Forall_app in Hby as [Hby1 Hby2].
    rewrite enc_from_out, dec_run_app.
    destruct (codec_full (take k bs) last count) as (ts & -> & Hts & Hzt & Hp & Hnum); [done..|].
    destruct (dec_run_group ts (take k bs) x n m) as (x1 & E1); [done..|].
    rewrite E1, Hp, Z.add_0_r. simpl.
    destruct (IH (length (drop k bs))) with (bs := drop k bs) (last := last_byte last (take k bs))
      (count := count + zlen (take k bs)) (x := x1) (n := n + dec_symbols d) (m := m)
      as (x' & n' & kp & tail & E2 & Hkp & Htail); try done.
    + rewrite length_drop. unfold k. destruct bs; [done|]. cbn [length]. lia.
    + rewrite Hz1, Zplus_mod, Hcount, Z.mod_same by lia. done.
    + rewrite Zplus_mod, Hn, Z.mod_same, Z.add_0_l by lia. apply Z.mod_0_l. lia.
    + exists x', n', kp, tail. rewrite E2. simpl. by rewrite app_assoc.
Qed.

(** The encoder fills exactly the room it asks for. *)
Lemma enc_from_zlen bs : Forall is_byte bs → ∀ last count,
  count mod enc_bytes e = 0 →
  zlen (enc_from e last count bs) = howmany (zlen bs) (enc_bytes e) * enc_symbols e.
Proof.
  destruct codec_bytes as (Hk0 & _ & Hsym). unfold howmany.
  remember (length bs) as len eqn:Hlen. revert bs Hlen.
  induction len as [len IH] using lt_wf_ind. intros bs -> Hby last count Hcount.
  destruct (decide (bs = [])) as [->|Hne].
  { cbn [enc_from]. rewrite codec_empty by done. by rewrite zlen_nil, Zmod_0_l, Zdiv_0_l. }
  assert (0 < zlen bs).
  { destruct bs as [|b bs]; [done|]. rewrite zlen_cons. pose proof (zlen_nonneg bs). lia. }
  destruct (decide (zlen bs < enc_bytes e)) as [Hlt|Hge].
  - destruct (codec_part bs last count) as (ts & tail & -> & _ & Hzt & _); [done|lia|done|].
    rewrite zlen_map, Hzt, Z.mod_small, Z.div_small by lia.
    destruct (zlen bs =? 0) eqn:?; lia.
  - set (k := Z.to_nat (enc_bytes e)).
    assert (zlen (take k bs) = enc_bytes e) as Hz1 by (unfold zlen in *; rewrite length_take; lia).
    assert (zlen (drop k bs) = zlen bs - enc_bytes e) as Hz2
      by (unfold zlen in *; rewrite length_drop; lia).
    rewrite <- (take_drop k bs) in Hby. apply Forall_app in Hby as [Hby1 Hby2].
    rewrite <- (take_drop k bs) at 1. rewrite enc_from_out, zlen_app.
    destruct (codec_full (take k bs) last count) as (ts & -> & _ & Hzt & _); [done..|].
    rewrite zlen_map, Hzt, Hsym, (IH (length (drop k bs))); try done.
    + rewrite Hz2. set (z := zlen bs - enc_bytes e).
      replace (zlen bs) with (z + 1 * enc_bytes e) by lia.
      rewrite Z_mod_plus_full, Z.div_add by lia.
      destruct (z mod enc_bytes e =? 0); lia.
    + rewrite length_drop. unfold zlen, k in *. lia.
    + rewrite Hz1, Zplus_mod, Hcount, Z.mod_same by lia. done.
Qed.

Lemma enc_out_is_byte last count bs : Forall is_byte (enc_out e last count bs).
Proof.
  revert last count. induction bs as [|b bs IH]; intros last count; [done|].
  apply Forall_app. split; [apply codec_put_bytes|apply IH].
Qed.

Lemma enc_from_is_byte last count bs : Forall is_byte (enc_from e last count bs).
Proof.
  revert last count. induction bs as [|b bs IH]; intros last count; [apply codec_finish_bytes|].
  apply Forall_app. split; [apply codec_put_bytes|apply IH].
Qed.

Lemma enc_out_fits bs bs' :
  zlen (enc_out e 0 0 bs) ≤ zlen (enc_all e (bs ++ bs')).
Proof.
  unfold enc_all. rewrite enc_from_out, zlen_app.
  pose proof (zlen_nonneg (enc_from e (last_byte 0 bs) (0 + zlen bs) bs')). lia.
Qed.
End Group.

(** ** The encoding of RFC 4648

    A string is cut into groups of [k] bytes; a group is a number, written
    with [g] digits in base [2^w]; the last group, when it is short, is filled
    with zero bytes, and the digits that only they determine are written as
    '='. *)

Fixpoint digits_of (w : Z) (n : nat) (x : Z) : list Z :=
  match n with
  | O => []
  | S n => digits_of w n (x / 2 ^ w) ++ [x mod 2 ^ w]
  end.

Definition rfc4648_group (w k g : Z) (table bs : list Z) : list Z :=
  let filled := bs ++ replicate (Z.to_nat (k - zlen bs)) 0 in
  let kept := Z.to_nat (howmany (8 * zlen bs) w) in
  map (tbl table) (take kept (digits_of w (Z.to_nat g) (num 8 filled))) ++
  replicate (Z.to_nat g - kept) EQUALS.

Fixpoint rfc4648_groups (fuel : nat) (w k g : Z) (table bs : list Z) : list Z :=
  match fuel, bs with
  | S fuel, _ :: _ =>
      rfc4648_group w k g table (take (Z.to_nat k) bs) ++
      rfc4648_groups fuel w k g table (drop (Z.to_nat k) bs)
  | _, _ => []
  end.

(** A string of [n] bytes has at most [n] groups. *)
Definition rfc4648 (w k g : Z) (table bs : list Z) : list Z :=
  rfc4648_groups (length bs) w k g table bs.

Lemma digits_of_num w ss :
  0 ≤ w → Forall (λ s, 0 ≤ s < 2 ^ w) ss → digits_of w (length ss) (num w ss) = ss.
Proof.
  intros Hw Hss. induction ss as [|s ss IH] using rev_ind; [done|].
  apply Forall_app in Hss as [Hss [Hs _]%Forall_cons]. rewrite length_app, Nat.add_comm.
  simpl. rewrite num_snoc. assert (0 < 2 ^ w) by (by apply Z.pow_pos_nonneg).
  rewrite (Z.add_comm _ s), Z.div_add, Z.div_small, Z.add_0_l by lia.
  rewrite Z_mod_plus_full, Z.mod_small by lia. by rewrite IH.
Qed.

Lemma pads_0 ts : pads ts = 0 → ts = map Sym (map value ts).
Proof.
  assert (∀ l, 0 ≤ pads l) as Hnn
    by (induction l as [|[] l IH]; simpl; unfold is_pad in *; lia).
  induction ts as [|[s|] ts IH]; [done| |]; unfold pads; simpl; fold (pads ts); intros E.
  - by rewrite <- IH.
  - pose proof (Hnn ts). lia.
Qed.

Section Rfc.
Context {e : encoder} {d : decoder} {table : list Z} `{Hc : !Codec e d table}.
Local Abbreviation w := (dec_bits d).
Local Abbreviation k := (enc_bytes e).
Local Abbreviation g := (enc_symbols e).

Lemma token_digits ts x :
  Forall (token_ok w) ts → zlen ts = dec_symbols d → num w (map value ts) = x →
  digits_of w (Z.to_nat g) x = map value ts.
Proof using Hc.
  intros Hts Hz <-. destruct codec_bytes as (_ & _ & Hsym). pose proof codec_bits.
  replace (Z.to_nat g) with (length (map value ts)) by (rewrite length_map; unfold zlen in Hz; lia).
  apply digits_of_num; [lia|]. apply Forall_map. eapply Forall_impl; [done|]. by intros t.
Qed.

Lemma howmany_exact a b c : 0 < b → a = b * c → howmany a b = c.
Proof using.
  intros Hb ->. unfold howmany. rewrite (Z.mul_comm b), Z_mod_mult, Z.div_mul by lia. done.
Qed.

Lemma rfc_full bs last count :
  count mod k = 0 → zlen bs = k → Forall is_byte bs →
  enc_out e last count bs = rfc4648_group w k g table bs.
Proof using Hc.
  intros Hcount Hz Hby. destruct (codec_full bs last count) as (ts & -> & Hts & Hzt & Hp & Hnum); [done..|].
  pose proof codec_bits as Hw. destruct codec_bytes as (_ & _ & Hsym). destruct codec_width as [Hwd _].
  unfold rfc4648_group. rewrite Hz, Z.sub_diag. simpl replicate. rewrite app_nil_r.
  rewrite (howmany_exact _ _ g) by lia.
  rewrite (token_digits ts) by done. unfold zlen in Hzt.
  rewrite take_ge by (rewrite length_map; lia). rewrite Nat.sub_diag, app_nil_r.
  rewrite (pads_0 ts Hp) at 1. by rewrite !map_map.
Qed.

Lemma rfc_part bs last count :
  count mod k = 0 → 0 < zlen bs < k → Forall is_byte bs →
  enc_from e last count bs = rfc4648_group w k g table bs.
Proof using Hc.
  intros Hcount Hz Hby.
  destruct (codec_part bs last count) as (ts & tail & -> & Hts & Hzt & _ & Hzb & _ & _ & Hnum & H0 & ss & np & Ets & Hss);
    [done..|]. destruct codec_bytes as (_ & _ & Hsym).
  unfold rfc4648_group. rewrite zlen_app in Hzb. rewrite <- Hss.
  assert (replicate (Z.to_nat (k - zlen bs)) 0 = tail) as ->.
  { replace (Z.to_nat (k - zlen bs)) with (length tail) by (unfold zlen in *; lia).
    clear -H0. induction H0 as [|x l <- _ IH]; [done|]. simpl. by rewrite IH. }
  rewrite (token_digits ts) by done. subst ts. unfold zlen in *.
  rewrite !map_app, length_app, !length_map, length_replicate in *.
  rewrite Nat2Z.id, take_app_le by (rewrite !length_map; lia).
  rewrite take_ge by (rewrite !length_map; lia). rewrite !map_map. f_equal.
  rewrite fmap_replicate. simpl. f_equal. lia.
Qed.

Lemma enc_from_rfc4648 bs : Forall is_byte bs → ∀ fuel last count,
  count mod k = 0 → (length bs ≤ fuel)%nat →
  enc_from e last count bs = rfc4648_groups fuel w k g table bs.
Proof using Hc.
  destruct codec_bytes as (Hk0 & _ & _). remember (length bs) as len eqn:Hlen. revert bs Hlen.
  induction len as [len IH] using lt_wf_ind. intros bs -> Hby fuel last count Hcount Hf.
  destruct (decide (bs = [])) as [->|Hne].
  { cbn [enc_from]. rewrite codec_empty by done. by destruct fuel. }
  destruct fuel as [|fuel]; [destruct bs; simpl in Hf; [done|lia]|].
  assert (rfc4648_groups (S fuel) w k g table bs =
          rfc4648_group w k g table (take (Z.to_nat k) bs) ++
          rfc4648_groups fuel w k g table (drop (Z.to_nat k) bs)) as -> by (by destruct bs).
  assert (0 < zlen bs).
  { destruct bs as [|b bs]; [done|]. rewrite zlen_cons. pose proof (zlen_nonneg bs). lia. }
  unfold zlen in *. destruct (decide (Z.of_nat (length bs) < k)) as [Hlt|Hge].
  - rewrite take_ge, drop_ge by lia. rewrite (rfc_part bs) by (unfold zlen; done || lia).
    destruct fuel; by rewrite app_nil_r.
  - set (n := Z.to_nat k). assert (zlen (take n bs) = k) as Hz1 by (unfold zlen; rewrite length_take; lia).
    rewrite <- (take_drop n bs) in Hby. apply Forall_app in Hby as [Hby1 Hby2].
    rewrite <- (take_drop n bs) at 1. rewrite enc_from_out, rfc_full by done.
    f_equal. apply (IH (length (drop n bs))); try done; rewrite ?length_drop; [lia| |lia].
    rewrite Hz1, Zplus_mod, Hcount, Z.mod_same by lia. done.
Qed.

Lemma enc_all_rfc4648 bs : Forall is_byte bs → enc_all e bs = rfc4648 w k g table bs.
Proof using Hc. intros. apply enc_from_rfc4648; [done| |done]. by apply Zmod_0_l. Qed.
End Rfc.

(** ** The two codecs *)

Lemma list_len1 {A} (l : list A) : zlen l = 1 → ∃ a, l = [a].
Proof. unfold zlen. destruct l as [|a [|]]; simpl; try lia. by exists a. Qed.
Lemma list_len2 {A} (l : list A) : zlen l = 2 → ∃ a b, l = [a; b].
Proof. unfold zlen. destruct l as [|a [|b [|]]]; simpl; try lia. by exists a, b. Qed.
Lemma list_len3 {A} (l : list A) : zlen l = 3 → ∃ a b c, l = [a; b; c].
Proof. unfold zlen. destruct l as [|a [|b [|c [|]]]]; simpl; try lia. by exists a, b, c. Qed.
Lemma list_len4 {A} (l : list A) : zlen l = 4 → ∃ a b c d, l = [a; b; c; d].
Proof.
  unfold zlen. destruct l as [|a [|b [|c [|d [|]]]]]; simpl; try lia. by exists a, b, c, d.
Qed.
Lemma list_len5 {A} (l : list A) : zlen l = 5 → ∃ a b c d e, l = [a; b; c; d; e].
Proof.
  unfold zlen. destruct l as [|a [|b [|c [|d [|e [|]]]]]]; simpl; try lia. by exists a, b, c, d, e.
Qed.

Lemma phase_add count k i : 0 ≤ i < k → count mod k = 0 → (count + i) mod k = i.
Proof. intros Hi Hc. rewrite Zplus_mod, Hc, Z.add_0_l, Z.mod_mod by lia. apply Z.mod_small. lia. Qed.

Lemma land_shiftr_byte x s : 0 ≤ s → Z.land (Z.shiftr x s) 0xff = (x / 2 ^ s) mod 256.
Proof.
  intros. change 0xff with (Z.ones 8). by rewrite Z.land_ones, Z.shiftr_div_pow2 by lia.
Qed.

(** The shifts and masks of the base64 switch, as arithmetic. *)
Definition base64_bits_check (a b : Z) : bool :=
  (Z.land (Z.shiftr a 2) 0x3f =? a / 4) &&
  (Z.land (Z.lor (Z.shiftl a 4) (Z.shiftr b 4)) 0x3f =? a mod 4 * 16 + b / 16) &&
  (Z.land (Z.lor (Z.shiftl a 2) (Z.shiftr b 6)) 0x3f =? a mod 16 * 4 + b / 64) &&
  (Z.land a 0x3f =? a mod 64) &&
  (Z.land (Z.shiftl a 4) 0x30 =? a mod 4 * 16) &&
  (Z.land (Z.shiftl a 2) 0x3c =? a mod 16 * 4).

Lemma base64_bits a b : is_byte a → is_byte b →
  Z.land (Z.shiftr a 2) 0x3f = a / 4 ∧
  Z.land (Z.lor (Z.shiftl a 4) (Z.shiftr b 4)) 0x3f = a mod 4 * 16 + b / 16 ∧
  Z.land (Z.lor (Z.shiftl a 2) (Z.shiftr b 6)) 0x3f = a mod 16 * 4 + b / 64 ∧
  Z.land a 0x3f = a mod 64 ∧
  Z.land (Z.shiftl a 4) 0x30 = a mod 4 * 16 ∧
  Z.land (Z.shiftl a 2) 0x3c = a mod 16 * 4.
Proof.
  intros Ha Hb. pose proof (all_byte_pairs base64_bits_check) as H.
  specialize (H ltac:(vm_compute; reflexivity) a b Ha Hb).
  unfold base64_bits_check in H. rewrite !andb_true_iff, !Z.eqb_eq in H. naive_solver.
Qed.

Ltac digits := unfold token_ok, num, is_byte in *;
  cbn [map value foldl app dec_bits base64_decoder base32_decoder] in *;
  repeat change (2 ^ 8) with 256 in *; repeat change (2 ^ 6) with 64 in *;
  repeat change (2 ^ 5) with 32 in *;
  Z.to_euclidean_division_equations; lia.

Lemma base64_group x a b c :
  is_byte a → is_byte b → is_byte c → x mod 2 ^ 24 = num 8 [a; b; c] →
  group_bytes base64_decoder x = [a; b; c].
Proof.
  intros Ha Hb Hc Hx. unfold group_bytes. cbn [dec_shifts base64_decoder map].
  rewrite (group_byte x _ 16 24 ltac:(done) ltac:(done) Hx),
    (group_byte x _ 8 24 ltac:(done) ltac:(done) Hx), (group_byte x _ 0 24 ltac:(done) ltac:(done) Hx).
  f_equal; [|f_equal; [|f_equal]]; digits.
Qed.

#[export] Instance base64_codec : Codec base64_encoder base64_decoder base64_encode_table.
Proof.
  split; try done; try apply _.
  - intros x bs (a & b & c & ->)%list_len3 Hby Hx.
    apply Forall_cons in Hby as [Ha [Hb [Hc _]%Forall_cons]%Forall_cons]. by apply base64_group.
  - intros bs last count Hcount (a & b & c & ->)%list_len3 Hby.
    apply Forall_cons in Hby as [Ha [Hb [Hc _]%Forall_cons]%Forall_cons].
    exists [Sym (a / 4); Sym (a mod 4 * 16 + b / 16); Sym (b mod 16 * 4 + c / 64); Sym (c mod 64)].
    cbn [enc_out enc_bytes enc_put base64_encoder] in *.
    rewrite <- Z.add_assoc, Hcount, !(phase_add count 3) by lia. unfold base64_put. simpl app.
    destruct (base64_bits a b Ha Hb) as (-> & -> & _).
    destruct (base64_bits b c Hb Hc) as (_ & _ & -> & _).
    destruct (base64_bits c c Hc Hc) as (_ & _ & _ & -> & _).
    split_and!; [done| |done|done|digits]. repeat constructor; digits.
  - intros bs last count Hcount Hlen Hby. cbn [enc_bytes base64_encoder] in *.
    assert (zlen bs = 1 ∨ zlen bs = 2) as [(a & ->)%list_len1|(a & b & ->)%list_len2] by lia.
    + apply Forall_cons in Hby as [Ha _].
      exists [Sym (a / 4); Sym (a mod 4 * 16); Pad; Pad], [0; 0].
      cbn [enc_from enc_bytes enc_put enc_finish base64_encoder].
      rewrite Hcount, !(phase_add count 3) by lia. unfold base64_put, base64_finish. simpl app.
      destruct (base64_bits a a Ha Ha) as (-> & _ & _ & _ & -> & _).
      split_and!; try done; [repeat constructor; digits|repeat constructor; digits|digits|
      by repeat constructor|by exists [a / 4; a mod 4 * 16], 2%nat].
    + apply Forall_cons in Hby as [Ha [Hb _]%Forall_cons].
      exists [Sym (a / 4); Sym (a mod 4 * 16 + b / 16); Sym (b mod 16 * 4); Pad], [0].
      cbn [enc_from enc_bytes enc_put enc_finish base64_encoder].
      rewrite <- Z.add_assoc, Hcount, !(phase_add count 3) by lia.
      unfold base64_put, base64_finish. simpl app.
      destruct (base64_bits a b Ha Hb) as (-> & -> & _).
      destruct (base64_bits b b Hb Hb) as (_ & _ & _ & _ & _ & ->).
      split_and!; try done; [repeat constructor; digits|repeat constructor; digits|digits|
      by repeat constructor|by exists [a / 4; a mod 4 * 16 + b / 16; b mod 16 * 4], 1%nat].
  - intros last count Hcount. cbn [enc_finish enc_bytes base64_encoder] in *. by rewrite Hcount.
  - intros phase last b. cbn [enc_put base64_encoder]. unfold base64_put.
    repeat case_match; repeat constructor; by apply tbl_is_byte.
  - intros phase last. cbn [enc_finish base64_encoder]. unfold base64_finish.
    repeat case_match; repeat constructor; try done; by apply tbl_is_byte.
Qed.

(** The shifts and masks of the base32 switch, as arithmetic. *)
Definition base32_bits_check (a b : Z) : bool :=
  (Z.land (Z.shiftr a 3) 0x1f =? a / 8) &&
  (Z.land (Z.lor (Z.shiftl a 2) (Z.shiftr b 6)) 0x1f =? a mod 8 * 4 + b / 64) &&
  (Z.land (Z.shiftr a 1) 0x1f =? a / 2 mod 32) &&
  (Z.land (Z.lor (Z.shiftl a 4) (Z.shiftr b 4)) 0x1f =? a mod 2 * 16 + b / 16) &&
  (Z.land (Z.lor (Z.shiftl a 1) (Z.shiftr b 7)) 0x1f =? a mod 16 * 2 + b / 128) &&
  (Z.land (Z.shiftr a 2) 0x1f =? a / 4 mod 32) &&
  (Z.land (Z.lor (Z.shiftl a 3) (Z.shiftr b 5)) 0x1f =? a mod 4 * 8 + b / 32) &&
  (Z.land a 0x1f =? a mod 32).

Definition base32_last_check (a b : Z) : bool :=
  (Z.land (Z.shiftl a 2) 0x1c =? a mod 8 * 4) &&
  (Z.land (Z.shiftl a 4) 0x10 =? a mod 2 * 16) &&
  (Z.land (Z.shiftl a 1) 0x1e =? a mod 16 * 2) &&
  (Z.land (Z.shiftl a 3) 0x18 =? a mod 4 * 8).

Lemma base32_bits a b : is_byte a → is_byte b →
  Z.land (Z.shiftr a 3) 0x1f = a / 8 ∧
  Z.land (Z.lor (Z.shiftl a 2) (Z.shiftr b 6)) 0x1f = a mod 8 * 4 + b / 64 ∧
  Z.land (Z.shiftr a 1) 0x1f = a / 2 mod 32 ∧
  Z.land (Z.lor (Z.shiftl a 4) (Z.shiftr b 4)) 0x1f = a mod 2 * 16 + b / 16 ∧
  Z.land (Z.lor (Z.shiftl a 1) (Z.shiftr b 7)) 0x1f = a mod 16 * 2 + b / 128 ∧
  Z.land (Z.shiftr a 2) 0x1f = a / 4 mod 32 ∧
  Z.land (Z.lor (Z.shiftl a 3) (Z.shiftr b 5)) 0x1f = a mod 4 * 8 + b / 32 ∧
  Z.land a 0x1f = a mod 32.
Proof.
  intros Ha Hb. pose proof (all_byte_pairs base32_bits_check) as H.
  specialize (H ltac:(vm_compute; reflexivity) a b Ha Hb).
  unfold base32_bits_check in H. rewrite !andb_true_iff, !Z.eqb_eq in H. naive_solver.
Qed.

Lemma base32_last a : is_byte a →
  Z.land (Z.shiftl a 2) 0x1c = a mod 8 * 4 ∧ Z.land (Z.shiftl a 4) 0x10 = a mod 2 * 16 ∧
  Z.land (Z.shiftl a 1) 0x1e = a mod 16 * 2 ∧ Z.land (Z.shiftl a 3) 0x18 = a mod 4 * 8.
Proof.
  intros Ha. pose proof (all_byte_pairs base32_last_check) as H.
  specialize (H ltac:(vm_compute; reflexivity) a a Ha Ha).
  unfold base32_last_check in H. rewrite !andb_true_iff, !Z.eqb_eq in H. naive_solver.
Qed.

Section Base32.
Context (table decode : list Z) (table_size : Z).
Local Abbreviation d := (base32_decoder decode table_size).
Local Abbreviation e := (base32_encoder table).
Context `{!Alphabet d table}
        (Htable : forallb (λ b, (0 <=? b) && (b <? 256)) table = true).

Lemma base32_group x bs :
  zlen bs = 5 → Forall is_byte bs → x mod 2 ^ 40 = num 8 bs → group_bytes d x = bs.
Proof using.
  intros (a & b & c & f & g & ->)%list_len5 Hby Hx.
  apply Forall_cons in Hby as
    [Ha [Hb [Hc [Hf [Hg _]%Forall_cons]%Forall_cons]%Forall_cons]%Forall_cons].
  unfold group_bytes. cbn [dec_shifts base32_decoder map].
  rewrite (group_byte x _ 32 40 ltac:(done) ltac:(done) Hx),
    (group_byte x _ 24 40 ltac:(done) ltac:(done) Hx), (group_byte x _ 16 40 ltac:(done) ltac:(done) Hx),
    (group_byte x _ 8 40 ltac:(done) ltac:(done) Hx), (group_byte x _ 0 40 ltac:(done) ltac:(done) Hx).
  f_equal; [|f_equal; [|f_equal; [|f_equal; [|f_equal]]]]; digits.
Qed.

Lemma base32_full bs last count :
  count mod 5 = 0 → zlen bs = 5 → Forall is_byte bs →
  ∃ ts, enc_out e last count bs = map (char table) ts ∧ Forall (token_ok 5) ts ∧
    zlen ts = 8 ∧ pads ts = 0 ∧ num 5 (map value ts) = num 8 bs.
Proof using.
  intros Hcount (a & b & c & f & g & ->)%list_len5 Hby.
  apply Forall_cons in Hby as
    [Ha [Hb [Hc [Hf [Hg _]%Forall_cons]%Forall_cons]%Forall_cons]%Forall_cons].
  exists [Sym (a / 8); Sym (a mod 8 * 4 + b / 64); Sym (b / 2 mod 32); Sym (b mod 2 * 16 + c / 16);
          Sym (c mod 16 * 2 + f / 128); Sym (f / 4 mod 32); Sym (f mod 4 * 8 + g / 32);
          Sym (g mod 32)].
  cbn [enc_out enc_bytes enc_put base32_encoder]. rewrite <- !Z.add_assoc.
  rewrite Hcount, !(phase_add count 5) by lia. unfold base32_put. simpl app.
  destruct (base32_bits a b Ha Hb) as (-> & -> & _).
  destruct (base32_bits b c Hb Hc) as (_ & _ & -> & -> & _).
  destruct (base32_bits c f Hc Hf) as (_ & _ & _ & _ & -> & _).
  destruct (base32_bits f g Hf Hg) as (_ & _ & _ & _ & _ & -> & -> & _).
  destruct (base32_bits g g Hg Hg) as (_ & _ & _ & _ & _ & _ & _ & ->).
  split_and!; [done| |done|done|digits]. repeat constructor; digits.
Qed.

Lemma base32_part bs last count :
  count mod 5 = 0 → 0 < zlen bs < 5 → Forall is_byte bs →
  ∃ ts tail, enc_from e last count bs = map (char table) ts ∧ Forall (token_ok 5) ts ∧
    zlen ts = 8 ∧ 0 ≤ pads ts < 2 ^ 64 ∧ zlen (bs ++ tail) = 5 ∧ Forall is_byte tail ∧
    zlen tail = base32_unpad (pads ts) ∧ num 5 (map value ts) = num 8 (bs ++ tail) ∧
    Forall (eq 0) tail ∧
    ∃ ss np, ts = map Sym ss ++ replicate np Pad ∧ zlen ss = howmany (8 * zlen bs) 5.
Proof using.
  intros Hcount Hlen Hby.
  assert (zlen bs = 1 ∨ zlen bs = 2 ∨ zlen bs = 3 ∨ zlen bs = 4)
    as [(a & ->)%list_len1|[(a & b & ->)%list_len2|[(a & b & c & ->)%list_len3|
        (a & b & c & f & ->)%list_len4]]] by lia;
    repeat match goal with H : Forall is_byte (_ :: _) |- _ =>
      apply Forall_cons in H as [? ?] end;
    cbn [enc_from enc_bytes enc_put enc_finish base32_encoder];
    rewrite <- ?Z.add_assoc, Hcount, !(phase_add count 5) by lia;
    unfold base32_put, base32_finish; simpl app.
  - exists [Sym (a / 8); Sym (a mod 8 * 4); Pad; Pad; Pad; Pad; Pad; Pad], [0; 0; 0; 0].
    destruct (base32_bits a a) as (-> & _); [done..|].
    destruct (base32_last a) as (-> & _); [done|].
    split_and!; try done; [repeat constructor; digits|repeat constructor; digits|digits|
      by repeat constructor|by exists [a / 8; a mod 8 * 4], 6%nat].
  - exists [Sym (a / 8); Sym (a mod 8 * 4 + b / 64); Sym (b / 2 mod 32); Sym (b mod 2 * 16);
            Pad; Pad; Pad; Pad], [0; 0; 0].
    destruct (base32_bits a b) as (-> & -> & _); [done..|].
    destruct (base32_bits b b) as (_ & _ & -> & _); [done..|].
    destruct (base32_last b) as (_ & -> & _); [done|].
    split_and!; try done; [repeat constructor; digits|repeat constructor; digits|digits|
      by repeat constructor|by exists [a / 8; a mod 8 * 4 + b / 64; b / 2 mod 32; b mod 2 * 16], 4%nat].
  - exists [Sym (a / 8); Sym (a mod 8 * 4 + b / 64); Sym (b / 2 mod 32); Sym (b mod 2 * 16 + c / 16);
            Sym (c mod 16 * 2); Pad; Pad; Pad], [0; 0].
    destruct (base32_bits a b) as (-> & -> & _); [done..|].
    destruct (base32_bits b c) as (_ & _ & -> & -> & _); [done..|].
    destruct (base32_last c) as (_ & _ & -> & _); [done|].
    split_and!; try done; [repeat constructor; digits|repeat constructor; digits|digits|
      by repeat constructor|by exists [a / 8; a mod 8 * 4 + b / 64; b / 2 mod 32; b mod 2 * 16 + c / 16; c mod 16 * 2], 3%nat].
  - exists [Sym (a / 8); Sym (a mod 8 * 4 + b / 64); Sym (b / 2 mod 32); Sym (b mod 2 * 16 + c / 16);
            Sym (c mod 16 * 2 + f / 128); Sym (f / 4 mod 32); Sym (f mod 4 * 8); Pad], [0].
    destruct (base32_bits a b) as (-> & -> & _); [done..|].
    destruct (base32_bits b c) as (_ & _ & -> & -> & _); [done..|].
    destruct (base32_bits c f) as (_ & _ & _ & _ & -> & _); [done..|].
    destruct (base32_bits f f) as (_ & _ & _ & _ & _ & -> & _); [done..|].
    destruct (base32_last f) as (_ & _ & _ & ->); [done|].
    split_and!; try done; [repeat constructor; digits|repeat constructor; digits|digits|
      by repeat constructor|by exists [a / 8; a mod 8 * 4 + b / 64; b / 2 mod 32; b mod 2 * 16 + c / 16;
        c mod 16 * 2 + f / 128; f / 4 mod 32; f mod 4 * 8], 1%nat].
Qed.

Lemma base32_codec : Codec e d table.
Proof using Alphabet0 Htable.
  split; try done; try apply _.
  - intros x bs. apply base32_group.
  - intros bs last count. apply base32_full.
  - intros bs last count. apply base32_part.
  - intros last count Hcount. cbn [enc_finish enc_bytes base32_encoder] in *. by rewrite Hcount.
  - intros phase last b. cbn [enc_put base32_encoder]. unfold base32_put.
    repeat case_match; repeat constructor; by apply tbl_is_byte.
  - intros phase last. cbn [enc_finish base32_encoder]. unfold base32_finish.
    repeat case_match; repeat constructor; try done; by apply tbl_is_byte.
Qed.
End Base32.

#[export] Instance base32_std_codec :
  Codec (base32_encoder base32_encode_table)
        (base32_decoder base32_decode_table base32_decode_table_size) base32_encode_table :=
  base32_codec base32_encode_table base32_decode_table base32_decode_table_size eq_refl.
