(* ===== verification/DispatchDataAppend.v ===== *)
(** * Dispatch data objects: results built piece by piece

    The decoders of transform.c build their result by appending malloc'ed
    buffers to an object they own.  This file describes such an object
    ([building]), shows that it is a well-formed one with the bytes of its
    pieces, and that one release gives everything back. *)

From S2P Require Import Prelude DispatchData DispatchDataInv DispatchDataSpec.
From S2P Require Import DispatchDataMap DispatchTransform.
Import Data Transform.

(** A piece: the leaf, its block with its contents, and how many bytes of the
    block belong to the object. *)
Record piece := Piece { pc_loc : loc; pc_block : block; pc_data : list Z; pc_len : Z }.

Definition pc_bytes (c : piece) : list Z := zslice 0 (pc_len c) (pc_data c).
Definition pc_leaf (c : piece) : dispatch_data_s :=
  leaf_object (Ptr (pc_block c) 0) (pc_len c) DESTRUCTOR_FREE None.
Definition pc_record (c : piece) : range_record := RR (pc_loc c) 0 (pc_len c).
Definition piece_ok (c : piece) : Prop :=
  0 < pc_len c < 2 ^ 64 ∧ pc_len c ≤ zlen (pc_data c) ∧ Forall is_byte (pc_data c).
Definition pieces_object (cs : list piece) : dispatch_data_s :=
  composite (map pc_record cs) (sum_lengths (map pc_record cs)).
Definition pieces_bytes (cs : list piece) : list Z := concat (map pc_bytes cs).

(** The locations the result owns: its pieces, and the composite when there
    are several. *)
Definition composite_loc (cs : list piece) (rv : loc) : list loc :=
  match cs with _ :: _ :: _ => [rv] | _ => [] end.
Definition own_locs (cs : list piece) (rv : loc) : list loc :=
  composite_loc cs rv ++ map pc_loc cs.

(** [h] is [h0] with the object [rv] made of the pieces [cs] and, possibly, a
    pending buffer. *)
Record building (h0 h : heap) (cs : list piece) (rv : loc) (pend : option (block * list Z)) : Prop := {
  bld_pieces : Forall piece_ok cs;
  bld_size : sum_lengths (map pc_record cs) < 2 ^ 64;
  bld_rv : match cs with
           | [] => rv = dispatch_data_empty
           | [c] => rv = pc_loc c
           | _ => objs h !! rv = Some (pieces_object cs)
           end;
  bld_leaf : ∀ c, c ∈ cs → objs h !! pc_loc c = Some (pc_leaf c);
  bld_old : ∀ l, l ∉ own_locs cs rv → objs h !! l = objs h0 !! l;
  bld_new : ∀ l, l ∈ own_locs cs rv → objs h0 !! l = None;
  bld_nodup : NoDup (own_locs cs rv);
  bld_block : ∀ c, c ∈ cs → mem h !! pc_block c = Some (pc_data c);
  bld_pend : ∀ b bs, pend = Some (b, bs) → mem h !! b = Some bs ∧ Forall is_byte bs;
  bld_old_block : ∀ b, b ∉ from_option (λ p, [p.1]) [] pend ++ map pc_block cs →
                       mem h !! b = mem h0 !! b;
  bld_new_block : ∀ b, b ∈ from_option (λ p, [p.1]) [] pend ++ map pc_block cs → mem h0 !! b = None;
  bld_nodup_block : NoDup (from_option (λ p, [p.1]) [] pend ++ map pc_block cs);
  bld_events : events h = events h0;
  bld_next_loc : (next_loc h0 ≤ next_loc h)%positive ∧
                 ∀ l, l ∈ own_locs cs rv → (l < next_loc h)%positive;
  bld_next_block : (next_block h0 ≤ next_block h)%positive ∧
    ∀ b, b ∈ from_option (λ p, [p.1]) [] pend ++ map pc_block cs → (b < next_block h)%positive;
  bld_faults : malloc_fails h `suffix_of` malloc_fails h0;
}.

Lemma building_start h : building h h [] dispatch_data_empty None.
Proof.
  split; simpl; try done; try constructor; try (by intros ? ?%elem_of_nil); try lia.
Qed.

(** A heap is well-formed when it extends a well-formed one by well-formed
    objects. *)
Lemma wf_extend h0 h :
  wf h0 → extends h0 h →
  (∀ l o, objs h !! l = Some o → objs h0 !! l = Some o ∨
     (objs h0 !! l = None ∧ obj_ok h o ∧ counts_ok o)) →
  (∀ l o, objs h !! l = Some o → (l < next_loc h)%positive) →
  (∀ b bs, mem h !! b = Some bs → (b < next_block h)%positive ∧ Forall is_byte bs) →
  wf h.
Proof.
  intros Hwf Hext Hobj Hloc Hblk. split.
  - destruct (ext_obj _ _ Hext _ _ (wf_empty _ Hwf)) as (o & Ho & _).
    destruct (Hobj _ _ Ho) as [Ho0|[Ho0 _]]; rewrite (wf_empty _ Hwf) in Ho0; [|done].
    by injection Ho0 as <-.
  - intros l o Ho Hne. destruct (Hobj _ _ Ho) as [Ho0|[_ ?]]; [|done].
    destruct (wf_obj _ Hwf _ _ Ho0 Hne) as [Hok ?]. split; [|done].
    by apply (obj_ok_ext h0 h Hext o).
  - done.
  - intros b bs Hb. by apply (Hblk b bs).
  - intros b bs Hb. by apply (Hblk b bs).
Qed.

Section Building.
Context (h0 h : heap) (cs : list piece) (rv : loc) (pend : option (block * list Z)).
Context (Hwf0 : wf h0) (Hb : building h0 h cs rv pend).

Lemma building_old_obj l o : objs h0 !! l = Some o → objs h !! l = Some o.
Proof using Hb.
  intros Ho. rewrite (bld_old _ _ _ _ _ Hb); [done|].
  intros Hin. by rewrite (bld_new _ _ _ _ _ Hb _ Hin) in Ho.
Qed.

Lemma building_extends : extends h0 h.
Proof using Hb.
  split.
  - intros l o Ho. exists o. split; [by apply building_old_obj|by repeat split].
  - intros b bs Hbs. rewrite (bld_old_block _ _ _ _ _ Hb); [done|].
    intros Hin. by rewrite (bld_new_block _ _ _ _ _ Hb _ Hin) in Hbs.
Qed.

Lemma piece_load c : c ∈ cs → load (mem h) (Ptr (pc_block c) 0) (pc_len c) = Some (pc_bytes c).
Proof using Hb.
  intros Hc. pose proof (bld_pieces _ _ _ _ _ Hb) as Hcs. rewrite Forall_forall in Hcs.
  destruct (Hcs c Hc) as (? & ? & _). apply load_Some. exists (pc_data c). simpl.
  split_and!; [by apply (bld_block _ _ _ _ _ Hb)|lia|lia|lia|done].
Qed.

Lemma piece_leaf_ok c : c ∈ cs → leaf_ok h (pc_leaf c) ∧ leaf_bytes h (pc_leaf c) = pc_bytes c.
Proof using Hb.
  intros Hc. pose proof (piece_load c Hc) as Hload.
  assert (leaf_bytes h (pc_leaf c) = pc_bytes c) as Hbytes
    by (unfold leaf_bytes; simpl; by rewrite Hload).
  split; [|done]. pose proof (bld_pieces _ _ _ _ _ Hb) as Hcs. rewrite Forall_forall in Hcs.
  destruct (Hcs c Hc) as (? & _). split; [done|done|].
  exists (Ptr (pc_block c) 0). split; [done|]. by rewrite Hbytes.
Qed.

Lemma piece_not_empty c : c ∈ cs → pc_loc c ≠ dispatch_data_empty.
Proof using Hwf0 Hb.
  intros Hc E. pose proof (bld_new _ _ _ _ _ Hb (pc_loc c)) as Hnew.
  rewrite E, (wf_empty _ Hwf0) in Hnew. by discriminate Hnew; apply elem_of_app; right;
    rewrite <- E; apply list_elem_of_fmap_2.
Qed.

Lemma piece_rec_ok c : c ∈ cs → rec_ok h (pc_record c) ∧ rec_bytes h (pc_record c) = pc_bytes c.
Proof using Hwf0 Hb.
  intros Hc. destruct (piece_leaf_ok c Hc) as [Hl Hbytes].
  pose proof (bld_leaf _ _ _ _ _ Hb c Hc) as Ho. pose proof (leaf_size _ _ Hl) as Hs. simpl in Hs.
  split.
  - split_and!; simpl; [by apply piece_not_empty|lia|lia|]. exists (pc_leaf c).
    split_and!; [done|done|simpl; lia].
  - unfold rec_bytes. simpl. rewrite Ho, Hbytes. apply zslice_full.
    by rewrite <- Hbytes, leaf_bytes_zlen.
Qed.

Lemma pieces_recs : Forall (rec_ok h) (map pc_record cs) ∧
  map (rec_bytes h) (map pc_record cs) = map pc_bytes cs.
Proof using Hwf0 Hb.
  split.
  - apply Forall_map, Forall_forall. intros c Hc. by apply piece_rec_ok.
  - rewrite map_map. apply map_ext_in. intros c Hc%list_elem_of_In. by apply piece_rec_ok.
Qed.

Lemma own_obj_cases l : l ∈ own_locs cs rv →
  (∃ c, c ∈ cs ∧ l = pc_loc c) ∨ (l = rv ∧ objs h !! rv = Some (pieces_object cs) ∧ (1 < length cs)%nat).
Proof using Hb.
  intros [Hin|(c & -> & Hc)%list_elem_of_fmap]%elem_of_app; [|left; by exists c]. right.
  pose proof (bld_rv _ _ _ _ _ Hb) as Hrv. destruct cs as [|c1 [|c2 cs']]; simpl in Hin;
    try by apply elem_of_nil in Hin.
  apply list_elem_of_singleton in Hin as ->. simpl. split_and!; [done|done|lia].
Qed.

Lemma building_wf : records_fit (length cs) → wf h.
Proof using Hwf0 Hb.
  intros Hfit. apply (wf_extend h0); [done|apply building_extends|..].
  - intros l o Ho. destruct (decide (l ∈ own_locs cs rv)) as [Hin|Hnin].
    2:{ left. by rewrite <- (bld_old _ _ _ _ _ Hb). }
    right. split; [by apply (bld_new _ _ _ _ _ Hb)|].
    destruct (own_obj_cases l Hin) as [(c & Hc & ->)|(-> & Hrv & Hlen)].
    + rewrite (bld_leaf _ _ _ _ _ Hb c Hc) in Ho. injection Ho as <-.
      split; [left; by apply piece_leaf_ok|by split].
    + rewrite Hrv in Ho. injection Ho as <-. split; [right|by split].
      destruct pieces_recs as [Hrecs _]. pose proof (bld_size _ _ _ _ _ Hb).
      assert (map pc_record cs ≠ []) by (destruct cs; simpl in *; [lia|done]).
      split; simpl; try done; [|by rewrite length_map].
      split; [|done]. by apply (sum_lengths_pos h).
  - intros l o Ho. destruct (bld_next_loc _ _ _ _ _ Hb) as [Hle Hlt].
    destruct (decide (l ∈ own_locs cs rv)) as [Hin|Hnin]; [by apply Hlt|].
    rewrite (bld_old _ _ _ _ _ Hb) in Ho by done. apply (wf_loc _ Hwf0) in Ho. lia.
  - intros b bs Hbs. destruct (bld_next_block _ _ _ _ _ Hb) as [Hle Hlt].
    destruct (decide (b ∈ from_option (λ p, [p.1]) [] pend ++ map pc_block cs)) as [Hin|Hnin].
    + split; [by apply Hlt|]. apply elem_of_app in Hin as [Hin|(c & -> & Hc)%list_elem_of_fmap].
      * destruct pend as [[b' bs']|] eqn:Ep; [|by apply elem_of_nil in Hin].
        apply list_elem_of_singleton in Hin as ->. simpl in Hbs.
        destruct (bld_pend _ _ _ _ _ Hb b' bs' eq_refl) as [Hp ?]. by simplify_eq.
      * rewrite (bld_block _ _ _ _ _ Hb c Hc) in Hbs. injection Hbs as <-.
        pose proof (bld_pieces _ _ _ _ _ Hb) as Hcs. rewrite Forall_forall in Hcs. by apply Hcs.
    + rewrite (bld_old_block _ _ _ _ _ Hb) in Hbs by done.
      split; [|by apply (wf_bytes _ Hwf0) in Hbs]. apply (wf_block _ Hwf0) in Hbs. lia.
Qed.

Lemma building_bytes : live h rv ∧ data_bytes h rv = pieces_bytes cs.
Proof using Hwf0 Hb.
  destruct pieces_recs as [_ Hrb]. pose proof (bld_rv _ _ _ _ _ Hb) as Hrv.
  pose proof (bld_leaf _ _ _ _ _ Hb) as Hleaf. pose proof piece_leaf_ok as Hpl.
  pose proof (building_old_obj _ _ (wf_empty _ Hwf0)) as Hemp. clear Hb.
  unfold pieces_bytes, data_bytes, live. destruct cs as [|c [|c' cs']].
  - subst rv. rewrite Hemp. split; [by eexists|done].
  - subst rv. rewrite (Hleaf c) by set_solver. split; [by eexists|].
    simpl. rewrite app_nil_r. unfold obj_bytes. simpl. apply (Hpl c). set_solver.
  - rewrite Hrv. split; [by eexists|]. rewrite obj_bytes_comp by done.
    change (records (pieces_object ?x)) with (map pc_record x). by rewrite Hrb.
Qed.

(** The regions of the object are its pieces. *)
Lemma building_regions : regions h rv = map pc_bytes cs.
Proof using Hwf0 Hb.
  destruct pieces_recs as [Hok Hrb]. pose proof (bld_rv _ _ _ _ _ Hb) as Hrv.
  pose proof (bld_leaf _ _ _ _ _ Hb) as Hleaf. pose proof piece_leaf_ok as Hpl.
  pose proof (bld_pieces _ _ _ _ _ Hb) as Hps.
  pose proof (building_old_obj _ _ (wf_empty _ Hwf0)) as Hemp. clear Hb.
  unfold regions. destruct cs as [|c [|c' cs']].
  - subst rv. by rewrite Hemp.
  - subst rv. rewrite (Hleaf c) by set_solver. apply Forall_singleton in Hps as (Hlen & _).
    unfold obj_regions. simpl. destruct (Z.eqb_spec (pc_len c) 0); [lia|].
    destruct (Hpl c) as [_ E]; [set_solver|]. by rewrite <- E.
  - rewrite Hrv. unfold obj_regions. rewrite <- Hrb.
    assert (0 < sum_lengths (map pc_record (c :: c' :: cs'))) as Hpos by (by apply (sum_lengths_pos h)).
    change (size (pieces_object ?x)) with (sum_lengths (map pc_record x)).
    destruct (Z.eqb_spec (sum_lengths (map pc_record (c :: c' :: cs'))) 0); [lia|]. done.
Qed.

Lemma building_headroom n : n < INT_MAX → headroom h0 n → headroom h n.
Proof using Hb.
  intros Hn Hroom l o Ho Hne. destruct (decide (l ∈ own_locs cs rv)) as [Hin|Hnin].
  - destruct (own_obj_cases l Hin) as [(c & Hc & ->)|(-> & Hrv & _)].
    + rewrite (bld_leaf _ _ _ _ _ Hb c Hc) in Ho. by injection Ho as <-.
    + rewrite Hrv in Ho. by injection Ho as <-.
  - rewrite (bld_old _ _ _ _ _ Hb) in Ho by done. by apply (Hroom l).
Qed.
End Building.

(** ** The pending buffer *)

Lemma building_fresh_block h0 h cs rv pend :
  wf h0 → building h0 h cs rv pend →
  mem h0 !! next_block h = None ∧ next_block h ∉ from_option (λ p, [p.1]) [] pend ++ map pc_block cs.
Proof.
  intros Hwf Hb. destruct (bld_next_block _ _ _ _ _ Hb) as [Hle Hlt]. split.
  - destruct (mem h0 !! next_block h) eqn:E; [|done]. apply (wf_block _ Hwf) in E. lia.
  - intros Hin%Hlt. lia.
Qed.

Lemma building_malloc h0 h cs rv n :
  wf h0 → building h0 h cs rv None → malloc_succeeds h →
  ∃ h', malloc n h = Ok (Some (Ptr (next_block h) 0), h') ∧
        building h0 h' cs rv (Some (next_block h, replicate (Z.to_nat n) 0)).
Proof.
  intros Hwf Hb Hm. destruct (building_fresh_block _ _ _ _ _ Hwf Hb) as [Hn0 Hnin].
  eexists. split; [by apply malloc_eq|]. destruct Hb as [? ? ? ? ? ? ? Hblk ? Hold Hnew Hnd ? ? [? Hlt] Hf].
  simpl in *. split; simpl; try done.
  - intros c Hc. rewrite lookup_insert_ne; [by apply Hblk|]. intros E. destruct Hnin.
    rewrite E. by apply list_elem_of_fmap_2.
  - intros b bs [= <- <-]. rewrite lookup_insert_eq. split; [done|]. by apply Forall_replicate.
  - intros b [Hne Hb]%not_elem_of_cons. rewrite lookup_insert_ne by done. by apply Hold.
  - intros b [->|Hb]%elem_of_cons; [done|]. by apply Hnew.
  - by constructor.
  - split; [lia|]. intros b [->|Hb]%elem_of_cons; [lia|]. specialize (Hlt b Hb). lia.
  - etrans; [|exact Hf]. destruct (malloc_fails h) as [|f fs]; [done|by exists [f]].
Qed.

Lemma building_write h0 h cs rv b bs bs' :
  building h0 h cs rv (Some (b, bs)) → Forall is_byte bs' →
  building h0 (set_mem (<[b := bs']>) h) cs rv (Some (b, bs')).
Proof.
  intros Hb Hbs'. destruct Hb as [? ? ? ? ? ? ? Hblk Hp Hold Hnew Hnd ? ? [? Hlt] ?].
  simpl in *. apply NoDup_cons in Hnd as [Hnin Hnd]. split; simpl; try done.
  - intros c Hc. rewrite lookup_insert_ne; [by apply Hblk|]. intros E. destruct Hnin.
    rewrite E. by apply list_elem_of_fmap_2.
  - intros ? ? [= <- <-]. by rewrite lookup_insert_eq.
  - intros b' [Hne Hb']%not_elem_of_cons. rewrite lookup_insert_ne by done.
    apply Hold. by apply not_elem_of_cons.
  - by constructor.
Qed.

Lemma building_free h0 h cs rv b bs :
  building h0 h cs rv (Some (b, bs)) →
  free (Some (Ptr b 0)) h = Ok (tt, set_mem (delete b) h) ∧
  building h0 (set_mem (delete b) h) cs rv None.
Proof.
  intros Hb. destruct (bld_pend _ _ _ _ _ Hb b bs eq_refl) as [Hbs _]. split.
  { simpl. unfold free_block. by rewrite Hbs. }
  destruct Hb as [? ? ? ? ? ? ? Hblk _ Hold Hnew Hnd ? ? [? Hlt] ?].
  simpl in *. apply NoDup_cons in Hnd as [Hnin Hnd]. split; simpl; try done.
  - intros c Hc. rewrite lookup_delete_ne; [by apply Hblk|]. intros E. destruct Hnin.
    rewrite E. by apply list_elem_of_fmap_2.
  - intros b' Hb'. rewrite lookup_delete. case_decide as E.
    + subst b'. symmetry. apply Hnew. by left.
    + apply Hold. by apply not_elem_of_cons.
  - intros b' Hb'. apply Hnew. by right.
  - split; [done|]. intros b' Hb'. apply Hlt. by right.
Qed.

(** ** Giving the result back *)

Lemma release_pieces h cs :
  Forall (λ c, objs h !! pc_loc c = Some (pc_leaf c) ∧ mem h !! pc_block c = Some (pc_data c)) cs →
  NoDup (map pc_loc cs) → NoDup (map pc_block cs) →
  for_M (map pc_loc cs) (dispatch_release_fuel 1) h =
  Ok (tt, set_objs (λ m, foldr (λ c, delete (pc_loc c)) m cs)
            (set_mem (λ m, foldr (λ c, delete (pc_block c)) m cs) h)).
Proof.
  revert h. induction cs as [|c cs IH]; intros h Hcs Hn1 Hn2.
  { simpl. rewrite ret_eq. by destruct h. }
  apply Forall_cons in Hcs as [[Ho Hm] Hcs]. simpl in Hn1, Hn2.
  apply NoDup_cons in Hn1 as [Hnin1 Hn1]. apply NoDup_cons in Hn2 as [Hnin2 Hn2].
  cbn [map for_M].
  erewrite bind_Ok; [|by apply (release_leaf_free 0 h (pc_loc c) (pc_leaf c) (pc_block c)); [..|eexists]].
  rewrite IH; [|..|done|done].
  - do 2 f_equal. unfold set_objs, set_mem. simpl. f_equal.
    + clear. induction cs as [|x cs IH]; [done|]. simpl. by rewrite IH, delete_delete.
    + clear. induction cs as [|x cs IH]; [done|]. simpl. by rewrite IH, delete_delete.
  - rewrite Forall_forall in Hcs |- *. intros x Hx. destruct (Hcs x Hx) as [Hox Hmx]. simpl.
    rewrite !lookup_delete_ne; [done| |].
    + intros E. destruct Hnin2. rewrite E. by apply list_elem_of_fmap_2.
    + intros E. destruct Hnin1. rewrite E. by apply list_elem_of_fmap_2.
Qed.

Lemma lookup_foldr_delete {A B} (f : B → positive) cs (m : gmap positive A) l :
  foldr (λ c, delete (f c)) m cs !! l = if decide (l ∈ map f cs) then None else m !! l.
Proof.
  induction cs as [|c cs IH]; [done|]. simpl. rewrite lookup_delete.
  destruct (decide (f c = l)) as [<-|E]; [rewrite decide_True; [done|left]|].
  rewrite IH. repeat case_decide; set_solver.
Qed.

(** Disposal of a composite whose leaves nobody else holds. *)
Lemma release_pieces_object h cs rv :
  objs h !! rv = Some (pieces_object cs) → cs ≠ [] → NoDup (rv :: map pc_loc cs) →
  Forall (λ c, objs h !! pc_loc c = Some (pc_leaf c) ∧ mem h !! pc_block c = Some (pc_data c)) cs →
  NoDup (map pc_block cs) →
  dispatch_release rv h =
  Ok (tt, set_objs (λ m, delete rv (foldr (λ c, delete (pc_loc c)) m cs))
            (set_mem (λ m, foldr (λ c, delete (pc_block c)) m cs) h)).
Proof.
  intros Ho Hne [Hnin Hn1]%NoDup_cons Hcs Hn2. unfold dispatch_release, DATA_DEPTH.
  rewrite (release_last _ _ _ _ Ho eq_refl eq_refl).
  set (o1 := with_ref _ _). set (h1 := set_objs _ h).
  assert (objs h1 !! rv = Some o1) as Ho1 by (simpl; by rewrite lookup_insert_eq).
  unfold _dispatch_dispose, _dispatch_data_dispose. mget Ho1. unfold mbind, M_bind.
  unfold get_obj at 1. rewrite Ho1. unfold _dispatch_data_leaf.
  change (records o1) with (map pc_record cs). change (buf o1) with (@None ptr).
  assert (map pc_record cs ≠ []) as Hrne by (by destruct cs).
  destruct (map pc_record cs) as [|r rs] eqn:Er; [done|]. rewrite <- Er.
  rewrite <- (for_M_map data_object). rewrite map_map.
  change (map (λ x, data_object (pc_record x)) cs) with (map pc_loc cs).
  rewrite release_pieces; [|..|done|done].
  - simpl. unfold _dispatch_object_dealloc, get_obj, mbind, M_bind, modify. simpl.
    rewrite lookup_foldr_delete, decide_False by done. rewrite lookup_insert_eq. simpl.
    unfold mret, M_ret. do 2 f_equal. unfold set_objs, set_mem. simpl. f_equal.
    apply map_eq. intros l. rewrite !lookup_delete. case_decide; [done|].
    rewrite !lookup_foldr_delete. case_decide; [done|]. by rewrite lookup_insert_ne.
  - rewrite Forall_forall in Hcs |- *. intros x Hx. destruct (Hcs x Hx) as [Hox Hmx].
    split; [|done]. simpl. rewrite lookup_insert_ne; [done|]. intros ->. destruct Hnin.
    by apply list_elem_of_fmap_2.
Qed.

Lemma building_owned h0 h cs rv :
  wf h0 → building h0 h cs rv None → owned h0 h rv.
Proof.
  intros Hwf Hb. pose proof (building_bytes _ _ _ _ _ Hwf Hb) as [_ _].
  pose proof (building_old_obj _ _ _ _ _ Hb _ _ (wf_empty _ Hwf)) as Hemp.
  destruct Hb as [_ _ Hrv Hleaf Hold Hnew Hnd Hblk _ Holdb Hnewb Hndb Hev [Hl _] [Hbk _] Hf].
  simpl in *. unfold own_locs in *.
  assert (∀ objs' mem', objs' = objs h0 → mem' = mem h0 →
            restored h0 (Heap objs' mem' (next_loc h) (next_block h) (malloc_fails h) (events h)))
    as Hres by (intros ? ? -> ->; by split).
  destruct cs as [|c [|c' cs']]; simpl in Hrv.
  - subst rv. split; [done|]. eexists. split.
    + cbn [dispatch_release DATA_DEPTH dispatch_release_fuel]. mget Hemp. done.
    + split; try done; apply map_eq; intros i; [apply Hold|apply Holdb]; apply not_elem_of_nil.
  - subst rv. pose proof (Hleaf c ltac:(set_solver)) as Ho.
    assert (objs h0 !! pc_loc c = None) as Hn0 by (apply Hnew; set_solver).
    assert (mem h0 !! pc_block c = None) as Hm0 by (apply Hnewb; set_solver).
    split; [intros _; unfold count_of; by rewrite Ho, Hn0|].
    eexists. split.
    + apply (release_leaf_free 1 h _ (pc_leaf c) (pc_block c)); try done. rewrite Hblk by set_solver. by eexists.
    + apply Hres; simpl; apply map_eq; intros i; rewrite lookup_delete; case_decide as E; subst; try done;
        [apply Hold|apply Holdb]; set_solver.
  - set (cs := c :: c' :: cs') in *.
    assert (objs h0 !! rv = None) as Hn0 by (apply Hnew; left).
    split; [intros _; unfold count_of; by rewrite Hrv, Hn0|].
    eexists. split.
    + apply (release_pieces_object h cs rv); try done. apply Forall_forall. intros x Hx.
      split; [by apply Hleaf|by apply Hblk].
    + apply Hres; cbn [objs mem set_objs set_mem]; apply map_eq; intros i.
      * rewrite lookup_delete. case_decide as E; [by subst|]. rewrite lookup_foldr_delete.
        case_decide as Hi; [symmetry; apply Hnew; by right|].
        apply Hold. simpl. apply not_elem_of_cons. by split.
      * rewrite lookup_foldr_delete. case_decide as Hi; [symmetry; by apply Hnewb|]. by apply Holdb.
Qed.

(** ** Appending the pending buffer *)

Lemma retain_release_any h l :
  wf h → live h l → headroom h 1 →
  ∃ h', dispatch_retain l h = Ok (tt, h') ∧ dispatch_release l h' = Ok (tt, h).
Proof.
  intros Hwf [o Ho] Hroom. destruct (decide (l = dispatch_data_empty)) as [->|Hne].
  { exists h. split; [by apply retain_empty|by apply (release_empty 1)]. }
  destruct (wf_obj _ Hwf _ _ Ho Hne) as [_ [_ H0]]. pose proof (Hroom _ _ Ho Hne).
  eexists. split; [apply (retain_ok _ _ o); [done|lia|lia]|].
  unfold dispatch_release, DATA_DEPTH.
  rewrite (release_alive 1 _ _ (with_xref o (do_xref_cnt o + 1))).
  - do 2 f_equal. unfold set_objs. simpl. rewrite bump_bump, bump_0 by (intros; lia).
    by destruct h.
  - simpl. rewrite lookup_bump, Ho. simpl. unfold one. by rewrite decide_True.
  - simpl. lia.
Qed.

(** Concatenation with the empty object on either side gives a second
    reference to the other one. *)
Lemma concat_empty_r h l :
  wf h → live h l → headroom h 1 →
  ∃ h', dispatch_data_create_concat l dispatch_data_empty h = Ok (Some l, h') ∧
        dispatch_release dispatch_data_empty h' = Ok (tt, h') ∧ dispatch_release l h' = Ok (tt, h).
Proof.
  intros Hwf Hl Hroom. pose proof Hl as [o Ho].
  destruct (retain_spec _ _ Hwf Hl Hroom) as (h1 & E1 & Hwf1 & _).
  destruct (retain_release_any _ _ Hwf Hl Hroom) as (h' & E & Er). rewrite E in E1.
  injection E1 as <-. unfold dispatch_data_create_concat. mget Ho. mget (wf_empty _ Hwf).
  destruct (size o =? 0) eqn:Es.
  - assert (l = dispatch_data_empty) as ->.
    { apply dec_stable. intros Hne. destruct (wf_obj _ Hwf _ _ Ho Hne) as [[Hk|Hk] _]; destruct Hk; lia. }
    exists h'. mstep E. split_and!; [done|by apply (release_empty 1)|done].
  - exists h'. simpl. mstep E. split_and!; [done|by apply (release_empty 1)|done].
Qed.

Lemma concat_empty_l h l :
  wf h → live h l → headroom h 1 →
  ∃ h', dispatch_data_create_concat dispatch_data_empty l h = Ok (Some l, h') ∧
        dispatch_release l h' = Ok (tt, h) ∧
        dispatch_release dispatch_data_empty h = Ok (tt, h).
Proof.
  intros Hwf Hl Hroom. pose proof Hl as [o Ho].
  destruct (retain_release_any _ _ Hwf Hl Hroom) as (h' & E & Er).
  unfold dispatch_data_create_concat. mget (wf_empty _ Hwf). mget Ho. simpl.
  exists h'. mstep E. split_and!; [done|done|by apply (release_empty 1)].
Qed.

(** Nothing to append: the buffer is freed and the result stays. *)
Lemma append_nothing h0 h cs rv b bs :
  wf h0 → building h0 h cs rv (Some (b, bs)) → records_fit (length cs) → headroom h0 1 →
  append_buffer rv (Ptr b 0) 0 h = Ok (rv, set_mem (delete b) h) ∧
  building h0 (set_mem (delete b) h) cs rv None.
Proof.
  intros Hwf0 Hb Hfit Hroom. destruct (building_free _ _ _ _ _ _ Hb) as [Ef Hb'].
  set (h1 := set_mem (delete b) h) in *. split; [|done].
  pose proof (building_wf _ _ _ _ _ Hwf0 Hb' Hfit) as Hwf1.
  destruct (building_bytes _ _ _ _ _ Hwf0 Hb') as [Hl _].
  pose proof (building_headroom _ _ _ _ _ Hb' 1 ltac:(done) Hroom) as Hroom1.
  destruct (concat_empty_r h1 rv Hwf1 Hl Hroom1) as (h2 & E1 & E2 & E3).
  unfold append_buffer, dispatch_data_create. rewrite Z.eqb_refl.
  assert ((_dispatch_data_destroy_buffer (Some (Ptr b 0)) 0 None DESTRUCTOR_FREE ≫=
           λ _, mret (Some dispatch_data_empty)) h = Ok (Some dispatch_data_empty, h1)) as E0.
  { unfold _dispatch_data_destroy_buffer. by mstep Ef. }
  mstep E0. unfold nonnull. rewrite (bind_Ok _ _ _ _ _ (ret_eq _ h1)).
  mstep E1. rewrite (bind_Ok _ _ _ _ _ (ret_eq _ h2)). mstep E2. by mstep E3.
Qed.

(** The heap after the buffer has become a leaf. *)
Lemma building_fresh_loc h0 h cs rv pend :
  wf h0 → building h0 h cs rv pend →
  objs h0 !! next_loc h = None ∧ next_loc h ∉ own_locs cs rv.
Proof.
  intros Hwf Hb. destruct (bld_next_loc _ _ _ _ _ Hb) as [Hle Hlt]. split.
  - destruct (objs h0 !! next_loc h) eqn:E; [|done]. apply (wf_loc _ Hwf) in E. lia.
  - intros Hin%Hlt. lia.
Qed.

Lemma append_first h0 h rv b bs n :
  wf h0 → building h0 h [] rv (Some (b, bs)) → headroom h0 1 →
  0 < n < 2 ^ 64 → n ≤ zlen bs →
  let h1 := leaf_heap h (Ptr b 0) n DESTRUCTOR_FREE None in
  append_buffer rv (Ptr b 0) n h = Ok (next_loc h, h1) ∧
  building h0 h1 [Piece (next_loc h) b bs n] (next_loc h) None.
Proof.
  intros Hwf0 Hb Hroom Hn Hle. destruct (building_fresh_loc _ _ _ _ _ Hwf0 Hb) as [Hfr _].
  pose proof (bld_rv _ _ _ _ _ Hb) as Hrv. simpl in Hrv. subst rv.
  destruct (bld_pend _ _ _ _ _ Hb b bs eq_refl) as [Hbs Hby].
  set (c := Piece (next_loc h) b bs n). set (h1 := leaf_heap h (Ptr b 0) n DESTRUCTOR_FREE None) in *.
  assert (building h0 h1 [c] (next_loc h) None) as Hb1.
  { destruct Hb as [_ _ _ _ Hold Hnew _ _ _ Holdb Hnewb Hndb ? [? ?] [? Hltb] ?]. simpl in *.
    split; simpl; try done.
    - apply Forall_singleton. split_and!; simpl; done || lia.
    - lia.
    - intros x ->%list_elem_of_singleton. by rewrite lookup_insert_eq.
    - intros l Hl. rewrite lookup_insert_ne by set_solver. apply Hold, not_elem_of_nil.
    - intros l ->%list_elem_of_singleton. done.
    - apply NoDup_singleton.
    - by intros x ->%list_elem_of_singleton.
    - split; [lia|]. intros l ->%list_elem_of_singleton. simpl. lia. }
  pose proof (building_wf _ _ _ _ _ Hwf0 Hb1 ltac:(done)) as Hwf1.
  destruct (building_bytes _ _ _ _ _ Hwf0 Hb1) as [Hl _].
  pose proof (building_headroom _ _ _ _ _ Hb1 1 ltac:(done) Hroom) as Hroom1.
  destruct (concat_empty_l h1 (next_loc h) Hwf1 Hl Hroom1) as (h2 & E1 & E2 & E3).
  split; [|done]. unfold append_buffer.
  erewrite bind_Ok; [|apply data_create_eq; [lia|done]]. unfold nonnull.
  rewrite (bind_Ok _ _ _ _ _ (ret_eq _ h1)). mstep E1.
  rewrite (bind_Ok _ _ _ _ _ (ret_eq _ h2)). mstep E2. by mstep E3.
Qed.

Lemma building_top h0 h cs rv pend :
  building h0 h cs rv pend → (1 < length cs)%nat →
  objs h !! rv = Some (pieces_object cs) ∧ composite_loc cs rv = [rv].
Proof.
  intros Hb Hlen. pose proof (bld_rv _ _ _ _ _ Hb) as Hrv.
  destruct cs as [|c [|c' cs']]; simpl in Hlen; [lia|lia|done].
Qed.

Lemma count_app ls ls' l : count (ls ++ ls') l = count ls l + count ls' l.
Proof. induction ls as [|x ls IH]; simpl; [done|]. rewrite IH. lia. Qed.

Lemma count_nodup ls l : NoDup ls → l ∈ ls → count ls l = 1.
Proof.
  induction 1 as [|x ls Hx Hnd IH]; intros Hin; [by apply elem_of_nil in Hin|]. simpl.
  apply elem_of_cons in Hin as [->|Hin].
  - unfold one. rewrite decide_True by done. by rewrite (count_not_in ls x).
  - unfold one. rewrite decide_False; [by rewrite IH|]. by intros ->.
Qed.

(** Concatenation of two objects that are not empty. *)
Lemma concat_eq h dd1 dd2 o1 o2 :
  objs h !! dd1 = Some o1 → objs h !! dd2 = Some o2 → size o1 ≠ 0 → size o2 ≠ 0 →
  0 ≤ size o1 + size o2 < 2 ^ 64 →
  Z.of_nat (_dispatch_data_num_records o1) + Z.of_nat (_dispatch_data_num_records o2) ≤ SIZE_T_MAX →
  dispatch_data_create_concat dd1 dd2 h =
  alloc_composite (records_of dd1 o1 ++ records_of dd2 o2) (size o1 + size o2) h.
Proof.
  intros Ho1 Ho2 Hs1 Hs2 Hs Hn. unfold dispatch_data_create_concat. mget Ho1. mget Ho2.
  destruct (size o1 =? 0) eqn:?; [lia|]. destruct (size o2 =? 0) eqn:?; [lia|].
  destruct (_ >? SIZE_T_MAX) eqn:E; [rewrite Z.gtb_lt in E; lia|]. by rewrite wrapu_small.
Qed.

Section More.
Context (h0 h : heap) (cs : list piece) (rv : loc) (b : block) (bs : list Z) (n : Z).
Context (Hwf0 : wf h0) (Hb : building h0 h cs rv (Some (b, bs))) (Hne : cs ≠ [])
        (Hn : 0 < n < 2 ^ 64) (Hle : n ≤ zlen bs)
        (Hsum : sum_lengths (map pc_record cs) + n < 2 ^ 64)
        (Hfit : records_fit (length cs + 1))
        (Hroom : headroom h0 (zlen cs + 1)) (Hmax : zlen cs + 1 < INT_MAX).

Local Abbreviation v := (Piece (next_loc h) b bs n).
Local Abbreviation lv := (next_loc h).
Local Abbreviation lc := (Pos.succ (next_loc h)).
Local Abbreviation h1 := (leaf_heap h (Ptr b 0) n DESTRUCTOR_FREE None).
Local Abbreviation recs := (map pc_record (cs ++ [v])).
Local Abbreviation total := (sum_lengths (map pc_record cs) + n).
Local Abbreviation h2 := (composite_heap h1 recs total).

Lemma more_wf : wf h.
Proof using Hwf0 Hb Hfit.
  eapply building_wf; [done..|]. eapply records_fit_le; [|exact Hfit]. lia.
Qed.

Lemma more_load : load (mem h) (Ptr b 0) n = Some (zslice 0 n bs).
Proof using Hb Hn Hle.
  destruct (bld_pend _ _ _ _ _ Hb b bs eq_refl) as [Hbs _]. apply load_Some.
  exists bs. simpl. split_and!; done || lia.
Qed.

Lemma more_wf1 : wf h1.
Proof using Hwf0 Hb Hn Hle Hfit. eapply wf_leaf; [apply more_wf|done|apply more_load]. Qed.

Lemma more_objs l o : objs h !! l = Some o → objs h1 !! l = Some o ∧ l ≠ lv ∧ l ≠ lc.
Proof using Hwf0 Hb Hfit.
  intros Ho. pose proof (wf_loc _ more_wf _ _ Ho). simpl.
  rewrite lookup_insert_ne by lia. split_and!; [done|lia|lia].
Qed.

Lemma more_recs : Forall (rec_ok h1) recs.
Proof using Hwf0 Hb Hn Hle Hfit.
  rewrite map_app. apply Forall_app. split.
  - eapply Forall_impl; [by eapply pieces_recs|].
    intros r. apply rec_ok_ext, extends_leaf, more_wf.
  - apply Forall_singleton. split_and!; simpl; [|lia|lia|].
    + apply (fresh_not_empty h more_wf).
    + exists (leaf_object (Ptr b 0) n DESTRUCTOR_FREE None). rewrite lookup_insert_eq.
      split_and!; [done| |simpl; lia]. eapply leaf_object_ok; [done|apply more_load].
Qed.

Lemma more_locs : map data_object recs = map pc_loc cs ++ [lv].
Proof using. rewrite map_map, map_app. done. Qed.

Lemma more_nodup : NoDup (composite_loc cs rv ++ map pc_loc cs ++ [lv]) ∧
  lc ∉ composite_loc cs rv ++ map pc_loc cs ++ [lv].
Proof using Hb.
  destruct (bld_next_loc _ _ _ _ _ Hb) as [_ Hlt]. pose proof (bld_nodup _ _ _ _ _ Hb) as Hnd.
  unfold own_locs in *. split.
  - rewrite app_assoc. apply NoDup_app. split_and!; [done| |apply NoDup_singleton].
    intros l Hl ->%list_elem_of_singleton. specialize (Hlt _ Hl). lia.
  - rewrite app_assoc, elem_of_app. intros [Hin|Hin%list_elem_of_singleton]; [|lia].
    specialize (Hlt _ Hin). lia.
Qed.

Lemma more_nodup_locs : NoDup (map data_object recs).
Proof using Hb. rewrite more_locs. destruct more_nodup as [H _]. by apply NoDup_app in H as (_ & _ & ?). Qed.

Lemma more_headroom : headroom h1 (zlen recs).
Proof using Hb Hroom Hmax.
  intros l o Ho Hl. rewrite zlen_map, zlen_app. change (zlen [v]) with 1. simpl in Ho.
  rewrite lookup_insert in Ho. case_decide; [injection Ho as <-; done|].
  by apply (building_headroom _ _ _ _ _ Hb _ Hmax Hroom l).
Qed.

Lemma more_concat : dispatch_data_create_concat rv lv h1 = Ok (Some lc, h2).
Proof using Hwf0 Hb Hne Hn Hle Hsum Hfit Hroom Hmax.
  assert (∃ o1, objs h !! rv = Some o1 ∧ records_of rv o1 = map pc_record cs ∧
            size o1 = sum_lengths (map pc_record cs) ∧
            _dispatch_data_num_records o1 = length cs) as (o1 & Ho1 & Hr1 & Hs1 & Hn1).
  { pose proof (bld_rv _ _ _ _ _ Hb) as Hrv. pose proof (bld_leaf _ _ _ _ _ Hb) as Hleaf.
    destruct cs as [|c [|c' cs']]; [done| |].
    - subst rv. exists (pc_leaf c). split_and!; try done; [apply Hleaf; set_solver|simpl; lia].
    - exists (pieces_object (c :: c' :: cs')). split_and!; try done.
      unfold _dispatch_data_num_records. simpl. by rewrite length_map. }
  destruct (more_objs _ _ Ho1) as (Ho1' & _ & _).
  destruct (pieces_recs _ _ _ _ _ Hwf0 Hb) as [Hprecs _].
  assert (0 < sum_lengths (map pc_record cs)) as Hpos.
  { apply (sum_lengths_pos h); [by destruct cs|done]. }
  assert (objs h1 !! lv = Some (leaf_object (Ptr b 0) n DESTRUCTOR_FREE None)) as Hov
    by (simpl; by rewrite lookup_insert_eq).
  unfold records_fit, SIZEOF_RANGE_RECORD, SIZEOF_DISPATCH_DATA_S in Hfit.
  rewrite (concat_eq _ _ _ o1 _ Ho1' Hov); rewrite ?Hs1, ?Hn1; simpl size; try lia.
  2:{ change (_dispatch_data_num_records (leaf_object _ _ _ _)) with 1%nat. lia. }
  rewrite Hr1. change (records_of lv _) with (map pc_record [v]). rewrite <- map_app.
  apply (alloc_composite_eq h1 recs total).
  - apply more_wf1.
  - apply more_recs.
  - rewrite map_app. by destruct (map pc_record cs).
  - unfold records_fit, SIZEOF_RANGE_RECORD, SIZEOF_DISPATCH_DATA_S.
    rewrite length_map, length_app. simpl length. lia.
  - apply more_headroom.
Qed.

Lemma more_count l : l ∈ map data_object recs → count (map data_object recs) l = 1.
Proof using Hb. apply count_nodup, more_nodup_locs. Qed.

(** A piece's leaf once the new composite holds it. *)
Lemma more_leaf l o : objs h1 !! l = Some o → l ∈ map data_object recs →
  objs h2 !! l = Some (with_xref o (do_xref_cnt o + 1)).
Proof using Hb.
  intros Ho Hin. unfold composite_heap. cbn [objs]. rewrite lookup_insert_ne.
  - rewrite lookup_bump, Ho. cbn [fmap option_fmap option_map]. by rewrite more_count.
  - intros <-. destruct more_nodup as [_ Hnin]. rewrite more_locs in Hin.
    destruct Hnin. apply elem_of_app. by right.
Qed.

Definition more_heap : heap :=
  Heap (<[lc := composite recs total]> (foldr delete (objs h1) (composite_loc cs rv)))
       (mem h) (Pos.succ lc) (next_block h) (malloc_fails h) (events h).

(** The new leaf's own reference, then the old result's, go away. *)
Lemma more_release_v :
  dispatch_release lv h2 = Ok (tt, set_objs (bump (λ l, - one lv l)) h2).
Proof using Hb.
  assert (objs h1 !! lv = Some (pc_leaf v)) as Hov by (simpl; by rewrite lookup_insert_eq).
  apply (release_alive 1 _ _ _ (more_leaf _ _ Hov
           ltac:(rewrite more_locs; apply elem_of_app; right; by left))). done.
Qed.

Local Abbreviation h3 := (set_objs (bump (λ l, - one lv l)) h2).

Lemma more_leaf3 c : c ∈ cs → objs h3 !! pc_loc c = Some (with_xref (pc_leaf c) 1).
Proof using Hwf0 Hb Hfit.
  intros Hc. destruct (more_objs _ _ (bld_leaf _ _ _ _ _ Hb c Hc)) as (Ho & Hlv & _).
  cbn [objs set_objs]. rewrite lookup_bump, (more_leaf _ _ Ho).
  - cbn [fmap option_fmap option_map]. unfold one. by rewrite decide_False.
  - rewrite more_locs. apply elem_of_app. left. by apply list_elem_of_fmap_2.
Qed.

(** Net effect of the retains and releases on the counts. *)
Lemma more_net (f : loc → Z) :
  (∀ l, f l = - count (map pc_loc cs) l) → f lc = 0 →
  bump f (objs h3) = <[lc := composite recs total]> (objs h1).
Proof using Hb.
  intros Hf Hlc. unfold set_objs, composite_heap. cbn [objs].
  destruct more_nodup as [_ Hnin].
  assert (lc ≠ lv) by lia.
  rewrite !bump_insert; [|done|unfold one; by rewrite decide_False].
  f_equal. rewrite !bump_bump. apply bump_0. intros l _. rewrite more_locs, count_app, Hf. simpl. lia.
Qed.

Lemma more_release_rv : dispatch_release rv h3 = Ok (tt, more_heap).
Proof using Hwf0 Hb Hne Hn Hle Hsum Hfit Hroom Hmax.
  pose proof (bld_rv _ _ _ _ _ Hb) as Hrv. destruct more_nodup as [Hnd Hnin].
  pose proof more_leaf3 as Hleaf. pose proof more_net as Hnet. unfold more_heap.
  assert (∀ c, c ∈ cs → pc_loc c ≠ lc) as Hclc.
  { intros c Hc E. destruct Hnin. rewrite <- E, !elem_of_app. right. left. by apply list_elem_of_fmap_2. }
  assert ((1 < length cs)%nat → objs h3 !! rv = Some (pieces_object cs) ∧ rv ≠ lc ∧
          rv ∉ map pc_loc cs) as Htop.
  { intros Hlen. destruct (building_top _ _ _ _ _ Hb Hlen) as [Htop Hcl].
    destruct (more_objs _ _ Htop) as (Ho & Hlv & Hlc).
    rewrite Hcl in Hnd. cbn [app] in Hnd. apply NoDup_cons in Hnd as [Hr _].
    rewrite elem_of_app in Hr. split_and!; [|done|by intros ?; destruct Hr; left].
    cbn [objs set_objs]. rewrite lookup_bump. unfold composite_heap. cbn [objs].
    rewrite lookup_insert_ne by done. rewrite lookup_bump, Ho. cbn [fmap option_fmap option_map].
    rewrite more_locs, count_not_in by (by rewrite elem_of_app). unfold one. by rewrite decide_False. }
  pose proof Hne as Hne'. clear Hne. destruct cs as [|c [|c' cs']] eqn:Ecs; [done| |].
  - subst rv. unfold dispatch_release, DATA_DEPTH.
    rewrite (release_alive 1 _ _ _ (Hleaf c ltac:(set_solver))) by done.
    do 2 f_equal. unfold set_objs at 1. cbn [objs set_objs composite_loc foldr]. f_equal.
    apply Hnet; [intros l; simpl; lia|]. unfold one. rewrite decide_False; [done|].
    apply Hclc. set_solver.
  - rewrite <- Ecs in *. destruct Htop as (Ho & Hlc & Hr); [rewrite Ecs; simpl; lia|].
    assert (map data_object (records (pieces_object cs)) = map pc_loc cs) as Hl
      by (simpl; by rewrite map_map).
    rewrite (release_composite h3 rv _ Ho); rewrite ?Hl; try done.
    + do 2 f_equal. pose proof (Hnet (λ l, - count (map pc_loc cs) l)) as E.
      cbn [objs set_objs] in E. unfold set_objs at 1. cbn [objs set_objs]. f_equal. rewrite E; [|done|].
      * rewrite Ecs. cbn [composite_loc foldr]. by rewrite delete_insert_ne.
      * rewrite count_not_in; [done|]. intros (x & ? & Hx)%list_elem_of_fmap. by destruct (Hclc x Hx).
    + by rewrite Ecs.
    + intros l (x & -> & Hx)%list_elem_of_fmap. rewrite (Hleaf x Hx). eexists. split; [done|].
      rewrite count_nodup; [done| |by apply list_elem_of_fmap_2].
      apply NoDup_app in Hnd as (_ & _ & Hnd). by apply NoDup_app in Hnd as (Hnd & _ & _).
Qed.

Lemma more_lookup l :
  objs more_heap !! l =
  if decide (l = lc) then Some (composite recs total)
  else if decide (l ∈ composite_loc cs rv) then None
  else if decide (l = lv) then Some (pc_leaf v) else objs h !! l.
Proof using.
  unfold more_heap. cbn [objs leaf_heap]. rewrite lookup_insert.
  destruct (decide (lc = l)) as [<-|Hlc]; [by rewrite decide_True|]. rewrite (decide_False (P := l = lc)) by done.
  rewrite (lookup_foldr_delete (λ l, l)), map_id.
  case_decide; [done|]. rewrite lookup_insert. repeat case_decide; done.
Qed.

Lemma more_own : composite_loc (cs ++ [v]) lc = [lc] ∧ own_locs (cs ++ [v]) lc = lc :: map pc_loc cs ++ [lv].
Proof using Hne.
  assert (composite_loc (cs ++ [v]) lc = [lc]) as Hcl
    by (clear -Hne; destruct cs as [|? [|? ?]]; done).
  split; [done|]. unfold own_locs. by rewrite Hcl, map_app.
Qed.

(** The leaves of the pieces are where they were, the new one beside them. *)
Lemma more_leaves c :
  c ∈ cs ++ [v] → objs more_heap !! pc_loc c = Some (pc_leaf c).
Proof using Hwf0 Hb Hne Hn Hle Hsum Hfit Hroom Hmax.
  destruct more_nodup as [Hnd Hnin]. apply NoDup_app in Hnd as (_ & Hdisj & Hnd).
  rewrite elem_of_app in Hnin. intros Hc. rewrite more_lookup.
  apply elem_of_app in Hc as [Hc| ->%list_elem_of_singleton].
  - assert (pc_loc c ∈ map pc_loc cs) as Hin by (by apply list_elem_of_fmap_2).
    rewrite decide_False by (intros E; rewrite E in Hin; set_solver).
    rewrite decide_False by (intros E; apply (Hdisj _ E); set_solver).
    rewrite decide_False; [by apply Hb|]. intros E. rewrite E in Hin.
    destruct (bld_next_loc _ _ _ _ _ Hb) as [_ Hlt]. specialize (Hlt lv).
    unfold own_locs in Hlt. specialize (Hlt ltac:(apply elem_of_app; by right)). lia.
  - simpl. rewrite decide_False by lia.
    rewrite decide_False by (intros E; apply (Hdisj _ E); set_solver). by rewrite decide_True.
Qed.

Lemma more_building : building h0 more_heap (cs ++ [v]) lc None.
Proof using Hwf0 Hb Hne Hn Hle Hsum Hfit Hroom Hmax.
  destruct more_nodup as [Hnd Hnin].
  destruct more_own as [Hcl Hown]. destruct (building_fresh_loc _ _ _ _ _ Hwf0 Hb) as [Hfr _].
  destruct (bld_pend _ _ _ _ _ Hb b bs eq_refl) as [Hbs Hby].
  assert (objs h0 !! lc = None) as Hfrc.
  { destruct (objs h0 !! lc) eqn:E; [|done]. apply (wf_loc _ Hwf0) in E.
    destruct (bld_next_loc _ _ _ _ _ Hb). lia. }
  assert (∀ c, c ∈ cs → pc_loc c ∈ map pc_loc cs) as Hin by (intros; by apply list_elem_of_fmap_2).
  apply NoDup_app in Hnd as (_ & Hdisj & Hnd). rewrite elem_of_app in Hnin.
  split.
  - apply Forall_app. split; [apply Hb|]. apply Forall_singleton. split_and!; simpl; done || lia.
  - rewrite map_app, sum_lengths_app. simpl. lia.
  - clear -Hne Hcl Hb. assert (objs more_heap !! lc = Some (pieces_object (cs ++ [v]))) as E.
    { rewrite more_lookup, decide_True by done. unfold pieces_object. do 2 f_equal.
      rewrite map_app, sum_lengths_app. simpl. lia. }
    destruct cs as [|? [|? ?]]; done.
  - apply more_leaves.
  - intros l Hl. rewrite Hown, not_elem_of_cons, not_elem_of_app, not_elem_of_cons in Hl.
    destruct Hl as (Hlc & Hlcs & Hlv & _). rewrite more_lookup, decide_False by done.
    case_decide as Hd; [|rewrite decide_False by done].
    + symmetry. apply (bld_new _ _ _ _ _ Hb). apply elem_of_app. by left.
    + apply (bld_old _ _ _ _ _ Hb). unfold own_locs. by rewrite not_elem_of_app.
  - intros l Hl. rewrite Hown in Hl. apply elem_of_cons in Hl as [->|Hl]; [done|].
    apply elem_of_app in Hl as [Hl| ->%list_elem_of_singleton]; [|done].
    apply (bld_new _ _ _ _ _ Hb). apply elem_of_app. by right.
  - rewrite Hown. constructor; [|done]. intros E. apply Hnin. by right.
  - intros c [Hc| ->%list_elem_of_singleton]%elem_of_app; [by apply Hb|done].
  - done.
  - intros b' Hb'. apply (bld_old_block _ _ _ _ _ Hb). rewrite map_app in Hb'. simpl in *. set_solver.
  - intros b' Hb'. apply (bld_new_block _ _ _ _ _ Hb). rewrite map_app in Hb'. simpl in *. set_solver.
  - pose proof (bld_nodup_block _ _ _ _ _ Hb) as Hn2. rewrite map_app. simpl in *.
    apply NoDup_app. apply NoDup_cons in Hn2 as [? ?].
    split_and!; [done| |apply NoDup_singleton]. by intros x Hx ->%list_elem_of_singleton.
  - apply Hb.
  - destruct (bld_next_loc _ _ _ _ _ Hb) as [? Hlt]. split; [simpl; lia|]. intros l Hl.
    rewrite Hown in Hl. simpl. apply elem_of_cons in Hl as [->|Hl]; [lia|].
    apply elem_of_app in Hl as [Hl| ->%list_elem_of_singleton]; [|lia].
    specialize (Hlt l). unfold own_locs in Hlt. specialize (Hlt ltac:(apply elem_of_app; by right)). lia.
  - destruct (bld_next_block _ _ _ _ _ Hb) as [? Hlt]. split; [done|]. intros b' Hb'. apply Hlt.
    rewrite map_app in Hb'. simpl in *. set_solver.
  - apply Hb.
Qed.

Lemma append_more :
  append_buffer rv (Ptr b 0) n h = Ok (lc, more_heap) ∧ building h0 more_heap (cs ++ [v]) lc None.
Proof using Hwf0 Hb Hne Hn Hle Hsum Hfit Hroom Hmax.
  split; [|apply more_building]. unfold append_buffer.
  erewrite bind_Ok; [|apply data_create_eq; [lia|done]]. unfold nonnull.
  rewrite (bind_Ok _ _ _ _ _ (ret_eq _ h1)). mstep more_concat.
  rewrite (bind_Ok _ _ _ _ _ (ret_eq _ h2)). mstep more_release_v. by mstep more_release_rv.
Qed.
End More.

Lemma pieces_bytes_zlen h0 h cs rv pend :
  wf h0 → building h0 h cs rv pend → zlen (pieces_bytes cs) = sum_lengths (map pc_record cs).
Proof.
  intros Hwf Hb. destruct (pieces_recs _ _ _ _ _ Hwf Hb) as [Hrecs Hbytes].
  unfold pieces_bytes. rewrite <- Hbytes. by apply concat_recs_zlen.
Qed.

(** One more buffer: the object's bytes grow by the first [n] of it. *)
Lemma building_append h0 h cs rv b bs n :
  wf h0 → building h0 h cs rv (Some (b, bs)) → 0 ≤ n ≤ zlen bs →
  zlen (pieces_bytes cs) + n < 2 ^ 64 → records_fit (length cs + 1) →
  headroom h0 (zlen cs + 1) → zlen cs + 1 < INT_MAX →
  ∃ rv' cs' h', append_buffer rv (Ptr b 0) n h = Ok (rv', h') ∧ building h0 h' cs' rv' None ∧
    pieces_bytes cs' = pieces_bytes cs ++ zslice 0 n bs ∧ (length cs' ≤ length cs + 1)%nat ∧
    map pc_bytes cs' = map pc_bytes cs ++ (if n =? 0 then [] else [zslice 0 n bs]) ∧
    ∀ b', b' ≠ b → mem h' !! b' = mem h !! b'.
Proof.
  intros Hwf Hb Hn Hsum Hfit Hroom Hmax. pose proof (zlen_nonneg cs).
  pose proof (zlen_nonneg (pieces_bytes cs)).
  assert (headroom h0 1) by (eapply headroom_le; [|exact Hroom]; lia).
  rewrite (pieces_bytes_zlen _ _ _ _ _ Hwf Hb) in *.
  destruct (decide (n = 0)) as [->|Hn0].
  { destruct (append_nothing h0 h cs rv b bs) as (E & Hb'); [done|done| |done|].
    - eapply records_fit_le; [|exact Hfit]. lia.
    - eexists rv, cs, _. rewrite zslice_0, app_nil_r. split_and!; [done..|lia|by rewrite app_nil_r|].
      intros b' Hb''. by apply lookup_delete_ne. }
  destruct (Z.eqb_spec n 0); [done|].
  destruct (decide (cs = [])) as [->|Hne].
  - destruct (append_first h0 h rv b bs n) as (E & Hb'); [done..|lia|lia|].
    eexists _, _, _. split_and!; [done..| |simpl; lia|done|done]. unfold pieces_bytes. simpl. by rewrite app_nil_r.
  - destruct (append_more h0 h cs rv b bs n) as [E Hb']; try done; [lia|lia|].
    eexists _, _, _. split_and!; [done..| |rewrite length_app; simpl; lia|by rewrite map_app|done].
    unfold pieces_bytes. rewrite map_app, concat_app. simpl. by rewrite app_nil_r.
Qed.
