(* ===== verification/DispatchTransformSpec.v ===== *)
(** * Base32 and base64 on dispatch data

    The encoders and decoders of transform.c on the heap: the output does not
    depend on how the input is cut into regions, never leaves the buffer
    allocated for it, and everything taken along the way is given back. *)

From S2P Require Import Prelude DispatchData DispatchDataInv DispatchDataSpec.
From S2P Require Import DispatchDataMap DispatchTransform DispatchTransformCodec.
Import Data Transform.

(** ** Looking back at one byte *)

Lemma retain_release h l o :
  wf h → objs h !! l = Some o → l ≠ dispatch_data_empty → do_xref_cnt o + 1 < INT_MAX →
  dispatch_retain l h = Ok (tt, set_objs (bump (one l)) h) ∧
  dispatch_release l (set_objs (bump (one l)) h) = Ok (tt, h).
Proof.
  intros Hwf Ho Hne Hx. destruct (wf_obj _ Hwf _ _ Ho Hne) as [_ [_ H0]]. split.
  - apply (retain_ok _ _ o); [done|lia|lia].
  - unfold dispatch_release, DATA_DEPTH.
    rewrite (release_alive 1 _ _ (with_xref o (do_xref_cnt o + 1))).
    + do 2 f_equal. unfold set_objs. simpl. rewrite bump_bump, bump_0 by (intros; lia).
      by destruct h.
    + simpl. rewrite lookup_bump, Ho. simpl. unfold one. by rewrite decide_True.
    + simpl. lia.
Qed.

(** An object of one byte has one region. *)
Lemma map_one_byte h l o v :
  wf h → objs h !! l = Some o → data_bytes h l = [v] →
  ∃ p l' off', _dispatch_data_map_direct l 0 h = Ok ((Some p, l', off'), h) ∧
               load (mem h) p 1 = Some [v].
Proof.
  intros Hwf Ho Hb. pose proof (data_bytes_zlen _ _ _ Hwf Ho) as Hz. rewrite Hb in Hz.
  change (zlen [v]) with 1 in Hz.
  destruct (map_direct_spec h l o 0 Hwf Ho)
    as [(p & l' & off' & Em & _ & Hload)|(Em & Hc & Hbuf & Hreg)]; [lia|lia| |].
  - exists p, l', off'. split; [done|]. rewrite Hload, Hb by lia. done.
  - exfalso. pose proof (comp_recs _ _ Hc) as Hrs. pose proof (comp_size _ _ Hc) as Hsz.
    unfold _dispatch_data_map_direct in Em. revert Em. mget Ho.
    destruct (size o =? 0) eqn:?; [lia|]. cbn [negb assert_M].
    rewrite (bind_Ok _ _ _ _ _ (ret_eq tt h)).
    destruct (records o) as [|r [|r' rs]] eqn:Er; [by destruct (comp_records _ _ Hc)| |].
    + apply Forall_singleton in Hrs as (_ & _ & _ & o' & Ho' & Hl' & _).
      destruct (leaf_buf _ _ Hl') as (p & Hp & _). rewrite (bind_Ok _ _ _ _ _ (ret_eq _ h)).
      mget Ho'. by rewrite Hp.
    + apply Forall_cons in Hrs as [(_ & _ & ? & _) Hrs].
      apply Forall_cons in Hrs as [(_ & _ & ? & _) Hrs].
      apply sum_lengths_nonneg in Hrs. simpl in Hsz. lia.
Qed.

(** [_dispatch_data_subrange_map] of one byte, used and released. *)
Lemma peek_byte h dd off v :
  wf h → live h dd → headroom h (1 + Z.of_nat (nrecords h dd)) →
  0 ≤ off < 2 ^ 64 → zslice off 1 (data_bytes h dd) = [v] →
  ∃ l p h1 h', _dispatch_data_subrange_map dd off 1 h = Ok (Some (l, Some p), h1) ∧
    load8 p h1 = Ok (v, h1) ∧ dispatch_release l h1 = Ok (tt, h') ∧ restored h h'.
Proof.
  intros Hwf Hlive Hroom Hoff Hv.
  assert (headroom h (Z.of_nat (nrecords h dd))) as Hroom1 by (eapply headroom_le; [|exact Hroom]; lia).
  destruct (create_subrange_spec h dd off 1 Hwf Hlive Hoff ltac:(done) Hroom1)
    as (l & h1 & E & Hwf1 & Hext & [o Ho] & Hb & [Hcnt (h' & Er & Hres)]).
  rewrite Hv in Hb. pose proof (data_bytes_zlen _ _ _ Hwf1 Ho) as Hz. rewrite Hb in Hz.
  change (zlen [v]) with 1 in Hz.
  assert (l ≠ dispatch_data_empty) as Hne by (eapply (empty_size h1); [done..|lia]).
  assert (do_xref_cnt o + 1 < INT_MAX) as Hx.
  { specialize (Hcnt Hne). unfold count_of in Hcnt. rewrite Ho in Hcnt. rewrite Hcnt.
    destruct (objs h !! l) as [o0|] eqn:E0; [|done].
    specialize (Hroom _ _ E0 Hne). unfold nrecords, _dispatch_data_num_records in Hroom.
    destruct Hlive as [od Hod]. rewrite Hod in Hroom. destruct (length (records od)); lia. }
  destruct (map_one_byte h1 l o v Hwf1 Ho Hb) as (p & l' & off' & Em & Hload).
  destruct (retain_release h1 l o Hwf1 Ho Hne Hx) as [Ert Erl].
  exists l, p, h1, h'. split_and!; try done.
  - unfold _dispatch_data_subrange_map. mstep E. unfold nonnull.
    rewrite (bind_Ok _ _ _ _ _ (ret_eq l h1)).
    assert (dispatch_data_get_size l h1 = Ok (1, h1)) as Es
      by (unfold dispatch_data_get_size; mget Ho; by rewrite <- Hz).
    mstep Es. rewrite Z.eqb_refl.
    rewrite (bind_Ok _ _ h1 (Some (l, Some p)) (set_objs (bump (one l)) h1)).
    + by mstep Erl.
    + rewrite (bind_Ok _ _ h1 (Some l, Some p, 1) (set_objs (bump (one l)) h1)); [done|]. unfold dispatch_data_create_map. mget Ho. rewrite <- Hz.
      change (1 =? 0) with false. cbv iota. mstep Em. by mstep Ert.
  - unfold load8, read_bytes, mbind, M_bind. by rewrite Hload.
Qed.

(** ** Storing into the output buffer *)

Lemma put_bytes_eq h b out k vs :
  mem h !! b = Some (out ++ replicate k 0) → (length vs ≤ k)%nat →
  put_bytes (Ptr b (zlen out)) vs h =
  Ok (Ptr b (zlen (out ++ vs)), set_mem (<[b := (out ++ vs) ++ replicate (k - length vs) 0]>) h).
Proof.
  revert h out k. induction vs as [|v vs IH]; intros h out k Hb Hk.
  - simpl. rewrite ret_eq, app_nil_r, Nat.sub_0_r. do 2 f_equal. unfold set_mem.
    rewrite insert_id by done. by destruct h.
  - cbn [put_bytes]. simpl in Hk.
    erewrite bind_Ok; [|by apply (write_append _ _ out k [v]); simpl; [done|lia]].
    change (ptr_add (Ptr b (zlen out)) 1) with (Ptr b (zlen out + 1)).
    replace (zlen out + 1) with (zlen (out ++ [v])) by (by rewrite zlen_app).
    rewrite (IH _ (out ++ [v]) (k - 1)%nat); [|simpl; by rewrite lookup_insert_eq|lia].
    rewrite <- app_assoc. simpl app. unfold set_mem. simpl. rewrite insert_insert_eq.
    do 5 f_equal. f_equal. lia.
Qed.

(** The heap of an encoder: the input heap [h0], and a buffer of [cap] bytes
    whose first bytes are [out]. *)
Definition filled (cap : Z) (out : list Z) : list Z :=
  out ++ replicate (Z.to_nat cap - length out) 0.

Definition output_heap (h0 : heap) (cap : Z) (out : list Z) (h : heap) : Prop :=
  restored (block_heap h0 (tail (malloc_fails h0)) (filled cap out)) h.

Lemma put_output h0 cap out h vs :
  output_heap h0 cap out h → zlen (out ++ vs) ≤ cap →
  ∃ h', put_bytes (Ptr (next_block h0) (zlen out)) vs h =
        Ok (Ptr (next_block h0) (zlen (out ++ vs)), h') ∧ output_heap h0 cap (out ++ vs) h'.
Proof.
  unfold output_heap. intros [Ho Hm He Hl Hb Hf] Hcap. simpl in *.
  rewrite zlen_app in Hcap. unfold zlen in Hcap.
  eexists. split; [apply (put_bytes_eq _ _ out (Z.to_nat cap - length out)); [|lia]|].
  - rewrite Hm. apply lookup_insert_eq.
  - split; simpl; try done. rewrite Hm, insert_insert_eq. unfold filled.
    do 3 f_equal. rewrite length_app. lia.
Qed.

Lemma wf_output h0 cap out h :
  wf h0 → Forall is_byte out → output_heap h0 cap out h → wf h ∧ extends h0 h ∧ objs h = objs h0.
Proof.
  intros Hwf Hout Hres.
  assert (wf (block_heap h0 (tail (malloc_fails h0)) (filled cap out))) as Hwf1.
  { apply wf_block_heap; [done|]. apply Forall_app. split; [done|].
    by apply Forall_replicate. }
  split_and!; [by eapply wf_restored| |apply Hres].
  etrans; [by apply extends_block|]. by apply restored_extends.
Qed.

(** ** The encoder *)

Lemma last_byte_snoc d l a : last_byte d (l ++ [a]) = a.
Proof. by rewrite last_byte_app. Qed.

Lemma zslice_last l x : l ≠ [] → zslice (zlen l - 1) 1 (l ++ x) = [last_byte 0 l].
Proof.
  destruct l as [|a l _] using rev_ind; [done|]. intros _.
  rewrite last_byte_snoc, <- app_assoc, zlen_app. change (zlen [a]) with 1.
  replace (zlen l + 1 - 1) with (zlen l) by lia. rewrite zslice_app_r by lia.
  by rewrite Z.sub_diag.
Qed.

Lemma nth_last l x d : l ≠ [] → nth (Z.to_nat (zlen l - 1)) (l ++ x) 0 = last_byte d l.
Proof.
  destruct l as [|a l _] using rev_ind; [done|]. intros _.
  rewrite last_byte_snoc, <- app_assoc, zlen_app. change (zlen [a]) with 1.
  rewrite app_nth2; unfold zlen; [|lia]. by replace (_ - _)%nat with 0%nat by lia.
Qed.

Section Encode.
Context {e : encoder} {d : decoder} {table : list Z} `{Hc : !Codec e d table}.
Context (h0 : heap) (dd : loc) (Hwf : wf h0) (Hlive : live h0 dd)
        (Hroom : headroom h0 (1 + Z.of_nat (nrecords h0 dd))).
Local Abbreviation input := (data_bytes h0 dd).
Context (Hlen : zlen input < 2 ^ 64).
Local Abbreviation cap := (howmany (zlen input) (enc_bytes e) * enc_symbols e).
Local Abbreviation b := (next_block h0).

Lemma enc_all_zlen : zlen (enc_all e input) = cap.
Proof using Hc Hwf. apply enc_from_zlen; [by apply data_bytes_is_byte|]. by apply Zmod_0_l. Qed.

(** The previous byte, from the same region or an earlier one. *)
Lemma enc_last_spec pre done_ rest post h :
  input = pre ++ (done_ ++ rest) ++ post → pre ++ done_ ≠ [] →
  output_heap h0 cap (enc_out e 0 0 (pre ++ done_)) h →
  ∃ h', enc_last dd (zlen pre) (done_ ++ rest) (zlen done_) h =
        Ok (Some (last_byte 0 (pre ++ done_)), h') ∧
        output_heap h0 cap (enc_out e 0 0 (pre ++ done_)) h'.
Proof using Hc Hwf Hlive Hroom Hlen.
  intros Hin Hne Hout. unfold enc_last.
  destruct (wf_output _ _ _ _ Hwf (enc_out_is_byte 0 0 (pre ++ done_)) Hout) as (Hwf' & Hext & Hobjs).
  destruct (zlen done_ =? 0) eqn:Ei.
  - assert (done_ = []) as ->.
    { destruct done_ as [|x done_]; [done|]. rewrite zlen_cons in Ei. pose proof (zlen_nonneg done_). lia. }
    rewrite app_nil_r in *. simpl app in *.
    assert (0 < zlen pre ≤ zlen input).
    { rewrite Hin, !zlen_app. pose proof (zlen_nonneg rest). pose proof (zlen_nonneg post).
      destruct pre as [|x pre]; [done|]. rewrite zlen_cons. pose proof (zlen_nonneg pre). lia. }
    rewrite wrapu_small by lia.
    assert (data_bytes h dd = input) as Hbytes by (by apply data_bytes_ext).
    destruct (peek_byte h dd (zlen pre - 1) (last_byte 0 pre)) as (l & p & h1 & h' & E1 & E2 & E3 & Hres);
      [done|by eapply live_ext| |lia|rewrite Hbytes, Hin; by apply zslice_last|].
    { unfold headroom, nrecords in *. by rewrite Hobjs. }
    mstep E1. unfold nonnull. rewrite (bind_Ok _ _ _ _ _ (ret_eq p h1)). mstep E2. mstep E3.
    exists h'. split; [done|]. unfold output_heap in *. by etrans.
  - exists h. split; [|done]. rewrite last_byte_app, (nth_last done_ rest (last_byte 0 pre)); [done|].
    by intros ->.
Qed.

Lemma enc_loop_spec rest pre done_ post h :
  input = pre ++ (done_ ++ rest) ++ post →
  output_heap h0 cap (enc_out e 0 0 (pre ++ done_)) h →
  ∃ h', enc_loop e dd (zlen pre) (done_ ++ rest) rest (zlen done_)
          (zlen (pre ++ done_), Ptr b (zlen (enc_out e 0 0 (pre ++ done_)))) h =
        Ok ((true, (zlen (pre ++ done_ ++ rest),
                    Ptr b (zlen (enc_out e 0 0 (pre ++ done_ ++ rest))))), h') ∧
        output_heap h0 cap (enc_out e 0 0 (pre ++ done_ ++ rest)) h'.
Proof using Hc Hwf Hlive Hroom Hlen.
  destruct (codec_bytes (e := e)) as (Hk & _ & _).
  revert done_ h. induction rest as [|curr rest IH]; intros done_ h Hin Hout.
  { exists h. rewrite !app_nil_r. by split. }
  cbn [enc_loop]. set (count := zlen (pre ++ done_)). set (last := last_byte 0 (pre ++ done_)).
  assert (∃ h1 l1, (if count mod enc_bytes e =? 0 then mret (Some 0)
            else enc_last dd (zlen pre) (done_ ++ curr :: rest) (zlen done_)) h = Ok (Some l1, h1) ∧
          enc_put e (count mod enc_bytes e) l1 curr = enc_put e (count mod enc_bytes e) last curr ∧
          output_heap h0 cap (enc_out e 0 0 (pre ++ done_)) h1) as (h1 & l1 & E1 & Hput & Hout1).
  { destruct (count mod enc_bytes e =? 0) eqn:Ep.
    - exists h, 0. apply Z.eqb_eq in Ep. rewrite Ep. split_and!; try done. symmetry. apply codec_first.
    - destruct (enc_last_spec pre done_ (curr :: rest) post h Hin) as (h1 & E & Hh1); [|done|].
      { intros Hnil. unfold count in Ep. rewrite Hnil in Ep. by rewrite Zmod_0_l in Ep. }
      exists h1, last. by split_and!. }
  mstep E1. rewrite Hput. unfold last, count in *.
  assert (enc_out e 0 0 (pre ++ done_ ++ [curr]) = enc_out e 0 0 (pre ++ done_) ++
          enc_put e (zlen (pre ++ done_) mod enc_bytes e) (last_byte 0 (pre ++ done_)) curr) as Hsnoc.
  { rewrite app_assoc, enc_out_app. cbn [enc_out]. by rewrite app_nil_r. }
  assert (input = (pre ++ done_ ++ [curr]) ++ rest ++ post) as Hin2
    by (rewrite Hin, <- !app_assoc; done).
  destruct (put_output _ _ _ _ (enc_put e (zlen (pre ++ done_) mod enc_bytes e)
              (last_byte 0 (pre ++ done_)) curr) Hout1) as (h2 & E2 & Hout2).
  { rewrite <- Hsnoc, <- enc_all_zlen. rewrite Hin2. apply enc_out_fits. }
  mstep E2. rewrite <- Hsnoc in *.
  assert (zlen (pre ++ done_ ++ [curr]) ≤ zlen input) as Hle.
  { rewrite Hin2, !zlen_app. pose proof (zlen_nonneg rest). pose proof (zlen_nonneg post). lia. }
  assert (zlen (pre ++ done_ ++ [curr]) = zlen (pre ++ done_) + 1) as Hz
    by (rewrite app_assoc, zlen_app; done).
  pose proof (zlen_nonneg (pre ++ done_)). rewrite wrapu_small by lia. rewrite <- Hz.
  replace (zlen done_ + 1) with (zlen (done_ ++ [curr])) by (by rewrite zlen_app).
  replace (done_ ++ curr :: rest) with ((done_ ++ [curr]) ++ rest) in * by (by rewrite <- app_assoc).
  apply IH; done.
Qed.

(** What has been stored after the regions [seen]. *)
Definition stored (seen : list (list Z)) : list Z :=
  if decide (zlen (concat seen) = zlen input) then enc_all e input
  else enc_out e 0 0 (concat seen).

Definition enc_inv (seen : list (list Z)) (st : Z * ptr) (h : heap) : Prop :=
  st = (zlen (concat seen), Ptr b (zlen (stored seen))) ∧ output_heap h0 cap (stored seen) h.

Lemma stored_is_byte seen : Forall is_byte (stored seen).
Proof using Hc. unfold stored. case_decide; [apply enc_from_is_byte|apply enc_out_is_byte]. Qed.

Lemma stored_before seen r rest :
  regions h0 dd = seen ++ r :: rest → r ≠ [] → stored seen = enc_out e 0 0 (concat seen).
Proof using Hwf Hlive.
  intros Hreg Hr. unfold stored. rewrite decide_False; [done|].
  rewrite <- (regions_concat _ _ Hwf Hlive), Hreg, concat_app. simpl. rewrite !zlen_app.
  pose proof (zlen_nonneg (concat rest)). destruct r as [|x r]; [done|].
  rewrite zlen_cons. pose proof (zlen_nonneg r). lia.
Qed.

Lemma enc_region_spec seen r rest st h x p :
  regions h0 dd = seen ++ r :: rest → r ≠ [] → enc_inv seen st h →
  load (mem h) p (zlen r) = Some r →
  ∃ st' h', enc_region e dd (zlen input) x (zlen (concat seen)) p (zlen r) st h = Ok ((true, st'), h') ∧
            enc_inv (seen ++ [r]) st' h'.
Proof using Hc Hwf Hlive Hroom Hlen.
  intros Hreg Hr [-> Hout] Hload. pose proof (stored_before _ _ _ Hreg Hr) as Hst. rewrite Hst in *.
  assert (input = concat seen ++ ([] ++ r) ++ concat rest) as Hin.
  { rewrite <- (regions_concat _ _ Hwf Hlive), Hreg, concat_app. done. }
  destruct (enc_loop_spec r (concat seen) [] (concat rest) h Hin) as (h1 & E1 & Hout1).
  { by rewrite app_nil_r. }
  rewrite app_nil_r in E1. simpl app in *.
  assert (concat (seen ++ [r]) = concat seen ++ r) as Hcs by (rewrite concat_app; simpl; by rewrite app_nil_r).
  assert (zlen (concat seen) + zlen r = zlen (concat (seen ++ [r]))) as Hz by (by rewrite Hcs, zlen_app).
  assert (zlen (concat (seen ++ [r])) + zlen (concat rest) = zlen input) as Hz2.
  { rewrite Hin, Hcs. rewrite !zlen_app. lia. }
  pose proof (zlen_nonneg (concat seen)). pose proof (zlen_nonneg r). pose proof (zlen_nonneg (concat rest)).
  unfold enc_region, enc_inv.
  assert (read_bytes p (zlen r) h = Ok (r, h)) as Erd by (unfold read_bytes; by rewrite Hload).
  mstep Erd. change (zlen []) with 0 in E1. mstep E1. rewrite wrapu_small by lia. rewrite Hz.
  destruct (zlen (concat (seen ++ [r])) =? zlen input) eqn:Eend.
  - apply Z.eqb_eq in Eend. assert (concat rest = []) as Hrest.
    { destruct (concat rest) as [|y ys]; [done|]. rewrite zlen_cons in Hz2. pose proof (zlen_nonneg ys). lia. }
    assert (input = concat seen ++ r) as Hin2 by (rewrite Hin, Hrest, app_nil_r; done).
    assert (enc_all e input = enc_out e 0 0 (concat seen ++ r) ++
              enc_finish e (zlen (concat seen ++ r) mod enc_bytes e)
                (nth (Z.to_nat (zlen r - 1)) r 0)) as Hall.
    { unfold enc_all. rewrite Hin2 at 1. rewrite <- (app_nil_r (concat seen ++ r)) at 1.
      rewrite enc_from_out. cbn [enc_from]. rewrite Z.add_0_l, last_byte_app. do 2 f_equal.
      rewrite <- (app_nil_r r) at 3. by rewrite (nth_last r [] (last_byte 0 (concat seen))). }
    destruct (put_output _ _ _ _ (enc_finish e (zlen (concat seen ++ r) mod enc_bytes e)
                (nth (Z.to_nat (zlen r - 1)) r 0)) Hout1) as (h2 & E2 & Hout2).
    { by rewrite <- Hall, enc_all_zlen. }
    rewrite <- Hcs in *. mstep E2. rewrite <- Hall in *.
    eexists _, h2. split; [done|]. unfold stored. by rewrite decide_True by done.
  - apply Z.eqb_neq in Eend. eexists _, h1. split; [done|]. unfold stored.
    rewrite decide_False by done. by rewrite Hcs.
Qed.
End Encode.

Lemma regions_nonempty h l r : wf h → live h l → r ∈ regions h l → r ≠ [].
Proof.
  intros Hwf [o Ho] Hr ->. revert Hr. pose proof (data_bytes_zlen _ _ _ Hwf Ho) as Hz.
  unfold regions, obj_regions. rewrite Ho. destruct (size o =? 0) eqn:E0; [by intros ?%elem_of_nil|].
  assert (data_bytes h l ≠ []) as Hne.
  { intros E. rewrite E, zlen_nil in Hz. lia. }
  unfold data_bytes, obj_bytes in *. rewrite Ho in Hne.
  assert (l ≠ dispatch_data_empty) as Hle by (eapply empty_size; [done..|lia]).
  destruct (wf_obj _ Hwf _ _ Ho Hle) as [Hok _].
  unfold _dispatch_data_leaf in *. destruct (records o) as [|r rs] eqn:Er.
  - intros Hx%list_elem_of_singleton. by rewrite <- Hx in Hne.
  - destruct (buf o); [intros Hx%list_elem_of_singleton; by rewrite <- Hx in Hne|].
    intros (r' & Hnil & Hin)%list_elem_of_fmap.
    destruct Hok as [Hl|Hc]; [by rewrite (leaf_records _ _ Hl) in Er|].
    pose proof (comp_recs _ _ Hc) as Hrs. rewrite Er, Forall_forall in Hrs.
    pose proof (Hrs r' Hin) as Hr'. pose proof (rec_bytes_zlen _ _ Hr') as Hz'.
    destruct Hr' as (_ & _ & ? & _). rewrite <- Hnil, zlen_nil in Hz'. lia.
Qed.

(** The result of an encoder: an object of one region (none when empty). *)
Definition one_region (bs : list Z) : list (list Z) := match bs with [] => [] | _ => [bs] end.

Definition returns_flat (m : D (option loc)) (h0 h : heap) (bytes : list Z) : Prop :=
  ∃ l h', m h = Ok (Some l, h') ∧ wf h' ∧ extends h0 h' ∧ live h' l ∧
    data_bytes h' l = bytes ∧ owned h0 h' l ∧ regions h' l = one_region bytes ∧
    malloc_fails h' `suffix_of` malloc_fails h0 ∧
    (∀ n, n < INT_MAX → headroom h0 n → headroom h' n).

Lemma returns_flat_data m h bytes : returns_flat m h h bytes → returns_data m h bytes.
Proof. intros (l & h' & ? & ? & ? & ? & ? & ? & _). by exists l, h'. Qed.

(** A filled output buffer becomes a data object of the same bytes. *)
Lemma output_fails h0 h cap out : output_heap h0 cap out h → malloc_fails h `suffix_of` malloc_fails h0.
Proof.
  intros [_ _ _ _ _ Hf]. etrans; [exact Hf|]. destruct (malloc_fails h0) as [|x fs]; [done|by exists [x]].
Qed.

Lemma filled_full out : filled (zlen out) out = out.
Proof. unfold filled, zlen. replace (_ - _)%nat with 0%nat by lia. apply app_nil_r. Qed.

(** An empty result is the empty object; the buffer is freed. *)
Lemma returns_output_empty h0 h :
  wf h0 → output_heap h0 0 [] h →
  returns_flat (dispatch_data_create (Some (Ptr (next_block h0) 0)) 0 None DESTRUCTOR_FREE) h0 h [].
Proof.
  intros Hwf Hout. pose proof (output_fails _ _ _ _ Hout) as Hf'. destruct Hout as [? Hm Hev Hl Hb Hf].
  change (filled 0 []) with (@nil Z) in Hm. simpl in Hm, Hev, Hl, Hb.
  exists dispatch_data_empty, (set_mem (delete (next_block h0)) h).
  assert (mem (set_mem (delete (next_block h0)) h) = mem h0) as Hm'.
  { simpl. rewrite Hm. by apply delete_insert_id, fresh_block. }
  assert (restored h0 (set_mem (delete (next_block h0)) h)) as Hres.
  { split; try done. simpl. lia. }
  pose proof (wf_restored _ _ Hwf Hres) as Hwf2. split_and!; try done.
  - unfold dispatch_data_create. rewrite Z.eqb_refl.
    simpl. unfold free_block, mbind, M_bind. rewrite Hm, lookup_insert_eq. done.
  - by apply restored_extends.
  - exists empty_object. apply Hwf2.
  - unfold data_bytes. by rewrite (wf_empty _ Hwf2).
  - split; [done|]. eexists. split; [by apply (release_empty 1)|done].
  - unfold regions. by rewrite (wf_empty _ Hwf2).
  - intros n _ Hr. by eapply restored_headroom.
Qed.

Lemma returns_output h0 h out :
  wf h0 → Forall is_byte out → zlen out < 2 ^ 64 → output_heap h0 (zlen out) out h →
  returns_flat (dispatch_data_create (Some (Ptr (next_block h0) 0)) (zlen out) None DESTRUCTOR_FREE)
    h0 h out.
Proof.
  intros Hwf Hby Hlt Hout. destruct (decide (out = [])) as [->|Hne]; [by apply returns_output_empty|].
  destruct (wf_output _ _ _ _ Hwf Hby Hout) as (Hwf' & Hext & Hobjs).
  pose proof (output_fails _ _ _ _ Hout) as Hf'. destruct Hout as [_ Hm Hev Hl Hb Hf].
  rewrite filled_full in Hm. simpl in Hm, Hev, Hl, Hb.
  assert (0 < zlen out).
  { destruct out as [|x out]; [done|]. rewrite zlen_cons. pose proof (zlen_nonneg out). lia. }
  assert (load (mem h) (Ptr (next_block h0) 0) (zlen out) = Some out) as Hload
    by (rewrite Hm; apply load_block).
  eexists _, _. split; [apply data_create_eq; [lia|done]|]. split_and!.
  - by eapply wf_leaf; [|split; [lia|]|].
  - etrans; [done|]. by apply extends_leaf.
  - apply (live_leaf h).
  - by apply (leaf_heap_bytes h).
  - split.
    { intros _. unfold count_of. simpl. rewrite lookup_insert_eq.
      rewrite <- Hobjs, (fresh_loc h Hwf'). done. }
    eexists. split.
    + apply (release_leaf_free 1 _ _ (leaf_object (Ptr (next_block h0) 0) (zlen out)
               DESTRUCTOR_FREE None) (next_block h0)); try done; simpl.
      { by rewrite lookup_insert_eq. }
      rewrite Hm, lookup_insert_eq. by eexists.
    + split; simpl; try done; try lia.
      * rewrite delete_insert_id; [done|]. by apply fresh_loc.
      * rewrite Hm. by apply delete_insert_id, fresh_block.
  - unfold regions. simpl. rewrite lookup_insert_eq. unfold obj_regions. simpl.
    destruct (zlen out =? 0) eqn:?; [lia|]. unfold leaf_bytes. simpl. rewrite Hload. simpl.
    by destruct out.
  - done.
  - intros n Hn Hr l o Ho Hlne. simpl in Ho. rewrite lookup_insert in Ho.
    case_decide; [by injection Ho as <-|]. rewrite Hobjs in Ho. by apply (Hr l).
Qed.

Lemma encode_spec `{Codec e d table} h dd :
  wf h → live h dd → malloc_succeeds h → headroom h (1 + Z.of_nat (nrecords h dd)) →
  howmany (zlen (data_bytes h dd)) (enc_bytes e) * enc_symbols e ≤ SIZE_T_MAX →
  returns_flat (transform_encode e dd) h h (enc_all e (data_bytes h dd)).
Proof.
  intros Hwf Hlive Hm Hroom Hcap. pose proof Hlive as [o Ho].
  pose proof (data_bytes_zlen _ _ _ Hwf Ho) as Hz.
  destruct (codec_bytes (e := e)) as (Hk & _ & Hsym). pose proof (symbols_gt1 (d := d)) as Hg.
  assert (zlen (data_bytes h dd) < 2 ^ 64) as Hlt.
  { rewrite Hz. destruct (decide (dd = dispatch_data_empty)) as [->|Hne].
    - rewrite (wf_empty _ Hwf) in Ho. by injection Ho as <-.
    - destruct (wf_obj _ Hwf _ _ Ho Hne) as [[Hl|Hc] _]; [apply Hl|apply Hc]. }
  pose proof (enc_all_zlen h dd Hwf) as Hall.
  unfold returns_flat, transform_encode.
  assert (dispatch_data_get_size dd h = Ok (zlen (data_bytes h dd), h)) as Es
    by (unfold dispatch_data_get_size; mget Ho; by rewrite Hz).
  mstep Es. set (cap := howmany _ _ * _) in *.
  destruct (SIZE_T_MAX / enc_symbols e <? howmany (zlen (data_bytes h dd)) (enc_bytes e)) eqn:E.
  { apply Z.ltb_lt in E. exfalso.
    assert (howmany (zlen (data_bytes h dd)) (enc_bytes e) ≤ SIZE_T_MAX / enc_symbols e);
      [|lia]. apply Z.div_le_lower_bound; [lia|]. unfold cap in Hcap. lia. }
  cbv zeta. fold cap. mstep (malloc_eq h cap Hm).
  destruct (apply_spec (enc_region e dd (zlen (data_bytes h dd)))
              (λ seen st h', enc_inv (e := e) h dd seen st h' ∧ ∃ rest, regions h dd = seen ++ rest)
              (λ _ _, False) h dd o Hwf Ho) with (s0 := (0, Ptr (next_block h) 0))
              (h := block_heap h (tail (malloc_fails h)) (replicate (Z.to_nat cap) 0))
    as ([] & st & h1 & E1 & Hpost); [..|done].
  - intros seen st h' [[_ Hout] _].
    destruct (wf_output _ _ _ _ Hwf (stored_is_byte h dd seen) Hout) as (? & ? & _). done.
  - intros seen r rest st h' x p Hreg [Hinv _] Hload.
    assert (r ≠ []) as Hr.
    { apply (regions_nonempty h dd r Hwf Hlive). rewrite Hreg. set_solver. }
    destruct (enc_region_spec h dd Hwf Hlive Hroom Hlt seen r rest st h' x p) as (st' & h2 & E2 & Hinv');
      [done..|]. exists true, st', h2. split; [done|]. split; [done|].
    exists rest. by rewrite Hreg, <- app_assoc.
  - assert (stored (e := e) h dd [] = []) as Hnil.
    { unfold stored. case_decide as Hd; [|done]. simpl in Hd. change (zlen (@nil Z)) with 0 in Hd.
      destruct (data_bytes h dd) as [|y ys]; [|rewrite zlen_cons in Hd; pose proof (zlen_nonneg ys); lia].
      unfold enc_all. cbn [enc_from]. apply codec_empty. by apply Zmod_0_l. }
    split; [|by exists (regions h dd)]. split; rewrite Hnil; [done|].
    unfold output_heap, filled. simpl. by rewrite Nat.sub_0_r.
  - destruct Hpost as [[_ Hout] _]. mstep E1.
    assert (stored (e := e) h dd (regions h dd) = enc_all e (data_bytes h dd)) as Hst.
    { unfold stored. rewrite (regions_concat _ _ Hwf Hlive). by rewrite decide_True. }
    unfold cap in Hall, Hcap |- *. rewrite Hst, <- Hall in Hout. rewrite <- Hall in Hcap |- *.
    apply returns_output; [done|apply enc_from_is_byte|lia|done].
Qed.
