(* ===== verification/DispatchTransformDecode.v ===== *)
(** * Decoding base32 and base64 on dispatch data

    The decoders of transform.c on the heap, region by region, and the round
    trip through the encoders. *)

From S2P Require Import Prelude DispatchData DispatchDataInv DispatchDataSpec.
From S2P Require Import DispatchDataMap DispatchTransform DispatchTransformCodec.
From S2P Require Import DispatchDataAppend DispatchTransformSpec.
Import Data Transform.

(** ** How much a region produces *)

Lemma group_bytes_byte d x : Forall is_byte (group_bytes d x).
Proof.
  unfold group_bytes. apply Forall_map, Forall_forall. intros s _.
  change 0xff with (Z.ones 8). unfold is_byte. rewrite Z.land_ones by lia.
  apply Z.mod_pos_bound. done.
Qed.

Section Produce.
Context {d : decoder} `{Hc : !DecoderShape d}.
Local Abbreviation g := (dec_symbols d).
Local Abbreviation k := (dec_bytes d).

Lemma dec_step_out b x c p st' out :
  dec_step d b (x, c, p) = Some (st', out) →
  (st' = (x, c, p) ∧ out = []) ∨
  (∃ x' p', st' = (x', u64 (c + 1), p') ∧ (0 ≤ p → 0 ≤ p') ∧
     out = if (c + 1) mod g =? 0 then group_bytes d x' else []).
Proof.
  unfold dec_step. destruct (is_space b); [intros [= <- <-]; by left|].
  destruct (_ || _); [done|]. destruct (tbl (dec_table d) b =? -2); intros [= <- <-]; right;
    eexists _, _; (split; [done|]); rewrite land_mask; (split; [|done]);
    intros; try done. by apply wrapu_range.
Qed.

(** The output of a region, by the symbols [m] it holds. *)
Lemma dec_run_out bs x c p st' out :
  dec_run d bs (x, c, p) = Some (st', out) →
  Forall is_byte out ∧ (0 ≤ p → 0 ≤ st'.2) ∧
  ∃ m, 0 ≤ m ≤ zlen bs ∧ st'.1.2 mod g = (c + m) mod g ∧ zlen out = k * ((c mod g + m) / g).
Proof.
  pose proof (symbols_gt1 (d := d)) as Hg.
  revert x c p out. induction bs as [|b bs IH]; intros x c p out.
  { intros [= <- <-]. split_and!; [done..|]. exists 0. rewrite Z.add_0_r. change (zlen (@nil Z)) with 0.
    pose proof (Z.mod_pos_bound c g). rewrite (Z.add_0_r (c mod g)), Z.div_small by lia. split_and!; done || lia. }
  cbn [dec_run]. destruct (dec_step d b (x, c, p)) as [[st1 out1]|] eqn:E1; [|done]. simpl.
  destruct st1 as [[x1 c1] p1].
  destruct (dec_run d bs (x1, c1, p1)) as [[st2 out2]|] eqn:E2; [|done]. simpl. intros [= -> <-].
  destruct (IH _ _ _ _ E2) as (Hby & Hp & m & Hm & Hcm & Hz). rewrite zlen_cons, zlen_app.
  destruct (dec_step_out _ _ _ _ _ _ E1) as [[[= -> -> ->] ->]|(x' & p' & [= -> -> ->] & Hp' & ->)].
  - split_and!; [done..|]. exists m. change (zlen (@nil Z)) with 0.
    split_and!; [lia|lia|done|by rewrite Hz].
  - assert (u64 (c + 1) mod g = (c + 1) mod g) as Hu.
    { rewrite <- !(land_mask (d := d)). unfold wrapu. by rewrite Zmod_mod. }
    rewrite Hu in Hz. pose proof (Z.mod_pos_bound c g).
    assert ((c + 1) mod g = (c mod g + 1) mod g) as Hc1 by (rewrite Zplus_mod, (Z.mod_small 1); lia).
    split_and!; [apply Forall_app; split; [|done]; case_match; [apply group_bytes_byte|done]|auto|].
    exists (m + 1). split_and!; [lia|lia| |].
    { rewrite Hcm, Zplus_mod, Hu, <- Zplus_mod. f_equal. lia. }
    rewrite Hz.
    destruct (decide (c mod g + 1 = g)) as [Hlast|Hlast].
    + rewrite Hc1, Hlast, Z.mod_same by lia. simpl. unfold group_bytes. rewrite zlen_map.
      replace (c mod g + (m + 1)) with (m + 1 * g) by lia. rewrite Z.div_add by lia.
      rewrite Z.add_0_l. unfold dec_bytes. lia.
    + rewrite Hc1, Z.mod_small by lia. destruct (c mod g + 1 =? 0) eqn:?; [lia|].
      change (zlen (@nil Z)) with 0. rewrite Z.add_0_l. f_equal. f_equal. lia.
Qed.

(** The buffer of a region is large enough. *)
Lemma dec_run_fits bs st st' out :
  dec_run d bs st = Some (st', out) → zlen out ≤ howmany (zlen bs) g * k.
Proof.
  destruct st as [[x c] p]. intros (_ & _ & m & Hm & _ & ->)%dec_run_out.
  pose proof (symbols_gt1 (d := d)) as Hg.
  destruct (shape_bytes (d := d)) as (Hk & Hk').
  pose proof (Z.mod_pos_bound c g). unfold howmany.
  assert ((c mod g + m) / g ≤ (zlen bs + (g - 1)) / g) as Hle by (apply Z.div_le_mono; lia).
  assert ((zlen bs + (g - 1)) / g ≤ if zlen bs mod g =? 0 then zlen bs / g else zlen bs / g + 1).
  { pose proof (Z.div_mod (zlen bs) g). pose proof (Z.mod_pos_bound (zlen bs) g).
    destruct (zlen bs mod g =? 0) eqn:E.
    - apply Z.lt_succ_r, Z.div_lt_upper_bound; nia.
    - apply Z.lt_succ_r, Z.div_lt_upper_bound; nia. }
  rewrite (Z.mul_comm k). apply Z.mul_le_mono_nonneg_r; lia.
Qed.
End Produce.

Lemma dec_run_fail d bs st :
  dec_run d bs st = None →
  ∃ pre b post st' out, bs = pre ++ b :: post ∧ dec_run d pre st = Some (st', out) ∧
                        dec_step d b st' = None.
Proof.
  revert st. induction bs as [|b bs IH]; intros st; [done|]. cbn [dec_run].
  destruct (dec_step d b st) as [[st1 out1]|] eqn:E1.
  - simpl. destruct (dec_run d bs st1) as [[? ?]|] eqn:E2; [done|]. intros _.
    destruct (IH _ E2) as (pre & b' & post & st' & out & -> & Hp & Hb).
    exists (b :: pre), b', post, st', (out1 ++ out). cbn [dec_run]. by rewrite E1; simpl; rewrite Hp.
  - intros _. exists [], b, bs, st, []. done.
Qed.

(** ** The loop of a region *)

Section Loop.
Context (h0 : heap) (cs : list piece) (rv : loc) (b : block) (cap : Z).
Local Abbreviation buffer h out := (building h0 h cs rv (Some (b, filled cap out))).

Lemma put_building h out vs :
  buffer h out → Forall is_byte vs → Forall is_byte out → zlen (out ++ vs) ≤ cap →
  ∃ h', put_bytes (Ptr b (zlen out)) vs h = Ok (Ptr b (zlen (out ++ vs)), h') ∧ buffer h' (out ++ vs).
Proof.
  intros Hb Hvs Hout Hcap. destruct (bld_pend _ _ _ _ _ Hb b _ eq_refl) as [Hm _].
  rewrite zlen_app in Hcap. unfold zlen in Hcap. unfold filled in Hm.
  eexists. split; [by apply (put_bytes_eq _ _ out (Z.to_nat cap - length out)); [|lia]|].
  replace ((out ++ vs) ++ replicate (Z.to_nat cap - length out - length vs) 0) with (filled cap (out ++ vs)).
  - eapply building_write; [done|]. unfold filled. rewrite !Forall_app. split_and!; [done..|].
    by apply Forall_replicate.
  - unfold filled. rewrite length_app. do 2 f_equal. lia.
Qed.

Lemma dec_loop_spec `{!DecoderShape d} bs st st' out out0 h :
  dec_run d bs st = Some (st', out) → buffer h out0 → Forall is_byte out0 →
  zlen (out0 ++ out) ≤ cap →
  ∃ h', dec_loop d bs st (Ptr b (zlen out0)) h = Ok ((Some (Ptr b (zlen (out0 ++ out))), st'), h') ∧
        buffer h' (out0 ++ out).
Proof.
  revert st out out0 h. induction bs as [|x bs IH]; intros st out out0 h E Hb Hby Hcap.
  { injection E as <- <-. exists h. by rewrite app_nil_r. }
  cbn [dec_run] in E. cbn [dec_loop]. destruct st as [[y c] p].
  destruct (dec_step d x (y, c, p)) as [[st1 out1]|] eqn:E1; [|done]. simpl in E.
  destruct (dec_run d bs st1) as [[st2 out2]|] eqn:E2; [|done]. simpl in E. injection E as <- <-.
  assert (Forall is_byte out1) as Hby1.
  { destruct (dec_step_out _ _ _ _ _ _ E1) as [[_ ->]|(? & ? & _ & _ & ->)]; [done|].
    case_match; [apply group_bytes_byte|done]. }
  rewrite app_assoc in Hcap |- *. rewrite (zlen_app (out0 ++ out1)) in Hcap.
  destruct (put_building h out0 out1 Hb Hby1 Hby) as (h1 & Ep & Hb1).
  { pose proof (zlen_nonneg out2). lia. }
  mstep Ep. apply IH; [done|done|by apply Forall_app|by rewrite zlen_app].
Qed.

Lemma dec_loop_app d pre post st p h p' st' h' :
  dec_loop d pre st p h = Ok ((Some p', st'), h') →
  dec_loop d (pre ++ post) st p h = dec_loop d post st' p' h'.
Proof.
  revert st p h. induction pre as [|x pre IH]; intros st p h E.
  { by injection E as -> -> ->. }
  cbn [dec_loop app] in *. destruct (dec_step d x st) as [[st1 out]|]; [|done].
  apply bind_inv in E as (q & h1 & Eq & E). mstep Eq. by apply IH.
Qed.

Lemma dec_loop_fail `{!DecoderShape d} bs st h :
  dec_run d bs st = None → howmany (zlen bs) (dec_symbols d) * dec_bytes d ≤ cap → buffer h [] →
  ∃ st' h' out, dec_loop d bs st (Ptr b 0) h = Ok ((None, st'), h') ∧
                building h0 h' cs rv (Some (b, out)).
Proof.
  intros (pre & x & post & st' & out & -> & Hp & Hx)%dec_run_fail Hcap Hb.
  pose proof (dec_run_fits _ _ _ _ Hp) as Hfit.
  pose proof (symbols_gt1 (d := d)) as Hg.
  destruct (shape_bytes (d := d)) as (Hk & Hk').
  assert (howmany (zlen pre) (dec_symbols d) ≤ howmany (zlen (pre ++ x :: post)) (dec_symbols d)) as Hmono.
  { rewrite zlen_app. pose proof (zlen_nonneg (x :: post)). unfold howmany.
    set (n := zlen pre). set (m := zlen (x :: post)) in *. set (q := dec_symbols d) in *.
    pose proof (Z.div_mod n q ltac:(lia)). pose proof (Z.div_mod (n + m) q ltac:(lia)).
    pose proof (Z.mod_pos_bound n q ltac:(lia)). pose proof (Z.mod_pos_bound (n + m) q ltac:(lia)).
    destruct (n mod q =? 0) eqn:?, ((n + m) mod q =? 0) eqn:?; nia. }
  destruct (dec_loop_spec pre st st' out [] h Hp Hb) as (h' & El & Hb'); [done|simpl; nia|].
  exists st', h', (filled cap ([] ++ out)). split; [|done].
  change (Ptr b 0) with (Ptr b (zlen (@nil Z))). rewrite (dec_loop_app _ _ _ _ _ _ _ _ _ El).
  cbn [dec_loop]. by rewrite Hx.
Qed.
End Loop.

(** ** Decoding region by region *)

(** What decoding a list of regions gives: the bytes, or the reason there are
    none.  [Underflow] is the case in which the padding seen so far exceeds
    what the region produced, and [final -= pad] wraps around. *)
Inductive dec_result :=
| Decoded (st : dec_state) (bs : list Z)
| BadSymbol
| Underflow.

#[export] Instance dec_result_eq_dec : EqDecision dec_result.
Proof. solve_decision. Defined.

Fixpoint decode_regions (d : decoder) (rs : list (list Z)) (st : dec_state) : dec_result :=
  match rs with
  | [] => Decoded st []
  | r :: rs =>
      match dec_run d r st with
      | None => BadSymbol
      | Some (st', out) =>
          let k := dec_unpad d (st'.2) in
          if zlen out <? k then Underflow
          else match decode_regions d rs st' with
               | Decoded st'' bs => Decoded st'' (zslice 0 (zlen out - k) out ++ bs)
               | res => res
               end
      end
  end.

Lemma decode_regions_app d rs rs' st :
  decode_regions d (rs ++ rs') st =
  match decode_regions d rs st with
  | Decoded st' bs =>
      match decode_regions d rs' st' with
      | Decoded st'' bs' => Decoded st'' (bs ++ bs')
      | res => res
      end
  | res => res
  end.
Proof.
  revert st. induction rs as [|r rs IH]; intros st; cbn [decode_regions app].
  - by destruct (decode_regions d rs' st).
  - destruct (dec_run d r st) as [[st' out]|]; [|done]. destruct (zlen out <? _); [done|].
    rewrite IH. destruct (decode_regions d rs st') as [st1 bs1| |]; [|done|done].
    destruct (decode_regions d rs' st1) as [st2 bs2| |]; [|done|done]. by rewrite app_assoc.
Qed.

Section Decode.
Context {d : decoder} `{Hc : !DecoderShape d}.
Context (h0 : heap) (dd : loc) (Hwf : wf h0) (Hlive : live h0 dd)
        (Hok : Forall (λ f, f = false) (malloc_fails h0))
        (Hroom : headroom h0 (zlen (regions h0 dd) + 1))
        (Hmax : zlen (regions h0 dd) + 1 < INT_MAX)
        (Hfit : records_fit (length (regions h0 dd) + 1))
        (Hlen : zlen (data_bytes h0 dd) < 2 ^ 64).
Local Abbreviation g := (dec_symbols d).
Local Abbreviation k := (dec_bytes d).

Lemma no_faults h : malloc_fails h `suffix_of` malloc_fails h0 → malloc_succeeds h.
Proof using Hok.
  intros [fs E]. unfold malloc_succeeds. rewrite E in Hok. apply Forall_app in Hok as [_ Hf].
  destruct Hf as [|f fs' -> _]; done.
Qed.

(** The state between two regions. *)
Definition dec_inv (seen : list (list Z)) (s : dec_state * loc) (h : heap) : Prop :=
  ∃ cs rest, building h0 h cs s.2 None ∧ (length cs ≤ length seen)%nat ∧
    regions h0 dd = seen ++ rest ∧ 0 ≤ s.1.2 ∧
    decode_regions d seen (0, 0, 0) = Decoded s.1 (pieces_bytes cs) ∧
    zlen (pieces_bytes cs) * g + k * (s.1.1.2 mod g) ≤ k * zlen (concat seen).

Lemma seen_bounds seen rest :
  regions h0 dd = seen ++ rest → zlen seen ≤ zlen (regions h0 dd) ∧
  (length seen ≤ length (regions h0 dd))%nat ∧ zlen (concat seen) ≤ zlen (data_bytes h0 dd).
Proof using Hwf Hlive.
  intros Hreg. rewrite <- (regions_concat _ _ Hwf Hlive), Hreg, concat_app, !zlen_app, length_app.
  pose proof (zlen_nonneg rest). pose proof (zlen_nonneg (concat rest)). lia.
Qed.

(** The bytes still to come fit in the object's size. *)
Lemma dec_sizes seen r rest cs st st' out :
  regions h0 dd = seen ++ r :: rest → dec_run d r st = Some (st', out) →
  zlen (pieces_bytes cs) * g + k * (st.1.2 mod g) ≤ k * zlen (concat seen) →
  0 ≤ zlen (pieces_bytes cs) + zlen out < 2 ^ 64 ∧
  (zlen (pieces_bytes cs) + zlen out) * g + k * (st'.1.2 mod g) ≤ k * zlen (concat (seen ++ [r])).
Proof using Hc Hwf Hlive Hlen.
  intros Hreg Hrun Hle. destruct st as [[x c] p].
  destruct (dec_run_out _ _ _ _ _ _ Hrun) as (_ & _ & m & Hm & Hcm & Hz).
  pose proof (symbols_gt1 (d := d)) as Hg.
  destruct (shape_bytes (d := d)) as (Hk0 & Hkg).
  pose proof (zlen_nonneg (pieces_bytes cs)) as Hp0. pose proof (zlen_nonneg out) as Ho0. simpl in Hle.
  assert ((c mod g + m) mod g = st'.1.2 mod g) as Hmod by (rewrite Hcm, Zplus_mod_idemp_l; done).
  pose proof (Z.div_mod (c mod g + m) g ltac:(lia)) as Hdm. rewrite Hmod in Hdm.
  assert (concat (seen ++ [r]) = concat seen ++ r) as Hcs by (rewrite concat_app; simpl; by rewrite app_nil_r).
  assert (zlen (concat (seen ++ [r])) = zlen (concat seen) + zlen r) as Hzs by (by rewrite Hcs, zlen_app).
  assert ((zlen (pieces_bytes cs) + zlen out) * g + k * (st'.1.2 mod g) ≤ k * zlen (concat (seen ++ [r])))
    as Hbound by (rewrite Hzs, Hz; nia).
  destruct (seen_bounds (seen ++ [r]) rest) as (_ & _ & Hs); [by rewrite Hreg, <- app_assoc|].
  split; [|done]. split; [lia|]. pose proof (Z.mod_pos_bound (st'.1.2) g ltac:(lia)).
  pose proof (zlen_nonneg (concat (seen ++ [r]))). clear Hdm Hz Hle. nia.
Qed.

(** The region is read from a block that is not the new buffer. *)
Lemma dec_read h h1 cs rv cap p r :
  building h0 h cs rv None → malloc cap h = Ok (Some (Ptr (next_block h) 0), h1) →
  load (mem h) p (zlen r) = Some r → read_bytes p (zlen r) h1 = Ok (r, h1).
Proof using Hwf Hok.
  intros Hb Em Hload. unfold read_bytes.
  assert (mem h1 = <[next_block h := replicate (Z.to_nat cap) 0]> (mem h)) as ->.
  { rewrite (malloc_eq h cap) in Em by (apply no_faults, Hb). by injection Em as <-. }
  assert (p_block p ≠ next_block h) as Hpb.
  { intros E. apply load_Some in Hload as (blk & Hblk & _). rewrite E in Hblk.
    destruct (building_fresh_block _ _ _ _ _ Hwf Hb) as [Hn0 Hnin].
    rewrite (bld_old_block _ _ _ _ _ Hb) in Hblk by done. by rewrite Hn0 in Hblk. }
  unfold load. rewrite lookup_insert_ne by done. unfold load in Hload. by rewrite Hload.
Qed.

Lemma dec_region_spec seen r rest s h x p off :
  regions h0 dd = seen ++ r :: rest → dec_inv seen s h → load (mem h) p (zlen r) = Some r →
  decode_regions d (seen ++ [r]) (0, 0, 0) ≠ Underflow →
  ∃ b s' h', dec_region d x off p (zlen r) s h = Ok ((b, s'), h') ∧
    if b : bool then dec_inv (seen ++ [r]) s' h'
    else decode_regions d (seen ++ [r]) (0, 0, 0) = BadSymbol ∧ ∃ cs, building h0 h' cs s'.2 None.
Proof using Hc Hwf Hlive Hok Hroom Hmax Hfit Hlen.
  intros Hreg (cs & rest' & Hb & Hlcs & _ & Hpad & Hdec & Hsize) Hload Hnu. destruct s as [st rv].
  cbn [fst snd] in *. rewrite decode_regions_app, Hdec in Hnu |- *. cbn [decode_regions] in *.
  destruct (seen_bounds _ _ Hreg) as (Hs1 & Hs2 & _).
  unfold dec_region. set (cap := howmany (zlen r) g * k).
  destruct (building_malloc h0 h cs rv cap Hwf Hb) as (h1 & Em & Hb1);
    [apply no_faults, Hb|]. mstep Em.
  pose proof (dec_read _ _ _ _ _ _ _ Hb Em Hload) as Erd.
  mstep Erd. replace (replicate (Z.to_nat cap) 0) with (filled cap []) in Hb1
    by (unfold filled; simpl; by rewrite Nat.sub_0_r).
  destruct (dec_run d r st) as [[st' out]|] eqn:Hrun.
  - destruct (zlen out <? dec_unpad d (st'.2)) eqn:Hunder; [done|].
    destruct (dec_sizes _ _ _ cs st st' out Hreg Hrun Hsize) as [Hsz Hsize'].
    destruct st as [[y c] q] eqn:Est. cbn [fst snd] in Hpad.
    destruct (dec_run_out _ _ _ _ _ _ Hrun) as (Hby & Hpad' & _).
    pose proof (shape_unpad (d := d) _ (Hpad' Hpad)) as Hun.
    pose proof (dec_run_fits _ _ _ _ Hrun) as Hfits. fold cap in Hfits.
    destruct (dec_loop_spec h0 cs rv (next_block h) cap r _ st' out [] h1 Hrun Hb1) as (h2 & El & Hb2);
      [done|done|]. cbn [app] in *. mstep El.
    pose proof (zlen_nonneg (pieces_bytes cs)).
    cbn [p_off]. rewrite Z.sub_0_r, wrapu_small by lia.
    destruct (building_append h0 h2 cs rv (next_block h) (filled cap out) (zlen out - dec_unpad d st'.2))
      as (rv' & cs' & h3 & Ea & Hb3 & Hbytes & Hlcs' & _ & _); try done.
    + unfold filled. rewrite zlen_app. pose proof (zlen_nonneg (replicate (Z.to_nat cap - length out) 0)). lia.
    + lia.
    + eapply records_fit_le; [|exact Hfit]. lia.
    + eapply headroom_le; [|exact Hroom]. unfold zlen. lia.
    + unfold zlen in *. lia.
    + mstep Ea. exists true, (st', rv'), h3. split; [done|]. exists cs', rest.
      assert (zslice 0 (zlen out - dec_unpad d st'.2) (filled cap out) =
              zslice 0 (zlen out - dec_unpad d st'.2) out) as Hsl by (apply zslice_app_l; lia).
      rewrite Hsl in Hbytes. cbn [fst snd].
      split_and!; [done|rewrite length_app; simpl; lia|by rewrite Hreg, <- app_assoc|auto| |].
      * rewrite decode_regions_app, Hdec. cbn [decode_regions]. rewrite Hrun, Hunder. by rewrite app_nil_r, Hbytes.
      * rewrite Hbytes, zlen_app, zlen_zslice by lia.
        pose proof (symbols_gt1 (d := d)). nia.
  - destruct (dec_loop_fail h0 cs rv (next_block h) cap r st h1 Hrun) as (st' & h2 & out & El & Hb2);
      [lia|done|]. mstep El.
    destruct (building_free _ _ _ _ _ _ Hb2) as [Ef Hb3]. mstep Ef.
    exists false, (st', rv), (set_mem (delete (next_block h)) h2). split; [done|]. split; [done|].
    by exists cs.
Qed.
End Decode.

Lemma wf_size h dd o : wf h → objs h !! dd = Some o → 0 ≤ size o < 2 ^ 64.
Proof.
  intros Hwf Ho. destruct (decide (dd = dispatch_data_empty)) as [->|Hne].
  - rewrite (wf_empty _ Hwf) in Ho. by injection Ho as <-.
  - destruct (wf_obj _ Hwf _ _ Ho Hne) as [[Hl|Hc] _]; [destruct Hl|destruct Hc]; lia.
Qed.

(** The iteration of a decoder that does not underflow. *)
Lemma decode_apply `{!DecoderShape d} h dd :
  wf h → live h dd → Forall (λ f, f = false) (malloc_fails h) →
  headroom h (zlen (regions h dd) + 1) → zlen (regions h dd) + 1 < INT_MAX →
  records_fit (length (regions h dd) + 1) →
  decode_regions d (regions h dd) (0, 0, 0) ≠ Underflow →
  ∃ b s h', dispatch_data_apply (dec_region d) dd ((0, 0, 0), dispatch_data_empty) h = Ok ((b, s), h') ∧
    if b : bool then dec_inv (d := d) h dd (regions h dd) s h'
    else decode_regions d (regions h dd) (0, 0, 0) = BadSymbol ∧ ∃ cs, building h h' cs s.2 None.
Proof.
  intros Hwf Hlive Hok Hroom Hmax Hfit Hnu. pose proof Hlive as [o Ho].
  assert (zlen (data_bytes h dd) < 2 ^ 64) as Hlen.
  { rewrite (data_bytes_zlen _ _ _ Hwf Ho). by eapply wf_size. }
  apply (apply_spec (dec_region d) (dec_inv (d := d) h dd)
         (λ s h', decode_regions d (regions h dd) (0, 0, 0) = BadSymbol ∧
                  ∃ cs, building h h' cs s.2 None) h dd o Hwf Ho).
  - intros seen s h' (cs & rest & Hb & Hl & Hreg & _).
    destruct (seen_bounds h dd Hwf Hlive _ _ Hreg) as (_ & Hs & _).
    split; [|by eapply building_extends]. eapply building_wf; [done..|].
    eapply records_fit_le; [|exact Hfit]. lia.
  - intros seen r rest s h' x p Hreg Hinv Hload.
    assert (decode_regions d (regions h dd) (0, 0, 0) =
            match decode_regions d (seen ++ [r]) (0, 0, 0) with
            | Decoded st' bs => match decode_regions d rest st' with
                                | Decoded st'' bs' => Decoded st'' (bs ++ bs') | res => res end
            | res => res end) as Hsplit.
    { rewrite Hreg. change (r :: rest) with ([r] ++ rest). by rewrite app_assoc, decode_regions_app. }
    destruct (dec_region_spec h dd Hwf Hlive Hok Hroom Hmax Hfit Hlen seen r rest s h' x p (zlen (concat seen)))
      as (b & s' & h1 & E & Hpost); [done..| |].
    { intros Hu. by rewrite Hsplit, Hu in Hnu. }
    exists b, s', h1. split; [done|]. destruct b; [done|]. destruct Hpost as [Hbad ?].
    split; [|done]. by rewrite Hsplit, Hbad.
  - exists [], (regions h dd). split_and!; try done. apply building_start.
Qed.

(** The decoder on a data object: success, or NULL with the heap restored. *)
Lemma decode_spec `{!DecoderShape d} h dd :
  wf h → live h dd → Forall (λ f, f = false) (malloc_fails h) →
  headroom h (zlen (regions h dd) + 1) → zlen (regions h dd) + 1 < INT_MAX →
  records_fit (length (regions h dd) + 1) →
  match decode_regions d (regions h dd) (0, 0, 0) with
  | Decoded _ bs => returns_data (transform_decode d dd) h bs
  | BadSymbol => ∃ h', transform_decode d dd h = Ok (None, h') ∧ restored h h'
  | Underflow => True
  end.
Proof.
  intros Hwf Hlive Hok Hroom Hmax Hfit.
  destruct (decide (decode_regions d (regions h dd) (0, 0, 0) = Underflow)) as [->|Hnu]; [done|].
  destruct (decode_apply h dd Hwf Hlive Hok Hroom Hmax Hfit Hnu) as ([] & [st rv] & h' & E & Hpost).
  - destruct Hpost as (cs & rest & Hb & Hl & _ & _ & -> & _). cbn [snd] in Hb.
    destruct (building_bytes _ _ _ _ _ Hwf Hb) as [Hlv Hbytes].
    exists rv, h'. unfold transform_decode. split; [by mstep E|]. split_and!; try done.
    + eapply building_wf; [done..|]. eapply records_fit_le; [|exact Hfit]. lia.
    + by eapply building_extends.
    + by eapply building_owned.
  - destruct Hpost as [-> (cs & Hb)]. cbn [snd] in Hb.
    destruct (building_owned _ _ _ _ Hwf Hb) as [_ (h2 & Er & Hres)].
    exists h2. unfold transform_decode. mstep E. by mstep Er.
Qed.
