(* ===== verification/DispatchTransformCorrect.v ===== *)
(** * Base32 and base64: the transforms of the library

    The theorems about the transforms as libdispatch exports them, and the
    inputs on which they do not do what RFC 4648 asks for. *)

From S2P Require Import Prelude DispatchData DispatchDataInv DispatchDataSpec.
From S2P Require Import DispatchDataMap DispatchTransform DispatchTransformCodec.
From S2P Require Import DispatchDataAppend DispatchTransformSpec DispatchTransformDecode.
From S2P Require Import DispatchDataWitness.
Import Data Transform.

(** Base64 encoding: when memory is available and the result fits in a
    [size_t], [_dispatch_transform_to_base64] returns the RFC 4648 encoding of
    the object's bytes, however they are cut into regions; the stores stay
    inside the buffer, and the result is the only thing left behind. *)
Theorem to_base64_rfc4648 h dd :
  wf h → live h dd → malloc_succeeds h → headroom h (1 + Z.of_nat (nrecords h dd)) →
  howmany (zlen (data_bytes h dd)) 3 * 4 ≤ SIZE_T_MAX →
  returns_data (_dispatch_transform_to_base64 dd) h
    (rfc4648 6 3 4 base64_encode_table (data_bytes h dd)).
Proof.
  intros Hwf Hl Hm Hr Hs. pose proof (data_bytes_is_byte h dd Hwf) as Hby.
  pose proof (enc_all_rfc4648 (Hc := base64_codec) _ Hby) as E. cbn [dec_bits enc_bytes enc_symbols base64_decoder base64_encoder] in E.
  rewrite <- E.
  by apply returns_flat_data, (encode_spec (H := base64_codec)).
Qed.

Lemma base32hex_codec :
  Codec (base32_encoder base32hex_encode_table)
        (base32_decoder base32hex_decode_table (zlen base32hex_decode_table)) base32hex_encode_table.
Proof. by apply base32_codec; [apply base32hex_alphabet|]. Qed.

(** Base32 and base32hex encoding: the same, for both alphabets. *)
Theorem to_base32_rfc4648 h dd :
  wf h → live h dd → malloc_succeeds h → headroom h (1 + Z.of_nat (nrecords h dd)) →
  howmany (zlen (data_bytes h dd)) 5 * 8 ≤ SIZE_T_MAX →
  returns_data (_dispatch_transform_to_base32 dd) h
    (rfc4648 5 5 8 base32_encode_table (data_bytes h dd)) ∧
  returns_data (_dispatch_transform_to_base32hex dd) h
    (rfc4648 5 5 8 base32hex_encode_table (data_bytes h dd)).
Proof.
  intros Hwf Hl Hm Hr Hs. pose proof (data_bytes_is_byte h dd Hwf) as Hby.
  pose proof base32hex_codec as Hhex.
  pose proof (enc_all_rfc4648 (Hc := base32_std_codec) _ Hby) as E1.
  pose proof (enc_all_rfc4648 (Hc := Hhex) _ Hby) as E2. 
  cbn [dec_bits enc_bytes enc_symbols base32_decoder base32_encoder] in E1, E2.
  rewrite <- E1, <- E2.
  split; apply returns_flat_data.
  - by apply (encode_spec (H := base32_std_codec)).
  - by apply (encode_spec (H := Hhex)).
Qed.

(** ** Round trips *)

Lemma roundtrip `{Codec e d table} h dd :
  wf h → live h dd → Forall (λ f, f = false) (malloc_fails h) →
  headroom h (2 + Z.of_nat (nrecords h dd)) →
  howmany (zlen (data_bytes h dd)) (enc_bytes e) * enc_symbols e ≤ SIZE_T_MAX →
  ∃ l h1 l' h2, transform_encode e dd h = Ok (Some l, h1) ∧
    transform_decode d l h1 = Ok (Some l', h2) ∧
    wf h2 ∧ extends h h2 ∧ data_bytes h2 l' = data_bytes h dd.
Proof.
  intros Hwf Hl Hm Hr Hs. pose proof (data_bytes_is_byte h dd Hwf) as Hby.
  assert (headroom h 2) as Hr2 by (eapply headroom_le; [|exact Hr]; lia).
  destruct (encode_spec h dd Hwf Hl) as (l & h1 & E1 & Hwf1 & Hext1 & Hl1 & Hb1 & _ & Hreg & Hf & Hr1).
  { unfold malloc_succeeds. destruct Hm as [|f fs ->]; done. }
  { eapply headroom_le; [|exact Hr]. lia. }
  { done. }
  assert (zlen (regions h1 l) ≤ 1 ∧ (length (regions h1 l) ≤ 1)%nat) as [Hz1 Hz2].
  { rewrite Hreg. unfold one_region. destruct (enc_all e _); unfold zlen; simpl; lia. }
  pose proof (decode_spec (d := d) h1 l Hwf1 Hl1) as Hdec.
  assert (∃ st, decode_regions d (regions h1 l) (0, 0, 0) = Decoded st (data_bytes h dd)) as [st Est].
  { rewrite Hreg. destruct (dec_enc_run (d := d) (data_bytes h dd) Hby 0 0 0 0 0)
      as (x' & n' & k & tail & Erun & Hk & Htail); [by apply Zmod_0_l..|].
    change (enc_from e 0 0 (data_bytes h dd)) with (enc_all e (data_bytes h dd)) in Erun.
    change (u64 0) with 0 in Erun. rewrite Z.add_0_l, (wrapu_small 64 k) in Erun by done.
    destruct (enc_all e (data_bytes h dd)) as [|y ys] eqn:Eenc.
    - simpl in Erun. injection Erun as _ _ Hk0 Hnil. symmetry in Hnil.
      apply app_eq_nil in Hnil as [-> _]. by eexists.
    - unfold one_region. cbn [decode_regions]. rewrite Erun. cbn [snd].
      rewrite zlen_app, Htail. destruct (zlen (data_bytes h dd) + dec_unpad d k <? dec_unpad d k) eqn:?;
        [pose proof (zlen_nonneg (data_bytes h dd)); lia|].
      eexists. f_equal. rewrite app_nil_r, zslice_app_l by (pose proof (zlen_nonneg (data_bytes h dd)); lia).
      apply zslice_full. lia. }
  rewrite Est in Hdec. destruct Hdec as (l' & h2 & E2 & Hwf2 & Hext2 & _ & Hb2 & _).
  { destruct Hf as [fs Hf]. rewrite Hf in Hm. by apply Forall_app in Hm as [_ ?]. }
  { eapply headroom_le; [|by apply (Hr1 2)]. lia. }
  { unfold INT_MAX. lia. }
  { apply (records_fit_le _ 2); [lia|]. vm_compute. discriminate. }
  exists l, h1, l', h2. split_and!; try done. by etrans.
Qed.

(** C20. Base64 round trip: decoding what the encoder returned gives an
    object with the bytes of the original. *)
Theorem base64_roundtrip h dd :
  wf h → live h dd → Forall (λ f, f = false) (malloc_fails h) →
  headroom h (2 + Z.of_nat (nrecords h dd)) →
  howmany (zlen (data_bytes h dd)) 3 * 4 ≤ SIZE_T_MAX →
  ∃ l h1 l' h2, _dispatch_transform_to_base64 dd h = Ok (Some l, h1) ∧
    _dispatch_transform_from_base64 l h1 = Ok (Some l', h2) ∧
    wf h2 ∧ extends h h2 ∧ data_bytes h2 l' = data_bytes h dd.
Proof. apply (roundtrip (e := base64_encoder) (d := base64_decoder)). Qed.

(** Base32 round trip. *)
Theorem base32_roundtrip h dd :
  wf h → live h dd → Forall (λ f, f = false) (malloc_fails h) →
  headroom h (2 + Z.of_nat (nrecords h dd)) →
  howmany (zlen (data_bytes h dd)) 5 * 8 ≤ SIZE_T_MAX →
  ∃ l h1 l' h2, _dispatch_transform_to_base32 dd h = Ok (Some l, h1) ∧
    _dispatch_transform_from_base32 l h1 = Ok (Some l', h2) ∧
    wf h2 ∧ extends h h2 ∧ data_bytes h2 l' = data_bytes h dd.
Proof. apply (roundtrip (H := base32_std_codec)). Qed.

(** ** Unpadded input *)

Section Unpadded.
Context (d : decoder) `{!DecoderShape d} (Hnone : dec_unpad d 0 = 0)
        (Hequals : ∀ b, is_byte b → tbl (dec_table d) b = -2 → b = EQUALS).

Lemma dec_run_no_pad bs x c st out :
  Forall is_byte bs → EQUALS ∉ bs → dec_run d bs (x, c, 0) = Some (st, out) → st.2 = 0.
Proof using Hequals.
  revert x c out. induction bs as [|b bs IH]; intros x c out Hby Hne; [by intros [= <- _]|].
  apply Forall_cons in Hby as [Hb Hby]. apply not_elem_of_cons in Hne as [Hne1 Hne].
  cbn [dec_run]. destruct (dec_step d b (x, c, 0)) as [[[[x1 c1] p1] out1]|] eqn:E1; [|done].
  assert (p1 = 0) as ->.
  { revert E1. unfold dec_step. destruct (is_space b); [by intros [= <- <- <- <-]|].
    destruct (_ || _); [done|]. destruct (tbl (dec_table d) b =? -2) eqn:E.
    - apply Z.eqb_eq, Hequals in E; done.
    - by intros [= <- <- <- <-]. }
  simpl. destruct (dec_run d bs (x1, c1, 0)) as [[st2 out2]|] eqn:E2; [|done].
  simpl. intros [= <- _]. by eapply IH.
Qed.

Lemma decode_regions_unpadded rs x c :
  Forall is_byte (concat rs) → EQUALS ∉ concat rs →
  decode_regions d rs (x, c, 0) =
  match dec_run d (concat rs) (x, c, 0) with
  | Some (st, out) => Decoded st out
  | None => BadSymbol
  end.
Proof using Hequals Hnone.
  revert x c. induction rs as [|r rs IH]; intros x c Hby Hne; [done|].
  cbn [concat decode_regions] in *. apply Forall_app in Hby as [Hby1 Hby2].
  apply not_elem_of_app in Hne as [Hne1 Hne2]. rewrite dec_run_app.
  destruct (dec_run d r (x, c, 0)) as [[[[x1 c1] p1] out1]|] eqn:E1; [|done].
  pose proof (dec_run_no_pad _ _ _ _ _ Hby1 Hne1 E1) as Hp. simpl in Hp. subst p1. simpl.
  rewrite Hnone. destruct (zlen out1 <? 0) eqn:?; [pose proof (zlen_nonneg out1); lia|].
  rewrite IH by done. destruct (dec_run d (concat rs) (x1, c1, 0)) as [[st2 out2]|]; [|done].
  simpl. do 2 f_equal. apply zslice_full. lia.
Qed.

Lemma decode_unpadded h dd :
  wf h → live h dd → Forall (λ f, f = false) (malloc_fails h) →
  headroom h (zlen (regions h dd) + 1) → zlen (regions h dd) + 1 < INT_MAX →
  records_fit (length (regions h dd) + 1) → EQUALS ∉ data_bytes h dd →
  match dec_run d (data_bytes h dd) (0, 0, 0) with
  | Some (_, out) => returns_data (transform_decode d dd) h out
  | None => ∃ h', transform_decode d dd h = Ok (None, h') ∧ restored h h'
  end.
Proof using DecoderShape0 Hequals Hnone.
  intros Hwf Hl Hok Hroom Hmax Hfit Hne.
  pose proof (decode_spec (d := d) h dd Hwf Hl Hok Hroom Hmax Hfit) as Hdec.
  pose proof (data_bytes_is_byte h dd Hwf) as Hby. rewrite <- (regions_concat _ _ Hwf Hl) in *.
  rewrite decode_regions_unpadded in Hdec by done.
  by destruct (dec_run d (concat (regions h dd)) (0, 0, 0)) as [[st out]|].
Qed.
End Unpadded.

Lemma only_equals table :
  forallb (λ b, negb (tbl table b =? -2) || (b =? EQUALS)) (seqZ 0 256) = true →
  ∀ b, is_byte b → tbl table b = -2 → b = EQUALS.
Proof.
  rewrite forallb_forall. intros H b Hb E. specialize (H b).
  rewrite <- list_elem_of_In, elem_of_seqZ in H. unfold is_byte in Hb. specialize (H ltac:(lia)).
  rewrite E in H. simpl in H. lia.
Qed.

(** Decoding unpadded input: for data without '=', the base64 and base32
    decoders give, whatever the cuts between regions, what they give on the
    whole string (white space skipped); a symbol outside the alphabet makes
    them return NULL with everything given back. *)
Theorem decode_unpadded_fragments h dd :
  wf h → live h dd → Forall (λ f, f = false) (malloc_fails h) →
  headroom h (zlen (regions h dd) + 1) → zlen (regions h dd) + 1 < INT_MAX →
  records_fit (length (regions h dd) + 1) → EQUALS ∉ data_bytes h dd →
  match dec_run base64_decoder (data_bytes h dd) (0, 0, 0) with
  | Some (_, out) => returns_data (_dispatch_transform_from_base64 dd) h out
  | None => ∃ h', _dispatch_transform_from_base64 dd h = Ok (None, h') ∧ restored h h'
  end ∧
  match dec_run (base32_decoder base32_decode_table base32_decode_table_size)
          (data_bytes h dd) (0, 0, 0) with
  | Some (_, out) => returns_data (_dispatch_transform_from_base32 dd) h out
  | None => ∃ h', _dispatch_transform_from_base32 dd h = Ok (None, h') ∧ restored h h'
  end.
Proof.
  intros. split.
  - apply (decode_unpadded base64_decoder); try done. apply only_equals. vm_compute. reflexivity.
  - apply (decode_unpadded (base32_decoder base32_decode_table base32_decode_table_size)); try done.
    apply only_equals. vm_compute. reflexivity.
Qed.

(** ** Inputs that are not decoded *)

Definition base32hex_decoder_as_written : decoder :=
  base32_decoder base32hex_decode_table base32hex_decode_table_size.

Lemma hex_step_fails b st : is_byte b → is_space b = false →
  dec_step base32hex_decoder_as_written b st = None.
Proof.
  intros Hb Hs. destruct st as [[x c] p]. unfold dec_step. rewrite Hs.
  destruct (_ <=? b) eqn:E; [done|]. apply Z.leb_gt in E.
  assert (forallb (λ b, tbl base32hex_decode_table b =? -1) (seqZ 0 33) = true) as H
    by (vm_compute; reflexivity).
  rewrite forallb_forall in H. specialize (H b). rewrite <- list_elem_of_In, elem_of_seqZ in H.
  cbn [dec_table base32hex_decoder_as_written base32_decoder]. unfold is_byte in Hb.
  rewrite H; [done|]. change (dec_table_size base32hex_decoder_as_written) with 33 in E. lia.
Qed.

Lemma hex_run_fails bs st b :
  Forall is_byte bs → b ∈ bs → is_space b = false →
  dec_run base32hex_decoder_as_written bs st = None.
Proof.
  intros Hby Hin Hs. induction Hby as [|b' bs Hb' Hby IH]; [by apply elem_of_nil in Hin|].
  cbn [dec_run]. destruct (is_space b') eqn:Hs'.
  - destruct st as [[x c] p]. unfold dec_step. rewrite Hs'. simpl.
    rewrite IH; [done|]. apply elem_of_cons in Hin as [->|Hin]; [congruence|done].
  - by rewrite hex_step_fails.
Qed.

(** Base32hex is never decoded: because the bound of the decoding table
    is the size of the encoding table,
    [_dispatch_transform_from_base32hex] returns NULL on every input with a
    symbol, RFC 4648 encodings included. *)
Theorem from_base32hex_rejects h dd b :
  wf h → live h dd → Forall (λ f, f = false) (malloc_fails h) →
  headroom h (zlen (regions h dd) + 1) → zlen (regions h dd) + 1 < INT_MAX →
  records_fit (length (regions h dd) + 1) →
  b ∈ data_bytes h dd → is_space b = false →
  ∃ h', _dispatch_transform_from_base32hex dd h = Ok (None, h') ∧ restored h h'.
Proof.
  intros Hwf Hl Hok Hroom Hmax Hfit Hin Hs.
  pose proof (decode_spec (d := base32hex_decoder_as_written) h dd Hwf Hl Hok Hroom Hmax Hfit) as Hdec.
  assert (decode_regions base32hex_decoder_as_written (regions h dd) (0, 0, 0) = BadSymbol) as Hbad;
    [|by rewrite Hbad in Hdec].
  pose proof (data_bytes_is_byte h dd Hwf) as Hby. rewrite <- (regions_concat _ _ Hwf Hl) in Hby, Hin.
  clear -Hby Hin Hs. generalize 0 at 1 as x. generalize 0 at 1 as c.
  induction (regions h dd) as [|r rs IH]; intros c x; [by apply elem_of_nil in Hin|].
  cbn [concat] in *. apply Forall_app in Hby as [Hby1 Hby2]. cbn [decode_regions].
  destruct (dec_run base32hex_decoder_as_written r (x, c, 0)) as [[st out]|] eqn:E; [|done].
  apply elem_of_app in Hin as [Hin|Hin]; [by rewrite (hex_run_fails r _ b) in E|].
  assert (st = (x, c, 0) ∧ out = []) as [-> ->].
  { clear -E Hby1. revert out E. induction Hby1 as [|b r Hb _ IH]; intros out E.
    - by injection E as <- <-.
    - cbn [dec_run] in E. destruct (is_space b) eqn:Hsp; [|by rewrite hex_step_fails in E].
      assert (dec_step base32hex_decoder_as_written b (x, c, 0) = Some ((x, c, 0), [])) as Es
        by (unfold dec_step; by rewrite Hsp).
      rewrite Es in E. simpl in E.
      destruct (dec_run base32hex_decoder_as_written r (x, c, 0)) as [[st2 out2]|]; [|done].
      simpl in E. injection E as -> ->. by apply IH. }
  simpl. by rewrite IH.
Qed.

(** A line "QQ==\n" whose newline is in a region of its own. *)
Definition line_in_two : heap :=
  composite_heap
    (leaf_heap (block_heap (initial_heap []) [] [81; 81; 61; 61; 10]) (Ptr 1 0) 5 DESTRUCTOR_FREE None)
    [RR leaf 0 4; RR leaf 4 1] 5.

Definition result_size (r : outcome (option loc * heap)) : option Z :=
  match r with
  | Ok (Some l, h) => size <$> objs h !! l
  | _ => None
  end.

(** Padding before the last region underflows: the base64 line "QQ==",
    with its newline, decodes to one byte when it is one region, but when the
    newline is in a region of its own, [final -= pad] wraps around there and
    the decoder returns an object that claims 2^64 - 1 bytes. *)
Theorem from_base64_padding_underflows :
  data_bytes line_in_two pair = [81; 81; 61; 61; 10] ∧
  data_bytes line_in_two leaf = data_bytes line_in_two pair ∧
  result_size (_dispatch_transform_from_base64 leaf line_in_two) = Some 1 ∧
  result_size (_dispatch_transform_from_base64 pair line_in_two) = Some (2 ^ 64 - 1).
Proof. vm_compute. auto. Qed.

(** ** The theorems on a concrete heap *)

Lemma to_base64_witness :
  ∃ l h', _dispatch_transform_to_base64 pair (demo []) = Ok (Some l, h') ∧
          data_bytes h' l = [65; 81; 73; 68; 65; 103; 77; 61].
Proof.
  destruct (to_base64_rfc4648 (demo []) pair) as (l & h' & E & _ & _ & _ & Hb & _);
    [apply wf_demo|apply live_pair_demo|done|by apply headroom_checked|done|].
  exists l, h'. split; [exact E|]. rewrite Hb. vm_compute. reflexivity.
Defined.

Lemma to_base32_witness :
  ∃ l h', _dispatch_transform_to_base32 pair (demo []) = Ok (Some l, h') ∧ zlen (data_bytes h' l) = 8.
Proof.
  destruct (to_base32_rfc4648 (demo []) pair) as [(l & h' & E & _ & _ & _ & Hb & _) _];
    [apply wf_demo|apply live_pair_demo|done|by apply headroom_checked|done|].
  exists l, h'. split; [exact E|]. rewrite Hb. vm_compute. reflexivity.
Defined.

Lemma base64_roundtrip_witness :
  ∃ l h1 l' h2, _dispatch_transform_to_base64 pair (demo []) = Ok (Some l, h1) ∧
    _dispatch_transform_from_base64 l h1 = Ok (Some l', h2) ∧ data_bytes h2 l' = [1; 2; 3; 2; 3].
Proof.
  destruct (base64_roundtrip (demo []) pair) as (l & h1 & l' & h2 & E1 & E2 & _ & _ & Hb);
    [apply wf_demo|apply live_pair_demo|constructor|by apply headroom_checked|done|].
  exists l, h1, l', h2. split; [exact E1|]. split; [exact E2|exact Hb].
Defined.

Lemma base32_roundtrip_witness :
  ∃ l h1 l' h2, _dispatch_transform_to_base32 pair (demo []) = Ok (Some l, h1) ∧
    _dispatch_transform_from_base32 l h1 = Ok (Some l', h2) ∧ data_bytes h2 l' = [1; 2; 3; 2; 3].
Proof.
  destruct (base32_roundtrip (demo []) pair) as (l & h1 & l' & h2 & E1 & E2 & _ & _ & Hb);
    [apply wf_demo|apply live_pair_demo|constructor|by apply headroom_checked|done|].
  exists l, h1, l', h2. split; [exact E1|]. split; [exact E2|exact Hb].
Defined.

(** The bytes of the demonstration heap are not symbols. *)
Lemma decode_unpadded_witness :
  ∃ h', _dispatch_transform_from_base64 pair (demo []) = Ok (None, h') ∧ restored (demo []) h'.
Proof.
  destruct (decode_unpadded_fragments (demo []) pair) as [H _];
    [apply wf_demo|apply live_pair_demo|constructor|by apply headroom_checked|done|done| |].
  - vm_compute. intros Hin. repeat (apply elem_of_cons in Hin as [Hin|Hin]; [discriminate Hin|]).
    by apply elem_of_nil in Hin.
  - exact H.
Defined.

Lemma from_base32hex_rejects_witness :
  ∃ h', _dispatch_transform_from_base32hex pair (demo []) = Ok (None, h') ∧ restored (demo []) h'.
Proof.
  apply (from_base32hex_rejects (demo []) pair 1);
    [apply wf_demo|apply live_pair_demo|constructor|by apply headroom_checked|done|done|left|done].
Defined.
