(* ===== verification/DispatchUnicode.v ===== *)
(** * UTF-8 and UTF-16 for the transforms: encodings on lists

    The encodings of a Unicode scalar value (RFC 3629, RFC 2781) with division
    and remainder, and the bit operations of [transform.c] that compute them:
    the length of a sequence from its first byte, the bytes of a code point,
    surrogates and byte order. *)

From Stdlib Require Import ZifyBool.
From S2P Require Import Prelude DispatchData DispatchDataInv DispatchDataSpec DispatchDataMap DispatchTransform DispatchDataAppend DispatchTransformSpec.
Import Data Transform.

Definition scalar (c : Z) : Prop := 0 ≤ c < 0xd800 ∨ 0xe000 ≤ c < 0x110000.

Definition utf8 (c : Z) : list Z :=
  if c <? 0x80 then [c]
  else if c <? 0x800 then [0xc0 + c / 64; 0x80 + c mod 64]
  else if c <? 0x10000 then [0xe0 + c / 4096; 0x80 + c / 64 mod 64; 0x80 + c mod 64]
  else [0xf0 + c / 262144; 0x80 + c / 4096 mod 64; 0x80 + c / 64 mod 64; 0x80 + c mod 64].

(** The 16-bit units. *)
Definition utf16 (c : Z) : list Z :=
  if c <? 0x10000 then [c]
  else [0xd800 + (c - 0x10000) / 1024; 0xdc00 + (c - 0x10000) mod 1024].

Definition unit_bytes (byteOrder u : Z) : list Z :=
  if byteOrder =? OSLittleEndian then [u mod 256; u / 256] else [u / 256; u mod 256].

Definition utf16_bytes (byteOrder c : Z) : list Z := mjoin (unit_bytes byteOrder <$> utf16 c).

Definition utf8s (cs : list Z) : list Z := mjoin (utf8 <$> cs).
Definition utf16s (byteOrder : Z) (cs : list Z) : list Z := mjoin (utf16_bytes byteOrder <$> cs).

Lemma utf8s_cons c cs : utf8s (c :: cs) = utf8 c ++ utf8s cs.
Proof. done. Qed.
Lemma utf8s_app cs cs' : utf8s (cs ++ cs') = utf8s cs ++ utf8s cs'.
Proof. unfold utf8s. by rewrite fmap_app, join_app. Qed.
Lemma utf16s_cons bo c cs : utf16s bo (c :: cs) = utf16_bytes bo c ++ utf16s bo cs.
Proof. done. Qed.
Lemma utf16s_app bo cs cs' : utf16s bo (cs ++ cs') = utf16s bo cs ++ utf16s bo cs'.
Proof. unfold utf16s. by rewrite fmap_app, join_app. Qed.

(** ** Bit operations on disjoint bits *)

Lemma land_disjoint k x y : 0 ≤ k → 0 ≤ x < 2 ^ k → Z.land (Z.shiftl y k) x = 0.
Proof.
  intros Hk Hx. apply Z.bits_inj'. intros i Hi. rewrite Z.land_spec, Z.bits_0.
  destruct (decide (i < k)); [by rewrite Z.shiftl_spec_low|].
  rewrite <- (Z.mod_small x (2 ^ k)) by done. rewrite Z.mod_pow2_bits_high by lia. apply andb_false_r.
Qed.

Lemma lor_disjoint k x y z :
  0 ≤ k → 0 ≤ x < 2 ^ k → y = z * 2 ^ k → Z.lor y x = y + x.
Proof.
  intros Hk Hx ->. rewrite <- Z.shiftl_mul_pow2 by done.
  rewrite <- Z.add_lor_land, land_disjoint by done. lia.
Qed.

Lemma land_63 x : Z.land x 0x3f = x mod 64.
Proof. by apply (Z.land_ones x 6). Qed.

(** The top bits of a byte of a sequence and the payload under them. *)
Lemma lor_80 x : 0 ≤ x < 64 → Z.lor 0x80 x = 0x80 + x.
Proof. intros. by apply (lor_disjoint 6 x 0x80 2). Qed.
Lemma lor_c0 x : 0 ≤ x < 32 → Z.lor 0xc0 x = 0xc0 + x.
Proof. intros. by apply (lor_disjoint 5 x 0xc0 6). Qed.
Lemma lor_e0 x : 0 ≤ x < 16 → Z.lor 0xe0 x = 0xe0 + x.
Proof. intros. by apply (lor_disjoint 4 x 0xe0 14). Qed.
Lemma lor_f0 x : 0 ≤ x < 8 → Z.lor 0xf0 x = 0xf0 + x.
Proof. intros. by apply (lor_disjoint 3 x 0xf0 30). Qed.

(** Bounds of the digits to base 64. *)
Ltac digits c :=
  pose proof (Z.mod_pos_bound c 64 ltac:(lia)); pose proof (Z.mod_pos_bound (c / 64) 64 ltac:(lia));
  pose proof (Z.mod_pos_bound (c / 4096) 64 ltac:(lia)).

Lemma shiftr_6 c : Z.shiftr c 6 = c / 64.
Proof. by rewrite Z.shiftr_div_pow2. Qed.
Lemma shiftr_12 c : Z.shiftr c 12 = c / 4096.
Proof. by rewrite Z.shiftr_div_pow2. Qed.
Lemma shiftr_18 c : Z.shiftr c 18 = c / 262144.
Proof. by rewrite Z.shiftr_div_pow2. Qed.

(** The code computes RFC 3629. *)
Lemma utf8_bytes_eq c : scalar c → utf8_bytes c = utf8 c.
Proof.
  intros Hc. unfold utf8_bytes, utf8. rewrite shiftr_6, shiftr_12, shiftr_18, !land_63. digits c.
  assert (0 ≤ c < 0x110000) as Hr by (unfold scalar in Hc; lia).
  destruct (Z.ltb_spec c 0x80).
  { f_equal. change 0xff with (Z.ones 8). rewrite Z.land_ones by lia. apply Z.mod_small. lia. }
  destruct (Z.ltb_spec c 0x800).
  { rewrite lor_c0, lor_80; [done|lia|]. split; [by apply Z.div_pos; lia|apply Z.div_lt_upper_bound; lia]. }
  destruct (Z.ltb_spec c 0x10000).
  { rewrite lor_e0, !lor_80; try done. split; [by apply Z.div_pos; lia|apply Z.div_lt_upper_bound; lia]. }
  destruct (Z.ltb_spec c 0x200000); [|lia].
  rewrite lor_f0, !lor_80; try done. split; [by apply Z.div_pos; lia|apply Z.div_lt_upper_bound; lia].
Qed.

Lemma utf8_is_byte c : scalar c → Forall is_byte (utf8 c).
Proof.
  intros Hc. unfold utf8, is_byte. digits c. assert (0 ≤ c < 0x110000) as Hr by (unfold scalar in Hc; lia).
  assert (0 ≤ c / 64 ∧ 0 ≤ c / 4096 ∧ 0 ≤ c / 262144 < 8) as (? & ? & ?).
  { split_and!; try (apply Z.div_pos; lia). apply Z.div_lt_upper_bound; lia. }
  destruct (Z.ltb_spec c 0x80); [repeat constructor; lia|].
  destruct (Z.ltb_spec c 0x800).
  { assert (c / 64 < 32) by (apply Z.div_lt_upper_bound; lia). repeat constructor; lia. }
  destruct (Z.ltb_spec c 0x10000); [|repeat constructor; lia].
  assert (c / 4096 < 16) by (apply Z.div_lt_upper_bound; lia). repeat constructor; lia.
Qed.

(** ** Reading a sequence *)

Definition all_bytes (f : Z → bool) : bool := forallb (f ∘ Z.of_nat) (seq 0 256).

Lemma all_bytes_spec f b : all_bytes f = true → 0 ≤ b < 256 → f b = true.
Proof.
  unfold all_bytes. rewrite forallb_forall. intros Hf Hb.
  rewrite <- (Z2Nat.id b) by lia. apply (Hf (Z.to_nat b)), in_seq. lia.
Qed.

(** The length of a sequence and the payload of its first byte. *)
Definition first_byte_ok (b : Z) : bool :=
  let n := _dispatch_transform_utf8_length b in
  if b <? 0x80 then (n =? 1) && (Z.land b 0x7f =? b)
  else if b <? 0xc0 then n =? 0
  else if b <? 0xe0 then (n =? 2) && (Z.land b 0x1f =? b - 0xc0)
  else if b <? 0xf0 then (n =? 3) && (Z.land b 0xf =? b - 0xe0)
  else if b <? 0xf8 then (n =? 4) && (Z.land b 0x7 =? b - 0xf0)
  else n =? 0.

Lemma first_byte_check b : 0 ≤ b < 256 → first_byte_ok b = true.
Proof. apply all_bytes_spec. vm_compute. done. Qed.

Lemma first_byte_cases b :
  0 ≤ b < 256 →
  (b < 0x80 → _dispatch_transform_utf8_length b = 1) ∧
  (0xc0 ≤ b < 0xe0 → _dispatch_transform_utf8_length b = 2 ∧ Z.land b 0x1f = b - 0xc0) ∧
  (0xe0 ≤ b < 0xf0 → _dispatch_transform_utf8_length b = 3 ∧ Z.land b 0xf = b - 0xe0) ∧
  (0xf0 ≤ b < 0xf8 → _dispatch_transform_utf8_length b = 4 ∧ Z.land b 0x7 = b - 0xf0).
Proof.
  intros Hb%first_byte_check. unfold first_byte_ok in Hb.
  destruct (b <? 0x80) eqn:?; [lia|]. destruct (b <? 0xc0) eqn:?; [lia|].
  destruct (b <? 0xe0) eqn:?; [lia|]. destruct (b <? 0xf0) eqn:?; [lia|].
  destruct (b <? 0xf8) eqn:?; lia.
Qed.

Definition continuation_ok (b : Z) : bool :=
  if (0x80 <=? b) && (b <? 0xc0) then Z.land b 0x3f =? b - 0x80 else true.

Lemma continuation_check b : 0x80 ≤ b < 0xc0 → Z.land b 0x3f = b - 0x80.
Proof.
  intros Hb. assert (continuation_ok b = true) as Hc by (apply all_bytes_spec; [by vm_compute|lia]).
  unfold continuation_ok in Hc. destruct (Z.leb_spec 0x80 b), (Z.ltb_spec b 0xc0); try lia.
  by apply Z.eqb_eq in Hc.
Qed.

(** What [_dispatch_transform_read_utf8_sequence] computes from the bytes. *)
Fixpoint continue_wch (bs : list Z) (wch : Z) : Z :=
  match bs with
  | [] => wch
  | b :: bs =>
    let wch := Z.lor wch (Z.land b 0x3f) in
    continue_wch bs (match bs with [] => wch | _ => u32 (Z.shiftl wch 6) end)
  end.

Definition sequence_wch (bs : list Z) : Z :=
  match bs with
  | [] => 0
  | b :: bs =>
    let n := zlen bs in
    continue_wch bs
      (if n =? 3 then u32 (Z.shiftl (Z.land b 0x7) 6)
       else if n =? 2 then u32 (Z.shiftl (Z.land b 0xf) 6)
       else if n =? 1 then u32 (Z.shiftl (Z.land b 0x1f) 6)
       else Z.land b 0x7f)
  end.

(** The step of the loop, when the next byte is a continuation byte. *)
Lemma lor_continuation w d :
  0 ≤ d < 64 → Z.lor (w * 64) (Z.land (0x80 + d) 0x3f) = w * 64 + d.
Proof.
  intros Hd. rewrite continuation_check by lia. replace (0x80 + d - 0x80) with d by lia.
  by apply (lor_disjoint 6 d _ w).
Qed.

Lemma shift6_u32 w : 0 ≤ w < 2 ^ 26 → u32 (Z.shiftl w 6) = w * 64.
Proof. intros. rewrite Z.shiftl_mul_pow2 by lia. apply wrapu_small. lia. Qed.

Lemma utf8_length c : scalar c → ∃ b bs, utf8 c = b :: bs ∧ is_byte b ∧
  _dispatch_transform_utf8_length b = zlen (utf8 c) ∧ 1 ≤ zlen (utf8 c) ≤ 4.
Proof.
  intros Hc. pose proof (utf8_is_byte c Hc) as Hby. unfold utf8 in *.
  assert (0 ≤ c < 0x110000) as Hr by (unfold scalar in Hc; lia).
  assert (0 ≤ c / 64 ∧ 0 ≤ c / 4096 ∧ 0 ≤ c / 262144 < 8) as (? & ? & ?).
  { split_and!; try (apply Z.div_pos; lia). apply Z.div_lt_upper_bound; lia. }
  destruct (Z.ltb_spec c 0x80); [|destruct (Z.ltb_spec c 0x800); [|destruct (Z.ltb_spec c 0x10000)]];
    eexists _, _; (split; [reflexivity|]); inversion_clear Hby as [|?? Hb _]; (split; [done|]);
    unfold zlen; simpl length; (split; [|lia]); destruct (first_byte_cases _ Hb) as (L1 & L2 & L3 & L4).
  - by apply L1.
  - assert (c / 64 < 32) by (apply Z.div_lt_upper_bound; lia). apply L2. lia.
  - assert (c / 4096 < 16) by (apply Z.div_lt_upper_bound; lia). apply L3. lia.
  - apply L4. lia.
Qed.

Lemma sequence_wch_utf8 c : scalar c → sequence_wch (utf8 c) = c.
Proof.
  intros Hc. digits c. assert (0 ≤ c < 0x110000) as Hr by (unfold scalar in Hc; lia).
  assert (0 ≤ c / 64 ∧ 0 ≤ c / 4096 ∧ 0 ≤ c / 262144 < 8) as (? & ? & ?).
  { split_and!; try (apply Z.div_pos; lia). apply Z.div_lt_upper_bound; lia. }
  pose proof (Z.div_mod c 64 ltac:(lia)). pose proof (Z.div_mod (c / 64) 64 ltac:(lia)) as H64.
  pose proof (Z.div_mod (c / 4096) 64 ltac:(lia)) as H4096.
  rewrite Z.div_div in H64, H4096 by lia. change (64 * 64) with 4096 in H64.
  change (4096 * 64) with 262144 in H4096.
  unfold utf8. destruct (Z.ltb_spec c 0x80).
  { simpl. change 0x7f with (Z.ones 7). rewrite Z.land_ones by lia. apply Z.mod_small. lia. }
  destruct (Z.ltb_spec c 0x800); [|destruct (Z.ltb_spec c 0x10000)]; unfold sequence_wch, zlen;
    cbn [length continue_wch]; change (Z.of_nat 1) with 1; change (Z.of_nat 2) with 2;
    change (Z.of_nat 3) with 3; cbn [Z.eqb Pos.eqb].
  - assert (c / 64 < 32) by (apply Z.div_lt_upper_bound; lia).
    destruct (first_byte_cases (0xc0 + c / 64) ltac:(lia)) as (_ & L2 & L3 & L4).
    destruct L2 as [_ ->]; [lia|].
    rewrite shift6_u32, lor_continuation by lia. lia.
  - assert (c / 4096 < 16) by (apply Z.div_lt_upper_bound; lia).
    destruct (first_byte_cases (0xe0 + c / 4096) ltac:(lia)) as (_ & L2 & L3 & L4).
    destruct L3 as [_ ->]; [lia|].
    rewrite (shift6_u32 (0xe0 + _ - 0xe0)), lor_continuation, shift6_u32, lor_continuation by lia. lia.
  - destruct (first_byte_cases (0xf0 + c / 262144) ltac:(lia)) as (_ & L2 & L3 & L4).
    destruct L4 as [_ ->]; [lia|].
    rewrite (shift6_u32 (0xf0 + _ - 0xf0)), lor_continuation by lia.
    rewrite (shift6_u32 ((0xf0 + _ - 0xf0) * 64 + _)), lor_continuation, shift6_u32, lor_continuation by lia.
    lia.
Qed.

(** ** Units *)

Definition unit_ok (u : Z) : Prop := 0 ≤ u < 0x10000.

Lemma swap16_eq u : unit_ok u → swap16 u = u mod 256 * 256 + u / 256.
Proof.
  unfold unit_ok. intros Hu. unfold swap16. rewrite Z.shiftr_div_pow2, Z.shiftl_mul_pow2 by lia.
  change (2 ^ 8) with 256. assert (0 ≤ u / 256 < 256) by (split; [apply Z.div_pos|apply Z.div_lt_upper_bound]; lia).
  rewrite (lor_disjoint 8 (u / 256) _ u) by (change (2 ^ 8) with 256; lia).
  unfold wrapu. pose proof (Z.div_mod u 256). pose proof (Z.mod_pos_bound u 256).
  symmetry. apply (Z.mod_unique_pos _ _ (u / 256)); change (2 ^ 16) with 65536; lia.
Qed.

(** The two bytes stored for a unit, in either order. *)
Lemma store_unit bo u : unit_ok u →
  let v := _dispatch_transform_swap_from_host u bo in
  [u8 v; u8 (Z.shiftr v 8)] = unit_bytes bo u.
Proof.
  intros Hu. pose proof Hu as Hu'. unfold unit_ok in Hu'. cbv zeta. unfold unit_bytes, _dispatch_transform_swap_from_host.
  assert (0 ≤ u / 256 < 256) by (split; [apply Z.div_pos|apply Z.div_lt_upper_bound]; lia).
  pose proof (Z.mod_pos_bound u 256). rewrite Z.shiftr_div_pow2 by lia. unfold wrapu. change (2 ^ 8) with 256.
  destruct (bo =? OSLittleEndian).
  - by rewrite (Z.mod_small (u / 256)).
  - rewrite swap16_eq by done. rewrite (Z.add_comm (_ * 256)), Z.mod_add, Z.div_add by lia.
    rewrite (Z.div_small (u / 256)), (Z.mod_small (u / 256)) by lia. rewrite Z.add_0_l, Z.mod_mod by lia. done.
Qed.

Lemma load_unit bo u : unit_ok u →
  _dispatch_transform_swap_to_host (nth 0 (unit_bytes bo u) 0 + 256 * nth 1 (unit_bytes bo u) 0) bo = u.
Proof.
  unfold unit_ok. intros Hu. unfold unit_bytes, _dispatch_transform_swap_to_host.
  assert (0 ≤ u / 256 < 256) by (split; [apply Z.div_pos|apply Z.div_lt_upper_bound]; lia).
  pose proof (Z.mod_pos_bound u 256). pose proof (Z.div_mod u 256).
  destruct (bo =? OSLittleEndian); simpl nth; [lia|].
  replace (u / 256 + 256 * (u mod 256)) with (u / 256 + u mod 256 * 256) by lia.
  rewrite swap16_eq by (unfold unit_ok; lia). rewrite Z.mod_add, Z.div_add by lia.
  rewrite (Z.div_small (u / 256)), (Z.mod_small (u / 256)) by lia. lia.
Qed.

Lemma unit_bytes_ok bo u : unit_ok u → Forall is_byte (unit_bytes bo u) ∧ zlen (unit_bytes bo u) = 2.
Proof.
  unfold unit_ok. intros Hu. unfold unit_bytes, is_byte.
  assert (0 ≤ u / 256 < 256) by (split; [apply Z.div_pos|apply Z.div_lt_upper_bound]; lia).
  pose proof (Z.mod_pos_bound u 256). destruct (bo =? OSLittleEndian); (split; [|done]); repeat constructor; lia.
Qed.

Lemma utf16_units c : scalar c → Forall unit_ok (utf16 c).
Proof.
  unfold scalar. intros Hc. unfold utf16, unit_ok. destruct (Z.ltb_spec c 0x10000); [repeat constructor; lia|].
  assert (0 ≤ (c - 0x10000) / 1024 < 1024) by (split; [apply Z.div_pos|apply Z.div_lt_upper_bound]; lia).
  pose proof (Z.mod_pos_bound (c - 0x10000) 1024). repeat constructor; lia.
Qed.

(** Surrogates: the code's shifts and masks, both ways. *)
Lemma surrogates c : 0x10000 ≤ c < 0x110000 →
  let hi := Z.land (Z.shiftr (c - 0x10000) 10) 0x3ff + 0xd800 in
  let lo := Z.land (c - 0x10000) 0x3ff + 0xdc00 in
  utf16 c = [hi; lo] ∧ 0xd800 ≤ hi ≤ 0xdbff ∧ 0xdc00 ≤ lo ≤ 0xdfff ∧
  Z.lor (Z.shiftl (hi - 0xd800) 10) (Z.land lo 0x3ff) + 0x10000 = c.
Proof.
  intros Hc hi lo. set (w := c - 0x10000) in *.
  assert (0 ≤ w / 1024 < 1024) by (unfold w; split; [apply Z.div_pos|apply Z.div_lt_upper_bound]; lia).
  pose proof (Z.mod_pos_bound w 1024 ltac:(lia)). pose proof (Z.div_mod w 1024 ltac:(lia)).
  assert (hi = w / 1024 + 0xd800) as Ehi.
  { unfold hi. rewrite Z.shiftr_div_pow2 by lia. change 0x3ff with (Z.ones 10). rewrite Z.land_ones by lia.
    by rewrite Z.mod_small. }
  assert (lo = w mod 1024 + 0xdc00) as Elo.
  { unfold lo. change 0x3ff with (Z.ones 10). by rewrite Z.land_ones by lia. }
  rewrite Ehi, Elo. split; [|split; [lia|split; [lia|]]].
  - unfold utf16. destruct (Z.ltb_spec c 0x10000); [lia|]. by rewrite (Z.add_comm 0xd800), (Z.add_comm 0xdc00).
  - change 0x3ff with (Z.ones 10). rewrite Z.land_ones, Z.shiftl_mul_pow2 by lia. change (2 ^ 10) with 1024.
    replace (w mod 1024 + 0xdc00) with (w mod 1024 + 55 * 1024) by lia.
    rewrite Z.mod_add, Z.mod_mod by lia.
    rewrite (lor_disjoint 10 (w mod 1024) _ (w / 1024 + 0xd800 - 0xd800)) by (change (2 ^ 10) with 1024; lia).
    lia.
Qed.

Lemma utf16_bytes_one bo c : c < 0x10000 → utf16_bytes bo c = unit_bytes bo c.
Proof.
  intros Hc. unfold utf16_bytes, utf16. destruct (Z.ltb_spec c 0x10000); [|lia]. apply app_nil_r.
Qed.

Lemma utf16_bytes_ok bo c : scalar c →
  Forall is_byte (utf16_bytes bo c) ∧ zlen (utf16_bytes bo c) = 2 * zlen (utf16 c) ∧
  2 ≤ zlen (utf16_bytes bo c) ≤ 2 * zlen (utf8 c).
Proof.
  intros Hc. pose proof (utf16_units c Hc) as Hu. unfold utf16_bytes, utf16 in *.
  unfold utf8. unfold scalar in Hc.
  destruct (Z.ltb_spec c 0x10000).
  - inversion_clear Hu as [|?? H1 _]. destruct (unit_bytes_ok bo c H1) as [Hb Hz].
    cbn [fmap list_fmap mjoin list_join]. rewrite app_nil_r, Hz. split; [done|].
    destruct (c <? 0x80); [done|]. by destruct (c <? 0x800).
  - inversion_clear Hu as [|?? H1 Hu']. inversion_clear Hu' as [|?? H2 _].
    destruct (unit_bytes_ok bo _ H1) as [Hb1 Hz1]. destruct (unit_bytes_ok bo _ H2) as [Hb2 Hz2].
    cbn [fmap list_fmap mjoin list_join]. rewrite app_nil_r, zlen_app, Hz1, Hz2.
    split; [by apply Forall_app|]. destruct (c <? 0x80) eqn:?; [lia|]. by destruct (c <? 0x800) eqn:?; [lia|].
Qed.

(** ** The output of the UTF transforms

    [transform.c] collects the output of a UTF transform in a buffer that is
    appended to the result when it is full or the region ends.  [utf_output]
    says what has been written so far: the bytes of the result's pieces and
    the used part of the buffer. *)

Definition room (tb : dispatch_transform_buffer_s) : Z := tb_size tb - tb_used tb.

(** The result [tb_data] has pieces with the bytes [ps]; [cur] is in the buffer. *)
Definition utf_output (h0 h : heap) (tb : dispatch_transform_buffer_s) (ps : list (list Z))
    (cur : list Z) : Prop :=
  ∃ cs, map pc_bytes cs = ps ∧
  match tb_start tb with
  | None => building h0 h cs (tb_data tb) None ∧ cur = [] ∧ tb_used tb = 0 ∧ tb_size tb = 0
  | Some p => ∃ b, p = Ptr b 0 ∧
      building h0 h cs (tb_data tb) (Some (b, filled (tb_size tb) cur)) ∧ Forall is_byte cur ∧
      tb_used tb = zlen cur ∧ zlen cur ≤ tb_size tb ≤ BUFFER_MALLOC_MAX
  end.

(** The buffer's bytes become a piece, unless there are none. *)
Definition piece_of (cur : list Z) : list (list Z) := match cur with [] => [] | _ => [cur] end.

(** The source [r] at [p] is not in the buffer. *)
Definition source (h : heap) (tb : dispatch_transform_buffer_s) (p : ptr) (r : list Z) : Prop :=
  load (mem h) p (zlen r) = Some r ∧ ∀ q, tb_start tb = Some q → p_block q ≠ p_block p.

Section Buffer.
Context (h0 : heap) (limit : Z) (Hwf : wf h0)
        (Hok : Forall (λ f, f = false) (malloc_fails h0))
        (Hroom : headroom h0 (limit + 1)) (Hmax : limit + 1 < INT_MAX).

Lemma pieces_count cs : Forall piece_ok cs → zlen cs ≤ zlen (pieces_bytes cs).
Proof using.
  induction 1 as [|c cs (H1 & H2 & _) _ IH]; [done|]. unfold pieces_bytes in *. cbn [map concat].
  rewrite zlen_cons, zlen_app. unfold pc_bytes at 1. rewrite zlen_zslice by lia. lia.
Qed.

Lemma small_fit n : n + 1 < INT_MAX → 0 ≤ n → records_fit (Z.to_nat n + 1).
Proof using.
  unfold records_fit, INT_MAX, SIZEOF_RANGE_RECORD, SIZEOF_DISPATCH_DATA_S. intros. lia.
Qed.

(** Storing bytes for which there is room. *)
Lemma write_output h tb p r ps cur vs :
  utf_output h0 h tb ps cur → source h tb p r → Forall is_byte vs → zlen vs ≤ room tb → vs ≠ [] →
  ∃ q h', tb_start tb = Some q ∧ write_bytes (ptr_add q (tb_used tb)) vs h = Ok (tt, h') ∧
    let tb' := TB (tb_data tb) (Some q) (tb_used tb + zlen vs) (tb_size tb) in
    utf_output h0 h' tb' ps (cur ++ vs) ∧ source h' tb' p r.
Proof using.
  intros (cs & Hps & Hb) [Hload Hne] Hvs Hr Hvs0. unfold room in Hr.
  destruct (tb_start tb) as [q|].
  2:{ destruct Hb as (_ & -> & Hu & Hs). destruct vs; [done|]. rewrite zlen_cons in Hr.
      pose proof (zlen_nonneg vs). lia. }
  destruct Hb as (b & -> & Hb & Hcur & Hu & Hsz). specialize (Hne _ eq_refl). simpl in Hne.
  destruct (bld_pend _ _ _ _ _ Hb b _ eq_refl) as [Hm _]. unfold filled in Hm. unfold zlen in *.
  exists (Ptr b 0). eexists. split; [done|]. split.
  { rewrite Hu. change (ptr_add _ _) with (Ptr b (zlen cur)).
    apply (write_append _ _ cur (Z.to_nat (tb_size tb) - length cur)); [done|lia]. }
  replace ((cur ++ vs) ++ replicate _ 0) with (filled (tb_size tb) (cur ++ vs))
    by (unfold filled; rewrite length_app; do 2 f_equal; lia).
  split.
  - exists cs. cbn [tb_start tb_data tb_size tb_used]. split; [done|]. exists b. split_and!; try done.
    + eapply building_write; [done|]. unfold filled. rewrite !Forall_app. split_and!; [done..|].
      by apply Forall_replicate.
    + by apply Forall_app.
    + unfold zlen. rewrite length_app. lia.
    + unfold zlen. rewrite length_app. lia.
    + lia.
  - split; [|by intros ? [= <-]]. apply load_Some in Hload as (blk & Hblk & Hrest). apply load_Some.
    exists blk. split; [|done]. simpl. by rewrite lookup_insert_ne.
Qed.

(** What happens to the buffer before a new one is allocated. *)
Definition flush_buffer (b : dispatch_transform_buffer_s) : D loc :=
  match tb_start b with
  | Some start =>
      if 0 <? tb_used b then append_buffer (tb_data b) start (tb_used b)
      else free (Some start) ≫= λ _, mret (tb_data b)
  | None => mret (tb_data b)
  end.

Lemma flush_output h tb p r ps cur :
  utf_output h0 h tb ps cur → source h tb p r → zlen (concat ps ++ cur) ≤ limit →
  ∃ data cs h', flush_buffer tb h = Ok (data, h') ∧ building h0 h' cs data None ∧
    map pc_bytes cs = ps ++ piece_of cur ∧ load (mem h') p (zlen r) = Some r.
Proof using Hwf Hroom Hmax.
  intros (cs & <- & Hb) [Hload Hne] Hlim. unfold flush_buffer. destruct (tb_start tb) as [q|].
  2:{ destruct Hb as (Hb & -> & _). exists (tb_data tb), cs, h. by rewrite app_nil_r. }
  destruct Hb as (b & -> & Hb & Hcur & Hu & Hsz). specialize (Hne _ eq_refl). simpl in Hne.
  rewrite Hu. rewrite zlen_app in Hlim. fold (pieces_bytes cs) in Hlim. pose proof (pieces_count cs (bld_pieces _ _ _ _ _ Hb)).
  pose proof (zlen_nonneg cur). pose proof (zlen_nonneg cs).
  assert (∀ h', (∀ b', b' ≠ b → mem h' !! b' = mem h !! b') → load (mem h') p (zlen r) = Some r) as Hl.
  { intros h' Hm. apply load_Some in Hload as (blk & Hblk & Hrest). apply load_Some. exists blk.
    split; [|done]. by rewrite Hm. }
  destruct (Z.ltb_spec 0 (zlen cur)) as [Hpos|Hpos].
  - destruct (building_append h0 h cs (tb_data tb) b (filled (tb_size tb) cur) (zlen cur))
      as (rv' & cs' & h' & E & Hb' & _ & _ & Hbytes & Hm); try done.
    + unfold filled. rewrite zlen_app. pose proof (zlen_nonneg (replicate (Z.to_nat (tb_size tb) - length cur) 0)). lia.
    + unfold INT_MAX in Hmax. lia.
    + apply (records_fit_le _ (Z.to_nat limit + 1)); [unfold zlen in *; lia|]. apply small_fit; lia.
    + eapply headroom_le; [|exact Hroom]. lia.
    + lia.
    + exists rv', cs', h'. split_and!; [done..| |by apply Hl]. unfold filled in Hbytes.
      rewrite Hbytes, zslice_0_app. destruct (Z.eqb_spec (zlen cur) 0); [lia|]. by destruct cur.
  - destruct cur; [|rewrite zlen_cons in Hpos; pose proof (zlen_nonneg cur); lia].
    destruct (building_free _ _ _ _ _ _ Hb) as [Ef Hb']. mstep Ef.
    eexists _, cs, _. split_and!; [done..|by rewrite app_nil_r|]. apply Hl.
    intros b' Hb''. by apply lookup_delete_ne.
Qed.

Lemma no_faults_output h cs rv pend : building h0 h cs rv pend → malloc_succeeds h.
Proof using Hok.
  intros Hb. destruct (bld_faults _ _ _ _ _ Hb) as [fs E]. unfold malloc_succeeds.
  rewrite E in Hok. apply Forall_app in Hok as [_ Hf]. destruct Hf as [|f fs' -> _]; done.
Qed.

(** A request for room: the buffer stays when it has it, otherwise it is
    appended and a new one has the room asked for and [n] bytes more. *)
Lemma new_output h tb p r ps cur required n :
  utf_output h0 h tb ps cur → source h tb p r → zlen (concat ps ++ cur) ≤ limit →
  0 < required → 0 ≤ n → required + n ≤ BUFFER_MALLOC_MAX →
  ∃ tb' h', _dispatch_transform_buffer_new tb required n h = Ok ((true, tb'), h') ∧
    source h' tb' p r ∧
    if required <=? room tb then tb' = tb ∧ utf_output h0 h' tb' ps cur
    else room tb' = required + n ∧ utf_output h0 h' tb' (ps ++ piece_of cur) [].
Proof using Hwf Hok Hroom Hmax.
  intros Hout Hsrc Hlim Hreq Hn Hcap. unfold _dispatch_transform_buffer_new. fold (flush_buffer tb).
  assert (0 ≤ room tb < 2 ^ 64) as Hrm.
  { destruct Hout as (cs & _ & Hb). unfold room. destruct (tb_start tb).
    - destruct Hb as (b & _ & _ & _ & -> & Hs). unfold BUFFER_MALLOC_MAX in Hs.
      pose proof (zlen_nonneg cur). lia.
    - destruct Hb as (_ & _ & -> & ->). done. }
  unfold room in Hrm at 1 2. rewrite wrapu_small by done. fold (room tb) in *.
  destruct (Z.eqb_spec required 0); [lia|]. cbn [orb].
  destruct (Z.ltb_spec (room tb) required) as [Hlt|Hge].
  2:{ exists tb, h. destruct (Z.leb_spec required (room tb)); [done|lia]. }
  destruct (Z.leb_spec required (room tb)); [lia|].
  destruct (flush_output h tb p r ps cur Hout Hsrc Hlim) as (data & cs & h1 & E & Hb & Hbytes & Hload).
  mstep E. unfold BUFFER_MALLOC_MAX in *. rewrite (wrapu_small 64 (required + n)) by lia.
  destruct (Z.ltb_spec 0 (required + n)); [|lia]. destruct (Z.ltb_spec (100 * 1024 * 1024) (required + n)); [lia|].
  pose proof (no_faults_output _ _ _ _ Hb) as Hms.
  destruct (building_malloc h0 h1 cs data (required + n) Hwf Hb Hms) as (h2 & Em & Hb2). mstep Em.
  assert (mem h2 = <[next_block h1 := replicate (Z.to_nat (required + n)) 0]> (mem h1)) as Hm2.
  { rewrite (malloc_eq h1 _ Hms) in Em. by injection Em as <-. }
  assert (next_block h1 ≠ p_block p) as Hfresh.
  { intros Eb. apply load_Some in Hload as (blk & Hblk & _). rewrite <- Eb in Hblk.
    destruct (building_fresh_block _ _ _ _ _ Hwf Hb) as [Hn0 Hnin].
    rewrite (bld_old_block _ _ _ _ _ Hb) in Hblk by done. by rewrite Hn0 in Hblk. }
  eexists _, h2. split; [done|]. split; [|split].
  - split; [|by intros ? [= <-]]. apply load_Some in Hload as (blk & Hblk & Hrest). apply load_Some.
    exists blk. split; [|done]. by rewrite Hm2, lookup_insert_ne.
  - unfold room. simpl. lia.
  - exists cs. cbn [tb_start tb_data tb_size tb_used]. split; [done|]. exists (next_block h1).
    split_and!; try done; [|change (zlen (@nil Z)) with 0; lia].
    unfold filled. simpl. by rewrite Nat.sub_0_r.
Qed.

(** [_dispatch_transform_buffer_new(&buffer, 0, 0)]: all output is in the result. *)
Lemma finish_output h tb p r ps cur :
  utf_output h0 h tb ps cur → source h tb p r → zlen (concat ps ++ cur) ≤ limit →
  ∃ data h', _dispatch_transform_buffer_new tb 0 0 h = Ok ((true, TB data None 0 0), h') ∧
    utf_output h0 h' (TB data None 0 0) (ps ++ piece_of cur) [].
Proof using Hwf Hroom Hmax.
  intros Hout Hsrc Hlim. unfold _dispatch_transform_buffer_new. fold (flush_buffer tb). cbn [Z.eqb orb].
  destruct (flush_output h tb p r ps cur Hout Hsrc Hlim) as (data & cs & h1 & E & Hb & Hbytes & _).
  mstep E. exists data, h1. split; [done|]. by exists cs.
Qed.
End Buffer.
