(* ===== verification/DispatchUtf16.v ===== *)
(** * UTF-8 to UTF-16

    [_dispatch_transform_to_utf16] on objects whose regions hold whole
    characters. *)

From Stdlib Require Import ZifyBool.
From S2P Require Import Prelude DispatchData DispatchDataInv DispatchDataSpec.
From S2P Require Import DispatchDataMap DispatchTransform DispatchDataAppend DispatchTransformSpec.
From S2P Require Import DispatchUnicode.
Import Data Transform.

(** ** Reading from the source *)

Lemma ptr_add_add p i j : ptr_add (ptr_add p i) j = ptr_add p (i + j).
Proof. unfold ptr_add. destruct p. simpl. by rewrite Z.add_assoc. Qed.

Lemma ptr_add_0 p : ptr_add p 0 = p.
Proof. unfold ptr_add. destruct p. simpl. by rewrite Z.add_0_r. Qed.

Lemma read_at h p r pre bs post :
  load (mem h) p (zlen r) = Some r → r = pre ++ bs ++ post →
  read_bytes (ptr_add p (zlen pre)) (zlen bs) h = Ok (bs, h).
Proof.
  intros Hl ->. pose proof (zlen_nonneg pre). pose proof (zlen_nonneg bs). pose proof (zlen_nonneg post).
  unfold read_bytes. rewrite !zlen_app in Hl. rewrite (load_sub _ _ _ _ _ _ Hl) by lia.
  rewrite zslice_app_r by lia. rewrite Z.sub_diag, zslice_0_app. done.
Qed.

Lemma load8_at h p r pre b post :
  load (mem h) p (zlen r) = Some r → r = pre ++ b :: post →
  load8 (ptr_add p (zlen pre)) h = Ok (b, h).
Proof.
  intros Hl Hr. unfold load8. by mstep (read_at h p r pre [b] post Hl Hr).
Qed.

Lemma read_continuation_at h p r pre bs post w :
  load (mem h) p (zlen r) = Some r → r = pre ++ bs ++ post →
  read_continuation (length bs) (ptr_add p (zlen pre)) w h = Ok (continue_wch bs w, h).
Proof.
  intros Hl. revert pre w. induction bs as [|b bs IH]; intros pre w Hr; [done|].
  cbn [length read_continuation continue_wch].
  mstep (load8_at h p r pre b (bs ++ post) Hl Hr). rewrite ptr_add_add.
  replace (zlen pre + 1) with (zlen (pre ++ [b])) by (by rewrite zlen_app).
  rewrite (IH (pre ++ [b])) by (by rewrite <- app_assoc). by destruct bs.
Qed.

Lemma read_sequence_at h p r pre c post :
  load (mem h) p (zlen r) = Some r → r = pre ++ utf8 c ++ post → scalar c →
  _dispatch_transform_read_utf8_sequence (ptr_add p (zlen pre)) h = Ok (c, h).
Proof.
  intros Hl Hr Hc. destruct (utf8_length c Hc) as (b & bs & E & Hb & Hlen & Hz).
  pose proof (sequence_wch_utf8 c Hc) as Hw. rewrite E in *. unfold _dispatch_transform_read_utf8_sequence.
  mstep (load8_at h p r pre b (bs ++ post) Hl Hr). rewrite Hlen, zlen_cons in *. rewrite ptr_add_add.
  pose proof (zlen_nonneg bs). rewrite Z.add_comm, Z.add_simpl_r. rewrite wrapu_small by lia.
  replace (Z.to_nat (zlen bs)) with (length bs) by (unfold zlen; lia).
  replace (zlen pre + 1) with (zlen (pre ++ [b])) by (by rewrite zlen_app).
  rewrite (read_continuation_at h p r (pre ++ [b]) bs post) by (done || by rewrite <- app_assoc).
  do 2 f_equal. rewrite <- Hw. unfold sequence_wch. f_equal.
  destruct (Z.eqb_spec (zlen bs) 3), (Z.eqb_spec (zlen bs) 2), (Z.eqb_spec (zlen bs) 1); try lia;
    repeat (case_match; try lia).
Qed.

(** ** The characters of a region *)

(** The output for the characters [cs] at byte [pos] of the data: a byte order
    mark at the start is left out. *)
Fixpoint emit16 (bo pos : Z) (cs : list Z) : list Z :=
  match cs with
  | [] => []
  | c :: cs =>
    (if (c =? 0xfeff) && (pos =? 0) then [] else utf16_bytes bo c) ++
    emit16 bo (pos + zlen (utf8 c)) cs
  end.

Definition strip_bom (cs : list Z) : list Z :=
  match cs with c :: cs' => if c =? 0xfeff then cs' else cs | [] => [] end.

Lemma emit16_later bo pos cs : 0 < pos → emit16 bo pos cs = utf16s bo cs.
Proof.
  revert pos. induction cs as [|c cs IH]; intros pos Hp; [done|]. cbn [emit16].
  destruct (Z.eqb_spec pos 0); [lia|]. rewrite andb_false_r, IH; [done|].
  pose proof (zlen_nonneg (utf8 c)). lia.
Qed.

Lemma emit16_start bo cs : Forall scalar cs → emit16 bo 0 cs = utf16s bo (strip_bom cs).
Proof.
  intros [|c cs' Hc Hcs]; [done|]. cbn [emit16 strip_bom]. rewrite andb_true_r.
  destruct (utf8_length c Hc) as (_ & _ & _ & _ & _ & Hz). rewrite emit16_later by lia.
  by destruct (c =? 0xfeff).
Qed.

Lemma utf16s_size bo cs : Forall scalar cs → zlen (utf16s bo cs) ≤ 2 * zlen (utf8s cs).
Proof.
  induction 1 as [|c cs Hc _ IH]; [done|]. rewrite utf16s_cons, utf8s_cons, !zlen_app.
  destruct (utf16_bytes_ok bo c Hc) as (_ & _ & ?). lia.
Qed.

Lemma emit16_size bo pos cs : Forall scalar cs → zlen (emit16 bo pos cs) ≤ 2 * zlen (utf8s cs).
Proof.
  intros Hcs. revert pos. induction Hcs as [|c cs Hc _ IH]; intros pos; [done|].
  cbn [emit16]. rewrite utf8s_cons, !zlen_app. specialize (IH (pos + zlen (utf8 c))).
  destruct (utf16_bytes_ok bo c Hc) as (_ & _ & ?). destruct (_ && _); [|lia].
  pose proof (zlen_nonneg (utf8 c)). change (zlen (@nil Z)) with 0. lia.
Qed.

Lemma utf8s_length cs : Forall scalar cs → (length cs ≤ length (utf8s cs))%nat.
Proof.
  induction 1 as [|c l Hc _ IHl]; [done|]. rewrite utf8s_cons, length_app.
  destruct (utf8_length c Hc) as (_ & _ & _ & _ & _ & Hz). unfold zlen in Hz. simpl. lia.
Qed.

Abbreviation empty_buffer data := (TB data None 0 0).

Section ToUtf16.
Context (h0 : heap) (limit bo : Z) (Hwf : wf h0)
        (Hok : Forall (λ f, f = false) (malloc_fails h0))
        (Hroom : headroom h0 (limit + 1)) (Hmax : limit + 1 < INT_MAX).

Lemma store16_output h tb p r ps cur u :
  utf_output h0 h tb ps cur → source h tb p r → 2 ≤ room tb → unit_ok u →
  ∃ tb' h', store16 tb (_dispatch_transform_swap_from_host u bo) h = Ok (tb', h') ∧
    utf_output h0 h' tb' ps (cur ++ unit_bytes bo u) ∧ source h' tb' p r ∧ room tb' = room tb - 2.
Proof using.
  intros Hout Hsrc Hr Hu. destruct (unit_bytes_ok bo u Hu) as [Hby Hz].
  destruct (write_output h0 h tb p r ps cur (unit_bytes bo u)) as (q & h' & Hq & Hw & Hout' & Hsrc');
    try done; [lia|by intros E; rewrite E in Hz|].
  eexists _, h'. split.
  { unfold store16. rewrite Hq. cbn [nonnull]. rewrite (bind_Ok _ _ _ q h) by done.
    rewrite (store_unit bo u Hu). by mstep Hw. }
  rewrite Hz in Hout', Hsrc'. split_and!; try done. unfold room. simpl. lia.
Qed.

(** A buffer that has the room, or a new one. *)
Lemma reserve h tb p r ps cur k next :
  utf_output h0 h tb ps cur → source h tb p r → zlen (concat ps ++ cur) ≤ limit →
  0 < k → 0 ≤ next → k + next ≤ BUFFER_MALLOC_MAX → k + next ≤ room tb ∨ room tb = 0 ∧ cur = [] →
  ∃ tb' h', _dispatch_transform_buffer_new tb k next h = Ok ((true, tb'), h') ∧
    utf_output h0 h' tb' ps cur ∧ source h' tb' p r ∧ k + next ≤ room tb'.
Proof using Hwf Hok Hroom Hmax.
  intros Hout Hsrc Hlim Hk Hn Hcap Hrm.
  destruct (new_output h0 limit Hwf Hok Hroom Hmax h tb p r ps cur k next) as (tb' & h' & E & Hsrc' & Hnew);
    try done. exists tb', h'. split; [done|]. destruct (Z.leb_spec k (room tb)).
  - destruct Hnew as [-> Hout']. split_and!; [done..|]. destruct Hrm as [?|[? _]]; lia.
  - destruct Hnew as [Hr' Hout']. destruct Hrm as [?|[_ ->]]; [lia|].
    rewrite app_nil_r in Hout'. split_and!; [done..|lia].
Qed.

(** One character: [i] is its position, [n] the length of the region; the
    buffer has room for what is left or is not there yet. *)
Definition roomy (tb : dispatch_transform_buffer_s) (cur : list Z) (n : Z) : Prop :=
  2 * n ≤ room tb ∨ room tb = 0 ∧ cur = [].

Lemma put_units h tb p r ps cur offset i n c :
  utf_output h0 h tb ps cur → source h tb p r → scalar c → zlen (concat ps ++ cur) ≤ limit →
  0 ≤ i → i + zlen (utf8 c) ≤ n → 2 * n ≤ BUFFER_MALLOC_MAX → roomy tb cur (n - i) →
  let i' := i + zlen (utf8 c) in
  (c =? 0xfeff) && (u64 (offset + i') =? 3) = false →
  ∃ tb' h', to_utf16_put bo offset i' n c tb h = Ok ((true, tb'), h') ∧
    utf_output h0 h' tb' ps (cur ++ utf16_bytes bo c) ∧ source h' tb' p r ∧ 2 * (n - i') ≤ room tb'.
Proof using Hwf Hok Hroom Hmax.
  intros Hout Hsrc Hc Hlim Hi Hn Hcap Hrm i' Hbom. destruct (utf16_bytes_ok bo c Hc) as (_ & Hz2 & Hz).
  pose proof (utf16_units c Hc) as Hu. unfold to_utf16_put. rewrite Hbom.
  assert (((n - i') * 2 >? SIZE_T_MAX) = false) as -> by (unfold BUFFER_MALLOC_MAX, SIZE_T_MAX, i' in *; lia).
  assert ((0xd800 <=? c) && (c <? 0xdfff) = false) as -> by (unfold scalar in Hc; lia).
  assert (zlen (utf16_bytes bo c) + (n - i') * 2 ≤ room tb ∨ room tb = 0 ∧ cur = []) as Hrm'.
  { destruct Hrm as [?|?]; [left; unfold i' in *; lia|by right]. }
  destruct (reserve h tb p r ps cur (zlen (utf16_bytes bo c)) ((n - i') * 2))
    as (tb1 & h1 & E1 & Hout1 & Hsrc1 & Hroom1); try done; try (unfold i'; lia).
  destruct (Z.leb_spec 0x10000 c) as [Hbig|Hsmall].
  - destruct (surrogates c) as (Hs & Hhi & Hlo & _); [unfold scalar in Hc; lia|].
    set (hi := Z.land _ _ + 0xd800) in *. set (lo := Z.land _ _ + 0xdc00) in *.
    assert (utf16_bytes bo c = unit_bytes bo hi ++ unit_bytes bo lo) as Eb
      by (unfold utf16_bytes; rewrite Hs; simpl; by rewrite app_nil_r).
    rewrite Hs in Hz2. change (zlen [hi; lo]) with 2 in Hz2. rewrite Hz2 in *. change (2 * 2) with 4 in E1.
    mstep E1.
    destruct (store16_output h1 tb1 p r ps cur hi) as (tb2 & h2 & E2 & Hout2 & Hsrc2 & Hroom2);
      try done; [unfold i' in *; lia|unfold unit_ok; lia|]. mstep E2.
    destruct (store16_output h2 tb2 p r ps (cur ++ unit_bytes bo hi) lo) as (tb3 & h3 & E3 & Hout3 & Hsrc3 & Hroom3);
      try done; [unfold i' in *; lia|unfold unit_ok; lia|]. mstep E3.
    exists tb3, h3. rewrite Eb, app_assoc. split_and!; try done. lia.
  - assert (utf16 c = [c]) as Hs by (unfold utf16; destruct (Z.ltb_spec c 0x10000); [done|lia]).
    rewrite Hs in Hz2. change (2 * zlen [c]) with 2 in Hz2. rewrite Hz2 in *. mstep E1.
    assert (Z.land c 0xffff = c) as ->.
    { change 0xffff with (Z.ones 16). rewrite Z.land_ones by lia. apply Z.mod_small. unfold scalar in Hc. lia. }
    destruct (store16_output h1 tb1 p r ps cur c) as (tb2 & h2 & E2 & Hout2 & Hsrc2 & Hroom2);
      try done; [unfold i' in *; lia|unfold unit_ok, scalar in *; lia|]. mstep E2.
    exists tb2, h2. rewrite utf16_bytes_one by done. split_and!; try done. lia.
Qed.

Lemma put_char h tb p r ps cur offset i n c :
  utf_output h0 h tb ps cur → source h tb p r → scalar c → zlen (concat ps ++ cur) ≤ limit →
  0 ≤ offset → 0 ≤ i → i + zlen (utf8 c) ≤ n → 2 * n ≤ BUFFER_MALLOC_MAX → offset + n < 2 ^ 64 →
  roomy tb cur (n - i) →
  let i' := i + zlen (utf8 c) in
  let cur' := cur ++ (if (c =? 0xfeff) && (offset + i =? 0) then [] else utf16_bytes bo c) in
  ∃ tb' h', to_utf16_put bo offset i' n c tb h = Ok ((true, tb'), h') ∧
    utf_output h0 h' tb' ps cur' ∧ source h' tb' p r ∧ roomy tb' cur' (n - i').
Proof using Hwf Hok Hroom Hmax.
  intros Hout Hsrc Hc Hlim Hoff Hi Hn Hcap Hoffn Hrm i' cur'.
  assert ((c =? 0xfeff) && (u64 (offset + i') =? 3) = (c =? 0xfeff) && (offset + i =? 0)) as Hbom.
  { rewrite wrapu_small by (unfold i'; pose proof (zlen_nonneg (utf8 c)); lia).
    destruct (Z.eqb_spec c 0xfeff) as [->|]; [|done]. unfold i'. change (zlen (utf8 0xfeff)) with 3.
    destruct (Z.eqb_spec (offset + (i + 3)) 3), (Z.eqb_spec (offset + i) 0); lia. }
  unfold cur'. rewrite <- Hbom. clear Hbom cur'. destruct ((c =? 0xfeff) && _) eqn:Eb.
  - exists tb, h. pose proof (zlen_nonneg (utf8 c)). rewrite app_nil_r. unfold to_utf16_put. rewrite Eb.
    assert (((n - i') * 2 >? SIZE_T_MAX) = false) as -> by (unfold BUFFER_MALLOC_MAX, SIZE_T_MAX, i' in *; lia).
    split_and!; try done. destruct Hrm as [?|?]; [left; unfold i'; pose proof (zlen_nonneg (utf8 c)); lia|by right].
  - destruct (put_units h tb p r ps cur offset i n c) as (tb' & h' & E & Hout' & Hsrc' & Hr'); try done.
    exists tb', h'. split_and!; try done. by left.
Qed.

(** The loop over the characters [cs] that follow [done_]. *)
Lemma loop16 data p r offset cs done_ fuel h tb ps cur :
  utf_output h0 h tb ps cur → source h tb p r → Forall scalar cs → r = utf8s done_ ++ utf8s cs →
  (length cs ≤ fuel)%nat → 0 ≤ offset → 2 * zlen r ≤ BUFFER_MALLOC_MAX → offset + zlen r < 2 ^ 64 →
  zlen (concat ps ++ cur) + 2 * zlen (utf8s cs) ≤ limit → roomy tb cur (zlen (utf8s cs)) →
  let i := zlen (utf8s done_) in
  ∃ data' h', to_utf16_loop fuel data bo offset (ptr_add p i) i (zlen r) (0, tb) h =
      Ok ((true, (0, TB data' None 0 0)), h') ∧
    utf_output h0 h' (TB data' None 0 0) (ps ++ piece_of (cur ++ emit16 bo (offset + i) cs)) [].
Proof using Hwf Hok Hroom Hmax.
  intros Hout Hsrc Hcs. revert done_ fuel h tb cur Hout Hsrc.
  induction Hcs as [|c cs Hc Hcs IH]; intros done_ fuel h tb cur Hout Hsrc Hr Hf Hoff Hcap Hoffn Hlim Hrm i.
  - assert (r = utf8s done_) as Hr' by (rewrite Hr; apply app_nil_r).
    destruct (finish_output h0 limit Hwf Hroom Hmax h tb p r ps cur) as (data' & h' & E & Hout'); try done.
    { change (zlen (utf8s [])) with 0 in Hlim. lia. }
    exists data', h'. cbn [emit16]. rewrite app_nil_r. split; [|done]. destruct fuel; cbn [to_utf16_loop].
    all: destruct (Z.ltb_spec i (zlen r)); [unfold i in *; rewrite Hr' in *; lia|]. all: by mstep E.
  - destruct fuel as [|fuel]; simpl in Hf; [lia|]. cbn [to_utf16_loop].
    assert (0 ≤ i) by apply zlen_nonneg. pose proof (zlen_nonneg (utf8s cs)).
    rewrite utf8s_cons in *. rewrite (zlen_app (utf8 c)) in Hlim, Hrm.
    destruct (utf8_length c Hc) as (b & bs & Eb & Hbyte & Hlen & Hz1).
    assert (zlen r = i + zlen (utf8 c) + zlen (utf8s cs)) as Hzr by (rewrite Hr, !zlen_app; unfold i; lia).
    destruct (Z.ltb_spec i (zlen r)); [|lia].
    assert (to_utf16_next data offset (ptr_add p i) i (zlen r) 0 h =
      Ok (Some (c, ptr_add p (i + zlen (utf8 c)), i + zlen (utf8 c), 0), h)) as En.
    { unfold to_utf16_next. unfold i. rewrite Eb in Hr.
      mstep (load8_at h p r (utf8s done_) b (bs ++ utf8s cs) (proj1 Hsrc) Hr). rewrite Hlen.
      destruct (Z.eqb_spec (zlen (utf8 c)) 0); [lia|].
      destruct (Z.ltb_spec (zlen r) (zlen (utf8 c) + zlen (utf8s done_))); [unfold i in *; lia|].
      rewrite <- Eb in Hr. mstep (read_sequence_at h p r (utf8s done_) c (utf8s cs) (proj1 Hsrc) Hr Hc).
      by rewrite ptr_add_add. }
    mstep En.
    destruct (put_char h tb p r ps cur offset i (zlen r) c) as (tb' & h' & Ep & Hout' & Hsrc' & Hrm'); try done.
    { lia. } { lia. } { by replace (zlen r - i) with (zlen (utf8 c) + zlen (utf8s cs)) by lia. }
    mstep Ep. destruct (utf16_bytes_ok bo c Hc) as (_ & _ & Hz16).
    set (out := if _ && _ then [] else utf16_bytes bo c) in *.
    assert (zlen out ≤ 2 * zlen (utf8 c)) as Hzo by (unfold out; destruct (_ && _); [change (zlen []) with 0|]; lia).
    destruct (IH (done_ ++ [c]) fuel h' tb' (cur ++ out)) as (data' & h'' & El & Hout''); try done.
    + rewrite utf8s_app, utf8s_cons, app_nil_r, <- app_assoc. done.
    + lia.
    + rewrite app_assoc, (zlen_app _ out). lia.
    + by replace (zlen (utf8s cs)) with (zlen r - (i + zlen (utf8 c))) by lia.
    + rewrite utf8s_app, utf8s_cons, app_nil_r, zlen_app in El, Hout''. fold i in El, Hout''.
      exists data', h''. split; [exact El|]. cbn [emit16]. fold out. by rewrite app_assoc, <- Z.add_assoc.
Qed.

(** ** Regions *)

(** The pieces of the result after the regions with the characters [css]. *)
Definition pieces16 (css : list (list Z)) : list (list Z) :=
  match css with
  | [] => []
  | cs :: css => (unit_bytes bo 0xfeff ++ utf16s bo (strip_bom cs)) :: (utf16s bo <$> css)
  end.

Lemma pieces16_snoc css cs : css ≠ [] → pieces16 (css ++ [cs]) = pieces16 css ++ [utf16s bo cs].
Proof using. destruct css; [done|]. intros _. simpl. by rewrite fmap_app. Qed.

Lemma utf16s_nonempty cs : cs ≠ [] → Forall scalar cs → utf16s bo cs ≠ [].
Proof using.
  intros Hne Hcs. destruct Hcs as [|c cs' Hc _]; [done|]. rewrite utf16s_cons.
  destruct (utf16_bytes_ok bo c Hc) as (_ & _ & Hz).
  destruct (utf16_bytes bo c); [change (zlen (@nil Z)) with 0 in Hz; lia|done].
Qed.

Lemma empty_source h data p r : load (mem h) p (zlen r) = Some r → source h (empty_buffer data) p r.
Proof using. intros Hl. split; [done|]. by intros q [=]. Qed.

(** The first region: the byte order mark and the characters. *)
Lemma region16_first data x p cs d h :
  utf_output h0 h (empty_buffer d) [] [] → load (mem h) p (zlen (utf8s cs)) = Some (utf8s cs) →
  Forall scalar cs → cs ≠ [] → 2 * zlen (utf8s cs) + 2 ≤ BUFFER_MALLOC_MAX →
  2 * zlen (utf8s cs) + 2 ≤ limit →
  ∃ d' h', to_utf16_region data bo x 0 p (zlen (utf8s cs)) (0, empty_buffer d) h =
      Ok ((true, (0, empty_buffer d')), h') ∧ utf_output h0 h' (empty_buffer d') (pieces16 [cs]) [].
Proof using Hwf Hok Hroom Hmax.
  intros Hout Hload Hcs Hne Hcap Hlim. set (r := utf8s cs) in *. pose proof (zlen_nonneg r).
  assert (1 ≤ zlen r) as Hpos by (pose proof (utf8s_length cs Hcs); unfold r, zlen; destruct cs; simpl in *; [done|lia]).
  unfold to_utf16_region. rewrite Z.eqb_refl.
  assert ((zlen r * 2 + 2 >? SIZE_T_MAX) = false) as -> by (unfold BUFFER_MALLOC_MAX, SIZE_T_MAX in *; lia).
  destruct (reserve h (empty_buffer d) p r [] [] (zlen r * 2 + 2) 0)
    as (tb1 & h1 & E1 & Hout1 & Hsrc1 & Hroom1); try done; try (change (zlen (concat [] ++ [])) with 0; lia).
  { by right. }
  destruct (store16_output h1 tb1 p r [] [] 0xfeff) as (tb2 & h2 & E2 & Hout2 & Hsrc2 & Hroom2);
    try done; [lia|]. cbn [app] in Hout2.
  erewrite bind_Ok; [|mstep E1; mstep E2; done]. destruct (Z.leb_spec (zlen r) 0); [lia|].
  rewrite Z.sub_0_r.
  destruct (loop16 data p r 0 cs [] (Z.to_nat (zlen r)) h2 tb2 [] (unit_bytes bo 0xfeff))
    as (d' & h' & El & Hout'); try done.
  - pose proof (utf8s_length cs Hcs). unfold r, zlen. lia.
  - lia.
  - unfold BUFFER_MALLOC_MAX in Hcap. lia.
  - change (concat [] ++ unit_bytes bo 0xfeff) with (unit_bytes bo 0xfeff).
    destruct (unit_bytes_ok bo 0xfeff) as [_ ->]; [done|]. fold r. lia.
  - left. fold r. lia.
  - exists d', h'. split; [exact El|]. cbn [pieces16 fmap list_fmap]. cbn [app] in Hout'.
    change (0 + zlen (utf8s [])) with 0 in Hout'. rewrite emit16_start in Hout' by done.
    destruct (unit_bytes bo 0xfeff) eqn:Eu; [|done].
    destruct (unit_bytes_ok bo 0xfeff) as [_ Hz]; [done|]. by rewrite Eu in Hz.
Qed.

(** The other regions. *)
Lemma region16_next data x offset p cs d h ps :
  utf_output h0 h (empty_buffer d) ps [] → load (mem h) p (zlen (utf8s cs)) = Some (utf8s cs) →
  Forall scalar cs → cs ≠ [] → 2 * zlen (utf8s cs) ≤ BUFFER_MALLOC_MAX → 0 < offset →
  offset + zlen (utf8s cs) < 2 ^ 64 → zlen (concat ps) + 2 * zlen (utf8s cs) ≤ limit →
  ∃ d' h', to_utf16_region data bo x offset p (zlen (utf8s cs)) (0, empty_buffer d) h =
      Ok ((true, (0, empty_buffer d')), h') ∧ utf_output h0 h' (empty_buffer d') (ps ++ [utf16s bo cs]) [].
Proof using Hwf Hok Hroom Hmax.
  intros Hout Hload Hcs Hne Hcap Hoff Hoffn Hlim. set (r := utf8s cs) in *.
  assert (1 ≤ zlen r) as Hpos by (pose proof (utf8s_length cs Hcs); unfold r, zlen; destruct cs; simpl in *; [done|lia]).
  unfold to_utf16_region. destruct (Z.eqb_spec offset 0); [lia|].
  rewrite (bind_Ok _ _ _ (true, empty_buffer d) h) by done.
  destruct (Z.leb_spec (zlen r) 0); [lia|]. rewrite Z.sub_0_r.
  destruct (loop16 data p r offset cs [] (Z.to_nat (zlen r)) h (empty_buffer d) ps [])
    as (d' & h' & El & Hout'); try done.
  - pose proof (utf8s_length cs Hcs). unfold r, zlen. lia.
  - lia.
  - by rewrite app_nil_r.
  - by right.
  - exists d', h'. split; [exact El|]. change (zlen (utf8s [])) with 0 in Hout'. rewrite Z.add_0_r in Hout'.
    rewrite emit16_later in Hout' by done. cbn [app] in Hout'.
    pose proof (utf16s_nonempty cs Hne Hcs). by destruct (utf16s bo cs).
Qed.
End ToUtf16.

(** The iteration over regions of whole characters. *)
Definition inv16 (h0 : heap) (bo : Z) (css : list (list Z)) (seen : list (list Z))
    (st : Z * dispatch_transform_buffer_s) (h : heap) : Prop :=
  ∃ css1 css2 d, css = css1 ++ css2 ∧ seen = utf8s <$> css1 ∧ st = (0, empty_buffer d) ∧
    utf_output h0 h (empty_buffer d) (pieces16 bo css1) [].

Lemma concat_utf8s css : concat (utf8s <$> css) = utf8s (concat css).
Proof. induction css as [|cs css IH]; [done|]. rewrite fmap_cons. cbn [concat]. by rewrite IH, utf8s_app. Qed.

Lemma concat_utf16s bo css : concat (utf16s bo <$> css) = utf16s bo (concat css).
Proof. induction css as [|cs css IH]; [done|]. rewrite fmap_cons. cbn [concat]. by rewrite IH, utf16s_app. Qed.

(** The bytes of the result: a byte order mark, then the characters. *)
Lemma pieces16_concat bo css :
  css ≠ [] → Forall (λ cs, cs ≠ []) css →
  concat (pieces16 bo css) = utf16s bo (0xfeff :: strip_bom (concat css)).
Proof.
  intros Hne Hall. destruct Hall as [|cs css Hcs _]; [done|]. cbn [pieces16 concat]. rewrite concat_utf16s, utf16s_cons.
  rewrite utf16_bytes_one, <- app_assoc by done. f_equal. rewrite <- utf16s_app. f_equal.
  destruct cs as [|c cs]; [done|]. simpl. by destruct (c =? 0xfeff).
Qed.

Lemma pieces16_size bo css :
  Forall (Forall scalar) css → zlen (concat (pieces16 bo css)) ≤ 2 * zlen (utf8s (concat css)) + 2.
Proof.
  intros Hall. destruct Hall as [|cs css Hcs Hcss]; [done|]. cbn [pieces16 concat]. rewrite !zlen_app, concat_utf16s.
  destruct (unit_bytes_ok bo 0xfeff) as [_ ->]; [done|]. rewrite utf8s_app, zlen_app.
  pose proof (utf16s_size bo (concat css)) as H1. rewrite Forall_concat in H1. specialize (H1 Hcss).
  assert (zlen (utf16s bo (strip_bom cs)) ≤ 2 * zlen (utf8s cs)); [|lia].
  destruct Hcs as [|c cs Hc Hcs]; [done|]. cbn [strip_bom]. pose proof (utf16s_size bo cs Hcs).
  pose proof (utf16s_size bo (c :: cs) (Forall_cons_2 _ _ _ Hc Hcs)). rewrite utf8s_cons, zlen_app in *.
  pose proof (zlen_nonneg (utf8 c)). destruct (c =? 0xfeff); lia.
Qed.

Section Transform16.
Context (h : heap) (dd : loc) (bo : Z) (css : list (list Z)).
Context (Hwf : wf h) (Hlive : live h dd) (Hok : Forall (λ f, f = false) (malloc_fails h))
        (Hroom : headroom h (2 * zlen (data_bytes h dd) + 3))
        (Hcap : 2 * zlen (data_bytes h dd) + 2 ≤ BUFFER_MALLOC_MAX)
        (Hreg : regions h dd = utf8s <$> css) (Hcss : Forall (Forall scalar) css).

Lemma chars_nonempty cs : cs ∈ css → cs ≠ [].
Proof using Hwf Hlive Hreg.
  intros Hin ->. apply (regions_nonempty h dd [] Hwf Hlive); [|done]. rewrite Hreg.
  apply list_elem_of_fmap. by exists [].
Qed.

Lemma chars_bytes : utf8s (concat css) = data_bytes h dd.
Proof using Hwf Hlive Hreg. by rewrite <- (regions_concat h dd Hwf Hlive), Hreg, concat_utf8s. Qed.

(** Splitting the object at a region. *)
Lemma chars_split css1 cs css2 : css = css1 ++ cs :: css2 →
  Forall scalar cs ∧ cs ≠ [] ∧ Forall (Forall scalar) css1 ∧
  zlen (utf8s (concat css1)) + zlen (utf8s cs) ≤ zlen (data_bytes h dd).
Proof using Hwf Hlive Hreg Hcss.
  clear Hok Hroom Hcap. intros E. pose proof (chars_nonempty cs) as Hne. pose proof chars_bytes as Hb. rewrite E in Hne, Hb, Hcss.
  apply Forall_app in Hcss as [H1 H2]. inversion_clear H2. split_and!; try done; [apply Hne; set_solver|].
  rewrite <- Hb, concat_app, utf8s_app. cbn [concat]. rewrite utf8s_app, !zlen_app.
  pose proof (zlen_nonneg (utf8s (concat css2))). lia.
Qed.

Lemma region16_step seen r rest st h' x p :
  regions h dd = seen ++ r :: rest → inv16 h bo css seen st h' → load (mem h') p (zlen r) = Some r →
  ∃ st' h'', to_utf16_region dd bo x (zlen (concat seen)) p (zlen r) st h' = Ok ((true, st'), h'') ∧
    inv16 h bo css (seen ++ [r]) st' h''.
Proof using Hwf Hlive Hok Hroom Hcap Hreg Hcss.
  intros Hsr (css1 & css2 & d & Ecss & -> & -> & Hout) Hload.
  rewrite Hreg, Ecss, fmap_app in Hsr. apply app_inv_head in Hsr.
  destruct css2 as [|cs css2]; [done|]. rewrite fmap_cons in Hsr. injection Hsr as <- _.
  destruct (chars_split css1 cs css2 Ecss) as (Hcs & Hne & Hcss1 & Hz). rewrite concat_utf8s.
  pose proof (zlen_nonneg (utf8s cs)). pose proof (zlen_nonneg (utf8s (concat css1))).
  assert (∀ d' h'', utf_output h h'' (empty_buffer d') (pieces16 bo (css1 ++ [cs])) [] →
    inv16 h bo css ((utf8s <$> css1) ++ [utf8s cs]) (0, empty_buffer d') h'') as Hinv.
  { intros d' h'' Ho. exists (css1 ++ [cs]), css2, d'. rewrite fmap_app, <- app_assoc. done. }
  assert (2 * zlen (data_bytes h dd) + 2 + 1 < INT_MAX) as Hmax
    by (unfold BUFFER_MALLOC_MAX in Hcap; unfold INT_MAX; lia).
  assert (headroom h (2 * zlen (data_bytes h dd) + 2 + 1)) as Hroom' by (eapply headroom_le; [|exact Hroom]; lia).
  destruct (decide (css1 = [])) as [->|Hne1].
  - change (zlen (utf8s (concat []))) with 0 in *.
    destruct (region16_first h _ bo Hwf Hok Hroom' Hmax dd x p cs d h' Hout Hload Hcs Hne)
      as (d' & h'' & E & Hout'); [lia|lia|]. exists (0, empty_buffer d'), h''. split; [exact E|]. by apply Hinv.
  - assert (0 < zlen (utf8s (concat css1))) as Hpos.
    { destruct css1 as [|cs1 css1]; [done|]. cbn [concat]. rewrite utf8s_app, zlen_app.
      assert (cs1 ≠ []) as Hn1 by (apply chars_nonempty; rewrite Ecss; set_solver).
      inversion_clear Hcss1 as [|?? Hs1 _]. pose proof (utf8s_length cs1 Hs1).
      pose proof (zlen_nonneg (utf8s (concat css1))). destruct cs1; [done|]. unfold zlen in *. simpl in *. lia. }
    pose proof (pieces16_size bo css1 Hcss1).
    destruct (region16_next h _ bo Hwf Hok Hroom' Hmax dd x (zlen (utf8s (concat css1))) p cs d h' _ Hout Hload Hcs Hne)
      as (d' & h'' & E & Hout'); [lia|done|unfold BUFFER_MALLOC_MAX in Hcap; lia|lia|].
    exists (0, empty_buffer d'), h''. split; [exact E|]. apply Hinv. by rewrite pieces16_snoc.
Qed.

Lemma to_utf16_spec :
  ∃ l h' cs, _dispatch_transform_to_utf16 dd bo h = Ok (Some l, h') ∧ building h h' cs l None ∧
    map pc_bytes cs = pieces16 bo css.
Proof using Hwf Hlive Hok Hroom Hcap Hreg Hcss.
  pose proof Hlive as [o Ho]. unfold _dispatch_transform_to_utf16.
  destruct (apply_spec (to_utf16_region dd bo) (inv16 h bo css) (λ _ _, False) h dd o Hwf Ho)
    with (s0 := (0, empty_buffer dispatch_data_empty)) (h := h) as ([] & st & h' & E & Hpost); [..|done].
  - intros seen st h' (css1 & css2 & d & Ecss & _ & _ & (cs & Hps & Hb & _)). cbn [tb_start] in Hb.
    split; [|by eapply building_extends]. eapply building_wf; [done..|].
    assert (zlen cs ≤ 2 * zlen (data_bytes h dd) + 2) as Hz.
    { etrans; [apply pieces_count, Hb|]. unfold pieces_bytes. rewrite Hps.
      rewrite Ecss in Hcss. apply Forall_app in Hcss as [H1 _]. pose proof (pieces16_size bo css1 H1).
      pose proof chars_bytes as Hcb. rewrite Ecss, concat_app, utf8s_app in Hcb. rewrite <- Hcb, zlen_app.
      pose proof (zlen_nonneg (utf8s (concat css2))). lia. }
    apply (records_fit_le _ (Z.to_nat (2 * zlen (data_bytes h dd) + 2) + 1)); [unfold zlen in *; lia|].
    apply small_fit; [unfold BUFFER_MALLOC_MAX in Hcap; unfold INT_MAX; lia|pose proof (zlen_nonneg (data_bytes h dd)); lia].
  - intros seen r rest st h' x p Hsr Hinv Hload.
    destruct (region16_step seen r rest st h' x p Hsr Hinv Hload) as (st' & h'' & E & Hinv').
    by exists true, st', h''.
  - exists [], css, dispatch_data_empty. split_and!; try done. exists []. split; [done|].
    split_and!; try done. apply building_start.
  - destruct Hpost as (css1 & css2 & d & Ecss & Hr & -> & (cs & Hps & Hb & _)). cbn [tb_start tb_data] in Hb.
    exists d, h', cs. split; [by mstep E|]. split; [done|]. rewrite Hps. f_equal.
    rewrite Hreg in Hr. apply (f_equal length) in Hr. rewrite !length_fmap in Hr. rewrite Ecss in Hr |- *.
    rewrite length_app in Hr. destruct css2; [by rewrite app_nil_r|simpl in Hr; lia].
Qed.
End Transform16.
