(* ===== verification/DispatchUtf8.v ===== *)
(** * UTF-16 to UTF-8, and back again

    [_dispatch_transform_from_utf16] on objects whose regions hold whole
    characters, and the round trip with [_dispatch_transform_to_utf16]. *)

From Stdlib Require Import ZifyBool.
From S2P Require Import Prelude DispatchData DispatchDataInv DispatchDataSpec.
From S2P Require Import DispatchDataMap DispatchTransform DispatchDataAppend DispatchTransformSpec.
From S2P Require Import DispatchUnicode DispatchUtf16 DispatchDataWitness.
Import Data Transform.

(** The units of characters. *)
Definition units (cs : list Z) : list Z := mjoin (utf16 <$> cs).

Lemma units_cons c cs : units (c :: cs) = utf16 c ++ units cs.
Proof. done. Qed.
Lemma units_app cs cs' : units (cs ++ cs') = units cs ++ units cs'.
Proof. unfold units. by rewrite fmap_app, join_app. Qed.

Definition units_bytes (bo : Z) (us : list Z) : list Z := mjoin (unit_bytes bo <$> us).

Lemma units_bytes_app bo us us' : units_bytes bo (us ++ us') = units_bytes bo us ++ units_bytes bo us'.
Proof. unfold units_bytes. by rewrite fmap_app, join_app. Qed.

Lemma utf16s_units bo cs : utf16s bo cs = units_bytes bo (units cs).
Proof.
  induction cs as [|c cs IH]; [done|]. rewrite utf16s_cons, units_cons, units_bytes_app, IH. done.
Qed.

Lemma units_ok cs : Forall scalar cs → Forall unit_ok (units cs).
Proof.
  induction 1 as [|c cs Hc _ IH]; [constructor|]. rewrite units_cons. apply Forall_app.
  split; [by apply utf16_units|done].
Qed.

Lemma units_bytes_size bo us : Forall unit_ok us → zlen (units_bytes bo us) = 2 * zlen us.
Proof.
  induction 1 as [|u us Hu _ IH]; [done|]. change (units_bytes bo (u :: us)) with (unit_bytes bo u ++ units_bytes bo us).
  rewrite zlen_app, IH, zlen_cons. destruct (unit_bytes_ok bo u Hu) as [_ ->]. lia.
Qed.

(** The next unit of the source. *)
Lemma load16_at h p bo us u us' :
  load (mem h) p (zlen (units_bytes bo (us ++ u :: us'))) = Some (units_bytes bo (us ++ u :: us')) →
  Forall unit_ok us → unit_ok u →
  ∃ v, load16 (ptr_add p (zlen us * 2)) h = Ok (v, h) ∧ _dispatch_transform_swap_to_host v bo = u.
Proof.
  intros Hl Hus Hu. destruct (unit_bytes_ok bo u Hu) as [_ Hz].
  pose proof (read_at h p _ (units_bytes bo us) (unit_bytes bo u) (units_bytes bo us') Hl) as Hr.
  rewrite units_bytes_size, Hz, Z.mul_comm in Hr by done. eexists. split.
  - unfold load16. rewrite (bind_Ok _ _ _ _ _ (Hr (units_bytes_app bo us (u :: us')))). done.
  - by apply load_unit.
Qed.

(** ** Storing characters *)

Section FromUtf16.
Context (h0 : heap) (limit bo : Z) (Hwf : wf h0)
        (Hok : Forall (λ f, f = false) (malloc_fails h0))
        (Hroom : headroom h0 (limit + 1)) (Hmax : limit + 1 < INT_MAX).

(** [out] is all that was written. *)
Definition utf_written (h : heap) (tb : dispatch_transform_buffer_s) (out : list Z) : Prop :=
  ∃ ps cur, utf_output h0 h tb ps cur ∧ concat ps ++ cur = out.

Lemma stores8_output h tb p r ps cur vs :
  utf_output h0 h tb ps cur → source h tb p r → zlen vs ≤ room tb → Forall is_byte vs →
  ∃ tb' h', stores8 tb vs h = Ok (tb', h') ∧ utf_output h0 h' tb' ps (cur ++ vs) ∧ source h' tb' p r.
Proof using.
  intros Hout Hsrc Hr Hvs. revert h tb cur Hout Hsrc Hr. induction Hvs as [|v vs Hv Hvs IH]; intros h tb cur Hout Hsrc Hr.
  { exists tb, h. by rewrite app_nil_r. }
  rewrite zlen_cons in Hr. pose proof (zlen_nonneg vs).
  destruct (write_output h0 h tb p r ps cur [v]) as (q & h1 & Hq & Hw & Hout1 & Hsrc1); try done.
  { by constructor. } { change (zlen [v]) with 1. lia. }
  cbn [stores8]. unfold store8. rewrite Hq. cbn [nonnull].
  destruct (IH h1 _ (cur ++ [v]) Hout1 Hsrc1) as (tb' & h' & E & Hout' & Hsrc').
  { unfold room in *. cbn [tb_size tb_used]. change (zlen [v]) with 1. lia. }
  exists tb', h'. rewrite <- app_assoc in Hout'. split_and!; try done.
  unfold is_byte in Hv. unfold mbind, M_bind, mret, M_ret. rewrite (wrapu_small 8 v) by (change (2 ^ 8) with 256; lia).
  by rewrite Hw.
Qed.

(** One character. *)
Lemma put_char8 h tb p r out max i c :
  utf_written h tb out → source h tb p r → scalar c → zlen out ≤ limit → 0 ≤ i < max →
  2 * max + 4 ≤ BUFFER_MALLOC_MAX →
  ∃ tb' h', from_utf16_put max i c tb h = Ok ((true, tb'), h') ∧
    utf_written h' tb' (out ++ utf8 c) ∧ source h' tb' p r.
Proof using Hwf Hok Hroom Hmax.
  intros (ps & cur & Hout & <-) Hsrc Hc Hlim Hi Hcap. unfold from_utf16_put.
  unfold BUFFER_MALLOC_MAX in Hcap. rewrite (wrapu_small 64) by lia.
  assert (((max - i) * 2 >? SIZE_T_MAX) = false) as -> by (unfold SIZE_T_MAX; lia).
  rewrite utf8_bytes_eq by done. destruct (utf8_length c Hc) as (b & bs & Eb & _ & _ & Hz).
  pose proof (utf8_is_byte c Hc) as Hby. rewrite Eb in *.
  destruct (new_output h0 limit Hwf Hok Hroom Hmax h tb p r ps cur (zlen (b :: bs)) ((max - i) * 2))
    as (tb1 & h1 & E1 & Hsrc1 & Hnew); try done; try (unfold BUFFER_MALLOC_MAX; lia). mstep E1.
  assert (∃ ps' cur', utf_output h0 h1 tb1 ps' cur' ∧ concat ps' ++ cur' = concat ps ++ cur ∧
    zlen (b :: bs) ≤ room tb1) as (ps' & cur' & Hout1 & Eout & Hr1).
  { destruct (Z.leb_spec (zlen (b :: bs)) (room tb)).
    - destruct Hnew as [-> Hout1]. by exists ps, cur.
    - destruct Hnew as [Hr1 Hout1]. exists (ps ++ piece_of cur), []. split_and!; [done| |lia].
      rewrite concat_app, app_nil_r. destruct cur; simpl; by rewrite ?app_nil_r. }
  destruct (stores8_output h1 tb1 p r ps' cur' (b :: bs)) as (tb2 & h2 & E2 & Hout2 & Hsrc2); try done.
  mstep E2. exists tb2, h2. split_and!; try done. exists ps', (cur' ++ b :: bs).
  split; [done|]. by rewrite app_assoc, Eout.
Qed.

(** ** A region *)

(** A byte order mark at the start of the data is left out. *)
Definition emit8 (offset i c : Z) : list Z :=
  if (c =? 0xfeff) && (offset =? 0) && (i =? 0) then [] else utf8 c.

(** The mark in the wrong byte order. *)
Definition not_swapped (offset i c : Z) : Prop :=
  (c =? 0xfffe) && (offset =? 0) && (i =? 0) = false.

Section Region.
Context (data : loc) (p : ptr) (offset : Z) (us : list Z) (Hus : Forall unit_ok us)
        (Hcap : 2 * zlen us + 4 ≤ BUFFER_MALLOC_MAX).
Local Abbreviation r := (units_bytes bo us).
Local Abbreviation loop fuel i tb :=
  (from_utf16_loop fuel data bo offset p i (zlen us) (2 * zlen us) (0, tb)).

(** A unit inside the region is read from the source. *)
Lemma unit_at h tb us1 u us2 :
  source h tb p r → us = us1 ++ u :: us2 →
  ∃ v, load16 (ptr_add p (zlen us1 * 2)) h = Ok (v, h) ∧ _dispatch_transform_swap_to_host v bo = u.
Proof using Hus.
  intros [Hl _] E. rewrite E in Hus, Hl. apply Forall_app in Hus as [H1 H2]. inversion_clear H2.
  by eapply load16_at.
Qed.

Lemma half_units : 2 * zlen us / 2 = zlen us.
Proof using. rewrite Z.mul_comm. by apply Z.div_mul. Qed.

(** A character of one unit. *)
Lemma step_one fuel h tb out us1 c us2 :
  utf_written h tb out → source h tb p r → us = us1 ++ c :: us2 → scalar c → c < 0x10000 →
  zlen out ≤ limit → not_swapped offset (zlen us1) c →
  ∃ tb' h', loop (S fuel) (zlen us1) tb h = loop fuel (zlen us1 + 1) tb' h' ∧
    utf_written h' tb' (out ++ emit8 offset (zlen us1) c) ∧ source h' tb' p r.
Proof using Hwf Hok Hroom Hmax Hus Hcap.
  intros Hout Hsrc E Hc Hsmall Hlim Hsw. cbn [from_utf16_loop].
  assert (zlen us = zlen us1 + 1 + zlen us2) as Hz by (rewrite E, zlen_app, zlen_cons; lia).
  pose proof (zlen_nonneg us1). pose proof (zlen_nonneg us2).
  destruct (Z.ltb_spec (zlen us1) (zlen us)); [|lia]. rewrite half_units, Z.ltb_irrefl, andb_false_r.
  destruct (unit_at h tb us1 c us2 Hsrc E) as (v & El & Ev).
  rewrite (bind_Ok _ _ _ (Some c, 0) h) by (mstep El; by rewrite Ev).
  unfold not_swapped in Hsw. rewrite Hsw. unfold emit8.
  destruct ((c =? 0xfeff) && (offset =? 0) && (zlen us1 =? 0)).
  { exists tb, h. by rewrite app_nil_r. }
  assert ((0xd800 <=? c) && (c <=? 0xdbff) = false) as -> by (unfold scalar in Hc; lia).
  assert ((0xdc00 <=? c) && (c <=? 0xdfff) = false) as -> by (unfold scalar in Hc; lia).
  rewrite (bind_Ok _ _ _ (Some c, zlen us1, 0) h) by done.
  destruct (put_char8 h tb p r out (zlen us) (zlen us1) c) as (tb' & h' & Ep & Hout' & Hsrc'); try done.
  mstep Ep. by exists tb', h'.
Qed.

(** A surrogate pair. *)
Lemma step_pair fuel h tb out us1 c hi lo us2 :
  utf_written h tb out → source h tb p r → us = us1 ++ hi :: lo :: us2 → utf16 c = [hi; lo] →
  0x10000 ≤ c < 0x110000 → zlen out ≤ limit →
  ∃ tb' h', loop (S fuel) (zlen us1) tb h = loop fuel (zlen us1 + 2) tb' h' ∧
    utf_written h' tb' (out ++ utf8 c) ∧ source h' tb' p r.
Proof using Hwf Hok Hroom Hmax Hus Hcap.
  intros Hout Hsrc E Hu Hc Hlim. cbn [from_utf16_loop].
  destruct (surrogates c Hc) as (Hs & Hhi & Hlo & Hback). rewrite Hu in Hs. injection Hs as Ehi Elo.
  rewrite <- Ehi in Hhi, Hback. rewrite <- Elo in Hlo, Hback. clear Ehi Elo.
  assert (zlen us = zlen us1 + 2 + zlen us2) as Hz by (rewrite E, zlen_app, !zlen_cons; lia).
  pose proof (zlen_nonneg us1). pose proof (zlen_nonneg us2).
  destruct (Z.ltb_spec (zlen us1) (zlen us)); [|lia]. rewrite half_units, Z.ltb_irrefl, andb_false_r.
  destruct (unit_at h tb us1 hi (lo :: us2) Hsrc E) as (v & El & Ev).
  rewrite (bind_Ok _ _ _ (Some hi, 0) h) by (mstep El; by rewrite Ev).
  assert ((hi =? 0xfffe) = false) as -> by lia. assert ((hi =? 0xfeff) = false) as -> by lia. cbn [andb].
  assert ((0xd800 <=? hi) && (hi <=? 0xdbff) = true) as -> by lia.
  destruct (Z.leb_spec (zlen us) (zlen us1 + 1)); [lia|].
  destruct (unit_at h tb (us1 ++ [hi]) lo us2 Hsrc) as (v2 & El2 & Ev2); [by rewrite <- app_assoc|].
  rewrite zlen_app in El2. change (zlen [hi]) with 1 in El2.
  rewrite (bind_Ok _ _ _ (Some c, zlen us1 + 1, 0) h).
  2:{ rewrite (bind_Ok _ _ _ (Some lo, 0) h) by (mstep El2; by rewrite Ev2).
      assert (negb ((0xdc00 <=? lo) && (lo <=? 0xdfff)) = false) as -> by lia. by rewrite Hback. }
  destruct (put_char8 h tb p r out (zlen us) (zlen us1 + 1) c) as (tb' & h' & Ep & Hout' & Hsrc');
    try done; [right; lia|lia|].
  mstep Ep. exists tb', h'. by rewrite <- Z.add_assoc.
Qed.

Fixpoint emit8s (i : Z) (cs : list Z) : list Z :=
  match cs with
  | [] => []
  | c :: cs => emit8 offset i c ++ emit8s (i + zlen (utf16 c)) cs
  end.

Definition head_not_swapped (i : Z) (cs : list Z) : Prop :=
  match cs with c :: _ => not_swapped offset i c | [] => True end.

Lemma later_not_swapped i cs : 0 < i → head_not_swapped i cs.
Proof using.
  intros Hi. destruct cs; [done|]. unfold head_not_swapped, not_swapped.
  destruct (Z.eqb_spec i 0); [lia|]. by rewrite andb_false_r.
Qed.

Lemma utf16_length c : scalar c → 1 ≤ zlen (utf16 c) ≤ 2.
Proof using. unfold utf16. by destruct (c <? 0x10000). Qed.

Lemma loop8 cs done_ fuel h tb out :
  utf_written h tb out → source h tb p r → Forall scalar cs → us = units done_ ++ units cs →
  (length cs ≤ fuel)%nat → zlen out + zlen (utf8s cs) ≤ limit →
  head_not_swapped (zlen (units done_)) cs →
  ∃ d h', loop fuel (zlen (units done_)) tb h = Ok ((true, (0, empty_buffer d)), h') ∧
    utf_written h' (empty_buffer d) (out ++ emit8s (zlen (units done_)) cs).
Proof using Hwf Hok Hroom Hmax Hus Hcap.
  intros Hout Hsrc Hcs. revert done_ fuel h tb out Hout Hsrc.
  induction Hcs as [|c cs Hc Hcs IH]; intros done_ fuel h tb out Hout Hsrc E Hf Hlim Hsw.
  - destruct Hout as (ps & cur & Hout & <-). change (zlen (utf8s [])) with 0 in Hlim.
    destruct (finish_output h0 limit Hwf Hroom Hmax h tb p r ps cur) as (d & h' & Ef & Hout'); try done; [lia|].
    exists d, h'. rewrite app_nil_r in E. split.
    + destruct fuel; cbn [from_utf16_loop]; rewrite E, Z.ltb_irrefl; by mstep Ef.
    + exists (ps ++ piece_of cur), []. split; [done|]. cbn [emit8s]. rewrite concat_app, !app_nil_r.
      destruct cur; simpl; by rewrite ?app_nil_r.
  - destruct fuel as [|fuel]; simpl in Hf; [lia|]. rewrite units_cons in E. rewrite utf8s_cons, zlen_app in Hlim.
    pose proof (zlen_nonneg (utf8s cs)). pose proof (zlen_nonneg (utf8 c)). pose proof (zlen_nonneg (units done_)).
    pose proof (utf16_length c Hc) as Hl16.
    assert (∃ tb' h', loop (S fuel) (zlen (units done_)) tb h = loop fuel (zlen (units done_) + zlen (utf16 c)) tb' h' ∧
      utf_written h' tb' (out ++ emit8 offset (zlen (units done_)) c) ∧ source h' tb' p r)
      as (tb' & h' & Estep & Hout' & Hsrc').
    { destruct (Z.ltb_spec c 0x10000) as [Hlt|Hge].
      - assert (utf16 c = [c]) as Eu by (unfold utf16; by destruct (Z.ltb_spec c 0x10000); [|lia]).
        rewrite Eu in *. by apply (step_one fuel h tb out (units done_) c (units cs)); [..|lia|].
      - destruct (surrogates c) as (Eu & _); [unfold scalar in Hc; lia|]. set (hi := _ + 0xd800) in Eu.
        set (lo := _ + 0xdc00) in Eu. rewrite Eu in *.
        assert (emit8 offset (zlen (units done_)) c = utf8 c) as ->
          by (unfold emit8; by destruct (Z.eqb_spec c 0xfeff); [lia|]).
        by apply (step_pair fuel h tb out (units done_) c hi lo (units cs)); [..|unfold scalar in Hc; lia|lia]. }
    assert (zlen (emit8 offset (zlen (units done_)) c) ≤ zlen (utf8 c)) as Hz8
      by (unfold emit8; destruct (_ && _); [change (zlen (@nil Z)) with 0|]; lia).
    destruct (IH (done_ ++ [c]) fuel h' tb' (out ++ emit8 offset (zlen (units done_)) c)) as (d & h'' & El & Hout'');
      try done.
    + rewrite units_app, units_cons, <- app_assoc. by rewrite app_nil_r.
    + lia.
    + rewrite zlen_app. lia.
    + rewrite units_app, zlen_app, units_cons, app_nil_r. apply later_not_swapped. lia.
    + rewrite units_app, zlen_app, units_cons, app_nil_r in El, Hout''. rewrite Estep.
      exists d, h''. cbn [emit8s]. by rewrite app_assoc.
Qed.
End Region.
End FromUtf16.

Lemma emit8s_later offset i cs : 0 ≤ i → 0 < offset + i → 0 ≤ offset → emit8s offset i cs = utf8s cs.
Proof.
  intros Hi Ho Hoff. revert i Hi Ho. induction cs as [|c cs IH]; intros i Hi Ho; [done|]. cbn [emit8s].
  pose proof (zlen_nonneg (utf16 c)). rewrite IH by lia. unfold emit8.
  assert ((c =? 0xfeff) && (offset =? 0) && (i =? 0) = false) as -> by lia. done.
Qed.

Lemma emit8s_start cs : Forall scalar cs → emit8s 0 0 cs = utf8s (strip_bom cs).
Proof.
  intros Hcs. destruct Hcs as [|c cs Hc Hcs]; [done|]. cbn [emit8s strip_bom]. unfold emit8.
  pose proof (utf16_length c Hc). rewrite emit8s_later by lia. rewrite !andb_true_r.
  by destruct (c =? 0xfeff).
Qed.

Lemma utf8s_size bo cs : Forall scalar cs → zlen (utf8s cs) ≤ 2 * zlen (utf16s bo cs).
Proof.
  induction 1 as [|c cs Hc _ IH]; [done|]. rewrite utf16s_cons, utf8s_cons, !zlen_app.
  destruct (utf16_bytes_ok bo c Hc) as (_ & _ & ?).
  destruct (utf8_length c Hc) as (_ & _ & _ & _ & _ & ?). lia.
Qed.

Lemma strip_bom_size cs : zlen (utf8s (strip_bom cs)) ≤ zlen (utf8s cs).
Proof.
  destruct cs as [|c cs]; [done|]. cbn [strip_bom]. rewrite utf8s_cons. destruct (c =? 0xfeff); [|done].
  rewrite zlen_app. pose proof (zlen_nonneg (utf8 c)). lia.
Qed.

Lemma units_length cs : Forall scalar cs → (length cs ≤ length (units cs))%nat.
Proof.
  induction 1 as [|c cs Hc _ IH]; [done|]. rewrite units_cons, length_app.
  pose proof (utf16_length c Hc) as Hz. unfold zlen in Hz. simpl. lia.
Qed.

Section Transform8.
Context (h : heap) (dd : loc) (bo : Z) (css : list (list Z)).
Context (Hwf : wf h) (Hlive : live h dd) (Hok : Forall (λ f, f = false) (malloc_fails h))
        (Hroom : headroom h (2 * zlen (data_bytes h dd) + 1))
        (Hcap : zlen (data_bytes h dd) + 4 ≤ BUFFER_MALLOC_MAX)
        (Hreg : regions h dd = utf16s bo <$> css) (Hcss : Forall (Forall scalar) css)
        (Hsw : head (concat css) ≠ Some 0xfffe).
Local Abbreviation limit := (2 * zlen (data_bytes h dd)).

Lemma chars8_nonempty cs : cs ∈ css → cs ≠ [].
Proof using Hwf Hlive Hreg.
  intros Hin ->. apply (regions_nonempty h dd [] Hwf Hlive); [|done]. rewrite Hreg.
  apply list_elem_of_fmap. by exists [].
Qed.

Lemma chars8_bytes : utf16s bo (concat css) = data_bytes h dd.
Proof using Hwf Hlive Hreg. by rewrite <- (regions_concat h dd Hwf Hlive), Hreg, concat_utf16s. Qed.

Lemma chars8_split css1 cs css2 : css = css1 ++ cs :: css2 →
  Forall scalar cs ∧ cs ≠ [] ∧ Forall scalar (concat css1) ∧
  zlen (utf16s bo (concat css1)) + zlen (utf16s bo cs) ≤ zlen (data_bytes h dd).
Proof using Hwf Hlive Hreg Hcss.
  clear Hok Hroom Hcap Hsw. intros E. pose proof (chars8_nonempty cs) as Hne. pose proof chars8_bytes as Hb.
  rewrite E in Hne, Hb, Hcss. apply Forall_app in Hcss as [H1 H2]. inversion_clear H2.
  split_and!; try done; [apply Hne; set_solver|by apply Forall_concat|].
  rewrite <- Hb, concat_app, utf16s_app. cbn [concat]. rewrite utf16s_app, !zlen_app.
  pose proof (zlen_nonneg (utf16s bo (concat css2))). lia.
Qed.

Definition inv8 (seen : list (list Z)) (st : Z * dispatch_transform_buffer_s) (h' : heap) : Prop :=
  ∃ css1 css2 d, css = css1 ++ css2 ∧ seen = utf16s bo <$> css1 ∧ st = (0, empty_buffer d) ∧
    utf_written h h' (empty_buffer d) (utf8s (strip_bom (concat css1))).

(** A region of whole characters; [out] was written before. *)
Lemma region8 x offset p cs d h' out :
  utf_written h h' (empty_buffer d) out → load (mem h') p (zlen (utf16s bo cs)) = Some (utf16s bo cs) →
  Forall scalar cs → cs ≠ [] → zlen (utf16s bo cs) ≤ zlen (data_bytes h dd) → 0 ≤ offset →
  zlen out + zlen (utf8s cs) ≤ limit → head_not_swapped offset 0 cs →
  ∃ d' h'', from_utf16_region dd bo x offset p (zlen (utf16s bo cs)) (0, empty_buffer d) h' =
      Ok ((true, (0, empty_buffer d')), h'') ∧ utf_written h h'' (empty_buffer d') (out ++ emit8s offset 0 cs).
Proof using Hwf Hok Hroom Hcap.
  intros Hout Hload Hcs Hne Hz Hoff Hlim Hhead. pose proof (units_ok cs Hcs) as Hus.
  pose proof (units_length cs Hcs) as Hul. rewrite utf16s_units in *. rewrite units_bytes_size in Hz |- * by done.
  assert (1 ≤ zlen (units cs)) as Hpos by (unfold zlen; destruct cs; simpl in *; [done|lia]).
  assert (limit + 1 < INT_MAX) as Hmax by (unfold BUFFER_MALLOC_MAX in Hcap; unfold INT_MAX; lia).
  assert (∃ tb h1, (if offset =? 0 then _dispatch_transform_buffer_new (empty_buffer d) (howmany (2 * zlen (units cs)) 3 * 2) 0
      else mret (true, empty_buffer d)) h' = Ok ((true, tb), h1) ∧
    utf_written h h1 tb out ∧ source h1 tb p (units_bytes bo (units cs))) as (tb & h1 & E1 & Hout1 & Hsrc1).
  { destruct (offset =? 0); [|exists (empty_buffer d), h'; split_and!; [done..|by apply empty_source]].
    destruct Hout as (ps & cur & Hout & <-).
    assert (0 < howmany (2 * zlen (units cs)) 3 * 2 ≤ 2 * zlen (units cs) + 4) as Hhm.
    { unfold howmany. pose proof (Z.div_mod (2 * zlen (units cs)) 3). pose proof (Z.mod_pos_bound (2 * zlen (units cs)) 3).
      destruct (_ =? 0) eqn:?; lia. }
    pose proof (zlen_nonneg (utf8s cs)).
    destruct (new_output h limit Hwf Hok Hroom Hmax h' (empty_buffer d) p (units_bytes bo (units cs)) ps cur
      (howmany (2 * zlen (units cs)) 3 * 2) 0) as (tb & h1 & E & Hsrc & Hnew); try done; try lia.
    exists tb, h1. split; [done|]. split; [|done]. change (room (empty_buffer d)) with 0 in Hnew.
    destruct (Z.leb_spec (howmany (2 * zlen (units cs)) 3 * 2) 0); [lia|]. destruct Hnew as [_ Hnew].
    exists (ps ++ piece_of cur), []. split; [done|]. rewrite concat_app, app_nil_r.
    destruct cur; simpl; by rewrite ?app_nil_r. }
  unfold from_utf16_region. mstep E1. destruct (Z.leb_spec (2 * zlen (units cs)) 0); [lia|].
  rewrite Z.sub_0_r, ptr_add_0, half_units.
  assert ((2 * zlen (units cs)) mod 2 = 0) as -> by (rewrite Z.mul_comm; by apply Z.mod_mul).
  rewrite Z.eqb_refl, Z.add_0_r.
  destruct (loop8 h limit bo Hwf Hok Hroom Hmax dd p offset (units cs) Hus ltac:(lia) cs [] (Z.to_nat (zlen (units cs)))
    h1 tb out) as (d' & h'' & El & Hout'); try done; [unfold zlen; lia|]. by exists d', h''.
Qed.

Lemma region8_step seen r rest st h' x p :
  regions h dd = seen ++ r :: rest → inv8 seen st h' → load (mem h') p (zlen r) = Some r →
  ∃ st' h'', from_utf16_region dd bo x (zlen (concat seen)) p (zlen r) st h' = Ok ((true, st'), h'') ∧
    inv8 (seen ++ [r]) st' h''.
Proof using Hwf Hlive Hok Hroom Hcap Hreg Hcss Hsw.
  intros Hsr (css1 & css2 & d & Ecss & -> & -> & Hout) Hload.
  rewrite Hreg, Ecss, fmap_app in Hsr. apply app_inv_head in Hsr.
  destruct css2 as [|cs css2]; [done|]. rewrite fmap_cons in Hsr. injection Hsr as <- _.
  destruct (chars8_split css1 cs css2 Ecss) as (Hcs & Hne & Hcs1 & Hz). rewrite concat_utf16s.
  pose proof (zlen_nonneg (utf16s bo cs)). pose proof (zlen_nonneg (utf16s bo (concat css1))).
  set (offset := zlen (utf16s bo (concat css1))) in *.
  pose proof (utf8s_size bo cs Hcs). pose proof (utf8s_size bo (concat css1) Hcs1).
  pose proof (strip_bom_size (concat css1)).
  assert (concat css1 = [] ∧ offset = 0 ∨ concat css1 ≠ [] ∧ 0 < offset) as Hcase.
  { unfold offset. destruct (concat css1) as [|c1 cs1]; [by left|right]. split; [done|].
    inversion_clear Hcs1 as [|?? Hc1 _]. rewrite utf16s_cons, zlen_app.
    destruct (utf16_bytes_ok bo c1 Hc1) as (_ & _ & ?). pose proof (zlen_nonneg (utf16s bo cs1)). lia. }
  destruct (region8 x offset p cs d h' _ Hout Hload Hcs Hne) as (d' & h'' & E & Hout'); [lia|lia|lia| |].
  { destruct Hcase as [[Hnil ->]|[_ Hpos]].
    - rewrite Ecss, concat_app, Hnil in Hsw. destruct cs as [|c cs]; [done|]. simpl in Hsw. simpl.
      unfold not_swapped. destruct (Z.eqb_spec c 0xfffe) as [->|]; done.
    - destruct cs; [done|]. simpl. unfold not_swapped. destruct (Z.eqb_spec offset 0); [lia|].
      by rewrite andb_false_r. }
  exists (0, empty_buffer d'), h''. split; [exact E|]. exists (css1 ++ [cs]), css2, d'.
  rewrite fmap_app, <- app_assoc. split_and!; try done. rewrite concat_app. cbn [concat]. rewrite app_nil_r.
  destruct Hcase as [[Hnil Ho]|[Hn Hpos]].
  - rewrite Hnil, Ho in *. by rewrite emit8s_start in Hout'.
  - rewrite emit8s_later in Hout' by lia. rewrite <- utf8s_app in Hout'.
    destruct (concat css1) as [|c1 cs1]; [done|]. simpl in *. by destruct (c1 =? 0xfeff).
Qed.

Lemma from_utf16_spec :
  ∃ l h' cs, _dispatch_transform_from_utf16 dd bo h = Ok (Some l, h') ∧ building h h' cs l None ∧
    pieces_bytes cs = utf8s (strip_bom (concat css)).
Proof using Hwf Hlive Hok Hroom Hcap Hreg Hcss Hsw.
  pose proof Hlive as [o Ho]. unfold _dispatch_transform_from_utf16.
  destruct (apply_spec (from_utf16_region dd bo) inv8 (λ _ _, False) h dd o Hwf Ho)
    with (s0 := (0, empty_buffer dispatch_data_empty)) (h := h) as ([] & st & h' & E & Hpost); [..|done].
  - intros seen st h' (css1 & css2 & d & Ecss & _ & _ & (ps & cur & (cs & Hps & Hb & ->  & _) & Eout)).
    cbn [tb_start tb_data] in Hb. split; [|by eapply building_extends]. eapply building_wf; [done..|].
    assert (zlen cs ≤ limit) as Hz.
    { etrans; [apply pieces_count, Hb|]. unfold pieces_bytes. rewrite Hps. rewrite app_nil_r in Eout. rewrite Eout.
      rewrite Ecss in Hcss. apply Forall_app in Hcss as [H1 _]. apply Forall_concat in H1.
      pose proof (utf8s_size bo _ H1). pose proof (strip_bom_size (concat css1)).
      pose proof chars8_bytes as Hcb. rewrite Ecss, concat_app, utf16s_app in Hcb. rewrite <- Hcb, zlen_app.
      pose proof (zlen_nonneg (utf16s bo (concat css2))). lia. }
    apply (records_fit_le _ (Z.to_nat limit + 1)); [unfold zlen in *; lia|].
    apply small_fit; [unfold BUFFER_MALLOC_MAX in Hcap; unfold INT_MAX; lia|pose proof (zlen_nonneg (data_bytes h dd)); lia].
  - intros seen r rest st h' x p Hsr Hinv Hload.
    destruct (region8_step seen r rest st h' x p Hsr Hinv Hload) as (st' & h'' & E & Hinv').
    by exists true, st', h''.
  - exists [], css, dispatch_data_empty. split_and!; try done. exists [], []. split; [|done]. exists [].
    split; [done|]. split_and!; try done. apply building_start.
  - destruct Hpost as (css1 & css2 & d & Ecss & Hr & -> & (ps & cur & (cs & Hps & Hb & -> & _) & Eout)).
    cbn [tb_start tb_data] in Hb. exists d, h', cs. split; [by mstep E|]. split; [done|].
    unfold pieces_bytes. rewrite Hps. rewrite app_nil_r in Eout. rewrite Eout. do 3 f_equal.
    rewrite Hreg in Hr. apply (f_equal length) in Hr. rewrite !length_fmap in Hr. rewrite Ecss in Hr |- *.
    rewrite length_app in Hr. destruct css2; [by rewrite app_nil_r|simpl in Hr; lia].
Qed.
End Transform8.

(** ** Properties *)

Lemma building_returns m h l h' cs bytes :
  wf h → m h = Ok (Some l, h') → building h h' cs l None → records_fit (length cs) →
  pieces_bytes cs = bytes → returns_data m h bytes.
Proof.
  intros Hwf E Hb Hfit <-. destruct (building_bytes _ _ _ _ _ Hwf Hb) as [Hl Hbytes].
  exists l, h'. split_and!; try done; [by eapply building_wf|by eapply building_extends|by eapply building_owned].
Qed.

Lemma from_utf16_returns h dd bo css :
  wf h → live h dd → Forall (λ f, f = false) (malloc_fails h) →
  headroom h (2 * zlen (data_bytes h dd) + 1) → zlen (data_bytes h dd) + 4 ≤ BUFFER_MALLOC_MAX →
  regions h dd = utf16s bo <$> css → Forall (Forall scalar) css → head (concat css) ≠ Some 0xfffe →
  returns_data (_dispatch_transform_from_utf16 dd bo) h (utf8s (strip_bom (concat css))).
Proof.
  intros Hwf Hl Hok Hroom Hcap Hreg Hcss Hsw.
  destruct (from_utf16_spec h dd bo css Hwf Hl Hok Hroom Hcap Hreg Hcss Hsw) as (l & h' & cs & E & Hb & Hbytes).
  eapply (building_returns _ _ _ _ cs); try done.
  apply (records_fit_le _ (Z.to_nat (2 * zlen (data_bytes h dd)) + 1)).
  - pose proof (pieces_count cs (bld_pieces _ _ _ _ _ Hb)) as Hz. rewrite Hbytes in Hz.
    pose proof (strip_bom_size (concat css)). pose proof (utf8s_size bo (concat css)) as Hu.
    rewrite Forall_concat, (chars8_bytes h dd bo css Hwf Hl Hreg) in Hu. specialize (Hu Hcss).
    unfold zlen in *. lia.
  - pose proof (zlen_nonneg (data_bytes h dd)). unfold BUFFER_MALLOC_MAX in Hcap.
    apply small_fit; [unfold INT_MAX|]; lia.
Qed.

(** UTF-8 to UTF-16: for data made of regions of whole characters the
    transform returns, in the byte order asked for, a byte order mark and the
    UTF-16 of the characters, without the mark the input may start with; the
    result is one region per region of the input. *)
Theorem to_utf16_correct h dd bo css :
  wf h → live h dd → Forall (λ f, f = false) (malloc_fails h) →
  headroom h (2 * zlen (data_bytes h dd) + 3) → 2 * zlen (data_bytes h dd) + 2 ≤ BUFFER_MALLOC_MAX →
  regions h dd = utf8s <$> css → Forall (Forall scalar) css → css ≠ [] →
  returns_data (_dispatch_transform_to_utf16 dd bo) h (utf16s bo (0xfeff :: strip_bom (concat css))).
Proof.
  intros Hwf Hl Hok Hroom Hcap Hreg Hcss Hne.
  destruct (to_utf16_spec h dd bo css Hwf Hl Hok Hroom Hcap Hreg Hcss) as (l & h' & cs & E & Hb & Hps).
  assert (pieces_bytes cs = utf16s bo (0xfeff :: strip_bom (concat css))) as Hbytes.
  { unfold pieces_bytes. rewrite Hps. apply pieces16_concat; [done|]. apply Forall_forall.
    intros x. by apply (chars_nonempty h dd). }
  eapply (building_returns _ _ _ _ cs); try done.
  apply (records_fit_le _ (Z.to_nat (2 * zlen (data_bytes h dd) + 2) + 1)).
  - pose proof (pieces_count cs (bld_pieces _ _ _ _ _ Hb)) as Hz. unfold pieces_bytes in Hz. rewrite Hps in Hz.
    pose proof (pieces16_size bo css Hcss). rewrite (chars_bytes h dd css Hwf Hl Hreg) in *. unfold zlen in *. lia.
  - pose proof (zlen_nonneg (data_bytes h dd)). unfold BUFFER_MALLOC_MAX in Hcap.
    apply small_fit; [unfold INT_MAX|]; lia.
Qed.

(** UTF-16 to UTF-8: for data made of regions of whole characters the
    transform returns the UTF-8 of the characters, without the byte order mark
    the input may start with. *)
Theorem from_utf16_correct h dd bo css :
  wf h → live h dd → Forall (λ f, f = false) (malloc_fails h) →
  headroom h (2 * zlen (data_bytes h dd) + 1) → zlen (data_bytes h dd) + 4 ≤ BUFFER_MALLOC_MAX →
  regions h dd = utf16s bo <$> css → Forall (Forall scalar) css → head (concat css) ≠ Some 0xfffe →
  returns_data (_dispatch_transform_from_utf16 dd bo) h (utf8s (strip_bom (concat css))).
Proof. apply from_utf16_returns. Qed.

(** The characters of the result of [_dispatch_transform_to_utf16], by region. *)
Definition marked (css : list (list Z)) : list (list Z) :=
  match css with [] => [] | cs :: css => (0xfeff :: strip_bom cs) :: css end.

Lemma pieces16_marked bo css : pieces16 bo css = utf16s bo <$> marked css.
Proof.
  destruct css as [|cs css]; [done|]. cbn [pieces16 marked]. rewrite fmap_cons, utf16s_cons.
  by rewrite utf16_bytes_one.
Qed.

Lemma marked_chars css :
  Forall (Forall scalar) css → Forall (λ cs, cs ≠ []) css →
  Forall (Forall scalar) (marked css) ∧ head (concat (marked css)) ≠ Some 0xfffe ∧
  strip_bom (concat (marked css)) = strip_bom (concat css).
Proof.
  intros Hcss Hne. destruct css as [|cs css]; [done|]. cbn [marked concat strip_bom app head].
  inversion_clear Hcss as [|?? Hcs Hcss']. inversion_clear Hne as [|?? Hn _]. rewrite Z.eqb_refl.
  split_and!; [|done|].
  - constructor; [|done]. constructor; [right; lia|]. destruct Hcs; [done|]. cbn [strip_bom]. case_match; [done|].
    by constructor.
  - destruct cs as [|c cs]; [done|]. simpl. by destruct (c =? 0xfeff).
Qed.

(** C38. UTF round trip: decoding the UTF-16 of a data object gives back its
    bytes, apart from a byte order mark at the start. *)
Theorem utf16_roundtrip h dd bo css :
  wf h → live h dd → Forall (λ f, f = false) (malloc_fails h) →
  headroom h (4 * zlen (data_bytes h dd) + 5) → 2 * zlen (data_bytes h dd) + 6 ≤ BUFFER_MALLOC_MAX →
  regions h dd = utf8s <$> css → Forall (Forall scalar) css →
  ∃ l h1 l' h2, _dispatch_transform_to_utf16 dd bo h = Ok (Some l, h1) ∧
    _dispatch_transform_from_utf16 l bo h1 = Ok (Some l', h2) ∧ wf h2 ∧ extends h h2 ∧
    data_bytes h2 l' = utf8s (strip_bom (concat css)) ∧
    (head (concat css) ≠ Some 0xfeff → data_bytes h2 l' = data_bytes h dd).
Proof.
  intros Hwf Hl Hok Hroom Hcap Hreg Hcss. pose proof (zlen_nonneg (data_bytes h dd)).
  assert (Forall (λ cs, cs ≠ []) css) as Hne
    by (apply Forall_forall; intros x; by apply (chars_nonempty h dd)).
  destruct (to_utf16_spec h dd bo css Hwf Hl Hok) as (l & h1 & cs & E1 & Hb & Hps); try done; try lia.
  { eapply headroom_le; [|exact Hroom]. lia. }
  pose proof (pieces16_size bo css Hcss) as Hsize. rewrite (chars_bytes h dd css Hwf Hl Hreg) in Hsize.
  pose proof (pieces_count cs (bld_pieces _ _ _ _ _ Hb)) as Hcount.
  destruct (building_bytes _ _ _ _ _ Hwf Hb) as [Hl1 Hb1]. pose proof (building_regions _ _ _ _ _ Hwf Hb) as Hr1.
  rewrite Hps, pieces16_marked in Hr1. unfold pieces_bytes in Hb1, Hcount. rewrite Hps in Hb1, Hcount.
  unfold BUFFER_MALLOC_MAX in *.
  assert (wf h1) as Hwf1.
  { eapply building_wf; [done..|]. apply (records_fit_le _ (Z.to_nat (2 * zlen (data_bytes h dd) + 2) + 1));
      [unfold zlen in *; lia|]. apply small_fit; unfold INT_MAX; lia. }
  destruct (marked_chars css Hcss Hne) as (Hm1 & Hm2 & Hm3).
  destruct (from_utf16_returns h1 l bo (marked css) Hwf1 Hl1) as (l' & h2 & E2 & Hwf2 & Hext2 & _ & Hb2 & _); try done.
  - destruct (bld_faults _ _ _ _ _ Hb) as [fs Hf]. rewrite Hf in Hok. by apply Forall_app in Hok as [_ ?].
  - apply (building_headroom _ _ _ _ _ Hb); [rewrite Hb1; unfold INT_MAX; lia|].
    eapply headroom_le; [|exact Hroom]. rewrite Hb1. lia.
  - rewrite Hb1. unfold BUFFER_MALLOC_MAX. lia.
  - exists l, h1, l', h2. rewrite Hb2, Hm3. split_and!; try done.
    + etrans; [by eapply building_extends|done].
    + intros Hhead. rewrite <- (chars_bytes h dd css Hwf Hl Hreg). f_equal.
      destruct (concat css) as [|c cs']; [done|]. simpl in *. by destruct (Z.eqb_spec c 0xfeff); [subst|].
Qed.

(** ** The theorems on concrete heaps *)

Lemma pair_regions : regions (demo []) pair = utf8s <$> [[1; 2; 3]; [2; 3]].
Proof. vm_compute. reflexivity. Qed.

Lemma pair_scalars : Forall (Forall scalar) [[1; 2; 3]; [2; 3]].
Proof. unfold scalar. repeat constructor; lia. Qed.

Lemma to_utf16_witness :
  ∃ l h', _dispatch_transform_to_utf16 pair OSBigEndian (demo []) = Ok (Some l, h') ∧
    data_bytes h' l = [0xfe; 0xff; 0; 1; 0; 2; 0; 3; 0; 2; 0; 3].
Proof.
  destruct (to_utf16_correct (demo []) pair OSBigEndian [[1; 2; 3]; [2; 3]])
    as (l & h' & E & _ & _ & _ & Hb & _);
    [apply wf_demo|apply live_pair_demo|constructor|by apply headroom_checked|done|apply pair_regions|apply pair_scalars|done|].
  exists l, h'. split; [exact E|exact Hb].
Defined.

Lemma utf16_roundtrip_witness :
  ∃ l h1 l' h2, _dispatch_transform_to_utf16 pair OSLittleEndian (demo []) = Ok (Some l, h1) ∧
    _dispatch_transform_from_utf16 l OSLittleEndian h1 = Ok (Some l', h2) ∧
    data_bytes h2 l' = [1; 2; 3; 2; 3].
Proof.
  destruct (utf16_roundtrip (demo []) pair OSLittleEndian [[1; 2; 3]; [2; 3]])
    as (l & h1 & l' & h2 & E1 & E2 & _ & _ & Hb & _);
    [apply wf_demo|apply live_pair_demo|constructor|by apply headroom_checked|done|apply pair_regions|apply pair_scalars|].
  exists l, h1, l', h2. split; [exact E1|]. split; [exact E2|exact Hb].
Defined.

(** A surrogate pair, U+1F600, in little-endian order. *)
Definition smile : heap :=
  leaf_heap (block_heap (initial_heap []) [] [0x3d; 0xd8; 0x00; 0xde]) (Ptr 1 0) 4 DESTRUCTOR_FREE None.

Lemma wf_smile : wf smile.
Proof.
  apply (returns_block_leaf (initial_heap []) [] [0x3d; 0xd8; 0x00; 0xde]); [apply wf_initial| |done].
  unfold is_byte. repeat constructor; lia.
Qed.

Lemma from_utf16_witness :
  ∃ l h', _dispatch_transform_from_utf16 leaf OSLittleEndian smile = Ok (Some l, h') ∧
    data_bytes h' l = [0xf0; 0x9f; 0x98; 0x80].
Proof.
  destruct (from_utf16_correct smile leaf OSLittleEndian [[0x1f600]]) as (l & h' & E & _ & _ & _ & Hb & _);
    [apply wf_smile|by eexists|constructor|by apply headroom_checked|done|by vm_compute
    |unfold scalar; repeat constructor; lia|done|].
  exists l, h'. split; [exact E|exact Hb].
Defined.

(** "éé" in UTF-8, cut inside both characters. *)
Definition split_twice : heap :=
  composite_heap
    (leaf_heap (block_heap (initial_heap []) [] [0xc3; 0xa9; 0xc3; 0xa9]) (Ptr 1 0) 4 DESTRUCTOR_FREE None)
    [RR leaf 0 1; RR leaf 1 2; RR leaf 3 1] 4.

(** The look-ahead of the UTF-8 reader starts at [offset + i], without the
    bytes of the region that an earlier look-ahead consumed: when a region
    starts inside one character and ends inside the next, it reads from a
    continuation byte, takes the length 0 - 1 = 255 and runs past the end of
    the mapped bytes.  As one region, the same bytes are converted. *)
Theorem to_utf16_lookahead_overreads :
  regions split_twice pair = [[0xc3]; [0xa9; 0xc3]; [0xa9]] ∧
  _dispatch_transform_to_utf16 pair OSBigEndian split_twice = Crash BAD_ACCESS ∧
  data_bytes split_twice leaf = data_bytes split_twice pair ∧
  match _dispatch_transform_to_utf16 leaf OSBigEndian split_twice with
  | Ok (Some l, h) => data_bytes h l = [0xfe; 0xff; 0; 0xe9; 0; 0xe9]
  | _ => False
  end.
Proof. vm_compute. auto. Qed.
