(* ===== verification/BitArray.v ===== *)
(** * Bit arrays with summaries: definitions

    Model of src/libmalloc-67/src/bitarray.c (with bitarray.h).  A
    [bitarray_t] is the block of 64-bit words [bitarray_create] allocates; the
    state of a computation is that block, a [uint64_t *] is a word index into
    it, and an access outside the block is [BAD_ACCESS].  [unsigned] and
    [index_t] values are wrapped at 32 bits where the C expression is. *)

From S2P Require Import Prelude.

Module BitArray.

Abbreviation words_t := (list Z).

(** ** Memory accesses *)

Definition load (a : Z) : M words_t Z := λ s,
  if a <? 0 then Crash BAD_ACCESS
  else match s !! Z.to_nat a with
       | Some w => Ok (w, s)
       | None => Crash BAD_ACCESS
       end.

Definition store (a w : Z) : M words_t unit := λ s,
  if (a <? 0) || (zlen s <=? a) then Crash BAD_ACCESS
  else Ok (tt, <[Z.to_nat a := w]> s).

(** ** Utilities *)

(** One plus the index of the least significant set bit, 0 for 0. *)
Definition __ffsll (xx : Z) : Z :=
  match list_find (λ b, Z.testbit xx b = true) (seqZ 0 64) with
  | Some (_, b) => b + 1
  | None => 0
  end.

Definition BIT_SET (old bit : Z) : Z := Z.lor old (Z.shiftl 1 bit).
Definition BIT_GET (old bit : Z) : Z := Z.land old (Z.shiftl 1 bit).
Definition BIT_ZAP (old bit : Z) : Z := Z.ldiff old (Z.shiftl 1 bit).

Definition word_get_bit_simple (word bit : Z) : M words_t bool :=
  old ← load word;
  mret (negb (BIT_GET old bit =? 0)).

Definition word_set_bit_simple (word bit : Z) : M words_t unit :=
  old ← load word;
  store word (BIT_SET old bit).

Definition word_set_bit_changed (word bit : Z) : M words_t bool :=
  old ← load word;
  let new := BIT_SET old bit in
  if old =? new then mret false else
  store word new;; mret true.

(** The out parameters [was_non_zero] and [is_now_zero] are threaded: the
    argument is the value the variable has before the call, the second
    component of the result the one it has after. *)
Definition word_set_bit_changed_go_down (word bit : Z) (was_non_zero : bool) :
    M words_t (bool * bool) :=
  old ← load word;
  let new := BIT_SET old bit in
  if old =? new then mret (false, was_non_zero) else
  store word new;;
  mret (true, negb (old =? 0)).

Definition word_set_bit_go_down (word bit : Z) : M words_t bool :=
  old ← load word;
  let new := BIT_SET old bit in
  if old =? new then mret false else
  store word new;; mret (old =? 0).

Definition word_zap_bit_simple (word bit : Z) : M words_t unit :=
  old ← load word;
  store word (BIT_ZAP old bit).

Definition word_zap_bit_changed (word bit : Z) : M words_t bool :=
  old ← load word;
  let new := BIT_ZAP old bit in
  if old =? new then mret false else
  store word new;; mret true.

Definition word_zap_bit_changed_go_down (word bit : Z) (is_now_zero : bool) :
    M words_t (bool * bool) :=
  old ← load word;
  let new := BIT_ZAP old bit in
  if old =? new then mret (false, is_now_zero) else
  store word new;;
  mret (true, new =? 0).

Definition word_zap_bit_go_down (word bit : Z) : M words_t bool :=
  old ← load word;
  let new := BIT_ZAP old bit in
  if old =? new then mret false else
  store word new;; mret (new =? 0).

(** ** Helpers *)

Definition NB : Z := 9.
Definition MASKNB : Z := 511.
Definition NUM_64b : Z := 8.

Definition LEVEL0 : Z := NUM_64b.
Definition LEVEL1 : Z := LEVEL0 + 2 ^ NB * NUM_64b.
Definition LEVEL2 : Z := LEVEL1 + 2 ^ (NB + NB) * NUM_64b.
Definition LEVEL3 : Z := LEVEL2 + 2 ^ (NB + NB + NB) * NUM_64b.

Definition levels : list Z := [LEVEL0; LEVEL1; LEVEL2; LEVEL3].
Definition levels_num_words (level : Z) : option Z :=
  if level <? 0 then None else levels !! Z.to_nat level.

(** [levels_num_words[level]]; an index past the table is [BAD_ACCESS]. *)
Definition get_levels_num_words (level : Z) : M words_t Z :=
  match levels_num_words level with
  | Some n => mret n
  | None => crash BAD_ACCESS
  end.

Definition GET_SIMPLE (word bit : Z) : M words_t bool :=
  word_get_bit_simple (word + Z.shiftr bit 6) (Z.land bit 63).

Definition SET_SIMPLE (word bit : Z) : M words_t unit :=
  word_set_bit_simple (word + Z.shiftr bit 6) (Z.land bit 63).

Definition SET_CHANGED (word bit : Z) : M words_t bool :=
  word_set_bit_changed (word + Z.shiftr bit 6) (Z.land bit 63).

Definition SET_CHANGED_GO_DOWN (word bit : Z) (was_non_zero : bool) :
    M words_t (bool * bool) :=
  word_set_bit_changed_go_down (word + Z.shiftr bit 6) (Z.land bit 63) was_non_zero.

Definition SET_GO_DOWN (word bit : Z) : M words_t bool :=
  word_set_bit_go_down (word + Z.shiftr bit 6) (Z.land bit 63).

Definition ZAP_SIMPLE (word bit : Z) : M words_t unit :=
  word_zap_bit_simple (word + Z.shiftr bit 6) (Z.land bit 63).

Definition ZAP_CHANGED (word bit : Z) : M words_t bool :=
  word_zap_bit_changed (word + Z.shiftr bit 6) (Z.land bit 63).

Fixpoint all_zeros_from (n : nat) (words w : Z) : M words_t bool :=
  match n with
  | O => mret true
  | S n => x ← load (words + w);
           if negb (x =? 0) then mret false else all_zeros_from n words (w + 1)
  end.
Definition all_zeros (words : Z) : M words_t bool :=
  all_zeros_from (Z.to_nat NUM_64b) words 0.

Definition ZAP_CHANGED_GO_DOWN (word bit : Z) (is_now_zero : bool) :
    M words_t (bool * bool) :=
  '(changed, is_now_zero) ←
    word_zap_bit_changed_go_down (word + Z.shiftr bit 6) (Z.land bit 63) is_now_zero;
  if changed && negb (NUM_64b =? 1) then
    z ← all_zeros word;
    mret (changed, if negb z then false else is_now_zero)
  else mret (changed, is_now_zero).

Definition ZAP_GO_DOWN (word bit : Z) : M words_t bool :=
  changed ← word_zap_bit_go_down (word + Z.shiftr bit 6) (Z.land bit 63);
  if changed && negb (NUM_64b =? 1) then
    z ← all_zeros word;
    mret (if negb z then false else changed)
  else mret changed.

Fixpoint FFS_from (n : nat) (word w : Z) : M words_t Z :=
  match n with
  | O => mret 0
  | S n => x ← load (word + w);
           let f := __ffsll x in
           if negb (f =? 0) then mret (f + Z.shiftl w 6) else FFS_from n word (w + 1)
  end.
Definition FFS (word : Z) : M words_t Z := FFS_from (Z.to_nat NUM_64b) word 0.

(** ** Entry points *)

(** [None] where [levels_num_words] has no such entry. *)
Definition bitarray_size (log_size : Z) : option Z :=
  if NB <? log_size then
    let level := (log_size - NB - 1) `div` NB in
    n ← levels_num_words level;
    Some (u32 (n + 2 ^ (log_size - 6)) * 8)
  else Some (NUM_64b * 8).

(** [calloc(1, bytes)] of words: NULL when the allocator has no memory. *)
Definition calloc (oom : bool) (bytes : Z) : option words_t :=
  if oom then None else Some (replicate (Z.to_nat (bytes `div` 8)) 0).

Definition bitarray_create (oom : bool) (log_size : Z) : option words_t :=
  n ← bitarray_size log_size; calloc oom n.

Definition bitarray_get (log_size index : Z) : M words_t bool :=
  if log_size <=? NB then GET_SIMPLE 0 index else
  let level := (log_size - NB - 1) `div` NB in
  let bit := Z.land index MASKNB in
  let index := Z.shiftr index NB in
  l ← get_levels_num_words level;
  GET_SIMPLE (l + u32 (index * NUM_64b)) bit.

(** The [switch (level)] of [bitarray_set]: case [S k] works on the summary at
    LEVELk and falls through to case [k]. *)
Fixpoint set_switch (level : nat) (index : Z) : M words_t bool :=
  match level with
  | O => SET_SIMPLE 0 (Z.land index MASKNB);; mret true
  | S k =>
      let bit := Z.land index MASKNB in
      let index := Z.shiftr index NB in
      l ← get_levels_num_words (Z.of_nat k);
      go_down ← SET_GO_DOWN (l + u32 (index * NUM_64b)) bit;
      if negb go_down then mret true else set_switch k index
  end.

Definition bitarray_set (log_size index : Z) : M words_t bool :=
  if log_size <=? NB then SET_CHANGED 0 index else
  let level := (log_size - NB - 1) `div` NB in
  let bit := Z.land index MASKNB in
  let index := Z.shiftr index NB in
  l ← get_levels_num_words level;
  '(changed, was_non_zero) ← SET_CHANGED_GO_DOWN (l + u32 (index * NUM_64b)) bit false;
  if negb changed then mret false else
  if was_non_zero : bool then mret true else
  if 3 <? level then crash ASSERT_FAILED else
  set_switch (Z.to_nat level) index.

(** The [switch (level)] of [bitarray_zap] and of the macro [ZAP_SUMMARIES],
    which have the same cases. *)
Fixpoint zap_switch (level : nat) (ix : Z) : M words_t unit :=
  match level with
  | O => ZAP_SIMPLE 0 (Z.land ix MASKNB)
  | S k =>
      let bit := Z.land ix MASKNB in
      let ix := Z.shiftr ix NB in
      l ← get_levels_num_words (Z.of_nat k);
      go_down ← ZAP_GO_DOWN (l + u32 (ix * NUM_64b)) bit;
      if negb go_down then mret tt else zap_switch k ix
  end.

Definition ZAP_SUMMARIES (ix level : Z) : M words_t unit :=
  if (level <? 0) || (3 <? level) then crash ASSERT_FAILED else
  zap_switch (Z.to_nat level) ix.

Definition bitarray_zap (log_size index : Z) : M words_t bool :=
  if log_size <=? NB then ZAP_CHANGED 0 index else
  let level := (log_size - NB - 1) `div` NB in
  let bit := Z.land index MASKNB in
  let index := Z.shiftr index NB in
  l ← get_levels_num_words level;
  '(changed, is_now_zero) ← ZAP_CHANGED_GO_DOWN (l + u32 (index * NUM_64b)) bit false;
  if negb changed then mret false else
  if negb is_now_zero then mret true else
  ZAP_SUMMARIES index level;; mret true.

(** The macro writes [words] and [base]: it returns their new values. *)
Definition ADJUST_OFFSET_FOR_FFS (words base current_level : Z) : M words_t (Z * Z) :=
  let words := words + 2 ^ (NB * current_level) * NUM_64b in
  f ← FFS (words + u32 (base * NUM_64b));
  mret (words, u32 (u32 (Z.shiftl base NB) + f - 1)).

Definition ADJUST_OFFSET_FOR_FFS_ACROSS_SUMMARIES (words base level : Z) :
    M words_t (Z * Z) :=
  if level =? 4 then
    '(words, base) ← ADJUST_OFFSET_FOR_FFS words base 0;
    '(words, base) ← ADJUST_OFFSET_FOR_FFS words base 1;
    ADJUST_OFFSET_FOR_FFS words base 2
  else if level =? 3 then
    '(words, base) ← ADJUST_OFFSET_FOR_FFS words base 0;
    ADJUST_OFFSET_FOR_FFS words base 1
  else if level =? 2 then
    ADJUST_OFFSET_FOR_FFS words base 0
  else if level =? 1 then mret (words, base)
  else crash ASSERT_FAILED.

Definition bitarray_first_set (log_size : Z) : M words_t Z :=
  let words := 0 in
  bit ← FFS words;
  if log_size <=? NB then mret bit else
  if bit =? 0 then mret 0 else
  let level := (log_size - 1) `div` NB in
  let base := bit - 1 in
  '(words, base) ← ADJUST_OFFSET_FOR_FFS_ACROSS_SUMMARIES words base level;
  let words := words + 2 ^ (NB * (level - 1)) * NUM_64b in
  f ← FFS (words + u32 (base * NUM_64b));
  let base := u32 (u32 (Z.shiftl base NB) + f - 1) in
  mret (u32 (base + 1)).

(** [Some ix] when the C function returns 1 and has stored [ix] in [*index]. *)
Definition bitarray_zap_first_set (log_size : Z) : M words_t (option Z) :=
  let words := 0 in
  ix ← FFS words;
  if ix =? 0 then mret None else
  let level := u32 (log_size - 1) `div` NB in
  if level =? 0 then
    let ix := ix - 1 in
    ZAP_SIMPLE 0 ix;; mret (Some ix)
  else
  let base := ix - 1 in
  '(words, base) ← ADJUST_OFFSET_FOR_FFS_ACROSS_SUMMARIES words base level;
  let words := words + 2 ^ (NB * (level - 1)) * NUM_64b in
  f ← FFS (words + u32 (base * NUM_64b));
  let base := u32 (u32 (Z.shiftl base NB) + f - 1) in
  let index := base in
  let level := level - 1 in
  let bit := Z.land base MASKNB in
  let ix := Z.shiftr base NB in
  l ← get_levels_num_words level;
  '(changed, is_now_zero) ← ZAP_CHANGED_GO_DOWN (l + u32 (ix * NUM_64b)) bit false;
  if negb changed then mret (Some index) else
  if negb is_now_zero then mret (Some index) else
  ZAP_SUMMARIES ix level;; mret (Some index).

(** The inner [while (1)] of [FFS_and_zap_word]: the word and the values
    stored in [indices] so far, in order ([zapped] is their number).  Each
    round clears one of the 64 bits, so 64 rounds of fuel are enough. *)
Fixpoint zap_word_loop (fuel : nat) (max w to_be_added word : Z) (indices : list Z) :
    M words_t (Z * list Z) :=
  match fuel with
  | O => crash OUT_OF_FUEL
  | S fuel =>
      let f := __ffsll word - 1 in
      let indices := indices ++ [u32 (f + Z.shiftl w 6 + to_be_added)] in
      let word := BIT_ZAP word f in
      if word =? 0 then mret (word, indices) else
      if max <=? zlen indices then mret (word, indices) else
      zap_word_loop fuel max w to_be_added word indices
  end.

Fixpoint FFS_and_zap_word_from (n : nat) (words max to_be_added w : Z) (indices : list Z) :
    M words_t (list Z) :=
  match n with
  | O => mret indices
  | S n =>
      word ← load (words + w);
      if word =? 0 then FFS_and_zap_word_from n words max to_be_added (w + 1) indices else
      '(word, indices) ← zap_word_loop 64 max w to_be_added word indices;
      store (words + w) word;;
      if max <=? zlen indices then mret indices else
      FFS_and_zap_word_from n words max to_be_added (w + 1) indices
  end.

(** Returns the list of the values written at [indices[0]], [indices[1]], ...;
    the C result is its length. *)
Definition FFS_and_zap_word (words max to_be_added : Z) : M words_t (list Z) :=
  FFS_and_zap_word_from (Z.to_nat NUM_64b) words max to_be_added 0 [].

(** The [while (zapped < max)] loop.  Every round that does not return zaps at
    least one bit, so [max] rounds and one for the exit test are enough. *)
Fixpoint zap_multiple_loop (fuel : nat) (level max : Z) (indices : list Z) :
    M words_t (list Z) :=
  match fuel with
  | O => crash OUT_OF_FUEL
  | S fuel =>
      if negb (zlen indices <? max) then mret indices else
      let words := 0 in
      ix ← FFS words;
      if ix =? 0 then mret indices else
      let base := ix - 1 in
      '(words, base) ← ADJUST_OFFSET_FOR_FFS_ACROSS_SUMMARIES words base level;
      let words := words + 2 ^ (NB * (level - 1)) * NUM_64b in
      let word := words + u32 (base * NUM_64b) in
      let ix := base in
      z ← FFS_and_zap_word word (max - zlen indices) (u32 (Z.shiftl base NB));
      let indices := indices ++ z in
      adjust ← (if zlen indices <? max then mret true else all_zeros word);
      (if adjust : bool then ZAP_SUMMARIES ix (level - 1) else mret tt);;
      zap_multiple_loop fuel level max indices
  end.

Definition bitarray_zap_first_set_multiple (log_size max : Z) : M words_t (list Z) :=
  if log_size <=? NB then FFS_and_zap_word 0 max 0 else
  let level := (log_size - 1) `div` NB in
  zap_multiple_loop (S (Z.to_nat max)) level max [].

End BitArray.
