(* ===== verification/BitArrayInv.v ===== *)
(** * Bit arrays: the bit-level view and the summary invariant

    The block of a bit array is read as one sequence of bits, 512 to a group.
    Numbering all groups of all levels consecutively, the group that bit [P]
    of a summary summarises is group [P + 1], so the invariant that every
    summary bit tells whether its group is non-zero needs no level arithmetic. *)

From S2P Require Import Prelude BitArray.
Export BitArray.

(** ** The bits of a block *)

Definition word (s : words_t) (a : Z) : Z :=
  if a <? 0 then 0 else default 0 (s !! Z.to_nat a).

Definition abit (s : words_t) (p : Z) : bool :=
  Z.testbit (word s (p `div` 64)) (p `mod` 64).

Definition put_bit (w b : Z) (v : bool) : Z := if v then BIT_SET w b else BIT_ZAP w b.

Definition upd (s : words_t) (p : Z) (v : bool) : words_t :=
  <[Z.to_nat (p `div` 64) := put_bit (word s (p `div` 64)) (p `mod` 64) v]> s.

Definition words_ok (s : words_t) : Prop := ∀ a, 0 ≤ word s a < 2 ^ 64.

(** The words of group [g] are all zero. *)
Definition group_zero (s : words_t) (g : Z) : bool :=
  forallb (λ w, word s (8 * g + w) =? 0) (seqZ 0 8).

Lemma word_in s a w : 0 ≤ a → s !! Z.to_nat a = Some w → word s a = w.
Proof. unfold word. intros Ha ->. destruct (Z.ltb_spec a 0); [lia|done]. Qed.

Lemma word_out s a : a < 0 ∨ zlen s ≤ a → word s a = 0.
Proof.
  unfold word, zlen. intros Ha. destruct (Z.ltb_spec a 0); [done|].
  by rewrite lookup_ge_None_2 by lia.
Qed.

Lemma word_insert s a b w :
  0 ≤ a < zlen s → 0 ≤ b → word (<[Z.to_nat a := w]> s) b = if b =? a then w else word s b.
Proof.
  unfold word, zlen. intros Ha Hb. destruct (Z.ltb_spec b 0); [lia|].
  destruct (Z.eqb_spec b a) as [->|Hne].
  - rewrite list_lookup_insert_eq; [done|lia].
  - rewrite list_lookup_insert_ne; [done|lia].
Qed.

Lemma load_ok s a : 0 ≤ a < zlen s → load a s = Ok (word s a, s).
Proof.
  unfold load, word, zlen. intros Ha. destruct (Z.ltb_spec a 0); [lia|].
  destruct (s !! Z.to_nat a) eqn:E; [done|]. apply lookup_ge_None_1 in E. lia.
Qed.

Lemma store_ok s a w : 0 ≤ a < zlen s → store a w s = Ok (tt, <[Z.to_nat a := w]> s).
Proof.
  unfold store. intros Ha. destruct (Z.ltb_spec a 0); [lia|].
  destruct (Z.leb_spec (zlen s) a); [lia|done].
Qed.

(** ** Words as sets of 64 bits *)

Lemma testbit_high w b : 0 ≤ w < 2 ^ 64 → 64 ≤ b → Z.testbit w b = false.
Proof.
  intros Hw Hb. destruct (decide (w = 0)) as [->|]; [apply Z.testbit_0_l|].
  apply Z.bits_above_log2; [lia|].
  assert (Z.log2 w < 64); [apply Z.log2_lt_pow2; lia|lia].
Qed.

Lemma word_zero_iff w : 0 ≤ w < 2 ^ 64 →
  w = 0 ↔ ∀ b, 0 ≤ b < 64 → Z.testbit w b = false.
Proof.
  intros Hw. split; [intros -> b _; apply Z.testbit_0_l|].
  intros H. apply Z.bits_inj_0. intros b.
  destruct (Z.ltb_spec b 0); [by apply Z.testbit_neg_r|].
  destruct (Z.ltb_spec b 64); [apply H; lia|].
  by apply testbit_high.
Qed.

Lemma put_bit_testbit w b v c :
  0 ≤ b → 0 ≤ c → Z.testbit (put_bit w b v) c = if c =? b then v else Z.testbit w c.
Proof.
  intros Hb Hc. unfold put_bit, BIT_SET, BIT_ZAP.
  assert (Z.testbit (Z.shiftl 1 b) c = (c =? b)) as E.
  { rewrite Z.shiftl_1_l, Z.pow2_bits_eqb by done. apply Z.eqb_sym. }
  destruct v.
  - rewrite Z.lor_spec, E. destruct (c =? b); [apply orb_true_r|apply orb_false_r].
  - rewrite Z.ldiff_spec, E. destruct (c =? b); [apply andb_false_r|apply andb_true_r].
Qed.

Lemma bits_range w : 0 ≤ w → (∀ b, 64 ≤ b → Z.testbit w b = false) → w < 2 ^ 64.
Proof.
  intros Hw Hb. destruct (decide (w = 0)) as [->|]; [lia|].
  apply Z.log2_lt_pow2; [lia|]. apply Z.nle_gt. intros Hle.
  specialize (Hb _ Hle). by rewrite Z.bit_log2 in Hb by lia.
Qed.

Lemma put_bit_range w b v :
  0 ≤ w < 2 ^ 64 → 0 ≤ b < 64 → 0 ≤ put_bit w b v < 2 ^ 64.
Proof.
  intros Hw Hb. assert (0 ≤ put_bit w b v).
  { unfold put_bit, BIT_SET, BIT_ZAP. destruct v.
    - apply Z.lor_nonneg. split; [lia|]. apply Z.shiftl_nonneg. lia.
    - apply Z.ldiff_nonneg. lia. }
  split; [done|]. apply bits_range; [done|]. intros c Hc.
  rewrite put_bit_testbit by lia. destruct (Z.eqb_spec c b); [lia|]. by apply testbit_high.
Qed.

Lemma put_bit_same w b v :
  0 ≤ w < 2 ^ 64 → 0 ≤ b < 64 → put_bit w b v = w ↔ Z.testbit w b = v.
Proof.
  intros Hw Hb. split.
  - intros <-. rewrite put_bit_testbit by lia. by rewrite Z.eqb_refl.
  - intros <-. apply Z.bits_inj'. intros c Hc. rewrite put_bit_testbit by lia.
    by destruct (Z.eqb_spec c b) as [->|].
Qed.

(** ** Updating a bit *)

Lemma div_mod_64 p : p = 64 * (p `div` 64) + p `mod` 64.
Proof. apply Z.div_mod. lia. Qed.

Lemma mod_64 p : 0 ≤ p `mod` 64 < 64.
Proof. apply Z.mod_pos_bound. lia. Qed.

#[export] Hint Resolve mod_64 : core.

Lemma div_64_in (s : words_t) p : 0 ≤ p < 64 * zlen s → 0 ≤ p `div` 64 < zlen s.
Proof.
  intros. split; [apply Z.div_pos; lia|]. apply Z.div_lt_upper_bound; lia.
Qed.

Lemma zlen_upd s p v : zlen (upd s p v) = zlen s.
Proof. unfold upd, zlen. by rewrite length_insert. Qed.

Lemma word_upd s p v a :
  0 ≤ p < 64 * zlen s → word (upd s p v) a =
  if a =? p `div` 64 then put_bit (word s a) (p `mod` 64) v else word s a.
Proof.
  intros Hp. unfold upd. pose proof (div_64_in s p Hp).
  destruct (Z.ltb_spec a 0) as [|].
  { destruct (Z.eqb_spec a (p `div` 64)); [lia|]. rewrite !word_out; [done|lia..]. }
  rewrite word_insert by lia. by destruct (Z.eqb_spec a (p `div` 64)) as [->|].
Qed.

Lemma words_ok_upd s p v : 0 ≤ p < 64 * zlen s → words_ok s → words_ok (upd s p v).
Proof.
  intros Hp Hs a. rewrite word_upd by done.
  destruct (a =? _); [by apply put_bit_range|apply Hs].
Qed.

Lemma abit_upd s p v q :
  0 ≤ p < 64 * zlen s → abit (upd s p v) q = if q =? p then v else abit s q.
Proof.
  intros Hp. unfold abit. rewrite word_upd by done.
  pose proof (div_mod_64 p) as Ep. pose proof (div_mod_64 q) as Eq.
  pose proof (mod_64 p). pose proof (mod_64 q).
  destruct (Z.eqb_spec (q `div` 64) (p `div` 64)) as [E|E].
  - rewrite put_bit_testbit by lia.
    destruct (Z.eqb_spec (q `mod` 64) (p `mod` 64)), (Z.eqb_spec q p); try done; lia || congruence.
  - destruct (Z.eqb_spec q p); [congruence|done].
Qed.

Lemma abit_out s p : p < 0 ∨ 64 * zlen s ≤ p → abit s p = false.
Proof.
  intros Hp. unfold abit. rewrite word_out; [apply Z.testbit_0_l|].
  pose proof (div_mod_64 p). pose proof (mod_64 p). lia.
Qed.

Lemma abit_in s p : abit s p = true → 0 ≤ p < 64 * zlen s.
Proof.
  intros Hb. destruct (decide (0 ≤ p < 64 * zlen s)) as [|Hn]; [done|].
  rewrite abit_out in Hb; [done|lia].
Qed.

Lemma upd_same s p : words_ok s → 0 ≤ p < 64 * zlen s → upd s p (abit s p) = s.
Proof.
  intros Hs Hp. unfold upd. rewrite (proj2 (put_bit_same _ _ _ (Hs _) (mod_64 p))) by done.
  pose proof (div_64_in s p Hp). apply list_insert_id.
  unfold word. destruct (Z.ltb_spec (p `div` 64) 0); [lia|].
  destruct (s !! Z.to_nat (p `div` 64)) eqn:E; [done|].
  apply lookup_ge_None_1 in E. unfold zlen in *. lia.
Qed.

Lemma word_zero_abit s a : words_ok s →
  word s a = 0 ↔ ∀ p, 64 * a ≤ p < 64 * a + 64 → abit s p = false.
Proof.
  intros Hs. rewrite (word_zero_iff _ (Hs a)). split.
  - intros H p Hp. unfold abit. replace (p `div` 64) with a; [by apply H|].
    apply (Z.div_unique_pos p 64 a (p - 64 * a)); lia.
  - intros H b Hb. specialize (H (64 * a + b)). unfold abit in H.
    replace ((64 * a + b) `div` 64) with a in H
      by (apply (Z.div_unique_pos _ 64 a b); lia).
    replace ((64 * a + b) `mod` 64) with b in H
      by (apply (Z.mod_unique_pos _ 64 a b); lia).
    apply H. lia.
Qed.

Lemma group_zero_abit s g : words_ok s →
  group_zero s g = true ↔ ∀ p, 512 * g ≤ p < 512 * g + 512 → abit s p = false.
Proof.
  intros Hs. unfold group_zero. rewrite forallb_forall. split.
  - intros H p Hp. apply (word_zero_abit s (p `div` 64)); [done| |].
    + specialize (H (p `div` 64 - 8 * g)).
      rewrite Z.eqb_eq, <- list_elem_of_In, elem_of_seqZ in H.
      replace (8 * g + (p `div` 64 - 8 * g)) with (p `div` 64) in H by lia.
      apply H. pose proof (div_mod_64 p). pose proof (mod_64 p). lia.
    + pose proof (div_mod_64 p). pose proof (mod_64 p). lia.
  - intros H w Hw. apply list_elem_of_In, elem_of_seqZ in Hw. apply Z.eqb_eq.
    apply word_zero_abit; [done|]. intros p Hp. apply H. lia.
Qed.

Lemma group_nonzero_abit s g p : words_ok s →
  512 * g ≤ p < 512 * g + 512 → abit s p = true → group_zero s g = false.
Proof.
  intros Hs Hp Hb. destruct (group_zero s g) eqn:E; [|done].
  rewrite group_zero_abit in E by done. by rewrite E in Hb.
Qed.

Lemma group_nonzero_word s g a : 8 * g ≤ a < 8 * g + 8 → word s a ≠ 0 → group_zero s g = false.
Proof.
  intros Ha Hw. apply not_true_iff_false. unfold group_zero. rewrite forallb_forall.
  intros H. specialize (H (a - 8 * g)). rewrite Z.eqb_eq in H.
  replace (8 * g + (a - 8 * g)) with a in H by lia.
  apply Hw, H, list_elem_of_In, elem_of_seqZ. lia.
Qed.

Lemma group_zero_ext s s' g : words_ok s → words_ok s' →
  (∀ p, 512 * g ≤ p < 512 * g + 512 → abit s' p = abit s p) →
  group_zero s' g = group_zero s g.
Proof.
  intros Hs Hs' H. apply eq_true_iff_eq. rewrite !group_zero_abit by done.
  split; intros E p Hp; [rewrite <- H|rewrite H]; auto.
Qed.

(** ** The bit operations on a group

    [word = 8 * g] and [bit < 512] address bit [512 * g + bit] of the block. *)

Lemma shiftr6_div z : Z.shiftr z 6 = z `div` 64.
Proof. by rewrite Z.shiftr_div_pow2. Qed.
Lemma land63_mod z : Z.land z 63 = z `mod` 64.
Proof. change 63 with (Z.ones 6). by rewrite Z.land_ones. Qed.
Lemma shiftr9_div z : Z.shiftr z NB = z `div` 512.
Proof. by rewrite Z.shiftr_div_pow2. Qed.
Lemma land511_mod z : Z.land z MASKNB = z `mod` 512.
Proof. change MASKNB with (Z.ones 9). by rewrite Z.land_ones. Qed.

Section group_ops.
Context (s : words_t) (Hok : words_ok s) (g bit : Z).
Context (Hg : 0 ≤ g) (Hin : 8 * g + 8 ≤ zlen s) (Hbit : 0 ≤ bit < 512).

Local Abbreviation p := (512 * g + bit).

Lemma addr_word : 8 * g + Z.shiftr bit 6 = p `div` 64.
Proof using. clear. rewrite shiftr6_div. Z.to_euclidean_division_equations. lia. Qed.

Lemma addr_bit : Z.land bit 63 = p `mod` 64.
Proof using. clear. rewrite land63_mod. Z.to_euclidean_division_equations. lia. Qed.

Lemma addr_in : 0 ≤ p < 64 * zlen s.
Proof using Hg Hin Hbit. lia. Qed.

Lemma put_eqb v : (word s (p `div` 64) =? put_bit (word s (p `div` 64)) (p `mod` 64) v)
  = eqb (abit s p) v.
Proof using Hok.
  apply eq_true_iff_eq. rewrite Z.eqb_eq, eqb_true_iff. unfold abit.
  rewrite <- (put_bit_same _ _ _ (Hok _) (mod_64 p)). split; congruence.
Qed.

Lemma load_p : load (p `div` 64) s = Ok (word s (p `div` 64), s).
Proof using Hg Hin Hbit. apply load_ok, div_64_in, addr_in. Qed.

Lemma store_p v : store (p `div` 64) (put_bit (word s (p `div` 64)) (p `mod` 64) v) s
  = Ok (tt, upd s p v).
Proof using Hg Hin Hbit. apply store_ok, div_64_in, addr_in. Qed.

Lemma upd_noop v : abit s p = v → upd s p v = s.
Proof using Hok Hg Hin Hbit. intros <-. apply upd_same; [done|apply addr_in]. Qed.

Lemma GET_SIMPLE_ok : GET_SIMPLE (8 * g) bit s = Ok (abit s p, s).
Proof using Hg Hin Hbit.
  unfold GET_SIMPLE, word_get_bit_simple. rewrite addr_word, addr_bit. mstep load_p.
  rewrite ret_eq. do 2 f_equal. unfold abit, BIT_GET.
  rewrite Z.shiftl_1_l. apply eq_true_iff_eq.
  rewrite negb_true_iff, Z.eqb_neq.
  destruct (Z.testbit (word s (p `div` 64)) (p `mod` 64)) eqn:E; split; try done.
  - intros _ H. apply (f_equal (λ z, Z.testbit z (p `mod` 64))) in H.
    rewrite Z.land_spec, E, Z.pow2_bits_true, Z.testbit_0_l in H; [done|apply mod_64].
  - intros H. exfalso. apply H. apply Z.bits_inj_0. intros c. rewrite Z.land_spec.
    pose proof (mod_64 p). rewrite Z.pow2_bits_eqb by lia.
    destruct (Z.eqb_spec (p `mod` 64) c) as [<-|]; [by rewrite E|apply andb_false_r].
Qed.

Lemma SET_SIMPLE_ok : SET_SIMPLE (8 * g) bit s = Ok (tt, upd s p true).
Proof using Hg Hin Hbit.
  unfold SET_SIMPLE, word_set_bit_simple. rewrite addr_word, addr_bit. mstep load_p.
  apply (store_p true).
Qed.

Lemma ZAP_SIMPLE_ok : ZAP_SIMPLE (8 * g) bit s = Ok (tt, upd s p false).
Proof using Hg Hin Hbit.
  unfold ZAP_SIMPLE, word_zap_bit_simple. rewrite addr_word, addr_bit. mstep load_p.
  apply (store_p false).
Qed.

Lemma SET_CHANGED_ok : SET_CHANGED (8 * g) bit s = Ok (negb (abit s p), upd s p true).
Proof using Hok Hg Hin Hbit.
  unfold SET_CHANGED, word_set_bit_changed. rewrite addr_word, addr_bit. mstep load_p.
  cbv zeta. change (BIT_SET ?w ?b) with (put_bit w b true). rewrite put_eqb.
  destruct (abit s p) eqn:E; simpl.
  - by rewrite upd_noop.
  - by mstep (store_p true).
Qed.

Lemma ZAP_CHANGED_ok : ZAP_CHANGED (8 * g) bit s = Ok (abit s p, upd s p false).
Proof using Hok Hg Hin Hbit.
  unfold ZAP_CHANGED, word_zap_bit_changed. rewrite addr_word, addr_bit. mstep load_p.
  cbv zeta. change (BIT_ZAP ?w ?b) with (put_bit w b false). rewrite put_eqb.
  destruct (abit s p) eqn:E; simpl.
  - by mstep (store_p false).
  - by rewrite upd_noop.
Qed.

Lemma SET_CHANGED_GO_DOWN_ok w0 :
  SET_CHANGED_GO_DOWN (8 * g) bit w0 s =
  Ok (if abit s p then (false, w0) else (true, negb (word s (p `div` 64) =? 0)), upd s p true).
Proof using Hok Hg Hin Hbit.
  unfold SET_CHANGED_GO_DOWN, word_set_bit_changed_go_down.
  rewrite addr_word, addr_bit. mstep load_p.
  cbv zeta. change (BIT_SET ?w ?b) with (put_bit w b true). rewrite put_eqb.
  destruct (abit s p) eqn:E; simpl.
  - by rewrite upd_noop.
  - by mstep (store_p true).
Qed.

Lemma SET_GO_DOWN_ok :
  SET_GO_DOWN (8 * g) bit s = Ok (word s (p `div` 64) =? 0, upd s p true).
Proof using Hok Hg Hin Hbit.
  unfold SET_GO_DOWN, word_set_bit_go_down. rewrite addr_word, addr_bit. mstep load_p.
  cbv zeta. change (BIT_SET ?w ?b) with (put_bit w b true). rewrite put_eqb.
  destruct (abit s p) eqn:E; simpl.
  - rewrite upd_noop by done. rewrite ret_eq. do 2 f_equal. symmetry.
    apply Z.eqb_neq. unfold abit in E. intros E0. by rewrite E0, Z.testbit_0_l in E.
  - by mstep (store_p true).
Qed.

End group_ops.

Lemma all_zeros_from_ok s a n w :
  0 ≤ a + w → a + w + Z.of_nat n ≤ zlen s →
  all_zeros_from n a w s = Ok (forallb (λ w, word s (a + w) =? 0) (seqZ w (Z.of_nat n)), s).
Proof.
  revert w. induction n as [|n IH]; intros w Hw Hn; [done|].
  rewrite seqZ_cons by lia. cbn [all_zeros_from forallb].
  mstep (load_ok s (a + w) ltac:(lia)).
  destruct (word s (a + w) =? 0); simpl; [|done].
  rewrite IH by lia. do 3 f_equal. f_equal; lia.
Qed.

Lemma all_zeros_ok s g :
  0 ≤ g → 8 * g + 8 ≤ zlen s → all_zeros (8 * g) s = Ok (group_zero s g, s).
Proof. intros. unfold all_zeros. by rewrite all_zeros_from_ok by (change NUM_64b with 8; lia). Qed.

Section group_zap.
Context (s : words_t) (Hok : words_ok s) (g bit : Z).
Context (Hg : 0 ≤ g) (Hin : 8 * g + 8 ≤ zlen s) (Hbit : 0 ≤ bit < 512).

Local Abbreviation p := (512 * g + bit).

Lemma zapped_word_zero :
  group_zero (upd s p false) g = true → put_bit (word s (p `div` 64)) (p `mod` 64) false = 0.
Proof using Hok Hg Hin Hbit.
  intros H. pose proof (addr_in s g bit Hg Hin Hbit) as Hp.
  rewrite group_zero_abit in H by (by apply words_ok_upd).
  replace (put_bit _ _ _) with (word (upd s p false) (p `div` 64)).
  - apply word_zero_abit; [by apply words_ok_upd|]. intros q Hq. apply H.
    Z.to_euclidean_division_equations. lia.
  - rewrite word_upd by done. by rewrite Z.eqb_refl.
Qed.

Lemma word_zap_bit_changed_go_down_ok z0 :
  word_zap_bit_changed_go_down (p `div` 64) (p `mod` 64) z0 s =
  Ok (if abit s p then (true, put_bit (word s (p `div` 64)) (p `mod` 64) false =? 0)
      else (false, z0), upd s p false).
Proof using Hok Hg Hin Hbit.
  unfold word_zap_bit_changed_go_down. mstep (load_p s g bit Hg Hin Hbit). cbv zeta.
  change (BIT_ZAP ?w ?b) with (put_bit w b false). rewrite (put_eqb s Hok g bit).
  destruct (abit s p) eqn:E; simpl.
  - by mstep (store_p s g bit Hg Hin Hbit false).
  - by rewrite upd_noop.
Qed.

Lemma word_zap_bit_go_down_ok :
  word_zap_bit_go_down (p `div` 64) (p `mod` 64) s =
  Ok (abit s p && (put_bit (word s (p `div` 64)) (p `mod` 64) false =? 0), upd s p false).
Proof using Hok Hg Hin Hbit.
  unfold word_zap_bit_go_down. mstep (load_p s g bit Hg Hin Hbit). cbv zeta.
  change (BIT_ZAP ?w ?b) with (put_bit w b false). rewrite (put_eqb s Hok g bit).
  destruct (abit s p) eqn:E; simpl.
  - by mstep (store_p s g bit Hg Hin Hbit false).
  - by rewrite upd_noop.
Qed.

Lemma all_zeros_zapped :
  all_zeros (8 * g) (upd s p false) = Ok (group_zero (upd s p false) g, upd s p false).
Proof using Hg Hin. apply all_zeros_ok; [done|by rewrite zlen_upd]. Qed.

Lemma ZAP_CHANGED_GO_DOWN_ok z0 :
  ZAP_CHANGED_GO_DOWN (8 * g) bit z0 s =
  Ok (if abit s p then (true, group_zero (upd s p false) g) else (false, z0), upd s p false).
Proof using Hok Hg Hin Hbit.
  unfold ZAP_CHANGED_GO_DOWN. rewrite (addr_word g bit), (addr_bit g bit).
  mstep (word_zap_bit_changed_go_down_ok z0). destruct (abit s p); [|done]. cbn [andb].
  change (negb (NUM_64b =? 1)) with true. cbv iota. mstep all_zeros_zapped.
  rewrite ret_eq. do 3 f_equal.
  destruct (group_zero (upd s p false) g) eqn:Ez; [by rewrite zapped_word_zero|done].
Qed.

Lemma ZAP_GO_DOWN_ok :
  ZAP_GO_DOWN (8 * g) bit s = Ok (abit s p && group_zero (upd s p false) g, upd s p false).
Proof using Hok Hg Hin Hbit.
  unfold ZAP_GO_DOWN. rewrite (addr_word g bit), (addr_bit g bit).
  mstep word_zap_bit_go_down_ok. destruct (abit s p); [|done]. cbn [andb].
  destruct (put_bit _ _ _ =? 0) eqn:Ew; cbn [andb].
  - change (negb (NUM_64b =? 1)) with true. cbv iota. mstep all_zeros_zapped.
    by destruct (group_zero (upd s p false) g).
  - rewrite ret_eq. do 2 f_equal.
    destruct (group_zero (upd s p false) g) eqn:Ez; [|done].
    by rewrite zapped_word_zero in Ew.
Qed.

End group_zap.

(** ** Bit arrays: the sorted list of set bits

    [ones s p n] lists the set bits among the [n] bits from [p] on, in
    increasing order: the abstract value of a range of the block.  [FFS] is
    its head, the zapping loops take a prefix of it off. *)

Definition ones (s : words_t) (p n : Z) : list Z :=
  filter (λ q, abit s q = true) (seqZ p n).

Lemma elem_of_ones s p n q : q ∈ ones s p n ↔ p ≤ q < p + n ∧ abit s q = true.
Proof. unfold ones. rewrite list_elem_of_filter, elem_of_seqZ. naive_solver. Qed.

Lemma ones_app s p n m :
  0 ≤ n → 0 ≤ m → ones s p (n + m) = ones s p n ++ ones s (p + n) m.
Proof. intros. unfold ones. by rewrite seqZ_app, filter_app by done. Qed.

Lemma filter_nil {A} (P : A → Prop) `{∀ x, Decision (P x)} (l : list A) :
  (∀ x, x ∈ l → ¬ P x) → filter P l = [].
Proof.
  induction l as [|x l IH]; [done|]. intros Hx.
  rewrite filter_cons_False by (apply Hx; left). apply IH. intros y Hy. apply Hx. by right.
Qed.

Lemma filter_all {A} (P : A → Prop) `{∀ x, Decision (P x)} (l : list A) :
  (∀ x, x ∈ l → P x) → filter P l = l.
Proof.
  induction l as [|x l IH]; [done|]. intros Hx.
  rewrite filter_cons_True by (apply Hx; left). f_equal. apply IH. intros y Hy. apply Hx. by right.
Qed.

Lemma filter_ext {A} (P Q : A → Prop) `{∀ x, Decision (P x), ∀ x, Decision (Q x)} (l : list A) :
  (∀ x, x ∈ l → P x ↔ Q x) → filter P l = filter Q l.
Proof.
  induction l as [|x l IH]; [done|]. intros Hx.
  assert (P x ↔ Q x) as HPQ by (apply Hx; left).
  rewrite !filter_cons, IH by (intros y Hy; apply Hx; by right).
  destruct (decide (P x)), (decide (Q x)); tauto.
Qed.

(** Removing the first [n] selected elements from the selection. *)
Lemma filter_drop {A} `{EqDecision A} (P Q : A → Prop) `{∀ x, Decision (P x), ∀ x, Decision (Q x)} n l :
  NoDup l → (∀ x, x ∈ l → Q x ↔ P x ∧ x ∉ take n (filter P l)) →
  filter Q l = drop n (filter P l).
Proof.
  intros Hnd HQ.
  assert (filter Q l = filter (λ x, x ∉ take n (filter P l)) (filter P l)) as ->.
  { rewrite list_filter_filter. apply filter_ext. intros x Hx. rewrite HQ by done. tauto. }
  assert (NoDup (filter P l)) as HF by (by apply NoDup_filter).
  set (F := filter P l) in *. clearbody F. clear HQ.
  rewrite <- (take_drop n F) in HF. apply NoDup_app in HF as (_ & Hdisj & _).
  transitivity (filter (λ x, x ∉ take n F) (take n F ++ drop n F)); [by rewrite take_drop|].
  rewrite filter_app.
  rewrite filter_nil by naive_solver. rewrite filter_all; [done|]. naive_solver.
Qed.

Lemma list_filter_fmap {A B} (f : A → B) (P : B → Prop) `{∀ x, Decision (P x)} (l : list A) :
  filter P (f <$> l) = f <$> filter (λ x, P (f x)) l.
Proof.
  induction l as [|x l IH]; [done|]. rewrite fmap_cons, !filter_cons, IH.
  by destruct (decide (P (f x))).
Qed.

Lemma ones_nil s p n : (∀ q, p ≤ q < p + n → abit s q = false) → ones s p n = [].
Proof.
  intros H. apply filter_nil. intros q Hq%elem_of_seqZ. rewrite H by lia. done.
Qed.

Lemma ones_nil_inv s p n q : ones s p n = [] → p ≤ q < p + n → abit s q = false.
Proof.
  intros E Hq. destruct (abit s q) eqn:Eb; [|done].
  assert (q ∈ ones s p n) as H by (by apply elem_of_ones). rewrite E in H. by apply elem_of_nil in H.
Qed.

Lemma ones_ext s s' p n :
  (∀ q, p ≤ q < p + n → abit s' q = abit s q) → ones s' p n = ones s p n.
Proof. intros H. apply filter_ext. intros q Hq%elem_of_seqZ. rewrite H by lia. done. Qed.

Lemma NoDup_ones s p n : NoDup (ones s p n).
Proof. apply NoDup_filter, NoDup_seqZ. Qed.

(** The head is the least set bit. *)
Lemma ones_cons s p n q l :
  ones s p n = q :: l →
  p ≤ q < p + n ∧ abit s q = true ∧ ∀ r, p ≤ r < q → abit s r = false.
Proof.
  intros E. assert (q ∈ ones s p n) as Hq by (rewrite E; left).
  apply elem_of_ones in Hq as [Hq Hb]. split_and!; [lia..|done|].
  intros r Hr. destruct (abit s r) eqn:Er; [|done].
  replace n with ((r - p + 1) + (n - (r - p + 1))) in E by lia.
  rewrite ones_app in E by lia.
  destruct (ones s p (r - p + 1)) as [|x k] eqn:Ek.
  - by rewrite (ones_nil_inv _ _ _ r Ek) in Er by lia.
  - simplify_list_eq. assert (q ∈ ones s p (r - p + 1)) as H by (rewrite Ek; left).
    apply elem_of_ones in H. lia.
Qed.

Lemma ones_head s p n q :
  p ≤ q < p + n → abit s q = true → (∀ r, p ≤ r < q → abit s r = false) →
  ones s p n = q :: ones s (q + 1) (p + n - q - 1).
Proof.
  intros Hq Hb Hr.
  replace n with ((q - p) + (1 + (p + n - q - 1))) at 1 by lia.
  rewrite !ones_app by lia.
  rewrite (ones_nil s p (q - p)) by (intros r Hr'; apply Hr; lia).
  replace (p + (q - p)) with q by lia. unfold ones at 1. rewrite seqZ_cons by lia.
  by rewrite filter_cons_True.
Qed.

Lemma group_zero_ones s g : words_ok s →
  group_zero s g = true ↔ ones s (512 * g) 512 = [].
Proof.
  intros Hs. rewrite group_zero_abit by done. split; [apply ones_nil|].
  intros E p Hp. eapply ones_nil_inv; [done|lia].
Qed.

Lemma word_zero_ones s a : words_ok s → word s a = 0 ↔ ones s (64 * a) 64 = [].
Proof.
  intros Hs. rewrite word_zero_abit by done. split; [apply ones_nil|].
  intros E p Hp. eapply ones_nil_inv; [done|lia].
Qed.

(** ** Find first set *)

Definition first_of (base : Z) (l : list Z) : Z :=
  match l with [] => 0 | q :: _ => q - base + 1 end.

Lemma list_find_filter {A} (P : A → Prop) `{∀ x, Decision (P x)} (l : list A) :
  snd <$> list_find P l = head (filter P l).
Proof.
  induction l as [|x l IH]; [done|]. rewrite filter_cons. simpl.
  destruct (decide (P x)); [done|]. rewrite <- IH.
  by destruct (list_find P l) as [[]|].
Qed.

Lemma testbit_abit s a b : 0 ≤ b < 64 → Z.testbit (word s a) b = abit s (64 * a + b).
Proof.
  intros Hb. unfold abit.
  replace ((64 * a + b) `div` 64) with a by (apply (Z.div_unique_pos _ 64 a b); lia).
  by replace ((64 * a + b) `mod` 64) with b by (apply (Z.mod_unique_pos _ 64 a b); lia).
Qed.

Lemma word_ones s a :
  ones s (64 * a) 64 =
  Z.add (64 * a) <$> filter (λ b, Z.testbit (word s a) b = true) (seqZ 0 64).
Proof.
  unfold ones. replace (seqZ (64 * a) 64) with (Z.add (64 * a) <$> seqZ 0 64)
    by (rewrite fmap_add_seqZ; f_equal; lia).
  rewrite list_filter_fmap. f_equal. apply filter_ext. intros b Hb%elem_of_seqZ.
  simpl. rewrite testbit_abit by lia. done.
Qed.

Lemma ffsll_ones s a : __ffsll (word s a) = first_of (64 * a) (ones s (64 * a) 64).
Proof.
  unfold __ffsll. rewrite word_ones.
  pose proof (list_find_filter (λ b, Z.testbit (word s a) b = true) (seqZ 0 64)) as H.
  destruct (list_find _ _) as [[i b]|], (filter _ _) as [|c l]; simplify_eq/=; lia.
Qed.

Lemma FFS_from_ok s g n w :
  words_ok s → 0 ≤ 8 * g + w → 0 ≤ w → 8 * g + w + Z.of_nat n ≤ zlen s →
  FFS_from n (8 * g) w s =
  Ok (first_of (512 * g) (ones s (64 * (8 * g + w)) (64 * Z.of_nat n)), s).
Proof.
  intros Hs. revert w. induction n as [|n IH]; intros w Hw Hw0 Hn; [done|].
  cbn [FFS_from]. mstep (load_ok s (8 * g + w) ltac:(lia)). cbv zeta.
  rewrite ffsll_ones. replace (64 * Z.of_nat (S n)) with (64 + 64 * Z.of_nat n) by lia.
  rewrite ones_app by lia.
  destruct (ones s (64 * (8 * g + w)) 64) as [|q l] eqn:E; simpl.
  - rewrite IH by lia. do 4 f_equal. lia.
  - apply ones_cons in E as [Hq _].
    destruct (Z.eqb_spec (q - 64 * (8 * g + w) + 1) 0); [lia|]. simpl.
    rewrite ret_eq, Z.shiftl_mul_pow2 by lia. do 2 f_equal. lia.
Qed.

Lemma FFS_ok s g : words_ok s → 0 ≤ g → 8 * g + 8 ≤ zlen s →
  FFS (8 * g) s = Ok (first_of (512 * g) (ones s (512 * g) 512), s).
Proof.
  intros. unfold FFS. change (Z.to_nat NUM_64b) with 8%nat.
  rewrite FFS_from_ok by (done || lia).
  replace (64 * (8 * g + 0)) with (512 * g) by lia. done.
Qed.
