(* ===== verification/BitArraySpec.v ===== *)
(** * Bit arrays: the entry points are correct

    [wf log_size s] is the invariant of a block with [2 ^ log_size] bits; the
    entry points preserve it and act on [members log_size s], the sorted list
    of the indices whose bit is set. *)

From S2P Require Import Prelude BitArray BitArrayInv.

(** ** Groups and levels *)

(** The number of groups of the first [k] summary levels. *)
Fixpoint gb (k : nat) : Z := match k with O => 0 | S k => 1 + 512 * gb k end.

Lemma gb_nonneg k : 0 ≤ gb k.
Proof. induction k; cbn [gb]; lia. Qed.

Lemma gb_add_pow k : gb (S k) = gb k + 512 ^ Z.of_nat k.
Proof.
  induction k as [|k IH]; [done|]. cbn [gb] in *.
  rewrite Nat2Z.inj_succ, Z.pow_succ_r by lia. lia.
Qed.

Lemma get_levels_ok k s :
  (k ≤ 3)%nat → get_levels_num_words (Z.of_nat k) s = Ok (8 * gb (S k), s).
Proof. intros Hk. destruct k as [|[|[|[|k]]]]; [done..|lia]. Qed.

Lemma gb_bound k : (k ≤ 4)%nat → gb k ≤ 134480385.
Proof. intros Hk. destruct k as [|[|[|[|[|k]]]]]; cbn [gb]; lia. Qed.

(** ** The summary invariant *)

(** Summary bit [Q] tells whether the group below it has a set bit. *)
Definition summarises (s : words_t) (Q : Z) : Prop :=
  abit s Q = negb (group_zero s (Q + 1)).

(** All the summary bits below [N] but [X] are right. *)
Definition sums_but (s : words_t) (N X : Z) : Prop :=
  ∀ Q, 0 ≤ Q < N → Q ≠ X → summarises s Q.

Lemma sums_done s N X : sums_but s N X → (0 ≤ X < N → summarises s X) → sums_but s N (-1).
Proof. intros H HX Q HQ _. destruct (decide (Q = X)) as [->|]; auto. Qed.

Section one_bit.
Context (s : words_t) (Hok : words_ok s) (P : Z) (HP : 0 ≤ P < 64 * zlen s) (v : bool).

Lemma group_zero_upd g : g ≠ P `div` 512 → group_zero (upd s P v) g = group_zero s g.
Proof using Hok HP.
  intros Hg. apply group_zero_ext; [done|by apply words_ok_upd|].
  intros p Hp. rewrite abit_upd by done. destruct (Z.eqb_spec p P); [|done].
  Z.to_euclidean_division_equations. lia.
Qed.

Lemma group_upd_true : v = true → group_zero (upd s P v) (P `div` 512) = false.
Proof using Hok HP.
  intros ->. apply (group_nonzero_abit _ _ P); [by apply words_ok_upd|..].
  - Z.to_euclidean_division_equations. lia.
  - rewrite abit_upd by done. by rewrite Z.eqb_refl.
Qed.

(** Making bit [P] agree with its group leaves only the bit above to check. *)
Lemma sums_upd N :
  sums_but s N P → (P < N → group_zero s (P + 1) = negb v) →
  sums_but (upd s P v) N (P `div` 512 - 1).
Proof using Hok HP.
  intros Hs HPv Q HQ HQP. unfold summarises.
  rewrite group_zero_upd by lia. rewrite abit_upd by done.
  destruct (Z.eqb_spec Q P) as [->|Hne].
  - rewrite HPv by lia. by destruct v.
  - by apply Hs.
Qed.

End one_bit.

Lemma parent_lt P k : 512 * gb k ≤ P < 512 * gb (S k) → P `div` 512 < gb (S k).
Proof. intros. apply Z.div_lt_upper_bound; lia. Qed.

(** The address arithmetic of one case of the switches. *)
Lemma switch_addr k ix :
  (k ≤ 3)%nat → 0 ≤ ix → 512 * gb k + ix < 512 * gb (S k) →
  (8 * gb k + u32 (Z.shiftr ix NB * NUM_64b) = 8 * (gb k + ix `div` 512)) ∧
  512 * (gb k + ix `div` 512) + ix `mod` 512 = 512 * gb k + ix ∧
  0 ≤ gb k + ix `div` 512 < gb (S k) ∧ 0 ≤ ix `mod` 512 < 512 ∧
  (512 * gb k + ix) `div` 512 = gb k + ix `div` 512.
Proof.
  intros Hk Hix HP. pose proof (gb_nonneg k). pose proof (gb_bound (S k) ltac:(lia)).
  rewrite shiftr9_div. change NUM_64b with 8. cbn [gb] in *.
  rewrite wrapu_small by (Z.to_euclidean_division_equations; lia).
  split_and!; Z.to_euclidean_division_equations; lia.
Qed.

(** What both switches know of bit [P] (the one they write), of its group [G]
    and of the block after the write. *)
Ltac switch_facts v :=
  lazymatch goal with
  | Hok : words_ok ?s, Hk : (?k ≤ 3)%nat, Hix : 0 ≤ ?ix, HP : 512 * gb ?k + ?ix < _,
    Hs : sums_but ?s ?N (512 * gb ?k + ?ix) |- _ =>
      destruct (switch_addr k ix Hk Hix HP) as (Ea & Ep & Hg & Hm & Ed);
      set (P := 512 * gb k + ix) in *; set (G := gb k + ix `div` 512) in *;
      assert (0 ≤ P < 64 * zlen s) as HPin by lia;
      pose proof (sums_upd s Hok P HPin v N Hs ltac:(done)) as Hs1;
      pose proof (group_upd_true s Hok P HPin v) as Hz1;
      pose proof (words_ok_upd s P v HPin Hok) as Hok1;
      assert (∀ Q, P < Q → abit (upd s P v) Q = abit s Q) as Hab
        by (intros Q HQ; rewrite abit_upd by done; destruct (Z.eqb_spec Q P); [lia|done])
  end.

Section switches.
Context (N : Z).

Lemma set_switch_ok k s ix :
  words_ok s → (k ≤ 3)%nat → 0 ≤ ix → 512 * gb k + ix < 512 * gb (S k) →
  8 * gb (S k) ≤ zlen s →
  group_zero s (512 * gb k + ix + 1) = false → sums_but s N (512 * gb k + ix) →
  ∃ s', set_switch k ix s = Ok (true, s') ∧ words_ok s' ∧ zlen s' = zlen s ∧
        sums_but s' N (-1) ∧ ∀ Q, 512 * gb k + ix < Q → abit s' Q = abit s Q.
Proof.
  revert s ix. induction k as [|k IH]; intros s ix Hok Hk Hix HP Hlen Hz Hs;
    switch_facts true;
    rewrite Ed in *.
  - cbn [set_switch]. rewrite land511_mod.
    assert (G = 0) as EG by (cbn [gb] in *; lia).
    pose proof (SET_SIMPLE_ok s G (ix `mod` 512) ltac:(lia) ltac:(lia) Hm) as E.
    rewrite EG, Z.mul_0_r in E. mstep E. rewrite EG in *. rewrite Ep in *.
    eexists. split; [done|]. rewrite zlen_upd. auto.
  - cbn [set_switch]. rewrite land511_mod. mstep (get_levels_ok k s ltac:(lia)).
    rewrite Ea. pose proof (SET_GO_DOWN_ok s Hok G (ix `mod` 512) ltac:(lia) ltac:(lia) Hm) as E.
    rewrite Ep in E. mstep E.
    destruct (Z.eqb_spec (word s (P `div` 64)) 0) as [Ew|Ew]; cbn [negb].
    + rewrite shiftr9_div.
      assert (512 * gb k + ix `div` 512 = G - 1) as EP' by (unfold G; cbn [gb]; lia).
      destruct (IH (upd s P true) (ix `div` 512)) as (s' & Hrun & Hok' & Hl & Hs' & Hfr);
        rewrite ?zlen_upd, ?EP' in *; try done.
      * lia.
      * apply Z.div_pos; lia.
      * cbn [gb] in *. lia.
      * cbn [gb] in *. lia.
      * replace (G - 1 + 1) with G by lia. by apply Hz1.
      * exists s'. split_and!; [done..|]. intros Q HQ. rewrite Hfr by lia. auto.
    + eexists. split; [done|]. rewrite zlen_upd. split_and!; [done..| |done].
      eapply sums_done; [done|]. intros HG. unfold summarises.
      replace (G - 1 + 1) with G by lia. rewrite Hz1 by done. cbn [negb].
      assert (G - 1 ≠ P) by (cbn [gb] in *; lia).
      rewrite abit_upd by done. destruct (Z.eqb_spec (G - 1) P); [done|].
      rewrite Hs by lia. replace (G - 1 + 1) with G by lia.
      rewrite (group_nonzero_word s G (P `div` 64)); [done| |done].
      unfold P, G in *. Z.to_euclidean_division_equations. lia.
Qed.

Lemma zap_switch_ok k s ix :
  words_ok s → (k ≤ 3)%nat → 0 ≤ ix → 512 * gb k + ix < 512 * gb (S k) →
  8 * gb (S k) ≤ zlen s →
  group_zero s (512 * gb k + ix + 1) = true → sums_but s N (512 * gb k + ix) →
  ∃ s', zap_switch k ix s = Ok (tt, s') ∧ words_ok s' ∧ zlen s' = zlen s ∧
        sums_but s' N (-1) ∧ ∀ Q, 512 * gb k + ix < Q → abit s' Q = abit s Q.
Proof.
  revert s ix. induction k as [|k IH]; intros s ix Hok Hk Hix HP Hlen Hz Hs;
    switch_facts false;
    rewrite Ed in *.
  - cbn [zap_switch]. rewrite land511_mod.
    assert (G = 0) as EG by (cbn [gb] in *; lia).
    pose proof (ZAP_SIMPLE_ok s G (ix `mod` 512) ltac:(lia) ltac:(lia) Hm) as E.
    rewrite EG, Z.mul_0_r in E. rewrite E. rewrite EG in *. rewrite Ep in *.
    eexists. split; [done|]. rewrite zlen_upd. auto.
  - cbn [zap_switch]. rewrite land511_mod. mstep (get_levels_ok k s ltac:(lia)).
    rewrite Ea. pose proof (ZAP_GO_DOWN_ok s Hok G (ix `mod` 512) ltac:(lia) ltac:(lia) Hm) as E.
    rewrite Ep in E. mstep E.
    destruct (abit s P && group_zero (upd s P false) G) eqn:Ew; cbn [negb].
    + apply andb_true_iff in Ew as [_ Ew]. rewrite shiftr9_div.
      assert (512 * gb k + ix `div` 512 = G - 1) as EP' by (unfold G; cbn [gb]; lia).
      destruct (IH (upd s P false) (ix `div` 512)) as (s' & Hrun & Hok' & Hl & Hs' & Hfr);
        rewrite ?zlen_upd, ?EP' in *; try done.
      * lia.
      * apply Z.div_pos; lia.
      * cbn [gb] in *. lia.
      * cbn [gb] in *. lia.
      * by replace (G - 1 + 1) with G by lia.
      * exists s'. split_and!; [done..|]. intros Q HQ. rewrite Hfr by lia. auto.
    + eexists. split; [done|]. rewrite zlen_upd. split_and!; [done..| |done].
      eapply sums_done; [done|]. intros HG.
      assert (G - 1 ≠ P) by (cbn [gb] in *; lia).
      destruct (abit s P) eqn:EP; cbn [andb] in Ew.
      * unfold summarises. replace (G - 1 + 1) with G by lia. rewrite Ew.
        rewrite abit_upd by done. destruct (Z.eqb_spec (G - 1) P); [done|].
        rewrite Hs by lia. replace (G - 1 + 1) with G by lia.
        rewrite (group_nonzero_abit s G P); [done|done|lia|done].
      * rewrite <- EP, upd_same by done. by apply Hs.
Qed.

End switches.

(** ** Well-formed bit arrays *)

(** The number of summary levels of an array with [2 ^ log_size] bits. *)
Definition depth (log_size : Z) : nat :=
  if log_size <=? NB then O else S (Z.to_nat ((log_size - NB - 1) `div` NB)).

Definition data_groups (log_size : Z) : Z :=
  if log_size <=? NB then 1 else 2 ^ (log_size - NB).

(** Bit [i] of the array proper. *)
Definition bit_at (log_size : Z) (s : words_t) (i : Z) : bool :=
  abit s (512 * gb (depth log_size) + i).

Definition members (log_size : Z) (s : words_t) : list Z :=
  filter (λ i, bit_at log_size s i = true) (seqZ 0 (2 ^ log_size)).

Record wf (log_size : Z) (s : words_t) : Prop := {
  wf_log : 0 ≤ log_size ≤ 31;
  wf_len : zlen s = 8 * (gb (depth log_size) + data_groups log_size);
  wf_words : words_ok s;
  wf_sums : sums_but s (512 * gb (depth log_size)) (-1);
  wf_pad : ∀ i, 2 ^ log_size ≤ i → bit_at log_size s i = false;
}.

Lemma pow2_31 l : 0 ≤ l ≤ 31 → 0 < 2 ^ l ≤ 2147483648.
Proof.
  intros. split; [apply Z.pow_pos_nonneg; lia|].
  change 2147483648 with (2 ^ 31). apply Z.pow_le_mono_r; lia.
Qed.

Lemma pow2_512 l : NB < l → 2 ^ l = 512 * 2 ^ (l - NB).
Proof.
  intros. change 512 with (2 ^ NB). rewrite <- Z.pow_add_r by (unfold NB in *; lia).
  f_equal. lia.
Qed.

Section large.
Context (log_size : Z) (Hlog : 9 < log_size ≤ 31).

Local Abbreviation level := ((log_size - NB - 1) `div` NB).
Local Abbreviation k := (Z.to_nat level).

Lemma level_range : 0 ≤ level ≤ 2.
Proof using Hlog. unfold NB. Z.to_euclidean_division_equations. lia. Qed.

Lemma depth_large : depth log_size = S k.
Proof using Hlog. unfold depth, NB. destruct (Z.leb_spec log_size 9); [lia|done]. Qed.

Lemma data_groups_large : data_groups log_size = 2 ^ (log_size - NB).
Proof using Hlog. unfold data_groups, NB. destruct (Z.leb_spec log_size 9); [lia|done]. Qed.

(** The groups of the array have one summary bit each in the level above. *)
Lemma data_groups_le : 2 ^ (log_size - NB) ≤ 512 * (gb (S k) - gb k).
Proof using Hlog.
  pose proof level_range as Hl. rewrite gb_add_pow.
  replace (512 * _) with (2 ^ (NB * (level + 1))).
  - apply Z.pow_le_mono_r; [lia|]. unfold NB in *. Z.to_euclidean_division_equations. lia.
  - rewrite Z2Nat.id by lia. rewrite Z.pow_mul_r by (done || lia).
    change (2 ^ NB) with 512. rewrite Z.pow_add_r by lia. lia.
Qed.

Lemma data_addr index :
  0 ≤ index < 2 ^ log_size →
  let G := gb (S k) + index `div` 512 in
  8 * gb (S k) + u32 (Z.shiftr index NB * NUM_64b) = 8 * G ∧
  512 * G + index `mod` 512 = 512 * gb (S k) + index ∧
  0 ≤ G < gb (S k) + 2 ^ (log_size - NB) ∧ 0 ≤ index `mod` 512 < 512 ∧
  (512 * gb (S k) + index) `div` 512 = G ∧
  G - 1 = 512 * gb k + index `div` 512 ∧ 0 ≤ index `div` 512 ∧
  512 * gb k + index `div` 512 < 512 * gb (S k).
Proof using Hlog.
  intros Hi G. pose proof (gb_nonneg k). pose proof data_groups_le as Hle.
  pose proof (pow2_31 log_size ltac:(lia)). pose proof (pow2_512 log_size ltac:(change NB with 9; lia)) as E.
  assert (gb (S k) = 1 + 512 * gb k) as Eg by done.
  unfold G. rewrite shiftr9_div. change NUM_64b with 8.
  assert (0 ≤ index `div` 512 * 8 < 2 ^ 32) as Hw.
  { clear -Hi H0. change (2 ^ 32) with 4294967296. Z.to_euclidean_division_equations. lia. }
  rewrite wrapu_small by done. clear Hw.
  set (D := 2 ^ (log_size - NB)) in *. clearbody D. set (L := 2 ^ log_size) in *. clearbody L.
  set (g1 := gb (S k)) in *. clearbody g1. set (g0 := gb k) in *. clearbody g0. clear Hlog G.
  split_and!; Z.to_euclidean_division_equations; lia.
Qed.

End large.

Lemma bit_at_range log_size s i : wf log_size s → 0 ≤ i → bit_at log_size s i = true → i < 2 ^ log_size.
Proof.
  intros Hwf Hi Hb. apply Z.nle_gt. intros Hle. by rewrite (wf_pad _ _ Hwf) in Hb.
Qed.

Lemma elem_of_members log_size s i : wf log_size s →
  i ∈ members log_size s ↔ 0 ≤ i ∧ bit_at log_size s i = true.
Proof.
  intros Hwf. unfold members. rewrite list_elem_of_filter, elem_of_seqZ.
  split; [naive_solver lia|]. intros [Hi Hb]. split; [done|].
  apply (bit_at_range _ _ _ Hwf) in Hb; lia.
Qed.

Lemma members_ones log_size s :
  members log_size s = Z.add (- (512 * gb (depth log_size))) <$>
    ones s (512 * gb (depth log_size)) (2 ^ log_size).
Proof.
  set (B := 512 * gb (depth log_size)). unfold ones.
  replace (seqZ B (2 ^ log_size)) with (Z.add B <$> seqZ 0 (2 ^ log_size))
    by (rewrite fmap_add_seqZ; f_equal; lia).
  rewrite list_filter_fmap, <- list_fmap_compose. unfold members, bit_at. fold B.
  rewrite <- (list_fmap_id (filter _ _)) at 1. apply list_fmap_ext. intros _ x _. simpl. lia.
Qed.

(** Changing one bit of the array and repairing the summaries. *)
Lemma wf_change log_size s s' index v :
  wf log_size s → 0 ≤ index < 2 ^ log_size →
  words_ok s' → zlen s' = zlen s → sums_but s' (512 * gb (depth log_size)) (-1) →
  (∀ Q, 512 * gb (depth log_size) ≤ Q →
     abit s' Q = abit (upd s (512 * gb (depth log_size) + index) v) Q) →
  0 ≤ 512 * gb (depth log_size) + index < 64 * zlen s →
  wf log_size s' ∧
  ∀ i, 0 ≤ i → bit_at log_size s' i = if i =? index then v else bit_at log_size s i.
Proof.
  intros Hwf Hi Hok Hlen Hsum Hab HP.
  assert (∀ i, 0 ≤ i → bit_at log_size s' i = if i =? index then v else bit_at log_size s i) as Hbit.
  { intros i Hi0. unfold bit_at. rewrite Hab by lia. rewrite abit_upd by done.
    destruct (Z.eqb_spec i index) as [->|]; [by rewrite Z.eqb_refl|].
    destruct (Z.eqb_spec (512 * gb (depth log_size) + i) (512 * gb (depth log_size) + index)); [lia|done]. }
  split; [|done]. split; [apply Hwf|rewrite Hlen; apply Hwf|done|done|].
  intros i Hge. rewrite Hbit by lia. destruct (Z.eqb_spec i index); [lia|by apply Hwf].
Qed.
