(* ===== verification/BitArrayCorrect.v ===== *)
(** * Bit arrays: correctness of get, set, zap and of the searches *)

From S2P Require Import Prelude BitArray BitArrayInv BitArraySpec.

(** ** Facts of the two layouts *)

Lemma small_facts log_size s index :
  wf log_size s → log_size <= 9 → 0 ≤ index < 2 ^ log_size →
  depth log_size = O ∧ 8 ≤ zlen s ∧ 0 ≤ index < 512 ∧
  bit_at log_size s index = abit s (512 * 0 + index).
Proof.
  intros Hwf Hlog Hi. pose proof (wf_len _ _ Hwf) as Hl.
  unfold bit_at, depth, data_groups, NB in *. destruct (Z.leb_spec log_size 9); [|lia].
  assert (2 ^ log_size ≤ 2 ^ 9) by (apply Z.pow_le_mono_r; lia).
  change (2 ^ 9) with 512 in *. cbn [gb] in *. split_and!; done || lia.
Qed.

Lemma bit_set_small log_size s index v :
  wf log_size s → log_size <= 9 → 0 ≤ index < 2 ^ log_size →
  wf log_size (upd s (512 * 0 + index) v) ∧
  ∀ i, 0 ≤ i → bit_at log_size (upd s (512 * 0 + index) v) i =
               if i =? index then v else bit_at log_size s i.
Proof.
  intros Hwf Hlog Hi. destruct (small_facts _ _ _ Hwf Hlog Hi) as (Ed & Hl & Hi' & _).
  assert (0 ≤ 512 * 0 + index < 64 * zlen s) as HP by lia.
  apply (wf_change _ s); rewrite ?Ed; try done.
  - apply words_ok_upd; [done|apply Hwf].
  - apply zlen_upd.
  - intros Q HQ. cbn [gb] in HQ. lia.
Qed.

(** What the entry points know of the index in a summarised array. *)
Record large_facts (log_size : Z) (s : words_t) (index : Z) (k : nat) (G : Z) : Prop := {
  lf_level : (log_size - NB - 1) `div` NB = Z.of_nat k;
  lf_k : (k ≤ 2)%nat;
  lf_depth : depth log_size = S k;
  lf_addr : 8 * gb (S k) + u32 (Z.shiftr index NB * NUM_64b) = 8 * G;
  lf_bit : 512 * G + index `mod` 512 = 512 * gb (S k) + index;
  lf_G : 0 ≤ G; lf_in : 8 * G + 8 ≤ zlen s;
  lf_mod : 0 ≤ index `mod` 512 < 512;
  lf_group : (512 * gb (S k) + index) `div` 512 = G;
  lf_parent : G - 1 = 512 * gb k + index `div` 512;
  lf_ix : 0 ≤ index `div` 512;
  lf_lt : 512 * gb k + index `div` 512 < 512 * gb (S k);
  lf_len : 8 * gb (S k) ≤ zlen s;
  lf_P : 0 ≤ 512 * gb (S k) + index < 64 * zlen s;
}.

Lemma large_facts_intro log_size s index :
  wf log_size s → 9 < log_size → 0 ≤ index < 2 ^ log_size →
  ∃ k G, large_facts log_size s index k G.
Proof.
  intros Hwf Hlog Hi. pose proof (wf_log _ _ Hwf) as Hl31.
  assert (9 < log_size ≤ 31) as Hl by lia.
  pose proof (wf_len _ _ Hwf) as Hlen. rewrite data_groups_large, depth_large in Hlen by done.
  pose proof (level_range _ Hl) as Hlev.
  destruct (data_addr _ Hl _ Hi) as (Ea & Ep & HG & Hm & Eg & Epar & Hix & Hlt).
  set (k := Z.to_nat ((log_size - NB - 1) `div` NB)) in *.
  pose proof (gb_nonneg (S k)).
  exists k, (gb (S k) + index `div` 512). split; try done; try lia. by apply depth_large.
Qed.

Lemma le_NB log_size : (log_size <=? NB) = false ↔ 9 < log_size.
Proof. unfold NB. apply Z.leb_gt. Qed.

(** ** Writing one bit of a summarised array *)

Section large.
Context (log_size : Z) (s : words_t) (index : Z) (k : nat) (G : Z).
Context (Hwf : wf log_size s) (Hi : 0 ≤ index < 2 ^ log_size).
Context (LF : large_facts log_size s index k G).

Local Abbreviation P := (512 * gb (S k) + index).

Lemma bit_at_P : bit_at log_size s index = abit s P.
Proof using LF. unfold bit_at. by rewrite (lf_depth _ _ _ _ _ LF). Qed.

(** After the write only the summary bit of the group is in doubt. *)
Lemma write_sums v : sums_but (upd s P v) (512 * gb (S k)) (G - 1).
Proof using Hwf Hi LF.
  destruct LF. pose proof (wf_sums _ _ Hwf) as Hs. rewrite lf_depth0 in Hs.
  rewrite <- lf_group0. apply sums_upd; [apply Hwf|done| |lia].
  intros Q HQ HQP. apply Hs; lia.
Qed.

Lemma old_summary : 0 ≤ G - 1 < 512 * gb (S k) → abit s (G - 1) = negb (group_zero s G).
Proof using Hwf LF.
  intros HG. destruct LF. pose proof (wf_sums _ _ Hwf) as Hs. rewrite lf_depth0 in Hs.
  rewrite Hs by lia. by replace (G - 1 + 1) with G by lia.
Qed.

Lemma write_wf v s' :
  words_ok s' → zlen s' = zlen s → sums_but s' (512 * gb (S k)) (-1) →
  (∀ Q, G - 1 < Q → abit s' Q = abit (upd s P v) Q) →
  wf log_size s' ∧
  ∀ i, 0 ≤ i → bit_at log_size s' i = if i =? index then v else bit_at log_size s i.
Proof using Hwf Hi LF.
  intros Hok Hl Hs Hfr. destruct LF.
  apply (wf_change _ s); rewrite ?lf_depth0; try done. intros Q HQ. apply Hfr. lia.
Qed.

Lemma set_data_ok :
  ∃ w s', SET_CHANGED_GO_DOWN (8 * G) (index `mod` 512) false s =
            Ok ((negb (bit_at log_size s index), w), upd s P true) ∧
    (if negb (bit_at log_size s index) && negb w
     then set_switch k (index `div` 512) (upd s P true) = Ok (true, s')
     else s' = upd s P true) ∧
    wf log_size s' ∧
    ∀ i, 0 ≤ i → bit_at log_size s' i = if i =? index then true else bit_at log_size s i.
Proof using Hwf Hi LF.
  pose proof (wf_words _ _ Hwf) as Hok. pose proof (write_sums true) as Hs1.
  rewrite bit_at_P. pose proof (write_wf true) as Hw. pose proof old_summary as Hold. destruct LF.
  pose proof (SET_CHANGED_GO_DOWN_ok s Hok G (index `mod` 512) lf_G0 lf_in0 lf_mod0 false) as E.
  pose proof (group_upd_true s Hok P lf_P0 true eq_refl) as Hz. rewrite lf_group0 in Hz.
  pose proof (words_ok_upd s P true lf_P0 Hok) as Hok1.
  rewrite lf_bit0 in E. rewrite E. clear E.
  assert (word s (P `div` 64) ≠ 0 → group_zero s G = false) as Hnz.
  { apply group_nonzero_word. clear -lf_group0. Z.to_euclidean_division_equations. lia. }
  assert (group_zero s G = false → sums_but (upd s P true) (512 * gb (S k)) (-1)) as Hdone.
  { intros HG. eapply sums_done; [exact Hs1|]. intros HG1. unfold summarises.
    replace (G - 1 + 1) with G by lia. rewrite Hz, abit_upd by done.
    destruct (Z.eqb_spec (G - 1) P); [lia|]. rewrite Hold by done. by rewrite HG. }
  destruct (abit s P) eqn:EP.
  { eexists _, _. split; [done|]. split; [done|]. apply Hw; try done; [apply zlen_upd|].
    apply Hdone, (group_nonzero_abit _ _ P); [done|lia|done]. }
  destruct (Z.eqb_spec (word s (P `div` 64)) 0) as [Ew|Ew].
  - destruct (set_switch_ok (512 * gb (S k)) k (upd s P true) (index `div` 512))
      as (s' & Hrun & Hok' & Hl' & Hs' & Hfr);
      rewrite <- ?lf_parent0, ?zlen_upd in *; try done; try lia.
    { by replace (G - 1 + 1) with G by lia. }
    exists false, s'. split; [done|]. split; [done|]. by apply Hw.
  - eexists true, _. split; [done|]. split; [done|]. apply Hw; auto using zlen_upd.
Qed.

Lemma ZAP_SUMMARIES_switch ix : ZAP_SUMMARIES ix (Z.of_nat k) = zap_switch k ix.
Proof using LF.
  destruct LF. unfold ZAP_SUMMARIES. rewrite Nat2Z.id.
  destruct (Z.ltb_spec (Z.of_nat k) 0), (Z.ltb_spec 3 (Z.of_nat k)); lia || done.
Qed.

(** Whatever clears bits of group [G] only, clearing its summaries if nothing
    is left in it makes the array well-formed again. *)
Lemma zap_summaries_ok s1 :
  words_ok s1 → zlen s1 = zlen s → sums_but s1 (512 * gb (S k)) (G - 1) →
  (group_zero s1 G = false → group_zero s G = false) → abit s1 (G - 1) = abit s (G - 1) →
  ∃ s', (if group_zero s1 G then ZAP_SUMMARIES (index `div` 512) (Z.of_nat k) s1 = Ok (tt, s')
         else s' = s1) ∧
    words_ok s' ∧ zlen s' = zlen s ∧ sums_but s' (512 * gb (S k)) (-1) ∧
    ∀ Q, G - 1 < Q → abit s' Q = abit s1 Q.
Proof using Hwf LF.
  intros Hok1 Hl1 Hs1 Hmono Hsame. rewrite ZAP_SUMMARIES_switch.
  pose proof old_summary as Hold. destruct LF.
  destruct (group_zero s1 G) eqn:Ez.
  - destruct (zap_switch_ok (512 * gb (S k)) k s1 (index `div` 512))
      as (s' & Hrun & Hok' & Hl' & Hs' & Hfr);
      rewrite <- ?lf_parent0, ?Hl1 in *; try done; try lia.
    { by replace (G - 1 + 1) with G by lia. }
    exists s'. split_and!; done || congruence.
  - exists s1. split_and!; try done. eapply sums_done; [exact Hs1|]. intros HG1.
    unfold summarises. replace (G - 1 + 1) with G by lia.
    by rewrite Ez, Hsame, Hold, Hmono.
Qed.

Lemma zap_data_ok :
  ∃ z s', ZAP_CHANGED_GO_DOWN (8 * G) (index `mod` 512) false s =
            Ok ((bit_at log_size s index, z), upd s P false) ∧
    (if bit_at log_size s index && z
     then ZAP_SUMMARIES (index `div` 512) (Z.of_nat k) (upd s P false) = Ok (tt, s')
     else s' = upd s P false) ∧
    wf log_size s' ∧
    ∀ i, 0 ≤ i → bit_at log_size s' i = if i =? index then false else bit_at log_size s i.
Proof using Hwf Hi LF.
  pose proof (wf_words _ _ Hwf) as Hok. rewrite bit_at_P. pose proof (write_wf false) as Hw.
  pose proof (write_sums false) as Hs1. pose proof (zap_summaries_ok (upd s P false)) as Hsum.
  destruct LF.
  pose proof (ZAP_CHANGED_GO_DOWN_ok s Hok G (index `mod` 512) lf_G0 lf_in0 lf_mod0 false) as E.
  pose proof (words_ok_upd s P false lf_P0 Hok) as Hok1.
  rewrite lf_bit0 in E. rewrite E. clear E.
  destruct (abit s P) eqn:EP.
  - destruct Hsum as (s' & Hrun & Hok' & Hl' & Hs' & Hfr); [done|apply zlen_upd|done|..].
    + intros _. apply (group_nonzero_abit _ _ P); [done|lia|done].
    + rewrite abit_upd by done. destruct (Z.eqb_spec (G - 1) P); [lia|done].
    + exists (group_zero (upd s P false) G), s'. split; [done|].
      split; [by destruct (group_zero _ _)|]. by apply Hw.
  - exists false, (upd s P false). split; [done|]. split; [done|]. apply Hw; try done.
    + apply zlen_upd.
    + rewrite <- EP, upd_same by done. pose proof (wf_sums _ _ Hwf) as Hs.
      by rewrite lf_depth0 in Hs.
Qed.

End large.

(** ** Get, set, zap *)

(** [bitarray_get] returns the bit of the index, and changes nothing. *)
Theorem bitarray_get_correct log_size s index :
  wf log_size s → 0 ≤ index < 2 ^ log_size →
  bitarray_get log_size index s = Ok (bit_at log_size s index, s).
Proof.
  intros Hwf Hi. unfold bitarray_get. destruct (log_size <=? NB) eqn:El.
  - apply Z.leb_le in El. destruct (small_facts _ _ _ Hwf El Hi) as (Ed & Hl & Hi' & ->).
    by apply (GET_SIMPLE_ok s 0 index).
  - apply le_NB in El. destruct (large_facts_intro _ _ _ Hwf El Hi) as (k & G & []).
    rewrite lf_level0. mstep (get_levels_ok k s ltac:(lia)). rewrite lf_addr0, land511_mod.
    rewrite GET_SIMPLE_ok by done. unfold bit_at. by rewrite lf_depth0, lf_bit0.
Qed.

Lemma bitarray_set_ok log_size s index :
  wf log_size s → 0 ≤ index < 2 ^ log_size →
  ∃ s', bitarray_set log_size index s = Ok (negb (bit_at log_size s index), s') ∧
        wf log_size s' ∧
        ∀ i, 0 ≤ i → bit_at log_size s' i = if i =? index then true else bit_at log_size s i.
Proof.
  intros Hwf Hi. unfold bitarray_set. destruct (log_size <=? NB) eqn:El.
  { apply Z.leb_le in El. destruct (small_facts _ _ _ Hwf El Hi) as (Ed & Hl & Hi' & ->).
    exists (upd s (512 * 0 + index) true).
    split; [by apply (SET_CHANGED_ok s (wf_words _ _ Hwf) 0 index)|by apply bit_set_small]. }
  apply le_NB in El. destruct (large_facts_intro _ _ _ Hwf El Hi) as (k & G & LF).
  destruct (set_data_ok _ _ _ _ _ Hwf Hi LF) as (w & s' & Hrun & Hsum & Hwf' & Hbits).
  exists s'. split; [|done]. destruct LF. rewrite lf_level0.
  mstep (get_levels_ok k s ltac:(lia)). rewrite lf_addr0, land511_mod, shiftr9_div.
  cbv zeta. mstep Hrun. destruct (bit_at log_size s index); cbn [negb andb] in *; [by subst s'|].
  destruct w; cbn [negb] in *; [by subst s'|].
  destruct (Z.ltb_spec 3 (Z.of_nat k)); [lia|]. by rewrite Nat2Z.id.
Qed.

(** [bitarray_set] sets the bit of the index and no other, reports whether it
    was clear before, and leaves every summary bit right. *)
Theorem bitarray_set_correct log_size s index :
  wf log_size s → 0 ≤ index < 2 ^ log_size →
  ∃ s', bitarray_set log_size index s = Ok (negb (bit_at log_size s index), s') ∧
        wf log_size s' ∧
        ∀ i, 0 ≤ i → bit_at log_size s' i = if i =? index then true else bit_at log_size s i.
Proof. apply bitarray_set_ok. Qed.

(** [bitarray_zap] clears the bit of the index and no other, reports whether
    it was set before, and leaves every summary bit right. *)
Theorem bitarray_zap_correct log_size s index :
  wf log_size s → 0 ≤ index < 2 ^ log_size →
  ∃ s', bitarray_zap log_size index s = Ok (bit_at log_size s index, s') ∧
        wf log_size s' ∧
        ∀ i, 0 ≤ i → bit_at log_size s' i = if i =? index then false else bit_at log_size s i.
Proof.
  intros Hwf Hi. unfold bitarray_zap. destruct (log_size <=? NB) eqn:El.
  { apply Z.leb_le in El. destruct (small_facts _ _ _ Hwf El Hi) as (Ed & Hl & Hi' & ->).
    exists (upd s (512 * 0 + index) false).
    split; [by apply (ZAP_CHANGED_ok s (wf_words _ _ Hwf) 0 index)|by apply bit_set_small]. }
  apply le_NB in El. destruct (large_facts_intro _ _ _ Hwf El Hi) as (k & G & LF).
  destruct (zap_data_ok _ _ _ _ _ Hwf Hi LF) as (z & s' & Hrun & Hsum & Hwf' & Hbits).
  exists s'. split; [|done]. destruct LF. rewrite lf_level0.
  mstep (get_levels_ok k s ltac:(lia)). rewrite lf_addr0, land511_mod, shiftr9_div.
  cbv zeta. mstep Hrun. destruct (bit_at log_size s index); cbn [negb andb] in *; [|by subst s'].
  destruct z; cbn [negb] in *; [by mstep Hsum|by subst s'].
Qed.

(** ** Bit arrays: creation and the search for the first set bit *)

(** ** The lowest set bit of a level *)

Definition lowest (s : words_t) (j : nat) (b : Z) : Prop :=
  0 ≤ b ∧ 512 * gb j + b < 512 * gb (S j) ∧ abit s (512 * gb j + b) = true ∧
  ∀ r, 512 * gb j ≤ r < 512 * gb j + b → abit s r = false.

Lemma wf_block log_size s : wf log_size s →
  ∃ m, zlen s = 8 * m ∧ gb (depth log_size) < m ∧ 512 * m < 2 ^ 32.
Proof.
  intros Hwf. pose proof (wf_len _ _ Hwf) as Hl. pose proof (wf_log _ _ Hwf) as Hlog.
  eexists. split; [exact Hl|].
  destruct (Z.leb_spec log_size 9) as [H9|H9].
  - unfold depth, data_groups, NB. destruct (Z.leb_spec log_size 9); [|lia].
    change (2 ^ 32) with 4294967296. cbn [gb]. lia.
  - rewrite data_groups_large, depth_large by lia.
    pose proof (level_range log_size ltac:(lia)) as Hk.
    pose proof (pow2_31 (log_size - NB) ltac:(change NB with 9; lia)).
    assert (2 ^ (log_size - NB) ≤ 2 ^ 22) by (apply Z.pow_le_mono_r; change NB with 9; lia).
    assert (gb (S (Z.to_nat ((log_size - NB - 1) `div` NB))) ≤ 262657).
    { destruct (Z.to_nat _) as [|[|[|k]]] eqn:E; cbn [gb]; lia. }
    change (2 ^ 32) with 4294967296. change (2 ^ 22) with 4194304 in *. lia.
Qed.

Section search.
Context (log_size : Z) (s : words_t) (Hwf : wf log_size s).

Lemma nonzero_group_in g q l :
  ones s (512 * g) 512 = q :: l → 0 ≤ g ∧ 8 * g + 8 ≤ zlen s.
Proof using Hwf.
  intros E. destruct (wf_block _ _ Hwf) as (m & Em & _).
  destruct (ones_cons _ _ _ _ _ E) as (Hq & Hb & _). apply abit_in in Hb. lia.
Qed.

(** A summary bit is clear exactly when the group below it is empty. *)
Lemma summary_ones Q : 0 ≤ Q < 512 * gb (depth log_size) →
  abit s Q = false ↔ ones s (512 * (Q + 1)) 512 = [].
Proof using Hwf.
  intros HQ. rewrite <- group_zero_ones by apply Hwf.
  rewrite (wf_sums _ _ Hwf) by lia. by destruct (group_zero s (Q + 1)).
Qed.

Lemma layer_mono (j d : nat) : (j < d)%nat → 512 * gb (S j) ≤ 512 * gb d.
Proof using.
  intros Hj. induction Hj as [|d Hj IH]; [done|]. pose proof (gb_nonneg d). cbn [gb] in *. lia.
Qed.

(** All the groups below a level's clear summary bits are empty. *)
Lemma level_below_clear j r :
  (j < depth log_size)%nat → 512 * gb (S j) ≤ r →
  (∀ q, 512 * gb j ≤ q < 512 * gb j + (r - 512 * gb (S j)) `div` 512 + 1 → abit s q = false) →
  r < 512 * (512 * gb j + 512 * (gb (S j) - gb j) + 1) → abit s r = false.
Proof using Hwf.
  intros Hj Hr Hq Hlt. pose proof (gb_nonneg j). pose proof (layer_mono j _ Hj).
  set (i := (r - 512 * gb (S j)) `div` 512) in *.
  assert (0 ≤ i ∧ 512 * gb (S j) + 512 * i ≤ r < 512 * gb (S j) + 512 * i + 512) as [Hi0 Hi]
    by (unfold i; clear -Hr; Z.to_euclidean_division_equations; lia).
  assert (abit s (512 * gb j + i) = false) as Hc by (apply Hq; lia).
  apply (summary_ones _) in Hc; [|cbn [gb] in *; lia].
  eapply ones_nil_inv; [exact Hc|]. cbn [gb] in *. lia.
Qed.

(** One step down: the lowest set bit of the next level is in the group of the
    lowest set bit of this one. *)
Lemma descend_ok j b :
  (j < depth log_size)%nat → lowest s j b →
  ∃ f, FFS (8 * gb (S j) + u32 (b * NUM_64b)) s = Ok (f, s) ∧
       u32 (u32 (Z.shiftl b NB) + f - 1) = 512 * b + (f - 1) ∧ 1 ≤ f ≤ 512 ∧
       lowest s (S j) (512 * b + (f - 1)).
Proof using Hwf.
  intros Hj (Hb & Hbj & Hbit & Hlow). pose proof (gb_nonneg j). pose proof (layer_mono j _ Hj).
  destruct (wf_block _ _ Hwf) as (m & Em & Hm & Hm32).
  destruct (ones s (512 * (512 * gb j + b + 1)) 512) as [|q l] eqn:Eo.
  { apply summary_ones in Eo; [congruence|lia]. }
  destruct (nonzero_group_in _ _ _ Eo) as [_ Hin].
  replace (512 * gb j + b + 1) with (gb (S j) + b) in * by (cbn [gb]; lia).
  change NUM_64b with 8.
  assert (0 ≤ 512 * b + 512 < 2 ^ 32) by lia.
  rewrite wrapu_small by lia.
  replace (8 * gb (S j) + b * 8) with (8 * (gb (S j) + b)) by lia.
  rewrite FFS_ok by (apply Hwf || lia). eexists. split; [done|]. rewrite Eo.
  destruct (ones_cons _ _ _ _ _ Eo) as (Hq & Hqb & Hqlow). cbn [first_of].
  rewrite Z.shiftl_mul_pow2 by done. change (2 ^ NB) with 512.
  rewrite (wrapu_small 32 (b * 512)) by lia. rewrite wrapu_small by lia.
  split_and!; [lia..|]. unfold lowest. split_and!; [lia|cbn [gb] in *; lia| |].
  - replace (512 * gb (S j) + _) with q by lia. done.
  - intros r Hr. destruct (Z.leb_spec (512 * (gb (S j) + b)) r); [apply Hqlow; lia|].
    apply (level_below_clear j); [done|lia| |cbn [gb] in *; lia].
    intros p Hp. apply Hlow. split; [lia|].
    assert ((r - 512 * gb (S j)) `div` 512 < b); [|lia]. apply Z.div_lt_upper_bound; lia.
Qed.

Lemma ADJUST_ok j b :
  (j < depth log_size)%nat → lowest s j b →
  ∃ b', ADJUST_OFFSET_FOR_FFS (8 * gb j) b (Z.of_nat j) s = Ok ((8 * gb (S j), b'), s) ∧
        lowest s (S j) b'.
Proof using Hwf.
  intros Hj Hb. destruct (descend_ok j b Hj Hb) as (f & Hf & Eb & _ & Hlow).
  unfold ADJUST_OFFSET_FOR_FFS. cbv zeta.
  replace (8 * gb j + _) with (8 * gb (S j)).
  - mstep Hf. rewrite ret_eq, Eb. eauto.
  - rewrite gb_add_pow, Z.pow_mul_r by (done || lia). change (2 ^ NB) with 512.
    change NUM_64b with 8. lia.
Qed.

(** The macro goes down from the root to level [k], the last summary. *)
Lemma ACROSS_ok k b :
  depth log_size = S k → (k ≤ 2)%nat → lowest s O b →
  ∃ b', ADJUST_OFFSET_FOR_FFS_ACROSS_SUMMARIES 0 b (Z.of_nat (S k)) s = Ok ((8 * gb k, b'), s) ∧
        lowest s k b'.
Proof using Hwf.
  intros Ed Hk Hb. unfold ADJUST_OFFSET_FOR_FFS_ACROSS_SUMMARIES.
  destruct k as [|[|[|k]]]; [..|lia]; cbn -[ADJUST_OFFSET_FOR_FFS lowest mbind].
  - eauto.
  - destruct (ADJUST_ok 0 b) as (b1 & E1 & H1); [lia|done|]. cbn [gb] in E1. eauto.
  - destruct (ADJUST_ok 0 b) as (b1 & E1 & H1); [lia|done|].
    destruct (ADJUST_ok 1 b1) as (b2 & E2 & H2); [lia|done|].
    change (8 * gb 0) with 0 in E1. change (Z.of_nat 0) with 0 in E1.
    change (Z.of_nat 3 =? 4) with false. change (Z.of_nat 3 =? 3) with true.
    cbv iota. mstep E1. eauto.
Qed.

(** ** The root *)

Lemma members_none :
  ones s 0 512 = [] → members log_size s = [].
Proof using Hwf.
  intros E. apply filter_nil. intros i Hi%elem_of_seqZ. unfold bit_at.
  enough (∀ j r, (j ≤ depth log_size)%nat → 512 * gb j ≤ r < 512 * gb (S j) → abit s r = false) as H.
  { destruct (abit s _) eqn:Eb; [|done]. rewrite (H (depth log_size)) in Eb; [done..|].
    pose proof (gb_nonneg (depth log_size)).
    pose proof (wf_len _ _ Hwf) as Hl. apply abit_in in Eb.
    destruct (Z.leb_spec log_size 9) as [H9|H9].
    - unfold depth, data_groups, NB in *. destruct (Z.leb_spec log_size 9); [|lia]. cbn [gb] in *. lia.
    - pose proof (wf_log _ _ Hwf). pose proof (data_groups_le log_size ltac:(lia)) as Hd.
      rewrite data_groups_large in Hl by lia. rewrite depth_large in * by lia. cbn [gb] in *. lia. }
  induction j as [|j IH]; intros r Hj Hr.
  - eapply ones_nil_inv; [exact E|]. cbn [gb] in Hr. lia.
  - assert (gb (S (S j)) = 1 + 512 * gb (S j)) as E2 by done.
    assert (gb (S j) = 1 + 512 * gb j) as E1 by done. pose proof (gb_nonneg j).
    apply (level_below_clear j); [lia..| |lia].
    intros q Hq. apply IH; [lia|].
    assert ((r - 512 * gb (S j)) `div` 512 < 512 * (gb (S j) - gb j)); [|lia].
    apply Z.div_lt_upper_bound; lia.
Qed.

Lemma FFS_root : FFS 0 s = Ok (first_of 0 (ones s 0 512), s).
Proof using Hwf.
  destruct (wf_block _ _ Hwf) as (m & Em & Hm & _). pose proof (gb_nonneg (depth log_size)).
  apply (FFS_ok s 0); [apply Hwf|lia|lia].
Qed.

Lemma root_lowest q l : ones s 0 512 = q :: l → lowest s O q.
Proof using.
  intros E. destruct (ones_cons _ _ _ _ _ E) as (Hq & Hb & Hlow).
  unfold lowest. cbn [gb]. split_and!; [lia..| |].
  - by replace (512 * 0 + q) with q by lia.
  - intros r Hr. apply Hlow. lia.
Qed.

(** The lowest set bit of the array itself is the first of its members. *)
Lemma lowest_members b :
  lowest s (depth log_size) b →
  ∃ l, members log_size s = b :: l ∧ b < 2 ^ log_size.
Proof using Hwf.
  intros (Hb & _ & Hbit & Hlow).
  assert (b < 2 ^ log_size) by (eapply bit_at_range; done).
  eexists. split; [|done]. rewrite members_ones, (ones_head _ _ _ (512 * gb (depth log_size) + b));
    [rewrite fmap_cons; f_equal; lia|lia|done|done].
Qed.

End search.

(** ** The searches *)

Lemma level_last log_size :
  9 < log_size ≤ 31 →
  (log_size - 1) `div` NB = Z.of_nat (depth log_size) ∧
  u32 (log_size - 1) `div` NB = Z.of_nat (depth log_size) ∧
  ∃ k, depth log_size = S k ∧ (k ≤ 2)%nat ∧ (log_size - NB - 1) `div` NB = Z.of_nat k.
Proof.
  intros Hl. pose proof (level_range _ Hl) as Hr. rewrite depth_large by done.
  rewrite wrapu_small by lia. rewrite Nat2Z.inj_succ, Z2Nat.id by lia.
  split_and!; [unfold NB; Z.to_euclidean_division_equations; lia..|].
  eexists. split; [done|]. lia.
Qed.

(** The words the last step of the search skips. *)
Lemma last_level_words k :
  8 * gb k + 2 ^ (NB * (Z.of_nat (S k) - 1)) * NUM_64b = 8 * gb (S k).
Proof.
  replace (Z.of_nat (S k) - 1) with (Z.of_nat k) by lia.
  rewrite gb_add_pow, Z.pow_mul_r by (done || lia). change (2 ^ NB) with 512.
  change NUM_64b with 8. lia.
Qed.

Definition first_index (l : list Z) : Z := match l with [] => 0 | i :: _ => i + 1 end.

Lemma members_small log_size s : wf log_size s → log_size <= 9 →
  members log_size s = ones s 0 512.
Proof.
  intros Hwf Hl. pose proof (wf_log _ _ Hwf) as Hlog. pose proof (wf_pad _ _ Hwf) as Hpad.
  rewrite members_ones. unfold bit_at, depth, NB in *. destruct (Z.leb_spec log_size 9); [|lia].
  cbn [gb] in *. assert (0 ≤ 2 ^ log_size) by (apply Z.pow_nonneg; lia).
  assert (2 ^ log_size ≤ 2 ^ 9) by (apply Z.pow_le_mono_r; lia). change (2 ^ 9) with 512 in *.
  transitivity (ones s 0 (2 ^ log_size + (512 - 2 ^ log_size))); [|f_equal; lia].
  rewrite ones_app by lia.
  rewrite (ones_nil s (0 + _)), app_nil_r.
  - change (512 * 0) with 0. induction (ones s 0 (2 ^ log_size)) as [|q l IH]; [done|]. by rewrite fmap_cons, IH.
  - intros q Hq. specialize (Hpad q ltac:(lia)). by replace (512 * 0 + q) with q in Hpad by lia.
Qed.

(** [bitarray_first_set] returns one more than the least index whose bit is
    set, or 0 when no bit is, and changes nothing. *)
Theorem bitarray_first_set_correct log_size s :
  wf log_size s →
  bitarray_first_set log_size s = Ok (first_index (members log_size s), s).
Proof.
  intros Hwf. pose proof (wf_log _ _ Hwf) as Hlog.
  unfold bitarray_first_set. cbv zeta. mstep (FFS_root _ _ Hwf).
  destruct (log_size <=? NB) eqn:El.
  { apply Z.leb_le in El. rewrite members_small by done. rewrite ret_eq. do 2 f_equal.
    destruct (ones s 0 512); simpl; lia. }
  apply le_NB in El. destruct (level_last log_size ltac:(lia)) as (El1 & _ & k & Ed & Hk & _).
  destruct (ones s 0 512) as [|q l] eqn:Eo; cbn [first_of].
  { by rewrite (members_none _ _ Hwf Eo). }
  pose proof (root_lowest _ _ _ Eo) as H0. destruct (Z.eqb_spec (q - 0 + 1) 0); [unfold lowest in *; lia|].
  replace (q - 0 + 1 - 1) with q by lia. rewrite El1, Ed.
  destruct (ACROSS_ok _ _ Hwf k q Ed Hk H0) as (b & Eb & Hb). mstep Eb.
  rewrite last_level_words.
  destruct (descend_ok _ _ Hwf k b ltac:(lia) Hb) as (f & Hf & Ebf & Hf1 & Hlow). mstep Hf.
  rewrite Ebf. rewrite <- Ed in Hlow.
  destruct (lowest_members _ _ Hwf _ Hlow) as (l' & -> & Hlt).
  pose proof (pow2_31 log_size Hlog). destruct Hlow as [Hpos _].
  rewrite ret_eq. cbn [first_index]. rewrite wrapu_small; [done|].
  change (2 ^ 32) with 4294967296. lia.
Qed.

Lemma members_zapped log_size s s' i l :
  wf log_size s → wf log_size s' → members log_size s = i :: l →
  (∀ j, 0 ≤ j → bit_at log_size s' j = if j =? i then false else bit_at log_size s j) →
  members log_size s' = l.
Proof.
  intros Hwf Hwf' Em Hbits. change l with (drop 1 (i :: l)). rewrite <- Em.
  apply filter_drop; [apply NoDup_seqZ|]. fold (members log_size s). rewrite Em.
  intros j Hj%elem_of_seqZ. rewrite Hbits by lia. cbn [take]. rewrite list_elem_of_singleton.
  destruct (Z.eqb_spec j i); naive_solver.
Qed.

Lemma zap_first_small log_size s q l :
  wf log_size s → 1 ≤ log_size ≤ 9 → ones s 0 512 = q :: l →
  u32 (log_size - 1) `div` NB = 0 ∧
  ∃ s', ZAP_SIMPLE 0 q s = Ok (tt, s') ∧ wf log_size s' ∧
        members log_size s = q :: l ∧ members log_size s' = l.
Proof.
  intros Hwf [H1 El] Eo. split.
  { rewrite wrapu_small by lia. apply Z.div_small. unfold NB. lia. }
  assert (members log_size s = q :: l) as Em by (by rewrite members_small).
  assert (0 ≤ q < 2 ^ log_size) as Hq.
  { assert (q ∈ members log_size s) as Hin by (rewrite Em; left).
    apply elem_of_members in Hin as [Hq Hb]; [|done]. split; [done|]. by eapply bit_at_range. }
  destruct (small_facts _ _ _ Hwf El Hq) as (_ & Hl & Hq' & _).
  destruct (bit_set_small _ _ _ false Hwf El Hq) as [Hwf' Hbits].
  pose proof (ZAP_SIMPLE_ok s 0 q ltac:(lia) ltac:(lia) Hq') as E.
  eexists. split; [exact E|]. split; [done|]. split; [done|].
  exact (members_zapped _ _ _ _ _ Hwf Hwf' Em Hbits).
Qed.

Lemma zap_first_set_ok log_size s :
  wf log_size s → 1 ≤ log_size →
  ∃ s', bitarray_zap_first_set log_size s = Ok (head (members log_size s), s') ∧
        wf log_size s' ∧ members log_size s' = tail (members log_size s).
Proof.
  intros Hwf H1. pose proof (wf_log _ _ Hwf) as Hlog.
  unfold bitarray_zap_first_set. cbv zeta. mstep (FFS_root _ _ Hwf).
  destruct (ones s 0 512) as [|q l] eqn:Eo; cbn [first_of].
  { exists s. rewrite (members_none _ _ Hwf Eo). done. }
  pose proof (root_lowest _ _ _ Eo) as H0. destruct (Z.eqb_spec (q - 0 + 1) 0); [unfold lowest in *; lia|].
  replace (q - 0 + 1 - 1) with q by lia.
  destruct (Z.leb_spec log_size 9) as [El|El].
  { destruct (zap_first_small _ _ _ _ Hwf ltac:(lia) Eo) as (-> & s' & E & Hwf' & -> & Em').
    rewrite Z.eqb_refl. mstep E. eauto. }
  destruct (level_last log_size ltac:(lia)) as (_ & El1 & k & Ed & Hk & Elev).
  rewrite El1, Ed. destruct (Z.eqb_spec (Z.of_nat (S k)) 0); [lia|].
  destruct (ACROSS_ok _ _ Hwf k q Ed Hk H0) as (b & Eb & Hb). mstep Eb.
  rewrite last_level_words.
  destruct (descend_ok _ _ Hwf k b ltac:(lia) Hb) as (f & Hf & Ebf & Hf1 & Hlow). mstep Hf.
  rewrite Ebf. set (i := 512 * b + (f - 1)) in *. rewrite <- Ed in Hlow.
  destruct (lowest_members _ _ Hwf _ Hlow) as (l' & Em & Hlt).
  assert (0 ≤ i < 2 ^ log_size) as Hi by (destruct Hlow; lia).
  assert (bit_at log_size s i = true) as Hbit by apply Hlow.
  destruct (large_facts_intro _ _ _ Hwf El Hi) as (k' & G & LF).
  destruct (zap_data_ok _ _ _ _ _ Hwf Hi LF) as (z & s' & Hrun & Hsum & Hwf' & Hbits).
  assert (k' = k) as -> by (pose proof (lf_depth _ _ _ _ _ LF); congruence).
  exists s'. rewrite Em. split; [|split; [done|exact (members_zapped _ _ _ _ _ Hwf Hwf' Em Hbits)]].
  replace (Z.of_nat (S k) - 1) with (Z.of_nat k) by lia.
  mstep (get_levels_ok k s ltac:(lia)). rewrite (lf_addr _ _ _ _ _ LF), land511_mod, shiftr9_div.
  mstep Hrun. rewrite Hbit in *. cbn [negb andb] in *.
  destruct z; cbn [negb] in *; [by mstep Hsum|by subst s'].
Qed.

(** [bitarray_zap_first_set] finds the least index whose bit is set, clears
    exactly that bit and stores the index; it reports false, changing
    nothing, when no bit is set. *)
Theorem bitarray_zap_first_set_correct log_size s :
  wf log_size s → 1 ≤ log_size →
  ∃ s', bitarray_zap_first_set log_size s = Ok (head (members log_size s), s') ∧
        wf log_size s' ∧ members log_size s' = tail (members log_size s).
Proof. apply zap_first_set_ok. Qed.
