(* ===== verification/BitArrayMultiple.v ===== *)
(** * Bit arrays: zapping several bits at once *)

From S2P Require Import Prelude BitArray BitArrayInv BitArraySpec BitArrayCorrect.
From S2P Require Import BitArrayCorrect.

(** ** One word *)

Definition word_bits (x : Z) : list Z := filter (λ b, Z.testbit x b = true) (seqZ 0 64).

Lemma word_bits_zero x : 0 ≤ x < 2 ^ 64 → x = 0 ↔ word_bits x = [].
Proof.
  intros Hx. rewrite word_zero_iff by done. unfold word_bits. split.
  - intros H. apply filter_nil. intros b Hb%elem_of_seqZ. rewrite H by lia. done.
  - intros H b Hb. destruct (Z.testbit x b) eqn:E; [|done].
    assert (b ∈ filter (λ b, Z.testbit x b = true) (seqZ 0 64)) as Hin.
    { rewrite list_elem_of_filter, elem_of_seqZ. split; [done|lia]. }
    rewrite H in Hin. by apply elem_of_nil in Hin.
Qed.

Lemma ffsll_bits x b l : word_bits x = b :: l → __ffsll x - 1 = b ∧ 0 ≤ b < 64 ∧ Z.testbit x b = true.
Proof.
  intros E. assert (b ∈ word_bits x) as Hb by (rewrite E; left).
  apply list_elem_of_filter in Hb as [Hb Hr%elem_of_seqZ]. split; [|split; [lia|done]].
  unfold __ffsll. pose proof (list_find_filter (λ b, Z.testbit x b = true) (seqZ 0 64)) as H.
  change (filter _ (seqZ 0 64)) with (word_bits x) in H. rewrite E in H.
  destruct (list_find _ _) as [[i c]|]; simplify_eq/=. lia.
Qed.

(** [x'] is [x] without its [n] lowest set bits. *)
Definition strips (n : nat) (x x' : Z) : Prop :=
  0 ≤ x' < 2 ^ 64 ∧
  ∀ c, 0 ≤ c < 64 → Z.testbit x' c = Z.testbit x c && negb (bool_decide (c ∈ take n (word_bits x))).

Lemma strips_bits n x x' : strips n x x' → word_bits x' = drop n (word_bits x).
Proof.
  intros [_ H]. apply filter_drop; [apply NoDup_seqZ|]. intros c Hc%elem_of_seqZ.
  rewrite H by lia. fold (word_bits x).
  rewrite andb_true_iff, negb_true_iff, bool_decide_eq_false. done.
Qed.

Lemma strips_one x b l :
  0 ≤ x < 2 ^ 64 → word_bits x = b :: l → strips 1 x (BIT_ZAP x b).
Proof.
  intros Hx E. destruct (ffsll_bits _ _ _ E) as (_ & Hb & _).
  change (BIT_ZAP x b) with (put_bit x b false).
  split; [by apply put_bit_range|]. intros c Hc. rewrite put_bit_testbit by lia. rewrite E.
  change (take 1 (b :: l)) with [b]. rewrite (bool_decide_ext _ _ (list_elem_of_singleton c b)).
  destruct (Z.eqb_spec c b) as [->|]; [by rewrite bool_decide_true, andb_false_r|].
  by rewrite bool_decide_false, andb_true_r.
Qed.

Lemma strips_succ n x b l x' :
  0 ≤ x < 2 ^ 64 → word_bits x = b :: l → strips n (BIT_ZAP x b) x' → strips (S n) x x'.
Proof.
  intros Hx E H. pose proof (strips_one _ _ _ Hx E) as H1. pose proof (strips_bits _ _ _ H1) as E1.
  destruct H as [Hr H]. split; [done|]. intros c Hc. rewrite H, E1, E by done.
  rewrite (proj2 H1) by done. rewrite E. cbn [take drop]. rewrite <- andb_assoc. f_equal.
  rewrite <- negb_orb. f_equal. rewrite <- bool_decide_or. apply bool_decide_ext.
  rewrite !elem_of_cons, elem_of_nil. tauto.
Qed.

Lemma zap_word_loop_ok fuel max w add x idx s :
  0 ≤ x < 2 ^ 64 → x ≠ 0 → (length (word_bits x) ≤ fuel)%nat → zlen idx < max → 0 ≤ w →
  let n := Z.to_nat (max - zlen idx) in
  ∃ x', zap_word_loop fuel max w add x idx s =
        Ok ((x', idx ++ ((λ b, u32 (b + 64 * w + add)) <$> take n (word_bits x))), s) ∧
        strips n x x'.
Proof.
  revert x idx. induction fuel as [|fuel IH]; intros x idx Hx Hnz Hf Hmax Hw n.
  { destruct (word_bits x) eqn:E; [by apply word_bits_zero in E|simpl in Hf; lia]. }
  destruct (word_bits x) as [|b l] eqn:E; [by apply word_bits_zero in E|].
  destruct (ffsll_bits _ _ _ E) as (Ef & Hb & _). cbn [zap_word_loop].
  rewrite Ef, Z.shiftl_mul_pow2 by done. change (2 ^ 6) with 64.
  pose proof (strips_one _ _ _ Hx E) as H1. pose proof (strips_bits _ _ _ H1) as E1.
  rewrite E in E1. change (drop 1 (b :: l)) with l in E1.
  set (x1 := BIT_ZAP x b) in *. rewrite (Z.mul_comm w 64). destruct H1 as [Hr1 H1'].
  assert (zlen (idx ++ [u32 (b + 64 * w + add)]) = zlen idx + 1) as El
    by (autorewrite with zlen; done).
  set (m := Z.to_nat (max - (zlen idx + 1))).
  assert (n = S m) as -> by lia. rewrite firstn_cons, fmap_cons.
  assert (take m l = [] → strips (S m) x x1) as Hlast.
  { intros Et. split; [done|]. intros c Hc. rewrite H1', E by done. cbn [take]. by rewrite Et. }
  destruct (Z.eqb_spec x1 0) as [Ex|Ex].
  { apply word_bits_zero in Ex; [|done]. rewrite E1 in Ex.
    assert (take m l = []) as Et by (rewrite Ex; apply take_nil).
    exists x1. rewrite Et. auto. }
  rewrite El. destruct (Z.leb_spec max (zlen idx + 1)) as [Hle|Hlt].
  { assert (m = 0)%nat as -> by lia. exists x1. split; [done|]. by apply Hlast. }
  destruct (IH x1 (idx ++ [u32 (b + 64 * w + add)])) as (x' & Hrun & Hst);
    [done|done|rewrite E1; simpl in Hf; lia|lia|done|].
  rewrite El, E1 in Hrun. rewrite El in Hst.
  fold m in Hrun, Hst.
  exists x'. split; [|by eapply strips_succ]. rewrite Hrun. by rewrite <- app_assoc.
Qed.

(** ** A group *)

(** [s'] is [s] without the set bits of the list [zapped]. *)
Record cleared (s : words_t) (zapped : list Z) (s' : words_t) : Prop := {
  cl_words : words_ok s';
  cl_len : zlen s' = zlen s;
  cl_bits : ∀ Q, abit s' Q = abit s Q && negb (bool_decide (Q ∈ zapped));
}.

Lemma cleared_nil s : words_ok s → cleared s [] s.
Proof. split; [done..|]. intros Q. rewrite bool_decide_false, andb_true_r; [done|apply not_elem_of_nil]. Qed.

Lemma cleared_app s l s1 k s2 :
  cleared s l s1 → cleared s1 k s2 → cleared s (l ++ k) s2.
Proof.
  intros [? El1 H1] [? El2 H2]. split; [done|congruence|]. intros Q. rewrite H2, H1, <- andb_assoc.
  f_equal. rewrite <- negb_orb. f_equal. rewrite <- bool_decide_or. apply bool_decide_ext.
  by rewrite elem_of_app.
Qed.

Lemma cleared_word s a n x' :
  words_ok s → 0 ≤ a < zlen s → strips n (word s a) x' →
  cleared s (take n (ones s (64 * a) 64)) (<[Z.to_nat a := x']> s).
Proof.
  intros Hok Ha [Hr Hx].
  assert (∀ b, word (<[Z.to_nat a := x']> s) b = if b =? a then x' else word s b) as Hw.
  { intros b. destruct (Z.ltb_spec b 0); [|by apply word_insert; lia].
    destruct (Z.eqb_spec b a); [lia|]. rewrite !word_out; [done|lia..]. }
  split.
  - intros b. rewrite Hw. destruct (b =? a); [done|apply Hok].
  - unfold zlen. by rewrite length_insert.
  - intros Q. unfold abit at 1. rewrite Hw. rewrite word_ones, <- fmap_take.
    pose proof (mod_64 Q) as Hm. pose proof (div_mod_64 Q) as HQ.
    destruct (Z.eqb_spec (Q `div` 64) a) as [<-|Hne].
    + rewrite Hx by done. f_equal. f_equal. apply bool_decide_ext.
      rewrite list_elem_of_fmap. fold (word_bits (word s (Q `div` 64))). split.
      * intros Hin. exists (Q `mod` 64). done.
      * intros (c & Ec & Hc). assert (c = Q `mod` 64) as <-; [|done]. lia.
    + rewrite bool_decide_false, andb_true_r; [done|]. rewrite list_elem_of_fmap.
      intros (c & -> & Hc). apply Hne. apply elem_of_take in Hc as (i & Hc & _).
      apply list_elem_of_lookup_2, list_elem_of_filter in Hc as [_ Hc%elem_of_seqZ].
      symmetry. apply (Z.div_unique_pos _ 64 a c); lia.
Qed.

Lemma cleared_ones s l s' p n :
  cleared s l s' → (∀ q, q ∈ l → q < p ∨ p + n ≤ q) → ones s' p n = ones s p n.
Proof.
  intros Hc Hl. apply ones_ext. intros q Hq. rewrite (cl_bits _ _ _ Hc).
  rewrite bool_decide_false, andb_true_r; [done|]. intros Hin%Hl. lia.
Qed.

Lemma length_word_bits x : (length (word_bits x) ≤ 64)%nat.
Proof. unfold word_bits. etrans; [apply length_filter|done]. Qed.

Lemma zlen_fmap_take {A B} (f : A → B) n (l : list A) :
  zlen (f <$> take n l) = Z.of_nat (n `min` length l).
Proof. unfold zlen. by rewrite length_fmap, length_take. Qed.

Section zap_group.
Context (g max add : Z).

Local Abbreviation out := (λ q, u32 (q - 512 * g + add)).

Lemma out_word w (k : list Z) : out <$> (Z.add (64 * (8 * g + w)) <$> k) = (λ b, u32 (b + 64 * w + add)) <$> k.
Proof. rewrite <- list_fmap_compose. apply list_fmap_ext. intros _ b _. simpl. f_equal. lia. Qed.

Lemma FFS_and_zap_word_from_ok n w idx s :
  words_ok s → 0 ≤ 8 * g + w → 0 ≤ w → 8 * g + w + Z.of_nat n ≤ zlen s → zlen idx < max →
  let m := Z.to_nat (max - zlen idx) in
  let l := take m (ones s (64 * (8 * g + w)) (64 * Z.of_nat n)) in
  ∃ s', FFS_and_zap_word_from n (8 * g) max add w idx s = Ok (idx ++ (out <$> l), s') ∧
        cleared s l s'.
Proof.
  revert w idx s. induction n as [|n IH]; intros w idx s Hok Hgw Hw Hin Hmax m l.
  { assert (l = []) as -> by apply take_nil. exists s. rewrite app_nil_r.
    split; [done|by apply cleared_nil]. }
  unfold l. clear l. replace (64 * Z.of_nat (S n)) with (64 + 64 * Z.of_nat n) by lia.
  rewrite ones_app by lia. set (a := 8 * g + w) in *.
  replace (64 * a + 64) with (64 * (8 * g + (w + 1))) by lia.
  cbn [FFS_and_zap_word_from]. fold a. mstep (load_ok s a ltac:(lia)).
  destruct (Z.eqb_spec (word s a) 0) as [E0|E0].
  { apply word_zero_ones in E0; [|done]. rewrite E0. apply IH; done || lia. }
  destruct (zap_word_loop_ok 64 max w add (word s a) idx s) as (x' & Hrun & Hst);
    [apply Hok|done|apply length_word_bits|done|done|].
  fold m in Hrun, Hst. mstep Hrun. mstep (store_ok s a x' ltac:(lia)).
  pose proof (cleared_word s a m x' Hok ltac:(lia) Hst) as Hc.
  rewrite word_ones in Hc |- *. fold (word_bits (word s a)) in Hc |- *.
  set (W := word_bits (word s a)) in *. set (s1 := <[Z.to_nat a := x']> s) in *.
  set (R := ones s _ _). rewrite <- fmap_take in Hc. rewrite take_app, length_fmap, <- fmap_take.
  rewrite zlen_app, zlen_fmap_take.
  destruct (Z.leb_spec max (zlen idx + Z.of_nat (m `min` length W))) as [Hle|Hlt].
  { exists s1. replace (m - length W)%nat with 0%nat by lia. rewrite take_0, app_nil_r.
    unfold a. by rewrite out_word. }
  destruct (IH (w + 1) (idx ++ ((λ b, u32 (b + 64 * w + add)) <$> take m W)) s1)
    as (s' & Hrun' & Hc').
  { apply Hc. } { lia. } { lia. } { rewrite (cl_len _ _ _ Hc). lia. }
  { rewrite zlen_app, zlen_fmap_take. lia. }
  rewrite (cleared_ones _ _ _ _ _ Hc) in Hrun', Hc'.
  2, 3: intros q (b & -> & Hb)%list_elem_of_fmap; apply elem_of_take in Hb as (i & Hb & _);
    apply list_elem_of_lookup_2, list_elem_of_filter in Hb as [_ Hb%elem_of_seqZ]; lia.
  fold R in Hrun', Hc'.
  replace (Z.to_nat (max - zlen (idx ++ _))) with (m - length W)%nat in Hrun', Hc'.
  2: rewrite zlen_app, zlen_fmap_take; lia.
  exists s'. split; [|by eapply cleared_app]. rewrite Hrun', fmap_app, <- app_assoc.
  unfold a. by rewrite out_word.
Qed.

Lemma FFS_and_zap_word_ok s :
  words_ok s → 0 ≤ g → 8 * g + 8 ≤ zlen s → 0 < max →
  let l := take (Z.to_nat max) (ones s (512 * g) 512) in
  ∃ s', FFS_and_zap_word (8 * g) max add s = Ok (out <$> l, s') ∧ cleared s l s'.
Proof.
  intros Hok Hg Hin Hmax. unfold FFS_and_zap_word. change (Z.to_nat NUM_64b) with 8%nat.
  destruct (FFS_and_zap_word_from_ok 8 0 [] s) as (s' & Hrun & Hc); [done|lia|lia|lia|done|].
  replace (64 * (8 * g + 0)) with (512 * g) in * by lia. change (zlen (@nil Z)) with 0 in *.
  rewrite Z.sub_0_r in *. eauto.
Qed.

End zap_group.

(** ** The whole array *)

Section round.
Context (log_size : Z) (s : words_t) (Hwf : wf log_size s) (Hlog : 9 < log_size).
Context (k : nat) (Ed : depth log_size = S k) (b : Z) (Hb : lowest s k b).

Local Abbreviation D := (512 * gb (S k)).
Local Abbreviation G := (gb (S k) + b).

(** The members of the group found, and those after it. *)
Lemma members_group :
  512 * b < 2 ^ log_size ∧ ones s (512 * G) 512 ≠ [] ∧
  ∃ rest, members log_size s = (Z.add (- D) <$> ones s (512 * G) 512) ++ rest.
Proof using Hwf Hlog Ed Hb.
  destruct (descend_ok _ _ Hwf k b ltac:(lia) Hb) as (f & _ & _ & Hf & Hlow).
  pose proof Hlow as Hlow'. rewrite <- Ed in Hlow'.
  destruct (lowest_members _ _ Hwf _ Hlow') as (_ & _ & Hlt). destruct Hlow as (Hpos & _ & Hbit & Hclr).
  assert (0 ≤ b) by apply Hb.
  pose proof (pow2_512 log_size ltac:(unfold NB; lia)) as E512.
  replace D with (D + 0) in Hclr by lia. split; [lia|]. split.
  { intros E. rewrite (ones_nil_inv _ _ _ (D + (512 * b + (f - 1))) E) in Hbit; [done|lia]. }
  eexists. rewrite members_ones, Ed.
  transitivity (Z.add (- D) <$> ones s D (512 * b + (512 + (2 ^ log_size - 512 * b - 512))));
    [by do 2 f_equal; lia|].
  rewrite !ones_app by lia. rewrite (ones_nil s D (512 * b)) by (intros r Hr; apply Hclr; lia).
  rewrite app_nil_l, fmap_app. f_equal. do 2 f_equal. lia.
Qed.

Lemma large_facts_group : large_facts log_size s (512 * b) k G.
Proof using Hwf Hlog Ed Hb.
  destruct members_group as (Hlt & _ & _). assert (0 ≤ b) by apply Hb.
  destruct (large_facts_intro log_size s (512 * b) Hwf Hlog ltac:(lia)) as (k' & G' & LF).
  assert (k' = k) as -> by (pose proof (lf_depth _ _ _ _ _ LF); congruence).
  assert (G' = G) as ->; [|done].
  rewrite <- (lf_group _ _ _ _ _ LF). clear. Z.to_euclidean_division_equations. lia.
Qed.

(** Clearing a prefix [l] of the group and then, if nothing is left in it, its
    summary bits takes [l] off the members. *)
Lemma round_cleared l n s1 :
  l = take n (ones s (512 * G) 512) → (0 < n)%nat → cleared s l s1 →
  ∃ s', (if group_zero s1 G then ZAP_SUMMARIES b (Z.of_nat k) s1 = Ok (tt, s') else s' = s1) ∧
        wf log_size s' ∧ members log_size s' = drop (length l) (members log_size s) ∧
        Z.add (- D) <$> l = take (length l) (members log_size s).
Proof using Hwf Hlog Ed Hb.
  intros El Hn Hc. pose proof large_facts_group as LF.
  destruct members_group as (Hlt & Hne & rest & Em). assert (0 ≤ b) by apply Hb.
  assert (∀ q, q ∈ l → 512 * G ≤ q < 512 * G + 512 ∧ abit s q = true) as Hl.
  { intros q Hq. subst l. apply elem_of_take in Hq as (i & Hq & _).
    by apply list_elem_of_lookup_2, elem_of_ones in Hq. }
  assert (∀ Q, Q < 512 * G ∨ 512 * G + 512 ≤ Q → abit s1 Q = abit s Q) as Hout.
  { intros Q HQ. rewrite (cl_bits _ _ _ Hc), bool_decide_false, andb_true_r; [done|].
    intros Hin%Hl. lia. }
  assert (G - 1 < D) as Hpar by (rewrite (lf_parent _ _ _ _ _ LF); apply LF). pose proof (lf_G _ _ _ _ _ LF) as HG.
  pose proof (wf_words _ _ Hwf) as Hok. pose proof (gb_nonneg (S k)).
  assert (sums_but s1 D (G - 1)) as Hs1.
  { intros Q HQ HQG. unfold summarises. rewrite Hout by lia.
    rewrite (group_zero_ext s s1); [|done|apply Hc|intros p Hp; apply Hout; lia].
    apply (wf_sums _ _ Hwf); rewrite ?Ed; lia. }
  destruct (zap_summaries_ok _ _ _ _ _ Hwf LF s1) as (s' & Hrun & Hok' & Hlen' & Hs' & Hfr).
  { apply Hc. } { apply Hc. } { done. }
  { intros _. destruct (group_zero s G) eqn:E; [|done]. by apply group_zero_ones in E. }
  { apply Hout. lia. }
  replace ((512 * b) `div` 512) with b in Hrun by (rewrite Z.mul_comm, Z.div_mul; lia).
  assert (∀ i, 0 ≤ i → bit_at log_size s' i = bit_at log_size s i && negb (bool_decide (D + i ∈ l))) as Hbits.
  { intros i Hi. unfold bit_at. rewrite Ed, Hfr by lia. apply (cl_bits _ _ _ Hc). }
  assert (Z.add (- D) <$> l = take (length l) (members log_size s)) as Et.
  { rewrite Em, El, fmap_take, length_take, take_app_le by (rewrite length_fmap; lia).
    by rewrite <- firstn_firstn, (take_ge _ (length _)) by (rewrite length_fmap; done). }
  exists s'. split; [done|]. split_and!; [|apply filter_drop; [apply NoDup_seqZ|]|done].
  - split; [apply Hwf|rewrite Hlen'; apply Hwf|done|by rewrite Ed|].
    intros i Hi. rewrite Hbits by (pose proof (pow2_31 log_size (wf_log _ _ Hwf)); lia).
    by rewrite (wf_pad _ _ Hwf).
  - intros i Hi%elem_of_seqZ. fold (members log_size s). rewrite <- Et, Hbits by lia.
    rewrite andb_true_iff, negb_true_iff, bool_decide_eq_false, list_elem_of_fmap.
    apply and_iff_compat_l. apply not_iff_compat. split.
    + intros Hin. exists (D + i). split; [lia|done].
    + intros (q & -> & Hq). by replace (D + (- D + q)) with q by lia.
Qed.

Lemma round_length l n :
  l = take n (ones s (512 * G) 512) → (0 < n)%nat → 1 ≤ Z.of_nat (length l) ≤ Z.of_nat n.
Proof using Hwf Hlog Ed Hb.
  intros -> Hn. destruct members_group as (_ & Hne & _).
  rewrite length_take. destruct (ones s (512 * G) 512); [done|]. simpl. lia.
Qed.

(** The test before the summaries are cleared tells whether the group is now
    empty: it is when fewer than the allowed bits were found. *)
Lemma round_adjust l n s1 zapped max :
  l = take n (ones s (512 * G) 512) → zapped - Z.of_nat (length l) + Z.of_nat n = max →
  cleared s l s1 →
  (if zapped <? max then mret true else all_zeros (8 * G)) s1 = Ok (group_zero s1 G, s1).
Proof using Hwf Hlog Ed Hb.
  intros El Hmax Hc. pose proof large_facts_group as LF. destruct (Z.ltb_spec zapped max).
  - rewrite ret_eq. do 2 f_equal. symmetry. apply group_zero_ones; [apply Hc|].
    apply ones_nil. intros p Hp. rewrite (cl_bits _ _ _ Hc).
    destruct (abit s p) eqn:Ep; [|done]. rewrite bool_decide_true; [done|].
    subst l. rewrite length_take in *. rewrite take_ge by lia. by apply elem_of_ones.
  - apply all_zeros_ok; [apply LF|]. rewrite (cl_len _ _ _ Hc). apply LF.
Qed.

End round.

Lemma out_small log_size s k b l n :
  wf log_size s → depth log_size = S k → 0 ≤ b →
  l = take n (ones s (512 * (gb (S k) + b)) 512) →
  (λ q, u32 (q - 512 * (gb (S k) + b) + u32 (Z.shiftl b NB))) <$> l
  = Z.add (- (512 * gb (S k))) <$> l.
Proof.
  intros Hwf Ed Hb ->. destruct (wf_block _ _ Hwf) as (m & Em & _ & Hm).
  pose proof (gb_nonneg (S k)). apply list_fmap_ext. intros i q Hq.
  assert (q ∈ take n (ones s (512 * (gb (S k) + b)) 512)) as Hin by (by eapply list_elem_of_lookup_2).
  apply elem_of_take in Hin as (j & Hj & _). apply list_elem_of_lookup_2, elem_of_ones in Hj as [Hr Hbit].
  apply abit_in in Hbit. rewrite Z.shiftl_mul_pow2 by done. change (2 ^ NB) with 512.
  rewrite (wrapu_small 32 (b * 512)) by lia. rewrite wrapu_small by lia. lia.
Qed.

Lemma take_zero {A} (l : list A) : take 0 l = [].
Proof. done. Qed.

Lemma zap_multiple_loop_ok fuel log_size max idx s :
  wf log_size s → 9 < log_size → zlen idx ≤ max → max - zlen idx < Z.of_nat fuel →
  let n := Z.to_nat (max - zlen idx) in
  ∃ s', zap_multiple_loop fuel (Z.of_nat (depth log_size)) max idx s =
          Ok (idx ++ take n (members log_size s), s') ∧
        wf log_size s' ∧ members log_size s' = drop n (members log_size s).
Proof.
  revert idx s. induction fuel as [|fuel IH]; intros idx s Hwf Hlog Hmax Hfuel n; [lia|].
  cbn [zap_multiple_loop]. destruct (Z.ltb_spec (zlen idx) max) as [Hlt|Hge]; cbn [negb].
  2:{ assert (n = 0%nat) as -> by lia. exists s. by rewrite take_zero, app_nil_r. }
  mstep (FFS_root _ _ Hwf).
  destruct (ones s 0 512) as [|q l0] eqn:Eo; cbn [first_of].
  { exists s. rewrite (members_none _ _ Hwf Eo), take_nil, drop_nil, app_nil_r. done. }
  pose proof (root_lowest _ _ _ Eo) as H0. destruct (Z.eqb_spec (q - 0 + 1) 0); [unfold lowest in *; lia|].
  replace (q - 0 + 1 - 1) with q by lia. pose proof (wf_log _ _ Hwf).
  destruct (level_last log_size ltac:(lia)) as (_ & _ & k & Ed & Hk & _). rewrite Ed.
  destruct (ACROSS_ok _ _ Hwf k q Ed Hk H0) as (b & Eb & Hb). mstep Eb. cbv zeta.
  rewrite last_level_words. pose proof (large_facts_group _ _ Hwf Hlog k Ed b Hb) as LF.
  pose proof (lf_addr _ _ _ _ _ LF) as Ea. rewrite shiftr9_div in Ea.
  replace ((512 * b) `div` 512) with b in Ea by (rewrite Z.mul_comm, Z.div_mul; lia). rewrite Ea.
  set (G := gb (S k) + b) in *.
  destruct (FFS_and_zap_word_ok G (max - zlen idx) (u32 (Z.shiftl b NB)) s) as (s1 & Hz & Hc);
    [apply Hwf|apply LF|apply LF|lia|]. fold n in Hz, Hc. mstep Hz.
  set (l := take n (ones s (512 * G) 512)) in *.
  pose proof (out_small log_size s k b l n Hwf Ed (proj1 Hb) eq_refl) as Eout.
  fold G in Eout. rewrite Eout. clear Eout.
  destruct (round_cleared _ _ Hwf Hlog k Ed b Hb l n s1) as (s2 & Hsum & Hwf2 & Em2 & Et);
    [done|lia|done|]. fold G in Hsum. rewrite Et.
  assert (zlen (idx ++ take (length l) (members log_size s)) = zlen idx + Z.of_nat (length l)) as El.
  { rewrite <- Et, zlen_app. f_equal. unfold zlen. by rewrite length_fmap. }
  rewrite El.
  assert (1 ≤ Z.of_nat (length l) ≤ max - zlen idx) as Hll.
  { pose proof (round_length _ _ Hwf Hlog k Ed b Hb l n eq_refl ltac:(lia)). lia. }
  pose proof (round_adjust _ _ Hwf Hlog k Ed b Hb l n s1 (zlen idx + Z.of_nat (length l)) max
    eq_refl ltac:(lia) Hc) as Hadj. fold G in Hadj.
  mstep Hadj. replace (Z.of_nat (S k) - 1) with (Z.of_nat k) by lia.
  assert ((if group_zero s1 G then ZAP_SUMMARIES b (Z.of_nat k) else mret tt) s1 = Ok (tt, s2)) as Hs2.
  { destruct (group_zero s1 G); [done|by subst s2]. }
  mstep Hs2. rewrite <- Ed.
  destruct (IH (idx ++ take (length l) (members log_size s)) s2) as (s' & Hrun & Hwf' & Em');
    [done|done|rewrite El; lia..|].
  rewrite El in Hrun, Em'. exists s'. split; [|split; [done|]].
  - rewrite Hrun, Em2, <- app_assoc. do 3 f_equal. rewrite take_take_drop. f_equal. lia.
  - rewrite Em', Em2, drop_drop. f_equal. lia.
Qed.

Lemma zap_multiple_small log_size max s :
  wf log_size s → log_size <= 9 → 0 < max →
  ∃ s', FFS_and_zap_word 0 max 0 s = Ok (take (Z.to_nat max) (members log_size s), s') ∧
        wf log_size s' ∧ members log_size s' = drop (Z.to_nat max) (members log_size s).
Proof.
  intros Hwf Hlog Hmax. destruct (wf_block _ _ Hwf) as (m & Em & Hm & _).
  pose proof (gb_nonneg (depth log_size)). pose proof (members_small _ _ Hwf Hlog) as Es.
  assert (depth log_size = O) as Ed.
  { unfold depth, NB. destruct (Z.leb_spec log_size 9); [done|lia]. }
  destruct (FFS_and_zap_word_ok 0 max 0 s) as (s' & Hrun & Hc); [apply Hwf|lia|lia|done|].
  change (8 * 0) with 0 in Hrun. change (512 * 0) with 0 in *. rewrite <- Es in Hrun, Hc.
  assert (∀ i, bit_at log_size s' i =
    bit_at log_size s i && negb (bool_decide (i ∈ take (Z.to_nat max) (members log_size s)))) as Hbits.
  { intros i. unfold bit_at. rewrite Ed. cbn [gb]. apply (cl_bits _ _ _ Hc). }
  exists s'. split_and!.
  - rewrite Hrun. do 2 f_equal. rewrite <- (list_fmap_id (take _ _)) at 2.
    apply list_fmap_ext. intros j i Hi. simpl.
    apply list_elem_of_lookup_2, elem_of_take in Hi as (j' & Hi & _).
    apply list_elem_of_lookup_2 in Hi. rewrite Es in Hi. apply elem_of_ones in Hi as [Hi _].
    rewrite wrapu_small; [lia|]. change (2 ^ 32) with 4294967296. lia.
  - split; [apply Hwf|rewrite (cl_len _ _ _ Hc); apply Hwf|apply Hc| |].
    + intros Q HQ. rewrite Ed in HQ. cbn [gb] in HQ. lia.
    + intros i Hi. by rewrite Hbits, (wf_pad _ _ Hwf).
  - apply filter_drop; [apply NoDup_seqZ|]. intros i _. fold (members log_size s).
    by rewrite Hbits, andb_true_iff, negb_true_iff, bool_decide_eq_false.
Qed.

Lemma zap_multiple_ok log_size max s :
  wf log_size s → 0 < max < 2 ^ 32 →
  ∃ s', bitarray_zap_first_set_multiple log_size max s =
          Ok (take (Z.to_nat max) (members log_size s), s') ∧
        wf log_size s' ∧ members log_size s' = drop (Z.to_nat max) (members log_size s).
Proof.
  intros Hwf Hmax. pose proof (wf_log _ _ Hwf) as Hlog.
  unfold bitarray_zap_first_set_multiple. destruct (log_size <=? NB) eqn:El.
  - apply Z.leb_le in El. apply zap_multiple_small; [done|done|lia].
  - apply le_NB in El. destruct (level_last log_size ltac:(lia)) as (-> & _).
    destruct (zap_multiple_loop_ok (S (Z.to_nat max)) log_size max [] s) as (s' & Hrun & Hs');
      change (zlen (@nil Z)) with 0 in *; [done|done|lia|lia|].
    rewrite Z.sub_0_r in *. eauto.
Qed.

(** C17. For [0 < max], [bitarray_zap_first_set_multiple] stores the first [max] members in
    increasing order (all of them when there are fewer), returns their
    number, clears exactly those bits and leaves every summary bit right. *)
Theorem bitarray_zap_first_set_multiple_correct log_size max s :
  wf log_size s → 0 < max < 2 ^ 32 →
  ∃ s', bitarray_zap_first_set_multiple log_size max s =
          Ok (take (Z.to_nat max) (members log_size s), s') ∧
        wf log_size s' ∧ members log_size s' = drop (Z.to_nat max) (members log_size s).
Proof. apply zap_multiple_ok. Qed.
