(* ===== verification/BitArrayEquiv.v ===== *)
(** * Bit arrays: creation, canonical blocks and the one-at-a-time loop

    A well-formed block is determined by its members, so two routines that
    leave the same members leave the same memory.  With it the batched
    [bitarray_zap_first_set_multiple] is equal to the loop the comment in its
    body gives as its meaning, and a witness for each theorem runs on a
    freshly created array. *)

From S2P Require Import Prelude BitArray BitArrayInv BitArraySpec BitArrayCorrect.
From S2P Require Import BitArrayMultiple BitArrayCorrect.

(** ** Creation *)

Lemma word_replicate n a : word (replicate n 0) a = 0.
Proof.
  unfold word. destruct (a <? 0); [done|].
  destruct (replicate n 0 !! Z.to_nat a) as [x|] eqn:E; [|done].
  by apply lookup_replicate in E as [-> _].
Qed.

Lemma wf_zeros log_size n :
  0 ≤ log_size ≤ 31 → Z.of_nat n = 8 * (gb (depth log_size) + data_groups log_size) →
  wf log_size (replicate n 0) ∧ members log_size (replicate n 0) = [].
Proof.
  intros Hlog Hn.
  assert (∀ p, abit (replicate n 0) p = false) as Hz.
  { intros p. unfold abit. rewrite word_replicate. apply Z.testbit_0_l. }
  split; [split|]; try done.
  - by rewrite zlen_replicate.
  - intros a. rewrite word_replicate. lia.
  - intros Q HQ _. unfold summarises. rewrite Hz. symmetry. apply negb_false_iff.
    apply group_zero_abit; [|auto]. intros a. rewrite word_replicate. lia.
  - intros i _. apply Hz.
  - apply filter_nil. intros i _. unfold bit_at. by rewrite Hz.
Qed.

Lemma bitarray_size_ok log_size :
  0 ≤ log_size ≤ 31 →
  bitarray_size log_size = Some (64 * (gb (depth log_size) + data_groups log_size)).
Proof.
  intros Hl. unfold bitarray_size. destruct (Z.ltb_spec NB log_size) as [H|H]; unfold NB in H.
  - assert (9 < log_size ≤ 31) as Hl' by lia.
    destruct (level_last _ Hl') as (_ & _ & k & Ed & Hk & ->).
    rewrite data_groups_large, Ed by done.
    assert (levels_num_words (Z.of_nat k) = Some (8 * gb (S k))) as ->.
    { destruct k as [|[|[|k]]]; [done..|lia]. }
    assert (2 ^ (log_size - 6) = 8 * 2 ^ (log_size - NB)) as ->.
    { change 8 with (2 ^ 3). rewrite <- Z.pow_add_r by (unfold NB; lia). f_equal. unfold NB. lia. }
    pose proof (gb_nonneg (S k)). pose proof (gb_bound (S k) ltac:(lia)).
    assert (0 < 2 ^ (log_size - NB) ≤ 2 ^ 22).
    { split; [apply Z.pow_pos_nonneg|apply Z.pow_le_mono_r]; unfold NB; lia. }
    change (2 ^ 22) with 4194304 in *. cbn [mbind option_bind]. f_equal.
    rewrite wrapu_small; [lia|]. change (2 ^ 32) with 4294967296. lia.
  - unfold depth, data_groups, NB. destruct (Z.leb_spec log_size 9); [done|lia].
Qed.

(** [bitarray_create] gives an array with no bit set and right summaries for
    every size up to [2 ^ 31] bits, or NULL when there is no memory for it. *)
Theorem bitarray_create_correct oom log_size :
  0 ≤ log_size ≤ 31 →
  match bitarray_create oom log_size with
  | Some s => oom = false ∧ wf log_size s ∧ members log_size s = []
  | None => oom = true
  end.
Proof.
  intros Hl. unfold bitarray_create. rewrite bitarray_size_ok by done. simpl.
  unfold calloc. destruct oom; [done|]. split; [done|].
  apply wf_zeros; [done|]. rewrite Z.mul_comm. change 64 with (8 * 8). rewrite Z.mul_assoc, Z.div_mul by done.
  pose proof (gb_nonneg (depth log_size)).
  assert (0 ≤ data_groups log_size).
  { unfold data_groups. destruct (_ <=? _); [done|]. apply Z.pow_nonneg. lia. }
  lia.
Qed.

(** ** Canonical blocks *)

Section canonical.
Context (log_size : Z) (s1 s2 : words_t) (Hwf1 : wf log_size s1) (Hwf2 : wf log_size s2).
Context (Hmem : members log_size s1 = members log_size s2).

Lemma same_data i : 0 ≤ i → bit_at log_size s1 i = bit_at log_size s2 i.
Proof using Hwf1 Hwf2 Hmem.
  intros Hi. apply eq_true_iff_eq.
  pose proof (elem_of_members _ _ i Hwf1). pose proof (elem_of_members _ _ i Hwf2).
  rewrite Hmem in *. naive_solver.
Qed.

Lemma same_bits_from n Q :
  512 * gb (depth log_size) - Z.of_nat n ≤ Q → 0 ≤ Q → abit s1 Q = abit s2 Q.
Proof using Hwf1 Hwf2 Hmem.
  revert Q. induction n as [n IH] using lt_wf_ind. intros Q HQ H0.
  destruct (Z.leb_spec (512 * gb (depth log_size)) Q).
  - pose proof (same_data (Q - 512 * gb (depth log_size)) ltac:(lia)) as E.
    unfold bit_at in E. by replace (512 * _ + _) with Q in E by lia.
  - rewrite (wf_sums _ _ Hwf1), (wf_sums _ _ Hwf2) by lia. f_equal.
    apply group_zero_ext; [apply Hwf2|apply Hwf1|]. intros p Hp.
    apply (IH (n - 1)%nat); lia.
Qed.

Lemma same_block : s1 = s2.
Proof using Hwf1 Hwf2 Hmem.
  assert (zlen s1 = zlen s2) as El by (rewrite (wf_len _ _ Hwf1), (wf_len _ _ Hwf2); done).
  assert (∀ a, word s1 a = word s2 a) as Hw.
  { intros a. destruct (Z.ltb_spec a 0); [by rewrite !word_out by lia|].
    apply Z.bits_inj'. intros c Hc. destruct (Z.ltb_spec c 64).
    - rewrite !testbit_abit by lia.
      apply (same_bits_from (Z.to_nat (512 * gb (depth log_size)))); lia.
    - by rewrite !testbit_high by (done || apply Hwf1 || apply Hwf2). }
  apply list_eq_same_length with (length s2); [done|unfold zlen in El; lia|].
  intros i x y Hi Hx Hy.
  specialize (Hw (Z.of_nat i)). rewrite (word_in _ _ x), (word_in _ _ y) in Hw; rewrite ?Nat2Z.id; done || lia.
Qed.

End canonical.

(** ** The loop the batched routine stands for *)

(** bitarray.c, in the body of [bitarray_zap_first_set_multiple]: "the lines in
    loop could be written just as: if (! bitarray_zap_first_set(bits,
    log_size, indices + zapped)) break; zapped++;". *)
Fixpoint zap_one_by_one (n : nat) (log_size : Z) (indices : list Z) : M words_t (list Z) :=
  match n with
  | O => mret indices
  | S n =>
      r ← bitarray_zap_first_set log_size;
      match r with
      | None => mret indices
      | Some i => zap_one_by_one n log_size (indices ++ [i])
      end
  end.

Lemma zap_one_by_one_ok n log_size idx s :
  wf log_size s → 1 ≤ log_size →
  ∃ s', zap_one_by_one n log_size idx s = Ok (idx ++ take n (members log_size s), s') ∧
        wf log_size s' ∧ members log_size s' = drop n (members log_size s).
Proof.
  revert idx s. induction n as [|n IH]; intros idx s Hwf Hl; cbn [zap_one_by_one].
  { exists s. by rewrite take_zero, app_nil_r. }
  destruct (zap_first_set_ok _ _ Hwf Hl) as (s1 & E & Hwf1 & Em1). mstep E.
  destruct (members log_size s) as [|i l]; cbn [head tail] in *.
  { exists s1. by rewrite Em1, app_nil_r. }
  destruct (IH (idx ++ [i]) s1 Hwf1 Hl) as (s' & E' & Hwf' & Em').
  exists s'. rewrite E', Em1, <- app_assoc. rewrite Em', Em1. done.
Qed.

(** C22. For [1 ≤ log_size] and [0 < max] the batched routine is the loop its comment
    describes: the same indices in the same order, the same count, and the same memory
    afterwards.  Outside these conditions they differ, see the end of the file. *)
Theorem zap_first_set_multiple_is_loop log_size max s :
  wf log_size s → 1 ≤ log_size → 0 < max < 2 ^ 32 →
  bitarray_zap_first_set_multiple log_size max s = zap_one_by_one (Z.to_nat max) log_size [] s.
Proof.
  intros Hwf Hl Hmax.
  destruct (zap_multiple_ok _ _ _ Hwf Hmax) as (s1 & -> & Hwf1 & Em1).
  destruct (zap_one_by_one_ok (Z.to_nat max) _ [] _ Hwf Hl) as (s2 & -> & Hwf2 & Em2).
  do 2 f_equal. apply (same_block log_size); [done..|congruence].
Qed.

(** ** Witnesses *)

(** An array of 1024 bits with bits 700 and 5 set. *)
Definition demo_run : M words_t bool := bitarray_set 10 700;; bitarray_set 10 5.
Definition demo : words_t :=
  match demo_run (replicate 24 0) with Ok (_, s) => s | Crash _ => [] end.

Lemma demo_wf : wf 10 demo.
Proof.
  destruct (wf_zeros 10 24) as [H0 _]; [lia|reflexivity|].
  destruct (bitarray_set_ok 10 _ 700 H0 ltac:(lia)) as (s1 & E1 & H1 & _).
  destruct (bitarray_set_ok 10 _ 5 H1 ltac:(lia)) as (s2 & E2 & H2 & _).
  unfold demo, demo_run. mstep E1. by rewrite E2.
Qed.

Lemma demo_members : members 10 demo = [5; 700].
Proof. vm_compute. reflexivity. Qed.

Lemma bitarray_create_witness :
  match bitarray_create false 20 with
  | Some s => false = false ∧ wf 20 s ∧ members 20 s = []
  | None => false = true
  end.
Proof. apply (bitarray_create_correct false 20). lia. Defined.

Lemma bitarray_get_witness :
  bitarray_get 10 700 demo = Ok (true, demo) ∧ bitarray_get 10 6 demo = Ok (false, demo).
Proof.
  split.
  - rewrite (bitarray_get_correct 10 demo 700 demo_wf ltac:(lia)). vm_compute. reflexivity.
  - vm_compute. reflexivity.
Defined.

Lemma bitarray_set_witness :
  ∃ s', bitarray_set 10 6 demo = Ok (true, s') ∧ wf 10 s'.
Proof.
  destruct (bitarray_set_correct 10 demo 6 demo_wf ltac:(lia)) as (s' & E & H & _).
  exists s'. split; [exact E|exact H].
Defined.

Lemma bitarray_zap_witness :
  ∃ s', bitarray_zap 10 5 demo = Ok (true, s') ∧ wf 10 s'.
Proof.
  destruct (bitarray_zap_correct 10 demo 5 demo_wf ltac:(lia)) as (s' & E & H & _).
  exists s'. split; [exact E|exact H].
Defined.

Lemma bitarray_first_set_witness : bitarray_first_set 10 demo = Ok (6, demo).
Proof. rewrite (bitarray_first_set_correct 10 demo demo_wf), demo_members. reflexivity. Defined.

Lemma bitarray_zap_first_set_witness :
  ∃ s', bitarray_zap_first_set 10 demo = Ok (Some 5, s') ∧ members 10 s' = [700].
Proof.
  destruct (bitarray_zap_first_set_correct 10 demo demo_wf ltac:(lia)) as (s' & E & _ & Em).
  rewrite demo_members in E, Em. exists s'. split; [exact E|exact Em].
Defined.

Lemma bitarray_zap_first_set_multiple_witness :
  ∃ s', bitarray_zap_first_set_multiple 10 1 demo = Ok ([5], s') ∧ members 10 s' = [700].
Proof.
  destruct (bitarray_zap_first_set_multiple_correct 10 1 demo demo_wf ltac:(lia)) as (s' & E & _ & Em).
  rewrite demo_members in E, Em. exists s'. split; [exact E|exact Em].
Defined.

Lemma zap_first_set_multiple_is_loop_witness :
  bitarray_zap_first_set_multiple 10 3 demo = zap_one_by_one 3 10 [] demo.
Proof. apply (zap_first_set_multiple_is_loop 10 3 demo demo_wf); lia. Defined.

(** ** Two boundary cases outside the contracts above *)

(** A [max] of 0 is honoured only for arrays with summaries: up to 512 bits the
    test comes after the first index has been stored and its bit cleared. *)
Lemma zap_multiple_max_zero :
  bitarray_zap_first_set_multiple 9 0 [4; 0; 0; 0; 0; 0; 0; 0]
    = Ok ([2], [0; 0; 0; 0; 0; 0; 0; 0]) ∧
  bitarray_zap_first_set_multiple 10 0 demo = Ok ([], demo).
Proof. split; vm_compute; reflexivity. Qed.

(** With [log_size] 0, [log_size - 1] wraps and the routine aborts as soon as
    the only bit is set. *)
Lemma zap_first_set_one_bit_aborts :
  wf 0 [1; 0; 0; 0; 0; 0; 0; 0] ∧
  bitarray_zap_first_set 0 [1; 0; 0; 0; 0; 0; 0; 0] = Crash ASSERT_FAILED.
Proof.
  split; [|vm_compute; reflexivity].
  destruct (wf_zeros 0 8) as [H0 _]; [lia|reflexivity|].
  destruct (bitarray_set_ok 0 _ 0 H0 ltac:(lia)) as (s & E & H & _).
  vm_compute in E. by simplify_eq.
Qed.
