(* ===== verification/Lockf.v ===== *)
(** * Advisory byte-range locks: definitions

    Model of src/xnu-792/bsd/kern/kern_lockf.c (with sys/lockf.h), for the lock
    list of one vnode.  The state is the kernel heap of [struct lockf]
    structures, the list head [v_lockf] of the vnode and the [wakeup()] calls
    made so far.  A [struct lockf *] is an optional address, a
    [struct lockf **] (the code's [prev]) an l-value; [lf_next] is, as in the
    code, the list link of a granted lock and the blocking lock of a sleeping
    one.  An access through a pointer to no live structure is [BAD_ACCESS].
    The functions run under the vnode's mutex; [msleep] releases it, so a
    request that has to wait stops there ([Msleep]) and is resumed by
    [lf_setlock_resume] with the value [msleep] returns.  Off_t arithmetic is
    wrapped at 64 bits. *)

From S2P Require Import Prelude.

Module Lockf.

Abbreviation addr := positive.

Definition F_RDLCK : Z := 1.
Definition F_UNLCK : Z := 2.
Definition F_WRLCK : Z := 3.
Definition F_WAIT : Z := 16.
Definition F_FLOCK : Z := 32.
Definition F_POSIX : Z := 64.
Definition F_GETLK : Z := 7.
Definition F_SETLK : Z := 8.
Definition SEEK_SET : Z := 0.
Definition SEEK_CUR : Z := 1.
Definition SEEK_END : Z := 2.
Definition EINVAL : Z := 22.
Definition EAGAIN : Z := 35.
Definition EOVERFLOW : Z := 84.
Definition SELF : Z := 1.
Definition OTHERS : Z := 2.
Definition OFF_MAX : Z := 2 ^ 63 - 1.

(** [struct lockf].  [lf_head] and [lf_vnode] are the one vnode of the state;
    [lf_blkhd] lists the requests linked through [lf_block], in order. *)
Record lockf := LF {
  lf_flags : Z;
  lf_type : Z;
  lf_start : Z;
  lf_end : Z;
  lf_id : Z;
  lf_next : option addr;
  lf_blkhd : list addr;
}.

Definition set_type (t : Z) (x : lockf) :=
  LF (lf_flags x) t (lf_start x) (lf_end x) (lf_id x) (lf_next x) (lf_blkhd x).
Definition set_start (s : Z) (x : lockf) :=
  LF (lf_flags x) (lf_type x) s (lf_end x) (lf_id x) (lf_next x) (lf_blkhd x).
Definition set_end (e : Z) (x : lockf) :=
  LF (lf_flags x) (lf_type x) (lf_start x) e (lf_id x) (lf_next x) (lf_blkhd x).
Definition set_next (n : option addr) (x : lockf) :=
  LF (lf_flags x) (lf_type x) (lf_start x) (lf_end x) (lf_id x) n (lf_blkhd x).
Definition set_blkhd (b : list addr) (x : lockf) :=
  LF (lf_flags x) (lf_type x) (lf_start x) (lf_end x) (lf_id x) (lf_next x) b.

Record vstate := VS {
  heap : gmap addr lockf;
  v_lockf : option addr;
  wakeups : list addr;
}.

Abbreviation K := (M vstate).

(** ** Memory *)

Definition get (a : addr) : K lockf := λ s,
  match heap s !! a with Some x => Ok (x, s) | None => Crash BAD_ACCESS end.

Definition upd (a : addr) (f : lockf → lockf) : K unit := λ s,
  match heap s !! a with
  | Some x => Ok (tt, VS (<[a := f x]> (heap s)) (v_lockf s) (wakeups s))
  | None => Crash BAD_ACCESS
  end.

Definition MALLOC (x : lockf) : K addr := λ s,
  let a := fresh (dom (heap s)) in
  Ok (a, VS (<[a := x]> (heap s)) (v_lockf s) (wakeups s)).

Definition FREE (a : addr) : K unit := λ s,
  match heap s !! a with
  | Some _ => Ok (tt, VS (delete a (heap s)) (v_lockf s) (wakeups s))
  | None => Crash BAD_FREE
  end.

Definition wakeup (a : addr) : K unit := λ s,
  Ok (tt, VS (heap s) (v_lockf s) (wakeups s ++ [a])).

(** A [struct lockf **]: the head of the vnode's list or a [lf_next] field. *)
Inductive lval := Head | Next_of (a : addr).

Definition assign (p : lval) (v : option addr) : K unit :=
  match p with
  | Head => λ s, Ok (tt, VS (heap s) v (wakeups s))
  | Next_of a => upd a (set_next v)
  end.

(** The tail queue of blocked requests. *)
Definition TAILQ_INSERT_TAIL (h elm : addr) : K unit :=
  upd h (λ x, set_blkhd (lf_blkhd x ++ [elm]) x).

Definition TAILQ_REMOVE (h elm : addr) : K unit :=
  x ← get h;
  if bool_decide (elm ∈ lf_blkhd x)
  then upd h (set_blkhd (filter (λ w, w ≠ elm) (lf_blkhd x)))
  else crash BAD_ACCESS.

(** The bound of a walk along the list: no list is longer than the heap. *)
Definition list_fuel : K nat := gets (λ s, S (size (heap s))).

(** ** lf_findoverlap *)

(** The classification of one lock [x] of the right owner against
    [start..end]: [None] where the code goes on to the next lock. *)
Definition ovcase (type start end_ : Z) (x : lockf) : outcome (option Z) :=
  if (negb (lf_end x =? -1) && (start >? lf_end x)) || (negb (end_ =? -1) && (lf_start x >? end_)) then
    if negb (Z.land type SELF =? 0) && negb (end_ =? -1) && (lf_start x >? end_)
    then Ok (Some 0) else Ok None
  else if (lf_start x =? start) && (lf_end x =? end_) then Ok (Some 1)
  else if (lf_start x <=? start) && negb (end_ =? -1) && ((lf_end x >=? end_) || (lf_end x =? -1))
  then Ok (Some 2)
  else if (start <=? lf_start x) && ((end_ =? -1) || (negb (lf_end x =? -1) && (end_ >=? lf_end x)))
  then Ok (Some 3)
  else if (lf_start x <? start) && ((lf_end x >=? start) || (lf_end x =? -1)) then Ok (Some 4)
  else if (lf_start x >? start) && negb (end_ =? -1) && ((lf_end x >? end_) || (lf_end x =? -1))
  then Ok (Some 5)
  else Crash ASSERT_FAILED.

Definition skip_owner (type : Z) (lock x : lockf) : bool :=
  (negb (Z.land type SELF =? 0) && negb (lf_id x =? lf_id lock)) ||
  (negb (Z.land type OTHERS =? 0) && (lf_id x =? lf_id lock)).

(** Returns the case with the final values of [*prev] and [*overlap]. *)
Fixpoint findoverlap_loop (fuel : nat) (lf : option addr) (lock : lockf) (type : Z)
    (prev : lval) : K (Z * lval * option addr) :=
  match lf with
  | None => mret (0, prev, None)
  | Some a =>
      match fuel with
      | O => crash OUT_OF_FUEL
      | S fuel =>
          x ← get a;
          if skip_owner type lock x
          then findoverlap_loop fuel (lf_next x) lock type (Next_of a)
          else match ovcase type (lf_start lock) (lf_end lock) x with
               | Ok None => findoverlap_loop fuel (lf_next x) lock type (Next_of a)
               | Ok (Some c) => mret (c, prev, Some a)
               | Crash r => crash r
               end
      end
  end.

Definition lf_findoverlap (lf : option addr) (lock : addr) (type : Z) (prev : lval) :
    K (Z * lval * option addr) :=
  l ← get lock;
  fuel ← list_fuel;
  findoverlap_loop fuel lf l type prev.

(** ** lf_getblock *)

Fixpoint getblock_loop (fuel : nat) (lf : option addr) (lock : addr) (prev : lval) :
    K (option addr) :=
  match fuel with
  | O => crash OUT_OF_FUEL
  | S fuel =>
      '(ov, prev, overlap) ← lf_findoverlap lf lock OTHERS prev;
      if ov =? 0 then mret None else
      o ← nonnull overlap;
      l ← get lock;
      x ← get o;
      if (lf_type l =? F_WRLCK) || (lf_type x =? F_WRLCK) then mret (Some o)
      else getblock_loop fuel (lf_next x) lock prev
  end.

Definition lf_getblock (lock : addr) : K (option addr) :=
  head ← gets v_lockf;
  fuel ← list_fuel;
  getblock_loop fuel head lock Head.

(** ** lf_wakelock *)

Fixpoint wakelock_loop (fuel : nat) (listhead : addr) : K unit :=
  match fuel with
  | O => crash OUT_OF_FUEL
  | S fuel =>
      x ← get listhead;
      match lf_blkhd x with
      | [] => mret tt
      | wakelock :: _ =>
          TAILQ_REMOVE listhead wakelock;;
          upd wakelock (set_next None);;
          wakeup wakelock;;
          wakelock_loop fuel listhead
      end
  end.

Definition lf_wakelock (listhead : addr) : K unit :=
  x ← get listhead;
  wakelock_loop (S (length (lf_blkhd x))) listhead.

(** ** lf_split *)

Definition lf_split (lock1 lock2 : addr) : K unit :=
  l1 ← get lock1;
  l2 ← get lock2;
  if lf_start l1 =? lf_start l2 then
    upd lock1 (set_start (i64 (lf_end l2 + 1)));;
    upd lock2 (set_next (Some lock1))
  else if lf_end l1 =? lf_end l2 then
    upd lock1 (set_end (i64 (lf_start l2 - 1)));;
    upd lock2 (set_next (lf_next l1));;
    upd lock1 (set_next (Some lock2))
  else
    splitlock ← MALLOC l1;
    upd splitlock (set_start (i64 (lf_end l2 + 1)));;
    upd splitlock (set_blkhd []);;
    upd lock1 (set_end (i64 (lf_start l2 - 1)));;
    upd splitlock (set_next (lf_next l1));;
    upd lock2 (set_next (Some splitlock));;
    upd lock1 (set_next (Some lock2)).

(** ** lf_clearlock *)

Fixpoint clearlock_loop (fuel : nat) (lf : option addr) (unlock : addr) (prev : lval) : K unit :=
  match fuel with
  | O => crash OUT_OF_FUEL
  | S fuel =>
      '(ov, prev, overlap) ← lf_findoverlap lf unlock SELF prev;
      if ov =? 0 then mret tt else
      o ← nonnull overlap;
      lf_wakelock o;;
      x ← get o;
      u ← get unlock;
      if ov =? 1 then
        assign prev (lf_next x);; FREE o
      else if ov =? 2 then
        if lf_start x =? lf_start u then upd o (set_start (i64 (lf_end u + 1)))
        else
          lf_split o unlock;;
          u ← get unlock;
          upd o (set_next (lf_next u))
      else if ov =? 3 then
        assign prev (lf_next x);;
        FREE o;;
        clearlock_loop fuel (lf_next x) unlock prev
      else if ov =? 4 then
        upd o (set_end (i64 (lf_start u - 1)));;
        clearlock_loop fuel (lf_next x) unlock (Next_of o)
      else if ov =? 5 then
        upd o (set_start (i64 (lf_end u + 1)))
      else mret tt
  end.

Definition lf_clearlock (unlock : addr) : K Z :=
  lf ← gets v_lockf;
  match lf with
  | None => mret 0
  | Some _ =>
      fuel ← list_fuel;
      clearlock_loop fuel lf unlock Head;;
      mret 0
  end.

(** ** lf_setlock *)

(** Case 3, "otherwise take the list". *)
Fixpoint take_list_loop (fuel : nat) (overlap lock : addr) : K unit :=
  match fuel with
  | O => crash OUT_OF_FUEL
  | S fuel =>
      x ← get overlap;
      match lf_blkhd x with
      | [] => mret tt
      | ltmp :: _ =>
          TAILQ_REMOVE overlap ltmp;;
          TAILQ_INSERT_TAIL lock ltmp;;
          upd ltmp (set_next (Some lock));;
          take_list_loop fuel overlap lock
      end
  end.

Definition take_list (overlap lock : addr) : K unit :=
  x ← get overlap;
  take_list_loop (S (length (lf_blkhd x))) overlap lock.

(** The [for (;;)] that links the lock once nothing blocks it. *)
Fixpoint link_loop (fuel : nat) (block : option addr) (lock : addr) (prev : lval)
    (needtolink : bool) : K unit :=
  match fuel with
  | O => crash OUT_OF_FUEL
  | S fuel =>
      '(ov, prev, overlap) ← lf_findoverlap block lock SELF prev;
      if ov =? 0 then
        if needtolink then assign prev (Some lock);; upd lock (set_next overlap)
        else mret tt
      else
      o ← nonnull overlap;
      x ← get o;
      l ← get lock;
      let block := lf_next x in
      if ov =? 1 then
        (if (lf_type l =? F_RDLCK) && (lf_type x =? F_WRLCK) then lf_wakelock o else mret tt);;
        upd o (set_type (lf_type l));;
        FREE lock
      else if ov =? 2 then
        if lf_type x =? lf_type l then FREE lock
        else
          (if lf_start x =? lf_start l then
             assign prev (Some lock);;
             upd lock (set_next (Some o));;
             upd o (set_start (i64 (lf_end l + 1)))
           else lf_split o lock);;
          lf_wakelock o
      else if ov =? 3 then
        (if (lf_type l =? F_RDLCK) && (lf_type x =? F_WRLCK) then lf_wakelock o
         else take_list o lock);;
        (if needtolink then
           assign prev (Some lock);;
           upd lock (set_next (lf_next x));;
           FREE o;;
           link_loop fuel block lock (Next_of lock) false
         else
           assign prev (lf_next x);;
           FREE o;;
           link_loop fuel block lock prev false)
      else if ov =? 4 then
        upd lock (set_next (lf_next x));;
        upd o (set_next (Some lock));;
        upd o (set_end (i64 (lf_start l - 1)));;
        lf_wakelock o;;
        link_loop fuel block lock (Next_of lock) false
      else if ov =? 5 then
        (if needtolink then assign prev (Some lock);; upd lock (set_next (Some o)) else mret tt);;
        upd o (set_start (i64 (lf_end l + 1)));;
        lf_wakelock o
      else mret tt
  end.

Inductive lf_result :=
| Return (error : Z)
| Msleep (lock : addr).

(** One turn of the [while] loop, up to [msleep] or the end of the function. *)
Definition lf_setlock (lock : addr) : K lf_result :=
  block ← lf_getblock lock;
  l ← get lock;
  match block with
  | Some block =>
      if Z.land (lf_flags l) F_WAIT =? 0 then FREE lock;; mret (Return EAGAIN)
      else
        (if negb (Z.land (lf_flags l) F_FLOCK =? 0) && (lf_type l =? F_WRLCK) then
           upd lock (set_type F_UNLCK);;
           lf_clearlock lock;;
           upd lock (set_type F_WRLCK)
         else mret tt);;
        upd lock (set_next (Some block));;
        TAILQ_INSERT_TAIL block lock;;
        mret (Msleep lock)
  | None =>
      head ← gets v_lockf;
      fuel ← list_fuel;
      link_loop fuel head lock Head true;;
      mret (Return 0)
  end.

(** After [msleep]: give up on an error, otherwise go round the loop again. *)
Definition lf_setlock_resume (lock : addr) (error : Z) : K lf_result :=
  if negb (error =? 0) then
    l ← get lock;
    (match lf_next l with
     | Some block =>
         TAILQ_REMOVE block lock;;
         upd lock (set_next None)
     | None => mret tt
     end);;
    FREE lock;;
    mret (Return error)
  else lf_setlock lock.

(** ** lf_getlock and lf_advlock *)

(** [struct flock] *)
Record flock := FL {
  l_start : Z;
  l_len : Z;
  l_pid : Z;
  l_type : Z;
  l_whence : Z;
}.

Definition lf_getlock (proc_pid : Z → Z) (lock : addr) (fl : flock) : K (Z * flock) :=
  block ← lf_getblock lock;
  match block with
  | Some b =>
      x ← get b;
      mret (0, FL (lf_start x)
                  (if lf_end x =? -1 then 0 else i64 (lf_end x - lf_start x + 1))
                  (if negb (Z.land (lf_flags x) F_POSIX =? 0) then proc_pid (lf_id x) else -1)
                  (lf_type x) SEEK_SET)
  | None => mret (0, FL (l_start fl) (l_len fl) (l_pid fl) F_UNLCK (l_whence fl))
  end.

(** The range of a [struct flock], or the error: [vnode_size] is what the file
    system answers for the size of the file (an error or the size). *)
Definition flock_range (vnode_size : Z + Z) (fl : flock) : Z + (Z * Z) :=
  let start :=
    if (l_whence fl =? SEEK_SET) || (l_whence fl =? SEEK_CUR) then inr (l_start fl)
    else if l_whence fl =? SEEK_END then
      match vnode_size with
      | inl error => inl error
      | inr size =>
          if (size >? OFF_MAX) || ((l_start fl >? 0) && (size >? OFF_MAX - l_start fl))
          then inl EOVERFLOW
          else inr (i64 (size + l_start fl))
      end
    else inl EINVAL in
  match start with
  | inl e => inl e
  | inr start =>
      if start <? 0 then inl EINVAL
      else if l_len fl <? 0 then
        if start =? 0 then inl EINVAL
        else
          let end_ := start - 1 in
          let start := start + l_len fl in
          if start <? 0 then inl EINVAL else inr (start, end_)
      else if l_len fl =? 0 then inr (start, -1)
      else
        let oadd := l_len fl - 1 in
        if oadd >? OFF_MAX - start then inl EOVERFLOW else inr (start, start + oadd)
  end.

(** The result is the C function's result, or [Msleep], with the [struct flock]
    as the call leaves it. *)
Definition lf_advlock (proc_pid : Z → Z) (vnode_size : Z + Z) (a_id a_op a_flags : Z) (fl : flock) :
    K (lf_result * flock) :=
  head ← gets v_lockf;
  if bool_decide (head = None) && negb (a_op =? F_SETLK)
  then mret (Return 0, FL (l_start fl) (l_len fl) (l_pid fl) F_UNLCK (l_whence fl))
  else
  match flock_range vnode_size fl with
  | inl error => mret (Return error, fl)
  | inr (start, end_) =>
      lock ← MALLOC (LF a_flags (l_type fl) start end_ a_id None []);
      if a_op =? F_SETLK then
        r ← lf_setlock lock; mret (r, fl)
      else if a_op =? F_UNLCK then
        error ← lf_clearlock lock; FREE lock;; mret (Return error, fl)
      else if a_op =? F_GETLK then
        '(error, fl) ← lf_getlock proc_pid lock fl; FREE lock;; mret (Return error, fl)
      else FREE lock;; mret (Return EINVAL, fl)
  end.

End Lockf.
