(* ===== verification/LockfList.v ===== *)
(** * Advisory byte-range locks: the lock list as a list

    What the list surgery of [lf_setlock] and [lf_clearlock] does, as
    structural functions on lists of locks ([link_list], [clear_list]), and
    what that means byte by byte: [holds ls id b t] says that owner [id] holds
    a lock of type [t] on byte [b].  LockfHeap.v shows that the pointer code
    computes these functions. *)

From Stdlib Require Import Sorted ZifyBool.
From S2P Require Import Prelude Lockf.
Export Lockf.

(** A lock without its links, with its address. *)
Record lk := Lk {
  k_addr : addr;
  k_flags : Z;
  k_type : Z;
  k_start : Z;
  k_end : Z;
  k_id : Z;
}.

Definition with_type (t : Z) (x : lk) := Lk (k_addr x) (k_flags x) t (k_start x) (k_end x) (k_id x).
Definition with_start (s : Z) (x : lk) := Lk (k_addr x) (k_flags x) (k_type x) s (k_end x) (k_id x).
Definition with_end (e : Z) (x : lk) := Lk (k_addr x) (k_flags x) (k_type x) (k_start x) e (k_id x).
Definition with_addr (a : addr) (x : lk) := Lk a (k_flags x) (k_type x) (k_start x) (k_end x) (k_id x).

(** The structure at address [a] without its links. *)
Definition core (a : addr) (x : lockf) : lk :=
  Lk a (lf_flags x) (lf_type x) (lf_start x) (lf_end x) (lf_id x).
Definition cell (l : lk) : lockf :=
  LF (k_flags l) (k_type l) (k_start l) (k_end l) (k_id l) None [].

(** ** Bytes *)

Definition covers (x : lk) (b : Z) : Prop := k_start x ≤ b ∧ (k_end x = -1 ∨ b ≤ k_end x).

#[export] Instance covers_dec x b : Decision (covers x b).
Proof. unfold covers. apply _. Defined.

Definition holds (ls : list lk) (id b t : Z) : Prop :=
  ∃ x, x ∈ ls ∧ k_id x = id ∧ covers x b ∧ k_type x = t.

(** A range [lf_advlock] makes. *)
Definition valid (x : lk) : Prop :=
  0 ≤ k_start x < 2 ^ 63 ∧ (k_end x = -1 ∨ k_start x ≤ k_end x < 2 ^ 63).

(** A range whose end can be followed by another byte. *)
Definition proper (x : lk) : Prop := valid x ∧ k_end x ≠ OFF_MAX.

(** Locks of one owner are disjoint and in the order of their starts. *)
Definition before (x y : lk) : Prop :=
  k_id x = k_id y → k_end x ≠ -1 ∧ k_end x < k_start y.

Definition ordered (ls : list lk) : Prop := StronglySorted before ls.

(** ** The case analysis of lf_findoverlap *)

Definition ov_range (type : Z) (lock x : lk) : outcome (option Z) :=
  ovcase type (k_start lock) (k_end lock) (cell x).

Inductive overlap_case :=
| OvBefore            (* no overlap, goes on *)
| OvAfter             (* no overlap, the search ends *)
| OvEqual | OvContains | OvInside | OvStartsBefore | OvEndsAfter.

Definition case_self (lock x : lk) : overlap_case :=
  match ov_range SELF lock x with
  | Ok (Some 0) => OvAfter
  | Ok (Some 1) => OvEqual
  | Ok (Some 2) => OvContains
  | Ok (Some 3) => OvInside
  | Ok (Some 4) => OvStartsBefore
  | Ok (Some 5) => OvEndsAfter
  | _ => OvBefore
  end.

Definition case_code (c : overlap_case) : option Z :=
  match c with
  | OvBefore => None | OvAfter => Some 0 | OvEqual => Some 1 | OvContains => Some 2
  | OvInside => Some 3 | OvStartsBefore => Some 4 | OvEndsAfter => Some 5
  end.

(** What each answer says of two valid ranges. *)
Definition case_means (lock x : lk) (c : overlap_case) : Prop :=
  match c with
  | OvBefore => k_end x ≠ -1 ∧ k_end x < k_start lock
  | OvAfter => k_end lock ≠ -1 ∧ k_end lock < k_start x
  | OvEqual => k_start x = k_start lock ∧ k_end x = k_end lock
  | OvContains => k_start x ≤ k_start lock ∧ k_end lock ≠ -1 ∧
      (k_end x = -1 ∨ k_end lock ≤ k_end x) ∧ (k_start x ≠ k_start lock ∨ k_end x ≠ k_end lock)
  | OvInside => k_start lock ≤ k_start x ∧ (k_end lock = -1 ∨ k_start x ≤ k_end lock) ∧
      (k_end lock = -1 ∨ (k_end x ≠ -1 ∧ k_end x ≤ k_end lock))
  | OvStartsBefore => k_start x < k_start lock ∧ (k_end x = -1 ∨ k_start lock ≤ k_end x) ∧
      (k_end lock = -1 ∨ (k_end x ≠ -1 ∧ k_end x < k_end lock))
  | OvEndsAfter => k_start lock < k_start x ∧ k_end lock ≠ -1 ∧ k_start x ≤ k_end lock ∧
      (k_end x = -1 ∨ k_end lock < k_end x)
  end.

(** The search by owner never reaches its [panic], and its answer is right. *)
Lemma ov_self_ok lock x : valid lock → valid x →
  ov_range SELF lock x = Ok (case_code (case_self lock x)) ∧ case_means lock x (case_self lock x).
Proof.
  unfold valid, case_self, ov_range, ovcase, cell. cbn [lf_start lf_end].
  change (negb (Z.land SELF SELF =? 0)) with true.
  intros [? ?] [? ?]. repeat case_match; simplify_eq; cbn; split; try reflexivity; lia.
Qed.

Definition disjoint_lk (x y : lk) : Prop :=
  (k_end x ≠ -1 ∧ k_end x < k_start y) ∨ (k_end y ≠ -1 ∧ k_end y < k_start x).

Lemma ov_others_ok lock x : valid lock → valid x →
  ∃ r, ov_range OTHERS lock x = Ok r ∧ r ≠ Some 0 ∧ (r = None ↔ disjoint_lk lock x).
Proof.
  unfold valid, disjoint_lk, ov_range, ovcase, cell. cbn [lf_start lf_end].
  change (negb (Z.land OTHERS SELF =? 0)) with false.
  intros [? ?] [? ?]. repeat case_match; simplify_eq; cbn in *;
    (exfalso; lia) || (eexists; (split; [reflexivity|]); (split; [done|]); split; intros; done || lia).
Qed.

(** Two ranges that overlap share a byte. *)
Lemma overlap_byte x y : valid x → valid y →
  ¬ disjoint_lk x y → covers x (Z.max (k_start x) (k_start y)) ∧ covers y (Z.max (k_start x) (k_start y)).
Proof. unfold valid, disjoint_lk, covers. lia. Qed.

Lemma disjoint_byte x y b : disjoint_lk x y → covers x b → covers y b → False.
Proof. unfold disjoint_lk, covers. lia. Qed.

(** ** lf_getblock *)

Definition conflicts (lock x : lk) : Prop :=
  k_id x ≠ k_id lock ∧ ¬ disjoint_lk lock x ∧ (k_type lock = F_WRLCK ∨ k_type x = F_WRLCK).

#[export] Instance conflicts_dec lock x : Decision (conflicts lock x).
Proof. unfold conflicts, disjoint_lk. apply _. Defined.

Definition blocker (lock : lk) (ls : list lk) : option lk := snd <$> list_find (conflicts lock) ls.

Lemma blocker_cons lock x ls :
  blocker lock (x :: ls) = if decide (conflicts lock x) then Some x else blocker lock ls.
Proof.
  unfold blocker. simpl. destruct (decide (conflicts lock x)); [done|].
  by destruct (list_find _ ls) as [[i y]|].
Qed.

Lemma blocker_Some lock ls x : blocker lock ls = Some x → x ∈ ls ∧ conflicts lock x.
Proof.
  induction ls as [|y ls IH]; [done|]. rewrite blocker_cons.
  destruct (decide (conflicts lock y)); intros.
  - simplify_eq. split; [left|done].
  - destruct IH; [done|]. split; [by right|done].
Qed.

Lemma blocker_None lock ls x : blocker lock ls = None → x ∈ ls → ¬ conflicts lock x.
Proof.
  induction ls as [|y ls IH]; [by intros _ ?%elem_of_nil|]. rewrite blocker_cons.
  destruct (decide (conflicts lock y)); intros; [done|].
  apply elem_of_cons in H0 as [->|]; auto.
Qed.

(** ** Removing a range: lf_clearlock *)

Fixpoint clear_list (na : addr) (u : lk) (ls : list lk) : list lk :=
  match ls with
  | [] => []
  | x :: r =>
      if decide (k_id x = k_id u) then
        match case_self u x with
        | OvBefore => x :: clear_list na u r
        | OvAfter => x :: r
        | OvEqual => r
        | OvContains =>
            if k_start x =? k_start u then with_start (i64 (k_end u + 1)) x :: r
            else if k_end x =? k_end u then with_end (i64 (k_start u - 1)) x :: r
            else with_end (i64 (k_start u - 1)) x
                 :: with_addr na (with_start (i64 (k_end u + 1)) x) :: r
        | OvInside => clear_list na u r
        | OvStartsBefore => with_end (i64 (k_start u - 1)) x :: clear_list na u r
        | OvEndsAfter => with_start (i64 (k_end u + 1)) x :: r
        end
      else x :: clear_list na u r
  end.

(** ** Adding a lock: the linking loop of lf_setlock *)

Fixpoint link_list (na : addr) (l : lk) (need : bool) (ls : list lk) : list lk :=
  match ls with
  | [] => if need then [l] else []
  | x :: r =>
      if decide (k_id x = k_id l) then
        match case_self l x with
        | OvBefore => x :: link_list na l need r
        | OvAfter => if need then l :: x :: r else x :: r
        | OvEqual => with_type (k_type l) x :: r
        | OvContains =>
            if k_type x =? k_type l then x :: r
            else if k_start x =? k_start l then l :: with_start (i64 (k_end l + 1)) x :: r
            else if k_end x =? k_end l then with_end (i64 (k_start l - 1)) x :: l :: r
            else with_end (i64 (k_start l - 1)) x :: l
                 :: with_addr na (with_start (i64 (k_end l + 1)) x) :: r
        | OvInside => if need then l :: link_list na l false r else link_list na l false r
        | OvStartsBefore => with_end (i64 (k_start l - 1)) x :: l :: link_list na l false r
        | OvEndsAfter =>
            if need then l :: with_start (i64 (k_end l + 1)) x :: r
            else with_start (i64 (k_end l + 1)) x :: r
        end
      else x :: link_list na l need r
  end.

(** ** What they do byte by byte *)

#[export] Instance holds_dec ls id b t : Decision (holds ls id b t).
Proof.
  refine (cast_if (decide (Exists (λ x, k_id x = id ∧ covers x b ∧ k_type x = t) ls)));
    unfold holds; rewrite Exists_exists in *; naive_solver.
Defined.

Lemma iff_True (P : Prop) : P → P ↔ True.
Proof. tauto. Qed.
Lemma iff_False (P : Prop) : ¬ P → P ↔ False.
Proof. tauto. Qed.

Lemma holds_nil id b t : ¬ holds [] id b t.
Proof. intros (x & Hx & _). by apply elem_of_nil in Hx. Qed.

Lemma holds_cons x ls id b t :
  holds (x :: ls) id b t ↔ (k_id x = id ∧ covers x b ∧ k_type x = t) ∨ holds ls id b t.
Proof. unfold holds. setoid_rewrite elem_of_cons. naive_solver. Qed.

Lemma holds_app ls ks id b t : holds (ls ++ ks) id b t ↔ holds ls id b t ∨ holds ks id b t.
Proof. unfold holds. setoid_rewrite elem_of_app. naive_solver. Qed.

(** No lock of the owner in [ls] covers a byte of [u]: they all start later. *)
Definition starts_after (u : lk) (ls : list lk) : Prop :=
  ∀ x, x ∈ ls → k_id x = k_id u → k_end u ≠ -1 ∧ k_end u < k_start x.

Lemma starts_after_holds u ls b t : starts_after u ls → covers u b → ¬ holds ls (k_id u) b t.
Proof. intros H Hb (x & Hx & Ei & Hc & _). unfold covers in *. specialize (H x Hx Ei). lia. Qed.

Lemma ordered_cons x ls : ordered (x :: ls) ↔ ordered ls ∧ ∀ y, y ∈ ls → before x y.
Proof.
  unfold ordered. split.
  - intros H. apply StronglySorted_inv in H as [H1 H2]. split; [done|]. by apply Forall_forall.
  - intros [H1 H2]. constructor; [done|]. by apply Forall_forall.
Qed.

(** The locks of the owner behind one that reaches the end of [u]. *)
Lemma ordered_starts_after u x ls :
  ordered (x :: ls) → k_id x = k_id u →
  (k_end x = -1 ∨ (k_end u ≠ -1 ∧ k_end u ≤ k_end x)) → starts_after u ls.
Proof.
  intros [_ H]%ordered_cons Ei He y Hy Ey. specialize (H y Hy). unfold before in H.
  destruct H; [congruence|]. lia.
Qed.

Lemma i64_succ_end u : proper u → k_end u ≠ -1 → i64 (k_end u + 1) = k_end u + 1.
Proof. unfold proper, valid, OFF_MAX. intros. apply wraps_small; simpl in *; lia. Qed.

Lemma i64_pred_start u : proper u → i64 (k_start u - 1) = k_start u - 1.
Proof. unfold proper, valid, OFF_MAX. intros. apply wraps_small; simpl in *; lia. Qed.

Create Rewrite HintDb holds.
#[export] Hint Rewrite holds_cons : holds.

(** The rest of the list, where the loop stops, has no byte of [u]. *)
Ltac rest_free u r :=
  rewrite ?holds_cons;
  match goal with
  | H : starts_after u r |- context [holds r ?id ?b ?t] =>
      let F := fresh "F" in
      assert (holds r id b t → ¬ (id = k_id u ∧ covers u b)) as F
        by (intros ? [-> ?]; by eapply starts_after_holds)
  end.

(** The bytes of the pieces that are left of a lock [x] of the owner. *)
Section pieces.
Context (u x : lk) (Hu : proper u) (Hx : valid x) (b : Z).

Lemma cut_end :
  k_start x < k_start u → (k_end x = -1 ∨ k_start u ≤ k_end x) →
  (k_end u = -1 ∨ (k_end x ≠ -1 ∧ k_end x ≤ k_end u)) →
  covers (with_end (i64 (k_start u - 1)) x) b ↔ covers x b ∧ ¬ covers u b.
Proof using Hu Hx.
  rewrite i64_pred_start by done. unfold proper, valid, covers in *. cbn. lia.
Qed.

Lemma cut_start :
  k_end u ≠ -1 → k_start u ≤ k_start x → k_start x ≤ k_end u →
  (k_end x = -1 ∨ k_end u < k_end x) →
  covers (with_start (i64 (k_end u + 1)) x) b ↔ covers x b ∧ ¬ covers u b.
Proof using Hu Hx.
  intros Hne. rewrite i64_succ_end by done. unfold proper, valid, covers in *. cbn. lia.
Qed.

Lemma cut_both (a : addr) :
  k_start x < k_start u → k_end u ≠ -1 → (k_end x = -1 ∨ k_end u < k_end x) →
  covers (with_end (i64 (k_start u - 1)) x) b ∨
  covers (with_addr a (with_start (i64 (k_end u + 1)) x)) b ↔ covers x b ∧ ¬ covers u b.
Proof using Hu Hx.
  intros ? Hne. rewrite i64_pred_start, i64_succ_end by done.
  unfold proper, valid, covers in *. cbn. lia.
Qed.

Lemma no_common : case_means u x OvBefore ∨ case_means u x OvAfter → covers x b → ¬ covers u b.
Proof using. unfold covers. cbn. lia. Qed.

Lemma inside : case_means u x OvInside → covers x b → covers u b.
Proof using. unfold covers. cbn. lia. Qed.

Lemma contains : case_means u x OvContains → covers u b → covers x b.
Proof using. unfold covers. cbn. lia. Qed.

End pieces.

(** Propositional reasoning on the locks of a list, the bytes abstracted. *)
Ltac bytes :=
  rewrite ?holds_cons; cbn [k_id k_type with_start with_end with_type with_addr];
  repeat match goal with
  | H : holds _ _ _ _ ↔ _ |- _ => rewrite H; clear H
  end;
  match goal with
  | |- context [¬ (?id = k_id ?u ∧ covers ?u ?b)] =>
      destruct (decide (covers u b)), (decide (id = k_id u))
  end;
  repeat match goal with
  | |- context [holds ?l ?i ?b ?t] => generalize dependent (holds l i b t); intros
  | |- context [covers ?l ?b] => generalize dependent (covers l b); intros
  end;
  intuition (subst; congruence || tauto).

Lemma clear_holds na u ls id b t :
  proper u → Forall valid ls → ordered ls →
  holds (clear_list na u ls) id b t ↔ holds ls id b t ∧ ¬ (id = k_id u ∧ covers u b).
Proof.
  intros Hu Hv Ho. induction ls as [|x r IH].
  { simpl. split; [by intros ?%holds_nil|by intros [?%holds_nil _]]. }
  apply Forall_cons in Hv as [Hx Hv]. pose proof Ho as [Ho' _]%ordered_cons.
  specialize (IH Hv Ho'). cbn [clear_list].
  destruct (decide (k_id x = k_id u)) as [Ei|Ei]; [|bytes].
  pose proof (ov_self_ok u x (proj1 Hu) Hx) as [_ Hc].
  pose proof (ordered_starts_after u x r Ho Ei) as Hsa.
  destruct (case_self u x) eqn:Ec; pose proof Hc as Hm; cbn [case_means] in Hm.
  - pose proof (no_common u x b (or_introl Hc)). clear Hm Hc Hsa. bytes.
  - assert (starts_after u r) as Hr by (apply Hsa; unfold valid in Hx; lia). rest_free u r.
    pose proof (no_common u x b (or_intror Hc)). clear Hm Hc Hsa IH. bytes.
  - assert (starts_after u r) as Hr by (apply Hsa; lia). rest_free u r.
    assert (covers x b → covers u b) by (unfold covers; lia). clear Hm Hc Hsa IH. bytes.
  - assert (starts_after u r) as Hr by (apply Hsa; lia). rest_free u r. clear IH.
    destruct (Z.eqb_spec (k_start x) (k_start u)); [|destruct (Z.eqb_spec (k_end x) (k_end u))].
    + pose proof (cut_start u x Hu Hx b ltac:(lia) ltac:(lia)
        ltac:(unfold proper, valid in *; lia) ltac:(lia)) as Hp. rewrite ?holds_cons, Hp. bytes.
    + pose proof (cut_end u x Hu Hx b ltac:(lia)
        ltac:(unfold proper, valid in *; lia) ltac:(lia)) as Hp. rewrite ?holds_cons, Hp. bytes.
    + pose proof (cut_both u x Hu Hx b na ltac:(lia) ltac:(lia) ltac:(lia)) as Hp. bytes.
  - pose proof (inside u x b Hc). bytes.
  - pose proof (cut_end u x Hu Hx b ltac:(lia) ltac:(lia) ltac:(lia)) as Hp.
    rewrite ?holds_cons, Hp. bytes.
  - assert (starts_after u r) as Hr by (apply Hsa; lia). rest_free u r. clear IH.
    pose proof (cut_start u x Hu Hx b ltac:(lia) ltac:(lia) ltac:(lia) ltac:(lia)) as Hp.
    rewrite Hp. bytes.
Qed.

Definition later_starts (l : lk) (ls : list lk) : Prop :=
  ∀ x, x ∈ ls → k_id x = k_id l → k_start l < k_start x.

Lemma later_starts_cons l x ls : later_starts l (x :: ls) → later_starts l ls.
Proof. intros H y Hy. apply H. by right. Qed.

(** Behind a lock of the owner that starts inside [l] or reaches into it, all
    the owner's locks start later than [l]. *)
Lemma ordered_later l x ls :
  ordered (x :: ls) → k_id x = k_id l → valid x →
  (k_end x = -1 ∨ k_start l ≤ k_end x) → later_starts l ls.
Proof.
  intros [_ H]%ordered_cons Ei Hx He y Hy Ey. specialize (H y Hy). unfold before, valid in *.
  destruct H; [congruence|]. lia.
Qed.

Lemma link_holds na l need ls id b t :
  proper l → Forall valid ls → ordered ls → (need = false → later_starts l ls) →
  holds (link_list na l need ls) id b t ↔
  (need = true ∧ id = k_id l ∧ covers l b ∧ t = k_type l) ∨
  (holds ls id b t ∧ ¬ (id = k_id l ∧ covers l b)).
Proof.
  intros Hu Hv Ho. revert need. induction ls as [|x r IH]; intros need Hn.
  { cbn [link_list]. pose proof (holds_nil id b t). destruct need; bytes. }
  apply Forall_cons in Hv as [Hx Hv]. pose proof Ho as [Ho' _]%ordered_cons.
  specialize (IH Hv Ho'). cbn [link_list].
  assert (need = false → later_starts l r) as Hn' by (intros E; by eapply later_starts_cons, Hn).
  pose proof (IH need Hn') as IHn. clear Hn'.
  destruct (decide (k_id x = k_id l)) as [Ei|Ei]; [|clear IH Hn; bytes].
  pose proof (ov_self_ok l x (proj1 Hu) Hx) as [_ Hc].
  pose proof (ordered_starts_after l x r Ho Ei) as Hsa.
  pose proof (ordered_later l x r Ho Ei Hx) as Hla.
  assert (need = false → k_start l < k_start x) as Hnx by (intros E; by apply Hn; [|left|]). clear Hn.
  destruct (case_self l x) eqn:Ec; pose proof Hc as Hm; cbn [case_means] in Hm.
  - pose proof (no_common l x b (or_introl Hc)). clear IH Hm Hc Hnx Hsa Hla. bytes.
  - assert (starts_after l r) as Hr by (apply Hsa; unfold valid in Hx; lia).
    pose proof (no_common l x b (or_intror Hc)). clear IH IHn Hm Hc Hnx Hsa Hla.
    destruct need; rest_free l r; bytes.
  - assert (starts_after l r) as Hr by (apply Hsa; lia).
    destruct need; [|specialize (Hnx eq_refl); lia]. rest_free l r.
    assert (covers x b ↔ covers l b) as Hp by (unfold covers; lia).
    change (covers (with_type _ x) b) with (covers x b).
    rewrite Hp. clear IH IHn Hm Hc Hnx Hsa Hla Hp. bytes.
  - assert (starts_after l r) as Hr by (apply Hsa; lia).
    destruct need; [|specialize (Hnx eq_refl); lia]. rest_free l r.
    pose proof (contains l x b Hc). clear IH IHn Hnx Hsa Hla.
    destruct (Z.eqb_spec (k_type x) (k_type l)); [clear Hm Hc; bytes|].
    destruct (Z.eqb_spec (k_start x) (k_start l)); [|destruct (Z.eqb_spec (k_end x) (k_end l))].
    + pose proof (cut_start l x Hu Hx b ltac:(lia) ltac:(lia)
        ltac:(unfold proper, valid in *; lia) ltac:(lia)) as Hp. rewrite ?holds_cons, Hp.
      clear Hm Hc Hp. bytes.
    + pose proof (cut_end l x Hu Hx b ltac:(lia)
        ltac:(unfold proper, valid in *; lia) ltac:(lia)) as Hp. rewrite ?holds_cons, Hp.
      clear Hm Hc Hp. bytes.
    + pose proof (cut_both l x Hu Hx b na ltac:(lia) ltac:(lia) ltac:(lia)) as Hp.
      clear Hm Hc. bytes.
  - specialize (IH false ltac:(intros _; apply Hla; unfold valid in Hx; lia)). pose proof (inside l x b Hc).
    clear IHn Hm Hc Hnx Hsa Hla. destruct need; bytes.
  - specialize (IH false ltac:(intros _; apply Hla; lia)).
    destruct need; [|specialize (Hnx eq_refl); lia].
    pose proof (cut_end l x Hu Hx b ltac:(lia) ltac:(lia) ltac:(lia)) as Hp.
    rewrite ?holds_cons, Hp. clear IHn Hm Hc Hnx Hsa Hla Hp. bytes.
  - assert (starts_after l r) as Hr by (apply Hsa; lia).
    pose proof (cut_start l x Hu Hx b ltac:(lia) ltac:(lia) ltac:(lia) ltac:(lia)) as Hp.
    clear IH IHn Hm Hc Hnx Hsa Hla. destruct need; rest_free l r; rewrite !Hp; clear Hp; bytes.
Qed.

(** ** The shape of the list is preserved *)

(** A piece of a lock of [ls]: it starts no earlier. *)
Definition derived (ls : list lk) (y : lk) : Prop :=
  ∃ x, x ∈ ls ∧ k_id y = k_id x ∧ k_start x ≤ k_start y.

Lemma derived_self ls x : x ∈ ls → derived ls x.
Proof. exists x. auto with lia. Qed.

Lemma derived_head x r y : k_id y = k_id x → k_start x ≤ k_start y → derived (x :: r) y.
Proof. exists x. split; [left|done]. Qed.

Lemma derived_tail x r y : derived r y → derived (x :: r) y.
Proof. intros (z & Hz & H). exists z. split; [by right|done]. Qed.

Lemma before_derived x r y : (∀ z, z ∈ r → before x z) → derived r y → before x y.
Proof.
  intros H (z & Hz & Ei & Hs) E. destruct (H z Hz); [congruence|]. lia.
Qed.

(** Every element of the list is made of pieces, by the cases of one lock. *)
Ltac elems :=
  repeat match goal with
  | H : _ ∈ [] |- _ => by apply elem_of_nil in H
  | H : _ ∈ _ :: _ |- _ => apply elem_of_cons in H as [->|H]
  end.

Lemma clear_elems na u ls :
  proper u → Forall valid ls → ordered ls →
  ∀ y, y ∈ clear_list na u ls → derived ls y ∧ valid y.
Proof.
  intros Hu Hv Ho. induction ls as [|x r IH]; cbn [clear_list]; intros y Hy; [elems|].
  apply Forall_cons in Hv as [Hx Hv]. pose proof Ho as [Ho' _]%ordered_cons.
  specialize (IH Hv Ho').
  assert (∀ y, y ∈ r → derived (x :: r) y ∧ valid y) as Hr.
  { intros z Hz. split; [by apply derived_self; right|]. rewrite Forall_forall in Hv. auto. }
  assert (∀ y, y ∈ clear_list na u r → derived (x :: r) y ∧ valid y) as Hcr.
  { intros z Hz. destruct (IH z Hz). auto using derived_tail. }
  assert (derived (x :: r) x ∧ valid x) as Hxx by (split; [apply derived_self; left|done]).
  destruct (decide (k_id x = k_id u)); [|elems; auto].
  pose proof (ov_self_ok u x (proj1 Hu) Hx) as [_ Hm].
  pose proof (i64_pred_start u Hu) as E1. pose proof (i64_succ_end u Hu) as E2.
  pose proof Hx as Hx'. pose proof Hu as Hu'. unfold proper, valid, OFF_MAX in Hx', Hu'.
  destruct (case_self u x); cbn [case_means] in Hm; repeat case_match; elems; auto;
    rewrite ?E1, ?E2 by lia; (split; [apply derived_head; cbn; lia|unfold valid; cbn; lia]).
Qed.

Lemma clear_ordered na u ls :
  proper u → Forall valid ls → ordered ls → ordered (clear_list na u ls).
Proof.
  intros Hu Hv Ho. induction ls as [|x r IH]; cbn [clear_list]; [done|].
  apply Forall_cons in Hv as [Hx Hv]. pose proof Ho as [Ho' Hb]%ordered_cons.
  specialize (IH Hv Ho').
  assert (∀ y, y ∈ clear_list na u r → before x y) as Hbc.
  { intros y Hy. apply clear_elems in Hy as [Hd _]; [|done..]. by eapply before_derived. }
  destruct (decide (k_id x = k_id u)); [|by apply ordered_cons].
  pose proof (ov_self_ok u x (proj1 Hu) Hx) as [_ Hm].
  pose proof (i64_pred_start u Hu) as E1. pose proof (i64_succ_end u Hu) as E2.
  unfold before in *. pose proof Hx as Hx'. pose proof Hu as Hu'. unfold proper, valid in Hx', Hu'.
  destruct (case_self u x); cbn [case_means] in Hm; repeat case_match; try done;
    rewrite ?E1, ?E2 by lia; rewrite ?ordered_cons; unfold before; split_and?; try done;
    cbn; intros y Hy; elems; cbn; intros Ey;
    try (specialize (Hbc y Hy ltac:(congruence))); try (specialize (Hb y Hy ltac:(congruence))); lia.
Qed.

Lemma link_elems na l need ls :
  proper l → Forall valid ls → ordered ls → (need = false → later_starts l ls) →
  ∀ y, y ∈ link_list na l need ls → ((need = true ∧ y = l) ∨ derived ls y) ∧ valid y.
Proof.
  intros Hu Hv Ho. revert need. induction ls as [|x r IH]; intros need Hn y Hy; cbn [link_list] in Hy.
  { destruct need; elems. split; [by left|apply Hu]. }
  apply Forall_cons in Hv as [Hx Hv]. pose proof Ho as [Ho' _]%ordered_cons. specialize (IH Hv Ho').
  assert (need = false → k_id x = k_id l → k_start l < k_start x) as Hnx
    by (intros E ?; by apply (Hn E); [left|]).
  assert (need = false → later_starts l r) as Hn' by (intros E; by eapply later_starts_cons, Hn).
  pose proof (ordered_later l x r Ho) as Hla.
  assert (∀ y, y ∈ r → ((need = true ∧ y = l) ∨ derived (x :: r) y) ∧ valid y) as Hr.
  { intros z Hz. split; [right; by apply derived_self; right|]. rewrite Forall_forall in Hv. auto. }
  assert (((need = true ∧ x = l) ∨ derived (x :: r) x) ∧ valid x) as Hxx
    by (split; [right; apply derived_self; left|done]).
  assert (∀ y, y ∈ link_list na l need r → ((need = true ∧ y = l) ∨ derived (x :: r) y) ∧ valid y) as Hcr.
  { intros z Hz. destruct (IH need Hn' z Hz) as [[?|?] ?]; auto using derived_tail. }
  assert (later_starts l r → ∀ y, y ∈ link_list na l false r →
    ((need = true ∧ y = l) ∨ derived (x :: r) y) ∧ valid y) as Hcf.
  { intros Hl z Hz. destruct (IH false (λ _, Hl) z Hz) as [[[? _]|?] ?]; [done|]. auto using derived_tail. }
  assert (valid l) as Hvl by apply Hu.
  destruct (decide (k_id x = k_id l)) as [Ei|]; [|elems; auto].
  specialize (Hla Ei Hx). pose proof (ov_self_ok l x (proj1 Hu) Hx) as [_ Hm].
  pose proof (i64_pred_start l Hu) as E1. pose proof (i64_succ_end l Hu) as E2.
  pose proof Hx as Hx'. pose proof Hu as Hu'. unfold proper, valid, OFF_MAX in Hx', Hu'.
  destruct (case_self l x); cbn [case_means] in Hm;
    (destruct need; [|specialize (Hnx eq_refl Ei)]); repeat case_match; elems; auto; try lia;
    rewrite ?E1, ?E2 by lia;
    try (split; [right; apply derived_head; cbn; lia|unfold valid; cbn; lia]);
    by apply (Hcf (Hla ltac:(lia))).
Qed.

(** Behind [l] no lock of the owner has a byte of [l] left. *)
Lemma link_behind na l ls y :
  proper l → Forall valid ls → ordered ls → later_starts l ls →
  y ∈ link_list na l false ls → before l y.
Proof.
  intros Hu Hv Ho Hl Hy E.
  destruct (link_elems na l false ls Hu Hv Ho (λ _, Hl) y Hy) as [[[? _]|(x & Hx & Ei & Hs)] Hvy]; [done|].
  assert (holds (link_list na l false ls) (k_id l) (k_start y) (k_type y)) as Hh.
  { exists y. unfold covers, valid in *. split_and!; done || lia. }
  apply link_holds in Hh as [[? _]|[_ Hn]]; [done| |done..].
  specialize (Hl x Hx ltac:(congruence)). unfold covers in Hn. lia.
Qed.

Lemma link_ordered na l need ls :
  proper l → Forall valid ls → ordered ls → (need = false → later_starts l ls) →
  ordered (link_list na l need ls).
Proof.
  intros Hu Hv Ho. revert need. induction ls as [|x r IH]; intros need Hn; cbn [link_list].
  { destruct need; [|done]. apply ordered_cons. split; [done|]. intros y Hy. elems. }
  apply Forall_cons in Hv as [Hx Hv]. pose proof Ho as [Ho' Hb]%ordered_cons. specialize (IH Hv Ho').
  assert (need = false → k_id x = k_id l → k_start l < k_start x) as Hnx
    by (intros E ?; by apply (Hn E); [left|]).
  assert (need = false → later_starts l r) as Hn' by (intros E; by eapply later_starts_cons, Hn).
  pose proof (ordered_later l x r Ho) as Hla.
  assert (before x l → ∀ y, y ∈ link_list na l need r → before x y) as Hbc.
  { intros Hxl y Hy. apply link_elems in Hy as [[[_ ->]|Hd] _]; [done| |done..]. by eapply before_derived. }
  assert (later_starts l r → ∀ y, y ∈ link_list na l false r → before x y) as Hbf.
  { intros Hl y Hy. apply link_elems in Hy as [[[? _]|Hd] _]; [done| |done..]. by eapply before_derived. }
  assert (later_starts l r → ∀ y, y ∈ link_list na l false r → before l y) as Hlf.
  { intros Hl y Hy. by eapply link_behind. }
  destruct (decide (k_id x = k_id l)) as [Ei|Ei].
  2:{ apply ordered_cons. split; [by apply IH|]. apply Hbc. by intros ?. }
  specialize (Hla Ei Hx). pose proof (ov_self_ok l x (proj1 Hu) Hx) as [_ Hm].
  pose proof (i64_pred_start l Hu) as E1. pose proof (i64_succ_end l Hu) as E2.
  assert (later_starts l r → ordered (link_list na l false r)) as IHf by (intros Hl; by apply IH).
  specialize (IH need Hn').
  unfold before in *. pose proof Hx as Hx'. pose proof Hu as Hu'. unfold proper, valid in Hx', Hu'.
  destruct (case_self l x); cbn [case_means] in Hm;
    (destruct need; [|specialize (Hnx eq_refl Ei)]); repeat case_match; try done; try lia;
    try (assert (later_starts l r) as Hl by (apply Hla; lia); specialize (Hbf Hl); specialize (Hlf Hl);
         specialize (IHf Hl));
    rewrite ?E1, ?E2 by lia; rewrite ?ordered_cons; unfold before; split_and?; try done;
    cbn; intros y Hy; elems; cbn; intros Ey; try lia;
    try (specialize (Hbc ltac:(intros; lia) y Hy ltac:(congruence)); lia);
    try (specialize (Hbf y Hy ltac:(congruence)); lia);
    try (specialize (Hlf y Hy ltac:(congruence)); lia);
    try (specialize (Hb y Hy ltac:(congruence)); lia).
Qed.
