(* ===== verification/LockfHeap.v ===== *)
(** * Advisory byte-range locks: the heap

    [seg h p ls q]: following [lf_next] from [p] one meets the locks [ls] and
    then [q].  [waiting h gr sl wk]: the blocked requests [sl] and the queues
    of the granted locks [gr] agree, and a request that blocks on nothing any
    more has been woken.  The lemmas say what each primitive of the code does
    to the two. *)

From Stdlib Require Import ZifyBool.
From S2P Require Import Prelude Lockf LockfList.

(** ** List segments *)

Fixpoint seg (h : gmap addr lockf) (p : option addr) (ls : list lk) (q : option addr) : Prop :=
  match ls with
  | [] => p = q
  | l :: ls => p = Some (k_addr l) ∧
      ∃ x, h !! k_addr l = Some x ∧ core (k_addr l) x = l ∧ seg h (lf_next x) ls q
  end.

Definition addrs (ls : list lk) : list addr := k_addr <$> ls.
Definition first (ls : list lk) (q : option addr) : option addr :=
  match ls with [] => q | l :: _ => Some (k_addr l) end.

(** The l-value that holds the pointer behind [ls]. *)
Definition lv (ls : list lk) : lval :=
  match last ls with None => Head | Some l => Next_of (k_addr l) end.

Lemma seg_first h p ls q : seg h p ls q → p = first ls q.
Proof. destruct ls; [done|by intros [-> _]]. Qed.

Lemma seg_app h p ls ks q : seg h p (ls ++ ks) q ↔ seg h p ls (first ks q) ∧ seg h (first ks q) ks q.
Proof.
  revert p. induction ls as [|l ls IH]; intros p; simpl.
  - split; [|naive_solver]. intros H. pose proof (seg_first _ _ _ _ H) as ->. done.
  - setoid_rewrite IH. naive_solver.
Qed.

Lemma seg_snoc h p ls l q :
  seg h p (ls ++ [l]) q ↔ seg h p ls (Some (k_addr l)) ∧
    ∃ x, h !! k_addr l = Some x ∧ core (k_addr l) x = l ∧ lf_next x = q.
Proof. rewrite seg_app. simpl. naive_solver. Qed.

(** Only the queue of blocked requests may differ. *)
Definition same_lock (x y : option lockf) : Prop := set_blkhd [] <$> x = set_blkhd [] <$> y.

#[export] Instance same_lock_equiv : Equivalence same_lock.
Proof. unfold same_lock. split; repeat intro; congruence. Qed.

Lemma same_lock_Some x y : same_lock (Some x) y → ∃ z, y = Some z ∧ set_blkhd [] x = set_blkhd [] z.
Proof. unfold same_lock. destruct y; simpl; [|done]. intros [= E1 E2 E3 E4 E5 E6]. eexists. split; [done|]. unfold set_blkhd. congruence. Qed.

Lemma seg_same h h' p ls q :
  (∀ a, a ∈ addrs ls → same_lock (h !! a) (h' !! a)) → seg h p ls q → seg h' p ls q.
Proof.
  revert p. induction ls as [|l ls IH]; intros p Hs; [done|]. intros (-> & x & Hx & Ec & Hseg).
  split; [done|]. pose proof (Hs (k_addr l) ltac:(left)) as Hl. rewrite Hx in Hl.
  apply same_lock_Some in Hl as (y & Hy & E).
  exists y. split; [done|]. injection E as E1 E2 E3 E4 E5 E6.
  split; [unfold core in *; congruence|]. rewrite <- E6. apply IH; [|done].
  intros a Ha. apply Hs. by right.
Qed.

(** Writing the pointer behind a segment. *)
Lemma assign_ok s ls p q :
  seg (heap s) (v_lockf s) ls p → NoDup (addrs ls) →
  ∃ s', assign (lv ls) q s = Ok (tt, s') ∧ seg (heap s') (v_lockf s') ls q ∧
        wakeups s' = wakeups s ∧
        (∀ a, lv ls ≠ Next_of a → heap s' !! a = heap s !! a) ∧
        (∀ a, lv ls = Next_of a → ∃ x, heap s !! a = Some x ∧ heap s' = <[a := set_next q x]> (heap s)).
Proof.
  intros Hseg Hnd. destruct ls as [|l ls _] using rev_ind.
  - exists (VS (heap s) q (wakeups s)). by split_and!.
  - unfold lv. rewrite last_snoc. unfold assign, upd.
    apply seg_snoc in Hseg as (Hseg & x & Hx & Ec & Hn). rewrite Hx. eexists.
    split; [done|]. simpl. split_and!; [|done| |].
    + apply seg_snoc. split.
      * eapply seg_same; [|exact Hseg]. intros a Ha. rewrite lookup_insert_ne; [done|].
        intros <-. unfold addrs in Hnd. rewrite fmap_app in Hnd. apply NoDup_app in Hnd as (_ & Hd & _).
        eapply Hd; [exact Ha|]. left.
      * eexists. split; [apply lookup_insert_eq|]. split; [|done]. by rewrite <- Ec.
    + intros a Ha. rewrite lookup_insert_ne; [done|]. intros <-. done.
    + intros a [= <-]. eauto.
Qed.

(** ** Walking the list *)

Lemma get_ok s a x : heap s !! a = Some x → get a s = Ok (x, s).
Proof. unfold get. by intros ->. Qed.

Lemma nonnull_Some (a : addr) (s : vstate) : nonnull (Some a) s = Ok (a, s).
Proof. done. Qed.

Lemma upd_ok s a x f : heap s !! a = Some x →
  upd a f s = Ok (tt, VS (<[a := f x]> (heap s)) (v_lockf s) (wakeups s)).
Proof. unfold upd. by intros ->. Qed.

Lemma lv_snoc ls l : lv (ls ++ [l]) = Next_of (k_addr l).
Proof. unfold lv. by rewrite last_snoc. Qed.

Lemma ovcase_core type l a x : ovcase type (k_start l) (k_end l) x = ov_range type l (core a x).
Proof. done. Qed.

(** The locks the search by owner walks past. *)
Definition skips (l x : lk) : Prop := k_id x ≠ k_id l ∨ case_self l x = OvBefore.

Lemma find_self_ok fuel pre ls l xl s :
  seg (heap s) (first ls None) ls None → Forall valid ls → valid l →
  core (k_addr l) xl = l → (length ls ≤ fuel)%nat →
  ∃ sk rest c,
    ls = sk ++ rest ∧ Forall (skips l) sk ∧
    findoverlap_loop fuel (first ls None) xl SELF (lv pre) s
      = Ok ((c, lv (pre ++ sk), first rest None), s) ∧
    match rest with
    | [] => c = 0
    | x :: _ => k_id x = k_id l ∧ case_self l x ≠ OvBefore ∧ case_code (case_self l x) = Some c
    end.
Proof.
  intros Hseg Hv Hl El. revert fuel pre Hseg. induction ls as [|x ls IH]; intros fuel pre Hseg Hf.
  { exists [], [], 0. rewrite (app_nil_r pre). split_and!; [done|constructor|by destruct fuel|done]. }
  apply Forall_cons in Hv as [Hx Hv]. specialize (IH Hv).
  destruct Hseg as (_ & cx & Hcx & Ecx & Hseg). pose proof (seg_first _ _ _ _ Hseg) as En.
  destruct fuel as [|fuel]; [simpl in Hf; lia|]. cbn [findoverlap_loop first].
  mstep (get_ok _ _ _ Hcx). rewrite En in *.
  assert (skips l x → ∃ sk rest c,
    x :: ls = sk ++ rest ∧ Forall (skips l) sk ∧
    findoverlap_loop fuel (first ls None) xl SELF (Next_of (k_addr x)) s
      = Ok ((c, lv (pre ++ sk), first rest None), s) ∧
    match rest with
    | [] => c = 0
    | x :: _ => k_id x = k_id l ∧ case_self l x ≠ OvBefore ∧ case_code (case_self l x) = Some c
    end) as Hgo.
  { intros Hsk. destruct (IH fuel (pre ++ [x]) Hseg) as (sk & rest & c & -> & Hsk' & Hrun & Hc);
      [simpl in Hf; lia|].
    exists (x :: sk), rest, c. rewrite lv_snoc, <- app_assoc in Hrun. split_and!; [done|by constructor|done|done]. }
  destruct (skip_owner SELF xl cx) eqn:Eo.
  { apply Hgo. left. rewrite <- Ecx, <- El. unfold skip_owner in Eo.
    change (negb (Z.land SELF SELF =? 0)) with true in Eo.
    change (negb (Z.land SELF OTHERS =? 0)) with false in Eo. cbn in *. lia. }
  assert (k_id x = k_id l) as Eid.
  { rewrite <- Ecx, <- El. unfold skip_owner in Eo.
    change (negb (Z.land SELF SELF =? 0)) with true in Eo.
    change (negb (Z.land SELF OTHERS =? 0)) with false in Eo. cbn in *. lia. }
  destruct (ov_self_ok l x Hl Hx) as [Ec _].
  rewrite <- Ecx, <- El in Ec at 1. change (ov_range SELF _ _) with
    (ovcase SELF (lf_start xl) (lf_end xl) cx) in Ec. rewrite Ec.
  destruct (case_self l x) eqn:E; cbn [case_code] in *; [by apply Hgo; right|..];
    exists [], (x :: ls); eexists; rewrite (app_nil_r pre), E; cbn [first]; split_and!; done || constructor.
Qed.

Lemma find_others_ok fuel prev ls l xl s :
  seg (heap s) (first ls None) ls None → Forall valid ls → valid l →
  core (k_addr l) xl = l → (length ls ≤ fuel)%nat →
  ∃ sk rest c prev',
    ls = sk ++ rest ∧ Forall (λ x, k_id x = k_id l ∨ disjoint_lk l x) sk ∧
    findoverlap_loop fuel (first ls None) xl OTHERS prev s
      = Ok ((c, prev', first rest None), s) ∧
    match rest with
    | [] => c = 0
    | x :: _ => c ≠ 0 ∧ k_id x ≠ k_id l ∧ ¬ disjoint_lk l x
    end.
Proof.
  intros Hseg Hv Hl El. revert fuel prev Hseg. induction ls as [|x ls IH]; intros fuel prev Hseg Hf.
  { exists [], [], 0, prev. split_and!; [done|constructor|by destruct fuel|done]. }
  apply Forall_cons in Hv as [Hx Hv]. specialize (IH Hv).
  destruct Hseg as (_ & cx & Hcx & Ecx & Hseg). pose proof (seg_first _ _ _ _ Hseg) as En.
  destruct fuel as [|fuel]; [simpl in Hf; lia|]. cbn [findoverlap_loop first].
  mstep (get_ok _ _ _ Hcx). rewrite En in *.
  destruct (IH fuel (Next_of (k_addr x)) Hseg) as (sk & rest & c & prev' & Els & Hsk' & Hrun & Hc);
    [simpl in Hf; lia|].
  assert (skip_owner OTHERS xl cx = (k_id x =? k_id l)) as ->.
  { rewrite <- Ecx, <- El. unfold skip_owner.
    change (negb (Z.land OTHERS SELF =? 0)) with false.
    change (negb (Z.land OTHERS OTHERS =? 0)) with true. cbn. lia. }
  destruct (Z.eqb_spec (k_id x) (k_id l)) as [Eid|Eid].
  { exists (x :: sk), rest, c, prev'. rewrite Els. split_and!; [done|constructor; [by left|done]|by rewrite <- Els|done]. }
  destruct (ov_others_ok l x Hl Hx) as (r & Ec & Hr0 & Hr).
  rewrite <- Ecx, <- El in Ec at 1. change (ov_range OTHERS _ _) with
    (ovcase OTHERS (lf_start xl) (lf_end xl) cx) in Ec. rewrite Ec.
  destruct r as [c'|].
  - exists [], (x :: ls), c', prev. split_and!; [done|constructor|done|congruence|done|].
    intros Hd%Hr. done.
  - exists (x :: sk), rest, c, prev'. rewrite Els.
    split_and!; [done|constructor; [right; by apply Hr|done]|by rewrite <- Els|done].
Qed.

Lemma lf_findoverlap_eq lf lock xl type prev s :
  heap s !! lock = Some xl →
  lf_findoverlap lf lock type prev s = findoverlap_loop (S (size (heap s))) lf xl type prev s.
Proof. intros H. unfold lf_findoverlap. by mstep (get_ok _ _ _ H). Qed.

Lemma seg_tail h p ls ks : seg h p (ls ++ ks) None → seg h (first ks None) ks None.
Proof. by intros [_ ?]%seg_app. Qed.

Lemma blocker_skip l sk rest :
  Forall (λ x, k_id x = k_id l ∨ disjoint_lk l x) sk → blocker l (sk ++ rest) = blocker l rest.
Proof.
  induction 1 as [|x sk Hx Hsk IH]; [done|]. cbn [app]. rewrite blocker_cons.
  destruct (decide (conflicts l x)) as [(? & ? & _)|]; [|done]. naive_solver.
Qed.

Lemma getblock_loop_ok fuel ls lock l xl prev s :
  heap s !! lock = Some xl → core (k_addr l) xl = l →
  seg (heap s) (first ls None) ls None → Forall valid ls → valid l →
  (length ls ≤ size (heap s))%nat → (length ls < fuel)%nat →
  getblock_loop fuel (first ls None) lock prev s = Ok (k_addr <$> blocker l ls, s).
Proof.
  intros Hxl El. revert ls prev. induction fuel as [|fuel IH]; intros ls prev Hseg Hv Hl Hsz Hf; [lia|].
  cbn [getblock_loop].
  destruct (find_others_ok (S (size (heap s))) prev ls l xl s Hseg Hv Hl El)
    as (sk & rest & c & prev' & -> & Hsk & Hrun & Hc); [lia|].
  rewrite <- (lf_findoverlap_eq _ _ _ _ _ _ Hxl) in Hrun. mstep Hrun.
  rewrite (blocker_skip _ _ _ Hsk). destruct rest as [|x rest]; [by subst c|].
  destruct Hc as (Hc & Hid & Hov). destruct (Z.eqb_spec c 0); [done|].
  apply seg_tail in Hseg. pose proof Hseg as (_ & cx & Hcx & Ecx & Hrest).
  pose proof (seg_first _ _ _ _ Hrest) as En. cbn [first].
  mstep (nonnull_Some (k_addr x) s). mstep (get_ok _ _ _ Hxl). mstep (get_ok _ _ _ Hcx).
  rewrite blocker_cons.
  replace (lf_type xl) with (k_type l) by (by rewrite <- El).
  replace (lf_type cx) with (k_type x) by (by rewrite <- Ecx).
  destruct (decide (conflicts l x)) as [(_ & _ & Hty)|Hn].
  - replace ((k_type l =? F_WRLCK) || (k_type x =? F_WRLCK)) with true; [done|].
    destruct Hty as [->| ->]; [done|]. by rewrite orb_true_r.
  - replace ((k_type l =? F_WRLCK) || (k_type x =? F_WRLCK)) with false.
    + rewrite En in *. apply Forall_app in Hv as [_ [_ Hv]%Forall_cons].
      rewrite length_app in *. simpl in *. apply IH; done || lia.
    + symmetry. apply orb_false_iff. rewrite !Z.eqb_neq. unfold conflicts in Hn. tauto.
Qed.

(** ** Blocked requests *)

Record waiting (h : gmap addr lockf) (gr : gset addr) (sl : gmap addr lk) (wk : list addr) : Prop := {
  w_dom : dom h = gr ∪ dom sl;
  w_disj : gr ## dom sl;
  w_queue : ∀ a x w, a ∈ gr → h !! a = Some x → w ∈ lf_blkhd x →
              w ∈ dom sl ∧ ∃ y, h !! w = Some y ∧ lf_next y = Some a;
  w_nodup : ∀ a x, h !! a = Some x → NoDup (lf_blkhd x);
  w_sleep : ∀ w y, w ∈ dom sl → h !! w = Some y → lf_blkhd y = [] ∧
              match lf_next y with
              | Some a => a ∈ gr ∧ ∃ x, h !! a = Some x ∧ w ∈ lf_blkhd x
              | None => w ∈ wk
              end;
  w_req : ∀ w q y, sl !! w = Some q → h !! w = Some y → core w y = q;
}.

(** Changing a granted lock but for its queue. *)
Lemma waiting_upd h gr sl wk a x x' :
  waiting h gr sl wk → a ∈ gr → h !! a = Some x → lf_blkhd x' = lf_blkhd x →
  waiting (<[a := x']> h) gr sl wk.
Proof.
  intros [Hd Hdj Hq Hn Hs Hrq] Ha Hx Eb. split.
  - rewrite dom_insert_L. assert (a ∈ dom h) by (by apply elem_of_dom_2 in Hx). set_solver.
  - done.
  - intros b y w Hb Hy Hw.
    assert (∃ y', h !! b = Some y' ∧ lf_blkhd y' = lf_blkhd y) as (y' & Hy' & Ey).
    { destruct (decide (a = b)) as [<-|]; simplify_map_eq; eauto. }
    rewrite <- Ey in Hw. destruct (Hq b y' w Hb Hy' Hw) as (Hws & z & Hz & Ez). split; [done|].
    exists z. split; [|done]. rewrite lookup_insert_ne; [done|]. set_solver.
  - intros b y Hy. destruct (decide (a = b)) as [<-|]; simplify_map_eq; [rewrite Eb|]; eauto.
  - intros w y Hw Hy. rewrite lookup_insert_ne in Hy by set_solver.
    destruct (Hs w y Hw Hy) as [Ey H]. split; [done|]. destruct (lf_next y) as [b|]; [|done].
    destruct H as (Hb & z & Hz & Hwz). split; [done|].
    destruct (decide (a = b)) as [<-|]; [|by simplify_map_eq; eauto].
    exists x'. simplify_map_eq. split; [done|]. by rewrite Eb.
  - intros w q y Hq' Hy. apply elem_of_dom_2 in Hq' as Hw. rewrite lookup_insert_ne in Hy by set_solver. eauto.
Qed.

Lemma waiting_malloc h gr sl wk a x :
  waiting h gr sl wk → a ∉ dom h → lf_blkhd x = [] → waiting (<[a := x]> h) ({[a]} ∪ gr) sl wk.
Proof.
  intros [Hd Hdj Hq Hn Hs Hrq] Ha Eb. assert (h !! a = None) as Hna by (by apply not_elem_of_dom).
  split.
  - rewrite dom_insert_L. set_solver.
  - set_solver.
  - intros b y w Hb Hy Hw. destruct (decide (a = b)) as [<-|].
    { simplify_map_eq. rewrite Eb in Hw. by apply elem_of_nil in Hw. }
    rewrite lookup_insert_ne in Hy by done.
    destruct (Hq b y w ltac:(set_solver) Hy Hw) as (Hws & z & Hz & Ez). split; [done|].
    exists z. split; [|done]. rewrite lookup_insert_ne; [done|]. congruence.
  - intros b y Hy. destruct (decide (a = b)) as [<-|]; simplify_map_eq; eauto.
    rewrite Eb. constructor.
  - intros w y Hw Hy. destruct (decide (a = w)) as [<-|]; [set_solver|].
    rewrite lookup_insert_ne in Hy by done.
    destruct (Hs w y Hw Hy) as [Ey H]. split; [done|]. destruct (lf_next y) as [b|]; [|done].
    destruct H as (Hb & z & Hz & Hwz). split; [set_solver|].
    exists z. split; [|done]. rewrite lookup_insert_ne; [done|]. congruence.
  - intros w q y Hq' Hy. apply elem_of_dom_2 in Hq' as Hw. rewrite lookup_insert_ne in Hy by set_solver. eauto.
Qed.

Lemma waiting_free h gr sl wk a x :
  waiting h gr sl wk → a ∈ gr → h !! a = Some x → lf_blkhd x = [] →
  waiting (delete a h) (gr ∖ {[a]}) sl wk.
Proof.
  intros [Hd Hdj Hq Hn Hs Hrq] Ha Hx Eb. split.
  - rewrite dom_delete_L. set_solver.
  - set_solver.
  - intros b y w Hb Hy Hw. rewrite lookup_delete_ne in Hy by set_solver.
    destruct (Hq b y w ltac:(set_solver) Hy Hw) as (Hws & z & Hz & Ez). split; [done|].
    exists z. split; [|done]. rewrite lookup_delete_ne; [done|]. set_solver.
  - intros b y Hy. apply lookup_delete_Some in Hy as [_ Hy]. eauto.
  - intros w y Hw Hy. apply lookup_delete_Some in Hy as [_ Hy].
    destruct (Hs w y Hw Hy) as [Ey H]. split; [done|]. destruct (lf_next y) as [b|]; [|done].
    destruct H as (Hb & z & Hz & Hwz).
    destruct (decide (a = b)) as [<-|].
    { rewrite Hx in Hz. simplify_eq. rewrite Eb in Hwz. by apply elem_of_nil in Hwz. }
    split; [set_solver|]. exists z. split; [|done]. by rewrite lookup_delete_ne.
  - intros w q y Hq' Hy. apply lookup_delete_Some in Hy as [_ Hy]. eauto.
Qed.

(** ** Waking the queue of a lock *)

Lemma filter_ne_head (w : addr) rest : NoDup (w :: rest) → filter (λ v, v ≠ w) (w :: rest) = rest.
Proof.
  intros [Hw Hnd]%NoDup_cons. rewrite filter_cons_False by (intros H; by apply H).
  clear Hnd. induction rest as [|v rest IH]; [done|].
  rewrite filter_cons_True by (intros ->; apply Hw; left). f_equal. apply IH.
  intros H. apply Hw. by right.
Qed.

Section queue_head.
Context (h : gmap addr lockf) (gr : gset addr) (sl : gmap addr lk) (wk : list addr) (Hw : waiting h gr sl wk).
Context (o : addr) (x : lockf) (w : addr) (rest : list addr) (y : lockf).
Context (Ho : o ∈ gr) (Hx : h !! o = Some x) (Eb : lf_blkhd x = w :: rest) (Hy : h !! w = Some y).

Lemma head_sleeps : w ∈ dom sl ∧ (w ∉ gr) ∧ lf_next y = Some o ∧ lf_blkhd y = [] ∧ (w ∉ rest) ∧ NoDup rest.
Proof using Hw Ho Hx Eb Hy.
  destruct Hw as [Hd Hdj Hq Hn Hs Hrq]. destruct (Hq o x w Ho Hx) as (Hws & z & Hz & Ez);
    [rewrite Eb; left|]. simplify_eq. destruct (Hs w y Hws Hy) as [Ey _].
  specialize (Hn o x Hx). rewrite Eb in Hn. apply NoDup_cons in Hn. set_solver.
Qed.

Lemma waiting_wake_one :
  waiting (<[w := set_next None y]> (<[o := set_blkhd rest x]> h)) gr sl (wk ++ [w]).
Proof using Hw Ho Hx Eb Hy.
  pose proof head_sleeps as (Hws & Hwg & Eny & Eby & Hwr & Hndr).
  destruct Hw as [Hd Hdj Hq Hn Hs Hrq]. assert (w ≠ o) by set_solver. split.
  - rewrite !dom_insert_L. apply elem_of_dom_2 in Hx, Hy. set_solver.
  - done.
  - intros b z v Hb Hz Hv. assert (w ≠ b) by set_solver. rewrite lookup_insert_ne in Hz by done.
    destruct (decide (o = b)) as [<-|Hob].
    + simplify_map_eq. cbn in Hv. destruct (Hq o x v Ho Hx) as (Hvs & u & Hu & Eu);
        [rewrite Eb; by right|]. split; [done|]. exists u. split; [|done].
      rewrite !lookup_insert_ne; [done|set_solver|set_solver].
    + rewrite lookup_insert_ne in Hz by done. destruct (Hq b z v Hb Hz Hv) as (Hvs & u & Hu & Eu).
      split; [done|]. exists u. split; [|done].
      rewrite !lookup_insert_ne; [done|set_solver|]. intros <-. simplify_eq.
  - intros b z Hz. destruct (decide (w = b)) as [<-|]; [simplify_map_eq; cbn; rewrite Eby; constructor|].
    rewrite lookup_insert_ne in Hz by done.
    destruct (decide (o = b)) as [<-|]; simplify_map_eq; [done|eauto].
  - intros v z Hv Hz. destruct (decide (w = v)) as [<-|Hne].
    { simplify_map_eq. cbn. split; [done|]. apply elem_of_app. right. left. }
    assert (o ≠ v) by set_solver. rewrite !lookup_insert_ne in Hz by done.
    destruct (Hs v z Hv Hz) as [Ez Hz']. split; [done|]. destruct (lf_next z) as [b|].
    + destruct Hz' as (Hb & u & Hu & Hvu). split; [done|].
      assert (w ≠ b) by set_solver. rewrite lookup_insert_ne by done.
      destruct (decide (o = b)) as [<-|]; [|by rewrite lookup_insert_ne by done; eauto].
      simplify_map_eq. eexists. split; [done|]. cbn. rewrite Eb in Hvu.
      apply elem_of_cons in Hvu as [->|]; done.
    + apply elem_of_app. by left.
  - intros v q z Hq' Hz. apply elem_of_dom_2 in Hq' as Hv. assert (o ≠ v) by set_solver.
    destruct (decide (w = v)) as [<-|]; simplify_map_eq; [|eauto].
    by rewrite <- (Hrq _ _ _ Hq' Hy).
Qed.

Lemma waiting_take_one (l : addr) (xl : lockf) :
  l ∈ gr → l ≠ o → h !! l = Some xl →
  waiting (<[w := set_next (Some l) y]> (<[l := set_blkhd (lf_blkhd xl ++ [w]) xl]>
            (<[o := set_blkhd rest x]> h))) gr sl wk.
Proof using Hw Ho Hx Eb Hy.
  intros Hl Hlo Hxl. pose proof head_sleeps as (Hws & Hwg & Eny & Eby & Hwr & Hndr).
  destruct Hw as [Hd Hdj Hq Hn Hs Hrq]. assert (w ≠ o ∧ w ≠ l) as [Hwo Hwl] by set_solver.
  assert (w ∉ lf_blkhd xl) as Hwxl.
  { intros H. destruct (Hq l xl w Hl Hxl H) as (_ & z & Hz & Ez). simplify_eq. }
  split.
  - rewrite !dom_insert_L. apply elem_of_dom_2 in Hx, Hy, Hxl. set_solver.
  - done.
  - intros b z v Hb Hz Hv. assert (w ≠ b) by set_solver. rewrite lookup_insert_ne in Hz by done.
    assert (v = w ∧ b = l ∨ v ≠ w ∧ ∃ z', h !! b = Some z' ∧ v ∈ lf_blkhd z') as [[-> ->]|(Hvw & z' & Hz' & Hv')].
    { destruct (decide (l = b)) as [<-|]; [|destruct (decide (o = b)) as [<-|]]; simplify_map_eq; cbn in Hv.
      - apply elem_of_app in Hv as [Hv|Hv%list_elem_of_singleton]; [right|by left].
        split; [congruence|eauto].
      - right. split; [congruence|]. exists x. split; [done|]. rewrite Eb. by right.
      - right. split; [|eauto]. intros ->. destruct (Hq b z w Hb Hz Hv) as (_ & u & Hu & Eu). simplify_eq. }
    + split; [done|]. simplify_map_eq. eauto.
    + destruct (Hq b z' v Hb Hz' Hv') as (Hvs & u & Hu & Eu). split; [done|]. exists u.
      rewrite !lookup_insert_ne by set_solver. done.
  - intros b z Hz. destruct (decide (w = b)) as [<-|]; [simplify_map_eq; cbn; rewrite Eby; constructor|].
    rewrite lookup_insert_ne in Hz by done.
    destruct (decide (l = b)) as [<-|]; [|destruct (decide (o = b)) as [<-|]]; simplify_map_eq; cbn; [|done|eauto].
    apply NoDup_app. split; [eauto|]. split; [|apply NoDup_singleton].
    intros v Hv ->%list_elem_of_singleton. done.
  - intros v z Hv Hz. destruct (decide (w = v)) as [<-|Hne].
    { simplify_map_eq. cbn. split; [done|]. split; [done|].
      eexists. split; [by simplify_map_eq|]. cbn. apply elem_of_app. right. left. }
    rewrite !lookup_insert_ne in Hz by set_solver.
    destruct (Hs v z Hv Hz) as [Ez Hz']. split; [done|]. destruct (lf_next z) as [b|]; [|done].
    destruct Hz' as (Hb & u & Hu & Hvu). split; [done|].
    assert (w ≠ b) by set_solver. rewrite lookup_insert_ne by done.
    destruct (decide (l = b)) as [<-|]; [|destruct (decide (o = b)) as [<-|]]; simplify_map_eq; eexists;
      (split; [done|]); cbn.
    + apply elem_of_app. by left.
    + rewrite Eb in Hvu. apply elem_of_cons in Hvu as [->|]; done.
    + done.
  - intros v q z Hq' Hz. apply elem_of_dom_2 in Hq' as Hv. assert (o ≠ v ∧ l ≠ v) as [? ?] by set_solver.
    destruct (decide (w = v)) as [<-|]; simplify_map_eq; [|eauto].
    by rewrite <- (Hrq _ _ _ Hq' Hy).
Qed.

End queue_head.

Lemma TAILQ_REMOVE_ok s h x w rest :
  heap s !! h = Some x → lf_blkhd x = w :: rest → NoDup (w :: rest) →
  TAILQ_REMOVE h w s = Ok (tt, VS (<[h := set_blkhd rest x]> (heap s)) (v_lockf s) (wakeups s)).
Proof.
  intros Hx Eb Hnd. unfold TAILQ_REMOVE. mstep (get_ok _ _ _ Hx).
  rewrite bool_decide_true by (rewrite Eb; left). rewrite (upd_ok _ _ _ _ Hx).
  by rewrite Eb, filter_ne_head.
Qed.

Lemma set_blkhd_twice b c x : set_blkhd b (set_blkhd c x) = set_blkhd b x.
Proof. done. Qed.

(** [lf_wakelock] empties the queue of a granted lock, marks and wakes every
    request in it, and leaves all granted locks as they were. *)
Record woken (s : vstate) (o : addr) (x : lockf) (gr : gset addr) (sl : gmap addr lk) (s' : vstate) : Prop := {
  wo_head : v_lockf s' = v_lockf s;
  wo_wait : waiting (heap s') gr sl (wakeups s');
  wo_lock : heap s' !! o = Some (set_blkhd [] x);
  wo_other : ∀ a, a ∈ gr → a ≠ o → heap s' !! a = heap s !! a;
  wo_wakeups : wakeups s' = wakeups s ++ lf_blkhd x;
}.

Lemma wakelock_loop_ok fuel s o x gr sl :
  waiting (heap s) gr sl (wakeups s) → o ∈ gr → heap s !! o = Some x →
  (length (lf_blkhd x) < fuel)%nat →
  ∃ s', wakelock_loop fuel o s = Ok (tt, s') ∧ woken s o x gr sl s'.
Proof.
  revert s x. induction fuel as [|fuel IH]; intros s x Hw Ho Hx Hf; [lia|].
  cbn [wakelock_loop]. mstep (get_ok _ _ _ Hx).
  destruct (lf_blkhd x) as [|w rest] eqn:Eb.
  { exists s. split; [done|]. split; [done..| |done|by rewrite Eb, app_nil_r].
    rewrite Hx, <- Eb. by destruct x. }
  destruct (w_queue _ _ _ _ Hw o x w Ho Hx) as (_ & y & Hy & _); [rewrite Eb; left|].
  pose proof (head_sleeps _ _ _ _ Hw o x w rest y Ho Hx Eb Hy) as (Hws & Hwg & _ & _ & Hwr & Hnd).
  pose proof (TAILQ_REMOVE_ok _ _ _ _ _ Hx Eb ltac:(by constructor)) as E. mstep E. clear E.
  assert (w ≠ o) by set_solver.
  set (s1 := VS _ _ _). assert (heap s1 !! w = Some y) as Hy1 by (by cbn; simplify_map_eq).
  mstep (upd_ok _ _ _ (set_next None) Hy1). unfold wakeup. unfold mbind, M_bind at 1. cbn.
  pose proof (waiting_wake_one _ _ _ _ Hw o x w rest y Ho Hx Eb Hy) as Hw'.
  edestruct (IH (VS (<[w := set_next None y]> (<[o := set_blkhd rest x]> (heap s))) (v_lockf s) (wakeups s ++ [w]))
    (set_blkhd rest x)) as (s' & Hrun & [H1 H2 H3 H4 H5]); [exact Hw'|done|cbn; by simplify_map_eq|cbn in *; lia|].
  exists s'. split; [done|]. cbn in *. split; [done..| |].
  - intros a Ha Hao. rewrite H4 by done. rewrite !lookup_insert_ne; [done|done|set_solver].
  - by rewrite H5, Eb, <- app_assoc.
Qed.

Lemma lf_wakelock_ok s o x gr sl :
  waiting (heap s) gr sl (wakeups s) → o ∈ gr → heap s !! o = Some x →
  ∃ s', lf_wakelock o s = Ok (tt, s') ∧ woken s o x gr sl s'.
Proof.
  intros Hw Ho Hx. unfold lf_wakelock. mstep (get_ok _ _ _ Hx).
  apply wakelock_loop_ok; [done..|lia].
Qed.

(** Moving the queue of [o] behind the one of [l]. *)
Record taken (s : vstate) (o : addr) (x : lockf) (l : addr) (xl : lockf) (gr : gset addr) (sl : gmap addr lk)
    (s' : vstate) : Prop := {
  ta_head : v_lockf s' = v_lockf s;
  ta_wait : waiting (heap s') gr sl (wakeups s');
  ta_from : heap s' !! o = Some (set_blkhd [] x);
  ta_to : heap s' !! l = Some (set_blkhd (lf_blkhd xl ++ lf_blkhd x) xl);
  ta_other : ∀ a, a ∈ gr → a ≠ o → a ≠ l → heap s' !! a = heap s !! a;
  ta_wakeups : wakeups s' = wakeups s;
}.

Lemma take_list_loop_ok fuel s o x l xl gr sl :
  waiting (heap s) gr sl (wakeups s) → o ∈ gr → heap s !! o = Some x →
  l ∈ gr → l ≠ o → heap s !! l = Some xl → (length (lf_blkhd x) < fuel)%nat →
  ∃ s', take_list_loop fuel o l s = Ok (tt, s') ∧ taken s o x l xl gr sl s'.
Proof.
  revert s x xl. induction fuel as [|fuel IH]; intros s x xl Hw Ho Hx Hl Hlo Hxl Hf; [lia|].
  cbn [take_list_loop]. mstep (get_ok _ _ _ Hx).
  destruct (lf_blkhd x) as [|w rest] eqn:Eb.
  { exists s. split; [done|]. split; [done..| | |done|done].
    - rewrite Hx, <- Eb. by destruct x.
    - rewrite Hxl, Eb, app_nil_r. by destruct xl. }
  destruct (w_queue _ _ _ _ Hw o x w Ho Hx) as (_ & y & Hy & _); [rewrite Eb; left|].
  pose proof (head_sleeps _ _ _ _ Hw o x w rest y Ho Hx Eb Hy) as (Hws & Hwg & _ & _ & Hwr & Hnd).
  pose proof (TAILQ_REMOVE_ok _ _ _ _ _ Hx Eb ltac:(by constructor)) as E. mstep E. clear E.
  assert (w ≠ o ∧ w ≠ l) as [? ?] by set_solver.
  set (s1 := VS _ _ _). assert (heap s1 !! l = Some xl) as Hl1 by (by cbn; simplify_map_eq).
  unfold TAILQ_INSERT_TAIL. mstep (upd_ok _ _ _ (λ x, set_blkhd (lf_blkhd x ++ [w]) x) Hl1).
  set (s2 := VS _ _ _). assert (heap s2 !! w = Some y) as Hy2 by (by cbn; simplify_map_eq).
  mstep (upd_ok _ _ _ (set_next (Some l)) Hy2).
  pose proof (waiting_take_one _ _ _ _ Hw o x w rest y Ho Hx Eb Hy l xl Hl Hlo Hxl) as Hw'.
  edestruct (IH (VS (<[w := set_next (Some l) y]> (<[l := set_blkhd (lf_blkhd xl ++ [w]) xl]>
      (<[o := set_blkhd rest x]> (heap s)))) (v_lockf s) (wakeups s))
    (set_blkhd rest x) (set_blkhd (lf_blkhd xl ++ [w]) xl)) as (s' & Hrun & [H1 H2 H3 H4 H5 H6]);
    [exact Hw'|done|cbn; by simplify_map_eq|done|done|cbn; by simplify_map_eq|cbn in *; lia|].
  exists s'. split; [done|]. cbn in *. split; [done..| | |done].
  - by rewrite H4, Eb, <- app_assoc.
  - intros a Ha Hao Hal. rewrite H5 by done. rewrite !lookup_insert_ne; [done|done|done|set_solver].
Qed.

Lemma take_list_ok s o x l xl gr sl :
  waiting (heap s) gr sl (wakeups s) → o ∈ gr → heap s !! o = Some x →
  l ∈ gr → l ≠ o → heap s !! l = Some xl →
  ∃ s', take_list o l s = Ok (tt, s') ∧ taken s o x l xl gr sl s'.
Proof.
  intros Hw Ho Hx Hl Hlo Hxl. unfold take_list. mstep (get_ok _ _ _ Hx).
  apply take_list_loop_ok; [done..|lia].
Qed.
