(* ===== verification/LockfLinked.v ===== *)
(** * Advisory byte-range locks: surgery on the list of a vnode

    [linked s ls cur sl]: the list of the vnode is [ls], [cur] is a lock being
    worked on that is not in the list, [sl] are the blocked requests.  One
    lemma for each way [lf_setlock], [lf_clearlock] and [lf_split] change the
    list. *)

From S2P Require Import Prelude Lockf LockfList LockfHeap.

Definition cur_set (cur : option (addr * lockf)) : gset addr :=
  match cur with Some (u, _) => {[u]} | None => ∅ end.

Definition granted (ls : list lk) (cur : option (addr * lockf)) : gset addr :=
  list_to_set (addrs ls) ∪ cur_set cur.

Record linked (s : vstate) (ls : list lk) (cur : option (addr * lockf)) (sl : gmap addr lk) : Prop := {
  li_seg : seg (heap s) (v_lockf s) ls None;
  li_nodup : NoDup (addrs ls);
  li_cur : match cur with Some (u, xu) => heap s !! u = Some xu ∧ u ∉ addrs ls | None => True end;
  li_wait : waiting (heap s) (granted ls cur) sl (wakeups s);
}.

Lemma addrs_app ls ks : addrs (ls ++ ks) = addrs ls ++ addrs ks.
Proof. apply fmap_app. Qed.

Lemma addrs_cons l ls : addrs (l :: ls) = k_addr l :: addrs ls.
Proof. done. Qed.

Lemma granted_perm ls ks cur cur' :
  (∀ a, a ∈ granted ls cur ↔ a ∈ granted ks cur') → granted ls cur = granted ks cur'.
Proof. intros H. by apply set_eq. Qed.

Lemma elem_of_granted a ls cur : a ∈ granted ls cur ↔ a ∈ addrs ls ∨ a ∈ cur_set cur.
Proof. unfold granted. by rewrite elem_of_union, elem_of_list_to_set. Qed.

(** Membership of addresses in the lists at hand. *)
Ltac addr_simpl :=
  rewrite ?elem_of_granted, ?addrs_app, ?addrs_cons, ?elem_of_app, ?elem_of_cons in *;
  cbn [cur_set k_addr with_start with_end with_type with_addr core] in *.

Ltac granted_tauto :=
  rewrite ?elem_of_granted, ?addrs_app, ?addrs_cons, ?elem_of_app, ?elem_of_cons;
  cbn; rewrite ?elem_of_singleton, ?elem_of_empty, ?elem_of_nil; tauto.

Lemma mid_granted pre x r cur : k_addr x ∈ granted (pre ++ x :: r) cur.
Proof. apply elem_of_granted. left. rewrite addrs_app, addrs_cons. apply elem_of_app. right. left. Qed.

Lemma cur_granted ls u xu : u ∈ granted ls (Some (u, xu)).
Proof. apply elem_of_granted. right. cbn. by rewrite elem_of_singleton. Qed.

Lemma nodup_mid pre x r :
  NoDup (addrs (pre ++ x :: r)) →
  NoDup (addrs pre) ∧ NoDup (addrs r) ∧ (k_addr x ∉ addrs pre) ∧ (k_addr x ∉ addrs r) ∧
  (∀ a, a ∈ addrs pre → a ∉ addrs r).
Proof.
  rewrite addrs_app, addrs_cons. intros (H1 & H2 & H3)%NoDup_app.
  apply NoDup_cons in H3 as [H3 H4]. split_and!; [done..| | |].
  - intros H. apply (H2 _ H). left.
  - done.
  - intros a Ha Hr. apply (H2 _ Ha). by right.
Qed.

Lemma seg_dom h p ls q a : seg h p ls q → a ∈ addrs ls → a ∈ dom h.
Proof.
  revert p. induction ls as [|l ls IH]; intros p; [by intros _ ?%elem_of_nil|].
  intros (_ & x & Hx & _ & Hs) [->|Ha]%elem_of_cons; [by eapply elem_of_dom_2|by eapply IH].
Qed.

Lemma linked_size s ls cur sl : linked s ls cur sl → (length ls ≤ size (heap s))%nat.
Proof.
  intros [Hs Hn _ _]. rewrite <- (length_fmap k_addr ls), <- size_dom.
  fold (addrs ls). rewrite <- (size_list_to_set (C := gset addr)) by done.
  apply subseteq_size. intros a Ha%elem_of_list_to_set. by eapply seg_dom.
Qed.

Lemma linked_get s pre x r cur sl :
  linked s (pre ++ x :: r) cur sl →
  ∃ cx, heap s !! k_addr x = Some cx ∧ core (k_addr x) cx = x ∧ lf_next cx = first r None ∧
        k_addr x ∈ granted (pre ++ x :: r) cur.
Proof.
  intros [Hs _ _ _]. apply seg_app in Hs as [_ (_ & cx & Hcx & Ec & Hr)].
  exists cx. split_and!; [done..|by eapply seg_first|]. addr_simpl. auto.
Qed.

(** Changing the fields of a lock of the list. *)
Lemma linked_upd s pre x r cur sl cx c' y :
  linked s (pre ++ x :: r) cur sl → heap s !! k_addr x = Some cx →
  lf_next c' = lf_next cx → lf_blkhd c' = lf_blkhd cx → core (k_addr x) c' = y →
  linked (VS (<[k_addr x := c']> (heap s)) (v_lockf s) (wakeups s)) (pre ++ y :: r) cur sl.
Proof.
  intros [Hs Hn Hc Hw] Hcx En Eb <-. pose proof (nodup_mid _ _ _ Hn) as (_ & _ & Hp & Hr & _).
  assert (addrs (pre ++ core (k_addr x) c' :: r) = addrs (pre ++ x :: r)) as Ea
    by (by rewrite !addrs_app).
  split; cbn.
  - apply seg_app in Hs as [H1 (_ & cx' & Hcx' & _ & H2)]. simplify_eq. apply seg_app. split.
    + eapply seg_same; [|exact H1]. intros a Ha. rewrite lookup_insert_ne; [done|congruence].
    + split; [done|]. exists c'. cbn. rewrite lookup_insert_eq. split_and!; [done..|].
      rewrite En. eapply seg_same; [|exact H2]. intros a Ha. rewrite lookup_insert_ne; [done|congruence].
  - by rewrite Ea.
  - destruct cur as [[u xu]|]; [|done]. destruct Hc as [Hu Hun]. rewrite Ea. split; [|done].
    rewrite lookup_insert_ne; [done|]. intros <-. apply Hun. addr_simpl. auto.
  - unfold granted in *. rewrite Ea. eapply waiting_upd; [exact Hw| |exact Hcx|done].
    rewrite elem_of_union, elem_of_list_to_set. left. addr_simpl. auto.
Qed.

(** Waking the queue of a lock of the list. *)
Lemma linked_wake s pre x r cur sl cx :
  linked s (pre ++ x :: r) cur sl → heap s !! k_addr x = Some cx →
  ∃ s', lf_wakelock (k_addr x) s = Ok (tt, s') ∧ linked s' (pre ++ x :: r) cur sl ∧
        heap s' !! k_addr x = Some (set_blkhd [] cx) ∧ v_lockf s' = v_lockf s.
Proof.
  intros Hl Hcx. destruct (linked_get _ _ _ _ _ _ Hl) as (cx' & Hcx' & _ & _ & Hg). simplify_eq.
  destruct Hl as [Hs Hn Hc Hw].
  destruct (lf_wakelock_ok s (k_addr x) cx _ sl Hw Hg Hcx) as (s' & Hrun & [H1 H2 H3 H4 _]).
  exists s'. split_and!; [done| |done|done]. split; [|done| |done].
  - rewrite H1. eapply seg_same; [|exact Hs]. intros a Ha.
    destruct (decide (a = k_addr x)) as [->|Hne]; [rewrite Hcx, H3; done|].
    rewrite H4; [done| |done]. rewrite elem_of_granted. by left.
  - destruct cur as [[u xu]|]; [|done]. destruct Hc as [Hu Hun]. split; [|done].
    rewrite H4; [done| |]; [rewrite elem_of_granted; right; cbn; set_solver|].
    intros ->. apply Hun. addr_simpl. auto.
Qed.

(** The heap after [*prev = q], where [prev] points behind [pre]. *)
Lemma linked_assign s pre suf cur sl q :
  linked s (pre ++ suf) cur sl →
  ∃ s', assign (lv pre) q s = Ok (tt, s') ∧ seg (heap s') (v_lockf s') pre q ∧
        wakeups s' = wakeups s ∧
        waiting (heap s') (granted (pre ++ suf) cur) sl (wakeups s') ∧
        (∀ a, a ∉ addrs pre → heap s' !! a = heap s !! a).
Proof.
  intros [Hs Hn Hc Hw]. apply seg_app in Hs as [H1 _].
  assert (NoDup (addrs pre)) as Hnp by (rewrite addrs_app in Hn; by apply NoDup_app in Hn as [? _]).
  destruct (assign_ok s pre _ q H1 Hnp) as (s' & Hrun & Hseg & Hwk & Hne & Heq).
  exists s'. split_and!; [done..| |].
  - rewrite Hwk. destruct (lv pre) as [|a] eqn:Elv.
    + assert (heap s' = heap s) as -> by (apply map_eq; intros a; by apply Hne). done.
    + destruct (Heq a eq_refl) as (x & Hx & ->). eapply waiting_upd; [exact Hw| |exact Hx|done].
      rewrite elem_of_granted. left. addr_simpl. left.
      unfold lv in Elv. destruct (last pre) as [l|] eqn:El; [|done]. simplify_eq.
      apply last_Some in El as [k ->]. rewrite addrs_app. apply elem_of_app. right. left.
  - intros a Ha. apply Hne. intros Elv. apply Ha.
    unfold lv in Elv. destruct (last pre) as [l|] eqn:El; [|done]. simplify_eq.
    apply last_Some in El as [k ->]. rewrite addrs_app. apply elem_of_app. right. left.
Qed.

Lemma FREE_ok s a x : heap s !! a = Some x →
  FREE a s = Ok (tt, VS (delete a (heap s)) (v_lockf s) (wakeups s)).
Proof. unfold FREE. by intros ->. Qed.

(** Taking a lock with no queue out of the list and freeing it. *)
Lemma linked_unlink s pre x r cur sl cx :
  linked s (pre ++ x :: r) cur sl → heap s !! k_addr x = Some cx → lf_blkhd cx = [] →
  ∃ s1 s', assign (lv pre) (lf_next cx) s = Ok (tt, s1) ∧
           FREE (k_addr x) s1 = Ok (tt, s') ∧ linked s' (pre ++ r) cur sl.
Proof.
  intros Hl Hcx Eb. destruct (linked_get _ _ _ _ _ _ Hl) as (cx' & Hcx' & _ & En & Hg). simplify_eq.
  destruct (linked_assign _ _ _ _ _ (lf_next cx) Hl) as (s1 & Hrun & Hseg & Hwk & Hw1 & Hfr).
  destruct Hl as [Hs Hn Hc Hw]. pose proof (nodup_mid _ _ _ Hn) as (Hnp & Hnr & Hp & Hr & Hpr).
  assert (heap s1 !! k_addr x = Some cx) as Hx1 by (by rewrite Hfr).
  exists s1. eexists. split; [done|]. split; [exact (FREE_ok _ _ _ Hx1)|].
  assert (granted (pre ++ x :: r) cur ∖ {[k_addr x]} = granted (pre ++ r) cur) as Eg.
  { apply set_eq. intros a. rewrite elem_of_difference, elem_of_singleton. addr_simpl.
    destruct cur as [[u xu]|]; cbn; [rewrite elem_of_singleton; destruct Hc as [_ Hun]; addr_simpl|
      rewrite elem_of_empty]; naive_solver. }
  split; cbn.
  - rewrite En in Hseg. apply seg_app in Hs as [_ (_ & c & Hc' & _ & H2)]. simplify_eq. rewrite En in H2.
    apply seg_app. split.
    + eapply seg_same; [|exact Hseg]. intros a Ha. rewrite lookup_delete_ne; [done|congruence].
    + eapply seg_same; [|exact H2]. intros a Ha. rewrite lookup_delete_ne by congruence.
      rewrite Hfr; [done|]. intros H. by apply (Hpr a).
  - rewrite addrs_app. apply NoDup_app. split_and!; done.
  - destruct cur as [[u xu]|]; [|done]. destruct Hc as [Hu Hun]. addr_simpl.
    rewrite lookup_delete_ne by naive_solver. rewrite Hfr by naive_solver. naive_solver.
  - rewrite <- Eg. by eapply waiting_free.
Qed.

(** Linking the current lock in front of [suf]: [*prev = lock; lock->lf_next = ...]. *)
Lemma linked_insert s pre suf u xu sl :
  linked s (pre ++ suf) (Some (u, xu)) sl →
  ∃ s1, assign (lv pre) (Some u) s = Ok (tt, s1) ∧ heap s1 !! u = Some xu ∧
    upd u (set_next (first suf None)) s1 =
      Ok (tt, VS (<[u := set_next (first suf None) xu]> (heap s1)) (v_lockf s1) (wakeups s1)) ∧
    linked (VS (<[u := set_next (first suf None) xu]> (heap s1)) (v_lockf s1) (wakeups s1))
      (pre ++ core u xu :: suf) None sl ∧
    (∀ a, a ∈ addrs suf → heap s1 !! a = heap s !! a).
Proof.
  intros Hl. destruct (linked_assign _ _ _ _ _ (Some u) Hl) as (s1 & Hrun & Hseg & Hwk & Hw1 & Hfr).
  destruct Hl as [Hs Hn [Hu Hun] Hw]. addr_simpl.
  assert ((u ∉ addrs pre) ∧ (u ∉ addrs suf)) as [Hup Hus] by naive_solver.
  pose proof Hn as (Hnp & Hd & Hns)%NoDup_app.
  assert (heap s1 !! u = Some xu) as Hu1 by (by rewrite Hfr).
  assert (∀ a, a ∈ addrs suf → heap s1 !! a = heap s !! a) as Hfs.
  { intros a Ha. apply Hfr. intros H. by apply (Hd a). }
  exists s1. split_and!; [done|done|exact (upd_ok _ _ _ _ Hu1)| |done]. split; cbn.
  - apply seg_app in Hs as [_ H2]. apply seg_app. split.
    + eapply seg_same; [|exact Hseg]. intros a Ha. rewrite lookup_insert_ne; [done|congruence].
    + split; [done|]. eexists. rewrite lookup_insert_eq. split_and!; [done..|].
      eapply seg_same; [|exact H2]. intros a Ha. rewrite lookup_insert_ne by congruence. by rewrite Hfs.
  - rewrite addrs_app, addrs_cons. cbn. apply NoDup_app. split_and!; [done| |by constructor].
    intros a Ha [->|Ha']%elem_of_cons; [done|]. by apply (Hd a).
  - done.
  - replace (granted (pre ++ core u xu :: suf) None) with (granted (pre ++ suf) (Some (u, xu))).
    + eapply waiting_upd; [exact Hw1|apply cur_granted|exact Hu1|done].
    + apply granted_perm. intros a. granted_tauto.
Qed.

(** Putting the current lock in the place of [x], which is freed. *)
Lemma linked_replace s pre x r u xu sl cx :
  linked s (pre ++ x :: r) (Some (u, xu)) sl → heap s !! k_addr x = Some cx → lf_blkhd cx = [] →
  ∃ s1 s2 s', assign (lv pre) (Some u) s = Ok (tt, s1) ∧
    upd u (set_next (lf_next cx)) s1 = Ok (tt, s2) ∧
    FREE (k_addr x) s2 = Ok (tt, s') ∧ linked s' (pre ++ core u xu :: r) None sl.
Proof.
  intros Hl Hcx Eb. destruct (linked_get _ _ _ _ _ _ Hl) as (cx' & Hcx' & _ & En & Hg). simplify_eq.
  destruct (linked_assign _ _ _ _ _ (Some u) Hl) as (s1 & Hrun & Hseg & Hwk & Hw1 & Hfr).
  destruct Hl as [Hs Hn [Hu Hun] Hw]. pose proof (nodup_mid _ _ _ Hn) as (Hnp & Hnr & Hp & Hr & Hpr).
  addr_simpl. assert ((u ∉ addrs pre) ∧ u ≠ k_addr x ∧ (u ∉ addrs r)) as (Hup & Hux & Hur) by naive_solver.
  assert (heap s1 !! k_addr x = Some cx) as Hx1 by (by rewrite Hfr).
  assert (heap s1 !! u = Some xu) as Hu1 by (by rewrite Hfr).
  assert (<[u := set_next (lf_next cx) xu]> (heap s1) !! k_addr x = Some cx) as Hx2
    by (by rewrite lookup_insert_ne).
  exists s1. do 2 eexists. split_and!; [done|exact (upd_ok _ _ _ _ Hu1)|eapply (FREE_ok (VS _ _ _)); exact Hx2|].
  split; cbn.
  - apply seg_app in Hs as [_ (_ & c & Hc' & _ & H2)]. simplify_eq.
    apply seg_app. split.
    + eapply seg_same; [|exact Hseg]. intros a Ha. rewrite lookup_delete_ne, lookup_insert_ne by congruence. done.
    + split; [done|]. eexists. cbn. rewrite lookup_delete_ne, lookup_insert_eq by done. split_and!; [done..|].
      eapply seg_same; [|exact H2]. intros a Ha. rewrite lookup_delete_ne, lookup_insert_ne by congruence.
      rewrite Hfr; [done|]. intros H. by apply (Hpr a).
  - rewrite addrs_app, addrs_cons. cbn. apply NoDup_app. split_and!; [done| |by constructor].
    intros a Ha [->|Ha']%elem_of_cons; [done|]. by apply (Hpr a).
  - done.
  - replace (granted (pre ++ core u xu :: r) None)
      with (granted (pre ++ x :: r) (Some (u, xu)) ∖ {[k_addr x]}).
    + eapply (waiting_free _ _ _ _ _ cx); [|addr_simpl; auto|exact Hx2|done].
      eapply waiting_upd; [exact Hw1|apply cur_granted|exact Hu1|done].
    + apply set_eq. intros a. rewrite elem_of_difference, elem_of_singleton. addr_simpl.
      rewrite elem_of_singleton, elem_of_empty. naive_solver.
Qed.

(** Linking the current lock behind [x]. *)
Lemma linked_insert_after s pre x r u xu sl cx c1 c2 :
  linked s (pre ++ x :: r) (Some (u, xu)) sl → heap s !! k_addr x = Some cx →
  lf_next c1 = Some u → lf_blkhd c1 = lf_blkhd cx →
  lf_next c2 = lf_next cx → lf_blkhd c2 = lf_blkhd xu →
  linked (VS (<[k_addr x := c1]> (<[u := c2]> (heap s))) (v_lockf s) (wakeups s))
    (pre ++ core (k_addr x) c1 :: core u c2 :: r) None sl.
Proof.
  intros Hl Hcx En1 Eb1 En2 Eb2.
  destruct (linked_get _ _ _ _ _ _ Hl) as (cx' & Hcx' & _ & En & Hg). simplify_eq.
  destruct Hl as [Hs Hn [Hu Hun] Hw]. pose proof (nodup_mid _ _ _ Hn) as (Hnp & Hnr & Hp & Hr & Hpr).
  addr_simpl. assert ((u ∉ addrs pre) ∧ u ≠ k_addr x ∧ (u ∉ addrs r)) as (Hup & Hux & Hur) by naive_solver.
  split; cbn.
  - apply seg_app in Hs as [H1 (_ & c & Hc' & _ & H2)]. simplify_eq. apply seg_app. split.
    + eapply seg_same; [|exact H1]. intros a Ha. rewrite !lookup_insert_ne by congruence. done.
    + split; [done|]. exists c1. cbn. rewrite lookup_insert_eq. split_and!; [done..|].
      exists c2. rewrite lookup_insert_ne, lookup_insert_eq by done. split_and!; [done..|].
      rewrite En2. eapply seg_same; [|exact H2]. intros a Ha. rewrite !lookup_insert_ne by congruence. done.
  - rewrite addrs_app, !addrs_cons. cbn. apply NoDup_app. split_and!; [done| |].
    + intros a Ha [->|[->|Ha']%elem_of_cons]%elem_of_cons; [done|done|by apply (Hpr a)].
    + constructor; [|by constructor]. rewrite elem_of_cons. naive_solver.
  - done.
  - replace (granted (pre ++ core (k_addr x) c1 :: core u c2 :: r) None)
      with (granted (pre ++ x :: r) (Some (u, xu))).
    + eapply (waiting_upd _ _ _ _ _ cx); [|apply mid_granted|by rewrite lookup_insert_ne|done].
      eapply waiting_upd; [exact Hw|apply cur_granted|exact Hu|done].
    + apply granted_perm. intros a. granted_tauto.
Qed.

(** Linking the current lock and a new one behind [x]. *)
Lemma linked_insert_two s pre x r u xu sl cx na c1 c2 c3 :
  linked s (pre ++ x :: r) (Some (u, xu)) sl → heap s !! k_addr x = Some cx →
  na ∉ dom (heap s) →
  lf_next c1 = Some u → lf_blkhd c1 = lf_blkhd cx →
  lf_next c2 = Some na → lf_blkhd c2 = lf_blkhd xu →
  lf_next c3 = lf_next cx → lf_blkhd c3 = [] →
  linked (VS (<[k_addr x := c1]> (<[u := c2]> (<[na := c3]> (heap s)))) (v_lockf s) (wakeups s))
    (pre ++ core (k_addr x) c1 :: core u c2 :: core na c3 :: r) None sl.
Proof.
  intros Hl Hcx Hna En1 Eb1 En2 Eb2 En3 Eb3.
  destruct (linked_get _ _ _ _ _ _ Hl) as (cx' & Hcx' & _ & En & Hg). simplify_eq.
  destruct Hl as [Hs Hn [Hu Hun] Hw]. pose proof (nodup_mid _ _ _ Hn) as (Hnp & Hnr & Hp & Hr & Hpr).
  assert (∀ a, a ∈ addrs (pre ++ x :: r) → a ≠ na) as Hnl.
  { intros a Ha ->. apply Hna. by eapply seg_dom. }
  assert (u ≠ na) as Huna by (intros ->; by apply Hna, (elem_of_dom_2 _ _ xu)).
  assert (k_addr x ≠ na) as Hxna by (apply Hnl; addr_simpl; auto).
  assert (∀ a, a ∈ addrs pre → a ≠ na) as Hpna by (intros a Ha; apply Hnl; addr_simpl; auto).
  assert (∀ a, a ∈ addrs r → a ≠ na) as Hrna by (intros a Ha; apply Hnl; addr_simpl; auto).
  clear Hnl. addr_simpl.
  assert ((u ∉ addrs pre) ∧ u ≠ k_addr x ∧ (u ∉ addrs r)) as (Hup & Hux & Hur) by naive_solver.
  split; cbn.
  - apply seg_app in Hs as [H1 (_ & c & Hc' & _ & H2)]. simplify_eq. apply seg_app. split.
    + eapply seg_same; [|exact H1]. intros a Ha. specialize (Hpna a Ha).
      rewrite !lookup_insert_ne by congruence. done.
    + split; [done|]. exists c1. cbn. rewrite lookup_insert_eq. split_and!; [done..|].
      exists c2. rewrite lookup_insert_ne, lookup_insert_eq by done. split_and!; [done..|].
      exists c3. rewrite !lookup_insert_ne, lookup_insert_eq by done. split_and!; [done..|].
      rewrite En3. eapply seg_same; [|exact H2]. intros a Ha. specialize (Hrna a Ha).
      rewrite !lookup_insert_ne by congruence. done.
  - rewrite addrs_app, !addrs_cons. cbn. apply NoDup_app. split_and!; [done| |].
    + intros a Ha. specialize (Hpna a Ha).
      intros [->|[->|[->|Ha']%elem_of_cons]%elem_of_cons]%elem_of_cons; [done|done|done|by apply (Hpr a)].
    + constructor; [rewrite !elem_of_cons; naive_solver|].
      constructor; [rewrite !elem_of_cons; naive_solver|]. constructor; [|done].
      intros H. by apply (Hrna na).
  - done.
  - replace (granted (pre ++ core (k_addr x) c1 :: core u c2 :: core na c3 :: r) None)
      with ({[na]} ∪ granted (pre ++ x :: r) (Some (u, xu))).
    + eapply (waiting_upd _ _ _ _ _ cx); [|apply elem_of_union_r, mid_granted| |done].
      2:{ by rewrite !lookup_insert_ne. }
      eapply (waiting_upd _ _ _ _ _ xu);
        [|apply elem_of_union_r, cur_granted|by rewrite lookup_insert_ne|done].
      by apply waiting_malloc.
    + apply set_eq. intros a. rewrite elem_of_union, !elem_of_granted, !addrs_app, !addrs_cons.
      rewrite !elem_of_app, !elem_of_cons. cbn. rewrite !elem_of_singleton, elem_of_empty. tauto.
Qed.

(** Taking the lock behind [x] out of the list again. *)
Lemma linked_skip_next s pre x l rest sl cx cl :
  linked s (pre ++ x :: l :: rest) None sl → heap s !! k_addr x = Some cx →
  heap s !! k_addr l = Some cl →
  linked (VS (<[k_addr x := set_next (lf_next cl) cx]> (heap s)) (v_lockf s) (wakeups s))
    (pre ++ x :: rest) (Some (k_addr l, cl)) sl.
Proof.
  intros [Hs Hn _ Hw] Hcx Hcl. pose proof (nodup_mid _ _ _ Hn) as (Hnp & Hnr & Hp & Hr & Hpr).
  rewrite addrs_cons in Hnr, Hr, Hpr. apply NoDup_cons in Hnr as [Hlr Hnr].
  assert (k_addr x ≠ k_addr l ∧ (k_addr x ∉ addrs rest)) as [Hxl Hxr] by (rewrite elem_of_cons in Hr; tauto).
  split; cbn.
  - apply seg_app in Hs as [H1 (_ & c & Hc & Ec & _ & c' & Hc' & _ & H2)]. simplify_eq.
    apply seg_app. split.
    + eapply seg_same; [|exact H1]. intros a Ha. rewrite lookup_insert_ne by congruence. done.
    + split; [done|]. eexists. cbn. rewrite lookup_insert_eq. split_and!; [done|done|].
      cbn. eapply seg_same; [|exact H2]. intros a Ha. rewrite lookup_insert_ne by congruence. done.
  - rewrite addrs_app, addrs_cons. apply NoDup_app. split_and!; [done| |by constructor].
    intros a Ha [->|Ha']%elem_of_cons; [done|]. apply (Hpr a Ha). by right.
  - rewrite lookup_insert_ne by done. split; [done|]. rewrite addrs_app, addrs_cons, elem_of_app, elem_of_cons.
    intros [H|[H|H]]; [by apply (Hpr _ H); left|congruence|done].
  - replace (granted (pre ++ x :: rest) (Some (k_addr l, cl))) with (granted (pre ++ x :: l :: rest) None).
    + eapply waiting_upd; [exact Hw|apply mid_granted|exact Hcx|done].
    + apply granted_perm. intros a. granted_tauto.
Qed.

(** Freeing the current lock. *)
Lemma linked_free_cur s ls u xu sl :
  linked s ls (Some (u, xu)) sl → lf_blkhd xu = [] →
  ∃ s', FREE u s = Ok (tt, s') ∧ linked s' ls None sl.
Proof.
  intros [Hs Hn [Hu Hun] Hw] Eb. eexists. split; [exact (FREE_ok _ _ _ Hu)|]. split; cbn.
  - eapply seg_same; [|exact Hs]. intros a Ha. rewrite lookup_delete_ne; [done|congruence].
  - done.
  - done.
  - replace (granted ls None) with (granted ls (Some (u, xu)) ∖ {[u]}).
    + eapply waiting_free; [exact Hw|apply cur_granted|exact Hu|done].
    + apply set_eq. intros a. rewrite elem_of_difference, !elem_of_granted. cbn.
      rewrite elem_of_singleton, elem_of_empty. naive_solver.
Qed.

(** Moving the queue of a lock of the list to another granted lock. *)
Lemma linked_take s pre x r cur sl cx t xt :
  linked s (pre ++ x :: r) cur sl → heap s !! k_addr x = Some cx →
  t ∈ granted (pre ++ x :: r) cur → t ≠ k_addr x → heap s !! t = Some xt →
  ∃ s', take_list (k_addr x) t s = Ok (tt, s') ∧
    linked s' (pre ++ x :: r)
      ((λ '(u, xu), (u, if decide (u = t) then set_blkhd (lf_blkhd xt ++ lf_blkhd cx) xt else xu)) <$> cur) sl ∧
    heap s' !! k_addr x = Some (set_blkhd [] cx) ∧
    heap s' !! t = Some (set_blkhd (lf_blkhd xt ++ lf_blkhd cx) xt).
Proof.
  intros [Hs Hn Hc Hw] Hcx Ht Htx Hxt.
  destruct (take_list_ok s (k_addr x) cx t xt _ sl Hw (mid_granted _ _ _ _) Hcx Ht Htx Hxt)
    as (s' & Hrun & [H1 H2 H3 H4 H5 _]).
  exists s'. split_and!; [done| |done|done].
  assert (∀ a, a ∈ granted (pre ++ x :: r) cur → same_lock (heap s !! a) (heap s' !! a)) as Hsame.
  { intros a Ha. destruct (decide (a = k_addr x)) as [->|]; [by rewrite Hcx, H3|].
    destruct (decide (a = t)) as [->|]; [by rewrite Hxt, H4|]. by rewrite H5. }
  split.
  - rewrite H1. eapply seg_same; [|exact Hs]. intros a Ha. apply Hsame, elem_of_granted. by left.
  - done.
  - destruct cur as [[u xu]|]; [|done]. cbn. destruct Hc as [Hu Hun]. split; [|done].
    destruct (decide (u = t)) as [->|]; [done|]. rewrite H5; [done|apply cur_granted| |done].
    intros ->. apply Hun. rewrite addrs_app, elem_of_app. right. left.
  - replace (granted _ (_ <$> cur)) with (granted (pre ++ x :: r) cur); [done|].
    by destruct cur as [[u xu]|].
Qed.
