(* ===== verification/LockfLoops.v ===== *)
(** * Advisory byte-range locks: the loops compute the list functions

    [lf_split], the loop of [lf_clearlock] and the linking loop of
    [lf_setlock], run on the heap, do what [clear_list] and [link_list] of
    LockfList.v do to the list, and keep the queues of blocked requests
    consistent. *)

From Stdlib Require Import ZifyBool.
From S2P Require Import Prelude Lockf LockfList LockfHeap LockfLinked.

(** The value of a cell after some writes. *)
Ltac hlookup :=
  cbn; repeat (rewrite lookup_insert_eq || rewrite lookup_insert_ne by done); done.

Lemma MALLOC_ok x s :
  MALLOC x s = Ok (fresh (dom (heap s)),
    VS (<[fresh (dom (heap s)) := x]> (heap s)) (v_lockf s) (wakeups s)).
Proof. done. Qed.

Lemma clear_skip l na sk rest :
  Forall (skips l) sk → clear_list na l (sk ++ rest) = sk ++ clear_list na l rest.
Proof.
  induction 1 as [|x sk Hx Hsk IH]; [done|]. cbn [app clear_list]. rewrite IH.
  destruct (decide (k_id x = k_id l)) as [E|]; [|done]. destruct Hx as [?|Hx]; [done|]. by rewrite Hx.
Qed.

Lemma link_skip l na need sk rest :
  Forall (skips l) sk → link_list na l need (sk ++ rest) = sk ++ link_list na l need rest.
Proof.
  induction 1 as [|x sk Hx Hsk IH]; [done|]. cbn [app link_list]. rewrite IH.
  destruct (decide (k_id x = k_id l)) as [E|]; [|done]. destruct Hx as [?|Hx]; [done|]. by rewrite Hx.
Qed.

Lemma ordered_suffix sk rest : ordered (sk ++ rest) → ordered rest.
Proof. induction sk as [|y sk IH]; [done|]. intros Ho. apply IH. by apply ordered_cons in Ho as [? _]. Qed.

(** One call of [lf_findoverlap] on the rest of the list. *)
Lemma find_step l xl s pre suf cur sl :
  linked s (pre ++ suf) cur sl → heap s !! k_addr l = Some xl → core (k_addr l) xl = l →
  Forall valid suf → valid l →
  ∃ sk rest c,
    suf = sk ++ rest ∧ Forall (skips l) sk ∧
    lf_findoverlap (first suf None) (k_addr l) SELF (lv pre) s
      = Ok ((c, lv (pre ++ sk), first rest None), s) ∧
    match rest with
    | [] => c = 0
    | x :: _ => k_id x = k_id l ∧ case_self l x ≠ OvBefore ∧ case_code (case_self l x) = Some c
    end.
Proof.
  intros Hl Hu El Hv Hvl. rewrite (lf_findoverlap_eq _ _ _ _ _ _ Hu).
  apply (find_self_ok _ pre suf l xl s); [|done|done|done|].
  - eapply seg_tail, (li_seg _ _ _ _ Hl).
  - pose proof (linked_size _ _ _ _ Hl) as H. rewrite length_app in H. lia.
Qed.

Section with_cur.
Context (u : addr) (xu : lockf).

Local Abbreviation l := (core u xu).

Definition split_list (na : addr) (x : lk) : list lk :=
  if k_end x =? k_end l then [with_end (i64 (k_start l - 1)) x; l]
  else [with_end (i64 (k_start l - 1)) x; l; with_addr na (with_start (i64 (k_end l + 1)) x)].

Lemma cur_ne s pre x r sl : linked s (pre ++ x :: r) (Some (u, xu)) sl → u ≠ k_addr x.
Proof.
  intros Hl ->. destruct (li_cur _ _ _ _ Hl) as [_ Hun]. apply Hun.
  rewrite addrs_app, elem_of_app. right. left.
Qed.

(** [lf_split] where the two ranges end together. *)
Lemma split_end_ok s pre x r sl cx :
  linked s (pre ++ x :: r) (Some (u, xu)) sl → heap s !! k_addr x = Some cx → core (k_addr x) cx = x →
  ∃ s', (upd (k_addr x) (set_end (i64 (lf_start xu - 1)));; upd u (set_next (lf_next cx));;
         upd (k_addr x) (set_next (Some u))) s = Ok (tt, s') ∧
    linked s' (pre ++ with_end (i64 (k_start l - 1)) x :: l :: r) None sl ∧
    heap s' !! u = Some (set_next (lf_next cx) xu).
Proof.
  intros Hl Hcx Ecx. pose proof (li_cur _ _ _ _ Hl) as [Hu _]. pose proof (cur_ne _ _ _ _ _ Hl) as Hux.
  exists (VS (<[k_addr x := set_next (Some u) (set_end (i64 (lf_start xu - 1)) cx)]>
               (<[u := set_next (lf_next cx) xu]> (heap s))) (v_lockf s) (wakeups s)).
  split_and!; [| |hlookup].
  - rewrite (bind_Ok _ _ _ _ _ (upd_ok _ _ _ _ Hcx)).
    erewrite bind_Ok; [|apply upd_ok; cbn; by rewrite lookup_insert_ne].
    erewrite upd_ok; [|cbn; rewrite lookup_insert_ne by done; by rewrite lookup_insert_eq].
    cbn. do 2 f_equal. f_equal.
    rewrite (insert_insert_ne _ u (k_addr x)) by done. by rewrite insert_insert_eq.
  - pose proof (linked_insert_after s pre x r u xu sl cx
      (set_next (Some u) (set_end (i64 (lf_start xu - 1)) cx)) (set_next (lf_next cx) xu)
      Hl Hcx eq_refl eq_refl eq_refl eq_refl) as H.
    rewrite <- Ecx. exact H.
Qed.

(** [lf_split] that makes a third lock. *)
Lemma split_middle_ok s pre x r sl cx :
  linked s (pre ++ x :: r) (Some (u, xu)) sl → heap s !! k_addr x = Some cx → core (k_addr x) cx = x →
  ∃ s' na, (splitlock ← MALLOC cx;
            upd splitlock (set_start (i64 (lf_end xu + 1)));; upd splitlock (set_blkhd []);;
            upd (k_addr x) (set_end (i64 (lf_start xu - 1)));; upd splitlock (set_next (lf_next cx));;
            upd u (set_next (Some splitlock));; upd (k_addr x) (set_next (Some u))) s = Ok (tt, s') ∧
    linked s' (pre ++ with_end (i64 (k_start l - 1)) x :: l
                   :: with_addr na (with_start (i64 (k_end l + 1)) x) :: r) None sl ∧
    heap s' !! u = Some (set_next (Some na) xu).
Proof.
  intros Hl Hcx Ecx. pose proof (li_cur _ _ _ _ Hl) as [Hu _]. pose proof (cur_ne _ _ _ _ _ Hl) as Hux.
  set (na := fresh (dom (heap s))).
  assert (na ∉ dom (heap s)) as Hna by apply is_fresh.
  assert (u ≠ na) as Huna by (intros E'; apply Hna; rewrite <- E'; by eapply elem_of_dom_2).
  assert (k_addr x ≠ na) as Hxna by (intros E'; apply Hna; rewrite <- E'; by eapply elem_of_dom_2).
  set (c3 := set_next (lf_next cx) (set_blkhd [] (set_start (i64 (lf_end xu + 1)) cx))).
  exists (VS (<[k_addr x := set_next (Some u) (set_end (i64 (lf_start xu - 1)) cx)]>
               (<[u := set_next (Some na) xu]> (<[na := c3]> (heap s)))) (v_lockf s) (wakeups s)), na.
  split_and!; [| |hlookup].
  - mstep (MALLOC_ok cx s). fold na.
    do 5 (erewrite bind_Ok; [|apply upd_ok; hlookup]). erewrite upd_ok; [|hlookup].
    cbn. do 2 f_equal. f_equal. fold c3. apply map_eq. intros a.
    destruct (decide (a = k_addr x)) as [->|]; [by rewrite !lookup_insert_eq|].
    rewrite !(lookup_insert_ne _ (k_addr x) a) by done.
    destruct (decide (a = u)) as [->|]; [by rewrite !lookup_insert_eq|].
    rewrite !(lookup_insert_ne _ u a) by done.
    destruct (decide (a = na)) as [->|]; [by rewrite !lookup_insert_eq|].
    by rewrite !lookup_insert_ne by done.
  - pose proof (linked_insert_two s pre x r u xu sl cx na
      (set_next (Some u) (set_end (i64 (lf_start xu - 1)) cx)) (set_next (Some na) xu) c3
      Hl Hcx Hna eq_refl eq_refl eq_refl eq_refl eq_refl eq_refl) as H.
    rewrite <- Ecx. exact H.
Qed.

Lemma lf_split_ok s pre x r sl cx :
  linked s (pre ++ x :: r) (Some (u, xu)) sl → heap s !! k_addr x = Some cx →
  k_start x ≠ k_start l →
  ∃ s' na nx, lf_split (k_addr x) u s = Ok (tt, s') ∧
           linked s' (pre ++ split_list na x ++ r) None sl ∧
           heap s' !! u = Some (set_next nx xu).
Proof.
  intros Hl Hcx Hst. pose proof (li_cur _ _ _ _ Hl) as [Hu _].
  destruct (linked_get _ _ _ _ _ _ Hl) as (cx' & Hcx' & Ecx & _). simplify_eq.
  unfold lf_split, split_list. mstep (get_ok _ _ _ Hcx). mstep (get_ok _ _ _ Hu).
  replace (lf_start cx) with (k_start x) by (by rewrite <- Ecx).
  replace (lf_end cx) with (k_end x) by (by rewrite <- Ecx).
  change (lf_start xu) with (k_start l) at 1. change (lf_end xu) with (k_end l) at 2.
  destruct (Z.eqb_spec (k_start x) (k_start l)) as [E|_]; [done|].
  destruct (Z.eqb_spec (k_end x) (k_end l)) as [E|E].
  - destruct (split_end_ok _ _ _ _ _ _ Hl Hcx Ecx) as (s' & Hr & Hl' & Hu').
    exists s', 1%positive, (lf_next cx). done.
  - destruct (split_middle_ok _ _ _ _ _ _ Hl Hcx Ecx) as (s' & na & Hr & Hl' & Hu').
    exists s', na, (Some na). done.
Qed.

(** Case 2 of [lf_clearlock]: the lock contains the range to clear. *)
Lemma clear_contains_ok s pre x r sl cx :
  linked s (pre ++ x :: r) (Some (u, xu)) sl → heap s !! k_addr x = Some cx → core (k_addr x) cx = x →
  k_id x = k_id l → case_self l x = OvContains →
  ∃ s' na nx, (if lf_start cx =? lf_start xu then upd (k_addr x) (set_start (i64 (lf_end xu + 1)))
               else lf_split (k_addr x) u;; u' ← get u; upd (k_addr x) (set_next (lf_next u'))) s
              = Ok (tt, s') ∧
    linked s' (pre ++ clear_list na l (x :: r)) (Some (u, set_next nx xu)) sl.
Proof.
  intros Hl Hx Ecx Eid Ec. cbn [clear_list]. destruct (decide (k_id x = k_id l)) as [_|]; [|done]. rewrite Ec.
  replace (lf_start cx) with (k_start x) by (by rewrite <- Ecx). change (lf_start xu) with (k_start l).
  destruct (Z.eqb_spec (k_start x) (k_start l)) as [Est|Est].
  { exists (VS (<[k_addr x := set_start (i64 (lf_end xu + 1)) cx]> (heap s)) (v_lockf s) (wakeups s)),
      1%positive, (lf_next xu).
    split; [exact (upd_ok _ _ _ _ Hx)|]. replace (set_next (lf_next xu) xu) with xu by (by destruct xu).
    eapply (linked_upd _ _ _ _ _ _ _ _ _ Hl Hx); [done|done|]. by rewrite <- Ecx. }
  destruct (lf_split_ok _ _ _ _ _ _ Hl Hx Est) as (s2 & na & nx & Hsp & Hl2 & Hu2). mstep Hsp.
  mstep (get_ok _ _ _ Hu2). unfold split_list in Hl2.
  assert (∃ c2, heap s2 !! k_addr x = Some c2) as [c2 Hx2].
  { destruct (k_end x =? k_end l); destruct (linked_get _ _ _ _ _ _ Hl2) as (c2 & Hx2 & _); by exists c2. }
  exists (VS (<[k_addr x := set_next nx c2]> (heap s2)) (v_lockf s2) (wakeups s2)), na, nx.
  split; [exact (upd_ok _ _ _ _ Hx2)|].
  destruct (k_end x =? k_end l); exact (linked_skip_next _ _ _ _ _ _ _ _ Hl2 Hx2 Hu2).
Qed.

Lemma clearlock_loop_ok fuel s pre suf sl :
  linked s (pre ++ suf) (Some (u, xu)) sl → Forall valid suf → valid l →
  (length suf < fuel)%nat →
  ∃ s' na nx, clearlock_loop fuel (first suf None) u (lv pre) s = Ok (tt, s') ∧
    linked s' (pre ++ clear_list na l suf) (Some (u, set_next nx xu)) sl.
Proof.
  revert s pre suf. induction fuel as [|fuel IH]; intros s pre suf Hl Hv Hvl Hf; [lia|].
  pose proof (li_cur _ _ _ _ Hl) as [Hu Hun]. cbn in Hun.
  assert (set_next (lf_next xu) xu = xu) as Exu by (by destruct xu).
  destruct (find_step l xu _ _ _ _ _ Hl Hu eq_refl Hv Hvl) as (sk & rest & c & -> & Hsk & Hrun & Hc).
  cbn [clearlock_loop]. mstep Hrun. setoid_rewrite (clear_skip _ _ _ _ Hsk).
  destruct rest as [|x r].
  { subst c. exists s, 1%positive, (lf_next xu). rewrite Exu. done. }
  destruct Hc as (Eid & Hnb & Hcode).
  destruct (Z.eqb_spec c 0) as [->|Hc0].
  { exists s, 1%positive, (lf_next xu). rewrite Exu. split; [done|]. cbn [clear_list].
    rewrite decide_True by done. by destruct (case_self l x). }
  rewrite app_assoc in Hl. setoid_rewrite app_assoc.
  set (pre' := pre ++ sk) in *. rewrite length_app in Hf. cbn in Hf.
  apply Forall_app in Hv as [_ [Hvx Hvr]%Forall_cons].
  destruct (linked_get _ _ _ _ _ _ Hl) as (cx & Hcx & Ecx & En & _).
  mstep (nonnull_Some (k_addr x) s).
  destruct (linked_wake _ _ _ _ _ _ _ Hl Hcx) as (s1 & Hw & Hl1 & Hx1 & Hh1). mstep Hw.
  pose proof (li_cur _ _ _ _ Hl1) as [Hu1 _].
  mstep (get_ok _ _ _ Hx1). mstep (get_ok _ _ _ Hu1).
  set (cx1 := set_blkhd [] cx) in *. assert (core (k_addr x) cx1 = x) as Ecx1 by done.
  assert (lf_next cx1 = first r None) as En1 by done.
  destruct (case_self l x) eqn:Ec; cbn [case_code] in Hcode; simplify_eq; cbn [Z.eqb Pos.eqb].
  - (* equal *)
    destruct (linked_unlink _ _ _ _ _ _ _ Hl1 Hx1 eq_refl) as (s2 & s3 & Ha & Hfree & Hl3).
    mstep Ha. exists s3, 1%positive, (lf_next xu). rewrite Exu. cbn [clear_list].
    by rewrite decide_True, Ec.
  - (* contains *)
    exact (clear_contains_ok _ _ _ _ _ _ Hl1 Hx1 Ecx1 Eid Ec).
  - (* inside *)
    destruct (linked_unlink _ _ _ _ _ _ _ Hl1 Hx1 eq_refl) as (s2 & s3 & Ha & Hfree & Hl3).
    mstep Ha. mstep Hfree. rewrite En1.
    destruct (IH s3 pre' r Hl3 Hvr Hvl ltac:(lia)) as (s' & na & nx & Hrun' & Hl').
    exists s', na, nx. split; [done|]. cbn [clear_list]. by rewrite decide_True, Ec.
  - (* starts before *)
    mstep (upd_ok _ _ _ (set_end (i64 (lf_start xu - 1))) Hx1). rewrite En1.
    pose proof (linked_upd _ _ _ _ _ _ _ (set_end (i64 (lf_start xu - 1)) cx1)
      (with_end (i64 (lf_start xu - 1)) x) Hl1 Hx1 eq_refl eq_refl ltac:(by rewrite <- Ecx1)) as Hl2.
    rewrite cons_middle, app_assoc in Hl2.
    destruct (IH _ _ r Hl2 Hvr Hvl ltac:(lia)) as (s' & na & nx & Hrun' & Hl').
    rewrite lv_snoc in Hrun'. exists s', na, nx. split; [done|].
    cbn [clear_list]. rewrite decide_True, Ec by done. by rewrite <- app_assoc in Hl'.
  - (* ends after *)
    exists (VS (<[k_addr x := set_start (i64 (lf_end xu + 1)) cx1]> (heap s1)) (v_lockf s1) (wakeups s1)),
      1%positive, (lf_next xu).
    split; [exact (upd_ok _ _ _ _ Hx1)|]. rewrite Exu. cbn [clear_list]. rewrite decide_True, Ec by done.
    eapply (linked_upd _ _ _ _ _ _ _ _ _ Hl1 Hx1); [done|done|]. by rewrite <- Ecx1.
Qed.

End with_cur.

(** ** The linking loop *)

(** Case 3 of the code: wake the queue of the lock that goes away, or take it. *)
Lemma absorb_ok s pre x r cur sl cx t xt :
  linked s (pre ++ x :: r) cur sl → heap s !! k_addr x = Some cx →
  t ∈ granted (pre ++ x :: r) cur → t ≠ k_addr x → heap s !! t = Some xt →
  (∀ u xu, cur = Some (u, xu) → u = t) →
  ∃ s' b, (if (lf_type xt =? F_RDLCK) && (lf_type cx =? F_WRLCK) then lf_wakelock (k_addr x)
         else take_list (k_addr x) t) s = Ok (tt, s') ∧
    linked s' (pre ++ x :: r) ((λ '(u, _), (u, set_blkhd b xt)) <$> cur) sl ∧
    heap s' !! k_addr x = Some (set_blkhd [] cx) ∧ core t (set_blkhd b xt) = core t xt.
Proof.
  intros Hl Hcx Ht Htx Hxt Hcur.
  destruct (_ && _).
  - destruct (linked_wake _ _ _ _ _ _ _ Hl Hcx) as (s' & Hrun & Hl' & Hx' & _).
    exists s', (lf_blkhd xt). split_and!; [done| |done|done].
    assert (set_blkhd (lf_blkhd xt) xt = xt) as -> by (by destruct xt).
    destruct cur as [[u xu]|]; [|done]. cbn. rewrite (Hcur _ _ eq_refl) in *.
    destruct (li_cur _ _ _ _ Hl) as [Hu _]. by simplify_eq.
  - destruct (linked_take _ _ _ _ _ _ _ t xt Hl Hcx Ht Htx Hxt) as (s' & Hrun & Hl' & Hx' & _).
    exists s', (lf_blkhd xt ++ lf_blkhd cx). split_and!; [done| |done|done].
    destruct cur as [[u xu]|]; [|done]. cbn in *. rewrite (Hcur _ _ eq_refl) in *.
    by rewrite decide_True in Hl'.
Qed.

Lemma elem_of_addrs x ls : x ∈ ls → k_addr x ∈ addrs ls.
Proof. intros H. by apply list_elem_of_fmap_2. Qed.

(** Case 3 once the lock is linked: what it contains goes away. *)
Lemma link_inside_ok s pre x r l xl sl cx :
  linked s (pre ++ x :: r) None sl → l ∈ pre → heap s !! k_addr l = Some xl → heap s !! k_addr x = Some cx →
  ∃ s1 s2 s', (if (lf_type xl =? F_RDLCK) && (lf_type cx =? F_WRLCK) then lf_wakelock (k_addr x)
               else take_list (k_addr x) (k_addr l)) s = Ok (tt, s1) ∧
    assign (lv pre) (lf_next cx) s1 = Ok (tt, s2) ∧ FREE (k_addr x) s2 = Ok (tt, s') ∧
    linked s' (pre ++ r) None sl.
Proof.
  intros Hl Hin Hxl Hcx.
  assert (k_addr l ≠ k_addr x) as Hne.
  { intros E. pose proof (li_nodup _ _ _ _ Hl) as Hn. apply nodup_mid in Hn as (_ & _ & Hp & _).
    apply Hp. rewrite <- E. by apply elem_of_addrs. }
  destruct (absorb_ok _ _ _ _ _ _ _ (k_addr l) xl Hl Hcx) as (s1 & b & Hab & Hl1 & Hx1 & _); [|done..|].
  { apply elem_of_granted. left. rewrite addrs_app. apply elem_of_app. left. by apply elem_of_addrs. }
  destruct (linked_unlink _ _ _ _ _ _ _ Hl1 Hx1 eq_refl) as (s2 & s3 & Ha & Hfree & Hl3).
  exists s1, s2, s3. done.
Qed.

(** Once the lock is linked, only locks it contains or whose start it covers
    are left to treat. *)
Lemma link_false_ok fuel s pre suf l sl :
  linked s (pre ++ suf) None sl → l ∈ pre → Forall valid suf → valid l → ordered suf →
  later_starts l suf → (length suf < fuel)%nat →
  ∃ s', link_loop fuel (first suf None) (k_addr l) (lv pre) false s = Ok (tt, s') ∧
    ∀ na, linked s' (pre ++ link_list na l false suf) None sl.
Proof.
  revert s pre suf. induction fuel as [|fuel IH]; intros s pre suf Hl Hin Hv Hvl Ho Hlate Hf; [lia|].
  assert (∃ xl, heap s !! k_addr l = Some xl ∧ core (k_addr l) xl = l) as (xl & Hxl & El).
  { apply list_elem_of_split in Hin as (p1 & p2 & ->). rewrite <- app_assoc in Hl. cbn in Hl.
    destruct (linked_get _ _ _ _ _ _ Hl) as (xl & ? & ? & _). eauto. }
  destruct (find_step l xl _ _ _ _ _ Hl Hxl El Hv Hvl) as (sk & rest & c & -> & Hsk & Hrun & Hc).
  cbn [link_loop]. mstep Hrun. setoid_rewrite (link_skip _ _ _ _ _ Hsk).
  destruct rest as [|x r]; [subst c; by exists s|].
  destruct Hc as (Eid & Hnb & Hcode).
  destruct (Z.eqb_spec c 0) as [->|Hc0].
  { exists s. split; [done|]. intros na. cbn [link_list].
    rewrite decide_True by done. by destruct (case_self l x). }
  rewrite app_assoc in Hl. setoid_rewrite app_assoc.
  assert (l ∈ pre ++ sk) as Hin' by (apply elem_of_app; by left).
  set (pre' := pre ++ sk) in *. rewrite length_app in Hf. cbn in Hf.
  apply Forall_app in Hv as [_ [Hvx Hvr]%Forall_cons].
  assert (k_start l < k_start x) as Hsx by (apply Hlate; [apply elem_of_app; right; left|done]).
  apply ordered_suffix in Ho as Hox.
  destruct (linked_get _ _ _ _ _ _ Hl) as (cx & Hcx & Ecx & En & _).
  mstep (nonnull_Some (k_addr x) s). mstep (get_ok _ _ _ Hcx). mstep (get_ok _ _ _ Hxl).
  destruct (ov_self_ok l x Hvl Hvx) as [_ Hm].
  destruct (case_self l x) eqn:Ec; cbn [case_code case_means] in *; simplify_eq; cbn [Z.eqb Pos.eqb];
    [lia|lia| |lia|].
  - (* inside *)
    destruct (link_inside_ok _ _ _ _ _ _ _ _ Hl Hin' Hxl Hcx) as (s1 & s2 & s3 & Hab & Ha & Hfree & Hl3).
    mstep Hab. mstep Ha. mstep Hfree. rewrite En.
    destruct (IH s3 pre' r Hl3 Hin' Hvr Hvl) as (s' & Hrun' & Hl').
    { by apply ordered_cons in Hox as [? _]. }
    { apply (ordered_later l x); [done..|]. unfold valid in Hvx. lia. }
    { lia. }
    exists s'. split; [done|]. intros na. cbn [link_list]. rewrite decide_True, Ec by done. apply Hl'.
  - (* ends after *)
    mstep (ret_eq tt s). mstep (upd_ok _ _ _ (set_start (i64 (lf_end xl + 1))) Hcx).
    pose proof (linked_upd _ _ _ _ _ _ _ (set_start (i64 (lf_end xl + 1)) cx)
      (with_start (i64 (k_end l + 1)) x) Hl Hcx eq_refl eq_refl
      ltac:(by rewrite <- Ecx, <- El)) as Hl2.
    destruct (linked_wake _ _ _ _ _ _ (set_start (i64 (lf_end xl + 1)) cx) Hl2) as (s' & Hw & Hl' & _);
      [cbn; apply lookup_insert_eq|].
    exists s'. split; [exact Hw|]. intros na. cbn [link_list]. by rewrite decide_True, Ec.
Qed.

Section link_true.
Context (u : addr) (xu : lockf) (Eb : lf_blkhd xu = []).

Local Abbreviation l := (core u xu).

(** Linking in front of a lock of the owner that starts inside: cases 2 (same
    start) and 5. *)
Lemma insert_before_ok s pre x r sl cx :
  linked s (pre ++ x :: r) (Some (u, xu)) sl → heap s !! k_addr x = Some cx → core (k_addr x) cx = x →
  ∃ s1 s2 s3 s', assign (lv pre) (Some u) s = Ok (tt, s1) ∧
    upd u (set_next (Some (k_addr x))) s1 = Ok (tt, s2) ∧
    upd (k_addr x) (set_start (i64 (lf_end xu + 1))) s2 = Ok (tt, s3) ∧
    lf_wakelock (k_addr x) s3 = Ok (tt, s') ∧
    linked s' (pre ++ l :: with_start (i64 (k_end l + 1)) x :: r) None sl.
Proof using.
  intros Hl Hcx Ecx. pose proof (li_cur _ _ _ _ Hl) as [_ Hun]. cbn in Hun.
  assert (u ≠ k_addr x) as Hux.
  { intros ->. apply Hun. rewrite addrs_app, elem_of_app. right. left. }
  destruct (linked_insert _ _ _ _ _ _ Hl) as (s1 & Ha & Hu1 & Hup & Hl2 & Hfr). cbn [first] in *.
  assert (heap s1 !! k_addr x = Some cx) as Hx1 by (rewrite Hfr; [done|rewrite addrs_cons; left]).
  rewrite cons_middle, app_assoc in Hl2.
  assert (heap (VS (<[u := set_next (Some (k_addr x)) xu]> (heap s1)) (v_lockf s1) (wakeups s1))
            !! k_addr x = Some cx) as Hx2 by hlookup.
  pose proof (linked_upd _ _ _ _ _ _ _ (set_start (i64 (lf_end xu + 1)) cx)
    (with_start (i64 (k_end l + 1)) x) Hl2 Hx2 eq_refl eq_refl ltac:(by rewrite <- Ecx)) as Hl3.
  destruct (linked_wake _ _ _ _ _ _ (set_start (i64 (lf_end xu + 1)) cx) Hl3) as (s' & Hw & Hl' & _);
    [cbn; apply lookup_insert_eq|].
  exists s1. do 2 eexists. exists s'. split; [exact Ha|]. split; [exact Hup|].
  split; [exact (upd_ok _ _ _ _ Hx2)|]. split; [exact Hw|].
  by rewrite <- app_assoc in Hl'.
Qed.

(** Linking behind a lock of the owner that ends inside: case 4. *)
Lemma insert_behind_ok s pre x r sl cx :
  linked s (pre ++ x :: r) (Some (u, xu)) sl → heap s !! k_addr x = Some cx → core (k_addr x) cx = x →
  ∃ s1 s2 s3 s', upd u (set_next (lf_next cx)) s = Ok (tt, s1) ∧
    upd (k_addr x) (set_next (Some u)) s1 = Ok (tt, s2) ∧
    upd (k_addr x) (set_end (i64 (lf_start xu - 1))) s2 = Ok (tt, s3) ∧
    lf_wakelock (k_addr x) s3 = Ok (tt, s') ∧
    linked s' (pre ++ with_end (i64 (k_start l - 1)) x :: l :: r) None sl.
Proof using.
  intros Hl Hcx Ecx. pose proof (li_cur _ _ _ _ Hl) as [Hu Hun]. cbn in Hun.
  assert (u ≠ k_addr x) as Hux.
  { intros ->. apply Hun. rewrite addrs_app, elem_of_app. right. left. }
  pose proof (linked_insert_after s pre x r u xu sl cx
    (set_end (i64 (lf_start xu - 1)) (set_next (Some u) cx)) (set_next (lf_next cx) xu)
    Hl Hcx eq_refl eq_refl eq_refl eq_refl) as Hl2.
  replace (core (k_addr x) (set_end _ _)) with (with_end (i64 (k_start l - 1)) x) in Hl2
    by (by rewrite <- Ecx).
  destruct (linked_wake _ _ _ _ _ _ (set_end (i64 (lf_start xu - 1)) (set_next (Some u) cx)) Hl2)
    as (s' & Hw & Hl' & _); [cbn; apply lookup_insert_eq|].
  do 3 eexists. exists s'. split; [exact (upd_ok _ _ _ _ Hu)|].
  split; [apply (upd_ok (VS _ _ _)); cbn; rewrite lookup_insert_ne by done; exact Hcx|].
  split; [apply (upd_ok (VS _ _ _)); cbn; apply lookup_insert_eq|].
  cbn. rewrite insert_insert_eq. split; [exact Hw|exact Hl'].
Qed.

(** Splitting a lock of the owner around the new one: case 2. *)
Lemma split_around_ok s pre x r sl cx :
  linked s (pre ++ x :: r) (Some (u, xu)) sl → heap s !! k_addr x = Some cx →
  k_start x ≠ k_start l →
  ∃ s1 s' na, lf_split (k_addr x) u s = Ok (tt, s1) ∧
    lf_wakelock (k_addr x) s1 = Ok (tt, s') ∧
    linked s' (pre ++ split_list u xu na x ++ r) None sl.
Proof using.
  intros Hl Hcx Hst. destruct (lf_split_ok _ _ _ _ _ _ _ _ Hl Hcx Hst) as (s1 & na & nx & Hsp & Hl1 & _).
  assert (∃ rest, split_list u xu na x ++ r = with_end (i64 (k_start l - 1)) x :: rest) as (rest & Er).
  { unfold split_list. destruct (k_end x =? k_end l); cbn; eauto. }
  rewrite Er in Hl1. destruct (linked_get _ _ _ _ _ _ Hl1) as (c1 & Hc1 & _).
  destruct (linked_wake _ _ _ _ _ _ _ Hl1 Hc1) as (s' & Hw & Hl' & _).
  exists s1, s', na. rewrite Er. done.
Qed.

(** The new lock replaces one of the owner with the same range: case 1. *)
Lemma downgrade_ok s pre x r sl cx t :
  linked s (pre ++ x :: r) (Some (u, xu)) sl → heap s !! k_addr x = Some cx →
  ∃ s1 s', (if (lf_type xu =? F_RDLCK) && (t =? F_WRLCK) then lf_wakelock (k_addr x) else mret tt) s
             = Ok (tt, s1) ∧
    (upd (k_addr x) (set_type (lf_type xu));; FREE u) s1 = Ok (tt, s') ∧
    linked s' (pre ++ with_type (k_type l) x :: r) None sl.
Proof using Eb.
  intros Hl Hcx.
  assert (∃ s1 c1, (if (lf_type xu =? F_RDLCK) && (t =? F_WRLCK) then lf_wakelock (k_addr x) else mret tt) s
    = Ok (tt, s1) ∧ linked s1 (pre ++ x :: r) (Some (u, xu)) sl ∧ heap s1 !! k_addr x = Some c1)
    as (s1 & c1 & H1 & Hl1 & Hc1).
  { destruct (_ && _); [|by exists s, cx]. destruct (linked_wake _ _ _ _ _ _ _ Hl Hcx) as (s1 & ? & ? & ? & _). eauto. }
  destruct (linked_get _ _ _ _ _ _ Hl1) as (c & Hc & Ec & _).
  rewrite Hc1 in Hc. injection Hc as <-.
  pose proof (linked_upd _ _ _ _ _ _ _ (set_type (lf_type xu) c1) (with_type (k_type l) x)
    Hl1 Hc1 eq_refl eq_refl ltac:(by rewrite <- Ec)) as Hl2.
  destruct (linked_free_cur _ _ _ _ _ Hl2 Eb) as (s' & Hr & Hl').
  exists s1, s'. split; [done|]. split; [|done]. mstep (upd_ok _ _ _ (set_type (lf_type xu)) Hc1). exact Hr.
Qed.

(** Case 2: a lock of the owner contains the new one. *)
Lemma link_contains_ok s pre x r sl cx :
  linked s (pre ++ x :: r) (Some (u, xu)) sl → heap s !! k_addr x = Some cx → core (k_addr x) cx = x →
  k_id x = k_id l → case_self l x = OvContains →
  ∃ s' na, (if k_type x =? k_type l then FREE u
            else (if k_start x =? k_start l then
                    assign (lv pre) (Some u);; upd u (set_next (Some (k_addr x)));;
                    upd (k_addr x) (set_start (i64 (lf_end xu + 1)))
                  else lf_split (k_addr x) u);;
                 lf_wakelock (k_addr x)) s = Ok (tt, s') ∧
    linked s' (pre ++ link_list na l true (x :: r)) None sl.
Proof using Eb.
  intros Hl Hcx Ecx Eid Ec. cbn [link_list].
  destruct (decide (k_id x = k_id l)) as [_|]; [|done]. rewrite Ec.
  destruct (k_type x =? k_type l).
  { destruct (linked_free_cur _ _ _ _ _ Hl Eb) as (s' & Hr & Hl'). by exists s', 1%positive. }
  destruct (Z.eqb_spec (k_start x) (k_start l)) as [Es|Es].
  - destruct (insert_before_ok _ _ _ _ _ _ Hl Hcx Ecx) as (s1 & s2 & s3 & s' & H1 & H2 & H3 & H4 & Hl').
    exists s', 1%positive. split; [|done]. erewrite bind_Ok; [|mstep H1; mstep H2; exact H3]. exact H4.
  - destruct (split_around_ok _ _ _ _ _ _ Hl Hcx Es) as (s1 & s' & na & H1 & H2 & Hl').
    exists s', na. split; [mstep H1; exact H2|]. unfold split_list in Hl'. by destruct (k_end x =? k_end l).
Qed.

(** Case 3 while the lock is not linked: it takes the place of what it contains. *)
Lemma replace_ok s pre x r sl cx :
  linked s (pre ++ x :: r) (Some (u, xu)) sl → heap s !! k_addr x = Some cx →
  ∃ s1 s2 s3 s', (if (lf_type xu =? F_RDLCK) && (lf_type cx =? F_WRLCK) then lf_wakelock (k_addr x)
                  else take_list (k_addr x) u) s = Ok (tt, s1) ∧
    assign (lv pre) (Some u) s1 = Ok (tt, s2) ∧ upd u (set_next (lf_next cx)) s2 = Ok (tt, s3) ∧
    FREE (k_addr x) s3 = Ok (tt, s') ∧ linked s' (pre ++ l :: r) None sl.
Proof using.
  intros Hl Hcx. pose proof (li_cur _ _ _ _ Hl) as [Hu _].
  destruct (absorb_ok _ _ _ _ _ _ _ u xu Hl Hcx (cur_granted _ _ _)) as (s1 & b & Hab & Hl1 & Hx1 & Ecore);
    [by eapply cur_ne|done|congruence|].
  destruct (linked_replace _ _ _ _ _ _ _ _ Hl1 Hx1 eq_refl) as (s2 & s3 & s4 & H1 & H2 & H3 & Hl4).
  rewrite Ecore in Hl4. by exists s1, s2, s3, s4.
Qed.

(** The end of the loop once the lock is linked behind [pre]. *)
Lemma link_rest_ok fuel s pre x r sl :
  linked s (pre ++ l :: r) None sl → Forall valid r → valid l → ordered (x :: r) →
  later_starts l r → (length r < fuel)%nat →
  ∃ s', link_loop fuel (first r None) u (Next_of u) false s = Ok (tt, s') ∧
    ∀ na, linked s' (pre ++ l :: link_list na l false r) None sl.
Proof using.
  intros Hl Hv Hvl [Ho _]%ordered_cons Hlate Hf. rewrite cons_middle, app_assoc in Hl.
  destruct (link_false_ok fuel s _ r l sl Hl) as (s' & Hr & Hl');
    [apply elem_of_app; right; left|done..|].
  rewrite lv_snoc in Hr. exists s'. split; [exact Hr|]. intros na. specialize (Hl' na).
  by rewrite <- app_assoc in Hl'.
Qed.

Lemma link_true_ok fuel s suf sl pre :
  linked s (pre ++ suf) (Some (u, xu)) sl → Forall valid suf → valid l → ordered suf →
  (length suf < fuel)%nat →
  ∃ s' na, link_loop fuel (first suf None) u (lv pre) true s = Ok (tt, s') ∧
    linked s' (pre ++ link_list na l true suf) None sl.
Proof using Eb.
  intros Hl Hv Hvl Ho Hf. destruct fuel as [|fuel]; [lia|].
  pose proof (li_cur _ _ _ _ Hl) as [Hu Hun]. cbn in Hun.
  destruct (find_step l xu _ _ _ _ _ Hl Hu eq_refl Hv Hvl) as (sk & rest & c & -> & Hsk & Hrun & Hc).
  cbn in Hrun. cbn [link_loop]. mstep Hrun. setoid_rewrite (link_skip _ _ _ _ _ Hsk).
  rewrite app_assoc in Hl. setoid_rewrite app_assoc. set (pre' := pre ++ sk) in *.
  assert (c = 0 → ∃ s', (assign (lv pre') (Some u);; upd u (set_next (first rest None))) s = Ok (tt, s') ∧
    linked s' (pre' ++ l :: rest) None sl) as Hins.
  { intros ->. destruct (linked_insert _ _ _ _ _ _ Hl) as (s1 & Ha & _ & Hup & Hl2 & _).
    eexists. split; [mstep Ha; exact Hup|exact Hl2]. }
  destruct rest as [|x r].
  { subst c. destruct (Hins eq_refl) as (s' & Hr & Hl'). exists s', 1%positive. done. }
  destruct Hc as (Eid & Hnb & Hcode).
  destruct (Z.eqb_spec c 0) as [->|Hc0].
  { destruct (Hins eq_refl) as (s' & Hr & Hl'). exists s', 1%positive. split; [done|].
    cbn [link_list]. rewrite decide_True by done. by destruct (case_self l x). }
  clear Hins. rewrite length_app in Hf. cbn in Hf.
  apply Forall_app in Hv as [_ [Hvx Hvr]%Forall_cons].
  apply ordered_suffix in Ho as Hox.
  destruct (linked_get _ _ _ _ _ _ Hl) as (cx & Hcx & Ecx & En & _).
  mstep (nonnull_Some (k_addr x) s). mstep (get_ok _ _ _ Hcx). mstep (get_ok _ _ _ Hu).
  destruct (ov_self_ok l x Hvl Hvx) as [_ Hm].
  pose proof (ordered_later l x r Hox Eid Hvx) as Hlate.
  assert (ordered r) as Hor by (by apply ordered_cons in Hox as [? _]).
  replace (lf_type cx) with (k_type x) by (by rewrite <- Ecx).
  replace (lf_start cx) with (k_start x) by (by rewrite <- Ecx).
  destruct (case_self l x) eqn:Ec; cbn [case_code case_means] in Hcode, Hm; simplify_eq; cbn [Z.eqb Pos.eqb].
  - destruct (downgrade_ok _ _ _ _ _ _ (k_type x) Hl Hcx) as (s1 & s' & H1 & H2 & Hl').
    exists s', 1%positive. split; [mstep H1; exact H2|]. cbn [link_list]. by rewrite decide_True, Ec.
  - exact (link_contains_ok _ _ _ _ _ _ Hl Hcx Ecx Eid Ec).
  - destruct (replace_ok _ _ _ _ _ _ Hl Hcx) as (s1 & s2 & s3 & s4 & Hab & H1 & H2 & H3 & Hl4).
    replace (lf_type cx) with (k_type x) in Hab by (by rewrite <- Ecx).
    mstep Hab. mstep H1. mstep H2. mstep H3. rewrite En.
    destruct (link_rest_ok fuel s4 _ x r sl Hl4) as (s' & Hr & Hl');
      [done..|apply Hlate; unfold valid in Hvx; lia|lia|].
    exists s', 1%positive. split; [exact Hr|]. cbn [link_list]. rewrite decide_True, Ec by done. apply Hl'.
  - destruct (insert_behind_ok _ _ _ _ _ _ Hl Hcx Ecx) as (s1 & s2 & s3 & s4 & H1 & H2 & H3 & H4 & Hl4).
    mstep H1. mstep H2. mstep H3. mstep H4. rewrite En, cons_middle, app_assoc in *.
    destruct (link_rest_ok fuel s4 _ x r sl Hl4) as (s' & Hr & Hl'); [done..|apply Hlate; lia|lia|].
    exists s', 1%positive. split; [exact Hr|].
    cbn [link_list]. rewrite decide_True, Ec by done. specialize (Hl' 1%positive). by rewrite <- !app_assoc in Hl'.
  - destruct (insert_before_ok _ _ _ _ _ _ Hl Hcx Ecx) as (s1 & s2 & s3 & s' & H1 & H2 & H3 & H4 & Hl').
    exists s', 1%positive. split; [|cbn [link_list]; by rewrite decide_True, Ec].
    erewrite bind_Ok; [|mstep H1; exact H2]. mstep H3. exact H4.
Qed.

End link_true.
