(* ===== verification/LockfState.v ===== *)
(** * Advisory byte-range locks: going to sleep and waking up

    The moves of a request between the caller, the queue of a lock and the
    list of the vnode, and the specifications of [lf_clearlock], [lf_getblock]
    and [lf_setlock] on the invariant [inv]. *)

From Stdlib Require Import ZifyBool.
From S2P Require Import Prelude Lockf LockfList LockfHeap LockfLinked LockfLoops.

(** No two owners hold conflicting locks on a byte. *)
Definition exclusive (ls : list lk) : Prop :=
  ∀ i j b t t', i ≠ j → holds ls i b t → holds ls j b t' → t ≠ F_WRLCK ∧ t' ≠ F_WRLCK.

Record good (ls : list lk) : Prop := {
  g_valid : Forall valid ls;
  g_ordered : ordered ls;
  g_exclusive : exclusive ls;
}.

(** The invariant of a vnode's locks: [ls] is the list, [sl] the requests
    asleep. *)
Record inv (s : vstate) (ls : list lk) (sl : gmap addr lk) : Prop := {
  iv_linked : linked s ls None sl;
  iv_good : good ls;
  iv_proper : ∀ w q, sl !! w = Some q → proper q;
}.

(** ** The list functions keep a good list good *)

Lemma clear_good na u ls : proper u → good ls → good (clear_list na u ls).
Proof.
  intros Hu [Hv Ho He]. split.
  - apply Forall_forall. intros y Hy. by apply (clear_elems na u ls Hu Hv Ho).
  - by apply clear_ordered.
  - intros i j b t t' Hij H1 H2. rewrite clear_holds in H1, H2 by done. destruct H1, H2. eauto.
Qed.

Lemma link_good na l ls : proper l → good ls → blocker l ls = None → good (link_list na l true ls).
Proof.
  intros Hl [Hv Ho He] Hb.
  assert (∀ i b t, i ≠ k_id l → covers l b → holds ls i b t → k_type l ≠ F_WRLCK ∧ t ≠ F_WRLCK) as Hc.
  { intros i b t Hi Hcl (x & Hx & Ei & Hcx & Et).
    pose proof (blocker_None _ _ _ Hb Hx) as Hn. unfold conflicts in Hn.
    assert (¬ disjoint_lk l x) by (intros Hd; by eapply disjoint_byte).
    subst i t. split; intros E; apply Hn; auto. }
  split.
  - apply Forall_forall. intros y Hy. by apply (link_elems na l true ls Hl Hv Ho) in Hy as [_ ?].
  - by apply link_ordered.
  - intros i j b t t' Hij H1 H2. rewrite link_holds in H1, H2 by done.
    destruct H1 as [(_ & -> & Hcb & ->)|[H1 Hn1]], H2 as [(_ & -> & Hcb' & ->)|[H2 Hn2]]; [done|..].
    + by eapply Hc.
    + apply and_comm. by eapply Hc.
    + by eapply He.
Qed.

Lemma clear_keeps na u ls x : x ∈ ls → k_id x ≠ k_id u → x ∈ clear_list na u ls.
Proof.
  intros Hx Hid. induction ls as [|y ls IH]; [done|]. cbn [clear_list].
  apply elem_of_cons in Hx as [<-|Hx].
  { rewrite decide_False by done. left. }
  specialize (IH Hx). destruct (decide (k_id y = k_id u)); [|by right].
  destruct (case_self u y); repeat case_match; rewrite ?elem_of_cons; tauto.
Qed.

(** ** Moves of a request *)

(** Changing the current lock but for its queue. *)
Lemma linked_upd_cur s ls u xu sl f :
  linked s ls (Some (u, xu)) sl → lf_blkhd (f xu) = lf_blkhd xu →
  ∃ s', upd u f s = Ok (tt, s') ∧ linked s' ls (Some (u, f xu)) sl ∧ v_lockf s' = v_lockf s.
Proof.
  intros [Hs Hn [Hu Hun] Hw] Eb. eexists. split; [exact (upd_ok _ _ _ _ Hu)|]. split; [|done].
  split; cbn.
  - eapply seg_same; [|exact Hs]. intros a Ha. rewrite lookup_insert_ne; [done|congruence].
  - done.
  - by rewrite lookup_insert_eq.
  - eapply waiting_upd; [exact Hw|apply cur_granted|exact Hu|done].
Qed.

(** The current lock blocks on [a] and sleeps. *)
Lemma waiting_sleep h gr sl wk u xu a x :
  waiting h gr sl wk → u ∈ gr → h !! u = Some xu → lf_blkhd xu = [] →
  a ∈ gr → a ≠ u → h !! a = Some x →
  waiting (<[a := set_blkhd (lf_blkhd x ++ [u]) x]> (<[u := set_next (Some a) xu]> h))
    (gr ∖ {[u]}) (<[u := core u xu]> sl) wk.
Proof.
  intros [Hd Hdj Hq Hn Hs Hrq] Hu Hxu Eb Ha Hau Hx.
  assert (∀ b z, b ∈ gr → h !! b = Some z → u ∉ lf_blkhd z) as Hnu.
  { intros b z Hb Hz Hin. destruct (Hq b z u Hb Hz Hin). set_solver. }
  split.
  - rewrite !dom_insert_L. apply elem_of_dom_2 in Hxu as H1, Hx as H2.
    assert (∀ v, v ∈ gr → v ∈ dom h) by set_solver. apply set_eq. intros v.
    destruct (decide (v = u)); set_solver.
  - rewrite dom_insert_L. set_solver.
  - intros b z w [Hb Hbu]%elem_of_difference Hz Hw.
    rewrite dom_insert_L. assert (b ≠ u) by set_solver.
    assert (w = u ∧ b = a ∨ ∃ z', h !! b = Some z' ∧ w ∈ lf_blkhd z') as [[-> ->]|(z' & Hz' & Hw')].
    { destruct (decide (a = b)) as [<-|]; simplify_map_eq; [|eauto].
      cbn in Hw. apply elem_of_app in Hw as [|Hw%list_elem_of_singleton]; eauto. }
    + split; [set_solver|]. eexists. rewrite lookup_insert_ne, lookup_insert_eq by done. done.
    + destruct (Hq b z' w Hb Hz' Hw') as (Hws & y & Hy & Ey). split; [set_solver|].
      exists y. rewrite !lookup_insert_ne; [done|set_solver|set_solver].
  - intros b z Hz. destruct (decide (a = b)) as [<-|]; [|destruct (decide (u = b)) as [<-|]];
      simplify_map_eq; cbn; [|eauto..].
    apply NoDup_app. split; [eauto|]. split; [|apply NoDup_singleton].
    intros v Hv ->%list_elem_of_singleton. by eapply Hnu.
  - intros w y Hw Hy. rewrite dom_insert_L in Hw.
    assert (w ≠ a) by set_solver. rewrite lookup_insert_ne in Hy by done.
    destruct (decide (u = w)) as [<-|Huw].
    { simplify_map_eq. cbn. split; [done|]. split; [set_solver|]. eexists. split; [done|].
      cbn. apply elem_of_app. right. left. }
    rewrite lookup_insert_ne in Hy by done. destruct (Hs w y ltac:(set_solver) Hy) as [Ey H'].
    split; [done|]. destruct (lf_next y) as [b|]; [|done]. destruct H' as (Hb & z & Hz & Hwz).
    assert (b ≠ u) by (intros ->; simplify_eq; rewrite Eb in Hwz; by apply elem_of_nil in Hwz).
    split; [set_solver|]. destruct (decide (a = b)) as [<-|]; simplify_map_eq; [|eauto].
    eexists. split; [done|]. cbn. apply elem_of_app. by left.
  - intros w q y Hq' Hy. destruct (decide (u = w)) as [<-|]; simplify_map_eq; [done|].
    apply elem_of_dom_2 in Hq' as Hw. rewrite !lookup_insert_ne in Hy by set_solver. eauto.
Qed.

(** A request that blocks on nothing any more runs again. *)
Lemma waiting_awake h gr sl wk w y :
  waiting h gr sl wk → w ∈ dom sl → h !! w = Some y → lf_next y = None →
  waiting h ({[w]} ∪ gr) (delete w sl) wk.
Proof.
  intros [Hd Hdj Hq Hn Hs Hrq] Hw Hy En. destruct (Hs w y Hw Hy) as [Eb _]. split.
  - rewrite dom_delete_L. rewrite Hd. apply set_eq. intros v. destruct (decide (v = w)); set_solver.
  - rewrite dom_delete_L. set_solver.
  - intros b z v Hb Hz Hv. rewrite dom_delete_L.
    apply elem_of_union in Hb as [->%elem_of_singleton|Hb].
    { simplify_eq. rewrite Eb in Hv. by apply elem_of_nil in Hv. }
    destruct (Hq b z v Hb Hz Hv) as (Hvs & u & Hu & Eu). split; [|eauto].
    assert (v ≠ w) by congruence. set_solver.
  - done.
  - intros v z Hv Hz. rewrite dom_delete_L in Hv. destruct (Hs v z ltac:(set_solver) Hz) as [Ez H].
    split; [done|]. destruct (lf_next z) as [b|]; [|done]. destruct H as [Hb H]. split; [set_solver|done].
  - intros v q z Hq' Hz. apply lookup_delete_Some in Hq' as [_ Hq']. eauto.
Qed.

(** A request gives up: it leaves the queue it is in, if any, and is freed. *)
Lemma waiting_leave_queue h gr sl wk w y a x :
  waiting h gr sl wk → w ∈ dom sl → h !! w = Some y → lf_next y = Some a → h !! a = Some x →
  waiting (<[a := set_blkhd (filter (λ v, v ≠ w) (lf_blkhd x)) x]> (delete w h)) gr (delete w sl) wk.
Proof.
  intros [Hd Hdj Hq Hn Hs Hrq] Hw Hy En Hx.
  destruct (Hs w y Hw Hy) as [_ H]. rewrite En in H. destruct H as (Ha & x' & Hx' & Hwx). simplify_eq.
  assert (a ≠ w) by set_solver. split.
  - rewrite dom_insert_L, !dom_delete_L, Hd. apply set_eq. intros v. destruct (decide (v = w)); set_solver.
  - rewrite dom_delete_L. set_solver.
  - intros b z v Hb Hz Hv. rewrite dom_delete_L. assert (b ≠ w) by set_solver.
    assert (v ≠ w ∧ ∃ z', h !! b = Some z' ∧ v ∈ lf_blkhd z') as (Hvw & z' & Hz' & Hv').
    { destruct (decide (a = b)) as [<-|].
      - simplify_map_eq. cbn in Hv. apply list_elem_of_filter in Hv as [? ?]. eauto.
      - rewrite lookup_insert_ne, lookup_delete_ne in Hz by done. split; [|eauto].
        intros ->. destruct (Hq b z w Hb Hz Hv) as (_ & u & Hu & Eu). simplify_eq. }
    destruct (Hq b z' v Hb Hz' Hv') as (Hvs & u & Hu & Eu). split; [set_solver|].
    exists u. rewrite lookup_insert_ne, lookup_delete_ne; [done|done|set_solver].
  - intros b z Hz. destruct (decide (a = b)) as [<-|].
    + simplify_map_eq. cbn. apply NoDup_filter. eauto.
    + rewrite lookup_insert_ne in Hz by done. apply lookup_delete_Some in Hz as [_ Hz]. eauto.
  - intros v z Hv Hz. rewrite dom_delete_L in Hv. assert (v ≠ w ∧ v ≠ a) as [? ?] by set_solver.
    rewrite lookup_insert_ne, lookup_delete_ne in Hz by done.
    destruct (Hs v z ltac:(set_solver) Hz) as [Ez H']. split; [done|].
    destruct (lf_next z) as [b|]; [|done]. destruct H' as (Hb & u & Hu & Hvu). split; [done|].
    destruct (decide (a = b)) as [<-|].
    + simplify_map_eq. eexists. split; [done|]. cbn. by apply list_elem_of_filter.
    + rewrite lookup_insert_ne, lookup_delete_ne; [eauto|set_solver|done].
  - intros v q z Hq' Hz. apply lookup_delete_Some in Hq' as [? Hq'].
    apply elem_of_dom_2 in Hq' as Hv. rewrite lookup_insert_ne, lookup_delete_ne in Hz by set_solver. eauto.
Qed.

Lemma waiting_leave h gr sl wk w y :
  waiting h gr sl wk → w ∈ dom sl → h !! w = Some y → lf_next y = None →
  waiting (delete w h) gr (delete w sl) wk.
Proof.
  intros Hwt Hw Hy En. pose proof (waiting_awake _ _ _ _ _ _ Hwt Hw Hy En) as H.
  destruct (w_sleep _ _ _ _ Hwt w y Hw Hy) as [Eb _]. pose proof (w_disj _ _ _ _ Hwt).
  apply (waiting_free _ _ _ _ w y) in H; [|set_solver|done|done].
  by replace (({[w]} ∪ gr) ∖ {[w]}) with gr in H by set_solver.
Qed.

(** ** lf_clearlock *)

Lemma lf_clearlock_ok s ls u xu sl :
  linked s ls (Some (u, xu)) sl → Forall valid ls → valid (core u xu) →
  ∃ s' na nx, lf_clearlock u s = Ok (0, s') ∧
    linked s' (clear_list na (core u xu) ls) (Some (u, set_next nx xu)) sl.
Proof.
  intros Hl Hv Hvu. unfold lf_clearlock. pose proof (li_seg _ _ _ _ Hl) as Hseg.
  pose proof (seg_first _ _ _ _ Hseg) as Eh. destruct ls as [|x ls].
  - exists s, 1%positive, (lf_next xu). split.
    + unfold gets. unfold mbind, M_bind. by rewrite Eh.
    + replace (set_next (lf_next xu) xu) with xu by (by destruct xu). done.
  - destruct (clearlock_loop_ok u xu (S (size (heap s))) s [] (x :: ls) sl Hl Hv Hvu)
      as (s' & na & nx & Hrun & Hl').
    { pose proof (linked_size _ _ _ _ Hl). lia. }
    exists s', na, nx. split; [|done]. unfold gets, list_fuel. unfold mbind, M_bind. rewrite Eh.
    cbn [first]. unfold gets. change (lv []) with Head in Hrun. cbn [first] in Hrun. by rewrite Hrun.
Qed.

(** ** lf_getblock *)

Lemma lf_getblock_ok s ls u xu cur sl :
  linked s ls cur sl → heap s !! u = Some xu → Forall valid ls → valid (core u xu) →
  lf_getblock u s = Ok (k_addr <$> blocker (core u xu) ls, s).
Proof.
  intros Hl Hu Hv Hvu. pose proof (li_seg _ _ _ _ Hl) as Hseg.
  pose proof (seg_first _ _ _ _ Hseg) as Eh. rewrite Eh in Hseg.
  unfold lf_getblock, gets, list_fuel. unfold mbind, M_bind, gets. rewrite Eh.
  apply (getblock_loop_ok _ ls u (core u xu) xu); try done.
  - by eapply linked_size.
  - pose proof (linked_size _ _ _ _ Hl). lia.
Qed.

(** ** lf_setlock *)

(** The bytes after owner [k_id l] was given [l], or gave up the range of [u]. *)
Definition granted_bytes (l : lk) (ls ls' : list lk) : Prop :=
  ∀ id b t, holds ls' id b t ↔
    (id = k_id l ∧ covers l b ∧ t = k_type l) ∨ (holds ls id b t ∧ ¬ (id = k_id l ∧ covers l b)).
Definition released_bytes (u : lk) (ls ls' : list lk) : Prop :=
  ∀ id b t, holds ls' id b t ↔ holds ls id b t ∧ ¬ (id = k_id u ∧ covers u b).

Lemma linked_sleep s ls u xu sl x :
  linked s ls (Some (u, xu)) sl → lf_blkhd xu = [] → x ∈ ls →
  ∃ s1 s', upd u (set_next (Some (k_addr x))) s = Ok (tt, s1) ∧
    TAILQ_INSERT_TAIL (k_addr x) u s1 = Ok (tt, s') ∧
    linked s' ls None (<[u := core u xu]> sl) ∧
    heap s' !! u = Some (set_next (Some (k_addr x)) xu).
Proof.
  intros Hl Eb Hx. apply list_elem_of_split in Hx as (pre & r & ->).
  destruct (linked_get _ _ _ _ _ _ Hl) as (cx & Hcx & _ & _ & _).
  destruct Hl as [Hs Hn [Hu Hun] Hw].
  assert (u ≠ k_addr x) as Hux by (intros ->; apply Hun; rewrite addrs_app, elem_of_app; right; left).
  pose proof (waiting_sleep _ _ _ _ u xu (k_addr x) cx Hw (cur_granted _ _ _) Hu Eb (mid_granted _ _ _ _)
    ltac:(done) Hcx) as Hw'.
  assert ((<[u := set_next (Some (k_addr x)) xu]> (heap s)) !! k_addr x = Some cx) as Hcx1
    by (by rewrite lookup_insert_ne).
  do 2 eexists. split; [exact (upd_ok _ _ _ _ Hu)|].
  split; [apply (upd_ok (VS _ _ _)); exact Hcx1|]. cbn.
  split; [|by rewrite lookup_insert_ne, lookup_insert_eq by done].
  split; cbn.
  - eapply seg_same; [|exact Hs]. intros a Ha.
    destruct (decide (a = k_addr x)) as [->|]; [by rewrite lookup_insert_eq, Hcx|].
    rewrite !lookup_insert_ne by congruence. done.
  - done.
  - done.
  - replace (granted (pre ++ x :: r) None) with (granted (pre ++ x :: r) (Some (u, xu)) ∖ {[u]}); [done|].
    apply set_eq. intros a. rewrite elem_of_difference, !elem_of_granted. cbn.
    rewrite elem_of_singleton, elem_of_empty. naive_solver.
Qed.

(** The range an [F_FLOCK] request for an exclusive lock gives up first. *)
Lemma flock_release_ok s ls u xu sl :
  linked s ls (Some (u, xu)) sl → good ls → proper (core u xu) → lf_type xu = F_WRLCK →
  ∃ s' na nx, (upd u (set_type F_UNLCK);; lf_clearlock u;; upd u (set_type F_WRLCK)) s = Ok (tt, s') ∧
    linked s' (clear_list na (core u (set_type F_UNLCK xu)) ls) (Some (u, set_next nx xu)) sl.
Proof.
  intros Hl Hg Hp Et.
  destruct (linked_upd_cur _ _ _ _ _ (set_type F_UNLCK) Hl eq_refl) as (s1 & H1 & Hl1 & _).
  destruct (lf_clearlock_ok _ _ _ _ _ Hl1 (g_valid _ Hg) (proj1 Hp)) as (s2 & na & nx & H2 & Hl2).
  destruct (linked_upd_cur _ _ _ _ _ (set_type F_WRLCK) Hl2 eq_refl) as (s3 & H3 & Hl3 & _).
  exists s3, na, nx. split; [mstep H1; mstep H2; exact H3|].
  replace (set_next nx xu) with (set_type F_WRLCK (set_next nx (set_type F_UNLCK xu))); [done|].
  rewrite <- Et. by destruct xu.
Qed.

Definition is_flock_wr (x : lockf) : bool :=
  negb (Z.land (lf_flags x) F_FLOCK =? 0) && (lf_type x =? F_WRLCK).

Definition setlock_spec (u : addr) (xu : lockf) (ls : list lk) (sl : gmap addr lk)
    (r : lf_result) (s' : vstate) (ls' : list lk) (sl' : gmap addr lk) : Prop :=
  let l := core u xu in
  match blocker l ls with
  | None => r = Return 0 ∧ sl' = sl ∧ granted_bytes l ls ls'
  | Some x =>
      if Z.land (lf_flags xu) F_WAIT =? 0 then r = Return EAGAIN ∧ sl' = sl ∧ ls' = ls
      else r = Msleep u ∧ sl' = <[u := l]> sl ∧ x ∈ ls' ∧
           (lf_next <$> heap s' !! u = Some (Some (k_addr x))) ∧
           (if is_flock_wr xu then released_bytes l ls ls' else ls' = ls)
  end.

Lemma lf_setlock_ok s ls u xu sl :
  linked s ls (Some (u, xu)) sl → good ls → (∀ w q, sl !! w = Some q → proper q) →
  proper (core u xu) → lf_blkhd xu = [] →
  ∃ r s' ls' sl', lf_setlock u s = Ok (r, s') ∧ inv s' ls' sl' ∧ setlock_spec u xu ls sl r s' ls' sl'.
Proof.
  intros Hl Hg Hsl Hp Eb. pose proof (li_cur _ _ _ _ Hl) as [Hu _].
  unfold lf_setlock, setlock_spec.
  mstep (lf_getblock_ok _ _ _ _ _ _ Hl Hu (g_valid _ Hg) (proj1 Hp)). mstep (get_ok _ _ _ Hu).
  destruct (blocker (core u xu) ls) as [x|] eqn:Ebl; cbn [fmap option_fmap option_map].
  - apply blocker_Some in Ebl as [Hx (Hid & _)].
    destruct (Z.land (lf_flags xu) F_WAIT =? 0).
    { destruct (linked_free_cur _ _ _ _ _ Hl Eb) as (s' & Hr & Hl').
      exists (Return EAGAIN), s', ls, sl. split; [by mstep Hr|]. done. }
    fold (is_flock_wr xu). destruct (is_flock_wr xu) eqn:Ef.
    + apply andb_true_iff in Ef as [_ Et%Z.eqb_eq].
      destruct (flock_release_ok _ _ _ _ _ Hl Hg Hp Et) as (s1 & na & nx & H1 & Hl1). mstep H1.
      set (l' := core u (set_type F_UNLCK xu)) in *. assert (proper l') as Hp' by apply Hp.
      destruct (linked_sleep _ _ _ _ _ x Hl1 Eb) as (s2 & s3 & H2 & H3 & Hl3 & Hu3);
        [by apply clear_keeps|]. mstep H2. mstep H3.
      exists (Msleep u), s3, (clear_list na l' ls), (<[u := core u xu]> sl).
      split; [done|]. split.
      * split; [done|by apply clear_good|]. intros w q [[<- <-]|[_ ?]]%lookup_insert_Some; eauto.
      * split_and!; [done..|by apply clear_keeps|by rewrite Hu3|].
        intros id b t. by apply (clear_holds na l'); [|apply Hg..].
    + mstep (ret_eq tt s). destruct (linked_sleep _ _ _ _ _ x Hl Eb Hx) as (s2 & s3 & H2 & H3 & Hl3 & Hu3).
      mstep H2. mstep H3. exists (Msleep u), s3, ls, (<[u := core u xu]> sl). split; [done|]. split.
      * split; [done..|]. intros w q [[<- <-]|[_ ?]]%lookup_insert_Some; eauto.
      * split_and!; [done..|by rewrite Hu3|done].
  - destruct (link_true_ok u xu Eb (S (size (heap s))) s ls sl [] Hl (g_valid _ Hg) (proj1 Hp) (g_ordered _ Hg))
      as (s' & na & Hr & Hl'). { pose proof (linked_size _ _ _ _ Hl). lia. }
    pose proof (seg_first _ _ _ _ (li_seg _ _ _ _ Hl)) as Eh.
    exists (Return 0), s', (link_list na (core u xu) true ls), sl. split.
    + unfold gets, list_fuel. unfold mbind, M_bind, gets. rewrite Eh.
      change (lv []) with Head in Hr. by rewrite Hr.
    + split; [split; [done|by apply link_good|done]|]. split_and!; [done..|].
      intros id b t. rewrite link_holds by (done || apply Hg). naive_solver.
Qed.
