(* ===== verification/LockfCorrect.v ===== *)
(** * Advisory byte-range locks: correctness

    The contracts of [lf_advlock] for the three operations, of a request that
    wakes up, and the safety of the whole: in every state that calls,
    wake-ups and signals can reach, no call crashes, no two owners hold
    conflicting locks, and every sleeping request is in the queue of a lock of
    the list or has been woken.  All of this is about calls whose range does not
    end at the very largest offset [OFF_MAX]: the code computes [lf_end + 1], which
    wraps there, and with such ranges it breaks its list
    ([unlock_to_off_max_locks_everything]) and frees a structure that is not
    allocated ([off_max_ranges_crash]). *)

From Stdlib Require Import ZifyBool.
From stdpp Require Import relations.
From S2P Require Import Prelude Lockf LockfList LockfHeap LockfLinked LockfLoops LockfState.

(** ** Ranges *)

Record flock_ok (vs : Z + Z) (fl : flock) : Prop := {
  fk_start : is_i64 (l_start fl);
  fk_len : is_i64 (l_len fl);
  fk_size : match vs with inr size => 0 ≤ size | inl _ => True end;
}.

Lemma flock_range_valid vs fl start end_ :
  flock_ok vs fl → flock_range vs fl = inr (start, end_) →
  0 ≤ start < 2 ^ 63 ∧ (end_ = -1 ∨ start ≤ end_ < 2 ^ 63).
Proof.
  intros [Hs Hl Hv] E. unfold is_i64 in *. unfold flock_range, OFF_MAX in E.
  assert (match vs with inr size => - 2 ^ 63 ≤ i64 (size + l_start fl) < 2 ^ 63 | inl _ => True end) as Hw.
  { destruct vs as [|size]; [done|]. apply (wraps_range 64). lia. }
  repeat case_match; simplify_eq; lia.
Qed.

(** The range [lf_advlock] works on: bytes [l_start .. l_start + l_len - 1]
    relative to the base the whence selects for a positive length, up to the
    end of the file for length 0, the bytes before the start for a negative
    one; starts before 0 are [EINVAL], ends past the largest offset
    [EOVERFLOW]. *)
Theorem flock_range_correct vs fl base :
  flock_ok vs fl →
  (l_whence fl = SEEK_SET ∧ base = 0 ∨ l_whence fl = SEEK_CUR ∧ base = 0 ∨
   l_whence fl = SEEK_END ∧ vs = inr base ∧ base ≤ OFF_MAX) →
  let first := if 0 <=? l_len fl then base + l_start fl else base + l_start fl + l_len fl in
  flock_range vs fl =
    if OFF_MAX <? base + l_start fl then inl EOVERFLOW
    else if base + l_start fl <? 0 then inl EINVAL
    else if first <? 0 then inl EINVAL
    else if l_len fl =? 0 then inr (first, -1)
    else if OFF_MAX <? first + Z.abs (l_len fl) - 1 then inl EOVERFLOW
    else inr (first, first + Z.abs (l_len fl) - 1).
Proof.
  intros [Hs Hl Hv] Hb. cbv zeta. unfold is_i64, OFF_MAX in *. unfold flock_range, OFF_MAX.
  destruct Hb as [[-> ->]|[[-> ->]|(-> & -> & Hb)]]; cbn [Z.eqb orb SEEK_SET SEEK_CUR SEEK_END Pos.eqb].
  - repeat case_match; try lia; try done; do 2 f_equal; lia.
  - repeat case_match; try lia; try done; do 2 f_equal; lia.
  - destruct (_ || _) eqn:E.
    + destruct (Z.ltb_spec (2 ^ 63 - 1) (base + l_start fl)); [done|lia].
    + rewrite wraps_small by lia. repeat case_match; try lia; try done; do 2 f_equal; lia.
Qed.

(** ** A request *)

Lemma linked_malloc s ls sl x :
  linked s ls None sl → lf_blkhd x = [] →
  ∃ u s', MALLOC x s = Ok (u, s') ∧ linked s' ls (Some (u, x)) sl ∧ v_lockf s' = v_lockf s.
Proof.
  intros [Hs Hn _ Hw] Eb. exists (fresh (dom (heap s))). eexists. split; [apply MALLOC_ok|]. split; [|done].
  set (u := fresh (dom (heap s))). assert (u ∉ dom (heap s)) as Hu by apply is_fresh.
  split; cbn.
  - eapply seg_same; [|exact Hs]. intros a Ha. rewrite lookup_insert_ne; [done|].
    intros <-. by apply Hu, (seg_dom _ _ _ _ _ Hs).
  - done.
  - rewrite lookup_insert_eq. split; [done|]. intros Ha. by apply Hu, (seg_dom _ _ _ _ _ Hs).
  - replace (granted ls (Some (u, x))) with ({[u]} ∪ granted ls None); [by apply waiting_malloc|].
    apply set_eq. intros a. rewrite elem_of_union, !elem_of_granted. cbn.
    rewrite elem_of_singleton, elem_of_empty. tauto.
Qed.

(** The lock a call asks about. *)
Definition request (id flags : Z) (fl : flock) (start end_ : Z) : lockf :=
  LF flags (l_type fl) start end_ id None [].

Section calls.
Context (pid : Z → Z) (vs : Z + Z) (id flags : Z) (fl : flock).
Context (s : vstate) (ls : list lk) (sl : gmap addr lk) (Hinv : inv s ls sl).
Context (Hfl : flock_ok vs fl) (start end_ : Z) (Hr : flock_range vs fl = inr (start, end_)).
Context (Hmax : end_ ≠ OFF_MAX).

Local Abbreviation rq := (request id flags fl start end_).

Lemma request_proper u : proper (core u rq).
Proof using Hfl Hr Hmax.
  destruct (flock_range_valid _ _ _ _ Hfl Hr). unfold proper, valid, OFF_MAX in *. cbn. lia.
Qed.

Lemma advlock_setlk_ok :
  ∃ u r s' ls' sl', lf_advlock pid vs id F_SETLK flags fl s = Ok ((r, fl), s') ∧
    inv s' ls' sl' ∧ (u ∉ dom (heap s)) ∧ setlock_spec u rq ls sl r s' ls' sl'.
Proof using Hinv Hfl Hr Hmax.
  destruct Hinv as [Hl Hg Hsl]. unfold lf_advlock. unfold gets at 1. unfold mbind at 1, M_bind at 1.
  cbv beta iota. rewrite andb_false_r, Hr.
  destruct (linked_malloc _ _ _ rq Hl eq_refl) as (u & s1 & Hm & Hl1 & _).
  assert (u ∉ dom (heap s)) as Hu.
  { unfold MALLOC in Hm. simplify_eq. apply is_fresh. }
  fold rq. mstep Hm.
  destruct (lf_setlock_ok _ _ _ _ _ Hl1 Hg Hsl (request_proper u) eq_refl) as (r & s' & ls' & sl' & H & Hi & Hsp).
  exists u, r, s', ls', sl'. split; [|done]. cbn. by mstep H.
Qed.

Lemma advlock_unlck_ok :
  ∃ s' ls' fl', lf_advlock pid vs id F_UNLCK flags fl s = Ok ((Return 0, fl'), s') ∧
    inv s' ls' sl ∧ released_bytes (core 1 rq) ls ls'.
Proof using Hinv Hfl Hr Hmax.
  destruct Hinv as [Hl Hg Hsl]. pose proof (seg_first _ _ _ _ (li_seg _ _ _ _ Hl)) as Eh.
  unfold lf_advlock. unfold gets at 1. unfold mbind at 1, M_bind at 1. cbv beta iota.
  destruct ls as [|x ls0].
  { exists s, []. eexists. split; [by rewrite Eh|]. split; [done|].
    intros i b t. split; [by intros ?%holds_nil|by intros [?%holds_nil _]]. }
  rewrite Eh. cbn [first]. rewrite bool_decide_false, Hr by done. cbn [andb].
  destruct (linked_malloc _ _ _ rq Hl eq_refl) as (u & s1 & Hm & Hl1 & _). fold rq. mstep Hm. cbn [Z.eqb Pos.eqb].
  destruct (lf_clearlock_ok _ _ _ _ _ Hl1 (g_valid _ Hg) (proj1 (request_proper u))) as (s2 & na & nx & H2 & Hl2).
  cbn. mstep H2. destruct (linked_free_cur _ _ _ _ _ Hl2 eq_refl) as (s3 & H3 & Hl3). mstep H3.
  exists s3, (clear_list na (core u rq) (x :: ls0)), fl. split; [done|]. split.
  - split; [done|apply clear_good; [apply request_proper|done]|done].
  - intros i b t. apply (clear_holds na (core u rq)); [apply request_proper|apply Hg|apply Hg].
Qed.

Definition getlk_answer (o : option lk) : flock :=
  match o with
  | Some x => FL (k_start x) (if k_end x =? -1 then 0 else i64 (k_end x - k_start x + 1))
                 (if negb (Z.land (k_flags x) F_POSIX =? 0) then pid (k_id x) else -1) (k_type x) SEEK_SET
  | None => FL (l_start fl) (l_len fl) (l_pid fl) F_UNLCK (l_whence fl)
  end.

Lemma advlock_getlk_ok :
  ∃ s', lf_advlock pid vs id F_GETLK flags fl s = Ok ((Return 0, getlk_answer (blocker (core 1 rq) ls)), s') ∧
    inv s' ls sl.
Proof using Hinv Hfl Hr Hmax.
  destruct Hinv as [Hl Hg Hsl]. pose proof (seg_first _ _ _ _ (li_seg _ _ _ _ Hl)) as Eh.
  unfold lf_advlock. unfold gets at 1. unfold mbind at 1, M_bind at 1. cbv beta iota.
  destruct ls as [|x ls0].
  { exists s. by rewrite Eh. }
  rewrite Eh. cbn [first]. rewrite bool_decide_false, Hr by done. cbn [andb].
  destruct (linked_malloc _ _ _ rq Hl eq_refl) as (u & s1 & Hm & Hl1 & _). fold rq. mstep Hm. cbn [Z.eqb Pos.eqb].
  pose proof (li_cur _ _ _ _ Hl1) as [Hu1 _].
  pose proof (lf_getblock_ok _ _ _ _ _ _ Hl1 Hu1 (g_valid _ Hg) (proj1 (request_proper u))) as Hb.
  destruct (linked_free_cur _ _ _ _ _ Hl1 eq_refl) as (s3 & H3 & Hl3).
  assert (lf_getlock pid u fl s1 = Ok ((0, getlk_answer (blocker (core u rq) (x :: ls0))), s1)) as Hgl.
  { unfold lf_getlock. mstep Hb. destruct (blocker (core u rq) (x :: ls0)) as [y|] eqn:Ey; [|done].
    cbn [fmap option_fmap option_map]. apply blocker_Some in Ey as [Hy _].
    apply list_elem_of_split in Hy as (p1 & p2 & E). rewrite E in Hl1.
    destruct (linked_get _ _ _ _ _ _ Hl1) as (cy & Hcy & Ecy & _). mstep (get_ok _ _ _ Hcy).
    rewrite ret_eq. do 3 f_equal. by rewrite <- Ecy. }
  cbn. mstep Hgl. mstep H3. exists s3. split; [done|]. by split.
Qed.

End calls.

(** ** The three operations *)

(** No other owner holds a lock on a byte of [l] that excludes it. *)
Definition compatible (ls : list lk) (l : lk) : Prop :=
  ∀ id b t, id ≠ k_id l → covers l b → holds ls id b t → k_type l ≠ F_WRLCK ∧ t ≠ F_WRLCK.

Lemma blocker_compatible ls l : Forall valid ls → valid l → blocker l ls = None ↔ compatible ls l.
Proof.
  intros Hv Hl. split.
  - intros Hb id b t Hid Hc (x & Hx & Ei & Hcx & Et).
    pose proof (blocker_None _ _ _ Hb Hx) as Hn. unfold conflicts in Hn.
    assert (¬ disjoint_lk l x) by (intros Hd; by eapply disjoint_byte).
    subst id t. split; intros E; apply Hn; auto.
  - intros Hc. destruct (blocker l ls) as [x|] eqn:Eb; [|done]. exfalso.
    apply blocker_Some in Eb as [Hx (Hid & Hov & Ht)].
    assert (valid x) as Hvx by (rewrite Forall_forall in Hv; auto).
    destruct (overlap_byte l x Hl Hvx Hov) as [H1 H2].
    destruct (Hc (k_id x) _ (k_type x) Hid H1) as [? ?]; [|tauto]. by exists x.
Qed.

(** C18. [F_SETLK] on a range that does not end at the largest offset: when no other owner's lock conflicts the request is granted,
    and afterwards its owner holds exactly the requested type on the bytes
    of the range, everything else as before; when one conflicts, a request
    that may not wait is refused and changes nothing, and one that may wait
    is put to sleep in the queue of a conflicting lock (an [F_FLOCK] upgrade
    first gives up the range it holds).  The invariant is kept. *)
Theorem lf_advlock_setlk_correct pid vs id flags fl s ls sl start end_ :
  inv s ls sl → flock_ok vs fl → flock_range vs fl = inr (start, end_) → end_ ≠ OFF_MAX →
  ∃ u r s' ls' sl', lf_advlock pid vs id F_SETLK flags fl s = Ok ((r, fl), s') ∧ inv s' ls' sl' ∧
  let l := Lk u flags (l_type fl) start end_ id in
  (compatible ls l → r = Return 0 ∧ sl' = sl ∧ granted_bytes l ls ls') ∧
  (¬ compatible ls l → Z.land flags F_WAIT = 0 → r = Return EAGAIN ∧ sl' = sl ∧ ls' = ls) ∧
  (¬ compatible ls l → Z.land flags F_WAIT ≠ 0 →
     r = Msleep u ∧ sl' = <[u := l]> sl ∧
     (∃ x, x ∈ ls' ∧ conflicts l x ∧ lf_next <$> heap s' !! u = Some (Some (k_addr x))) ∧
     (if negb (Z.land flags F_FLOCK =? 0) && (l_type fl =? F_WRLCK)
      then released_bytes l ls ls' else ls' = ls)).
Proof.
  intros Hi Hf Hr Hm.
  destruct (advlock_setlk_ok pid vs id flags fl s ls sl Hi Hf start end_ Hr Hm)
    as (u & r & s' & ls' & sl' & Hrun & Hi' & _ & Hsp).
  exists u, r, s', ls', sl'. split; [done|]. split; [done|].
  pose proof (request_proper vs id flags fl Hf start end_ Hr Hm u) as [Hv _].
  unfold setlock_spec in Hsp. cbv zeta. change (core u _) with (Lk u flags (l_type fl) start end_ id) in *.
  set (l := Lk u flags (l_type fl) start end_ id) in *.
  pose proof (blocker_compatible ls l (g_valid _ (iv_good _ _ _ Hi)) Hv) as Hbc.
  destruct (blocker l ls) as [x|] eqn:Eb.
  - assert (¬ compatible ls l) as Hnc by (rewrite <- Hbc; done). apply blocker_Some in Eb as [_ Hcx].
    cbn [lf_flags request] in Hsp.
    destruct (Z.eqb_spec (Z.land flags F_WAIT) 0) as [Ew|Ew];
      (split; [done|]); split; intros _ Hw; try done.
    destruct Hsp as (-> & -> & Hx & Hn & Hrest). eauto 10.
  - assert (compatible ls l) as Hc by (by apply Hbc). done.
Qed.

(** C39. [F_UNLCK] of a range that does not end at the largest offset (one that does
    leaves a lock on every byte, [unlock_to_off_max_locks_everything]): afterwards the owner holds nothing on the bytes of the range;
    every other lock, of the owner and of others, is as before. *)
Theorem lf_advlock_unlck_correct pid vs id flags fl s ls sl start end_ :
  inv s ls sl → flock_ok vs fl → flock_range vs fl = inr (start, end_) → end_ ≠ OFF_MAX →
  ∃ s' ls' fl', lf_advlock pid vs id F_UNLCK flags fl s = Ok ((Return 0, fl'), s') ∧ inv s' ls' sl ∧
  ∀ i b t, holds ls' i b t ↔
    holds ls i b t ∧ ¬ (i = id ∧ start ≤ b ∧ (end_ = -1 ∨ b ≤ end_)).
Proof. intros Hi Hf Hr Hm. by apply advlock_unlck_ok. Qed.

(** [F_GETLK]: the answer is [F_UNLCK] exactly when the request would be
    granted; otherwise it describes a lock of another owner that conflicts.
    Nothing changes. *)
Theorem lf_advlock_getlk_correct pid vs id flags fl s ls sl start end_ :
  inv s ls sl → flock_ok vs fl → flock_range vs fl = inr (start, end_) → end_ ≠ OFF_MAX →
  ∃ s' fl', lf_advlock pid vs id F_GETLK flags fl s = Ok ((Return 0, fl'), s') ∧ inv s' ls sl ∧
  let l := Lk 1 flags (l_type fl) start end_ id in
  (compatible ls l → fl' = FL (l_start fl) (l_len fl) (l_pid fl) F_UNLCK (l_whence fl)) ∧
  (¬ compatible ls l → ∃ x, x ∈ ls ∧ conflicts l x ∧ fl' = getlk_answer pid fl (Some x)).
Proof.
  intros Hi Hf Hr Hm.
  destruct (advlock_getlk_ok pid vs id flags fl s ls sl Hi Hf start end_ Hr Hm) as (s' & Hrun & Hi').
  exists s'. eexists. split; [done|]. split; [done|]. cbv zeta.
  pose proof (request_proper vs id flags fl Hf start end_ Hr Hm 1) as [Hv _].
  change (core 1 _) with (Lk 1 flags (l_type fl) start end_ id) in *.
  set (l := Lk 1 flags (l_type fl) start end_ id) in *.
  pose proof (blocker_compatible ls l (g_valid _ (iv_good _ _ _ Hi)) Hv) as Hbc.
  destruct (blocker l ls) as [x|] eqn:Eb.
  - assert (¬ compatible ls l) as Hnc by (rewrite <- Hbc; done). split; [done|].
    intros _. apply blocker_Some in Eb as [Hx Hc]. eauto.
  - split; [done|]. intros Hn. exfalso. by apply Hn, Hbc.
Qed.

(** ** Waking up *)

Lemma linked_awake s ls sl w q y :
  linked s ls None sl → sl !! w = Some q → heap s !! w = Some y → lf_next y = None →
  linked s ls (Some (w, y)) (delete w sl) ∧ lf_blkhd y = [] ∧ core w y = q.
Proof.
  intros [Hs Hn _ Hw] Hq Hy En. apply elem_of_dom_2 in Hq as Hd.
  destruct (w_sleep _ _ _ _ Hw w y Hd Hy) as [Eb _]. split; [|split; [done|by eapply w_req]].
  split; [done..| |].
  - split; [done|]. intros Ha. apply (w_disj _ _ _ _ Hw w); [|done]. apply elem_of_granted. by left.
  - replace (granted ls (Some (w, y))) with ({[w]} ∪ granted ls None); [by apply (waiting_awake _ _ _ _ w y)|].
    apply set_eq. intros a. rewrite elem_of_union, !elem_of_granted. cbn.
    rewrite elem_of_singleton, elem_of_empty. tauto.
Qed.

Lemma resume_wakeup_ok s ls sl w q y :
  inv s ls sl → sl !! w = Some q → heap s !! w = Some y → lf_next y = None →
  ∃ r s' ls' sl', lf_setlock_resume w 0 s = Ok (r, s') ∧ inv s' ls' sl' ∧
    setlock_spec w y ls (delete w sl) r s' ls' sl'.
Proof.
  intros [Hl Hg Hsl] Hq Hy En. destruct (linked_awake _ _ _ _ _ _ Hl Hq Hy En) as (Hl' & Eb & Ec).
  apply lf_setlock_ok; [done|done| |rewrite Ec; eauto|done].
  intros v p [_ Hp]%lookup_delete_Some. eauto.
Qed.

Lemma resume_error_ok s ls sl w q err :
  inv s ls sl → sl !! w = Some q → err ≠ 0 →
  ∃ s', lf_setlock_resume w err s = Ok (Return err, s') ∧ inv s' ls (delete w sl).
Proof.
  intros [Hl Hg Hsl] Hq He. apply elem_of_dom_2 in Hq as Hd. destruct Hl as [Hs Hn _ Hw].
  assert (∃ y, heap s !! w = Some y) as (y & Hy).
  { apply elem_of_dom. rewrite (w_dom _ _ _ _ Hw). apply elem_of_union. by right. }
  assert (w ∉ addrs ls) as Hwl.
  { intros Ha. apply (w_disj _ _ _ _ Hw w); [|done]. apply elem_of_granted. by left. }
  assert (∀ v p, delete w sl !! v = Some p → proper p) as Hsl'.
  { intros v p [_ Hp]%lookup_delete_Some. eauto. }
  unfold lf_setlock_resume. destruct (Z.eqb_spec err 0); [done|]. cbn [negb]. mstep (get_ok _ _ _ Hy).
  destruct (w_sleep _ _ _ _ Hw w y Hd Hy) as [_ Hnx].
  destruct (lf_next y) as [a|] eqn:En.
  - destruct Hnx as (Ha & x & Hx & Hwx).
    assert (a ≠ w) as Haw by (intros ->; by apply (w_disj _ _ _ _ Hw w)).
    pose proof (waiting_leave_queue _ _ _ _ w y a x Hw Hd Hy En Hx) as Hw'.
    set (x' := set_blkhd (filter (λ v, v ≠ w) (lf_blkhd x)) x) in *.
    assert (TAILQ_REMOVE a w s = Ok (tt, VS (<[a := x']> (heap s)) (v_lockf s) (wakeups s))) as H1.
    { unfold TAILQ_REMOVE. mstep (get_ok _ _ _ Hx). rewrite bool_decide_true by done. exact (upd_ok _ _ _ _ Hx). }
    eexists. split.
    + erewrite bind_Ok; [|mstep H1; apply (upd_ok (VS _ _ _)); cbn; rewrite lookup_insert_ne by done; exact Hy].
      erewrite bind_Ok; [|eapply (FREE_ok (VS _ _ _)); cbn; apply lookup_insert_eq]. done.
    + cbn. rewrite delete_insert_eq, delete_insert_ne by done. split; [|done|done]. split; cbn; [|done|done|done].
      eapply seg_same; [|exact Hs]. intros b Hb. assert (w ≠ b) by congruence.
      destruct (decide (a = b)) as [<-|]; [by rewrite lookup_insert_eq, Hx|].
      by rewrite lookup_insert_ne, lookup_delete_ne.
  - mstep (ret_eq tt s). pose proof (waiting_leave _ _ _ _ w y Hw Hd Hy En) as Hw'. eexists. split.
    + mstep (FREE_ok _ _ _ Hy). done.
    + cbn. split; [|done|done]. split; cbn; [|done|done|done].
      eapply seg_same; [|exact Hs]. intros b Hb. by rewrite lookup_delete_ne by congruence.
Qed.

(** ** Advisory byte-range locks: the lock manager as a transition system

    The state is the kernel's (heap, list, wake-ups) and the set of requests
    asleep in [msleep].  A step is a call of [lf_advlock], a wake-up of a
    sleeper or a signal to one; each runs under the vnode's mutex, so steps do
    not interleave. *)

Record config := Cfg { c_state : vstate; c_asleep : gset addr }.

Definition asleep_after (r : lf_result) (T : gset addr) : gset addr :=
  match r with Msleep w => {[w]} ∪ T | Return _ => T end.

(** The calls the theorems are about: 64-bit fields, and no range that ends at
    the very largest offset.  The code does not ask for the latter, and it goes wrong
    without it ([off_max_ranges_crash] below). *)
Definition ends_below_max (vs : Z + Z) (fl : flock) : Prop :=
  flock_ok vs fl ∧ ∀ start end_, flock_range vs fl = inr (start, end_) → end_ ≠ OFF_MAX.

(** The steps when all calls of [lf_advlock] are [allowed]: [flock_ok] for every call
    the system can make, [ends_below_max] for those the theorems are about. *)
Inductive step (allowed : Z + Z → flock → Prop) : config → config → Prop :=
| step_call pid vs id op flags fl s T r fl' s' :
    allowed vs fl →
    lf_advlock pid vs id op flags fl s = Ok ((r, fl'), s') →
    step allowed (Cfg s T) (Cfg s' (asleep_after r T))
| step_wakeup w y s T r s' :
    w ∈ T → heap s !! w = Some y → lf_next y = None →
    lf_setlock_resume w 0 s = Ok (r, s') →
    step allowed (Cfg s T) (Cfg s' (asleep_after r (T ∖ {[w]})))
| step_signal w err s T r s' :
    w ∈ T → err ≠ 0 →
    lf_setlock_resume w err s = Ok (r, s') →
    step allowed (Cfg s T) (Cfg s' (asleep_after r (T ∖ {[w]}))).

Definition init : config := Cfg (VS ∅ None []) ∅.
Definition reachable_by (allowed : Z + Z → flock → Prop) (c : config) : Prop := rtc (step allowed) init c.
Local Abbreviation reachable := (reachable_by ends_below_max).

Definition config_inv (c : config) : Prop := ∃ ls sl, inv (c_state c) ls sl ∧ dom sl = c_asleep c.

Lemma init_inv : config_inv init.
Proof.
  exists [], ∅. split; [|done]. split; [split; [done|constructor|done|]|split; [done|constructor|]|done].
  - by split.
  - by intros i j b t t' _ ?%holds_nil.
Qed.

Lemma setlock_asleep u xu ls sl r s' ls' sl' :
  setlock_spec u xu ls sl r s' ls' sl' → dom sl' = asleep_after r (dom sl).
Proof.
  unfold setlock_spec. destruct (blocker _ ls); [destruct (_ =? 0)|].
  - by intros (-> & -> & _).
  - intros (-> & -> & _). by rewrite dom_insert_L.
  - by intros (-> & -> & _).
Qed.

(** Any call, whatever its operation, returns and keeps the invariant. *)
Lemma advlock_any_ok pid vs id op flags fl s ls sl :
  inv s ls sl → ends_below_max vs fl →
  ∃ r fl' s' ls' sl', lf_advlock pid vs id op flags fl s = Ok ((r, fl'), s') ∧
    inv s' ls' sl' ∧ dom sl' = asleep_after r (dom sl).
Proof.
  intros Hi [Hf Hm]. destruct (flock_range vs fl) as [e|[st en]] eqn:Er.
  { unfold lf_advlock. unfold gets at 1. unfold mbind at 1, M_bind at 1. cbv beta iota. rewrite Er.
    destruct (_ && _); eauto 10. }
  specialize (Hm _ _ eq_refl).
  destruct (decide (op = F_SETLK)) as [->|H1].
  { destruct (advlock_setlk_ok pid vs id flags fl s ls sl Hi Hf st en Er Hm)
      as (u & r & s' & ls' & sl' & Hr & Hi' & _ & Hsp). eauto 10 using setlock_asleep. }
  destruct (decide (op = F_UNLCK)) as [->|H2].
  { destruct (advlock_unlck_ok pid vs id flags fl s ls sl Hi Hf st en Er Hm)
      as (s' & ls' & fl' & Hr & Hi' & _). eauto 10. }
  destruct (decide (op = F_GETLK)) as [->|H3].
  { destruct (advlock_getlk_ok pid vs id flags fl s ls sl Hi Hf st en Er Hm) as (s' & Hr & Hi'). eauto 10. }
  unfold lf_advlock. unfold gets at 1. unfold mbind at 1, M_bind at 1. cbv beta iota. rewrite Er.
  destruct (_ && _); [eauto 10|]. destruct Hi as [Hl Hg Hsl].
  destruct (linked_malloc _ _ _ (LF flags (l_type fl) st en id None []) Hl eq_refl) as (u & s1 & Hma & Hl1 & _).
  mstep Hma. rewrite (proj2 (Z.eqb_neq _ _) H1), (proj2 (Z.eqb_neq _ _) H2), (proj2 (Z.eqb_neq _ _) H3).
  destruct (linked_free_cur _ _ _ _ _ Hl1 eq_refl) as (s2 & Hfr & Hl2). mstep Hfr.
  exists (Return EINVAL), fl, s2, ls, sl. split; [done|]. by split.
Qed.

Lemma dom_lookup (sl : gmap addr lk) (T : gset addr) w : dom sl = T → w ∈ T → ∃ q, sl !! w = Some q.
Proof. intros <-. apply elem_of_dom. Qed.

Lemma step_inv c c' : step ends_below_max c c' → config_inv c → config_inv c'.
Proof.
  intros Hstep (ls & sl & Hi & Hd).
  destruct Hstep as [pid vs id op flags fl s T r fl' s' Hc Hr|w y s T r s' Hw Hy En Hr|w err s T r s' Hw He Hr];
    cbn [c_state c_asleep] in *.
  - destruct (advlock_any_ok pid vs id op flags fl s ls sl Hi Hc) as (r2 & fl2 & s2 & ls' & sl' & Hr2 & Hi' & Hd').
    rewrite Hr in Hr2. injection Hr2 as <- <- <-. exists ls', sl'. by rewrite Hd', Hd.
  - destruct (dom_lookup _ _ _ Hd Hw) as (q & Hq).
    destruct (resume_wakeup_ok _ _ _ _ _ _ Hi Hq Hy En) as (r2 & s2 & ls' & sl' & Hr2 & Hi' & Hsp).
    rewrite Hr in Hr2. injection Hr2 as <- <-.
    exists ls', sl'. split; [done|]. rewrite (setlock_asleep _ _ _ _ _ _ _ _ Hsp). by rewrite dom_delete_L, Hd.
  - destruct (dom_lookup _ _ _ Hd Hw) as (q & Hq).
    destruct (resume_error_ok _ _ _ _ _ _ Hi Hq He) as (s2 & Hr2 & Hi').
    rewrite Hr in Hr2. injection Hr2 as -> <-. exists ls, (delete w sl).
    split; [done|]. cbn. by rewrite dom_delete_L, Hd.
Qed.

Lemma reachable_inv c : reachable c → config_inv c.
Proof.
  unfold reachable_by. intros H. revert H. generalize init_inv. generalize init.
  intros c0 H0 H. induction H as [|x y z Hxy _ IH]; [done|]. apply IH. by eapply step_inv.
Qed.

(** The locks linked to the vnode. *)
Definition lock_list (s : vstate) (ls : list lk) : Prop := seg (heap s) (v_lockf s) ls None.

(** C2. In every state reachable by calls whose ranges do not end at the largest
    offset (with others it fails, [unlock_to_off_max_locks_everything]) the list hanging off the vnode is a proper list
    whose locks do not conflict: when two owners hold locks on the same
    byte, neither is exclusive; the locks of one owner are disjoint and in
    the order of their starts. *)
Theorem lockf_mutual_exclusion s T :
  reachable_by ends_below_max (Cfg s T) →
  ∃ ls, lock_list s ls ∧ exclusive ls ∧ ordered ls ∧ Forall valid ls.
Proof.
  intros (ls & sl & Hi & _)%reachable_inv. destruct Hi as [[Hs _ _ _] [Hv Ho He] _].
  by exists ls.
Qed.

(** C21. As long as no range ends at the largest offset (otherwise see
    [off_max_ranges_crash]), no call, wake-up or signal crashes: no structure is
    used after it was freed or freed twice, no queue operation is applied to
    a request that is not queued, the walks along the list end, and the
    [panic] of [lf_findoverlap] is never reached. *)
Theorem lockf_no_crash s T :
  reachable_by ends_below_max (Cfg s T) →
  (∀ pid vs id op flags fl, ends_below_max vs fl →
     ∃ r fl' s', lf_advlock pid vs id op flags fl s = Ok ((r, fl'), s')) ∧
  (∀ w y err, w ∈ T → heap s !! w = Some y → (err = 0 → lf_next y = None) →
     ∃ r s', lf_setlock_resume w err s = Ok (r, s')).
Proof.
  intros (ls & sl & Hi & Hd)%reachable_inv. cbn in *. split.
  - intros pid vs id op flags fl Hc.
    destruct (advlock_any_ok pid vs id op flags fl s ls sl Hi Hc) as (r & fl' & s' & ls' & sl' & Hr & _). eauto.
  - intros w y err Hw Hy En. destruct (dom_lookup _ _ _ Hd Hw) as (q & Hq).
    destruct (decide (err = 0)) as [->|He].
    + destruct (resume_wakeup_ok _ _ _ _ _ _ Hi Hq Hy (En eq_refl)) as (r & s' & ls' & sl' & Hr & _). eauto.
    + destruct (resume_error_ok _ _ _ _ _ _ Hi Hq He) as (s' & Hr & _). eauto.
Qed.

(** C40. No sleeper is lost, as long as no range ends at the largest offset: in every
    state reachable by such calls a sleeping request is a live
    structure that either is in the queue of exactly the lock of the list it
    points to, or has been taken off and [wakeup] called for it. *)
Theorem lockf_sleepers s T w :
  reachable_by ends_below_max (Cfg s T) → w ∈ T →
  ∃ y, heap s !! w = Some y ∧
    match lf_next y with
    | None => w ∈ wakeups s
    | Some a => ∃ ls x, lock_list s ls ∧ a ∈ addrs ls ∧ heap s !! a = Some x ∧ w ∈ lf_blkhd x ∧
                  ∀ b z, b ∈ addrs ls → heap s !! b = Some z → w ∈ lf_blkhd z → b = a
    end.
Proof.
  intros (ls & sl & Hi & Hd)%reachable_inv Hw. cbn in *. destruct Hi as [[Hs _ _ Hwt] _ _].
  rewrite <- Hd in Hw. pose proof (w_dom _ _ _ _ Hwt) as Hdom.
  assert (w ∈ dom (heap s)) as (y & Hy)%elem_of_dom by (rewrite Hdom; apply elem_of_union; by right).
  exists y. split; [done|]. destruct (w_sleep _ _ _ _ Hwt w y Hw Hy) as [_ H].
  destruct (lf_next y) as [a|] eqn:En; [|done]. destruct H as (Ha & x & Hx & Hwx).
  exists ls, x. rewrite elem_of_granted in Ha. cbn in Ha. split_and!; [done|set_solver|done|done|].
  intros b z Hb Hz Hwz. destruct (w_queue _ _ _ _ Hwt b z w) as (_ & y' & Hy' & En');
    [apply elem_of_granted; by left|done|done|]. congruence.
Qed.

(** ** Advisory byte-range locks: concrete runs

    Two processes on one file: process 100 takes an exclusive lock on bytes
    0..9, process 200 asks for bytes 5..14 and may wait.  The witnesses of the
    theorems run on these states; the last lemma is the run in which a range
    that ends at the largest offset breaks the list. *)

Definition no_size : Z + Z := inl 2.
Definition pid_of : Z → Z := λ id, id.

Definition fl_first : flock := FL 0 10 0 F_WRLCK SEEK_SET.
Definition fl_second : flock := FL 5 10 0 F_WRLCK SEEK_SET.

Definition after_call (id op flags : Z) (fl : flock) (c : config) : config :=
  match lf_advlock pid_of no_size id op flags fl (c_state c) with
  | Ok ((r, _), s) => Cfg s (asleep_after r (c_asleep c))
  | Crash _ => c
  end.

Definition cfg1 : config := after_call 100 F_SETLK F_POSIX fl_first init.
Definition cfg2 : config := after_call 200 F_SETLK (F_POSIX + F_WAIT) fl_second cfg1.

Lemma fl_first_ok : ends_below_max no_size fl_first.
Proof. split; [split; cbn; unfold is_i64; lia|]. intros st en [= <- <-]. done. Qed.

Lemma fl_second_ok : ends_below_max no_size fl_second.
Proof. split; [split; cbn; unfold is_i64; lia|]. intros st en [= <- <-]. done. Qed.

Lemma cfg1_step : step ends_below_max init cfg1.
Proof.
  eapply (step_call _ pid_of no_size 100 F_SETLK F_POSIX fl_first); [apply fl_first_ok|].
  vm_compute. reflexivity.
Qed.

Lemma cfg2_step : step ends_below_max cfg1 cfg2.
Proof.
  eapply (step_call _ pid_of no_size 200 F_SETLK (F_POSIX + F_WAIT) fl_second (c_state cfg1) (c_asleep cfg1));
    [apply fl_second_ok|]. vm_compute. reflexivity.
Qed.

Lemma cfg2_reachable : reachable cfg2.
Proof. eapply rtc_l; [apply cfg1_step|]. eapply rtc_l; [apply cfg2_step|]. apply rtc_refl. Qed.

(** The one lock of [cfg1]. *)
Definition lock1 : lk := Lk 1 F_POSIX F_WRLCK 0 9 100.

Lemma cfg1_inv : inv (c_state cfg1) [lock1] ∅.
Proof.
  assert (good [lock1]) as Hg.
  { split.
    - repeat constructor; cbn; lia.
    - repeat constructor.
    - intros i j b t t' Hij H1 H2. rewrite holds_cons in H1, H2.
      destruct H1 as [(E1 & _)|?%holds_nil]; [|done]. destruct H2 as [(E2 & _)|?%holds_nil]; [|done].
      congruence. }
  split; [|done|done]. split.
  - split; [done|]. eexists. by vm_compute.
  - repeat constructor. by intros ?%elem_of_nil.
  - done.
  - assert (waiting ∅ ∅ ∅ []) as H0 by (by split).
    pose proof (waiting_malloc _ _ _ _ 1 (LF F_POSIX F_WRLCK 0 9 100 None []) H0 ltac:(set_solver) eq_refl) as H1.
    replace (granted [lock1] None) with ({[1%positive]} ∪ ∅ : gset addr) by set_solver. exact H1.
Qed.

Lemma flock_range_witness : flock_range no_size (FL 7 (-3) 0 F_RDLCK SEEK_SET) = inr (4, 6).
Proof.
  rewrite (flock_range_correct no_size (FL 7 (-3) 0 F_RDLCK SEEK_SET) 0); [reflexivity| |by left].
  split; cbn; unfold is_i64; lia.
Defined.

Lemma lf_advlock_setlk_witness :
  ∃ u r s' ls' sl', lf_advlock pid_of no_size 100 F_SETLK F_POSIX fl_second (c_state cfg1) = Ok ((r, fl_second), s') ∧
    inv s' ls' sl' ∧ (compatible [lock1] (Lk u F_POSIX F_WRLCK 5 14 100) → r = Return 0).
Proof.
  destruct (lf_advlock_setlk_correct pid_of no_size 100 F_POSIX fl_second (c_state cfg1) [lock1] ∅ 5 14
    cfg1_inv (proj1 fl_second_ok) eq_refl ltac:(done)) as (u & r & s' & ls' & sl' & H & Hi & Hc & _).
  exists u, r, s', ls', sl'. split; [exact H|]. split; [exact Hi|]. intros Hcomp. apply (Hc Hcomp).
Defined.

Lemma lf_advlock_unlck_witness :
  ∃ s' ls' fl', lf_advlock pid_of no_size 100 F_UNLCK F_POSIX fl_second (c_state cfg1) = Ok ((Return 0, fl'), s') ∧
    inv s' ls' ∅ ∧ ∀ i b t, holds ls' i b t ↔
      holds [lock1] i b t ∧ ¬ (i = 100 ∧ 5 ≤ b ∧ (14 = -1 ∨ b ≤ 14)).
Proof.
  exact (lf_advlock_unlck_correct pid_of no_size 100 F_POSIX fl_second (c_state cfg1) [lock1] ∅ 5 14
    cfg1_inv (proj1 fl_second_ok) eq_refl ltac:(done)).
Defined.

Lemma lf_advlock_getlk_witness :
  ∃ s' fl', lf_advlock pid_of no_size 200 F_GETLK F_POSIX fl_second (c_state cfg1) = Ok ((Return 0, fl'), s') ∧
    inv s' [lock1] ∅.
Proof.
  destruct (lf_advlock_getlk_correct pid_of no_size 200 F_POSIX fl_second (c_state cfg1) [lock1] ∅ 5 14
    cfg1_inv (proj1 fl_second_ok) eq_refl ltac:(done)) as (s' & fl' & H & Hi & _).
  exists s', fl'. split; [exact H|exact Hi].
Defined.

Lemma lockf_mutual_exclusion_witness :
  ∃ ls, lock_list (c_state cfg2) ls ∧ exclusive ls ∧ ordered ls ∧ Forall valid ls.
Proof. exact (lockf_mutual_exclusion (c_state cfg2) (c_asleep cfg2) cfg2_reachable). Defined.

Lemma lockf_no_crash_witness :
  ∃ r fl' s', lf_advlock pid_of no_size 100 F_UNLCK F_POSIX fl_first (c_state cfg2) = Ok ((r, fl'), s').
Proof.
  apply (proj1 (lockf_no_crash (c_state cfg2) (c_asleep cfg2) cfg2_reachable)). apply fl_first_ok.
Defined.

(** Process 200 sleeps in the queue of process 100's lock. *)
Lemma lockf_sleepers_witness :
  ∃ y, heap (c_state cfg2) !! 2%positive = Some y ∧ lf_next y = Some 1%positive.
Proof.
  destruct (lockf_sleepers (c_state cfg2) (c_asleep cfg2) 2 cfg2_reachable) as (y & Hy & _).
  - vm_compute. reflexivity.
  - exists y. split; [exact Hy|]. vm_compute in Hy. by simplify_eq.
Defined.

(** ** The largest offset *)

Definition fl_all : flock := FL 0 0 0 F_WRLCK SEEK_SET.
Definition fl_tail : flock := FL 5 (OFF_MAX - 4) 0 F_UNLCK SEEK_SET.

(** A range that ends at the largest offset breaks the list: when a process
    that holds the whole file unlocks bytes 5 up to the largest offset, the
    piece that should be empty is left with a start that has wrapped to the
    smallest 64-bit value and no end, so every later request of another
    process, on any byte, is refused. *)
Theorem unlock_to_off_max_locks_everything :
  flock_range no_size fl_tail = inr (5, OFF_MAX) ∧
  let c := after_call 100 F_UNLCK F_POSIX fl_tail (after_call 100 F_SETLK F_POSIX fl_all init) in
  lock_list (c_state c) [Lk 1 F_POSIX F_WRLCK 0 4 100; Lk 3 F_POSIX F_WRLCK (- 2 ^ 63) (-1) 100] ∧
  ∃ s, lf_advlock pid_of no_size 200 F_SETLK F_POSIX (FL 7 1 0 F_RDLCK SEEK_SET) (c_state c)
         = Ok ((Return EAGAIN, FL 7 1 0 F_RDLCK SEEK_SET), s).
Proof.
  split; [reflexivity|]. cbv zeta. split.
  - vm_compute. repeat (split; [reflexivity|]; eexists; split; [reflexivity|]; split; [reflexivity|]). reflexivity.
  - eexists. vm_compute. reflexivity.
Qed.

(** With such ranges the calls of one process can free what is not allocated: it
    locks the file, unlocks bytes 5 up to the largest offset, locks 3..6 and unlocks
    the file. *)
Definition fl_middle : flock := FL 3 4 0 F_WRLCK SEEK_SET.
Definition fl_unlock : flock := FL 0 0 0 F_UNLCK SEEK_SET.
Definition cfg_max : config :=
  after_call 100 F_SETLK F_POSIX fl_middle
    (after_call 100 F_UNLCK F_POSIX fl_tail (after_call 100 F_SETLK F_POSIX fl_all init)).

Theorem off_max_ranges_crash :
  reachable_by flock_ok cfg_max ∧
  lf_advlock pid_of no_size 100 F_UNLCK F_POSIX fl_unlock (c_state cfg_max) = Crash BAD_FREE.
Proof.
  split; [|vm_compute; reflexivity].
  assert (∀ op fl c, flock_ok no_size fl → match lf_advlock pid_of no_size 100 op F_POSIX fl (c_state c) with Ok _ => true | _ => false end = true →
    step flock_ok c (after_call 100 op F_POSIX fl c)) as Hstep.
  { intros op fl [s T] Hok Hx. unfold after_call. cbn in *.
    destruct (lf_advlock _ _ _ _ _ _ s) as [[[r fl'] s']|] eqn:E; [|done]. by eapply step_call. }
  repeat (eapply rtc_r; [|apply Hstep; [split; cbn; unfold is_i64, OFF_MAX; lia|vm_compute; reflexivity]]).
  apply rtc_refl.
Qed.
