(* ===== verification/CFBinaryHeap.v ===== *)
(** * CoreFoundation binary heaps: the model

    [src/CF-1153.18/CFBinaryHeap.c].  A heap is the structure
    [struct __CFBinaryHeap]; its buckets are a block of the memory of [world],
    together with the allocator the block came from, so that a copy and its
    original have blocks of their own.  A bucket that was never written is
    [None]; reading it, or any cell outside the block, is [BAD_ACCESS].

    Items are pointers ([Z]).  The client's callbacks are function pointers
    (0 is NULL); the class [ClientCode] is the code behind them.  Retains,
    releases and applier calls are recorded in the order they happen.

    The build is the one without garbage collection
    ([CF_IS_COLLECTABLE_ALLOCATOR] is 0, [CFRuntime.h:72]) and without
    assertions ([CFAssert], [__CFGenericValidateType] are empty). *)

From S2P Require Import Prelude.

(** ** CoreFoundation binary heaps: heap order on lists

    The heap seen as the list of its items, with the hole of the sift loops
    filled by the value that will end up in it.  A step of a loop then
    exchanges the hole with its parent or with its smaller child; the lemmas
    say what the exchange keeps. *)

(** The order the heap is built on: [le a b] is "a is not greater than b". *)
Class TotalPreorder (gt : Z → Z → bool) : Prop := {
  gt_asym a b : gt a b = true → gt b a = false;
  le_trans a b c : gt a b = false → gt b c = false → gt a c = false
}.

Section Order.
Context (gt : Z → Z → bool) `{!TotalPreorder gt}.

Abbreviation le a b := (gt a b = false).

Definition parent (i : nat) : nat := Nat.div2 (i - 1).

Lemma parent_below i : (0 < i)%nat → (parent i < i)%nat.
Proof. unfold parent. intros. pose proof (Nat.div2_decr (i - 1) (i - 1)). lia. Qed.

Lemma parent_child i k : (0 < i)%nat → parent i = k ↔ (i = 2 * k + 1 ∨ i = 2 * k + 2)%nat.
Proof.
  unfold parent. intros. rewrite Nat.div2_div.
  pose proof (Nat.div_mod (i - 1) 2). pose proof (Nat.mod_upper_bound (i - 1) 2). lia.
Qed.

(** The edge above [i] is in order. *)
Definition edge (l : list Z) (i : nat) : Prop :=
  ∀ a b, l !! parent i = Some a → l !! i = Some b → le a b.

Definition ordered (l : list Z) : Prop := ∀ i, (0 < i)%nat → edge l i.

(** The grandchildren of a hole: its children are not below its parent. *)
Definition around (l : list Z) (k : nat) : Prop :=
  ∀ i a b, (0 < k)%nat → (0 < i)%nat → parent i = k →
    l !! parent k = Some a → l !! i = Some b → le a b.

(** In order but for the edge above the hole / the edges below it. *)
Definition ordered_above (l : list Z) (k : nat) : Prop :=
  (∀ i, (0 < i)%nat → i ≠ k → edge l i) ∧ around l k.
Definition ordered_below (l : list Z) (k : nat) : Prop :=
  (∀ i, (0 < i)%nat → parent i ≠ k → edge l i) ∧ around l k.

Lemma le_refl a : le a a.
Proof. destruct (gt a a) eqn:E; [|done]. by rewrite (gt_asym _ _ E) in E. Qed.

(** Exchange of the values at two places. *)
Definition exchange (i j : nat) (x y : Z) (l : list Z) : list Z := <[i := y]> (<[j := x]> l).

Lemma exchange_perm i j x y l :
  l !! i = Some x → l !! j = Some y → i ≠ j → exchange i j x y l ≡ₚ l.
Proof.
  intros Hi Hj Hne. unfold exchange. apply Permutation_inj. split.
  - by rewrite !length_insert.
  - exists (λ n, if decide (n = i) then j else if decide (n = j) then i else n). split.
    + intros a b. repeat case_decide; congruence.
    + intros n. apply lookup_lt_Some in Hi as Li. apply lookup_lt_Some in Hj as Lj.
      repeat case_decide; subst.
      * rewrite list_lookup_insert_eq by (by rewrite length_insert). done.
      * rewrite list_lookup_insert_ne by done. by rewrite list_lookup_insert_eq.
      * by rewrite !list_lookup_insert_ne by done.
Qed.

Lemma lookup_exchange i j x y l n :
  l !! i = Some x → l !! j = Some y → i ≠ j →
  exchange i j x y l !! n =
    if decide (n = i) then Some y else if decide (n = j) then Some x else l !! n.
Proof.
  intros Hi Hj Hne. apply lookup_lt_Some in Hi as Li. apply lookup_lt_Some in Hj as Lj.
  unfold exchange. repeat case_decide; subst.
  - by rewrite list_lookup_insert_eq by (by rewrite length_insert).
  - rewrite list_lookup_insert_ne by done. by rewrite list_lookup_insert_eq.
  - by rewrite !list_lookup_insert_ne by done.
Qed.

(** A step of the sift-up: the parent moves down into the hole. *)
Lemma sift_up_step l k item v :
  (0 < k)%nat → l !! k = Some v → l !! parent k = Some item → gt item v = true →
  ordered_above l k → ordered_above (exchange k (parent k) v item l) (parent k).
Proof.
  intros Hk Hv Hp Hgt [Hord Hgr]. pose proof (parent_below k Hk) as Hlt.
  assert (le v item) as Hvi by by apply gt_asym.
  assert (∀ i b, (0 < i)%nat → parent i = parent k → i ≠ k → l !! i = Some b → le item b) as Hsib.
  { intros i b Hi Hpi Hne Hb. apply (Hord i Hi Hne); [by rewrite Hpi|done]. }
  split.
  - intros i Hi Hne a b. rewrite !lookup_exchange by (done || lia).
    pose proof (parent_below i Hi). repeat case_decide; intros; simplify_eq; try done; try lia.
    + by eapply (Hgr i).
    + eapply le_trans; [exact Hvi|]. by eapply (Hsib i).
    + by apply (Hord i).
  - intros i a b Hk' Hi Hpi. pose proof (parent_below _ Hk').
    rewrite !lookup_exchange by (done || lia). repeat case_decide; intros; simplify_eq; try lia.
    + apply (Hord (parent k)); (done || lia).
    + eapply le_trans; [apply (Hord (parent k)); (done || lia)|]. by eapply (Hsib i).
Qed.

(** The hole of the sift-up has found its place. *)
Lemma sift_up_stop l k v :
  l !! k = Some v → (∀ item, (0 < k)%nat → l !! parent k = Some item → le item v) →
  ordered_above l k → ordered l.
Proof.
  intros Hv Hp [Hord _] i Hi a b Ha Hb. destruct (decide (i = k)) as [->|Hne].
  - simplify_eq. by apply Hp.
  - by apply (Hord i).
Qed.

(** An equivalent value may be stored in the place of another. *)
Lemma ordered_replace l k v r :
  l !! k = Some v → le v r → le r v → ordered l → ordered (<[k := r]> l).
Proof.
  intros Hv Hvr Hrv Hord i Hi a b. pose proof (parent_below i Hi).
  apply lookup_lt_Some in Hv as Lk.
  destruct (decide (i = k)) as [Hik|]; [|destruct (decide (parent i = k)) as [Hpk|]].
  - subst i. rewrite list_lookup_insert_eq by done. rewrite list_lookup_insert_ne by lia.
    intros; simplify_eq. eapply le_trans; [by eapply (Hord k)|done].
  - rewrite Hpk, list_lookup_insert_eq by done. rewrite list_lookup_insert_ne by lia.
    intros; simplify_eq. eapply le_trans; [done|]. eapply (Hord i Hi); by rewrite ?Hpk.
  - rewrite !list_lookup_insert_ne by done. by apply Hord.
Qed.

(** [c] is a child of [k] that is not greater than its sibling. *)
Definition smallest_child (l : list Z) (k c : nat) (item : Z) : Prop :=
  (0 < c)%nat ∧ parent c = k ∧ l !! c = Some item ∧
  ∀ i b, (0 < i)%nat → parent i = k → l !! i = Some b → le item b.

(** A step of the sift-down: the smaller child moves up into the hole. *)
Lemma sift_down_step l k c item v :
  l !! k = Some v → smallest_child l k c item → le item v →
  ordered_below l k → ordered_below (exchange k c v item l) c.
Proof.
  intros Hv (Hc & Hpc & Hit & Hmin) Hle [Hord Hgr].
  pose proof (parent_below c Hc) as Hlt. subst k. split.
  - intros i Hi Hne a b. rewrite !lookup_exchange by (done || lia).
    pose proof (parent_below i Hi). repeat case_decide; intros; simplify_eq; try done; try lia.
    + by eapply (Hmin i).
    + by eapply (Hgr c).
    + by apply (Hord i).
  - intros i a b _ Hi Hpi. pose proof (parent_below i Hi).
    rewrite !lookup_exchange by (done || lia).
    repeat case_decide; intros; simplify_eq; try lia.
    apply (Hord i); (done || lia).
Qed.

(** The hole of the sift-down has found its place. *)
Lemma sift_down_stop l k v :
  l !! k = Some v → (∀ i b, (0 < i)%nat → parent i = k → l !! i = Some b → le v b) →
  ordered_below l k → ordered l.
Proof.
  intros Hv Hc [Hord _] i Hi a b Ha Hb. destruct (decide (parent i = k)) as [Hp|Hne].
  - rewrite Hp in Ha. simplify_eq. by apply (Hc i).
  - by apply (Hord i).
Qed.

(** The root is a least element. *)
Lemma ordered_root l a i b : ordered l → l !! 0%nat = Some a → l !! i = Some b → le a b.
Proof.
  intros Hord Ha. revert b. induction i as [i IH] using lt_wf_ind. intros b Hb.
  destruct (decide (i = 0%nat)) as [->|Hne].
  - simplify_eq. apply le_refl.
  - assert (0 < i)%nat as Hi by lia. pose proof (parent_below i Hi).
    apply lookup_lt_Some in Hb as Hl.
    destruct (lookup_lt_is_Some_2 l (parent i)) as [x Hx]; [lia|].
    eapply le_trans; [by apply (IH (parent i))|]. by apply (Hord i).
Qed.

Lemma ordered_nil : ordered [].
Proof. intros i _ a b Ha. done. Qed.

(** Adding a value at the end leaves only the edge above it. *)
Lemma ordered_snoc l v : ordered l → ordered_above (l ++ [v]) (length l).
Proof.
  intros Hord. split.
  - intros i Hi Hne a b Ha Hb. pose proof (parent_below i Hi).
    apply lookup_lt_Some in Hb as Hl. rewrite length_app in Hl. simpl in Hl.
    rewrite !lookup_app_l in Ha, Hb by lia. by apply (Hord i).
  - intros i a b _ Hi Hp _ Hb. apply parent_child in Hp; [|done].
    apply lookup_lt_Some in Hb. rewrite length_app in Hb. simpl in Hb. lia.
Qed.

(** Replacing the root by another value leaves only the edges below it. *)
Lemma ordered_new_root l v n : ordered l → ordered_below (<[0%nat := v]> (take n l)) 0.
Proof.
  intros Hord. split.
  - intros i Hi Hne a b. rewrite !list_lookup_insert_ne by lia.
    intros [Ha _]%lookup_take_Some [Hb _]%lookup_take_Some. by apply (Hord i).
  - intros i a b Hk. lia.
Qed.

End Order.

Module Heap.

Abbreviation CFIndex := Z.
Abbreviation kCFCompareEqualTo := 0.
Abbreviation kCFCompareGreaterThan := 1.
Abbreviation kCFBinaryHeapMutable := 1.
Abbreviation kCFAllocatorSystemDefault := 1.

(** The code behind function pointers: [call_compare fn v1 v2 info] and
    [call_retain fn allocator v]. *)
Class ClientCode := {
  call_compare : Z → Z → Z → Z → Z;
  call_retain : Z → Z → Z → Z
}.

Record CFBinaryHeapCallBacks := CallBacks {
  retain : Z;
  release : Z;
  copyDescription : Z;
  compare : Z
}.

Record CFBinaryHeapCompareContext := Context_ { info : Z }.

Record __CFBinaryHeap := HeapStruct {
  allocator : Z;            (* of CFRuntimeBase *)
  variety : Z;              (* bits 3-2 of _cfinfo *)
  _count : CFIndex;
  _capacity : CFIndex;
  _callbacks : CFBinaryHeapCallBacks;
  _context : CFBinaryHeapCompareContext;
  _buckets : option positive
}.

Inductive event :=
| Retain (v : Z)
| Release (v : Z)
| Apply (v context : Z).

Record world := World {
  blocks : gmap positive (Z * list (option Z));
  alloc_fails : list bool;   (* outcomes of the next allocations *)
  events : list event
}.

Definition set_blocks (b : gmap positive (Z * list (option Z))) (w : world) : world :=
  World b (alloc_fails w) (events w).
Definition log (e : event) : M world unit :=
  modify (λ w, World (blocks w) (alloc_fails w) (events w ++ [e])).

(** ** Memory *)

(** The outcome of the next allocation; an exhausted list means success. *)
Definition next_fails : M world bool := λ w,
  Ok (default false (head (alloc_fails w)),
      World (blocks w) (tail (alloc_fails w)) (events w)).

Definition allocate (a n : Z) : M world (option positive) :=
  fails ← next_fails;
  if (fails : bool) then mret None
  else
    b ← gets (λ w, fresh (dom (blocks w)));
    _ ← modify (λ w, set_blocks (<[b := (a, replicate (Z.to_nat n) None)]> (blocks w)) w);
    mret (Some b).

(** The live block a pointer points to, with its allocator and its cells. *)
Definition block_of (r : crash_reason) (p : option positive) :
    M world (positive * (Z * list (option Z))) :=
  b ← nonnull p;
  x ← gets (λ w, blocks w !! b);
  match x with Some x => mret (b, x) | None => crash r end.

(** A block is grown in place; only its contents can be observed. *)
Definition reallocate (a : Z) (p : option positive) (n : Z) : M world (option positive) :=
  fails ← next_fails;
  if (fails : bool) then mret None
  else
    '(b, (a', cells)) ← block_of BAD_FREE p;
    if a' =? a then
      _ ← modify (λ w, set_blocks (<[b := (a, resize (Z.to_nat n) None cells)]> (blocks w)) w);
      mret (Some b)
    else crash BAD_FREE.

Definition deallocate (a : Z) (p : option positive) : M world unit :=
  '(b, (a', _)) ← block_of BAD_FREE p;
  if a' =? a then modify (λ w, set_blocks (delete b (blocks w)) w) else crash BAD_FREE.

(** [p[i]._item] and [p[i]._item = v]. *)
Definition get_item (p : option positive) (i : CFIndex) : M world Z :=
  '(_, (_, cells)) ← block_of BAD_ACCESS p;
  if i <? 0 then crash BAD_ACCESS
  else match cells !! Z.to_nat i with
       | Some (Some v) => mret v
       | _ => crash BAD_ACCESS
       end.

Definition set_item (p : option positive) (i : CFIndex) (v : Z) : M world unit :=
  '(b, (a, cells)) ← block_of BAD_ACCESS p;
  if (i <? 0) || (zlen cells <=? i) then crash BAD_ACCESS
  else modify (λ w, set_blocks (<[b := (a, <[Z.to_nat i := Some v]> cells)]> (blocks w)) w).

(** ** Fields *)

(** Position of the highest bit that is set, from 1; 0 for 0. *)
Definition flsl (mask : Z) : Z :=
  if mask =? 0 then 0 else if mask <? 0 then 64 else Z.log2 mask + 1.

(** [1 << n] is an [int] shift: it is defined up to bit 30. *)
Definition __CFBinaryHeapRoundUpCapacity (capacity : CFIndex) : M world CFIndex :=
  if capacity <? 4 then mret 4
  else if flsl capacity <? 31 then mret (Z.shiftl 1 (flsl capacity))
  else crash UNDEFINED_BEHAVIOR.

Definition __CFBinaryHeapNumBucketsForCapacity (capacity : CFIndex) : CFIndex := capacity.

Definition __CFBinaryHeapCount (heap : __CFBinaryHeap) : CFIndex := _count heap.
Definition __CFBinaryHeapCapacity (heap : __CFBinaryHeap) : CFIndex := _capacity heap.
Definition __CFBinaryHeapNumBucketsUsed (heap : __CFBinaryHeap) : CFIndex := _count heap.
Definition __CFBinaryHeapNumBuckets (heap : __CFBinaryHeap) : CFIndex := _capacity heap.
Definition __CFBinaryHeapMutableVariety (heap : __CFBinaryHeap) : Z := variety heap.
Definition __CFBinaryHeapMutableVarietyFromFlags (flags : Z) : Z := Z.land flags 3.

Definition __CFBinaryHeapSetNumBucketsUsed (v : CFIndex) (h : __CFBinaryHeap) : __CFBinaryHeap :=
  HeapStruct (allocator h) (variety h) v (_capacity h) (_callbacks h) (_context h) (_buckets h).
Definition __CFBinaryHeapSetNumBuckets (v : CFIndex) (h : __CFBinaryHeap) : __CFBinaryHeap :=
  HeapStruct (allocator h) (variety h) (_count h) v (_callbacks h) (_context h) (_buckets h).
Definition set_buckets (p : option positive) (h : __CFBinaryHeap) : __CFBinaryHeap :=
  HeapStruct (allocator h) (variety h) (_count h) (_capacity h) (_callbacks h) (_context h) p.
Definition __CFBinaryHeapSetMutableVariety (v : Z) (h : __CFBinaryHeap) : __CFBinaryHeap :=
  HeapStruct (allocator h) (Z.land v 3) (_count h) (_capacity h) (_callbacks h) (_context h)
    (_buckets h).

(** ** Growing, adding and removing *)

Section Operations.
Context `{ClientCode}.

Definition __CFBinaryHeapGrow (heap : __CFBinaryHeap) (numNewValues : CFIndex) :
    M world __CFBinaryHeap :=
  let oldCount := __CFBinaryHeapCount heap in
  capacity ← __CFBinaryHeapRoundUpCapacity (oldCount + numNewValues);
  let heap := __CFBinaryHeapSetNumBuckets (__CFBinaryHeapNumBucketsForCapacity capacity) heap in
  buckets ← reallocate (allocator heap) (_buckets heap) (__CFBinaryHeapNumBuckets heap);
  match buckets with
  | None => crash ASSERT_FAILED                        (* HALT *)
  | Some _ => mret (set_buckets buckets heap)
  end.

(** The two tests of the code, [item <= value] and [item > value]: by address
    when there is no comparison function. *)
Definition not_greater (heap : __CFBinaryHeap) (item value : Z) : bool :=
  let compare := compare (_callbacks heap) in
  (compare =? 0) && (item <=? value) ||
  negb (compare =? 0) &&
    negb (kCFCompareGreaterThan =? call_compare compare item value (info (_context heap))).

Definition greater (heap : __CFBinaryHeap) (item value : Z) : bool :=
  let compare := compare (_callbacks heap) in
  (compare =? 0) && (item >? value) ||
  negb (compare =? 0) &&
    (kCFCompareGreaterThan =? call_compare compare item value (info (_context heap))).

(** The loop of [CFBinaryHeapAddValue]: where the new value goes. *)
Fixpoint add_loop (fuel : nat) (heap : __CFBinaryHeap) (value : Z) (idx pidx : CFIndex) :
    M world CFIndex :=
  match fuel with
  | O => crash OUT_OF_FUEL
  | S fuel =>
    if 0 <? idx then
      item ← get_item (_buckets heap) pidx;
      if not_greater heap item value then mret idx
      else _ ← set_item (_buckets heap) idx item;
           add_loop fuel heap value pidx (Z.shiftr (pidx - 1) 1)
    else mret idx
  end.

Definition CFBinaryHeapAddValue (heap : __CFBinaryHeap) (value : Z) : M world __CFBinaryHeap :=
  heap ← (if __CFBinaryHeapMutableVariety heap =? kCFBinaryHeapMutable then
            if __CFBinaryHeapNumBucketsUsed heap =? __CFBinaryHeapCapacity heap
            then __CFBinaryHeapGrow heap 1
            else mret heap
          else mret heap);
  let cnt := __CFBinaryHeapCount heap in
  let heap := __CFBinaryHeapSetNumBucketsUsed (cnt + 1) heap in
  idx ← add_loop (S (Z.to_nat cnt)) heap value cnt (Z.shiftr (cnt - 1) 1);
  if negb (retain (_callbacks heap) =? 0) then
    _ ← log (Retain value);
    _ ← set_item (_buckets heap) idx (call_retain (retain (_callbacks heap)) (allocator heap) value);
    mret heap
  else
    _ ← set_item (_buckets heap) idx value;
    mret heap.

(** The child the hole moves to: the smaller one, the left one when they are
    equal. *)
Definition smaller_child (heap : __CFBinaryHeap) (cidx : CFIndex) : M world (CFIndex * Z) :=
  item ← get_item (_buckets heap) cidx;
  if cidx + 1 <? __CFBinaryHeapCount heap then
    item2 ← get_item (_buckets heap) (cidx + 1);
    if greater heap item item2 then mret (cidx + 1, item2) else mret (cidx, item)
  else mret (cidx, item).

(** The loop of [CFBinaryHeapRemoveMinimumValue]. *)
Fixpoint remove_loop (fuel : nat) (heap : __CFBinaryHeap) (val : Z) (idx cidx : CFIndex) :
    M world CFIndex :=
  match fuel with
  | O => crash OUT_OF_FUEL
  | S fuel =>
    if cidx <? __CFBinaryHeapCount heap then
      child ← smaller_child heap cidx;
      let '(cidx, item) := child in
      if greater heap item val then mret idx
      else _ ← set_item (_buckets heap) idx item;
           remove_loop fuel heap val cidx (Z.shiftl cidx 1 + 1)
    else mret idx
  end.

Definition CFBinaryHeapRemoveMinimumValue (heap : __CFBinaryHeap) : M world __CFBinaryHeap :=
  let cnt := __CFBinaryHeapCount heap in
  if 0 =? cnt then mret heap
  else
    let heap := __CFBinaryHeapSetNumBucketsUsed (cnt - 1) heap in
    _ ← (if negb (release (_callbacks heap) =? 0) then
           item ← get_item (_buckets heap) 0; log (Release item)
         else mret tt);
    val ← get_item (_buckets heap) (cnt - 1);
    idx ← remove_loop (Z.to_nat cnt) heap val 0 (Z.shiftl 0 1 + 1);
    _ ← set_item (_buckets heap) idx val;
    mret heap.

(** [for (idx = 0; idx < cnt; idx++) release(buckets[idx]._item)]. *)
Definition CFBinaryHeapRemoveAllValues (heap : __CFBinaryHeap) : M world __CFBinaryHeap :=
  let cnt := __CFBinaryHeapCount heap in
  _ ← (if negb (release (_callbacks heap) =? 0) then
         for_M (seqZ 0 cnt) (λ idx, item ← get_item (_buckets heap) idx; log (Release item))
       else mret tt);
  mret (__CFBinaryHeapSetNumBucketsUsed 0 heap).

(** ** Creation, copy, deallocation *)

(** The finalizer; [CFRelease] of the last reference runs it. *)
Definition __CFBinaryHeapDeallocate (heap : __CFBinaryHeap) : M world unit :=
  heap ← CFBinaryHeapRemoveAllValues heap;
  if __CFBinaryHeapMutableVariety heap =? kCFBinaryHeapMutable
  then deallocate (allocator heap) (_buckets heap)
  else mret tt.

(** [for (idx = 0; idx < numValues; idx++) CFBinaryHeapAddValue(memory, values[idx])]. *)
Fixpoint add_values (values : option positive) (idxs : list CFIndex) (memory : __CFBinaryHeap) :
    M world __CFBinaryHeap :=
  match idxs with
  | [] => mret memory
  | idx :: idxs =>
    value ← get_item values idx;
    memory ← CFBinaryHeapAddValue memory value;
    add_values values idxs memory
  end.

(** [_CFRuntimeCreateInstance] gives a structure of zeros, or NULL. *)
Definition _CFRuntimeCreateInstance (alloc : Z) : M world (option __CFBinaryHeap) :=
  fails ← next_fails;
  if (fails : bool) then mret None
  else mret (Some (HeapStruct alloc 0 0 0 (CallBacks 0 0 0 0) (Context_ 0) None)).

Definition set_callbacks (c : CFBinaryHeapCallBacks) (x : CFBinaryHeapCompareContext)
    (h : __CFBinaryHeap) : __CFBinaryHeap :=
  HeapStruct (allocator h) (variety h) (_count h) (_capacity h) c x (_buckets h).

Definition __CFBinaryHeapInit (alloc flags : Z) (capacity : CFIndex) (values : option positive)
    (numValues : CFIndex) (callBacks : option CFBinaryHeapCallBacks)
    (compareContext : option CFBinaryHeapCompareContext) : M world (option __CFBinaryHeap) :=
  memory ← _CFRuntimeCreateInstance alloc;
  match memory with
  | None => mret None
  | Some memory =>
    four ← __CFBinaryHeapRoundUpCapacity 1;
    let memory := __CFBinaryHeapSetNumBuckets (__CFBinaryHeapNumBucketsForCapacity four) memory in
    buckets ← allocate alloc (__CFBinaryHeapNumBuckets memory);
    let memory := set_buckets buckets memory in
    match buckets with
    | None => _ ← __CFBinaryHeapDeallocate memory; mret None   (* CFRelease(memory) *)
    | Some _ =>
      let memory := __CFBinaryHeapSetNumBucketsUsed 0 memory in
      let memory := set_callbacks (default (CallBacks 0 0 0 0) callBacks)
                      (default (_context memory) compareContext) memory in
      let memory := __CFBinaryHeapSetMutableVariety kCFBinaryHeapMutable memory in
      memory ← add_values values (seqZ 0 numValues) memory;
      mret (Some (__CFBinaryHeapSetMutableVariety
                    (__CFBinaryHeapMutableVarietyFromFlags flags) memory))
    end
  end.

Definition CFBinaryHeapCreate (alloc : Z) (capacity : CFIndex)
    (callBacks : option CFBinaryHeapCallBacks)
    (compareContext : option CFBinaryHeapCompareContext) : M world (option __CFBinaryHeap) :=
  __CFBinaryHeapInit alloc kCFBinaryHeapMutable capacity None 0 callBacks compareContext.

Definition CFBinaryHeapCreateCopy (alloc : Z) (capacity : CFIndex) (heap : __CFBinaryHeap) :
    M world (option __CFBinaryHeap) :=
  __CFBinaryHeapInit alloc kCFBinaryHeapMutable capacity (_buckets heap)
    (__CFBinaryHeapCount heap) (Some (_callbacks heap)) (Some (_context heap)).

(** ** Queries *)

Definition CFBinaryHeapGetCount (heap : __CFBinaryHeap) : CFIndex := __CFBinaryHeapCount heap.

(** [value == item || (compare && kCFCompareEqualTo == compare(value, item, info))]. *)
Definition matches (heap : __CFBinaryHeap) (value item : Z) : bool :=
  let compare := compare (_callbacks heap) in
  (value =? item) ||
  negb (compare =? 0) &&
    (kCFCompareEqualTo =? call_compare compare value item (info (_context heap))).

Fixpoint count_loop (idxs : list CFIndex) (heap : __CFBinaryHeap) (value : Z) (cnt : CFIndex) :
    M world CFIndex :=
  match idxs with
  | [] => mret cnt
  | idx :: idxs =>
    item ← get_item (_buckets heap) idx;
    count_loop idxs heap value (if matches heap value item then cnt + 1 else cnt)
  end.

Definition CFBinaryHeapGetCountOfValue (heap : __CFBinaryHeap) (value : Z) : M world CFIndex :=
  count_loop (seqZ 0 (__CFBinaryHeapCount heap)) heap value 0.

Fixpoint contains_loop (idxs : list CFIndex) (heap : __CFBinaryHeap) (value : Z) : M world bool :=
  match idxs with
  | [] => mret false
  | idx :: idxs =>
    item ← get_item (_buckets heap) idx;
    if matches heap value item then mret true else contains_loop idxs heap value
  end.

Definition CFBinaryHeapContainsValue (heap : __CFBinaryHeap) (value : Z) : M world bool :=
  contains_loop (seqZ 0 (__CFBinaryHeapCount heap)) heap value.

(** NULL is 0. *)
Definition CFBinaryHeapGetMinimum (heap : __CFBinaryHeap) : M world Z :=
  if 0 <? __CFBinaryHeapCount heap then get_item (_buckets heap) 0 else mret 0.

(** The result and what is stored through [value], for [value != NULL]. *)
Definition CFBinaryHeapGetMinimumIfPresent (heap : __CFBinaryHeap) : M world (bool * option Z) :=
  if 0 =? __CFBinaryHeapCount heap then mret (false, None)
  else item ← get_item (_buckets heap) 0; mret (true, Some item).

(** The loop shared by [CFBinaryHeapGetValues] and [CFBinaryHeapApplyFunction]:
    the minima one after the other, [visit] being what is done with each. *)
Fixpoint drain_loop (fuel : nat) (visit : Z → M world unit) (heapCopy : __CFBinaryHeap) :
    M world (list Z * __CFBinaryHeap) :=
  match fuel with
  | O => crash OUT_OF_FUEL
  | S fuel =>
    if 0 <? __CFBinaryHeapCount heapCopy then
      value ← CFBinaryHeapGetMinimum heapCopy;
      heapCopy ← CFBinaryHeapRemoveMinimumValue heapCopy;
      _ ← visit value;
      '(values, heapCopy) ← drain_loop fuel visit heapCopy;
      mret (value :: values, heapCopy)
    else mret ([], heapCopy)
  end.

(** What is stored in [values], in order. *)
Definition CFBinaryHeapGetValues (heap : __CFBinaryHeap) : M world (list Z) :=
  let cnt := __CFBinaryHeapCount heap in
  if 0 =? cnt then mret []
  else
    copy ← CFBinaryHeapCreateCopy (allocator heap) cnt heap;
    heapCopy ← nonnull copy;
    '(values, heapCopy) ← drain_loop (S (Z.to_nat cnt)) (λ _, mret tt) heapCopy;
    _ ← __CFBinaryHeapDeallocate heapCopy;
    mret values.

Definition CFBinaryHeapApplyFunction (heap : __CFBinaryHeap) (context : Z) : M world unit :=
  let cnt := __CFBinaryHeapCount heap in
  if 0 =? cnt then mret tt
  else
    copy ← CFBinaryHeapCreateCopy (allocator heap) cnt heap;
    heapCopy ← nonnull copy;
    '(_, heapCopy) ← drain_loop (S (Z.to_nat cnt)) (λ v, log (Apply v context)) heapCopy;
    __CFBinaryHeapDeallocate heapCopy.

(** ** Equality and hash *)

(** The loop of [__CFBinaryHeapEqual]; [false] is its [return false]. *)
Fixpoint equal_loop (heap1 : __CFBinaryHeap) (list1 list2 : list Z) : bool :=
  match list1, list2 with
  | val1 :: list1, val2 :: list2 =>
    if negb (val1 =? val2) then
      let compare := compare (_callbacks heap1) in
      if compare =? 0 then false
      else if call_compare compare val1 val2 (info (_context heap1)) =? 0 then false
      else equal_loop heap1 list1 list2
    else equal_loop heap1 list1 list2
  | _, _ => true
  end.

(** The buffer for both lists is on the stack up to 128 values each; the block
    is given back on the last line only. *)
Definition __CFBinaryHeapEqual (heap1 heap2 : __CFBinaryHeap) : M world bool :=
  let cnt := __CFBinaryHeapCount heap1 in
  if negb (cnt =? __CFBinaryHeapCount heap2) then mret false
  else if negb (compare (_callbacks heap1) =? compare (_callbacks heap2)) then mret false
  else if 0 =? cnt then mret true
  else
    list1 ← (if cnt <=? 128 then mret None
             else p ← allocate kCFAllocatorSystemDefault (2 * cnt);
                  b ← nonnull p; mret (Some b));
    values1 ← CFBinaryHeapGetValues heap1;
    values2 ← CFBinaryHeapGetValues heap2;
    if equal_loop heap1 values1 values2 then
      match list1 with
      | Some b => _ ← deallocate (allocator heap1) (Some b); mret true
      | None => mret true
      end
    else mret false.

Definition __CFBinaryHeapHash (heap : __CFBinaryHeap) : CFIndex := __CFBinaryHeapCount heap.

End Operations.
End Heap.
