(* ===== verification/CFBinaryHeapSpec.v ===== *)
(** * CoreFoundation binary heaps: what adding and removing do

    [repr b c h l]: the structure [h] with the cells [c] in its block [b] is a
    binary heap with the items [l].  [changes] is the common shape of the
    results: only the block of the heap changes, the client's callbacks stay,
    and the callback calls [ev] are appended to the record. *)

From S2P Require Import Prelude CFBinaryHeap.
Import Heap.

(** The items are the first cells; the cell of the hole may hold anything. *)
Definition stores (c : list (option Z)) (l : list Z) : Prop :=
  (length l ≤ length c)%nat ∧ ∀ j x, l !! j = Some x → c !! j = Some (Some x).
Definition holed (c : list (option Z)) (l : list Z) (k : nat) : Prop :=
  (length l ≤ length c)%nat ∧ ∀ j x, j ≠ k → l !! j = Some x → c !! j = Some (Some x).

Definition put (b : positive) (a : Z) (c : list (option Z)) (w : world) : world :=
  set_blocks (<[b := (a, c)]> (blocks w)) w.

Lemma put_same b a c w : blocks w !! b = Some (a, c) → put b a c w = w.
Proof. intros Hb. destruct w. unfold put, set_blocks. simpl in *. by rewrite insert_id. Qed.

Lemma put_put b a c c' w : put b a c' (put b a c w) = put b a c' w.
Proof. unfold put, set_blocks. simpl. by rewrite insert_insert_eq. Qed.

Lemma put_lookup b a c w : blocks (put b a c w) !! b = Some (a, c).
Proof. apply lookup_insert_eq. Qed.

Lemma get_item_ok p b a c i v w :
  p = Some b → blocks w !! b = Some (a, c) → 0 ≤ i → c !! Z.to_nat i = Some (Some v) →
  get_item p i w = Ok (v, w).
Proof.
  intros -> Hb Hi Hv. unfold get_item, block_of, mbind, M_bind, gets. simpl. rewrite Hb. simpl.
  destruct (Z.ltb_spec i 0); [lia|]. by rewrite Hv.
Qed.

Lemma set_item_ok p b a c i v w :
  p = Some b → blocks w !! b = Some (a, c) → 0 ≤ i < zlen c →
  set_item p i v w = Ok (tt, put b a (<[Z.to_nat i := Some v]> c) w).
Proof.
  intros -> Hb Hi. unfold set_item, block_of, mbind, M_bind, gets. simpl. rewrite Hb. simpl.
  destruct (Z.ltb_spec i 0); [lia|]. destruct (Z.leb_spec (zlen c) i); [lia|]. done.
Qed.

(** Reading the items one after the other: [ds] are read, [x] is next. *)
Lemma seqZ_items (ds : list Z) x (l : list Z) :
  seqZ (zlen ds) (zlen (x :: l)) = zlen ds :: seqZ (zlen (ds ++ [x])) (zlen l).
Proof.
  pose proof (zlen_nonneg l). autorewrite with zlen. rewrite seqZ_cons by lia. do 2 f_equal; lia.
Qed.

Lemma get_item_next p b a c ds x l w :
  p = Some b → blocks w !! b = Some (a, c) → stores c (ds ++ x :: l) →
  get_item p (zlen ds) w = Ok (x, w).
Proof.
  intros Hb Hw [_ Hs]. eapply get_item_ok; [done|done|apply zlen_nonneg|].
  unfold zlen. rewrite Nat2Z.id. apply Hs. by apply list_lookup_middle.
Qed.

Lemma stores_holed c l k : stores c l → holed c l k.
Proof. intros [Hl Hs]. split; [done|]. intros j x _. apply Hs. Qed.

(** Storing the value of the hole fills it. *)
Lemma holed_fill c l k v : holed c l k → (k < length l)%nat → stores (<[k := Some v]> c) (<[k := v]> l).
Proof.
  intros [Hl Hs] Hk. split; [by rewrite !length_insert|]. intros j x.
  destruct (decide (j = k)) as [->|Hne].
  - rewrite !list_lookup_insert_eq by lia. by intros [= ->].
  - rewrite !list_lookup_insert_ne by done. by apply Hs.
Qed.

(** A step of either loop: the item of [j] is stored in the hole, which moves
    to [j]. *)
Lemma holed_move c l k j v item :
  holed c l k → l !! k = Some v → l !! j = Some item → k ≠ j →
  holed (<[k := Some item]> c) (exchange k j v item l) j.
Proof.
  intros [Hl Hs] Hk Hj Hne. apply lookup_lt_Some in Hk as Lk. split.
  { unfold exchange. by rewrite !length_insert. }
  intros i x Hij. rewrite lookup_exchange by done.
  destruct (decide (i = k)) as [->|]; [|case_decide; [done|]].
  - intros [= ->]. rewrite list_lookup_insert_eq by lia. done.
  - rewrite list_lookup_insert_ne by done. by apply Hs.
Qed.

Section Spec.
Context `{ClientCode}.

Lemma not_greater_eq h a b : not_greater h a b = negb (greater h a b).
Proof.
  unfold not_greater, greater. destruct (compare (_callbacks h) =? 0); simpl.
  - rewrite !orb_false_r. rewrite Z.gtb_ltb. by rewrite Z.leb_antisym.
  - done.
Qed.

Lemma parent_shift k : (0 < k)%nat → Z.shiftr (Z.of_nat k - 1) 1 = Z.of_nat (parent k).
Proof.
  intros. unfold parent. rewrite Z.shiftr_div_pow2 by lia. change (2 ^ 1) with 2.
  rewrite Nat.div2_div, Nat2Z.inj_div. f_equal. lia.
Qed.

(** The loop of [CFBinaryHeapAddValue] on a block [c] whose hole is at [k]. *)
Lemma add_loop_ok h `{!TotalPreorder (greater h)} b a v fuel k c l w :
  (k < fuel)%nat → _buckets h = Some b → blocks w !! b = Some (a, c) →
  holed c l k → l !! k = Some v → ordered_above (greater h) l k →
  ∃ k' l' c', add_loop fuel h v (Z.of_nat k) (Z.shiftr (Z.of_nat k - 1) 1) w =
      Ok (Z.of_nat k', put b a c' w) ∧
    l' ≡ₚ l ∧ l' !! k' = Some v ∧ holed c' l' k' ∧ ordered (greater h) l' ∧ length c' = length c.
Proof.
  intros Hf Hb. revert k c l w Hf. induction fuel as [|fuel IH]; intros k c l w Hf Hw Hh Hv Ho; [lia|].
  cbn [add_loop]. destruct (Z.ltb_spec 0 (Z.of_nat k)) as [Hk|Hk].
  2: { exists k, l, c. rewrite put_same by done. split_and!; try done.
       apply (sift_up_stop _ l k v); [done| |done]. lia. }
  assert (0 < k)%nat as Hk' by lia. pose proof (parent_below k Hk') as Hlt.
  apply lookup_lt_Some in Hv as Lk.
  destruct (lookup_lt_is_Some_2 l (parent k)) as [item Hit]; [lia|].
  rewrite parent_shift by done. destruct Hh as [Hlen Hs].
  mstep (get_item_ok _ _ _ _ (Z.of_nat (parent k)) item w Hb Hw ltac:(lia)
           ltac:(rewrite Nat2Z.id; apply Hs; [lia|done])).
  rewrite not_greater_eq. destruct (greater h item v) eqn:Eg; simpl.
  - mstep (set_item_ok _ _ _ _ (Z.of_nat k) item w Hb Hw ltac:(unfold zlen; lia)).
    rewrite Nat2Z.id.
    destruct (IH (parent k) (<[k := Some item]> c) (exchange k (parent k) v item l)
      (put b a (<[k := Some item]> c) w)) as (k' & l' & c' & Hrun & Hp & Hv' & Hh' & Ho' & Hlc).
    + lia.
    + apply put_lookup.
    + apply holed_move; (done || lia).
    + rewrite lookup_exchange by (done || lia). repeat case_decide; (done || lia).
    + by apply sift_up_step.
    + exists k', l', c'. rewrite Hrun, put_put. split_and!; try done.
      * by rewrite Hp, exchange_perm by (done || lia).
      * by rewrite Hlc, length_insert.
  - exists k, l, c. rewrite put_same by done. split_and!; try done.
    apply (sift_up_stop _ l k v); [done| |done]. intros; by simplify_eq.
Qed.

(** The child chosen in the loop of [CFBinaryHeapRemoveMinimumValue]. *)
Lemma smaller_child_ok h `{!TotalPreorder (greater h)} b a c l k w :
  _buckets h = Some b → blocks w !! b = Some (a, c) → holed c l k → _count h = zlen l →
  (2 * k + 1 < length l)%nat →
  ∃ j item, smaller_child h (Z.of_nat (2 * k + 1)) w = Ok ((Z.of_nat j, item), w) ∧
    smallest_child (greater h) l k j item.
Proof.
  intros Hb Hw [Hlen Hs] Hc Hk. unfold smaller_child, __CFBinaryHeapCount.
  destruct (lookup_lt_is_Some_2 l (2 * k + 1)) as [x Hx]; [done|].
  mstep (get_item_ok _ _ _ _ (Z.of_nat (2 * k + 1)) x w Hb Hw ltac:(lia)
           ltac:(rewrite Nat2Z.id; apply Hs; [lia|done])).
  rewrite Hc. unfold zlen. replace (Z.of_nat (2 * k + 1) + 1) with (Z.of_nat (2 * k + 2)) by lia.
  destruct (Z.ltb_spec (Z.of_nat (2 * k + 2)) (Z.of_nat (length l))) as [H2|H2].
  - destruct (lookup_lt_is_Some_2 l (2 * k + 2)) as [y Hy]; [lia|].
    mstep (get_item_ok _ _ _ _ (Z.of_nat (2 * k + 2)) y w Hb Hw ltac:(lia)
             ltac:(rewrite Nat2Z.id; apply Hs; [lia|done])).
    destruct (greater h x y) eqn:Eg.
    + exists (2 * k + 2)%nat, y. split; [done|]. split_and!; [lia|apply parent_child; lia|done|].
      intros i z Hi [->| ->]%parent_child Hz; simplify_eq; [by apply gt_asym|by apply le_refl|done].
    + exists (2 * k + 1)%nat, x. split; [done|]. split_and!; [lia|apply parent_child; lia|done|].
      intros i z Hi [->| ->]%parent_child Hz; simplify_eq; [by apply le_refl|done|done].
  - exists (2 * k + 1)%nat, x. split; [done|]. split_and!; [lia|apply parent_child; lia|done|].
    intros i z Hi [->| ->]%parent_child Hz; simplify_eq; [by apply le_refl| |done].
    apply lookup_lt_Some in Hz. lia.
Qed.

(** The loop of [CFBinaryHeapRemoveMinimumValue]. *)
Lemma remove_loop_ok h `{!TotalPreorder (greater h)} b a v fuel k c l w :
  (length l < fuel + k)%nat → _buckets h = Some b → blocks w !! b = Some (a, c) →
  holed c l k → l !! k = Some v → _count h = zlen l → ordered_below (greater h) l k →
  ∃ k' l' c', remove_loop fuel h v (Z.of_nat k) (Z.shiftl (Z.of_nat k) 1 + 1) w =
      Ok (Z.of_nat k', put b a c' w) ∧
    l' ≡ₚ l ∧ l' !! k' = Some v ∧ holed c' l' k' ∧ ordered (greater h) l' ∧ length c' = length c.
Proof.
  intros Hf Hb. revert k c l w Hf.
  induction fuel as [|fuel IH]; intros k c l w Hf Hw Hh Hv Hc Ho; apply lookup_lt_Some in Hv as Lk; [lia|].
  replace (Z.shiftl (Z.of_nat k) 1 + 1) with (Z.of_nat (2 * k + 1))
    by (rewrite Z.shiftl_mul_pow2 by lia; lia).
  cbn [remove_loop]. unfold __CFBinaryHeapCount at 1. rewrite Hc. unfold zlen at 1.
  destruct (Z.ltb_spec (Z.of_nat (2 * k + 1)) (Z.of_nat (length l))) as [Hk|Hk].
  2: { exists k, l, c. rewrite put_same by done. split_and!; try done.
       apply (sift_down_stop _ l k v); [done| |done]. intros i x Hi Hp Hx.
       apply parent_child in Hp; [|done]. apply lookup_lt_Some in Hx. lia. }
  destruct (smaller_child_ok h b a c l k w) as (j & item & Hrun & Hsm); try done; [lia|].
  mstep Hrun. pose proof Hsm as (Hj & Hpj & Hit & Hmin).
  pose proof (parent_below j Hj). destruct (greater h item v) eqn:Eg; simpl.
  { exists k, l, c. rewrite put_same by done. split_and!; try done.
    apply (sift_down_stop _ l k v); [done| |done]. intros i x Hi Hp Hx.
    eapply le_trans; [by apply gt_asym|]. by eapply Hmin. }
  destruct Hh as [Hlen Hs].
  mstep (set_item_ok _ _ _ _ (Z.of_nat k) item w Hb Hw ltac:(unfold zlen; lia)).
  rewrite Nat2Z.id.
  destruct (IH j (<[k := Some item]> c) (exchange k j v item l)
    (put b a (<[k := Some item]> c) w)) as (k' & l' & c' & Hr & Hp & Hv' & Hh' & Ho' & Hlc).
  - unfold exchange. rewrite !length_insert. lia.
  - apply put_lookup.
  - apply holed_move; (done || lia).
  - rewrite lookup_exchange by (done || lia). repeat case_decide; (done || lia).
  - unfold zlen, exchange. by rewrite !length_insert.
  - by apply sift_down_step.
  - exists k', l', c'. rewrite Hr, put_put. split_and!; try done.
    + by rewrite Hp, exchange_perm by (done || lia).
    + by rewrite Hlc, length_insert.
Qed.

End Spec.
