(* ===== verification/CFBinaryHeapOps.v ===== *)
(** * CoreFoundation binary heaps: the operations

    Specifications of growing, adding, removing, draining and copying, in the
    form the properties of [CFBinaryHeapCorrect] are put together from. *)

From Stdlib Require Import Sorting.Sorted.
From S2P Require Import Prelude CFBinaryHeap CFBinaryHeapSpec.
Import Heap.

Section Ops.
Context `{ClientCode}.

(** [h] with the cells [c] in its block [b] is a heap with the items [l]. *)
Record repr (b : positive) (c : list (option Z)) (h : __CFBinaryHeap) (l : list Z) : Prop := {
  repr_block : _buckets h = Some b;
  repr_stores : stores c l;
  repr_count : _count h = zlen l;
  repr_capacity : _capacity h = zlen c;
  repr_variety : variety h = kCFBinaryHeapMutable;
  repr_ordered : ordered (greater h) l
}.

Definition heap_inv (w : world) (h : __CFBinaryHeap) (l : list Z) : Prop :=
  ∃ b c, blocks w !! b = Some (allocator h, c) ∧ repr b c h l.

Definition same_client (h h' : __CFBinaryHeap) : Prop :=
  allocator h' = allocator h ∧ _callbacks h' = _callbacks h ∧ _context h' = _context h.

Definition memory_ok (w : world) : Prop := Forall (λ f, f = false) (alloc_fails w).

(** From [h] in [w] to [h'] with the items [l'] in [w'], after the calls [ev]. *)
Definition changes (h : __CFBinaryHeap) (w : world) (h' : __CFBinaryHeap) (w' : world)
    (l' : list Z) (ev : list event) : Prop :=
  ∃ b c', _buckets h = Some b ∧ blocks w' = <[b := (allocator h, c')]> (blocks w) ∧
    repr b c' h' l' ∧ same_client h h' ∧ events w' = events w ++ ev ∧ memory_ok w'.

Lemma same_client_greater h h' : same_client h h' → greater h' = greater h.
Proof. intros (_ & Hc & Hx). unfold greater. by rewrite Hc, Hx. Qed.

Lemma changes_inv h w h' w' l' ev : changes h w h' w' l' ev → heap_inv w' h' l'.
Proof.
  intros (b & c & Hb & Hw & Hr & (Ha & _) & _). exists b, c. split; [|done].
  rewrite Hw, Ha. apply lookup_insert_eq.
Qed.

Lemma changes_trans h1 w1 h2 w2 h3 w3 l2 l3 ev2 ev3 :
  changes h1 w1 h2 w2 l2 ev2 → changes h2 w2 h3 w3 l3 ev3 → changes h1 w1 h3 w3 l3 (ev2 ++ ev3).
Proof.
  intros (b & c & Hb & Hw & Hr & (Ha & Hc & Hx) & He & Hm).
  intros (b' & c' & Hb' & Hw' & Hr' & (Ha' & Hc' & Hx') & He' & Hm').
  pose proof (repr_block _ _ _ _ Hr) as Hb2. simplify_eq.
  exists b', c'. split_and!; try done.
  - by rewrite Hw', Hw, insert_insert_eq, Ha.
  - split_and!; congruence.
  - by rewrite He', He, app_assoc.
Qed.

Lemma next_fails_ok w :
  memory_ok w →
  next_fails w = Ok (false, World (blocks w) (tail (alloc_fails w)) (events w)) ∧
  Forall (λ f, f = false) (tail (alloc_fails w)).
Proof.
  intros Hm. unfold next_fails. unfold memory_ok in Hm.
  destruct (alloc_fails w) as [|f fs]; [done|]. by inversion_clear Hm; subst.
Qed.

(** The record with more calls in it. *)
Definition logged (ev : list event) (w : world) : world :=
  World (blocks w) (alloc_fails w) (events w ++ ev).

Lemma log_ok e w : log e w = Ok (tt, logged [e] w).
Proof. done. Qed.

(** ** Growing *)

Lemma round_up_ok n w :
  n < 2 ^ 30 → ∃ m, __CFBinaryHeapRoundUpCapacity n w = Ok (m, w) ∧ n < m ≤ 2 ^ 30.
Proof.
  intros Hn. unfold __CFBinaryHeapRoundUpCapacity.
  destruct (Z.ltb_spec n 4); [exists 4; split; [done|lia]|].
  unfold flsl. destruct (Z.eqb_spec n 0); [lia|]. destruct (Z.ltb_spec n 0); [lia|].
  assert (Z.log2 n < 30) as Hlog by (apply Z.log2_lt_pow2; lia).
  destruct (Z.ltb_spec (Z.log2 n + 1) 31); [|lia].
  exists (2 ^ (Z.log2 n + 1)). rewrite Z.shiftl_1_l. split; [done|].
  pose proof (Z.log2_spec n ltac:(lia)) as [_ Hs]. rewrite <- Z.add_1_r in Hs.
  split; [done|]. apply Z.pow_le_mono_r; lia.
Qed.

Lemma stores_resize c l n : stores c l → (length l ≤ n)%nat → stores (resize n None c) l.
Proof.
  intros [Hl Hs] Hn. split; [by rewrite length_resize|]. intros j x Hx.
  apply lookup_lt_Some in Hx as Hj. rewrite lookup_resize by lia. by apply Hs.
Qed.

Lemma grow_ok h w b c l :
  repr b c h l → blocks w !! b = Some (allocator h, c) → memory_ok w → zlen l + 1 < 2 ^ 30 →
  ∃ h' w' c', __CFBinaryHeapGrow h 1 w = Ok (h', w') ∧ repr b c' h' l ∧ same_client h h' ∧
    blocks w' = <[b := (allocator h, c')]> (blocks w) ∧ events w' = events w ∧ memory_ok w' ∧
    zlen l < zlen c'.
Proof.
  intros [Hb Hs Hc Hcap Hv Ho] Hw Hm Hl. unfold __CFBinaryHeapGrow, __CFBinaryHeapCount.
  destruct (round_up_ok (_count h + 1) w) as (m & Hr & Hlt); [lia|]. mstep Hr. clear Hr.
  destruct (next_fails_ok w Hm) as [Hn Hm'].
  unfold reallocate, __CFBinaryHeapSetNumBuckets, __CFBinaryHeapNumBuckets,
    __CFBinaryHeapNumBucketsForCapacity. cbn [_capacity _buckets allocator].
  unfold mbind, M_bind. rewrite Hn. simpl. unfold block_of, mbind, M_bind, gets. rewrite Hb. simpl.
  rewrite Hw. simpl. rewrite Z.eqb_refl. simpl.
  eexists _, _, (resize (Z.to_nat m) None c). split; [done|].
  pose proof (zlen_nonneg l). assert (Z.of_nat (length l) = zlen l) by done.
  split_and!; try done.
  - split; simpl; try done.
    + apply stores_resize; [done|]. lia.
    + unfold zlen. rewrite length_resize. lia.
  - unfold zlen at 2. rewrite length_resize. lia.
Qed.

(** ** Adding *)

(** What is stored for a value, and the calls made for it. *)
Definition stored (h : __CFBinaryHeap) (v : Z) : Z :=
  if retain (_callbacks h) =? 0 then v
  else call_retain (retain (_callbacks h)) (allocator h) v.
Definition retains (h : __CFBinaryHeap) (v : Z) : list event :=
  if retain (_callbacks h) =? 0 then [] else [Retain v].
Definition releases (h : __CFBinaryHeap) (v : Z) : list event :=
  if release (_callbacks h) =? 0 then [] else [Release v].

(** The client's order and its retain callback: a value compares like what is
    stored for it. *)
Class LawfulClient (h : __CFBinaryHeap) : Prop := {
  lawful_order :: TotalPreorder (greater h);
  lawful_retain v : greater h v (stored h v) = false ∧ greater h (stored h v) v = false
}.

Lemma lawful_same h h' : same_client h h' → LawfulClient h → LawfulClient h'.
Proof.
  intros Hs [Ho Hr]. pose proof (same_client_greater _ _ Hs) as Hg. destruct Hs as (Ha & Hc & _).
  split; rewrite Hg; [done|]. intros v. unfold stored. rewrite Ha, Hc. apply Hr.
Qed.

Lemma stores_room c l : stores c l → (length l < length c)%nat → ∀ v, holed c (l ++ [v]) (length l).
Proof.
  intros [_ Hs] Hl v. split; [rewrite length_app; simpl; lia|]. intros j x Hne Hx.
  apply lookup_lt_Some in Hx as Hj. rewrite length_app in Hj. simpl in Hj.
  rewrite lookup_app_l in Hx by lia. by apply Hs.
Qed.

(** [CFBinaryHeapAddValue] once there is room for the value. *)
Definition add_in_place (heap : __CFBinaryHeap) (value : Z) : M world __CFBinaryHeap :=
  let cnt := __CFBinaryHeapCount heap in
  let heap := __CFBinaryHeapSetNumBucketsUsed (cnt + 1) heap in
  idx ← add_loop (S (Z.to_nat cnt)) heap value cnt (Z.shiftr (cnt - 1) 1);
  if negb (retain (_callbacks heap) =? 0) then
    _ ← log (Retain value);
    _ ← set_item (_buckets heap) idx (call_retain (retain (_callbacks heap)) (allocator heap) value);
    mret heap
  else
    _ ← set_item (_buckets heap) idx value;
    mret heap.

Lemma insert_perm (l : list Z) k v r m :
  l !! k = Some v → l ≡ₚ v :: m → <[k := r]> l ≡ₚ r :: m.
Proof.
  intros Hk Hp. pose proof (lookup_lt_Some _ _ _ Hk) as Hl.
  rewrite insert_take_drop by done. rewrite <- (take_drop_middle l k v Hk) in Hp.
  rewrite <- Permutation_middle in Hp |- *. constructor. by apply Permutation_cons_inv in Hp.
Qed.

Lemma add_in_place_ok h `{!LawfulClient h} w b c l v :
  repr b c h l → blocks w !! b = Some (allocator h, c) → memory_ok w → zlen l < zlen c →
  ∃ h' w' l', add_in_place h v w = Ok (h', w') ∧ changes h w h' w' l' (retains h v) ∧
    l' ≡ₚ stored h v :: l.
Proof.
  intros [Hb Hs Hc Hcap Hv Ho] Hw Hm Hroom. unfold add_in_place, __CFBinaryHeapCount.
  set (h1 := __CFBinaryHeapSetNumBucketsUsed (_count h + 1) h).
  assert (length l < length c)%nat as Hlt by (unfold zlen in Hroom; lia).
  rewrite Hc. unfold zlen at 1 2 3. rewrite Nat2Z.id.
  assert (TotalPreorder (greater h1)) by exact (lawful_order (h := h)).
  destruct (add_loop_ok h1 b (allocator h) v (S (length l)) (length l) c (l ++ [v]) w)
    as (k & l' & c' & Hrun & Hp & Hk & Hh & Ho' & Hlc); try done.
  { lia. } { by apply stores_room. } { by apply list_lookup_middle. } { by apply ordered_snoc. }
  mstep Hrun. apply lookup_lt_Some in Hk as Lk.
  assert (k < length c')%nat as Lc by (destruct Hh; lia).
  assert (∀ w2 : world, blocks w2 = blocks (put b (allocator h) c' w) →
    set_item (_buckets h1) (Z.of_nat k) (stored h v) w2 =
      Ok (tt, put b (allocator h) (<[k := Some (stored h v)]> c') w2)) as Hset.
  { intros w2 Hw2. rewrite (set_item_ok _ b (allocator h) c').
    - by rewrite Nat2Z.id.
    - done.
    - rewrite Hw2. apply put_lookup.
    - unfold zlen. lia. }
  assert (repr b (<[k := Some (stored h v)]> c') h1 (<[k := stored h v]> l')) as Hrepr.
  { split; try done.
    - by apply holed_fill.
    - simpl. rewrite Hc. unfold zlen. rewrite length_insert, Hp, length_app. simpl. lia.
    - simpl. rewrite Hcap. unfold zlen. by rewrite length_insert, Hlc.
    - destruct (lawful_retain (h := h) v). by apply (ordered_replace _ _ _ v). }
  assert (<[k := stored h v]> l' ≡ₚ stored h v :: l) as Hperm.
  { apply (insert_perm _ _ v); [done|]. rewrite Hp. symmetry. apply Permutation_cons_append. }
  exists h1. unfold retains. unfold stored in Hset, Hrepr, Hperm |- *. simpl.
  destruct (retain (_callbacks h) =? 0) eqn:Er; simpl.
  - mstep (Hset _ eq_refl). eexists _, _. split_and!; [done| |done].
    exists b, (<[k := Some v]> c'). split_and!; try done.
    + rewrite put_put. done.
    + by rewrite app_nil_r.
  - mstep (log_ok (Retain v) (put b (allocator h) c' w)).
    mstep (Hset (logged [Retain v] (put b (allocator h) c' w)) eq_refl).
    eexists _, _. split_and!; [done| |done].
    eexists b, _. split_and!; try done. simpl. by rewrite insert_insert_eq.
Qed.

Lemma add_value_ok h `{!LawfulClient h} w l v :
  heap_inv w h l → memory_ok w → zlen l + 1 < 2 ^ 30 →
  ∃ h' w' l', CFBinaryHeapAddValue h v w = Ok (h', w') ∧ changes h w h' w' l' (retains h v) ∧
    l' ≡ₚ stored h v :: l.
Proof.
  intros (b & c & Hw & Hr) Hm Hl. unfold CFBinaryHeapAddValue.
  unfold __CFBinaryHeapMutableVariety, __CFBinaryHeapNumBucketsUsed, __CFBinaryHeapCapacity.
  rewrite (repr_variety _ _ _ _ Hr). cbn [Z.eqb Pos.eqb].
  destruct (Z.eqb_spec (_count h) (_capacity h)) as [Hfull|Hroom].
  - destruct (grow_ok h w b c l) as (h1 & w1 & c1 & Hg & Hr1 & Hs & Hb1 & He1 & Hm1 & Hlt); try done.
    mstep Hg. pose proof (lawful_same _ _ Hs _).
    destruct (add_in_place_ok h1 w1 b c1 l v) as (h' & w' & l' & Hrun & Hch & Hp); try done.
    { rewrite Hb1. destruct Hs as (-> & _). apply lookup_insert_eq. }
    exists h', w', l'. split; [done|]. destruct Hs as (Ha & Hc & Hx).
    assert (retains h1 v = retains h v) as Hrt by (unfold retains; by rewrite Hc).
    assert (stored h1 v = stored h v) as Hst by (unfold stored; by rewrite Hc, Ha).
    rewrite Hst in Hp. rewrite Hrt in Hch. split; [|done].
    apply (changes_trans _ _ h1 w1 _ _ l _ [] (retains h v)); [|done].
    exists b, c1. destruct Hr. split_and!; try done. by rewrite app_nil_r.
  - rewrite (bind_Ok _ _ _ h w) by done.
    apply (add_in_place_ok h w b c l v); try done.
    destruct Hr as [? [Hle _] Hc Hcap _ _]. unfold zlen in *. lia.
Qed.

(** ** Removing *)

Lemma release_first_ok h h0 b a c m w :
  _buckets h = Some b → blocks w !! b = Some (a, c) → c !! 0%nat = Some (Some m) →
  _callbacks h = _callbacks h0 →
  (if negb (release (_callbacks h) =? 0)
   then item ← get_item (_buckets h) 0; log (Release item) else mret tt) w =
    Ok (tt, logged (releases h0 m) w).
Proof.
  intros Hb Hw Hm Hc. unfold releases. rewrite <- Hc. destruct (release (_callbacks h) =? 0); simpl.
  - unfold logged. rewrite app_nil_r. by destruct w.
  - by mstep (get_item_ok _ _ _ _ 0 m w Hb Hw ltac:(lia) Hm).
Qed.

(** The sift-down from the root, for the heap [m :: t] that has lost its
    minimum [m] and whose last item [val] looks for a place. *)
Lemma sift_root_ok h `{!TotalPreorder (greater h)} b a c m t val w :
  _buckets h = Some b → blocks w !! b = Some (a, c) → stores c (m :: t) →
  ordered (greater h) (m :: t) → _count h = zlen t → (m :: t) !! length t = Some val →
  ∃ k l' c', remove_loop (Z.to_nat (1 + zlen t)) h val 0 (Z.shiftl 0 1 + 1) w =
      Ok (Z.of_nat k, put b a c' w) ∧ length c' = length c ∧ (k < length c)%nat ∧
    stores (<[k := Some val]> c') l' ∧ l' ≡ₚ t ∧ ordered (greater h) l'.
Proof.
  intros Hb Hw [Hlen Hs] Ho Hc Hval.
  destruct t as [|x t' _] using rev_ind.
  { exists 0%nat, [], c. simpl in Hlen. split_and!; try done; try lia.
    - simpl. unfold __CFBinaryHeapCount. rewrite Hc. simpl. by rewrite put_same by done.
    - split; [simpl; lia|done]. }
  rewrite length_app in Hval. simpl in Hval. rewrite Nat.add_1_r in Hval.
  simpl in Hval. rewrite list_lookup_middle in Hval by done. injection Hval as ->.
  destruct (remove_loop_ok h b a val (Z.to_nat (1 + zlen (t' ++ [val]))) 0 c (val :: t') w)
    as (k & l' & c' & Hrun & Hp & Hv & Hh & Ho' & Hlc); try done.
  - unfold zlen. simpl. rewrite length_app. simpl. lia.
  - split; [simpl in *; rewrite length_app in Hlen; simpl in *; lia|].
    intros [|j] y Hne Hy; [done|]. apply (Hs (S j)). simpl. by apply lookup_app_l_Some.
  - rewrite Hc. autorewrite with zlen. lia.
  - pose proof (ordered_new_root _ (m :: t' ++ [val]) val (S (length t')) Ho) as Hr.
    simpl in Hr. by rewrite take_app_length in Hr.
  - exists k, l', c'. apply lookup_lt_Some in Hv as Lk.
    assert (length l' ≤ length c)%nat by (destruct Hh; lia).
    split_and!; try done; [lia| |].
    + pose proof (holed_fill c' l' k val Hh Lk) as Hf. by rewrite (list_insert_id l') in Hf.
    + rewrite Hp. apply Permutation_cons_append.
Qed.

Lemma remove_min_ok h `{!TotalPreorder (greater h)} w m t :
  heap_inv w h (m :: t) → memory_ok w →
  ∃ h' w' l', CFBinaryHeapRemoveMinimumValue h w = Ok (h', w') ∧
    changes h w h' w' l' (releases h m) ∧ l' ≡ₚ t.
Proof.
  intros (b & c & Hw & [Hb Hs Hc Hcap Hv Ho]) Hm.
  unfold CFBinaryHeapRemoveMinimumValue, __CFBinaryHeapCount.
  pose proof (zlen_nonneg t) as Ht. rewrite Hc, zlen_cons.
  destruct (Z.eqb_spec 0 (1 + zlen t)); [lia|].
  replace (1 + zlen t - 1) with (zlen t) by lia.
  set (h1 := __CFBinaryHeapSetNumBucketsUsed (zlen t) h).
  pose proof Hs as [_ Hcell].
  mstep (release_first_ok h1 h b (allocator h) c m w Hb Hw (Hcell 0%nat m eq_refl) eq_refl).
  set (w1 := logged (releases h m) w).
  destruct (lookup_lt_is_Some_2 (m :: t) (length t)) as [val Hval]; [simpl; lia|].
  mstep (get_item_ok (_buckets h1) b (allocator h) c (zlen t) val w1 Hb Hw ltac:(lia)
    ltac:(unfold zlen; rewrite Nat2Z.id; apply Hcell; done)).
  destruct (sift_root_ok h1 b (allocator h) c m t val w1)
    as (k & l' & c' & Hrun & Hlc & Hk & Hst & Hp & Ho'); try done.
  mstep Hrun.
  mstep (set_item_ok (_buckets h1) b (allocator h) c' (Z.of_nat k) val
    (put b (allocator h) c' w1) Hb (put_lookup _ _ _ _) ltac:(unfold zlen; lia)).
  rewrite Nat2Z.id, put_put. eexists h1, _, l'. split_and!; [done| |done].
  exists b, (<[k := Some val]> c'). split_and!; try done. split; try done.
  - simpl. unfold zlen. by rewrite Hp.
  - simpl. rewrite Hcap. unfold zlen. by rewrite length_insert, Hlc.
Qed.

End Ops.
