(* ===== verification/CFBinaryHeapValues.v ===== *)
(** * CoreFoundation binary heaps: creation, copies and the value list *)

From Stdlib Require Import Sorting.Sorted.
From S2P Require Import Prelude CFBinaryHeap CFBinaryHeapSpec CFBinaryHeapOps.
Import Heap.

(** ** CoreFoundation binary heaps: draining, copying, deallocating *)

Section Copy.
Context `{ClientCode}.

Lemma changes_refl h w l : heap_inv w h l → memory_ok w → changes h w h w l [].
Proof.
  intros (b & c & Hw & Hr) Hm. exists b, c. split_and!; try done.
  - apply Hr.
  - by rewrite insert_id.
  - by rewrite app_nil_r.
Qed.

Lemma changes_logged h w h' w' l ev ev2 :
  changes h w h' w' l ev → changes h w h' (logged ev2 w') l (ev ++ ev2).
Proof.
  intros (b & c & Hb & Hw & Hr & Hs & He & Hm). exists b, c. split_and!; try done.
  simpl. by rewrite He, app_assoc.
Qed.

Lemma changes_client h w h' w' l ev : changes h w h' w' l ev → same_client h h'.
Proof. by intros (? & ? & _ & _ & _ & ? & _). Qed.

Lemma changes_memory h w h' w' l ev : changes h w h' w' l ev → memory_ok w'.
Proof. by intros (? & ? & _ & _ & _ & _ & _ & ?). Qed.

Lemma same_releases h h' v : same_client h h' → releases h' v = releases h v.
Proof. intros (_ & Hc & _). unfold releases. by rewrite Hc. Qed.

Lemma same_retains h h' v : same_client h h' → retains h' v = retains h v.
Proof. intros (_ & Hc & _). unfold retains. by rewrite Hc. Qed.

Lemma same_stored h h' v : same_client h h' → stored h' v = stored h v.
Proof. intros (Ha & Hc & _). unfold stored. by rewrite Ha, Hc. Qed.

Lemma get_minimum_ok h w m t : heap_inv w h (m :: t) → CFBinaryHeapGetMinimum h w = Ok (m, w).
Proof.
  intros (b & c & Hw & [Hb [_ Hs] Hc _ _ _]). unfold CFBinaryHeapGetMinimum, __CFBinaryHeapCount.
  rewrite Hc, zlen_cons. pose proof (zlen_nonneg t). destruct (Z.ltb_spec 0 (1 + zlen t)); [|lia].
  eapply get_item_ok; [done|done|done|]. by apply (Hs 0%nat).
Qed.

Definition sorted (h : __CFBinaryHeap) : list Z → Prop :=
  StronglySorted (λ a b, greater h a b = false).

(** [h] is drained: its items come out in order, each released and then
    visited. *)
Lemma drain_loop_ok visit vis h `{!TotalPreorder (greater h)} fuel w l :
  (∀ v w, visit v w = Ok (tt, logged (vis v) w)) →
  (length l < fuel)%nat → heap_inv w h l → memory_ok w →
  ∃ vs h' w', drain_loop fuel visit h w = Ok ((vs, h'), w') ∧
    changes h w h' w' [] (concat ((λ v, releases h v ++ vis v) <$> vs)) ∧ vs ≡ₚ l ∧ sorted h vs.
Proof.
  intros Hvis. revert h TotalPreorder0 w l.
  induction fuel as [|fuel IH]; intros h Hord w l Hf Hi Hm; [lia|].
  cbn [drain_loop]. unfold __CFBinaryHeapCount.
  pose proof Hi as (b & c & _ & [_ _ Hc _ _ Ho]). rewrite Hc. destruct l as [|m t].
  { eexists [], h, w. split_and!; [done|by apply changes_refl|done|constructor]. }
  rewrite zlen_cons. pose proof (zlen_nonneg t). destruct (Z.ltb_spec 0 (1 + zlen t)); [|lia].
  mstep (get_minimum_ok _ _ _ _ Hi).
  destruct (remove_min_ok h w m t) as (h1 & w1 & l1 & Hrun & Hch & Hp); try done.
  mstep Hrun. mstep (Hvis m w1). apply (changes_logged _ _ _ _ _ _ (vis m)) in Hch.
  pose proof (changes_client _ _ _ _ _ _ Hch) as Hcl.
  pose proof (same_client_greater _ _ Hcl) as Hg.
  destruct (IH h1 ltac:(by rewrite Hg) (logged (vis m) w1) l1) as (vs & h2 & w2 & Hd & Hch2 & Hp2 & Hs).
  { rewrite Hp. simpl in Hf. lia. } { by eapply changes_inv. } { by eapply changes_memory. }
  mstep Hd. exists (m :: vs), h2, w2. split_and!; [done| | |].
  - pose proof (changes_trans _ _ _ _ _ _ _ _ _ _ Hch Hch2) as Ht. simpl.
    rewrite (list_fmap_ext _ (λ v, releases h1 v ++ vis v) vs); [done|].
    intros i v _. by rewrite (same_releases h h1).
  - by rewrite Hp2, Hp.
  - constructor.
    + unfold sorted in Hs. by rewrite Hg in Hs.
    + rewrite Hp2, Hp. apply Forall_forall. intros x (i & Hx)%list_elem_of_lookup.
      by apply (ordered_root _ (m :: t) m (S i)).
Qed.

(** ** Releasing everything *)

Lemma release_loop_ok h b a c w l ds :
  _buckets h = Some b → blocks w !! b = Some (a, c) → stores c (ds ++ l) →
  for_M (seqZ (zlen ds) (zlen l)) (λ idx, item ← get_item (_buckets h) idx; log (Release item)) w =
    Ok (tt, logged (Release <$> l) w).
Proof.
  intros Hb Hw Hs. revert ds w Hw Hs. induction l as [|v l IH]; intros ds w Hw Hs.
  { simpl. unfold logged. rewrite app_nil_r. by destruct w. }
  rewrite (seqZ_items ds v). cbn [for_M].
  rewrite (bind_Ok _ _ _ tt (logged [Release v] w))
    by by mstep (get_item_next _ _ _ _ _ _ _ _ Hb Hw Hs).
  rewrite IH; [|done|by rewrite <- app_assoc].
  unfold logged. simpl. by rewrite <- app_assoc.
Qed.

Lemma remove_all_ok h w l :
  heap_inv w h l →
  CFBinaryHeapRemoveAllValues h w =
    Ok (__CFBinaryHeapSetNumBucketsUsed 0 h, logged (concat (releases h <$> l)) w).
Proof.
  intros (b & c & Hw & [Hb Hs Hc _ _ _]). unfold CFBinaryHeapRemoveAllValues, __CFBinaryHeapCount.
  rewrite Hc. unfold releases. destruct (release (_callbacks h) =? 0); simpl.
  - assert (concat ((λ _ : Z, []) <$> l) = ([] : list event)) as ->
      by (clear; by induction l).
    unfold logged. rewrite app_nil_r. by destruct w.
  - assert (concat ((λ v : Z, [Release v]) <$> l) = Release <$> l) as ->.
    { clear. induction l as [|v l IH]; [done|]. simpl. by f_equal. }
    by mstep (release_loop_ok h b (allocator h) c w l [] Hb Hw Hs).
Qed.

Lemma deallocate_heap_ok h w b c l :
  blocks w !! b = Some (allocator h, c) → repr b c h l →
  __CFBinaryHeapDeallocate h w =
    Ok (tt, set_blocks (delete b (blocks w)) (logged (concat (releases h <$> l)) w)).
Proof.
  intros Hw Hr. unfold __CFBinaryHeapDeallocate.
  mstep (remove_all_ok h w l ltac:(by exists b, c)).
  unfold __CFBinaryHeapMutableVariety. destruct Hr as [Hb _ _ _ Hv _]. simpl. rewrite Hv.
  unfold deallocate, block_of, mbind, M_bind, gets. simpl. rewrite Hb. simpl. rewrite Hw. simpl.
  by rewrite Z.eqb_refl.
Qed.

End Copy.

Section Values.
Context `{ClientCode}.

(** The values of the array [b0], from index [zlen ds] on, are added. *)
Lemma add_values_ok b0 a0 c0 vs ds h `{!LawfulClient h} w acc :
  blocks w !! b0 = Some (a0, c0) → stores c0 (ds ++ vs) → _buckets h ≠ Some b0 →
  heap_inv w h acc → memory_ok w → zlen acc + zlen vs < 2 ^ 30 →
  ∃ h' w' l', add_values (Some b0) (seqZ (zlen ds) (zlen vs)) h w = Ok (h', w') ∧
    changes h w h' w' l' (concat (retains h <$> vs)) ∧ l' ≡ₚ (stored h <$> vs) ++ acc.
Proof.
  revert ds h LawfulClient0 w acc.
  induction vs as [|v vs IH]; intros ds h Hlaw w acc Hw Hs Hne Hi Hm Hl.
  { exists h, w, acc. split_and!; [done|by apply changes_refl|done]. }
  pose proof (zlen_nonneg vs). rewrite zlen_cons in Hl. rewrite (seqZ_items ds v). cbn [add_values].
  mstep (get_item_next _ _ _ _ _ _ _ _ (eq_refl (Some b0)) Hw Hs).
  destruct (add_value_ok h w acc v) as (h1 & w1 & l1 & Hrun & Hch & Hp); try done; [lia|].
  mstep Hrun. pose proof (changes_client _ _ _ _ _ _ Hch) as Hcl.
  pose proof Hch as (b & c & Hb & Hblk & Hr & _).
  destruct (IH (ds ++ [v]) h1 ltac:(by eapply lawful_same) w1 l1)
    as (h2 & w2 & l2 & Hrun2 & Hch2 & Hp2).
  { rewrite Hblk, lookup_insert_ne by congruence. done. }
  { by rewrite <- app_assoc. }
  { rewrite (repr_block _ _ _ _ Hr). congruence. }
  { by eapply changes_inv. } { by eapply changes_memory. }
  { unfold zlen in *. rewrite Hp. simpl. lia. }
  exists h2, w2, l2. split_and!; [done| |].
  - pose proof (changes_trans _ _ _ _ _ _ _ _ _ _ Hch Hch2) as Ht. simpl.
    rewrite (list_fmap_ext _ (retains h1) vs); [done|]. intros i x _. by rewrite (same_retains h h1).
  - rewrite Hp2, Hp. simpl. rewrite <- Permutation_middle.
    rewrite (list_fmap_ext (stored h1) (stored h) vs); [done|].
    intros i x _. by apply same_stored.
Qed.

(** A structure with the client's settings and nothing else. *)
Definition settings (alloc : Z) (cb : CFBinaryHeapCallBacks) (ctx : CFBinaryHeapCompareContext) :=
  HeapStruct alloc 1 0 0 cb ctx None.

Definition fresh_heap (alloc : Z) (cb : CFBinaryHeapCallBacks) (ctx : CFBinaryHeapCompareContext)
    (b : positive) : __CFBinaryHeap := HeapStruct alloc 1 0 4 cb ctx (Some b).

Lemma fresh_heap_repr alloc cb ctx b :
  repr b (replicate 4 None) (fresh_heap alloc cb ctx b) [].
Proof. split; try done. split; [simpl; lia|done]. Qed.

(** The two allocations of [__CFBinaryHeapInit] succeed. *)
Lemma init_ok alloc cap values n cb ctx w :
  memory_ok w →
  ∃ w1, memory_ok w1 ∧ events w1 = events w ∧
    let b := fresh (dom (blocks w)) in
    blocks w1 = <[b := (alloc, replicate 4 None)]> (blocks w) ∧
    __CFBinaryHeapInit alloc kCFBinaryHeapMutable cap values n cb ctx w =
      (memory ← add_values values (seqZ 0 n)
         (fresh_heap alloc (default (CallBacks 0 0 0 0) cb) (default (Context_ 0) ctx) b);
       mret (Some (__CFBinaryHeapSetMutableVariety kCFBinaryHeapMutable memory))) w1.
Proof.
  intros Hm. destruct (next_fails_ok w Hm) as [Hn Hm1].
  set (w0 := World (blocks w) (tail (alloc_fails w)) (events w)) in *.
  destruct (next_fails_ok w0 Hm1) as [Hn1 Hm2].
  set (b := fresh (dom (blocks w))).
  exists (World (<[b := (alloc, replicate 4 None)]> (blocks w)) (tail (alloc_fails w0)) (events w)).
  split_and!; try done.
  unfold __CFBinaryHeapInit, _CFRuntimeCreateInstance, __CFBinaryHeapRoundUpCapacity, allocate.
  unfold mbind, M_bind. rewrite Hn. unfold next_fails in Hn1. injection Hn1 as Hd.
  simpl in *. split; [done|]. by rewrite Hd.
Qed.

(** The copy is a heap of its own in a new block, with the stored values. *)
Lemma create_copy_ok alloc cap h `{!LawfulClient (settings alloc (_callbacks h) (_context h))} w l :
  heap_inv w h l → memory_ok w → zlen l < 2 ^ 30 →
  let s := settings alloc (_callbacks h) (_context h) in
  let b := fresh (dom (blocks w)) in
  ∃ h' w' c l', CFBinaryHeapCreateCopy alloc cap h w = Ok (Some h', w') ∧
    blocks w' = <[b := (alloc, c)]> (blocks w) ∧ repr b c h' l' ∧ same_client s h' ∧
    events w' = events w ++ concat (retains s <$> l) ∧ memory_ok w' ∧ l' ≡ₚ stored s <$> l.
Proof.
  intros (b0 & c0 & Hw & [Hb0 Hs Hc _ _ _]) Hm Hl s b. unfold CFBinaryHeapCreateCopy.
  destruct (init_ok alloc cap (_buckets h) (__CFBinaryHeapCount h) (Some (_callbacks h))
    (Some (_context h)) w Hm) as (w1 & Hm1 & He1 & Hb1 & Hrun).
  fold b in Hb1, Hrun. rewrite Hrun. cbn [default]. unfold __CFBinaryHeapCount. rewrite Hb0, Hc.
  set (h0 := fresh_heap alloc (_callbacks h) (_context h) b).
  assert (same_client s h0) as Hsc by done.
  assert (b ∉ dom (blocks w)) as Hfresh by apply is_fresh.
  assert (b ≠ b0) as Hne. { intros <-. apply Hfresh. apply elem_of_dom. eauto. }
  destruct (add_values_ok b0 (allocator h) c0 l [] h0 (LawfulClient0 := lawful_same _ _ Hsc _) w1 [])
    as (h' & w' & l' & Hadd & Hch & Hp); try done.
  { rewrite Hb1. by rewrite lookup_insert_ne. }
  { simpl. congruence. }
  { exists b, (replicate 4 None). split; [rewrite Hb1; apply lookup_insert_eq|].
    apply fresh_heap_repr. }
  change (zlen []) with 0 in Hadd. mstep Hadd.
  destruct Hch as (b' & c & Hb' & Hblk & Hr & Hcl & He & Hm').
  simpl in Hb'. injection Hb' as <-. rewrite app_nil_r in Hp.
  eexists _, w', c, l'. split_and!; try done.
  - by rewrite Hblk, Hb1, insert_insert_eq.
  - destruct Hr. split; try done.
  - rewrite He, He1. done.
Qed.

(** Copy, drain, deallocate: the common part of [CFBinaryHeapGetValues] and
    [CFBinaryHeapApplyFunction]. *)
Definition drain_copy (visit : Z → M world unit) (heap : __CFBinaryHeap) : M world (list Z) :=
  copy ← CFBinaryHeapCreateCopy (allocator heap) (__CFBinaryHeapCount heap) heap;
  heapCopy ← nonnull copy;
  '(values, heapCopy) ← drain_loop (S (Z.to_nat (__CFBinaryHeapCount heap))) visit heapCopy;
  _ ← __CFBinaryHeapDeallocate heapCopy;
  mret values.

Lemma settings_same h : same_client (settings (allocator h) (_callbacks h) (_context h)) h.
Proof. done. Qed.

Lemma settings_same' h : same_client h (settings (allocator h) (_callbacks h) (_context h)).
Proof. done. Qed.

Lemma drain_copy_ok visit vis h `{!LawfulClient h} w l :
  (∀ v w, visit v w = Ok (tt, logged (vis v) w)) →
  heap_inv w h l → memory_ok w → zlen l < 2 ^ 30 →
  ∃ vs w', drain_copy visit h w = Ok (vs, w') ∧ vs ≡ₚ stored h <$> l ∧ sorted h vs ∧
    blocks w' = blocks w ∧ memory_ok w' ∧
    events w' = events w ++ concat (retains h <$> l) ++
                concat ((λ v, releases h v ++ vis v) <$> vs).
Proof.
  intros Hvis Hi Hm Hl. unfold drain_copy.
  set (s := settings (allocator h) (_callbacks h) (_context h)).
  pose proof (lawful_same h s (settings_same' h) _) as Hlaw.
  destruct (create_copy_ok (allocator h) (__CFBinaryHeapCount h) h w l)
    as (h1 & w1 & c & l1 & Hcopy & Hb1 & Hr1 & Hcl & He1 & Hm1 & Hp1); try done.
  set (b := fresh (dom (blocks w))) in *. mstep Hcopy. cbn [nonnull].
  rewrite (bind_Ok _ _ _ h1 w1) by done.
  pose proof (same_client_greater _ _ Hcl) as Hg. change (greater s) with (greater h) in Hg.
  assert (heap_inv w1 h1 l1) as Hi1.
  { exists b, c. split; [|done]. destruct Hcl as (-> & _). rewrite Hb1. apply lookup_insert_eq. }
  assert (length l1 < S (Z.to_nat (__CFBinaryHeapCount h)))%nat as Hf.
  { destruct Hi as (? & ? & _ & [_ _ Hc _ _ _]). unfold __CFBinaryHeapCount. rewrite Hc, Hp1.
    rewrite length_fmap. unfold zlen. lia. }
  assert (TotalPreorder (greater h1)) as Ho by (rewrite Hg; apply lawful_order).
  destruct (drain_loop_ok visit vis h1 _ w1 l1 Hvis Hf Hi1 Hm1)
    as (vs & h2 & w2 & Hd & (b' & c2 & Hb' & Hblk & Hr2 & Hcl2 & He2 & Hm2) & Hp2 & Hs).
  mstep Hd. rewrite (repr_block _ _ _ _ Hr1) in Hb'. injection Hb' as <-.
  rewrite (bind_Ok _ _ _ _ _ (deallocate_heap_ok h2 w2 b c2 [] ltac:(rewrite Hblk;
    destruct Hcl2 as (-> & _); apply lookup_insert_eq) Hr2)).
  eexists vs, _. split; [done|]. split_and!.
  - rewrite Hp2, Hp1. done.
  - unfold sorted in Hs. by rewrite Hg in Hs.
  - simpl. rewrite Hblk, Hb1, insert_insert_eq. apply delete_insert_id.
    apply not_elem_of_dom. apply is_fresh.
  - done.
  - simpl. rewrite He2, He1. simpl. rewrite app_nil_r, <- app_assoc. do 2 f_equal.
    f_equal. apply list_fmap_ext. intros i v _. by rewrite (same_releases s h1).
Qed.

Lemma get_values_ok h `{!LawfulClient h} w l :
  heap_inv w h l → memory_ok w → zlen l < 2 ^ 30 →
  ∃ vs w', CFBinaryHeapGetValues h w = Ok (vs, w') ∧ vs ≡ₚ stored h <$> l ∧ sorted h vs ∧
    blocks w' = blocks w ∧ memory_ok w' ∧
    events w' = events w ++ concat (retains h <$> l) ++ concat (releases h <$> vs).
Proof.
  intros Hi Hm Hl. unfold CFBinaryHeapGetValues.
  destruct (Z.eqb_spec 0 (__CFBinaryHeapCount h)) as [H0|H0].
  - pose proof Hi as (b & c & _ & [_ _ Hc _ _ _]). unfold __CFBinaryHeapCount in H0.
    rewrite Hc in H0. destruct l; [|rewrite zlen_cons in H0; pose proof (zlen_nonneg l); lia].
    exists [], w. split_and!; try done; [constructor|]. by rewrite app_nil_r.
  - destruct (drain_copy_ok (λ _, mret tt : M world unit) (λ _, []) h w l) as (vs & w' & Hrun & Hp & Hs & Hb & Hm' & He);
      try done.
    { intros v [] . unfold logged. simpl. by rewrite app_nil_r. }
    exists vs, w'. split_and!; try done. rewrite He. do 3 f_equal.
    apply list_fmap_ext. intros i v _. by rewrite app_nil_r.
Qed.

End Values.
