(* ===== verification/CFBinaryHeapCorrect.v ===== *)
(** * CoreFoundation binary heaps: the properties

    Adding and removing keep the heap and act on its items as on a priority
    queue; the value list is the sorted list of the items, made on a copy that
    leaves no trace; [__CFBinaryHeapEqual] compares the sorted lists, with the
    test on the comparison result the wrong way round. *)

From Stdlib Require Import Sorting.Sorted.
From S2P Require Import Prelude CFBinaryHeap CFBinaryHeapSpec CFBinaryHeapOps CFBinaryHeapValues.
Import Heap.

Section Correct.
Context `{ClientCode}.

(** ** Queries *)

Lemma count_loop_ok h v l ds b a c w n :
  _buckets h = Some b → blocks w !! b = Some (a, c) → stores c (ds ++ l) →
  count_loop (seqZ (zlen ds) (zlen l)) h v n w =
    Ok (n + zlen (List.filter (matches h v) l), w).
Proof.
  intros Hb Hw. revert ds n. induction l as [|x l IH]; intros ds n Hs.
  { simpl. by rewrite zlen_nil, Z.add_0_r. }
  rewrite (seqZ_items ds x). cbn [count_loop]. mstep (get_item_next _ _ _ _ _ _ _ _ Hb Hw Hs).
  rewrite IH by (by rewrite <- app_assoc). simpl. f_equal. f_equal.
  destruct (matches h v x); [rewrite zlen_cons|]; lia.
Qed.

Lemma contains_loop_ok h v l ds b a c w :
  _buckets h = Some b → blocks w !! b = Some (a, c) → stores c (ds ++ l) →
  contains_loop (seqZ (zlen ds) (zlen l)) h v w = Ok (existsb (matches h v) l, w).
Proof.
  intros Hb Hw. revert ds. induction l as [|x l IH]; intros ds Hs; [done|].
  rewrite (seqZ_items ds x). cbn [contains_loop]. mstep (get_item_next _ _ _ _ _ _ _ _ Hb Hw Hs).
  simpl. destruct (matches h v x); [done|]. apply IH. by rewrite <- app_assoc.
Qed.

(** The queries on the items: number of matches, and whether there is one. *)
Lemma heap_queries_ok h w l v :
  heap_inv w h l →
  CFBinaryHeapGetCountOfValue h v w = Ok (zlen (List.filter (matches h v) l), w) ∧
  CFBinaryHeapContainsValue h v w = Ok (existsb (matches h v) l, w) ∧
  CFBinaryHeapGetCount h = zlen l.
Proof.
  intros (b & c & Hw & [Hb Hs Hc _ _ _]).
  unfold CFBinaryHeapGetCountOfValue, CFBinaryHeapContainsValue, CFBinaryHeapGetCount,
    __CFBinaryHeapCount. rewrite Hc. split_and!; [|by apply (contains_loop_ok h v l [] b (allocator h) c)|done].
  by rewrite (count_loop_ok h v l [] b (allocator h) c).
Qed.

(** ** Adding and removing *)

(** C26. [CFBinaryHeapAddValue] adds what the retain callback returns for the
    value to the items, one retain, keeps the heap order, the client's
    settings and every other block, and grows the buckets when they are full. *)
Theorem CFBinaryHeapAddValue_correct h w l v :
  LawfulClient h → heap_inv w h l → memory_ok w → zlen l + 1 < 2 ^ 30 →
  ∃ h' w' l', CFBinaryHeapAddValue h v w = Ok (h', w') ∧ heap_inv w' h' l' ∧
    l' ≡ₚ stored h v :: l ∧ same_client h h' ∧ events w' = events w ++ retains h v ∧
    ∀ b, _buckets h ≠ Some b → blocks w' !! b = blocks w !! b.
Proof.
  intros Hlaw Hi Hm Hl. destruct (add_value_ok h w l v) as (h' & w' & l' & Hrun & Hch & Hp); try done.
  exists h', w', l'. pose proof (changes_inv _ _ _ _ _ _ Hch).
  destruct Hch as (b & c & Hb & Hblk & _ & Hcl & He & _). split_and!; try done.
  intros b' Hne. rewrite Hblk. apply lookup_insert_ne. congruence.
Qed.

(** C27. [CFBinaryHeapRemoveMinimumValue] releases and removes an item that no
    item is smaller than, the one [CFBinaryHeapGetMinimum] returns, and keeps
    the other items and the heap order; an empty heap is left alone. *)
Theorem CFBinaryHeapRemoveMinimumValue_correct h w l :
  LawfulClient h → heap_inv w h l → memory_ok w →
  match l with
  | [] => CFBinaryHeapRemoveMinimumValue h w = Ok (h, w) ∧ CFBinaryHeapGetMinimum h w = Ok (0, w)
  | m :: t =>
    CFBinaryHeapGetMinimum h w = Ok (m, w) ∧ Forall (λ x, greater h m x = false) t ∧
    ∃ h' w' l', CFBinaryHeapRemoveMinimumValue h w = Ok (h', w') ∧ heap_inv w' h' l' ∧
      l' ≡ₚ t ∧ same_client h h' ∧ events w' = events w ++ releases h m ∧
      ∀ b, _buckets h ≠ Some b → blocks w' !! b = blocks w !! b
  end.
Proof.
  intros Hlaw Hi Hm. pose proof Hi as (b & c & Hw & [Hb Hs Hc Hcap Hv Ho]). destruct l as [|m t].
  - unfold CFBinaryHeapRemoveMinimumValue, CFBinaryHeapGetMinimum, __CFBinaryHeapCount.
    by rewrite Hc.
  - split; [by eapply get_minimum_ok|]. split.
    + apply Forall_forall. intros x (i & Hx)%list_elem_of_lookup.
      by apply (ordered_root _ (m :: t) m (S i)).
    + destruct (remove_min_ok h w m t) as (h' & w' & l' & Hrun & Hch & Hp); try done.
      exists h', w', l'. pose proof (changes_inv _ _ _ _ _ _ Hch).
      destruct Hch as (b' & c' & Hb' & Hblk & _ & Hcl & He & _). split_and!; try done.
      intros b2 Hne. rewrite Hblk. apply lookup_insert_ne. congruence.
Qed.

(** ** The value list *)

(** [CFBinaryHeapGetValues] stores the items in increasing order (each as
    the retain callback returns it for the copy), and the memory is afterwards
    as before: the copy is gone, and every retain it made was matched by a
    release.  [CFBinaryHeapApplyFunction] calls the applier on the same
    values. *)
Theorem CFBinaryHeapGetValues_correct h w l ctx :
  LawfulClient h → heap_inv w h l → memory_ok w → zlen l < 2 ^ 30 →
  (∃ vs w', CFBinaryHeapGetValues h w = Ok (vs, w') ∧ vs ≡ₚ stored h <$> l ∧ sorted h vs ∧
    blocks w' = blocks w ∧
    events w' = events w ++ concat (retains h <$> l) ++ concat (releases h <$> vs)) ∧
  (∃ vs w', CFBinaryHeapApplyFunction h ctx w = Ok (tt, w') ∧ vs ≡ₚ stored h <$> l ∧ sorted h vs ∧
    blocks w' = blocks w ∧
    events w' = events w ++ concat (retains h <$> l) ++
                concat ((λ v, releases h v ++ [Apply v ctx]) <$> vs)).
Proof.
  intros Hlaw Hi Hm Hl. split.
  { destruct (get_values_ok h w l) as (vs & w' & ? & ? & ? & ? & ? & ?); try done. by exists vs, w'. }
  unfold CFBinaryHeapApplyFunction. destruct (Z.eqb_spec 0 (__CFBinaryHeapCount h)) as [H0|H0].
  - pose proof Hi as (b & c & _ & [_ _ Hc _ _ _]). unfold __CFBinaryHeapCount in H0.
    rewrite Hc in H0. destruct l; [|rewrite zlen_cons in H0; pose proof (zlen_nonneg l); lia].
    exists [], w. split_and!; try done; [constructor|]. by rewrite app_nil_r.
  - destruct (drain_copy_ok (λ v, log (Apply v ctx)) (λ v, [Apply v ctx]) h w l)
      as (vs & w' & Hrun & Hp & Hs & Hb & Hm' & He); try done.
    exists vs, w'. split_and!; try done. unfold drain_copy in Hrun.
    apply bind_inv in Hrun as (copy & w1 & Hc1 & Hrun). mstep Hc1.
    apply bind_inv in Hrun as (hc & w2 & Hc2 & Hrun). mstep Hc2.
    apply bind_inv in Hrun as ([vs' hc'] & w3 & Hc3 & Hrun). mstep Hc3.
    apply bind_inv in Hrun as ([] & w4 & Hc4 & Hrun). rewrite Hc4. by injection Hrun as _ ->.
Qed.

(** ** Equality *)

(** What the loop of [__CFBinaryHeapEqual] tests for a pair of values. *)
Definition pair_passes (h : __CFBinaryHeap) (p : Z * Z) : bool :=
  (p.1 =? p.2) ||
  negb (compare (_callbacks h) =? 0) &&
    negb (call_compare (compare (_callbacks h)) p.1 p.2 (info (_context h)) =? kCFCompareEqualTo).

Lemma equal_loop_forall h l1 l2 : equal_loop h l1 l2 = forallb (pair_passes h) (zip l1 l2).
Proof.
  revert l2. induction l1 as [|a l1 IH]; intros [|b l2]; try done. simpl. rewrite IH.
  unfold pair_passes. simpl. destruct (a =? b); [done|]. simpl.
  destruct (compare (_callbacks h) =? 0); [done|]. simpl. by destruct (_ =? 0).
Qed.

Lemma heap_inv_blocks w w' h l b x :
  heap_inv w h l → b ∉ dom (blocks w) → blocks w' = <[b := x]> (blocks w) → heap_inv w' h l.
Proof.
  intros (b0 & c & Hw & Hr) Hb Hblk. exists b0, c. split; [|done]. rewrite Hblk, lookup_insert_ne; [done|].
  intros ->. apply Hb. apply elem_of_dom. eauto.
Qed.

(** Both value lists, one after the other. *)
Lemma two_lists_ok h1 h2 `{!LawfulClient h1, !LawfulClient h2} w l1 l2 :
  heap_inv w h1 l1 → heap_inv w h2 l2 → memory_ok w → zlen l1 < 2 ^ 30 → zlen l2 < 2 ^ 30 →
  ∃ vs1 w1 vs2 w2, CFBinaryHeapGetValues h1 w = Ok (vs1, w1) ∧
    CFBinaryHeapGetValues h2 w1 = Ok (vs2, w2) ∧ blocks w2 = blocks w ∧
    (vs1 ≡ₚ stored h1 <$> l1 ∧ sorted h1 vs1) ∧ (vs2 ≡ₚ stored h2 <$> l2 ∧ sorted h2 vs2).
Proof.
  intros Hi1 Hi2 Hm Hl1 Hl2.
  destruct (get_values_ok h1 w l1) as (vs1 & w1 & Hr1 & Hp1 & Hs1 & Hb1 & Hm1 & _); try done.
  assert (heap_inv w1 h2 l2) as Hi2' by (unfold heap_inv; by rewrite Hb1).
  destruct (get_values_ok h2 w1 l2) as (vs2 & w2 & Hr2 & Hp2 & Hs2 & Hb2 & Hm2 & _); try done.
  exists vs1, w1, vs2, w2. split_and!; try done. by rewrite Hb2.
Qed.

(** [__CFBinaryHeapEqual] on heaps with the same count and comparison
    function compares the sorted value lists pair by pair, and its verdict on
    two different pointers is the wrong way round: they pass when the
    comparison says they are not equal.  With more than 128 values and the
    answer false the block for the lists stays allocated. *)
Theorem CFBinaryHeapEqual_inverted h1 h2 w l1 l2 :
  LawfulClient h1 → LawfulClient h2 → heap_inv w h1 l1 → heap_inv w h2 l2 → memory_ok w →
  0 < zlen l1 < 2 ^ 30 → zlen l2 = zlen l1 →
  compare (_callbacks h1) = compare (_callbacks h2) →
  (128 < zlen l1 → allocator h1 = kCFAllocatorSystemDefault) →
  ∃ vs1 vs2 w', __CFBinaryHeapEqual h1 h2 w = Ok (forallb (pair_passes h1) (zip vs1 vs2), w') ∧
    (vs1 ≡ₚ stored h1 <$> l1 ∧ sorted h1 vs1) ∧ (vs2 ≡ₚ stored h2 <$> l2 ∧ sorted h2 vs2) ∧
    if forallb (pair_passes h1) (zip vs1 vs2) || (zlen l1 <=? 128) then blocks w' = blocks w
    else size (blocks w') = S (size (blocks w)).
Proof.
  intros Hlaw1 Hlaw2 Hi1 Hi2 Hm Hl1 Hl2 Hcmp Hal. unfold __CFBinaryHeapEqual, __CFBinaryHeapCount.
  pose proof Hi1 as (? & ? & _ & [_ _ Hc1 _ _ _]). pose proof Hi2 as (? & ? & _ & [_ _ Hc2 _ _ _]).
  rewrite Hc1, Hc2, Hl2, Z.eqb_refl, Hcmp, Z.eqb_refl. cbn [negb].
  destruct (Z.eqb_spec 0 (zlen l1)); [lia|]. destruct (Z.leb_spec (zlen l1) 128) as [Hs|Hs].
  - rewrite (bind_Ok _ _ _ None w) by done.
    destruct (two_lists_ok h1 h2 w l1 l2) as (vs1 & w1 & vs2 & w2 & Hr1 & Hr2 & Hb & ? & ?); try done.
    { lia. } { lia. }
    mstep Hr1. mstep Hr2. rewrite equal_loop_forall. exists vs1, vs2, w2.
    rewrite orb_true_r. split_and!; try tauto. by destruct (forallb _ _).
  - destruct (next_fails_ok w Hm) as [Hn Hm'].
    set (b := fresh (dom (blocks w))).
    assert (b ∉ dom (blocks w)) as Hfresh by apply is_fresh.
    set (blk := (1, replicate (Z.to_nat (2 * zlen l1)) None) : Z * list (option Z)).
    set (w0 := World (<[b := blk]> (blocks w)) (tail (alloc_fails w)) (events w)).
    rewrite (bind_Ok _ _ _ (Some b) w0).
    2: { unfold allocate, mbind, M_bind. by rewrite Hn. }
    destruct (two_lists_ok h1 h2 w0 l1 l2) as (vs1 & w1 & vs2 & w2 & Hr1 & Hr2 & Hb & ? & ?);
      try done; try lia.
    { by apply (heap_inv_blocks w w0 h1 l1 b blk). } { by apply (heap_inv_blocks w w0 h2 l2 b blk). }
    mstep Hr1. mstep Hr2. rewrite equal_loop_forall. exists vs1, vs2.
    destruct (forallb _ _); simpl; [|destruct (Z.leb_spec (zlen l1) 128); [lia|]].
    + exists (set_blocks (delete b (blocks w2)) w2). split_and!; try tauto.
      * unfold deallocate, block_of, mbind, M_bind, gets. simpl. rewrite Hb. simpl.
        rewrite lookup_insert_eq. simpl.
        rewrite Hal by done. unfold modify. simpl. by rewrite Hb.
      * simpl. rewrite Hb. simpl. by rewrite delete_insert_id by by apply not_elem_of_dom.
    + exists w2. split_and!; try tauto; try done.
      rewrite Hb. simpl. by rewrite map_size_insert_None by by apply not_elem_of_dom.
Qed.

End Correct.

(** ** CoreFoundation binary heaps: a client and concrete heaps

    Items are numbers compared by their tens, so that different pointers can
    compare equal; the retain callback returns the value. *)

#[local] Instance by_tens : ClientCode := {
  call_compare _ a b _ := if a / 10 <? b / 10 then -1 else if a / 10 =? b / 10 then 0 else 1;
  call_retain _ _ v := v
}.

Definition tens_callbacks : CFBinaryHeapCallBacks := CallBacks 5 6 0 7.

(** Three of four buckets used, and a heap of one item. *)
Definition demo_heap : __CFBinaryHeap :=
  HeapStruct 1 1 3 4 tens_callbacks (Context_ 0) (Some 1%positive).
Definition one_heap : __CFBinaryHeap :=
  HeapStruct 1 1 1 4 tens_callbacks (Context_ 0) (Some 2%positive).
Definition other_heap : __CFBinaryHeap :=
  HeapStruct 1 1 1 4 tens_callbacks (Context_ 0) (Some 3%positive).
Definition demo_world : world :=
  World (<[1%positive := (1, [Some 12; Some 31; Some 25; None])]>
        (<[2%positive := (1, [Some 40; None; None; None])]>
        (<[3%positive := (1, [Some 41; None; None; None])]> ∅))) [] [].

Lemma tens_greater h a b : _callbacks h = tens_callbacks → greater h a b = (b / 10 <? a / 10).
Proof.
  intros Hc. unfold greater. rewrite Hc. simpl.
  destruct (Z.ltb_spec (a / 10) (b / 10)), (Z.eqb_spec (a / 10) (b / 10)),
    (Z.ltb_spec (b / 10) (a / 10)); (done || lia).
Qed.

Lemma tens_lawful h : _callbacks h = tens_callbacks → LawfulClient h.
Proof.
  intros Hc. split.
  - split; intros *; rewrite !tens_greater by done; lia.
  - intros v. unfold stored. rewrite !tens_greater by done. rewrite Hc. simpl. lia.
Qed.

Lemma demo_inv : heap_inv demo_world demo_heap [12; 31; 25].
Proof.
  exists 1%positive, [Some 12; Some 31; Some 25; None]. split; [done|]. split; try done.
  - split; [simpl; lia|]. intros [|[|[|j]]] x; simpl; rewrite ?lookup_nil; congruence.
  - intros [|[|[|i]]] Hi a b; try lia; simpl; intros; simplify_eq; done.
Qed.

Lemma one_inv : heap_inv demo_world one_heap [40].
Proof.
  exists 2%positive, [Some 40; None; None; None]. split; [done|]. split; try done.
  - split; [simpl; lia|]. intros [|j] x; simpl; rewrite ?lookup_nil; congruence.
  - intros [|i] Hi a b; [lia|]. done.
Qed.

Lemma other_inv : heap_inv demo_world other_heap [41].
Proof.
  exists 3%positive, [Some 41; None; None; None]. split; [done|]. split; try done.
  - split; [simpl; lia|]. intros [|j] x; simpl; rewrite ?lookup_nil; congruence.
  - intros [|i] Hi a b; [lia|]. done.
Qed.

Lemma CFBinaryHeapAddValue_witness :
  ∃ h' w' l', CFBinaryHeapAddValue demo_heap 3 demo_world = Ok (h', w') ∧ heap_inv w' h' l' ∧
    l' ≡ₚ [3; 12; 31; 25] ∧ events w' = [Retain 3].
Proof.
  destruct (CFBinaryHeapAddValue_correct demo_heap demo_world [12; 31; 25] 3
    (tens_lawful demo_heap eq_refl) demo_inv ltac:(by constructor) ltac:(vm_compute; done))
    as (h' & w' & l' & Hrun & Hi & Hp & _ & He & _).
  exists h', w', l'. exact (conj Hrun (conj Hi (conj Hp He))).
Defined.

Lemma CFBinaryHeapRemoveMinimumValue_witness :
  ∃ h' w' l', CFBinaryHeapRemoveMinimumValue demo_heap demo_world = Ok (h', w') ∧
    heap_inv w' h' l' ∧ l' ≡ₚ [31; 25] ∧ events w' = [Release 12].
Proof.
  destruct (CFBinaryHeapRemoveMinimumValue_correct demo_heap demo_world [12; 31; 25]
    (tens_lawful demo_heap eq_refl) demo_inv ltac:(by constructor))
    as (_ & _ & h' & w' & l' & Hrun & Hi & Hp & _ & He & _).
  exists h', w', l'. exact (conj Hrun (conj Hi (conj Hp He))).
Defined.

Lemma CFBinaryHeapGetValues_witness :
  ∃ vs w', CFBinaryHeapGetValues demo_heap demo_world = Ok (vs, w') ∧ vs ≡ₚ [12; 31; 25] ∧
    sorted demo_heap vs ∧ blocks w' = blocks demo_world.
Proof.
  destruct (CFBinaryHeapGetValues_correct demo_heap demo_world [12; 31; 25] 0
    (tens_lawful demo_heap eq_refl) demo_inv ltac:(by constructor) ltac:(vm_compute; done))
    as [(vs & w' & Hrun & Hp & Hs & Hb & He) _].
  exists vs, w'. exact (conj Hrun (conj Hp (conj Hs Hb))).
Defined.

(** 40 and 41 compare equal; the heaps do not. *)
Lemma CFBinaryHeapEqual_witness :
  ∃ vs1 vs2 w',
    __CFBinaryHeapEqual one_heap other_heap demo_world =
      Ok (forallb (pair_passes one_heap) (zip vs1 vs2), w') ∧ vs1 ≡ₚ [40] ∧ vs2 ≡ₚ [41] ∧
    pair_passes one_heap (40, 41) = false ∧ pair_passes one_heap (40, 51) = true.
Proof.
  destruct (CFBinaryHeapEqual_inverted one_heap other_heap demo_world [40] [41]
    (tens_lawful one_heap eq_refl) (tens_lawful other_heap eq_refl) one_inv other_inv
    ltac:(by constructor) ltac:(vm_compute; done) eq_refl eq_refl ltac:(vm_compute; done))
    as (vs1 & vs2 & w' & Hrun & [Hp1 _] & [Hp2 _] & _).
  exists vs1, vs2, w'. exact (conj Hrun (conj Hp1 (conj Hp2 (conj eq_refl eq_refl)))).
Defined.
