(* ===== verification/Bpf.v ===== *)
(** * xnu packet filters: the model

    [src/xnu-792/bsd/net/bpf_filter.c], kernel build: the interpreter
    [bpf_filter], the loads from mbuf chains, and [bpf_validate].

    The packet is either a buffer or, when [buflen] is 0, a chain of mbufs;
    an mbuf is the list of its [m_len] bytes.  A read outside the buffer or
    past an mbuf's bytes, of [mem] outside its [BPF_MEMWORDS] words, or of an
    instruction outside the program is [BAD_ACCESS], as is the use of a buffer
    as an mbuf.  [mem] is not initialised by the code; what it holds at the
    start is an argument.  Shifts by 32 or more are not defined by C: what
    the machine computes is the parameter [WideShift]. *)

From S2P Require Import Prelude.

#[export] Instance outcome_ret : MRet outcome := λ A a, Ok a.
#[export] Instance outcome_bind : MBind outcome := λ A B f m,
  match m with Ok a => f a | Crash r => Crash r end.

Module Bpf.

(** ** Instructions, [bpf.h] *)

Record bpf_insn := Insn { code : Z; jt : Z; jf : Z; k : Z }.

Definition BPF_CLASS (code : Z) : Z := Z.land code 0x07.
Definition BPF_OP (code : Z) : Z := Z.land code 0xf0.

Abbreviation BPF_LD := 0x00.
Abbreviation BPF_LDX := 0x01.
Abbreviation BPF_ST := 0x02.
Abbreviation BPF_STX := 0x03.
Abbreviation BPF_ALU := 0x04.
Abbreviation BPF_JMP := 0x05.
Abbreviation BPF_RET := 0x06.
Abbreviation BPF_MISC := 0x07.
Abbreviation BPF_W := 0x00.
Abbreviation BPF_H := 0x08.
Abbreviation BPF_B := 0x10.
Abbreviation BPF_IMM := 0x00.
Abbreviation BPF_ABS := 0x20.
Abbreviation BPF_IND := 0x40.
Abbreviation BPF_MEM := 0x60.
Abbreviation BPF_LEN := 0x80.
Abbreviation BPF_MSH := 0xa0.
Abbreviation BPF_ADD := 0x00.
Abbreviation BPF_SUB := 0x10.
Abbreviation BPF_MUL := 0x20.
Abbreviation BPF_DIV := 0x30.
Abbreviation BPF_OR := 0x40.
Abbreviation BPF_AND := 0x50.
Abbreviation BPF_LSH := 0x60.
Abbreviation BPF_RSH := 0x70.
Abbreviation BPF_NEG := 0x80.
Abbreviation BPF_JA := 0x00.
Abbreviation BPF_JEQ := 0x10.
Abbreviation BPF_JGT := 0x20.
Abbreviation BPF_JGE := 0x30.
Abbreviation BPF_JSET := 0x40.
Abbreviation BPF_K := 0x00.
Abbreviation BPF_X := 0x08.
Abbreviation BPF_A := 0x10.
Abbreviation BPF_TAX := 0x00.
Abbreviation BPF_TXA := 0x80.
Abbreviation BPF_MEMWORDS := 16.

(** A case label is an "or" of fields that have no bit in common. *)
Definition is_op (code : Z) (fields : list Z) : bool := code =? foldr Z.lor 0 fields.

(** ** Packets *)

Inductive packet :=
| Buffer (bytes : list Z)
| Mbuf (m : list Z) (next : list (list Z)).

Definition byte_at (bytes : list Z) (i : Z) : outcome Z :=
  if i <? 0 then Crash BAD_ACCESS
  else match bytes !! Z.to_nat i with Some b => Ok b | None => Crash BAD_ACCESS end.

(** The 16 and 32 bits at [i], in network byte order. *)
Definition EXTRACT_SHORT (bytes : list Z) (i : Z) : outcome Z :=
  b0 ← byte_at bytes i; b1 ← byte_at bytes (i + 1);
  mret (Z.lor (Z.shiftl b0 8) b1).
Definition EXTRACT_LONG (bytes : list Z) (i : Z) : outcome Z :=
  b0 ← byte_at bytes i; b1 ← byte_at bytes (i + 1);
  b2 ← byte_at bytes (i + 2); b3 ← byte_at bytes (i + 3);
  mret (Z.lor (Z.shiftl b0 24) (Z.lor (Z.shiftl b1 16) (Z.lor (Z.shiftl b2 8) b3))).

(** [while (k >= len) { k -= len; m = m->m_next; ... }]: the mbuf that holds
    offset [k], the mbufs behind it and the offset in it; [None] when the chain
    ends before. *)
Fixpoint MINDEX_next (next : list (list Z)) (k : Z) : option (list Z * list (list Z) * Z) :=
  match next with
  | [] => None
  | m :: next => if k >=? zlen m then MINDEX_next next (k - zlen m) else Some (m, next, k)
  end.

Definition MINDEX (m : list Z) (next : list (list Z)) (k : Z) :
    option (list Z * list (list Z) * Z) :=
  if k >=? zlen m then MINDEX_next next (k - zlen m) else Some (m, next, k).

(** The value, or [None] when [*err] is set to 1. *)
Definition m_xword (m : list Z) (next : list (list Z)) (k : Z) : outcome (option Z) :=
  match MINDEX m next k with
  | None => mret None
  | Some (m, next, k) =>
    let len := zlen m in
    if len - k >=? 4 then v ← EXTRACT_LONG m k; mret (Some v)
    else match next with
    | [] => mret None
    | m0 :: _ =>
      if zlen m0 + len - k <? 4 then mret None
      else if len - k =? 1 then
        c0 ← byte_at m k; n0 ← byte_at m0 0; n1 ← byte_at m0 1; n2 ← byte_at m0 2;
        mret (Some (Z.lor (Z.shiftl c0 24) (Z.lor (Z.shiftl n0 16) (Z.lor (Z.shiftl n1 8) n2))))
      else if len - k =? 2 then
        c0 ← byte_at m k; c1 ← byte_at m (k + 1); n0 ← byte_at m0 0; n1 ← byte_at m0 1;
        mret (Some (Z.lor (Z.shiftl c0 24) (Z.lor (Z.shiftl c1 16) (Z.lor (Z.shiftl n0 8) n1))))
      else
        c0 ← byte_at m k; c1 ← byte_at m (k + 1); c2 ← byte_at m (k + 2); n0 ← byte_at m0 0;
        mret (Some (Z.lor (Z.shiftl c0 24) (Z.lor (Z.shiftl c1 16) (Z.lor (Z.shiftl c2 8) n0))))
    end
  end.

Definition m_xhalf (m : list Z) (next : list (list Z)) (k : Z) : outcome (option Z) :=
  match MINDEX m next k with
  | None => mret None
  | Some (m, next, k) =>
    if zlen m - k >=? 2 then v ← EXTRACT_SHORT m k; mret (Some v)
    else match next with
    | [] => mret None
    | m0 :: _ => c0 ← byte_at m k; n0 ← byte_at m0 0; mret (Some (Z.lor (Z.shiftl c0 8) n0))
    end
  end.

(** The byte at [k] of the chain, [None] for the [return 0] of [MINDEX]. *)
Definition m_byte (m : list Z) (next : list (list Z)) (k : Z) : outcome (option Z) :=
  match MINDEX m next k with
  | None => mret None
  | Some (m, _, k) => b ← byte_at m k; mret (Some b)
  end.

(** [p] as a buffer and as a pointer to an mbuf. *)
Definition as_buffer {A} (p : packet) (f : list Z → outcome A) : outcome A :=
  match p with Buffer bytes => f bytes | Mbuf _ _ => Crash BAD_ACCESS end.
Definition as_mbuf {A} (p : packet) (f : list Z → list (list Z) → outcome A) : outcome A :=
  match p with Mbuf m next => f m next | Buffer _ => Crash BAD_ACCESS end.

(** ** Packet loads: the value, or [None] for [return 0]

    [out] is the test of the case, [extract] the read from the buffer and
    [m_extract] the read from the chain. *)
Definition load (p : packet) (buflen : Z) (out : bool)
    (extract : list Z → outcome Z) (m_extract : list Z → list (list Z) → outcome (option Z)) :
    outcome (option Z) :=
  if out then
    if negb (buflen =? 0) then mret None else as_mbuf p m_extract
  else as_buffer p (λ bytes, v ← extract bytes; mret (Some v)).

Definition ld_w_abs (p : packet) (buflen k : Z) : outcome (option Z) :=
  load p buflen ((k >? buflen) || (4 >? u32 (buflen - k)))
    (λ bytes, EXTRACT_LONG bytes k) (λ m next, m_xword m next k).

(** [merr] is not looked at: the value is 0 when the chain is too short. *)
Definition ld_h_abs (p : packet) (buflen k : Z) : outcome (option Z) :=
  load p buflen ((k >? buflen) || (2 >? u32 (buflen - k)))
    (λ bytes, EXTRACT_SHORT bytes k)
    (λ m next, v ← m_xhalf m next k; mret (Some (default 0 v))).

Definition ld_b_abs (p : packet) (buflen k : Z) : outcome (option Z) :=
  load p buflen (k >=? buflen) (λ bytes, byte_at bytes k) (λ m next, m_byte m next k).

Definition ld_w_ind (p : packet) (buflen X pck : Z) : outcome (option Z) :=
  let k := u32 (X + pck) in
  load p buflen ((pck >? buflen) || (X >? u32 (buflen - pck)) || (4 >? u32 (buflen - k)))
    (λ bytes, EXTRACT_LONG bytes k) (λ m next, m_xword m next k).

Definition ld_h_ind (p : packet) (buflen X pck : Z) : outcome (option Z) :=
  let k := u32 (X + pck) in
  load p buflen ((X >? buflen) || (pck >? u32 (buflen - X)) || (2 >? u32 (buflen - k)))
    (λ bytes, EXTRACT_SHORT bytes k) (λ m next, m_xhalf m next k).

(** In the chain the byte is read as a [char], which is signed. *)
Definition ld_b_ind (p : packet) (buflen X pck : Z) : outcome (option Z) :=
  let k := u32 (X + pck) in
  load p buflen ((pck >=? buflen) || (X >=? u32 (buflen - pck)))
    (λ bytes, byte_at bytes k)
    (λ m next, b ← m_byte m next k; mret (option_map (λ b, u32 (wraps 8 b)) b)).

Definition ldx_msh (p : packet) (buflen k : Z) : outcome (option Z) :=
  b ← load p buflen (k >=? buflen) (λ bytes, byte_at bytes k) (λ m next, m_byte m next k);
  mret (option_map (λ b, Z.shiftl (Z.land b 0xf) 2) b).

(** ** The machine *)

Record regs := Regs { rA : Z; rX : Z; mem : list Z }.

Definition set_A (a : Z) (r : regs) : regs := Regs a (rX r) (mem r).
Definition set_X (x : Z) (r : regs) : regs := Regs (rA r) x (mem r).

(** [mem] holds [int32_t]; loads and stores convert. *)
Definition load_mem (r : regs) (i : Z) : outcome Z :=
  match mem r !! Z.to_nat i with Some v => Ok (u32 v) | None => Crash BAD_ACCESS end.
Definition store_mem (r : regs) (i v : Z) : outcome regs :=
  if i <? zlen (mem r) then Ok (Regs (rA r) (rX r) (<[Z.to_nat i := i32 v]> (mem r)))
  else Crash BAD_ACCESS.

(** The end of an instruction: [continue] with [pc] advanced by 1 and by an
    offset, or [return]. *)
Inductive action :=
| Continue (off : Z) (r : regs)
| Return (v : Z).

#[export] Instance regs_eq_dec : EqDecision regs.
Proof. solve_decision. Defined.
#[export] Instance action_eq_dec : EqDecision action.
Proof. solve_decision. Defined.

Definition continue_with (set : Z → regs → regs) (r : regs) (v : option Z) : action :=
  match v with Some v => Continue 0 (set v r) | None => Return 0 end.

(** What the machine computes for shifts C does not define. *)
Class WideShift := { wide_shl : Z → Z → Z; wide_shr : Z → Z → Z }.

Section Filter.
Context `{WideShift}.

Definition shl32 (a n : Z) : Z := if n <? 32 then u32 (Z.shiftl a n) else u32 (wide_shl a n).
Definition shr32 (a n : Z) : Z := if n <? 32 then Z.shiftr a n else u32 (wide_shr a n).

(** Cases [BPF_LD|...|BPF_ABS], [BPF_IND] and [BPF_LDX|BPF_MSH|BPF_B]. *)
Definition exec_load (p : packet) (buflen : Z) (i : bpf_insn) (r : regs) : option (outcome action) :=
  let c := code i in
  let into set v := Some (v ← v; mret (continue_with set r v)) in
  if is_op c [BPF_LD; BPF_W; BPF_ABS] then into set_A (ld_w_abs p buflen (k i))
  else if is_op c [BPF_LD; BPF_H; BPF_ABS] then into set_A (ld_h_abs p buflen (k i))
  else if is_op c [BPF_LD; BPF_B; BPF_ABS] then into set_A (ld_b_abs p buflen (k i))
  else if is_op c [BPF_LD; BPF_W; BPF_IND] then into set_A (ld_w_ind p buflen (rX r) (k i))
  else if is_op c [BPF_LD; BPF_H; BPF_IND] then into set_A (ld_h_ind p buflen (rX r) (k i))
  else if is_op c [BPF_LD; BPF_B; BPF_IND] then into set_A (ld_b_ind p buflen (rX r) (k i))
  else if is_op c [BPF_LDX; BPF_MSH; BPF_B] then into set_X (ldx_msh p buflen (k i))
  else None.

Definition exec_len (wirelen : Z) (i : bpf_insn) (r : regs) : option (outcome action) :=
  let c := code i in
  if is_op c [BPF_LD; BPF_W; BPF_LEN] then Some (mret (Continue 0 (set_A wirelen r)))
  else if is_op c [BPF_LDX; BPF_W; BPF_LEN] then Some (mret (Continue 0 (set_X wirelen r)))
  else None.

(** Immediates and the scratch memory. *)
Definition exec_move (i : bpf_insn) (r : regs) : option (outcome action) :=
  let c := code i in
  if is_op c [BPF_LD; BPF_IMM] then Some (mret (Continue 0 (set_A (k i) r)))
  else if is_op c [BPF_LDX; BPF_IMM] then Some (mret (Continue 0 (set_X (k i) r)))
  else if is_op c [BPF_LD; BPF_MEM] then Some (v ← load_mem r (k i); mret (Continue 0 (set_A v r)))
  else if is_op c [BPF_LDX; BPF_MEM] then Some (v ← load_mem r (k i); mret (Continue 0 (set_X v r)))
  else if is_op c [BPF_ST] then Some (r ← store_mem r (k i) (rA r); mret (Continue 0 r))
  else if is_op c [BPF_STX] then Some (r ← store_mem r (k i) (rX r); mret (Continue 0 r))
  else None.

Definition exec_misc (i : bpf_insn) (r : regs) : option (outcome action) :=
  let c := code i in
  if is_op c [BPF_MISC; BPF_TAX] then Some (mret (Continue 0 (set_X (rA r) r)))
  else if is_op c [BPF_MISC; BPF_TXA] then Some (mret (Continue 0 (set_A (rX r) r)))
  else None.

Definition exec_jump (i : bpf_insn) (r : regs) : option (outcome action) :=
  let c := code i in
  let '(A, X) := (rA r, rX r) in
  let branch (b : bool) := Some (mret (Continue (if b then jt i else jf i) r)) in
  if is_op c [BPF_JMP; BPF_JA] then Some (mret (Continue (k i) r))
  else if is_op c [BPF_JMP; BPF_JGT; BPF_K] then branch (A >? k i)
  else if is_op c [BPF_JMP; BPF_JGE; BPF_K] then branch (A >=? k i)
  else if is_op c [BPF_JMP; BPF_JEQ; BPF_K] then branch (A =? k i)
  else if is_op c [BPF_JMP; BPF_JSET; BPF_K] then branch (negb (Z.land A (k i) =? 0))
  else if is_op c [BPF_JMP; BPF_JGT; BPF_X] then branch (A >? X)
  else if is_op c [BPF_JMP; BPF_JGE; BPF_X] then branch (A >=? X)
  else if is_op c [BPF_JMP; BPF_JEQ; BPF_X] then branch (A =? X)
  else if is_op c [BPF_JMP; BPF_JSET; BPF_X] then branch (negb (Z.land A X =? 0))
  else None.

(** Division by [pc->k] is not guarded at run time. *)
Definition exec_alu (i : bpf_insn) (r : regs) : option (outcome action) :=
  let c := code i in
  let '(A, X) := (rA r, rX r) in
  let into v := Some (mret (Continue 0 (set_A v r))) in
  if is_op c [BPF_ALU; BPF_ADD; BPF_X] then into (u32 (A + X))
  else if is_op c [BPF_ALU; BPF_SUB; BPF_X] then into (u32 (A - X))
  else if is_op c [BPF_ALU; BPF_MUL; BPF_X] then into (u32 (A * X))
  else if is_op c [BPF_ALU; BPF_DIV; BPF_X] then
    if X =? 0 then Some (mret (Return 0)) else into (A / X)
  else if is_op c [BPF_ALU; BPF_AND; BPF_X] then into (Z.land A X)
  else if is_op c [BPF_ALU; BPF_OR; BPF_X] then into (Z.lor A X)
  else if is_op c [BPF_ALU; BPF_LSH; BPF_X] then into (shl32 A X)
  else if is_op c [BPF_ALU; BPF_RSH; BPF_X] then into (shr32 A X)
  else if is_op c [BPF_ALU; BPF_ADD; BPF_K] then into (u32 (A + k i))
  else if is_op c [BPF_ALU; BPF_SUB; BPF_K] then into (u32 (A - k i))
  else if is_op c [BPF_ALU; BPF_MUL; BPF_K] then into (u32 (A * k i))
  else if is_op c [BPF_ALU; BPF_DIV; BPF_K] then
    if k i =? 0 then Some (Crash UNDEFINED_BEHAVIOR) else into (A / k i)
  else if is_op c [BPF_ALU; BPF_AND; BPF_K] then into (Z.land A (k i))
  else if is_op c [BPF_ALU; BPF_OR; BPF_K] then into (Z.lor A (k i))
  else if is_op c [BPF_ALU; BPF_LSH; BPF_K] then into (shl32 A (k i))
  else if is_op c [BPF_ALU; BPF_RSH; BPF_K] then into (shr32 A (k i))
  else if is_op c [BPF_ALU; BPF_NEG] then into (u32 (- A))
  else None.

Definition exec_ret (i : bpf_insn) (r : regs) : option (outcome action) :=
  let c := code i in
  if is_op c [BPF_RET; BPF_K] then Some (mret (Return (k i)))
  else if is_op c [BPF_RET; BPF_A] then Some (mret (Return (rA r)))
  else None.

(** The [switch]: the labels are different, so their order does not matter;
    the default in the kernel is [return 0]. *)
Definition exec (p : packet) (wirelen buflen : Z) (i : bpf_insn) (r : regs) : outcome action :=
  match exec_ret i r with Some o => o | None =>
  match exec_load p buflen i r with Some o => o | None =>
  match exec_len wirelen i r with Some o => o | None =>
  match exec_move i r with Some o => o | None =>
  match exec_jump i r with Some o => o | None =>
  match exec_alu i r with Some o => o | None =>
  match exec_misc i r with Some o => o | None => mret (Return 0)
  end end end end end end end.

(** [while (1) { ++pc; switch (pc->code) ... }], [pc] counted from the start
    of the program. *)
Fixpoint filter_loop (fuel : nat) (f : list bpf_insn) (p : packet) (wirelen buflen pc : Z)
    (r : regs) : outcome Z :=
  match fuel with
  | O => Crash OUT_OF_FUEL
  | S fuel =>
    match f !! Z.to_nat pc with
    | None => Crash BAD_ACCESS
    | Some i =>
      a ← exec p wirelen buflen i r;
      match a with
      | Return v => mret v
      | Continue off r => filter_loop fuel f p wirelen buflen (pc + off + 1) r
      end
    end
  end.

(** [stack] is what the memory of [mem] holds on entry. *)
Definition bpf_filter (stack : list Z) (pc : option (list bpf_insn)) (p : packet)
    (wirelen buflen : Z) : outcome Z :=
  match pc with
  | None => mret (u32 (-1))
  | Some f => filter_loop (S (length f)) f p wirelen buflen 0 (Regs 0 0 stack)
  end.

End Filter.

(** ** Validation *)

(** The checks on instruction [i]; [false] is [return 0]. *)
Definition insn_ok (i len : Z) (p : bpf_insn) : bool :=
  let from := i + 1 in
  negb
    ((BPF_CLASS (code p) =? BPF_JMP) &&
       (if BPF_OP (code p) =? BPF_JA
        then (from >=? len) || (k p >=? u32 (len - from))
        else (from >=? len) || (jt p >=? len - from) || (jf p >=? len - from))) &&
  negb
    (((BPF_CLASS (code p) =? BPF_ST) ||
      ((BPF_CLASS (code p) =? BPF_LD) && (Z.land (code p) 0xe0 =? BPF_MEM))) &&
     (k p >=? BPF_MEMWORDS)) &&
  negb (is_op (code p) [BPF_ALU; BPF_DIV; BPF_K] && (k p =? 0)).

Fixpoint validate_loop (i len : Z) (rest : list bpf_insn) : bool :=
  match rest with
  | [] => true
  | p :: rest => insn_ok i len p && validate_loop (i + 1) len rest
  end.

(** [len] is the number of instructions of [f]; with none, [f[len - 1]] lies
    before the array. *)
Definition bpf_validate (f : list bpf_insn) : outcome bool :=
  if validate_loop 0 (zlen f) f then
    match last f with
    | Some p => mret (BPF_CLASS (code p) =? BPF_RET)
    | None => Crash BAD_ACCESS
    end
  else mret false.

End Bpf.
