(* ===== verification/BpfSafe.v ===== *)
(** * xnu packet filters: validated programs are safe

    An accepted program whose accesses to [mem] through [X] are in range runs
    to an end on every packet, without an access outside the packet, the
    scratch memory or the program. *)

From Stdlib Require Import ZifyBool.
From S2P Require Import Prelude Bpf.
Import Bpf.

(** ** xnu packet filters: reads from buffers and mbuf chains

    [word_at], [half_at] and [nthb] are the values at an offset of a list of
    bytes.  The reads from a chain give the values of the concatenation of its
    mbufs, for chains in which every mbuf but the first and the last has at
    least three bytes. *)

Definition nthb (l : list Z) (i : Z) : Z := default 0 (l !! Z.to_nat i).
Definition half_at (l : list Z) (i : Z) : Z := Z.lor (Z.shiftl (nthb l i) 8) (nthb l (i + 1)).
Definition word_at (l : list Z) (i : Z) : Z :=
  Z.lor (Z.shiftl (nthb l i) 24) (Z.lor (Z.shiftl (nthb l (i + 1)) 16)
    (Z.lor (Z.shiftl (nthb l (i + 2)) 8) (nthb l (i + 3)))).

Definition is_u32 (z : Z) : Prop := 0 ≤ z < 2 ^ 32.

Lemma u32_bits a : 0 ≤ a → is_u32 a ↔ ∀ l, 32 ≤ l → Z.testbit a l = false.
Proof. intros Ha. rewrite <- Z.bounded_iff_bits_nonneg by lia. unfold is_u32. lia. Qed.

Lemma lor_u32 a b : is_u32 a → is_u32 b → is_u32 (Z.lor a b).
Proof.
  intros Ha Hb. assert (0 ≤ a ∧ 0 ≤ b) as [Ha0 Hb0] by (unfold is_u32 in *; lia).
  apply u32_bits; [by apply Z.lor_nonneg|]. intros l Hl. rewrite Z.lor_spec.
  apply orb_false_iff. by split; apply u32_bits.
Qed.

Lemma land_u32 a b : is_u32 a → 0 ≤ b → is_u32 (Z.land a b).
Proof.
  intros Ha Hb. assert (0 ≤ a) as Ha0 by (unfold is_u32 in *; lia).
  apply u32_bits; [apply Z.land_nonneg; lia|]. intros l Hl. rewrite Z.land_spec.
  apply andb_false_iff. left. by apply u32_bits.
Qed.

Lemma u32_is_u32 z : is_u32 (u32 z).
Proof. apply wrapu_range. lia. Qed.

Lemma shift_byte b n : is_byte b → 0 ≤ n ≤ 24 → is_u32 (Z.shiftl b n).
Proof.
  unfold is_byte, is_u32. intros Hb Hn. rewrite Z.shiftl_mul_pow2 by lia.
  assert (0 < 2 ^ n ≤ 2 ^ 24) by (split; [apply Z.pow_pos_nonneg|apply Z.pow_le_mono_r]; lia). nia.
Qed.

Lemma nthb_byte l i : Forall is_byte l → is_byte (nthb l i).
Proof.
  intros Hl. unfold nthb. destruct (l !! Z.to_nat i) eqn:E; [|unfold is_byte; simpl; lia].
  by eapply Forall_lookup_1 in E.
Qed.

Lemma byte_u32 b : is_byte b → is_u32 b.
Proof. unfold is_byte, is_u32. lia. Qed.

Create HintDb bpf.
#[export] Hint Resolve lor_u32 u32_is_u32 shift_byte nthb_byte byte_u32 : bpf.
#[export] Hint Extern 1 (_ ≤ _ ≤ _) => lia : bpf.

Lemma half_at_u32 l i : Forall is_byte l → is_u32 (half_at l i).
Proof. unfold half_at. auto with bpf. Qed.

Lemma word_at_u32 l i : Forall is_byte l → is_u32 (word_at l i).
Proof. unfold word_at. auto 10 with bpf. Qed.

Lemma byte_at_ok l i : 0 ≤ i < zlen l → byte_at l i = Ok (nthb l i).
Proof.
  intros Hi. unfold byte_at, nthb. destruct (Z.ltb_spec i 0); [lia|].
  destruct (lookup_lt_is_Some_2 l (Z.to_nat i)) as [b ->]; [unfold zlen in Hi; lia|]. done.
Qed.

Lemma extract_short_ok l i : 0 ≤ i → i + 2 ≤ zlen l → EXTRACT_SHORT l i = Ok (half_at l i).
Proof. intros. unfold EXTRACT_SHORT. by rewrite !byte_at_ok by lia. Qed.

Lemma extract_long_ok l i : 0 ≤ i → i + 4 ≤ zlen l → EXTRACT_LONG l i = Ok (word_at l i).
Proof. intros. unfold EXTRACT_LONG. by rewrite !byte_at_ok by lia. Qed.

(** Bytes of a concatenation. *)
Lemma nthb_app_l l1 l2 i : 0 ≤ i < zlen l1 → nthb (l1 ++ l2) i = nthb l1 i.
Proof. unfold nthb, zlen. intros. by rewrite lookup_app_l by lia. Qed.

Lemma nthb_app_r l1 l2 i : zlen l1 ≤ i → nthb (l1 ++ l2) i = nthb l2 (i - zlen l1).
Proof.
  unfold nthb, zlen. intros. rewrite lookup_app_r by lia. do 2 f_equal. lia.
Qed.

(** ** Chains *)

Definition chain (m : list Z) (next : list (list Z)) : list Z := m ++ concat next.

(** What [MINDEX] finds: the bytes [pre] it went past, then [m']. *)
Lemma mindex_next_ok next k :
  0 ≤ k →
  match MINDEX_next next k with
  | Some (m', next', k') => ∃ pre, next = pre ++ m' :: next' ∧ zlen (concat pre) + k' = k ∧
      0 ≤ k' < zlen m'
  | None => zlen (concat next) ≤ k
  end.
Proof.
  revert k. induction next as [|m next IH]; intros k Hk; [done|]. simpl.
  pose proof (zlen_nonneg m). destruct (Z.geb_spec k (zlen m)).
  - specialize (IH (k - zlen m) ltac:(lia)).
    destruct (MINDEX_next next (k - zlen m)) as [[[m' next'] k']|].
    + destruct IH as (pre & -> & Hp & Hk'). exists (m :: pre). split_and!; try done; try lia.
      simpl. rewrite zlen_app. lia.
    + rewrite zlen_app. lia.
  - exists []. split_and!; (done || lia).
Qed.

Lemma mindex_ok m next k :
  0 ≤ k →
  match MINDEX m next k with
  | Some (m', next', k') => ∃ pre, m :: next = pre ++ m' :: next' ∧ zlen (concat pre) + k' = k ∧
      0 ≤ k' < zlen m'
  | None => zlen (chain m next) ≤ k
  end.
Proof. intros Hk. apply (mindex_next_ok (m :: next) k Hk). Qed.

(** Every mbuf after the first is not empty. *)
Definition no_empty (next : list (list Z)) : Prop := Forall (λ m, m ≠ []) next.

(** Every mbuf between the first and the last has three bytes or more. *)
Fixpoint wide (next : list (list Z)) : Prop :=
  match next with
  | [] => True
  | m :: next => (next ≠ [] → 3 ≤ zlen m) ∧ wide next
  end.

Lemma wide_app pre next : wide (pre ++ next) → wide next.
Proof. induction pre as [|m pre IH]; [done|]. simpl. intros [_ Hw]. by apply IH. Qed.

Lemma suffix_next {A} (m : A) next pre m' next' :
  m :: next = pre ++ m' :: next' → ∃ pre', next = pre' ++ next'.
Proof.
  destruct pre as [|x pre]; intros [= -> ->]; [by exists []|].
  exists (pre ++ [m']). by rewrite <- app_assoc.
Qed.

Lemma chain_split m next pre m' next' :
  m :: next = pre ++ m' :: next' → chain m next = concat pre ++ m' ++ concat next'.
Proof.
  intros Heq. unfold chain. change (m ++ concat next) with (concat (m :: next)).
  by rewrite Heq, concat_app.
Qed.

Lemma word_chain pre l k : 0 ≤ k → word_at (pre ++ l) (zlen pre + k) = word_at l k.
Proof.
  intros Hk. unfold word_at. rewrite !nthb_app_r by lia.
  by replace (zlen pre + k - zlen pre) with k by lia; rewrite ?Z.add_simpl_l;
    replace (zlen pre + k + 1 - zlen pre) with (k + 1) by lia;
    replace (zlen pre + k + 2 - zlen pre) with (k + 2) by lia;
    replace (zlen pre + k + 3 - zlen pre) with (k + 3) by lia.
Qed.

Lemma half_chain pre l k : 0 ≤ k → half_at (pre ++ l) (zlen pre + k) = half_at l k.
Proof.
  intros Hk. unfold half_at. rewrite !nthb_app_r by lia.
  by replace (zlen pre + k - zlen pre) with k by lia;
    replace (zlen pre + k + 1 - zlen pre) with (k + 1) by lia.
Qed.

(** Bytes of two mbufs in a row, by offset. *)
Ltac chain_bytes :=
  repeat match goal with
  | |- context [nthb (?a ++ ?b) ?i] =>
    first [ rewrite (nthb_app_l a b i) by lia
          | rewrite (nthb_app_r a b i) by lia ]
  end;
  repeat (f_equal; try lia).

(** The reads from a chain are those of its bytes. *)
Lemma m_xword_ok m next k :
  0 ≤ k → wide next →
  m_xword m next k =
    Ok (if k + 4 <=? zlen (chain m next) then Some (word_at (chain m next) k) else None).
Proof.
  intros Hk Hw. unfold m_xword. pose proof (mindex_ok m next k Hk) as Hm.
  destruct (MINDEX m next k) as [[[m' next'] k']|].
  2: { destruct (Z.leb_spec (k + 4) (zlen (chain m next))); [lia|done]. }
  destruct Hm as (pre & Heq & <- & Hk'). rewrite (chain_split _ _ _ _ _ Heq).
  destruct (suffix_next _ _ _ _ _ Heq) as [pre' Hn]. rewrite Hn in Hw. apply wide_app in Hw.
  rewrite word_chain by lia. rewrite !zlen_app.
  pose proof (zlen_nonneg (concat pre)). pose proof (zlen_nonneg (concat next')).
  destruct (Z.geb_spec (zlen m' - k') 4).
  { rewrite extract_long_ok by lia. destruct (Z.leb_spec (zlen (concat pre) + k' + 4)
      (zlen (concat pre) + (zlen m' + zlen (concat next')))); [|lia].
    unfold word_at. by rewrite !nthb_app_l by lia. }
  destruct next' as [|m0 next'].
  { change (zlen (concat [])) with 0. by destruct (Z.leb_spec (zlen (concat pre) + k' + 4)
      (zlen (concat pre) + (zlen m' + 0))); [lia|]. }
  destruct Hw as [Hw _]. cbn [concat]. rewrite zlen_app.
  pose proof (zlen_nonneg (concat next')).
  destruct (Z.ltb_spec (zlen m0 + zlen m' - k') 4) as [Hshort|Hlong].
  { destruct next' as [|m1 next']; [|specialize (Hw ltac:(done)); lia].
    change (zlen (concat [])) with 0. by destruct (Z.leb_spec (zlen (concat pre) + k' + 4)
      (zlen (concat pre) + (zlen m' + (zlen m0 + 0)))); [lia|]. }
  destruct (Z.leb_spec (zlen (concat pre) + k' + 4)
    (zlen (concat pre) + (zlen m' + (zlen m0 + zlen (concat next'))))); [|lia].
  unfold word_at.
  destruct (Z.eqb_spec (zlen m' - k') 1); [|destruct (Z.eqb_spec (zlen m' - k') 2)].
  all: rewrite !byte_at_ok by lia; cbn [mbind outcome_bind]; do 2 f_equal; chain_bytes.
Qed.

Lemma m_xhalf_ok m next k :
  0 ≤ k → no_empty next →
  m_xhalf m next k =
    Ok (if k + 2 <=? zlen (chain m next) then Some (half_at (chain m next) k) else None).
Proof.
  intros Hk Hw. unfold m_xhalf. pose proof (mindex_ok m next k Hk) as Hm.
  destruct (MINDEX m next k) as [[[m' next'] k']|].
  2: { destruct (Z.leb_spec (k + 2) (zlen (chain m next))); [lia|done]. }
  destruct Hm as (pre & Heq & <- & Hk'). rewrite (chain_split _ _ _ _ _ Heq).
  destruct (suffix_next _ _ _ _ _ Heq) as [pre' Hn].
  rewrite half_chain by lia. rewrite !zlen_app.
  pose proof (zlen_nonneg (concat pre)). pose proof (zlen_nonneg (concat next')).
  destruct (Z.geb_spec (zlen m' - k') 2).
  { rewrite extract_short_ok by lia. destruct (Z.leb_spec (zlen (concat pre) + k' + 2)
      (zlen (concat pre) + (zlen m' + zlen (concat next')))); [|lia].
    unfold half_at. by rewrite !nthb_app_l by lia. }
  destruct next' as [|m0 next'].
  { change (zlen (concat [])) with 0. by destruct (Z.leb_spec (zlen (concat pre) + k' + 2)
      (zlen (concat pre) + (zlen m' + 0))); [lia|]. }
  assert (0 < zlen m0) as Hm0.
  { unfold no_empty in Hw. rewrite Hn, Forall_app in Hw. destruct Hw as [_ Hw].
    inversion_clear Hw as [|?? Hne]. destruct m0; [done|]. rewrite zlen_cons.
    pose proof (zlen_nonneg m0). lia. }
  cbn [concat]. rewrite zlen_app. pose proof (zlen_nonneg (concat next')).
  destruct (Z.leb_spec (zlen (concat pre) + k' + 2)
    (zlen (concat pre) + (zlen m' + (zlen m0 + zlen (concat next'))))); [|lia].
  unfold half_at. rewrite !byte_at_ok by lia; cbn [mbind outcome_bind]; do 2 f_equal; chain_bytes.
Qed.

Lemma m_byte_ok m next k :
  0 ≤ k →
  m_byte m next k =
    Ok (if k <? zlen (chain m next) then Some (nthb (chain m next) k) else None).
Proof.
  intros Hk. unfold m_byte. pose proof (mindex_ok m next k Hk) as Hm.
  destruct (MINDEX m next k) as [[[m' next'] k']|].
  2: { destruct (Z.ltb_spec k (zlen (chain m next))); [lia|done]. }
  destruct Hm as (pre & Heq & <- & Hk'). rewrite (chain_split _ _ _ _ _ Heq), !zlen_app.
  pose proof (zlen_nonneg (concat next')).
  destruct (Z.ltb_spec (zlen (concat pre) + k') (zlen (concat pre) + (zlen m' + zlen (concat next'))));
    [|lia].
  rewrite byte_at_ok by lia. rewrite nthb_app_r by lia. rewrite nthb_app_l by lia.
  cbn. do 3 f_equal. lia.
Qed.

Definition insn_wf (i : bpf_insn) : Prop :=
  0 ≤ code i < 2 ^ 16 ∧ 0 ≤ jt i < 2 ^ 8 ∧ 0 ≤ jf i < 2 ^ 8 ∧ is_u32 (k i).

(** [BPF_STX] and [BPF_LDX|BPF_MEM], which [bpf_validate] does not look at. *)
Definition x_mem_ok (i : bpf_insn) : Prop :=
  is_op (code i) [BPF_STX] || is_op (code i) [BPF_LDX; BPF_MEM] = true → k i < BPF_MEMWORDS.

Definition packet_ok (p : packet) (buflen : Z) : Prop :=
  match p with
  | Buffer bytes => buflen = zlen bytes ∧ 0 < buflen < 2 ^ 32 ∧ Forall is_byte bytes
  | Mbuf m next => buflen = 0 ∧ Forall is_byte (chain m next) ∧ no_empty next
  end.

Definition regs_ok (r : regs) : Prop := is_u32 (rA r) ∧ is_u32 (rX r) ∧ length (mem r) = 16%nat.

(** A value that was read, or the early return. *)
Definition loads (o : outcome (option Z)) : Prop :=
  ∃ v, o = Ok v ∧ ∀ x, v = Some x → is_u32 x.

Lemma packet_load_ok p buflen out extract m_extract :
  packet_ok p buflen →
  (∀ bytes, p = Buffer bytes → out = false → ∃ v, extract bytes = Ok v ∧ is_u32 v) →
  (∀ m next, p = Mbuf m next → out = true ∧ loads (m_extract m next)) →
  loads (load p buflen out extract m_extract).
Proof.
  intros Hp Hb Hm. unfold load. destruct p as [bytes|m next]; simpl in Hp.
  - destruct out.
    + destruct (Z.eqb_spec buflen 0); [lia|]. by exists None.
    + destruct (Hb bytes eq_refl eq_refl) as (v & Hv & Hr). simpl. rewrite Hv.
      exists (Some v). split; [done|]. by intros x [= ->].
  - destruct (Hm m next eq_refl) as [-> Hl]. destruct Hp as [-> _]. done.
Qed.

Lemma sub_bytes (l pre m : list Z) rest : Forall is_byte (pre ++ m ++ rest) → Forall is_byte m.
Proof. rewrite !Forall_app. tauto. Qed.

Lemma chain_byte m next pre m' next' i :
  Forall is_byte (chain m next) → m :: next = pre ++ m' :: next' → is_byte (nthb m' i).
Proof.
  intros Hb Heq. rewrite (chain_split _ _ _ _ _ Heq), !Forall_app in Hb.
  apply nthb_byte. tauto.
Qed.

(** No guard is missing in [m_xword], whatever the lengths of the mbufs. *)
Lemma m_xword_safe m next k :
  0 ≤ k → Forall is_byte (chain m next) → loads (m_xword m next k).
Proof.
  intros Hk Hb. unfold m_xword. pose proof (mindex_ok m next k Hk) as Hm.
  destruct (MINDEX m next k) as [[[m' next'] k']|]; [|by exists None].
  destruct Hm as (pre & Heq & <- & Hk').
  assert (∀ i, is_byte (nthb m' i)) as Hm' by (intros i; by eapply chain_byte).
  destruct (Z.geb_spec (zlen m' - k') 4).
  { rewrite extract_long_ok by lia. eexists. split; [done|]. intros x [= <-].
    unfold word_at. auto 10 with bpf. }
  destruct next' as [|m0 next']; [by exists None|].
  assert (∀ i, is_byte (nthb m0 i)) as Hm0.
  { intros i. apply (chain_byte m next (pre ++ [m']) m0 next'); [done|]. by rewrite <- app_assoc. }
  destruct (Z.ltb_spec (zlen m0 + zlen m' - k') 4); [by exists None|].
  destruct (Z.eqb_spec (zlen m' - k') 1); [|destruct (Z.eqb_spec (zlen m' - k') 2)];
    rewrite !byte_at_ok by lia; (eexists; split; [done|]); intros x [= <-]; auto 10 with bpf.
Qed.

Lemma m_xhalf_safe m next k :
  0 ≤ k → Forall is_byte (chain m next) → no_empty next → loads (m_xhalf m next k).
Proof.
  intros Hk Hb Hn. rewrite m_xhalf_ok by done. eexists. split; [done|].
  intros x. case_match; [|done]. intros [= <-]. by apply half_at_u32.
Qed.

Lemma m_byte_safe m next k : 0 ≤ k → Forall is_byte (chain m next) → loads (m_byte m next k).
Proof.
  intros Hk Hb. rewrite m_byte_ok by done. eexists. split; [done|].
  intros x. case_match; [|done]. intros [= <-]. auto with bpf.
Qed.

Lemma loads_map (f : Z → Z) (o : outcome (option Z)) :
  (∀ x, is_u32 x → is_u32 (f x)) → loads o → loads (v ← o; mret (option_map f v)).
Proof.
  intros Hf (v & -> & Hv). eexists. split; [done|]. intros x Hx. destruct v as [y|]; [|done].
  injection Hx as <-. by apply Hf, Hv.
Qed.

Lemma loads_default (o : outcome (option Z)) : loads o → loads (v ← o; mret (Some (default 0 v))).
Proof.
  intros (v & -> & Hv). eexists. split; [done|]. intros x [= <-]. destruct v; simpl; [by apply Hv|].
  unfold is_u32. lia.
Qed.

(** With [buflen] 0 the tests of the cases send every read to the chain. *)
Lemma abs_out n k : 0 < n → is_u32 k → (k >? 0) || (n >? u32 (0 - k)) = true.
Proof.
  intros Hn Hk. unfold is_u32 in Hk. destruct (Z.gtb_spec k 0); [done|].
  replace k with 0 by lia. change (u32 (0 - 0)) with 0. simpl. lia.
Qed.

Lemma ind_out n a b :
  0 < n → is_u32 a → is_u32 b →
  (a >? 0) || (b >? u32 (0 - a)) || (n >? u32 (0 - u32 (b + a))) = true.
Proof.
  intros Hn Ha Hb. unfold is_u32 in *. destruct (Z.gtb_spec a 0); [done|].
  replace a with 0 by lia. change (u32 (0 - 0)) with 0. destruct (Z.gtb_spec b 0); [done|].
  replace b with 0 by lia. change (u32 (0 - u32 (0 + 0))) with 0. simpl. lia.
Qed.

(** The test of each case is what its read from the buffer needs. *)
Lemma ld_w_abs_safe p buflen k : packet_ok p buflen → is_u32 k → loads (ld_w_abs p buflen k).
Proof.
  intros Hp Hk. apply packet_load_ok; [done| |]; unfold is_u32 in Hk.
  - intros bytes -> Ho. destruct Hp as (Hl & Hr & Hb). exists (word_at bytes k).
    split; [|by apply word_at_u32]. apply extract_long_ok; [lia|]. unfold wrapu in Ho.
    rewrite Z.mod_small in Ho; lia.
  - intros m next ->. destruct Hp as (-> & Hb & Hn). split; [by apply abs_out|by apply m_xword_safe; [lia|]].
Qed.

Lemma ld_h_abs_safe p buflen k : packet_ok p buflen → is_u32 k → loads (ld_h_abs p buflen k).
Proof.
  intros Hp Hk. apply packet_load_ok; [done| |]; unfold is_u32 in Hk.
  - intros bytes -> Ho. destruct Hp as (Hl & Hr & Hb). exists (half_at bytes k).
    split; [|by apply half_at_u32]. apply extract_short_ok; [lia|]. unfold wrapu in Ho.
    rewrite Z.mod_small in Ho; lia.
  - intros m next ->. destruct Hp as (-> & Hb & Hn).
    split; [by apply abs_out|by apply loads_default, m_xhalf_safe; [lia|..]].
Qed.

Lemma ld_b_abs_safe p buflen k : packet_ok p buflen → is_u32 k → loads (ld_b_abs p buflen k).
Proof.
  intros Hp Hk. apply packet_load_ok; [done| |]; unfold is_u32 in Hk.
  - intros bytes -> Ho. destruct Hp as (Hl & Hr & Hb). exists (nthb bytes k).
    split; [apply byte_at_ok; lia|auto with bpf].
  - intros m next ->. destruct Hp as (-> & Hb & Hn). split; [lia|by apply m_byte_safe; [lia|]].
Qed.

(** The indirect reads: past the test, [X + pc->k] has not wrapped. *)
Lemma ld_w_ind_safe p buflen X c :
  packet_ok p buflen → is_u32 X → is_u32 c → loads (ld_w_ind p buflen X c).
Proof.
  intros Hp HX Hc. unfold ld_w_ind. pose proof (u32_is_u32 (X + c)) as Hk.
  apply packet_load_ok; [done| |]; unfold is_u32 in *.
  - intros bytes -> Ho. destruct Hp as (Hl & Hr & Hb). exists (word_at bytes (u32 (X + c))).
    split; [|by apply word_at_u32]. apply extract_long_ok; [lia|]. unfold wrapu in *.
    rewrite (Z.mod_small (buflen - c)) in Ho by lia.
    rewrite (Z.mod_small (X + c)) in * by lia. rewrite Z.mod_small in Ho; lia.
  - intros m next ->. destruct Hp as (-> & Hb & Hn). split; [by apply ind_out|by apply m_xword_safe; [lia|]].
Qed.

Lemma ld_h_ind_safe p buflen X c :
  packet_ok p buflen → is_u32 X → is_u32 c → loads (ld_h_ind p buflen X c).
Proof.
  intros Hp HX Hc. unfold ld_h_ind. pose proof (u32_is_u32 (X + c)) as Hk.
  apply packet_load_ok; [done| |]; unfold is_u32 in *.
  - intros bytes -> Ho. destruct Hp as (Hl & Hr & Hb). exists (half_at bytes (u32 (X + c))).
    split; [|by apply half_at_u32]. apply extract_short_ok; [lia|]. unfold wrapu in *.
    rewrite (Z.mod_small (buflen - X)) in Ho by lia.
    rewrite (Z.mod_small (X + c)) in * by lia. rewrite Z.mod_small in Ho; lia.
  - intros m next ->. destruct Hp as (-> & Hb & Hn). split; [|by apply m_xhalf_safe; [lia|..]].
    rewrite (Z.add_comm X c). by apply ind_out.
Qed.

Lemma ld_b_ind_safe p buflen X c :
  packet_ok p buflen → is_u32 X → is_u32 c → loads (ld_b_ind p buflen X c).
Proof.
  intros Hp HX Hc. unfold ld_b_ind. pose proof (u32_is_u32 (X + c)) as Hk.
  apply packet_load_ok; [done| |]; unfold is_u32 in *.
  - intros bytes -> Ho. destruct Hp as (Hl & Hr & Hb). exists (nthb bytes (u32 (X + c))).
    split; [|by apply byte_u32, nthb_byte]. apply byte_at_ok. unfold wrapu in *.
    rewrite (Z.mod_small (buflen - c)) in Ho by lia. rewrite (Z.mod_small (X + c)) in * by lia. lia.
  - intros m next ->. destruct Hp as (-> & Hb & Hn). split; [lia|].
    apply loads_map; [auto with bpf|]. by apply m_byte_safe; [lia|].
Qed.

Lemma ldx_msh_safe p buflen k : packet_ok p buflen → is_u32 k → loads (ldx_msh p buflen k).
Proof.
  intros Hp Hk. apply loads_map; [|by apply ld_b_abs_safe]. intros x Hx.
  assert (0 ≤ Z.land x 15 < 16) as Hl.
  { change 15 with (Z.ones 4). rewrite Z.land_ones by lia. apply Z.mod_pos_bound. lia. }
  apply shift_byte; unfold is_byte; lia.
Qed.

#[export] Hint Resolve ld_w_abs_safe ld_h_abs_safe ld_b_abs_safe ld_w_ind_safe ld_h_ind_safe
  ld_b_ind_safe ldx_msh_safe : bpf.
