(* ===== verification/BpfCorrect.v ===== *)
(** * xnu packet filters: execution of validated programs *)

From Stdlib Require Import ZifyBool.
From S2P Require Import Prelude Bpf BpfSafe.
Import Bpf.

Section Safe.
Context `{WideShift}.

(** An action that keeps the run inside a program of [len] instructions. *)
Definition good (pc len : Z) (a : action) : Prop :=
  match a with
  | Return v => is_u32 v
  | Continue off r => 0 ≤ off ∧ pc + off + 1 < len ∧ regs_ok r
  end.

(** The next instruction exists, unless this one returns. *)
Definition has_next (pc len : Z) (i : bpf_insn) : Prop :=
  BPF_CLASS (code i) ≠ BPF_RET → pc + 1 < len.

Lemma is_op_eq c fields : is_op c fields = true → c = foldr Z.lor 0 fields.
Proof. apply Z.eqb_eq. Qed.

(** Takes the branches of an [if] over case labels; [E] is the label. *)
Ltac op_case E :=
  match goal with
  | |- context [is_op ?c ?l] =>
    let v := eval vm_compute in (foldr Z.lor 0 l) in
    destruct (is_op c l) eqn:E; [apply is_op_eq in E; change (c = v) in E|clear E]
  end.

Lemma next_of_code pc len i c :
  code i = c → has_next pc len i → BPF_CLASS c ≠ BPF_RET → pc + 1 < len.
Proof. intros <- Hn Hc. by apply Hn. Qed.

Lemma good_set_A pc len r v :
  pc + 1 < len → regs_ok r → is_u32 v → good pc len (Continue 0 (set_A v r)).
Proof. intros Hn (HA & HX & Hm) Hv. split_and!; (done || lia). Qed.

Lemma good_set_X pc len r v :
  pc + 1 < len → regs_ok r → is_u32 v → good pc len (Continue 0 (set_X v r)).
Proof. intros Hn (HA & HX & Hm) Hv. split_and!; (done || lia). Qed.

Lemma loads_good pc len r set o :
  (∀ v, is_u32 v → good pc len (Continue 0 (set v r))) → loads o →
  ∃ a, (v ← o; mret (continue_with set r v)) = Ok a ∧ good pc len a.
Proof.
  intros Hs (v & -> & Hv). eexists. split; [done|]. destruct v as [x|]; simpl.
  - apply Hs. by apply Hv.
  - unfold is_u32. lia.
Qed.

Lemma exec_ret_safe pc len i r o :
  insn_wf i → regs_ok r → exec_ret i r = Some o → ∃ a, o = Ok a ∧ good pc len a.
Proof.
  intros (_ & _ & _ & Hk) (HA & _). unfold exec_ret.
  repeat case_match; intros; simplify_eq; eexists; done.
Qed.

Lemma exec_load_safe pc len p buflen i r o :
  insn_wf i → regs_ok r → packet_ok p buflen → has_next pc len i →
  exec_load p buflen i r = Some o → ∃ a, o = Ok a ∧ good pc len a.
Proof.
  intros (_ & _ & _ & Hk) Hr Hp Hn. pose proof Hr as (HA & HX & _). unfold exec_load.
  do 7 (op_case E; [intros [= <-]; pose proof (next_of_code _ _ _ _ E Hn ltac:(done));
    apply loads_good; [intros; first [by apply good_set_A|by apply good_set_X]|auto with bpf]|]).
  done.
Qed.

Lemma i32_u32 v : is_u32 v → u32 (i32 v) = v.
Proof. unfold is_u32. intros. wrap_lia. Qed.

Lemma load_mem_safe r j :
  regs_ok r → 0 ≤ j < BPF_MEMWORDS → ∃ v, load_mem r j = Ok v ∧ is_u32 v.
Proof.
  intros (_ & _ & Hm) Hj. unfold load_mem.
  destruct (lookup_lt_is_Some_2 (mem r) (Z.to_nat j)) as [v ->]; [lia|]. eauto with bpf.
Qed.

Lemma store_mem_safe r j v :
  regs_ok r → 0 ≤ j < BPF_MEMWORDS → ∃ r', store_mem r j v = Ok r' ∧ regs_ok r'.
Proof.
  intros (HA & HX & Hm) Hj. unfold store_mem, zlen. rewrite Hm.
  destruct (Z.ltb_spec j (Z.of_nat 16)); [|lia]. eexists. split; [done|].
  split_and!; simpl; try done. by rewrite length_insert.
Qed.

(** What the validator's memory check and the condition on [X] say of the
    instructions that use [mem]. *)
Lemma mem_index_ok pc len i :
  insn_wf i → insn_ok pc len i = true → x_mem_ok i →
  code i = 0x60 ∨ code i = 0x61 ∨ code i = 0x02 ∨ code i = 0x03 → 0 ≤ k i < BPF_MEMWORDS.
Proof.
  intros (_ & _ & _ & Hk) Hok Hx Hc. unfold is_u32 in Hk. unfold insn_ok in Hok.
  apply andb_true_iff in Hok as [Hok _]. apply andb_true_iff in Hok as [_ Hok].
  unfold x_mem_ok in Hx. destruct (Z.geb_spec (k i) BPF_MEMWORDS) as [Hge|Hlt]; [exfalso|lia].
  destruct Hc as [Hc|[Hc|[Hc|Hc]]]; rewrite Hc in Hok, Hx;
    first [discriminate Hok|specialize (Hx eq_refl); lia].
Qed.

(** Instructions that only set a register. *)
Ltac set_cases :=
  match goal with Hn : has_next _ _ _ |- _ =>
  repeat (let E := fresh in op_case E; [intros [= <-]; pose proof (next_of_code _ _ _ _ E Hn ltac:(done));
    eexists; split; [done|]; first [by apply good_set_A|by apply good_set_X]|]) end.

Lemma exec_len_safe pc len wirelen i r o :
  regs_ok r → is_u32 wirelen → has_next pc len i → exec_len wirelen i r = Some o →
  ∃ a, o = Ok a ∧ good pc len a.
Proof. intros Hr Hw Hn. unfold exec_len. by set_cases. Qed.

Lemma exec_misc_safe pc len i r o :
  regs_ok r → has_next pc len i → exec_misc i r = Some o → ∃ a, o = Ok a ∧ good pc len a.
Proof. intros Hr Hn. pose proof Hr as (HA & HX & _). unfold exec_misc. by set_cases. Qed.

Lemma exec_move_safe pc len i r o :
  insn_wf i → regs_ok r → insn_ok pc len i = true → x_mem_ok i →
  has_next pc len i → exec_move i r = Some o → ∃ a, o = Ok a ∧ good pc len a.
Proof.
  intros Hi Hr Hok Hx Hn. pose proof Hi as (_ & _ & _ & Hk).
  pose proof (mem_index_ok _ _ _ Hi Hok Hx) as Hmem. unfold exec_move.
  do 2 (op_case E; [intros [= <-]; pose proof (next_of_code _ _ _ _ E Hn ltac:(done));
    eexists; split; [done|]; first [by apply good_set_A|by apply good_set_X]|]).
  do 2 (op_case E; [intros [= <-]; pose proof (next_of_code _ _ _ _ E Hn ltac:(done));
    destruct (load_mem_safe r (k i) Hr (Hmem ltac:(tauto))) as (v & -> & Hv);
    eexists; split; [done|]; first [by apply good_set_A|by apply good_set_X]|]).
  do 2 (op_case E; [intros [= <-]; pose proof (next_of_code _ _ _ _ E Hn ltac:(done));
    match goal with |- context [store_mem r (k i) ?v] =>
      destruct (store_mem_safe r (k i) v Hr (Hmem ltac:(tauto))) as (r' & -> & Hr') end;
    eexists; split; [done|]; split_and!; (done || lia)|]).
  done.
Qed.

(** The offsets of a jump stay inside the program. *)
Lemma jump_offsets pc len i :
  insn_wf i → insn_ok pc len i = true → 0 ≤ pc → len < 2 ^ 31 → BPF_CLASS (code i) = BPF_JMP →
  if BPF_OP (code i) =? BPF_JA then 0 ≤ k i ∧ pc + k i + 1 < len
  else ∀ b : bool, 0 ≤ (if b then jt i else jf i) ∧ pc + (if b then jt i else jf i) + 1 < len.
Proof.
  intros (_ & Ht & Hf & Hk) Hok Hpc Hlen Hc. unfold is_u32 in Hk. unfold insn_ok in Hok.
  apply andb_true_iff in Hok as [Hok _]. apply andb_true_iff in Hok as [Hok _].
  rewrite Hc in Hok. change (BPF_JMP =? BPF_JMP) with true in Hok. cbn [andb] in Hok.
  destruct (BPF_OP (code i) =? BPF_JA).
  - unfold wrapu in Hok. destruct (Z.geb_spec (pc + 1) len); [done|].
    rewrite Z.mod_small in Hok by lia. lia.
  - intros []; lia.
Qed.

Lemma exec_jump_safe pc len i r o :
  insn_wf i → regs_ok r → insn_ok pc len i = true → 0 ≤ pc → len < 2 ^ 31 →
  exec_jump i r = Some o → ∃ a, o = Ok a ∧ good pc len a.
Proof.
  intros Hi Hr Hok Hpc Hlen. unfold exec_jump.
  do 9 (op_case E; [intros [= <-]; eexists; split; [done|];
    pose proof (jump_offsets pc len i Hi Hok Hpc Hlen) as Hj; rewrite E in Hj;
    specialize (Hj eq_refl); cbn in Hj; unfold good; destruct_and?; split_and!;
    try done; apply Hj|]).
  done.
Qed.

Lemma shift_u32 a n : is_u32 a → 0 ≤ n → is_u32 (shl32 a n) ∧ is_u32 (shr32 a n).
Proof.
  intros Ha Hn. unfold shl32, shr32. destruct (n <? 32); [|auto with bpf].
  split; [auto with bpf|]. unfold is_u32 in *. rewrite Z.shiftr_div_pow2 by done.
  assert (0 < 2 ^ n) by (apply Z.pow_pos_nonneg; lia).
  split; [apply Z.div_pos; lia|]. apply Z.div_lt_upper_bound; [lia|]. nia.
Qed.

Lemma div_u32 a b : is_u32 a → 0 < b → is_u32 (a / b).
Proof.
  unfold is_u32. intros Ha Hb. split; [apply Z.div_pos; lia|].
  apply Z.div_lt_upper_bound; [lia|]. nia.
Qed.

Lemma exec_alu_safe pc len i r o :
  insn_wf i → regs_ok r → insn_ok pc len i = true → has_next pc len i →
  exec_alu i r = Some o → ∃ a, o = Ok a ∧ good pc len a.
Proof.
  intros (_ & _ & _ & Hk) Hr Hok Hn. pose proof Hr as (HA & HX & _).
  assert (0 ≤ rX r ∧ 0 ≤ k i) as [HX0 Hk0] by (unfold is_u32 in *; lia).
  unfold insn_ok in Hok. apply andb_true_iff in Hok as [_ Hdiv]. unfold exec_alu.
  do 3 (op_case E; [intros [= <-]; pose proof (next_of_code _ _ _ _ E Hn ltac:(done));
    eexists; split; [done|]; apply good_set_A; auto using land_u32 with bpf|]).
  op_case E.
  { pose proof (next_of_code _ _ _ _ E Hn ltac:(done)). destruct (Z.eqb_spec (rX r) 0).
    - intros [= <-]. eexists. split; [done|]. unfold good, is_u32. lia.
    - intros [= <-]. eexists. split; [done|]. apply good_set_A; [done..|]. apply div_u32; [done|lia]. }
  do 7 (op_case E; [intros [= <-]; pose proof (next_of_code _ _ _ _ E Hn ltac:(done));
    eexists; split; [done|]; apply good_set_A; auto using land_u32 with bpf; by apply shift_u32|]).
  op_case E.
  { pose proof (next_of_code _ _ _ _ E Hn ltac:(done)).
    destruct (Z.eqb_spec (k i) 0); [done|].
    intros [= <-]. eexists. split; [done|]. apply good_set_A; [done..|]. apply div_u32; [done|lia]. }
  do 5 (op_case E; [intros [= <-]; pose proof (next_of_code _ _ _ _ E Hn ltac:(done));
    eexists; split; [done|]; apply good_set_A; auto using land_u32 with bpf; by apply shift_u32|]).
  done.
Qed.

Lemma exec_safe pc len p wirelen buflen i r :
  insn_wf i → x_mem_ok i → insn_ok pc len i = true → has_next pc len i → 0 ≤ pc → len < 2 ^ 31 →
  packet_ok p buflen → is_u32 wirelen → regs_ok r →
  ∃ a, exec p wirelen buflen i r = Ok a ∧ good pc len a.
Proof.
  intros. unfold exec.
  destruct (exec_ret i r) eqn:?; [by eapply exec_ret_safe|].
  destruct (exec_load p buflen i r) eqn:?; [by eapply exec_load_safe|].
  destruct (exec_len wirelen i r) eqn:?; [by eapply exec_len_safe|].
  destruct (exec_move i r) eqn:?; [by eapply exec_move_safe|].
  destruct (exec_jump i r) eqn:?; [by eapply exec_jump_safe|].
  destruct (exec_alu i r) eqn:?; [by eapply exec_alu_safe|].
  destruct (exec_misc i r) eqn:?; [by eapply exec_misc_safe|].
  eexists. split; [done|]. unfold good, is_u32. lia.
Qed.

(** ** Validated programs *)

Lemma validate_loop_lookup rest j len n i :
  validate_loop j len rest = true → rest !! n = Some i → insn_ok (j + Z.of_nat n) len i = true.
Proof.
  revert j n. induction rest as [|p rest IH]; intros j n; [done|]. simpl.
  intros [Hp Hr]%andb_true_iff Hn. destruct n as [|n]; simpl in Hn.
  - injection Hn as <-. by rewrite Z.add_0_r.
  - replace (j + Z.of_nat (S n)) with (j + 1 + Z.of_nat n) by lia. by apply IH.
Qed.

Lemma validated f :
  bpf_validate f = Ok true →
  ∀ n i, f !! n = Some i → insn_ok (Z.of_nat n) (zlen f) i = true ∧ has_next (Z.of_nat n) (zlen f) i.
Proof.
  unfold bpf_validate. destruct (validate_loop 0 (zlen f) f) eqn:Hv; [|done].
  destruct (last f) as [q|] eqn:Hl; [|done]. intros Hr n i Hi.
  split; [by apply (validate_loop_lookup f 0)|]. intros Hc. apply lookup_lt_Some in Hi as Hlt.
  destruct (decide (S n = length f)) as [Hn|Hn]; [|unfold zlen; lia].
  rewrite last_lookup, <- Hn in Hl. simpl in Hl. simplify_eq.
  exfalso. apply Hc. injection Hr as Hr. lia.
Qed.

Lemma filter_loop_safe f p wirelen buflen fuel pc r :
  Forall insn_wf f → Forall x_mem_ok f → bpf_validate f = Ok true → zlen f < 2 ^ 31 →
  packet_ok p buflen → is_u32 wirelen →
  0 ≤ pc < zlen f → zlen f < Z.of_nat fuel + pc → regs_ok r →
  ∃ v, filter_loop fuel f p wirelen buflen pc r = Ok v ∧ is_u32 v.
Proof.
  intros Hwf Hx Hval Hlen Hp Hw. revert pc r.
  induction fuel as [|fuel IH]; intros pc r Hpc Hf Hr; [lia|]. cbn [filter_loop].
  destruct (lookup_lt_is_Some_2 f (Z.to_nat pc)) as [i Hi]; [unfold zlen in Hpc; lia|]. rewrite Hi.
  destruct (validated f Hval _ _ Hi) as [Hok Hn]. rewrite Z2Nat.id in Hok, Hn by lia.
  destruct (exec_safe pc (zlen f) p wirelen buflen i r) as (a & -> & Ha); try done; try lia.
  { by eapply Forall_lookup_1 in Hi. } { by eapply Forall_lookup_1 in Hi. }
  cbn. destruct a as [off r'|v]; [|by eexists].
  destruct Ha as (Hoff & Hlt & Hr'). apply IH; (done || lia).
Qed.

(** C23. A program that [bpf_validate] accepts, and that does not use scratch
    words of [X] past the last ([x_mem_ok]), runs to an end on every packet in a buffer
    that is not empty or in a chain of mbufs without an empty one after the first
    ([packet_ok]), and returns a length: it never reads outside the packet or the
    program, never touches the stack outside [mem], never divides by zero. *)
Theorem bpf_validate_safe stack f p wirelen buflen :
  bpf_validate f = Ok true → Forall insn_wf f → Forall x_mem_ok f → zlen f < 2 ^ 31 →
  packet_ok p buflen → is_u32 wirelen → length stack = 16%nat →
  ∃ v, bpf_filter stack (Some f) p wirelen buflen = Ok v ∧ is_u32 v.
Proof.
  intros Hval Hwf Hx Hlen Hp Hw Hs. apply filter_loop_safe; try done.
  - destruct f as [|i f]; [done|]. rewrite zlen_cons. pose proof (zlen_nonneg f). lia.
  - unfold zlen. lia.
Qed.

End Safe.

(** ** xnu packet filters: buffers and mbuf chains

    A filter is run on the same bytes in a buffer or in a chain of mbufs.  What
    the run on the buffer accepts, the run on the chain accepts with the same
    length; in the other direction the two code paths differ. *)

(** The bytes of the chain fit a buffer, and every word of the packet lies in
    at most two mbufs. *)
Record same_packet (m : list Z) (next : list (list Z)) (bytes : list Z) : Prop := {
  same_bytes : bytes = chain m next;
  same_range : 0 < zlen bytes < 2 ^ 32;
  same_is_byte : Forall is_byte bytes;
  same_no_empty : no_empty next;
  same_wide : wide next
}.

Lemma same_buffer_ok m next bytes :
  same_packet m next bytes → packet_ok (Buffer bytes) (zlen bytes).
Proof. by intros []. Qed.

(** A value read from the buffer is read from the chain. *)
Definition agrees (buffer mbufs : outcome (option Z)) : Prop :=
  ∀ v, buffer = Ok (Some v) → mbufs = Ok (Some v).

Lemma load_agrees m next bytes out out' extract m_extract :
  same_packet m next bytes → out' = true →
  (out = false → ∃ v, extract bytes = Ok v ∧ m_extract m next = Ok (Some v)) →
  agrees (load (Buffer bytes) (zlen bytes) out extract m_extract)
         (load (Mbuf m next) 0 out' extract m_extract).
Proof.
  intros Hs -> Hx v. unfold load. simpl. destruct out.
  - destruct (Z.eqb_spec (zlen bytes) 0); [destruct Hs; lia|done].
  - destruct (Hx eq_refl) as (x & -> & ->). by intros [= ->].
Qed.

Section Loads.
Context (m : list Z) (next : list (list Z)) (bytes : list Z) (Hs : same_packet m next bytes).

Abbreviation buffer := (Buffer bytes).
Abbreviation mbufs := (Mbuf m next).

Lemma word_agrees k :
  0 ≤ k → k + 4 ≤ zlen bytes →
  EXTRACT_LONG bytes k = Ok (word_at bytes k) ∧ m_xword m next k = Ok (Some (word_at bytes k)).
Proof.
  destruct Hs as [-> _ _ _ Hw]. intros Hk Hl. rewrite extract_long_ok, m_xword_ok by done.
  split; [done|]. by destruct (Z.leb_spec (k + 4) (zlen (chain m next))); [|lia].
Qed.

Lemma half_agrees k :
  0 ≤ k → k + 2 ≤ zlen bytes →
  EXTRACT_SHORT bytes k = Ok (half_at bytes k) ∧ m_xhalf m next k = Ok (Some (half_at bytes k)).
Proof.
  destruct Hs as [-> _ _ Hw _]. intros Hk Hl. rewrite extract_short_ok, m_xhalf_ok by done.
  split; [done|]. by destruct (Z.leb_spec (k + 2) (zlen (chain m next))); [|lia].
Qed.

Lemma byte_agrees k :
  0 ≤ k < zlen bytes →
  byte_at bytes k = Ok (nthb bytes k) ∧ m_byte m next k = Ok (Some (nthb bytes k)).
Proof.
  destruct Hs as [-> _ _ _ _]. intros Hk. rewrite byte_at_ok, m_byte_ok by lia.
  split; [done|]. by destruct (Z.ltb_spec k (zlen (chain m next))); [|lia].
Qed.

Lemma ld_w_abs_agrees k : is_u32 k → agrees (ld_w_abs buffer (zlen bytes) k) (ld_w_abs mbufs 0 k).
Proof.
  intros Hk. apply load_agrees; [done|by apply abs_out|]. intros Ho. exists (word_at bytes k).
  destruct (same_range _ _ _ Hs). unfold is_u32, wrapu in *.
  rewrite Z.mod_small in Ho by lia. apply word_agrees; lia.
Qed.

Lemma ld_h_abs_agrees k : is_u32 k → agrees (ld_h_abs buffer (zlen bytes) k) (ld_h_abs mbufs 0 k).
Proof.
  intros Hk. apply load_agrees; [done|by apply abs_out|]. intros Ho. exists (half_at bytes k).
  destruct (same_range _ _ _ Hs). unfold is_u32, wrapu in *.
  rewrite Z.mod_small in Ho by lia. destruct (half_agrees k) as [-> ->]; [lia..|done].
Qed.

Lemma ld_b_abs_agrees k : is_u32 k → agrees (ld_b_abs buffer (zlen bytes) k) (ld_b_abs mbufs 0 k).
Proof.
  intros Hk. unfold is_u32 in Hk. apply load_agrees; [done|lia|]. intros Ho.
  exists (nthb bytes k). apply byte_agrees. lia.
Qed.

Lemma ld_w_ind_agrees X c :
  is_u32 X → is_u32 c → agrees (ld_w_ind buffer (zlen bytes) X c) (ld_w_ind mbufs 0 X c).
Proof.
  intros HX Hc. apply load_agrees; [done|by apply ind_out|]. intros Ho.
  exists (word_at bytes (u32 (X + c))). destruct (same_range _ _ _ Hs). unfold is_u32, wrapu in *.
  rewrite (Z.mod_small (zlen bytes - c)) in Ho by lia.
  rewrite (Z.mod_small (X + c)) in * by lia. rewrite Z.mod_small in Ho by lia. apply word_agrees; lia.
Qed.

Lemma ld_h_ind_agrees X c :
  is_u32 X → is_u32 c → agrees (ld_h_ind buffer (zlen bytes) X c) (ld_h_ind mbufs 0 X c).
Proof.
  intros HX Hc. apply load_agrees; [done|rewrite (Z.add_comm X c); by apply ind_out|]. intros Ho.
  exists (half_at bytes (u32 (X + c))). destruct (same_range _ _ _ Hs). unfold is_u32, wrapu in *.
  rewrite (Z.mod_small (zlen bytes - X)) in Ho by lia.
  rewrite (Z.mod_small (X + c)) in * by lia. rewrite Z.mod_small in Ho by lia. apply half_agrees; lia.
Qed.

Lemma ldx_msh_agrees k : is_u32 k → agrees (ldx_msh buffer (zlen bytes) k) (ldx_msh mbufs 0 k).
Proof.
  intros Hk v Hv. unfold ldx_msh in *. pose proof (ld_b_abs_agrees k Hk) as Ha.
  unfold agrees, ld_b_abs in Ha. destruct (load buffer _ _ _ _) as [[x|]|]; try done.
  by rewrite (Ha x eq_refl).
Qed.

Context `{WideShift}.

Lemma continue_agrees set r o o' a :
  agrees o o' → (v ← o; mret (continue_with set r v)) = Ok a → a ≠ Return 0 →
  (v ← o'; mret (continue_with set r v)) = Ok a.
Proof.
  intros Ha Ho Hne. destruct o as [[v|]|]; [by rewrite (Ha v eq_refl)|..].
  - cbn in Ho. by injection Ho as <-.
  - done.
Qed.

(** [BPF_LD|BPF_B|BPF_IND] reads a signed character from the chain. *)
Definition no_b_ind (i : bpf_insn) : Prop := is_op (code i) [BPF_LD; BPF_B; BPF_IND] = false.

Lemma exec_load_agrees i r o a :
  insn_wf i → no_b_ind i → is_u32 (rX r) →
  exec_load buffer (zlen bytes) i r = Some o → o = Ok a → a ≠ Return 0 →
  exec_load mbufs 0 i r = Some (Ok a).
Proof.
  intros (_ & _ & _ & Hk) Hb HX. unfold exec_load. rewrite Hb. unfold is_u32 in Hk.
  repeat (case_match; [intros [= <-] Ho Hne; f_equal; eapply continue_agrees; [|done|done];
    first [by apply ld_w_abs_agrees|by apply ld_h_abs_agrees|by apply ld_b_abs_agrees
          |by apply ld_w_ind_agrees|by apply ld_h_ind_agrees|by apply ldx_msh_agrees]|]).
  done.
Qed.

Lemma exec_load_none i r :
  exec_load buffer (zlen bytes) i r = None → exec_load mbufs 0 i r = None.
Proof. unfold exec_load. by repeat case_match. Qed.

Lemma exec_agrees wirelen i r a :
  insn_wf i → no_b_ind i → is_u32 (rX r) →
  exec buffer wirelen (zlen bytes) i r = Ok a → a ≠ Return 0 →
  exec mbufs wirelen 0 i r = Ok a.
Proof.
  intros Hi Hb HX Ho Hne. unfold exec in *. destruct (exec_ret i r); [done|].
  destruct (exec_load buffer (zlen bytes) i r) as [o|] eqn:El.
  - by rewrite (exec_load_agrees i r o a).
  - by rewrite exec_load_none.
Qed.

Lemma filter_loop_agrees f wirelen fuel pc r v :
  Forall insn_wf f → Forall x_mem_ok f → Forall no_b_ind f → bpf_validate f = Ok true →
  zlen f < 2 ^ 31 → is_u32 wirelen → 0 ≤ pc < zlen f → regs_ok r → v ≠ 0 →
  filter_loop fuel f buffer wirelen (zlen bytes) pc r = Ok v →
  filter_loop fuel f mbufs wirelen 0 pc r = Ok v.
Proof.
  intros Hwf Hx Hb Hval Hlen Hw Hpc Hr Hv. revert pc r Hpc Hr.
  induction fuel as [|fuel IH]; intros pc r Hpc Hr; [done|]. cbn [filter_loop].
  destruct (f !! Z.to_nat pc) as [i|] eqn:Hi; [|done].
  destruct (validated f Hval _ _ Hi) as [Hok Hn]. rewrite Z2Nat.id in Hok, Hn by lia.
  assert (insn_wf i ∧ x_mem_ok i ∧ no_b_ind i) as (? & ? & ?)
    by (split_and!; by eapply Forall_lookup_1 in Hi).
  destruct (exec_safe pc (zlen f) buffer wirelen (zlen bytes) i r) as (a & Ha & Hg);
    try done; try lia; [by eapply same_buffer_ok|].
  rewrite Ha. cbn. destruct (decide (a = Return 0)) as [->|Hne]; [by intros [= <-]|].
  rewrite (exec_agrees wirelen i r a) by (try done; by destruct Hr as (_ & ? & _)).
  cbn. destruct a as [off r'|x]; [|done]. destruct Hg as (Hoff & Hlt & Hr'). apply IH; (done || lia).
Qed.

End Loads.

Section Correct.
Context `{WideShift}.

(** C37. Acceptance does not depend on how the packet is stored: when a
    validated filter without [BPF_LD|BPF_B|BPF_IND] accepts the bytes in a
    buffer, it accepts the chain of mbufs that holds them, with the same
    length.  The scratch words of [X] are in range ([x_mem_ok]), no mbuf after the first is
    empty, and those between the first and the last have three bytes or more
    ([same_packet]). *)
Theorem bpf_filter_mbuf_accepts stack f m next bytes wirelen v :
  same_packet m next bytes → bpf_validate f = Ok true →
  Forall insn_wf f → Forall x_mem_ok f → Forall no_b_ind f → zlen f < 2 ^ 31 →
  is_u32 wirelen → length stack = 16%nat → v ≠ 0 →
  bpf_filter stack (Some f) (Buffer bytes) wirelen (zlen bytes) = Ok v →
  bpf_filter stack (Some f) (Mbuf m next) wirelen 0 = Ok v.
Proof.
  intros Hs Hval Hwf Hx Hb Hlen Hw Hst Hv. apply filter_loop_agrees; try done.
  destruct f as [|i f]; [done|]. rewrite zlen_cons. pose proof (zlen_nonneg f). lia.
Qed.

(** ** What the code gets wrong *)

Definition stack0 : list Z := replicate 16 0.

(** [bpf_validate] accepts programs that write or read the kernel's stack
    outside [mem]: it checks the index of [BPF_ST] and [BPF_LD|BPF_MEM] but
    not that of [BPF_STX] and [BPF_LDX|BPF_MEM]. *)
Theorem bpf_validate_misses_x pck :
  BPF_MEMWORDS ≤ pck < 2 ^ 32 →
  let store := [Insn 0x03 0 0 pck; Insn 0x06 0 0 0] in
  let load := [Insn 0x61 0 0 pck; Insn 0x06 0 0 0] in
  bpf_validate store = Ok true ∧ bpf_validate load = Ok true ∧
  ∀ p wirelen buflen, bpf_filter stack0 (Some store) p wirelen buflen = Crash BAD_ACCESS ∧
                      bpf_filter stack0 (Some load) p wirelen buflen = Crash BAD_ACCESS.
Proof.
  intros Hk store load. split_and!; [done..|]. intros p wirelen buflen. split.
  - assert (store_mem (Regs 0 0 stack0) pck 0 = Crash BAD_ACCESS) as Hm.
    { unfold store_mem. change (zlen (mem _)) with 16. by destruct (Z.ltb_spec pck 16); [lia|]. }
    change (((r ← store_mem (Regs 0 0 stack0) pck 0; mret (Continue 0 r)) ≫= λ a,
      match a with Return v => mret v | Continue off r =>
        filter_loop 2 store p wirelen buflen (0 + off + 1) r end) = Crash BAD_ACCESS).
    by rewrite Hm.
  - assert (load_mem (Regs 0 0 stack0) pck = Crash BAD_ACCESS) as Hm.
    { unfold load_mem. rewrite lookup_ge_None_2; [done|]. change (length (mem _)) with 16%nat. lia. }
    change (((v ← load_mem (Regs 0 0 stack0) pck; mret (Continue 0 (set_X v (Regs 0 0 stack0)))) ≫= λ a,
      match a with Return v => mret v | Continue off r =>
        filter_loop 2 load p wirelen buflen (0 + off + 1) r end) = Crash BAD_ACCESS).
    by rewrite Hm.
Qed.

(** Reads from a chain that differ from reads of the same bytes in a
    buffer: a half word past the end reads as 0 where the buffer rejects the
    packet; an indirect offset that wraps around reads at the wrapped offset;
    a byte above 127 read with [BPF_LD|BPF_B|BPF_IND] is sign-extended; and a
    half word that starts in the last byte before an empty mbuf is read past
    that mbuf's data. *)
Theorem bpf_mbuf_reads_differ :
  let accept := Insn 0x06 0 0 1 in
  let bytes := [0x90; 2; 3; 4] in
  let half := [Insn 0x28 0 0 100; accept] in
  let wrapped := [Insn 0x01 0 0 (2 ^ 32 - 1); Insn 0x40 0 0 1; accept] in
  let signed := [Insn 0x50 0 0 0; Insn 0x16 0 0 0] in
  bpf_validate half = Ok true ∧ bpf_validate wrapped = Ok true ∧ bpf_validate signed = Ok true ∧
  (bpf_filter stack0 (Some half) (Buffer bytes) 4 4 = Ok 0 ∧
   bpf_filter stack0 (Some half) (Mbuf bytes []) 4 0 = Ok 1) ∧
  (bpf_filter stack0 (Some wrapped) (Buffer bytes) 4 4 = Ok 0 ∧
   bpf_filter stack0 (Some wrapped) (Mbuf bytes []) 4 0 = Ok 1) ∧
  (bpf_filter stack0 (Some signed) (Buffer bytes) 4 4 = Ok 0x90 ∧
   bpf_filter stack0 (Some signed) (Mbuf bytes []) 4 0 = Ok 0xffffff90) ∧
  bpf_filter stack0 (Some [Insn 0x28 0 0 3; accept]) (Mbuf bytes [[]; [5]]) 5 0 = Crash BAD_ACCESS.
Proof. by vm_compute. Qed.

End Correct.

(** ** Witnesses *)

#[local] Instance shift_zero : WideShift := { wide_shl _ _ := 0; wide_shr _ _ := 0 }.

(** Accept 96 bytes of packets whose half word at offset 2 is 0x800. *)
Definition ip_filter : list bpf_insn :=
  [Insn 0x28 0 0 2; Insn 0x15 0 1 0x800; Insn 0x06 0 0 96; Insn 0x06 0 0 0].

Lemma ip_filter_wf : Forall insn_wf ip_filter ∧ Forall x_mem_ok ip_filter ∧ Forall no_b_ind ip_filter.
Proof.
  unfold ip_filter, insn_wf, x_mem_ok, no_b_ind, is_u32.
  split_and!; repeat constructor; cbn; (lia || done).
Qed.

Lemma ip_packet : same_packet [1; 2; 8] [[0; 5; 6]; [7]] [1; 2; 8; 0; 5; 6; 7].
Proof.
  split; try done.
  - repeat constructor; unfold is_byte; lia.
  - repeat constructor; done.
Qed.

Lemma bpf_validate_safe_witness :
  ∃ v, bpf_filter stack0 (Some ip_filter) (Mbuf [1; 2; 8] [[0; 5; 6]; [7]]) 7 0 = Ok v ∧ is_u32 v.
Proof.
  destruct ip_filter_wf as (Hwf & Hx & _). apply (bpf_validate_safe stack0 ip_filter); try done.
  destruct ip_packet as [-> _ Hb Hn _]. done.
Defined.

Lemma bpf_filter_mbuf_accepts_witness :
  bpf_filter stack0 (Some ip_filter) (Mbuf [1; 2; 8] [[0; 5; 6]; [7]]) 7 0 = Ok 96.
Proof.
  destruct ip_filter_wf as (Hwf & Hx & Hb).
  apply (bpf_filter_mbuf_accepts stack0 ip_filter _ _ [1; 2; 8; 0; 5; 6; 7] 7 96 ip_packet); try done.
Defined.

Lemma bpf_validate_misses_x_witness :
  bpf_filter stack0 (Some [Insn 0x03 0 0 1000000; Insn 0x06 0 0 0]) (Buffer [0]) 1 1 = Crash BAD_ACCESS.
Proof.
  destruct (bpf_validate_misses_x 1000000 ltac:(lia)) as (_ & _ & Hf). apply (Hf (Buffer [0]) 1 1).
Defined.
