(* ===== verification/BpfDev.v ===== *)
(** * xnu packet capture: the model

    [src/xnu-792/bsd/net/bpf.c] and [bpfdesc.h]: the descriptor of an open bpf
    device, its store, hold and free buffers, the capture of packets
    ([bpf_tap], [bpf_mtap], [catchpacket]), reading ([bpfread]) and the
    requests that change a descriptor.

    Buffers are blocks of kernel memory; a byte that was never written is
    [None], an access outside a block is [BAD_ACCESS].  The operations run
    under [bpf_mlock]; [bpfread] gives it up only where it sleeps, so it is cut
    there: [read_wait] is the loop up to the sleep and [read_resume] what
    follows with [tsleep]'s result.  The kernel is a 32-bit one ([u_long],
    [size_t] and pointers have 32 bits) with little-endian integers.  The list
    of descriptors of an interface is an argument, as are the packet, the time
    and the result of [copyin] and [uiomove]. *)

From S2P Require Import Prelude Bpf.
Import Bpf.

Module BpfDev.

Abbreviation EINTR := 4.
Abbreviation ENXIO := 6.
Abbreviation EINVAL := 22.
Abbreviation EWOULDBLOCK := 35.
Abbreviation ENETDOWN := 50.
Abbreviation ENOBUFS := 55.
Abbreviation ERESTART := (-1).
Abbreviation BPF_MINBUFSIZE := 32.
Abbreviation BPF_MAXINSNS := 512.
Abbreviation SIZEOF_BPF_HDR := 18.

(** ** Data *)

(** [bif_id] is the address of the structure. *)
Record bpf_if := BpfIf { bif_id : Z; bif_hdrlen : Z }.

Record bpf_d := BpfD {
  bd_sbuf : option positive;
  bd_hbuf : option positive;
  bd_fbuf : option positive;
  bd_slen : Z;
  bd_hlen : Z;
  bd_bufsize : Z;
  bd_bif : option bpf_if;
  bd_filter : option (list bpf_insn);
  bd_rcount : Z;
  bd_dcount : Z;
  bd_immediate : Z;
  bd_seesent : Z
}.

Record kern := Kern {
  kmem : gmap positive (list (option Z));
  alloc_fails : list bool;    (* outcomes of the next allocations *)
  wakeups : Z                 (* calls of bpf_wakeup *)
}.

Definition set_kmem (m : gmap positive (list (option Z))) (w : kern) : kern :=
  Kern m (alloc_fails w) (wakeups w).

(** ** Memory *)

Definition MALLOC (size : Z) : M kern (option positive) := λ w,
  match alloc_fails w with
  | true :: fs => Ok (None, Kern (kmem w) fs (wakeups w))
  | fs => let b := fresh (dom (kmem w)) in
          Ok (Some b, Kern (<[b := replicate (Z.to_nat size) None]> (kmem w)) (tail fs) (wakeups w))
  end.

Definition FREE (p : option positive) : M kern unit :=
  b ← nonnull p;
  x ← gets (λ w, kmem w !! b);
  match x with
  | Some _ => modify (λ w, set_kmem (delete b (kmem w)) w)
  | None => crash BAD_FREE
  end.

(** Stores bytes at an offset of a block. *)
Definition store_bytes (p : option positive) (off : Z) (bs : list Z) : M kern unit :=
  b ← nonnull p;
  x ← gets (λ w, kmem w !! b);
  match x with
  | Some cells =>
    if (0 <=? off) && (off + zlen bs <=? zlen cells)
    then modify (λ w, set_kmem (<[b := list_inserts (Z.to_nat off) (Some <$> bs) cells]> (kmem w)) w)
    else crash BAD_ACCESS
  | None => crash BAD_ACCESS
  end.

Definition fetch_bytes (p : option positive) (n : Z) : M kern (list (option Z)) :=
  b ← nonnull p;
  x ← gets (λ w, kmem w !! b);
  match x with
  | Some cells => if n <=? zlen cells then mret (take (Z.to_nat n) cells) else crash BAD_ACCESS
  | None => crash BAD_ACCESS
  end.

(** ** Buffers *)

Definition BPF_WORDALIGN (x : Z) : Z := Z.land (x + 3) (Z.lnot 3).

(** Store goes to hold, free to store. *)
Definition ROTATE_BUFFERS (d : bpf_d) : bpf_d :=
  BpfD (bd_fbuf d) (bd_sbuf d) None 0 (bd_slen d) (bd_bufsize d) (bd_bif d) (bd_filter d)
    (bd_rcount d) (bd_dcount d) (bd_immediate d) (bd_seesent d).

Definition bpf_wakeup : M kern unit :=
  modify (λ w, Kern (kmem w) (alloc_fails w) (wakeups w + 1)).

Definition set_slen (n : Z) (d : bpf_d) : bpf_d :=
  BpfD (bd_sbuf d) (bd_hbuf d) (bd_fbuf d) n (bd_hlen d) (bd_bufsize d) (bd_bif d) (bd_filter d)
    (bd_rcount d) (bd_dcount d) (bd_immediate d) (bd_seesent d).
Definition count_received (d : bpf_d) : bpf_d :=
  BpfD (bd_sbuf d) (bd_hbuf d) (bd_fbuf d) (bd_slen d) (bd_hlen d) (bd_bufsize d) (bd_bif d)
    (bd_filter d) (u32 (bd_rcount d + 1)) (bd_dcount d) (bd_immediate d) (bd_seesent d).
Definition count_dropped (d : bpf_d) : bpf_d :=
  BpfD (bd_sbuf d) (bd_hbuf d) (bd_fbuf d) (bd_slen d) (bd_hlen d) (bd_bufsize d) (bd_bif d)
    (bd_filter d) (bd_rcount d) (u32 (bd_dcount d + 1)) (bd_immediate d) (bd_seesent d).

Definition reset_d (d : bpf_d) : bpf_d :=
  let '(hbuf, fbuf) :=
    match bd_hbuf d with Some _ => (None, bd_hbuf d) | None => (None, bd_fbuf d) end in
  BpfD (bd_sbuf d) hbuf fbuf 0 0 (bd_bufsize d) (bd_bif d) (bd_filter d) 0 0
    (bd_immediate d) (bd_seesent d).

Definition set_bufs (s f : option positive) (d : bpf_d) : bpf_d :=
  BpfD s (bd_hbuf d) f (bd_slen d) (bd_hlen d) (bd_bufsize d) (bd_bif d) (bd_filter d)
    (bd_rcount d) (bd_dcount d) (bd_immediate d) (bd_seesent d).

Definition bpf_allocbufs (d : bpf_d) : M kern (Z * bpf_d) :=
  fbuf ← MALLOC (bd_bufsize d);
  let d := set_bufs (bd_sbuf d) fbuf d in
  match fbuf with
  | None => mret (ENOBUFS, d)
  | Some _ =>
    sbuf ← MALLOC (bd_bufsize d);
    let d := set_bufs sbuf (bd_fbuf d) d in
    match sbuf with
    | None => _ ← FREE (bd_fbuf d); mret (ENOBUFS, d)
    | Some _ =>
      mret (0, BpfD (bd_sbuf d) (bd_hbuf d) (bd_fbuf d) 0 0 (bd_bufsize d) (bd_bif d) (bd_filter d)
                 (bd_rcount d) (bd_dcount d) (bd_immediate d) (bd_seesent d))
    end
  end.

(** The filter is not in [kmem]; it goes with the descriptor. *)
Definition bpf_freed (d : bpf_d) : M kern unit :=
  match bd_sbuf d with
  | None => mret tt
  | Some _ =>
    _ ← FREE (bd_sbuf d);
    _ ← match bd_hbuf d with Some _ => FREE (bd_hbuf d) | None => mret tt end;
    match bd_fbuf d with Some _ => FREE (bd_fbuf d) | None => mret tt end
  end.

(** ** Capture *)

(** [bcopy]: the bytes it reads from a packet in a buffer. *)
Definition bcopy (p : packet) (len : Z) : outcome (list Z) :=
  as_buffer p (λ bytes, if len <=? zlen bytes then Ok (take (Z.to_nat len) bytes)
                        else Crash BAD_ACCESS).

(** [while (len > 0) { if (m == 0) panic; ... }] *)
Fixpoint mcopy_loop (m : list (list Z)) (len : Z) : outcome (list Z) :=
  if 0 <? len then
    match m with
    | [] => Crash ASSERT_FAILED
    | b :: m =>
      let count := Z.min (zlen b) len in
      rest ← mcopy_loop m (len - count);
      mret (take (Z.to_nat count) b ++ rest)
    end
  else mret [].

Definition bpf_mcopy (p : packet) (len : Z) : outcome (list Z) :=
  as_mbuf p (λ m next, mcopy_loop (m :: next) len).

Definition le_bytes (n : nat) (v : Z) : list Z :=
  (λ i : nat, Z.land (Z.shiftr v (8 * Z.of_nat i)) 0xff) <$> seq 0 n.

(** A computation that touches no memory. *)
Definition lift {A} (o : outcome A) : M kern A :=
  λ w, match o with Ok a => Ok (a, w) | Crash r => Crash r end.

(** What is written at [curlen]: the fields of [struct bpf_hdr] and the data.
    [now] is the time [microtime] gives. *)
Definition append_packet (d : bpf_d) (pkt : packet) (pktlen : Z) (cpfn : packet → Z → outcome (list Z))
    (now : Z * Z) (hdrlen totlen curlen : Z) : M kern bpf_d :=
  _ ← store_bytes (bd_sbuf d) curlen (le_bytes 4 (now.1) ++ le_bytes 4 (now.2));
  _ ← store_bytes (bd_sbuf d) (curlen + 12) (le_bytes 4 pktlen);
  _ ← store_bytes (bd_sbuf d) (curlen + 16) (le_bytes 2 hdrlen);
  let caplen := u32 (totlen - hdrlen) in
  _ ← store_bytes (bd_sbuf d) (curlen + 8) (le_bytes 4 caplen);
  data ← lift (cpfn pkt caplen);
  _ ← store_bytes (bd_sbuf d) (curlen + hdrlen) data;
  mret (set_slen (curlen + totlen) d).

Definition catchpacket (d : bpf_d) (pkt : packet) (pktlen snaplen : Z)
    (cpfn : packet → Z → outcome (list Z)) (now : Z * Z) : M kern bpf_d :=
  bif ← nonnull (bd_bif d);
  let hdrlen := bif_hdrlen bif in
  let totlen := i32 (hdrlen + Z.min snaplen pktlen) in
  let totlen := if totlen >? bd_bufsize d then bd_bufsize d else totlen in
  let curlen := BPF_WORDALIGN (bd_slen d) in
  if curlen + totlen >? bd_bufsize d then
    match bd_fbuf d with
    | None => mret (count_dropped d)
    | Some _ =>
      let d := ROTATE_BUFFERS d in
      _ ← bpf_wakeup;
      append_packet d pkt pktlen cpfn now hdrlen totlen 0
    end
  else
    _ ← (if negb (bd_immediate d =? 0) then bpf_wakeup else mret tt);
    append_packet d pkt pktlen cpfn now hdrlen totlen curlen.

Section Tap.
Context `{WideShift}.

(** The body of the loop of [bpf_tap] and [bpf_mtap] for one listener. *)
Definition tap_one (stack : list Z) (pkt : packet) (pktlen buflen : Z)
    (cpfn : packet → Z → outcome (list Z)) (now : Z * Z) (d : bpf_d) : M kern bpf_d :=
  let d := count_received d in
  slen ← lift (bpf_filter stack (bd_filter d) pkt pktlen buflen);
  if negb (slen =? 0) then catchpacket d pkt pktlen slen cpfn now else mret d.

Fixpoint bpf_tap (stack : list Z) (dlist : list bpf_d) (pkt : list Z) (now : Z * Z) :
    M kern (list bpf_d) :=
  match dlist with
  | [] => mret []
  | d :: dlist =>
    d ← tap_one stack (Buffer pkt) (zlen pkt) (zlen pkt) bcopy now d;
    dlist ← bpf_tap stack dlist pkt now;
    mret (d :: dlist)
  end.

(** [sent]: [m->m_pkthdr.rcvif == NULL]. *)
Fixpoint bpf_mtap (stack : list Z) (dlist : list bpf_d) (m : list Z) (next : list (list Z))
    (sent : bool) (now : Z * Z) : M kern (list bpf_d) :=
  match dlist with
  | [] => mret []
  | d :: dlist =>
    d ← (if (bd_seesent d =? 0) && sent then mret d
         else tap_one stack (Mbuf m next) (zlen (m ++ concat next)) 0 bpf_mcopy now d);
    dlist ← bpf_mtap stack dlist m next sent now;
    mret (d :: dlist)
  end.

End Tap.

(** ** Reading *)

Inductive wait :=
| HaveData                    (* out of the loop, with a hold buffer *)
| ReturnError (error : Z)
| Sleep.

(** [error == EWOULDBLOCK]. *)
Definition read_timeout (d : bpf_d) : bpf_d * wait :=
  match bd_hbuf d with
  | Some _ => (d, HaveData)
  | None => if bd_slen d =? 0 then (d, ReturnError 0) else (ROTATE_BUFFERS d, HaveData)
  end.

Definition read_wait (d : bpf_d) (ndelay : bool) : bpf_d * wait :=
  match bd_hbuf d with
  | Some _ => (d, HaveData)
  | None =>
    if negb (bd_immediate d =? 0) && negb (bd_slen d =? 0) then (ROTATE_BUFFERS d, HaveData)
    else match bd_bif d with
    | None => (d, ReturnError ENXIO)
    | Some _ => if ndelay then read_timeout d else (d, Sleep)
    end
  end.

(** After [BPF_SLEEP]; any other error value goes round the loop. *)
Definition read_resume (d : bpf_d) (error : Z) : bpf_d * wait :=
  if (error =? EINTR) || (error =? ERESTART) then (d, ReturnError error)
  else if error =? EWOULDBLOCK then read_timeout d
  else read_wait d false.

Inductive read_result :=
| Read (error : Z) (data : list (option Z))
| Asleep.

(** What follows the loop; [uio_error] is the result of [uiomove]. *)
Definition read_finish (uio_error : Z) (w : bpf_d * wait) : M kern (bpf_d * read_result) :=
  let '(d, next) := w in
  match next with
  | Sleep => mret (d, Asleep)
  | ReturnError error => mret (d, Read error [])
  | HaveData =>
    data ← fetch_bytes (bd_hbuf d) (bd_hlen d);
    mret (BpfD (bd_sbuf d) None (bd_hbuf d) (bd_slen d) 0 (bd_bufsize d) (bd_bif d) (bd_filter d)
            (bd_rcount d) (bd_dcount d) (bd_immediate d) (bd_seesent d),
          Read uio_error data)
  end.

Definition bpfread (d : bpf_d) (resid : Z) (ndelay : bool) (uio_error : Z) :
    M kern (bpf_d * read_result) :=
  if negb (resid =? bd_bufsize d) then mret (d, Read EINVAL [])
  else read_finish uio_error (read_wait d ndelay).

Definition bpfread_resume (d : bpf_d) (error uio_error : Z) : M kern (bpf_d * read_result) :=
  read_finish uio_error (read_resume d error).

(** ** Requests *)

Definition set_filter (f : option (list bpf_insn)) (d : bpf_d) : bpf_d :=
  BpfD (bd_sbuf d) (bd_hbuf d) (bd_fbuf d) (bd_slen d) (bd_hlen d) (bd_bufsize d) (bd_bif d) f
    (bd_rcount d) (bd_dcount d) (bd_immediate d) (bd_seesent d).

(** Whether the next allocation succeeds, for memory that is not in [kmem]: the
    instructions of a filter are a field of the descriptor. *)
Definition alloc_succeeds : M kern bool := λ w,
  Ok (negb (default false (head (alloc_fails w))), Kern (kmem w) (tail (alloc_fails w)) (wakeups w)).

(** The user's memory at [bf_insns] and how far it goes, [None] for a NULL pointer.
    [copyin] brings the [bf_len] instructions there; it fails when there are fewer,
    or with [copyin_error]. *)
Definition copied (user : list bpf_insn) (bf_len : Z) : list bpf_insn := take (Z.to_nat bf_len) user.

Definition bpf_setf (d : bpf_d) (insns : option (list bpf_insn)) (bf_len copyin_error : Z) :
    M kern (Z * bpf_d) :=
  match insns with
  | None => if negb (bf_len =? 0) then mret (EINVAL, d) else mret (0, reset_d (set_filter None d))
  | Some user =>
    if bf_len >? BPF_MAXINSNS then mret (EINVAL, d)
    else
      allocated ← alloc_succeeds;
      if negb allocated then mret (ENOBUFS, d)
      else
        let fcode := copied user bf_len in
        ok ← (if (copyin_error =? 0) && (bf_len <=? zlen user) then lift (bpf_validate fcode) else mret false);
        if (ok : bool) then mret (0, reset_d (set_filter (Some fcode) d)) else mret (EINVAL, d)
  end.

Definition set_bif (bif : option bpf_if) (d : bpf_d) : bpf_d :=
  BpfD (bd_sbuf d) (bd_hbuf d) (bd_fbuf d) (bd_slen d) (bd_hlen d) (bd_bufsize d) bif (bd_filter d)
    (bd_rcount d) (bd_dcount d) (bd_immediate d) (bd_seesent d).

(** [bp] is the interface with the name asked for, [up] its [IFF_UP] flag. *)
Definition bpf_setif (d : bpf_d) (bp : option bpf_if) (up : bool) : M kern (Z * bpf_d) :=
  match bp with
  | None => mret (ENXIO, d)
  | Some bp =>
    if negb up then mret (ENETDOWN, d)
    else
      '(error, d) ← match bd_sbuf d with
                    | None => bpf_allocbufs d
                    | Some _ => mret (0, d)
                    end;
      if negb (error =? 0) then mret (error, d)
      else
        let d := if match bd_bif d with Some b => bif_id b =? bif_id bp | None => false end
                 then d else set_bif (Some bp) d in
        mret (0, reset_d d)
  end.

(** The interface goes away: what [bpfdetach] does to each listener. *)
Definition bpf_detachd (d : bpf_d) : bpf_d := set_bif None d.

(** [BIOCSBLEN], with [bpf_maxbufsize] as an argument. *)
Definition set_buflen (bpf_maxbufsize size : Z) (d : bpf_d) : Z * bpf_d :=
  match bd_bif d with
  | Some _ => (EINVAL, d)
  | None =>
    let size := if size >? bpf_maxbufsize then bpf_maxbufsize
                else if size <? BPF_MINBUFSIZE then BPF_MINBUFSIZE else size in
    (0, BpfD (bd_sbuf d) (bd_hbuf d) (bd_fbuf d) (bd_slen d) (bd_hlen d) size (bd_bif d) (bd_filter d)
          (bd_rcount d) (bd_dcount d) (bd_immediate d) (bd_seesent d))
  end.

(** [BIOCIMMEDIATE]: [bd_immediate] has eight bits. *)
Definition set_immediate (v : Z) (d : bpf_d) : bpf_d :=
  BpfD (bd_sbuf d) (bd_hbuf d) (bd_fbuf d) (bd_slen d) (bd_hlen d) (bd_bufsize d) (bd_bif d)
    (bd_filter d) (bd_rcount d) (bd_dcount d) (Z.land v 0xff) (bd_seesent d).

(** [BIOCSSEESENT]. *)
Definition set_seesent (v : Z) (d : bpf_d) : bpf_d :=
  BpfD (bd_sbuf d) (bd_hbuf d) (bd_fbuf d) (bd_slen d) (bd_hlen d) (bd_bufsize d) (bd_bif d)
    (bd_filter d) (bd_rcount d) (bd_dcount d) (bd_immediate d) (i32 v).

(** [FIONREAD]. *)
Definition fionread (d : bpf_d) : Z :=
  bd_slen d + match bd_hbuf d with Some _ => bd_hlen d | None => 0 end.

Abbreviation POLL_READ := (0x0001 + 0x0040).   (* POLLIN | POLLRDNORM *)

Inductive poll_result :=
| PollError (error : Z)
| PollEvents (revents : Z)
| PollRecord.                 (* selrecord: the caller will be woken up *)

Definition bpfpoll (d : bpf_d) (events : Z) : poll_result :=
  match bd_bif d with
  | None => PollError ENXIO
  | Some _ =>
    if negb (Z.land events POLL_READ =? 0) then
      if negb (bd_hlen d =? 0) || (negb (bd_immediate d =? 0) && negb (bd_slen d =? 0))
      then PollEvents (Z.land events POLL_READ)
      else PollRecord
    else PollEvents 0
  end.

(** [bzero] and the initial settings of [bpfopen]. *)
Definition bpfopen (bpf_bufsize : Z) : bpf_d :=
  BpfD None None None 0 0 bpf_bufsize None None 0 0 0 1.

(** [bpfattach]: the length of the header for a link header of [hdrlen]. *)
Definition attach_hdrlen (hdrlen : Z) : Z := BPF_WORDALIGN (hdrlen + SIZEOF_BPF_HDR) - hdrlen.

End BpfDev.
