(* ===== verification/BpfDevCorrect.v ===== *)
(** * xnu packet capture: the descriptor's buffers

    [dev_ok w d h held stored]: the buffers of [d] are blocks of their own, the
    hold buffer has the records [held], the store buffer the records [stored],
    and exactly one of the hold and free slots is taken.  Capturing appends a
    record or drops the packet, reading takes the held records (or the stored
    ones when the read does not wait for a full buffer). *)

From Stdlib Require Import ZifyBool.
From S2P Require Import Prelude Bpf BpfSafe BpfCorrect BpfDev.
Import Bpf BpfDev.

(** ** xnu packet capture: records in a buffer

    A captured packet is a record: the time, the length on the wire and the
    bytes captured.  [recs_at] says that a block holds records one after the
    other, each at the next longword; [parse] is the walk of a reader, from
    [bh_hdrlen] and [bh_caplen] to the next header.  A reader finds exactly the
    records that were written. *)

Record rec := Rec { r_sec : Z; r_usec : Z; r_datalen : Z; r_data : list Z }.

Abbreviation cells := (list (option Z)).

(** The bytes [bs] are at [off]. *)
Definition at_cells (c : cells) (off : Z) (bs : list Z) : Prop :=
  ∀ i b, bs !! i = Some b → c !! (Z.to_nat off + i)%nat = Some (Some b).

Definition hdr_bytes (h : Z) (r : rec) : list Z :=
  (le_bytes 4 (r_sec r) ++ le_bytes 4 (r_usec r)) ++ le_bytes 4 (zlen (r_data r)) ++
  le_bytes 4 (r_datalen r) ++ le_bytes 2 h.

Definition rec_at (h : Z) (c : cells) (o : Z) (r : rec) : Prop :=
  at_cells c o (hdr_bytes h r) ∧ at_cells c (o + h) (r_data r).

Definition rec_end (h o : Z) (r : rec) : Z := o + h + zlen (r_data r).

Fixpoint recs_at (h : Z) (c : cells) (o : Z) (rs : list rec) : Prop :=
  match rs with
  | [] => True
  | r :: rs => rec_at h c o r ∧ recs_at h c (BPF_WORDALIGN (rec_end h o r)) rs
  end.

(** Where the records that start at [o] end; [n] when there are none. *)
Fixpoint recs_end (h o n : Z) (rs : list rec) : Z :=
  match rs with
  | [] => n
  | r :: rs => recs_end h (BPF_WORDALIGN (rec_end h o r)) (rec_end h o r) rs
  end.

(** ** Alignment *)

Lemma wordalign_mod x : BPF_WORDALIGN x = x + 3 - (x + 3) mod 4.
Proof.
  unfold BPF_WORDALIGN. rewrite <- Z.ldiff_land. change 3 with (Z.ones 2) at 2.
  rewrite Z.ldiff_ones_r by lia. rewrite Z.shiftl_mul_pow2, Z.shiftr_div_pow2 by lia.
  change (2 ^ 2) with 4. pose proof (Z.div_mod (x + 3) 4). lia.
Qed.

Lemma wordalign_bounds x : x ≤ BPF_WORDALIGN x < x + 4.
Proof. rewrite wordalign_mod. pose proof (Z.mod_pos_bound (x + 3) 4). lia. Qed.

Lemma wordalign_aligned x : BPF_WORDALIGN x mod 4 = 0.
Proof. rewrite wordalign_mod. Z.to_euclidean_division_equations. lia. Qed.

Lemma wordalign_add o x : o mod 4 = 0 → BPF_WORDALIGN (o + x) = o + BPF_WORDALIGN x.
Proof. intros Ho. rewrite !wordalign_mod. Z.to_euclidean_division_equations. lia. Qed.

(** ** Bytes in cells *)

Lemma at_cells_app c o a b :
  0 ≤ o → at_cells c o (a ++ b) ↔ at_cells c o a ∧ at_cells c (o + zlen a) b.
Proof.
  intros Ho. unfold at_cells, zlen.
  assert (∀ i, (Z.to_nat (o + Z.of_nat (length a)) + i = Z.to_nat o + (length a + i))%nat) as He
    by (intros; lia).
  split.
  - intros Hc. split; intros i x Hi.
    + apply Hc. by apply lookup_app_l_Some.
    + rewrite He. apply Hc. rewrite lookup_app_r by lia.
      by replace (length a + i - length a)%nat with i by lia.
  - intros [Ha Hb] i x Hi. apply lookup_app_Some in Hi as [Hi|[Hl Hi]]; [by apply Ha|].
    specialize (Hb _ _ Hi). rewrite He in Hb.
    by replace (length a + (i - length a))%nat with i in Hb by lia.
Qed.

(** Cells that agree on the bytes' range. *)
Lemma at_cells_frame c c' o bs :
  at_cells c o bs →
  (∀ j, (Z.to_nat o ≤ j < Z.to_nat o + length bs)%nat → c' !! j = c !! j) → at_cells c' o bs.
Proof.
  intros Hc Hf i b Hi. rewrite Hf; [by apply Hc|]. apply lookup_lt_Some in Hi. lia.
Qed.

Lemma at_cells_inserts c o bs :
  0 ≤ o → o + zlen bs ≤ zlen c → at_cells (list_inserts (Z.to_nat o) (Some <$> bs) c) o bs.
Proof.
  unfold zlen. intros Ho Hl i b Hi. apply lookup_lt_Some in Hi as Hlt.
  rewrite list_lookup_inserts by (rewrite ?length_fmap; lia).
  replace (Z.to_nat o + i - Z.to_nat o)%nat with i by lia. by rewrite list_lookup_fmap, Hi.
Qed.

Lemma inserts_outside (c : cells) o (bs : list Z) j :
  (j < Z.to_nat o ∨ Z.to_nat o + length bs ≤ j)%nat →
  list_inserts (Z.to_nat o) (Some <$> bs) c !! j = c !! j.
Proof.
  intros [Hj|Hj]; [by apply list_lookup_inserts_lt|].
  apply list_lookup_inserts_ge. by rewrite length_fmap.
Qed.

(** A store leaves the bytes of another range alone. *)
Lemma at_cells_store c o bs o' bs' :
  at_cells c o bs →
  (Z.to_nat o + length bs ≤ Z.to_nat o' ∨ Z.to_nat o' + length bs' ≤ Z.to_nat o)%nat →
  at_cells (list_inserts (Z.to_nat o') (Some <$> bs') c) o bs.
Proof.
  intros Hc Hd. eapply at_cells_frame; [done|]. intros j Hj. apply inserts_outside. lia.
Qed.

Lemma length_le_bytes n v : length (le_bytes n v) = n.
Proof. unfold le_bytes. by rewrite length_fmap, length_seq. Qed.

Lemma length_hdr_bytes h r : length (hdr_bytes h r) = 18%nat.
Proof. unfold hdr_bytes. by rewrite !length_app, !length_le_bytes. Qed.

(** The fields of the header one by one. *)
Lemma hdr_fields c o h r :
  0 ≤ o →
  at_cells c o (hdr_bytes h r) ↔
  at_cells c o (le_bytes 4 (r_sec r) ++ le_bytes 4 (r_usec r)) ∧
  at_cells c (o + 8) (le_bytes 4 (zlen (r_data r))) ∧
  at_cells c (o + 12) (le_bytes 4 (r_datalen r)) ∧ at_cells c (o + 16) (le_bytes 2 h).
Proof.
  intros Ho. unfold hdr_bytes.
  rewrite (at_cells_app c o (_ ++ _)) by done. unfold zlen at 1. rewrite length_app, !length_le_bytes.
  rewrite (at_cells_app c (o + Z.of_nat (4 + 4))) by lia. unfold zlen at 2. rewrite length_le_bytes.
  rewrite (at_cells_app c (o + Z.of_nat (4 + 4) + Z.of_nat 4)) by lia. unfold zlen at 2.
  rewrite length_le_bytes.
  replace (o + Z.of_nat (4 + 4) + Z.of_nat 4 + Z.of_nat 4) with (o + 16) by lia.
  replace (o + Z.of_nat (4 + 4) + Z.of_nat 4) with (o + 12) by lia.
  replace (o + Z.of_nat (4 + 4)) with (o + 8) by lia. done.
Qed.

(** ** Records *)

Lemma rec_end_aligned h o r : 0 ≤ h → o ≤ rec_end h o r ≤ BPF_WORDALIGN (rec_end h o r).
Proof.
  intros Hh. unfold rec_end. pose proof (zlen_nonneg (r_data r)).
  pose proof (wordalign_bounds (o + h + zlen (r_data r))). lia.
Qed.

Lemma recs_end_ge h o n rs : 0 ≤ h → n ≤ o → n ≤ recs_end h o n rs.
Proof.
  intros Hh. revert o n. induction rs as [|r rs IH]; intros o n Hn; simpl; [done|].
  pose proof (rec_end_aligned h o r Hh). etrans; [|apply IH; lia]. lia.
Qed.

(** Writing past the end of the records keeps them. *)
Lemma recs_at_frame h c c' o n rs :
  18 ≤ h → 0 ≤ o → n ≤ o → recs_at h c o rs →
  (∀ j, (j < Z.to_nat (recs_end h o n rs))%nat → c' !! j = c !! j) → recs_at h c' o rs.
Proof.
  intros Hh. revert o n. induction rs as [|r rs IH]; intros o n Ho Hn; [done|]. simpl.
  intros [[Hhdr Hdat] Hrs] Hf. pose proof (rec_end_aligned h o r ltac:(lia)) as He.
  pose proof (recs_end_ge h (BPF_WORDALIGN (rec_end h o r)) (rec_end h o r) rs) as Hge.
  unfold rec_end, zlen in *. split; [split|].
  - eapply at_cells_frame; [done|]. intros j Hj. apply Hf. rewrite length_hdr_bytes in Hj. lia.
  - eapply at_cells_frame; [done|]. intros j Hj. apply Hf. lia.
  - eapply IH; [| |done|done]; lia.
Qed.

Lemma recs_snoc h c rs r o n :
  o = BPF_WORDALIGN n →
  recs_end h o n (rs ++ [r]) = rec_end h (BPF_WORDALIGN (recs_end h o n rs)) r ∧
  (recs_at h c o (rs ++ [r]) ↔
   recs_at h c o rs ∧ rec_at h c (BPF_WORDALIGN (recs_end h o n rs)) r).
Proof.
  revert o n. induction rs as [|x rs IH]; intros o n ->; simpl; [tauto|].
  destruct (IH _ (rec_end h (BPF_WORDALIGN n) x) eq_refl) as [He Ha]. rewrite He, Ha. tauto.
Qed.

(** ** The reader's walk *)

Definition get_le (n : nat) (c : cells) (off : Z) : option Z :=
  bs ← mapM id (take n (drop (Z.to_nat off) c));
  if (length bs =? n)%nat then Some (foldr (λ b v, b + 256 * v) 0 bs) else None.

Definition get_data (c : cells) (off n : Z) : option (list Z) :=
  bs ← mapM id (take (Z.to_nat n) (drop (Z.to_nat off) c));
  if zlen bs =? n then Some bs else None.

(** From the header at [off], the records up to [n]. *)
Fixpoint parse (fuel : nat) (c : cells) (off n : Z) : option (list rec) :=
  if n <=? off then Some []
  else match fuel with
  | O => None
  | S fuel =>
    sec ← get_le 4 c off;
    usec ← get_le 4 c (off + 4);
    caplen ← get_le 4 c (off + 8);
    datalen ← get_le 4 c (off + 12);
    hdrlen ← get_le 2 c (off + 16);
    data ← get_data c (off + hdrlen) caplen;
    rest ← parse fuel c (off + BPF_WORDALIGN (hdrlen + caplen)) n;
    Some (Rec sec usec datalen data :: rest)
  end.

Lemma at_cells_take c o bs :
  at_cells c o bs → take (length bs) (drop (Z.to_nat o) c) = Some <$> bs.
Proof.
  intros Hc. apply list_eq_same_length with (length bs).
  - by rewrite length_fmap.
  - rewrite length_take, length_drop. destruct (decide (length bs = 0%nat)); [lia|].
    destruct (lookup_lt_is_Some_2 bs (length bs - 1)) as [b Hb]; [lia|].
    apply Hc in Hb. apply lookup_lt_Some in Hb. lia.
  - intros i x y Hi Hx Hy. rewrite lookup_take_lt, lookup_drop in Hx by lia.
    rewrite list_lookup_fmap in Hy. destruct (bs !! i) as [b|] eqn:Hb; [|done].
    apply Hc in Hb. simpl in Hy. congruence.
Qed.

Lemma mapM_some (bs : list Z) : mapM id (Some <$> bs) = Some bs.
Proof. apply mapM_Some. by induction bs; constructor. Qed.

Lemma le_bytes_S n v : le_bytes (S n) v = v mod 256 :: le_bytes n (v / 256).
Proof.
  unfold le_bytes. simpl. rewrite Z.shiftr_0_r. change 255 with (Z.ones 8).
  rewrite Z.land_ones by lia. f_equal. rewrite <- fmap_S_seq, <- list_fmap_compose.
  apply list_fmap_ext. intros i x _. simpl. f_equal.
  replace (8 * Z.of_nat (S x)) with (8 + 8 * Z.of_nat x) by lia.
  rewrite <- Z.shiftr_shiftr by lia. by rewrite (Z.shiftr_div_pow2 v 8) by lia.
Qed.

Lemma le_bytes_value n v :
  0 ≤ v < 2 ^ (8 * Z.of_nat n) → foldr (λ b v, b + 256 * v) 0 (le_bytes n v) = v.
Proof.
  revert v. induction n as [|n IH]; intros v Hv.
  - change (2 ^ _) with 1 in Hv. simpl. lia.
  - rewrite le_bytes_S. simpl. rewrite IH; [pose proof (Z.div_mod v 256); lia|].
    replace (8 * Z.of_nat (S n)) with (8 + 8 * Z.of_nat n) in Hv by lia.
    rewrite Z.pow_add_r in Hv by lia. change (2 ^ 8) with 256 in Hv.
    split; [apply Z.div_pos; lia|]. apply Z.div_lt_upper_bound; lia.
Qed.

Lemma get_le_ok n c o v :
  at_cells c o (le_bytes n v) → 0 ≤ v < 2 ^ (8 * Z.of_nat n) → get_le n c o = Some v.
Proof.
  intros Hc Hv. unfold get_le. pose proof (at_cells_take _ _ _ Hc) as Ht.
  rewrite length_le_bytes in Ht. rewrite Ht, mapM_some. simpl.
  by rewrite length_le_bytes, Nat.eqb_refl, le_bytes_value.
Qed.

Lemma get_data_ok c o bs : at_cells c o bs → get_data c o (zlen bs) = Some bs.
Proof.
  intros Hc. unfold get_data. replace (Z.to_nat (zlen bs)) with (length bs) by (unfold zlen; lia).
  rewrite at_cells_take, mapM_some by done. cbn. by rewrite Z.eqb_refl.
Qed.

(** The fields fit their places in [struct bpf_hdr]. *)
Definition rec_ok (r : rec) : Prop :=
  is_u32 (r_sec r) ∧ is_u32 (r_usec r) ∧ is_u32 (r_datalen r) ∧ is_u32 (zlen (r_data r)).

Lemma parse_rec h c o r rs fuel n :
  18 ≤ h < 2 ^ 16 → 0 ≤ o → o mod 4 = 0 → rec_at h c o r → rec_ok r → o < n →
  parse fuel c (BPF_WORDALIGN (rec_end h o r)) n = Some rs →
  parse (S fuel) c o n = Some (r :: rs).
Proof.
  intros Hh Ho Ha [Hhdr Hdat] (Hs & Hu & Hl & Hc) Hlt Hp. unfold is_u32 in *.
  apply hdr_fields in Hhdr as (H12 & H3 & H4 & H5); [|done].
  apply at_cells_app in H12 as [H1 H2]; [|done].
  unfold zlen in H2. rewrite length_le_bytes in H2.
  cbn [parse]. destruct (Z.leb_spec n o); [lia|].
  rewrite (get_le_ok 4 c o _ H1 Hs). cbn [mbind option_bind].
  rewrite (get_le_ok 4 c (o + 4) _ H2 Hu). cbn [mbind option_bind].
  rewrite (get_le_ok 4 c (o + 8) _ H3 Hc). cbn [mbind option_bind].
  rewrite (get_le_ok 4 c (o + 12) _ H4 Hl). cbn [mbind option_bind].
  rewrite (get_le_ok 2 c (o + 16) h H5) by (change (8 * Z.of_nat 2) with 16; lia).
  cbn [mbind option_bind]. rewrite (get_data_ok c (o + h) _ Hdat). cbn [mbind option_bind].
  rewrite <- wordalign_add, Z.add_assoc by done. unfold rec_end in Hp. rewrite Hp.
  cbn [mbind option_bind]. by destruct r.
Qed.

(** A reader finds the records that are there. *)
Lemma parse_recs h c o n rs fuel :
  18 ≤ h < 2 ^ 16 → 0 ≤ o → o mod 4 = 0 → n ≤ o → recs_at h c o rs → Forall rec_ok rs →
  (length rs ≤ fuel)%nat → parse fuel c o (recs_end h o n rs) = Some rs.
Proof.
  intros Hh. revert o n fuel. induction rs as [|r rs IH]; intros o n fuel Ho Ha Hn Hr Hok Hf.
  - simpl. destruct fuel; simpl; by destruct (Z.leb_spec n o); [|lia].
  - destruct Hr as [Hr Hrs]. inversion_clear Hok. destruct fuel as [|fuel]; simpl in Hf; [lia|].
    pose proof (rec_end_aligned h o r ltac:(lia)) as He.
    pose proof (recs_end_ge h (BPF_WORDALIGN (rec_end h o r)) (rec_end h o r) rs ltac:(lia) ltac:(lia)).
    apply (parse_rec h); try done.
    + simpl. unfold rec_end in *. pose proof (zlen_nonneg (r_data r)). lia.
    + apply IH; try done; try lia. apply wordalign_aligned.
Qed.

Definition put_block (b : positive) (c : cells) (w : kern) : kern :=
  set_kmem (<[b := c]> (kmem w)) w.

(** The block [b] has [size] bytes, the first [n] of them the records [rs]. *)
Definition buffer_holds (w : kern) (b : positive) (size h : Z) (rs : list rec) (n : Z) : Prop :=
  ∃ c, kmem w !! b = Some c ∧ zlen c = size ∧ recs_at h c 0 rs ∧ n = recs_end h 0 0 rs ∧ n ≤ size.

Record dev_ok (w : kern) (d : bpf_d) (h : Z) (held stored : list rec) : Prop := {
  ok_hdrlen : 18 ≤ h ≤ BPF_MINBUFSIZE;
  ok_bif : ∀ bif, bd_bif d = Some bif → bif_hdrlen bif = h;
  ok_size : BPF_MINBUFSIZE ≤ bd_bufsize d < 2 ^ 30;
  ok_store : ∃ s, bd_sbuf d = Some s ∧ buffer_holds w s (bd_bufsize d) h stored (bd_slen d);
  ok_other :
    match bd_hbuf d with
    | Some b => bd_fbuf d = None ∧ bd_sbuf d ≠ Some b ∧
                buffer_holds w b (bd_bufsize d) h held (bd_hlen d)
    | None => held = [] ∧ bd_hlen d = 0 ∧ ∃ f, bd_fbuf d = Some f ∧ bd_sbuf d ≠ Some f ∧
                buffer_holds w f (bd_bufsize d) h [] 0
    end;
  ok_recs : Forall rec_ok (held ++ stored);
  ok_held : held = [] → bd_hbuf d = None
}.

(** ** Stores *)

Lemma put_block_lookup b c w : kmem (put_block b c w) !! b = Some c.
Proof. apply lookup_insert_eq. Qed.

Lemma put_block_ne b b' c w : b ≠ b' → kmem (put_block b c w) !! b' = kmem w !! b'.
Proof. intros. by apply lookup_insert_ne. Qed.

Lemma put_block_twice b c c' w : put_block b c' (put_block b c w) = put_block b c' w.
Proof. unfold put_block, set_kmem. simpl. by rewrite insert_insert_eq. Qed.

Lemma store_bytes_ok p b c off bs w :
  p = Some b → kmem w !! b = Some c → 0 ≤ off → off + zlen bs ≤ zlen c →
  store_bytes p off bs w =
    Ok (tt, put_block b (list_inserts (Z.to_nat off) (Some <$> bs) c) w).
Proof.
  intros -> Hb Ho Hl. unfold store_bytes, mbind, M_bind, gets. simpl. rewrite Hb.
  destruct (Z.leb_spec 0 off); [|lia]. by destruct (Z.leb_spec (off + zlen bs) (zlen c)); [|lia].
Qed.

(** The next store to the same block. *)
Lemma store_next p b c off bs w :
  p = Some b → 0 ≤ off → off + zlen bs ≤ zlen c →
  store_bytes p off bs (put_block b c w) =
    Ok (tt, put_block b (list_inserts (Z.to_nat off) (Some <$> bs) c) w).
Proof.
  intros Hp Ho Hl. rewrite (store_bytes_ok p b c) by (done || apply put_block_lookup).
  by rewrite put_block_twice.
Qed.

Lemma zlen_le_bytes n v : zlen (le_bytes n v) = Z.of_nat n.
Proof. unfold zlen. by rewrite length_le_bytes. Qed.

Lemma zlen_inserts (c : cells) o (bs : cells) : zlen (list_inserts o bs c) = zlen c.
Proof. unfold zlen. by rewrite length_inserts. Qed.

(** What [catchpacket] writes is the record of the packet, and nothing before. *)
Lemma append_packet_ok d pkt pktlen cpfn now h totlen o w s c data :
  bd_sbuf d = Some s → kmem w !! s = Some c → 18 ≤ h → h ≤ totlen < 2 ^ 32 → 0 ≤ o →
  o + totlen ≤ zlen c → cpfn pkt (totlen - h) = Ok data → zlen data = totlen - h →
  ∃ c', append_packet d pkt pktlen cpfn now h totlen o w =
      Ok (set_slen (o + totlen) d, put_block s c' w) ∧
    zlen c' = zlen c ∧ (∀ j, (j < Z.to_nat o)%nat → c' !! j = c !! j) ∧
    rec_at h c' o (Rec (now.1) (now.2) pktlen data).
Proof.
  intros Hs Hc Hh Ht Ho Hl Hd Hdl. unfold append_packet.
  set (t := le_bytes 4 now.1 ++ le_bytes 4 now.2).
  assert (length t = 8%nat) as Lt by (unfold t; by rewrite length_app, !length_le_bytes).
  assert (zlen t = 8) as Zt by (unfold zlen; lia).
  set (c1 := list_inserts (Z.to_nat o) (Some <$> t) c).
  set (c2 := list_inserts (Z.to_nat (o + 12)) (Some <$> le_bytes 4 pktlen) c1).
  set (c3 := list_inserts (Z.to_nat (o + 16)) (Some <$> le_bytes 2 h) c2).
  set (c4 := list_inserts (Z.to_nat (o + 8)) (Some <$> le_bytes 4 (totlen - h)) c3).
  set (c5 := list_inserts (Z.to_nat (o + h)) (Some <$> data) c4).
  assert (zlen c1 = zlen c ∧ zlen c2 = zlen c ∧ zlen c3 = zlen c ∧ zlen c4 = zlen c ∧ zlen c5 = zlen c)
    as (L1 & L2 & L3 & L4 & L5) by (unfold c5, c4, c3, c2, c1; by rewrite !zlen_inserts).
  assert (u32 (totlen - h) = totlen - h) as -> by (apply wrapu_small; lia).
  mstep (store_bytes_ok _ s c o t w Hs Hc Ho ltac:(lia)).
  mstep (store_next _ s c1 (o + 12) (le_bytes 4 pktlen) w Hs ltac:(lia)
    ltac:(rewrite zlen_le_bytes; lia)).
  mstep (store_next _ s c2 (o + 16) (le_bytes 2 h) w Hs ltac:(lia) ltac:(rewrite zlen_le_bytes; lia)).
  mstep (store_next _ s c3 (o + 8) (le_bytes 4 (totlen - h)) w Hs ltac:(lia)
    ltac:(rewrite zlen_le_bytes; lia)).
  rewrite (bind_Ok _ _ _ data (put_block s c4 w)) by (unfold lift; by rewrite Hd).
  mstep (store_next _ s c4 (o + h) data w Hs ltac:(lia) ltac:(lia)).
  exists c5. split; [done|]. split; [done|]. split.
  { intros j Hj. unfold c5, c4, c3, c2, c1. rewrite !inserts_outside; (done || lia). }
  assert (length data = Z.to_nat (totlen - h)) by (unfold zlen in Hdl; lia).
  split; [apply hdr_fields; [done|]; cbn [r_sec r_usec r_datalen r_data]; rewrite Hdl; split_and!|].
  - unfold c5, c4, c3, c2. do 4 (apply at_cells_store; [|rewrite ?length_app, ?length_le_bytes; lia]).
    apply at_cells_inserts; [done|fold t; lia].
  - unfold c5. apply at_cells_store; [|rewrite length_le_bytes; lia].
    apply at_cells_inserts; [lia|]. rewrite zlen_le_bytes. lia.
  - unfold c5, c4, c3. do 3 (apply at_cells_store; [|rewrite !length_le_bytes; lia]).
    apply at_cells_inserts; [lia|]. rewrite zlen_le_bytes. lia.
  - unfold c5, c4. do 2 (apply at_cells_store; [|rewrite !length_le_bytes; lia]).
    apply at_cells_inserts; [lia|]. rewrite zlen_le_bytes. lia.
  - apply at_cells_inserts; simpl; lia.
Qed.

(** The blocks of a descriptor; an operation on it touches no others. *)
Definition bufs (d : bpf_d) : list positive := omap id [bd_sbuf d; bd_hbuf d; bd_fbuf d].

Definition touches (d : bpf_d) (w : kern) (d' : bpf_d) (w' : kern) : Prop :=
  bufs d' ≡ₚ bufs d ∧ ∀ b, b ∉ bufs d → kmem w' !! b = kmem w !! b.

Lemma touches_refl d d' w : bufs d' = bufs d → touches d w d' w.
Proof. intros Hb. split; [by rewrite Hb|done]. Qed.

Lemma touches_put d d' b c w w1 :
  bufs d' ≡ₚ bufs d → b ∈ bufs d → kmem w1 = kmem w → touches d w d' (put_block b c w1).
Proof.
  intros Hb Hin Hk. split; [done|]. intros b' Hb'. rewrite put_block_ne by congruence. by rewrite Hk.
Qed.

(** ** Capturing *)

Definition caplen (d : bpf_d) (h snaplen : Z) (ps : list Z) : Z :=
  Z.min (Z.min snaplen (zlen ps)) (bd_bufsize d - h).

(** The record of the packet [ps]: its first bytes, as many as the filter asked
    for and the buffer can take. *)
Definition rec_of (d : bpf_d) (h snaplen : Z) (ps : list Z) (now : Z * Z) : rec :=
  Rec (now.1) (now.2) (zlen ps) (take (Z.to_nat (caplen d h snaplen ps)) ps).

Definition same_settings (d d' : bpf_d) : Prop :=
  bd_filter d' = bd_filter d ∧ bd_bif d' = bd_bif d ∧ bd_bufsize d' = bd_bufsize d ∧
  bd_immediate d' = bd_immediate d ∧ bd_seesent d' = bd_seesent d ∧ bd_rcount d' = bd_rcount d.

(** The routine that copies from the packet gives the bytes [ps]. *)
Definition copies (cpfn : packet → Z → outcome (list Z)) (pkt : packet) (ps : list Z) : Prop :=
  ∀ n, 0 ≤ n ≤ zlen ps → cpfn pkt n = Ok (take (Z.to_nat n) ps).

Lemma zlen_take_le (ps : list Z) n : 0 ≤ n ≤ zlen ps → zlen (take (Z.to_nat n) ps) = n.
Proof. unfold zlen. intros. rewrite length_take. lia. Qed.

Lemma recs_nonneg h rs : 0 ≤ h → 0 ≤ recs_end h 0 0 rs.
Proof. intros. by apply recs_end_ge. Qed.

(** A record is appended to the records of a buffer. *)
Lemma buffer_append w b size h rs n r c c' :
  18 ≤ h → kmem w !! b = Some c → zlen c = size → recs_at h c 0 rs → n = recs_end h 0 0 rs →
  zlen c' = zlen c → (∀ j, (j < Z.to_nat (BPF_WORDALIGN n))%nat → c' !! j = c !! j) →
  rec_at h c' (BPF_WORDALIGN n) r → rec_end h (BPF_WORDALIGN n) r ≤ size →
  buffer_holds (put_block b c' w) b size h (rs ++ [r]) (rec_end h (BPF_WORDALIGN n) r).
Proof.
  intros Hh Hb Hsz Hrs -> Hl Hf Hr He. exists c'. split; [apply put_block_lookup|].
  split; [lia|]. pose proof (wordalign_bounds (recs_end h 0 0 rs)).
  destruct (recs_snoc h c' rs r 0 0 eq_refl) as [Hend Hat]. rewrite Hend, Hat.
  split_and!; try done. eapply (recs_at_frame h c c' 0 0); try done.
  intros j Hj. apply Hf. lia.
Qed.

Lemma buffer_holds_put w b b' c size h rs n :
  b ≠ b' → buffer_holds w b' size h rs n → buffer_holds (put_block b c w) b' size h rs n.
Proof.
  intros Hne (c0 & Hc & H0). exists c0. by rewrite put_block_ne.
Qed.

(** The effect of [append_packet] on a buffer with the records [rs]. *)
Lemma append_ok d pkt cpfn now h snaplen ps w s rs n :
  bd_sbuf d = Some s → buffer_holds w s (bd_bufsize d) h rs n → 18 ≤ h ≤ BPF_MINBUFSIZE →
  BPF_MINBUFSIZE ≤ bd_bufsize d < 2 ^ 30 → 0 < snaplen → copies cpfn pkt ps →
  let r := rec_of d h snaplen ps now in
  let o := BPF_WORDALIGN n in
  rec_end h o r ≤ bd_bufsize d →
  ∃ c', append_packet d pkt (zlen ps) cpfn now h (h + caplen d h snaplen ps) o w =
      Ok (set_slen (rec_end h o r) d, put_block s c' w) ∧
    buffer_holds (put_block s c' w) s (bd_bufsize d) h (rs ++ [r]) (rec_end h o r).
Proof.
  intros Hs (c & Hc & Hsz & Hrs & Hn & Hle) Hh Hbs Hsn Hcp r o He.
  pose proof (zlen_nonneg ps). pose proof (recs_nonneg h rs ltac:(lia)).
  pose proof (wordalign_bounds n).
  assert (0 ≤ caplen d h snaplen ps ≤ zlen ps) as Hcap by (unfold caplen; lia).
  assert (zlen (r_data r) = caplen d h snaplen ps) as Hdat by (unfold r; simpl; by apply zlen_take_le).
  unfold rec_end in He. rewrite Hdat in He. fold o in H1.
  assert (caplen d h snaplen ps ≤ bd_bufsize d - h) by (unfold caplen; lia).
  destruct (append_packet_ok d pkt (zlen ps) cpfn now h (h + caplen d h snaplen ps) o w s c (r_data r))
    as (c' & Hrun & Hl & Hf & Hr); try done; try lia.
  { rewrite Z.add_simpl_l. apply Hcp. lia. }
  exists c'. rewrite Hrun. unfold rec_end. rewrite Hdat, Z.add_assoc. split; [done|].
  rewrite <- Hdat. apply (buffer_append w s _ h rs n r c c'); try done; [lia|].
  unfold rec_end. by rewrite Hdat.
Qed.

(** The packet fits behind the stored records. *)
Lemma catch_fits d pkt cpfn now h snaplen ps w held stored w1 :
  dev_ok w d h held stored → kmem w1 = kmem w → 0 < snaplen → copies cpfn pkt ps →
  let r := rec_of d h snaplen ps now in
  let o := BPF_WORDALIGN (bd_slen d) in
  rec_ok r → rec_end h o r ≤ bd_bufsize d →
  ∃ w', append_packet d pkt (zlen ps) cpfn now h (h + caplen d h snaplen ps) o w1 =
      Ok (set_slen (rec_end h o r) d, w') ∧ touches d w (set_slen (rec_end h o r) d) w' ∧
    dev_ok w' (set_slen (rec_end h o r) d) h held (stored ++ [r]).
Proof.
  intros [Hh Hbif Hsz (s & Hs & Hst) Hot Hok Hhd] Hk Hsn Hcp r o Hr He.
  destruct (append_ok d pkt cpfn now h snaplen ps w1 s stored (bd_slen d)) as (c' & Hrun & Hholds);
    try done. { unfold buffer_holds. by rewrite Hk. }
  eexists. split; [exact Hrun|]. split.
  { apply touches_put; [done| |done]. unfold bufs. rewrite Hs. by left. }
  split; try done; simpl.
  - by exists s.
  - destruct (bd_hbuf d) as [hb|].
    + destruct Hot as (Hf & Hne & Hhb). split_and!; try done.
      apply buffer_holds_put; [congruence|]. unfold buffer_holds. by rewrite Hk.
    + destruct Hot as (-> & Hhl & f & Hf & Hne & Hfree). split_and!; try done.
      exists f. split_and!; try done.
      apply buffer_holds_put; [congruence|]. unfold buffer_holds. by rewrite Hk.
  - rewrite app_assoc. apply Forall_app. split; [done|]. by constructor.
Qed.

(** The store buffer is full and the free slot is taken: the stored records go
    to the hold buffer. *)
Lemma catch_rotates d pkt cpfn now h snaplen ps w held stored w1 :
  dev_ok w d h held stored → bd_hbuf d = None → stored ≠ [] → kmem w1 = kmem w → 0 < snaplen →
  copies cpfn pkt ps →
  let r := rec_of d h snaplen ps now in
  rec_ok r →
  ∃ d' w', append_packet (ROTATE_BUFFERS d) pkt (zlen ps) cpfn now h (h + caplen d h snaplen ps) 0 w1 =
      Ok (d', w') ∧ held = [] ∧ dev_ok w' d' h stored [r] ∧ same_settings d d' ∧
      bd_dcount d' = bd_dcount d ∧ touches d w d' w'.
Proof.
  intros [Hh Hbif Hsz (s & Hs & Hst) Hot Hok Hhd] Hhb Hne0 Hk Hsn Hcp r Hr. rewrite Hhb in Hot.
  destruct Hot as (-> & Hhl & f & Hf & Hne & Hfree). pose proof (zlen_nonneg ps).
  destruct (append_ok (ROTATE_BUFFERS d) pkt cpfn now h snaplen ps w1 f [] 0)
    as (c' & Hrun & Hholds); try done.
  { unfold buffer_holds. by rewrite Hk. }
  { change (BPF_WORDALIGN 0) with 0. unfold rec_end, rec_of. cbn [r_data].
    rewrite zlen_take_le; unfold caplen; cbn [bd_bufsize ROTATE_BUFFERS]; lia. }
  eexists _, _. split; [exact Hrun|]. split; [done|]. split.
  2: { split; [done|]. split; [done|]. apply touches_put; [| |done]; unfold bufs; simpl;
       rewrite Hs, ?Hhb, Hf; simpl; [apply Permutation_swap|]. right. by left. }
  split; try done; simpl.
  - by exists f.
  - rewrite Hs. split_and!; [done|congruence|]. apply buffer_holds_put; [congruence|].
    unfold buffer_holds. by rewrite Hk.
  - apply Forall_app. split; [done|]. by constructor.
Qed.

(** Appending a record or dropping the packet: [fits] is the test on the store
    buffer, a free slot gives a new store buffer. *)
Lemma catchpacket_ok d pkt cpfn now h snaplen ps w held stored :
  dev_ok w d h held stored → bd_bif d ≠ None → 0 < snaplen → zlen ps < 2 ^ 30 →
  copies cpfn pkt ps → is_u32 (now.1) → is_u32 (now.2) →
  let r := rec_of d h snaplen ps now in
  let fits := rec_end h (BPF_WORDALIGN (bd_slen d)) r <=? bd_bufsize d in
  ∃ d' w' held' stored', catchpacket d pkt (zlen ps) snaplen cpfn now w = Ok (d', w') ∧
    dev_ok w' d' h held' stored' ∧ same_settings d d' ∧ touches d w d' w' ∧
    if fits || bool_decide (bd_hbuf d = None)
    then held' ++ stored' = (held ++ stored) ++ [r] ∧ bd_dcount d' = bd_dcount d
    else held' = held ∧ stored' = stored ∧ bd_dcount d' = u32 (bd_dcount d + 1).
Proof.
  intros Hd Hb Hsn Hps Hcp Hn1 Hn2 r fits. pose proof Hd as [Hh Hbif Hsz (s0 & Hs0 & Hst0) Hot Hok Hhd].
  destruct (bd_bif d) as [bif|] eqn:Eb; [|done]. specialize (Hbif bif eq_refl).
  unfold catchpacket. rewrite Eb. cbn [nonnull]. rewrite (bind_Ok _ _ _ bif w) by done.
  rewrite Hbif. pose proof (zlen_nonneg ps).
  assert (i32 (h + Z.min snaplen (zlen ps)) = h + Z.min snaplen (zlen ps)) as -> by wrap_lia.
  replace (if h + Z.min snaplen (zlen ps) >? bd_bufsize d then bd_bufsize d
           else h + Z.min snaplen (zlen ps)) with (h + caplen d h snaplen ps)
    by (unfold caplen; destruct (Z.gtb_spec (h + Z.min snaplen (zlen ps)) (bd_bufsize d)); lia).
  assert (zlen (r_data r) = caplen d h snaplen ps) as Hdat
    by (unfold r; simpl; rewrite zlen_take_le; unfold caplen; lia).
  assert (rec_ok r) as Hrok.
  { unfold rec_ok. rewrite Hdat. unfold is_u32, caplen, r in *. simpl. lia. }
  replace (BPF_WORDALIGN (bd_slen d) + (h + caplen d h snaplen ps))
    with (rec_end h (BPF_WORDALIGN (bd_slen d)) r) by (unfold rec_end; lia).
  unfold fits. destruct (Z.gtb_spec (rec_end h (BPF_WORDALIGN (bd_slen d)) r) (bd_bufsize d)) as [Hgt|Hle].
  - destruct (Z.leb_spec (rec_end h (BPF_WORDALIGN (bd_slen d)) r) (bd_bufsize d)); [lia|].
    destruct (bd_hbuf d) as [hb|] eqn:Ehb; simpl.
    + destruct Hot as (-> & Hne & Hhb). eexists (count_dropped d), w, held, stored.
      split; [done|]. split; [|done]. by destruct Hd.
    + destruct Hot as (Hheld & _ & f & -> & _).
      rewrite (bind_Ok _ _ _ tt (Kern (kmem w) (alloc_fails w) (wakeups w + 1))) by done.
      destruct (catch_rotates d pkt cpfn now h snaplen ps w held stored
        (Kern (kmem w) (alloc_fails w) (wakeups w + 1))) as (d' & w' & Hrun & -> & Hok' & Hset & Hdc & Ht); try done.
      { intros ->. destruct Hst0 as (c0 & _ & _ & _ & Hsl & _). simpl in Hsl. rewrite Hsl in Hgt.
        change (BPF_WORDALIGN 0) with 0 in Hgt. unfold rec_end, caplen in *. lia. }
      by exists d', w', stored, [r].
  - destruct (Z.leb_spec (rec_end h (BPF_WORDALIGN (bd_slen d)) r) (bd_bufsize d)); [|lia].
    assert (∃ w1, kmem w1 = kmem w ∧
      (if negb (bd_immediate d =? 0) then bpf_wakeup else mret tt) w = Ok (tt, w1)) as (w1 & Hk & Hrun1).
    { destruct (negb (bd_immediate d =? 0)); eexists; by split; [|done]. }
    mstep Hrun1.
    destruct (catch_fits d pkt cpfn now h snaplen ps w held stored w1) as (w' & Hrun & Ht & Hok'); try done.
    eexists _, w', held, (stored ++ [r]). split; [exact Hrun|]. split; [done|].
    split; [done|]. split; [done|]. simpl. by rewrite app_assoc.
Qed.
