(* ===== verification/BpfDevFifo.v ===== *)
(** * xnu packet capture: packets in, records out, several listeners *)

From Stdlib Require Import ZifyBool.
From S2P Require Import Prelude Bpf BpfSafe BpfCorrect BpfDev BpfDevCorrect.
Import Bpf BpfDev.

(** ** xnu packet capture: packets in, records out

    Capturing and reading as operations on the queue of records, and the
    system of arriving packets, reads, wake-ups and flushes: what was read,
    then what waits in the hold and store buffers, is what was captured, in
    order. *)

(** ** Copies *)

Lemma bcopy_copies ps : copies bcopy (Buffer ps) ps.
Proof.
  intros n Hn. unfold bcopy. simpl. by destruct (Z.leb_spec n (zlen ps)); [|lia].
Qed.

Lemma mcopy_loop_ok ms n :
  0 ≤ n ≤ zlen (concat ms) → mcopy_loop ms n = Ok (take (Z.to_nat n) (concat ms)).
Proof.
  revert n. induction ms as [|m ms IH]; intros n Hn.
  - change (zlen (concat [])) with 0 in Hn. by replace n with 0 by lia.
  - cbn [concat] in *. rewrite zlen_app in Hn. pose proof (zlen_nonneg m). cbn [mcopy_loop].
    destruct (Z.ltb_spec 0 n); [|by replace n with 0 by lia].
    rewrite IH by (pose proof (zlen_nonneg (concat ms)); lia). cbn. f_equal.
    rewrite take_app. f_equal; [|f_equal; unfold zlen in *; lia].
    destruct (decide (n ≤ zlen m)).
    + do 2 f_equal. lia.
    + rewrite !take_ge; [done|..]; unfold zlen in *; lia.
Qed.

Lemma bpf_mcopy_copies m next : copies bpf_mcopy (Mbuf m next) (chain m next).
Proof. intros n Hn. by apply (mcopy_loop_ok (m :: next)). Qed.

(** ** Packets in *)

Definition filter_ok (f : option (list bpf_insn)) : Prop :=
  match f with
  | None => True
  | Some f => bpf_validate f = Ok true ∧ Forall insn_wf f ∧ Forall x_mem_ok f ∧ zlen f < 2 ^ 31
  end.

Section System.
Context `{WideShift}.

Lemma filter_runs stack f p wirelen buflen :
  filter_ok f → packet_ok p buflen → is_u32 wirelen → length stack = 16%nat →
  ∃ v, bpf_filter stack f p wirelen buflen = Ok v ∧ is_u32 v.
Proof.
  intros Hf Hp Hw Hs. destruct f as [f|].
  - destruct Hf as (Hv & Hwf & Hx & Hl). unfold bpf_filter. apply filter_loop_safe; try done.
    + destruct f; [done|]. rewrite zlen_cons. pose proof (zlen_nonneg f). lia.
    + unfold zlen. lia.
  - eexists. split; [done|]. apply u32_is_u32.
Qed.

Lemma dev_ok_received w d h held stored :
  dev_ok w d h held stored → dev_ok w (count_received d) h held stored.
Proof. by intros []. Qed.

(** One listener and one packet with the bytes [ps]. *)
Lemma tap_one_ok stack pkt ps buflen cpfn now d w h held stored :
  dev_ok w d h held stored → bd_bif d ≠ None → filter_ok (bd_filter d) →
  packet_ok pkt buflen → copies cpfn pkt ps → zlen ps < 2 ^ 30 → length stack = 16%nat →
  is_u32 (now.1) → is_u32 (now.2) →
  ∃ v d' w' held' stored', bpf_filter stack (bd_filter d) pkt (zlen ps) buflen = Ok v ∧
    tap_one stack pkt (zlen ps) buflen cpfn now d w = Ok (d', w') ∧
    dev_ok w' d' h held' stored' ∧ same_settings (count_received d) d' ∧ touches d w d' w' ∧
    let r := rec_of d h v ps now in
    if v =? 0 then held' = held ∧ stored' = stored ∧ bd_dcount d' = bd_dcount d
    else if (rec_end h (BPF_WORDALIGN (bd_slen d)) r <=? bd_bufsize d) || bool_decide (bd_hbuf d = None)
    then held' ++ stored' = (held ++ stored) ++ [r] ∧ bd_dcount d' = bd_dcount d
    else held' = held ∧ stored' = stored ∧ bd_dcount d' = u32 (bd_dcount d + 1).
Proof.
  intros Hd Hb Hf Hp Hc Hps Hs Hn1 Hn2. pose proof (zlen_nonneg ps).
  destruct (filter_runs stack (bd_filter d) pkt (zlen ps) buflen) as (v & Hv & Hr); try done.
  { unfold is_u32. lia. }
  exists v. unfold tap_one. rewrite (bind_Ok _ _ _ v w) by (unfold lift; simpl; by rewrite Hv).
  destruct (Z.eqb_spec v 0) as [->|Hne]; simpl.
  - exists (count_received d), w, held, stored. split_and!; try done. by apply dev_ok_received.
  - destruct (catchpacket_ok (count_received d) pkt cpfn now h v ps w held stored)
      as (d' & w' & held' & stored' & Hrun & Hok & Hset & Ht & Hres); try done.
    { by apply dev_ok_received. } { unfold is_u32 in Hr. lia. }
    by exists d', w', held', stored'.
Qed.

(** ** Records out *)

Lemma parse_buffer w b size h rs n c :
  18 ≤ h ≤ BPF_MINBUFSIZE → Forall rec_ok rs → kmem w !! b = Some c → zlen c = size →
  recs_at h c 0 rs → n = recs_end h 0 0 rs → n ≤ size →
  zlen (take (Z.to_nat n) c) = n ∧ parse (length rs) (take (Z.to_nat n) c) 0 n = Some rs.
Proof.
  intros Hh Hok Hb Hsz Hrs Hn Hle. pose proof (recs_nonneg h rs ltac:(lia)).
  split; [unfold zlen in *; rewrite length_take; lia|]. rewrite Hn.
  apply parse_recs; try done; [lia|].
  apply (recs_at_frame h c _ 0 0); try done; [lia|]. intros j Hj. by rewrite lookup_take_lt by lia.
Qed.

Lemma rotate_ok w d h held stored :
  dev_ok w d h held stored → bd_hbuf d = None → bd_slen d ≠ 0 →
  held = [] ∧ dev_ok w (ROTATE_BUFFERS d) h stored [] ∧ bd_hbuf (ROTATE_BUFFERS d) ≠ None.
Proof.
  intros [Hh Hbif Hsz (s & Hs & Hst) Hot Hok Hhd] Hhb Hsl. rewrite Hhb in Hot.
  destruct Hot as (-> & Hhl & f & Hf & Hne & Hfree). split; [done|]. split; [|simpl; congruence].
  split; try done; simpl.
  - by exists f.
  - rewrite Hs. split_and!; [done|congruence|done].
  - by rewrite app_nil_r.
  - intros ->. destruct Hst as (c & _ & _ & _ & Hn & _). simpl in Hn. lia.
Qed.

(** The end of [bpfread]: the held records are handed over. *)
Lemma read_finish_ok w d h held stored e :
  dev_ok w d h held stored → bd_hbuf d ≠ None →
  ∃ d' data, read_finish e (d, HaveData) w = Ok ((d', Read e data), w) ∧
    dev_ok w d' h [] stored ∧ same_settings d d' ∧ bd_dcount d' = bd_dcount d ∧
    parse (length held) data 0 (zlen data) = Some held.
Proof.
  intros [Hh Hbif Hsz (s & Hs & Hst) Hot Hok Hhd] Hhb.
  destruct (bd_hbuf d) as [b|] eqn:Eb; [|done]. destruct Hot as (Hf & Hne & (c & Hc & Hl & Hrs & Hn & Hle)).
  apply Forall_app in Hok as [Hok1 Hok2].
  destruct (parse_buffer w b (bd_bufsize d) h held (bd_hlen d) c) as [Hz Hp]; try done.
  unfold read_finish. eexists _, _. split.
  { rewrite (bind_Ok _ _ _ (take (Z.to_nat (bd_hlen d)) c) w); [done|].
    unfold fetch_bytes, mbind, M_bind, gets. rewrite Eb. simpl. rewrite Hc.
    by destruct (Z.leb_spec (bd_hlen d) (zlen c)); [|lia]. }
  split; [|split; [done|split; [done|by rewrite Hz]]]. split; try done; simpl.
  - by exists s.
  - split_and!; try done. exists b. split_and!; try done. exists c. split_and!; try done. lia.
Qed.

(** What a call of [bpfread] or its continuation gives: records from the front
    of the queue, or nothing.  When [must] is set, a queue that is not empty
    gives at least one record. *)
Definition reads (must : bool) (w : kern) (d : bpf_d) (h : Z) (queue : list rec)
    (m : M kern (bpf_d * read_result)) : Prop :=
  ∃ d' res held' stored', m w = Ok ((d', res), w) ∧ dev_ok w d' h held' stored' ∧
    same_settings d d' ∧ bd_dcount d' = bd_dcount d ∧
    match res with
    | Read _ data => ∃ rs, parse (length rs) data 0 (zlen data) = Some rs ∧
                           rs ++ held' ++ stored' = queue ∧
                           (must = true → rs = [] → queue = [])
    | Asleep => held' ++ stored' = queue ∧ d' = d ∧ must = false
    end.

Lemma reads_held must w d h held stored e :
  dev_ok w d h held stored → bd_hbuf d ≠ None →
  reads must w d h (held ++ stored) (read_finish e (d, HaveData)).
Proof.
  intros Hd Hb. destruct (read_finish_ok w d h held stored e Hd Hb) as (d' & data & Hrun & Hok & Hs & Hc & Hp).
  exists d', (Read e data), [], stored. split_and!; try done. exists held. split_and!; try done.
  intros _ Hnil. by apply (ok_held _ _ _ _ _ Hd) in Hnil.
Qed.

Lemma reads_rotated must w d h held stored e :
  dev_ok w d h held stored → bd_hbuf d = None → bd_slen d ≠ 0 →
  reads must w d h (held ++ stored) (read_finish e (ROTATE_BUFFERS d, HaveData)).
Proof.
  intros Hd Hb Hsl. destruct (rotate_ok w d h held stored Hd Hb Hsl) as (-> & Hok & Hne).
  destruct (reads_held must _ _ _ _ _ e Hok Hne) as (d' & res & held' & stored' & Hrun & Hok' & Hs & Hc & Hres).
  rewrite app_nil_r in Hres. exists d', res, held', stored'. split_and!; try done.
  destruct res; [done|]. unfold read_finish in Hrun. apply bind_inv in Hrun as (? & ? & _ & Hx). done.
Qed.

Lemma reads_nothing must w d h held stored e err :
  dev_ok w d h held stored → (must = true → held ++ stored = []) →
  reads must w d h (held ++ stored) (read_finish e (d, ReturnError err)).
Proof.
  intros Hd Hm. exists d, (Read err []), held, stored. split_and!; try done. exists []. split_and!; auto.
Qed.

(** An empty store buffer and no hold buffer: nothing waits. *)
Lemma nothing_waits w d h held stored :
  dev_ok w d h held stored → bd_hbuf d = None → bd_slen d = 0 → held ++ stored = [].
Proof.
  intros [Hh _ _ (s & _ & c & _ & _ & _ & Hn & _) Hot _ _] Hb Hsl. rewrite Hb in Hot.
  destruct Hot as (-> & _). destruct stored as [|r rs]; [done|]. exfalso. simpl in Hn.
  pose proof (recs_end_ge h (BPF_WORDALIGN (rec_end h 0 r)) (rec_end h 0 r) rs) as Hge.
  pose proof (rec_end_aligned h 0 r). pose proof (zlen_nonneg (r_data r)). unfold rec_end in *. lia.
Qed.

Lemma reads_timeout must w d h held stored e :
  dev_ok w d h held stored → reads must w d h (held ++ stored) (read_finish e (read_timeout d)).
Proof.
  intros Hd. unfold read_timeout. destruct (bd_hbuf d) eqn:Eb.
  - by apply reads_held; [|rewrite Eb].
  - destruct (Z.eqb_spec (bd_slen d) 0) as [Hz|Hz]; [|by apply reads_rotated].
    apply reads_nothing; [done|]. intros _. by eapply nothing_waits.
Qed.

Lemma reads_wait w d h held stored e ndelay :
  dev_ok w d h held stored →
  reads (ndelay && bool_decide (bd_bif d ≠ None)) w d h (held ++ stored)
    (read_finish e (read_wait d ndelay)).
Proof.
  intros Hd. unfold read_wait. destruct (bd_hbuf d) eqn:Eb; [by apply reads_held; [|rewrite Eb]|].
  destruct (Z.eqb_spec (bd_slen d) 0) as [Hz|Hz]; rewrite ?andb_false_r; simpl.
  2: destruct (negb (bd_immediate d =? 0)); [by apply reads_rotated|]; simpl.
  all: destruct (bd_bif d) eqn:Ebif; [|apply reads_nothing; [done|by rewrite andb_false_r]].
  all: destruct ndelay; [by apply reads_timeout|].
  all: exists d, Asleep, held, stored; split_and!; done.
Qed.

Lemma reads_resume w d h held stored e err :
  dev_ok w d h held stored →
  reads (err =? EWOULDBLOCK) w d h (held ++ stored) (read_finish e (read_resume d err)).
Proof.
  intros Hd. unfold read_resume.
  destruct (Z.eqb_spec err EWOULDBLOCK) as [->|Hne]; [by apply reads_timeout|].
  case_match; [by apply reads_nothing|]. by apply (reads_wait w d h held stored e false).
Qed.

End System.

(** ** Setting up and flushing *)

Lemma buffer_empty w b size h h' rs n :
  buffer_holds w b size h rs n → 0 ≤ size → buffer_holds w b size h' [] 0.
Proof. intros (c & Hc & Hl & _) Hs. by exists c. Qed.

Lemma reset_ok w d h held stored : dev_ok w d h held stored → dev_ok w (reset_d d) h [] [].
Proof.
  intros [Hh Hbif Hsz (s & Hs & Hst) Hot Hok Hhd].
  assert (0 ≤ bd_bufsize d) as H0 by lia.
  unfold reset_d. destruct (bd_hbuf d) as [b|] eqn:Eb.
  - destruct Hot as (Hf & Hne & Hhb). split; try done; simpl.
    + exists s. split; [done|]. by eapply buffer_empty.
    + split_and!; try done. exists b. split_and!; try done. by eapply buffer_empty.
  - destruct Hot as (-> & Hhl & f & Hf & Hne & Hfree). split; try done; simpl.
    + exists s. split; [done|]. by eapply buffer_empty.
    + split_and!; try done. by exists f.
Qed.

Lemma reset_filter d : bd_filter (reset_d d) = bd_filter d.
Proof. unfold reset_d. by destruct (bd_hbuf d). Qed.

Lemma fresh_buffer w b size h :
  kmem w !! b = Some (replicate (Z.to_nat size) None) → 0 ≤ size → buffer_holds w b size h [] 0.
Proof. intros Hb Hs. eexists. split; [done|]. rewrite zlen_replicate. simpl. lia. Qed.

(** The header of a record fits the smallest buffer, for every link layer. *)
Lemma attach_hdrlen_ok hdrlen : 0 ≤ hdrlen → 18 ≤ attach_hdrlen hdrlen ≤ 21.
Proof.
  intros Hh. unfold attach_hdrlen. pose proof (wordalign_bounds (hdrlen + 18)). lia.
Qed.

(** ** Several listeners *)

Lemma dev_ok_frame w w' d h held stored :
  dev_ok w d h held stored → (∀ b, b ∈ bufs d → kmem w' !! b = kmem w !! b) →
  dev_ok w' d h held stored.
Proof.
  intros [Hh Hbif Hsz (s & Hs & Hst) Hot Hok Hhd] Hf.
  assert (∀ b size rs n, b ∈ bufs d → buffer_holds w b size h rs n → buffer_holds w' b size h rs n)
    as Hb by (intros b size rs n Hin; unfold buffer_holds; by rewrite Hf).
  split; try done.
  - exists s. split; [done|]. apply Hb; [|done]. unfold bufs. rewrite Hs. by left.
  - destruct (bd_hbuf d) as [b|] eqn:Eb.
    + destruct Hot as (Hfb & Hne & Hhb). split_and!; try done. apply Hb; [|done].
      unfold bufs. rewrite Hs, Eb. right. by left.
    + destruct Hot as (Hl & Hhl & f & Hfb & Hne & Hfree). split_and!; try done.
      exists f. split_and!; try done. apply Hb; [|done].
      unfold bufs. rewrite Hs, Eb, Hfb. right. by left.
Qed.

Lemma validate_runs f : f ≠ [] → ∃ b, bpf_validate f = Ok b.
Proof.
  intros Hne. unfold bpf_validate. case_match; [|by eexists].
  destruct (last f) eqn:El; [by eexists|]. by apply last_None in El.
Qed.

(** A listener and the records in its buffers. *)
Record listener := Listener { l_d : bpf_d; l_h : Z; l_held : list rec; l_stored : list rec }.

Definition listener_ok (w : kern) (l : listener) : Prop :=
  dev_ok w (l_d l) (l_h l) (l_held l) (l_stored l) ∧ bd_bif (l_d l) ≠ None ∧
  filter_ok (bd_filter (l_d l)).

Definition listeners_ok (w : kern) (ls : list listener) : Prop :=
  Forall (listener_ok w) ls ∧ NoDup (concat ((bufs ∘ l_d) <$> ls)).

Section Fifo.
Context `{WideShift}.

(** What a packet [ps] that is [pkt] in memory does to a listener: it is counted;
    when the filter accepts it, its record goes to the end of the queue, or it
    is counted as dropped. *)
Definition captures (stack : list Z) (pkt : packet) (ps : list Z) (buflen : Z) (now : Z * Z)
    (l l' : listener) : Prop :=
  let '(d, d') := (l_d l, l_d l') in
  ∃ v, bpf_filter stack (bd_filter d) pkt (zlen ps) buflen = Ok v ∧
    same_settings (count_received d) d' ∧ l_h l' = l_h l ∧
    let r := rec_of d (l_h l) v ps now in
    if v =? 0 then l_held l' = l_held l ∧ l_stored l' = l_stored l ∧ bd_dcount d' = bd_dcount d
    else if (rec_end (l_h l) (BPF_WORDALIGN (bd_slen d)) r <=? bd_bufsize d) ||
            bool_decide (bd_hbuf d = None)
    then l_held l' ++ l_stored l' = (l_held l ++ l_stored l) ++ [r] ∧ bd_dcount d' = bd_dcount d
    else l_held l' = l_held l ∧ l_stored l' = l_stored l ∧ bd_dcount d' = u32 (bd_dcount d + 1).

Lemma tap_listener stack pkt ps buflen cpfn now w l :
  listener_ok w l → packet_ok pkt buflen → copies cpfn pkt ps → zlen ps < 2 ^ 30 →
  length stack = 16%nat → is_u32 (now.1) → is_u32 (now.2) →
  ∃ l' w', tap_one stack pkt (zlen ps) buflen cpfn now (l_d l) w = Ok (l_d l', w') ∧
    listener_ok w' l' ∧ touches (l_d l) w (l_d l') w' ∧ captures stack pkt ps buflen now l l'.
Proof.
  intros (Hd & Hb & Hf) Hp Hc Hps Hs H1 H2.
  destruct (tap_one_ok stack pkt ps buflen cpfn now (l_d l) w (l_h l) (l_held l) (l_stored l))
    as (v & d' & w' & held' & stored' & Hv & Hrun & Hok & Hset & Ht & Hres); try done.
  exists (Listener d' (l_h l) held' stored'), w'. split_and!; try done.
  - destruct Hset as (Hfl & Hbf & _). split_and!; simpl; [done|by rewrite Hbf|by rewrite Hfl].
  - by exists v.
Qed.

Lemma listener_ok_frame w w' l :
  listener_ok w l → (∀ b, b ∈ bufs (l_d l) → kmem w' !! b = kmem w !! b) → listener_ok w' l.
Proof. intros (Hd & Hb & Hf) Hfr. split; [by eapply dev_ok_frame|done]. Qed.

Lemma listeners_frame w w' (ls : list listener) d :
  Forall (listener_ok w) ls → NoDup (bufs d ++ concat ((bufs ∘ l_d) <$> ls)) →
  (∀ b, b ∉ bufs d → kmem w' !! b = kmem w !! b) → Forall (listener_ok w') ls.
Proof.
  intros Hls (_ & Hd & _)%NoDup_app Hk. rewrite Forall_forall in Hls |- *. intros l Hin.
  apply (listener_ok_frame w); [by apply Hls|]. intros b Hb. apply Hk. intros Hbd.
  apply (Hd b Hbd). apply list_elem_of_In, in_concat. exists (bufs (l_d l)).
  split; apply list_elem_of_In; [|done]. apply list_elem_of_fmap. by exists l.
Qed.

(** The loop over the listeners, for a packet in either representation. *)
Lemma tap_list_ok tap stack pkt ps buflen cpfn now w ls :
  (∀ d ds, tap (d :: ds) =
     (d ← tap_one stack pkt (zlen ps) buflen cpfn now d; ds ← tap ds; mret (d :: ds))) →
  tap [] = mret [] →
  listeners_ok w ls → packet_ok pkt buflen → copies cpfn pkt ps → zlen ps < 2 ^ 30 →
  length stack = 16%nat → is_u32 (now.1) → is_u32 (now.2) →
  ∃ ls' w', tap (l_d <$> ls) w = Ok (l_d <$> ls', w') ∧ listeners_ok w' ls' ∧
    Forall2 (captures stack pkt ps buflen now) ls ls' ∧
    concat ((bufs ∘ l_d) <$> ls') ≡ₚ concat ((bufs ∘ l_d) <$> ls) ∧
    (∀ b, b ∉ concat ((bufs ∘ l_d) <$> ls) → kmem w' !! b = kmem w !! b).
Proof.
  intros Hcons Hnil Hls Hp Hc Hps Hs H1 H2. revert w Hls.
  induction ls as [|l ls IH]; intros w [Hls Hnd].
  { exists [], w. simpl. rewrite Hnil. split_and!; (done || constructor). }
  inversion_clear Hls as [|?? Hl Hls']. simpl in Hnd |- *. rewrite Hcons.
  destruct (tap_listener stack pkt ps buflen cpfn now w l) as (l' & w1 & Hrun & Hl' & [Hbuf Hk] & Hcap);
    try done. mstep Hrun.
  destruct (IH w1) as (ls' & w2 & Hrun2 & [Hls2 Hnd2] & Hcaps & Hbufs & Hk2).
  { split; [by eapply listeners_frame|]. by apply NoDup_app in Hnd as (_ & _ & ?). }
  mstep Hrun2. exists (l' :: ls'), w2. simpl. split_and!; try done.
  - split.
    + constructor; [|done]. apply (listener_ok_frame w1); [done|]. intros b Hb. apply Hk2.
      rewrite Hbuf in Hb. apply NoDup_app in Hnd as (_ & Hd & _). by apply Hd.
    + simpl. rewrite Hbuf, Hbufs. done.
  - by constructor.
  - by rewrite Hbuf, Hbufs.
  - intros b Hb. rewrite not_elem_of_app in Hb. destruct Hb. by rewrite Hk2, Hk.
Qed.

(** [bpf_tap] gives a packet to every listener of the interface, each with
    its own filter and buffers: accepted packets are appended as records, cut
    to the length the filter returned and the buffer can take, or are counted
    as dropped when the store buffer is full and the last one has not been
    read; nothing is written outside the buffers. *)
Theorem bpf_tap_correct stack ps now w ls :
  listeners_ok w ls → 0 < zlen ps < 2 ^ 30 → Forall is_byte ps → length stack = 16%nat →
  is_u32 (now.1) → is_u32 (now.2) →
  ∃ ls' w', bpf_tap stack (l_d <$> ls) ps now w = Ok (l_d <$> ls', w') ∧ listeners_ok w' ls' ∧
    Forall2 (captures stack (Buffer ps) ps (zlen ps) now) ls ls' ∧
    (∀ b, b ∉ concat ((bufs ∘ l_d) <$> ls) → kmem w' !! b = kmem w !! b).
Proof.
  intros Hls Hps Hb Hs H1 H2.
  destruct (tap_list_ok (λ ds, bpf_tap stack ds ps now) stack (Buffer ps) ps (zlen ps) bcopy now w ls)
    as (ls' & w' & Hrun & Hok & Hcap & _ & Hk); try done; try lia.
  - split; [done|]. split; [lia|done].
  - apply bcopy_copies.
  - by exists ls', w'.
Qed.

End Fifo.
