(* ===== verification/BpfDevLife.v ===== *)
(** * xnu packet capture: the life of a descriptor

    The requests a descriptor gets from its opening on (packets, reads and
    their continuations after a sleep, [ioctl] requests, the loss of the
    interface), executed by the model, and an abstract specification of them:
    a queue of records, two counters and the settings.  [serve_refines] shows
    that no request crashes and that each does what the specification allows. *)

From Stdlib Require Import ZifyBool.
From S2P Require Import Prelude Bpf BpfSafe BpfCorrect BpfDev BpfDevCorrect.
From S2P Require Import BpfDevFifo.
Import Bpf BpfDev.

Inductive request :=
| Tap (pkt : list Z) (now : Z * Z)
| Mtap (m : list Z) (next : list (list Z)) (sent : bool) (now : Z * Z)
| ReadCall (resid : Z) (ndelay : bool) (uio_error : Z)
| ReadResume (error uio_error : Z)
| SetFilter (insns : option (list bpf_insn)) (bf_len copyin_error : Z)
| SetIf (bp : option bpf_if) (up : bool)
| IfDetach
| SetBufLen (maxbufsize size : Z)
| Flush
| SetImmediate (v : Z)
| SetSeeSent (v : Z).

(** ** Specification *)

Record abs := Abs {
  a_filter : option (list bpf_insn);
  a_bif : option bpf_if;
  a_size : Z;
  a_seesent : Z;
  a_queue : list rec;
  a_recv : Z;
  a_drop : Z
}.

Definition flush (a : abs) : abs :=
  Abs (a_filter a) (a_bif a) (a_size a) (a_seesent a) [] 0 0.
Definition with_filter (f : option (list bpf_insn)) (a : abs) : abs :=
  Abs f (a_bif a) (a_size a) (a_seesent a) (a_queue a) (a_recv a) (a_drop a).
Definition with_bif (b : option bpf_if) (a : abs) : abs :=
  Abs (a_filter a) b (a_size a) (a_seesent a) (a_queue a) (a_recv a) (a_drop a).
Definition with_size (n : Z) (a : abs) : abs :=
  Abs (a_filter a) (a_bif a) n (a_seesent a) (a_queue a) (a_recv a) (a_drop a).
Definition with_seesent (v : Z) (a : abs) : abs :=
  Abs (a_filter a) (a_bif a) (a_size a) v (a_queue a) (a_recv a) (a_drop a).

(** One more packet seen, [n] more dropped, [q] the queue. *)
Definition seen (q : list rec) (n : Z) (a : abs) : abs :=
  Abs (a_filter a) (a_bif a) (a_size a) (a_seesent a) q (a_recv a + 1) (a_drop a + n).

(** The record of a packet, with at most [room] bytes of it. *)
Definition record_of (room snaplen : Z) (ps : list Z) (now : Z * Z) : rec :=
  Rec (now.1) (now.2) (zlen ps) (take (Z.to_nat (Z.min (Z.min snaplen (zlen ps)) room)) ps).

(** A packet comes to the interface.  It is dropped only when older records wait
    to be read and it does not fit in one buffer with the newer ones. *)
Definition spec_packet (stack : list Z) `{WideShift} (pkt : packet) (ps : list Z) (buflen : Z)
    (now : Z * Z) (a a' : abs) : Prop :=
  match a_bif a with
  | None => a' = a
  | Some bif =>
    ∃ v, bpf_filter stack (a_filter a) pkt (zlen ps) buflen = Ok v ∧
    let r := record_of (a_size a - bif_hdrlen bif) v ps now in
    if v =? 0 then a' = seen (a_queue a) 0 a
    else a' = seen (a_queue a ++ [r]) 0 a ∨
         a' = seen (a_queue a) 1 a ∧
         ∃ older newer, a_queue a = older ++ newer ∧ older ≠ [] ∧
           a_size a < recs_end (bif_hdrlen bif) 0 0 (newer ++ [r])
  end.

(** A read takes records from the front of the queue; at least one when it
    [must] not wait and there are some. *)
Definition spec_read (must : bool) (a : abs) (out : list rec) (a' : abs) : Prop :=
  out ++ a_queue a' = a_queue a ∧ (must = true → out = [] → a_queue a = []) ∧
  a' = Abs (a_filter a) (a_bif a) (a_size a) (a_seesent a) (a_queue a') (a_recv a) (a_drop a).

Definition valid_filter (insns : option (list bpf_insn)) (bf_len : Z) : Prop :=
  match insns with
  | None => bf_len = 0
  | Some user => bf_len ≤ BPF_MAXINSNS ∧ bf_len ≤ zlen user ∧ bpf_validate (copied user bf_len) = Ok true
  end.

(** The program that is installed. *)
Definition program (insns : option (list bpf_insn)) (bf_len : Z) : option (list bpf_insn) :=
  match insns with Some user => Some (copied user bf_len) | None => None end.

(** [out] is what a reader gets. *)
Definition spec (stack : list Z) `{WideShift} (r : request) (a : abs) (out : list rec) (a' : abs) : Prop :=
  match r with
  | Tap pkt now => out = [] ∧ spec_packet stack (Buffer pkt) pkt (zlen pkt) now a a'
  | Mtap m next sent now =>
    out = [] ∧
    if (a_seesent a =? 0) && sent then a' = a
    else spec_packet stack (Mbuf m next) (chain m next) 0 now a a'
  | ReadCall resid ndelay _ =>
    if resid =? a_size a then spec_read (ndelay && bool_decide (a_bif a ≠ None)) a out a'
    else out = [] ∧ a' = a
  | ReadResume error _ => spec_read (error =? EWOULDBLOCK) a out a'
  | SetFilter insns bf_len _ =>
    out = [] ∧ (a' = a ∨ valid_filter insns bf_len ∧ a' = flush (with_filter (program insns bf_len) a))
  | SetIf bp up =>
    out = [] ∧ (a' = a ∨ up = true ∧ bp ≠ None ∧ a' = flush (with_bif bp a))
  | IfDetach => out = [] ∧ a' = with_bif None a
  | SetBufLen maxbufsize size =>
    out = [] ∧
    a' = match a_bif a with
         | Some _ => a
         | None => with_size (Z.max BPF_MINBUFSIZE (Z.min maxbufsize size)) a
         end
  | Flush => out = [] ∧ a' = flush a
  | SetImmediate _ => out = [] ∧ a' = a
  | SetSeeSent v => out = [] ∧ a' = with_seesent (i32 v) a
  end.

(** ** Execution *)

Definition listening (d : bpf_d) : list bpf_d :=
  match bd_bif d with Some _ => [d] | None => [] end.

Definition read_data (res : read_result) : cells :=
  match res with Read _ data => data | Asleep => [] end.

Definition serve (stack : list Z) `{WideShift} (r : request) (d : bpf_d) : M kern (bpf_d * cells) :=
  match r with
  | Tap pkt now =>
    ds ← bpf_tap stack (listening d) pkt now;
    mret (default d (head ds), [])
  | Mtap m next sent now =>
    ds ← bpf_mtap stack (listening d) m next sent now;
    mret (default d (head ds), [])
  | ReadCall resid ndelay uio_error =>
    '(d, res) ← bpfread d resid ndelay uio_error; mret (d, read_data res)
  | ReadResume error uio_error =>
    '(d, res) ← bpfread_resume d error uio_error; mret (d, read_data res)
  | SetFilter insns bf_len copyin_error =>
    '(_, d) ← bpf_setf d insns bf_len copyin_error; mret (d, [])
  | SetIf bp up => '(_, d) ← bpf_setif d bp up; mret (d, [])
  | IfDetach =>
    match bd_bif d with
    | Some _ => _ ← bpf_wakeup; mret (bpf_detachd d, [])
    | None => mret (d, [])
    end
  | SetBufLen maxbufsize size => mret ((set_buflen maxbufsize size d).2, [])
  | Flush => mret (reset_d d, [])
  | SetImmediate v => mret (set_immediate v d, [])
  | SetSeeSent v => mret (set_seesent v d, [])
  end.

(** What the environment guarantees: packets of bytes, with at least one byte and no
    empty mbuf, the time in 32 bits, a [bpf_if] set up by [bpfattach] and known by its
    address; and what the code needs but does not check: a program has at least one
    instruction and no [BPF_LDX] or [BPF_STX] outside the scratch memory ([x_mem_ok]), and
    [BIOCSBLEN] comes only while there are no buffers
    ([bpf_resize_after_detach_overflows]). *)
Definition request_ok (r : request) (d : bpf_d) : Prop :=
  match r with
  | Tap pkt now =>
    0 < zlen pkt < 2 ^ 30 ∧ Forall is_byte pkt ∧ is_u32 (now.1) ∧ is_u32 (now.2)
  | Mtap m next _ now =>
    packet_ok (Mbuf m next) 0 ∧ zlen (chain m next) < 2 ^ 30 ∧ is_u32 (now.1) ∧ is_u32 (now.2)
  | SetFilter (Some user) bf_len _ =>
    0 < bf_len ∧ Forall insn_wf (copied user bf_len) ∧ Forall x_mem_ok (copied user bf_len)
  | SetIf (Some bif) _ =>
    (∃ hdrlen, 0 ≤ hdrlen ∧ bif_hdrlen bif = attach_hdrlen hdrlen) ∧
    (∀ b, bd_bif d = Some b → bif_id b = bif_id bif → b = bif)
  | SetBufLen maxbufsize size =>
    BPF_MINBUFSIZE ≤ maxbufsize < 2 ^ 30 ∧ 0 ≤ size ∧ bd_sbuf d = None
  | _ => True
  end.

(** ** Simulation *)

Definition no_buffers (d : bpf_d) : Prop :=
  bd_sbuf d = None ∧ bd_hbuf d = None ∧ bd_bif d = None ∧ bd_slen d = 0 ∧ bd_hlen d = 0.

Definition queue_ok (w : kern) (d : bpf_d) (q : list rec) : Prop :=
  no_buffers d ∧ q = [] ∨
  ∃ h held stored, dev_ok w d h held stored ∧ q = held ++ stored.

Record refines (w : kern) (d : bpf_d) (a : abs) : Prop := {
  ref_filter : a_filter a = bd_filter d;
  ref_bif : a_bif a = bd_bif d;
  ref_size : a_size a = bd_bufsize d;
  ref_seesent : a_seesent a = bd_seesent d;
  ref_recv : bd_rcount d = u32 (a_recv a);
  ref_drop : bd_dcount d = u32 (a_drop a);
  ref_range : BPF_MINBUFSIZE ≤ bd_bufsize d < 2 ^ 30;
  ref_valid : filter_ok (bd_filter d);
  ref_queue : queue_ok w d (a_queue a)
}.

Lemma count_u32 c n : c = u32 n → u32 (c + 1) = u32 (n + 1).
Proof. intros ->. unfold u32, wrapu. apply Z.add_mod_idemp_l. lia. Qed.

(** A read that leaves the settings alone. *)
Lemma same_refines w d a d' w' q n m :
  refines w d a → same_settings d d' → queue_ok w' d' q →
  u32 (a_recv a) = u32 n → bd_dcount d' = u32 m →
  refines w' d' (Abs (a_filter a) (a_bif a) (a_size a) (a_seesent a) q n m).
Proof.
  intros [Hf Hb Hs Hse Hr Hd Hra Hv Hq] (Hf' & Hb' & Hs' & Hi' & Hse' & Hr') Hq' Hn Hm.
  split; simpl; rewrite ?Hf', ?Hb', ?Hs', ?Hse', ?Hr'; congruence.
Qed.

Lemma unchanged_refines w d a d' w' :
  refines w d a → same_settings d d' → bd_dcount d' = bd_dcount d → queue_ok w' d' (a_queue a) →
  refines w' d' a.
Proof.
  intros Href Hset Hdc Hq. pose proof (same_refines w d a d' w' (a_queue a) (a_recv a) (a_drop a)) as Hs.
  destruct a. apply Hs; try done. by rewrite Hdc, (ref_drop _ _ _ Href).
Qed.

Section Life.
Context `{WideShift}.

(** A packet for an attached descriptor, in either representation. *)
Lemma packet_refines stack pkt ps buflen cpfn now w d a bif :
  refines w d a → bd_bif d = Some bif → packet_ok pkt buflen → copies cpfn pkt ps →
  zlen ps < 2 ^ 30 → length stack = 16%nat → is_u32 (now.1) → is_u32 (now.2) →
  ∃ d' w' a', tap_one stack pkt (zlen ps) buflen cpfn now d w = Ok (d', w') ∧
    spec_packet stack pkt ps buflen now a a' ∧ refines w' d' a'.
Proof.
  intros Href Hbif Hp Hc Hps Hst H1 H2. pose proof Href as [Hf Hb Hs Hse Hr Hd Hra Hv Hq].
  destruct Hq as [[(_ & _ & Hn & _) _]|(h & held & stored & Hdev & Hq)]; [congruence|].
  destruct (tap_one_ok stack pkt ps buflen cpfn now d w h held stored)
    as (v & d' & w' & held' & stored' & Hrun & Htap & Hok & Hset & _ & Hres); try done; [congruence|].
  assert (bif_hdrlen bif = h) as Hh by by apply (ok_bif _ _ _ _ _ Hdev).
  assert (∀ q m, q = held' ++ stored' → bd_dcount d' = u32 (a_drop a + m) →
    refines w' d' (seen q m a)) as Hseen.
  { intros q m -> Hm. apply (same_refines w (count_received d)
      (Abs (a_filter a) (a_bif a) (a_size a) (a_seesent a) (a_queue a) (a_recv a + 1) (a_drop a)));
      try done; [|right; by exists h, held', stored'].
    split; try done; simpl; [by apply count_u32|]. right. exists h, held, stored.
    split; [by apply dev_ok_received|done]. }
  unfold spec_packet. rewrite Hb, Hbif, Hf, Hs, Hh, Hq. unfold rec_of, caplen in Hres.
  destruct (Z.eqb_spec v 0) as [Hv0|Hv0]; [|destruct (orb _ _) eqn:Hfit].
  - destruct Hres as (-> & -> & Hdc). exists d', w', (seen (held ++ stored) 0 a). split; [done|].
    split; [|apply Hseen; [done|by rewrite Z.add_0_r, Hdc]].
    exists v. split; [done|]. by rewrite Hv0.
  - destruct Hres as [Hqq Hdc]. exists d', w', (seen (held' ++ stored') 0 a). split; [done|].
    split; [|apply Hseen; [done|by rewrite Z.add_0_r, Hdc]].
    exists v. split; [done|]. destruct (Z.eqb_spec v 0); [done|]. left. by rewrite Hqq.
  - destruct Hres as (-> & -> & Hdc). exists d', w', (seen (held ++ stored) 1 a). split; [done|].
    split; [|apply Hseen; [done|by rewrite Hdc; apply count_u32]].
    exists v. split; [done|]. destruct (Z.eqb_spec v 0); [done|]. right. split; [done|].
    exists held, stored. split; [done|]. apply orb_false_iff in Hfit as [Hfit Hhb].
    apply bool_decide_eq_false in Hhb. split; [intros He; by apply (ok_held _ _ _ _ _ Hdev) in He|].
    destruct (ok_store _ _ _ _ _ Hdev) as (s & _ & c & _ & _ & _ & Hsl & _).
    destruct (recs_snoc h [] stored (record_of (bd_bufsize d - h) v ps now) 0 0) as [-> _]; [done|].
    rewrite <- Hsl. by apply Z.leb_gt in Hfit.
Qed.

(** ** Reads *)

Lemma no_buffers_wait d ndelay : no_buffers d → read_wait d ndelay = (d, ReturnError ENXIO).
Proof.
  intros (_ & Hh & Hb & Hs & _). unfold read_wait. rewrite Hh, Hb, Hs. by rewrite andb_false_r.
Qed.

Lemma no_buffers_resume d err :
  no_buffers d → ∃ e, read_resume d err = (d, ReturnError e).
Proof.
  intros Hn. unfold read_resume, read_timeout. rewrite no_buffers_wait by done.
  destruct Hn as (_ & -> & _ & -> & _). cbn [Z.eqb].
  destruct (orb _ _); [by exists err|]. destruct (err =? EWOULDBLOCK); [by exists 0|by exists ENXIO].
Qed.

Lemma read_refines must w d a m :
  refines w d a →
  (∀ h held stored, dev_ok w d h held stored → reads must w d h (held ++ stored) m) →
  (no_buffers d → ∃ err, m w = Ok ((d, Read err []), w)) →
  ∃ d' res out a', m w = Ok ((d', res), w) ∧
    parse (length out) (read_data res) 0 (zlen (read_data res)) = Some out ∧
    spec_read must a out a' ∧ refines w d' a'.
Proof.
  intros Href Hdev Hno. destruct (ref_queue _ _ _ Href) as [[Hn Hq]|(h & held & stored & Hd & Hq)].
  - destruct (Hno Hn) as [err Hm]. exists d, (Read err []), [], a. split_and!; try done.
    split_and!; try done. by destruct a.
  - destruct (Hdev _ _ _ Hd) as (d' & res & held' & stored' & Hm & Hok & Hset & Hdc & Hres).
    assert (queue_ok w d' (held' ++ stored')) as Hqo by (right; by exists h, held', stored').
    destruct res as [e data|]; [destruct Hres as (out & Hp & Hout & Hmust)|destruct Hres as (Hout & _ & ->)].
    + eexists d', _, out, _. split; [done|]. split; [done|].
      split; [|eapply same_refines; try done; by rewrite Hdc, (ref_drop _ _ _ Href)].
      split_and!; simpl; [by rewrite Hq|by rewrite Hq|done].
    + eexists d', _, [], _. split; [done|]. split; [done|].
      split; [|eapply same_refines; try done; by rewrite Hdc, (ref_drop _ _ _ Href)].
      split_and!; simpl; [by rewrite Hq|done|done].
Qed.

(** ** Requests *)

Lemma flush_refines w d a : refines w d a → refines w (reset_d d) (flush a).
Proof.
  intros [Hf Hb Hs Hse Hr Hd Hra Hv Hq].
  assert (queue_ok w (reset_d d) []) as Hq'.
  { destruct Hq as [[(H1 & H2 & H3 & H4 & H5) _]|(h & held & stored & Hdev & _)].
    - left. split; [|done]. unfold reset_d. rewrite H2. by split_and!.
    - right. exists h, [], []. split; [by eapply reset_ok|done]. }
  unfold reset_d in *. destruct (bd_hbuf d); by split.
Qed.

Lemma filter_refines w d a f :
  refines w d a → filter_ok f → refines w (set_filter f d) (with_filter f a).
Proof.
  intros [Hf Hb Hs Hse Hr Hd Hra Hv Hq] Hok. split; try done.
  destruct Hq as [Hq|(h & held & stored & Hdev & Hq)]; [by left|].
  right. exists h, held, stored. split; [by destruct Hdev|done].
Qed.

(** Only memory outside the buffers changed. *)
Lemma refines_frame w w' d a :
  refines w d a → kmem w' = kmem w → refines w' d a.
Proof.
  intros [Hf Hb Hs Hse Hr Hd Hra Hv Hq] Hk. split; try done.
  destruct Hq as [Hq|(h & held & stored & Hdev & Hq)]; [by left|].
  right. exists h, held, stored. split; [|done]. apply (dev_ok_frame w); [done|]. by rewrite Hk.
Qed.

Lemma setf_refines insns bf_len e w d a :
  refines w d a → request_ok (SetFilter insns bf_len e) d →
  ∃ r d' w' a', bpf_setf d insns bf_len e w = Ok ((r, d'), w') ∧
    (a' = a ∨ valid_filter insns bf_len ∧ a' = flush (with_filter (program insns bf_len) a)) ∧ refines w' d' a'.
Proof.
  intros Href Hok. destruct insns as [user|]; simpl in *.
  - destruct Hok as (Hpos & Hwf & Hx). destruct (Z.gtb_spec bf_len BPF_MAXINSNS) as [|Hlen].
    { eexists _, _, _, _. split; [done|]. by split; [left|]. }
    unfold mbind, M_bind, alloc_succeeds.
    set (w' := Kern _ _ _). assert (refines w' d a) as Href' by by eapply refines_frame.
    destruct (negb (negb _)); [eexists _, _, _, _; split; [done|]; by split; [left|]|].
    destruct (e =? 0); [|eexists _, _, _, _; split; [done|]; by split; [left|]].
    destruct (Z.leb_spec bf_len (zlen user)) as [Hle|Hgt]; [|eexists _, _, _, _; split; [done|]; by split; [left|]].
    assert (zlen (copied user bf_len) = bf_len) as Hz by (unfold copied, zlen in *; rewrite length_take; lia).
    destruct (validate_runs (copied user bf_len)) as [b Hv].
    { intros E. rewrite E in Hz. change (zlen []) with 0 in Hz. lia. }
    cbn [andb]. unfold lift. rewrite Hv. destruct b; [|eexists _, _, _, _; split; [done|]; by split; [left|]].
    eexists _, _, _, _. split; [done|]. split; [right; split; [done|reflexivity]|].
    apply flush_refines, filter_refines; [done|]. split_and!; try done. lia.
  - destruct (Z.eqb_spec bf_len 0); simpl; [|eexists _, _, _, _; split; [done|]; by split; [left|]].
    eexists _, _, _, _. split; [done|]. split; [right; split; [done|reflexivity]|].
    by apply flush_refines, filter_refines.
Qed.

(** ** Attaching *)

Lemma malloc_cases size w :
  ∃ w', MALLOC size w = Ok (None, w') ∧ kmem w' = kmem w ∨
    ∃ b, MALLOC size w = Ok (Some b, w') ∧ kmem w !! b = None ∧
      kmem w' = <[b := replicate (Z.to_nat size) None]> (kmem w).
Proof.
  unfold MALLOC. assert (kmem w !! fresh (dom (kmem w)) = None) by (apply not_elem_of_dom, is_fresh).
  destruct (alloc_fails w) as [|[] fs]; eexists; [right; by eexists|by left|right; by eexists].
Qed.

Lemma free_ok b c w :
  kmem w !! b = Some c → FREE (Some b) w = Ok (tt, set_kmem (delete b (kmem w)) w).
Proof. intros Hb. unfold FREE, mbind, M_bind, gets. simpl. by rewrite Hb. Qed.

(** Either there are two new buffers or none, as before. *)
Lemma allocbufs_ok d w h :
  no_buffers d → BPF_MINBUFSIZE ≤ bd_bufsize d < 2 ^ 30 → 18 ≤ h ≤ BPF_MINBUFSIZE →
  ∃ d' w', same_settings d d' ∧ bd_dcount d' = bd_dcount d ∧
    (bpf_allocbufs d w = Ok ((ENOBUFS, d'), w') ∧ no_buffers d' ∨
     bpf_allocbufs d w = Ok ((0, d'), w') ∧ dev_ok w' d' h [] []).
Proof.
  intros (Hs & Hhb & Hb & Hsl & Hhl) Hsz Hh. unfold bpf_allocbufs, mbind, M_bind.
  destruct (malloc_cases (bd_bufsize d) w) as (w1 & [[Hm1 Hk1]|(f & Hm1 & Hf & Hk1)]); rewrite Hm1.
  { eexists _, _. split_and!; cycle -1; [left; split; [done|]; by split_and!|done..]. }
  cbn [set_bufs bd_bufsize].
  destruct (malloc_cases (bd_bufsize d) w1) as (w2 & [[Hm2 Hk2]|(s & Hm2 & Hs2 & Hk2)]); rewrite Hm2; simpl.
  { rewrite (free_ok f (replicate (Z.to_nat (bd_bufsize d)) None))
      by (rewrite Hk2, Hk1; apply lookup_insert_eq).
    eexists _, _. split_and!; cycle -1; [left; split; [done|]; by split_and!|done..]. }
  assert (s ≠ f) as Hne. { intros ->. rewrite Hk1 in Hs2. by rewrite lookup_insert_eq in Hs2. }
  eexists _, w2. split_and!; cycle -1; [right; split; [done|]|done..].
  split; try done; simpl.
  - intros b'. by rewrite Hb.
  - exists s. split; [done|]. apply fresh_buffer; [|lia]. rewrite Hk2. apply lookup_insert_eq.
  - rewrite Hhb. split_and!; try done. exists f. split_and!; [done|congruence|].
    apply fresh_buffer; [|lia]. rewrite Hk2, lookup_insert_ne by done. rewrite Hk1. apply lookup_insert_eq.
Qed.

(** An empty descriptor with buffers can have any interface. *)
Lemma bif_refines w d a h bif :
  refines w d a → dev_ok w d h [] [] → a_queue a = [] → 18 ≤ bif_hdrlen bif ≤ BPF_MINBUFSIZE →
  refines w (set_bif (Some bif) d) (with_bif (Some bif) a).
Proof.
  intros [Hf Hb Hs Hse Hr Hd Hra Hv _] [Hh Hbif Hsz (s & Hs' & Hst) Hot Hok Hhd] Hq Hbh.
  split; try done. right. exists (bif_hdrlen bif), [], []. split; [|done].
  split; try done; simpl.
  - intros b'. by intros [= <-].
  - exists s. split; [done|]. done.
Qed.

Lemma reset_set_bif d bif :
  (∀ b, bd_bif d = Some b → bif_id b = bif_id bif → b = bif) →
  reset_d (if match bd_bif d with Some b => bif_id b =? bif_id bif | None => false end
           then d else set_bif (Some bif) d) = set_bif (Some bif) (reset_d d).
Proof.
  intros Hid. unfold reset_d.
  destruct (bd_bif d) as [b|] eqn:Eb; [destruct (Z.eqb_spec (bif_id b) (bif_id bif)) as [He|]|].
  - rewrite Eb, (Hid b eq_refl He). by destruct (bd_hbuf d).
  - simpl. by destruct (bd_hbuf d).
  - simpl. by destruct (bd_hbuf d).
Qed.

Lemma setif_refines bp up w d a :
  refines w d a → request_ok (SetIf bp up) d →
  ∃ r d' w' a', bpf_setif d bp up w = Ok ((r, d'), w') ∧
    (a' = a ∨ up = true ∧ bp ≠ None ∧ a' = flush (with_bif bp a)) ∧ refines w' d' a'.
Proof.
  intros Href Hok. destruct bp as [bif|]; simpl in *.
  2: { eexists _, _, _, _. split; [done|]. by split; [left|]. }
  destruct up; simpl; [|eexists _, _, _, _; split; [done|]; by split; [left|]].
  destruct Hok as [(hl & Hhl & Hbh) Hid].
  assert (18 ≤ bif_hdrlen bif ≤ BPF_MINBUFSIZE) as Hh by (rewrite Hbh; pose proof (attach_hdrlen_ok hl); lia).
  assert (∀ w' d' h held stored, refines w' d' a → dev_ok w' d' h held stored →
    refines w' (set_bif (Some bif) (reset_d d')) (flush (with_bif (Some bif) a))) as Hfinal.
  { intros w' d' h held stored Hr Hd. apply flush_refines in Hr.
    exact (bif_refines w' _ _ h bif Hr (reset_ok _ _ _ _ _ Hd) eq_refl Hh). }
  destruct (ref_queue _ _ _ Href) as [[Hn Hq]|(h & held & stored & Hdev & Hq)].
  - pose proof Hn as (-> & _ & Hb & _).
    destruct (allocbufs_ok d w (bif_hdrlen bif) Hn (ref_range _ _ _ Href) Hh)
      as (d' & w' & Hset & Hdc & [[Hrun Hn']|[Hrun Hdev]]); mstep Hrun; simpl.
    + eexists _, _, _, a. split; [done|]. split; [by left|].
      apply (unchanged_refines w d); try done. by left.
    + eexists _, _, _, _. split; [done|]. split; [right; done|].
      assert (bd_bif d' = None) as Hb' by (destruct Hset as (_ & -> & _); done).
      rewrite reset_set_bif by (by rewrite Hb'). eapply Hfinal; [|done].
      apply (unchanged_refines w d); try done. right. by exists (bif_hdrlen bif), [], [].
  - destruct (ok_store _ _ _ _ _ Hdev) as (s & -> & _).
    eexists _, _, _, _. split; [done|]. split; [right; done|]. rewrite reset_set_bif by done.
    by eapply Hfinal.
Qed.

(** ** All requests *)

Lemma tap_refines stack pkt now w d a :
  refines w d a → request_ok (Tap pkt now) d → length stack = 16%nat →
  ∃ d' w' a', serve stack (Tap pkt now) d w = Ok ((d', []), w') ∧
    spec stack (Tap pkt now) a [] a' ∧ refines w' d' a'.
Proof.
  intros Href (Hl & Hby & H1 & H2) Hs. simpl. unfold listening, spec_packet.
  destruct (bd_bif d) as [bif|] eqn:Eb.
  - destruct (packet_refines stack (Buffer pkt) pkt (zlen pkt) bcopy now w d a bif)
      as (d' & w' & a' & Hrun & Hspec & Href'); try done; [split; [done|by split; [lia|]]|apply bcopy_copies|lia|].
    exists d', w', a'. split_and!; try done. unfold mbind, M_bind. simpl. unfold mbind, M_bind.
    by rewrite Hrun.
  - exists d, w, a. split_and!; try done. by rewrite (ref_bif _ _ _ Href), Eb.
Qed.

Lemma mtap_refines stack m next sent now w d a :
  refines w d a → request_ok (Mtap m next sent now) d → length stack = 16%nat →
  ∃ d' w' a', serve stack (Mtap m next sent now) d w = Ok ((d', []), w') ∧
    spec stack (Mtap m next sent now) a [] a' ∧ refines w' d' a'.
Proof.
  intros Href (Hp & Hl & H1 & H2) Hs. simpl. unfold listening, spec_packet.
  rewrite (ref_seesent _ _ _ Href). destruct (bd_bif d) as [bif|] eqn:Eb.
  - unfold mbind, M_bind. simpl. destruct ((bd_seesent d =? 0) && sent).
    { exists d, w, a. by split_and!. }
    destruct (packet_refines stack (Mbuf m next) (chain m next) 0 bpf_mcopy now w d a bif)
      as (d' & w' & a' & Hrun & Hspec & Href'); try done; [apply bpf_mcopy_copies|].
    exists d', w', a'. split_and!; try done. unfold mbind, M_bind. unfold chain in Hrun.
    by rewrite Hrun.
  - exists d, w, a. split_and!; try done. rewrite (ref_bif _ _ _ Href), Eb. by case_match.
Qed.

(** A descriptor that differs in a field the buffers do not depend on. *)
Lemma detach_refines w d a : refines w d a → refines w (bpf_detachd d) (with_bif None a).
Proof.
  intros [Hf Hb Hs Hse Hr Hd Hra Hv Hq]. split; try done.
  destruct Hq as [[(H1 & H2 & _ & H4 & H5) Hq]|(h & held & stored & Hdev & Hq)]; [by left|].
  right. exists h, held, stored. split; [by destruct Hdev|done].
Qed.

Lemma seesent_refines w d a v : refines w d a → refines w (set_seesent v d) (with_seesent (i32 v) a).
Proof.
  intros [Hf Hb Hs Hse Hr Hd Hra Hv Hq]. split; try done.
  destruct Hq as [[]|(h & held & stored & Hdev & Hq)]; [by left|].
  right. exists h, held, stored. split; [by destruct Hdev|done].
Qed.

Lemma immediate_refines w d a v : refines w d a → refines w (set_immediate v d) a.
Proof.
  intros [Hf Hb Hs Hse Hr Hd Hra Hv Hq]. split; try done.
  destruct Hq as [[]|(h & held & stored & Hdev & Hq)]; [by left|].
  right. exists h, held, stored. split; [by destruct Hdev|done].
Qed.

Lemma buflen_refines w d a maxbufsize size :
  refines w d a → request_ok (SetBufLen maxbufsize size) d →
  refines w (set_buflen maxbufsize size d).2
    match a_bif a with
    | Some _ => a
    | None => with_size (Z.max BPF_MINBUFSIZE (Z.min maxbufsize size)) a
    end.
Proof.
  intros Href (Hmax & Hsz & Hsb). rewrite (ref_bif _ _ _ Href). unfold set_buflen.
  destruct (bd_bif d) eqn:Eb; [done|]. simpl.
  set (n := if size >? maxbufsize then maxbufsize else _).
  assert (n = Z.max BPF_MINBUFSIZE (Z.min maxbufsize size)) as <-.
  { unfold n. destruct (Z.gtb_spec size maxbufsize); [lia|]. destruct (Z.ltb_spec size BPF_MINBUFSIZE); lia. }
  destruct Href as [Hf Hb Hs Hse Hr Hd Hra Hv Hq]. split; try done; simpl; [congruence| |].
  - unfold n. destruct (Z.gtb_spec size maxbufsize); [lia|]. destruct (Z.ltb_spec size BPF_MINBUFSIZE); lia.
  - destruct Hq as [[(H1 & H2 & H3 & H4 & H5) Hq]|(h & held & stored & Hdev & Hq)]; [by left|].
    destruct (ok_store _ _ _ _ _ Hdev) as (s & Hs' & _). congruence.
Qed.

Lemma read_call_refines resid ndelay e stack w d a :
  refines w d a →
  ∃ d' data out a', serve stack (ReadCall resid ndelay e) d w = Ok ((d', data), w) ∧
    parse (length out) data 0 (zlen data) = Some out ∧
    spec stack (ReadCall resid ndelay e) a out a' ∧ refines w d' a'.
Proof.
  intros Href. simpl. rewrite (ref_size _ _ _ Href), (ref_bif _ _ _ Href). unfold bpfread.
  destruct (Z.eqb_spec resid (bd_bufsize d)) as [->|]; cbn [negb].
  - destruct (read_refines (ndelay && bool_decide (bd_bif d ≠ None)) w d a
      (read_finish e (read_wait d ndelay)) Href) as (d' & res & out & a' & Hm & Hp & Hs & Href').
    { intros. by apply reads_wait. } { intros. rewrite no_buffers_wait by done. by exists ENXIO. }
    exists d', (read_data res), out, a'. split_and!; try done. by mstep Hm.
  - by exists d, [], [], a.
Qed.

Lemma read_resume_refines err e stack w d a :
  refines w d a →
  ∃ d' data out a', serve stack (ReadResume err e) d w = Ok ((d', data), w) ∧
    parse (length out) data 0 (zlen data) = Some out ∧
    spec stack (ReadResume err e) a out a' ∧ refines w d' a'.
Proof.
  intros Href. simpl.
  destruct (read_refines (err =? EWOULDBLOCK) w d a (bpfread_resume d err e) Href)
    as (d' & res & out & a' & Hm & Hp & Hs & Href').
  { intros. by apply reads_resume. }
  { intros Hn. unfold bpfread_resume. destruct (no_buffers_resume d err Hn) as [e' ->]. by exists e'. }
  exists d', (read_data res), out, a'. split_and!; try done. by mstep Hm.
Qed.

(** Every request runs without a crash and does what the specification allows. *)
Lemma serve_refines stack r w d a :
  refines w d a → request_ok r d → length stack = 16%nat →
  ∃ d' data w' out a', serve stack r d w = Ok ((d', data), w') ∧
    parse (length out) data 0 (zlen data) = Some out ∧ spec stack r a out a' ∧ refines w' d' a'.
Proof.
  intros Href Hok Hs. destruct r as [pkt now|m next sent now|resid ndelay e|err e|insns len e|bp up| |
    maxbufsize size| |v|v].
  - destruct (tap_refines stack pkt now w d a) as (d' & w' & a' & ? & ? & ?); [done..|].
    by exists d', [], w', [], a'.
  - destruct (mtap_refines stack m next sent now w d a) as (d' & w' & a' & ? & ? & ?); [done..|].
    by exists d', [], w', [], a'.
  - destruct (read_call_refines resid ndelay e stack w d a Href) as (d' & data & out & a' & Hr).
    by exists d', data, w, out, a'.
  - destruct (read_resume_refines err e stack w d a Href) as (d' & data & out & a' & Hr).
    by exists d', data, w, out, a'.
  - destruct (setf_refines insns len e w d a Href Hok) as (r & d' & w' & a' & Hrun & Hsp & Hr).
    exists d', [], w', [], a'. split_and!; try done. simpl. by mstep Hrun.
  - destruct (setif_refines bp up w d a Href Hok) as (r & d' & w' & a' & Hrun & Hsp & Hr).
    exists d', [], w', [], a'. split_and!; try done. simpl. by mstep Hrun.
  - simpl. destruct (bd_bif d) eqn:Eb.
    + eexists _, _, _, [], _. split_and!; try done. apply (refines_frame w); [|done].
      by apply detach_refines.
    + exists d, [], w, [], (with_bif None a). split_and!; try done.
      assert (with_bif None a = a) as ->; [|done].
      unfold with_bif. rewrite <- Eb, <- (ref_bif _ _ _ Href). by destruct a.
  - eexists _, [], w, [], _. split_and!; try done. by apply buflen_refines.
  - eexists _, [], w, [], _. split_and!; try done. by apply flush_refines.
  - eexists _, [], w, [], _. split_and!; try done. by apply immediate_refines.
  - eexists _, [], w, [], _. split_and!; try done. by apply seesent_refines.
Qed.

End Life.
