(* ===== verification/BpfDevRun.v ===== *)
(** * xnu packet capture: the properties

    Sequences of requests from the opening of a descriptor on, the order of the
    packets a reader gets, [select], and the buffer length after the loss of
    the interface. *)

From Stdlib Require Import ZifyBool.
From S2P Require Import Prelude Bpf BpfSafe BpfCorrect BpfDev BpfDevCorrect BpfDevFifo BpfDevLife.
Import Bpf BpfDev.

(** ** Sequences of requests *)

(** A request with what is on the interpreter's stack at its time. *)
Abbreviation event := (list Z * request)%type.

Section Run.
Context `{WideShift}.

Fixpoint run (es : list event) (d : bpf_d) : M kern (bpf_d * list cells) :=
  match es with
  | [] => mret (d, [])
  | (stack, r) :: es =>
    '(d, data) ← serve stack r d;
    '(d, datas) ← run es d;
    mret (d, data :: datas)
  end.

(** The environment keeps its side at every request. *)
Fixpoint run_ok (es : list event) (d : bpf_d) (w : kern) : Prop :=
  match es with
  | [] => True
  | (stack, r) :: es =>
    length stack = 16%nat ∧ request_ok r d ∧
    match serve stack r d w with Ok ((d', _), w') => run_ok es d' w' | Crash _ => True end
  end.

Inductive spec_run : list event → abs → list (list rec) → abs → Prop :=
| spec_nil a : spec_run [] a [] a
| spec_cons stack r es a out a1 outs a2 :
    spec stack r a out a1 → spec_run es a1 outs a2 →
    spec_run ((stack, r) :: es) a (out :: outs) a2.

(** The reader finds the records [out] in what it was given. *)
Definition delivers (data : cells) (out : list rec) : Prop :=
  parse (length out) data 0 (zlen data) = Some out.

Lemma run_refines es w d a :
  refines w d a → run_ok es d w →
  ∃ d' datas w' outs a', run es d w = Ok ((d', datas), w') ∧ Forall2 delivers datas outs ∧
    spec_run es a outs a' ∧ refines w' d' a'.
Proof.
  revert w d a. induction es as [|[stack r] es IH]; intros w d a Href Hok; simpl in *.
  { exists d, [], w, [], a. split_and!; try done; constructor. }
  destruct Hok as (Hs & Hr & Hok).
  destruct (serve_refines stack r w d a Href Hr Hs) as (d1 & data & w1 & out & a1 & Hrun & Hp & Hsp & Href1).
  rewrite Hrun in Hok. mstep Hrun.
  destruct (IH w1 d1 a1 Href1 Hok) as (d2 & datas & w2 & outs & a2 & Hrun2 & Hps & Hsps & Href2).
  mstep Hrun2. exists d2, (data :: datas), w2, (out :: outs), a2.
  split_and!; try done; by econstructor.
Qed.

Lemma run_app es1 es2 d w d1 datas1 w1 :
  run es1 d w = Ok ((d1, datas1), w1) →
  run (es1 ++ es2) d w =
    match run es2 d1 w1 with
    | Ok ((d2, datas2), w2) => Ok ((d2, datas1 ++ datas2), w2)
    | Crash r => Crash r
    end.
Proof.
  revert d w datas1. induction es1 as [|[stack r] es1 IH]; intros d w datas1 Hrun; simpl in *.
  { inversion Hrun. subst. by destruct (run es2 d1 w1) as [[[]]|]. }
  unfold mbind, M_bind in *. destruct (serve stack r d w) as [[[d' data] w']|]; [|done].
  destruct (run es1 d' w') as [[[d'' datas] w'']|] eqn:E; [|done]. inversion Hrun. subst.
  rewrite (IH _ _ _ E). by destruct (run es2 d1 w1) as [[[]]|].
Qed.

Lemma run_ok_app es1 es2 d w d1 datas1 w1 :
  run es1 d w = Ok ((d1, datas1), w1) → run_ok (es1 ++ es2) d w → run_ok es2 d1 w1.
Proof.
  revert d w datas1. induction es1 as [|[stack r] es1 IH]; intros d w datas1 Hrun Hok; simpl in *.
  { by inversion Hrun; subst. }
  destruct Hok as (_ & _ & Hok). unfold mbind, M_bind in *.
  destruct (serve stack r d w) as [[[d' data] w']|]; [|done].
  destruct (run es1 d' w') as [[[d'' datas] w'']|] eqn:E; [|done]. inversion Hrun. subst. by eapply IH.
Qed.

Lemma run_ok_prefix es1 es2 d w : run_ok (es1 ++ es2) d w → run_ok es1 d w.
Proof.
  revert d w. induction es1 as [|[stack r] es1 IH]; intros d w Hok; simpl in *; [done|].
  destruct Hok as (Hs & Hr & Hok). split_and!; try done.
  destruct (serve stack r d w) as [[[d' data] w']|]; [by apply IH|done].
Qed.

Definition opened (bufsize : Z) : abs := Abs None None bufsize 1 [] 0 0.

Lemma open_refines bufsize w :
  BPF_MINBUFSIZE ≤ bufsize < 2 ^ 30 → refines w (bpfopen bufsize) (opened bufsize).
Proof. intros Hs. split; try done. left. by split_and!. Qed.

(** ** Order *)

(** Requests that leave the buffers and the filter alone. *)
Definition keeps (r : request) : Prop :=
  match r with SetFilter _ _ _ | SetIf _ _ | Flush => False | _ => True end.

(** A packet that is shown to the filter: what is on the interpreter's stack, the
    packet in memory, its bytes, the length of the buffer (0 for mbufs), the time. *)
Record arrival := Arrival {
  ar_stack : list Z; ar_pkt : packet; ar_bytes : list Z; ar_buflen : Z; ar_now : Z * Z
}.

(** The packets a descriptor sees while it is [attached]; those this host sent only
    if [seesent] is set. *)
Fixpoint seen_packets (es : list event) (attached : bool) (seesent : Z) : list arrival :=
  match es with
  | [] => []
  | (stack, r) :: es =>
    match r with
    | Tap pkt now =>
      (if attached then [Arrival stack (Buffer pkt) pkt (zlen pkt) now] else []) ++ seen_packets es attached seesent
    | Mtap m next sent now =>
      (if attached && negb ((seesent =? 0) && sent) then [Arrival stack (Mbuf m next) (chain m next) 0 now] else []) ++
      seen_packets es attached seesent
    | IfDetach => seen_packets es false seesent
    | SetSeeSent v => seen_packets es attached (i32 v)
    | _ => seen_packets es attached seesent
    end
  end.

(** The record of a packet the filter [f] accepts: the first bytes, as many as the
    filter asks for, the packet has and there is [room] for. *)
Definition accepted_rec (f : option (list bpf_insn)) (room : Z) (p : arrival) : option rec :=
  match bpf_filter (ar_stack p) f (ar_pkt p) (zlen (ar_bytes p)) (ar_buflen p) with
  | Ok v => if v =? 0 then None else Some (record_of room v (ar_bytes p) (ar_now p))
  | Crash _ => None
  end.

(** Of the packets [ps] the records [acc] were queued, [out] were taken; every packet
    is counted, and every accepted one that was not queued. *)
Definition flow (f : option (list bpf_insn)) (room : Z) (ps : list arrival) (a : abs) (out acc : list rec) (a' : abs) : Prop :=
  let accepted := omap (accepted_rec f room) ps in
  out ++ a_queue a' = a_queue a ++ acc ∧ acc `sublist_of` accepted ∧
  a_recv a' = a_recv a + zlen ps ∧ a_drop a' = a_drop a + zlen accepted - zlen acc.

Lemma flow_none f room a out a' :
  out ++ a_queue a' = a_queue a → a_recv a' = a_recv a → a_drop a' = a_drop a → flow f room [] a out [] a'.
Proof.
  intros Hq Hr Hd. unfold flow. rewrite app_nil_r. split_and!; [done|constructor|..]; unfold zlen; cbn; lia.
Qed.

Lemma flow_trans f room ps1 ps2 a out1 acc1 a1 out2 acc2 a2 :
  flow f room ps1 a out1 acc1 a1 → flow f room ps2 a1 out2 acc2 a2 →
  flow f room (ps1 ++ ps2) a (out1 ++ out2) (acc1 ++ acc2) a2.
Proof.
  intros (Hq1 & Hs1 & Hr1 & Hd1) (Hq2 & Hs2 & Hr2 & Hd2).
  unfold flow. rewrite omap_app, !zlen_app. split_and!; try lia.
  - by rewrite <- app_assoc, Hq2, app_assoc, Hq1, <- app_assoc.
  - by apply sublist_app.
Qed.

(** The filter and, while there is an interface, the room for a packet are fixed. *)
Definition fixed (f : option (list bpf_insn)) (room : Z) (a : abs) : Prop :=
  a_filter a = f ∧ ∀ bif, a_bif a = Some bif → a_size a - bif_hdrlen bif = room.

Definition attached (a : abs) : bool := bool_decide (a_bif a ≠ None).

Lemma packet_flow stack pkt ps buflen now f room a a' :
  fixed f room a → spec_packet stack pkt ps buflen now a a' →
  (∃ acc, flow f room (if attached a then [Arrival stack pkt ps buflen now] else []) a [] acc a') ∧
  fixed f room a' ∧ attached a' = attached a ∧ a_seesent a' = a_seesent a.
Proof.
  intros Hx. pose proof Hx as [Hf Hroom]. unfold spec_packet, attached. destruct (a_bif a) as [bif|] eqn:Eb.
  2: { intros ->. rewrite Eb. split_and!; [|done..]. exists []. by apply flow_none. }
  rewrite (bool_decide_eq_true_2 (Some bif ≠ None)) by done. intros (v & Hv & Ha). rewrite Hf in Hv.
  rewrite (Hroom bif eq_refl) in Ha.
  assert (∀ q n, fixed f room (seen q n a) ∧ bool_decide (a_bif (seen q n a) ≠ None) = true ∧ a_seesent (seen q n a) = a_seesent a) as Hfix.
  { intros q n. split_and!; [by destruct Hx| |done]. apply bool_decide_eq_true_2. cbn. congruence. }
  assert (accepted_rec f room (Arrival stack pkt ps buflen now) = if v =? 0 then None else Some (record_of room v ps now)) as Hacc.
  { unfold accepted_rec. cbn. by rewrite Hv. }
  unfold flow. cbn [omap list_omap]. rewrite Hacc.
  destruct (v =? 0); [subst a'|destruct Ha as [->|[-> _]]]; (split; [|apply Hfix]).
  - exists []. cbn. rewrite app_nil_r. split_and!; try done; unfold zlen; cbn; lia.
  - exists [record_of room v ps now]. cbn. split_and!; try done; unfold zlen; cbn; lia.
  - exists []. cbn. rewrite app_nil_r. split_and!; try done; [apply sublist_nil_l|..]; unfold zlen; cbn; lia.
Qed.

(** The packets of one request and the settings after it. *)
Lemma spec_flow stack r es f room a out a' :
  keeps r → fixed f room a → spec stack r a out a' →
  ∃ ps acc, seen_packets ((stack, r) :: es) (attached a) (a_seesent a) = ps ++ seen_packets es (attached a') (a_seesent a') ∧
    flow f room ps a out acc a' ∧ fixed f room a'.
Proof.
  intros Hk Hx Hs. pose proof Hx as [Hf Hroom].
  assert (∀ must, spec_read must a out a' →
    ∃ acc, flow f room [] a out acc a' ∧ fixed f room a' ∧ attached a' = attached a ∧ a_seesent a' = a_seesent a) as Hread.
  { intros must (Hq & _ & Ha). exists []. rewrite Ha. split_and!; [by apply flow_none|by split|done|done]. }
  destruct r; cbn in Hk, Hs |- *; try done.
  - destruct Hs as [-> Hs]. destruct (packet_flow _ _ _ _ _ _ _ _ _ Hx Hs) as ([acc Hfl] & Hx' & -> & ->). eauto 10.
  - destruct Hs as [-> Hs]. destruct ((a_seesent a =? 0) && sent); cbn [negb]; rewrite ?andb_false_r, ?andb_true_r.
    + subst a'. exists [], []. split_and!; [done|by apply flow_none|done].
    + destruct (packet_flow _ _ _ _ _ _ _ _ _ Hx Hs) as ([acc Hfl] & Hx' & -> & ->). eauto 10.
  - case_match; [|destruct Hs as [-> ->]; exists [], []; split_and!; [done|by apply flow_none|done]].
    destruct (Hread _ Hs) as (acc & Hfl & Hx' & -> & ->). by exists [], acc.
  - destruct (Hread _ Hs) as (acc & Hfl & Hx' & -> & ->). by exists [], acc.
  - destruct Hs as [-> ->]. exists [], []. split_and!; [done|by apply flow_none|by split].
  - destruct Hs as [-> ->]. exists [], []. unfold attached. destruct (a_bif a) as [bif|] eqn:Eb; cbn; rewrite ?Eb.
    + split_and!; [done|by apply flow_none|done].
    + split_and!; [done|by apply flow_none|]. split; [done|]. cbn. congruence.
  - destruct Hs as [-> ->]. exists [], []. split_and!; [done|by apply flow_none|done].
  - destruct Hs as [-> ->]. exists [], []. split_and!; [done|by apply flow_none|by split].
Qed.

Lemma run_flow es f room a outs a' :
  spec_run es a outs a' → Forall (keeps ∘ snd) es → fixed f room a →
  ∃ acc, flow f room (seen_packets es (attached a) (a_seesent a)) a (concat outs) acc a'.
Proof.
  induction 1 as [a|stack r es a out a1 outs a2 Hs _ IH]; intros Hk Hx.
  - exists []. by apply flow_none.
  - apply Forall_cons in Hk as [Hr Hes]. cbn in Hr. destruct (spec_flow _ _ es _ _ _ _ _ Hr Hx Hs) as (ps & acc1 & -> & H1 & Hx1).
    destruct (IH Hes Hx1) as [acc2 H2]. exists (acc1 ++ acc2). by eapply flow_trans.
Qed.

Lemma run_length es d w d' datas w' : run es d w = Ok ((d', datas), w') → length datas = length es.
Proof.
  revert d w datas. induction es as [|[stack r] es IH]; intros d w datas Hrun; simpl in *.
  { by inversion Hrun. }
  apply bind_inv in Hrun as ([d1 data] & w1 & _ & Hrun).
  apply bind_inv in Hrun as ([d2 datas2] & w2 & Hrun2 & Hret). inversion Hret. subst.
  simpl. f_equal. by eapply IH.
Qed.

(** ** Closing *)

(** [bpf_freed] frees the two buffers of a descriptor, once each. *)
Lemma freed_ok w d q :
  queue_ok w d q →
  ∃ w', bpf_freed d w = Ok (tt, w') ∧
    (bd_sbuf d ≠ None → ∀ b, kmem w' !! b = if bool_decide (b ∈ bufs d) then None else kmem w !! b).
Proof.
  intros [[(Hs & _) _]|(h & held & stored & [_ _ _ (s & Hs & Hst) Hot _ _] & _)]; unfold bpf_freed; rewrite Hs.
  { by exists w. }
  destruct Hst as (c & Hc & _). mstep (free_ok s c w Hc).
  assert (∃ b, s ≠ b ∧ bufs d = [s; b] ∧ is_Some (kmem w !! b) ∧
    (bd_hbuf d = Some b ∧ bd_fbuf d = None ∨ bd_hbuf d = None ∧ bd_fbuf d = Some b))
    as (b & Hne & Hbufs & [cb Hb] & Hslots).
  { unfold bufs. rewrite Hs. destruct (bd_hbuf d) as [b|].
    - destruct Hot as (-> & Hne & cb & Hcb & _). exists b. split_and!; [congruence|done|by eexists|by left].
    - destruct Hot as (_ & _ & b & -> & Hne & cb & Hcb & _). exists b.
      split_and!; [congruence|done|by eexists|by right]. }
  set (w1 := set_kmem _ w).
  assert (kmem w1 !! b = Some cb) as Hb1 by (unfold w1; simpl; by rewrite lookup_delete_ne).
  exists (set_kmem (delete b (kmem w1)) w1). split.
  - destruct Hslots as [[-> ->]|[-> ->]]; [by mstep (free_ok b cb w1 Hb1)|].
    rewrite (bind_Ok _ _ _ tt w1) by done. by rewrite (free_ok b cb w1 Hb1).
  - intros _ b'. rewrite Hbufs. simpl. case_bool_decide as Hin.
    + apply elem_of_cons in Hin as [->|[->|[]%elem_of_nil]%elem_of_cons].
      * by rewrite lookup_delete_ne, lookup_delete_eq.
      * by rewrite lookup_delete_eq.
    + apply not_elem_of_cons in Hin as [H1 [H2 _]%not_elem_of_cons].
      by rewrite !lookup_delete_ne.
Qed.

(** ** Properties *)

(** C25. Whatever sequence of packets, reads and requests an opened descriptor gets,
    under the conditions of [run_ok]: no [BIOCSBLEN] once the buffers exist, no empty
    packets or mbufs, programs that are not empty and keep [BPF_LDX] and [BPF_STX] inside
    the scratch memory.  None of them faults: each does what the specification with a queue
    of records, the settings and two counters allows, readers find in the bytes they
    get exactly the records that left the queue, and the descriptor can be closed at
    the end. *)
Theorem bpf_requests_refine bufsize es w :
  BPF_MINBUFSIZE ≤ bufsize < 2 ^ 30 → run_ok es (bpfopen bufsize) w →
  ∃ d datas w' outs a w'', run es (bpfopen bufsize) w = Ok ((d, datas), w') ∧
    Forall2 delivers datas outs ∧ spec_run es (opened bufsize) outs a ∧ refines w' d a ∧
    bpf_freed d w' = Ok (tt, w'').
Proof.
  intros Hsz Hok.
  destruct (run_refines es w _ _ (open_refines bufsize w Hsz) Hok)
    as (d & datas & w' & outs & a & Hrun & Hp & Hs & Hr).
  destruct (freed_ok w' d _ (ref_queue _ _ _ Hr)) as (w'' & Hf & _).
  by exists d, datas, w', outs, a, w''.
Qed.

(** C24. First in, first out, under the conditions of [run_ok] and for requests that
    leave the filter, the interface and the buffers alone: of the packets the
    descriptor sees after a flush, those the filter accepts give records with the
    packet's time, its length and exactly as many first bytes as the filter asks for,
    the packet has and a buffer can take; what readers got, followed by what waits in
    the buffers, are such records in the order of arrival; [bd_rcount] is the number of
    packets seen and [bd_dcount] the number of accepted ones that are missing, modulo
    2^32. *)
Theorem bpf_capture_fifo bufsize pre stack post w :
  BPF_MINBUFSIZE ≤ bufsize < 2 ^ 30 →
  run_ok (pre ++ (stack, Flush) :: post) (bpfopen bufsize) w → Forall (keeps ∘ snd) post →
  ∃ d1 datas1 w1 d datas w' outs waiting,
    run pre (bpfopen bufsize) w = Ok ((d1, datas1), w1) ∧
    run ((stack, Flush) :: post) d1 w1 = Ok ((d, datas), w') ∧
    Forall2 delivers datas outs ∧ queue_ok w' d waiting ∧
    let seen := seen_packets post (bool_decide (bd_bif d1 ≠ None)) (bd_seesent d1) in
    let room := bd_bufsize d1 - from_option bif_hdrlen 0 (bd_bif d1) in
    let accepted := omap (accepted_rec (bd_filter d1) room) seen in
    let captured := concat outs ++ waiting in
    captured `sublist_of` accepted ∧
    bd_rcount d = u32 (zlen seen) ∧ bd_dcount d = u32 (zlen accepted - zlen captured).
Proof.
  intros Hsz Hok Hk.
  destruct (run_refines pre w _ _ (open_refines bufsize w Hsz) (run_ok_prefix _ _ _ _ Hok))
    as (d1 & datas1 & w1 & outs1 & a1 & Hrun1 & _ & _ & Href1).
  pose proof (run_ok_app _ _ _ _ _ _ _ Hrun1 Hok) as Hok2.
  destruct (run_refines _ _ _ _ Href1 Hok2) as (d & datas & w' & outs & a & Hrun & Hp & Hs & Href).
  exists d1, datas1, w1, d, datas, w', outs, (a_queue a). split_and!; try done; [apply Href|].
  inversion Hs as [|???? out a2 outs' ? Hflush Hpost]. subst. destruct Hflush as [-> ->]. cbv zeta.
  set (room := bd_bufsize d1 - _). destruct Href1 as [Hf1 Hb1 Hs1 Hse1 _ _ _ _ _].
  destruct (run_flow post (bd_filter d1) room _ _ _ Hpost Hk) as (acc & Hq & Hsub & Hn & Hd).
  { split; [done|]. cbn. intros bif Hbif. unfold room. rewrite Hb1 in Hbif. rewrite Hbif, Hs1. done. }
  unfold attached in *. cbn in Hq, Hsub, Hn, Hd |- *. rewrite Hb1, Hse1 in *. rewrite Hq.
  split_and!; [done| |]; rewrite ?(ref_recv _ _ _ Href), ?(ref_drop _ _ _ Href); f_equal; lia.
Qed.

(** After [select] reports a descriptor readable, a read returns at once
    with at least one record, from the front of the queue, and the rest stays
    in order. *)
Theorem bpfpoll_then_read w d h held stored events revents ndelay e :
  dev_ok w d h held stored → bpfpoll d events = PollEvents revents → revents ≠ 0 →
  ∃ d' data rs held' stored',
    bpfread d (bd_bufsize d) ndelay e w = Ok ((d', Read e data), w) ∧
    dev_ok w d' h held' stored' ∧ delivers data rs ∧ rs ≠ [] ∧
    rs ++ held' ++ stored' = held ++ stored.
Proof.
  intros Hd Hpoll Hne. unfold bpfread. rewrite Z.eqb_refl. cbn [negb]. unfold read_wait.
  assert (bd_hbuf d ≠ None ∨ bd_hbuf d = None ∧ bd_immediate d ≠ 0 ∧ bd_slen d ≠ 0) as Hready.
  { unfold bpfpoll in Hpoll. destruct (bd_bif d); [|done].
    destruct (negb (Z.land events POLL_READ =? 0)); [|by inversion Hpoll; subst].
    pose proof (ok_other _ _ _ _ _ Hd) as Hot. destruct (bd_hbuf d); [by left|right].
    destruct Hot as (_ & Hhl & _). rewrite Hhl in Hpoll. simpl in Hpoll.
    destruct (Z.eqb_spec (bd_immediate d) 0), (Z.eqb_spec (bd_slen d) 0); done. }
  destruct Hready as [Hb|(Hb & Hi & Hsl)].
  - destruct (read_finish_ok w d h held stored e Hd Hb) as (d' & data & Hrun & Hok & _ & _ & Hp).
    destruct (bd_hbuf d) eqn:Eb; [|done]. exists d', data, held, [], stored. split_and!; try done.
    intros Hn. apply (ok_held _ _ _ _ _ Hd) in Hn. congruence.
  - destruct (rotate_ok w d h held stored Hd Hb Hsl) as (-> & Hrot & Hhb).
    destruct (read_finish_ok w _ h stored [] e Hrot Hhb) as (d' & data & Hrun & Hok & _ & _ & Hp).
    rewrite Hb. destruct (Z.eqb_spec (bd_immediate d) 0), (Z.eqb_spec (bd_slen d) 0); try done. simpl.
    exists d', data, stored, [], []. split_and!; try done; [|by rewrite app_nil_r].
    intros Hn. apply (ok_held _ _ _ _ _ Hrot) in Hn. congruence.
Qed.

(** [BIOCSBLEN] is refused while an interface is attached, but not after
    the interface went away: the buffers stay, [bd_bufsize] grows, and the next
    packet after a new [BIOCSETIF] is written past the end of the buffer. *)
Theorem bpf_resize_after_detach_overflows :
  let ethernet id := SetIf (Some (BpfIf id (attach_hdrlen 14))) true in
  let stack := replicate 16 0 in
  run [(stack, ethernet 1); (stack, IfDetach); (stack, SetBufLen 0x80000 0x2000);
       (stack, ethernet 2); (stack, Tap (replicate 64 0) (0, 0))]
    (bpfopen BPF_MINBUFSIZE) (Kern ∅ [] 0) = Crash BAD_ACCESS.
Proof. vm_compute. reflexivity. Qed.

End Run.

(** ** xnu packet capture: examples

    A descriptor with a filter for IP packets on an Ethernet interface: packets
    in a buffer and in mbufs, rejected, captured and dropped ones, reads. *)

#[local] Instance wide_shift_zero : WideShift := { wide_shl _ _ := 0; wide_shr _ _ := 0 }.

Definition stack0 : list Z := replicate 16 0.
Definition kern0 : kern := Kern ∅ [] 0.

(** Accept 96 bytes of packets whose half word at offset 2 is 0x800. *)
Definition ip_only : list bpf_insn :=
  [Insn 0x28 0 0 2; Insn 0x15 0 1 0x800; Insn 0x06 0 0 96; Insn 0x06 0 0 0].

Definition ip_frame : list Z := [0; 1; 8; 0; 69; 7].
Definition other_frame : list Z := [0; 1; 8; 6; 0].

Definition set_up : list event :=
  [(stack0, SetBufLen 0x80000 1); (stack0, SetFilter (Some ip_only) 4 0);
   (stack0, SetIf (Some (BpfIf 1 (attach_hdrlen 14))) true)].

(** The buffers have 32 bytes: the third packet finds no room. *)
Definition traffic : list event :=
  [(stack0, Tap ip_frame (1, 0)); (stack0, Tap other_frame (2, 0));
   (stack0, Mtap [0; 1; 8] [[0; 70]] true (3, 0)); (stack0, Tap ip_frame (4, 0));
   (stack0, ReadCall 32 true 0); (stack0, SetImmediate 1); (stack0, ReadCall 32 false 0);
   (stack0, IfDetach); (stack0, ReadCall 32 true 0)].

Ltac next_event :=
  match goal with
  | |- context [match ?x with Ok _ => _ | Crash _ => _ end] =>
    let y := eval vm_compute in x in
    replace x with y by (vm_compute; reflexivity)
  end; cbv iota beta.

Ltac request_wf :=
  cbn; try exact I; unfold packet_ok, no_empty, is_byte, is_u32, insn_wf, x_mem_ok, copied, ip_only, ip_frame in *; split_and?;
  repeat match goal with
  | |- Forall _ _ => repeat constructor
  | |- ∃ hdrlen, _ => exists 14
  end; cbn; intros; try (done || lia).

Lemma session_ok : run_ok (set_up ++ (stack0, Flush) :: traffic) (bpfopen 4096) kern0.
Proof.
  unfold set_up, traffic, ip_only, ip_frame, other_frame. cbn [app run_ok].
  repeat (split; [reflexivity|split; [request_wf|next_event]]); exact I.
Qed.

Lemma bpf_requests_refine_witness :
  ∃ d datas w' outs a w'',
    run (set_up ++ (stack0, Flush) :: traffic) (bpfopen 4096) kern0 = Ok ((d, datas), w') ∧
    Forall2 delivers datas outs ∧
    spec_run (set_up ++ (stack0, Flush) :: traffic) (opened 4096) outs a ∧ refines w' d a ∧
    bpf_freed d w' = Ok (tt, w'').
Proof. apply (bpf_requests_refine 4096 _ kern0 ltac:(lia) session_ok). Defined.

Lemma bpf_capture_fifo_witness :
  ∃ d1 datas1 w1 d datas w' outs waiting,
    run set_up (bpfopen 4096) kern0 = Ok ((d1, datas1), w1) ∧
    run ((stack0, Flush) :: traffic) d1 w1 = Ok ((d, datas), w') ∧
    Forall2 delivers datas outs ∧ queue_ok w' d waiting ∧
    let seen := seen_packets traffic (bool_decide (bd_bif d1 ≠ None)) (bd_seesent d1) in
    let room := bd_bufsize d1 - from_option bif_hdrlen 0 (bd_bif d1) in
    let accepted := omap (accepted_rec (bd_filter d1) room) seen in
    let captured := concat outs ++ waiting in
    captured `sublist_of` accepted ∧
    bd_rcount d = u32 (zlen seen) ∧ bd_dcount d = u32 (zlen accepted - zlen captured).
Proof. apply (bpf_capture_fifo 4096 set_up stack0 traffic kern0 ltac:(lia) session_ok ltac:(repeat constructor)). Defined.

(** What the readers of the session get: one packet per read, the last one lost. *)
Example session_reads :
  match run (set_up ++ (stack0, Flush) :: traffic) (bpfopen 4096) kern0 with
  | Ok ((d, datas), _) => (omap (λ data, parse 9 data 0 (zlen data)) (drop 4 datas), bd_rcount d, bd_dcount d)
  | Crash _ => ([], 0, 0)
  end =
  ([[]; []; []; []; [Rec 1 0 6 ip_frame]; []; [Rec 3 0 5 [0; 1; 8; 0; 70]]; []; []], 4, 1).
Proof. vm_compute. reflexivity. Qed.

(** A descriptor in immediate mode with one record of six bytes. *)
Definition cells0 : cells :=
  Some <$> (hdr_bytes 18 (Rec 1 0 6 ip_frame) ++ ip_frame ++ replicate 8 0).
Definition kern1 : kern := Kern (<[1%positive := cells0]> {[2%positive := cells0]}) [] 0.
Definition dev1 : bpf_d :=
  BpfD (Some 1%positive) None (Some 2%positive) 24 0 32 (Some (BpfIf 1 18)) (Some ip_only) 1 0 1 1.

Lemma dev1_ok : dev_ok kern1 dev1 18 [] [Rec 1 0 6 ip_frame].
Proof.
  split; try done.
  - by intros bif [= <-].
  - exists 1%positive. split; [done|]. exists cells0. split_and!; try done. split; [|done]. split.
    + intros i b Hi. do 18 (destruct i as [|i]; [by injection Hi as <-|]). done.
    + intros i b Hi. do 6 (destruct i as [|i]; [by injection Hi as <-|]). done.
  - split_and!; try done. exists 2%positive. split_and!; try done. by exists cells0.
  - constructor; [|constructor]. split_and!; by vm_compute.
Qed.

Lemma bpfpoll_then_read_witness :
  ∃ d' data rs held' stored',
    bpfread dev1 32 false 0 kern1 = Ok ((d', Read 0 data), kern1) ∧
    dev_ok kern1 d' 18 held' stored' ∧ delivers data rs ∧ rs ≠ [] ∧
    rs ++ held' ++ stored' = [Rec 1 0 6 ip_frame].
Proof.
  apply (bpfpoll_then_read kern1 dev1 18 [] [Rec 1 0 6 ip_frame] 1 1 false 0 dev1_ok); [reflexivity|lia].
Defined.

Lemma bpf_tap_correct_witness :
  ∃ ls' w', bpf_tap stack0 [dev1] ip_frame (2, 0) kern1 = Ok (l_d <$> ls', w') ∧ listeners_ok w' ls'.
Proof.
  destruct (bpf_tap_correct stack0 ip_frame (2, 0) kern1 [Listener dev1 18 [] [Rec 1 0 6 ip_frame]])
    as (ls' & w' & Hrun & Hok & _); cbn; try (done || unfold is_u32; lia).
  - split; [|by repeat constructor; set_solver]. constructor; [|constructor].
    split_and!; [apply dev1_ok|done|]. split_and!; [reflexivity|request_wf..].
  - request_wf.
  - by exists ls', w'.
Defined.
