(* ===== verification/SyncMachine.v ===== *)
(** * Concurrent calls: interleavings of atomic steps

    The synchronisation primitives of libdispatch are used by any number of
    threads at a time.  A call in progress is a program counter with its local
    variables ([P]); one step of it is one atomic access to the shared state
    ([S]) together with the local computation up to the next one.  Here are the
    interleaving semantics the primitives share, with executable schedules, and
    sums over the calls, in which the counting invariants are stated. *)

From S2P Require Import Prelude.

Abbreviation tid := positive.

(** ** Sums over the calls *)

Section total.
Context {P : Type}.
Implicit Types (w : P → Z) (m : gmap tid P).

Definition total w m : Z := map_fold (λ _ p a, w p + a) 0 m.

Lemma total_empty w : total w ∅ = 0.
Proof. apply map_fold_empty. Qed.

Lemma total_new w m t p : m !! t = None → total w (<[t := p]> m) = w p + total w m.
Proof. intros Hm. unfold total. rewrite map_fold_insert_L; [done| |done]. intros. lia. Qed.

Lemma total_delete w m t p : m !! t = Some p → total w m = w p + total w (delete t m).
Proof.
  intros Hm. rewrite <- (insert_delete_id m t p) at 1 by done. apply total_new, lookup_delete_eq.
Qed.

Lemma total_upd w m t p p' :
  m !! t = Some p → total w (<[t := p']> m) = total w m - w p + w p'.
Proof.
  intros Hm. rewrite (total_delete w m t p Hm), <- insert_delete_eq.
  rewrite total_new by apply lookup_delete_eq. lia.
Qed.

Lemma total_ind (Q : Z → Prop) w m :
  Q 0 → (∀ t p z, m !! t = Some p → Q z → Q (w p + z)) → Q (total w m).
Proof.
  intros H0. induction m as [|t p m Hm IH] using map_ind; intros Hs; [by rewrite total_empty|].
  rewrite total_new by done. apply (Hs t); [apply lookup_insert_eq|]. apply IH.
  intros t' p' z Hp'. apply (Hs t'). rewrite lookup_insert_ne; [done|]. congruence.
Qed.

Lemma total_nonneg w m : (∀ p, 0 ≤ w p) → 0 ≤ total w m.
Proof. intros Hw. apply total_ind; [lia|]. intros t p z _. specialize (Hw p). lia. Qed.

Lemma total_ge w m t p : (∀ p, 0 ≤ w p) → m !! t = Some p → w p ≤ total w m.
Proof. intros Hw Hm. rewrite (total_delete _ _ _ _ Hm). pose proof (total_nonneg w (delete t m) Hw). lia. Qed.

Lemma total_zero w m t p : (∀ p, 0 ≤ w p) → total w m = 0 → m !! t = Some p → w p = 0.
Proof. intros Hw H0 Hm. pose proof (total_ge w m t p Hw Hm). specialize (Hw p). lia. Qed.

Lemma total_pos w m : 0 < total w m → ∃ t p, m !! t = Some p ∧ 0 < w p.
Proof.
  induction m as [|t p m Hm IH] using map_ind; [rewrite total_empty; lia|].
  rewrite total_new by done. intros Hp. destruct (decide (0 < w p)) as [Hwp|Hwp].
  { exists t, p. by rewrite lookup_insert_eq. }
  destruct IH as (t' & p' & Hp' & Hw'); [lia|]. exists t', p'. split; [|done].
  rewrite lookup_insert_ne; [done|]. congruence.
Qed.

Lemma total_add w1 w2 m : total (λ p, w1 p + w2 p) m = total w1 m + total w2 m.
Proof.
  induction m as [|t p m Hm IH] using map_ind; [by rewrite !total_empty|].
  rewrite !total_new by done. lia.
Qed.

Lemma total_le w1 w2 m :
  (∀ t p, m !! t = Some p → w1 p ≤ w2 p) → total w1 m ≤ total w2 m.
Proof.
  induction m as [|t p m Hm IH] using map_ind; intros Hle; [by rewrite !total_empty|].
  rewrite !total_new by done.
  assert (w1 p ≤ w2 p) by (apply (Hle t); apply lookup_insert_eq).
  assert (total w1 m ≤ total w2 m); [|lia]. apply IH. intros t' p' Hp'. apply (Hle t').
  rewrite lookup_insert_ne; [done|]. congruence.
Qed.

Lemma total_ext w1 w2 m :
  (∀ t p, m !! t = Some p → w1 p = w2 p) → total w1 m = total w2 m.
Proof. intros He. apply Z.le_antisymm; apply total_le; intros t p Hp; rewrite (He _ _ Hp); lia. Qed.
End total.

(** ** The machine *)

(** The calls in progress are bounded by what a 32-bit counter of the kernel
    can count. *)
Definition MAX_CALLS : Z := 2 ^ 31 - 2.

Section machine.
Context {S P C : Type}.
(** [exec c t s p]: one step of call [t] at [p], with the choice [c] of what is
    not determined; [Ok None] when it has to wait. *)
Context (exec : C → tid → S → P → outcome (option (S * P))).
(** Program counters at which a call can start, and those of finished calls. *)
Context (starts finished : P → bool).

Record config := Cfg { shared : S; calls : gmap tid P }.

Definition in_progress (c : config) : Z := total (λ p, if finished p then 0 else 1) (calls c).

Inductive event :=
| Start (t : tid) (p : P)
| Run (t : tid) (c : C).

Definition do_event (e : event) (c : config) : outcome (option config) :=
  match e with
  | Start t p =>
      if bool_decide (calls c !! t = None) && starts p && (in_progress c <? MAX_CALLS)
      then Ok (Some (Cfg (shared c) (<[t := p]> (calls c)))) else Ok None
  | Run t ch =>
      match calls c !! t with
      | None => Ok None
      | Some p =>
          match exec ch t (shared c) p with
          | Ok (Some (s, p')) => Ok (Some (Cfg s (<[t := p']> (calls c))))
          | Ok None => Ok None
          | Crash r => Crash r
          end
      end
  end.

Fixpoint run (es : list event) (c : config) : outcome (option config) :=
  match es with
  | [] => Ok (Some c)
  | e :: es =>
      match do_event e c with
      | Ok (Some c') => run es c'
      | Ok None => Ok None
      | Crash r => Crash r
      end
  end.

Inductive step : config → config → Prop :=
| step_event e c c' : do_event e c = Ok (Some c') → step c c'.

Definition reachable (s : S) (c : config) : Prop := rtc step (Cfg s ∅) c.

(** The process aborts in the next step of some call. *)
Definition crashes (c : config) (r : crash_reason) : Prop :=
  ∃ e, do_event e c = Crash r.

(** A call that cannot go on with the choice [ch]. *)
Definition blocked (ch : C) (c : config) (t : tid) : Prop := do_event (Run t ch) c = Ok None.

(** No call goes on with the choice [ch]: what is not finished waits. *)
Definition quiet (ch : C) (c : config) : Prop := ∀ t, blocked ch c t.

(** Whether no call can go on, decided by running each of them. *)
Definition quietb (ch : C) (c : config) : bool :=
  forallb (λ tp, match exec ch tp.1 (shared c) tp.2 with Ok None => true | _ => false end)
    (map_to_list (calls c)).

Lemma quietb_quiet ch c : quietb ch c = true → quiet ch c.
Proof.
  unfold quietb. rewrite forallb_forall. intros Hq t. unfold blocked. cbn.
  destruct (calls c !! t) as [p|] eqn:Ep; [|done].
  specialize (Hq (t, p)). rewrite <- list_elem_of_In, elem_of_map_to_list in Hq. specialize (Hq Ep). cbn in Hq.
  by destruct (exec ch t (shared c) p) as [[]|].
Qed.

(** The state after a schedule. *)
Definition after (es : list event) (s0 : S) : config :=
  match run es (Cfg s0 ∅) with Ok (Some c) => c | _ => Cfg s0 ∅ end.

Lemma run_reachable es c c' : run es c = Ok (Some c') → rtc step c c'.
Proof.
  revert c. induction es as [|e es IH]; intros c; cbn; [by intros [= ->]|].
  destruct (do_event e c) as [[c1|]|] eqn:E; try done. intros H.
  eapply rtc_l; [by econstructor|by apply IH].
Qed.

Lemma event_cases e c c' :
  do_event e c = Ok (Some c') →
  (∃ t p, calls c !! t = None ∧ starts p = true ∧ in_progress c < MAX_CALLS ∧
     c' = Cfg (shared c) (<[t := p]> (calls c))) ∨
  (∃ t ch p s p', calls c !! t = Some p ∧ exec ch t (shared c) p = Ok (Some (s, p')) ∧
     c' = Cfg s (<[t := p']> (calls c))).
Proof.
  destruct e as [t p|t ch]; cbn.
  - destruct (bool_decide _ && _ && _) eqn:E; [|done]. intros [= <-].
    apply andb_prop in E as [[E1%bool_decide_eq_true E2]%andb_prop E3%Z.ltb_lt]. left. by exists t, p.
  - destruct (calls c !! t) as [p|] eqn:Ep; [|done].
    destruct (exec ch t (shared c) p) as [[[s p']|]|] eqn:E; try done. intros [= <-].
    right. by exists t, ch, p, s, p'.
Qed.

(** Rule induction: an invariant holds initially, when a call starts, and is
    kept by every step of a call. *)
Lemma machine_inv (I : config → Prop) s0 :
  I (Cfg s0 ∅) →
  (∀ s m t p, I (Cfg s m) → m !! t = None → starts p = true → in_progress (Cfg s m) < MAX_CALLS →
     I (Cfg s (<[t := p]> m))) →
  (∀ s m t ch p s' p', I (Cfg s m) → m !! t = Some p → exec ch t s p = Ok (Some (s', p')) →
     I (Cfg s' (<[t := p']> m))) →
  ∀ c, reachable s0 c → I c.
Proof.
  intros H0 Hs Hx c Hr. unfold reachable in Hr.
  assert (∀ c1 c2, rtc step c1 c2 → I c1 → I c2) as Hind; [|by eapply Hind].
  clear c Hr H0. induction 1 as [|c1 c2 c3 Hst _ IH]; [done|]. intros H1. apply IH.
  destruct Hst as [e c1 c2 He]. destruct c1 as [s m].
  destruct (event_cases _ _ _ He) as [(t & p & ? & ? & ? & ->)|(t & ch & p & s' & p' & ? & ? & ->)];
    cbn in *; eauto.
Qed.
End machine.

Arguments Start {P C} t p.
Arguments Run {P C} t c.
Arguments Cfg {S P}.

(** Proofs about one step of one call: [upd_totals H] rewrites the sums over the
    updated map. *)
Ltac upd_totals H := rewrite ?(total_upd _ _ _ _ _ H).
