(* ===== verification/SyncKernel.v ===== *)
(** * The kernel semaphore the primitives sleep on

    [_dispatch_sema4_signal], [_dispatch_sema4_wait] and
    [_dispatch_sema4_timedwait] (libdispatch-913.60.2/src/shims/lock.c) call a
    counting semaphore of the system.  [KernelSemaphore] is what they call and
    [KernelSemaphoreLaws] what they rely on: signals are neither lost nor
    duplicated, and a signal reaches a sleeper when there is one.  The
    primitives are verified against this interface; MachSema.v shows that the
    kernel's semaphores implement it. *)

From S2P Require Import Prelude SyncMachine.

(** What a thread gets when it asks: it goes on, it is told that its time is
    over (only when it must not block), or it sleeps. *)
Inductive wait_answer := Got | Timed_out | Sleeps.

Class KernelSemaphore (K : Type) := {
  k_new : K;
  k_signal : K → K;
  k_wait (t : tid) (nonblocking : bool) (k : K) : wait_answer * K;
  (** a sleeper that was signalled returns *)
  k_resume (t : tid) (k : K) : option K;
  (** a sleeper that was not signalled leaves: timeout or interruption *)
  k_expire (t : tid) (k : K) : option K;
}.

(** [tokens]: signals not yet consumed; [sleepers]: threads inside a wait. *)
Class KernelSemaphoreLaws (K : Type) `{KernelSemaphore K} := {
  k_ok : K → Prop;
  tokens : K → Z;
  sleepers : K → gset tid;
  k_new_ok : k_ok k_new ∧ tokens k_new = 0 ∧ sleepers k_new = ∅;
  tokens_nonneg k : k_ok k → 0 ≤ tokens k;
  k_signal_ok k : k_ok k → tokens k < 2 ^ 31 - 1 →
    k_ok (k_signal k) ∧ tokens (k_signal k) = tokens k + 1 ∧ sleepers (k_signal k) = sleepers k;
  k_wait_ok t nb k : k_ok k → t ∉ sleepers k →
    let k' := (k_wait t nb k).2 in
    k_ok k' ∧
    match (k_wait t nb k).1 with
    | Got => tokens k' = tokens k - 1 ∧ sleepers k' = sleepers k
    | Timed_out => nb = true ∧ tokens k' = tokens k ∧ sleepers k' = sleepers k
    | Sleeps => nb = false ∧ tokens k' = tokens k ∧ sleepers k' = {[t]} ∪ sleepers k
    end;
  k_resume_ok t k k' : k_ok k → k_resume t k = Some k' →
    k_ok k' ∧ tokens k' = tokens k - 1 ∧ sleepers k' = sleepers k ∖ {[t]} ∧ t ∈ sleepers k;
  k_expire_ok t k k' : k_ok k → k_expire t k = Some k' →
    k_ok k' ∧ tokens k' = tokens k ∧ sleepers k' = sleepers k ∖ {[t]} ∧ t ∈ sleepers k;
  k_progress k : k_ok k → 0 < tokens k → sleepers k ≠ ∅ →
    ∃ t, t ∈ sleepers k ∧ is_Some (k_resume t k);
}.

(** The errors of the Mach semaphore calls, other than [KERN_ABORTED] and
    [KERN_OPERATION_TIMED_OUT], and how [DISPATCH_SEMAPHORE_VERIFY_KR] aborts.
    [KERN_FAILED] stands for every other code, such as [KERN_RESOURCE_SHORTAGE] of a
    semaphore that cannot be created or [KERN_TERMINATED] of one that is destroyed. *)
Inductive kern_error := KERN_INVALID_NAME | KERN_FAILED.

Definition DISPATCH_SEMAPHORE_VERIFY_KR (kr : kern_error) : crash_reason :=
  match kr with KERN_INVALID_NAME => CLIENT_CRASH | KERN_FAILED => INTERNAL_CRASH end.

(** The lazily created port: [MACH_PORT_NULL] until the first slow path. *)
Section sema4.
Context {K : Type} `{KernelSemaphore K}.

(** [_dispatch_sema4_create]: the semaphore made by the thread that wins the
    compare-and-swap stays, the others are destroyed. *)
Definition _dispatch_sema4_create (sema : option K) : option K :=
  match sema with None => Some k_new | Some k => Some k end.

#[global] Arguments _dispatch_sema4_create : simpl never.

Context `{!KernelSemaphoreLaws K}.

Definition sema_ok (sema : option K) : Prop := from_option k_ok True sema.
Definition sema_tokens (sema : option K) : Z := from_option tokens 0 sema.
Definition sema_sleepers (sema : option K) : gset tid := from_option sleepers ∅ sema.

#[global] Arguments sema_ok : simpl never.
#[global] Arguments sema_tokens : simpl never.
#[global] Arguments sema_sleepers : simpl never.

Lemma sema_Some_ok k : sema_ok (Some k) = k_ok k.
Proof. done. Qed.
Lemma sema_Some_tokens k : sema_tokens (Some k) = tokens k.
Proof. done. Qed.
Lemma sema_Some_sleepers k : sema_sleepers (Some k) = sleepers k.
Proof. done. Qed.

Lemma sema_create_ok sema :
  sema_ok sema → sema_ok (_dispatch_sema4_create sema) ∧
  sema_tokens (_dispatch_sema4_create sema) = sema_tokens sema ∧
  sema_sleepers (_dispatch_sema4_create sema) = sema_sleepers sema.
Proof. unfold _dispatch_sema4_create. destruct sema; [done|]. intros _. apply k_new_ok. Qed.

Lemma sema_tokens_nonneg sema : sema_ok sema → 0 ≤ sema_tokens sema.
Proof. destruct sema; [apply tokens_nonneg|done]. Qed.
End sema4.

(** [open_sema Ek H] uses the known kernel state of [H]. *)
Ltac open_sema Ek H :=
  cbn in H; rewrite Ek in H; rewrite ?sema_Some_ok, ?sema_Some_tokens, ?sema_Some_sleepers in H.

(** ** Which calls are asleep *)

Section sleeping.
Context {P : Type} (sleeping : P → bool).

(** The sleepers of the kernel semaphore are the calls at a sleeping point. *)
Definition sleep_ok (sl : gset tid) (m : gmap tid P) : Prop :=
  ∀ t, t ∈ sl ↔ from_option sleeping false (m !! t) = true.

Lemma sleep_empty : sleep_ok ∅ ∅.
Proof. intros t. rewrite lookup_empty. set_solver. Qed.

Lemma sleep_start sl m t p :
  sleep_ok sl m → m !! t = None → sleeping p = false → sleep_ok sl (<[t := p]> m).
Proof.
  intros Hs Hm Hp x. rewrite (Hs x), lookup_insert. case_decide; [subst|done]. rewrite Hm. cbn. by rewrite Hp.
Qed.

Lemma sleep_same sl m t p p' :
  sleep_ok sl m → m !! t = Some p → sleeping p' = sleeping p → sleep_ok sl (<[t := p']> m).
Proof.
  intros Hs Hm Hp x. rewrite (Hs x), lookup_insert. case_decide; [subst|done]. rewrite Hm. cbn. by rewrite Hp.
Qed.

Lemma sleep_in sl m t p : sleep_ok sl m → sleeping p = true → sleep_ok ({[t]} ∪ sl) (<[t := p]> m).
Proof.
  intros Hs Hp x. rewrite elem_of_union, elem_of_singleton, (Hs x), lookup_insert.
  case_decide; cbn; [rewrite Hp; split; [done|by left]|]. split; [intros [?|?]; [congruence|done]|tauto].
Qed.

Lemma sleep_out sl m t p : sleep_ok sl m → sleeping p = false → sleep_ok (sl ∖ {[t]}) (<[t := p]> m).
Proof.
  intros Hs Hp x. rewrite elem_of_difference, elem_of_singleton, (Hs x), lookup_insert.
  case_decide; cbn; [rewrite Hp; split; [intros [_ ?]; congruence|done]|]. split; [tauto|]. intros ?. split; congruence.
Qed.

Lemma sleep_not_in sl m t p : sleep_ok sl m → m !! t = Some p → sleeping p = false → t ∉ sl.
Proof. intros Hs Hm Hp Ht. apply Hs in Ht. rewrite Hm in Ht. cbn in Ht. congruence. Qed.
End sleeping.

(** ** Waiting on an address

    [__ulock_wait] and [__ulock_wake] (and the futexes that replace them
    elsewhere) are system calls of a kernel that is not part of these sources:
    a thread that waits on an address sleeps when the word there still has the
    expected value, until a wake-up of that address.  [AddressWaiter] is the
    part after the comparison, which the callers do together with the access to
    the word, and [AddressWaiterLaws] what they rely on.  [SleepMap] satisfies
    the laws. *)

(** The ways a system call can fail.  That nobody waits, [ENOENT] of a wake-up, is
    not one of them: the wake-up has no effect then. *)
Inductive errno := EINTR | EFAULT | ETIMEDOUT | EOWNERDEAD | Other_error.

#[export] Instance errno_eq_dec : EqDecision errno.
Proof. solve_decision. Defined.

(** How [_dispatch_ulock_wait] and [_dispatch_unfair_lock_wait], resp.
    [_dispatch_ulock_wake] and [_dispatch_unfair_lock_wake], abort; [EINTR] repeats
    the call, the other errors are returned. *)
Definition dispatch_wait_error (err : errno) : option crash_reason :=
  match err with
  | EINTR | EFAULT | ETIMEDOUT => None
  | EOWNERDEAD => Some CLIENT_CRASH    (* "corruption of lock owner" *)
  | Other_error => Some INTERNAL_CRASH
  end.
Definition dispatch_wake_error (err : errno) : option crash_reason :=
  match err with EINTR => None | _ => Some INTERNAL_CRASH end.

(** An address is the name of the word waited on. *)
Abbreviation addr := positive.

Class AddressWaiter (U : Type) := {
  u_empty : U;
  (** the word had the expected value: thread [t] sleeps on [a] *)
  u_sleep (t : tid) (a : addr) (u : U) : U;
  (** wake one thread that sleeps on [a], or all of them *)
  u_wake (a : addr) (all : bool) (u : U) : U;
  (** the wait of [t] returns, if it was woken or if it is interrupted *)
  u_return (t : tid) (interrupted : bool) (u : U) : option U;
}.

(** [u_asleep]: who sleeps on what and has not been woken. *)
Class AddressWaiterLaws (U : Type) `{AddressWaiter U} := {
  u_asleep : U → gmap tid addr;
  u_empty_ok : u_asleep u_empty = ∅;
  u_sleep_ok t a u : u_asleep (u_sleep t a u) = <[t := a]> (u_asleep u);
  u_wake_others a all u t b : u_asleep u !! t = Some b → a ≠ b → u_asleep (u_wake a all u) !! t = Some b;
  (** a wake-up puts nobody to sleep *)
  u_wake_sub a all u t b : u_asleep (u_wake a all u) !! t = Some b → u_asleep u !! t = Some b;
  u_wake_all a u t : u_asleep u !! t = Some a → u_asleep (u_wake a true u) !! t = None;
  (** one of the sleepers is woken, if there is one *)
  u_wake_one a u t :
    u_asleep u !! t = Some a → ∃ t', u_asleep u !! t' = Some a ∧ u_asleep (u_wake a false u) !! t' = None;
  u_return_ok t i u u' : u_return t i u = Some u' → u_asleep u' = delete t (u_asleep u);
  u_return_woken t u : u_asleep u !! t = None → is_Some (u_return t false u);
  (** a thread that was woken does not report an interruption *)
  u_return_interrupted t u u' : u_return t true u = Some u' → is_Some (u_asleep u !! t);
}.

(** The result of the wait is the number of threads that still wait there. *)
Class AddressCount (U : Type) := u_remaining : addr → U → Z.

Class AddressCountLaws (U : Type) `{AddressWaiterLaws U} `{!AddressCount U} :=
  u_remaining_pos a u t : u_asleep u !! t = Some a → 0 < u_remaining a u.

Lemma u_wake_none `{AddressWaiterLaws U} a all u t :
  u_asleep u !! t = None → u_asleep (u_wake a all u) !! t = None.
Proof.
  intros Ht. destruct (u_asleep (u_wake a all u) !! t) as [b|] eqn:E; [|done]. apply u_wake_sub in E. congruence.
Qed.

(** ** Lock words *)

Lemma lor_low_bit x : Z.lor x 1 = x + 1 - x mod 2.
Proof.
  pose proof (Z.sub_lor_l_same_r x 1) as E1. pose proof (Z.sub_land_same_l x 1) as E2.
  pose proof (Z.land_ones x 1 ltac:(lia)) as E3. change (Z.ones 1) with 1 in E3. change (2 ^ 1) with 2 in E3. lia.
Qed.

(** Clearing the low [k] bits of a 32-bit word. *)
Lemma land_clear_low k x : 0 ≤ k ≤ 32 → 0 ≤ x < 2 ^ 32 → Z.land x (u32 (Z.lnot (Z.ones k))) = x - x mod 2 ^ k.
Proof.
  intros Hk Hx. unfold wrapu. rewrite <- Z.land_ones, (Z.land_comm (Z.lnot _)), Z.land_assoc by lia.
  rewrite (Z.land_ones x 32), Z.mod_small by lia. rewrite <- Z.sub_land_same_l. by rewrite Z.land_ones by lia.
Qed.

(** ** A map of sleepers *)

(** Someone who sleeps on [a]. *)
Definition sleeper_on (a : addr) (u : gmap tid addr) : option tid :=
  fst <$> head (map_to_list (filter (λ x, x.2 = a) u)).

Lemma sleeper_on_Some a u t : sleeper_on a u = Some t → u !! t = Some a.
Proof.
  unfold sleeper_on. destruct (map_to_list _) as [|[t' b] l] eqn:E; [done|]. cbn. intros [= ->].
  assert ((t, b) ∈ map_to_list (filter (λ x, x.2 = a) u)) as Hin by (rewrite E; left).
  apply elem_of_map_to_list, map_lookup_filter_Some in Hin as [? ?]. cbn in *. congruence.
Qed.

Lemma sleeper_on_None a u t : sleeper_on a u = None → u !! t ≠ Some a.
Proof.
  unfold sleeper_on. destruct (map_to_list _) as [|x l] eqn:E; [|done]. intros _ Ht.
  assert ((t, a) ∈ map_to_list (filter (λ x, x.2 = a) u)) as Hin.
  { apply elem_of_map_to_list, map_lookup_filter_Some. done. }
  rewrite E in Hin. by apply elem_of_nil in Hin.
Qed.

#[export] Instance SleepMap : AddressWaiter (gmap tid addr) := {|
  u_empty := ∅;
  u_sleep t a u := <[t := a]> u;
  u_wake a all u :=
    if all then filter (λ x, x.2 ≠ a) u
    else match sleeper_on a u with Some t => delete t u | None => u end;
  u_return t i u :=
    match u !! t with
    | None => if i then None else Some u
    | Some _ => if i then Some (delete t u) else None
    end;
|}.

#[export] Instance SleepMapLaws : AddressWaiterLaws (gmap tid addr).
Proof.
  refine {| u_asleep := λ u, u |}; cbn.
  - done.
  - done.
  - intros a [] u t b Ht Hne; [apply map_lookup_filter_Some; cbn; split; congruence|].
    destruct (sleeper_on a u) as [t'|] eqn:E; [|done]. apply sleeper_on_Some in E.
    rewrite lookup_delete_ne; [done|]. congruence.
  - intros a [] u t b; [by intros [? _]%map_lookup_filter_Some|].
    destruct (sleeper_on a u); [by intros [_ ?]%lookup_delete_Some|done].
  - intros a u t Ht. apply map_lookup_filter_None. right. cbn. intros b Hb. simplify_eq. tauto.
  - intros a u t Ht. destruct (sleeper_on a u) as [t'|] eqn:E; [|by apply (sleeper_on_None _ _ t) in E].
    exists t'. split; [by apply sleeper_on_Some|apply lookup_delete_eq].
  - intros t [] u u'; destruct (u !! t) eqn:E; try done; intros [= <-]; [done|by rewrite delete_id].
  - intros t u Ht. rewrite Ht. eauto.
  - intros t u u'. destruct (u !! t); [eauto|done].
Defined.

#[export] Instance SleepMapCount : AddressCount (gmap tid addr) :=
  λ a u, Z.of_nat (size (filter (λ x, x.2 = a) u)).

#[export] Instance SleepMapCountLaws : AddressCountLaws (gmap tid addr).
Proof.
  intros a u t Ht. cbn in Ht. unfold u_remaining, SleepMapCount.
  destruct (size (filter (λ x, x.2 = a) u)) eqn:E; [|lia]. apply map_size_empty_iff in E.
  assert (filter (λ x, x.2 = a) u !! t = Some a) as Hf by by apply map_lookup_filter_Some.
  by rewrite E, lookup_empty in Hf.
Qed.
