(* ===== verification/MachSema.v ===== *)
(** * Mach semaphores

    Model of src/xnu-792/osfmk/kern/sync_sema.c, for one semaphore: its count,
    its queue of blocked threads and, for the threads taken off the queue that
    have not run yet, the wait result they will see.  Each definition is what
    happens while the semaphore is locked.  [MachSemaphore] is the instance of
    the interface of SyncKernel.v. *)

From S2P Require Import Prelude SyncMachine SyncKernel.

Definition KERN_SUCCESS : Z := 0.
Definition KERN_INVALID_ARGUMENT : Z := 4.
Definition KERN_RESOURCE_SHORTAGE : Z := 6.
Definition KERN_ABORTED : Z := 14.
Definition KERN_INVALID_VALUE : Z := 18.
Definition KERN_TERMINATED : Z := 37.
Definition KERN_NOT_WAITING : Z := 48.
Definition KERN_OPERATION_TIMED_OUT : Z := 49.
Definition NSEC_PER_SEC : Z := 1000000000.

Inductive wait_result := THREAD_AWAKENED | THREAD_TIMED_OUT | THREAD_INTERRUPTED | THREAD_RESTART.

Definition SEMAPHORE_OPTION_NONE : Z := 0.
Definition SEMAPHORE_SIGNAL_ALL : Z := 1.
Definition SEMAPHORE_SIGNAL_PREPOST : Z := 2.

Record semaphore := Semaphore {
  active : bool;
  count : Z;
  wait_queue : list tid;
  results : gmap tid wait_result;
}.

Definition set_count (n : Z) (s : semaphore) := Semaphore (active s) n (wait_queue s) (results s).

(** ** The wait queue *)

(** [wait_queue_wakeup64_one_locked]: the first thread of the queue goes. *)
Definition wait_queue_wakeup64_one_locked (r : wait_result) (s : semaphore) : Z * semaphore :=
  match wait_queue s with
  | [] => (KERN_NOT_WAITING, s)
  | t :: q => (KERN_SUCCESS, Semaphore (active s) (count s) q (<[t := r]> (results s)))
  end.

(** [wait_queue_wakeup64_thread_locked], and [clear_wait] of a thread whose
    timer expired or that was aborted. *)
Definition wait_queue_wakeup64_thread_locked (t : tid) (r : wait_result) (s : semaphore) : Z * semaphore :=
  if bool_decide (t ∈ wait_queue s)
  then (KERN_SUCCESS, Semaphore (active s) (count s) (filter (λ x, x ≠ t) (wait_queue s))
                        (<[t := r]> (results s)))
  else (KERN_NOT_WAITING, s).

Definition wait_queue_wakeup64_all_locked (r : wait_result) (s : semaphore) : Z * semaphore :=
  match wait_queue s with
  | [] => (KERN_NOT_WAITING, s)
  | q => (KERN_SUCCESS, Semaphore (active s) (count s) [] (foldr (λ t m, <[t := r]> m) (results s) q))
  end.

(** ** sync_sema.c *)

Definition SYNC_POLICY_MAX : Z := 7.

(** For a task that is not [TASK_NULL].  [has_memory] and [has_port]: whether [zalloc] and
    [ipc_port_alloc_kernel] succeed. *)
Definition semaphore_create (has_memory has_port : bool) (policy value : Z) : Z * option semaphore :=
  if (value <? 0) || (policy >? SYNC_POLICY_MAX) then (KERN_INVALID_ARGUMENT, None)
  else if negb has_memory then (KERN_RESOURCE_SHORTAGE, None)
  else if negb has_port then (KERN_RESOURCE_SHORTAGE, None)
  else (KERN_SUCCESS, Some (Semaphore true value [] ∅)).

(** [owned]: whether the task is the owner.  Deactivation, behind an assertion, and
    the wake-up of everyone. *)
Definition semaphore_destroy (owned : bool) (s : semaphore) : outcome (Z * semaphore) :=
  if negb owned then Ok (KERN_INVALID_ARGUMENT, s)
  else if negb (active s) then Crash ASSERT_FAILED
  else
    let old_count := count s in
    let s := Semaphore false 0 (wait_queue s) (results s) in
    Ok (KERN_SUCCESS, if old_count <? 0 then (wait_queue_wakeup64_all_locked THREAD_RESTART s).2 else s).

Definition semaphore_signal_internal (thread : option tid) (options : Z) (s : semaphore) : Z * semaphore :=
  if negb (active s) then (KERN_TERMINATED, s) else
  match thread with
  | Some t =>
      if count s <? 0 then wait_queue_wakeup64_thread_locked t THREAD_AWAKENED s
      else (KERN_NOT_WAITING, s)
  | None =>
      if negb (Z.land options SEMAPHORE_SIGNAL_ALL =? 0) then
        if count s <? 0 then wait_queue_wakeup64_all_locked THREAD_AWAKENED (set_count 0 s)
        else (KERN_SUCCESS,
              if negb (Z.land options SEMAPHORE_SIGNAL_PREPOST =? 0)
              then set_count (i32 (count s + 1)) s else s)
      else
        let '(kr, s1) :=
          if count s <? 0 then wait_queue_wakeup64_one_locked THREAD_AWAKENED s
          else (KERN_NOT_WAITING, s) in
        if kr =? KERN_SUCCESS then (KERN_SUCCESS, s1)
        else
          (* all waiters gone *)
          let s2 := if count s <? 0 then set_count 0 s1 else s1 in
          (KERN_NOT_WAITING,
           if negb (Z.land options SEMAPHORE_SIGNAL_PREPOST =? 0)
           then set_count (i32 (count s2 + 1)) s2 else s2)
  end.

Definition semaphore_signal_thread (thread : option tid) (s : semaphore) : Z * semaphore :=
  semaphore_signal_internal thread SEMAPHORE_OPTION_NONE s.

Definition semaphore_signal (s : semaphore) : Z * semaphore :=
  let '(kr, s) := semaphore_signal_internal None SEMAPHORE_SIGNAL_PREPOST s in
  (if kr =? KERN_NOT_WAITING then KERN_SUCCESS else kr, s).

Definition semaphore_signal_all (s : semaphore) : Z * semaphore :=
  let '(kr, s) := semaphore_signal_internal None SEMAPHORE_SIGNAL_ALL s in
  (if kr =? KERN_NOT_WAITING then KERN_SUCCESS else kr, s).

Definition semaphore_convert_wait_result (r : wait_result) : Z :=
  match r with
  | THREAD_AWAKENED => KERN_SUCCESS
  | THREAD_TIMED_OUT => KERN_OPERATION_TIMED_OUT
  | THREAD_INTERRUPTED => KERN_ABORTED
  | THREAD_RESTART => KERN_TERMINATED
  end.

(** [semaphore_wait_internal] up to [thread_block], without a semaphore to
    signal: the result, or [None] for a thread that goes to sleep. *)
Definition semaphore_wait_internal (t : tid) (wait_timep : option (Z * Z)) (s : semaphore) :
    option Z * semaphore :=
  let nonblocking :=
    match wait_timep with Some (sec, nsec) => (sec =? 0) && (nsec =? 0) | None => false end in
  if negb (active s) then (Some KERN_TERMINATED, s)
  else if count s >? 0 then (Some KERN_SUCCESS, set_count (count s - 1) s)
  else if nonblocking then (Some KERN_OPERATION_TIMED_OUT, s)
  else (None, Semaphore (active s) (-1) (wait_queue s ++ [t]) (results s)).

(** The rest of it, once the thread runs again. *)
Definition semaphore_wait_return (t : tid) (s : semaphore) : option (Z * semaphore) :=
  match results s !! t with
  | Some r => Some (semaphore_convert_wait_result r,
                    Semaphore (active s) (count s) (wait_queue s) (delete t (results s)))
  | None => None
  end.

Definition semaphore_wait (t : tid) (s : semaphore) : option Z * semaphore :=
  semaphore_wait_internal t None s.

Definition semaphore_timedwait (t : tid) (wait_time : Z * Z) (s : semaphore) : option Z * semaphore :=
  if (wait_time.2 <? 0) || (wait_time.2 >=? NSEC_PER_SEC) then (Some KERN_INVALID_VALUE, s)
  else semaphore_wait_internal t (Some wait_time) s.

(** ** The interface *)

(** A wait that returned success, that timed out at once, or that sleeps. *)
Definition mach_wait (t : tid) (nb : bool) (s : semaphore) : wait_answer * semaphore :=
  let '(kr, s) := if nb then semaphore_timedwait t (0, 0) s else semaphore_wait t s in
  match kr with
  | None => (Sleeps, s)
  | Some kr => (if kr =? KERN_SUCCESS then Got else Timed_out, s)
  end.

Definition mach_resume (t : tid) (s : semaphore) : option semaphore :=
  match semaphore_wait_return t s with
  | Some (kr, s') => if kr =? KERN_SUCCESS then Some s' else None
  | None => None
  end.

(** The timer or an abort takes the thread off the queue and it runs. *)
Definition mach_expire (t : tid) (s : semaphore) : option semaphore :=
  let '(kr, s) := wait_queue_wakeup64_thread_locked t THREAD_TIMED_OUT s in
  if kr =? KERN_SUCCESS then snd <$> semaphore_wait_return t s else None.

#[export] Instance MachSemaphore : KernelSemaphore semaphore := {|
  k_new := Semaphore true 0 [] ∅; (* [semaphore_create] with value 0 *)
  k_signal s := (semaphore_signal s).2;
  k_wait := mach_wait;
  k_resume := mach_resume;
  k_expire := mach_expire;
|}.

(** ** Correctness *)

Record mach_ok (s : semaphore) : Prop := {
  mo_active : active s = true;
  mo_count : -1 ≤ count s < 2 ^ 31;
  (** nobody sleeps while there is a count to take *)
  mo_queue : 0 ≤ count s → wait_queue s = [];
  mo_nodup : NoDup (wait_queue s);
  mo_off : ∀ t, t ∈ wait_queue s → results s !! t = None;
  mo_awake : ∀ t r, results s !! t = Some r → r = THREAD_AWAKENED;
}.

Definition mach_tokens (s : semaphore) : Z := Z.max 0 (count s) + Z.of_nat (size (results s)).
Definition mach_sleepers (s : semaphore) : gset tid := list_to_set (wait_queue s) ∪ dom (results s).

Lemma mach_sleepers_spec t s :
  t ∈ mach_sleepers s ↔ t ∈ wait_queue s ∨ is_Some (results s !! t).
Proof. unfold mach_sleepers. by rewrite elem_of_union, elem_of_list_to_set, elem_of_dom. Qed.

Lemma semaphore_signal_eq s :
  active s = true →
  (semaphore_signal s).2 =
    if count s <? 0 then
      match wait_queue s with
      | [] => set_count 1 s
      | t :: q => Semaphore true (count s) q (<[t := THREAD_AWAKENED]> (results s))
      end
    else set_count (i32 (count s + 1)) s.
Proof.
  intros Ha. unfold semaphore_signal, semaphore_signal_internal, wait_queue_wakeup64_one_locked.
  rewrite Ha. destruct (count s <? 0) eqn:E; [|done]. by destruct (wait_queue s).
Qed.

Lemma mach_signal_ok s :
  mach_ok s → mach_tokens s < 2 ^ 31 - 1 →
  let s' := (semaphore_signal s).2 in
  mach_ok s' ∧ mach_tokens s' = mach_tokens s + 1 ∧ mach_sleepers s' = mach_sleepers s.
Proof.
  intros [Ha Hc Hq Hn Ho Hw] Ht. unfold mach_tokens in *.
  rewrite semaphore_signal_eq by done. destruct (Z.ltb_spec (count s) 0) as [Hlt|Hge].
  - destruct (wait_queue s) as [|t q] eqn:Eq; cbn.
    + split_and!; [split; cbn; rewrite ?Eq; done || lia|lia|].
      apply set_eq. intros t. rewrite !mach_sleepers_spec. cbn. by rewrite Eq.
    + apply NoDup_cons in Hn as [Hnt Hn]. assert (results s !! t = None) as Htn by (apply Ho; left).
      split_and!.
      * split; cbn; [done|lia|lia|done| |].
        -- intros x Hx. rewrite lookup_insert_ne by (intros ->; done). apply Ho. by right.
        -- intros x r [[<- <-]|[_ Hr]]%lookup_insert_Some; [done|by eapply Hw].
      * rewrite map_size_insert_None by done. lia.
      * apply set_eq. intros x. rewrite !mach_sleepers_spec. cbn. rewrite Eq, elem_of_cons.
        destruct (decide (x = t)) as [->|]; [rewrite lookup_insert_eq|rewrite lookup_insert_ne by done];
          naive_solver.
  - rewrite wraps_small by lia. cbn. split_and!; [split; cbn; try done; try lia; auto|lia|done].
Qed.

Lemma mach_wait_ok t nb s :
  mach_ok s → t ∉ mach_sleepers s →
  let s' := (mach_wait t nb s).2 in
  mach_ok s' ∧
  match (mach_wait t nb s).1 with
  | Got => mach_tokens s' = mach_tokens s - 1 ∧ mach_sleepers s' = mach_sleepers s
  | Timed_out => nb = true ∧ mach_tokens s' = mach_tokens s ∧ mach_sleepers s' = mach_sleepers s
  | Sleeps => nb = false ∧ mach_tokens s' = mach_tokens s ∧ mach_sleepers s' = {[t]} ∪ mach_sleepers s
  end.
Proof.
  intros Hok Ht. pose proof Hok as [Ha Hc Hq Hn Ho Hw]. rewrite mach_sleepers_spec in Ht.
  unfold mach_wait, semaphore_timedwait, semaphore_wait, semaphore_wait_internal.
  destruct nb; cbn; rewrite Ha; cbn;
    (destruct (Z.gtb_spec (count s) 0) as [Hgt|Hle]; cbn;
      [split_and!; [split; cbn; try done; try lia; intros; apply Hq; lia|unfold mach_tokens; cbn; lia|done]|]).
  - done.
  - split_and!; [| |unfold mach_tokens; cbn; lia|].
    + split; cbn; [done|lia|lia| | |done].
      * apply NoDup_app. split_and!; [done| |apply NoDup_singleton].
        intros x Hx ->%list_elem_of_singleton. tauto.
      * intros x [Hx| ->%list_elem_of_singleton]%elem_of_app; [by apply Ho|].
        apply eq_None_not_Some. tauto.
    + done.
    + apply set_eq. intros x. rewrite elem_of_union, !mach_sleepers_spec. cbn.
      rewrite elem_of_app, list_elem_of_singleton, elem_of_singleton. tauto.
Qed.

Lemma mach_resume_ok t s s' :
  mach_ok s → mach_resume t s = Some s' →
  mach_ok s' ∧ mach_tokens s' = mach_tokens s - 1 ∧
  mach_sleepers s' = mach_sleepers s ∖ {[t]} ∧ t ∈ mach_sleepers s.
Proof.
  intros [Ha Hc Hq Hn Ho Hw]. unfold mach_resume, semaphore_wait_return.
  destruct (results s !! t) as [r|] eqn:Er; [|done]. rewrite (Hw _ _ Er). cbn. intros [= <-].
  assert (t ∉ wait_queue s) as Hnt by (intros Hx; by rewrite (Ho _ Hx) in Er).
  split_and!.
  - split; cbn; try done.
    + intros x Hx. rewrite lookup_delete_ne; [by apply Ho|]. by intros ->.
    + intros x r' [_ Hr]%lookup_delete_Some. by eapply Hw.
  - unfold mach_tokens. cbn. rewrite (map_size_delete_Some _ _ (mk_is_Some _ _ Er)).
    assert (size (results s) ≠ 0%nat); [|lia]. by apply (map_size_ne_0_lookup_2 _ t); eexists.
  - apply set_eq. intros x. rewrite elem_of_difference, !mach_sleepers_spec. cbn.
    rewrite elem_of_singleton.
    destruct (decide (x = t)) as [->|]; [rewrite lookup_delete_eq|rewrite lookup_delete_ne by done];
      [|naive_solver]. split; [intros [?|[? ?]]; done|tauto].
  - apply mach_sleepers_spec. right. eauto.
Qed.

Lemma mach_expire_ok t s s' :
  mach_ok s → mach_expire t s = Some s' →
  mach_ok s' ∧ mach_tokens s' = mach_tokens s ∧
  mach_sleepers s' = mach_sleepers s ∖ {[t]} ∧ t ∈ mach_sleepers s.
Proof.
  intros [Ha Hc Hq Hn Ho Hw]. unfold mach_expire, wait_queue_wakeup64_thread_locked.
  case_bool_decide as Ht; [|done]. cbn. unfold semaphore_wait_return. cbn.
  rewrite lookup_insert_eq. cbn. intros [= <-]. pose proof (Ho _ Ht) as Hr.
  rewrite delete_insert_id by done. split_and!.
  - split; cbn; try done.
    + intros H. by rewrite (Hq H).
    + by apply NoDup_filter.
    + intros x [_ Hx]%list_elem_of_filter. by apply Ho.
  - done.
  - apply set_eq. intros x. rewrite elem_of_difference, !mach_sleepers_spec. cbn.
    rewrite list_elem_of_filter, elem_of_singleton.
    destruct (decide (x = t)) as [->|]; [|tauto]. rewrite Hr. split; [intros [[? _]|[? ?]]; done|tauto].
  - apply mach_sleepers_spec. by left.
Qed.

Lemma mach_progress s :
  mach_ok s → 0 < mach_tokens s → mach_sleepers s ≠ ∅ →
  ∃ t, t ∈ mach_sleepers s ∧ is_Some (mach_resume t s).
Proof.
  intros [Ha Hc Hq Hn Ho Hw] Ht Hs.
  assert (∃ t r, results s !! t = Some r) as (t & r & Hr).
  { destruct (decide (results s = ∅)) as [E|E]; [|by apply map_choose in E].
    exfalso. unfold mach_tokens in Ht. rewrite E, map_size_empty in Ht. apply Hs.
    unfold mach_sleepers. rewrite E, Hq by lia. set_solver. }
  exists t. split; [apply mach_sleepers_spec; right; eauto|].
  unfold mach_resume, semaphore_wait_return. rewrite Hr, (Hw _ _ Hr). eauto.
Qed.

Lemma mach_new_ok :
  mach_ok (Semaphore true 0 [] ∅) ∧ mach_tokens (Semaphore true 0 [] ∅) = 0 ∧
  mach_sleepers (Semaphore true 0 [] ∅) = ∅.
Proof. split_and!; [|done|done]. split; cbn; done || lia || constructor. Qed.

Lemma mach_create_new policy :
  policy ≤ SYNC_POLICY_MAX → semaphore_create true true policy 0 = (KERN_SUCCESS, Some k_new).
Proof. intros Hp. unfold semaphore_create. destruct (Z.gtb_spec policy SYNC_POLICY_MAX); [lia|done]. Qed.

Lemma mach_tokens_nonneg s : mach_ok s → 0 ≤ mach_tokens s.
Proof. intros _. unfold mach_tokens. lia. Qed.

#[export] Instance MachSemaphoreLaws : KernelSemaphoreLaws semaphore := {|
  k_ok := mach_ok;
  tokens := mach_tokens;
  sleepers := mach_sleepers;
  k_new_ok := mach_new_ok;
  tokens_nonneg := mach_tokens_nonneg;
  k_signal_ok := mach_signal_ok;
  k_wait_ok := mach_wait_ok;
  k_resume_ok := mach_resume_ok;
  k_expire_ok := mach_expire_ok;
  k_progress := mach_progress;
|}.
