(* ===== verification/DispatchSemaphore.v ===== *)
(** * Dispatch semaphores: definitions

    Model of the first half of src/libdispatch-913.60.2/src/semaphore.c
    ([dispatch_semaphore_*]) with the calls of src/shims/lock.c it makes.  The
    shared state is the value, the original value and the lazily created kernel
    semaphore; a call is at one of the points [pc], each before an atomic
    access or a kernel call.  [long] values wrap at 64 bits. *)

From S2P Require Import Prelude DispatchTime SyncMachine SyncKernel.

Module Sema.
Import Time.

(** The smallest [long]. *)
Definition LONG_MIN : Z := - 2 ^ 63.
(** [KERN_OPERATION_TIMED_OUT] *)
Definition _DSEMA4_TIMEOUT : Z := 49.

(** What is not determined by the shared state: whether a timed wait expires or
    is interrupted now, whether a weak compare-and-swap fails for no reason, and
    whether a kernel call fails. *)
Inductive choice := Go | Expires | Interrupted | Spurious | Failed (kr : kern_error).

(** A kernel call, with the check of its result that follows it. *)
Definition kernel_call {A} (c : choice) (r : outcome A) : outcome A :=
  match c with Failed kr => Crash (DISPATCH_SEMAPHORE_VERIFY_KR kr) | _ => r end.
#[global] Arguments kernel_call : simpl never.

Lemma kernel_call_Ok {A} c (r : outcome A) x : kernel_call c r = Ok x → r = Ok x.
Proof. by destruct c. Qed.

Lemma kernel_call_Crash {A} c (r : outcome A) x :
  kernel_call c r = Crash x → (∃ kr, c = Failed kr ∧ x = DISPATCH_SEMAPHORE_VERIFY_KR kr) ∨ r = Crash x.
Proof. destruct c; [by right..|]. intros [= <-]. left. eauto. Qed.

Record dispatch_semaphore_s (K : Type) := DSema {
  dsema_value : Z;
  dsema_orig : Z;
  dsema_sema : option K;
}.
Arguments DSema {K}.
Arguments dsema_value {K}.
Arguments dsema_orig {K}.
Arguments dsema_sema {K}.

Inductive pc :=
(* dispatch_semaphore_signal *)
| signal_inc
| signal_slow_create
| signal_slow_post
| signal_returned (r : Z)
(* dispatch_semaphore_wait *)
| wait_dec (timeout : Z)
| wait_slow_create (timeout : Z)
| timedwait (timeout : Z)
| timedwait_asleep (timeout : Z)
| undo_load
| undo_cas (orig : Z)
| sema_wait
| sema_asleep
| wait_returned (r : Z).

Section model.
Context {K : Type} `{KernelSemaphore K}.

Definition dispatch_semaphore_create (value : Z) : option (dispatch_semaphore_s K) :=
  if value <? 0 then None else Some (DSema value value None).

(** [DISPATCH_CLIENT_CRASH] when the semaphore is in use. *)
Definition _dispatch_semaphore_dispose (s : dispatch_semaphore_s K) : outcome unit :=
  if dsema_value s <? dsema_orig s then Crash CLIENT_CRASH else Ok tt.

Definition set_value (v : Z) (s : dispatch_semaphore_s K) := DSema v (dsema_orig s) (dsema_sema s).
Definition set_sema (k : K) (s : dispatch_semaphore_s K) := DSema (dsema_value s) (dsema_orig s) (Some k).

Local Abbreviation result := (outcome (option (dispatch_semaphore_s K * pc))).

(** A kernel call on a port that was never created is an error the code turns
    into a crash. *)
Definition with_sema (s : dispatch_semaphore_s K) (f : K → result) : result :=
  match dsema_sema s with Some k => f k | None => Crash CLIENT_CRASH end.

Definition goes (s : dispatch_semaphore_s K) (p : pc) : result := Ok (Some (s, p)).

(** [dispatch_semaphore_signal] *)
Definition signal_step (s : dispatch_semaphore_s K) : result :=
  let value := i64 (dsema_value s + 1) in
  let s := set_value value s in
  if value >? 0 then goes s (signal_returned 0)
  else if value =? LONG_MIN then Crash CLIENT_CRASH
  else goes s signal_slow_create.

(** [dispatch_semaphore_wait] *)
Definition wait_step (timeout : Z) (s : dispatch_semaphore_s K) : result :=
  let value := i64 (dsema_value s - 1) in
  let s := set_value value s in
  if value >=? 0 then goes s (wait_returned 0) else goes s (wait_slow_create timeout).

(** The [switch] of [_dispatch_semaphore_wait_slow]. *)
Definition wait_slow_switch (timeout : Z) : pc :=
  if timeout =? DISPATCH_TIME_NOW then undo_load
  else if timeout =? DISPATCH_TIME_FOREVER then sema_wait
  else timedwait timeout.

(** The test of [while (orig < 0)]. *)
Definition undo_loop (orig : Z) : pc := if orig <? 0 then undo_cas orig else sema_wait.

Definition undo_cas_step (c : choice) (orig : Z) (s : dispatch_semaphore_s K) : result :=
  match c with
  | Spurious => goes s (undo_loop (dsema_value s))
  | _ =>
      if dsema_value s =? orig then goes (set_value (i64 (orig + 1)) s) (wait_returned _DSEMA4_TIMEOUT)
      else goes s (undo_loop (dsema_value s))
  end.

(** [_dispatch_sema4_timedwait]: one round of its loop. *)
Definition timedwait_step (c : choice) (t : tid) (timeout : Z) (s : dispatch_semaphore_s K) : result :=
  kernel_call c $ with_sema s (λ k,
    let nb := match c with Expires => true | _ => false end in
    let '(a, k') := k_wait t nb k in
    match a with
    | Got => goes (set_sema k' s) (wait_returned 0)
    | Timed_out => goes (set_sema k' s) undo_load
    | Sleeps => goes (set_sema k' s) (timedwait_asleep timeout)
    end).

Definition timedwait_asleep_step (c : choice) (t : tid) (timeout : Z) (s : dispatch_semaphore_s K) : result :=
  kernel_call c $ with_sema s (λ k,
    match c with
    | Expires => match k_expire t k with Some k' => goes (set_sema k' s) undo_load | None => Ok None end
    | Interrupted => match k_expire t k with Some k' => goes (set_sema k' s) (timedwait timeout) | None => Ok None end
    | _ => match k_resume t k with Some k' => goes (set_sema k' s) (wait_returned 0) | None => Ok None end
    end).

(** [_dispatch_sema4_wait]: one round of its loop. *)
Definition sema_wait_step (c : choice) (t : tid) (s : dispatch_semaphore_s K) : result :=
  kernel_call c $ with_sema s (λ k,
    let '(a, k') := k_wait t false k in
    match a with
    | Got => goes (set_sema k' s) (wait_returned 0)
    | Timed_out => Crash INTERNAL_CRASH
    | Sleeps => goes (set_sema k' s) sema_asleep
    end).

Definition sema_asleep_step (c : choice) (t : tid) (s : dispatch_semaphore_s K) : result :=
  kernel_call c $ with_sema s (λ k,
    match c with
    | Interrupted => match k_expire t k with Some k' => goes (set_sema k' s) sema_wait | None => Ok None end
    | _ => match k_resume t k with Some k' => goes (set_sema k' s) (wait_returned 0) | None => Ok None end
    end).

(** [_dispatch_sema4_create], then [next].  The step is the compare-and-swap; a call
    whose [semaphore_create] or [semaphore_destroy] fails aborts even if another
    one has set the port by then. *)
Definition create_step (c : choice) (next : pc) (s : dispatch_semaphore_s K) : result :=
  kernel_call c $ goes (DSema (dsema_value s) (dsema_orig s) (_dispatch_sema4_create (dsema_sema s))) next.

(** [_dispatch_sema4_signal(&dsema->dsema_sema, 1)] *)
Definition post_step (c : choice) (s : dispatch_semaphore_s K) : result :=
  kernel_call c $ with_sema s (λ k, goes (set_sema (k_signal k) s) (signal_returned 1)).

Definition exec (c : choice) (t : tid) (s : dispatch_semaphore_s K) (p : pc) : result :=
  match p with
  | signal_inc => signal_step s
  | signal_slow_create => create_step c signal_slow_post s
  | signal_slow_post => post_step c s
  | wait_dec timeout => wait_step timeout s
  | wait_slow_create timeout => create_step c (wait_slow_switch timeout) s
  | timedwait timeout => timedwait_step c t timeout s
  | timedwait_asleep timeout => timedwait_asleep_step c t timeout s
  | undo_load => goes s (undo_loop (dsema_value s))
  | undo_cas orig => undo_cas_step c orig s
  | sema_wait => sema_wait_step c t s
  | sema_asleep => sema_asleep_step c t s
  | signal_returned _ | wait_returned _ => Ok None
  end.

Definition starts (p : pc) : bool :=
  match p with signal_inc | wait_dec _ => true | _ => false end.

Definition finished (p : pc) : bool :=
  match p with signal_returned _ | wait_returned _ => true | _ => false end.

Definition sleeping (p : pc) : bool :=
  match p with timedwait_asleep _ | sema_asleep => true | _ => false end.
End model.
End Sema.
