(* ===== verification/DispatchSemaphoreCorrect.v ===== *)
(** * Dispatch semaphores: correctness

    The counting invariant of a semaphore under every interleaving of calls:
    each wait in the slow path is matched by a unit of the negative value, by a
    signal that has still to post the kernel semaphore, or by an unconsumed
    post.  From it: never more waits succeed than there were units, and calls
    sleep only when all units are taken. *)

From S2P Require Import Prelude DispatchTime SyncMachine SyncKernel MachSema DispatchSemaphore.
Import Time Sema.

Section correct.
Context {K : Type} `{KernelSemaphoreLaws K}.

(** ** What the calls contribute *)

(** signals that have incremented the value *)
Definition w_signalled (p : pc) : Z :=
  match p with signal_slow_create | signal_slow_post | signal_returned _ => 1 | _ => 0 end.

(** waits that have returned 0 *)
Definition w_acquired (p : pc) : Z :=
  match p with wait_returned r => if r =? 0 then 1 else 0 | _ => 0 end.

(** waits in the slow path: the value is decremented for them *)
Definition w_waiting (p : pc) : Z :=
  match p with
  | wait_slow_create _ | timedwait _ | timedwait_asleep _ | undo_load | undo_cas _
  | sema_wait | sema_asleep => 1
  | _ => 0
  end.

(** signals that still have to post the kernel semaphore *)
Definition w_posting (p : pc) : Z :=
  match p with signal_slow_create | signal_slow_post => 1 | _ => 0 end.

Local Abbreviation cfg := (@config (dispatch_semaphore_s K) pc).
Implicit Types c : cfg.

Definition signalled (c : cfg) : Z := total w_signalled (calls c).
Definition acquired (c : cfg) : Z := total w_acquired (calls c).
Definition waiting (c : cfg) : Z := total w_waiting (calls c).
Definition posting (c : cfg) : Z := total w_posting (calls c).

(** Points at which the kernel semaphore is used. *)
Definition needs_sema (p : pc) : bool :=
  match p with
  | signal_slow_post | timedwait _ | timedwait_asleep _ | undo_load | undo_cas _ | sema_wait | sema_asleep => true
  | _ => false
  end.

(** [undo_cas orig] is only reached with a negative [orig]. *)
Definition pc_ok (p : pc) : Prop :=
  match p with undo_cas orig => orig < 0 | wait_returned r => r = 0 ∨ r = _DSEMA4_TIMEOUT | _ => True end.

Local Abbreviation in_progress := (in_progress finished).

Record sem_inv (orig : Z) (c : cfg) : Prop := {
  si_orig : dsema_orig (shared c) = orig;
  si_value : dsema_value (shared c) = orig + signalled c - acquired c - waiting c;
  si_waiting : waiting c = Z.max 0 (- dsema_value (shared c)) + posting c + sema_tokens (dsema_sema (shared c));
  si_max : dsema_value (shared c) < 2 ^ 63;
  si_bound : in_progress c ≤ MAX_CALLS;
  si_sema : sema_ok (dsema_sema (shared c));
  si_sleep : sleep_ok sleeping (sema_sleepers (dsema_sema (shared c))) (calls c);
  si_created : ∀ t p, calls c !! t = Some p → needs_sema p = true → dsema_sema (shared c) ≠ None;
  si_pc : ∀ t p, calls c !! t = Some p → pc_ok p;
}.

(** ** Preservation *)

Lemma w_nonneg p : 0 ≤ w_signalled p ∧ 0 ≤ w_acquired p ∧ 0 ≤ w_waiting p ∧ 0 ≤ w_posting p.
Proof. destruct p; cbn; split_and!; try case_match; lia. Qed.

Lemma waiting_in_progress c : waiting c ≤ in_progress c.
Proof. apply total_le. intros t p _. destruct p; cbn; lia. Qed.

Lemma posting_nonneg c : 0 ≤ posting c.
Proof. apply total_nonneg. intros p. apply w_nonneg. Qed.

Lemma sem_inv_start orig s m t p :
  sem_inv orig (Cfg s m) → m !! t = None → starts p = true → in_progress (Cfg s m) < MAX_CALLS →
  sem_inv orig (Cfg s (<[t := p]> m)).
Proof.
  intros [Ho Hv Hw Hx Hb Hk Hs Hc Hp] Hm Hst Hlt.
  unfold signalled, acquired, waiting, posting, SyncMachine.in_progress in *. cbn in *.
  split; unfold signalled, acquired, waiting, posting, SyncMachine.in_progress; cbn;
    rewrite ?total_new by done; try done.
  - destruct p; cbn in *; done || lia.
  - destruct p; cbn in *; done || lia.
  - destruct p; cbn in *; done || lia.
  - apply sleep_start; [done..|]. by destruct p.
  - intros t' p' [[_ <-]|[_ ?]]%lookup_insert_Some; [by destruct p|eauto].
  - intros t' p' [[_ <-]|[_ ?]]%lookup_insert_Some; [by destruct p|eauto].
Qed.

(** One step of a call: what the weights must do. *)
Lemma sem_inv_upd orig s m t p s' p' :
  sem_inv orig (Cfg s m) → m !! t = Some p →
  dsema_orig s' = orig → dsema_value s' < 2 ^ 63 →
  dsema_value s' = dsema_value s + w_signalled p' - w_signalled p
                   - (w_acquired p' - w_acquired p) - (w_waiting p' - w_waiting p) →
  w_waiting p' - w_waiting p = Z.max 0 (- dsema_value s') - Z.max 0 (- dsema_value s)
     + (w_posting p' - w_posting p) + (sema_tokens (dsema_sema s') - sema_tokens (dsema_sema s)) →
  finished p = false →
  sema_ok (dsema_sema s') → sleep_ok sleeping (sema_sleepers (dsema_sema s')) (<[t := p']> m) →
  (dsema_sema s ≠ None ∨ needs_sema p' = true → dsema_sema s' ≠ None) →
  pc_ok p' →
  sem_inv orig (Cfg s' (<[t := p']> m)).
Proof.
  intros [Ho Hv Hw Hx Hb Hk Hs Hc Hp] Hm Ho' Hx' Hv' Hw' Hf Hk' Hs' Hc' Hp'.
  unfold signalled, acquired, waiting, posting, SyncMachine.in_progress in *. cbn in *.
  split; unfold signalled, acquired, waiting, posting, SyncMachine.in_progress; cbn;
    upd_totals Hm; try done; try lia.
  - rewrite Hf. case_match; lia.
  - intros t' q [[_ <-]|[_ Hq]]%lookup_insert_Some Hn; [auto|]. apply Hc'. left. by eapply Hc.
  - intros t' q [[_ <-]|[_ Hq]]%lookup_insert_Some; eauto.
Qed.

Lemma value_bounds orig c :
  sem_inv orig c → - MAX_CALLS ≤ dsema_value (shared c) < 2 ^ 63.
Proof.
  intros Hi. pose proof (waiting_in_progress c). pose proof (posting_nonneg c).
  pose proof (sema_tokens_nonneg _ (si_sema _ _ Hi)). destruct Hi. lia.
Qed.

(** The posts a signal can add are fewer than the kernel's counter can hold. *)
Lemma tokens_bound orig s m t p k :
  sem_inv orig (Cfg s m) → m !! t = Some p → w_posting p = 1 → dsema_sema s = Some k →
  tokens k < 2 ^ 31 - 1.
Proof.
  intros Hi Hm Hp Hk. pose proof (waiting_in_progress (Cfg s m)) as Hw.
  pose proof (total_ge w_posting m t p (λ p, proj2 (proj2 (proj2 (w_nonneg p)))) Hm) as Hge.
  destruct Hi as [_ _ Hwt _ Hb _ _ _ _]. unfold posting, MAX_CALLS in *. cbn in *.
  open_sema Hk Hwt. lia.
Qed.

(** Steps that leave the shared state alone or only create the semaphore. *)
Lemma local_step orig s m t p p' :
  sem_inv orig (Cfg s m) → m !! t = Some p →
  w_signalled p' = w_signalled p → w_acquired p' = w_acquired p →
  w_waiting p' = w_waiting p → w_posting p' = w_posting p →
  finished p = false → sleeping p' = sleeping p → pc_ok p' →
  (needs_sema p' = true → dsema_sema s ≠ None) →
  sem_inv orig (Cfg s (<[t := p']> m)).
Proof.
  intros Hi Hm E1 E2 E3 E4 Hf Hs Hp Hn. pose proof Hi as [].
  eapply (sem_inv_upd _ _ _ _ _ _ _ Hi Hm); cbn in *; try done; try lia.
  - by eapply sleep_same.
  - intros [?|?]; auto.
Qed.

Lemma create_step_ok orig s m t ch p p' s' q :
  sem_inv orig (Cfg s m) → m !! t = Some p →
  w_signalled p' = w_signalled p → w_acquired p' = w_acquired p →
  w_waiting p' = w_waiting p → w_posting p' = w_posting p →
  finished p = false → sleeping p' = sleeping p → pc_ok p' →
  create_step ch p' s = Ok (Some (s', q)) →
  sem_inv orig (Cfg s' (<[t := q]> m)).
Proof.
  intros Hi Hm E1 E2 E3 E4 Hf Hs Hp Hx%kernel_call_Ok. injection Hx as <- <-. pose proof Hi as [].
  destruct (sema_create_ok (dsema_sema s)) as (Hk & Ht & Hsl); [done|].
  eapply (sem_inv_upd _ _ _ _ _ _ _ Hi Hm); cbn in *; try done; try lia.
  - rewrite Hsl. by eapply sleep_same.
  - intros _. by destruct (dsema_sema s).
Qed.

(** The end of a wait in the kernel: the thread goes on to [p'], with a token
    if it returns 0. *)
Lemma kernel_step orig s m t p p' k k' :
  sem_inv orig (Cfg s m) → m !! t = Some p → dsema_sema s = Some k →
  k_ok k' → sleep_ok sleeping (sleepers k') (<[t := p']> m) →
  w_waiting p = 1 → w_waiting p' = 1 - w_acquired p' →
  tokens k' = tokens k - w_acquired p' → w_signalled p' = 0 → w_posting p' = 0 → pc_ok p' →
  sem_inv orig (Cfg (set_sema k' s) (<[t := p']> m)).
Proof.
  intros Hi Hm Hk Hok Hsl Hw Hw' Ht Hs' Hp' Hpc. pose proof Hi as [].
  assert (w_signalled p = 0 ∧ w_acquired p = 0 ∧ w_posting p = 0 ∧ finished p = false) as (? & ? & ? & ?)
    by (destruct p; done).
  eapply (sem_inv_upd _ _ _ _ _ _ _ Hi Hm); cbn in *; rewrite ?Hk, ?sema_Some_tokens; try done; lia.
Qed.

(** A sleeper leaves the kernel. *)
Lemma leave_step orig s m t p p' k k' :
  sem_inv orig (Cfg s m) → m !! t = Some p → dsema_sema s = Some k → w_waiting p = 1 →
  (k_resume t k = Some k' ∧ p' = wait_returned 0) ∨
  (k_expire t k = Some k' ∧ sleeping p' = false ∧ w_waiting p' = 1 ∧ pc_ok p') →
  sem_inv orig (Cfg (set_sema k' s) (<[t := p']> m)).
Proof.
  intros Hi Hm Hk Hw Hcase. pose proof (si_sema _ _ Hi) as Hok. pose proof (si_sleep _ _ Hi) as Hsl.
  open_sema Hk Hok. open_sema Hk Hsl.
  destruct Hcase as [[E ->]|(E & Hs & Hw' & Hpc)].
  - destruct (k_resume_ok _ _ _ Hok E) as (Hok' & Ht & Es & _).
    eapply (kernel_step _ _ _ _ _ _ _ _ Hi Hm Hk Hok'); cbn; try done; [|by left].
    rewrite Es. by apply sleep_out.
  - destruct (k_expire_ok _ _ _ Hok E) as (Hok' & Ht & Es & _).
    assert (w_acquired p' = 0 ∧ w_signalled p' = 0 ∧ w_posting p' = 0) as (? & ? & ?) by (by destruct p').
    eapply (kernel_step _ _ _ _ _ _ _ _ Hi Hm Hk Hok'); cbn; try done; try lia.
    rewrite Es. by apply sleep_out.
Qed.

(** A thread asks the kernel semaphore. *)
Lemma ask_step orig s m t p p' k nb :
  sem_inv orig (Cfg s m) → m !! t = Some p → dsema_sema s = Some k → w_waiting p = 1 → sleeping p = false →
  match (k_wait t nb k).1 with
  | Got => p' = wait_returned 0
  | Timed_out => p' = undo_load
  | Sleeps => sleeping p' = true
  end →
  sem_inv orig (Cfg (set_sema (k_wait t nb k).2 s) (<[t := p']> m)).
Proof.
  intros Hi Hm Hk Hw Hns Hp'. pose proof (si_sema _ _ Hi) as Hok. pose proof (si_sleep _ _ Hi) as Hsl.
  open_sema Hk Hok. open_sema Hk Hsl.
  destruct (k_wait_ok t nb k Hok) as [Hok' Hans]; [by eapply sleep_not_in|].
  destruct (k_wait t nb k) as [[] k']; cbn in *; [subst p'|subst p'|].
  - destruct Hans as [Ht Es].
    eapply (kernel_step _ _ _ _ _ _ _ _ Hi Hm Hk Hok'); cbn; try done; [|by left].
    rewrite Es. by eapply sleep_same.
  - destruct Hans as (_ & Ht & Es).
    eapply (kernel_step _ _ _ _ _ _ _ _ Hi Hm Hk Hok'); cbn; try done; try lia.
    rewrite Es. by eapply sleep_same.
  - destruct Hans as (_ & Ht & Es).
    assert (w_acquired p' = 0 ∧ w_signalled p' = 0 ∧ w_posting p' = 0 ∧ w_waiting p' = 1 ∧ pc_ok p')
      as (? & ? & ? & ? & ?) by (by destruct p').
    eapply (kernel_step _ _ _ _ _ _ _ _ Hi Hm Hk Hok'); cbn; try done; try lia.
    rewrite Es. by apply sleep_in.
Qed.

Lemma undo_loop_ok orig s m t p v :
  sem_inv orig (Cfg s m) → m !! t = Some p → w_waiting p = 1 → sleeping p = false → dsema_sema s ≠ None →
  sem_inv orig (Cfg s (<[t := undo_loop v]> m)).
Proof.
  intros Hi Hm Hw Hs Hk.
  assert (w_signalled p = 0 ∧ w_acquired p = 0 ∧ w_posting p = 0 ∧ finished p = false) as (? & ? & ? & ?)
    by (destruct p; done).
  unfold undo_loop. destruct (Z.ltb_spec v 0);
    eapply (local_step _ _ _ _ _ _ Hi Hm); cbn; done || congruence.
Qed.

(** ** Every step keeps the invariant *)

Lemma signal_step_ok orig s m t s' p' :
  sem_inv orig (Cfg s m) → m !! t = Some signal_inc → signal_step s = Ok (Some (s', p')) →
  sem_inv orig (Cfg s' (<[t := p']> m)).
Proof.
  intros Hi Hm. destruct (value_bounds _ _ Hi) as [Hlo Hhi]. pose proof Hi as []. cbn in *.
  unfold signal_step, goes. set (v := i64 (dsema_value s + 1)).
  assert (v = dsema_value s + 1 ∨ v = LONG_MIN) as Hv.
  { unfold v, LONG_MIN, MAX_CALLS in *. destruct (decide (dsema_value s + 1 = 2 ^ 63)) as [E|].
    - right. rewrite E. done.
    - left. apply wraps_small; lia. }
  destruct (Z.gtb_spec v 0); [|destruct (Z.eqb_spec v LONG_MIN); [done|]]; intros [= <- <-];
    (destruct Hv as [Hv|Hv]; [|unfold LONG_MIN in *; lia]).
  - eapply (sem_inv_upd _ _ _ _ _ _ _ Hi Hm); cbn; try done; try lia; [unfold v; wrap_lia|..].
    + by eapply sleep_same.
    + intros [?|?]; done.
  - eapply (sem_inv_upd _ _ _ _ _ _ _ Hi Hm); cbn; try done; try lia.
    + by eapply sleep_same.
    + intros [?|?]; done.
Qed.

Lemma wait_step_ok orig s m t timeout s' p' :
  sem_inv orig (Cfg s m) → m !! t = Some (wait_dec timeout) → wait_step timeout s = Ok (Some (s', p')) →
  sem_inv orig (Cfg s' (<[t := p']> m)).
Proof.
  intros Hi Hm. destruct (value_bounds _ _ Hi) as [Hlo Hhi]. pose proof Hi as []. cbn in *.
  unfold wait_step, goes. rewrite wraps_small by (unfold MAX_CALLS in *; lia).
  destruct (Z.geb_spec (dsema_value s - 1) 0); intros [= <- <-];
    eapply (sem_inv_upd _ _ _ _ _ _ _ Hi Hm); cbn; try done; try lia;
    try (by eapply sleep_same); try (intros [?|?]; done).
Qed.

Lemma post_step_ok orig s m t ch s' p' :
  sem_inv orig (Cfg s m) → m !! t = Some signal_slow_post →
  post_step ch s = Ok (Some (s', p')) →
  sem_inv orig (Cfg s' (<[t := p']> m)).
Proof.
  intros Hi Hm Hx%kernel_call_Ok. unfold with_sema in Hx.
  destruct (dsema_sema s) as [k|] eqn:Ek; [|done]. injection Hx as <- <-.
  pose proof (tokens_bound _ _ _ _ _ _ Hi Hm eq_refl Ek) as Hb.
  pose proof (si_sema _ _ Hi) as Hok. pose proof (si_sleep _ _ Hi) as Hsl.
  open_sema Ek Hok. open_sema Ek Hsl.
  destruct (k_signal_ok k Hok Hb) as (Hok' & Ht & Es). pose proof Hi as [].
  eapply (sem_inv_upd _ _ _ _ _ _ _ Hi Hm); cbn in *; rewrite ?Ek, ?sema_Some_tokens; try done; try lia.
  rewrite sema_Some_sleepers, Es. by eapply sleep_same.
Qed.

Lemma undo_cas_step_ok orig s m t ch o s' p' :
  sem_inv orig (Cfg s m) → m !! t = Some (undo_cas o) → undo_cas_step ch o s = Ok (Some (s', p')) →
  sem_inv orig (Cfg s' (<[t := p']> m)).
Proof.
  intros Hi Hm Hx. pose proof (si_created _ _ Hi _ _ Hm eq_refl) as Hk.
  pose proof (si_pc _ _ Hi _ _ Hm) as Hneg. cbn in Hk, Hneg. destruct (value_bounds _ _ Hi) as [Hlo Hhi].
  assert (∀ v, sem_inv orig (Cfg s (<[t := undo_loop v]> m))) as Hloop
    by (intros v; by eapply undo_loop_ok).
  assert ((s' = s ∧ p' = undo_loop (dsema_value s)) ∨
          (dsema_value s = o ∧ s' = set_value (i64 (o + 1)) s ∧ p' = wait_returned _DSEMA4_TIMEOUT)) as Hcase.
  { unfold undo_cas_step, goes in Hx. destruct (Z.eqb_spec (dsema_value s) o), ch; naive_solver. }
  destruct Hcase as [[-> ->]|(E & -> & ->)]; [done|]. pose proof Hi as []. cbn in *.
  rewrite wraps_small by (unfold MAX_CALLS in *; lia).
  eapply (sem_inv_upd _ _ _ _ _ _ _ Hi Hm); cbn; try done; try lia; try (by eapply sleep_same); by intros [?|?].
Qed.

Lemma timedwait_step_ok orig s m t ch o s' p' :
  sem_inv orig (Cfg s m) → m !! t = Some (timedwait o) → timedwait_step ch t o s = Ok (Some (s', p')) →
  sem_inv orig (Cfg s' (<[t := p']> m)).
Proof.
  intros Hi Hm Hx%kernel_call_Ok. unfold with_sema in Hx. destruct (dsema_sema s) as [k|] eqn:Ek; [|done].
  set (nb := match ch with Expires => true | _ => false end) in Hx.
  assert (s' = set_sema (k_wait t nb k).2 s ∧ match (k_wait t nb k).1 with
    | Got => p' = wait_returned 0 | Timed_out => p' = undo_load | Sleeps => sleeping p' = true end)
    as [-> Hp'] by (destruct (k_wait t nb k) as [[] k']; unfold goes in Hx; cbn in *; by simplify_eq).
  by eapply ask_step.
Qed.

Lemma sema_wait_step_ok orig s m t ch s' p' :
  sem_inv orig (Cfg s m) → m !! t = Some sema_wait → sema_wait_step ch t s = Ok (Some (s', p')) →
  sem_inv orig (Cfg s' (<[t := p']> m)).
Proof.
  intros Hi Hm Hx%kernel_call_Ok. unfold with_sema in Hx. destruct (dsema_sema s) as [k|] eqn:Ek; [|done].
  assert (s' = set_sema (k_wait t false k).2 s ∧ match (k_wait t false k).1 with
    | Got => p' = wait_returned 0 | Timed_out => p' = undo_load | Sleeps => sleeping p' = true end)
    as [-> Hp'] by (destruct (k_wait t false k) as [[] k']; unfold goes in Hx; cbn in *; by simplify_eq).
  by eapply ask_step.
Qed.

Lemma asleep_step_ok orig s m t ch o s' p' :
  sem_inv orig (Cfg s m) →
  (m !! t = Some (timedwait_asleep o) ∧ timedwait_asleep_step ch t o s = Ok (Some (s', p'))) ∨
  (m !! t = Some sema_asleep ∧ sema_asleep_step ch t s = Ok (Some (s', p'))) →
  sem_inv orig (Cfg s' (<[t := p']> m)).
Proof.
  intros Hi Hx. unfold timedwait_asleep_step, sema_asleep_step in Hx.
  unfold kernel_call, with_sema in Hx.
  destruct (dsema_sema s) as [k|] eqn:Ek; [|destruct ch; naive_solver].
  assert (∃ k' p, m !! t = Some p ∧ w_waiting p = 1 ∧ s' = set_sema k' s ∧
    ((k_resume t k = Some k' ∧ p' = wait_returned 0) ∨
     (k_expire t k = Some k' ∧ sleeping p' = false ∧ w_waiting p' = 1 ∧ pc_ok p')))
    as (k' & p & Hm & Hw & -> & Hcase).
  { unfold goes in Hx. destruct Hx as [[Hm Hx]|[Hm Hx]]; destruct ch; repeat case_match; simplify_eq;
      eexists _, _; (split; [exact Hm|split_and!; [done|done|]]); (by left) || (by right). }
  by eapply leave_step.
Qed.

Lemma sem_inv_step orig s m t ch p s' p' :
  sem_inv orig (Cfg s m) → m !! t = Some p → exec ch t s p = Ok (Some (s', p')) →
  sem_inv orig (Cfg s' (<[t := p']> m)).
Proof.
  intros Hi Hm Hx. destruct p; cbn in Hx; try done.
  - by eapply signal_step_ok.
  - by apply (create_step_ok orig s m t ch signal_slow_create signal_slow_post).
  - by eapply post_step_ok.
  - by eapply wait_step_ok.
  - apply (create_step_ok orig s m t ch (wait_slow_create timeout) (wait_slow_switch timeout)); try done;
      unfold wait_slow_switch; by repeat case_match.
  - by eapply timedwait_step_ok.
  - eapply asleep_step_ok; eauto.
  - injection Hx as <- <-. eapply undo_loop_ok; try done. by eapply (si_created _ _ Hi).
  - by eapply undo_cas_step_ok.
  - by eapply sema_wait_step_ok.
  - eapply (asleep_step_ok _ _ _ _ _ 0); eauto.
Qed.

(** ** Reachable states *)

Local Abbreviation reachable := (reachable exec starts finished).
Local Abbreviation crashes := (crashes exec starts finished).
Local Abbreviation quiet := (quiet exec starts finished Go).

Lemma sem_reachable orig s0 c :
  dispatch_semaphore_create orig = Some s0 → orig < 2 ^ 63 → reachable s0 c → sem_inv orig c.
Proof.
  unfold dispatch_semaphore_create. destruct (Z.ltb_spec orig 0); [done|]. intros [= <-] Ho.
  apply machine_inv; [|apply sem_inv_start|intros; by eapply sem_inv_step].
  assert (∀ w : pc → Z, total w ∅ = 0) as H0' by apply total_empty.
  split; unfold signalled, acquired, waiting, posting, SyncMachine.in_progress; cbn;
    rewrite ?H0'; try done; try (change (sema_tokens None) with 0); try lia.
Qed.

(** The unit balance: what was put in is acquired, available, or on its way. *)
Lemma unit_balance orig c :
  sem_inv orig c →
  acquired c + Z.max 0 (dsema_value (shared c)) + posting c + sema_tokens (dsema_sema (shared c))
    = orig + signalled c.
Proof. intros []. lia. Qed.

(** A call that is neither finished nor asleep can go on. *)
Lemma goes_on s t p : finished p = false → sleeping p = false → exec Go t s p ≠ Ok None.
Proof.
  destruct p; cbn; try done; intros _ _;
    unfold signal_step, wait_step, undo_cas_step, create_step, post_step, timedwait_step, sema_wait_step, kernel_call, with_sema, goes;
    repeat case_match; try done; by destruct (k_wait _ _ _) as [[] ?].
Qed.

Lemma quiet_calls c t p : quiet c → calls c !! t = Some p → finished p = true ∨ sleeping p = true.
Proof.
  intros Hq Hp. specialize (Hq t). unfold blocked in Hq. cbn in Hq. rewrite Hp in Hq.
  destruct (finished p) eqn:Ef; [by left|]. destruct (sleeping p) eqn:Es; [by right|].
  pose proof (goes_on (shared c) t p Ef Es) as Hg.
  destruct (exec Go t (shared c) p) as [[[]|]|]; done.
Qed.

(** Nobody sleeps on a kernel semaphore that was posted. *)
Lemma quiet_tokens orig c :
  sem_inv orig c → quiet c → sema_sleepers (dsema_sema (shared c)) ≠ ∅ →
  sema_tokens (dsema_sema (shared c)) = 0.
Proof.
  intros Hi Hq Hne. pose proof (si_sema _ _ Hi) as Hok. pose proof (si_sleep _ _ Hi) as Hsl.
  pose proof (sema_tokens_nonneg _ Hok) as Hnn.
  destruct (dsema_sema (shared c)) as [k|] eqn:Ek; [|done].
  rewrite sema_Some_ok, sema_Some_sleepers, sema_Some_tokens in *.
  destruct (decide (tokens k = 0)) as [|Ht]; [done|].
  destruct (k_progress k Hok ltac:(lia) Hne) as (t & Hin & [k' Hr]).
  apply Hsl in Hin. destruct (calls c !! t) as [p|] eqn:Ep; [|done]. cbn in Hin.
  specialize (Hq t). unfold blocked in Hq. cbn in Hq. rewrite Ep in Hq.
  destruct p; try done; cbn in Hq; unfold timedwait_asleep_step, sema_asleep_step, kernel_call, with_sema in Hq;
    rewrite Ek, Hr in Hq; done.
Qed.

(** C5. A semaphore created with [orig] units never lets more than [orig] plus the
    number of signals through, and its value counts the units that are left or,
    when negative, missing. *)
Theorem semaphore_units orig s0 c :
  dispatch_semaphore_create orig = Some s0 → orig < 2 ^ 63 → reachable s0 c →
  acquired c ≤ orig + signalled c ∧
  dsema_value (shared c) = orig + signalled c - acquired c - waiting c.
Proof.
  intros Hc Ho Hr. pose proof (sem_reachable _ _ _ Hc Ho Hr) as Hi. pose proof (unit_balance _ _ Hi).
  pose proof (posting_nonneg c). pose proof (sema_tokens_nonneg _ (si_sema _ _ Hi)).
  split; [lia|apply Hi].
Qed.

(** C4. No wake-up is lost: when no call can go on but some wait has not returned,
    every unit has been acquired, and the value is minus the number of waits. *)
Theorem semaphore_no_lost_wakeup orig s0 c :
  dispatch_semaphore_create orig = Some s0 → orig < 2 ^ 63 → reachable s0 c →
  quiet c → 0 < waiting c →
  acquired c = orig + signalled c ∧ dsema_value (shared c) = - waiting c.
Proof.
  intros Hc Ho Hr Hq Hw. pose proof (sem_reachable _ _ _ Hc Ho Hr) as Hi.
  assert (posting c = 0) as Hp.
  { apply Z.le_antisymm; [|apply posting_nonneg]. apply Z.nlt_ge. intros (t & p & Hp & Hwp)%total_pos.
    destruct (quiet_calls _ _ _ Hq Hp); by destruct p. }
  assert (sema_sleepers (dsema_sema (shared c)) ≠ ∅) as Hne.
  { destruct (total_pos _ _ Hw) as (t & p & Hp' & Hwp). intros E.
    assert (sleeping p = true) as Hs by (destruct (quiet_calls _ _ _ Hq Hp'); by destruct p).
    assert (t ∈ sema_sleepers (dsema_sema (shared c))) as Hin; [|rewrite E in Hin; set_solver].
    apply (si_sleep _ _ Hi). by rewrite Hp'. }
  pose proof (quiet_tokens _ _ Hi Hq Hne). pose proof (unit_balance _ _ Hi). destruct Hi. lia.
Qed.

(** The points of a call before a kernel call. *)
Definition calls_kernel (p : pc) : bool :=
  match p with
  | signal_slow_create | signal_slow_post | wait_slow_create _ | timedwait _ | timedwait_asleep _ | sema_wait | sema_asleep =>
      true
  | _ => false
  end.

(** The calls never crash unless the kernel reports an error or a signal would take
    the value past the largest [long]. *)
Theorem semaphore_no_crash orig s0 c e r :
  dispatch_semaphore_create orig = Some s0 → orig < 2 ^ 63 → reachable s0 c →
  dsema_value (shared c) < 2 ^ 63 - 1 → do_event exec starts finished e c = Crash r →
  ∃ t kr p, e = Run t (Failed kr) ∧ calls c !! t = Some p ∧ calls_kernel p = true ∧ r = DISPATCH_SEMAPHORE_VERIFY_KR kr.
Proof.
  intros Hc Ho Hr Hmax He. pose proof (sem_reachable _ _ _ Hc Ho Hr) as Hi.
  pose proof (value_bounds _ _ Hi) as [Hlo _]. unfold MAX_CALLS in Hlo.
  destruct e as [t p|t ch]; cbn in He; [by repeat case_match|].
  destruct (calls c !! t) as [p|] eqn:Ep; [|done].
  pose proof (si_created _ _ Hi _ _ Ep) as Hk.
  destruct (exec ch t (shared c) p) as [[[]|]|] eqn:Ex; simplify_eq.
  assert ((∃ kr, ch = Failed kr ∧ calls_kernel p = true ∧ r = DISPATCH_SEMAPHORE_VERIFY_KR kr) ∨ False)
    as [(kr & -> & ?)|[]]; [|by exists t, kr, p].
  destruct p; cbn in Ex, Hk; unfold signal_step, wait_step, undo_cas_step, create_step, post_step, timedwait_step,
    timedwait_asleep_step, sema_wait_step, sema_asleep_step in Ex;
    try (apply kernel_call_Crash in Ex as [(kr & -> & ->)|Ex]; [left; by exists kr|]); right; unfold with_sema, goes in Ex;
    try (destruct (dsema_sema (shared c)) as [k|] eqn:Ek; [clear Hk|by destruct (Hk eq_refl)]);
    try by repeat case_match.
  - rewrite wraps_small in Ex by lia. unfold LONG_MIN in Ex. repeat case_match; try done; lia.
  - pose proof (si_sema _ _ Hi) as Hok. rewrite Ek, sema_Some_ok in Hok.
    pose proof (si_sleep _ _ Hi) as Hsl. rewrite Ek, sema_Some_sleepers in Hsl.
    destruct (k_wait_ok t false k Hok) as [_ Ha]; [by eapply sleep_not_in|].
    destruct (k_wait t false k) as [[] ?]; cbn in *; naive_solver.
Qed.
End correct.

(** ** Dispatch semaphores: runs on the kernel's semaphores

    Concrete schedules on [MachSemaphore]: the hypotheses of the theorems of
    DispatchSemaphoreCorrect.v hold of them, and a run in which a wait that
    must not block sleeps. *)

Definition dsema (v : Z) : dispatch_semaphore_s semaphore := DSema v v None.

Local Abbreviation after := (after exec starts finished).
Local Abbreviation scfg := (@config (dispatch_semaphore_s semaphore) pc).

(** Two units, a wait on the fast path, a wait that sleeps after them and a
    signal that wakes it. *)
Definition handover : list event :=
  [Start 1 (wait_dec DISPATCH_TIME_FOREVER); Start 2 (wait_dec DISPATCH_TIME_FOREVER); Run 1 Go; Run 2 Go;
   Start 3 (wait_dec DISPATCH_TIME_FOREVER); Run 3 Go; Run 3 Go; Run 3 Go;
   Start 4 signal_inc; Run 4 Go; Run 4 Go; Run 4 Go; Run 3 Go].

Definition handed_over : scfg := after handover (dsema 2).

Lemma handed_over_reachable : reachable exec starts finished (dsema 2) handed_over.
Proof. apply (run_reachable _ _ _ handover). vm_compute. reflexivity. Qed.

Lemma semaphore_units_witness :
  acquired handed_over ≤ 2 + signalled handed_over ∧
  dsema_value (shared handed_over) = 2 + signalled handed_over - acquired handed_over - waiting handed_over.
Proof. apply (semaphore_units 2 (dsema 2)); [reflexivity|lia|apply handed_over_reachable]. Defined.

(** A waiter whose semaphore cannot be created. *)
Definition at_create : scfg := after (take 6 handover) (dsema 2).

Lemma semaphore_no_crash_witness :
  ∃ t kr p, (Run 3 (Failed KERN_FAILED) : event (P := pc)) = Run t (Failed kr) ∧ calls at_create !! t = Some p ∧
    calls_kernel p = true ∧ INTERNAL_CRASH = DISPATCH_SEMAPHORE_VERIFY_KR kr.
Proof.
  apply (semaphore_no_crash 2 (dsema 2) at_create (Run 3 (Failed KERN_FAILED)) INTERNAL_CRASH);
    [reflexivity|lia|apply (run_reachable _ _ _ (take 6 handover))|..]; vm_compute; reflexivity.
Defined.

(** The same run without the signal stops with the third call asleep. *)
Definition stopped : scfg := after (take 8 handover) (dsema 2).

Lemma stopped_reachable : reachable exec starts finished (dsema 2) stopped.
Proof. apply (run_reachable _ _ _ (take 8 handover)). vm_compute. reflexivity. Qed.

Lemma semaphore_no_lost_wakeup_witness :
  acquired stopped = 2 + signalled stopped ∧ dsema_value (shared stopped) = - waiting stopped.
Proof.
  apply (semaphore_no_lost_wakeup 2 (dsema 2)); [reflexivity|lia|apply stopped_reachable| |].
  - apply quietb_quiet. vm_compute. reflexivity.
  - vm_compute. reflexivity.
Defined.

(** ** A wait with DISPATCH_TIME_NOW that sleeps *)

(** Call 1 must not block; the signal of call 2 increments the value before
    call 1 can undo its decrement, call 3 waits as well and is the first in the
    kernel's queue: it takes the post that call 1 meant to drain. *)
Definition stolen : list event :=
  [Start 1 (wait_dec DISPATCH_TIME_NOW); Run 1 Go; Run 1 Go;
   Start 2 signal_inc; Run 2 Go;
   Run 1 Go;
   Start 3 (wait_dec DISPATCH_TIME_FOREVER); Run 3 Go; Run 3 Go; Run 3 Go;
   Run 2 Go; Run 2 Go; Run 3 Go;
   Run 1 Go].

Definition sleeps_on : scfg := after stolen (dsema 0).

(** A reachable state in which the call that was started with
    [DISPATCH_TIME_NOW] is asleep in the kernel, the other two calls have
    returned and nothing can go on. *)
Theorem wait_now_can_sleep :
  reachable exec starts finished (dsema 0) sleeps_on ∧
  stolen !! 0%nat = Some (Start 1 (wait_dec DISPATCH_TIME_NOW)) ∧
  calls sleeps_on !! 1%positive = Some sema_asleep ∧
  calls sleeps_on !! 2%positive = Some (signal_returned 1) ∧
  calls sleeps_on !! 3%positive = Some (wait_returned 0) ∧
  quiet exec starts finished Go sleeps_on.
Proof.
  split_and!; try reflexivity.
  - apply (run_reachable _ _ _ stolen). vm_compute. reflexivity.
  - apply quietb_quiet. vm_compute. reflexivity.
Qed.
