(* ===== verification/DispatchGroup.v ===== *)
(** * Dispatch groups: definitions

    Model of the second half of src/libdispatch-913.60.2/src/semaphore.c
    ([dispatch_group_*]) with the queue operations of inline_internal.h it
    uses.  The shared state is the group: its value, its waiters, its kernel
    semaphore, the list of continuations to notify (head, tail and the
    [do_next] fields), its reference count; and what the group does to the
    outside, the continuations submitted and the references on queues.  The
    continuation of a [dispatch_group_notify] call is named by the call.  A call
    is at one of the points [pc], each before an atomic access or a kernel
    call; [_dispatch_group_wake] has its own points with the place to return
    to. *)

From S2P Require Import Prelude DispatchTime SyncMachine SyncKernel DispatchSemaphore.

Module Group.
Import Time.

Abbreviation queue := positive.
Abbreviation choice := Sema.choice.

Record dispatch_group_s (K : Type) := DG {
  dg_value : Z;
  dg_waiters : Z;
  dg_sema : option K;
  dg_notify_head : option tid;
  dg_notify_tail : option tid;
  do_next : gmap tid tid;                 (* no entry: NULL *)
  dc_data : gmap tid queue;
  do_ref_cnt : Z;
  submitted : list (queue * tid);         (* _dispatch_continuation_async *)
  queue_refs : gmap queue Z;              (* _dispatch_retain, _dispatch_release *)
}.
Arguments DG {K}.
Arguments dg_value {K}.
Arguments dg_waiters {K}.
Arguments dg_sema {K}.
Arguments dg_notify_head {K}.
Arguments dg_notify_tail {K}.
Arguments do_next {K}.
Arguments dc_data {K}.
Arguments do_ref_cnt {K}.
Arguments submitted {K}.
Arguments queue_refs {K}.

(** Who called [_dispatch_group_wake]: [dispatch_group_leave] (the only one with
    [needs_release]), the two places of [_dispatch_group_wait_slow], or
    [_dispatch_group_notify]. *)
Inductive caller := By_leave | By_wait | By_wait_drain | By_notify.

Definition needs_release (k : caller) : bool := match k with By_leave => true | _ => false end.

Inductive pc :=
(* dispatch_group_enter *)
| enter_inc
| enter_retain
| enter_returned
(* dispatch_group_leave *)
| leave_dec
| leave_returned (emptied : bool)
(* dispatch_group_wait *)
| wait_check (timeout : Z)
| wait_slow_check (timeout : Z)
| wait_register (timeout : Z)
| wait_recheck (timeout : Z)
| wait_create (timeout : Z)
| timedwait (timeout : Z)
| timedwait_asleep (timeout : Z)
| undo_load
| undo_cas (orig_waiters : Z)
| sema_wait
| sema_asleep
| wait_returned (r : Z)
(* _dispatch_group_notify *)
| notify_init (dq : queue)
| notify_xchg
| notify_link (prev : tid)
| notify_retain
| notify_head
| notify_check
| notify_returned
(* _dispatch_group_wake *)
| wake_head (k : caller)
| wake_tail (k : caller) (head : tid)
| wake_waiters (k : caller) (seg : option (tid * option tid))
| wake_create (k : caller) (seg : option (tid * option tid)) (rval : Z)
| wake_signal (k : caller) (seg : option (tid * option tid)) (count : Z)
| wake_pop (k : caller) (head : tid) (tail : option tid)
| wake_async (k : caller) (head : tid) (next : option tid) (tail : option tid)
| wake_release (k : caller) (refs : Z).

Section model.
Context {K : Type} `{KernelSemaphore K}.

Local Abbreviation group := (dispatch_group_s K).
Local Abbreviation result := (outcome (option (group * pc))).

Definition _dispatch_group_create_with_count (count : Z) : group :=
  DG count 0 None None None ∅ ∅ (if count =? 0 then 0 else 1) [] ∅.
Definition dispatch_group_create : group := _dispatch_group_create_with_count 0.
Definition _dispatch_group_create_and_enter : group := _dispatch_group_create_with_count 1.

Definition _dispatch_group_dispose (s : group) : outcome unit :=
  if dg_value s =? 0 then Ok tt else Crash CLIENT_CRASH.

Definition set_value (v : Z) (s : group) : group :=
  DG v (dg_waiters s) (dg_sema s) (dg_notify_head s) (dg_notify_tail s) (do_next s) (dc_data s)
    (do_ref_cnt s) (submitted s) (queue_refs s).
Definition set_waiters (v : Z) (s : group) : group :=
  DG (dg_value s) v (dg_sema s) (dg_notify_head s) (dg_notify_tail s) (do_next s) (dc_data s)
    (do_ref_cnt s) (submitted s) (queue_refs s).
Definition set_sema (k : option K) (s : group) : group :=
  DG (dg_value s) (dg_waiters s) k (dg_notify_head s) (dg_notify_tail s) (do_next s) (dc_data s)
    (do_ref_cnt s) (submitted s) (queue_refs s).
Definition set_head (h : option tid) (s : group) : group :=
  DG (dg_value s) (dg_waiters s) (dg_sema s) h (dg_notify_tail s) (do_next s) (dc_data s)
    (do_ref_cnt s) (submitted s) (queue_refs s).
Definition set_tail (h : option tid) (s : group) : group :=
  DG (dg_value s) (dg_waiters s) (dg_sema s) (dg_notify_head s) h (do_next s) (dc_data s)
    (do_ref_cnt s) (submitted s) (queue_refs s).
Definition set_next (a b : tid) (s : group) : group :=
  DG (dg_value s) (dg_waiters s) (dg_sema s) (dg_notify_head s) (dg_notify_tail s)
    (<[a := b]> (do_next s)) (dc_data s) (do_ref_cnt s) (submitted s) (queue_refs s).
Definition add_refs (n : Z) (s : group) : group :=
  DG (dg_value s) (dg_waiters s) (dg_sema s) (dg_notify_head s) (dg_notify_tail s) (do_next s) (dc_data s)
    (do_ref_cnt s + n) (submitted s) (queue_refs s).
Definition add_queue_ref (dq : queue) (n : Z) (m : gmap queue Z) : gmap queue Z :=
  <[dq := default 0 (m !! dq) + n]> m.

Definition goes (s : group) (p : pc) : result := Ok (Some (s, p)).
Definition with_sema (s : group) (f : K → result) : result :=
  match dg_sema s with Some k => f k | None => Crash CLIENT_CRASH end.

(** [_dispatch_sema4_create], then [next]; see DispatchSemaphore.v. *)
Definition sema_create_step (c : choice) (next : pc) (s : group) : result :=
  Sema.kernel_call c $ goes (set_sema (_dispatch_sema4_create (dg_sema s)) s) next.

(** ** dispatch_group_enter, dispatch_group_leave *)

Definition enter_step (s : group) : result :=
  let value := dg_value s in
  let s := set_value (i64 (value + 1)) s in
  if u64 value >=? INT64_MAX then Crash CLIENT_CRASH
  else if value =? 0 then goes s enter_retain else goes s enter_returned.

Definition leave_step (s : group) : result :=
  let value := i64 (dg_value s - 1) in
  let s := set_value value s in
  if value =? 0 then goes s (wake_head By_leave)
  else if value <? 0 then Crash CLIENT_CRASH
  else goes s (leave_returned false).

(** ** _dispatch_group_wake *)

(** What the callers do when it returns. *)
Definition after_wake (k : caller) : pc :=
  match k with
  | By_leave => leave_returned true
  | By_wait => wait_returned 0
  | By_wait_drain => wait_create DISPATCH_TIME_FOREVER
  | By_notify => notify_returned
  end.

(** [if (refs) _dispatch_release_n(dg, refs)] *)
Definition wake_refs (k : caller) (notified : bool) : pc :=
  let refs := (if needs_release k then 1 else 0) + (if notified then 1 else 0) in
  if refs =? 0 then after_wake k else wake_release k refs.

(** The notification loop, or the end. *)
Definition wake_notify (k : caller) (seg : option (tid * option tid)) : pc :=
  match seg with Some (head, tail) => wake_pop k head tail | None => wake_refs k false end.

Definition wake_head_step (k : caller) (s : group) : result :=
  goes (set_head None s)
    (match dg_notify_head s with Some h => wake_tail k h | None => wake_waiters k None end).

Definition wake_tail_step (k : caller) (h : tid) (s : group) : result :=
  goes (set_tail None s) (wake_waiters k (Some (h, dg_notify_tail s))).

Definition wake_waiters_step (k : caller) (seg : option (tid * option tid)) (s : group) : result :=
  let rval := dg_waiters s in
  goes (set_waiters 0 s) (if rval =? 0 then wake_notify k seg else wake_create k seg rval).

(** One round of the loop of [_dispatch_sema4_signal]. *)
Definition wake_signal_step (c : choice) (k : caller) (seg : option (tid * option tid)) (count : Z) (s : group) : result :=
  Sema.kernel_call c $ with_sema s (λ sm,
    let count := count - 1 in
    goes (set_sema (Some (k_signal sm)) s) (if count =? 0 then wake_notify k seg else wake_signal k seg count)).

(** [os_mpsc_pop_snapshot_head]: it spins until the next field is set. *)
Definition wake_pop_step (k : caller) (head : tid) (tail : option tid) (s : group) : result :=
  if bool_decide (Some head = tail) then goes s (wake_async k head None tail)
  else match do_next s !! head with
       | Some n => goes s (wake_async k head (Some n) tail)
       | None => Ok None
       end.

Definition wake_async_step (k : caller) (head : tid) (next tail : option tid) (s : group) : result :=
  match dc_data s !! head with
  | None => Crash NULL_DEREFERENCE
  | Some dq =>
      goes (DG (dg_value s) (dg_waiters s) (dg_sema s) (dg_notify_head s) (dg_notify_tail s) (do_next s)
              (dc_data s) (do_ref_cnt s) (submitted s ++ [(dq, head)]) (add_queue_ref dq (-1) (queue_refs s)))
        (match next with Some n => wake_pop k n tail | None => wake_refs k true end)
  end.

(** ** dispatch_group_wait *)

Definition wait_check_step (timeout : Z) (s : group) : result :=
  if dg_value s =? 0 then goes s (wait_returned 0)
  else if timeout =? 0 then goes s (wait_returned Sema._DSEMA4_TIMEOUT)
  else goes s (wait_slow_check timeout).

Definition wait_slow_check_step (timeout : Z) (s : group) : result :=
  goes s (if dg_value s =? 0 then wake_head By_wait else wait_register timeout).

Definition wait_register_step (timeout : Z) (s : group) : result :=
  goes (set_waiters (i32 (dg_waiters s + 1)) s) (wait_recheck timeout).

Definition wait_recheck_step (timeout : Z) (s : group) : result :=
  goes s (if dg_value s =? 0 then wake_head By_wait_drain else wait_create timeout).

Definition wait_switch (timeout : Z) : pc :=
  if timeout =? DISPATCH_TIME_NOW then undo_load
  else if timeout =? DISPATCH_TIME_FOREVER then sema_wait
  else timedwait timeout.

Definition undo_loop (orig_waiters : Z) : pc :=
  if orig_waiters =? 0 then sema_wait else undo_cas orig_waiters.

Definition undo_cas_step (c : choice) (orig_waiters : Z) (s : group) : result :=
  match c with
  | Sema.Spurious => goes s (undo_loop (dg_waiters s))
  | _ =>
      if dg_waiters s =? orig_waiters
      then goes (set_waiters (i32 (orig_waiters - 1)) s) (wait_returned Sema._DSEMA4_TIMEOUT)
      else goes s (undo_loop (dg_waiters s))
  end.

Definition timedwait_step (c : choice) (t : tid) (timeout : Z) (s : group) : result :=
  Sema.kernel_call c $ with_sema s (λ k,
    let nb := match c with Sema.Expires => true | _ => false end in
    let '(a, k') := k_wait t nb k in
    match a with
    | Got => goes (set_sema (Some k') s) (wait_returned 0)
    | Timed_out => goes (set_sema (Some k') s) undo_load
    | Sleeps => goes (set_sema (Some k') s) (timedwait_asleep timeout)
    end).

Definition timedwait_asleep_step (c : choice) (t : tid) (timeout : Z) (s : group) : result :=
  Sema.kernel_call c $ with_sema s (λ k,
    match c with
    | Sema.Expires =>
        match k_expire t k with Some k' => goes (set_sema (Some k') s) undo_load | None => Ok None end
    | Sema.Interrupted =>
        match k_expire t k with Some k' => goes (set_sema (Some k') s) (timedwait timeout) | None => Ok None end
    | _ =>
        match k_resume t k with Some k' => goes (set_sema (Some k') s) (wait_returned 0) | None => Ok None end
    end).

Definition sema_wait_step (c : choice) (t : tid) (s : group) : result :=
  Sema.kernel_call c $ with_sema s (λ k,
    let '(a, k') := k_wait t false k in
    match a with
    | Got => goes (set_sema (Some k') s) (wait_returned 0)
    | Timed_out => Crash INTERNAL_CRASH
    | Sleeps => goes (set_sema (Some k') s) sema_asleep
    end).

Definition sema_asleep_step (c : choice) (t : tid) (s : group) : result :=
  Sema.kernel_call c $ with_sema s (λ k,
    match c with
    | Sema.Interrupted =>
        match k_expire t k with Some k' => goes (set_sema (Some k') s) sema_wait | None => Ok None end
    | _ =>
        match k_resume t k with Some k' => goes (set_sema (Some k') s) (wait_returned 0) | None => Ok None end
    end).

(** ** _dispatch_group_notify *)

(** [dsn->dc_data = dq; dsn->do_next = NULL; _dispatch_retain(dq)] *)
Definition notify_init_step (dsn : tid) (dq : queue) (s : group) : result :=
  goes (DG (dg_value s) (dg_waiters s) (dg_sema s) (dg_notify_head s) (dg_notify_tail s)
          (delete dsn (do_next s)) (<[dsn := dq]> (dc_data s)) (do_ref_cnt s) (submitted s)
          (add_queue_ref dq 1 (queue_refs s)))
    notify_xchg.

(** [os_mpsc_push_update_tail] *)
Definition notify_xchg_step (dsn : tid) (s : group) : result :=
  goes (set_tail (Some dsn) s)
    (match dg_notify_tail s with Some prev => notify_link prev | None => notify_retain end).

Definition notify_check_step (s : group) : result :=
  goes s (if dg_value s =? 0 then wake_head By_notify else notify_returned).

Definition exec (c : choice) (t : tid) (s : group) (p : pc) : result :=
  match p with
  | enter_inc => enter_step s
  | enter_retain => goes (add_refs 1 s) enter_returned
  | leave_dec => leave_step s
  | wait_check timeout => wait_check_step timeout s
  | wait_slow_check timeout => wait_slow_check_step timeout s
  | wait_register timeout => wait_register_step timeout s
  | wait_recheck timeout => wait_recheck_step timeout s
  | wait_create timeout => sema_create_step c (wait_switch timeout) s
  | timedwait timeout => timedwait_step c t timeout s
  | timedwait_asleep timeout => timedwait_asleep_step c t timeout s
  | undo_load => goes s (undo_loop (dg_waiters s))
  | undo_cas orig => undo_cas_step c orig s
  | sema_wait => sema_wait_step c t s
  | sema_asleep => sema_asleep_step c t s
  | notify_init dq => notify_init_step t dq s
  | notify_xchg => notify_xchg_step t s
  | notify_link prev => goes (set_next prev t s) notify_returned
  | notify_retain => goes (add_refs 1 s) notify_head
  | notify_head => goes (set_head (Some t) s) notify_check
  | notify_check => notify_check_step s
  | wake_head k => wake_head_step k s
  | wake_tail k h => wake_tail_step k h s
  | wake_waiters k seg => wake_waiters_step k seg s
  | wake_create k seg rval => sema_create_step c (wake_signal k seg rval) s
  | wake_signal k seg count => wake_signal_step c k seg count s
  | wake_pop k head tail => wake_pop_step k head tail s
  | wake_async k head next tail => wake_async_step k head next tail s
  | wake_release k refs => goes (add_refs (- refs) s) (after_wake k)
  | enter_returned | leave_returned _ | wait_returned _ | notify_returned => Ok None
  end.

Definition starts (p : pc) : bool :=
  match p with enter_inc | leave_dec | wait_check _ | notify_init _ => true | _ => false end.

Definition finished (p : pc) : bool :=
  match p with enter_returned | leave_returned _ | wait_returned _ | notify_returned => true | _ => false end.

Definition sleeping (p : pc) : bool :=
  match p with timedwait_asleep _ | sema_asleep => true | _ => false end.
End model.
End Group.
