(* ===== verification/DispatchGroupCount.v ===== *)
(** * Dispatch groups: waiters and wake-ups

    The counting invariant: every registered wait is counted in [dg_waiters], or
    a call of [_dispatch_group_wake] is about to signal for it, or the kernel
    semaphore has a post for it.  And the invariant behind the checks of the
    value: when the group is empty and somebody waits (or a notification is
    queued), some call is going to look. *)

From S2P Require Import Prelude DispatchTime SyncMachine SyncKernel DispatchSemaphore DispatchGroup.
Import Time Group.

(** ** Dispatch groups: the steps as a relation

    [gstep] lists what one step of one call can do, with the machine arithmetic
    resolved: it is implied by [exec] when the value and the number of waiters
    are in range.  The invariants of the following files are proved by cases on
    it. *)

Section steps.
Context {K : Type} `{KernelSemaphore K}.
Local Abbreviation group := (dispatch_group_s K).
Implicit Types s : group.

(** A wait that has registered and has not left. *)
Definition in_wait (p : pc) : bool :=
  match p with
  | wait_create _ | timedwait _ | timedwait_asleep _ | undo_load | undo_cas _ | sema_wait | sema_asleep => true
  | _ => false
  end.

Definition pc_ok (p : pc) : Prop :=
  match p with
  | undo_cas o => o ≠ 0
  | wake_create _ _ n | wake_signal _ _ n => 0 < n
  | wait_returned r => r = 0 ∨ r = Sema._DSEMA4_TIMEOUT
  | _ => True
  end.

Inductive gstep (t : tid) (s : group) : pc → group → pc → Prop :=
| G_enter_first : dg_value s = 0 → gstep t s enter_inc (set_value 1 s) enter_retain
| G_enter : 0 < dg_value s < 2 ^ 63 - 1 → gstep t s enter_inc (set_value (dg_value s + 1) s) enter_returned
| G_enter_retain : gstep t s enter_retain (add_refs 1 s) enter_returned
| G_leave_last : dg_value s = 1 → gstep t s leave_dec (set_value 0 s) (wake_head By_leave)
| G_leave : 1 < dg_value s → gstep t s leave_dec (set_value (dg_value s - 1) s) (leave_returned false)
| G_wait_empty o : dg_value s = 0 → gstep t s (wait_check o) s (wait_returned 0)
| G_wait_now o : dg_value s ≠ 0 → gstep t s (wait_check o) s (wait_returned Sema._DSEMA4_TIMEOUT)
| G_wait_slow o : dg_value s ≠ 0 → gstep t s (wait_check o) s (wait_slow_check o)
| G_slow_empty o : dg_value s = 0 → gstep t s (wait_slow_check o) s (wake_head By_wait)
| G_slow o : dg_value s ≠ 0 → gstep t s (wait_slow_check o) s (wait_register o)
| G_register o : gstep t s (wait_register o) (set_waiters (dg_waiters s + 1) s) (wait_recheck o)
| G_recheck_empty o : dg_value s = 0 → gstep t s (wait_recheck o) s (wake_head By_wait_drain)
| G_recheck o : dg_value s ≠ 0 → gstep t s (wait_recheck o) s (wait_create o)
| G_create o p' : in_wait p' = true → sleeping p' = false → pc_ok p' →
    gstep t s (wait_create o) (set_sema (_dispatch_sema4_create (dg_sema s)) s) p'
| G_ask p p' k nb :
    in_wait p = true → sleeping p = false → dg_sema s = Some k →
    match (k_wait t nb k).1 with
    | Got => p' = wait_returned 0
    | Timed_out => p' = undo_load
    | Sleeps => sleeping p' = true
    end →
    gstep t s p (set_sema (Some (k_wait t nb k).2) s) p'
| G_resume p k k' : sleeping p = true → dg_sema s = Some k → k_resume t k = Some k' →
    gstep t s p (set_sema (Some k') s) (wait_returned 0)
| G_expire p p' k k' : sleeping p = true → dg_sema s = Some k → k_expire t k = Some k' →
    in_wait p' = true → sleeping p' = false → pc_ok p' →
    gstep t s p (set_sema (Some k') s) p'
| G_undo p p' : in_wait p = true → sleeping p = false → in_wait p' = true → sleeping p' = false → pc_ok p' →
    (∀ o, p ≠ wait_create o) →
    gstep t s p s p'
| G_undone : 0 < dg_waiters s →
    gstep t s (undo_cas (dg_waiters s)) (set_waiters (dg_waiters s - 1) s) (wait_returned Sema._DSEMA4_TIMEOUT)
| G_notify_init dq :
    gstep t s (notify_init dq)
      (DG (dg_value s) (dg_waiters s) (dg_sema s) (dg_notify_head s) (dg_notify_tail s)
         (delete t (do_next s)) (<[t := dq]> (dc_data s)) (do_ref_cnt s) (submitted s)
         (add_queue_ref dq 1 (queue_refs s))) notify_xchg
| G_push_first : dg_notify_tail s = None → gstep t s notify_xchg (set_tail (Some t) s) notify_retain
| G_push prev : dg_notify_tail s = Some prev → gstep t s notify_xchg (set_tail (Some t) s) (notify_link prev)
| G_link prev : gstep t s (notify_link prev) (set_next prev t s) notify_returned
| G_notify_retain : gstep t s notify_retain (add_refs 1 s) notify_head
| G_notify_head : gstep t s notify_head (set_head (Some t) s) notify_check
| G_check_empty : dg_value s = 0 → gstep t s notify_check s (wake_head By_notify)
| G_check : dg_value s ≠ 0 → gstep t s notify_check s notify_returned
| G_wake_head k h : dg_notify_head s = Some h → gstep t s (wake_head k) (set_head None s) (wake_tail k h)
| G_wake_no_head k : dg_notify_head s = None → gstep t s (wake_head k) (set_head None s) (wake_waiters k None)
| G_wake_tail k h : gstep t s (wake_tail k h) (set_tail None s) (wake_waiters k (Some (h, dg_notify_tail s)))
| G_wake_waiters k seg : 0 < dg_waiters s →
    gstep t s (wake_waiters k seg) (set_waiters 0 s) (wake_create k seg (dg_waiters s))
| G_wake_no_waiters k seg : dg_waiters s = 0 →
    gstep t s (wake_waiters k seg) (set_waiters 0 s) (wake_notify k seg)
| G_wake_create k seg n :
    gstep t s (wake_create k seg n) (set_sema (_dispatch_sema4_create (dg_sema s)) s) (wake_signal k seg n)
| G_wake_signal k seg n sm : dg_sema s = Some sm → 1 < n →
    gstep t s (wake_signal k seg n) (set_sema (Some (k_signal sm)) s) (wake_signal k seg (n - 1))
| G_wake_signalled k seg sm : dg_sema s = Some sm →
    gstep t s (wake_signal k seg 1) (set_sema (Some (k_signal sm)) s) (wake_notify k seg)
| G_pop_last k h : gstep t s (wake_pop k h (Some h)) s (wake_async k h None (Some h))
| G_pop k h tl n : tl ≠ Some h → do_next s !! h = Some n →
    gstep t s (wake_pop k h tl) s (wake_async k h (Some n) tl)
| G_async k h nx tl dq : dc_data s !! h = Some dq →
    gstep t s (wake_async k h nx tl)
      (DG (dg_value s) (dg_waiters s) (dg_sema s) (dg_notify_head s) (dg_notify_tail s) (do_next s)
         (dc_data s) (do_ref_cnt s) (submitted s ++ [(dq, h)]) (add_queue_ref dq (-1) (queue_refs s)))
      (match nx with Some n => wake_pop k n tl | None => wake_refs k true end)
| G_release k n : gstep t s (wake_release k n) (add_refs (- n) s) (after_wake k).

Lemma wait_switch_ok o : in_wait (wait_switch o) = true ∧ sleeping (wait_switch o) = false ∧ pc_ok (wait_switch o).
Proof. unfold wait_switch. by repeat case_match. Qed.

Lemma group_undo_ok n : in_wait (undo_loop n) = true ∧ sleeping (undo_loop n) = false ∧ pc_ok (undo_loop n).
Proof. unfold undo_loop. destruct (Z.eqb_spec n 0); done. Qed.

(** The kernel steps of a wait. *)
Lemma exec_kernel c t s p s' p' :
  match p with timedwait _ | timedwait_asleep _ | sema_wait | sema_asleep => True | _ => False end →
  exec c t s p = Ok (Some (s', p')) → gstep t s p s' p'.
Proof.
  intros Hp Hx.
  destruct p; try done; clear Hp; cbn in Hx;
    unfold timedwait_step, timedwait_asleep_step, sema_wait_step, sema_asleep_step in Hx;
    apply Sema.kernel_call_Ok in Hx; unfold with_sema, goes in Hx;
    destruct (dg_sema s) as [k|] eqn:Ek; try done.
  - set (nb := match c with Sema.Expires => true | _ => false end) in Hx.
    assert (s' = set_sema (Some (k_wait t nb k).2) s ∧ match (k_wait t nb k).1 with
      | Got => p' = wait_returned 0 | Timed_out => p' = undo_load | Sleeps => sleeping p' = true end)
      as [-> Ha] by (destruct (k_wait t nb k) as [[] k']; cbn in *; by simplify_eq).
    by eapply G_ask.
  - destruct c; repeat case_match; simplify_eq; (by eapply G_resume) || (by eapply G_expire).
  - assert (s' = set_sema (Some (k_wait t false k).2) s ∧ match (k_wait t false k).1 with
      | Got => p' = wait_returned 0 | Timed_out => p' = undo_load | Sleeps => sleeping p' = true end)
      as [-> Ha] by (destruct (k_wait t false k) as [[] k']; cbn in *; by simplify_eq).
    by eapply G_ask.
  - destruct c; repeat case_match; simplify_eq; (by eapply G_resume) || (by eapply G_expire).
Qed.

Lemma exec_undo c t s o s' p' :
  0 ≤ dg_waiters s < 2 ^ 31 - 1 → o ≠ 0 →
  undo_cas_step c o s = Ok (Some (s', p')) → gstep t s (undo_cas o) s' p'.
Proof.
  intros Hw Ho Hx. destruct (group_undo_ok (dg_waiters s)) as (E1 & E2 & E3).
  assert ((s' = s ∧ p' = undo_loop (dg_waiters s)) ∨
          (dg_waiters s = o ∧ s' = set_waiters (i32 (o - 1)) s ∧ p' = wait_returned Sema._DSEMA4_TIMEOUT))
    as [[-> ->]|(<- & -> & ->)].
  { unfold undo_cas_step, goes in Hx. destruct (Z.eqb_spec (dg_waiters s) o), c; naive_solver. }
  - by apply G_undo.
  - rewrite wraps_small by lia. apply G_undone. lia.
Qed.

Lemma exec_gstep c t s p s' p' :
  0 ≤ dg_value s < 2 ^ 63 → 0 ≤ dg_waiters s < 2 ^ 31 - 1 → pc_ok p →
  exec c t s p = Ok (Some (s', p')) → gstep t s p s' p'.
Proof.
  intros Hv Hw Hp Hx.
  destruct p; try (by apply (exec_kernel c)); cbn in Hx, Hp; try done;
    unfold enter_step, leave_step, wait_check_step, wait_slow_check_step, wait_register_step,
      wait_recheck_step, notify_init_step, notify_xchg_step, notify_check_step, wake_head_step,
      wake_tail_step, wake_waiters_step, wake_signal_step, wake_pop_step, wake_async_step, sema_create_step in Hx;
    try apply Sema.kernel_call_Ok in Hx; unfold with_sema, goes in Hx.
  - rewrite wrapu_small in Hx by lia.
    destruct (Z.geb_spec (dg_value s) INT64_MAX); [done|].
    rewrite wraps_small in Hx by lia.
    destruct (Z.eqb_spec (dg_value s) 0) as [E|]; injection Hx as <- <-; [rewrite E; by apply G_enter_first|].
    apply G_enter. lia.
  - injection Hx as <- <-. constructor.
  - rewrite wraps_small in Hx by lia.
    destruct (Z.eqb_spec (dg_value s - 1) 0) as [E|]; [injection Hx as <- <-; rewrite E; apply G_leave_last; lia|].
    destruct (Z.ltb_spec (dg_value s - 1) 0); [done|]. injection Hx as <- <-. apply G_leave. lia.
  - destruct (Z.eqb_spec (dg_value s) 0); [|destruct (Z.eqb_spec timeout 0)]; injection Hx as <- <-; by constructor.
  - destruct (Z.eqb_spec (dg_value s) 0); injection Hx as <- <-; by constructor.
  - rewrite wraps_small in Hx by lia. injection Hx as <- <-. constructor.
  - destruct (Z.eqb_spec (dg_value s) 0); injection Hx as <- <-; by constructor.
  - injection Hx as <- <-. destruct (wait_switch_ok timeout) as (? & ? & ?). by constructor.
  - injection Hx as <- <-. destruct (group_undo_ok (dg_waiters s)) as (? & ? & ?). by apply G_undo.
  - by eapply exec_undo.
  - injection Hx as <- <-. constructor.
  - destruct (dg_notify_tail s) eqn:E; injection Hx as <- <-; by constructor.
  - injection Hx as <- <-. constructor.
  - injection Hx as <- <-. constructor.
  - injection Hx as <- <-. constructor.
  - destruct (Z.eqb_spec (dg_value s) 0); injection Hx as <- <-; by constructor.
  - destruct (dg_notify_head s) eqn:E; injection Hx as <- <-; by constructor.
  - injection Hx as <- <-. constructor.
  - destruct (Z.eqb_spec (dg_waiters s) 0); injection Hx as <- <-; constructor; lia.
  - injection Hx as <- <-. constructor.
  - destruct (dg_sema s) as [sm|] eqn:E; [|done].
    destruct (Z.eqb_spec (count - 1) 0) as [Ec|]; injection Hx as <- <-.
    + replace count with 1 by lia. by constructor.
    + constructor; [done|lia].
  - case_bool_decide; [injection Hx as <- <-; subst; by constructor|].
    destruct (do_next s !! head) eqn:E; [|done]. injection Hx as <- <-. by constructor.
  - destruct (dc_data s !! head) as [dq|] eqn:E; [|done]. destruct next; injection Hx as <- <-; by constructor.
  - injection Hx as <- <-. constructor.
Qed.
End steps.

Section count.
Context {K : Type} `{KernelSemaphoreLaws K}.
Local Abbreviation cfg := (@config (dispatch_group_s K) pc).
Local Abbreviation in_progress := (in_progress finished).
Implicit Types c : cfg.

(** For whom a call of [_dispatch_group_wake] runs. *)
Definition wake_caller (p : pc) : option caller :=
  match p with
  | wake_head k | wake_tail k _ | wake_waiters k _ | wake_create k _ _ | wake_signal k _ _
  | wake_pop k _ _ | wake_async k _ _ _ | wake_release k _ => Some k
  | _ => None
  end.

(** Waits that have incremented [dg_waiters] and will consume a post or undo. *)
Definition w_registered (p : pc) : Z :=
  match p with
  | wait_recheck _ => 1
  | _ => match wake_caller p with
         | Some By_wait_drain => 1
         | Some _ => 0
         | None => if in_wait p then 1 else 0
         end
  end.

(** Posts still to be made. *)
Definition w_posts (p : pc) : Z :=
  match p with wake_create _ _ n | wake_signal _ _ n => n | _ => 0 end.

(** Calls that will exchange [dg_waiters], resp. [dg_notify_head], unless they
    see a value other than 0. *)
Definition w_looks (p : pc) : Z :=
  match p with wait_recheck _ | wake_head _ | wake_tail _ _ | wake_waiters _ _ => 1 | _ => 0 end.
Definition w_looks_head (p : pc) : Z :=
  match p with wake_head _ | notify_check => 1 | _ => 0 end.

Definition needs_sema (p : pc) : bool :=
  match p with
  | timedwait _ | timedwait_asleep _ | undo_load | undo_cas _ | sema_wait | sema_asleep | wake_signal _ _ _ => true
  | _ => false
  end.

Definition registered c : Z := total w_registered (calls c).
Definition posts c : Z := total w_posts (calls c).

Record count_inv (c : cfg) : Prop := {
  ci_value : 0 ≤ dg_value (shared c) < 2 ^ 63;
  ci_nonneg : 0 ≤ dg_waiters (shared c);
  ci_registered : registered c = dg_waiters (shared c) + posts c + sema_tokens (dg_sema (shared c));
  ci_bound : in_progress c ≤ MAX_CALLS;
  ci_sema : sema_ok (dg_sema (shared c));
  ci_sleep : sleep_ok sleeping (sema_sleepers (dg_sema (shared c))) (calls c);
  ci_created : ∀ t p, calls c !! t = Some p → needs_sema p = true → dg_sema (shared c) ≠ None;
  ci_pc : ∀ t p, calls c !! t = Some p → pc_ok p;
  ci_looks : 0 < dg_waiters (shared c) → dg_value (shared c) = 0 → 0 < total w_looks (calls c);
  ci_looks_head : dg_notify_head (shared c) ≠ None → dg_value (shared c) = 0 → 0 < total w_looks_head (calls c);
}.

Lemma w_registered_01 p : 0 ≤ w_registered p ≤ 1.
Proof. unfold w_registered. repeat case_match; lia. Qed.
Lemma w_looks_01 p : 0 ≤ w_looks p ≤ 1.
Proof. destruct p; cbn; lia. Qed.
Lemma w_looks_head_01 p : 0 ≤ w_looks_head p ≤ 1.
Proof. destruct p; cbn; lia. Qed.

Lemma registered_in_progress c : registered c ≤ in_progress c.
Proof. apply total_le. intros t p _. destruct p; cbn; try case_match; lia. Qed.

Lemma posts_nonneg c : (∀ t p, calls c !! t = Some p → pc_ok p) → 0 ≤ posts c.
Proof.
  intros Hp. unfold posts. apply total_ind; [lia|]. intros t p z Ht Hz.
  specialize (Hp t p Ht). destruct p; cbn in *; lia.
Qed.

Lemma waiters_bound c : count_inv c → 0 ≤ dg_waiters (shared c) < 2 ^ 31 - 1.
Proof.
  intros Hi. pose proof (registered_in_progress c). pose proof (posts_nonneg c (ci_pc _ Hi)).
  pose proof (sema_tokens_nonneg _ (ci_sema _ Hi)). destruct Hi. unfold MAX_CALLS in *. lia.
Qed.

Lemma group_tokens_bound s m t p k :
  count_inv (Cfg s m) → m !! t = Some p → 0 < w_posts p → dg_sema s = Some k → tokens k < 2 ^ 31 - 1.
Proof.
  intros Hi Hm Hp Hk. pose proof (registered_in_progress (Cfg s m)) as Hr.
  assert (w_posts p ≤ posts (Cfg s m)) as Hge.
  { unfold posts. cbn. rewrite (total_delete _ _ _ _ Hm).
    assert (0 ≤ total w_posts (delete t m)); [|lia]. apply total_ind; [lia|].
    intros t' p' z [_ Hp']%lookup_delete_Some Hz. pose proof (ci_pc _ Hi _ _ Hp') as Hok.
    destruct p'; cbn in *; lia. }
  destruct Hi as [_ Hn Hreg Hb _ _ _ _ _ _]. unfold MAX_CALLS in *. cbn in *. open_sema Hk Hreg. lia.
Qed.

(** ** Preservation *)

Lemma count_start s m t p :
  count_inv (Cfg s m) → m !! t = None → starts p = true → in_progress (Cfg s m) < MAX_CALLS →
  count_inv (Cfg s (<[t := p]> m)).
Proof.
  intros [Hv Hn Hr Hb Hk Hs Hc Hp Hl Hh] Hm Hst Hlt.
  unfold registered, posts, SyncMachine.in_progress in *. cbn in *.
  split; unfold registered, posts, SyncMachine.in_progress; cbn; rewrite ?total_new by done; try done.
  - destruct p; cbn in *; done || lia.
  - destruct p; cbn in *; done || lia.
  - apply sleep_start; [done..|]. by destruct p.
  - intros t' p' [[_ <-]|[_ ?]]%lookup_insert_Some; [by destruct p|eauto].
  - intros t' p' [[_ <-]|[_ ?]]%lookup_insert_Some; [by destruct p|eauto].
  - intros Hx1 Hx2. specialize (Hl Hx1 Hx2). pose proof (w_looks_01 p). lia.
  - intros Hx1 Hx2. specialize (Hh Hx1 Hx2). pose proof (w_looks_head_01 p). lia.
Qed.

(** What one step of a call must do to the counts. *)
Lemma count_upd s m t p s' p' :
  count_inv (Cfg s m) → m !! t = Some p → finished p = false → pc_ok p' →
  0 ≤ dg_value s' < 2 ^ 63 → 0 ≤ dg_waiters s' →
  w_registered p' - w_registered p = (dg_waiters s' - dg_waiters s) + (w_posts p' - w_posts p)
     + (sema_tokens (dg_sema s') - sema_tokens (dg_sema s)) →
  sema_ok (dg_sema s') → sleep_ok sleeping (sema_sleepers (dg_sema s')) (<[t := p']> m) →
  (needs_sema p' = true ∨ dg_sema s ≠ None → dg_sema s' ≠ None) →
  (0 < dg_waiters s' → dg_value s' = 0 →
     0 < w_looks p' ∨ (0 < dg_waiters s ∧ dg_value s = 0 ∧ w_looks p ≤ w_looks p')) →
  (dg_notify_head s' ≠ None → dg_value s' = 0 →
     0 < w_looks_head p' ∨ (dg_notify_head s ≠ None ∧ dg_value s = 0 ∧ w_looks_head p ≤ w_looks_head p')) →
  count_inv (Cfg s' (<[t := p']> m)).
Proof.
  intros [Hv Hn Hr Hb Hk Hs Hc Hp Hl Hh] Hm Hf Hp' Hv' Hn' Hr' Hk' Hs' Hc' Hl' Hh'.
  assert (w_looks p ≤ total w_looks m) by (eapply total_ge; [apply w_looks_01|done]).
  assert (w_looks_head p ≤ total w_looks_head m) by (eapply total_ge; [apply w_looks_head_01|done]).
  unfold registered, posts, SyncMachine.in_progress in *. cbn in *.
  split; unfold registered, posts, SyncMachine.in_progress; cbn; upd_totals Hm; try done; try lia.
  - rewrite Hf. case_match; lia.
  - intros t' q [[_ <-]|[_ Hq]]%lookup_insert_Some Hx; [auto|]. apply Hc'. right. by eapply Hc.
  - intros t' q [[_ <-]|[_ Hq]]%lookup_insert_Some; eauto.
  - intros Hx1 Hx2. destruct (Hh' Hx1 Hx2) as [?|(? & ? & ?)]; [lia|]. specialize (Hh ltac:(done) ltac:(done)). lia.
Qed.

(** Steps of the wait in the kernel. *)
Lemma count_kernel s m t p p' k k' :
  count_inv (Cfg s m) → m !! t = Some p → dg_sema s = Some k → in_wait p = true →
  k_ok k' → sleep_ok sleeping (sleepers k') (<[t := p']> m) → pc_ok p' →
  (in_wait p' = true ∧ tokens k' = tokens k) ∨ (p' = wait_returned 0 ∧ tokens k' = tokens k - 1) →
  count_inv (Cfg (set_sema (Some k') s) (<[t := p']> m)).
Proof.
  intros Hi Hm Hk Hp Hok Hsl Hpc Hcase. pose proof Hi as [].
  assert (w_looks p = 0 ∧ w_looks_head p = 0 ∧ finished p = false ∧ w_registered p = 1 ∧ w_posts p = 0)
    as (? & ? & ? & ? & ?) by (by destruct p).
  assert (w_looks p' = 0 ∧ w_looks_head p' = 0 ∧ w_posts p' = 0 ∧
          w_registered p' - 1 = tokens k' - tokens k) as (? & ? & ? & ?).
  { destruct Hcase as [[Hp' ->]|[-> ->]]; [|cbn; lia]. destruct p'; try done; cbn; lia. }
  eapply (count_upd _ _ _ _ _ _ Hi Hm); cbn in *; rewrite ?Hk, ?sema_Some_tokens; try done; try lia.
  intros. right. split_and!; done || lia.
Qed.

Lemma count_ask s m t p p' k nb :
  count_inv (Cfg s m) → m !! t = Some p → in_wait p = true → sleeping p = false → dg_sema s = Some k →
  match (k_wait t nb k).1 with
  | Got => p' = wait_returned 0
  | Timed_out => p' = undo_load
  | Sleeps => sleeping p' = true
  end →
  count_inv (Cfg (set_sema (Some (k_wait t nb k).2) s) (<[t := p']> m)).
Proof.
  intros Hi Hm Hp Hns Hk Ha. pose proof (ci_sema _ Hi) as Hok. pose proof (ci_sleep _ Hi) as Hsl.
  open_sema Hk Hok. open_sema Hk Hsl.
  destruct (k_wait_ok t nb k Hok) as [Hok' Hans]; [by eapply sleep_not_in|].
  destruct (k_wait t nb k) as [[] k']; cbn in *.
  - subst p'. destruct Hans as [Ht Es]. eapply count_kernel; eauto; [|by left].
    rewrite Es. by eapply sleep_same.
  - subst p'. destruct Hans as (_ & Ht & Es). eapply count_kernel; eauto; [|done].
    rewrite Es. by eapply sleep_same.
  - destruct Hans as (_ & Ht & Es).
    assert (in_wait p' = true ∧ pc_ok p') as [? ?] by (by destruct p').
    eapply count_kernel; eauto. rewrite Es. by apply sleep_in.
Qed.

Lemma count_leave_kernel s m t p p' k k' :
  count_inv (Cfg s m) → m !! t = Some p → sleeping p = true → dg_sema s = Some k →
  (k_resume t k = Some k' ∧ p' = wait_returned 0) ∨
  (k_expire t k = Some k' ∧ in_wait p' = true ∧ sleeping p' = false ∧ pc_ok p') →
  count_inv (Cfg (set_sema (Some k') s) (<[t := p']> m)).
Proof.
  intros Hi Hm Hp Hk Hcase. pose proof (ci_sema _ Hi) as Hok. pose proof (ci_sleep _ Hi) as Hsl.
  open_sema Hk Hok. open_sema Hk Hsl. assert (in_wait p = true) as Hin by (by destruct p).
  destruct Hcase as [[E ->]|(E & Hw & Hns & Hpc)].
  - destruct (k_resume_ok _ _ _ Hok E) as (Hok' & Ht & Es & _). eapply count_kernel; eauto; [|by left].
    rewrite Es. by apply sleep_out.
  - destruct (k_expire_ok _ _ _ Hok E) as (Hok' & Ht & Es & _). eapply count_kernel; eauto.
    rewrite Es. by apply sleep_out.
Qed.

(** Creating the semaphore. *)
Lemma count_create s m t p p' :
  count_inv (Cfg s m) → m !! t = Some p → finished p = false → pc_ok p' →
  w_registered p' = w_registered p → w_posts p' = w_posts p → sleeping p' = sleeping p →
  w_looks p ≤ w_looks p' → w_looks_head p ≤ w_looks_head p' →
  count_inv (Cfg (set_sema (_dispatch_sema4_create (dg_sema s)) s) (<[t := p']> m)).
Proof.
  intros Hi Hm Hf Hpc E1 E2 E3 E4 E5. pose proof Hi as [].
  destruct (sema_create_ok (dg_sema s)) as (Hok & Ht & Es); [done|].
  eapply (count_upd _ _ _ _ _ _ Hi Hm); cbn in *; try done; try lia.
  - rewrite Es. by eapply sleep_same.
  - intros _. unfold _dispatch_sema4_create. by destruct (dg_sema s).
  - intros. by right.
Qed.

(** A post. *)
Lemma count_post s m t p p' k :
  count_inv (Cfg s m) → m !! t = Some p → finished p = false → pc_ok p' → dg_sema s = Some k →
  0 < w_posts p → w_posts p' = w_posts p - 1 → w_registered p' = w_registered p →
  sleeping p' = sleeping p → w_looks p ≤ w_looks p' → w_looks_head p ≤ w_looks_head p' →
  count_inv (Cfg (set_sema (Some (k_signal k)) s) (<[t := p']> m)).
Proof.
  intros Hi Hm Hf Hpc Hk Hpos E1 E2 E3 E4 E5. pose proof (group_tokens_bound _ _ _ _ _ Hi Hm Hpos Hk) as Hb.
  pose proof (ci_sema _ Hi) as Hok. pose proof (ci_sleep _ Hi) as Hsl. open_sema Hk Hok. open_sema Hk Hsl.
  destruct (k_signal_ok k Hok Hb) as (Hok' & Ht & Es). pose proof Hi as [].
  eapply (count_upd _ _ _ _ _ _ Hi Hm); cbn in *; rewrite ?Hk, ?sema_Some_tokens; try done; try lia.
  - rewrite sema_Some_sleepers, Es. by eapply sleep_same.
  - intros. by right.
Qed.

(** Weights of the points reached through functions. *)
Lemma wake_notify_weights k seg :
  let p := wake_notify k seg in
  w_registered p = (match k with By_wait_drain => 1 | _ => 0 end) ∧ w_posts p = 0 ∧
  sleeping p = false ∧ needs_sema p = false ∧ pc_ok p ∧ w_looks p = 0 ∧ w_looks_head p = 0.
Proof. destruct seg as [[h tl]|], k; cbn; split_and!; done || by left. Qed.

Lemma wake_refs_weights k b :
  let p := wake_refs k b in
  w_registered p = (match k with By_wait_drain => 1 | _ => 0 end) ∧ w_posts p = 0 ∧
  sleeping p = false ∧ needs_sema p = false ∧ pc_ok p ∧ w_looks p = 0 ∧ w_looks_head p = 0.
Proof. destruct b, k; cbn; split_and!; done || by left. Qed.

Lemma after_wake_weights k :
  let p := after_wake k in
  w_registered p = (match k with By_wait_drain => 1 | _ => 0 end) ∧ w_posts p = 0 ∧
  sleeping p = false ∧ needs_sema p = false ∧ pc_ok p ∧ w_looks p = 0 ∧ w_looks_head p = 0.
Proof. destruct k; cbn; split_and!; done || by left. Qed.

Ltac weights :=
  try match goal with |- context [wake_notify ?k ?seg] => pose proof (wake_notify_weights k seg) end;
  try match goal with |- context [wake_refs ?k ?b] => pose proof (wake_refs_weights k b) end;
  try match goal with |- context [after_wake ?k] => pose proof (after_wake_weights k) end;
  cbn zeta in *; destruct_and?.

(** The side conditions of the lemmas below. *)
Ltac count_side :=
  intros; try congruence; try match goal with p : pc |- _ => by destruct p end;
  solve [done | lia | by left | left; lia | right; split_and!; done || lia].

(** Steps that leave the kernel semaphore alone. *)
Lemma count_local s m t p s' p' :
  count_inv (Cfg s m) → m !! t = Some p → finished p = false → pc_ok p' →
  0 ≤ dg_value s' < 2 ^ 63 → 0 ≤ dg_waiters s' → dg_sema s' = dg_sema s →
  w_registered p' - w_registered p = (dg_waiters s' - dg_waiters s) + (w_posts p' - w_posts p) →
  sleeping p' = sleeping p → (needs_sema p' = true → needs_sema p = true) →
  (0 < dg_waiters s' → dg_value s' = 0 →
     0 < w_looks p' ∨ (0 < dg_waiters s ∧ dg_value s = 0 ∧ w_looks p ≤ w_looks p')) →
  (dg_notify_head s' ≠ None → dg_value s' = 0 →
     0 < w_looks_head p' ∨ (dg_notify_head s ≠ None ∧ dg_value s = 0 ∧ w_looks_head p ≤ w_looks_head p')) →
  count_inv (Cfg s' (<[t := p']> m)).
Proof.
  intros Hi Hm Hf Hpc Hv Hw Es Hr Hsl Hns Hl Hh. pose proof Hi as [].
  eapply (count_upd _ _ _ _ _ _ Hi Hm); cbn in *; rewrite ?Es; try done; try lia.
  - by eapply sleep_same.
  - intros [Hx|?]; [|done]. eapply ci_created0; eauto.
Qed.

Lemma count_step s m t p s' p' :
  count_inv (Cfg s m) → m !! t = Some p → gstep t s p s' p' → count_inv (Cfg s' (<[t := p']> m)).
Proof.
  intros Hi Hm Hst. pose proof (ci_value _ Hi) as Hv. pose proof (ci_nonneg _ Hi) as Hw.
  pose proof (ci_pc _ Hi _ _ Hm) as Hpc. cbn in Hv, Hw.
  destruct Hst; weights;
    try (by eapply count_ask); try (by eapply count_leave_kernel; eauto);
    try (eapply (count_create _ _ _ _ _ Hi Hm); cbn in *; try done; try lia; count_side);
    try (eapply (count_post _ _ _ _ _ _ Hi Hm); cbn in *; try done; try lia; count_side);
    try (eapply (count_local _ _ _ _ _ _ Hi Hm); cbn in *; try done; try lia; count_side).
  - assert (w_looks p = 0 ∧ w_looks_head p = 0 ∧ finished p = false ∧ w_registered p = 1 ∧ w_posts p = 0)
      as (? & ? & ? & ? & ?) by (by destruct p).
    assert (w_looks p' = 0 ∧ w_looks_head p' = 0 ∧ w_registered p' = 1 ∧ w_posts p' = 0)
      as (? & ? & ? & ?) by (by destruct p').
    assert (needs_sema p = true) by (destruct p; done || naive_solver).
    eapply (count_local _ _ _ _ _ _ Hi Hm); cbn in *; try done; try lia; try congruence; count_side.
  - destruct nx; eapply (count_local _ _ _ _ _ _ Hi Hm); cbn in *; try done; try lia; count_side.
Qed.
End count.
