(* ===== verification/DispatchGroupList.v ===== *)
(** * Dispatch groups: the list of continuations to notify

    [dispatch_group_notify] pushes on a list that [_dispatch_group_wake] takes
    away in two exchanges, of the head and then of the tail, while others push.
    The invariant says where every pushed continuation is: on the current list,
    in the part one call of [_dispatch_group_wake] has taken, or submitted.  It
    is stated on the [view] of the calls, what the list cares about of their
    program counters. *)

From S2P Require Import Prelude DispatchTime SyncMachine SyncKernel DispatchSemaphore DispatchGroup DispatchGroupCount.
Import Time Group.

(** The continuation of a call, and the list a call of wake is treating. *)
Inductive nview := NoNode | Uninit | Inited | Linking (a : tid) | First | Pushed.
Inductive sview :=
| NoSeg
| Holding (h : tid)
| Seg (h : tid) (tl : option tid)
| SegNext (h : tid) (nx tl : option tid).
Record view := View { nv : nview; sv : sview }.

Definition caller_view (k : caller) : nview := match k with By_notify => Pushed | _ => NoNode end.
Definition seg_of (seg : option (tid * option tid)) : sview :=
  match seg with Some (h, tl) => Seg h tl | None => NoSeg end.

Definition view_of (p : pc) : view :=
  match p with
  | notify_init _ => View Uninit NoSeg
  | notify_xchg => View Inited NoSeg
  | notify_link a => View (Linking a) NoSeg
  | notify_retain | notify_head => View First NoSeg
  | notify_check | notify_returned => View Pushed NoSeg
  | wake_head k => View (caller_view k) NoSeg
  | wake_tail k h => View (caller_view k) (Holding h)
  | wake_waiters k seg | wake_create k seg _ | wake_signal k seg _ => View (caller_view k) (seg_of seg)
  | wake_pop k h tl => View (caller_view k) (Seg h tl)
  | wake_async k h nx tl => View (caller_view k) (SegNext h nx tl)
  | wake_release k _ => View (caller_view k) NoSeg
  | _ => View NoNode NoSeg
  end.

Definition pushed (n : nview) : bool := match n with Linking _ | First | Pushed => true | _ => false end.
Definition inited (n : nview) : bool := match n with Inited | Linking _ | First | Pushed => true | _ => false end.

(** Calls that hold the head of the current list outside of the group. *)
Definition w_holds (v : view) : Z :=
  (match nv v with First => 1 | _ => 0 end) + (match sv v with Holding _ => 1 | _ => 0 end).

(** ** Chains *)

(** Consecutive elements are linked, or the second one is about to link itself. *)
Fixpoint chain (next : gmap tid tid) (vm : gmap tid view) (l : list tid) : Prop :=
  match l with
  | [] => True
  | a :: r =>
      match r with
      | [] => next !! a = None
      | b :: _ => (next !! a = Some b ∨ (next !! a = None ∧ nv <$> vm !! b = Some (Linking a))) ∧
                  chain next vm r
      end
  end.

Lemma chain_cons next vm a r : chain next vm (a :: r) → chain next vm r.
Proof. destruct r; [done|]. by intros [_ ?]. Qed.

Lemma chain_ext next vm next' vm' l :
  (∀ a, a ∈ l → next' !! a = next !! a) →
  (∀ a b, b ∈ l → nv <$> vm !! b = Some (Linking a) → nv <$> vm' !! b = Some (Linking a)) →
  chain next vm l → chain next' vm' l.
Proof.
  induction l as [|a [|b r] IH]; intros Hn Hv Hc; [done|cbn in *; rewrite Hn; [done|left]|].
  destruct Hc as [Hab Hc]. split.
  - rewrite Hn by left. destruct Hab as [?|[? ?]]; [by left|right]. split; [done|].
    apply Hv; [right; left|done].
  - apply IH; [| |done]; intros; [apply Hn|apply Hv]; done || by right.
Qed.

Lemma chain_last next vm l a : chain next vm l → last l = Some a → next !! a = None.
Proof.
  induction l as [|x [|b r] IH]; [done|cbn; by intros ? [= ->]|].
  intros [_ Hc] Hl. by apply IH.
Qed.

(** A push behind the last element. *)
Lemma chain_snoc next vm l b v :
  chain next vm l → b ∉ l → next !! b = None →
  (∀ a, last l = Some a → nv v = Linking a) →
  chain next (<[b := v]> vm) (l ++ [b]).
Proof.
  induction l as [|x [|y r] IH]; intros Hc Hb Hn Hl.
  - done.
  - cbn in *. split; [|done]. right. split; [done|]. rewrite lookup_insert_eq. cbn. by rewrite (Hl x).
  - destruct Hc as [Hxy Hc]. cbn [app]. split.
    + destruct Hxy as [?|[? ?]]; [by left|right]. split; [done|].
      rewrite lookup_insert_ne; [done|]. set_solver.
    + apply IH; [done|set_solver|done|]. intros a Ha. by apply Hl.
Qed.

(** The link is set. *)
Lemma chain_link next vm l1 a b l2 v :
  NoDup (l1 ++ a :: b :: l2) → chain next vm (l1 ++ a :: b :: l2) →
  chain (<[a := b]> next) (<[b := v]> vm) (l1 ++ a :: b :: l2).
Proof.
  induction l1 as [|x l1 IH]; cbn [app]; intros Hnd Hc.
  - apply NoDup_cons in Hnd as [Ha Hnd]. apply NoDup_cons in Hnd as [Hb Hnd].
    destruct Hc as [_ Hc]. split; [left; apply lookup_insert_eq|].
    destruct l2 as [|y l2].
    + cbn in *. rewrite lookup_insert_ne; [done|]. set_solver.
    + destruct Hc as [Hby Hc]. split.
      * rewrite lookup_insert_ne by set_solver. rewrite lookup_insert_ne by set_solver. done.
      * eapply chain_ext; [| |done]; intros; rewrite lookup_insert_ne; [done|set_solver|done|set_solver].
  - apply NoDup_cons in Hnd as [Hx Hnd].
    assert (chain (<[a := b]> next) (<[b := v]> vm) (l1 ++ a :: b :: l2)) as Hr.
    { apply IH; [done|]. by apply chain_cons in Hc. }
    assert (a ≠ x) as Hax by set_solver.
    destruct (l1 ++ a :: b :: l2) as [|y r] eqn:E; [by destruct l1|].
    destruct Hc as [Hxy _]. split; [|done]. rewrite (lookup_insert_ne next) by done.
    destruct Hxy as [?|[? ?]]; [by left|right]. split; [done|].
    rewrite lookup_insert_ne; [done|]. intros <-.
    (* the second element is [b] only when the first is [a] *)
    apply NoDup_cons in Hnd as [Hd _]. destruct l1 as [|z l1]; cbn in E; injection E as -> <-; set_solver.
Qed.

(** An element of a list without repetitions has one successor. *)
Lemma successor_unique (k1 k2 l1 l2 : list tid) a x y :
  NoDup (k1 ++ a :: x :: k2) → k1 ++ a :: x :: k2 = l1 ++ a :: y :: l2 → x = y.
Proof.
  revert l1. induction k1 as [|z k1 IH]; intros [|w l1] Hnd E; cbn in *; injection E as E1 E2.
  - done.
  - subst w. apply NoDup_cons in Hnd as [Hn _]. rewrite E2 in Hn. set_solver.
  - subst z. apply NoDup_cons in Hnd as [Hn _]. set_solver.
  - apply NoDup_cons in Hnd as [_ Hnd]. by eapply IH.
Qed.

(** ** The invariant *)

Inductive place := InCur | InSeg (t : tid) | Submitted.

Record ghost := Ghost {
  g_cur : list tid;
  g_segs : gmap tid (list tid);
  g_loc : gmap tid place;
}.

Definition owned (g : ghost) (l : list tid) : Prop := l = g_cur g ∨ ∃ t, g_segs g !! t = Some l.

(** What a call of wake has taken. *)
Definition seg_view (v : sview) (o : option (list tid)) : Prop :=
  match v with
  | NoSeg | Holding _ => o = None
  | Seg h tl => ∃ r, o = Some (h :: r) ∧ tl = last (h :: r)
  | SegNext h nx tl => ∃ r, o = Some (h :: r) ∧ tl = last (h :: r) ∧ nx = head r
  end.

Definition is_queue (q q' : queue) : Z := if decide (q' = q) then 1 else 0.
Definition submissions (q : queue) (l : list (queue * tid)) : Z := foldr (λ x n, is_queue q x.1 + n) 0 l.
#[global] Arguments submissions : simpl never.

Section list_inv.
Context {K : Type} `{KernelSemaphore K}.
Local Abbreviation group := (dispatch_group_s K).
Implicit Types s : group.

Record list_inv (g : ghost) (s : group) (vm : gmap tid view) : Prop := {
  li_cur : ∀ n, n ∈ g_cur g ↔ g_loc g !! n = Some InCur;
  li_seg : ∀ t l n, g_segs g !! t = Some l → n ∈ l ↔ g_loc g !! n = Some (InSeg t);
  li_seg_dom : ∀ t n, g_loc g !! n = Some (InSeg t) → is_Some (g_segs g !! t);
  li_done : ∀ n, n ∈ (submitted s).*2 ↔ g_loc g !! n = Some Submitted;
  li_pushed : ∀ n, is_Some (g_loc g !! n) ↔ pushed <$> (nv <$> vm !! n) = Some true;
  li_nodup_cur : NoDup (g_cur g);
  li_nodup_seg : ∀ t l, g_segs g !! t = Some l → NoDup l;
  li_nodup_done : NoDup (submitted s).*2;
  li_chain : ∀ l, owned g l → chain (do_next s) vm l;
  li_link : ∀ t a, nv <$> vm !! t = Some (Linking a) →
    do_next s !! a = None ∧ ∃ l1 l2, owned g (l1 ++ a :: t :: l2);
  li_next : ∀ t h b tl, sv <$> vm !! t = Some (SegNext h (Some b) tl) → do_next s !! h = Some b;
  li_inited : ∀ t, nv <$> vm !! t = Some Inited → do_next s !! t = None;
  li_tail : dg_notify_tail s = last (g_cur g);
  li_head : ∀ h, dg_notify_head s = Some h → head (g_cur g) = Some h;
  li_first : ∀ t, nv <$> vm !! t = Some First → head (g_cur g) = Some t;
  li_hold : ∀ t h, sv <$> vm !! t = Some (Holding h) → head (g_cur g) = Some h;
  li_holders : total w_holds vm + (match dg_notify_head s with Some _ => 1 | None => 0 end)
               = match g_cur g with [] => 0 | _ => 1 end;
  li_segs : ∀ t v, vm !! t = Some v → seg_view (sv v) (g_segs g !! t);
  li_segs_dom : ∀ t, vm !! t = None → g_segs g !! t = None;
  li_data : ∀ n, is_Some (dc_data s !! n) ↔ inited <$> (nv <$> vm !! n) = Some true;
  li_queue : ∀ q n, (q, n) ∈ submitted s → dc_data s !! n = Some q;
  li_refs : ∀ q, default 0 (queue_refs s !! q) = total (is_queue q) (dc_data s) - submissions q (submitted s);
}.
End list_inv.
