(* ===== verification/DispatchGroupNotify.v ===== *)
(** * Dispatch groups: every step keeps the list of continuations

    One lemma per step that touches the list: starting a call, preparing a
    continuation, pushing it, linking it, storing the head, taking the head,
    taking the tail, reading the next one, submitting it. *)

From S2P Require Import Prelude DispatchTime SyncMachine SyncKernel DispatchSemaphore DispatchGroup DispatchGroupList DispatchGroupCount.
Import Time Group.

Section notify.
Context {K : Type} `{KernelSemaphore K}.
Local Abbreviation group := (dispatch_group_s K).
Implicit Types (s : group) (vm : gmap tid view) (g : ghost).

(** The fields the invariant depends on. *)
Definition list_part s :=
  (dg_notify_head s, dg_notify_tail s, do_next s, dc_data s, submitted s, queue_refs s).

Lemma list_ext g s s' vm : list_part s' = list_part s → list_inv g s vm → list_inv g s' vm.
Proof.
  unfold list_part. intros E []. simplify_eq.
  repeat match goal with H : _ s' = _ s |- _ => rewrite <- H in * end.
  by split.
Qed.

Lemma owned_pushed g s vm l n :
  list_inv g s vm → owned g l → n ∈ l → pushed <$> (nv <$> vm !! n) = Some true.
Proof.
  intros Hi Ho Hn. apply (li_pushed _ _ _ Hi). destruct Ho as [->|[t Ht]].
  - apply (li_cur _ _ _ Hi) in Hn. eauto.
  - apply (li_seg _ _ _ Hi _ _ _ Ht) in Hn. eauto.
Qed.

Lemma owned_nodup g s vm l : list_inv g s vm → owned g l → NoDup l.
Proof. intros [] [->|[t Ht]]; eauto. Qed.

(** Two lists with a common element are the same. *)
Lemma owned_same g s vm l l' n :
  list_inv g s vm → owned g l → owned g l' → n ∈ l → n ∈ l' → l = l'.
Proof.
  intros Hi Hl Hl' Hn Hn'.
  destruct Hl as [->|[t Ht]], Hl' as [->|[t' Ht']]; [done|..].
  - apply (li_cur _ _ _ Hi) in Hn. apply (li_seg _ _ _ Hi _ _ _ Ht') in Hn'. congruence.
  - apply (li_cur _ _ _ Hi) in Hn'. apply (li_seg _ _ _ Hi _ _ _ Ht) in Hn. congruence.
  - apply (li_seg _ _ _ Hi _ _ _ Ht') in Hn'. apply (li_seg _ _ _ Hi _ _ _ Ht) in Hn. congruence.
Qed.

Lemma holds_eq n v :
  w_holds (View n v) = (match n with First => 1 | _ => 0 end) + (match v with Holding _ => 1 | _ => 0 end).
Proof. done. Qed.

(** [at_view t]: cases on whether a call is the one that moved. *)
Ltac at_view t :=
  intros;
  repeat match goal with
  | H : context [<[t := _]> ?m !! ?x] |- _ =>
      destruct (decide (x = t)) as [->|];
      [rewrite (lookup_insert_eq m) in H|rewrite (lookup_insert_ne m) in H by done]
  | |- context [<[t := _]> ?m !! ?x] =>
      destruct (decide (x = t)) as [->|];
      [rewrite (lookup_insert_eq m)|rewrite (lookup_insert_ne m) by done]
  end; cbn in *.

(** A new call. *)
Lemma list_start g s vm t n :
  list_inv g s vm → vm !! t = None → n = NoNode ∨ n = Uninit → list_inv g s (<[t := View n NoSeg]> vm).
Proof.
  intros Hi Ht Hn. pose proof Hi as [].
  assert (pushed n = false ∧ inited n = false ∧ n ≠ First ∧ n ≠ Inited) as (Hp & Hin & Hf & Hn')
    by (by destruct Hn as [-> | ->]).
  assert (∀ a, n ≠ Linking a) as Hnl by (by destruct Hn as [-> | ->]).
  split; try done.
  - intros x. rewrite li_pushed. at_view t; [|done]. by rewrite Ht, Hp.
  - intros l Hl. eapply chain_ext; [done| |by apply li_chain]. at_view t; [|done]. by rewrite Ht in *.
  - at_view t; [congruence|eauto].
  - at_view t; [done|eauto].
  - at_view t; [congruence|eauto].
  - at_view t; [congruence|eauto].
  - at_view t; [congruence|eauto].
  - rewrite total_new by done. rewrite <- li_holders, holds_eq. destruct n; done || lia.
  - at_view t; [|eauto]. simplify_eq. cbn. auto.
  - at_view t; [done|auto].
  - intros x. rewrite li_data. at_view t; [|done]. by rewrite Ht, Hin.
Qed.

(** The call leaves the list alone. *)
Lemma list_same g s vm t v : list_inv g s vm → vm !! t = Some v → list_inv g s (<[t := v]> vm).
Proof. intros Hi Ht. by rewrite insert_id. Qed.

Lemma total_queue_insert q (m : gmap tid queue) t dq :
  m !! t = None → total (is_queue q) (<[t := dq]> m) = is_queue q dq + total (is_queue q) m.
Proof. intros. by apply total_new. Qed.

Lemma add_queue_ref_lookup q dq n m :
  default 0 (add_queue_ref dq n m !! q) = default 0 (m !! q) + n * is_queue q dq.
Proof.
  unfold add_queue_ref, is_queue. destruct (decide (dq = q)) as [->|].
  - rewrite lookup_insert_eq. cbn. lia.
  - rewrite lookup_insert_ne by done. lia.
Qed.

(** [notify_init]: the continuation gets its queue. *)
Lemma list_init g s vm t dq :
  list_inv g s vm → vm !! t = Some (View Uninit NoSeg) →
  list_inv g
    (DG (dg_value s) (dg_waiters s) (dg_sema s) (dg_notify_head s) (dg_notify_tail s)
       (delete t (do_next s)) (<[t := dq]> (dc_data s)) (do_ref_cnt s) (submitted s)
       (add_queue_ref dq 1 (queue_refs s)))
    (<[t := View Inited NoSeg]> vm).
Proof.
  intros Hi Ht. pose proof Hi as [].
  assert (dc_data s !! t = None) as Hd.
  { apply eq_None_not_Some. rewrite li_data, Ht. done. }
  assert (∀ l a, owned g l → a ∈ l → a ≠ t) as Hne.
  { intros l a Hl Ha ->. pose proof (owned_pushed _ _ _ _ _ Hi Hl Ha) as Hp. by rewrite Ht in Hp. }
  split; cbn; try done.
  - intros x. rewrite li_pushed. at_view t; [by rewrite Ht|done].
  - intros l Hl. eapply chain_ext; [| |by apply li_chain].
    + intros a Ha. rewrite lookup_delete_ne; [done|]. symmetry. by eapply Hne.
    + intros a b Hb. pose proof (Hne _ _ Hl Hb). by rewrite lookup_insert_ne.
  - intros x a Hx. at_view t; [done|]. destruct (li_link _ _ Hx) as (Hn & l1 & l2 & Ho).
    split; [|eauto]. rewrite lookup_delete_ne; [done|]. symmetry. eapply (Hne _ _ Ho). set_solver.
  - intros u h b tl Hu. at_view t; [done|]. pose proof (li_next _ _ _ _ Hu) as Hb.
    rewrite lookup_delete_ne; [done|]. intros <-.
    destruct (vm !! u) as [v|] eqn:Ev; [|done]. cbn in Hu. injection Hu as Hu.
    pose proof (li_segs _ _ Ev) as Hs. rewrite Hu in Hs. destruct Hs as (r & Hs & _).
    eapply (Hne (t :: r) t); [right; eauto|left|done].
  - at_view t; [apply lookup_delete_eq|]. rewrite lookup_delete_ne by done. eauto.
  - at_view t; [done|eauto].
  - at_view t; [done|eauto].
  - rewrite (total_upd _ _ _ _ _ Ht), !holds_eq, <- li_holders. lia.
  - at_view t; [|eauto]. simplify_eq. by apply (li_segs _ _ Ht).
  - at_view t; [done|auto].
  - intros x. destruct (decide (x = t)) as [->|].
    + rewrite !lookup_insert_eq. cbn. split; [done|eauto].
    + rewrite !lookup_insert_ne by done. apply li_data.
  - intros q n Hqn. pose proof (li_queue q n Hqn) as Hq. rewrite lookup_insert_ne; [done|]. congruence.
  - intros q. rewrite add_queue_ref_lookup, total_queue_insert, li_refs by done. lia.
Qed.

(** The list after a push. *)
Definition extended (t : tid) (g : ghost) : ghost :=
  Ghost (g_cur g ++ [t]) (g_segs g) (<[t := InCur]> (g_loc g)).

Definition push_view s : nview := match dg_notify_tail s with Some prev => Linking prev | None => First end.

Lemma push_chain g s vm t l v :
  list_inv g s vm → vm !! t = Some (View Inited NoSeg) → nv v = push_view s →
  owned (extended t g) l → chain (do_next s) (<[t := v]> vm) l.
Proof.
  intros Hi Ht En Hl. pose proof Hi as [].
  assert (∀ l a, owned g l → a ∈ l → a ≠ t) as Hne.
  { intros l' a Hl' Ha ->. pose proof (owned_pushed _ _ _ _ _ Hi Hl' Ha) as Hp. by rewrite Ht in Hp. }
  destruct Hl as [->|[u Hu]].
  - apply chain_snoc; [apply li_chain; by left| |apply li_inited; by rewrite Ht|].
    + intros Hin. by eapply (Hne (g_cur g) t); [left|..].
    + intros a Ha. rewrite En. unfold push_view. by rewrite li_tail, Ha.
  - eapply chain_ext; [done| |apply li_chain; right; eauto]. intros a b Hb.
    rewrite lookup_insert_ne; [done|]. intros <-. by eapply (Hne l t); [right; eauto|..].
Qed.

(** Who has still to link itself has its predecessor before it. *)
Lemma push_link g s vm t x a v :
  list_inv g s vm → nv v = push_view s → nv <$> <[t := v]> vm !! x = Some (Linking a) →
  do_next s !! a = None ∧ ∃ l1 l2, owned (extended t g) (l1 ++ a :: x :: l2).
Proof.
  intros Hi En Hx. pose proof Hi as []. destruct (decide (x = t)) as [->|].
  - rewrite lookup_insert_eq in Hx. cbn in Hx. injection Hx as Hx. rewrite En in Hx. unfold push_view in Hx.
    destruct (dg_notify_tail s) as [prev|] eqn:Etl; [|done]. injection Hx as ->.
    symmetry in li_tail. split; [eapply chain_last; [apply li_chain; by left|done]|].
    apply last_Some in li_tail as [l' El]. exists l', []. left. cbn. rewrite El. by rewrite <- app_assoc.
  - rewrite lookup_insert_ne in Hx by done. destruct (li_link x a Hx) as (Hn & l1 & l2 & [El|[u Hu]]);
      (split; [done|]).
    + exists l1, (l2 ++ [t]). left. cbn. rewrite <- El, <- app_assoc. done.
    + exists l1, l2. right. eauto.
Qed.

(** [notify_xchg]: the continuation is the new tail. *)
Lemma list_push g s vm t :
  list_inv g s vm → vm !! t = Some (View Inited NoSeg) →
  list_inv (extended t g) (set_tail (Some t) s) (<[t := View (push_view s) NoSeg]> vm).
Proof.
  intros Hi Ht. pose proof Hi as [].
  assert (g_loc g !! t = None) as Hloc.
  { apply eq_None_not_Some. rewrite li_pushed, Ht. done. }
  assert (pushed (push_view s) = true ∧ inited (push_view s) = true ∧ push_view s ≠ Inited) as (Hp & Hin & Hni)
    by (unfold push_view; by destruct (dg_notify_tail s)).
  assert (∀ a x, head (g_cur g) = Some a → head (g_cur g ++ x) = Some a) as Hhead by (by destruct (g_cur g)).
  split; cbn; try done.
  - intros x. rewrite elem_of_app, list_elem_of_singleton, li_cur.
    at_view t; [split; auto|]. split; [intros [?|?]; done|auto].
  - intros u l x Hl. rewrite (li_seg _ _ x Hl). at_view t; [|done]. rewrite Hloc. split; done.
  - at_view t; [done|eauto].
  - intros x. rewrite li_done. at_view t; [|done]. by rewrite Hloc.
  - intros x. destruct (decide (x = t)) as [->|].
    + rewrite !lookup_insert_eq. cbn. rewrite Hp. split; [done|eauto].
    + rewrite !lookup_insert_ne by done. apply li_pushed.
  - apply NoDup_app. split_and!; [done| |apply NoDup_singleton]. intros x Hx%li_cur ->%list_elem_of_singleton.
    congruence.
  - intros l. by apply push_chain.
  - intros x a. by apply push_link.
  - at_view t; [done|eauto].
  - at_view t; [congruence|eauto].
  - by rewrite last_snoc.
  - intros h Hh. by apply Hhead, li_head.
  - intros x Hx. unfold push_view in Hx. at_view t; [|by apply Hhead, li_first].
    destruct (dg_notify_tail s) as [prev|] eqn:Etl; [done|]. symmetry in li_tail. by apply last_None in li_tail as ->.
  - intros x h Hx. apply Hhead. at_view t; [done|]. eauto.
  - rewrite (total_upd _ _ _ _ _ Ht), !holds_eq. unfold push_view.
    destruct (dg_notify_tail s) as [prev|] eqn:Etl.
    + destruct (g_cur g) as [|x r] eqn:Ec; [done|]. cbn in *. lia.
    + symmetry in li_tail. apply last_None in li_tail as E0. rewrite E0 in li_holders |- *. cbn in *. lia.
  - at_view t; [|eauto]. simplify_eq. by apply (li_segs _ _ Ht).
  - at_view t; [done|auto].
  - intros x. rewrite li_data. at_view t; [|done]. by rewrite Ht, Hin.
Qed.

(** [notify_link]: the predecessor gets its next field. *)
Lemma list_link g s vm t a :
  list_inv g s vm → vm !! t = Some (View (Linking a) NoSeg) →
  list_inv g (set_next a t s) (<[t := View Pushed NoSeg]> vm).
Proof.
  intros Hi Ht. pose proof Hi as [].
  destruct (li_link t a) as (Hna & l1 & l2 & Ho); [by rewrite Ht|].
  assert (∀ l x, owned g l → x ∈ l → x = a ∨ x = t → l = l1 ++ a :: t :: l2) as Hsame.
  { intros l x Hl Hx Hax. apply (owned_same g s vm _ _ x); try done.
    apply elem_of_app. right. rewrite !elem_of_cons. tauto. }
  pose proof (owned_nodup _ _ _ _ Hi Ho) as Hnd.
  split; cbn; try done.
  - intros x. rewrite li_pushed. at_view t; [by rewrite Ht|done].
  - intros l Hl. destruct (decide (a ∈ l)) as [Ha|Ha].
    + rewrite (Hsame l a) by auto. apply chain_link; [done|]. by apply li_chain.
    + eapply chain_ext; [| |by apply li_chain].
      * intros x Hx. rewrite lookup_insert_ne; [done|]. by intros ->.
      * intros x y Hy. rewrite lookup_insert_ne; [done|]. intros <-. destruct Ha.
        rewrite (Hsame l t) by auto. apply elem_of_app. right. left.
  - intros x b Hx. at_view t; [done|]. destruct (li_link _ _ Hx) as (Hn & k1 & k2 & Ho').
    split; [|eauto]. rewrite lookup_insert_ne; [done|]. intros <-.
    (* the successor of a in its list is t *)
    assert (k1 ++ a :: x :: k2 = l1 ++ a :: t :: l2) as E
      by (apply (Hsame _ a); [done|apply elem_of_app; right; left|by left]).
    rewrite <- E in Hnd. by apply (successor_unique _ _ _ _ _ _ _ Hnd) in E.
  - intros u h b tl Hu. at_view t; [done|]. pose proof (li_next _ _ _ _ Hu).
    rewrite lookup_insert_ne; [done|]. congruence.
  - intros x Hx. at_view t; [done|]. rewrite lookup_insert_ne; [by apply li_inited|]. intros ->.
    assert (pushed <$> (nv <$> vm !! x) = Some true) as Hp
      by (eapply owned_pushed; [done|done|]; apply elem_of_app; right; left).
    rewrite Hx in Hp. done.
  - at_view t; [done|eauto].
  - at_view t; [done|eauto].
  - rewrite (total_upd _ _ _ _ _ Ht), !holds_eq, <- li_holders. lia.
  - at_view t; [|eauto]. simplify_eq. by apply (li_segs _ _ Ht).
  - at_view t; [done|auto].
  - intros x. rewrite li_data. at_view t; [by rewrite Ht|done].
Qed.

Lemma holds_nonneg v : 0 ≤ w_holds v.
Proof. destruct v as [n v]. rewrite holds_eq. destruct n, v; lia. Qed.

(** Whoever holds the head holds it alone. *)
Lemma sole_holder g s vm t v :
  list_inv g s vm → vm !! t = Some v → w_holds v = 1 →
  dg_notify_head s = None ∧ g_cur g ≠ [] ∧
  (∀ u v', u ≠ t → vm !! u = Some v' → w_holds v' = 0).
Proof.
  intros Hi Ht Hv. pose proof (li_holders _ _ _ Hi) as Hh.
  rewrite (total_delete _ _ _ _ Ht) in Hh. pose proof (total_nonneg w_holds (delete t vm) holds_nonneg).
  split_and!.
  - destruct (dg_notify_head s); [|done]. destruct (g_cur g); lia.
  - intros E. rewrite E in Hh. destruct (dg_notify_head s); lia.
  - intros u v' Hu Hv'. eapply (total_zero w_holds (delete t vm)); [apply holds_nonneg| |].
    + destruct (dg_notify_head s), (g_cur g); lia.
    + by rewrite lookup_delete_ne.
Qed.

(** [notify_head]: the first pusher stores the head. *)
Lemma list_store_head g s vm t :
  list_inv g s vm → vm !! t = Some (View First NoSeg) →
  list_inv g (set_head (Some t) s) (<[t := View Pushed NoSeg]> vm).
Proof.
  intros Hi Ht. destruct (sole_holder _ _ _ _ _ Hi Ht eq_refl) as (Hh & Hc & Hothers). pose proof Hi as [].
  assert (head (g_cur g) = Some t) as Hf by (apply li_first; by rewrite Ht).
  split; cbn; try done.
  - intros x. rewrite li_pushed. at_view t; [by rewrite Ht|done].
  - intros l Hl. eapply chain_ext; [done| |by apply li_chain].
    intros a b Hb. at_view t; [by rewrite Ht in *|done].
  - at_view t; [done|eauto].
  - at_view t; [done|eauto].
  - at_view t; [done|eauto].
  - intros h [= <-]. done.
  - at_view t; [done|eauto].
  - at_view t; [done|eauto].
  - rewrite (total_upd _ _ _ _ _ Ht), !holds_eq, <- li_holders, Hh. lia.
  - at_view t; [|eauto]. simplify_eq. by apply (li_segs _ _ Ht).
  - at_view t; [done|auto].
  - intros x. rewrite li_data. at_view t; [by rewrite Ht|done].
Qed.

(** The views of the continuations stay: what is left is about the segments. *)
Lemma nv_upd vm t n v v' x :
  vm !! t = Some (View n v) → nv <$> <[t := View n v']> vm !! x = nv <$> vm !! x.
Proof.
  intros Ht. destruct (decide (x = t)) as [->|]; [by rewrite lookup_insert_eq, Ht|by rewrite lookup_insert_ne].
Qed.

(** [wake_head]: the head is exchanged. *)
Lemma list_take_head g s vm t n h :
  list_inv g s vm → vm !! t = Some (View n NoSeg) → dg_notify_head s = Some h →
  list_inv g (set_head None s) (<[t := View n (Holding h)]> vm).
Proof.
  intros Hi Ht Eh. pose proof Hi as [].
  split; cbn; try done; try (intros *; rewrite ?(nv_upd _ _ _ _ _ _ Ht); by eauto).
  - intros l Hl. eapply chain_ext; [done| |by apply li_chain].
    intros a b Hb. by rewrite (nv_upd _ _ _ _ _ _ Ht).
  - at_view t; [done|eauto].
  - intros u x Hu. at_view t; [|eauto]. simplify_eq. by apply li_head.
  - rewrite (total_upd _ _ _ _ _ Ht), !holds_eq, <- li_holders, Eh. lia.
  - at_view t; [|eauto]. simplify_eq. by apply (li_segs _ _ Ht).
  - at_view t; [done|auto].
Qed.

Lemma list_no_head g s vm t n :
  list_inv g s vm → vm !! t = Some (View n NoSeg) → dg_notify_head s = None →
  list_inv g (set_head None s) (<[t := View n NoSeg]> vm).
Proof.
  intros Hi Ht Eh. apply list_same; [|done]. eapply list_ext; [|exact Hi]. unfold list_part. cbn. by rewrite Eh.
Qed.

(** The places after the tail is exchanged: the current list is a segment. *)
Definition take_all (t : tid) (p : place) : place := match p with InCur => InSeg t | q => q end.

Definition taken (t : tid) (g : ghost) : ghost :=
  Ghost [] (<[t := g_cur g]> (g_segs g)) (take_all t <$> g_loc g).

Lemma taken_loc t g x p :
  g_loc (taken t g) !! x = Some p ↔ ∃ q, g_loc g !! x = Some q ∧ take_all t q = p.
Proof. cbn. rewrite lookup_fmap_Some. naive_solver. Qed.

Lemma taken_owned t g l : owned (taken t g) l → l = [] ∨ owned g l.
Proof.
  intros [->|[u Hu]]; [by left|right]. cbn in Hu.
  apply lookup_insert_Some in Hu as [[_ <-]|[_ Hu]]; [by left|right; eauto].
Qed.

Lemma owned_taken t g l : g_segs g !! t = None → owned g l → l ≠ [] → owned (taken t g) l.
Proof.
  intros Hst [->|[u Hu]] Hl; right; cbn; [exists t; apply lookup_insert_eq|].
  exists u. rewrite lookup_insert_ne; [done|]. congruence.
Qed.

(** The segment of the taker is what was the current list. *)
Lemma taken_seg g s vm t u l x :
  list_inv g s vm → g_segs g !! t = None → g_segs (taken t g) !! u = Some l →
  x ∈ l ↔ g_loc (taken t g) !! x = Some (InSeg u).
Proof.
  intros [] Hst Hl. rewrite taken_loc. cbn in Hl. apply lookup_insert_Some in Hl as [[<- <-]|[Hu Hl]].
  - rewrite li_cur. split; [naive_solver|]. intros ([] & Hx & Hp); simplify_eq/=; [done|].
    destruct (li_seg_dom _ _ Hx) as [l Hl]. congruence.
  - rewrite (li_seg _ _ x Hl). split; [naive_solver|]. intros ([] & Hx & Hp); by simplify_eq/=.
Qed.

Lemma holding_one g s vm t n h :
  list_inv g s vm → vm !! t = Some (View n (Holding h)) → w_holds (View n (Holding h)) = 1.
Proof.
  intros Hi Ht. pose proof (li_holders _ _ _ Hi) as Hh. rewrite (total_delete _ _ _ _ Ht) in Hh.
  pose proof (total_nonneg w_holds (delete t vm) holds_nonneg). rewrite holds_eq in *.
  destruct n, (dg_notify_head s), (g_cur g); lia.
Qed.

(** Nobody holds the head once its only holder has the list. *)
Lemma taken_no_holder g s vm t n h sg x v :
  list_inv g s vm → vm !! t = Some (View n (Holding h)) → (∀ h', sg ≠ Holding h') →
  <[t := View n sg]> vm !! x = Some v → w_holds v = 0.
Proof.
  intros Hi Ht Hsg Hx. pose proof (holding_one _ _ _ _ _ _ Hi Ht) as Hone.
  destruct (sole_holder _ _ _ _ _ Hi Ht Hone) as (_ & _ & Ho).
  apply lookup_insert_Some in Hx as [[_ <-]|[? Hx]]; [|by eapply Ho].
  rewrite holds_eq in *. destruct n, sg; first [lia | by edestruct Hsg].
Qed.

Lemma not_holding n sg : w_holds (View n sg) = 0 → n ≠ First ∧ ∀ h, sg ≠ Holding h.
Proof. rewrite holds_eq. intros E. destruct n, sg; split; (done || lia). Qed.

(** [wake_tail]: the tail is exchanged, the list is taken. *)
Lemma list_take_tail g s vm t n h :
  list_inv g s vm → vm !! t = Some (View n (Holding h)) →
  list_inv (taken t g) (set_tail None s) (<[t := View n (Seg h (dg_notify_tail s))]> vm).
Proof.
  intros Hi Ht. pose proof (holding_one _ _ _ _ _ _ Hi Ht) as Hone.
  destruct (sole_holder _ _ _ _ _ Hi Ht Hone) as (Hnh & Hc & _). pose proof Hi as [].
  assert (head (g_cur g) = Some h) as Hhd by (eapply li_hold; by rewrite Ht).
  assert (g_segs g !! t = None) as Hst by (apply (li_segs _ _ Ht)).
  assert (∀ x n' v', <[t := View n (Seg h (dg_notify_tail s))]> vm !! x = Some (View n' v') →
            n' ≠ First ∧ ∀ h', v' ≠ Holding h') as Hno.
  { intros x n' v' Hx. apply not_holding. by apply (taken_no_holder _ _ _ _ _ _ _ _ _ Hi Ht) in Hx. }
  split; try done.
  - intros x. rewrite taken_loc. split; [set_solver|]. intros ([] & _ & ?); done.
  - intros u l x. by eapply taken_seg.
  - intros u x (q & Hx & Hq)%taken_loc. cbn. destruct (decide (u = t)) as [->|]; [rewrite lookup_insert_eq; eauto|].
    rewrite lookup_insert_ne by done. destruct q; simplify_eq/=. by eapply li_seg_dom.
  - intros x. rewrite taken_loc. cbn. rewrite li_done. split; [naive_solver|]. intros ([] & Hx & Hp); by simplify_eq/=.
  - intros x. cbn. rewrite lookup_fmap, fmap_is_Some, (nv_upd _ _ _ _ _ _ Ht). done.
  - constructor.
  - intros u l. cbn. intros [[_ <-]|[_ Hl]]%lookup_insert_Some; eauto.
  - intros l [->|Hl]%taken_owned; [done|]. eapply chain_ext; [done| |by apply li_chain].
    intros a b Hb. by rewrite (nv_upd _ _ _ _ _ _ Ht).
  - intros x a. rewrite (nv_upd _ _ _ _ _ _ Ht). intros Hx. destruct (li_link _ _ Hx) as (Hn & l1 & l2 & Ho).
    split; [done|]. exists l1, l2. apply owned_taken; [done..|]. by destruct l1.
  - intros u h' b tl Hu. at_view t; [done|eauto].
  - intros x. rewrite (nv_upd _ _ _ _ _ _ Ht). cbn. auto.
  - intros x. cbn. by rewrite Hnh.
  - intros x Hx. destruct (<[_ := _]> vm !! x) as [[n' v']|] eqn:E; [|done]. apply Hno in E as [? _].
    cbn in Hx. congruence.
  - intros x h' Hx. destruct (<[_ := _]> vm !! x) as [[n' v']|] eqn:E; [|done]. apply Hno in E as [_ He].
    cbn in Hx. injection Hx as Hx. by destruct (He h').
  - cbn. rewrite (total_upd _ _ _ _ _ Ht), Hnh, Hone, holds_eq. rewrite Hnh in li_holders. rewrite holds_eq in Hone.
    destruct (g_cur g); [done|]. lia.
  - intros u v. cbn. intros [[<- <-]|[Hu Hv]]%lookup_insert_Some; [rewrite lookup_insert_eq|].
    + destruct (g_cur g) as [|x r]; [done|]. cbn in Hhd. injection Hhd as ->. exists r. by rewrite li_tail.
    + rewrite lookup_insert_ne by done. by apply li_segs.
  - intros u. cbn. intros [Hu Hn]%lookup_insert_None. rewrite lookup_insert_ne by congruence. by apply li_segs_dom.
  - intros x. cbn. rewrite (nv_upd _ _ _ _ _ _ Ht). apply li_data.
Qed.

(** [wake_pop]: the next continuation of the segment is read. *)
Lemma list_pop g s vm t n h nx tl :
  list_inv g s vm → vm !! t = Some (View n (Seg h tl)) →
  (tl = Some h ∧ nx = None) ∨ (tl ≠ Some h ∧ ∃ b, do_next s !! h = Some b ∧ nx = Some b) →
  list_inv g s (<[t := View n (SegNext h nx tl)]> vm).
Proof.
  intros Hi Ht Hnx. pose proof Hi as [].
  destruct (li_segs _ _ Ht) as (r & Hr & Htl).
  assert (nx = head r ∧ (∀ b, nx = Some b → do_next s !! h = Some b)) as [Hhd Hnext].
  { destruct Hnx as [[-> ->]|(Hne & b & Hb & ->)].
    - split; [|done]. destruct r as [|b r]; [done|]. exfalso.
      pose proof (li_nodup_seg _ _ Hr) as [Hd _]%NoDup_cons. apply Hd.
      symmetry in Htl. cbn in Htl. by apply last_Some_elem_of in Htl.
    - split; [|naive_solver]. destruct r as [|b' r]; [by subst tl|].
      pose proof (li_chain (h :: b' :: r) ltac:(right; eauto)) as [Hc _]. cbn.
      destruct Hc as [?|[? _]]; congruence. }
  split; try done; try (intros *; rewrite ?(nv_upd _ _ _ _ _ _ Ht); by eauto).
  - intros l Hl. eapply chain_ext; [done| |by apply li_chain].
    intros a b Hb. by rewrite (nv_upd _ _ _ _ _ _ Ht).
  - intros u h' b tl' Hu. at_view t; [|eauto]. simplify_eq. by apply Hnext.
  - at_view t; [done|eauto].
  - rewrite (total_upd _ _ _ _ _ Ht), !holds_eq, <- li_holders. lia.
  - at_view t; [|eauto]. simplify_eq. cbn. eauto.
  - at_view t; [done|auto].
Qed.

Lemma submissions_app q l1 l2 : submissions q (l1 ++ l2) = submissions q l1 + submissions q l2.
Proof. unfold submissions. induction l1 as [|x l1 IH]; cbn; [done|]. lia. Qed.

Lemma submissions_one q q' n : submissions q [(q', n)] = is_queue q q'.
Proof. unfold submissions. cbn. lia. Qed.

(** The ghost state after the head of the segment of [t] is submitted. *)
Definition submit_ghost (t h : tid) (r : list tid) (g : ghost) : ghost :=
  Ghost (g_cur g) (match r with [] => delete t (g_segs g) | _ => <[t := r]> (g_segs g) end)
    (<[h := Submitted]> (g_loc g)).

Lemma submit_segs t h r g u l :
  g_segs (submit_ghost t h r g) !! u = Some l ↔
  (u = t ∧ l = r ∧ r ≠ []) ∨ (u ≠ t ∧ g_segs g !! u = Some l).
Proof.
  unfold submit_ghost. cbn. destruct r as [|x r].
  - rewrite lookup_delete_Some. naive_solver.
  - rewrite lookup_insert_Some. naive_solver.
Qed.

Section submit.
Context g s vm t n h nx tl r dq
  (Hi : list_inv g s vm) (Ht : vm !! t = Some (View n (SegNext h nx tl)))
  (Hr : g_segs g !! t = Some (h :: r)) (Htl : tl = last (h :: r)) (Hnx : nx = head r)
  (Hdq : dc_data s !! h = Some dq).

Lemma submit_loc_h : g_loc g !! h = Some (InSeg t).
Proof using Hi Hr. apply (li_seg _ _ _ Hi _ _ _ Hr). left. Qed.

Lemma submit_h_r : (h ∉ r) ∧ NoDup r.
Proof using Hi Hr. by pose proof (li_nodup_seg _ _ _ Hi _ _ Hr) as [? ?]%NoDup_cons. Qed.

(** The lists that are left are old ones, or the rest of the segment. *)
Lemma submit_owned l : owned (submit_ghost t h r g) l → owned g l ∧ h ∉ l ∨ l = r.
Proof using Hi Hr.
  intros [->|[u [(-> & -> & _)|[Hu Hl]]%submit_segs]]; [left|by right|left].
  - split; [by left|]. intros Hin%(li_cur _ _ _ Hi). rewrite submit_loc_h in Hin. done.
  - split; [by right; eauto|]. intros Hin%(li_seg _ _ _ Hi _ _ _ Hl). rewrite submit_loc_h in Hin. congruence.
Qed.

(** Continuations that are not linked yet are still in a list. *)
Lemma submit_link x a :
  nv <$> vm !! x = Some (Linking a) → ∃ l1 l2, owned (submit_ghost t h r g) (l1 ++ a :: x :: l2).
Proof using Hi Ht Hr Htl Hnx Hdq.
  intros Hx. destruct (li_link _ _ _ Hi _ _ Hx) as (Hn & l1 & l2 & [El|[u Hu]]).
  { exists l1, l2. by left. }
  destruct (decide (u = t)) as [->|]; [|exists l1, l2; right; exists u; apply submit_segs; by right].
  rewrite Hr in Hu. injection Hu as Hu. destruct l1 as [|y l1]; cbn in Hu; injection Hu as -> Er.
  - (* [a] is the head: its next field was read *)
    assert (do_next s !! a = Some x) as Hnext; [|congruence].
    apply (li_next _ _ _ Hi t a x tl). rewrite Ht, Hnx, Er. done.
  - exists l1, l2. right. exists t. apply submit_segs. left. split_and!; [done|done|]. rewrite Er. by destruct l1.
Qed.

Lemma list_submit :
  list_inv (submit_ghost t h r g)
    (DG (dg_value s) (dg_waiters s) (dg_sema s) (dg_notify_head s) (dg_notify_tail s) (do_next s)
       (dc_data s) (do_ref_cnt s) (submitted s ++ [(dq, h)]) (add_queue_ref dq (-1) (queue_refs s)))
    (<[t := View n (match nx with Some b => Seg b tl | None => NoSeg end)]> vm).
Proof using Hi Ht Hr Htl Hnx Hdq.
  pose proof submit_loc_h as Hh. destruct submit_h_r as [Hhr Hndr]. pose proof Hi as [].
  split; cbn [submitted g_cur g_loc submit_ghost do_next dg_notify_head dg_notify_tail dc_data queue_refs];
    try done; try (intros *; rewrite ?(nv_upd _ _ _ _ _ _ Ht); by eauto).
  - intros x. rewrite li_cur. destruct (decide (x = h)) as [->|];
      [rewrite lookup_insert_eq, Hh; done|by rewrite lookup_insert_ne].
  - intros u l x [(-> & -> & _)|[Hu Hl]]%submit_segs; (destruct (decide (x = h)) as [->|];
      [rewrite lookup_insert_eq|rewrite lookup_insert_ne by done]).
    + by split.
    + rewrite <- (li_seg _ _ x Hr), elem_of_cons. naive_solver.
    + rewrite (li_seg _ _ h Hl), Hh. split; congruence.
    + by apply li_seg.
  - intros u x [[_ ?]|[Hx Hu]]%lookup_insert_Some; [done|].
    destruct (decide (u = t)) as [->|].
    + exists r. apply submit_segs. left. split_and!; [done..|]. intros ->.
      apply (li_seg _ _ x Hr) in Hu. set_solver.
    + destruct (li_seg_dom _ _ Hu) as [l Hl]. exists l. apply submit_segs. by right.
  - intros x. rewrite fmap_app, elem_of_app, li_done. cbn. rewrite list_elem_of_singleton.
    destruct (decide (x = h)) as [->|]; [rewrite lookup_insert_eq|rewrite lookup_insert_ne by done]; naive_solver.
  - intros x. rewrite (nv_upd _ _ _ _ _ _ Ht), <- li_pushed. rewrite !is_Some_alt.
    destruct (decide (x = h)) as [->|]; [rewrite lookup_insert_eq, Hh|rewrite lookup_insert_ne by done]; done.
  - intros u l [(-> & -> & _)|[Hu Hl]]%submit_segs; eauto.
  - rewrite fmap_app. apply NoDup_app. split_and!; [done| |apply NoDup_singleton].
    intros x Hx ->%list_elem_of_singleton. apply li_done in Hx. cbn in Hx. congruence.
  - intros l Hl. apply (chain_ext (do_next s) vm); [done| |].
    + intros a b Hb. by rewrite (nv_upd _ _ _ _ _ _ Ht).
    + destruct (submit_owned _ Hl) as [[Ho _]| ->]; [by apply li_chain|].
      eapply chain_cons, li_chain. right. eauto.
  - intros x a. rewrite (nv_upd _ _ _ _ _ _ Ht). intros Hx. split; [apply (li_link _ _ Hx)|by apply submit_link].
  - intros u h' b tl' Hu. at_view t; [by destruct nx|eauto].
  - at_view t; [by destruct nx|eauto].
  - rewrite (total_upd _ _ _ _ _ Ht), !holds_eq, <- li_holders. destruct nx; lia.
  - intros u v Hv. destruct (decide (u = t)) as [->|Hu].
    + rewrite lookup_insert_eq in Hv. injection Hv as <-. subst nx. cbn. destruct r as [|b r']; cbn.
      * by rewrite lookup_delete_eq.
      * exists r'. by rewrite lookup_insert_eq.
    + rewrite lookup_insert_ne in Hv by done. cbn.
      replace (match r with [] => _ | _ => _ end !! u) with (g_segs g !! u); [by apply li_segs|].
      destruct r; [by rewrite lookup_delete_ne|by rewrite lookup_insert_ne].
  - intros u Hu. destruct (decide (u = t)) as [->|]; [by rewrite lookup_insert_eq in Hu|].
    rewrite lookup_insert_ne in Hu by done. cbn.
    destruct r; [rewrite lookup_delete_ne by done|rewrite lookup_insert_ne by done]; by apply li_segs_dom.
  - intros q x [?|Hx]%elem_of_app; [eauto|]. apply list_elem_of_singleton in Hx. by simplify_eq.
  - intros q. rewrite add_queue_ref_lookup, li_refs, submissions_app, submissions_one. lia.
Qed.
End submit.

End notify.
