(* ===== verification/DispatchGroupCorrect.v ===== *)
(** * Dispatch groups: correctness

    In every reachable state: continuations are submitted at most once, to
    their queue; the process does not abort unless calls are unbalanced.  When
    the group is empty and no call can go on, every call has returned, every
    continuation has been submitted, and all references are given back. *)

From S2P Require Import Prelude DispatchTime SyncMachine SyncKernel DispatchSemaphore DispatchGroup DispatchGroupCount DispatchGroupList DispatchGroupNotify.
Import Time Group.

(** ** Dispatch groups: the invariant of reachable states

    The counting invariant, the list of continuations and the references of the
    group, together kept by every step of every call. *)

Section group_inv.
Context {K : Type} `{KernelSemaphoreLaws K}.
Local Abbreviation group := (dispatch_group_s K).
Local Abbreviation cfg := (@config group pc).
Implicit Types (s : group) (c : cfg).

(** References the calls of wake will release. *)
Definition w_refs (p : pc) : Z :=
  match p with
  | wake_release _ n => n
  | _ => match wake_caller p with
         | Some k => (if needs_release k then 1 else 0) +
                     match sv (view_of p) with Seg _ _ | SegNext _ _ _ => 1 | _ => 0 end
         | None => 0
         end
  end.

(** References still to be taken. *)
Definition w_unretained (p : pc) : Z := match p with enter_retain | notify_retain => 1 | _ => 0 end.

Definition one_if (b : bool) : Z := if b then 1 else 0.
Definition cur_refs (g : ghost) : Z := match g_cur g with [] => 0 | _ => 1 end.

(** A nonempty group and a nonempty list have a reference on the group each. *)
Definition refs_ok (g : ghost) (c : cfg) : Prop :=
  do_ref_cnt (shared c) = one_if (0 <? dg_value (shared c)) + cur_refs g
    + total w_refs (calls c) - total w_unretained (calls c).

Record group_inv (c : cfg) : Prop := {
  gi_count : count_inv c;
  gi_list : ∃ g, list_inv g (shared c) (view_of <$> calls c) ∧ refs_ok g c;
}.

(** How one step moves the references. *)
Definition refs_step (g : ghost) s p (g' : ghost) s' p' : Prop :=
  do_ref_cnt s' - do_ref_cnt s =
    one_if (0 <? dg_value s') - one_if (0 <? dg_value s) + cur_refs g' - cur_refs g
    + (w_refs p' - w_refs p) - (w_unretained p' - w_unretained p).

Lemma wake_notify_view k seg :
  view_of (wake_notify k seg) = View (caller_view k) (seg_of seg) ∧
  w_refs (wake_notify k seg) = (if needs_release k then 1 else 0) + (match seg with Some _ => 1 | None => 0 end) ∧
  w_unretained (wake_notify k seg) = 0.
Proof. destruct seg as [[h tl]|], k; done. Qed.

Lemma wake_refs_view k :
  view_of (wake_refs k true) = View (caller_view k) NoSeg ∧
  w_refs (wake_refs k true) = (if needs_release k then 1 else 0) + 1 ∧
  w_unretained (wake_refs k true) = 0.
Proof. by destruct k. Qed.

Lemma after_wake_view k :
  view_of (after_wake k) = View (caller_view k) NoSeg ∧ w_refs (after_wake k) = 0 ∧ w_unretained (after_wake k) = 0.
Proof. by destruct k. Qed.

Lemma in_wait_view p : in_wait p = true → view_of p = View NoNode NoSeg ∧ w_refs p = 0 ∧ w_unretained p = 0.
Proof. by destruct p. Qed.

Lemma sleeping_in_wait p : sleeping p = true → in_wait p = true.
Proof. by destruct p. Qed.

(** Steps that do not touch the list. *)
Lemma list_neutral g s vm t p s' p' :
  list_inv g s vm → vm !! t = Some (view_of p) → view_of p' = view_of p → list_part s' = list_part s →
  refs_step g s p g s' p' →
  ∃ g', list_inv g' s' (<[t := view_of p']> vm) ∧ refs_step g s p g' s' p'.
Proof.
  intros Hi Ht Ev Es Hr. exists g. split; [|done]. rewrite Ev. apply list_same; [|done]. by eapply list_ext.
Qed.

Lemma seg_of_refs (seg : option (tid * option tid)) :
  match seg_of seg with Seg _ _ | SegNext _ _ _ => 1 | _ => 0 end = match seg with Some _ => 1 | None => 0 end.
Proof. by destruct seg as [[]|]. Qed.

Ltac refs_side :=
  unfold refs_step, one_if, cur_refs, w_refs; cbn [wake_caller view_of sv];
  rewrite ?seg_of_refs; cbn -[Z.ltb] in *;
  repeat match goal with |- context [0 <? ?v] => destruct (Z.ltb_spec 0 v) end; lia.

(** The steps of a wait. *)
Lemma list_wait_step g s vm t p s' p' :
  list_inv g s vm → vm !! t = Some (view_of p) → in_wait p = true → in_wait p' = true ∨ (∃ r, p' = wait_returned r) →
  list_part s' = list_part s → dg_value s' = dg_value s → do_ref_cnt s' = do_ref_cnt s →
  ∃ g', list_inv g' s' (<[t := view_of p']> vm) ∧ refs_step g s p g' s' p'.
Proof.
  intros Hi Ht Hp Hp' Es Ev Er. destruct (in_wait_view p Hp) as (Evp & Hwr & Hwu).
  assert (view_of p' = View NoNode NoSeg ∧ w_refs p' = 0 ∧ w_unretained p' = 0) as (Evp' & Hwr' & Hwu').
  { destruct Hp' as [Hp'|[r ->]]; [by apply in_wait_view|done]. }
  eapply list_neutral; try done; [congruence|]. unfold refs_step.
  rewrite Hwr, Hwu, Hwr', Hwu', Ev, Er. lia.
Qed.

(** The steps of a call of wake that leave the list alone. *)
Lemma list_wake_step g s vm t p s' p' k seg :
  list_inv g s vm → vm !! t = Some (view_of p) →
  view_of p = View (caller_view k) (seg_of seg) → w_unretained p = 0 →
  view_of p' = View (caller_view k) (seg_of seg) → w_unretained p' = 0 →
  list_part s' = list_part s → dg_value s' = dg_value s →
  do_ref_cnt s' - do_ref_cnt s = w_refs p' - w_refs p →
  ∃ g', list_inv g' s' (<[t := view_of p']> vm) ∧ refs_step g s p g' s' p'.
Proof.
  intros Hi Ht E1 E2 E3 E4 Es Ev Er. eapply list_neutral; try done; [congruence|].
  unfold refs_step. rewrite Ev, E2, E4. lia.
Qed.

(** The steps on the list, with the references. *)
Lemma list_push_step g s vm t p' :
  list_inv g s vm → vm !! t = Some (view_of notify_xchg) →
  p' = match dg_notify_tail s with Some prev => notify_link prev | None => notify_retain end →
  ∃ g', list_inv g' (set_tail (Some t) s) (<[t := view_of p']> vm) ∧
        refs_step g s notify_xchg g' (set_tail (Some t) s) p'.
Proof.
  intros Hi Ht ->. eexists. split.
  - replace (view_of _) with (View (push_view s) NoSeg) by (unfold push_view; by destruct (dg_notify_tail s)).
    by apply list_push.
  - pose proof (li_tail _ _ _ Hi) as Htl. unfold refs_step, cur_refs. cbn [g_cur extended].
    destruct (dg_notify_tail s), (g_cur g) as [|x r]; cbn in *; try done; try lia.
    symmetry in Htl. by apply last_None in Htl.
Qed.

Lemma list_take_tail_step g s vm t k h :
  list_inv g s vm → vm !! t = Some (view_of (wake_tail k h)) →
  ∃ g', list_inv g' (set_tail None s) (<[t := view_of (wake_waiters k (Some (h, dg_notify_tail s)))]> vm) ∧
        refs_step g s (wake_tail k h) g' (set_tail None s) (wake_waiters k (Some (h, dg_notify_tail s))).
Proof.
  intros Hi Ht. eexists. split; [by apply list_take_tail|].
  assert (head (g_cur g) = Some h) as Hh by (eapply (li_hold _ _ _ Hi); by rewrite Ht).
  unfold refs_step, cur_refs. cbn [g_cur w_refs wake_caller view_of sv seg_of w_unretained].
  destruct (g_cur g); [done|]. cbn. lia.
Qed.

Lemma list_submit_step g s vm t k h nx tl dq p' :
  list_inv g s vm → vm !! t = Some (view_of (wake_async k h nx tl)) → dc_data s !! h = Some dq →
  p' = match nx with Some n => wake_pop k n tl | None => wake_refs k true end →
  let s' := DG (dg_value s) (dg_waiters s) (dg_sema s) (dg_notify_head s) (dg_notify_tail s) (do_next s)
         (dc_data s) (do_ref_cnt s) (submitted s ++ [(dq, h)]) (add_queue_ref dq (-1) (queue_refs s)) in
  ∃ g', list_inv g' s' (<[t := view_of p']> vm) ∧ refs_step g s (wake_async k h nx tl) g' s' p'.
Proof.
  intros Hi Ht Hdq -> s'. destruct (li_segs _ _ _ Hi _ _ Ht) as (r & Hr & Htl & Hnx).
  destruct (wake_refs_view k) as (E1 & E2 & E3).
  exists (submit_ghost t h r g). split.
  - replace (view_of _) with (View (caller_view k) (match nx with Some b => Seg b tl | None => NoSeg end))
      by (destruct nx; [done|by rewrite E1]).
    by eapply list_submit.
  - unfold refs_step, cur_refs, s'. cbn [g_cur submit_ghost dg_value do_ref_cnt].
    destruct nx; [cbn; lia|]. rewrite E2, E3. cbn. lia.
Qed.

Lemma list_step g s vm t p s' p' :
  0 ≤ dg_value s → list_inv g s vm → vm !! t = Some (view_of p) → gstep t s p s' p' →
  ∃ g', list_inv g' s' (<[t := view_of p']> vm) ∧ refs_step g s p g' s' p'.
Proof.
  intros Hv Hi Ht Hst. destruct Hst as
    [| | | | | | | | | | | | | |p p' k nb Hp _ Hk Ha| | | | | | | | | | | | | | | | | | | | | | | |];
    try (by eapply list_wait_step; eauto using sleeping_in_wait);
    try (eapply list_neutral; [done|done|done|done|refs_side]; fail);
    try (by apply list_push_step; [done|done|case_match; by simplify_eq]).
  - eapply list_wait_step; try done.
    destruct (k_wait t nb k) as [[] ?]; cbn in Ha; subst; eauto using sleeping_in_wait.
  - eexists. split; [by apply list_init|refs_side].
  - eexists. split; [by eapply list_link|refs_side].
  - eexists. split; [by apply list_store_head|refs_side].
  - eexists. split; [by apply list_take_head|refs_side].
  - eexists. split; [by apply list_no_head|refs_side].
  - by apply list_take_tail_step.
  - destruct (wake_notify_view k seg) as (E1 & E2 & E3).
    eapply (list_wake_step _ _ _ _ _ _ _ k seg); try done. rewrite E2. cbn. rewrite seg_of_refs. lia.
  - destruct (wake_notify_view k seg) as (E1 & E2 & E3).
    eapply (list_wake_step _ _ _ _ _ _ _ k seg); try done. rewrite E2. cbn. rewrite seg_of_refs. lia.
  - eexists. split; [apply (list_pop _ _ _ _ _ _ None (Some h)); [done|done|by left]|refs_side].
  - eexists. split; [apply (list_pop _ _ _ _ _ _ (Some n) tl); [done|done|right; eauto]|refs_side].
  - by eapply list_submit_step.
  - destruct (after_wake_view k) as (E1 & E2 & E3).
    eapply (list_wake_step _ _ _ _ _ _ _ k None); try done. rewrite E2. cbn. lia.
Qed.
End group_inv.

Section correct.
Context {K : Type} `{KernelSemaphoreLaws K}.
Local Abbreviation group := (dispatch_group_s K).
Local Abbreviation cfg := (@config group pc).
Implicit Types (s : group) (c : cfg).

Local Abbreviation in_progress := (in_progress finished).
Local Abbreviation reachable := (reachable exec starts finished).
Local Abbreviation crashes := (crashes exec starts finished).
Local Abbreviation quiet := (quiet exec starts finished Sema.Go).

(** ** The invariant holds *)

Lemma group_start s m t p :
  group_inv (Cfg s m) → m !! t = None → starts p = true → in_progress (Cfg s m) < MAX_CALLS →
  group_inv (Cfg s (<[t := p]> m)).
Proof.
  intros [Hc (g & Hl & Hr)] Hm Hp Hlt. split; [by apply count_start|].
  exists g. unfold refs_ok in *. cbn in *. rewrite fmap_insert, !total_new by done.
  assert (vm : (view_of <$> m) !! t = None) by (by rewrite lookup_fmap, Hm).
  split; [|destruct p; cbn in *; done || lia].
  destruct p; try done; apply list_start; auto.
Qed.

Lemma group_step s m t ch p s' p' :
  group_inv (Cfg s m) → m !! t = Some p → exec ch t s p = Ok (Some (s', p')) →
  group_inv (Cfg s' (<[t := p']> m)).
Proof.
  intros [Hc (g & Hl & Hr)] Hm Hx.
  assert (gstep t s p s' p') as Hst.
  { eapply exec_gstep; [apply (ci_value _ Hc)|apply (waiters_bound _ Hc)|by eapply (ci_pc _ Hc)|done]. }
  split; [by eapply count_step|].
  destruct (list_step g s (view_of <$> m) t p s' p') as (g' & Hl' & Hr'); try done.
  { apply (ci_value _ Hc). }
  { by rewrite lookup_fmap, Hm. }
  exists g'. cbn. rewrite fmap_insert. split; [done|]. unfold refs_ok, refs_step in *. cbn in *.
  upd_totals Hm. lia.
Qed.

Lemma group_init n : n = 0 ∨ n = 1 → group_inv (Cfg (_dispatch_group_create_with_count n) ∅).
Proof.
  intros Hn. assert (∀ w : pc → Z, total w ∅ = 0) as H0' by apply total_empty. split.
  - split; unfold registered, posts, SyncMachine.in_progress; cbn; rewrite ?H0'; try done; try lia.
  - exists (Ghost [] ∅ ∅). split.
    + split; cbn; try done; try (intros; rewrite ?lookup_empty in *; done); try constructor.
      all: intros *; rewrite ?fmap_empty, ?lookup_empty; try done; try set_solver.
      by intros [->|[u Hu]].
    + unfold refs_ok. cbn. rewrite !H0'. by destruct Hn as [-> | ->].
Qed.

Lemma group_reachable n c :
  n = 0 ∨ n = 1 → reachable (_dispatch_group_create_with_count n) c → group_inv c.
Proof.
  intros Hn. apply machine_inv; [by apply group_init|apply group_start|intros; by eapply group_step].
Qed.

(** ** Quiet states *)

(** A call that does not go on sleeps, or spins on a link that is not set. *)
Definition spins (s : group) (p : pc) : Prop :=
  match p with wake_pop _ h tl => tl ≠ Some h ∧ do_next s !! h = None | _ => False end.

Lemma group_goes_on s t p :
  finished p = false → exec Sema.Go t s p = Ok None → sleeping p = true ∨ spins s p.
Proof.
  destruct p; cbn; try done; intros _;
    unfold enter_step, leave_step, wait_check_step, wait_slow_check_step, wait_register_step,
      wait_recheck_step, notify_init_step, notify_xchg_step, notify_check_step, wake_head_step,
      wake_tail_step, wake_waiters_step, wake_signal_step, wake_pop_step, wake_async_step,
      undo_cas_step, sema_create_step, timedwait_step, sema_wait_step, Sema.kernel_call, with_sema, goes; try by left.
  all: try (repeat case_match; done).
  case_bool_decide; [done|]. case_match; [done|]. intros _. right. split; [congruence|done].
Qed.

Lemma quiet_call c t p :
  quiet c → calls c !! t = Some p → finished p = true ∨ sleeping p = true ∨ spins (shared c) p.
Proof.
  intros Hq Hp. destruct (finished p) eqn:Ef; [by left|right]. eapply (group_goes_on _ t); [done|].
  specialize (Hq t). unfold blocked in Hq. cbn in Hq. rewrite Hp in Hq.
  destruct (exec Sema.Go t (shared c) p) as [[[]|]|]; done.
Qed.

(** Nobody spins: the call that has to set the link can go on. *)
Lemma quiet_no_spin c t p : group_inv c → quiet c → calls c !! t = Some p → ¬ spins (shared c) p.
Proof.
  intros Hi Hq Hp Hs. destruct p; try done. destruct Hs as [Htl Hn].
  destruct (gi_list _ Hi) as (g & Hl & _).
  assert ((view_of <$> calls c) !! t = Some (View (caller_view k) (Seg head tail))) as Hv
    by (by rewrite lookup_fmap, Hp).
  destruct (li_segs _ _ _ Hl _ _ Hv) as (r & Hr & Hlast).
  destruct r as [|b r]; [by subst tail|].
  destruct (li_chain _ _ _ Hl (head :: b :: r)) as [[Hb|[_ Hb]] _]; [right; eauto|congruence|].
  rewrite lookup_fmap in Hb. destruct (calls c !! b) as [q|] eqn:Eq; [|done].
  destruct (quiet_call _ _ _ Hq Eq) as [Hf|[Hf|Hf]]; destruct q; cbn in *; try done; by destruct k0.
Qed.

Lemma quiet_done c t p : group_inv c → quiet c → calls c !! t = Some p → finished p = true ∨ sleeping p = true.
Proof.
  intros Hi Hq Hp. destruct (quiet_call _ _ _ Hq Hp) as [?|[?|Hs]]; auto.
  by destruct (quiet_no_spin _ _ _ Hi Hq Hp).
Qed.

(** Nobody sleeps on an empty group. *)
Lemma quiet_finished c t p :
  group_inv c → quiet c → dg_value (shared c) = 0 → calls c !! t = Some p → finished p = true.
Proof.
  intros Hi Hq Hv Hp. destruct (quiet_done _ _ _ Hi Hq Hp) as [?|Hs]; [done|exfalso].
  assert (∀ w, (∀ q, finished q = true ∨ sleeping q = true → w q = 0) → total w (calls c) = 0) as Hz.
  { intros w Hw. rewrite (total_ext _ (λ _, 0)); [|intros u q Hu; apply Hw; by eapply quiet_done].
    by apply total_ind; [|intros]. }
  destruct (gi_count _ Hi) as [_ Hnn Hreg _ Hok Hsl _ _ Hlooks _].
  assert (dg_waiters (shared c) = 0) as Hw.
  { apply Z.le_antisymm; [|done]. apply Z.nlt_ge. intros Hlt. specialize (Hlooks Hlt Hv).
    rewrite Hz in Hlooks; [lia|]. intros q [?|?]; by destruct q. }
  assert (posts c = 0) as Hpo by (apply Hz; intros q [?|?]; by destruct q).
  assert (w_registered p = 1) as H1 by (by destruct p).
  assert (1 ≤ registered c) as Hge.
  { unfold registered. rewrite <- H1. eapply total_ge; [apply w_registered_01|done]. }
  assert (t ∈ sema_sleepers (dg_sema (shared c))) as Hin by (apply Hsl; by rewrite Hp).
  destruct (dg_sema (shared c)) as [k|] eqn:Ek; [|done].
  rewrite sema_Some_ok, sema_Some_tokens, sema_Some_sleepers in *.
  destruct (k_progress k Hok ltac:(lia)) as (u & Hu & [k' Hr]); [set_solver|].
  apply Hsl in Hu. destruct (calls c !! u) as [q|] eqn:Eq; [|done]. cbn in Hu.
  specialize (Hq u). unfold blocked in Hq. cbn in Hq. rewrite Eq in Hq.
  destruct q; try done; cbn in Hq; unfold timedwait_asleep_step, sema_asleep_step, Sema.kernel_call, with_sema in Hq;
    rewrite Ek, Hr in Hq; done.
Qed.

(** The list is empty when all calls have returned and the group is empty. *)
Lemma finished_list c g :
  count_inv c → list_inv g (shared c) (view_of <$> calls c) → dg_value (shared c) = 0 →
  (∀ t p, calls c !! t = Some p → finished p = true) →
  g_cur g = [] ∧ (∀ n, is_Some (dc_data (shared c) !! n) → n ∈ (submitted (shared c)).*2).
Proof.
  intros Hc Hl Hv Hf.
  assert (∀ t v, (view_of <$> calls c) !! t = Some v → sv v = NoSeg ∧ w_holds v = 0 ∧
            (inited (nv v) = true → pushed (nv v) = true)) as Hview.
  { intros t v. rewrite lookup_fmap. destruct (calls c !! t) as [p|] eqn:Ep; [|done].
    intros [= <-]. specialize (Hf _ _ Ep). by destruct p. }
  assert (dg_notify_head (shared c) = None) as Hh.
  { destruct (dg_notify_head (shared c)) as [h|] eqn:E; [|done]. exfalso.
    pose proof (ci_looks_head _ Hc) as Hk. rewrite E in Hk. specialize (Hk ltac:(done) Hv).
    destruct (total_pos _ _ Hk) as (t & p & Hp & Hw). specialize (Hf _ _ Hp). by destruct p. }
  assert (g_cur g = []) as Hcur.
  { pose proof (li_holders _ _ _ Hl) as Hs. rewrite Hh in Hs.
    rewrite (total_ext _ (λ _, 0)) in Hs by (intros t v Hvw; apply (Hview _ _ Hvw)).
    assert (total (λ _ : view, 0) (view_of <$> calls c) = 0) as Hz by (by apply total_ind; [|intros]).
    destruct (g_cur g); [done|lia]. }
  split; [done|]. intros n Hn. apply (li_data _ _ _ Hl) in Hn.
  destruct ((view_of <$> calls c) !! n) as [v|] eqn:Ev; [|done]. cbn in Hn. injection Hn as Hn.
  destruct (Hview _ _ Ev) as (_ & _ & Hpu).
  assert (is_Some (g_loc g !! n)) as [q Hq].
  { apply (li_pushed _ _ _ Hl). rewrite Ev. cbn. by rewrite Hpu. }
  apply (li_done _ _ _ Hl). rewrite Hq. f_equal. destruct q as [|u|]; [| |done]; exfalso.
  - apply (li_cur _ _ _ Hl) in Hq. rewrite Hcur in Hq. set_solver.
  - destruct (li_seg_dom _ _ _ Hl _ _ Hq) as [l Hlu].
    destruct ((view_of <$> calls c) !! u) as [v'|] eqn:Ev'.
    + pose proof (li_segs _ _ _ Hl _ _ Ev') as Hsv. destruct (Hview _ _ Ev') as [E _]. rewrite E in Hsv.
      cbn in Hsv. congruence.
    + rewrite (li_segs_dom _ _ _ Hl _ Ev') in Hlu. done.
Qed.

(** ** Theorems *)

(** C3. When the group is empty and no call can go on, every call has returned: no
    wait is left asleep; every continuation that was registered has been
    submitted to its queue exactly once; the group and the queues have no
    reference too many or too few. *)
Theorem group_quiescent n c :
  n = 0 ∨ n = 1 → reachable (_dispatch_group_create_with_count n) c → quiet c →
  dg_value (shared c) = 0 →
  (∀ t p, calls c !! t = Some p → finished p = true) ∧
  NoDup (submitted (shared c)).*2 ∧
  (∀ q t, dc_data (shared c) !! t = Some q ↔ (q, t) ∈ submitted (shared c)) ∧
  do_ref_cnt (shared c) = 0.
Proof.
  intros Hn Hr Hq Hv. pose proof (group_reachable _ _ Hn Hr) as Hi.
  assert (∀ t p, calls c !! t = Some p → finished p = true) as Hf by (intros; by eapply quiet_finished).
  destruct (gi_list _ Hi) as (g & Hl & Hrefs).
  destruct (finished_list _ _ (gi_count _ Hi) Hl Hv Hf) as [Hcur Hdone].
  split_and!; [done|apply Hl| |].
  - intros q t. split; [|apply Hl]. intros Hd.
    pose proof (Hdone t (ex_intro _ _ Hd)) as ([q' t'] & Et & Hy)%list_elem_of_fmap. cbn in Et. subst t'.
    pose proof (li_queue _ _ _ Hl _ _ Hy). congruence.
  - unfold refs_ok in Hrefs. rewrite Hrefs, Hv. unfold cur_refs. rewrite Hcur.
    rewrite (total_ext w_refs (λ _, 0)) by (intros t p Hp; specialize (Hf _ _ Hp); by destruct p).
    rewrite (total_ext w_unretained (λ _, 0)) by (intros t p Hp; specialize (Hf _ _ Hp); by destruct p).
    cbn. assert (total (λ _ : pc, 0) (calls c) = 0) as ->; [by apply total_ind; [|intros]|done].
Qed.

(** C28. A continuation is submitted at most once, and only to the queue it was
    registered with, whatever the interleaving of notifiers and wakers. *)
Theorem group_notify_once n c :
  n = 0 ∨ n = 1 → reachable (_dispatch_group_create_with_count n) c →
  NoDup (submitted (shared c)).*2 ∧
  (∀ q t, (q, t) ∈ submitted (shared c) → dc_data (shared c) !! t = Some q) ∧
  (∀ q, default 0 (queue_refs (shared c) !! q)
        = total (is_queue q) (dc_data (shared c)) - submissions q (submitted (shared c))).
Proof.
  intros Hn Hr. destruct (gi_list _ (group_reachable _ _ Hn Hr)) as (g & Hl & _). split_and!; apply Hl.
Qed.




End correct.
