(* ===== verification/DispatchGroupWitness.v ===== *)
(** * Dispatch groups: runs on the kernel's semaphores

    Concrete schedules on [MachSemaphore]: the hypotheses of the theorems of
    DispatchGroupCorrect.v and of this file hold of them; and a run in
    which a wait returns 0 although the group was never empty during it. *)

From S2P Require Import Prelude DispatchTime SyncMachine SyncKernel MachSema DispatchSemaphore DispatchGroup DispatchGroupCount DispatchGroupList DispatchGroupCorrect.
Import Time Group.

(** ** Dispatch groups: nothing happens early

    As long as no [dispatch_group_leave] has taken the value of a group that was
    entered at its creation to 0, no wait succeeds and no continuation is
    submitted. *)

Section early.
Context {K : Type} `{KernelSemaphoreLaws K}.
Local Abbreviation group := (dispatch_group_s K).
Local Abbreviation cfg := (@config group pc).
Implicit Types (s : group) (c : cfg).

Local Abbreviation reachable := (reachable exec starts finished).

(** A call of [dispatch_group_leave] that saw the value become 0. *)
Definition emptied (p : pc) : bool :=
  match p with
  | leave_returned b => b
  | _ => match wake_caller p with Some By_leave => true | _ => false end
  end.

(** Neither in [_dispatch_group_wake] nor returned with success. *)
Definition idle (p : pc) : bool :=
  match p with
  | wait_returned r => negb (r =? 0)
  | _ => match wake_caller p with Some _ => false | None => true end
  end.

Definition untouched (c : cfg) : Prop :=
  1 ≤ dg_value (shared c) ∧ submitted (shared c) = [] ∧ sema_tokens (dg_sema (shared c)) = 0 ∧
  ∀ t p, calls c !! t = Some p → idle p = true.

Lemma emptied_stays t s p s' p' : gstep t s p s' p' → emptied p = true → emptied p' = true.
Proof.
  destruct 1 as [| | | | | | | | | | | | | |p ? ? ? Hw|p ? ? Hw|p ? ? ? Hw|p ? Hw ? ?| | | | | | | | | | | | | | | | | | | | |];
    cbn; try done; try (by destruct p).
  all: try (by destruct k; try done; repeat case_match).
  all: try (destruct k; try done; by destruct seg as [[? ?]|]).
Qed.

Lemma in_wait_idle p : in_wait p = true → idle p = true.
Proof. by destruct p. Qed.
Lemma sleeping_idle p : sleeping p = true → idle p = true.
Proof. by destruct p. Qed.

(** A step of a call that is idle leaves the group untouched, or empties it. *)
Lemma idle_step s m t p s' p' :
  count_inv (Cfg s m) → m !! t = Some p → gstep t s p s' p' → untouched (Cfg s m) →
  emptied p' = true ∨
  (1 ≤ dg_value s' ∧ submitted s' = [] ∧ sema_tokens (dg_sema s') = 0 ∧ idle p' = true).
Proof.
  intros Hc Hm Hg (Hv & Hs & Hk & Hi). cbn in *. specialize (Hi _ _ Hm).
  pose proof (ci_sema _ Hc) as Hok. pose proof (ci_sleep _ Hc) as Hsl. cbn in Hok, Hsl.
  destruct Hg; try done; try lia; try (by left); try (right; cbn; split_and!; try done; lia);
    try (by right; cbn; split_and!; auto using in_wait_idle).
  - destruct (sema_create_ok _ Hok) as (_ & E & _). right. cbn. rewrite E. auto using in_wait_idle.
  - assert (t ∉ sleepers k) as Hns by (open_sema H3 Hsl; by eapply sleep_not_in).
    open_sema H3 Hok. open_sema H3 Hk. destruct (k_wait_ok t nb k Hok Hns) as [Hok' Ha].
    pose proof (tokens_nonneg _ Hok'). right. cbn. rewrite sema_Some_tokens.
    destruct (k_wait t nb k) as [[] k']; cbn in *; [lia| |]; subst; split_and!; try done; try lia.
    by apply sleeping_idle.
  - open_sema H2 Hok. open_sema H2 Hk. destruct (k_resume_ok _ _ _ Hok H3) as (Hok' & Ht & _).
    pose proof (tokens_nonneg _ Hok'). lia.
  - open_sema H2 Hok. open_sema H2 Hk. destruct (k_expire_ok _ _ _ Hok H3) as (Hok' & Ht & _).
    right. cbn. rewrite sema_Some_tokens. split_and!; auto using in_wait_idle. lia.
Qed.

Definition early_inv (c : cfg) : Prop :=
  group_inv c ∧ ((∃ t p, calls c !! t = Some p ∧ emptied p = true) ∨ untouched c).

Lemma early_start s m t p :
  early_inv (Cfg s m) → m !! t = None → starts p = true → in_progress finished (Cfg s m) < MAX_CALLS →
  early_inv (Cfg s (<[t := p]> m)).
Proof.
  intros [Hi He] Hm Hp Hlt. split; [by apply group_start|]. cbn in *. destruct He as [(u & q & Hu & Hq)|Hu].
  - left. exists u, q. by rewrite lookup_insert_ne by congruence.
  - right. destruct Hu as (Hv & Hs & Hk & Hd). split_and!; try done. cbn. intros u q.
    rewrite lookup_insert. case_decide; [|apply Hd]. intros [= <-]. by destruct p.
Qed.

Lemma early_step s m t ch p s' p' :
  early_inv (Cfg s m) → m !! t = Some p → exec ch t s p = Ok (Some (s', p')) →
  early_inv (Cfg s' (<[t := p']> m)).
Proof.
  intros [Hi He] Hm Hx. split; [by eapply group_step|]. pose proof (gi_count _ Hi) as Hc.
  assert (gstep t s p s' p') as Hg.
  { eapply exec_gstep; [apply (ci_value _ Hc)|apply (waiters_bound _ Hc)|by eapply (ci_pc _ Hc)|done]. }
  cbn in *. destruct He as [(u & q & Hu & Hq)|Hu].
  - left. destruct (decide (u = t)) as [->|].
    + exists t, p'. rewrite lookup_insert_eq. split; [done|]. simplify_eq. by eapply emptied_stays.
    + exists u, q. by rewrite lookup_insert_ne by congruence.
  - destruct (idle_step _ _ _ _ _ _ Hc Hm Hg Hu) as [He|(Hv & Hs & Hk & Hd)].
    { left. exists t, p'. by rewrite lookup_insert_eq. }
    right. split_and!; try done. cbn. intros u q. rewrite lookup_insert. case_decide; [|apply Hu].
    by intros [= <-].
Qed.

Lemma early_init : early_inv (Cfg _dispatch_group_create_and_enter ∅).
Proof.
  split; [apply group_init; by right|]. by right.
Qed.

(** C29. A group entered at its creation: unless some call of
    [dispatch_group_leave] took the value from 1 to 0, the group is not empty,
    no [dispatch_group_wait] has returned 0 and no continuation has been
    submitted, in any interleaving of any number of calls. *)
Theorem group_not_early c :
  reachable _dispatch_group_create_and_enter c →
  (∀ t p, calls c !! t = Some p → emptied p = false) →
  1 ≤ dg_value (shared c) ∧ submitted (shared c) = [] ∧
  ∀ t r, calls c !! t = Some (wait_returned r) → r = Sema._DSEMA4_TIMEOUT.
Proof.
  intros Hr Hn.
  assert (early_inv c) as [Hi He].
  { revert Hr. apply machine_inv; [apply early_init|apply early_start|intros; by eapply early_step]. }
  destruct He as [(t & p & Ht & Hp)|(Hv & Hs & _ & Hd)]; [specialize (Hn _ _ Ht); congruence|].
  split_and!; try done. intros t r Ht. specialize (Hd _ _ Ht).
  destruct (ci_pc _ (gi_count _ Hi) _ _ Ht) as [->|]; done.
Qed.
End early.

Local Abbreviation Go := Sema.Go.
Local Abbreviation after := (after exec starts finished).
Local Abbreviation gcfg := (@config (dispatch_group_s semaphore) pc).

Definition runs (n : nat) (t : tid) : list (event (P := pc) (C := Sema.choice)) := replicate n (Run t Go).

(** Two continuations and a sleeping wait, then the leave that empties the group. *)
Definition two_notified : list event :=
  [Start 1 (notify_init 7)] ++ runs 5 1 ++
  [Start 2 (notify_init 9)] ++ runs 3 2 ++
  [Start 3 (wait_check DISPATCH_TIME_FOREVER)] ++ runs 6 3.

Definition all_notified : list event :=
  two_notified ++ [Start 4 leave_dec] ++ runs 11 4 ++ runs 1 3.

Definition before_leave : gcfg := after two_notified _dispatch_group_create_and_enter.
Definition after_leave : gcfg := after all_notified _dispatch_group_create_and_enter.

Lemma before_leave_reachable : reachable exec starts finished _dispatch_group_create_and_enter before_leave.
Proof. apply (run_reachable _ _ _ two_notified). vm_compute. reflexivity. Qed.

Lemma after_leave_reachable : reachable exec starts finished _dispatch_group_create_and_enter after_leave.
Proof. apply (run_reachable _ _ _ all_notified). vm_compute. reflexivity. Qed.

Lemma group_quiescent_witness :
  (∀ t p, calls after_leave !! t = Some p → finished p = true) ∧
  NoDup (submitted (shared after_leave)).*2 ∧
  (∀ q t, dc_data (shared after_leave) !! t = Some q ↔ (q, t) ∈ submitted (shared after_leave)) ∧
  do_ref_cnt (shared after_leave) = 0.
Proof.
  apply (group_quiescent 1); [by right|apply after_leave_reachable| |vm_compute; reflexivity].
  apply quietb_quiet. vm_compute. reflexivity.
Defined.

Lemma group_notify_once_witness :
  NoDup (submitted (shared after_leave)).*2 ∧
  (∀ q t, (q, t) ∈ submitted (shared after_leave) → dc_data (shared after_leave) !! t = Some q) ∧
  (∀ q, default 0 (queue_refs (shared after_leave) !! q)
        = total (is_queue q) (dc_data (shared after_leave)) - submissions q (submitted (shared after_leave))).
Proof. apply (group_notify_once 1); [by right|apply after_leave_reachable]. Defined.

(** A leave too many. *)
Definition unbalanced : gcfg := after (all_notified ++ [Start 5 leave_dec]) _dispatch_group_create_and_enter.



(** Both sides hold there. *)
Example leave_too_many : do_event exec starts finished (Run 5 Go) unbalanced = Crash CLIENT_CRASH.
Proof. vm_compute. reflexivity. Qed.

Definition emptiedb (c : gcfg) : bool := existsb (λ tp, emptied tp.2) (map_to_list (calls c)).

Lemma emptiedb_false c : emptiedb c = false → ∀ t p, calls c !! t = Some p → emptied p = false.
Proof.
  intros He t p Hp. destruct (emptied p) eqn:E; [|done]. rewrite <- He. symmetry. apply existsb_exists.
  exists (t, p). by rewrite <- list_elem_of_In, elem_of_map_to_list.
Qed.

Lemma group_not_early_witness :
  1 ≤ dg_value (shared before_leave) ∧ submitted (shared before_leave) = [] ∧
  ∀ t r, calls before_leave !! t = Some (wait_returned r) → r = Sema._DSEMA4_TIMEOUT.
Proof.
  apply group_not_early; [apply before_leave_reachable|]. apply emptiedb_false. vm_compute. reflexivity.
Defined.

(** ** A wait that returns early *)

(** Call 1 takes the value to 0 and is preempted before it exchanges the
    waiters; call 2 enters again; call 3 waits, registers and sleeps; then call 1
    wakes it. *)
Definition late_wake : list event :=
  [Start 1 leave_dec; Run 1 Go; Start 2 enter_inc; Run 2 Go; Run 2 Go;
   Start 3 (wait_check DISPATCH_TIME_FOREVER)] ++ runs 6 3 ++ runs 4 1 ++ [Run 3 Go].

Definition at_event (i : nat) : gcfg := after (take i late_wake) _dispatch_group_create_and_enter.

(** The wait of call 3 starts at event 5 and returns 0 at event 17; at each point
    in between the group has one member. *)
Theorem group_wait_can_return_early :
  reachable exec starts finished _dispatch_group_create_and_enter (at_event 17) ∧
  late_wake !! 5%nat = Some (Start 3 (wait_check DISPATCH_TIME_FOREVER)) ∧
  calls (at_event 17) !! 3%positive = Some (wait_returned 0) ∧
  Forall (λ i, dg_value (shared (at_event i)) = 1) (seq 5 13).
Proof.
  split_and!; try reflexivity.
  - apply (run_reachable _ _ _ late_wake). vm_compute. reflexivity.
  - repeat constructor.
Qed.
