(* ===== verification/DispatchOnce.v ===== *)
(** * dispatch_once with a list of waiters: definitions

    Model of src/libdispatch-913.60.2/src/once.c in the build without gates
    ([DISPATCH_GATE_USE_FOR_DISPATCH_ONCE] 0), with the thread events of
    shims/lock.h and shims/lock.c on top of [__ulock_wait] and [__ulock_wake]
    (SyncKernel.v).  Each call of [dispatch_once_f_slow] has a record [dow] on
    its stack, named by the call: it exists in [nodes] from the entry of the
    function to its return, and an access to one that is gone is
    [Crash BAD_ACCESS]. *)

From S2P Require Import Prelude SyncMachine SyncKernel.

Module Once.

Definition UINT32_MAX : Z := 2 ^ 32 - 1.

(** The predicate: [NULL], the newest waiter, or [DISPATCH_ONCE_DONE]. *)
Inductive pred := ONCE_NULL | ONCE_WAITER (t : tid) | ONCE_DONE.

#[export] Instance pred_eq_dec : EqDecision pred.
Proof. solve_decision. Defined.

(** [struct _dispatch_once_waiter_s]; a thread is named by its call. *)
Record _dispatch_once_waiter_s := Dow {
  dow_next : option tid;
  dte_value : Z;
  dow_thread : option tid;
}.

Record once_s (U : Type) := OnceS {
  once_val : pred;
  nodes : gmap tid _dispatch_once_waiter_s;
  kern : U;
  started : nat;    (* calls of [func] *)
  completed : nat;  (* returns of [func] *)
}.
Arguments OnceS {U}.
Arguments once_val {U}.
Arguments nodes {U}.
Arguments kern {U}.
Arguments started {U}.
Arguments completed {U}.

(** [Failed]: the system call fails; [Hangs]: the function does not return, for
    instance because it calls [dispatch_once] on the same token, as the comment at
    the callout says. *)
Inductive choice := Go | Failed (err : errno) | Hangs.

Inductive pc :=
(* dispatch_once_f *)
| once_check
| once_enter
| once_returned
(* the caller that runs the function *)
| run_thread
| run_callout
| run_calling
| run_hung
| run_done
| run_next (next : tid)
| run_signal (node next : tid)
| run_wake (node next : tid)
(* the others *)
| wait_init
| wait_swap (next : pred)
| wait_thread (next : tid)
| wait_link (next : tid)
| wait_event
| event_load
| event_wait
| event_asleep
| wait_leave.

Section model.
Context {U : Type} `{AddressWaiter U}.

Local Abbreviation state := (once_s U).
Local Abbreviation result := (outcome (option (state * pc))).

(** A token that was never used: [static dispatch_once_t once]. *)
Definition once_init : state := OnceS ONCE_NULL ∅ u_empty 0 0.

Definition set_val (v : pred) (s : state) : state := OnceS v (nodes s) (kern s) (started s) (completed s).
Definition set_node (t : tid) (n : _dispatch_once_waiter_s) (s : state) : state :=
  OnceS (once_val s) (<[t := n]> (nodes s)) (kern s) (started s) (completed s).
Definition pop_frame (t : tid) (s : state) : state :=
  OnceS (once_val s) (delete t (nodes s)) (kern s) (started s) (completed s).
Definition set_kern (u : U) (s : state) : state := OnceS (once_val s) (nodes s) u (started s) (completed s).

Definition goes (s : state) (p : pc) : result := Ok (Some (s, p)).

(** An access through a pointer to a waiter. *)
Definition with_node (t : tid) (s : state) (f : _dispatch_once_waiter_s → result) : result :=
  match nodes s !! t with Some n => f n | None => Crash BAD_ACCESS end.

(** [os_atomic_load(val) == DLOCK_ONCE_DONE]; then the frame of the slow function. *)
Definition check_step (t : tid) (s : state) : result :=
  if decide (once_val s = ONCE_DONE) then goes s once_returned
  else goes (set_node t (Dow None 0 None) s) once_enter.

(** [os_atomic_cmpxchg(vval, NULL, tail)] *)
Definition enter_step (t : tid) (s : state) : result :=
  if decide (once_val s = ONCE_NULL) then goes (set_val (ONCE_WAITER t) s) run_thread
  else goes s wait_init.

Definition thread_step (t : tid) (s : state) : result :=
  with_node t s (λ n, goes (set_node t (Dow (dow_next n) (dte_value n) (Some t)) s) run_callout).

(** [_dispatch_client_callout] *)
Definition callout_step (s : state) : result :=
  goes (OnceS (once_val s) (nodes s) (kern s) (S (started s)) (completed s)) run_calling.
Definition calling_step (c : choice) (s : state) : result :=
  match c with
  | Hangs => goes s run_hung
  | _ => goes (OnceS (once_val s) (nodes s) (kern s) (started s) (S (completed s))) run_done
  end.

(** [while (next != tail)] *)
Definition walk (t next : tid) (s : state) : result :=
  if decide (next = t) then goes (pop_frame t s) once_returned else goes s (run_next next).

(** [_dispatch_once_xchg_done] *)
Definition done_step (t : tid) (s : state) : result :=
  match once_val s with
  | ONCE_WAITER next => walk t next (set_val ONCE_DONE s)
  | ONCE_NULL => Crash NULL_DEREFERENCE
  | ONCE_DONE => Crash BAD_ACCESS
  end.

(** [_dispatch_wait_until(next->dow_next)] *)
Definition next_step (next : tid) (s : state) : result :=
  with_node next s (λ n,
    match dow_next n with Some tmp => goes s (run_signal next tmp) | None => Ok None end).

(** [_dispatch_thread_event_signal] *)
Definition signal_step (t node next : tid) (s : state) : result :=
  with_node node s (λ n,
    let s' := set_node node (Dow (dow_next n) (u32 (dte_value n + 1)) (dow_thread n)) s in
    if dte_value n =? 0 then walk t next s' else goes s' (run_wake node next)).

(** [_dispatch_thread_event_signal_slow]: the address is used, not the memory. *)
Definition wake_step (c : choice) (t node next : tid) (s : state) : result :=
  match c with
  | Failed err => match dispatch_wake_error err with Some r => Crash r | None => goes s (run_wake node next) end
  | _ => walk t next (set_kern (u_wake node false (kern s)) s)
  end.

(** [_dispatch_thread_event_init]; [next = *vval] *)
Definition init_step (t : tid) (s : state) : result :=
  with_node t s (λ n, goes (set_node t (Dow (dow_next n) 0 (dow_thread n)) s) (wait_swap (once_val s))).

(** One round of [for (;;)]. *)
Definition swap_step (t : tid) (next : pred) (s : state) : result :=
  match next with
  | ONCE_DONE => goes s wait_leave
  | _ =>
      if decide (once_val s = next) then
        match next with
        | ONCE_WAITER n => goes (set_val (ONCE_WAITER t) s) (wait_thread n)
        | _ => Crash NULL_DEREFERENCE
        end
      else goes s (wait_swap (once_val s))
  end.

(** [dow.dow_thread = next->dow_thread] *)
Definition wait_thread_step (t next : tid) (s : state) : result :=
  with_node next s (λ n,
    with_node t s (λ m, goes (set_node t (Dow (dow_next m) (dte_value m) (dow_thread n)) s) (wait_link next))).

(** [dow.dow_next = next] *)
Definition link_step (t next : tid) (s : state) : result :=
  with_node t s (λ n, goes (set_node t (Dow (Some next) (dte_value n) (dow_thread n)) s) wait_event).

(** [_dispatch_thread_event_wait] *)
Definition event_step (t : tid) (s : state) : result :=
  with_node t s (λ n,
    let v := u32 (dte_value n - 1) in
    goes (set_node t (Dow (dow_next n) v (dow_thread n)) s) (if v =? 0 then wait_leave else event_load)).

(** [_dispatch_thread_event_wait_slow] *)
Definition event_load_step (t : tid) (s : state) : result :=
  with_node t s (λ n,
    if dte_value n =? 0 then goes s wait_leave
    else if dte_value n =? UINT32_MAX then goes s event_wait
    else Crash CLIENT_CRASH).

(** [_dispatch_ulock_wait] with an error: [EINTR] repeats the system call; of the
    errors that are returned the assertion admits [EFAULT].  The record of a call
    has one waiter, so the result is never [ENOTEMPTY]. *)
Definition event_error (err : errno) : outcome pc :=
  match dispatch_wait_error err with
  | Some r => Crash r
  | None => match err with EINTR => Ok event_wait | EFAULT => Ok event_load | _ => Crash ASSERT_FAILED end
  end.

Definition event_wait_step (c : choice) (t : tid) (s : state) : result :=
  match c with
  | Failed err => match event_error err with Ok p => goes s p | Crash r => Crash r end
  | _ =>
      with_node t s (λ n,
        if dte_value n =? UINT32_MAX then goes (set_kern (u_sleep t t (kern s)) s) event_asleep
        else goes s event_load)
  end.

(** The system call returns. *)
Definition asleep_step (c : choice) (t : tid) (s : state) : result :=
  let back (failed : bool) (p : pc) :=
    match u_return t failed (kern s) with Some u => goes (set_kern u s) p | None => Ok None end in
  match c with
  | Failed err => match event_error err with Ok p => back true p | Crash r => Crash r end
  | _ => back false event_load
  end.

(** [_dispatch_thread_event_destroy] and the end of the function. *)
Definition leave_step (t : tid) (s : state) : result :=
  with_node t s (λ n,
    if dte_value n =? 0 then goes (pop_frame t s) once_returned else Crash ASSERT_FAILED).

Definition exec (c : choice) (t : tid) (s : state) (p : pc) : result :=
  match p with
  | once_check => check_step t s
  | once_enter => enter_step t s
  | once_returned => Ok None
  | run_thread => thread_step t s
  | run_callout => callout_step s
  | run_calling => calling_step c s
  | run_hung => Ok None
  | run_done => done_step t s
  | run_next next => next_step next s
  | run_signal node next => signal_step t node next s
  | run_wake node next => wake_step c t node next s
  | wait_init => init_step t s
  | wait_swap next => swap_step t next s
  | wait_thread next => wait_thread_step t next s
  | wait_link next => link_step t next s
  | wait_event => event_step t s
  | event_load => event_load_step t s
  | event_wait => event_wait_step c t s
  | event_asleep => asleep_step c t s
  | wait_leave => leave_step t s
  end.

Definition starts (p : pc) : bool := match p with once_check => true | _ => false end.
Definition finished (p : pc) : bool := match p with once_returned => true | _ => false end.
End model.
End Once.
