(* ===== verification/DispatchOnceInv.v ===== *)
(** * dispatch_once with a list of waiters: the invariant

    The records of the waiters form a list on the stacks of their callers, from
    the newest, which the predicate points to, to the caller that runs the
    function; a waiter is linked to the next one some time after it is pushed.
    [phase] says how far the token is and which waiters are not signalled yet. *)

From S2P Require Import Prelude SyncMachine DispatchOnce SyncKernel.
Import Once.

Inductive phase :=
| Idle
| Running (r : tid) (l : list tid)
| Walking (r : tid) (l : list tid)
| Over.

(** The waiters not signalled, newest first; with the running caller at the end. *)
Definition pending (g : phase) : list tid := match g with Running _ l | Walking _ l => l | _ => [] end.
Definition ring (g : phase) : list tid := match g with Running r l | Walking r l => l ++ [r] | _ => [] end.
Definition over (g : phase) : Prop := match g with Walking _ _ | Over => True | _ => False end.
Definition succ (g : phase) (t y : tid) : Prop := ∃ l1 l2, ring g = l1 ++ t :: y :: l2.

(** A waiter that is linked: its event has the first value until it is signalled,
    then the second. *)
Definition queued_ok (g : phase) (n : option _dispatch_once_waiter_s) (t : tid) (v v' : Z) : Prop :=
  ∃ y x th, n = Some (Dow (Some y) x th) ∧
    ((t ∈ pending g ∧ succ g t y ∧ x = v) ∨ ((t ∉ pending g) ∧ over g ∧ x = v')).

(** What is known of a call, from its record and the counts of calls of the
    function. *)
Definition call_ok (g : phase) (n : option _dispatch_once_waiter_s) (cs : nat * nat) (t : tid) (p : pc) : Prop :=
  match p with
  | once_check => n = None ∧ (t ∉ ring g)
  | once_returned => n = None ∧ (t ∉ ring g) ∧ over g
  | once_enter => n = Some (Dow None 0 None) ∧ t ∉ ring g
  | wait_init => n = Some (Dow None 0 None) ∧ (t ∉ ring g) ∧ g ≠ Idle
  | wait_swap v => n = Some (Dow None 0 None) ∧ (t ∉ ring g) ∧ g ≠ Idle ∧ v ≠ ONCE_NULL ∧ (v = ONCE_DONE → over g)
  | run_thread | run_callout => (∃ l, g = Running t l) ∧ is_Some n ∧ cs = (0, 0)%nat
  | run_calling | run_hung => (∃ l, g = Running t l) ∧ is_Some n ∧ cs = (1, 0)%nat
  | run_done => (∃ l, g = Running t l) ∧ is_Some n ∧ cs = (1, 1)%nat
  | run_next x => (∃ l, g = Walking t (x :: l)) ∧ is_Some n
  | run_signal x y => (∃ l, g = Walking t (x :: l) ∧ head (l ++ [t]) = Some y) ∧ is_Some n
  | run_wake x y => (∃ l, g = Walking t l ∧ head (l ++ [t]) = Some y) ∧ is_Some n
  | wait_thread y | wait_link y => (∃ th, n = Some (Dow None 0 th)) ∧ t ∈ pending g ∧ succ g t y
  | wait_event => queued_ok g n t 0 1
  | event_load | event_wait | event_asleep => queued_ok g n t UINT32_MAX 0
  | wait_leave => (∃ m, n = Some m ∧ dte_value m = 0) ∧ (t ∉ ring g) ∧ over g
  end.

(** Another phase in which the waiter is where it was. *)
Lemma queued_ok_impl g g' n t v v' :
  queued_ok g n t v v' →
  (∀ y, t ∈ pending g → succ g t y → t ∈ pending g' ∧ succ g' t y) →
  ((t ∉ pending g) → over g → (t ∉ pending g') ∧ over g') →
  queued_ok g' n t v v'.
Proof.
  intros (y & x & th & -> & Hz) H1 H2. exists y, x, th. split; [done|].
  destruct Hz as [(Ha & Hb & ->)|(Ha & Hb & ->)]; [left|right]; naive_solver.
Qed.

Definition is_runner (p : pc) : bool :=
  match p with
  | run_thread | run_callout | run_calling | run_hung | run_done | run_next _ | run_signal _ _ | run_wake _ _ => true
  | _ => false
  end.

Definition is_queued (p : pc) : bool :=
  match p with
  | wait_thread _ | wait_link _ | wait_event | event_load | event_wait | event_asleep => true
  | _ => false
  end.

Section inv.
Context {U : Type} `{AddressWaiterLaws U}.
Local Abbreviation state := (once_s U).
Local Abbreviation cfg := (@config state pc).
Implicit Types (s : state) (c : cfg) (g : phase).

Definition counts s : nat * nat := (started s, completed s).

Record once_inv (g : phase) (c : cfg) : Prop := {
  oi_val : match g with
           | Idle => once_val (shared c) = ONCE_NULL
           | Running r l => ∃ h, once_val (shared c) = ONCE_WAITER h ∧ head (ring g) = Some h
           | _ => once_val (shared c) = ONCE_DONE
           end;
  oi_calls : ∀ t p, calls c !! t = Some p → call_ok g (nodes (shared c) !! t) (counts (shared c)) t p;
  oi_nodup : NoDup (ring g);
  oi_runner : ∀ r l, g = Running r l ∨ g = Walking r l → ∃ p, calls c !! r = Some p ∧ is_runner p = true;
  oi_list : ∀ t, t ∈ pending g → ∃ p, calls c !! t = Some p ∧ is_queued p = true;
  oi_asleep : ∀ t a, u_asleep (kern (shared c)) !! t = Some a →
    a = t ∧ calls c !! t = Some event_asleep ∧ (t ∈ pending g ∨ ∃ r y, calls c !! r = Some (run_wake t y));
  oi_linked : ∀ r x y, calls c !! r = Some (run_signal x y) →
    ∃ n, nodes (shared c) !! x = Some n ∧ dow_next n = Some y;
  oi_frames : ∀ t, calls c !! t = None → nodes (shared c) !! t = None;
  oi_counts : match g with
              | Idle => counts (shared c) = (0, 0)%nat
              | Running _ _ => True
              | _ => counts (shared c) = (1, 1)%nat
              end;
}.

(** ** Facts *)

(** The running caller is unique. *)
Lemma runner_unique g n cs t p n' cs' u q :
  call_ok g n cs t p → is_runner p = true → call_ok g n' cs' u q → is_runner q = true → t = u.
Proof. destruct p; try done; destruct q; try done; cbn; naive_solver. Qed.

Lemma runner_ring g n cs t p : call_ok g n cs t p → is_runner p = true → ∃ l, g = Running t l ∨ g = Walking t l.
Proof. destruct p; try done; cbn; naive_solver. Qed.

(** A call that is neither is not on the list. *)
Lemma not_in_ring g c t p :
  once_inv g c → calls c !! t = Some p → is_runner p = false → t ∉ pending g → t ∉ ring g.
Proof.
  intros Hi Hp Hr Hn Hin.
  destruct g as [|r l|r l|]; cbn in *; try (by apply elem_of_nil in Hin);
    apply elem_of_app in Hin as [?| ->%list_elem_of_singleton]; try done;
    destruct (oi_runner _ _ Hi r l) as (q & Hq & Hq'); auto; congruence.
Qed.

Lemma pending_ring g t : t ∈ pending g → t ∈ ring g.
Proof. destruct g; cbn; set_solver. Qed.

Lemma succ_in g t y : succ g t y → y ∈ ring g.
Proof. intros (l1 & l2 & E). rewrite E. set_solver. Qed.

(** Everyone on the list has a record. *)
Lemma ring_node g c y : once_inv g c → y ∈ ring g → is_Some (nodes (shared c) !! y).
Proof.
  intros Hi Hy.
  assert (y ∈ pending g ∨ ∃ l, g = Running y l ∨ g = Walking y l) as [Hp|[l Hg]].
  { destruct g as [|r l|r l|]; cbn in *; try (by apply elem_of_nil in Hy);
      apply elem_of_app in Hy as [?| ->%list_elem_of_singleton]; eauto. }
  - destruct (oi_list _ _ Hi _ Hp) as (p & Hc & Hq). pose proof (oi_calls _ _ Hi _ _ Hc) as Hok.
    destruct p; try done; cbn in Hok; unfold queued_ok in Hok; naive_solver.
  - destruct (oi_runner _ _ Hi _ _ Hg) as (p & Hc & Hq). pose proof (oi_calls _ _ Hi _ _ Hc) as Hok.
    destruct p; try done; cbn in Hok; naive_solver.
Qed.

(** A linked waiter at the head points to the next one. *)
Lemma head_succ r x l y : NoDup ((x :: l) ++ [r]) → succ (Walking r (x :: l)) x y → head (l ++ [r]) = Some y.
Proof.
  intros Hnd (l1 & l2 & E). cbn in *. destruct l1 as [|z l1]; cbn in E.
  - injection E as E. by rewrite E.
  - injection E as -> E. apply NoDup_cons in Hnd as [Hn _]. rewrite E in Hn. set_solver.
Qed.

(** The rest of the list keeps its successors when the head is signalled. *)
Lemma succ_tail r x l t y :
  t ≠ x → succ (Walking r (x :: l)) t y → succ (Walking r l) t y.
Proof.
  intros Hne (l1 & l2 & E). cbn in *. destruct l1 as [|z l1]; cbn in E; injection E as -> E; [done|].
  by exists l1, l2.
Qed.

(** ** Calls that do not move the phase *)

Lemma awake g s m t p :
  once_inv g (Cfg s m) → m !! t = Some p → p ≠ event_asleep → u_asleep (kern s) !! t = None.
Proof.
  intros Hi Hp Hne. apply eq_None_not_Some. intros [a Ha]. destruct (oi_asleep _ _ Hi _ _ Ha) as (_ & Hu & _).
  cbn in Hu. congruence.
Qed.

(** The record and the sleep of one call change. *)
Lemma once_local g s m t p s' p' :
  once_inv g (Cfg s m) → m !! t = Some p →
  once_val s' = once_val s →
  (∀ u, u ≠ t → nodes s' !! u = nodes s !! u) →
  counts s' = counts s ∨ (∃ l, g = Running t l) →
  (∀ u, u ≠ t → u_asleep (kern s') !! u = u_asleep (kern s) !! u) →
  (∀ a, u_asleep (kern s') !! t = Some a →
     a = t ∧ p' = event_asleep ∧ (t ∈ pending g ∨ ∃ r y, r ≠ t ∧ m !! r = Some (run_wake t y))) →
  (∀ x y, p ≠ run_wake x y) →
  (∀ x y, p' = run_signal x y → ∃ n, nodes s' !! x = Some n ∧ dow_next n = Some y) →
  (t ∈ pending g → is_queued p' = true ∧
     ∀ n y, nodes s !! t = Some n → dow_next n = Some y → ∃ n', nodes s' !! t = Some n' ∧ dow_next n' = Some y) →
  is_runner p' = is_runner p →
  call_ok g (nodes s' !! t) (counts s') t p' →
  once_inv g (Cfg s' (<[t := p']> m)).
Proof.
  intros Hi Hm Ev En Ec Ek Ekt Hw Hsg Hq Hr Hok. pose proof Hi as [Hv Hc Hnd Hru Hl Hs Hln Hf Hct]. cbn in *.
  assert (∀ r x y, m !! r = Some (run_signal x y) → x ∈ pending g) as Hsx.
  { intros r x y Hx. specialize (Hc _ _ Hx). cbn in Hc. destruct Hc as [(l & -> & _) _]. cbn. left. }
  split; cbn; try done.
  - by rewrite Ev.
  - intros u q [[<- <-]|[Hu Hq']]%lookup_insert_Some; [done|]. rewrite En by congruence.
    specialize (Hc _ _ Hq'). destruct Ec as [-> |[l ->]]; [done|].
    destruct q; cbn in *; try done; naive_solver.
  - intros r l Hg. destruct (Hru r l Hg) as (q & Hq' & Hq''). destruct (decide (r = t)) as [->|].
    + exists p'. rewrite lookup_insert_eq, Hr. split; congruence.
    + exists q. by rewrite lookup_insert_ne.
  - intros u Hu. destruct (decide (u = t)) as [->|].
    + exists p'. rewrite lookup_insert_eq. split; [done|by apply Hq].
    + rewrite lookup_insert_ne by congruence. auto.
  - intros u a Ha. destruct (decide (u = t)) as [->|].
    + destruct (Ekt _ Ha) as (-> & -> & Hz). rewrite lookup_insert_eq. split_and!; [done..|].
      destruct Hz as [?|(r & y & Hr' & Hz)]; [by left|right]. exists r, y. by rewrite lookup_insert_ne.
    + rewrite Ek in Ha by done. destruct (Hs _ _ Ha) as (-> & Hu & Hz). rewrite lookup_insert_ne by congruence.
      split_and!; [done..|]. destruct Hz as [?|(r & y & Hz)]; [by left|right]. exists r, y.
      rewrite lookup_insert_ne; [done|]. intros <-. apply (Hw u y). congruence.
  - intros r x y [[<- E]|[_ Hx]]%lookup_insert_Some; [by apply Hsg|].
    destruct (Hln _ _ _ Hx) as (n & Hn & Hd). destruct (decide (x = t)) as [->|].
    + destruct (Hq (Hsx _ _ _ Hx)) as [_ Hd']. eauto.
    + rewrite En by done. eauto.
  - intros u [Hu Hu']%lookup_insert_None. rewrite En by congruence. auto.
  - destruct Ec as [-> |[l ->]]; done.
Qed.
End inv.

(** ** dispatch_once with a list of waiters: every step keeps the invariant *)

Section step.
Context {U : Type} `{AddressWaiterLaws U}.
Local Abbreviation state := (once_s U).
Local Abbreviation cfg := (@config state pc).
Implicit Types (s : state) (c : cfg) (g : phase).

(** ** Steps within a phase *)

Lemma once_node g s m t p n' p' :
  once_inv g (Cfg s m) → m !! t = Some p → p ≠ event_asleep →
  (∀ x y, p ≠ run_wake x y ∧ p' ≠ run_signal x y) →
  (t ∈ pending g → is_queued p' = true ∧
     ∀ n y, nodes s !! t = Some n → dow_next n = Some y → dow_next n' = Some y) →
  is_runner p' = is_runner p →
  call_ok g (Some n') (counts s) t p' →
  once_inv g (Cfg (set_node t n' s) (<[t := p']> m)).
Proof.
  intros Hi Hm Hp Hx Hq Hr Hok. apply (once_local g s m t p); try done; cbn; try (by left).
  - intros u Hu. by rewrite lookup_insert_ne.
  - by rewrite (awake _ _ _ _ _ Hi Hm Hp).
  - intros. by apply Hx.
  - intros x y E. by destruct (Hx x y).
  - intros Ht. split; [by apply Hq|]. intros n y Hn Hd. exists n'. rewrite lookup_insert_eq.
    split; [done|]. by apply (proj2 (Hq Ht) n).
  - by rewrite lookup_insert_eq.
Qed.

Lemma once_stay g s m t p p' :
  once_inv g (Cfg s m) → m !! t = Some p → p ≠ event_asleep → p' ≠ event_asleep →
  (∀ x y, p ≠ run_wake x y) →
  (∀ x y, p' = run_signal x y → ∃ n, nodes s !! x = Some n ∧ dow_next n = Some y) →
  (t ∈ pending g → is_queued p' = true) → is_runner p' = is_runner p →
  call_ok g (nodes s !! t) (counts s) t p' →
  once_inv g (Cfg s (<[t := p']> m)).
Proof.
  intros Hi Hm Hp Hp' Hw Hsg Hq Hr Hok. apply (once_local g s m t p); try done; try (by left).
  - by rewrite (awake _ _ _ _ _ Hi Hm Hp).
  - intros Ht. split; [by apply Hq|]. eauto.
Qed.

(** A frame goes when the call returns. *)
Lemma once_pop g s m t p :
  once_inv g (Cfg s m) → m !! t = Some p → p ≠ event_asleep → (∀ x y, p ≠ run_wake x y) →
  is_runner p = false → (t ∉ ring g) → over g →
  once_inv g (Cfg (pop_frame t s) (<[t := once_returned]> m)).
Proof.
  intros Hi Hm Hp Hw Hr Hn Ho. apply (once_local g s m t p); try done; cbn; try (by left).
  - intros u Hu. by rewrite lookup_delete_ne.
  - by rewrite (awake _ _ _ _ _ Hi Hm Hp).
  - intros Ht%pending_ring. done.
  - by rewrite lookup_delete_eq.
Qed.

(** ** The first caller *)

Lemma once_first s m t :
  once_inv Idle (Cfg s m) → m !! t = Some once_enter →
  once_inv (Running t []) (Cfg (set_val (ONCE_WAITER t) s) (<[t := run_thread]> m)).
Proof.
  intros Hi Hm. pose proof Hi as [Hv Hc Hnd Hru Hl Hs Hln Hf Hct]. cbn in *.
  pose proof (Hc _ _ Hm) as [Hn _].
  split; cbn; try done.
  - eauto.
  - intros u q [[<- <-]|[Hu Hq]]%lookup_insert_Some.
    + cbn. split_and!; [eauto|by rewrite Hn|exact Hct].
    + specialize (Hc _ _ Hq). destruct q; cbn in *; unfold queued_ok in *; cbn in *; try set_solver.
  - apply NoDup_singleton.
  - intros r l [[= <- <-]|]; [|done]. exists run_thread. by rewrite lookup_insert_eq.
  - intros u Hu. set_solver.
  - intros u a Ha. destruct (Hs _ _ Ha) as (_ & Hu & _). specialize (Hc _ _ Hu). cbn in Hc. 
    destruct Hc as (? & ? & ? & _ & [(Hin & _)|(_ & [] & _)]). set_solver.
  - intros r x y [[_ ?]|[_ Hx]]%lookup_insert_Some; [done|]. eauto.
  - intros u [Hu _]%lookup_insert_None. auto.
Qed.

(** ** A new waiter *)

Lemma call_ok_push r l t n cs u q :
  u ≠ t → call_ok (Running r l) n cs u q → call_ok (Running r (t :: l)) n cs u q.
Proof.
  intros Hu. assert (∀ y, succ (Running r l) u y → succ (Running r (t :: l)) u y) as Hsucc.
  { intros y (l1 & l2 & E). exists (t :: l1), l2. cbn in *. by rewrite E. }
  assert (∀ v v', queued_ok (Running r l) n u v v' → queued_ok (Running r (t :: l)) n u v v') as Hqd.
  { intros v v' Hz. apply (queued_ok_impl _ _ _ _ _ _ Hz); [|done]. intros y Hy Hsy. cbn in *.
    split; [by right|auto]. }
  destruct q; cbn; auto; rewrite ?not_elem_of_cons, ?elem_of_cons; naive_solver.
Qed.

Lemma once_push g s m t h :
  once_inv g (Cfg s m) → m !! t = Some (wait_swap (ONCE_WAITER h)) → once_val s = ONCE_WAITER h →
  ∃ g', once_inv g' (Cfg (set_val (ONCE_WAITER t) s) (<[t := wait_thread h]> m)).
Proof.
  intros Hi Hm Ev. pose proof Hi as [Hv Hc Hnd Hru Hl Hs Hln Hf Hct]. cbn in *.
  destruct g as [|r l|r l|]; try congruence. destruct Hv as (h' & Ev' & Hh). simplify_eq.
  destruct (Hc _ _ Hm) as (Hn & Hnt & _). exists (Running r (t :: l)). split; cbn in *; try done.
  - eauto.
  - intros u q [[<- <-]|[Hu Hq]]%lookup_insert_Some; [|apply call_ok_push; [congruence|auto]].
    cbn. rewrite Hn. split_and!; [eauto|left|]. exists []. destruct (l ++ [r]) as [|z l'] eqn:E; [done|].
    cbn in Hh. injection Hh as ->. exists l'. cbn. congruence.
  - by constructor.
  - intros r' l' [[= <- <-]|]; [|done]. destruct (Hru r l ltac:(by left)) as (q & Hq & Hq').
    exists q. rewrite lookup_insert_ne; [done|]. intros ->. by simplify_eq.
  - intros u [->|Hu]%elem_of_cons; [exists (wait_thread h); by rewrite lookup_insert_eq|].
    rewrite lookup_insert_ne by (intros ->; set_solver). auto.
  - intros u a Ha. destruct (Hs _ _ Ha) as (-> & Hu & Hz).
    rewrite lookup_insert_ne by congruence. split_and!; [done..|].
    destruct Hz as [?|(r' & y & Hz)]; [left; by right|right]. exists r', y. rewrite lookup_insert_ne; [done|]. congruence.
  - intros r' x y [[_ ?]|[_ Hx]]%lookup_insert_Some; [done|]. eauto.
  - intros u [Hu _]%lookup_insert_None. auto.
Qed.

(** ** The walk *)

Lemma call_ok_over t n cs u q :
  u ≠ t → call_ok (Walking t []) n cs u q → call_ok Over n cs u q.
Proof.
  intros Hu. assert (∀ v v', queued_ok (Walking t []) n u v v' → queued_ok Over n u v v') as Hqd.
  { intros v v' Hz. apply (queued_ok_impl _ _ _ _ _ _ Hz); [|done]. intros y Hy. by apply elem_of_nil in Hy. }
  destruct q; cbn; auto; rewrite ?not_elem_of_nil, ?elem_of_nil; naive_solver.
Qed.

(** The running caller has dealt with the waiters before [y]. *)
Lemma once_walk g s m t x y s' p' :
  once_inv g (Cfg s m) → m !! t = Some (run_wake x y) → u_asleep (kern s) !! x = None →
  walk t y s = Ok (Some (s', p')) →
  ∃ g', once_inv g' (Cfg s' (<[t := p']> m)).
Proof.
  intros Hi Hm Hx Hw. pose proof Hi as [Hv Hc Hnd Hru Hl Hs Hln Hf Hct]. cbn in *.
  destruct (Hc _ _ Hm) as [(l & -> & Hy) Hn]. cbn in *.
  assert (∀ u r z, m !! r = Some (run_wake u z) → r = t ∧ u = x) as Huniq.
  { intros u r z Hr. destruct (Hc _ _ Hr) as [(l' & [= -> ->] & _) _]. by simplify_eq. }
  unfold walk in Hw. destruct (decide (y = t)) as [->|Hne]; injection Hw as <- <-.
  - assert (l = []) as ->. { destruct l as [|z l]; [done|]. cbn in *. injection Hy as ->. inversion Hnd. set_solver. }
    exists Over. split; cbn; try done.
    + intros u q [[<- <-]|[Hu Hq]]%lookup_insert_Some; [cbn; rewrite lookup_delete_eq; set_solver|].
      rewrite lookup_delete_ne by done. apply (call_ok_over t); [congruence|auto].
    + constructor.
    + intros r l' [|]; done.
    + intros u Hu. set_solver.
    + intros u a Ha. destruct (Hs _ _ Ha) as (_ & _ & [Hu|(r & z & Hr)]); [set_solver|].
      apply Huniq in Hr as [_ ->]. congruence.
    + intros r x' y' [[_ ?]|[_ Hr]]%lookup_insert_Some; [done|]. specialize (Hc _ _ Hr). cbn in Hc. naive_solver.
    + intros u [Hu Hu']%lookup_insert_None. rewrite lookup_delete_ne by done. auto.
  - destruct l as [|z l]; cbn in Hy; injection Hy as ->; [done|]. exists (Walking t (y :: l)). split; cbn; try done.
    + intros u q [[<- <-]|[Hu Hq]]%lookup_insert_Some; [|auto]. cbn. eauto.
    + intros r l' [|[= <- <-]]; [done|]. exists (run_next y). by rewrite lookup_insert_eq.
    + intros u Hu. rewrite lookup_insert_ne; [auto|]. intros <-. inversion Hnd as [|? ? Hy' Hnd'].
      cbn in *. apply elem_of_cons in Hu as [?|Hu]; [congruence|].
      apply NoDup_app in Hnd' as (_ & Hd & _). apply (Hd _ Hu). left.
    + intros u a Ha. destruct (Hs _ _ Ha) as (-> & Hu & Hz). rewrite lookup_insert_ne by congruence.
      split_and!; [done..|]. destruct Hz as [Hz|(r & z' & Hr)]; [by left|]. apply Huniq in Hr as [_ ->]. congruence.
    + intros r x' y' [[_ ?]|[_ Hr]]%lookup_insert_Some; [done|]. eauto.
    + intros u [Hu Hu']%lookup_insert_None. auto.
Qed.

(** [_dispatch_once_xchg_done]: the phase changes. *)
Lemma call_ok_done t l n cs u q :
  u ≠ t → call_ok (Running t l) n cs u q → call_ok (Walking t l) n cs u q.
Proof.
  intros Hu. assert (∀ v v', queued_ok (Running t l) n u v v' → queued_ok (Walking t l) n u v v') as Hqd.
  { intros v v' Hz. by apply (queued_ok_impl _ _ _ _ _ _ Hz). }
  destruct q; cbn; auto; naive_solver.
Qed.

Lemma once_done s m t l h :
  once_inv (Running t l) (Cfg s m) → m !! t = Some run_done → once_val s = ONCE_WAITER h →
  once_inv (Walking t l) (Cfg (set_val ONCE_DONE s) (<[t := run_wake t h]> m)).
Proof.
  intros Hi Hm Ev. pose proof Hi as [Hv Hc Hnd Hru Hl Hs Hln Hf Hct]. cbn in *.
  destruct Hv as (h' & Ev' & Hh). rewrite Ev in Ev'. injection Ev' as <-. destruct (Hc _ _ Hm) as (_ & Hn & Hcs).
  split; cbn; try done.
  - intros u q [[<- <-]|[Hu Hq]]%lookup_insert_Some; [cbn; eauto|].
    apply call_ok_done; [congruence|]. by apply Hc.
  - intros r' l' [|[= <- <-]]; [done|]. exists (run_wake t h). by rewrite lookup_insert_eq.
  - intros u Hu. destruct (Hl _ Hu) as (q & Hq & Hq'). exists q. rewrite lookup_insert_ne; [done|].
    intros ->. by simplify_eq.
  - intros u a Ha. destruct (Hs _ _ Ha) as (-> & Hu & Hz). rewrite lookup_insert_ne by congruence.
    split_and!; [done..|]. destruct Hz as [?|(r' & y & Hz)]; [by left|].
    destruct (Hc _ _ Hz) as [(? & ? & _) _]. done.
  - intros r' x y [[_ ?]|[_ Hx]]%lookup_insert_Some; [done|]. eauto.
  - intros u [Hu _]%lookup_insert_None. auto.
Qed.

(** [_dispatch_thread_event_signal]: the head of the list is signalled. *)
Lemma call_ok_signal t x l n cs u q :
  u ≠ t → u ≠ x → (x ∉ l ++ [t]) →
  call_ok (Walking t (x :: l)) n cs u q → call_ok (Walking t l) n cs u q.
Proof.
  intros Hu Hux Hx.
  assert (∀ v v', queued_ok (Walking t (x :: l)) n u v v' → queued_ok (Walking t l) n u v v') as Hqd.
  { intros v v' Hz. apply (queued_ok_impl _ _ _ _ _ _ Hz); cbn.
    - intros y [?|?]%elem_of_cons Hs; [done|]. split; [done|]. by eapply succ_tail.
    - rewrite not_elem_of_cons. tauto. }
  destruct q; cbn; auto; rewrite ?not_elem_of_cons, ?elem_of_cons; try naive_solver.
  all: intros (? & [?|?] & Hs); [done|]; split_and!; [done..|]; by eapply succ_tail.
Qed.

(** The event of the head after the signal. *)
Lemma head_signalled t x l n q cs th y v :
  NoDup ((x :: l) ++ [t]) → n = Dow (Some y) v th →
  call_ok (Walking t (x :: l)) (Some n) cs x q → is_queued q = true →
  call_ok (Walking t l) (Some (Dow (Some y) (u32 (v + 1)) th)) cs x q ∧ (v = 0 → q ≠ event_asleep).
Proof.
  intros Hnd -> Hok Hq. cbn in Hnd. apply NoDup_cons in Hnd as [Hx _].
  assert (x ∉ l) as Hxl by set_solver.
  assert (∀ a b, u32 (a + 1) = b → queued_ok (Walking t (x :: l)) (Some (Dow (Some y) v th)) x a b →
    queued_ok (Walking t l) (Some (Dow (Some y) (u32 (v + 1)) th)) x a b ∧ v = a) as Hqd.
  { intros a b Eab (y' & v' & th' & [= <- <- <-] & Hz). cbn in Hz. rewrite not_elem_of_cons in Hz.
    destruct Hz as [(_ & _ & ->)|([? _] & _)]; [|done]. split; [|done].
    exists y, b, th. rewrite Eab. split; [done|]. right. by split_and!. }
  destruct q; try done; cbn in *; try naive_solver; (eapply Hqd in Hok as [? ->]; [by split|done]).
Qed.

Lemma once_signal s m t x y l n :
  once_inv (Walking t (x :: l)) (Cfg s m) → m !! t = Some (run_signal x y) → nodes s !! x = Some n →
  once_inv (Walking t l)
    (Cfg (set_node x (Dow (dow_next n) (u32 (dte_value n + 1)) (dow_thread n)) s) (<[t := run_wake x y]> m))
  ∧ (dte_value n = 0 → u_asleep (kern s) !! x = None).
Proof.
  intros Hi Hm Hn. pose proof Hi as [Hv Hc Hnd Hru Hl Hs Hln Hf Hct]. cbn in *.
  destruct (Hc _ _ Hm) as [(l' & [= <-] & Hy) Ht].
  assert (x ∉ l ++ [t]) as Hx by (by apply NoDup_cons in Hnd as [? _]).
  assert (x ≠ t) as Hxt by set_solver.
  destruct (Hl x) as (q & Hq & Hqq); [left|].
  destruct (Hln _ _ _ Hm) as (n' & Hn' & Hnext). rewrite Hn in Hn'. injection Hn' as <-.
  destruct n as [nx v th]. cbn in *. subst nx.
  pose proof (Hc _ _ Hq) as Hokx. rewrite Hn in Hokx.
  destruct (head_signalled _ _ _ _ _ _ _ _ _ Hnd eq_refl Hokx Hqq) as [Hokx' Hv0].
  split.
  - split; cbn; try done.
    + intros u q' [[<- <-]|[Hu Hq']]%lookup_insert_Some; [cbn; rewrite lookup_insert_ne by done; eauto|].
      destruct (decide (u = x)) as [->|]; [rewrite lookup_insert_eq; by simplify_eq|].
      rewrite lookup_insert_ne by done. apply (call_ok_signal _ x); [congruence|done..|by apply Hc].
    + by apply NoDup_cons in Hnd as [_ ?].
    + intros r' l' [|[= <- <-]]; [done|]. exists (run_wake x y). by rewrite lookup_insert_eq.
    + intros u Hu. destruct (Hl u) as (q' & Hq' & Hqq'); [by right|]. exists q'. rewrite lookup_insert_ne; [done|].
      intros ->. by simplify_eq.
    + intros u a Ha. destruct (Hs _ _ Ha) as (-> & Hu & Hz). rewrite lookup_insert_ne by congruence.
      split_and!; [done..|]. destruct Hz as [[->|Hz]%elem_of_cons|(r' & z & Hz)]; [|by left|].
      * right. exists t, y. apply lookup_insert_eq.
      * destruct (Hc _ _ Hz) as [(? & [= <- _] & _) _]. congruence.
    + intros r' x' y' [[_ ?]|[Hne Hx']]%lookup_insert_Some; [done|].
      destruct (Hc _ _ Hx') as [(? & [= <- _ _] & _) _]. congruence.
    + intros u [Hu _]%lookup_insert_None. rewrite lookup_insert_ne; [auto|]. intros ->. by simplify_eq.
  - intros E. apply (awake _ _ _ _ _ Hi Hq). auto.
Qed.

(** ** Every step *)

Lemma once_wake g s m t ch x y s' p' :
  once_inv g (Cfg s m) → m !! t = Some (run_wake x y) → wake_step ch t x y s = Ok (Some (s', p')) →
  ∃ g', once_inv g' (Cfg s' (<[t := p']> m)).
Proof.
  intros Hi Hm Hw. unfold wake_step in Hw.
  assert ((s', p') = (s, run_wake x y) ∨ walk t y (set_kern (u_wake x false (kern s)) s) = Ok (Some (s', p')))
    as [[= -> ->]|Hx]; [|exists g; by rewrite insert_id|clear Hw].
  { destruct ch as [|err|]; [by right|left|by right]. destruct (dispatch_wake_error err); [done|].
    by injection Hw as <- <-. }
  revert Hx. assert (∀ u a, u_asleep (u_wake x false (kern s)) !! u = Some a → u_asleep (kern s) !! u = Some a) as Hsub.
  { intros u a Ha. destruct (u_asleep (kern s) !! u) as [b|] eqn:E.
    - destruct (decide (b = x)) as [->|Hne]; [|by rewrite (u_wake_others _ _ _ _ _ E (not_eq_sym Hne)) in Ha].
      f_equal. symmetry. destruct (oi_asleep _ _ Hi u x E) as (-> & _).
      destruct (u_wake_one _ _ _ E) as (v & Hv & Hv'). destruct (oi_asleep _ _ Hi v u Hv) as (-> & _).
      congruence.
    - by rewrite (u_wake_none _ _ _ _ E) in Ha. }
  apply (once_walk g _ m t x y); [|done|].
  - destruct Hi as [Hv Hc Hnd Hru Hl Hs Hln Hf Hct]. split; cbn in *; try done. eauto.
  - cbn. destruct (u_asleep (kern s) !! x) as [b|] eqn:E; [|by apply u_wake_none].
    destruct (oi_asleep _ _ Hi x b E) as (-> & _).
    destruct (u_wake_one _ _ _ E) as (v & Hv & Hv'). by destruct (oi_asleep _ _ Hi v x Hv) as (-> & _).
Qed.
End step.
