(* ===== verification/DispatchOnceCorrect.v ===== *)
(** * dispatch_once with a list of waiters: correctness

    In every interleaving of any number of calls on one token: the function
    runs once and has returned before any call returns; no record on a stack is
    used after its frame is gone, no event has a corrupt value; when no call can
    go on, all of them have returned, or the function itself never returns. *)

From S2P Require Import Prelude SyncMachine DispatchOnce DispatchOnceInv SyncKernel.
Import Once.

Section correct.
Context {U : Type} `{AddressWaiterLaws U}.
Local Abbreviation state := (once_s U).
Local Abbreviation cfg := (@config state pc).
Implicit Types (s : state) (c : cfg) (g : phase).

Local Abbreviation reachable := (reachable exec starts finished).
Local Abbreviation crashes := (crashes exec starts finished).
Local Abbreviation quiet := (quiet exec starts finished Go).

(** ** The steps of a waiter *)

Lemma wait_link_ok g s m t y th s' p' :
  once_inv g (Cfg s m) → m !! t = Some (wait_link y) → nodes s !! t = Some (Dow None 0 th) →
  s' = set_node t (Dow (Some y) 0 th) s → p' = wait_event →
  once_inv g (Cfg s' (<[t := p']> m)).
Proof.
  intros Hi Hm Hn -> ->. pose proof (oi_calls _ _ Hi _ _ Hm) as (_ & Hp & Hs).
  apply (once_node g s m t (wait_link y)); try done.
  - intros _. split; [done|]. intros n z Hn'. by simplify_eq.
  - exists y, 0, th. split; [done|]. by left.
Qed.

(** The event: value [v] before the signal, [v'] after it. *)
Lemma event_word_cases g s m t p v v' :
  once_inv g (Cfg s m) → m !! t = Some p → is_runner p = false → queued_ok g (nodes s !! t) t v v' →
  ∃ y x th, nodes s !! t = Some (Dow (Some y) x th) ∧
    ((x = v ∧ t ∈ pending g ∧ succ g t y) ∨ (x = v' ∧ (t ∉ pending g) ∧ (t ∉ ring g) ∧ over g)).
Proof.
  intros Hi Hm Hr (y & x & th & Hn & Hz). exists y, x, th. split; [done|].
  destruct Hz as [(Hp & Hs & ->)|(Hp & Ho & ->)]; [by left|right]. split_and!; try done.
  by eapply not_in_ring.
Qed.

Lemma wait_event_ok g s m t s' p' :
  once_inv g (Cfg s m) → m !! t = Some wait_event → event_step t s = Ok (Some (s', p')) →
  once_inv g (Cfg s' (<[t := p']> m)).
Proof.
  intros Hi Hm. destruct (event_word_cases _ _ _ _ _ _ _ Hi Hm eq_refl (oi_calls _ _ Hi _ _ Hm)) as (y & x & th & Hn & Hz).
  unfold event_step, with_node. rewrite Hn. destruct Hz as [(-> & Hp & Hs)|(-> & Hp & Hr & Ho)]; intros [= <- <-].
  - apply (once_node g s m t wait_event); try done.
    + intros _. split; [done|]. intros n z Hn'. simplify_eq. done.
    + exists y, UINT32_MAX, th. split; [done|]. by left.
  - apply (once_node g s m t wait_event); try done. cbn. by split_and!; eauto.
Qed.

Lemma event_load_ok g s m t s' p' :
  once_inv g (Cfg s m) → m !! t = Some event_load → event_load_step t s = Ok (Some (s', p')) →
  once_inv g (Cfg s' (<[t := p']> m)).
Proof.
  intros Hi Hm. pose proof (oi_calls _ _ Hi _ _ Hm) as Hok.
  destruct (event_word_cases _ _ _ _ _ _ _ Hi Hm eq_refl Hok) as (y & x & th & Hn & Hz).
  unfold event_load_step, with_node. rewrite Hn.
  destruct Hz as [(-> & Hp & Hs)|(-> & Hp & Hr & Ho)]; intros [= <- <-].
  - by apply (once_stay g s m t event_load).
  - apply (once_stay g s m t event_load); try done. cbn in *. rewrite Hn. by split_and!; eauto.
Qed.

(** After an error that does not abort the wait is repeated or the value read again. *)
Lemma event_error_ok err p : event_error err = Ok p → p = event_wait ∨ p = event_load.
Proof. destruct err; cbn; naive_solver. Qed.

Lemma event_wait_ok g s m t ch s' p' :
  once_inv g (Cfg s m) → m !! t = Some event_wait → event_wait_step ch t s = Ok (Some (s', p')) →
  once_inv g (Cfg s' (<[t := p']> m)).
Proof.
  intros Hi Hm. pose proof (oi_calls _ _ Hi _ _ Hm) as Hok.
  destruct (event_word_cases _ _ _ _ _ _ _ Hi Hm eq_refl Hok) as (y & x & th & Hn & Hz).
  unfold event_wait_step, with_node. rewrite Hn. intros Hx.
  assert ((s' = s ∧ (p' = event_wait ∨ p' = event_load)) ∨
    (if x =? UINT32_MAX then goes (set_kern (u_sleep t t (kern s)) s) event_asleep else goes s event_load) =
    Ok (Some (s', p'))) as [[-> Hp']|Hx'].
  { destruct ch as [|err|]; [by right|left|by right]. destruct (event_error err) eqn:Ee; [|done].
    injection Hx as <- <-. split; [done|]. by eapply event_error_ok. }
  { apply (once_stay g s m t event_wait); try done; by destruct Hp' as [-> | ->]. }
  clear Hx. revert Hx'. destruct Hz as [(-> & Hp & Hs)|(-> & Hp & Hr & Ho)]; intros [= <- <-].
  - apply (once_local g s m t event_wait); try done; cbn; try (by left); rewrite ?u_sleep_ok.
    + intros u Hu. by rewrite lookup_insert_ne.
    + intros a. rewrite lookup_insert_eq. intros [= <-]. split_and!; [done..|by left].
    + eauto.
  - by apply (once_stay g s m t event_wait).
Qed.

Lemma event_asleep_ok g s m t ch s' p' :
  once_inv g (Cfg s m) → m !! t = Some event_asleep → asleep_step ch t s = Ok (Some (s', p')) →
  once_inv g (Cfg s' (<[t := p']> m)).
Proof.
  intros Hi Hm. pose proof (oi_calls _ _ Hi _ _ Hm) as Hok. unfold asleep_step.
  intros Hx.
  assert (∃ b u, u_return t b (kern s) = Some u ∧ s' = set_kern u s ∧ (p' = event_wait ∨ p' = event_load))
    as (b & u & Eu & -> & Hp').
  { destruct ch as [|err|]; [|destruct (event_error err) eqn:Ee; [apply event_error_ok in Ee|done]|];
      (destruct (u_return t _ (kern s)) as [u|] eqn:Eu; [|done]); injection Hx as <- <-; eauto 6. }
  apply u_return_ok in Eu.
  apply (once_local g s m t event_asleep); try done; cbn; try (by left); try (by destruct Hp' as [-> | ->]).
  - intros x Hx'. by rewrite Eu, lookup_delete_ne.
  - by rewrite Eu, lookup_delete_eq.
  - intros _. split; [by destruct Hp' as [-> | ->]|eauto].
Qed.

(** ** Every step *)

Lemma val_phase g s m :
  once_inv g (Cfg s m) → (once_val s = ONCE_DONE ↔ over g) ∧ (once_val s = ONCE_NULL ↔ g = Idle).
Proof.
  intros Hi. pose proof (oi_val _ _ Hi) as Hv. cbn in Hv. destruct g as [|r l|r l|]; cbn; rewrite ?Hv; try done.
  destruct Hv as (h & -> & _). done.
Qed.

Lemma runner_not_pending g c t l : once_inv g c → g = Running t l ∨ g = Walking t l → t ∉ pending g.
Proof.
  intros Hi Hg Ht. pose proof (oi_nodup _ _ Hi) as Hnd.
  destruct Hg as [-> | ->]; cbn in *; apply NoDup_app in Hnd as (_ & Hd & _); destruct (Hd t Ht); left.
Qed.

(** The callout counts. *)
Lemma once_count g s m t p n k p' l :
  once_inv g (Cfg s m) → m !! t = Some p → g = Running t l → p ≠ event_asleep →
  is_runner p = true → is_runner p' = true → (∀ x y, p ≠ run_wake x y ∧ p' ≠ run_signal x y) →
  call_ok g (nodes s !! t) (n, k) t p' →
  once_inv g (Cfg (OnceS (once_val s) (nodes s) (kern s) n k) (<[t := p']> m)).
Proof.
  intros Hi Hm Hg Hp Hr Hr' Hx Hok. apply (once_local g s m t p); try done; cbn; eauto; try congruence.
  - by rewrite (awake _ _ _ _ _ Hi Hm Hp).
  - intros. by apply Hx.
  - intros x y E. by destruct (Hx x y).
  - intros Ht. by destruct (runner_not_pending g _ t l Hi ltac:(by left)).
Qed.

Lemma once_enter_step g s m t p s' p' :
  once_inv g (Cfg s m) → m !! t = Some p →
  (p = once_check ∧ check_step t s = Ok (Some (s', p')) ∨ p = once_enter ∧ enter_step t s = Ok (Some (s', p'))) →
  ∃ g', once_inv g' (Cfg s' (<[t := p']> m)).
Proof.
  intros Hi Hm Hx. pose proof (oi_calls _ _ Hi _ _ Hm) as Hok. destruct (val_phase _ _ _ Hi) as [Hvd Hvn]. cbn in Hok.
  destruct Hx as [[-> Hx]|[-> Hx]]; cbn in Hok; destruct Hok as [Hn Hr].
  - unfold check_step in Hx. case_decide as Ed; injection Hx as <- <-; exists g.
    + apply (once_stay g s m t once_check); try done; [by intros ?%pending_ring|]. cbn. split_and!; try done.
      by apply Hvd.
    + apply (once_node g s m t once_check); try done. by intros ?%pending_ring.
  - unfold enter_step in Hx. case_decide as Ed; injection Hx as <- <-.
    + apply Hvn in Ed. subst g. eexists. by apply once_first.
    + exists g. apply (once_stay g s m t once_enter); try done; [by intros ?%pending_ring|]. cbn.
      split_and!; try done. by intros E%Hvn.
Qed.

Lemma once_run_step g s m t ch p s' p' :
  once_inv g (Cfg s m) → m !! t = Some p → is_runner p = true → exec ch t s p = Ok (Some (s', p')) →
  ∃ g', once_inv g' (Cfg s' (<[t := p']> m)).
Proof.
  intros Hi Hm Hrun Hx. pose proof (oi_calls _ _ Hi _ _ Hm) as Hok. pose proof (oi_val _ _ Hi) as Hv. cbn in Hok, Hv.
  destruct p; try done; cbn in Hx, Hok.
  - unfold thread_step, with_node in Hx. destruct Hok as ([l Hg] & [n Hn] & Hcs). rewrite Hn in Hx.
    injection Hx as <- <-. exists g. apply (once_node g s m t run_thread); try done; [|cbn; eauto].
    intros Ht. by destruct (runner_not_pending g _ t l Hi ltac:(by left)).
  - destruct Hok as ([l Hg] & Hn & [= E1 E2]). injection Hx as <- <-. exists g.
    apply (once_count _ _ _ _ run_callout _ _ _ l); try done. cbn. rewrite E1, E2. eauto.
  - pose proof Hok as ([l Hg] & Hn & [= E1 E2]). exists g.
    assert (s' = s ∧ p' = run_hung ∨
      s' = OnceS (once_val s) (nodes s) (kern s) (started s) (S (completed s)) ∧ p' = run_done) as [[-> ->]|[-> ->]].
    { destruct ch; injection Hx as <- <-; auto. }
    + apply (once_stay g s m t run_calling); try done.
      intros Ht. by destruct (runner_not_pending g _ t l Hi ltac:(by left)).
    + apply (once_count _ _ _ _ run_calling _ _ _ l); try done. cbn. rewrite E1, E2. eauto.
  - destruct Hok as ([l ->] & Hn & Hcs). destruct Hv as (h & Ev & _). unfold done_step in Hx. rewrite Ev in Hx.
    pose proof (once_done _ _ _ _ _ Hi Hm Ev) as Hi'. rewrite <- (insert_insert_eq m t p' (run_wake t h)).
    eapply (once_walk _ _ _ t t h _ _ Hi'); [apply lookup_insert_eq| |done]. cbn. by eapply awake.
  - unfold next_step, with_node in Hx. destruct Hok as [[l Hg] Hn].
    destruct (nodes s !! next) as [n|] eqn:En; [|done]. destruct (dow_next n) as [tmp|] eqn:Ed; [|done].
    injection Hx as <- <-. exists g. apply (once_stay g s m t (run_next next)); try done.
    + intros x y [= <- <-]. eauto.
    + intros Ht. by destruct (runner_not_pending g _ t (next :: l) Hi ltac:(by right)).
    + cbn. split; [|done]. exists l. split; [done|]. subst g.
      destruct (oi_list _ _ Hi next) as (q & Hq & Hqq); [left|]. pose proof (oi_calls _ _ Hi _ _ Hq) as Hokq.
      cbn in Hokq. rewrite En in Hokq.
      assert (∀ v v', queued_ok (Walking t (next :: l)) (Some n) next v v' → succ (Walking t (next :: l)) next tmp) as Hs.
      { intros v v' (y & x & th & [= ->] & Hz). cbn in Hz, Ed. rewrite not_elem_of_cons in Hz. naive_solver. }
      eapply (head_succ t next l); [apply (oi_nodup _ _ Hi)|]. destruct q; try done; cbn in Hokq; naive_solver.
  - destruct Hok as [(l & -> & Hy) Hn]. unfold signal_step, with_node in Hx.
    destruct (nodes s !! node) as [n|] eqn:En; [|done].
    destruct (once_signal _ _ _ _ _ _ _ Hi Hm En) as [Hi' Hz].
    destruct (Z.eqb_spec (dte_value n) 0) as [E|E]; [|injection Hx as <- <-; eauto].
    rewrite <- (insert_insert_eq m t p' (run_wake node next)).
    eapply (once_walk _ _ _ t node next _ _ Hi'); [apply lookup_insert_eq|by apply Hz|done].
  - by eapply once_wake.
Qed.

Lemma once_step g s m t ch p s' p' :
  once_inv g (Cfg s m) → m !! t = Some p → exec ch t s p = Ok (Some (s', p')) →
  ∃ g', once_inv g' (Cfg s' (<[t := p']> m)).
Proof.
  intros Hi Hm Hx. destruct (is_runner p) eqn:Er; [by eapply once_run_step|].
  pose proof (oi_calls _ _ Hi _ _ Hm) as Hok. destruct (val_phase _ _ _ Hi) as [Hvd Hvn]. cbn in Hok.
  destruct p; try done; cbn in Hx, Hok; try (eapply once_enter_step; by eauto).
  - destruct Hok as (Hn & Hr & Hg). unfold init_step, with_node in Hx. rewrite Hn in Hx. injection Hx as <- <-.
    exists g. apply (once_node g s m t wait_init); try done; [by intros ?%pending_ring|]. cbn.
    split_and!; try done; [by intros E%Hvn|by intros E%Hvd].
  - destruct Hok as (Hn & Hr & Hg & Hnull & Hdone). unfold swap_step in Hx.
    destruct next as [|h|]; [done| |].
    + case_decide as Ed; injection Hx as <- <-; [by eapply once_push|].
      exists g. apply (once_stay g s m t (wait_swap (ONCE_WAITER h))); try done; [by intros ?%pending_ring|].
      cbn. split_and!; try done; [by intros E%Hvn|by intros E%Hvd].
    + injection Hx as <- <-. exists g. apply (once_stay g s m t (wait_swap ONCE_DONE)); try done;
        [by intros ?%pending_ring|]. cbn. rewrite Hn. split_and!; [eauto|done|auto].
  - destruct Hok as ([th Hn] & Hp & Hs). unfold wait_thread_step, with_node in Hx. rewrite Hn in Hx.
    destruct (nodes s !! next) as [n|] eqn:En; [|done]. injection Hx as <- <-. exists g.
    apply (once_node g s m t (wait_thread next)); try done; [|cbn; eauto].
    intros _. split; [done|]. intros n' y Hn'. by simplify_eq.
  - destruct Hok as ([th Hn] & Hp & Hs). unfold link_step, with_node in Hx. rewrite Hn in Hx. injection Hx as <- <-.
    exists g. by eapply wait_link_ok.
  - exists g. by eapply wait_event_ok.
  - exists g. by eapply event_load_ok.
  - exists g. by eapply event_wait_ok.
  - exists g. by eapply event_asleep_ok.
  - destruct Hok as ((n & Hn & Hz) & Hr & Ho). unfold leave_step, with_node in Hx. rewrite Hn, Hz in Hx.
    injection Hx as <- <-. exists g. by eapply once_pop.
Qed.

Lemma once_begin g s m t :
  once_inv g (Cfg s m) → m !! t = None → once_inv g (Cfg s (<[t := once_check]> m)).
Proof.
  intros Hi Hm. pose proof Hi as [Hv Hc Hnd Hru Hl Hs Hln Hf Hct]. cbn in *.
  assert (t ∉ ring g) as Hr.
  { intros Ht. destruct (ring_node _ _ _ Hi Ht) as [n Hn]. cbn in Hn. rewrite Hf in Hn; done. }
  assert (∀ u q, m !! u = Some q → <[t := once_check]> m !! u = Some q) as Hlk.
  { intros u q Hu. rewrite lookup_insert_ne; congruence. }
  split; cbn; try done.
  - intros u q [[<- <-]|[_ Hq]]%lookup_insert_Some; [cbn; auto|auto].
  - intros r l Hg. destruct (Hru r l Hg) as (q & Hq & Hqq). eauto.
  - intros u Hu. destruct (Hl u Hu) as (q & Hq & Hqq). eauto.
  - intros u a Ha. destruct (Hs _ _ Ha) as (-> & Hu & Hz). split_and!; [done|auto|].
    destruct Hz as [?|(r & y & ?)]; [by left|right]. exists r, y. auto.
  - intros r x y [[_ ?]|[_ Hx]]%lookup_insert_Some; [done|]. eauto.
  - intros u [Hu _]%lookup_insert_None. auto.
Qed.

Lemma once_reachable c : reachable once_init c → ∃ g, once_inv g c.
Proof.
  apply (machine_inv _ _ _ (λ c, ∃ g, once_inv g c)).
  - exists Idle. split; cbn; try done; try (intros; rewrite ?lookup_empty in *; done).
    + constructor.
    + intros r l [|]; done.
    + intros t Ht. by apply elem_of_nil in Ht.
    + intros t a. by rewrite u_empty_ok, lookup_empty.
  - intros s m t p [g Hi] Hm Hp _. destruct p; try done. exists g. by apply once_begin.
  - intros s m t ch p s' p' [g Hi] Hm Hx. by eapply once_step.
Qed.

(** ** Theorems *)

(** C8. The function is called at most once, it has returned when any call returns,
    and then the predicate is done for good. *)
Theorem once_exactly_once c :
  reachable once_init c →
  (started (shared c) ≤ 1)%nat ∧ (completed (shared c) ≤ started (shared c))%nat ∧
  ∀ t, calls c !! t = Some once_returned →
    started (shared c) = 1%nat ∧ completed (shared c) = 1%nat ∧ once_val (shared c) = ONCE_DONE.
Proof.
  intros [g Hi]%once_reachable. destruct c as [s m]. cbn. pose proof (oi_counts _ _ Hi) as Hct.
  unfold counts in Hct. cbn in Hct. destruct (val_phase _ _ _ Hi) as [Hvd _].
  assert ((started s ≤ 1)%nat ∧ (completed s ≤ started s)%nat) as [H1 H2].
  { destruct g as [|r l|r l|]; try (injection Hct as -> ->; lia).
    destruct (oi_runner _ _ Hi r l) as (p & Hp & Hr); [by left|]. pose proof (oi_calls _ _ Hi _ _ Hp) as Hok.
    unfold counts in Hok. cbn in Hok. destruct p; try done; cbn in Hok; naive_solver lia. }
  split_and!; [done..|]. intros t Ht. destruct (oi_calls _ _ Hi _ _ Ht) as (_ & _ & Ho).
  rewrite Hvd. destruct g; try done; by injection Hct as -> ->.
Qed.

(** The system call that fails aborts the process. *)
Definition once_kernel_abort (err : errno) (p : pc) (r : crash_reason) : Prop :=
  match p with
  | event_wait | event_asleep => event_error err = Crash r
  | run_wake _ _ => dispatch_wake_error err = Some r
  | _ => False
  end.

(** No record on a stack is used after its call has returned, no pointer is
    [NULL], no event is corrupt or destroyed while in use: the process aborts only
    for an error of a system call. *)
Theorem once_no_crash c e r :
  reachable once_init c → do_event exec starts finished e c = Crash r →
  ∃ t err p, e = Run t (Failed err) ∧ calls c !! t = Some p ∧ once_kernel_abort err p r.
Proof.
  intros [g Hi]%once_reachable He. destruct c as [s m]. destruct (val_phase _ _ _ Hi) as [Hvd Hvn].
  destruct e as [t p|t ch]; cbn in He; [by repeat case_match|].
  destruct (m !! t) as [p|] eqn:Ep; [|done]. pose proof (oi_calls _ _ Hi _ _ Ep) as Hok. cbn in Hok.
  destruct (exec ch t s p) as [[[]|]|r'] eqn:Ex; simplify_eq.
  assert (∃ err, ch = Failed err ∧ once_kernel_abort err p r) as (err & -> & Hab); [|by exists t, err, p].
  assert (∀ x, x ∈ ring g → is_Some (nodes s !! x)) as Hring by (intros x; apply (ring_node _ _ _ Hi)).
  destruct p; cbn in Ex, Hok |- *;
    unfold check_step, enter_step, thread_step, callout_step, calling_step, done_step, next_step, signal_step,
      wake_step, init_step, swap_step, wait_thread_step, link_step, event_step, event_load_step, event_wait_step,
      asleep_step, leave_step, walk, with_node, goes in Ex; try (by repeat case_match).
  - destruct Hok as (_ & [n Hn] & _). by rewrite Hn in Ex.
  - destruct Hok as ([l ->] & _). destruct (oi_val _ _ Hi) as (h & Ev & _). cbn in Ev. rewrite Ev in Ex.
    by repeat case_match.
  - destruct Hok as ([l ->] & _). destruct (Hring next) as [n Hn]; [cbn; left|]. rewrite Hn in Ex. by repeat case_match.
  - destruct Hok as ([l [-> _]] & _). destruct (Hring node) as [n Hn]; [cbn; left|]. rewrite Hn in Ex.
    by repeat case_match.
  - destruct ch as [|err|]; [by repeat case_match| |by repeat case_match]. exists err. split; [done|].
    destruct (dispatch_wake_error err); [congruence|done].
  - destruct Hok as (Hn & _). by rewrite Hn in Ex.
  - destruct Hok as (_ & _ & _ & Hnull & _). destruct next; try done; by repeat case_match.
  - destruct Hok as ([th Hn] & _ & Hs). destruct (Hring next) as [n' Hn']; [by eapply succ_in|].
    by rewrite Hn, Hn' in Ex.
  - destruct Hok as ([th Hn] & _). by rewrite Hn in Ex.
  - destruct Hok as (y & x & th & Hn & _). by rewrite Hn in Ex.
  - destruct Hok as (y & x & th & Hn & Hz). rewrite Hn in Ex. cbn in Ex.
    destruct Hz as [(_ & _ & ->)|(_ & _ & ->)]; done.
  - destruct Hok as (y & x & th & Hn & Hz). rewrite Hn in Ex.
    destruct ch as [|err|]; [by repeat case_match| |by repeat case_match]. exists err. split; [done|].
    destruct (event_error err); congruence.
  - destruct ch as [|err|]; [by repeat case_match| |by repeat case_match]. exists err. split; [done|].
    destruct (event_error err); [by repeat case_match|congruence].
  - destruct Hok as ((n & Hn & Hz) & _). by rewrite Hn, Hz in Ex.
Qed.

(** A call that cannot go on has returned, sleeps, hangs in the function, or spins
    on a link. *)
Lemma once_blocked t s p :
  exec Go t s p = Ok None →
  p = once_returned ∨ p = run_hung ∨ (p = event_asleep ∧ is_Some (u_asleep (kern s) !! t)) ∨
  (∃ x n, p = run_next x ∧ nodes s !! x = Some n ∧ dow_next n = None).
Proof.
  destruct p; cbn; auto;
    unfold check_step, enter_step, thread_step, callout_step, calling_step, done_step, next_step, signal_step,
      wake_step, init_step, swap_step, wait_thread_step, link_step, event_step, event_load_step, event_wait_step,
      asleep_step, leave_step, walk, with_node, goes; try (by repeat case_match); intros Hstop.
  - do 3 right. destruct (nodes s !! next) as [n|] eqn:En; [|done]. destruct (dow_next n) eqn:Ed; [done|]. eauto.
  - do 2 right. left. split; [done|]. destruct (u_asleep (kern s) !! t) eqn:Ea; [eauto|].
    destruct (u_return_woken t _ Ea) as [u Hu]. by rewrite Hu in Hstop.
Qed.

(** When no call can go on, none spins on a link. *)
Lemma quiet_cases g s m :
  once_inv g (Cfg s m) → quiet (Cfg s m) →
  ∀ t p, m !! t = Some p →
    p = once_returned ∨ p = run_hung ∨ (p = event_asleep ∧ is_Some (u_asleep (kern s) !! t)).
Proof.
  intros Hi Hq.
  assert (∀ t p, m !! t = Some p → exec Go t s p = Ok None) as Hstop.
  { intros t p Hp. specialize (Hq t). unfold blocked in Hq. cbn in Hq. rewrite Hp in Hq.
    by destruct (exec Go t s p) as [[[]|]|]. }
  intros t p Hp. destruct (once_blocked _ _ _ (Hstop t p Hp)) as [?|[?|[?|(x & n & -> & Hn & Hd)]]]; auto.
  exfalso. destruct (oi_calls _ _ Hi _ _ Hp) as [[l ->] _]. destruct (oi_list _ _ Hi x) as (q & Hxq & Hqq); [left|].
  cbn in Hxq. destruct (once_blocked _ _ _ (Hstop _ _ Hxq)) as [->|[->|[[-> _]|(? & ? & -> & _)]]]; try done.
  destruct (oi_calls _ _ Hi _ _ Hxq) as (y & v & th & Hn' & _). cbn in Hn'. by simplify_eq.
Qed.

(** A sleeper has a caller that runs the function or wakes the others. *)
Lemma sleeper_has_runner g s m t a :
  once_inv g (Cfg s m) → u_asleep (kern s) !! t = Some a → ∃ r q, m !! r = Some q ∧ is_runner q = true.
Proof.
  intros Hi Ha. destruct (oi_asleep _ _ Hi t a Ha) as (_ & _ & Hz). cbn in Hz.
  destruct Hz as [Hz|(r & y & Hr)]; [|by exists r, (run_wake t y)].
  destruct g as [|r l|r l|]; cbn in Hz; try (by apply elem_of_nil in Hz);
    (destruct (oi_runner _ _ Hi r l) as (q & ? & ?); [auto|by exists r, q]).
Qed.

(** C9. When no call can go on, all have returned: nobody is left asleep on an event
    or spinning on a link, and no frame is left.  The only other way to come to
    rest is that the client function itself does not return: then the one call
    that runs it hangs in it and every other call sleeps. *)
Theorem once_quiescent c :
  reachable once_init c → quiet c →
  ((∀ t p, calls c !! t = Some p → finished p = true) ∧ nodes (shared c) = ∅) ∨
  ∃ r, calls c !! r = Some run_hung ∧ ∀ t p, calls c !! t = Some p → t = r ∨ p = event_asleep.
Proof.
  intros [g Hi]%once_reachable Hq. destruct c as [s m]. pose proof (quiet_cases _ _ _ Hi Hq) as Hcase. cbn.
  assert (∀ r, m !! r = Some run_hung → ∃ l, g = Running r l) as Hhung.
  { intros r Hr. destruct (oi_calls _ _ Hi _ _ Hr) as [Hg _]. done. }
  destruct (decide (map_Exists (λ _ p, is_runner p = true) m)) as [(r & q & Hr & Hrun)|Hno].
  - right. destruct (Hcase _ _ Hr) as [->|[->|[-> _]]]; try done. exists r. split; [done|].
    destruct (Hhung r Hr) as [l ->]. intros t p Hp. pose proof (oi_calls _ _ Hi _ _ Hp) as Hok.
    destruct (Hcase _ _ Hp) as [->|[->|[-> _]]]; [by destruct Hok as (_ & _ & ?)| |by right].
    left. destruct (Hhung t Hp) as [? ?]. congruence.
  - left. assert (∀ t p, m !! t = Some p → p = once_returned) as Hall.
    { intros t p Hp. destruct (Hcase _ _ Hp) as [?|[->|[-> [a Ha]]]]; [done|exfalso..].
      - apply Hno. by exists t, run_hung.
      - destruct (sleeper_has_runner _ _ _ _ _ Hi Ha) as (r & q & Hr & Hqr). apply Hno. by exists r, q. }
    split; [intros t p Hp; by rewrite (Hall _ _ Hp)|].
    apply map_empty. intros t. destruct (m !! t) as [p|] eqn:Ep; [|by apply (oi_frames _ _ Hi)].
    pose proof (oi_calls _ _ Hi _ _ Ep) as Hok. rewrite (Hall _ _ Ep) in Hok. apply Hok.
Qed.
End correct.

(** ** dispatch_once with a list of waiters: runs

    Concrete schedules on [SleepMap] that satisfy the hypotheses of the theorems
    of DispatchOnceCorrect.v. *)

Local Abbreviation after := (after exec starts finished).
Local Abbreviation ocfg := (@config (once_s (gmap tid addr)) pc).

Definition once_runs (n : nat) (t : tid) : list (event (P := pc) (C := choice)) := replicate n (Run t Go).

(** Call 1 runs the function; 2 sleeps; 3 is pushed and not linked yet when call 1
    comes to it, and takes its signal before it waits. *)
Definition contended : list event :=
  [Start 1 once_check] ++ once_runs 3 1 ++
  [Start 2 once_check] ++ once_runs 9 2 ++
  [Start 3 once_check] ++ once_runs 4 3 ++ once_runs 3 1 ++ once_runs 2 3 ++ once_runs 2 1 ++ once_runs 2 3.

Definition all_through : list event :=
  contended ++ once_runs 3 1 ++ once_runs 3 2 ++ [Start 4 once_check; Run 4 Go].

Definition once_end : ocfg := after all_through once_init.

Lemma once_end_reachable : reachable exec starts finished once_init once_end.
Proof. apply (run_reachable _ _ _ all_through). vm_compute. reflexivity. Qed.

Lemma once_exactly_once_witness :
  (started (shared once_end) ≤ 1)%nat ∧ (completed (shared once_end) ≤ started (shared once_end))%nat ∧
  ∀ t, calls once_end !! t = Some once_returned →
    started (shared once_end) = 1%nat ∧ completed (shared once_end) = 1%nat ∧
    once_val (shared once_end) = ONCE_DONE.
Proof. apply once_exactly_once, once_end_reachable. Defined.

(** In the middle of the run call 1 wakes call 2. *)
Definition waking : list event := contended ++ once_runs 2 1.
Definition once_middle : ocfg := after waking once_init.

Lemma once_middle_reachable : reachable exec starts finished once_init once_middle.
Proof. apply (run_reachable _ _ _ waking). vm_compute. reflexivity. Qed.

Lemma once_no_crash_witness :
  ∃ t err p, (Run 1 (Failed Other_error) : event (P := pc)) = Run t (Failed err) ∧
    calls once_middle !! t = Some p ∧ once_kernel_abort err p INTERNAL_CRASH.
Proof.
  apply (once_no_crash once_middle (Run 1 (Failed Other_error)) INTERNAL_CRASH); [apply once_middle_reachable|].
  vm_compute. reflexivity.
Defined.

Lemma once_quiescent_witness :
  ((∀ t p, calls once_end !! t = Some p → finished p = true) ∧ nodes (shared once_end) = ∅) ∨
  ∃ r, calls once_end !! r = Some run_hung ∧ ∀ t p, calls once_end !! t = Some p → t = r ∨ p = event_asleep.
Proof.
  apply once_quiescent; [apply once_end_reachable|]. apply quietb_quiet. vm_compute. reflexivity.
Defined.

(** The deadlock of the comment in once.c: call 2 is made inside the function that
    call 1 runs, so call 1 does not return from it; call 2 sleeps for ever. *)
Definition nested_once : list event :=
  [Start 1 once_check] ++ once_runs 4 1 ++ [Start 2 once_check] ++ once_runs 9 2 ++ [Run 1 Hangs].

Example nested_once_deadlocks :
  let c : ocfg := after nested_once once_init in
  reachable exec starts finished once_init c ∧ quiet exec starts finished Go c ∧
  calls c !! 1%positive = Some run_hung ∧ calls c !! 2%positive = Some event_asleep.
Proof.
  split_and!; [apply (run_reachable _ _ _ nested_once); vm_compute; reflexivity
    |apply quietb_quiet; vm_compute; reflexivity|vm_compute; reflexivity..].
Qed.
