(* ===== verification/DispatchGate.v ===== *)
(** * dispatch_once with a gate

    Model of src/libdispatch-913.60.2/src/once.c in the build with gates
    ([DISPATCH_GATE_USE_FOR_DISPATCH_ONCE] 1), with the gate functions of
    shims/lock.h and shims/lock.c.  The predicate is one 64-bit word: 0, the lock
    value of the thread that runs the function with or without the waiters bit,
    or all ones; the gate is its low half.  [port] gives the thread of a call. *)

From S2P Require Import Prelude SyncMachine SyncKernel.

Module Gate.

Definition DLOCK_OWNER_MASK : Z := 4294967292.
Definition DLOCK_WAITERS_BIT : Z := 1.
Definition DLOCK_ONCE_UNLOCKED : Z := 0.
Definition DLOCK_ONCE_DONE : Z := 2 ^ 64 - 1.

Definition _dispatch_lock_value_from_tid (tid : Z) : Z := Z.land tid DLOCK_OWNER_MASK.
Definition _dispatch_lock_is_locked_by (lock_value tid : Z) : bool :=
  Z.land (Z.lxor lock_value tid) DLOCK_OWNER_MASK =? 0.

(** The one word the threads sleep on. *)
Definition gate_addr : addr := 1%positive.

Record gate_s (U : Type) := GateS {
  dgo_once : Z;
  gate_kern : U;
  gate_started : nat;
  gate_completed : nat;
}.
Arguments GateS {U}.
Arguments dgo_once {U}.
Arguments gate_kern {U}.
Arguments gate_started {U}.
Arguments gate_completed {U}.

(** [Failed]: the system call fails; [Spurious]: the compare-and-swap fails;
    [Hangs]: the function does not return, for instance because it waits for
    something that happens after the call. *)
Inductive choice := Go | Failed (err : errno) | Spurious | Hangs.

Inductive pc :=
| gate_check
| gate_tryenter
| gate_callout
| gate_calling
| gate_hung
| gate_xchg
| gate_broadcast (cur : Z)
| gate_load
| gate_cas (old_value : Z)
| gate_wait (new_value : Z)
| gate_asleep (new_value : Z)
| gate_returned.

Section model.
Context {U : Type} `{AddressWaiter U}.
(** The port of the thread that makes the call. *)
Context (port : tid → Z).

Local Abbreviation state := (gate_s U).
Local Abbreviation result := (outcome (option (state * pc))).

Definition gate_init : state := GateS DLOCK_ONCE_UNLOCKED u_empty 0 0.

Definition set_once (v : Z) (s : state) : state := GateS v (gate_kern s) (gate_started s) (gate_completed s).
Definition set_gate_kern (u : U) (s : state) : state := GateS (dgo_once s) u (gate_started s) (gate_completed s).
Definition goes (s : state) (p : pc) : result := Ok (Some (s, p)).

Definition _dispatch_lock_value_for_self (t : tid) : Z := _dispatch_lock_value_from_tid (port t).

(** [dgl_lock], the low half of the word. *)
Definition dgl_lock (s : state) : Z := u32 (dgo_once s).
Definition set_dgl_lock (v : Z) (s : state) : state := set_once (dgo_once s - dgl_lock s + v) s.

Definition check_step (s : state) : result :=
  goes s (if dgo_once s =? DLOCK_ONCE_DONE then gate_returned else gate_tryenter).

(** [_dispatch_once_gate_tryenter] *)
Definition tryenter_step (t : tid) (s : state) : result :=
  if dgo_once s =? DLOCK_ONCE_UNLOCKED then goes (set_once (_dispatch_lock_value_for_self t) s) gate_callout
  else goes s gate_load.

(** [_dispatch_client_callout] *)
Definition callout_step (s : state) : result :=
  goes (GateS (dgo_once s) (gate_kern s) (S (gate_started s)) (gate_completed s)) gate_calling.
Definition calling_step (c : choice) (s : state) : result :=
  match c with
  | Hangs => goes s gate_hung
  | _ => goes (GateS (dgo_once s) (gate_kern s) (gate_started s) (S (gate_completed s))) gate_xchg
  end.

(** [_dispatch_once_gate_broadcast] *)
Definition xchg_step (t : tid) (s : state) : result :=
  let cur := dgo_once s in
  goes (set_once DLOCK_ONCE_DONE s)
    (if cur =? _dispatch_lock_value_for_self t then gate_returned else gate_broadcast (u32 cur)).

(** [_dispatch_gate_broadcast_slow] *)
Definition broadcast_step (c : choice) (t : tid) (cur : Z) (s : state) : result :=
  if _dispatch_lock_is_locked_by cur (port t) then
    match c with
    | Failed err => match dispatch_wake_error err with Some r => Crash r | None => goes s (gate_broadcast cur) end
    | _ => goes (set_gate_kern (u_wake gate_addr true (gate_kern s)) s) gate_returned
    end
  else Crash CLIENT_CRASH.

(** After the loop of [_dispatch_gate_wait_slow]. *)
Definition after_rmw (t : tid) (old_value new_value : Z) (s : state) : result :=
  if _dispatch_lock_is_locked_by old_value (_dispatch_lock_value_for_self t) then Crash CLIENT_CRASH
  else goes s (gate_wait new_value).

(** The body of [os_atomic_rmw_loop]. *)
Definition rmw_body (t : tid) (old_value : Z) (s : state) : result :=
  if old_value =? u32 DLOCK_ONCE_DONE then goes s gate_returned
  else
    let new_value := Z.lor old_value DLOCK_WAITERS_BIT in
    if new_value =? old_value then after_rmw t old_value new_value s
    else goes s (gate_cas old_value).

Definition load_step (t : tid) (s : state) : result := rmw_body t (dgl_lock s) s.

Definition cas_step (c : choice) (t : tid) (old_value : Z) (s : state) : result :=
  match c with
  | Spurious => rmw_body t (dgl_lock s) s
  | _ =>
      if dgl_lock s =? old_value then
        let new_value := Z.lor old_value DLOCK_WAITERS_BIT in
        after_rmw t old_value new_value (set_dgl_lock new_value s)
      else rmw_body t (dgl_lock s) s
  end.

(** Where [_dispatch_unfair_lock_wait] goes on after an error that does not abort. *)
Definition after_error (err : errno) (new_value : Z) : pc := if decide (err = EINTR) then gate_wait new_value else gate_load.

(** [_dispatch_unfair_lock_wait], before it sleeps *)
Definition wait_step (c : choice) (t : tid) (new_value : Z) (s : state) : result :=
  match c with
  | Failed err => match dispatch_wait_error err with Some r => Crash r | None => goes s (after_error err new_value) end
  | _ =>
      if dgl_lock s =? new_value then goes (set_gate_kern (u_sleep t gate_addr (gate_kern s)) s) (gate_asleep new_value)
      else goes s gate_load
  end.

(** ... and when it returns. *)
Definition asleep_step (c : choice) (t : tid) (new_value : Z) (s : state) : result :=
  let back (failed : bool) (p : pc) :=
    match u_return t failed (gate_kern s) with Some u => goes (set_gate_kern u s) p | None => Ok None end in
  match c with
  | Failed err => match dispatch_wait_error err with Some r => Crash r | None => back true (after_error err new_value) end
  | _ => back false gate_load
  end.

Definition exec (c : choice) (t : tid) (s : state) (p : pc) : result :=
  match p with
  | gate_check => check_step s
  | gate_tryenter => tryenter_step t s
  | gate_callout => callout_step s
  | gate_calling => calling_step c s
  | gate_hung => Ok None
  | gate_xchg => xchg_step t s
  | gate_broadcast cur => broadcast_step c t cur s
  | gate_load => load_step t s
  | gate_cas old => cas_step c t old s
  | gate_wait new => wait_step c t new s
  | gate_asleep new => asleep_step c t new s
  | gate_returned => Ok None
  end.

Definition starts (p : pc) : bool := match p with gate_check => true | _ => false end.
Definition finished (p : pc) : bool := match p with gate_returned => true | _ => false end.
End model.
End Gate.

Import Gate.

(** ** dispatch_once with a gate: correctness

    As for the build with a list of waiters: the function runs once and has
    returned before any call returns, and when no call can go on all have
    returned.  The process aborts only when a thread calls [dispatch_once] again
    from inside the function. *)

(** ** Lock values *)

Lemma land_owner x : 0 ≤ x < 2 ^ 32 → Z.land x DLOCK_OWNER_MASK = x - x mod 4.
Proof. apply (land_clear_low 2). lia. Qed.

Lemma lor_waiters x : Z.lor x DLOCK_WAITERS_BIT = x + 1 - x mod 2.
Proof. apply lor_low_bit. Qed.

Lemma locked_by_spec a b :
  0 ≤ a < 2 ^ 32 → 0 ≤ b < 2 ^ 32 → _dispatch_lock_is_locked_by a b = (a - a mod 4 =? b - b mod 4).
Proof.
  intros Ha Hb. unfold _dispatch_lock_is_locked_by.
  assert (Z.land (Z.lxor a b) DLOCK_OWNER_MASK = Z.lxor (Z.land a DLOCK_OWNER_MASK) (Z.land b DLOCK_OWNER_MASK)) as ->.
  { apply Z.bits_inj'. intros n Hn. rewrite !Z.land_spec, !Z.lxor_spec, !Z.land_spec.
    destruct (Z.testbit a n), (Z.testbit b n), (Z.testbit DLOCK_OWNER_MASK n); done. }
  rewrite !land_owner by done. apply eq_true_iff_eq. by rewrite !Z.eqb_eq, Z.lxor_eq_0_iff.
Qed.

(** ** The invariant *)

Inductive gate_phase := Closed | Inside (r : tid) | Opened.

Section correct.
Context {U : Type} `{AddressWaiterLaws U}.
Context (port : tid → Z).
Hypothesis port_ok : ∀ t, 4 ≤ port t < 2 ^ 32.

Local Abbreviation state := (gate_s U).
Local Abbreviation cfg := (@config state pc).
Local Abbreviation owner := (_dispatch_lock_value_for_self port).
Local Abbreviation exec := (exec port).
Implicit Types (s : state) (c : cfg) (g : gate_phase).

Local Abbreviation reachable := (reachable exec starts finished).
Local Abbreviation crashes := (crashes exec starts finished).
Local Abbreviation quiet := (quiet exec starts finished Go).

Lemma owner_ok t : 4 ≤ owner t ≤ 2 ^ 32 - 4 ∧ owner t mod 4 = 0 ∧ owner t = port t - port t mod 4.
Proof.
  pose proof (port_ok t) as Hp. unfold _dispatch_lock_value_for_self, _dispatch_lock_value_from_tid.
  rewrite land_owner by lia. Z.to_euclidean_division_equations. lia.
Qed.

(** The lock value of a thread, with and without the waiters bit. *)
Lemma owner_lor t : Z.lor (owner t) DLOCK_WAITERS_BIT = owner t + 1 ∧ Z.lor (owner t + 1) DLOCK_WAITERS_BIT = owner t + 1.
Proof. pose proof (owner_ok t) as (? & ? & _). rewrite !lor_waiters. Z.to_euclidean_division_equations. lia. Qed.

Lemma locked_by_owner r t :
  _dispatch_lock_is_locked_by (owner r) (owner t) = (owner r =? owner t) ∧
  _dispatch_lock_is_locked_by (owner r + 1) (owner t) = (owner r =? owner t) ∧
  _dispatch_lock_is_locked_by (owner r + 1) (port t) = (owner r =? owner t).
Proof.
  pose proof (owner_ok r) as (? & ? & ?). pose proof (owner_ok t) as (? & ? & ?). pose proof (port_ok t).
  rewrite !locked_by_spec by lia. split_and!; f_equal; Z.to_euclidean_division_equations; lia.
Qed.

Definition inside_ok g (cs : nat * nat) (t : tid) (p : pc) : Prop :=
  match p with
  | gate_check | gate_tryenter => True
  | gate_callout => g = Inside t ∧ cs = (0, 0)%nat
  | gate_calling | gate_hung => g = Inside t ∧ cs = (1, 0)%nat
  | gate_xchg => g = Inside t ∧ cs = (1, 1)%nat
  | gate_broadcast cur => g = Opened ∧ cur = owner t + 1
  | gate_load => g ≠ Closed
  | gate_cas old => g ≠ Closed ∧ ∃ r, old = owner r
  | gate_wait new | gate_asleep new => g ≠ Closed ∧ ∃ r, new = owner r + 1
  | gate_returned => g = Opened
  end.

Definition is_inside (p : pc) : bool := match p with gate_callout | gate_calling | gate_hung | gate_xchg => true | _ => false end.

Definition gate_counts s : nat * nat := (gate_started s, gate_completed s).

Record gate_inv g c : Prop := {
  ga_val : match g with
           | Closed => dgo_once (shared c) = 0
           | Inside r => dgo_once (shared c) = owner r ∨ dgo_once (shared c) = owner r + 1
           | Opened => dgo_once (shared c) = DLOCK_ONCE_DONE
           end;
  ga_calls : ∀ t p, calls c !! t = Some p → inside_ok g (gate_counts (shared c)) t p;
  ga_inside : ∀ r, g = Inside r → ∃ p, calls c !! r = Some p ∧ is_inside p = true;
  ga_counts : match g with
              | Closed => gate_counts (shared c) = (0, 0)%nat
              | Inside _ => True
              | Opened => gate_counts (shared c) = (1, 1)%nat
              end;
  ga_asleep : ∀ t a, u_asleep (gate_kern (shared c)) !! t = Some a →
    a = gate_addr ∧ (∃ new, calls c !! t = Some (gate_asleep new)) ∧
    match g with
    | Closed => False
    | Inside r => dgo_once (shared c) = owner r + 1
    | Opened => ∃ r cur, calls c !! r = Some (gate_broadcast cur)
    end;
}.

(** The low half of the word. *)
Lemma lock_word g s m :
  gate_inv g (Cfg s m) →
  match g with
  | Closed => dgl_lock s = 0
  | Inside r => dgl_lock s = dgo_once s
  | Opened => dgl_lock s = 2 ^ 32 - 1
  end.
Proof.
  intros Hi. pose proof (ga_val _ _ Hi) as Hv. cbn in Hv. unfold dgl_lock.
  destruct g as [|r|]; [by rewrite Hv| |by rewrite Hv].
  pose proof (owner_ok r) as (? & _). apply wrapu_small. lia.
Qed.

(** ** Steps *)

(** A step within a phase. *)
Lemma gate_local g s m t p s' p' :
  gate_inv g (Cfg s m) → m !! t = Some p →
  (dgo_once s' = dgo_once s ∨ ∃ r, g = Inside r ∧ dgo_once s' = owner r + 1) →
  gate_counts s' = gate_counts s ∨ g = Inside t →
  (∀ u, u ≠ t → u_asleep (gate_kern s') !! u = u_asleep (gate_kern s) !! u) →
  (∀ a, u_asleep (gate_kern s') !! t = Some a →
     a = gate_addr ∧ (∃ new, p' = gate_asleep new) ∧ ∃ r, g = Inside r ∧ dgo_once s' = owner r + 1) →
  (∀ cur, p ≠ gate_broadcast cur) →
  is_inside p' = is_inside p →
  inside_ok g (gate_counts s') t p' →
  gate_inv g (Cfg s' (<[t := p']> m)).
Proof.
  intros Hi Hm Ev Ec Ek Ekt Hb Hin Hok. pose proof Hi as [Hv Hc Hr Hct Hs]. cbn in *. split; cbn.
  - destruct Ev as [-> |(r & -> & ->)]; [done|by right].
  - intros u q [[<- <-]|[Hu Hq]]%lookup_insert_Some; [done|]. specialize (Hc _ _ Hq).
    destruct Ec as [-> | ->]; [done|]. destruct q; cbn in *; naive_solver.
  - intros r Hg. destruct (Hr r Hg) as (q & Hq & Hqq). destruct (decide (r = t)) as [->|].
    + exists p'. rewrite lookup_insert_eq, Hin. split; congruence.
    + exists q. by rewrite lookup_insert_ne.
  - destruct Ec as [-> | ->]; done.
  - intros u a Ha. destruct (decide (u = t)) as [->|].
    + destruct (Ekt _ Ha) as (-> & [new ->] & r & -> & Ev'). rewrite lookup_insert_eq. eauto.
    + rewrite Ek in Ha by done. destruct (Hs _ _ Ha) as (-> & Hu & Hz). rewrite lookup_insert_ne by done.
      split_and!; [done..|]. destruct g as [|r|]; [done| |].
      * destruct Ev as [-> |(r' & [= <-] & ->)]; done.
      * destruct Hz as (r & cur & Hz). exists r, cur. rewrite lookup_insert_ne; [done|]. intros <-.
        apply (Hb cur). congruence.
Qed.

Lemma gate_awake g s m t p :
  gate_inv g (Cfg s m) → m !! t = Some p → (∀ new, p ≠ gate_asleep new) → u_asleep (gate_kern s) !! t = None.
Proof.
  intros Hi Hp Hne. apply eq_None_not_Some. intros [a Ha]. destruct (ga_asleep _ _ Hi _ _ Ha) as (_ & [new Hu] & _).
  cbn in Hu. destruct (Hne new). congruence.
Qed.

(** The shared state does not change. *)
Lemma gate_stay g s m t p p' :
  gate_inv g (Cfg s m) → m !! t = Some p → (∀ new, p ≠ gate_asleep new) → (∀ cur, p ≠ gate_broadcast cur) →
  is_inside p' = is_inside p → inside_ok g (gate_counts s) t p' →
  gate_inv g (Cfg s (<[t := p']> m)).
Proof.
  intros Hi Hm Hp Hb Hin Hok. apply (gate_local g s m t p); auto.
  by rewrite (gate_awake _ _ _ _ _ Hi Hm Hp).
Qed.

Lemma gate_enter s m t :
  gate_inv Closed (Cfg s m) → m !! t = Some gate_tryenter →
  gate_inv (Inside t) (Cfg (set_once (owner t) s) (<[t := gate_callout]> m)).
Proof.
  intros Hi Hm. pose proof Hi as [Hv Hc Hr Hct Hs]. cbn in *. split; cbn.
  - by left.
  - intros u q [[<- <-]|[Hu Hq]]%lookup_insert_Some; [done|]. specialize (Hc _ _ Hq). destruct q; cbn in *; naive_solver.
  - intros r [= <-]. exists gate_callout. by rewrite lookup_insert_eq.
  - done.
  - intros u a Ha. by destruct (Hs _ _ Ha) as (_ & _ & []).
Qed.

Lemma gate_leave s m t s' p' :
  gate_inv (Inside t) (Cfg s m) → m !! t = Some gate_xchg → xchg_step port t s = Ok (Some (s', p')) →
  gate_inv Opened (Cfg s' (<[t := p']> m)).
Proof.
  intros Hi Hm Hx. pose proof Hi as [Hv Hc Hr Hct Hs]. cbn in *. destruct (Hc _ _ Hm) as [_ Hcs].
  pose proof (owner_ok t) as (Hrange & _).
  assert (s' = set_once DLOCK_ONCE_DONE s ∧
    ((dgo_once s = owner t ∧ p' = gate_returned) ∨ (dgo_once s = owner t + 1 ∧ p' = gate_broadcast (owner t + 1))))
    as [-> Hp'].
  { unfold xchg_step, goes in Hx. destruct Hv as [E|E]; rewrite E in Hx.
    - rewrite Z.eqb_refl in Hx. injection Hx as <- <-. auto.
    - destruct (Z.eqb_spec (owner t + 1) (owner t)); [lia|]. rewrite wrapu_small in Hx by lia.
      injection Hx as <- <-. auto. }
  split; cbn; try done.
  - intros u q [[<- <-]|[Hu Hq]]%lookup_insert_Some; [by destruct Hp' as [[_ ->]|[_ ->]]|].
    specialize (Hc _ _ Hq). destruct q; cbn in *; naive_solver.
  - intros u a Ha. destruct (Hs _ _ Ha) as (-> & [new Hu] & Hw).
    rewrite lookup_insert_ne by congruence. split_and!; [done|eauto|].
    destruct Hp' as [[? _]|[_ ->]]; [lia|]. exists t, (owner t + 1). apply lookup_insert_eq.
Qed.

Lemma gate_wakes g s m t ch cur s' p' :
  gate_inv g (Cfg s m) → m !! t = Some (gate_broadcast cur) → broadcast_step port ch t cur s = Ok (Some (s', p')) →
  gate_inv g (Cfg s' (<[t := p']> m)).
Proof.
  intros Hi Hm Hx. pose proof Hi as [Hv Hc Hr Hct Hs]. cbn in *. destruct (Hc _ _ Hm) as [-> _].
  unfold broadcast_step in Hx. destruct (_dispatch_lock_is_locked_by cur (port t)); [|done].
  assert (s' = s ∧ p' = gate_broadcast cur ∨ s' = set_gate_kern (u_wake gate_addr true (gate_kern s)) s ∧ p' = gate_returned) as [[-> ->]|[-> ->]].
  { destruct ch as [|err| |]; [right|destruct (dispatch_wake_error err); [done|left]|right..]; injection Hx as <- <-; done. }
  { rewrite (insert_id m t (gate_broadcast cur) Hm). done. }
  split; cbn; try done.
  - intros u q [[<- <-]|[Hu Hq]]%lookup_insert_Some; [done|]. by apply Hc.
  - intros u a Ha. exfalso. destruct (u_asleep (gate_kern s) !! u) as [b|] eqn:E.
    + destruct (Hs _ _ E) as (-> & _). by rewrite (u_wake_all _ _ _ E) in Ha.
    + by rewrite (u_wake_none _ _ _ _ E) in Ha.
Qed.

(** ** The loop of [_dispatch_gate_wait_slow] *)

Lemma gate_after_rmw g s m t p old new s' p' :
  gate_inv g (Cfg s m) → m !! t = Some p → (∀ new, p ≠ gate_asleep new) → (∀ cur, p ≠ gate_broadcast cur) →
  is_inside p = false → g ≠ Closed → (∃ r, new = owner r + 1) → after_rmw port t old new s = Ok (Some (s', p')) →
  gate_inv g (Cfg s' (<[t := p']> m)).
Proof.
  intros Hi Hm Hp Hb Hin Hg Hnew Hx. unfold after_rmw in Hx.
  destruct (_dispatch_lock_is_locked_by _ _); [done|]. injection Hx as <- <-.
  by apply (gate_stay g s m t p).
Qed.

Lemma gate_rmw_body g s m t p s' p' :
  gate_inv g (Cfg s m) → m !! t = Some p → (∀ new, p ≠ gate_asleep new) → (∀ cur, p ≠ gate_broadcast cur) →
  is_inside p = false → g ≠ Closed → rmw_body port t (dgl_lock s) s = Ok (Some (s', p')) →
  gate_inv g (Cfg s' (<[t := p']> m)).
Proof.
  intros Hi Hm Hp Hb Hin Hg Hx. pose proof (lock_word _ _ _ Hi) as Hw. pose proof (ga_val _ _ Hi) as Hv. cbn in Hv.
  unfold rmw_body in Hx. change (u32 DLOCK_ONCE_DONE) with (2 ^ 32 - 1) in Hx.
  destruct (Z.eqb_spec (dgl_lock s) (2 ^ 32 - 1)) as [E|E].
  - injection Hx as <- <-. apply (gate_stay g s m t p); try done. cbn.
    destruct g as [|r|]; [done| |done]. pose proof (owner_ok r) as (? & ? & _). exfalso.
    Z.to_euclidean_division_equations. lia.
  - destruct g as [|r|]; [done| |done]. destruct (owner_lor r) as [L1 L2].
    destruct (Z.eqb_spec (Z.lor (dgl_lock s) DLOCK_WAITERS_BIT) (dgl_lock s)) as [E'|E'].
    + eapply gate_after_rmw; [done..| |done]. exists r. rewrite Hw in *. destruct Hv as [Hv|Hv]; rewrite Hv in *; lia.
    + injection Hx as <- <-. apply (gate_stay _ s m t p); try done. cbn. split; [done|]. exists r.
      rewrite Hw in *. destruct Hv as [->|Hv]; [done|]. rewrite Hv, L2 in E'. done.
Qed.

Lemma gate_cas_ok g s m t ch old s' p' :
  gate_inv g (Cfg s m) → m !! t = Some (gate_cas old) → cas_step port ch t old s = Ok (Some (s', p')) →
  gate_inv g (Cfg s' (<[t := p']> m)).
Proof.
  intros Hi Hm Hx. destruct (ga_calls _ _ Hi _ _ Hm) as [Hg [r' Eold]]. cbn in Hg, Eold.
  pose proof (lock_word _ _ _ Hi) as Hw. pose proof (ga_val _ _ Hi) as Hv. cbn in Hv.
  assert (rmw_body port t (dgl_lock s) s = Ok (Some (s', p')) ∨
    (dgl_lock s = old ∧ after_rmw port t old (Z.lor old DLOCK_WAITERS_BIT)
       (set_dgl_lock (Z.lor old DLOCK_WAITERS_BIT) s) = Ok (Some (s', p')))) as [Hb|[E Ha]].
  { unfold cas_step in Hx. destruct (Z.eqb_spec (dgl_lock s) old), ch; auto. }
  { by eapply gate_rmw_body. }
  pose proof (owner_ok r') as (? & ? & _). destruct (owner_lor r') as [L1 _].
  destruct g as [|r|]; [done| |exfalso; lia].
  pose proof (owner_ok r) as (? & ? & _).
  assert (dgo_once s = owner r ∧ owner r' = owner r) as [Es Er].
  { destruct Hv as [?|?]; [lia|]. exfalso. Z.to_euclidean_division_equations. lia. }
  unfold after_rmw in Ha. destruct (_dispatch_lock_is_locked_by _ _); [done|]. injection Ha as <- <-.
  apply (gate_local (Inside r) s m t (gate_cas old)); try done; cbn; auto.
  - right. exists r. split; [done|]. rewrite Eold, L1. lia.
  - by rewrite (gate_awake _ _ _ _ _ Hi Hm).
  - split; [done|]. exists r'. by rewrite Eold, L1.
Qed.

Lemma gate_step g s m t ch p s' p' :
  gate_inv g (Cfg s m) → m !! t = Some p → exec ch t s p = Ok (Some (s', p')) →
  ∃ g', gate_inv g' (Cfg s' (<[t := p']> m)).
Proof.
  intros Hi Hm Hx. pose proof (ga_calls _ _ Hi _ _ Hm) as Hok. pose proof (ga_val _ _ Hi) as Hv. cbn in Hok, Hv.
  pose proof (lock_word _ _ _ Hi) as Hw.
  destruct p; cbn in Hx, Hok; try done.
  - injection Hx as <- <-. exists g. destruct (Z.eqb_spec (dgo_once s) DLOCK_ONCE_DONE) as [E|].
    + apply (gate_stay g s m t gate_check); try done. cbn. destruct g as [|r|]; [by rewrite Hv in E| |done].
      pose proof (owner_ok r) as (? & _). unfold DLOCK_ONCE_DONE in E. lia.
    + by apply (gate_stay g s m t gate_check).
  - unfold tryenter_step in Hx. destruct (Z.eqb_spec (dgo_once s) DLOCK_ONCE_UNLOCKED) as [E|E]; injection Hx as <- <-.
    + exists (Inside t). destruct g as [|r|]; [by apply gate_enter| |by rewrite Hv in E].
      pose proof (owner_ok r) as (? & _). unfold DLOCK_ONCE_UNLOCKED in E. lia.
    + exists g. apply (gate_stay g s m t gate_tryenter); try done. by intros ->.
  - destruct Hok as [-> [= E1 E2]]. injection Hx as <- <-. eexists. apply (gate_local _ s m t gate_callout); cbn; auto; try done.
    + by rewrite (gate_awake _ _ _ _ _ Hi Hm).
    + split; [done|]. unfold gate_counts. cbn. by rewrite E1, E2.
  - pose proof Hok as [-> [= E1 E2]]. assert (s' = s ∧ p' = gate_hung ∨
      s' = GateS (dgo_once s) (gate_kern s) (gate_started s) (S (gate_completed s)) ∧ p' = gate_xchg) as [[-> ->]|[-> ->]].
    { destruct ch; injection Hx as <- <-; auto. }
    { eexists. by apply (gate_stay _ s m t gate_calling). }
    eexists. apply (gate_local _ s m t gate_calling); cbn; auto; try done.
    + by rewrite (gate_awake _ _ _ _ _ Hi Hm).
    + split; [done|]. unfold gate_counts. cbn. by rewrite E1, E2.
  - destruct Hok as [-> _]. eexists. by eapply gate_leave.
  - eexists. by eapply gate_wakes.
  - exists g. by eapply gate_rmw_body.
  - exists g. by eapply gate_cas_ok.
  - destruct Hok as [Hg [r' Enew]]. exists g. unfold wait_step in Hx.
    assert (s' = s ∧ is_inside p' = false ∧ inside_ok g (gate_counts s) t p' ∨
      dgl_lock s = new_value ∧ s' = set_gate_kern (u_sleep t gate_addr (gate_kern s)) s ∧ p' = gate_asleep new_value)
      as [(-> & Hin & Hp)|(E & -> & ->)].
    { destruct ch as [|err| |]; [|destruct (dispatch_wait_error err); [done|]; injection Hx as <- <-; left|..];
        [|unfold after_error; case_decide; cbn; eauto|..];
        destruct (Z.eqb_spec (dgl_lock s) new_value) as [E|E]; injection Hx as <- <-; cbn; eauto. }
    { by apply (gate_stay g s m t (gate_wait new_value)). }
    apply (gate_local g s m t (gate_wait new_value)); cbn; eauto; try done; rewrite u_sleep_ok.
    + intros u Hu. by rewrite lookup_insert_ne.
    + rewrite lookup_insert_eq. intros a [= <-]. split_and!; [done|eauto|].
      pose proof (owner_ok r') as (? & ? & _). destruct g as [|r|]; [done| |exfalso; lia].
      pose proof (owner_ok r) as (? & ? & _). exists r. split; [done|].
      destruct Hv as [?|?]; [exfalso; Z.to_euclidean_division_equations; lia|done].
  - destruct Hok as [Hg Hnew]. exists g. unfold asleep_step in Hx.
    assert (∃ b u, u_return t b (gate_kern s) = Some u ∧ s' = set_gate_kern u s ∧ is_inside p' = false ∧
      inside_ok g (gate_counts s) t p' ∧ ∀ new, p' ≠ gate_asleep new) as (b & u & Eu & -> & Hin & Hp & Hna).
    { destruct ch as [|err| |]; [|destruct (dispatch_wait_error err); [done|]|..];
        (destruct (u_return t _ (gate_kern s)) as [u|] eqn:Eu; [|done]); injection Hx as <- <-;
        do 2 eexists; (split_and!; [exact Eu|..]); unfold after_error; try case_decide; cbn; eauto. }
    apply u_return_ok in Eu.
    apply (gate_local g s m t (gate_asleep new_value)); cbn; auto; try done.
    + intros x Hx'. by rewrite Eu, lookup_delete_ne.
    + by rewrite Eu, lookup_delete_eq.
Qed.

Lemma gate_reachable c : reachable gate_init c → ∃ g, gate_inv g c.
Proof.
  apply (machine_inv _ _ _ (λ c, ∃ g, gate_inv g c)).
  - exists Closed. split; cbn; try done. intros t a. by rewrite u_empty_ok, lookup_empty.
  - intros s m t p [g Hi] Hm Hp _. destruct p; try done. exists g. pose proof Hi as [Hv Hc Hr Hct Hs].
    assert (∀ u q, m !! u = Some q → <[t := gate_check]> m !! u = Some q) as Hlk.
    { intros u q Hu. rewrite lookup_insert_ne; congruence. }
    split; cbn; try done.
    + intros u q [[<- <-]|[_ Hq]]%lookup_insert_Some; [done|by apply Hc].
    + intros r Hg. destruct (Hr r Hg) as (q & Hq & Hqq). eauto.
    + intros u a Ha. destruct (Hs _ _ Ha) as (-> & [new Hu] & Hz). split_and!; [done|eauto|].
      destruct g as [|r|]; [done..|]. destruct Hz as (r & cur & Hz). eauto.
  - intros s m t ch p s' p' [g Hi] Hm Hx. by eapply gate_step.
Qed.

(** ** Theorems *)

(** The function is called at most once, and it has returned when any call
    returns. *)
Theorem gate_exactly_once c :
  reachable gate_init c →
  (gate_started (shared c) ≤ 1)%nat ∧ (gate_completed (shared c) ≤ gate_started (shared c))%nat ∧
  ∀ t, calls c !! t = Some gate_returned →
    gate_started (shared c) = 1%nat ∧ gate_completed (shared c) = 1%nat ∧ dgo_once (shared c) = DLOCK_ONCE_DONE.
Proof.
  intros [g Hi]%gate_reachable. pose proof Hi as [Hv Hc Hr Hct _]. unfold gate_counts in *.
  assert ((gate_started (shared c) ≤ 1)%nat ∧ (gate_completed (shared c) ≤ gate_started (shared c))%nat) as [H1 H2].
  { destruct g as [|r|]; try (injection Hct as -> ->; lia). destruct (Hr r eq_refl) as (p & Hp & Hin).
    specialize (Hc _ _ Hp). destruct p; try done; cbn in Hc; destruct Hc as [_ [= -> ->]]; lia. }
  split_and!; [done..|]. intros t Ht. specialize (Hc _ _ Ht). cbn in Hc. subst g. by injection Hct as -> ->.
Qed.

(** When no call can go on, all have returned, or the function did not return:
    then the call that runs it hangs and every other one sleeps. *)
Theorem gate_quiescent c :
  reachable gate_init c → quiet c →
  (∀ t p, calls c !! t = Some p → finished p = true) ∨
  ∃ r, calls c !! r = Some gate_hung ∧ ∀ t p, calls c !! t = Some p → t = r ∨ ∃ n, p = gate_asleep n.
Proof.
  intros [g Hi]%gate_reachable Hq. destruct c as [s m]. cbn.
  assert (∀ t p, m !! t = Some p → p = gate_returned ∨ p = gate_hung ∨
    is_Some (u_asleep (gate_kern s) !! t) ∧ ∃ n, p = gate_asleep n) as Hcase.
  { intros t p Hp. specialize (Hq t). unfold blocked in Hq. cbn in Hq. rewrite Hp in Hq.
    destruct p; auto; cbn in Hq;
      unfold check_step, tryenter_step, callout_step, calling_step, xchg_step, broadcast_step, load_step, cas_step,
        wait_step, asleep_step, rmw_body, after_rmw, goes in Hq; try (by repeat case_match).
    do 2 right. split; [|eauto]. destruct (u_asleep (gate_kern s) !! t) eqn:Ea; [eauto|].
    destruct (u_return_woken t _ Ea) as [u Hu]. by rewrite Hu in Hq. }
  destruct g as [|r|].
  - left. intros t p Hp. pose proof (ga_calls _ _ Hi _ _ Hp) as Hok.
    destruct (Hcase _ _ Hp) as [->|[->|[_ [n ->]]]]; cbn in Hok; by destruct Hok.
  - right. destruct (ga_inside _ _ Hi r eq_refl) as (q & Hr & Hin). cbn in Hr. exists r.
    destruct (Hcase _ _ Hr) as [->|[->|[_ [n ->]]]]; try done. split; [done|]. intros t p Hp.
    pose proof (ga_calls _ _ Hi _ _ Hp) as Hok.
    destruct (Hcase _ _ Hp) as [->|[->|[_ [n ->]]]]; cbn in Hok; [done| |eauto]. left. naive_solver.
  - left. intros t p Hp. pose proof (ga_calls _ _ Hi _ _ Hp) as Hok.
    destruct (Hcase _ _ Hp) as [->|[->|[[a Ha] _]]]; cbn in Hok; [done|naive_solver|].
    destruct (ga_asleep _ _ Hi t a Ha) as (_ & _ & r & cur & Hr).
    destruct (Hcase _ _ Hr) as [?|[?|[_ [n ?]]]]; done.
Qed.

(** The system call that fails in event [e] of call [p] aborts the process. *)
Definition gate_kernel_abort (ch : choice) (p : pc) (r : crash_reason) : Prop :=
  match p, ch with
  | gate_wait _, Failed err | gate_asleep _, Failed err => dispatch_wait_error err = Some r
  | gate_broadcast _, Failed err => dispatch_wake_error err = Some r
  | _, _ => False
  end.

(** A call that loads the word of a gate finds it held by another call of its thread. *)
Lemma gate_locked_by_self g s m t p :
  gate_inv g (Cfg s m) → m !! t = Some p → is_inside p = false → g ≠ Closed → dgl_lock s ≠ 2 ^ 32 - 1 →
  _dispatch_lock_is_locked_by (dgl_lock s) (owner t) = true →
  ∃ u q, u ≠ t ∧ owner u = owner t ∧ m !! u = Some q ∧ is_inside q = true.
Proof.
  intros Hi Ep Hnin Hg Hx Hl. pose proof (lock_word _ _ _ Hi) as Hw. pose proof (ga_val _ _ Hi) as Hv. cbn in Hv.
  destruct g as [|r'|]; [done| |done].
  destruct (ga_inside _ _ Hi r' eq_refl) as (q & Hq & Hqq). exists r', q. cbn in Hq.
  split_and!; [intros ->; congruence| |done|done].
  destruct (locked_by_owner r' t) as (L1 & L2 & _). rewrite Hw in Hl.
  apply Z.eqb_eq. destruct Hv as [E|E]; rewrite E in Hl; congruence.
Qed.

(** C31. The process aborts only when a call is made from inside the function, by
    the thread that runs it, or when a system call reports an error other than
    EINTR, and EFAULT or ETIMEDOUT for the wait: EOWNERDEAD (the thread that runs
    the function died) or an unknown one. *)
Theorem gate_crash_recursive c e r :
  reachable gate_init c → do_event exec starts finished e c = Crash r →
  ∃ t ch p, e = Run t ch ∧ calls c !! t = Some p ∧
    (gate_kernel_abort ch p r ∨
     r = CLIENT_CRASH ∧ ∃ u q, u ≠ t ∧ owner u = owner t ∧ calls c !! u = Some q ∧ is_inside q = true).
Proof.
  intros [g Hi]%gate_reachable He. destruct c as [s m].
  destruct e as [t p|t ch]; cbn in He; [by repeat case_match|].
  destruct (m !! t) as [p|] eqn:Ep; [|done]. pose proof (ga_calls _ _ Hi _ _ Ep) as Hok. cbn in Hok.
  exists t, ch, p. split_and!; [done..|].
  pose proof (gate_locked_by_self g s m t p Hi Ep) as Hend.
  destruct (exec ch t s p) as [[[]|]|] eqn:Ex; simplify_eq.
  destruct p; cbn in Ex, Hok |- *;
    unfold check_step, tryenter_step, callout_step, calling_step, xchg_step, broadcast_step, load_step, cas_step,
      wait_step, asleep_step, rmw_body, after_rmw, goes in Ex; try (by repeat case_match).
  - left. destruct Hok as [_ ->]. destruct (locked_by_owner t t) as (_ & _ & E). rewrite E, Z.eqb_refl in Ex.
    destruct ch as [|err| |]; try done. destruct (dispatch_wake_error err); [congruence|done].
  - right. change (u32 DLOCK_ONCE_DONE) with (2 ^ 32 - 1) in Ex.
    destruct (Z.eqb_spec (dgl_lock s) (2 ^ 32 - 1)); [done|].
    destruct (_ =? dgl_lock s); [|done].
    destruct (_dispatch_lock_is_locked_by _ _) eqn:El; [|done]. split; [congruence|]. by apply Hend.
  - right. change (u32 DLOCK_ONCE_DONE) with (2 ^ 32 - 1) in Ex. destruct Hok as [Hg [r' ->]]. pose proof (owner_ok r').
    assert (r = CLIENT_CRASH ∧ dgl_lock s ≠ 2 ^ 32 - 1 ∧ _dispatch_lock_is_locked_by (dgl_lock s) (owner t) = true)
      as (-> & ? & ?); [|split; [done|]; by apply Hend].
    destruct (Z.eqb_spec (dgl_lock s) (owner r')) as [E|E];
      destruct (Z.eqb_spec (dgl_lock s) (2 ^ 32 - 1)); try lia; rewrite ?E in *;
      destruct ch; repeat case_match; simplify_eq; try done; split_and!; done || lia.
  - left. destruct ch as [|err| |]; [by repeat case_match| |by repeat case_match..].
    destruct (dispatch_wait_error err); [congruence|done].
  - left. destruct ch as [|err| |]; [by repeat case_match| |by repeat case_match..].
    destruct (dispatch_wait_error err); [congruence|]. by repeat case_match.
Qed.
End correct.

(** ** dispatch_once with a gate: runs

    Concrete schedules on [SleepMap] that satisfy the hypotheses of the theorems
    of DispatchGate.v. *)

(** Every call on a thread of its own; resp. calls 1 and 2 on one thread. *)
Definition port_own (t : tid) : Z := if bool_decide (t ∈ [1%positive; 2%positive; 3%positive; 4%positive])
  then 4 * Zpos t + 3 else 259.
Definition port_shared (t : tid) : Z := 263.

Lemma port_own_ok t : 4 ≤ port_own t < 2 ^ 32.
Proof. unfold port_own. case_bool_decide as E; [|lia]. set_unfold in E. naive_solver lia. Qed.
Lemma port_shared_ok t : 4 ≤ port_shared t < 2 ^ 32.
Proof. unfold port_shared. lia. Qed.

Local Abbreviation gate_cfg := (@config (gate_s (gmap tid addr)) pc).

Definition gate_runs (n : nat) (t : tid) : list (event (P := pc) (C := choice)) := replicate n (Run t Go).

(** Call 1 runs the function, 2 sets the waiters bit and sleeps, 3 finds it set
    and sleeps, 4 comes afterwards. *)
Definition through_gate : list event :=
  [Start 1 gate_check] ++ gate_runs 3 1 ++ [Start 2 gate_check] ++ gate_runs 5 2 ++
  [Start 3 gate_check] ++ gate_runs 4 3 ++ gate_runs 3 1 ++ gate_runs 2 2 ++ gate_runs 2 3 ++
  [Start 4 gate_check; Run 4 Go].

Definition gate_end : gate_cfg := after (exec port_own) starts finished through_gate gate_init.

Lemma gate_end_reachable : reachable (exec port_own) starts finished gate_init gate_end.
Proof. apply (run_reachable _ _ _ through_gate). vm_compute. reflexivity. Qed.

Lemma gate_exactly_once_witness :
  (gate_started (shared gate_end) ≤ 1)%nat ∧ (gate_completed (shared gate_end) ≤ gate_started (shared gate_end))%nat ∧
  ∀ t, calls gate_end !! t = Some gate_returned →
    gate_started (shared gate_end) = 1%nat ∧ gate_completed (shared gate_end) = 1%nat ∧
    dgo_once (shared gate_end) = DLOCK_ONCE_DONE.
Proof. apply (gate_exactly_once port_own port_own_ok), gate_end_reachable. Defined.

Lemma gate_quiescent_witness :
  (∀ t p, calls gate_end !! t = Some p → finished p = true) ∨
  ∃ r, calls gate_end !! r = Some gate_hung ∧ ∀ t p, calls gate_end !! t = Some p → t = r ∨ ∃ n, p = gate_asleep n.
Proof.
  apply (gate_quiescent port_own port_own_ok); [apply gate_end_reachable|].
  apply quietb_quiet. vm_compute. reflexivity.
Defined.

(** Call 2 is made from inside the function that call 1 runs. *)
Definition nested : list event := [Start 1 gate_check] ++ gate_runs 3 1 ++ [Start 2 gate_check] ++ gate_runs 3 2.

Definition gate_nested : gate_cfg := after (exec port_shared) starts finished nested gate_init.

Lemma gate_crash_recursive_witness :
  ∃ t ch p, (Run 2 Go : event (P := pc)) = Run t ch ∧ calls gate_nested !! t = Some p ∧
    (gate_kernel_abort ch p CLIENT_CRASH ∨
     CLIENT_CRASH = CLIENT_CRASH ∧ ∃ u q, u ≠ t ∧
       _dispatch_lock_value_for_self port_shared u = _dispatch_lock_value_for_self port_shared t ∧
       calls gate_nested !! u = Some q ∧ is_inside q = true).
Proof.
  apply (gate_crash_recursive port_shared port_shared_ok gate_nested (Run 2 Go) CLIENT_CRASH).
  - apply (run_reachable _ _ _ nested). vm_compute. reflexivity.
  - vm_compute. reflexivity.
Defined.

(** A thread that dies inside the function: the waiter that sleeps on the gate aborts. *)
Example gate_owner_dies :
  match run (exec port_own) starts finished ([Start 1 gate_check] ++ gate_runs 3 1 ++ [Start 2 gate_check] ++ gate_runs 5 2 ++
    [Run 1 Hangs; Run 2 (Failed EOWNERDEAD)]) (Cfg gate_init ∅ : gate_cfg) with
  | Crash r => r = CLIENT_CRASH
  | Ok _ => False
  end.
Proof. vm_compute. reflexivity. Qed.
