(* ===== verification/OsUnfairLock.v ===== *)
(** * libplatform unfair locks: definitions

    Model of [os_unfair_lock] and [os_unfair_recursive_lock]
    (src/libplatform-177.250.1/src/os/lock.c) on top of [__ulock_wait] and
    [__ulock_wake] (SyncKernel.v).  A thread is a program counter with the number
    of times it holds the lock, which is not part of the program: it is what the
    caller knows from the calls that have returned.  Between two calls a thread is
    [ready], and the choice of the next call is arbitrary; one step is one access
    to the lock or one system call.  The variants for libpthread without a thread
    name ([..._no_tsd_4libpthread]) are left out. *)

From S2P Require Import Prelude SyncMachine SyncKernel.

Module UnfairLock.

Definition OS_LOCK_NO_OWNER : Z := 0.
Definition OS_ULOCK_NOWAITERS_BIT : Z := 1.
Definition OS_ULOCK_ANONYMOUS_OWNER : Z := 2 ^ 32 - 1.  (* MACH_PORT_DEAD *)
Definition OS_UNFAIR_LOCK_OPTIONS_MASK : Z := 0x10000.  (* OS_UNFAIR_LOCK_DATA_SYNCHRONIZATION *)
Definition OS_UNFAIR_LOCK_ALLOW_ANONYMOUS_OWNER : Z := 0x1000000.

(** [~ x] at 32 bits. *)
Definition not32 (x : Z) : Z := u32 (Z.lnot x).

Definition OS_ULOCK_OWNER (value : Z) : Z := Z.lor value OS_ULOCK_NOWAITERS_BIT.
Definition OS_ULOCK_IS_OWNER (value self allow_anonymous_owner : Z) : bool :=
  let owner := OS_ULOCK_OWNER value in
  (owner =? self) && ((allow_anonymous_owner =? 0) || negb (owner =? OS_ULOCK_ANONYMOUS_OWNER)).
Definition OS_ULOCK_IS_NOT_OWNER (value self allow_anonymous_owner : Z) : bool :=
  let owner := OS_ULOCK_OWNER value in
  negb (owner =? self) && ((allow_anonymous_owner =? 0) || negb (owner =? OS_ULOCK_ANONYMOUS_OWNER)).

(** [os_unfair_recursive_lock]; a plain lock has no count, which stays 0. *)
Record os_unfair_recursive_lock_s (U : Type) := UnfairS {
  oul_value : Z;
  ourl_count : Z;
  lock_kern : U;
}.
Arguments UnfairS {U}.
Arguments oul_value {U}.
Arguments ourl_count {U}.
Arguments lock_kern {U}.

(** The calls. *)
Inductive op :=
| Lock (options : Z) | TryLock | Unlock
| RLock (options : Z) | RTryLock | RUnlock | RTryUnlock
| AssertOwner | AssertNotOwner.

(** The next call of the thread, and how a system call ends. *)
Inductive choice := Do (o : op) | Go | Failed (err : errno).

Inductive place :=
| ready
| lock_cas (options : Z)
| trylock_cas
| rlock_cas (options : Z)
| rtrylock_cas
| count_inc
(* _os_unfair_lock_lock_slow *)
| slow_load (allow waiters_mask : Z)
| slow_clear (allow waiters_mask current : Z)
| slow_wait (allow waiters_mask current : Z)
| slow_asleep (allow waiters_mask current : Z)
| slow_take (allow waiters_mask : Z)
(* unlock *)
| unlock_xchg
| unlock_wake
| runlock_count
| runlock_owner
| runlock_dec
| tryunlock_owner
(* os_unfair_lock_assert_owner, os_unfair_lock_assert_not_owner *)
| assert_load (want : bool).

#[export] Instance place_eq_dec : EqDecision place.
Proof. solve_decision. Defined.

Record thread := Th { held : nat; at_ : place }.

#[export] Instance thread_eq_dec : EqDecision thread.
Proof. solve_decision. Defined.

(** The word the threads sleep on. *)
Definition lock_addr : addr := 1%positive.

Section model.
Context {U : Type} `{AddressWaiter U} `{!AddressCount U}.
(** The threads that use the lock, the port of each, and whether the lock is used as
    a recursive one. *)
Context (threads : gset tid) (self : tid → Z) (recursive : bool).

Local Abbreviation state := (os_unfair_recursive_lock_s U).
Local Abbreviation result := (outcome (option (state * thread))).

(** [OS_UNFAIR_LOCK_INIT], [OS_UNFAIR_RECURSIVE_LOCK_INIT] *)
Definition unfair_init : state := UnfairS OS_LOCK_NO_OWNER 0 u_empty.

Definition set_value (v : Z) (s : state) : state := UnfairS v (ourl_count s) (lock_kern s).
Definition set_count (n : Z) (s : state) : state := UnfairS (oul_value s) n (lock_kern s).
Definition set_kern (u : U) (s : state) : state := UnfairS (oul_value s) (ourl_count s) u.

Definition goes (s : state) (h : nat) (p : place) : result := Ok (Some (s, Th h p)).

(** The calls that fit the kind of the lock; a recursive lock is not taken 2^32
    times at once, the range of its count. *)
Definition allowed (h : nat) (o : op) : bool :=
  match o with
  | Lock _ | TryLock | Unlock => negb recursive
  | RLock _ | RTryLock => recursive && (Z.of_nat h <? 2 ^ 32)
  | RUnlock | RTryUnlock => recursive
  | AssertOwner | AssertNotOwner => true
  end.

Definition first_place (o : op) : place :=
  match o with
  | Lock options => lock_cas options
  | TryLock => trylock_cas
  | Unlock => unlock_xchg
  | RLock options => rlock_cas options
  | RTryLock => rtrylock_cas
  | RUnlock => runlock_count
  | RTryUnlock => tryunlock_owner
  | AssertOwner => assert_load true
  | AssertNotOwner => assert_load false
  end.

Definition ready_step (c : choice) (t : tid) (h : nat) (s : state) : result :=
  match c with
  | Do o => if bool_decide (t ∈ threads) && allowed h o then goes s h (first_place o) else Ok None
  | _ => Ok None
  end.

(** The start of [_os_unfair_lock_lock_slow]. *)
Definition enter_slow (options : Z) (h : nat) (s : state) : result :=
  let allow := Z.land options OS_UNFAIR_LOCK_ALLOW_ANONYMOUS_OWNER in
  let options := Z.land options (not32 OS_UNFAIR_LOCK_ALLOW_ANONYMOUS_OWNER) in
  if Z.land options (not32 OS_UNFAIR_LOCK_OPTIONS_MASK) =? 0 then goes s h (slow_load allow 0)
  else Crash CLIENT_CRASH.

(** [os_unfair_lock_lock], [os_unfair_lock_lock_with_options] *)
Definition lock_cas_step (options : Z) (t : tid) (h : nat) (s : state) : result :=
  if oul_value s =? OS_LOCK_NO_OWNER then goes (set_value (self t) s) (S h) ready
  else enter_slow options h s.

(** [os_unfair_lock_trylock] *)
Definition trylock_cas_step (t : tid) (h : nat) (s : state) : result :=
  if oul_value s =? OS_LOCK_NO_OWNER then goes (set_value (self t) s) (S h) ready
  else goes s h ready.

(** [os_unfair_recursive_lock_lock_with_options] *)
Definition rlock_cas_step (options : Z) (t : tid) (h : nat) (s : state) : result :=
  if oul_value s =? OS_LOCK_NO_OWNER then goes (set_value (self t) s) (S h) ready
  else if OS_ULOCK_OWNER (oul_value s) =? self t then goes s h count_inc
  else enter_slow options h s.

(** [os_unfair_recursive_lock_trylock] *)
Definition rtrylock_cas_step (t : tid) (h : nat) (s : state) : result :=
  if oul_value s =? OS_LOCK_NO_OWNER then goes (set_value (self t) s) (S h) ready
  else if OS_ULOCK_OWNER (oul_value s) =? self t then goes s h count_inc
  else goes s h ready.

(** [lock->ourl_count++] *)
Definition count_inc_step (h : nat) (s : state) : result :=
  goes (set_count (u32 (ourl_count s + 1)) s) (S h) ready.

(** From [_retry:] to the next access to the lock. *)
Definition retry (allow mask current : Z) (t : tid) (h : nat) (s : state) : result :=
  if OS_ULOCK_IS_OWNER current (self t) allow then Crash CLIENT_CRASH
  else
    let new := Z.land current (not32 OS_ULOCK_NOWAITERS_BIT) in
    goes s h (if current =? new then slow_wait allow mask current else slow_clear allow mask current).

Definition slow_load_step (allow mask : Z) (t : tid) (h : nat) (s : state) : result :=
  if oul_value s =? OS_LOCK_NO_OWNER then goes s h (slow_take allow mask)
  else retry allow mask (oul_value s) t h s.

Definition slow_clear_step (allow mask current : Z) (h : nat) (s : state) : result :=
  let new := Z.land current (not32 OS_ULOCK_NOWAITERS_BIT) in
  if oul_value s =? current then goes (set_value new s) h (slow_wait allow mask new)
  else goes s h (slow_load allow mask).

(** The mask after [__ulock_wait] returned [ret >= 0]. *)
Definition new_mask (ret : Z) : Z := if 0 <? ret then OS_ULOCK_NOWAITERS_BIT else 0.

(** What [__ulock_wait] and [__ulock_wake] cannot end with: [EINTR] and [EFAULT],
    resp. [EINTR], repeat the call. *)
Definition wait_error (err : errno) : option crash_reason :=
  match err with
  | EINTR | EFAULT => None
  | EOWNERDEAD => Some CLIENT_CRASH      (* _os_unfair_lock_corruption_abort *)
  | _ => Some INTERNAL_CRASH
  end.
Definition wake_error (err : errno) : option crash_reason :=
  match err with EINTR => None | _ => Some INTERNAL_CRASH end.

(** [__ulock_wait] before it sleeps. *)
Definition slow_wait_step (c : choice) (allow mask current : Z) (t : tid) (h : nat) (s : state) : result :=
  match c with
  | Failed err => match wait_error err with Some r => Crash r | None => goes s h (slow_load allow mask) end
  | _ =>
      if oul_value s =? current then
        goes (set_kern (u_sleep t lock_addr (lock_kern s)) s) h (slow_asleep allow mask current)
      else goes s h (slow_load allow (new_mask (u_remaining lock_addr (lock_kern s))))
  end.

(** ... and when it returns. *)
Definition slow_asleep_step (c : choice) (allow mask : Z) (t : tid) (h : nat) (s : state) : result :=
  let back (failed : bool) :=
    match u_return t failed (lock_kern s) with
    | Some u => goes (set_kern u s) h (slow_load allow (if failed then mask else new_mask (u_remaining lock_addr u)))
    | None => Ok None
    end in
  match c with
  | Failed err => match wait_error err with Some r => Crash r | None => back true end
  | _ => back false
  end.

Definition slow_take_step (allow mask : Z) (t : tid) (h : nat) (s : state) : result :=
  if oul_value s =? OS_LOCK_NO_OWNER then goes (set_value (Z.land (self t) (not32 mask)) s) (S h) ready
  else retry allow mask (oul_value s) t h s.

(** [os_unfair_lock_unlock] and the start of [_os_unfair_lock_unlock_slow]. *)
Definition unlock_xchg_step (t : tid) (h : nat) (s : state) : result :=
  let current := oul_value s in
  let s := set_value OS_LOCK_NO_OWNER s in
  if current =? self t then goes s (h - 1) ready
  else if OS_ULOCK_IS_NOT_OWNER current (self t) 0 then Crash CLIENT_CRASH
  else if Z.land current OS_ULOCK_NOWAITERS_BIT =? 0 then goes s (h - 1) unlock_wake
  else Crash INTERNAL_CRASH.

Definition unlock_wake_step (c : choice) (h : nat) (s : state) : result :=
  match c with
  | Failed err => match wake_error err with Some r => Crash r | None => goes s h unlock_wake end
  | _ => goes (set_kern (u_wake lock_addr false (lock_kern s)) s) h ready
  end.

(** [_os_unfair_recursive_lock_unlock] *)
Definition runlock_count_step (h : nat) (s : state) : result :=
  goes s h (if ourl_count s =? 0 then unlock_xchg else runlock_owner).
Definition runlock_owner_step (t : tid) (h : nat) (s : state) : result :=
  if OS_ULOCK_OWNER (oul_value s) =? self t then goes s h runlock_dec else Crash CLIENT_CRASH.
Definition runlock_dec_step (h : nat) (s : state) : result :=
  goes (set_count (u32 (ourl_count s - 1)) s) (h - 1) ready.

(** [os_unfair_recursive_lock_tryunlock4objc] *)
Definition tryunlock_owner_step (t : tid) (h : nat) (s : state) : result :=
  goes s h (if OS_ULOCK_OWNER (oul_value s) =? self t then runlock_count else ready).

Definition assert_step (want : bool) (t : tid) (h : nat) (s : state) : result :=
  let bad := if want then OS_ULOCK_IS_NOT_OWNER (oul_value s) (self t) 0
             else OS_ULOCK_IS_OWNER (oul_value s) (self t) 0 in
  if bad then Crash CLIENT_CRASH else goes s h ready.

Definition exec (c : choice) (t : tid) (s : state) (th : thread) : result :=
  let h := held th in
  match at_ th with
  | ready => ready_step c t h s
  | lock_cas options => lock_cas_step options t h s
  | trylock_cas => trylock_cas_step t h s
  | rlock_cas options => rlock_cas_step options t h s
  | rtrylock_cas => rtrylock_cas_step t h s
  | count_inc => count_inc_step h s
  | slow_load allow mask => slow_load_step allow mask t h s
  | slow_clear allow mask current => slow_clear_step allow mask current h s
  | slow_wait allow mask current => slow_wait_step c allow mask current t h s
  | slow_asleep allow mask _ => slow_asleep_step c allow mask t h s
  | slow_take allow mask => slow_take_step allow mask t h s
  | unlock_xchg => unlock_xchg_step t h s
  | unlock_wake => unlock_wake_step c h s
  | runlock_count => runlock_count_step h s
  | runlock_owner => runlock_owner_step t h s
  | runlock_dec => runlock_dec_step h s
  | tryunlock_owner => tryunlock_owner_step t h s
  | assert_load want => assert_step want t h s
  end.

(** A thread begins outside of any call; it never ends. *)
Definition starts (th : thread) : bool := match th with Th 0 ready => true | _ => false end.
Definition finished (th : thread) : bool := false.
End model.
End UnfairLock.
