(* ===== verification/OsUnfairLockCorrect.v ===== *)
(** * libplatform unfair locks: correctness

    At most one thread holds the lock, for a plain lock and for a recursive one at
    any depth; the process aborts only when a caller breaks the rules; and no
    wake-up is lost: while a thread sleeps, either the word of the held lock says
    that there are waiters, or some thread on its way will look after them. *)

From S2P Require Import Prelude SyncMachine OsUnfairLock SyncKernel.
Import UnfairLock.

(** ** Lock words *)

Lemma owner_spec v : OS_ULOCK_OWNER v = v + 1 - v mod 2.
Proof. apply lor_low_bit. Qed.

Lemma clear_spec v : 0 ≤ v < 2 ^ 32 → Z.land v (not32 OS_ULOCK_NOWAITERS_BIT) = v - v mod 2.
Proof. intros Hv. apply (land_clear_low 1 v); [lia|done]. Qed.

Lemma not_bit_spec v : Z.land v OS_ULOCK_NOWAITERS_BIT = v mod 2.
Proof. apply (Z.land_ones v 1). lia. Qed.

Definition mask_ok (mask : Z) : Prop := mask = 0 ∨ mask = 1.

Lemma new_mask_ok ret : mask_ok (new_mask ret).
Proof. unfold new_mask. destruct (0 <? ret); [by right|by left]. Qed.

(** ** The invariant *)

Definition is_asleep (p : place) : bool := match p with slow_asleep _ _ _ => true | _ => false end.

Section correct.
Context {U : Type} `{AddressWaiterLaws U} `{!AddressCount U} `{!AddressCountLaws U}.
Context (threads : gset tid) (self : tid → Z) (recursive : bool).
(** "This assumes that all thread mach port values always have the low bit set!" *)
Hypothesis self_ok : ∀ t, 1 < self t < OS_ULOCK_ANONYMOUS_OWNER ∧ self t mod 2 = 1.
Hypothesis self_inj : ∀ t u, t ∈ threads → u ∈ threads → self t = self u → t = u.

Local Abbreviation state := (os_unfair_recursive_lock_s U).
Local Abbreviation cfg := (@config state thread).
Local Abbreviation exec := (exec threads self recursive).
Local Abbreviation reachable := (reachable exec starts finished).
Local Abbreviation crashes := (crashes exec starts finished).
Implicit Types (s : state) (c : cfg) (m : gmap tid thread).

(** What a thread knows at each place. *)
Definition place_ok (h : nat) (p : place) : Prop :=
  (recursive = false → (h ≤ 1)%nat) ∧ Z.of_nat h ≤ 2 ^ 32 ∧
  match p with
  | lock_cas _ | trylock_cas => recursive = false
  | rlock_cas _ | rtrylock_cas => recursive = true ∧ Z.of_nat h < 2 ^ 32
  | count_inc => recursive = true ∧ (1 ≤ h)%nat ∧ Z.of_nat h < 2 ^ 32
  | slow_load _ mask => mask_ok mask ∧ (recursive = true → h = 0%nat)
  | slow_clear _ mask current => mask_ok mask ∧ h = 0%nat ∧ current mod 2 = 1
  | slow_wait _ mask current | slow_asleep _ mask current => mask_ok mask ∧ h = 0%nat ∧ current mod 2 = 0 ∧ current ≠ 0
  | slow_take _ mask => mask_ok mask ∧ h = 0%nat
  | unlock_xchg => (h ≤ 1)%nat
  | unlock_wake => h = 0%nat
  | runlock_count | tryunlock_owner => recursive = true
  | runlock_owner => recursive = true ∧ h ≠ 1%nat
  | runlock_dec => recursive = true ∧ (2 ≤ h)%nat
  | _ => True
  end.

(** The word says that there are waiters. *)
Definition shown s : Prop := oul_value s ≠ 0 ∧ oul_value s mod 2 = 0.

(** A thread on its way that wakes a sleeper, takes the lock with waiters shown,
    or makes the owner show them. *)
Definition carrier s (t : tid) (p : place) : Prop :=
  match p with
  | unlock_wake => True
  | slow_load _ mask | slow_clear _ mask _ | slow_take _ mask => mask = 1
  | slow_asleep _ _ _ => u_asleep (lock_kern s) !! t = None
  | _ => False
  end.

Definition baton s m : Prop := shown s ∨ ∃ t th, m !! t = Some th ∧ carrier s t (at_ th).

Record lock_inv c : Prop := {
  li_place t th : calls c !! t = Some th → place_ok (held th) (at_ th);
  li_thread t th : calls c !! t = Some th → th = Th 0 ready ∨ t ∈ threads;
  li_held t th : calls c !! t = Some th → (1 ≤ held th)%nat →
    OS_ULOCK_OWNER (oul_value (shared c)) = self t ∧ oul_value (shared c) ≠ 0 ∧
    ourl_count (shared c) = Z.of_nat (held th) - 1;
  li_owner : oul_value (shared c) ≠ 0 → ∃ t th, calls c !! t = Some th ∧ (1 ≤ held th)%nat;
  li_free : oul_value (shared c) = 0 → ourl_count (shared c) = 0;
  li_asleep t a : u_asleep (lock_kern (shared c)) !! t = Some a →
    a = lock_addr ∧ ∃ th, calls c !! t = Some th ∧ is_asleep (at_ th) = true;
  li_baton t a : u_asleep (lock_kern (shared c)) !! t = Some a → baton (shared c) (calls c);
}.

Lemma value_word s m : lock_inv (Cfg s m) → oul_value s = 0 ∨ ∃ t, oul_value s = self t ∨ oul_value s = self t - 1.
Proof.
  intros Hi. destruct (decide (oul_value s = 0)) as [|Hne]; [by left|right].
  destruct (li_owner _ Hi Hne) as (t & th & Ht & Hh). exists t.
  destruct (li_held _ Hi t th Ht Hh) as (E & _). cbn in E. rewrite owner_spec in E.
  destruct (self_ok t) as [_ Ho]. Z.to_euclidean_division_equations. lia.
Qed.

Lemma value_range s m : lock_inv (Cfg s m) → 0 ≤ oul_value s < 2 ^ 32 ∧ oul_value s ≠ 1.
Proof.
  intros Hi. destruct (value_word s m Hi) as [->|(t & Ht)]; [lia|].
  destruct (self_ok t) as [Hs Ho]. unfold OS_ULOCK_ANONYMOUS_OWNER in Hs. Z.to_euclidean_division_equations. lia.
Qed.

Lemma in_threads s m t th : lock_inv (Cfg s m) → m !! t = Some th → th ≠ Th 0 ready → t ∈ threads.
Proof. intros Hi Ht Hne. by destruct (li_thread _ Hi t th Ht). Qed.

Lemma holder_in s m t th : lock_inv (Cfg s m) → m !! t = Some th → (1 ≤ held th)%nat → t ∈ threads.
Proof. intros Hi Ht Hh. eapply in_threads; [done..|]. intros ->. cbn in Hh. lia. Qed.

(** Only the owner sees its own port in the word. *)
Lemma owner_is s m t th :
  lock_inv (Cfg s m) → m !! t = Some th → t ∈ threads →
  OS_ULOCK_OWNER (oul_value s) = self t → oul_value s ≠ 0 → (1 ≤ held th)%nat.
Proof.
  intros Hi Ht Hin E Hne. destruct (li_owner _ Hi Hne) as (u & thu & Hu & Hh).
  destruct (li_held _ Hi u thu Hu Hh) as (Eu & _). pose proof (holder_in _ _ _ _ Hi Hu Hh). cbn in *.
  assert (t = u) as -> by (apply self_inj; congruence). congruence.
Qed.

Lemma holder_unique s m t u th thu :
  lock_inv (Cfg s m) → m !! t = Some th → m !! u = Some thu → (1 ≤ held th)%nat → (1 ≤ held thu)%nat → t = u.
Proof.
  intros Hi Ht Hu H1 H2. destruct (li_held _ Hi t th Ht H1) as [E1 _]. destruct (li_held _ Hi u thu Hu H2) as [E2 _].
  apply self_inj; [by eapply holder_in..|congruence].
Qed.

Lemma baton_upd s s' m t th th' :
  m !! t = Some th → baton s m →
  (shown s → shown s' ∨ carrier s' t (at_ th')) →
  (carrier s t (at_ th) → shown s' ∨ carrier s' t (at_ th')) →
  (∀ u p, u ≠ t → carrier s u p → carrier s' u p) →
  baton s' (<[t := th']> m).
Proof.
  intros Ht [Hsh|(u & thu & Hu & Hc)] H1 H2 H3.
  - destruct (H1 Hsh) as [?|?]; [by left|]. right. exists t, th'. by rewrite lookup_insert_eq.
  - destruct (decide (u = t)) as [->|Hne].
    + simplify_eq. destruct (H2 Hc) as [?|?]; [by left|]. right. exists t, th'. by rewrite lookup_insert_eq.
    + right. exists u, thu. rewrite lookup_insert_ne by done. split; [done|by apply H3].
Qed.

(** A step that changes only the place. *)
Lemma place_step s m t h p q :
  lock_inv (Cfg s m) → m !! t = Some (Th h p) → t ∈ threads → is_asleep p = false → place_ok h q →
  (carrier s t p → shown s ∨ carrier s t q) → lock_inv (Cfg s (<[t := Th h q]> m)).
Proof.
  intros Hi Ht Hin Hp Hq Hc. pose proof Hi as [H1 Hth H2 H3 H4 H5 H6]. cbn in *. split; cbn.
  - intros u th [[<- <-]|[_ Hu]]%lookup_insert_Some; [done|by apply (H1 u)].
  - intros u th [[<- <-]|[_ Hu']]%lookup_insert_Some; [by right|by apply (Hth u)].
  - intros u th [[<- <-]|[_ Hu]]%lookup_insert_Some; [apply (H2 t _ Ht)|by apply (H2 u)].
  - intros Hne. destruct (H3 Hne) as (u & th & Hu & Hh). destruct (decide (u = t)) as [->|].
    + simplify_eq. exists t, (Th h q). by rewrite lookup_insert_eq.
    + exists u, th. by rewrite lookup_insert_ne.
  - done.
  - intros u a Ha. destruct (H5 u a Ha) as (-> & th & Hu & Has). split; [done|].
    destruct (decide (u = t)) as [->|]; [simplify_eq; cbn in *; congruence|]. exists th. by rewrite lookup_insert_ne.
  - intros u a Ha. eapply baton_upd; [done|by eapply H6|auto..].
Qed.

(** Taking the free lock. *)
Lemma take_step s m t h p v :
  lock_inv (Cfg s m) → m !! t = Some (Th h p) → t ∈ threads → is_asleep p = false → oul_value s = 0 →
  OS_ULOCK_OWNER v = self t → v ≠ 0 → (carrier s t p → v mod 2 = 0) →
  lock_inv (Cfg (set_value v s) (<[t := Th (S h) ready]> m)).
Proof.
  intros Hi Ht Hin Hp Hv Ho Hne Hc. pose proof Hi as [H1 Hth H2 H3 H4 H5 H6]. cbn in *.
  assert (∀ u th, m !! u = Some th → held th = 0%nat) as Hnone.
  { intros u th Hu. destruct (decide (held th = 0%nat)); [done|]. destruct (H2 u th Hu) as (_ & ? & _); lia. }
  pose proof (Hnone t _ Ht) as Hh. cbn in Hh. subst h. split; cbn.
  - intros u th [[<- <-]|[_ Hu]]%lookup_insert_Some; [|by apply (H1 u)]. split_and!; cbn; [done|lia|done].
  - intros u th [[<- <-]|[_ Hu']]%lookup_insert_Some; [by right|by apply (Hth u)].
  - intros u th [[<- <-]|[_ Hu]]%lookup_insert_Some; cbn; [|rewrite (Hnone u th Hu); lia].
    intros _. split_and!; [done..|]. by rewrite H4.
  - intros _. exists t, (Th 1 ready). by rewrite lookup_insert_eq.
  - done.
  - intros u a Ha. destruct (H5 u a Ha) as (-> & th & Hu & Has). split; [done|].
    destruct (decide (u = t)) as [->|]; [simplify_eq; cbn in *; congruence|]. exists th. by rewrite lookup_insert_ne.
  - intros u a Ha. eapply baton_upd; [done|by eapply H6|..].
    + intros [? _]. done.
    + intros Hcc. left. split; cbn; [done|by apply Hc].
    + auto.
Qed.

(** Showing that there are waiters. *)
Lemma clear_step s m t h allow mask current new :
  lock_inv (Cfg s m) → m !! t = Some (Th h (slow_clear allow mask current)) → t ∈ threads →
  oul_value s = current → new = current - 1 →
  lock_inv (Cfg (set_value new s) (<[t := Th h (slow_wait allow mask new)]> m)).
Proof.
  intros Hi Ht Hin Hv ->. pose proof Hi as [H1 Hth H2 H3 H4 H5 H6]. pose proof (value_range _ _ Hi) as [Hr Hr1]. cbn in *.
  pose proof (H1 t _ Ht) as (Hh1 & Hh2 & Hm & Hh & Hodd). cbn in *. subst h.
  assert (current - 1 ≠ 0 ∧ (current - 1) mod 2 = 0) as [Hne Hev] by (Z.to_euclidean_division_equations; lia).
  split; cbn.
  - intros u th [[<- <-]|[_ Hu]]%lookup_insert_Some; [|by apply (H1 u)]. by split_and!.
  - intros u th [[<- <-]|[_ Hu']]%lookup_insert_Some; [by right|by apply (Hth u)].
  - intros u th [[<- <-]|[_ Hu]]%lookup_insert_Some; cbn; [lia|]. intros Hhu. destruct (H2 u th Hu Hhu) as (E & _ & Ec).
    split_and!; [|done|done]. rewrite owner_spec in *. Z.to_euclidean_division_equations. lia.
  - intros _. destruct H3 as (u & th & Hu & Hhu); [intros E0; by rewrite <- Hv, E0 in Hodd|]. exists u, th. rewrite lookup_insert_ne; [done|].
    intros ->. simplify_eq. cbn in Hhu. lia.
  - done.
  - intros u a Ha. destruct (H5 u a Ha) as (-> & th & Hu & Has). split; [done|]. exists th.
    rewrite lookup_insert_ne; [done|]. intros ->. by simplify_eq.
  - intros u a Ha. left. done.
Qed.

(** Releasing the lock. *)
Lemma release_step s m t q :
  lock_inv (Cfg s m) → m !! t = Some (Th 1 unlock_xchg) → t ∈ threads →
  q = ready ∧ ¬ shown s ∨ q = unlock_wake → lock_inv (Cfg (set_value 0 s) (<[t := Th 0 q]> m)).
Proof.
  intros Hi Ht Hin Hq. pose proof Hi as [H1 Hth H2 H3 H4 H5 H6]. cbn in *.
  destruct (H2 t _ Ht) as (Ho & Hne & Hcount); [cbn; lia|]. cbn in Hcount.
  assert (∀ u th, u ≠ t → m !! u = Some th → held th = 0%nat) as Hnone.
  { intros u th Hut Hu. destruct (decide (held th = 0%nat)); [done|]. destruct Hut.
    apply (holder_unique s m u t th (Th 1 unlock_xchg)); cbn; done || lia. }
  split; cbn.
  - intros u th [[<- <-]|[_ Hu]]%lookup_insert_Some; [|by apply (H1 u)]. cbn.
    destruct Hq as [[-> _]| ->]; split_and!; cbn; done || lia.
  - intros u th [[<- <-]|[_ Hu']]%lookup_insert_Some; [by right|by apply (Hth u)].
  - intros u th [[<- <-]|[Hut Hu]]%lookup_insert_Some; cbn; [lia|]. rewrite (Hnone u th); [lia|done|done].
  - done.
  - intros _. done.
  - intros u a Ha. destruct (H5 u a Ha) as (-> & th & Hu & Has). split; [done|]. exists th.
    rewrite lookup_insert_ne; [done|]. intros ->. by simplify_eq.
  - intros u a Ha. eapply baton_upd; [done|by eapply H6|..]; [|done|auto].
    intros Hsh. right. by destruct Hq as [[_ ?]| ->].
Qed.

(** The owner of a recursive lock changes the count. *)
Lemma depth_step s m t h h' p n :
  lock_inv (Cfg s m) → m !! t = Some (Th h p) → t ∈ threads → is_asleep p = false → ¬ carrier s t p →
  (1 ≤ h)%nat → (1 ≤ h')%nat → Z.of_nat h' ≤ 2 ^ 32 → recursive = true →
  n = Z.of_nat h' - 1 → lock_inv (Cfg (set_count n s) (<[t := Th h' ready]> m)).
Proof.
  intros Hi Ht Hin Hp Hnc Hh Hh' Hle Hrec ->. pose proof Hi as [H1 Hth H2 H3 H4 H5 H6]. cbn in *.
  destruct (H2 t _ Ht) as (Ho & Hne & _); [done|]. split; cbn.
  - intros u th [[<- <-]|[_ Hu]]%lookup_insert_Some; [|by apply (H1 u)]. split_and!; cbn; [congruence|done|done].
  - intros u th [[<- <-]|[_ Hu']]%lookup_insert_Some; [by right|by apply (Hth u)].
  - intros u th [[<- <-]|[Hut Hu]]%lookup_insert_Some; cbn; [done|]. intros Hhu. destruct Hut. symmetry.
    by apply (holder_unique s m u t th (Th h p)).
  - intros _. exists t, (Th h' ready). by rewrite lookup_insert_eq.
  - done.
  - intros u a Ha. destruct (H5 u a Ha) as (-> & th & Hu & Has). split; [done|]. exists th.
    rewrite lookup_insert_ne; [done|]. intros ->. simplify_eq. cbn in Has. congruence.
  - intros u a Ha. eapply baton_upd; [done|by eapply H6|..]; auto; done.
Qed.

(** ** The kernel *)

Lemma sleep_step s m t h allow mask current :
  lock_inv (Cfg s m) → m !! t = Some (Th h (slow_wait allow mask current)) → t ∈ threads → oul_value s = current →
  lock_inv (Cfg (set_kern (u_sleep t lock_addr (lock_kern s)) s) (<[t := Th h (slow_asleep allow mask current)]> m)).
Proof.
  intros Hi Ht Hin Hv. pose proof Hi as [H1 Hth H2 H3 H4 H5 H6]. cbn in *. pose proof (H1 t _ Ht) as Hok. cbn in Hok.
  pose proof Hok as (_ & _ & _ & Hh & Hev & Hne). subst h. split; cbn.
  - intros u th [[<- <-]|[_ Hu]]%lookup_insert_Some; [done|by apply (H1 u)].
  - intros u th [[<- <-]|[_ Hu']]%lookup_insert_Some; [by right|by apply (Hth u)].
  - intros u th [[<- <-]|[_ Hu]]%lookup_insert_Some; cbn; [lia|by apply (H2 u)].
  - intros Hne'. destruct (H3 Hne') as (u & th & Hu & Hhu). exists u, th. rewrite lookup_insert_ne; [done|].
    intros ->. simplify_eq. cbn in Hhu. lia.
  - done.
  - intros u a. rewrite u_sleep_ok. intros [[<- <-]|[Hut Ha]]%lookup_insert_Some.
    + split; [done|]. eexists. by rewrite lookup_insert_eq.
    + destruct (H5 u a Ha) as (-> & th & Hu & Has). split; [done|]. exists th. by rewrite lookup_insert_ne.
  - intros _ _ _. left. split; cbn; congruence.
Qed.

Lemma unlocked_wake s m t :
  lock_inv (Cfg s m) → m !! t = Some (Th 0 unlock_wake) → t ∈ threads →
  lock_inv (Cfg (set_kern (u_wake lock_addr false (lock_kern s)) s) (<[t := Th 0 ready]> m)).
Proof.
  intros Hi Ht Hin. pose proof Hi as [H1 Hth H2 H3 H4 H5 H6]. cbn in *.
  assert (∀ u a, u_asleep (u_wake lock_addr false (lock_kern s)) !! u = Some a → u_asleep (lock_kern s) !! u = Some a) as Hback.
  { intros u a. apply u_wake_sub. }
  split; cbn.
  - intros u th [[<- <-]|[_ Hu]]%lookup_insert_Some; [split_and!; cbn; done || lia|by apply (H1 u)].
  - intros u th [[<- <-]|[_ Hu']]%lookup_insert_Some; [by right|by apply (Hth u)].
  - intros u th [[<- <-]|[_ Hu]]%lookup_insert_Some; cbn; [lia|by apply (H2 u)].
  - intros Hne. destruct (H3 Hne) as (u & th & Hu & Hhu). exists u, th. rewrite lookup_insert_ne; [done|].
    intros ->. simplify_eq. cbn in Hhu. lia.
  - done.
  - intros u a Ha%Hback. destruct (H5 u a Ha) as (-> & th & Hu & Has). split; [done|]. exists th.
    rewrite lookup_insert_ne; [done|]. intros ->. by simplify_eq.
  - intros u a Ha%Hback. destruct (H5 u a Ha) as (-> & _). destruct (u_wake_one _ _ _ Ha) as (v & Hv & Hv').
    destruct (H5 v _ Hv) as (_ & th & Hv'' & Has). right. exists v, th. rewrite lookup_insert_ne.
    + split; [done|]. destruct th as [h p]. by destruct p.
    + intros ->. by simplify_eq.
Qed.

Lemma return_step s m t h allow mask current mask' u i :
  lock_inv (Cfg s m) → m !! t = Some (Th h (slow_asleep allow mask current)) → t ∈ threads → mask_ok mask' →
  u_return t i (lock_kern s) = Some u →
  mask' = (if i then mask else new_mask (u_remaining lock_addr u)) →
  lock_inv (Cfg (set_kern u s) (<[t := Th h (slow_load allow mask')]> m)).
Proof.
  intros Hi Ht Hin Hm Hu Emask. pose proof Hi as [H1 Hth H2 H3 H4 H5 H6]. cbn in *. pose proof (u_return_ok _ _ _ _ Hu) as Eu.
  pose proof (H1 t _ Ht) as (_ & _ & _ & Hh & _). cbn in Hh. subst h. split; cbn.
  - intros v th [[<- <-]|[_ Hv]]%lookup_insert_Some; [split_and!; cbn; done || lia|by apply (H1 v)].
  - intros v th [[<- <-]|[_ Hu']]%lookup_insert_Some; [by right|by apply (Hth v)].
  - intros v th [[<- <-]|[_ Hv]]%lookup_insert_Some; cbn; [lia|by apply (H2 v)].
  - intros Hne. destruct (H3 Hne) as (v & th & Hv & Hhv). exists v, th. rewrite lookup_insert_ne; [done|].
    intros ->. simplify_eq. cbn in Hhv. lia.
  - done.
  - intros v a. rewrite Eu. intros [Hne Ha]%lookup_delete_Some.
    destruct (H5 v a Ha) as (-> & th & Hv & Has). split; [done|]. exists th. by rewrite lookup_insert_ne.
  - intros v a Ha. pose proof Ha as Hv. rewrite Eu in Hv. apply lookup_delete_Some in Hv as [Hne Hv].
    destruct (H5 v a Hv) as (-> & _). destruct i.
    + eapply baton_upd; [done|by eapply H6|..]; [by left|..].
      * cbn. intros Hn. destruct (u_return_interrupted _ _ _ Hu) as [b Hb]. congruence.
      * intros w p Hw. destruct p; cbn; try done. rewrite Eu, lookup_delete_ne by done. done.
    + right. exists t, (Th 0 (slow_load allow mask')). rewrite lookup_insert_eq. split; [done|]. cbn. subst mask'.
      unfold new_mask. rewrite (proj2 (Z.ltb_lt _ _)); [done|]. by eapply u_remaining_pos.
Qed.

(** ** Every step *)

Lemma is_owner_spec v t allow : OS_ULOCK_IS_OWNER v (self t) allow = (OS_ULOCK_OWNER v =? self t).
Proof.
  unfold OS_ULOCK_IS_OWNER. destruct (Z.eqb_spec (OS_ULOCK_OWNER v) (self t)) as [->|]; [|done]. cbn.
  destruct (self_ok t). destruct (Z.eqb_spec (self t) OS_ULOCK_ANONYMOUS_OWNER); [lia|]. by rewrite orb_true_r.
Qed.

Lemma is_not_owner_spec v t : OS_ULOCK_IS_NOT_OWNER v (self t) 0 = negb (OS_ULOCK_OWNER v =? self t).
Proof. unfold OS_ULOCK_IS_NOT_OWNER. cbn. by rewrite andb_true_r. Qed.

Lemma retry_step s m t h p allow mask s' th' :
  lock_inv (Cfg s m) → m !! t = Some (Th h p) → t ∈ threads → is_asleep p = false → oul_value s ≠ 0 → mask_ok mask →
  (carrier s t p → mask = 1) → retry self allow mask (oul_value s) t h s = Ok (Some (s', th')) →
  lock_inv (Cfg s' (<[t := th']> m)).
Proof.
  intros Hi Ht Hin Hp Hne Hm Hc. unfold retry. rewrite is_owner_spec.
  destruct (Z.eqb_spec (OS_ULOCK_OWNER (oul_value s)) (self t)) as [|Ho]; [done|].
  assert (h = 0%nat) as ->.
  { destruct h as [|h]; [done|]. destruct (li_held _ Hi t _ Ht) as [E _]; [cbn; lia|done]. }
  pose proof (li_place _ Hi t _ Ht) as (Hh1 & Hh2 & _). destruct (value_range s m Hi) as [Hr Hr1].
  rewrite clear_spec by done. intros [= <- <-]. eapply place_step; try done.
  - split_and!; [done..|]. destruct (Z.eqb_spec (oul_value s) (oul_value s - oul_value s mod 2)); cbn;
      split_and!; try done; Z.to_euclidean_division_equations; lia.
  - intros Hcar%Hc. destruct (Z.eqb_spec (oul_value s) (oul_value s - oul_value s mod 2)); [left|by right].
    split; [done|]. Z.to_euclidean_division_equations; lia.
Qed.

Lemma enter_slow_step s m t h p options s' th' :
  lock_inv (Cfg s m) → m !! t = Some (Th h p) → t ∈ threads → is_asleep p = false → ¬ carrier s t p → (recursive = true → h = 0%nat) →
  enter_slow options h s = Ok (Some (s', th')) → lock_inv (Cfg s' (<[t := th']> m)).
Proof.
  intros Hi Ht Hin Hp Hc Hh. unfold enter_slow. case_match; [|done]. intros [= <- <-].
  pose proof (li_place _ Hi t _ Ht) as (Hh1 & Hh2 & _). eapply place_step; try done.
  split_and!; try done. by left.
Qed.

Lemma self_owner t : OS_ULOCK_OWNER (self t) = self t ∧ self t ≠ 0.
Proof. rewrite owner_spec. destruct (self_ok t). lia. Qed.

(** The steps of the lock calls before the slow path. *)
Lemma cas_steps s m t h p s' th' :
  lock_inv (Cfg s m) → m !! t = Some (Th h p) → t ∈ threads →
  match p with
  | lock_cas options => lock_cas_step self options t h s
  | trylock_cas => trylock_cas_step self t h s
  | rlock_cas options => rlock_cas_step self options t h s
  | rtrylock_cas => rtrylock_cas_step self t h s
  | _ => Ok None
  end = Ok (Some (s', th')) → lock_inv (Cfg s' (<[t := th']> m)).
Proof.
  intros Hi Ht Hin Hx. pose proof (li_place _ Hi t _ Ht) as Hok. destruct (self_owner t) as [Ho Hs].
  assert (oul_value s = 0 → is_asleep p = false → ¬ carrier s t p →
    lock_inv (Cfg (set_value (self t) s) (<[t := Th (S h) ready]> m))) as Htake.
  { intros E Hp Hnc. eapply take_step; try done. }
  assert (is_asleep p = false → ¬ carrier s t p → lock_inv (Cfg s (<[t := Th h ready]> m))) as Hback.
  { intros Hp Hnc. eapply place_step; try done. destruct Hok as (? & ? & _). by split_and!. }
  assert (recursive = true → Z.of_nat h < 2 ^ 32 → oul_value s ≠ 0 → OS_ULOCK_OWNER (oul_value s) = self t →
    is_asleep p = false → ¬ carrier s t p → lock_inv (Cfg s (<[t := Th h count_inc]> m))) as Hinc.
  { intros Hr Hlt Hne E Hp Hnc. eapply place_step; try done. pose proof (owner_is _ _ _ _ Hi Ht Hin E Hne) as Hh.
    destruct Hok as (? & ? & _). by split_and!. }
  assert (oul_value s ≠ 0 → OS_ULOCK_OWNER (oul_value s) ≠ self t → h = 0%nat) as Hzero.
  { intros Hne E. destruct h as [|h]; [done|]. destruct E. apply (li_held _ Hi t _ Ht). cbn. lia. }
  destruct p; try done; cbn in Hok; unfold lock_cas_step, trylock_cas_step, rlock_cas_step, rtrylock_cas_step, goes in Hx;
    destruct (Z.eqb_spec (oul_value s) OS_LOCK_NO_OWNER) as [E|E]; try (injection Hx as <- <-; by auto).
  - eapply enter_slow_step; [done..|by intros []| |done]. destruct Hok as (_ & _ & Hf). cbn in Hf. congruence.
  - destruct (Z.eqb_spec (OS_ULOCK_OWNER (oul_value s)) (self t)).
    + injection Hx as <- <-. apply Hinc; try apply Hok; done || by intros [].
    + eapply enter_slow_step; [done..|by intros []| |done]. auto.
  - destruct (Z.eqb_spec (OS_ULOCK_OWNER (oul_value s)) (self t)); injection Hx as <- <-; [|by auto].
    apply Hinc; try apply Hok; done || by intros [].
Qed.

Lemma slow_steps ch s m t h p s' th' :
  lock_inv (Cfg s m) → m !! t = Some (Th h p) → t ∈ threads →
  match p with
  | slow_load allow mask => slow_load_step self allow mask t h s
  | slow_clear allow mask current => slow_clear_step allow mask current h s
  | slow_wait allow mask current => slow_wait_step ch allow mask current t h s
  | slow_asleep allow mask _ => slow_asleep_step ch allow mask t h s
  | slow_take allow mask => slow_take_step self allow mask t h s
  | _ => Ok None
  end = Ok (Some (s', th')) → lock_inv (Cfg s' (<[t := th']> m)).
Proof.
  intros Hi Ht Hin Hx. pose proof (li_place _ Hi t _ Ht) as (Hh1 & Hh2 & Hok). pose proof (value_range s m Hi) as [Hr Hr1].
  destruct p; try done; cbn in Hok, Hh1, Hh2.
  - unfold slow_load_step in Hx. destruct Hok as [Hm Hh]. destruct (Z.eqb_spec (oul_value s) OS_LOCK_NO_OWNER) as [E|E].
    + injection Hx as <- <-. eapply place_step; [done..| |by right]. split_and!; try done.
      destruct h as [|h]; [done|]. destruct (li_held _ Hi t _ Ht) as (_ & ? & _); [cbn; lia|done].
    + by eapply retry_step.
  - unfold slow_clear_step in Hx. destruct Hok as (Hm & Hh & Hodd).
    destruct (Z.eqb_spec (oul_value s) current) as [E|E]; injection Hx as <- <-.
    + eapply clear_step; try done. rewrite clear_spec by lia. lia.
    + eapply place_step; [done..| |by right]. by split_and!.
  - unfold slow_wait_step in Hx. destruct Hok as (Hm & Hh & Hev & Hne).
    assert (∀ mask', mask_ok mask' → lock_inv (Cfg s (<[t := Th h (slow_load allow mask')]> m))) as Hload.
    { intros mask' Hm'. eapply place_step; [done..| |by intros []]. by split_and!. }
    destruct ch as [| |err]; [..|destruct (wait_error err); [done|injection Hx as <- <-; by apply Hload]];
      (destruct (Z.eqb_spec (oul_value s) current) as [E|E]); injection Hx as <- <-;
      try (by apply Hload, new_mask_ok); by apply sleep_step.
  - unfold slow_asleep_step in Hx. destruct Hok as (Hm & _). cbv zeta in Hx.
    destruct ch as [| |err]; [..|destruct (wait_error err); [done|]];
      (destruct (u_return t _ _) as [u|] eqn:Eu; [|done]); injection Hx as <- <-; eapply return_step; try done; apply new_mask_ok.
  - unfold slow_take_step in Hx. destruct Hok as [Hm Hh]. destruct (Z.eqb_spec (oul_value s) OS_LOCK_NO_OWNER) as [E|E].
    + injection Hx as <- <-. destruct (self_ok t) as [Hs Ho]. unfold OS_ULOCK_ANONYMOUS_OWNER in Hs.
      assert (Z.land (self t) (not32 waiters_mask) = self t - waiters_mask) as ->.
      { destruct Hm as [->| ->]; [|rewrite clear_spec by lia; lia]. 
        change (not32 0) with (u32 (Z.lnot (Z.ones 0))). rewrite land_clear_low by lia. by rewrite Z.mod_1_r. }
      eapply take_step; try done.
      * rewrite owner_spec. destruct Hm as [->| ->]; Z.to_euclidean_division_equations; lia.
      * destruct Hm; lia.
      * cbn. intros ->. Z.to_euclidean_division_equations; lia.
    + by eapply retry_step.
Qed.
Lemma owner_nonzero s t : OS_ULOCK_OWNER (oul_value s) = self t → oul_value s ≠ 0.
Proof. intros E E0. rewrite E0 in E. change (OS_ULOCK_OWNER 0) with 1 in E. destruct (self_ok t). lia. Qed.

Lemma unlock_steps ch s m t h p s' th' :
  lock_inv (Cfg s m) → m !! t = Some (Th h p) → t ∈ threads →
  match p with
  | unlock_xchg => unlock_xchg_step self t h s
  | unlock_wake => unlock_wake_step ch h s
  | runlock_count => runlock_count_step h s
  | runlock_owner => runlock_owner_step self t h s
  | runlock_dec => runlock_dec_step h s
  | tryunlock_owner => tryunlock_owner_step self t h s
  | _ => Ok None
  end = Ok (Some (s', th')) → lock_inv (Cfg s' (<[t := th']> m)).
Proof.
  intros Hi Ht Hin Hx. pose proof (li_place _ Hi t _ Ht) as (Hh1 & Hh2 & Hok). pose proof (li_held _ Hi t _ Ht) as Hheld.
  destruct (self_owner t) as [Ho Hs]. destruct p; try done; cbn in Hok, Hh1, Hh2, Hheld.
  - assert (OS_ULOCK_OWNER (oul_value s) = self t → oul_value s ≠ 0 → h = 1%nat) as Hone.
    { intros E Hne. pose proof (owner_is _ _ _ _ Hi Ht Hin E Hne) as Hh. cbn in Hh. lia. }
    unfold unlock_xchg_step in Hx. rewrite is_not_owner_spec, not_bit_spec in Hx.
    destruct (Z.eqb_spec (oul_value s) (self t)) as [E|E].
    + rewrite Hone in * by congruence. injection Hx as <- <-. apply release_step; [done..|]. left. split; [done|].
      intros [_ Hev]. destruct (self_ok t). rewrite E in Hev. lia.
    + destruct (Z.eqb_spec (OS_ULOCK_OWNER (oul_value s)) (self t)) as [Eo|]; [|done].
      destruct (Z.eqb_spec (oul_value s mod 2) 0); [|done].
      pose proof (owner_nonzero _ _ Eo).
      rewrite Hone in * by done. injection Hx as <- <-. apply release_step; [done..|]. by right.
  - subst h. destruct ch as [| |err]; [..|cbn in Hx; destruct (wake_error err); [done|]]; injection Hx as <- <-; try (by apply unlocked_wake).
    eapply place_step; try done. by right.
  - injection Hx as <- <-. eapply place_step; [done..| |by intros []]. split_and!; [done..|].
    destruct (Z.eqb_spec (ourl_count s) 0) as [E|E]; cbn; [|split; [done|]]; destruct h as [|[|h]]; try lia;
      destruct Hheld as (_ & _ & Hc); lia.
  - unfold runlock_owner_step in Hx. destruct (Z.eqb_spec (OS_ULOCK_OWNER (oul_value s)) (self t)) as [E|]; [|done].
    injection Hx as <- <-. eapply place_step; [done..| |by intros []]. destruct Hok as [Hr Hne1]. split_and!; try done.
    pose proof (owner_is _ _ _ _ Hi Ht Hin E (owner_nonzero _ _ E)). cbn in *. lia.
  - injection Hx as <- <-. destruct Hok as [Hr Hh]. destruct Hheld as (_ & _ & Hc); [lia|].
    eapply depth_step; [done..|by intros []|lia|lia|lia|done|]. rewrite wrapu_small by lia. lia.
  - injection Hx as <- <-. eapply place_step; [done..| |by intros []]. by destruct (_ =? _); split_and!.
Qed.

Lemma unfair_step ch s m t th s' th' :
  lock_inv (Cfg s m) → m !! t = Some th → exec ch t s th = Ok (Some (s', th')) →
  lock_inv (Cfg s' (<[t := th']> m)).
Proof.
  intros Hi Ht Hx. destruct th as [h p]. pose proof (li_place _ Hi t _ Ht) as (Hh1 & Hh2 & Hok).
  assert (p = ready ∨ t ∈ threads) as Hin by (destruct (li_thread _ Hi t _ Ht) as [[= _ ->]|]; auto).
  destruct p; cbn in Hx, Hok, Hh1, Hh2; try (destruct Hin as [?|Hin]; [done|]);
    try (by eapply cas_steps); try (by eapply (slow_steps ch)); try (by eapply (unlock_steps ch)).
  - unfold ready_step in Hx. destruct ch as [o| |]; try done.
    destruct (_ && _) eqn:Ea; [|done]. apply andb_prop in Ea as [Hin'%bool_decide_eq_true Ea]. injection Hx as <- <-. eapply place_step; [done..| |by intros []]. split_and!; [done..|].
    destruct o; cbn in *; destruct recursive; try done; try (by apply Hh1); apply Z.ltb_lt in Ea; done.
  - injection Hx as <- <-. destruct Hok as (Hr & Hh & Hlt). destruct (li_held _ Hi t _ Ht) as (_ & _ & Hc); [done|].
    cbn in Hc. eapply depth_step; [done..|by intros []|lia|lia|lia|done|]. rewrite wrapu_small by lia. lia.
  - unfold assert_step in Hx. destruct (if want then _ else _); [done|]. injection Hx as <- <-.
    eapply place_step; [done..| |by intros []]. by split_and!.
Qed.

Lemma unfair_reachable c : reachable unfair_init c → lock_inv c.
Proof.
  apply machine_inv.
  - split; cbn; try done; intros t a; by rewrite u_empty_ok, lookup_empty.
  - intros s m t th Hi Hm Hst _. destruct th as [[|h] p]; [|done]. destruct p; try done.
    pose proof Hi as [H1 Hth H2 H3 H4 H5 H6]. cbn in *. split; cbn.
    + intros u thu [[<- <-]|[_ Hu]]%lookup_insert_Some; [split_and!; cbn; done || lia|by apply (H1 u)].
    + intros u thu [[<- <-]|[_ Hu]]%lookup_insert_Some; [by left|by apply (Hth u)].
    + intros u thu [[<- <-]|[_ Hu]]%lookup_insert_Some; cbn; [lia|by apply (H2 u)].
    + intros Hne. destruct (H3 Hne) as (u & thu & Hu & Hh). exists u, thu. rewrite lookup_insert_ne; [done|]. congruence.
    + done.
    + intros u a Ha. destruct (H5 u a Ha) as (-> & thu & Hu & Has). split; [done|]. exists thu.
      rewrite lookup_insert_ne; [done|]. congruence.
    + intros u a Ha. destruct (H6 u a Ha) as [?|(v & thv & Hv & Hc)]; [by left|right]. exists v, thv.
      rewrite lookup_insert_ne; [done|]. congruence.
  - intros s m t ch p s' p' Hi Hm Hx. by eapply unfair_step.
Qed.

(** ** Theorems *)

(** C10. At most one thread holds the lock, plain or recursive.  Its port is in the
    word, with or without the bit for waiters, and the count of a recursive lock is
    the depth less one; the word of a lock that nobody holds is 0. *)
Theorem unfair_mutual_exclusion c :
  reachable unfair_init c →
  (∀ t u th thu, calls c !! t = Some th → calls c !! u = Some thu → (1 ≤ held th)%nat → (1 ≤ held thu)%nat → t = u) ∧
  (∀ t th, calls c !! t = Some th → (1 ≤ held th)%nat →
     OS_ULOCK_OWNER (oul_value (shared c)) = self t ∧ ourl_count (shared c) = Z.of_nat (held th) - 1) ∧
  ((∀ t th, calls c !! t = Some th → held th = 0%nat) ↔ oul_value (shared c) = 0).
Proof.
  intros Hi%unfair_reachable. destruct c as [s m]. cbn. split_and!.
  - intros t u th thu. apply (holder_unique s m); done.
  - intros t th Ht Hh. destruct (li_held _ Hi t th Ht Hh) as (? & _ & ?). done.
  - split.
    + intros Hnone. destruct (decide (oul_value s = 0)) as [|Hne]; [done|].
      destruct (li_owner _ Hi Hne) as (t & th & Ht & Hh). cbn in Ht. rewrite (Hnone t th Ht) in Hh. lia.
    + intros E t th Ht. destruct (held th) eqn:Eh; [done|]. destruct (li_held _ Hi t th Ht) as (_ & ? & _); [lia|done].
Qed.

(** C11. No wake-up is lost.  While a thread sleeps in the kernel, either a thread
    holds the lock and the word says that there are waiters, so that its unlock
    wakes one, or some thread is awake inside a call on the lock.  In particular,
    when the lock is free and no thread is inside a call, nobody sleeps. *)
Theorem unfair_no_lost_wakeup c t a :
  reachable unfair_init c → u_asleep (lock_kern (shared c)) !! t = Some a →
  (∃ h th, calls c !! h = Some th ∧ (1 ≤ held th)%nat ∧ oul_value (shared c) = self h - 1) ∨
  (∃ u th, calls c !! u = Some th ∧ at_ th ≠ ready ∧ u_asleep (lock_kern (shared c)) !! u = None).
Proof.
  intros Hi%unfair_reachable Ha. destruct c as [s m]. cbn in *.
  destruct (li_baton _ Hi t a Ha) as [[Hne Hev]|(u & th & Hu & Hc)]; cbn in *.
  - left. destruct (li_owner _ Hi Hne) as (h & th & Hh & Hheld). exists h, th. split_and!; [done..|].
    destruct (li_held _ Hi h th Hh Hheld) as (E & _). cbn in E. rewrite owner_spec in E. lia.
  - right. exists u, th. split_and!; [done|by destruct th as [? []]|].
    destruct (u_asleep (lock_kern s) !! u) as [b|] eqn:Eb; [|done].
    destruct (li_asleep _ Hi u b Eb) as (_ & th' & Hu' & Has). cbn in Hu'. simplify_eq. destruct th as [? []]; try done.
    cbn in Hc. congruence.
Qed.

(** How a caller can break the rules. *)
Definition misuse s (t : tid) (th : thread) : Prop :=
  let bad o := Z.land (Z.land o (not32 OS_UNFAIR_LOCK_ALLOW_ANONYMOUS_OWNER)) (not32 OS_UNFAIR_LOCK_OPTIONS_MASK) ≠ 0 in
  match at_ th with
  | lock_cas options => oul_value s ≠ 0 ∧ bad options
  | rlock_cas options => oul_value s ≠ 0 ∧ held th = 0%nat ∧ bad options
  | slow_load _ _ => (1 ≤ held th)%nat               (* locks a lock it holds *)
  | unlock_xchg | runlock_owner => held th = 0%nat   (* unlocks a lock it does not hold *)
  | assert_load true => held th = 0%nat
  | assert_load false => (1 ≤ held th)%nat
  | _ => False
  end.

Lemma holds_iff s m t th :
  lock_inv (Cfg s m) → m !! t = Some th → t ∈ threads →
  (OS_ULOCK_OWNER (oul_value s) =? self t) = bool_decide (1 ≤ held th)%nat.
Proof.
  intros Hi Ht Hin. case_bool_decide as Hh.
  - apply Z.eqb_eq, (li_held _ Hi t th Ht Hh).
  - apply Z.eqb_neq. intros E. destruct Hh. eapply owner_is; [done..|by eapply owner_nonzero].
Qed.

Lemma enter_slow_crash options h s r :
  enter_slow options h s = Crash r ↔
  r = CLIENT_CRASH ∧
  Z.land (Z.land options (not32 OS_UNFAIR_LOCK_ALLOW_ANONYMOUS_OWNER)) (not32 OS_UNFAIR_LOCK_OPTIONS_MASK) ≠ 0.
Proof.
  unfold enter_slow. match goal with |- context [?x =? 0] => destruct (Z.eqb_spec x 0) as [E|E] end; split.
  - done.
  - by intros [_ ?].
  - intros [= <-]. done.
  - by intros [-> _].
Qed.

Lemma retry_crash s m t h p allow mask r :
  lock_inv (Cfg s m) → m !! t = Some (Th h p) → t ∈ threads →
  retry self allow mask (oul_value s) t h s = Crash r ↔ r = CLIENT_CRASH ∧ (1 ≤ h)%nat.
Proof.
  intros Hi Ht Hin. unfold retry. rewrite is_owner_spec, (holds_iff _ _ _ _ Hi Ht Hin). cbn.
  case_bool_decide; split; try done; try (by intros [_ ?]); try (by intros [= <-]). by intros [-> _].
Qed.

(** The kernel reports an error in the system call the thread is in. *)
Definition kernel_error (ch : choice) (th : thread) : option crash_reason :=
  match ch, at_ th with
  | Failed err, (slow_wait _ _ _ | slow_asleep _ _ _) => wait_error err
  | Failed err, unlock_wake => wake_error err
  | _, _ => None
  end.

(** Which steps of the locks abort the process, apart from errors of the kernel. *)
Lemma exec_crash ch s m t th r :
  lock_inv (Cfg s m) → m !! t = Some th → kernel_error ch th = None → exec ch t s th = Crash r ↔ r = CLIENT_CRASH ∧ misuse s t th.
Proof.
  intros Hi Ht Hk. destruct th as [h p]. destruct (decide (Th h p = Th 0 ready)) as [[= -> ->]|Hne].
  { cbn. unfold ready_step, goes. split; [|by intros [_ []]]. by repeat case_match. }
  pose proof (in_threads _ _ _ _ Hi Ht Hne) as Hin. pose proof (holds_iff _ _ _ _ Hi Ht Hin) as Hhold. cbn in Hhold.
  pose proof (li_place _ Hi t _ Ht) as (_ & _ & Hok). pose proof (li_held _ Hi t _ Ht) as Hheld. cbn in Hok, Hheld.
  assert (∀ A (x : A) r', Ok x = Crash r' ↔ r' = CLIENT_CRASH ∧ False) as Hno by (split; [done|tauto]).
  assert ((@Crash (option (state * thread)) CLIENT_CRASH = Crash r) ↔ r = CLIENT_CRASH ∧ True) as Hyes.
  { split; [by intros [= <-]|by intros [-> _]]. }
  destruct p; cbn; unfold misuse; cbn.
  - unfold ready_step, goes. destruct ch; try apply Hno. destruct (_ && _); apply Hno.
  - unfold lock_cas_step, goes. destruct (Z.eqb_spec (oul_value s) OS_LOCK_NO_OWNER) as [E|E]; [|rewrite enter_slow_crash; tauto].
    rewrite Hno. tauto.
  - unfold trylock_cas_step, goes. case_match; apply Hno.
  - unfold rlock_cas_step, goes. rewrite Hhold. destruct (Z.eqb_spec (oul_value s) OS_LOCK_NO_OWNER) as [E|E].
    { rewrite Hno. tauto. }
    case_bool_decide; [rewrite Hno; naive_solver lia|rewrite enter_slow_crash; naive_solver lia].
  - unfold rtrylock_cas_step, goes. repeat case_match; apply Hno.
  - apply Hno.
  - unfold slow_load_step, goes. destruct (Z.eqb_spec (oul_value s) OS_LOCK_NO_OWNER) as [E|E]; [|by eapply retry_crash].
    rewrite Hno. naive_solver lia.
  - unfold slow_clear_step, goes. case_match; apply Hno.
  - unfold slow_wait_step, goes. destruct ch; cbn in Hk; rewrite ?Hk; repeat case_match; apply Hno.
  - unfold slow_asleep_step, goes. destruct ch; cbn in Hk; rewrite ?Hk; repeat case_match; apply Hno.
  - unfold slow_take_step, goes. destruct (Z.eqb_spec (oul_value s) OS_LOCK_NO_OWNER) as [E|E]; [apply Hno|].
    rewrite (retry_crash _ _ _ _ _ _ _ _ Hi Ht Hin). naive_solver lia.
  - unfold unlock_xchg_step, goes. rewrite is_not_owner_spec, not_bit_spec, Hhold.
    destruct (Z.eqb_spec (oul_value s) (self t)) as [E|E].
    { assert (1 ≤ h)%nat; [|rewrite Hno; naive_solver lia]. destruct (self_owner t) as [Ho Hs].
      apply (owner_is _ _ _ _ Hi Ht Hin); congruence. }
    case_bool_decide as Hh; cbn; [|rewrite Hyes; naive_solver lia]. destruct (Hheld Hh) as (Eo & Hnz & _).
    rewrite owner_spec in Eo. destruct (Z.eqb_spec (oul_value s mod 2) 0) as [|Hodd]; [rewrite Hno; naive_solver lia|].
    exfalso. Z.to_euclidean_division_equations. lia.
  - unfold unlock_wake_step, goes. destruct ch; cbn in Hk; rewrite ?Hk; apply Hno.
  - apply Hno.
  - unfold runlock_owner_step, goes. rewrite Hhold. case_bool_decide; [rewrite Hno|rewrite Hyes]; naive_solver lia.
  - apply Hno.
  - apply Hno.
  - unfold assert_step, goes. rewrite is_owner_spec, is_not_owner_spec, Hhold.
    destruct want; case_bool_decide; cbn; rewrite ?Hno, ?Hyes; naive_solver lia.
Qed.

Lemma exec_error ch s t th r : kernel_error ch th = Some r → exec ch t s th = Crash r ∧ ¬ misuse s t th.
Proof.
  destruct th as [h p], ch as [| |err], p; cbn; try done; intros E; split; try (by intros []);
    unfold slow_wait_step, slow_asleep_step, unlock_wake_step; by rewrite E.
Qed.

(** C32. The process aborts in a step of a thread exactly when the caller breaks the
    rules or the kernel reports an error.  The rules: do not lock a plain lock that
    you hold, do not unlock a lock or assert the ownership of one that you do not
    hold, do not assert that you do not hold one that you do, and do not pass
    options that do not exist (this aborts when the lock is taken).  The errors: a
    dead owner or an unknown error while waiting, any but an interruption in a
    wake-up. *)
Theorem unfair_crash_misuse c e r :
  reachable unfair_init c →
  do_event exec starts finished e c = Crash r ↔
  ∃ t ch th, e = Run t ch ∧ calls c !! t = Some th ∧ (r = CLIENT_CRASH ∧ misuse (shared c) t th ∨ kernel_error ch th = Some r).
Proof.
  intros Hi%unfair_reachable. destruct c as [s m]. cbn [shared calls]. split.
  - intros He. destruct e as [t th|t ch]; cbn in He; [by case_match|].
    destruct (m !! t) as [th|] eqn:Et; [|done]. destruct (exec ch t s th) as [[[]|]|r'] eqn:Ex; simplify_eq.
    exists t, ch, th. split; [done|]. split; [done|]. destruct (kernel_error ch th) as [r'|] eqn:Ek.
    + destruct (exec_error _ s t _ _ Ek) as [Ex' _]. right. congruence.
    + left. by apply (exec_crash _ _ _ _ _ _ Hi Et Ek).
  - intros (t & ch & th & -> & Ht & Hc). cbn. rewrite Ht. destruct (kernel_error ch th) as [r'|] eqn:Ek.
    + destruct (exec_error _ s t _ _ Ek) as [-> Hn]. destruct Hc as [[_ ?]|[= ->]]; done.
    + destruct Hc as [Hc|?]; [|done]. by rewrite (proj2 (exec_crash ch s m t th r Hi Ht Ek) Hc).
Qed.
End correct.

(** ** Schedules *)

Definition users : gset tid := {[1; 2; 3]}%positive.
Definition user_port (t : tid) : Z := if decide (t = 1%positive) then 3 else if decide (t = 2%positive) then 5 else 7.

Lemma user_port_ok t : 1 < user_port t < OS_ULOCK_ANONYMOUS_OWNER ∧ user_port t mod 2 = 1.
Proof. unfold user_port, OS_ULOCK_ANONYMOUS_OWNER. repeat case_decide; split; done || lia. Qed.

Lemma user_port_inj t u : t ∈ users → u ∈ users → user_port t = user_port u → t = u.
Proof.
  unfold users, user_port. rewrite !elem_of_union, !elem_of_singleton. intros Ht Hu.
  repeat case_decide; intros ?; simplify_eq; try done; naive_solver.
Qed.

Local Abbreviation plain := (exec users user_port false (U := gmap tid addr)).
Local Abbreviation nested := (exec users user_port true (U := gmap tid addr)).
Local Abbreviation init := (unfair_init (U := gmap tid addr)).

Definition call (t : tid) (o : op) (n : nat) : list (event (P := thread) (C := choice)) :=
  Run t (Do o) :: replicate n (Run t Go).
Definition users_start : list (event (P := thread) (C := choice)) :=
  [Start 1%positive (Th 0 ready); Start 2%positive (Th 0 ready); Start 3%positive (Th 0 ready)].

(** Thread 1 takes the lock, threads 2 and 3 wait for it and sleep. *)
Definition contended : list (event (P := thread) (C := choice)) :=
  users_start ++ call 1 (Lock 0) 1 ++ call 2 (Lock 0) 4 ++ call 3 (Lock 0) 3.
Definition contended_cfg := after plain starts finished contended init.

Lemma contended_reachable : reachable plain starts finished init contended_cfg.
Proof. apply (run_reachable _ _ _ contended). vm_compute. reflexivity. Qed.

Lemma unfair_no_lost_wakeup_witness :
  (∃ h th, calls contended_cfg !! h = Some th ∧ (1 ≤ held th)%nat ∧ oul_value (shared contended_cfg) = user_port h - 1) ∨
  (∃ u th, calls contended_cfg !! u = Some th ∧ at_ th ≠ ready ∧ u_asleep (lock_kern (shared contended_cfg)) !! u = None).
Proof.
  apply (unfair_no_lost_wakeup users user_port false user_port_ok user_port_inj contended_cfg 3%positive lock_addr).
  - apply contended_reachable.
  - vm_compute. reflexivity.
Defined.

(** Thread 1 unlocks and wakes thread 3, which takes the lock and shows the waiter
    that is left. *)
Definition handed_over := contended ++ call 1 Unlock 2 ++ replicate 3 (Run 3%positive Go).

Example handed_over_word :
  oul_value (shared (after plain starts finished handed_over init)) = user_port 3 - 1.
Proof. vm_compute. reflexivity. Qed.

(** A recursive lock taken three times and released once. *)
Definition deep := users_start ++ call 1 (RLock 0) 1 ++ call 1 (RLock 0) 2 ++ call 1 RTryLock 2 ++ call 1 RUnlock 3.
Definition deep_cfg := after nested starts finished deep init.

Lemma deep_reachable : reachable nested starts finished init deep_cfg.
Proof. apply (run_reachable _ _ _ deep). vm_compute. reflexivity. Qed.

Lemma unfair_mutual_exclusion_witness :
  (∀ t u th thu, calls deep_cfg !! t = Some th → calls deep_cfg !! u = Some thu →
     (1 ≤ held th)%nat → (1 ≤ held thu)%nat → t = u) ∧
  (∀ t th, calls deep_cfg !! t = Some th → (1 ≤ held th)%nat →
     OS_ULOCK_OWNER (oul_value (shared deep_cfg)) = user_port t ∧
     ourl_count (shared deep_cfg) = Z.of_nat (held th) - 1) ∧
  ((∀ t th, calls deep_cfg !! t = Some th → held th = 0%nat) ↔ oul_value (shared deep_cfg) = 0).
Proof. apply (unfair_mutual_exclusion users user_port true user_port_ok user_port_inj), deep_reachable. Defined.

(** Thread 2 unlocks the lock of thread 1. *)
Definition stolen := users_start ++ call 1 (Lock 0) 1 ++ call 2 Unlock 0.
Definition stolen_event : event (P := thread) (C := choice) := Run 2%positive Go.
Definition stolen_cfg := after plain starts finished stolen init.

Lemma stolen_reachable : reachable plain starts finished init stolen_cfg.
Proof. apply (run_reachable _ _ _ stolen). vm_compute. reflexivity. Qed.

Lemma unfair_crash_misuse_witness :
  do_event plain starts finished stolen_event stolen_cfg = Crash CLIENT_CRASH ↔
  ∃ t ch th, stolen_event = Run t ch ∧ calls stolen_cfg !! t = Some th ∧
    (CLIENT_CRASH = CLIENT_CRASH ∧ misuse (shared stolen_cfg) t th ∨ kernel_error ch th = Some CLIENT_CRASH).
Proof. apply (unfair_crash_misuse users user_port false user_port_ok user_port_inj), stolen_reachable. Defined.

Example stolen_crashes : do_event plain starts finished stolen_event stolen_cfg = Crash CLIENT_CRASH.
Proof. vm_compute. reflexivity. Qed.
