(* ===== verification/LibcSort.v ===== *)
(** * Libc sorting: definitions

    Model of [heapsort] and [qsort] (src/Libc-997.90.3/stdlib/FreeBSD/heapsort.c,
    qsort.c) and of [bsearch] (bsearch.c).  The memory is an array of elements;
    a pointer [base + i * es] is the index [i], and an access outside the array
    is [Crash BAD_ACCESS].  The exchanges are byte loops in the source; [swapfunc]
    and the macros around it are also modelled on bytes, in LibcSortBytes.v, which
    shows that they exchange elements.  [es] is the size of an element, not 0:
    [swapfunc] has its count of bytes in an [int], and an exchange of 2^31 bytes or
    more, which it does not do, stops the model with [INT_TRUNCATION]. *)

From S2P Require Import Prelude.

Module Sort.

Section sort.
Context {A : Type} (compar : A → A → Z).
(** Whether [malloc(size)] in [heapsort] succeeds. *)
Context (malloc_ok : bool).

Local Abbreviation MA := (M (list A)).
Local Open Scope nat_scope.

Definition get (i : nat) : MA A := λ l, match l !! i with Some x => Ok (x, l) | None => Crash BAD_ACCESS end.
Definition put (i : nat) (x : A) : MA unit :=
  λ l, if i <? length l then Ok (tt, <[i := x]> l) else Crash BAD_ACCESS.

Definition CMP (i j : nat) : MA Z := x ← get i; y ← get j; mret (compar x y).

(** [SWAP] of heapsort.c: the count is a [size_t]. *)
Definition SWAP (i j : nat) : MA unit := t ← get i; y ← get j; _ ← put i y; put j t.

(** ** heapsort.c *)

(** Items are numbered from 1. *)
Definition item (a i : nat) : nat := a + i - 1.

(** The larger child. *)
Definition larger (a n child_i : nat) : MA nat :=
  if child_i <? n then
    c ← CMP (item a child_i) (item a (child_i + 1));
    mret (if (c <? 0)%Z then child_i + 1 else child_i)
  else mret child_i.

Fixpoint CREATE (fuel a n par_i : nat) : MA unit :=
  match fuel with
  | O => crash OUT_OF_FUEL
  | S fuel =>
      if par_i * 2 <=? n then
        child_i ← larger a n (par_i * 2);
        c ← CMP (item a child_i) (item a par_i);
        if (c <=? 0)%Z then mret tt
        else _ ← SWAP (item a par_i) (item a child_i); CREATE fuel a n child_i
      else mret tt
  end.

(** [for (l = nmemb / 2 + 1; --l;)] *)
Fixpoint create_loop (l a n : nat) : MA unit :=
  match l with
  | O => mret tt
  | S l' => _ ← CREATE n a n l; create_loop l' a n
  end.

(** The two loops of [SELECT]. *)
Fixpoint select_down (fuel a n par_i : nat) : MA nat :=
  match fuel with
  | O => crash OUT_OF_FUEL
  | S fuel =>
      if par_i * 2 <=? n then
        child_i ← larger a n (par_i * 2);
        x ← get (item a child_i);
        _ ← put (item a par_i) x;
        select_down fuel a n child_i
      else mret par_i
  end.

Fixpoint select_up (fuel a : nat) (k : A) (child_i : nat) : MA unit :=
  match fuel with
  | O => crash OUT_OF_FUEL
  | S fuel =>
      let par_i := child_i / 2 in
      stop ← (if child_i =? 1 then mret true else x ← get (item a par_i); mret (compar k x <? 0)%Z);
      if (stop : bool) then put (item a child_i) k
      else x ← get (item a par_i); _ ← put (item a child_i) x; select_up fuel a k par_i
  end.

Definition SELECT (a n : nat) (k : A) : MA unit := i ← select_down (S n) a n 1; select_up (S i) a k i.

(** [while (nmemb > 1)] *)
Fixpoint select_loop (nmemb a : nat) : MA unit :=
  match nmemb with
  | O => mret tt
  | S n =>
      if 0 <? n then
        k ← get (item a nmemb);
        x ← get (item a 1);
        _ ← put (item a nmemb) x;
        _ ← SELECT a n k;
        select_loop n a
      else mret tt
  end.

Definition heapsort (a n : nat) : MA Z :=
  if n <=? 1 then mret 0%Z
  else if malloc_ok then _ ← create_loop (n / 2) a n; _ ← select_loop n a; mret 0%Z
  else mret (-1)%Z.

(** ** qsort.c *)

(** The size of an element. *)
Context (es : nat).

(** The count of bytes that [swapfunc] gets. *)
Definition as_int (n : nat) : MA unit := if (Z.of_nat n <? 2 ^ 31)%Z then mret tt else crash INT_TRUNCATION.

Definition swap (i j : nat) : MA unit := _ ← as_int es; SWAP i j.

(** [r] elements, [r * es] bytes. *)
Fixpoint swap_elements (i j r : nat) : MA unit :=
  match r with O => mret tt | S r => _ ← SWAP i j; swap_elements (S i) (S j) r end.

Definition vecswap (i j r : nat) : MA unit := _ ← as_int (r * es); swap_elements i j r.

Definition med3 (a b c : nat) : MA nat :=
  ab ← CMP a b;
  if (ab <? 0)%Z then
    bc ← CMP b c;
    if (bc <? 0)%Z then mret b else ac ← CMP a c; mret (if (ac <? 0)%Z then c else a)
  else
    bc ← CMP b c;
    if (bc >? 0)%Z then mret b else ac ← CMP a c; mret (if (ac <? 0)%Z then a else c).

(** The insertion sort: the inner loop on [pl], the outer one on [pm]. *)
Fixpoint insert (a pl : nat) : MA unit :=
  match pl with
  | O => mret tt
  | S q =>
      if a <? pl then
        c ← CMP q pl;
        if (c >? 0)%Z then _ ← swap pl q; insert a q else mret tt
      else mret tt
  end.

Fixpoint insertion (k a pm : nat) : MA unit :=
  match k with O => mret tt | S k => _ ← insert a pm; insertion k a (S pm) end.

(** The same with at most [r] exchanges: [None] is [goto nevermind].  The
    count is at most [r + 1], which is [n / 4 + 2]: it fits its [int] for the
    arrays of fewer than 2^32 bytes of the theorems. *)
Fixpoint try_insert (r a pl swap_cnt : nat) : MA (option nat) :=
  match pl with
  | O => mret (Some swap_cnt)
  | S q =>
      if a <? pl then
        c ← CMP q pl;
        if (c >? 0)%Z then
          _ ← swap pl q;
          if r <? S swap_cnt then mret None else try_insert r a q (S swap_cnt)
        else mret (Some swap_cnt)
      else mret (Some swap_cnt)
  end.

Fixpoint try_insertion (k r a pm swap_cnt : nat) : MA bool :=
  match k with
  | O => mret true
  | S k =>
      o ← try_insert r a pm swap_cnt;
      match o with Some swap_cnt => try_insertion k r a (S pm) swap_cnt | None => mret false end
  end.

Definition pivot (a n : nat) : MA nat :=
  let pm := a + n / 2 in
  if 7 <? n then
    let pl := a in
    let pn := a + (n - 1) in
    if 40 <? n then
      let d := n / 8 in
      pl ← med3 pl (pl + d) (pl + 2 * d);
      pm ← med3 (pm - d) pm (pm + d);
      pn ← med3 (pn - 2 * d) (pn - d) pn;
      med3 pl pm pn
    else med3 pl pm pn
  else mret pm.

(** The two inner loops of the partition and the outer one. *)
Fixpoint scan_up (fuel a pa pb pc swap_cnt : nat) : MA (nat * nat * nat) :=
  match fuel with
  | O => crash OUT_OF_FUEL
  | S fuel =>
      if pb <=? pc then
        c ← CMP pb a;
        if (c <=? 0)%Z then
          if (c =? 0)%Z then _ ← swap pa pb; scan_up fuel a (S pa) (S pb) pc 1
          else scan_up fuel a pa (S pb) pc swap_cnt
        else mret (pa, pb, swap_cnt)
      else mret (pa, pb, swap_cnt)
  end.

Fixpoint scan_down (fuel a pb pc pd swap_cnt : nat) : MA (nat * nat * nat) :=
  match fuel with
  | O => crash OUT_OF_FUEL
  | S fuel =>
      if pb <=? pc then
        c ← CMP pc a;
        if (0 <=? c)%Z then
          if (c =? 0)%Z then _ ← swap pc pd; scan_down fuel a pb (pc - 1) (pd - 1) 1
          else scan_down fuel a pb (pc - 1) pd swap_cnt
        else mret (pc, pd, swap_cnt)
      else mret (pc, pd, swap_cnt)
  end.

Fixpoint partition (fuel a pa pb pc pd swap_cnt : nat) : MA (nat * nat * nat * nat * nat) :=
  match fuel with
  | O => crash OUT_OF_FUEL
  | S fuel' =>
      '(pa, pb, swap_cnt) ← scan_up fuel a pa pb pc swap_cnt;
      '(pc, pd, swap_cnt) ← scan_down fuel a pb pc pd swap_cnt;
      if pc <? pb then mret (pa, pb, pc, pd, swap_cnt)
      else _ ← swap pb pc; partition fuel' a pa (S pb) (pc - 1) pd 1
  end.

(** One round of [loop:] up to [nevermind:]. *)
Definition partitioned (a n : nat) : MA (nat * nat * nat * nat * nat) :=
  pm ← pivot a n;
  _ ← swap a pm;
  '(pa, pb, pc, pd, swap_cnt) ← partition (S n) a (a + 1) (a + 1) (a + (n - 1)) (a + (n - 1)) 0;
  let pn := a + n in
  let r := (pa - a) `min` (pb - pa) in
  _ ← vecswap a (pb - r) r;
  let r := (pd - pc) `min` (pn - pd - 1) in
  _ ← vecswap pb (pn - r) r;
  mret (pa, pb, pc, pd, swap_cnt).

Fixpoint _qsort (depth_limit a n : nat) : MA unit :=
  match depth_limit with
  | O => _ ← heapsort a n; mret tt
  | S depth_limit =>
      if n <? 7 then insertion (n - 1) a (a + 1)
      else
        '(pa, pb, pc, pd, swap_cnt) ← partitioned a n;
        finished ← (if swap_cnt =? 0 then try_insertion (n - 1) (1 + n / 4) a (a + 1) 0 else mret false);
        if (finished : bool) then mret tt
        else
          _ ← (if 1 <? pb - pa then _qsort depth_limit a (pb - pa) else mret tt);
          if 1 <? pd - pc then _qsort depth_limit (a + n - (pd - pc)) (pd - pc) else mret tt
  end.

(** [flsl]: the number of the highest bit set, from 1; 0 for 0. *)
Definition flsl (n : nat) : nat := if n =? 0 then 0 else S (Nat.log2 n).

(** [DEPTH(x)] is negative for 0, which is as good as 0. *)
Definition DEPTH (n : nat) : nat := 2 * (flsl n - 1).

Definition qsort (a n : nat) : MA unit := _qsort (DEPTH n) a n.

(** ** bsearch.c *)

Section bsearch.
Context {K : Type} (compar_key : K → A → Z) (key : K).

Fixpoint bsearch_loop (fuel base lim : nat) : MA (option nat) :=
  match fuel with
  | O => crash OUT_OF_FUEL
  | S fuel =>
      if lim =? 0 then mret None
      else
        let p := base + lim / 2 in
        x ← get p;
        let c := compar_key key x in
        if (c =? 0)%Z then mret (Some p)
        else if (c >? 0)%Z then bsearch_loop fuel (p + 1) ((lim - 1) / 2)
        else bsearch_loop fuel base (lim / 2)
  end.

Definition bsearch (base nmemb : nat) : MA (option nat) := bsearch_loop (S nmemb) base nmemb.
End bsearch.
End sort.
End Sort.

Import Sort.

(** ** Libc sorting: arrays and their rearrangements

    Exchanges, the rules of the operations on arrays, and the
    relation "the array is rearranged inside a range" that all sorting routines
    satisfy whatever the comparison function does. *)

(** What the C standard asks of a comparison function. *)
Class Comparator {A} (compar : A → A → Z) : Prop := {
  compar_flip x y : compar x y < 0 ↔ 0 < compar y x;
  compar_trans x y z : compar x y ≤ 0 → compar y z ≤ 0 → compar x z ≤ 0;
}.

Section comparator.
Context {A : Type} (compar : A → A → Z) `{!Comparator compar}.

Lemma compar_refl x : compar x x = 0.
Proof. pose proof (compar_flip x x). lia. Qed.
Lemma compar_ge x y : 0 ≤ compar x y ↔ compar y x ≤ 0.
Proof. pose proof (compar_flip x y). lia. Qed.
Lemma compar_zero x y : compar x y = 0 → compar y x = 0.
Proof. pose proof (compar_flip x y). pose proof (compar_flip y x). lia. Qed.
End comparator.

Local Open Scope nat_scope.

(** ** Exchanges *)

Section arrays.
Context {A : Type}.
Implicit Types (l : list A).

Definition exch (i j : nat) l : list A :=
  match l !! i, l !! j with Some x, Some y => <[j := x]> (<[i := y]> l) | _, _ => l end.

Lemma exch_length i j l : length (exch i j l) = length l.
Proof. unfold exch. repeat case_match; by rewrite ?length_insert. Qed.

Lemma exch_lookup i j l k :
  i < length l → j < length l →
  exch i j l !! k = if decide (k = j) then l !! i else if decide (k = i) then l !! j else l !! k.
Proof.
  intros [x Hx]%lookup_lt_is_Some_2 [y Hy]%lookup_lt_is_Some_2. unfold exch. rewrite Hx, Hy.
  pose proof (lookup_lt_Some _ _ _ Hx). pose proof (lookup_lt_Some _ _ _ Hy).
  case_decide as E1; [subst; rewrite list_lookup_insert_eq; [done|rewrite length_insert; lia]|].
  rewrite list_lookup_insert_ne by done.
  case_decide as E2; [subst; by rewrite list_lookup_insert_eq|by rewrite list_lookup_insert_ne].
Qed.

Lemma exch_other i j l k : k ≠ i → k ≠ j → exch i j l !! k = l !! k.
Proof. intros Hi Hj. unfold exch. repeat case_match; rewrite ?list_lookup_insert_ne by done; done. Qed.

Lemma exch_perm i j l : exch i j l ≡ₚ l.
Proof.
  destruct (decide (i < length l)) as [Hi|Hi]; [|unfold exch; by rewrite (lookup_ge_None_2 l i) by lia].
  destruct (decide (j < length l)) as [Hj|Hj];
    [|unfold exch; rewrite (lookup_ge_None_2 l j) by lia; by destruct (l !! i)].
  apply Permutation_inj. split; [by rewrite exch_length|].
  exists (λ k, if decide (k = j) then i else if decide (k = i) then j else k). split.
  - intros k k' E. repeat case_decide; congruence.
  - intros k. rewrite exch_lookup by done. repeat case_decide; by subst.
Qed.

(** Filling a hole with an element and making that element's place the hole. *)
Lemma hole_move l h c x k :
  h < length l → l !! c = Some x → h ≠ c → <[c := k]> (<[h := x]> l) ≡ₚ <[h := k]> l.
Proof.
  intros Hh Hc Hne. pose proof (lookup_lt_Some _ _ _ Hc).
  rewrite <- (exch_perm h c (<[h := k]> l)). unfold exch.
  rewrite list_lookup_insert_eq, list_lookup_insert_ne, Hc by done.
  by rewrite list_insert_insert_eq.
Qed.

(** ** Rearranged inside [a, a + n) *)

Definition reorders (a n : nat) l l' : Prop :=
  l' ≡ₚ l ∧ ∀ i, i < a ∨ a + n ≤ i → l' !! i = l !! i.

Lemma reorders_refl a n l : reorders a n l l.
Proof. by split. Qed.
Lemma reorders_trans a n l1 l2 l3 : reorders a n l1 l2 → reorders a n l2 l3 → reorders a n l1 l3.
Proof. intros [P1 E1] [P2 E2]. split; [by rewrite P2|]. intros i Hi. by rewrite E2, E1. Qed.
Lemma reorders_length a n l l' : reorders a n l l' → length l' = length l.
Proof. intros [P _]. by apply Permutation_length. Qed.
Lemma reorders_mono a n a' n' l l' : a' ≤ a → a + n ≤ a' + n' → reorders a n l l' → reorders a' n' l l'.
Proof. intros Ha Hn [P E]. split; [done|]. intros i Hi. apply E. lia. Qed.
Lemma reorders_other a n l l' i : reorders a n l l' → i < a ∨ a + n ≤ i → l' !! i = l !! i.
Proof. intros [_ E]. apply E. Qed.
Lemma reorders_exch a n i j l : a ≤ i < a + n → a ≤ j < a + n → reorders a n l (exch i j l).
Proof. intros Hi Hj. split; [apply exch_perm|]. intros k Hk. apply exch_other; lia. Qed.

(** The range of a rearranged array has the elements the range had. *)
Lemma reorders_seg a n l l' :
  reorders a n l l' → take n (drop a l') ≡ₚ take n (drop a l).
Proof.
  intros Hr. pose proof (reorders_length _ _ _ _ Hr) as Hlen. destruct Hr as [P E].
  assert (take a l' = take a l) as Ea.
  { apply list_eq. intros i. destruct (decide (i < a)) as [Hi|Hi].
    - rewrite !lookup_take_lt by lia. apply E. lia.
    - rewrite !lookup_take_ge by lia. done. }
  assert (drop (a + n) l' = drop (a + n) l) as Eb.
  { apply list_eq. intros i. rewrite !lookup_drop. apply E. lia. }
  rewrite <- (take_drop a l'), <- (take_drop a l), Ea in P. apply Permutation_app_inv_l in P.
  rewrite <- (take_drop n (drop a l')), <- (take_drop n (drop a l)), !drop_drop, Eb in P.
  by apply Permutation_app_inv_r in P.
Qed.

Lemma seg_elem a n l x : x ∈ take n (drop a l) ↔ ∃ i, a ≤ i < a + n ∧ l !! i = Some x.
Proof.
  rewrite list_elem_of_lookup. split.
  - intros [i Hi]. pose proof (lookup_lt_Some _ _ _ Hi) as Hlt. rewrite length_take in Hlt.
    rewrite lookup_take_lt, lookup_drop in Hi by lia. exists (a + i). split; [lia|done].
  - intros (i & Hi & Hx). exists (i - a). rewrite lookup_take_lt, lookup_drop by lia.
    by replace (a + (i - a)) with i by lia.
Qed.

Lemma reorders_from a n l l' i x :
  reorders a n l l' → a ≤ i < a + n → l' !! i = Some x → ∃ j, a ≤ j < a + n ∧ l !! j = Some x.
Proof. intros Hr Hi Hx. apply seg_elem. rewrite <- (reorders_seg _ _ _ _ Hr). apply seg_elem. eauto. Qed.

(** ** Order between places *)

Section order.
Context (compar : A → A → Z).

Definition le_at l (i j : nat) : Prop :=
  ∀ x y, l !! i = Some x → l !! j = Some y → (compar x y ≤ 0)%Z.

(** In order from [i] up to and without [j]. *)
Definition sorted_range l (i j : nat) : Prop := ∀ p q, i ≤ p < q → q < j → le_at l p q.

(** No element of [i, c) is greater than one of [c, j). *)
Definition cut l (i c j : nat) : Prop := ∀ p q, i ≤ p < c → c ≤ q < j → le_at l p q.

Lemma le_at_trans `{!Comparator compar} l i j k :
  j < length l → le_at l i j → le_at l j k → le_at l i k.
Proof.
  intros [y Hy]%lookup_lt_is_Some_2 H1 H2 x z Hx Hz. eapply compar_trans; [by apply H1|by apply H2].
Qed.

Lemma le_at_eq l l' i j : l' !! i = l !! i → l' !! j = l !! j → le_at l i j → le_at l' i j.
Proof. intros E1 E2 Hl x y. rewrite E1, E2. apply Hl. Qed.

Lemma sorted_range_glue l i c j :
  sorted_range l i c → sorted_range l c j → cut l i c j → sorted_range l i j.
Proof.
  intros H1 H2 Hc p q Hp Hq. destruct (decide (q < c)); [by apply H1; lia|].
  destruct (decide (c ≤ p)); [apply H2; lia|apply Hc; lia].
Qed.

(** A rearrangement on one side of a cut keeps it. *)
Lemma cut_reorders l l' a n i c j :
  reorders a n l l' → cut l i c j → (i ≤ a ∧ a + n ≤ c) ∨ (c ≤ a ∧ a + n ≤ j) → cut l' i c j.
Proof.
  intros Hr Hc Hside p q Hp Hq x y Hx Hy.
  assert (∃ p', i ≤ p' < c ∧ l !! p' = Some x) as (p' & Hp' & Hx').
  { destruct (decide (a ≤ p < a + n)) as [Hin|Hin].
    - destruct (reorders_from _ _ _ _ _ _ Hr Hin Hx) as (p' & ? & ?). exists p'. split; [lia|done].
    - exists p. rewrite (reorders_other _ _ _ _ _ Hr) in Hx by lia. done. }
  assert (∃ q', c ≤ q' < j ∧ l !! q' = Some y) as (q' & Hq' & Hy').
  { destruct (decide (a ≤ q < a + n)) as [Hin|Hin].
    - destruct (reorders_from _ _ _ _ _ _ Hr Hin Hy) as (q' & ? & ?). exists q'. split; [lia|done].
    - exists q. rewrite (reorders_other _ _ _ _ _ Hr) in Hy by lia. done. }
  by apply (Hc p' q').
Qed.

Lemma sorted_range_other l l' a n i j :
  reorders a n l l' → j ≤ a ∨ a + n ≤ i → sorted_range l i j → sorted_range l' i j.
Proof.
  intros Hr Hd Hs p q Hp Hq. apply (le_at_eq l); [..|by apply Hs]; apply (reorders_other _ _ _ _ _ Hr); lia.
Qed.
End order.
End arrays.

(** ** Rules for the operations on arrays *)

Section rules.
Context {A : Type} (compar : A → A → Z).
Implicit Types (l : list A).

Lemma wp_get i l x (Q : A → list A → Prop) : l !! i = Some x → Q x l → wp (get i) l Q.
Proof. intros Hx HQ. unfold wp, get. by rewrite Hx. Qed.

Lemma wp_put i x l (Q : unit → list A → Prop) : i < length l → Q tt (<[i := x]> l) → wp (put i x) l Q.
Proof. intros Hi HQ. unfold wp, put. by apply Nat.ltb_lt in Hi as ->. Qed.

Lemma wp_CMP i j l x y (Q : Z → list A → Prop) :
  l !! i = Some x → l !! j = Some y → Q (compar x y) l → wp (CMP compar i j) l Q.
Proof. intros Hx Hy HQ. unfold CMP. apply wp_bind, (wp_get _ _ x); [done|]. by apply wp_bind, (wp_get _ _ y). Qed.

Lemma wp_SWAP i j l (Q : unit → list A → Prop) :
  i < length l → j < length l → Q tt (exch i j l) → wp (SWAP i j) l Q.
Proof.
  intros Hi Hj HQ. unfold exch in HQ. destruct (lookup_lt_is_Some_2 _ _ Hi) as [x Hx].
  destruct (lookup_lt_is_Some_2 _ _ Hj) as [y Hy]. rewrite Hx, Hy in HQ. unfold SWAP.
  apply wp_bind, (wp_get _ _ x); [done|]. apply wp_bind, (wp_get _ _ y); [done|].
  apply wp_bind, wp_put; [done|]. apply wp_put; [by rewrite length_insert|done].
Qed.

Lemma wp_as_int n l (Q : unit → list A → Prop) : (Z.of_nat n < 2 ^ 31)%Z → Q tt l → wp (as_int n) l Q.
Proof. intros Hn HQ. unfold as_int. apply Z.ltb_lt in Hn as ->. by apply wp_ret. Qed.

Lemma wp_swap es i j l (Q : unit → list A → Prop) :
  (Z.of_nat es < 2 ^ 31)%Z → i < length l → j < length l → Q tt (exch i j l) → wp (swap es i j) l Q.
Proof. intros Hes Hi Hj HQ. apply wp_bind, wp_as_int; [done|]. by apply wp_SWAP. Qed.
End rules.

(** [elem l i x H]: the element [x] at an index inside the array. *)
Ltac elem l i x H :=
  let Hlt := fresh in
  assert (i < length l) as Hlt by (unfold Sort.item; lia); destruct (lookup_lt_is_Some_2 l i Hlt) as [x H]; clear Hlt.
