(* ===== verification/LibcSortHeap.v ===== *)
(** * Libc sorting: heapsort

    [heapsort] returns with the range rearranged, whatever the comparison
    function does; when it is a comparison the range is in order. *)

From S2P Require Import Prelude LibcSort.
Import Sort.
Local Open Scope nat_scope.

Lemma half_spec c p : c / 2 = p ↔ c = 2 * p ∨ c = 2 * p + 1.
Proof. pose proof (Nat.div_mod_eq c 2). pose proof (Nat.mod_upper_bound c 2). lia. Qed.

Section heap.
Context {A : Type} (compar : A → A → Z) (a : nat).
Implicit Types (l : list A).
Local Abbreviation item := (item a).
Local Abbreviation le_at := (le_at compar).

(** The place an exchange takes the element from. *)
Definition tr (i j k : nat) : nat := if decide (k = j) then i else if decide (k = i) then j else k.

Lemma exch_tr i j l k : i < length l → j < length l → exch i j l !! k = l !! tr i j k.
Proof. intros Hi Hj. rewrite exch_lookup by done. unfold tr. by repeat case_decide. Qed.

Lemma le_at_exch i j l p q :
  i < length l → j < length l → le_at l (tr i j p) (tr i j q) → le_at (exch i j l) p q.
Proof. intros Hi Hj Hle x y. rewrite !exch_tr by done. apply Hle. Qed.

Lemma item_inj i j : 0 < i → 0 < j → item i = item j → i = j.
Proof. unfold Sort.item. lia. Qed.

Lemma tr_item i j k : 0 < i → 0 < j → 0 < k → tr (item i) (item j) (item k) = item (tr i j k).
Proof. intros Hi Hj Hk. unfold tr. repeat case_decide; try done; subst; try done; exfalso; auto using item_inj. Qed.

(** [c] is not greater than its parent. *)
Definition heap_at l (c : nat) : Prop := le_at l (item c) (item (c / 2)).
Definition heap_from l (s n : nat) : Prop := ∀ c, 2 ≤ c ≤ n → s ≤ c / 2 → heap_at l c.

Lemma wp_larger n child_i l :
  1 ≤ child_i ≤ n → a + n ≤ length l →
  wp (larger compar a n child_i) l (λ c l', l' = l ∧ (c = child_i ∨ c = child_i + 1) ∧ c ≤ n ∧
    (Comparator compar → ∀ d, d = child_i ∨ d = child_i + 1 → d ≤ n → le_at l (item d) (item c))).
Proof.
  intros Hc Hn. unfold larger.
  destruct (Nat.ltb_spec child_i n) as [Hlt|Hge].
  - elem l (item child_i) x Hx. elem l (item (child_i + 1)) y Hy.
    apply wp_bind, (wp_CMP _ _ _ _ x y); [done..|]. apply wp_ret.
    destruct (Z.ltb_spec (compar x y) 0) as [Hxy|Hxy]; (split_and!; [done|lia|lia|]); intros Hcmp d [->| ->] Hd u v Hu Hv;
      simplify_eq; rewrite ?compar_refl; try done; [lia|by apply compar_ge].
  - apply wp_ret. split_and!; [done|lia|lia|]. intros Hcmp d Hd Hdn. replace d with child_i by lia.
    intros u v Hu Hv. simplify_eq. by rewrite compar_refl.
Qed.

(** ** Building the heap *)

(** In order but for the edges below [p], whose children are below [p]'s parent. *)
Definition sift_pre l (s n p : nat) : Prop :=
  (∀ c, 2 ≤ c ≤ n → s ≤ c / 2 → c / 2 ≠ p → heap_at l c) ∧
  (∀ c, c ≤ n → c / 2 = p → s ≤ p / 2 → le_at l (item c) (item (p / 2))).

Lemma sift_down l s n p c :
  1 ≤ s → 1 ≤ p → a + n ≤ length l → c / 2 = p → c ≤ n →
  (∀ d, d / 2 = p → d ≤ n → le_at l (item d) (item c)) → le_at l (item p) (item c) →
  sift_pre l s n p → sift_pre (exch (item p) (item c) l) s n c.
Proof.
  intros Hs Hp Hn Hc Hcn Hlarge Hpc [H1 H2]. pose proof (proj1 (half_spec c p) Hc) as Hcc.
  assert (∀ d e, 1 ≤ d → 1 ≤ e → le_at l (item (tr p c d)) (item (tr p c e)) →
            le_at (exch (item p) (item c) l) (item d) (item e)) as Hex.
  { intros d e Hd He Hle. apply le_at_exch; [unfold Sort.item; lia..|]. by rewrite !tr_item by lia. }
  split.
  - intros d Hd Hsd Hdc. pose proof (proj1 (half_spec d _) eq_refl) as Hdd.
    apply Hex; [lia..|]. unfold tr. destruct (decide (d = c)) as [->|Hne].
    + rewrite Hc. rewrite decide_False by lia. by rewrite decide_True.
    + destruct (decide (d = p)) as [->|Hnp].
      * rewrite decide_False by lia. rewrite decide_False by lia. by apply H2.
      * rewrite (decide_False (P := d / 2 = c)) by lia. destruct (decide (d / 2 = p)) as [E|E]; [apply Hlarge; lia|].
        apply H1; lia.
  - intros d Hd Hdc Hsc. pose proof (proj1 (half_spec d _) Hdc) as Hdd. rewrite Hc in *.
    apply Hex; [lia..|]. unfold tr. rewrite decide_False by lia. rewrite decide_False by lia.
    rewrite decide_False by lia. rewrite decide_True by done. rewrite <- Hdc. apply H1; lia.
Qed.

Lemma wp_CREATE fuel s n p l :
  1 ≤ s → 1 ≤ p ≤ n → n < fuel + p → a + n ≤ length l →
  wp (CREATE compar fuel a n p) l (λ _ l', reorders a n l l' ∧
    (Comparator compar → sift_pre l s n p → heap_from l' s n)).
Proof.
  intros Hs. revert p l. induction fuel as [|fuel IH]; intros p l Hp Hf Hn; [lia|]. cbn [CREATE].
  destruct (Nat.leb_spec (p * 2) n) as [Hle|Hgt].
  - apply wp_bind. eapply wp_mono; [apply wp_larger; lia|]. intros c l' (-> & Hc & Hcn & Hlarge). cbn beta.
    assert (c / 2 = p) as Hc2 by (apply half_spec; lia).
    elem l (item c) x Hx. elem l (item p) y Hy.
    apply wp_bind, (wp_CMP _ _ _ _ x y); [done..|].
    assert (Comparator compar → ∀ d, d / 2 = p → d ≤ n → le_at l (item d) (item c)) as Hlarge'.
    { intros Hcmp d Hd Hdn. apply Hlarge; [done| |done]. apply half_spec in Hd. lia. }
    destruct (Z.leb_spec (compar x y) 0) as [Hxy|Hxy].
    + apply wp_ret. split; [apply reorders_refl|]. intros Hcmp [H1 H2] d Hd Hsd.
      destruct (decide (d / 2 = p)) as [E|E]; [|by apply H1]. unfold heap_at. rewrite E.
      apply (le_at_trans _ l _ (item c)); [unfold Sort.item; lia|by apply Hlarge'; [|lia..]|]. intros u v Hu Hv.
      by simplify_eq.
    + apply wp_bind, wp_SWAP; [unfold Sort.item; lia..|].
      eapply wp_mono; [apply IH; rewrite ?exch_length; lia|]. intros _ l' [Hr Hheap]. split.
      * eapply reorders_trans; [|exact Hr]. apply reorders_exch; unfold Sort.item; lia.
      * intros Hcmp Hpre. apply Hheap; [done|]. apply sift_down; try lia; auto. intros u v Hu Hv. simplify_eq.
        apply compar_ge; [done|lia].
  - apply wp_ret. split; [apply reorders_refl|]. intros Hcmp [H1 H2] d Hd Hsd. apply H1; [done..|].
    rewrite half_spec. lia.
Qed.

Lemma wp_create_loop k n l :
  k ≤ n / 2 → a + n ≤ length l →
  wp (create_loop compar k a n) l (λ _ l', reorders a n l l' ∧
    (Comparator compar → heap_from l (S k) n → heap_from l' 1 n)).
Proof.
  pose proof (proj1 (half_spec n _) eq_refl) as Hn2.
  revert l. induction k as [|k IH]; intros l Hk Hn; cbn [create_loop].
  { apply wp_ret. split; [apply reorders_refl|done]. }
  apply wp_bind. eapply wp_mono; [apply (wp_CREATE n (S k) n (S k) l); lia|]. intros _ l' [Hr Hh].
  pose proof (reorders_length _ _ _ _ Hr). eapply wp_mono; [apply IH; lia|]. intros _ l'' [Hr' Hh'].
  split; [by eapply reorders_trans|]. intros Hcmp Hf. apply Hh'; [done|]. apply Hh; [done|]. split.
  - intros c Hc Hsc Hne. apply Hf; [done|lia].
  - intros c Hc E Hs. pose proof (proj1 (half_spec (S k) _) eq_refl). lia.
Qed.

(** ** Taking the largest *)

(** A heap but for the hole [h]: its children are below its parent. *)
Definition sel_pre l (n h : nat) : Prop :=
  (∀ c, 2 ≤ c ≤ n → c ≠ h → c / 2 ≠ h → heap_at l c) ∧
  (∀ c, 2 ≤ c ≤ n → c / 2 = h → 2 ≤ h → le_at l (item c) (item (h / 2))).

(** Copying the element at [c] to [h]. *)
Definition cp (h c k : nat) : nat := if decide (k = h) then c else k.

Lemma le_at_copy h c l x p q :
  1 ≤ h → 1 ≤ c → item h < length l → l !! item c = Some x → 1 ≤ p → 1 ≤ q →
  le_at l (item (cp h c p)) (item (cp h c q)) → le_at (<[item h := x]> l) (item p) (item q).
Proof.
  intros Hh Hc Hlt Hx Hp Hq Hle.
  assert (∀ k, 1 ≤ k → <[item h := x]> l !! item k = l !! item (cp h c k)) as E.
  { intros k Hk. unfold cp. case_decide as Ek; [subst; by rewrite list_lookup_insert_eq|].
    rewrite list_lookup_insert_ne; [done|]. intros ?%item_inj; lia. }
  intros u v. rewrite !E by done. apply Hle.
Qed.

Lemma sel_down l n h c x :
  1 ≤ h ≤ n → a + n ≤ length l → c / 2 = h → c ≤ n → l !! item c = Some x →
  (∀ d, d / 2 = h → d ≤ n → le_at l (item d) (item c)) →
  sel_pre l n h → sel_pre (<[item h := x]> l) n c.
Proof.
  intros Hh Hn Hc Hcn Hx Hlarge [H1 H2]. pose proof (proj1 (half_spec c h) Hc) as Hcc.
  assert (item h < length l) as Hlt by (unfold Sort.item; lia).
  split.
  - intros d Hd Hdc Hd2. pose proof (proj1 (half_spec d _) eq_refl) as Hdd.
    apply (le_at_copy h c); try done; try lia. unfold cp. destruct (decide (d = h)) as [->|Hne].
    + rewrite decide_False by lia. apply H2; lia.
    + destruct (decide (d / 2 = h)); [by apply Hlarge; lia|]. by apply H1.
  - intros d Hd Hd2 _. pose proof (proj1 (half_spec d _) Hd2) as Hdd. rewrite Hc.
    apply (le_at_copy h c); try done; try lia. unfold cp. rewrite decide_False by lia. rewrite decide_True by done.
    rewrite <- Hd2. apply H1; lia.
Qed.

Lemma wp_select_down fuel n h l :
  1 ≤ h ≤ n → n < fuel + h → a + n ≤ length l →
  wp (select_down compar fuel a n h) l (λ h' l', 1 ≤ h' ≤ n ∧ n < h' * 2 ∧ length l' = length l ∧
    (∀ k, reorders a n (<[item h := k]> l) (<[item h' := k]> l')) ∧
    (Comparator compar → sel_pre l n h → sel_pre l' n h')).
Proof.
  revert h l. induction fuel as [|fuel IH]; intros h l Hh Hf Hn; [lia|]. cbn [select_down].
  destruct (Nat.leb_spec (h * 2) n) as [Hle|Hgt].
  - apply wp_bind. eapply wp_mono; [apply wp_larger; lia|]. intros c l' (-> & Hc & Hcn & Hlarge). cbn beta.
    assert (c / 2 = h) as Hc2 by (apply half_spec; lia).
    elem l (item c) x Hx. apply wp_bind, (wp_get _ _ x); [done|]. apply wp_bind, wp_put; [unfold Sort.item; lia|].
    eapply wp_mono; [apply IH; rewrite ?length_insert; lia|].
    intros h' l' (Hh' & Hend & Hlen & Hr & Hpre). rewrite length_insert in Hlen. split_and!; try done; try lia.
    + intros k. eapply reorders_trans; [|apply Hr]. split.
      * apply hole_move; [unfold Sort.item; lia|done|]. intros ?%item_inj; lia.
      * intros i Hi. rewrite !list_lookup_insert_ne by (unfold Sort.item; lia). done.
    + intros Hcmp Hp. apply Hpre; [done|]. apply sel_down; try done. intros d Hd Hdn. apply Hlarge; [done| |done].
      apply half_spec in Hd. lia.
  - apply wp_ret. split_and!; try done; try lia.
Qed.

Lemma sel_up l n h p x k :
  Comparator compar → 2 ≤ h ≤ n → a + n ≤ length l → h / 2 = p → l !! item p = Some x → (0 ≤ compar k x)%Z →
  sel_pre l n h →
  sel_pre (<[item h := x]> l) n p ∧
  (∀ c y, c ≤ n → c / 2 = p → <[item h := x]> l !! item c = Some y → (compar y k ≤ 0)%Z).
Proof.
  intros Hcmp Hh Hn Hp Hx Hk [H1 H2]. pose proof (proj1 (half_spec h p) Hp) as Hhp.
  assert (item h < length l) as Hlt by (unfold Sort.item; lia).
  assert (∀ c, 2 ≤ c ≤ n → c / 2 = p → c ≠ h → le_at l (item c) (item p)) as Hsib.
  { intros c Hc Hcp Hne. rewrite <- Hcp. apply H1; lia. }
  split; [split|].
  - intros c Hc Hcp Hc2. pose proof (proj1 (half_spec c _) eq_refl) as Hcc.
    apply (le_at_copy h p); try done; try lia. unfold cp. rewrite decide_False by (intros ->; lia).
    case_decide as E; [rewrite <- Hp; apply H2; lia|]. apply H1; try done. intros ->. lia.
  - intros c Hc Hc2 Hp2. pose proof (proj1 (half_spec c _) Hc2) as Hcc.
    pose proof (proj1 (half_spec p _) eq_refl) as Hpp.
    apply (le_at_copy h p); try done; try lia. unfold cp. rewrite (decide_False (P := p / 2 = h)) by lia.
    assert (le_at l (item p) (item (p / 2))) as Hpp2 by (apply H1; lia).
    case_decide as E; [done|]. apply (le_at_trans _ l _ (item p)); [unfold Sort.item; lia|by apply Hsib; [lia|..]|done].
  - intros c y Hc Hc2 Hy. pose proof (proj1 (half_spec c _) Hc2) as Hcc. apply (compar_ge compar) in Hk.
    destruct (decide (c = h)) as [->|Hne].
    + rewrite list_lookup_insert_eq in Hy by done. by injection Hy as <-.
    + rewrite list_lookup_insert_ne in Hy by (intros ?%item_inj; lia). eapply compar_trans; [|exact Hk].
      apply (Hsib c); done || lia.
Qed.

(** The hole is filled. *)
Lemma sel_fill l n h k :
  1 ≤ h ≤ n → a + n ≤ length l → sel_pre l n h →
  (∀ c y, c ≤ n → c / 2 = h → l !! item c = Some y → (compar y k ≤ 0)%Z) →
  (2 ≤ h → ∀ x, l !! item (h / 2) = Some x → (compar k x ≤ 0)%Z) →
  heap_from (<[item h := k]> l) 1 n.
Proof.
  intros Hh Hn [H1 H2] Hdown Hup c Hc _. pose proof (proj1 (half_spec c _) eq_refl) as Hcc.
  assert (item h < length l) as Hlt by (unfold Sort.item; lia).
  assert (∀ i, 1 ≤ i → i ≠ h → <[item h := k]> l !! item i = l !! item i) as E.
  { intros i Hi Hne. rewrite list_lookup_insert_ne; [done|]. intros ?%item_inj; lia. }
  destruct (decide (c = h)) as [->|Hne]; [|destruct (decide (c / 2 = h)) as [Ec|Ec]].
  - intros x y. rewrite list_lookup_insert_eq by done. rewrite E by lia. intros [= <-]. apply Hup. lia.
  - intros x y. rewrite Ec, list_lookup_insert_eq, E by (done || lia). intros Hx [= <-]. apply (Hdown c); done || lia.
  - eapply le_at_eq; [apply E; lia|apply E; lia|by apply H1].
Qed.

Lemma wp_select_up fuel n k h l :
  1 ≤ h ≤ n → h ≤ fuel → a + n ≤ length l →
  wp (select_up compar fuel a k h) l (λ _ l', reorders a n (<[item h := k]> l) l' ∧
    (Comparator compar → sel_pre l n h →
     (∀ c y, c ≤ n → c / 2 = h → l !! item c = Some y → (compar y k ≤ 0)%Z) → heap_from l' 1 n)).
Proof.
  revert h l. induction fuel as [|fuel IH]; intros h l Hh Hf Hn; [lia|]. cbn [select_up].
  assert (item h < length l) as Hlt by (unfold Sort.item; lia).
  destruct (Nat.eqb_spec h 1) as [->|Hne].
  - apply wp_bind, wp_ret, wp_put; [done|]. split; [apply reorders_refl|]. intros Hcmp Hpre Hdown.
    apply sel_fill; try done. lia.
  - pose proof (proj1 (half_spec h _) eq_refl) as Hhh. elem l (item (h / 2)) x Hx.
    apply wp_bind, wp_bind, (wp_get _ _ x); [done|]. apply wp_ret.
    destruct (Z.ltb_spec (compar k x) 0) as [Hlt'|Hge].
    + apply wp_put; [done|]. split; [apply reorders_refl|]. intros Hcmp Hpre Hdown.
      apply sel_fill; try done. intros _ y Hy. simplify_eq. lia.
    + apply wp_bind, (wp_get _ _ x); [done|]. apply wp_bind, wp_put; [done|].
      eapply wp_mono; [apply IH; rewrite ?length_insert; lia|]. intros _ l' [Hr Hheap]. split.
      * eapply reorders_trans; [|exact Hr]. split.
        -- apply hole_move; [done|done|]. intros ?%item_inj; lia.
        -- intros i Hi. rewrite !list_lookup_insert_ne by (unfold Sort.item; lia). done.
      * intros Hcmp Hpre Hdown. destruct (sel_up l n h (h / 2) x k) as [Hp Hd]; try done; [lia|]. by apply Hheap.
Qed.

Lemma wp_SELECT n k l :
  1 ≤ n → a + n ≤ length l →
  wp (SELECT compar a n k) l (λ _ l', reorders a n (<[item 1 := k]> l) l' ∧
    (Comparator compar → (∀ c, 2 ≤ c ≤ n → c / 2 ≠ 1 → heap_at l c) → heap_from l' 1 n)).
Proof.
  intros Hn Hlen. unfold SELECT. apply wp_bind. eapply wp_mono; [apply wp_select_down; lia|].
  intros h l' (Hh & Hend & Hl' & Hr & Hpre). eapply wp_mono; [apply (wp_select_up _ n); lia|].
  intros _ l'' [Hr' Hheap]. split; [by eapply reorders_trans; [apply Hr|]|].
  intros Hcmp H1. apply Hheap; [done| |].
  - apply Hpre; [done|]. split; [|lia]. intros c Hc Hne Hc2. by apply H1.
  - intros c y Hc Hc2. apply half_spec in Hc2. lia.
Qed.

(** ** The whole *)

Lemma heap_root `{!Comparator compar} l n c :
  heap_from l 1 n → a + n ≤ length l → 1 ≤ c ≤ n → le_at l (item c) (item 1).
Proof.
  intros Hh Hn. induction c as [c IH] using lt_wf_ind. intros Hc.
  destruct (decide (c = 1)) as [->|Hne]; [intros x y Hx Hy; simplify_eq; by rewrite compar_refl|].
  pose proof (proj1 (half_spec c _) eq_refl) as Hcc.
  apply (le_at_trans _ l _ (item (c / 2))); [unfold Sort.item; lia|apply Hh; lia|apply IH; lia].
Qed.

(** The largest goes behind the rest. *)
Lemma heap_cut `{!Comparator compar} l n :
  heap_from l 1 (S n) → a + S n ≤ length l → cut compar (exch (item (S n)) (item 1) l) a (a + n) (a + S n).
Proof.
  intros Hh Hn p q Hp Hq. replace q with (item (S n)) by (unfold Sort.item; lia).
  replace p with (item (p - a + 1)) by (unfold Sort.item; lia).
  apply le_at_exch; [unfold Sort.item; lia..|]. rewrite !tr_item by lia.
  replace (tr (S n) 1 (S n)) with 1 by (unfold tr; repeat case_decide; lia).
  apply (heap_root l (S n)); [done..|]. unfold tr. repeat case_decide; lia.
Qed.

Lemma wp_select_loop n l :
  a + n ≤ length l →
  wp (select_loop compar n a) l (λ _ l', reorders a n l l' ∧
    (Comparator compar → heap_from l 1 n → sorted_range compar l' a (a + n))).
Proof.
  revert l. induction n as [|n IH]; intros l Hn; cbn [select_loop].
  { apply wp_ret. split; [apply reorders_refl|]. intros _ _ p q. lia. }
  destruct (Nat.ltb_spec 0 n) as [Hpos|Hz].
  2: { apply wp_ret. split; [apply reorders_refl|]. intros _ _ p q. lia. }
  elem l (item (S n)) k Hk. elem l (item 1) x Hx.
  apply wp_bind, (wp_get _ _ k); [done|]. apply wp_bind, (wp_get _ _ x); [done|].
  apply wp_bind, wp_put; [unfold Sort.item; lia|]. apply wp_bind.
  eapply wp_mono; [apply wp_SELECT; [lia|rewrite length_insert; lia]|]. intros _ l1 [Hr1 Hheap].
  replace (<[item 1:=k]> (<[item (S n):=x]> l)) with (exch (item (S n)) (item 1) l) in Hr1
    by (unfold exch; by rewrite Hk, Hx).
  pose proof (reorders_length _ _ _ _ Hr1) as Hl1. rewrite exch_length in Hl1.
  eapply wp_mono; [apply IH; lia|]. intros _ l2 [Hr2 Hsorted]. split.
  - eapply reorders_trans; [apply (reorders_exch a (S n) (item (S n)) (item 1)); unfold Sort.item; lia|].
    apply (reorders_mono a n); [lia..|]. by eapply reorders_trans.
  - intros Hcmp Hh. apply (sorted_range_glue _ _ _ (a + n)); [| |].
    + apply Hsorted; [done|]. apply Hheap; [done|]. intros c Hc Hc2.
      pose proof (proj1 (half_spec c _) eq_refl) as Hcc.
      eapply le_at_eq; [..|apply Hh; lia]; (rewrite list_lookup_insert_ne; [done|]); intros ?%item_inj; lia.
    + intros p q. lia.
    + eapply (cut_reorders _ _ _ a n); [exact Hr2| |lia]. eapply (cut_reorders _ _ _ a n); [exact Hr1| |lia].
      by apply heap_cut.
Qed.

(** [heapsort] returns for every comparison function; it fails only when there is
    no memory and then changes nothing. *)
Lemma wp_heapsort malloc_ok n l :
  a + n ≤ length l →
  wp (heapsort compar malloc_ok a n) l (λ r l', reorders a n l l' ∧
    (malloc_ok = true → r = 0%Z ∧ (Comparator compar → sorted_range compar l' a (a + n))) ∧
    (malloc_ok = false → l' = l ∧ r = if n <=? 1 then 0%Z else (-1)%Z)).
Proof.
  intros Hn. unfold heapsort. destruct (Nat.leb_spec n 1) as [H1|H1].
  { apply wp_ret. split_and!; [apply reorders_refl| |done]. intros _. split; [done|]. intros _ p q. lia. }
  destruct malloc_ok; [|apply wp_ret; split_and!; [apply reorders_refl|done|done]].
  apply wp_bind. eapply wp_mono; [by apply wp_create_loop|]. intros _ l1 [Hr1 Hh].
  pose proof (reorders_length _ _ _ _ Hr1). apply wp_bind. eapply wp_mono; [apply wp_select_loop; lia|].
  intros _ l2 [Hr2 Hs]. apply wp_ret. split_and!; [by eapply reorders_trans| |done]. intros _. split; [done|].
  intros Hcmp. apply Hs; [done|]. apply Hh; [done|]. intros c Hc Hs'.
  pose proof (proj1 (half_spec c _) eq_refl). pose proof (proj1 (half_spec n _) eq_refl). lia.
Qed.
End heap.
