(* ===== verification/LibcSortPart.v ===== *)
(** * Libc sorting: the parts of qsort

    Insertion sort, its variant that gives up, block exchanges, and the partition
    around a pivot: each returns with the range rearranged for every comparison
    function, and does its part of the sorting for a proper one. *)

From S2P Require Import Prelude LibcSort LibcSortHeap.
Import Sort.
Local Open Scope nat_scope.

Section part.
Context {A : Type} (compar : A → A → Z) (es : nat).
(** One element can be exchanged. *)
Hypothesis es_ok : (Z.of_nat es < 2 ^ 31)%Z.
Implicit Types (l : list A).
Local Abbreviation le_at := (le_at compar).
Local Abbreviation sorted_range := (sorted_range compar).
Local Abbreviation cut := (cut compar).

(** ** Insertion *)

(** In order from [a] to [top] but for what stands before [pl]. *)
Definition inserting l (a pl top : nat) : Prop := ∀ p q, a ≤ p < q → q ≤ top → q ≠ pl → le_at l p q.

(** [I] is kept by the exchange of neighbours that are out of order. *)
Definition keeps (a n : nat) (I : list A → Prop) : Prop :=
  ∀ l q x y, a ≤ q → S q < a + n → a + n ≤ length l → l !! q = Some x → l !! S q = Some y →
    (0 < compar x y)%Z → I l → I (exch (S q) q l).

Lemma inserting_step `{!Comparator compar} l a q top x y :
  a ≤ q → S q ≤ top → top < length l → l !! q = Some x → l !! S q = Some y → (0 < compar x y)%Z →
  inserting l a (S q) top → inserting (exch (S q) q l) a q top.
Proof.
  intros Hq Htop Hlen Hx Hy Hxy Hi p r Hp Hr Hne. apply le_at_exch; [lia..|].
  unfold tr. destruct (decide (r = S q)) as [->|Hr'].
  - rewrite (decide_False (P := S q = q)) by lia. destruct (decide (p = q)) as [->|].
    + intros u v Hu Hv. simplify_eq. pose proof (compar_flip y x). lia.
    + rewrite decide_False by lia. apply Hi; lia.
  - rewrite (decide_False (P := r = q)) by done. repeat case_decide; subst; apply Hi; lia.
Qed.

Lemma inserting_stop `{!Comparator compar} l a q top :
  q < length l → le_at l q (S q) → a ≤ q → inserting l a (S q) top → sorted_range l a (S top).
Proof.
  intros Hlen Hle Hq Hi p r Hp Hr. destruct (decide (r = S q)) as [->|Hne]; [|apply Hi; lia].
  destruct (decide (p = q)) as [->|]; [done|]. apply (le_at_trans _ l _ q); [done|apply Hi; lia|done].
Qed.

Lemma wp_insert a top pl l :
  a ≤ pl ≤ top → top < length l →
  wp (insert compar es a pl) l (λ _ l', reorders a (S top - a) l l' ∧
    (Comparator compar → inserting l a pl top → sorted_range l' a (S top))).
Proof.
  revert l. induction pl as [|q IH]; intros l Hpl Hlen; cbn [insert].
  { apply wp_ret. split; [apply reorders_refl|]. intros _ Hi p r Hp Hr. apply Hi; lia. }
  destruct (Nat.ltb_spec a (S q)) as [Hlt|Hge].
  2: { apply wp_ret. split; [apply reorders_refl|]. intros _ Hi p r Hp Hr. apply Hi; lia. }
  elem l q x Hx. elem l (S q) y Hy. apply wp_bind, (wp_CMP _ _ _ _ x y); [done..|].
  destruct (Z.gtb_spec (compar x y) 0) as [Hxy|Hxy].
  - apply wp_bind, wp_swap; [done|lia..|]. eapply wp_mono; [apply IH; rewrite ?exch_length; lia|].
    intros _ l' [Hr Hs]. split.
    + eapply reorders_trans; [|exact Hr]. apply reorders_exch; lia.
    + intros Hcmp Hi. apply Hs; [done|]. eapply inserting_step; try done; lia.
  - apply wp_ret. split; [apply reorders_refl|]. intros Hcmp Hi. apply (inserting_stop _ _ q); try done; [lia| |lia].
    intros u v Hu Hv. by simplify_eq.
Qed.

Lemma wp_insertion k a pm l :
  a ≤ pm → pm + k ≤ length l →
  wp (insertion compar es k a pm) l (λ _ l', reorders a (pm + k - a) l l' ∧
    (Comparator compar → sorted_range l a pm → sorted_range l' a (pm + k))).
Proof.
  revert pm l. induction k as [|k IH]; intros pm l Ha Hlen; cbn [insertion].
  { apply wp_ret. split; [apply reorders_refl|]. by replace (pm + 0) with pm by lia. }
  apply wp_bind. eapply wp_mono; [apply (wp_insert a pm); lia|]. intros _ l1 [Hr1 Hs1].
  pose proof (reorders_length _ _ _ _ Hr1). eapply wp_mono; [apply IH; lia|]. intros _ l2 [Hr2 Hs2].
  replace (S pm + k) with (pm + S k) in * by lia. split.
  - eapply reorders_trans; [|exact Hr2]. eapply (reorders_mono a (S pm - a)); [lia..|done].
  - intros Hcmp Hs. apply Hs2; [done|]. apply Hs1; [done|]. intros p q Hp Hq Hne. apply Hs; lia.
Qed.

(** ** Insertion that gives up *)

Lemma wp_try_insert (I : list A → Prop) r a n top pl cnt l :
  a ≤ pl ≤ top → top < a + n → a + n ≤ length l → keeps a n I → I l →
  wp (try_insert compar es r a pl cnt) l (λ o l', reorders a n l l' ∧ I l' ∧
    (o ≠ None → Comparator compar → inserting l a pl top → sorted_range l' a (S top))).
Proof.
  intros Hpl Htop Hlen HI. revert Hpl cnt l Hlen. induction pl as [|q IH]; intros Hpl cnt l Hlen HIl; cbn [try_insert].
  { apply wp_ret. split_and!; [apply reorders_refl|done|]. intros _ _ Hi p s Hp Hs. apply Hi; lia. }
  destruct (Nat.ltb_spec a (S q)) as [Hlt|Hge].
  2: { apply wp_ret. split_and!; [apply reorders_refl|done|]. intros _ _ Hi p s Hp Hs. apply Hi; lia. }
  elem l q x Hx. elem l (S q) y Hy. apply wp_bind, (wp_CMP _ _ _ _ x y); [done..|].
  destruct (Z.gtb_spec (compar x y) 0) as [Hxy|Hxy].
  - assert (I (exch (S q) q l)) as HI' by (eapply HI; try done; lia).
    assert (reorders a n l (exch (S q) q l)) as Hr by (apply reorders_exch; lia).
    apply wp_bind, wp_swap; [done|lia..|]. destruct (Nat.ltb_spec r (S cnt)); [by apply wp_ret|].
    eapply wp_mono; [apply IH; rewrite ?exch_length; done || lia|].
    intros o l' (Hr' & HIl' & Hs). split_and!; [by eapply reorders_trans|done|].
    intros Ho Hcmp Hi. apply Hs; [done..|]. eapply inserting_step; try done; lia.
  - apply wp_ret. split_and!; [apply reorders_refl|done|]. intros _ Hcmp Hi.
    apply (inserting_stop _ _ q); try done; [lia| |lia]. intros u v Hu Hv. by simplify_eq.
Qed.

Lemma wp_try_insertion (I : list A → Prop) k r a n pm cnt l :
  a ≤ pm → pm + k = a + n → a + n ≤ length l → keeps a n I → I l →
  wp (try_insertion compar es k r a pm cnt) l (λ b l', reorders a n l l' ∧ I l' ∧
    (b = true → Comparator compar → sorted_range l a pm → sorted_range l' a (a + n))).
Proof.
  revert pm cnt l. induction k as [|k IH]; intros pm cnt l Ha Hn Hlen HI HIl; cbn [try_insertion].
  { apply wp_ret. split_and!; [apply reorders_refl|done|]. by replace (a + n) with pm by lia. }
  apply wp_bind. eapply wp_mono; [apply (wp_try_insert I r a n pm); done || lia|].
  intros [cnt'|] l1 (Hr1 & HI1 & Hs1); [|by apply wp_ret].
  pose proof (reorders_length _ _ _ _ Hr1). eapply wp_mono; [apply IH; done || lia|].
  intros b l2 (Hr2 & HI2 & Hs2). split_and!; [by eapply reorders_trans|done|].
  intros Hb Hcmp Hs. apply Hs2; [done..|]. apply Hs1; [done..|]. intros p q Hp Hq Hne. apply Hs; lia.
Qed.

(** ** Block exchanges *)

Lemma wp_swap_elements i j r l :
  i + r ≤ j ∨ r = 0 → j + r ≤ length l ∨ r = 0 →
  wp (swap_elements i j r) l (λ _ l', l' ≡ₚ l ∧ ∀ k, l' !! k =
    if decide (i ≤ k < i + r) then l !! (k - i + j)
    else if decide (j ≤ k < j + r) then l !! (k - j + i) else l !! k).
Proof.
  revert i j l. induction r as [|r IH]; intros i j l Hd Hlen; cbn [swap_elements].
  { apply wp_ret. split; [done|]. intros k. rewrite !decide_False by lia. done. }
  apply wp_bind, wp_SWAP; [lia..|]. eapply wp_mono; [apply IH; rewrite ?exch_length; lia|].
  intros _ l' [HP Hl']. split; [by rewrite HP, exch_perm|]. intros k. rewrite Hl'.
  repeat case_decide; try lia; rewrite exch_tr by lia; unfold tr; repeat case_decide; try lia; f_equal; lia.
Qed.

Lemma wp_vecswap i j r l :
  (Z.of_nat (r * es) < 2 ^ 31)%Z → i + r ≤ j ∨ r = 0 → j + r ≤ length l ∨ r = 0 →
  wp (vecswap es i j r) l (λ _ l', l' ≡ₚ l ∧ ∀ k, l' !! k =
    if decide (i ≤ k < i + r) then l !! (k - i + j)
    else if decide (j ≤ k < j + r) then l !! (k - j + i) else l !! k).
Proof. intros Hr Hd Hlen. apply wp_bind, wp_as_int; [done|]. by apply wp_swap_elements. Qed.

(** ** The pivot *)

Lemma wp_med3 i j k l :
  i < length l → j < length l → k < length l →
  wp (med3 compar i j k) l (λ m l', l' = l ∧ (m = i ∨ m = j ∨ m = k)).
Proof.
  intros Hi Hj Hk. elem l i x Hx. elem l j y Hy. elem l k z Hz. unfold med3.
  apply wp_bind, (wp_CMP _ _ _ _ x y); [done..|].
  destruct (compar x y <? 0)%Z; apply wp_bind, (wp_CMP _ _ _ _ y z); try done.
  - destruct (compar y z <? 0)%Z; [apply wp_ret; auto|]. apply wp_bind, (wp_CMP _ _ _ _ x z); [done..|].
    apply wp_ret. destruct (compar x z <? 0)%Z; auto.
  - destruct (compar y z >? 0)%Z; [apply wp_ret; auto|]. apply wp_bind, (wp_CMP _ _ _ _ x z); [done..|].
    apply wp_ret. destruct (compar x z <? 0)%Z; auto.
Qed.

Lemma wp_pivot a n l :
  7 ≤ n → a + n ≤ length l → wp (pivot compar a n) l (λ pm l', l' = l ∧ a ≤ pm < a + n).
Proof.
  intros Hn Hlen. unfold pivot. pose proof (proj1 (half_spec n _) eq_refl).
  pose proof (Nat.div_mod_eq n 8). pose proof (Nat.mod_upper_bound n 8).
  destruct (7 <? n); [|apply wp_ret; split; [done|lia]].
  destruct (40 <? n).
  - apply wp_bind. eapply wp_mono; [apply wp_med3; lia|]. intros pl l1 [-> Hpl].
    apply wp_bind. eapply wp_mono; [apply wp_med3; lia|]. intros pm l1 [-> Hpm].
    apply wp_bind. eapply wp_mono; [apply wp_med3; lia|]. intros pn l1 [-> Hpn].
    eapply wp_mono; [apply wp_med3; lia|]. intros m l1 [-> Hm]. split; [done|lia].
  - eapply wp_mono; [apply wp_med3; lia|]. intros m l1 [-> Hm]. split; [done|lia].
Qed.

(** ** The partition *)

Section partition.
Context (a n : nat) (v : A).

(** From the left: the pivot, equal, less; from the right: equal, greater. *)
Record part_inv l (pa pb pc pd : nat) : Prop := {
  pi_order : a < pa ≤ pb ∧ pb ≤ S pc ∧ pc ≤ pd < a + n;
  pi_len : a + n ≤ length l;
  pi_pivot : l !! a = Some v;
  pi_eq1 : ∀ i x, a < i < pa → l !! i = Some x → compar x v = 0%Z;
  pi_lt : ∀ i x, pa ≤ i < pb → l !! i = Some x → (compar x v < 0)%Z;
  pi_gt : ∀ i x, pc < i ≤ pd → l !! i = Some x → (0 < compar x v)%Z;
  pi_eq2 : ∀ i x, pd < i < a + n → l !! i = Some x → compar x v = 0%Z;
}.

(** The element at [i] after an exchange, by cases. *)
Ltac exch_at i := intros y Hi; rewrite exch_tr by lia; unfold tr;
  destruct (decide (_ = _)) as [->|]; [|destruct (decide (_ = _)) as [->|]]; intros Hy.

Lemma part_eq1 l pa pb pc pd x :
  part_inv l pa pb pc pd → pb ≤ pc → l !! pb = Some x → compar x v = 0%Z →
  part_inv (exch pa pb l) (S pa) (S pb) pc pd.
Proof.
  intros [Ho Hlen Hpv H1 H2 H3 H4] Hle Hx E. split; rewrite ?exch_length; try lia.
  - rewrite exch_tr by lia. unfold tr. by rewrite !decide_False by lia.
  - intros i. exch_at i.
    + replace pa with pb in Hy by lia. congruence.
    + congruence.
    + apply (H1 i); [lia|done].
  - intros i. exch_at i.
    + apply (H2 pa); [lia|done].
    + lia.
    + apply (H2 i); [lia|done].
  - intros i. exch_at i; [lia|lia|]. by apply (H3 i).
  - intros i. exch_at i; [lia|lia|]. by apply (H4 i).
Qed.

Lemma part_eq2 l pa pb pc pd x :
  part_inv l pa pb pc pd → pb ≤ pc → l !! pc = Some x → compar x v = 0%Z →
  part_inv (exch pc pd l) pa pb (pc - 1) (pd - 1).
Proof.
  intros [Ho Hlen Hpv H1 H2 H3 H4] Hle Hx E. split; rewrite ?exch_length; try lia.
  - rewrite exch_tr by lia. unfold tr. by rewrite !decide_False by lia.
  - intros i. exch_at i; [lia|lia|]. by apply (H1 i).
  - intros i. exch_at i; [lia|lia|]. by apply (H2 i).
  - intros i. exch_at i.
    + lia.
    + apply (H3 pd); [lia|done].
    + apply (H3 i); [lia|done].
  - intros i. exch_at i.
    + congruence.
    + replace pd with pc in Hy by lia. congruence.
    + apply (H4 i); [lia|done].
Qed.

Lemma wp_scan_up fuel pa pb pc pd cnt l :
  part_inv l pa pb pc pd → S pc < fuel + pb →
  wp (scan_up compar es fuel a pa pb pc cnt) l (λ r l', let '(pa', pb', _) := r in
    reorders a n l l' ∧ part_inv l' pa' pb' pc pd ∧ pb ≤ pb' ∧
    (pb' ≤ pc → ∃ x, l' !! pb' = Some x ∧ (0 < compar x v)%Z)).
Proof.
  revert pa pb cnt l. induction fuel as [|fuel IH]; intros pa pb cnt l Hi Hf; [destruct Hi; lia|].
  cbn [scan_up]. pose proof Hi as [Ho Hlen Hpv H1 H2 H3 H4].
  destruct (Nat.leb_spec pb pc) as [Hle|Hgt].
  2: { apply wp_ret. split_and!; [apply reorders_refl|done|lia|lia]. }
  elem l pb x Hx. apply wp_bind, (wp_CMP _ _ _ _ x v); [done..|].
  destruct (Z.leb_spec (compar x v) 0) as [Hxv|Hxv].
  2: { apply wp_ret. split_and!; [apply reorders_refl|done|lia|eauto]. }
  destruct (Z.eqb_spec (compar x v) 0) as [E|E].
  - apply wp_bind, wp_swap; [done|lia..|]. eapply wp_mono; [apply IH; [|lia]|].
    + by eapply part_eq1.
    + intros [[pa' pb'] cnt'] l' (Hr & Hi' & Hpb & Hx'). split_and!; try done; [|lia].
      eapply reorders_trans; [|exact Hr]. apply reorders_exch; lia.
  - eapply wp_mono; [apply IH; [|lia]|].
    + split; try done; try lia. intros i y Hi' Hy. destruct (decide (i = pb)) as [->|]; [simplify_eq; lia|].
      apply (H2 i); [lia|done].
    + intros [[pa' pb'] cnt'] l' (Hr & Hi' & Hpb & Hx'). split_and!; try done. lia.
Qed.

Lemma wp_scan_down fuel pa pb pc pd cnt l :
  part_inv l pa pb pc pd → S pc < fuel + pb →
  (pb ≤ pc → ∃ x, l !! pb = Some x ∧ (0 < compar x v)%Z) →
  wp (scan_down compar es fuel a pb pc pd cnt) l (λ r l', let '(pc', pd', _) := r in
    reorders a n l l' ∧ part_inv l' pa pb pc' pd' ∧ pc' ≤ pc ∧
    (pb ≤ pc' → (∃ x, l' !! pb = Some x ∧ (0 < compar x v)%Z) ∧ ∃ x, l' !! pc' = Some x ∧ (compar x v < 0)%Z)).
Proof.
  revert pc pd cnt l. induction fuel as [|fuel IH]; intros pc pd cnt l Hi Hf Hpb; [destruct Hi; lia|].
  cbn [scan_down]. pose proof Hi as [Ho Hlen Hpv H1 H2 H3 H4].
  destruct (Nat.leb_spec pb pc) as [Hle|Hgt].
  2: { apply wp_ret. split_and!; [apply reorders_refl|done|lia|lia]. }
  elem l pc x Hx. apply wp_bind, (wp_CMP _ _ _ _ x v); [done..|].
  destruct (Z.leb_spec 0 (compar x v)) as [Hxv|Hxv].
  2: { apply wp_ret. split_and!; [apply reorders_refl|done|lia|eauto]. }
  destruct (Z.eqb_spec (compar x v) 0) as [E|E].
  - assert (pb ≠ pc) as Hne. { intros ->. destruct (Hpb Hle) as (y & Hy & ?). simplify_eq. lia. }
    apply wp_bind, wp_swap; [done|lia..|]. eapply wp_mono; [apply IH; [by eapply part_eq2|lia|]|].
    + intros _. rewrite exch_tr by lia. unfold tr. rewrite !decide_False by lia. auto.
    + intros [[pc' pd'] cnt'] l' (Hr & Hi' & Hpc & Hx'). split_and!; try done; [|lia].
      eapply reorders_trans; [|exact Hr]. apply reorders_exch; lia.
  - eapply wp_mono; [apply (IH (pc - 1)); [|lia|]|].
    + split; try done; try lia. intros i y Hi' Hy. destruct (decide (i = pc)) as [->|]; [simplify_eq; lia|].
      apply (H3 i); [lia|done].
    + intros _. auto.
    + intros [[pc' pd'] cnt'] l' (Hr & Hi' & Hpc & Hx'). split_and!; try done. lia.
Qed.

Lemma part_swap l pa pb pc pd x y :
  part_inv l pa pb pc pd → pb < pc → l !! pb = Some x → (0 < compar x v)%Z → l !! pc = Some y →
  (compar y v < 0)%Z → part_inv (exch pb pc l) pa (S pb) (pc - 1) pd.
Proof.
  intros [Ho Hlen Hpv H1 H2 H3 H4] Hlt Hx Hxv Hy Hyv. split; rewrite ?exch_length; try lia.
  - rewrite exch_tr by lia. unfold tr. by rewrite !decide_False by lia.
  - intros i z Hi. rewrite exch_tr by lia. unfold tr. rewrite !decide_False by lia. by apply H1.
  - intros i z Hi. rewrite exch_tr by lia. unfold tr. rewrite (decide_False (P := i = pc)) by lia.
    case_decide as Ei; intros Hz; [congruence|]. apply (H2 i); [lia|done].
  - intros i z Hi. rewrite exch_tr by lia. unfold tr. case_decide as Ei; [intros Hz; congruence|].
    rewrite decide_False by lia. apply H3. lia.
  - intros i z Hi. rewrite exch_tr by lia. unfold tr. rewrite !decide_False by lia. by apply H4.
Qed.

Lemma wp_partition fuel pa pb pc pd cnt l :
  part_inv l pa pb pc pd → S pc < fuel + pb →
  wp (partition compar es fuel a pa pb pc pd cnt) l (λ r l', let '(pa', pb', pc', pd', _) := r in
    reorders a n l l' ∧ part_inv l' pa' pb' pc' pd' ∧ pb' = S pc').
Proof.
  revert pa pb pc pd cnt l. induction fuel as [|fuel IH]; intros pa pb pc pd cnt l Hi Hf; [destruct Hi; lia|].
  cbn [partition]. apply wp_bind. eapply wp_mono; [by apply (wp_scan_up _ _ _ _ pd)|].
  intros [[pa1 pb1] cnt1] l1 (Hr1 & Hi1 & Hpb & Hx1). cbn beta iota. apply wp_bind.
  eapply wp_mono; [apply (wp_scan_down _ pa1); done || lia|].
  intros [[pc1 pd1] cnt2] l2 (Hr2 & Hi2 & Hpc & Hx2). cbn beta iota.
  pose proof (reorders_trans _ _ _ _ _ Hr1 Hr2) as Hr. pose proof (pi_order _ _ _ _ _ Hi2) as Ho.
  destruct (Nat.ltb_spec pc1 pb1) as [Hlt|Hge].
  { apply wp_ret. split_and!; [done|done|lia]. }
  destruct (Hx2 Hge) as [(x & Hx & Hxv) (y & Hy & Hyv)].
  assert (pb1 ≠ pc1) as Hne by (intros ->; simplify_eq; lia).
  pose proof (pi_len _ _ _ _ _ Hi2). apply wp_bind, wp_swap; [done|lia..|].
  eapply wp_mono; [apply IH; [eapply part_swap; try done; lia|lia]|].
  intros [[[[pa' pb'] pc'] pd'] cnt'] l' (Hr' & Hi' & E). split_and!; [|done|done].
  eapply reorders_trans; [exact Hr|]. eapply reorders_trans; [|exact Hr']. apply reorders_exch; lia.
Qed.
End partition.
End part.
