(* ===== verification/LibcSortCorrect.v ===== *)
(** * Libc sorting: qsort

    For ranges of less than 2^32 bytes, so that no block that is exchanged has 2^31
    bytes or more, [qsort] returns for every comparison function, without an access
    outside the range, with the elements rearranged; for a proper comparison
    function, and with memory for [heapsort], they are in order.  [bsearch] finds an
    element that compares equal when there is one. *)

From S2P Require Import Prelude LibcSort LibcSortHeap LibcSortPart.
Import Sort.
Local Open Scope nat_scope.

Section qsort.
Context {A : Type} (compar : A → A → Z) (es : nat).
Implicit Types (l : list A).
Local Abbreviation sorted_range := (sorted_range compar).
Local Abbreviation cut := (cut compar).

(** ** Three parts around the pivot *)

Definition three_parts l (a n k1 k3 : nat) (v : A) : Prop :=
  (∀ i x, a ≤ i < a + k1 → l !! i = Some x → (compar x v < 0)%Z) ∧
  (∀ i x, a + k1 ≤ i < a + n - k3 → l !! i = Some x → x = v ∨ compar x v = 0%Z) ∧
  (∀ i x, a + n - k3 ≤ i < a + n → l !! i = Some x → (0 < compar x v)%Z).

(** Block exchanges bring the elements equal to the pivot to the middle. *)
Lemma vecswap_parts a n v l l1 l2 pa pb pc pd :
  part_inv compar a n v l pa pb pc pd → pb = S pc →
  (∀ k, l1 !! k = let r := (pa - a) `min` (pb - pa) in
     if decide (a ≤ k < a + r) then l !! (k - a + (pb - r))
     else if decide (pb - r ≤ k < pb - r + r) then l !! (k - (pb - r) + a) else l !! k) →
  (∀ k, l2 !! k = let r := (pd - pc) `min` (a + n - pd - 1) in
     if decide (pb ≤ k < pb + r) then l1 !! (k - pb + (a + n - r))
     else if decide (a + n - r ≤ k < a + n - r + r) then l1 !! (k - (a + n - r) + pb) else l1 !! k) →
  three_parts l2 a n (pb - pa) (pd - pc) v.
Proof.
  intros [Ho Hlen Hpv H1 H2 H3 H4] Epb E1 E2. cbv zeta in E1, E2.
  assert (∀ i x, a ≤ i < pa → l !! i = Some x → x = v ∨ compar x v = 0%Z) as H1'.
  { intros i x Hi Hx. destruct (decide (i = a)) as [->|]; [left; congruence|right; apply (H1 i); [lia|done]]. }
  assert (∀ i x, a ≤ i < a + (pb - pa) → l1 !! i = Some x → (compar x v < 0)%Z) as L1.
  { intros i x Hi. rewrite E1. repeat case_decide; try lia; intros Hx; (eapply H2; [|exact Hx]); lia. }
  assert (∀ i x, a + (pb - pa) ≤ i < pb → l1 !! i = Some x → x = v ∨ compar x v = 0%Z) as L2.
  { intros i x Hi. rewrite E1. repeat case_decide; try lia; intros Hx; (eapply H1'; [|exact Hx]); lia. }
  assert (∀ i, pb ≤ i → l1 !! i = l !! i) as L3.
  { intros i Hi. rewrite E1. by rewrite !decide_False by lia. }
  split_and!.
  - intros i x Hi. rewrite E2, !decide_False by lia. by apply L1.
  - intros i x Hi. rewrite E2. repeat case_decide; try lia; intros Hx.
    + right. rewrite L3 in Hx by lia. eapply H4; [|exact Hx]. lia.
    + destruct (decide (i < pb)); [apply (L2 i); [lia|done]|]. right. rewrite L3 in Hx by lia.
      eapply H4; [|exact Hx]. lia.
  - intros i x Hi. rewrite E2. repeat case_decide; try lia; intros Hx; rewrite L3 in Hx by lia;
      (eapply H3; [|exact Hx]); lia.
Qed.

Definition parts_sorted l (a n k1 k3 : nat) : Prop :=
  cut l a (a + k1) (a + n) ∧ cut l a (a + n - k3) (a + n) ∧ sorted_range l (a + k1) (a + n - k3).

Lemma three_parts_sorted `{!Comparator compar} l a n k1 k3 v :
  k1 + k3 ≤ n → three_parts l a n k1 k3 v → parts_sorted l a n k1 k3.
Proof.
  intros Hk (H1 & H2 & H3).
  assert (∀ x, x = v ∨ compar x v = 0%Z → (compar x v ≤ 0 ∧ compar v x ≤ 0)%Z) as Heq.
  { intros x [->|E]; [rewrite compar_refl; [done|done]|]. pose proof (compar_zero compar x v E). lia. }
  assert (∀ i x, a ≤ i < a + n - k3 → l !! i = Some x → (compar x v ≤ 0)%Z) as Hlow.
  { intros i x Hi Hx. destruct (decide (i < a + k1)); [specialize (H1 i x ltac:(lia) Hx); lia|]. apply Heq, (H2 i); [lia|done]. }
  assert (∀ i x, a + k1 ≤ i < a + n → l !! i = Some x → (compar v x ≤ 0)%Z) as Hhigh.
  { intros i x Hi Hx. destruct (decide (i < a + n - k3)); [apply Heq, (H2 i); [lia|done]|].
    apply (compar_ge compar). specialize (H3 i x ltac:(lia) Hx). lia. }
  split_and!; intros p q Hp Hq x y Hx Hy; (eapply compar_trans; [eapply (Hlow p)|eapply (Hhigh q)]; try done; lia).
Qed.

Lemma wp_partitioned a n l :
  7 ≤ n → a + n ≤ length l → (Z.of_nat (n * es) < 2 ^ 32)%Z →
  wp (partitioned compar es a n) l (λ r l', let '(pa, pb, pc, pd, _) := r in
    reorders a n l l' ∧ pb - pa + (pd - pc) ≤ n ∧
    (Comparator compar → parts_sorted l' a n (pb - pa) (pd - pc))).
Proof.
  intros Hn Hlen Hes. assert (Z.of_nat es < 2 ^ 31)%Z as Hes1 by lia.
  assert (∀ r, 2 * r ≤ n → (Z.of_nat (r * es) < 2 ^ 31)%Z) as Hblk by (intros; nia).
  unfold partitioned. apply wp_bind. eapply wp_mono; [by apply wp_pivot|]. intros pm l0 [-> Hpm].
  apply wp_bind, wp_swap; [done|lia..|]. pose proof (reorders_exch a n a pm l ltac:(lia) ltac:(lia)) as Hr0.
  set (l0 := exch a pm l) in *. assert (length l0 = length l) as Hl0 by apply exch_length.
  elem l0 a v Hv. apply wp_bind. eapply wp_mono; [apply (wp_partition compar es Hes1 a n v); [|lia]|].
  { split; try lia; done || (intros; lia). }
  intros [[[[pa pb] pc] pd] cnt] l1 (Hr1 & Hi & Epb). cbn beta iota zeta. pose proof Hi as [Ho Hl1 _ _ _ _ _].
  apply wp_bind. eapply wp_mono; [apply wp_vecswap; [apply Hblk; lia|lia..]|]. intros _ l2 [P2 E2].
  pose proof (Permutation_length P2). apply wp_bind. eapply wp_mono; [apply wp_vecswap; [apply Hblk; lia|lia..]|]. intros _ l3 [P3 E3].
  apply wp_ret. split_and!; [|lia|].
  - eapply reorders_trans; [exact Hr0|]. eapply reorders_trans; [exact Hr1|]. split; [by rewrite P3|].
    intros i Hi'. rewrite E3, !decide_False, E2, !decide_False by lia. done.
  - intros Hcmp. eapply three_parts_sorted; [lia|]. by eapply vecswap_parts.
Qed.

(** Exchanging neighbours that are out of order keeps the parts. *)
Lemma parts_kept a n k1 k3 : k1 + k3 ≤ n → Comparator compar → keeps compar a n (λ l, parts_sorted l a n k1 k3).
Proof.
  intros Hk Hcmp l q x y Hq Hq' Hlen Hx Hy Hxy (H1 & H2 & H3).
  assert (∀ p r, le_at compar l p r → p = q → r = S q → False) as Habs.
  { intros p r Hle -> ->. specialize (Hle x y Hx Hy). lia. }
  assert (S q < a + k1 ∨ a + n - k3 ≤ q) as Hside.
  { destruct (decide (S q < a + k1)); [by left|right]. destruct (decide (a + n - k3 ≤ q)); [done|]. exfalso.
    destruct (decide (q < a + k1)); [by apply (Habs q (S q)); [apply H1; lia|..]|].
    destruct (decide (a + n - k3 ≤ S q)); [by apply (Habs q (S q)); [apply H2; lia|..]|].
    by apply (Habs q (S q)); [apply H3; lia|..]. }
  assert (reorders q 2 l (exch (S q) q l)) as Hr by (apply reorders_exch; lia).
  split_and!.
  - eapply (cut_reorders _ _ _ q 2); [done..|lia].
  - eapply (cut_reorders _ _ _ q 2); [done..|lia].
  - eapply (sorted_range_other _ _ _ q 2); [done|lia|done].
Qed.

(** ** The recursion *)

Lemma parts_done l l1 l2 a n k1 k3 :
  k1 + k3 ≤ n → parts_sorted l a n k1 k3 →
  reorders a k1 l l1 → sorted_range l1 a (a + k1) →
  reorders (a + n - k3) k3 l1 l2 → sorted_range l2 (a + n - k3) (a + n) →
  sorted_range l2 a (a + n).
Proof.
  intros Hk (H1 & H2 & H3) Hr1 Hs1 Hr2 Hs2.
  apply (sorted_range_glue _ _ _ (a + k1)); [|apply (sorted_range_glue _ _ _ (a + n - k3))|].
  - eapply (sorted_range_other _ _ _ (a + n - k3) k3); [done|lia|done].
  - eapply (sorted_range_other _ _ _ (a + n - k3) k3); [done|lia|].
    eapply (sorted_range_other _ _ _ a k1); [done|lia|done].
  - done.
  - intros p q Hp Hq. assert (cut l2 a (a + n - k3) (a + n)) as Hc; [|apply Hc; lia].
    eapply (cut_reorders _ _ _ (a + n - k3) k3); [done| |lia]. eapply (cut_reorders _ _ _ a k1); [done| |lia]. done.
  - eapply (cut_reorders _ _ _ (a + n - k3) k3); [done| |lia]. eapply (cut_reorders _ _ _ a k1); [done| |lia]. done.
Qed.

Lemma sorted_small l i j : j ≤ S i → sorted_range l i j.
Proof. intros Hj p q. lia. Qed.

(** The insertion sort after a partition that moved nothing. *)
Lemma wp_finish a n k1 k3 cnt l :
  7 ≤ n → a + n ≤ length l → (Z.of_nat es < 2 ^ 31)%Z → k1 + k3 ≤ n → (Comparator compar → parts_sorted l a n k1 k3) →
  wp (if cnt =? 0 then try_insertion compar es (n - 1) (1 + n / 4) a (a + 1) 0 else mret false) l
    (λ b l', reorders a n l l' ∧ (Comparator compar → parts_sorted l' a n k1 k3) ∧
       (b = true → Comparator compar → sorted_range l' a (a + n))).
Proof.
  intros Hn Hlen Hes Hk Hp. destruct (cnt =? 0); [|apply wp_ret; split; [apply reorders_refl|done]].
  eapply wp_mono; [apply (wp_try_insertion compar es Hes (λ l, Comparator compar → parts_sorted l a n k1 k3) _ _ a n); try lia|].
  - intros l' q x y Hq Hq' Hlen' Hx Hy Hxy HI Hcmp. by eapply (parts_kept a n k1 k3); [..|apply HI].
  - done.
  - intros b l' (Hr & HI & Hs). split_and!; [done..|]. intros Hb Hcmp. apply Hs; [done..|]. apply sorted_small. lia.
Qed.

Lemma wp_qsort_rec malloc_ok depth a n l :
  a + n ≤ length l → (Z.of_nat (n * es) < 2 ^ 32)%Z →
  wp (_qsort compar malloc_ok es depth a n) l (λ _ l', reorders a n l l' ∧
    (Comparator compar → malloc_ok = true → sorted_range l' a (a + n))).
Proof.
  revert a n l. induction depth as [|depth IH]; intros a n l Hn Hes; cbn [_qsort].
  { apply wp_bind. eapply wp_mono; [by apply wp_heapsort|]. intros r l' (Hr & Hs & _). apply wp_ret.
    split; [done|]. intros Hcmp Hm. by apply Hs. }
  destruct (Nat.ltb_spec n 7) as [Hlt|Hge].
  { destruct n as [|[|n']]; [apply wp_ret; split; [apply reorders_refl|]; intros; apply sorted_small; lia..|].
    set (n := S n') in *. eapply wp_mono; [apply wp_insertion; lia|]. intros _ l' [Hr Hs].
    replace (a + 1 + (S n - 1)) with (a + S n) in * by lia. replace (a + S n - a) with (S n) in * by lia.
    split; [done|]. intros Hcmp _. apply Hs; [done|]. apply sorted_small. lia. }
  apply wp_bind. eapply wp_mono; [by apply wp_partitioned|].
  intros [[[[pa pb] pc] pd] cnt] l1 (Hr1 & Hk & Hp1). cbn beta iota. pose proof (reorders_length _ _ _ _ Hr1) as Hl1.
  set (k1 := pb - pa) in *. set (k3 := pd - pc) in *.
  apply wp_bind. eapply wp_mono; [apply (wp_finish a n k1 k3); done || lia|].
  intros b l2 (Hr2 & Hp2 & Hs2). pose proof (reorders_length _ _ _ _ Hr2) as Hl2.
  pose proof (reorders_trans _ _ _ _ _ Hr1 Hr2) as Hr12.
  destruct b; [apply wp_ret; split; [done|]; intros Hcmp _; by apply Hs2|].
  assert (∀ a' k l', a' + k ≤ length l' → k ≤ n →
    wp (if 1 <? k then _qsort compar malloc_ok es depth a' k else mret tt) l' (λ _ l'', reorders a' k l' l'' ∧
      (Comparator compar → malloc_ok = true → sorted_range l'' a' (a' + k)))) as Hsub.
  { intros a' k l' Hl' Hkn. destruct (Nat.ltb_spec 1 k); [apply IH; [done|nia]|]. apply wp_ret. split; [apply reorders_refl|].
    intros _ _. apply sorted_small. lia. }
  apply wp_bind. eapply wp_mono; [apply Hsub; lia|]. intros _ l3 [Hr3 Hs3]. pose proof (reorders_length _ _ _ _ Hr3).
  eapply wp_mono; [apply Hsub; lia|]. intros _ l4 [Hr4 Hs4]. split.
  - eapply reorders_trans; [exact Hr12|]. eapply reorders_trans; [apply (reorders_mono a k1); [lia..|exact Hr3]|].
    apply (reorders_mono (a + n - k3) k3); [lia..|exact Hr4].
  - intros Hcmp Hm. eapply (parts_done l2 l3); try done; [by apply Hp2|by apply Hs3|].
    replace (a + n) with (a + n - k3 + k3) at 2 by lia. by apply Hs4.
Qed.

(** ** Binary search *)

(** The outcome of the comparison with the key only falls along the range. *)
Definition key_sorted {K} (compar_key : K → A → Z) (key : K) l (base n : nat) : Prop :=
  ∀ i j x y, base ≤ i < j → j < base + n → l !! i = Some x → l !! j = Some y →
    ((compar_key key x ≤ 0 → compar_key key y ≤ 0) ∧ (compar_key key x < 0 → compar_key key y < 0))%Z.

Definition found {K} (compar_key : K → A → Z) (key : K) l (base n : nat) (r : option nat) : Prop :=
  match r with
  | Some p => base ≤ p < base + n ∧ ∃ x, l !! p = Some x ∧ compar_key key x = 0%Z
  | None => ∀ p x, base ≤ p < base + n → l !! p = Some x → compar_key key x ≠ 0%Z
  end.

Lemma wp_bsearch_loop {K} (compar_key : K → A → Z) key fuel base lim l :
  lim < fuel → base + lim ≤ length l → key_sorted compar_key key l base lim →
  wp (bsearch_loop compar_key key fuel base lim) l (λ r l', l' = l ∧ found compar_key key l base lim r).
Proof.
  revert base lim. induction fuel as [|fuel IH]; intros base lim Hf Hlen Hs; [lia|]. cbn [bsearch_loop].
  destruct (Nat.eqb_spec lim 0) as [->|Hne]; [apply wp_ret; split; [done|]; intros p x Hp; lia|].
  pose proof (proj1 (half_spec lim _) eq_refl) as Hh. pose proof (proj1 (half_spec (lim - 1) _) eq_refl) as Hh'.
  elem l (base + lim / 2) x Hx. apply wp_bind, (wp_get _ _ x); [done|]. cbv zeta.
  destruct (Z.eqb_spec (compar_key key x) 0) as [E|E]; [apply wp_ret; split; [done|]; split; [lia|by exists x]|].
  destruct (Z.gtb_spec (compar_key key x) 0) as [Hgt|Hle].
  - eapply wp_mono; [apply IH; [lia..|intros i j u v Hi Hj; apply Hs; lia]|]. intros [p|] l' [-> Hr]; (split; [done|]).
    + destruct Hr as [Hp Hr]. split; [lia|done].
    + intros p u Hp Hu. destruct (decide (base + lim / 2 + 1 ≤ p)); [apply (Hr p); [lia|done]|].
      destruct (decide (p = base + lim / 2)) as [->|]; [simplify_eq; lia|].
      destruct (Hs p (base + lim / 2) u x) as [Hle _]; [lia..|done|done|]. lia.
  - eapply wp_mono; [apply IH; [lia..|intros i j u v Hi Hj; apply Hs; lia]|]. intros [p|] l' [-> Hr]; (split; [done|]).
    + destruct Hr as [Hp Hr]. split; [lia|done].
    + intros p u Hp Hu. destruct (decide (p < base + lim / 2)); [apply (Hr p); [lia|done]|].
      destruct (decide (p = base + lim / 2)) as [->|]; [simplify_eq; lia|].
      destruct (Hs (base + lim / 2) p x u) as [_ Hlt]; [lia..|done|done|]. lia.
Qed.

Lemma sorted_key_sorted `{!Comparator compar} key l a n :
  sorted_range l a (a + n) → key_sorted compar key l a n.
Proof.
  intros Hs i j x y Hi Hj Hx Hy. pose proof (Hs i j Hi Hj x y Hx Hy) as Hxy. split; intros H.
  - by eapply compar_trans.
  - destruct (decide (compar key y < 0)%Z); [done|]. exfalso.
    assert (compar y key ≤ 0)%Z by (apply (compar_ge compar); lia).
    assert (compar x key ≤ 0)%Z as Hc by by eapply compar_trans. apply (compar_ge compar) in Hc. lia.
Qed.

(** ** Theorems *)

(** C6. [qsort] terminates for every comparison function, even one that is not an
    order and with or without memory for [heapsort]: it reads and writes nothing
    outside the range, and the range is left a permutation of what it was.  The
    range has less than 2^32 bytes: the blocks that are exchanged, at most half of
    it, then pass the parameter [int n] of [swapfunc]. *)
Theorem qsort_terminates malloc_ok a n l :
  0 < es → (Z.of_nat (n * es) < 2 ^ 32)%Z → a + n ≤ length l →
  ∃ l', qsort compar malloc_ok es a n l = Ok (tt, l') ∧ reorders a n l l'.
Proof.
  intros _ Hes Hn. destruct (wp_inv _ _ _ (wp_qsort_rec malloc_ok (DEPTH n) a n l Hn Hes)) as ([] & l' & E & Hr & _). eauto.
Qed.

(** C7. With a comparison function that is an order, and memory for [heapsort],
    [qsort] leaves a range of less than 2^32 bytes in order and a permutation of what
    it was. *)
Theorem qsort_sorts `{!Comparator compar} a n l :
  0 < es → (Z.of_nat (n * es) < 2 ^ 32)%Z → a + n ≤ length l →
  ∃ l', qsort compar true es a n l = Ok (tt, l') ∧ reorders a n l l' ∧ sorted_range l' a (a + n).
Proof.
  intros _ Hes Hn. destruct (wp_inv _ _ _ (wp_qsort_rec true (DEPTH n) a n l Hn Hes)) as ([] & l' & E & Hr & Hs). eauto.
Qed.

(** [heapsort] returns 0 with the range in order and a permutation of what it
    was, or -1 with the array unchanged when there is no memory for one element. *)
Theorem heapsort_correct `{!Comparator compar} malloc_ok a n l :
  a + n ≤ length l →
  ∃ r l', heapsort compar malloc_ok a n l = Ok (r, l') ∧ reorders a n l l' ∧
    ((r = 0%Z ∧ sorted_range l' a (a + n)) ∨ (r = (-1)%Z ∧ l' = l ∧ malloc_ok = false ∧ 1 < n)).
Proof.
  intros Hn. destruct (wp_inv _ _ _ (wp_heapsort compar a malloc_ok n l Hn)) as (r & l' & E & Hr & Hok & Hbad).
  exists r, l'. split_and!; [done..|]. destruct malloc_ok; [left; destruct Hok; auto|].
  destruct Hbad as [-> ->]; [done|]. destruct (Nat.leb_spec n 1); [left|right; auto].
  split; [done|]. apply sorted_small. lia.
Qed.

(** C35. Searching the range [qsort] has sorted, with a comparison function that is an
    order, memory for [heapsort] and less than 2^32 bytes: [bsearch] returns the index
    of an element that compares equal to the key, and NULL only if the range had none. *)
Theorem qsort_bsearch `{!Comparator compar} key a n l :
  0 < es → (Z.of_nat (n * es) < 2 ^ 32)%Z → a + n ≤ length l →
  ∃ r l', (_ ← qsort compar true es a n; bsearch compar key a n) l = Ok (r, l') ∧ reorders a n l l' ∧
    match r with
    | Some p => a ≤ p < a + n ∧ ∃ x, l' !! p = Some x ∧ compar key x = 0%Z
    | None => ∀ p x, a ≤ p < a + n → l !! p = Some x → compar key x ≠ 0%Z
    end.
Proof.
  intros _ Hes Hn. apply (wp_inv (_ ← qsort compar true es a n; bsearch compar key a n)). apply wp_bind.
  eapply wp_mono; [by apply wp_qsort_rec|]. intros _ l1 [Hr Hs]. pose proof (reorders_length _ _ _ _ Hr).
  eapply wp_mono; [apply wp_bsearch_loop; [lia..|by apply sorted_key_sorted, Hs]|].
  intros r l' [-> Hf]. split; [done|]. destruct r as [p|]; [done|]. intros p x Hp Hx Hk.
  assert (x ∈ take n (drop a l1)) as (q & Hq & Hx')%seg_elem.
  { rewrite (reorders_seg _ _ _ _ Hr). apply seg_elem. eauto. }
  by apply (Hf q x).
Qed.
End qsort.

(** ** Without memory *)

(** An input on which every partition takes off two elements. *)
Definition killer : list Z :=
  [0; 16; 2; 12; 4; 17; 6; 14; 8; 18; 10; 1; 3; 5; 7; 9; 11; 13; 15; 19; 21; 20]%Z.

(** [qsort] ignores that [heapsort] failed: it returns with elements out of order. *)
Theorem qsort_without_memory :
  ∃ l', qsort Z.sub false 4 0 22 killer = Ok (tt, l') ∧ ¬ sorted_range Z.sub l' 0 22.
Proof.
  eexists. split; [vm_compute; reflexivity|]. intros Hs.
  specialize (Hs 20 21 ltac:(lia) ltac:(lia) 21%Z 20%Z eq_refl eq_refl). lia.
Qed.
