(* ===== verification/LibcSortBytes.v ===== *)
(** * Libc sorting: the exchanges on bytes

    [swapcode], [SWAPINIT], [swapfunc], [swap] and [vecswap] of qsort.c on a memory
    of bytes, where an address is an index.  They exchange the elements the way the
    element model does as long as the block is shorter than 2^31 bytes, the range
    of the parameter [int n] of [swapfunc]. *)

From S2P Require Import Prelude LibcSort LibcSortHeap LibcSortPart LibcSortCorrect.
Local Open Scope nat_scope.

Module SwapBytes.

Local Abbreviation MB := (M (list Z)).

(** A load and a store of [w] bytes. *)
Definition load (w p : nat) : MB (list Z) :=
  λ mem, if p + w <=? length mem then Ok (take w (drop p mem), mem) else Crash BAD_ACCESS.
Definition store (p : nat) (bs : list Z) : MB unit :=
  λ mem, if p + length bs <=? length mem then Ok (tt, list_inserts p bs mem) else Crash BAD_ACCESS.

(** The body of [swapcode] for a type of [w] bytes, [i] times. *)
Fixpoint swap_units (i w pi pj : nat) : MB unit :=
  match i with
  | O => mret tt
  | S i =>
      t ← load w pi;
      u ← load w pj;
      _ ← store pi u;
      _ ← store pj t;
      swap_units i w (pi + w) (pj + w)
  end.

(** [long i = (n) / sizeof (TYPE)]: the division is unsigned; [do ... while (--i > 0)]
    runs at least once. *)
Definition swapcode (w pi pj : nat) (n : Z) : MB unit :=
  let i := i64 (u64 n / Z.of_nat w)%Z in swap_units (Z.to_nat (Z.max 1 i)) w pi pj.

Definition sizeof_long : nat := 8.

Definition SWAPINIT (a es : nat) : nat :=
  if negb (a mod sizeof_long =? 0) || negb (es mod sizeof_long =? 0) then 2
  else if es =? sizeof_long then 0 else 1.

(** The [size_t] passed for [n] is converted to [int]. *)
Definition swapfunc (a b n swaptype : nat) : MB unit :=
  let n := i32 (Z.of_nat n) in
  if swaptype <=? 1 then swapcode sizeof_long a b n else swapcode 1 a b n.

Definition swap (a b es swaptype : nat) : MB unit :=
  if swaptype =? 0 then swap_units 1 sizeof_long a b else swapfunc a b es swaptype.

Definition vecswap (a b n swaptype : nat) : MB unit :=
  if 0 <? n then swapfunc a b n swaptype else mret tt.

End SwapBytes.

Import SwapBytes.

(** ** Exchanging blocks *)

(** [l'] is [l] with the blocks of [r] places from [i] and from [j] exchanged. *)
Definition block_exchange {A} (i j r : nat) (l l' : list A) : Prop :=
  ∀ k, l' !! k = if decide (i ≤ k < i + r) then l !! (k - i + j)
                 else if decide (j ≤ k < j + r) then l !! (k - j + i) else l !! k.

Definition apart (i j r : nat) : Prop := i + r ≤ j ∨ j + r ≤ i ∨ i = j.

Lemma block_exchange_trans {A} i j r s (l1 l2 l3 : list A) :
  apart i j (r + s) → block_exchange i j r l1 l2 → block_exchange (i + r) (j + r) s l2 l3 →
  block_exchange i j (r + s) l1 l3.
Proof.
  unfold apart. intros Hd H1 H2 k. rewrite H2. repeat case_decide; try lia; rewrite H1; repeat case_decide; try lia;
    f_equal; lia.
Qed.

Lemma wp_swap_unit w pi pj mem :
  apart pi pj w → pi + w ≤ length mem → pj + w ≤ length mem →
  ∃ mem', swap_units 1 w pi pj mem = Ok (tt, mem') ∧ length mem' = length mem ∧ block_exchange pi pj w mem mem'.
Proof.
  intros Hd Hi Hj. set (t := take w (drop pi mem)). set (u := take w (drop pj mem)).
  assert (length t = w ∧ length u = w) as [Ht Hu] by (unfold t, u; rewrite !length_take, !length_drop; lia).
  exists (list_inserts pj t (list_inserts pi u mem)). split_and!.
  - unfold swap_units, mbind, M_bind, load, store. rewrite !(proj2 (Nat.leb_le _ _)); try done;
      fold t u; rewrite ?length_inserts; lia.
  - by rewrite !length_inserts.
  - assert (∀ p q k, p ≤ k < p + w → take w (drop q mem) !! (k - p) = mem !! (k - p + q)) as Hl.
    { intros p q k Hk. rewrite lookup_take_lt, lookup_drop by lia. f_equal. lia. }
    intros k. destruct (decide (pj ≤ k < pj + w)).
    + rewrite list_lookup_inserts by (rewrite ?length_inserts; lia). unfold t. rewrite Hl by lia.
      unfold apart in Hd. case_decide; [|done]. f_equal. lia.
    + transitivity (list_inserts pi u mem !! k).
      { destruct (decide (k < pj)); [apply list_lookup_inserts_lt; lia|apply list_lookup_inserts_ge; lia]. }
      case_decide; [rewrite list_lookup_inserts by lia; unfold u; by apply Hl|].
      destruct (decide (k < pi)); [apply list_lookup_inserts_lt; lia|apply list_lookup_inserts_ge; lia].
Qed.

Lemma swap_units_S i w pi pj mem mem' :
  swap_units 1 w pi pj mem = Ok (tt, mem') → swap_units (S i) w pi pj mem = swap_units i w (pi + w) (pj + w) mem'.
Proof.
  cbn [swap_units]. unfold mbind, M_bind. repeat case_match; try done. intros [= <-]. done.
Qed.

Lemma swap_units_exchange i w pi pj mem :
  apart pi pj (i * w) → pi + i * w ≤ length mem → pj + i * w ≤ length mem →
  ∃ mem', swap_units i w pi pj mem = Ok (tt, mem') ∧ length mem' = length mem ∧
    block_exchange pi pj (i * w) mem mem'.
Proof.
  revert pi pj mem. induction i as [|i IH]; intros pi pj mem Hd Hi Hj.
  { exists mem. split_and!; [done..|]. intros k. rewrite !decide_False by lia. done. }
  cbn [Nat.mul] in *. destruct (wp_swap_unit w pi pj mem) as (mem1 & E1 & L1 & B1); [unfold apart in *; lia..|].
  destruct (IH (pi + w) (pj + w) mem1) as (mem2 & E2 & L2 & B2); [unfold apart in *; lia..|].
  exists mem2. rewrite (swap_units_S _ _ _ _ _ _ E1). split_and!; [done|lia|]. by eapply block_exchange_trans.
Qed.

(** ** swapfunc *)

Definition valid_swaptype (es swaptype : nat) : Prop := swaptype = 0 ∧ es = 8 ∨ swaptype = 1 ∧ es mod 8 = 0 ∨ 2 ≤ swaptype.

Lemma SWAPINIT_valid a es : valid_swaptype es (SWAPINIT a es).
Proof.
  unfold valid_swaptype, SWAPINIT, sizeof_long. destruct (Nat.eqb_spec (a mod 8) 0), (Nat.eqb_spec (es mod 8) 0);
    cbn -[Nat.modulo]; try lia. destruct (Nat.eqb_spec es 8); lia.
Qed.

(** The number of rounds, for blocks that are not too long. *)
Lemma swapcode_units w pi pj n :
  0 < w → 0 < n → (Z.of_nat n < 2 ^ 31)%Z → n mod w = 0 →
  swapcode w pi pj (i32 (Z.of_nat n)) = swap_units (n / w) w pi pj ∧ n / w * w = n.
Proof.
  intros Hw Hn Hlt Hm. pose proof (Nat.div_mod_eq n w) as E. rewrite Hm in E.
  assert (0 < n / w ≤ n) as Hq by (revert E; generalize (n / w); intros q ->; nia). split; [|lia].
  unfold swapcode. f_equal. rewrite (wraps_small 32) by lia. rewrite (wrapu_small 64) by lia. rewrite <- Nat2Z.inj_div.
  rewrite wraps_small by lia. lia.
Qed.

Lemma swapfunc_exchange a b n es swaptype mem :
  0 < n → (Z.of_nat n < 2 ^ 31)%Z → n mod es = 0 → valid_swaptype es swaptype →
  apart a b n → a + n ≤ length mem → b + n ≤ length mem →
  ∃ mem', swapfunc a b n swaptype mem = Ok (tt, mem') ∧ length mem' = length mem ∧ block_exchange a b n mem mem'.
Proof.
  intros Hn Hlt Hes Hty Hd Ha Hb.
  assert (∀ w, 0 < w → n mod w = 0 →
    ∃ mem', swapcode w a b (i32 (Z.of_nat n)) mem = Ok (tt, mem') ∧ length mem' = length mem ∧
      block_exchange a b n mem mem') as Hw.
  { intros w Hw Hm. destruct (swapcode_units w a b n) as [-> E]; [done..|].
    destruct (swap_units_exchange (n / w) w a b mem) as (mem' & ? & ? & ?); rewrite ?E in *; eauto. }
  unfold swapfunc. destruct (Nat.leb_spec swaptype 1); apply Hw; unfold sizeof_long; try lia; [|apply Nat.mod_1_r].
  assert (es mod 8 = 0) as H8 by (destruct Hty as [[_ ->]|[[_ ?]|?]]; [done|done|lia]).
  assert (es ≠ 0) by (intros ->; cbn in Hes; lia).
  apply Nat.Lcm0.mod_divide in H8, Hes. apply Nat.Lcm0.mod_divide. by etransitivity.
Qed.

(** ** Elements *)

(** The elements [l] of [es] bytes each lie at [base]. *)
Definition elements_at (base es : nat) (mem : list Z) (l : list (list Z)) : Prop :=
  Forall (λ x, length x = es) l ∧ ∃ pre post, mem = pre ++ concat l ++ post ∧ length pre = base.

Lemma length_concat_es es (l : list (list Z)) :
  Forall (λ x, length x = es) l → length (concat l) = length l * es.
Proof. induction 1 as [|x l Hx _ IH]; cbn; [done|]. rewrite length_app, Hx, IH. lia. Qed.

Lemma concat_lookup es (l : list (list Z)) k o :
  Forall (λ x, length x = es) l → o < es → concat l !! (k * es + o) = l !! k ≫= (.!! o).
Proof.
  intros Hl Ho. revert k. induction Hl as [|x l Hx _ IH]; intros k; [done|]. cbn [concat].
  destruct k as [|k]; [cbn; by rewrite lookup_app_l by lia|]. rewrite lookup_app_r by lia.
  replace (S k * es + o - length x) with (k * es + o) by lia. by rewrite IH.
Qed.

Lemma shift_index b es i j k o :
  i ≤ k → b + (k * es + o) - (b + i * es) + (b + j * es) = b + ((k - i + j) * es + o).
Proof.
  intros [d ->]%Nat.le_sum. replace (i + d - i) with d by lia. rewrite !Nat.mul_add_distr_r. lia.
Qed.

Lemma elements_exchange base es i j r l l' mem mem' :
  elements_at base es mem l → Forall (λ x, length x = es) l' → length l' = length l → length mem' = length mem →
  i + r ≤ length l → j + r ≤ length l → apart i j r → block_exchange i j r l l' →
  block_exchange (base + i * es) (base + j * es) (r * es) mem mem' → elements_at base es mem' l'.
Proof.
  intros (Hl & pre & post & -> & <-) Hl' Hlen Hlm Hi Hj Hd Hex Hmem. split; [done|]. exists pre, post. split; [|done].
  pose proof (length_concat_es es l Hl) as Hc. pose proof (length_concat_es es l' Hl') as Hc'. rewrite Hlen in Hc'.
  assert ((i + r) * es ≤ length l * es ∧ (j + r) * es ≤ length l * es) as [Hi' Hj'] by nia.
  apply list_eq. intros p. rewrite Hmem. destruct (decide (p < length pre)) as [Hp|Hp].
  { rewrite !decide_False by lia. by rewrite !lookup_app_l by lia. }
  destruct (decide (p < length pre + length l * es)) as [Hp'|Hp'].
  2: { rewrite !decide_False by lia. rewrite !lookup_app_r by lia. f_equal. lia. }
  assert (es ≠ 0) as Hes by (intros ->; lia).
  set (k := (p - length pre) / es). set (o := (p - length pre) mod es).
  assert (p = length pre + (k * es + o)) as Ep by (pose proof (Nat.div_mod_eq (p - length pre) es); lia).
  assert (o < es) as Ho by by apply Nat.mod_upper_bound. assert (k < length l) as Hk by (apply Nat.Div0.div_lt_upper_bound; lia).
  clearbody k o. subst p. assert (∀ q, q < length l → q * es + o < length l * es) as Hq by (intros; nia).
  assert (∀ q, q < length l → (pre ++ concat l ++ post) !! (length pre + (q * es + o)) = l !! q ≫= (.!! o)) as Hat.
  { intros q Hq'. specialize (Hq q Hq'). rewrite lookup_app_r, lookup_app_l by lia. rewrite <- (concat_lookup es) by done. f_equal. lia. }
  rewrite (lookup_app_r pre (concat l' ++ post)) by lia. rewrite (lookup_app_l (concat l')) by (specialize (Hq k Hk); lia).
  replace (length pre + (k * es + o) - length pre) with (k * es + o) by lia. rewrite (concat_lookup es), Hex by done.
  destruct (decide (i ≤ k < i + r)), (decide (j ≤ k < j + r)).
  1,2: rewrite decide_True by nia; rewrite shift_index by lia; apply Hat; unfold apart in Hd; lia.
  - rewrite decide_False, decide_True by nia. rewrite shift_index by lia. apply Hat. lia.
  - rewrite !decide_False by nia. by apply Hat.
Qed.

(** The block exchange of the bytes is the block exchange of the elements. *)
Lemma block_refines base es i j r ty l l' mem :
  elements_at base es mem l → 0 < es → 0 < r → (Z.of_nat (r * es) < 2 ^ 31)%Z → valid_swaptype es ty →
  i + r ≤ length l → j + r ≤ length l → apart i j r → l' ≡ₚ l → block_exchange i j r l l' →
  ∃ mem', swapfunc (base + i * es) (base + j * es) (r * es) ty mem = Ok (tt, mem') ∧ length mem' = length mem ∧
    block_exchange (base + i * es) (base + j * es) (r * es) mem mem' ∧ elements_at base es mem' l'.
Proof.
  intros Hel Hes Hr Hlt Hty Hi Hj Hd HP Hex. pose proof Hel as (Hl & pre & post & Em & Eb).
  assert (length mem = base + (length l * es + length post)) as Hm
    by (rewrite Em, !length_app, (length_concat_es es l Hl); lia).
  assert ((i + r) * es ≤ length l * es ∧ (j + r) * es ≤ length l * es) as [Hi' Hj'] by nia.
  destruct (swapfunc_exchange (base + i * es) (base + j * es) (r * es) es ty mem) as (mem' & E & L & B);
    try done; try nia; [apply Nat.Div0.mod_mul|unfold apart in *; nia|].
  exists mem'. split_and!; [done..|]. eapply (elements_exchange base es i j r l); try done.
  - by rewrite HP.
  - by apply Permutation_length.
Qed.

Lemma swap_exchange {A} es i j (l : list A) :
  (Z.of_nat es < 2 ^ 31)%Z → i < length l → j < length l → Sort.swap es i j l = Ok (tt, exch i j l) ∧ block_exchange i j 1 l (exch i j l).
Proof.
  intros Hes Hi Hj. split.
  - destruct (wp_inv _ _ _ (wp_swap es i j l (λ _ l', l' = exch i j l) Hes Hi Hj eq_refl)) as ([] & l' & E & ->). done.
  - intros k. rewrite exch_lookup by done. repeat case_decide; try lia; f_equal; lia.
Qed.

Lemma swap_swapfunc a b es ty : valid_swaptype es ty → swap a b es ty = swapfunc a b es ty.
Proof.
  intros Hty. unfold swap. destruct (Nat.eqb_spec ty 0) as [->|]; [|done].
  destruct Hty as [[_ ->]|[[? _]|?]]; [|done|lia]. done.
Qed.

(** C36. The exchanges of qsort.c on bytes implement those of the element model: for
    elements of less than 2^31 bytes, and blocks of less than 2^31 bytes, with the
    swap type of any start of the array, the bytes after [swap] and [vecswap] are
    those of the exchanged elements, and nothing else has changed. *)
Theorem exchanges_refine base es a l mem :
  elements_at base es mem l → 0 < es → (Z.of_nat es < 2 ^ 31)%Z →
  (∀ i j, i < length l → j < length l →
     ∃ mem' l', swap (base + i * es) (base + j * es) es (SWAPINIT a es) mem = Ok (tt, mem') ∧
       Sort.swap es i j l = Ok (tt, l') ∧ elements_at base es mem' l') ∧
  (∀ i j r, i + r ≤ j → j + r ≤ length l → (Z.of_nat (r * es) < 2 ^ 31)%Z →
     ∃ mem' l', vecswap (base + i * es) (base + j * es) (r * es) (SWAPINIT a es) mem = Ok (tt, mem') ∧
       Sort.vecswap es i j r l = Ok (tt, l') ∧ elements_at base es mem' l').
Proof.
  intros Hel Hes Hlt. pose proof (SWAPINIT_valid a es) as Hty. split.
  - intros i j Hi Hj. destruct (swap_exchange es i j l Hlt Hi Hj) as [E B].
    destruct (block_refines base es i j 1 (SWAPINIT a es) l (exch i j l) mem) as (mem' & E' & _ & _ & Hel');
      try done; try lia; [unfold apart; lia|apply exch_perm|].
    exists mem', (exch i j l). rewrite swap_swapfunc by done. by rewrite Nat.mul_1_l in E'.
  - intros i j r Hij Hj Hr. destruct (wp_inv _ _ _ (wp_vecswap es i j r l Hr ltac:(lia) ltac:(lia))) as ([] & l' & E & HP & B).
    unfold vecswap. destruct (Nat.ltb_spec 0 (r * es)).
    + destruct (block_refines base es i j r (SWAPINIT a es) l l' mem) as (mem' & E' & _ & _ & Hel');
        try done; try lia; [unfold apart; lia|]. eauto.
    + assert (r = 0) as -> by lia. exists mem, l. done.
Qed.

(** A block of 2^31 bytes or more does not pass the parameter [int n]: from 2^31 to
    2^32 - 1 bytes the byte loop exchanges a single byte. *)
Theorem swapfunc_truncates a b n :
  (2 ^ 31 ≤ Z.of_nat n < 2 ^ 32)%Z → swapfunc a b n 2 = swap_units 1 1 a b.
Proof.
  intros Hn. unfold swapfunc, swapcode. cbn [Nat.leb]. f_equal.
  assert (i64 (u64 (i32 (Z.of_nat n)) / Z.of_nat 1) ≤ 0)%Z; [|lia].
  change (Z.of_nat 1) with 1%Z. rewrite Z.div_1_r. wrap_lia.
Qed.

(** There the element model stops. *)
Example vecswap_truncates i j r es (l : list Z) :
  (2 ^ 31 ≤ Z.of_nat (r * es))%Z → Sort.vecswap es i j r l = Crash INT_TRUNCATION.
Proof.
  intros Hn. unfold Sort.vecswap, Sort.as_int, mbind, M_bind. by destruct (Z.ltb_spec (Z.of_nat (r * es)) (2 ^ 31)); [lia|].
Qed.

(** ** Libc sorting: the theorems on concrete arrays *)

Import Sort.

#[export] Instance Zsub_comparator : Comparator Z.sub.
Proof. split; intros; lia. Qed.

(** Not an order: every element is less than every other. *)
Definition always_less (x y : Z) : Z := (-1)%Z.

Definition numbers : list Z := [5; 3; 9; 3; 0; 7; 2; 8; 3; 6; 1; 4]%Z.

Example numbers_sorted :
  qsort Z.sub true 4 1 10 numbers = Ok (tt, [5; 0; 1; 2; 3; 3; 3; 6; 7; 8; 9; 4]%Z).
Proof. vm_compute. reflexivity. Qed.

Lemma qsort_terminates_witness :
  ∃ l', qsort always_less false 4 1 10 numbers = Ok (tt, l') ∧ reorders 1 10 numbers l'.
Proof. apply (qsort_terminates always_less 4 false 1 10 numbers); cbn; lia. Defined.

Lemma qsort_sorts_witness :
  ∃ l', qsort Z.sub true 4 1 10 numbers = Ok (tt, l') ∧ reorders 1 10 numbers l' ∧ sorted_range Z.sub l' 1 11.
Proof. apply (qsort_sorts Z.sub 4 1 10 numbers); cbn; lia. Defined.

Lemma heapsort_correct_witness :
  ∃ r l', heapsort Z.sub false 1 10 numbers = Ok (r, l') ∧ reorders 1 10 numbers l' ∧
    ((r = 0%Z ∧ sorted_range Z.sub l' 1 11) ∨ (r = (-1)%Z ∧ l' = numbers ∧ false = false ∧ 1 < 10)).
Proof. apply (heapsort_correct Z.sub false 1 10 numbers). cbn. lia. Defined.

Lemma qsort_bsearch_witness :
  ∃ r l', (_ ← qsort Z.sub true 4 1 10; bsearch Z.sub 7%Z 1 10) numbers = Ok (r, l') ∧ reorders 1 10 numbers l' ∧
    match r with
    | Some p => 1 ≤ p < 11 ∧ ∃ x, l' !! p = Some x ∧ (7 - x = 0)%Z
    | None => ∀ p x, 1 ≤ p < 11 → numbers !! p = Some x → (7 - x)%Z ≠ 0%Z
    end.
Proof. apply (qsort_bsearch Z.sub 4 7%Z 1 10 numbers); cbn; lia. Defined.

(** Four elements of two bytes after one byte of something else. *)
Definition pairs : list (list Z) := [[1; 2]; [3; 4]; [5; 6]; [7; 8]]%Z.
Definition bytes : list Z := [0; 1; 2; 3; 4; 5; 6; 7; 8; 9]%Z.

Lemma pairs_at : elements_at 1 2 bytes pairs.
Proof. split; [by repeat constructor|]. by exists [0%Z], [9%Z]. Qed.

Lemma exchanges_refine_witness :
  (∀ i j, i < 4 → j < 4 →
     ∃ mem' l', SwapBytes.swap (1 + i * 2) (1 + j * 2) 2 (SwapBytes.SWAPINIT 1 2) bytes = Ok (tt, mem') ∧
       Sort.swap 2 i j pairs = Ok (tt, l') ∧ elements_at 1 2 mem' l') ∧
  (∀ i j r, i + r ≤ j → j + r ≤ 4 → (Z.of_nat (r * 2) < 2 ^ 31)%Z →
     ∃ mem' l', SwapBytes.vecswap (1 + i * 2) (1 + j * 2) (r * 2) (SwapBytes.SWAPINIT 1 2) bytes = Ok (tt, mem') ∧
       Sort.vecswap 2 i j r pairs = Ok (tt, l') ∧ elements_at 1 2 mem' l').
Proof. apply (exchanges_refine 1 2 1 pairs bytes); [apply pairs_at|lia|lia]. Defined.
