(* ===== verification/IpcSplay.v ===== *)
(** * xnu splay trees of port names: definitions

    Model of src/xnu-792/osfmk/ipc/ipc_splay.c on memory: an entry has a name and
    two child fields, a tree structure has two more pointer fields, and
    [ist_ltreep], [ist_rtreep] point to such fields.  A pointer field is a [cell];
    [ptr] has the value of every cell that exists, [ite_name] the name of every
    entry that is allocated.  The tree is kept unassembled, as the comment at the
    head of the file says, and fields that are not initialised have some value.
    [assert] stops the kernel; [ist_lock] and [ist_unlock] do nothing.  The other
    fields of an entry are not touched here. *)

From S2P Require Import Prelude.

Module Splay.

(** Entries and tree structures, by address. *)
Abbreviation loc := positive.
Abbreviation sid := positive.

Inductive cell :=
| Lchild (e : loc) | Rchild (e : loc)   (* ite_lchild, ite_rchild *)
| Ltree (s : sid) | Rtree (s : sid)     (* ist_ltree, ist_rtree *)
| Local_ltree | Local_rtree.            (* local variables *)

#[export] Instance cell_eq_dec : EqDecision cell.
Proof. solve_decision. Defined.

#[export] Instance cell_countable : Countable cell.
Proof.
  apply (inj_countable'
    (λ c, match c with
          | Lchild e => (0%nat, e) | Rchild e => (1%nat, e) | Ltree s => (2%nat, s) | Rtree s => (3%nat, s)
          | Local_ltree => (4%nat, 1%positive) | Local_rtree => (5%nat, 1%positive)
          end)
    (λ p, match p.1 with
          | 0%nat => Lchild p.2 | 1%nat => Rchild p.2 | 2%nat => Ltree p.2 | 3%nat => Rtree p.2
          | 4%nat => Local_ltree | _ => Local_rtree
          end)).
  by intros [].
Defined.

(** [struct ipc_splay_tree] without the fields that are cells. *)
Record ipc_splay_tree := Ist {
  ist_name : Z;
  ist_root : option loc;
  ist_ltreep : cell;
  ist_rtreep : cell;
}.

Record ipc := Ipc {
  ite_name : gmap loc Z;
  ptr : gmap cell (option loc);
  ist : gmap sid ipc_splay_tree;
}.

Local Abbreviation MS := (M ipc).

Definition MACH_PORT_SMALLEST : Z := 0.
Definition MACH_PORT_LARGEST : Z := 2 ^ 32 - 1.

(** ** Memory *)

Definition set_ptr (c : cell) (v : option loc) (σ : ipc) : ipc := Ipc (ite_name σ) (<[c := v]> (ptr σ)) (ist σ).
Definition set_name (e : loc) (n : Z) (σ : ipc) : ipc := Ipc (<[e := n]> (ite_name σ)) (ptr σ) (ist σ).
Definition set_ist (s : sid) (T : ipc_splay_tree) (σ : ipc) : ipc := Ipc (ite_name σ) (ptr σ) (<[s := T]> (ist σ)).

Definition read (c : cell) : MS (option loc) :=
  λ σ, match ptr σ !! c with Some v => Ok (v, σ) | None => Crash BAD_ACCESS end.
Definition write (c : cell) (v : option loc) : MS unit :=
  λ σ, match ptr σ !! c with Some _ => Ok (tt, set_ptr c v σ) | None => Crash BAD_ACCESS end.

Definition get_name (e : loc) : MS Z :=
  λ σ, match ite_name σ !! e with Some n => Ok (n, σ) | None => Crash BAD_ACCESS end.
Definition name_of (p : option loc) : MS Z := e ← nonnull p; get_name e.
Definition put_name (e : loc) (n : Z) : MS unit :=
  λ σ, match ite_name σ !! e with Some _ => Ok (tt, set_name e n σ) | None => Crash BAD_ACCESS end.
Definition lchild (p : option loc) : MS (option loc) := e ← nonnull p; read (Lchild e).
Definition rchild (p : option loc) : MS (option loc) := e ← nonnull p; read (Rchild e).
Definition put_lchild (p v : option loc) : MS unit := e ← nonnull p; write (Lchild e) v.
Definition put_rchild (p v : option loc) : MS unit := e ← nonnull p; write (Rchild e) v.

(** [ite_alloc], when the zone hands out the address [e], with garbage in it. *)
Definition ite_alloc (e : loc) (n : Z) (l r : option loc) : MS unit :=
  λ σ, match ite_name σ !! e with
       | None => Ok (tt, Ipc (<[e := n]> (ite_name σ)) (<[Lchild e := l]> (<[Rchild e := r]> (ptr σ))) (ist σ))
       | Some _ => Crash BAD_ACCESS
       end.

(** [ite_free]: the memory is the zone's again. *)
Definition release (e : loc) : MS unit :=
  λ σ, match ite_name σ !! e with
       | Some _ => Ok (tt, Ipc (delete e (ite_name σ)) (delete (Lchild e) (delete (Rchild e) (ptr σ))) (ist σ))
       | None => Crash BAD_FREE
       end.
Definition ite_free (p : option loc) : MS unit := e ← nonnull p; release e.

Definition tree_of (s : sid) : MS ipc_splay_tree :=
  λ σ, match ist σ !! s with Some T => Ok (T, σ) | None => Crash BAD_ACCESS end.
Definition upd_tree (s : sid) (f : ipc_splay_tree → ipc_splay_tree) : MS unit :=
  λ σ, match ist σ !! s with Some T => Ok (tt, set_ist s (f T) σ) | None => Crash BAD_ACCESS end.

Definition put_root (v : option loc) (T : ipc_splay_tree) : ipc_splay_tree := Ist (ist_name T) v (ist_ltreep T) (ist_rtreep T).
Definition put_ist_name (n : Z) (T : ipc_splay_tree) : ipc_splay_tree := Ist n (ist_root T) (ist_ltreep T) (ist_rtreep T).
Definition put_ltreep (c : cell) (T : ipc_splay_tree) : ipc_splay_tree := Ist (ist_name T) (ist_root T) c (ist_rtreep T).
Definition put_rtreep (c : cell) (T : ipc_splay_tree) : ipc_splay_tree := Ist (ist_name T) (ist_root T) (ist_ltreep T) c.

Definition assert (b : bool) : MS unit := if b then mret tt else crash ASSERT_FAILED.
Definition is_null (p : option loc) : bool := match p with None => true | Some _ => false end.

(** ** The top-down splay *)

Definition link_left (tree : option loc) (ltreep : cell) : MS (option loc * cell) :=
  _ ← write ltreep tree;
  e ← nonnull tree;
  tree ← read (Rchild e);
  mret (tree, Rchild e).

Definition link_right (tree : option loc) (rtreep : cell) : MS (option loc * cell) :=
  _ ← write rtreep tree;
  e ← nonnull tree;
  tree ← read (Lchild e);
  mret (tree, Lchild e).

Definition rotate_left (temp : option loc) : MS (option loc) :=
  tree ← rchild temp;
  l ← lchild tree;
  _ ← put_rchild temp l;
  _ ← put_lchild tree temp;
  mret tree.

Definition rotate_right (temp : option loc) : MS (option loc) :=
  tree ← lchild temp;
  r ← rchild tree;
  _ ← put_lchild temp r;
  _ ← put_rchild tree temp;
  mret tree.

(** A condition [a && b] where [b] reads memory. *)
Definition andthen (a : bool) (b : MS bool) : MS bool := if a then b else mret false.

(** The two branches of the loop, below the test of the child. *)
Definition descend_left (name : Z) (tree child : option loc) (ltreep rtreep : cell) : MS (option loc * cell * cell) :=
  tname ← name_of child;
  zig ← andthen (name <? tname) (l ← lchild child; mret (negb (is_null l)));
  tree ← (if (zig : bool) then rotate_right tree else mret tree);
  '(tree, rtreep) ← link_right tree rtreep;
  zag ← andthen (tname <? name) (r ← rchild child; mret (negb (is_null r)));
  '(tree, ltreep) ← (if (zag : bool) then link_left tree ltreep else mret (tree, ltreep));
  mret (tree, ltreep, rtreep).

Definition descend_right (name : Z) (tree child : option loc) (ltreep rtreep : cell) : MS (option loc * cell * cell) :=
  tname ← name_of child;
  zig ← andthen (tname <? name) (r ← rchild child; mret (negb (is_null r)));
  tree ← (if (zig : bool) then rotate_left tree else mret tree);
  '(tree, ltreep) ← link_left tree ltreep;
  zag ← andthen (name <? tname) (l ← lchild child; mret (negb (is_null l)));
  '(tree, rtreep) ← (if (zag : bool) then link_right tree rtreep else mret (tree, rtreep));
  mret (tree, ltreep, rtreep).

Fixpoint prim_lookup_loop (fuel : nat) (name : Z) (tree : option loc) (ltreep rtreep : cell) :
    MS (option loc * cell * cell) :=
  match fuel with
  | O => crash OUT_OF_FUEL
  | S fuel =>
      tname ← name_of tree;
      if name =? tname then mret (tree, ltreep, rtreep)
      else if name <? tname then
        child ← lchild tree;
        if is_null child then mret (tree, ltreep, rtreep)
        else
          '(tree, ltreep, rtreep) ← descend_left name tree child ltreep rtreep;
          _ ← assert (negb (is_null tree));
          prim_lookup_loop fuel name tree ltreep rtreep
      else
        child ← rchild tree;
        if is_null child then mret (tree, ltreep, rtreep)
        else
          '(tree, ltreep, rtreep) ← descend_right name tree child ltreep rtreep;
          _ ← assert (negb (is_null tree));
          prim_lookup_loop fuel name tree ltreep rtreep
  end.

Definition ipc_splay_prim_lookup (name : Z) (tree : option loc) (ltreep rtreep : cell) :
    MS (option loc * cell * cell) :=
  _ ← assert (negb (is_null tree));
  fuel ← gets (λ σ, S (size (ite_name σ)));
  prim_lookup_loop fuel name tree ltreep rtreep.

Definition ipc_splay_prim_assemble (tree : option loc) (ltree ltreep rtree rtreep : cell) : MS unit :=
  _ ← assert (negb (is_null tree));
  l ← lchild tree;
  _ ← write ltreep l;
  r ← rchild tree;
  _ ← write rtreep r;
  l ← read ltree;
  _ ← put_lchild tree l;
  r ← read rtree;
  put_rchild tree r.

(** ** Operations *)

Definition ipc_splay_tree_init (s : sid) : MS unit := upd_tree s (put_root None).

Definition ipc_splay_tree_pick (s : sid) : MS (option (Z * option loc)) :=
  T ← tree_of s;
  if is_null (ist_root T) then mret None else n ← name_of (ist_root T); mret (Some (n, ist_root T)).

(** Assemble the tree and look the name up, unless it was the last one. *)
Definition splay_to (s : sid) (name : Z) (root : option loc) : MS (option loc) :=
  T ← tree_of s;
  if ist_name T =? name then mret root
  else
    _ ← ipc_splay_prim_assemble root (Ltree s) (ist_ltreep T) (Rtree s) (ist_rtreep T);
    '(root, ltreep, rtreep) ← ipc_splay_prim_lookup name root (Ltree s) (Rtree s);
    _ ← upd_tree s (put_ltreep ltreep);
    _ ← upd_tree s (put_rtreep rtreep);
    mret root.

(** The pointers of an assembled tree. *)
Definition assembled (s : sid) : MS unit :=
  _ ← upd_tree s (put_ltreep (Ltree s)); upd_tree s (put_rtreep (Rtree s)).

(** [splay->ist_name = name; splay->ist_root = root], done when the name is new. *)
Definition remember (s : sid) (name : Z) (root : option loc) : MS unit :=
  T ← tree_of s;
  if ist_name T =? name then mret tt
  else _ ← upd_tree s (put_ist_name name); upd_tree s (put_root root).

Definition ipc_splay_tree_lookup (s : sid) (name : Z) : MS (option loc) :=
  T ← tree_of s;
  if is_null (ist_root T) then mret None
  else
    root ← splay_to s name (ist_root T);
    _ ← remember s name root;
    n ← name_of root;
    mret (if name =? n then root else None).

Definition ipc_splay_tree_insert (s : sid) (name : Z) (entry : loc) : MS unit :=
  T ← tree_of s;
  _ ← (if is_null (ist_root T) then
         _ ← write (Lchild entry) None; write (Rchild entry) None
       else
         root ← splay_to s name (ist_root T);
         n ← name_of root;
         _ ← assert (negb (n =? name));
         T ← tree_of s;
         _ ← (if name <? n then
                l ← lchild root;
                _ ← assert (is_null l);
                _ ← write (ist_ltreep T) None;
                write (ist_rtreep T) root
              else
                r ← rchild root;
                _ ← assert (is_null r);
                _ ← write (ist_ltreep T) root;
                write (ist_rtreep T) None);
         l ← read (Ltree s);
         _ ← write (Lchild entry) l;
         r ← read (Rtree s);
         write (Rchild entry) r);
  _ ← put_name entry name;
  _ ← upd_tree s (put_root (Some entry));
  _ ← upd_tree s (put_ist_name name);
  assembled s.

(** The end of [ipc_splay_tree_delete], also of a half of a split tree. *)
Definition settle (s : sid) (root : option loc) : MS unit :=
  _ ← upd_tree s (put_root root);
  if is_null root then mret tt
  else n ← name_of root; _ ← upd_tree s (put_ist_name n); assembled s.

Definition ipc_splay_tree_delete (s : sid) (name : Z) (entry : loc) : MS unit :=
  T ← tree_of s;
  _ ← assert (negb (is_null (ist_root T)));
  root ← splay_to s name (ist_root T);
  n ← name_of root;
  _ ← assert (n =? name);
  _ ← assert (bool_decide (root = Some entry));
  T ← tree_of s;
  l ← lchild root;
  _ ← write (ist_ltreep T) l;
  r ← rchild root;
  _ ← write (ist_rtreep T) r;
  _ ← ite_free root;
  root ← read (Ltree s);
  saved ← read (Rtree s);
  root ← (if is_null root then mret saved
          else if is_null saved then mret root
          else
            '(root, ltreep, rtreep) ← ipc_splay_prim_lookup MACH_PORT_LARGEST root (Ltree s) (Rtree s);
            _ ← upd_tree s (put_ltreep ltreep);
            _ ← upd_tree s (put_rtreep rtreep);
            _ ← ipc_splay_prim_assemble root (Ltree s) ltreep (Rtree s) rtreep;
            r ← rchild root;
            _ ← assert (is_null r);
            _ ← put_rchild root saved;
            mret root);
  settle s root.

Definition ipc_splay_tree_split (s : sid) (name : Z) (small : sid) : MS unit :=
  _ ← ipc_splay_tree_init small;
  T ← tree_of s;
  if is_null (ist_root T) then mret tt
  else
    root ← splay_to s name (ist_root T);
    T ← tree_of s;
    n ← name_of root;
    if n <? name then
      l ← lchild root;
      _ ← write (ist_ltreep T) l;
      _ ← write (ist_rtreep T) None;
      l ← read (Ltree s);
      _ ← put_lchild root l;
      r ← rchild root;
      _ ← assert (is_null r);
      _ ← settle small root;
      root ← read (Rtree s);
      settle s root
    else
      l ← lchild root;
      _ ← write (ist_ltreep T) l;
      _ ← put_lchild root None;
      _ ← upd_tree s (put_root root);
      _ ← upd_tree s (put_ist_name name);
      _ ← upd_tree s (put_ltreep (Ltree s));
      root ← read (Ltree s);
      settle small root.

Definition ipc_splay_tree_join (s small : sid) : MS unit :=
  T' ← tree_of small;
  let sroot := ist_root T' in
  if is_null sroot then mret tt
  else
    _ ← ipc_splay_prim_assemble sroot (Ltree small) (ist_ltreep T') (Rtree small) (ist_rtreep T');
    _ ← upd_tree small (put_root None);
    T ← tree_of s;
    root ← (if is_null (ist_root T) then mret sroot
            else
              root ← splay_to s MACH_PORT_SMALLEST (ist_root T);
              T ← tree_of s;
              _ ← ipc_splay_prim_assemble root (Ltree s) (ist_ltreep T) (Rtree s) (ist_rtreep T);
              l ← lchild root;
              _ ← assert (is_null l);
              sn ← name_of sroot;
              n ← name_of root;
              _ ← assert (sn <? n);
              _ ← put_lchild root sroot;
              mret root);
    settle s root.

(** The entry whose field is pointed to; ["it's a hack"]. *)
Definition entry_of (c : cell) : option loc :=
  match c with Lchild e | Rchild e => Some e | _ => None end.

Definition ipc_splay_tree_bounds (s : sid) (name : Z) : MS (Z * Z) :=
  T ← tree_of s;
  if is_null (ist_root T) then mret (MACH_PORT_LARGEST, MACH_PORT_SMALLEST)
  else
    root ← splay_to s name (ist_root T);
    _ ← remember s name root;
    T ← tree_of s;
    rname ← name_of root;
    lower ← (if rname <=? name then mret rname
             else if bool_decide (ist_ltreep T = Ltree s) then mret MACH_PORT_LARGEST
             else name_of (entry_of (ist_ltreep T)));
    upper ← (if name <=? rname then mret rname
             else if bool_decide (ist_rtreep T = Rtree s) then mret MACH_PORT_SMALLEST
             else name_of (entry_of (ist_rtreep T)));
    mret (lower, upper).

(** ** Traversal *)

(** The labels of the state machine. *)
Inductive label := traverse_left | traverse_entry | traverse_right | traverse_back.

Fixpoint traverse (fuel : nat) (at_ : label) (s : sid) (current parent : option loc) : MS (option loc) :=
  match fuel with
  | O => crash OUT_OF_FUEL
  | S fuel =>
      match at_ with
      | traverse_left =>
          next ← lchild current;
          if is_null next then traverse fuel traverse_entry s current parent
          else _ ← put_lchild current parent; traverse fuel traverse_left s next current
      | traverse_entry =>
          _ ← write (Ltree s) current;
          _ ← write (Rtree s) parent;
          mret current
      | traverse_right =>
          next ← rchild current;
          if is_null next then traverse fuel traverse_back s current parent
          else _ ← put_rchild current parent; traverse fuel traverse_left s next current
      | traverse_back =>
          if is_null parent then _ ← upd_tree s (put_root current); mret None
          else
            n ← name_of current;
            pn ← name_of parent;
            if n <? pn then
              up ← lchild parent; _ ← put_lchild parent current; traverse fuel traverse_entry s parent up
            else
              up ← rchild parent; _ ← put_rchild parent current; traverse fuel traverse_back s parent up
      end
  end.

Definition traverse_from (at_ : label) (s : sid) (current parent : option loc) : MS (option loc) :=
  fuel ← gets (λ σ, 3 + size (ite_name σ))%nat; traverse fuel at_ s current parent.

(** The first loop is the part [traverse_left] of the machine. *)
Definition ipc_splay_traverse_start (s : sid) : MS (option loc) :=
  T ← tree_of s;
  let current := ist_root T in
  if is_null current then mret None
  else
    _ ← ipc_splay_prim_assemble current (Ltree s) (ist_ltreep T) (Rtree s) (ist_rtreep T);
    traverse_from traverse_left s current None.

Definition ipc_splay_traverse_next (s : sid) (delete : bool) : MS (option loc) :=
  current ← read (Ltree s);
  parent ← read (Rtree s);
  _ ← assert (negb (is_null current));
  if negb delete then traverse_from traverse_right s current parent
  else
    l ← lchild current;
    r ← rchild current;
    if is_null l then
      if is_null r then
        if is_null parent then
          _ ← ite_free current; _ ← upd_tree s (put_root None); mret None
        else
          n ← name_of current;
          pn ← name_of parent;
          _ ← ite_free current;
          if n <? pn then
            up ← lchild parent; _ ← put_lchild parent None; traverse_from traverse_entry s parent up
          else
            up ← rchild parent; _ ← put_rchild parent None; traverse_from traverse_back s parent up
      else _ ← ite_free current; traverse_from traverse_left s r parent
    else if is_null r then _ ← ite_free current; traverse_from traverse_back s l parent
    else
      '(now, ltreep, rtreep) ← ipc_splay_prim_lookup MACH_PORT_LARGEST l Local_ltree Local_rtree;
      _ ← ipc_splay_prim_assemble now Local_ltree ltreep Local_rtree rtreep;
      r' ← rchild now;
      _ ← assert (is_null r');
      r ← rchild current;
      _ ← put_rchild now r;
      _ ← ite_free current;
      traverse_from traverse_right s now parent.

Definition ipc_splay_traverse_finish (s : sid) : MS unit :=
  T ← tree_of s;
  if is_null (ist_root T) then mret tt
  else n ← name_of (ist_root T); _ ← upd_tree s (put_ist_name n); assembled s.

(** The usage of the three routines: [body] looks at an entry and says whether to
    delete it.  Returns the entries in the order they were visited. *)
Fixpoint traverse_loop (fuel : nat) (s : sid) (body : Z → loc → bool) (entry : option loc) : MS (list (Z * loc)) :=
  match fuel with
  | O => crash OUT_OF_FUEL
  | S fuel =>
      match entry with
      | None => mret []
      | Some e =>
          n ← name_of entry;
          next ← ipc_splay_traverse_next s (body n e);
          rest ← traverse_loop fuel s body next;
          mret ((n, e) :: rest)
      end
  end.

Definition traverse_all (s : sid) (body : Z → loc → bool) : MS (list (Z * loc)) :=
  fuel ← gets (λ σ, 2 + size (ite_name σ))%nat;
  first ← ipc_splay_traverse_start s;
  visited ← traverse_loop fuel s body first;
  _ ← ipc_splay_traverse_finish s;
  mret visited.

End Splay.
