(* ===== verification/IpcSplayTree.v ===== *)
(** * xnu splay trees of port names: the top-down splay

    Trees, the right spine of a left tree and the left spine of a right tree (with
    a hole at their end), what each owns in memory, and the routines that work on
    them: [ipc_splay_prim_lookup] moves entries from the middle tree to the two
    spines and keeps the entries in order, [ipc_splay_prim_assemble] is the inverse. *)

From iris.proofmode Require Import proofmode.
From iris.base_logic.lib Require Import ghost_map.
From stdpp Require Import sorting.
From S2P Require Import Prelude IpcSplay.
Import Splay.

(** ** xnu splay trees of port names: a separation logic

    The assertions of Iris over the memory of [IpcSplay.v]: [e ↦n n] owns the name
    of an entry, [c ↦ v] a pointer field, [s ↦t T] the rest of a tree structure and
    [unused e] an address the allocator may hand out.  [iwp m Q]: from any memory
    the owned part belongs to, [m] returns (no failed assertion, no bad access, no
    lack of fuel) and [Q] holds of the result; it is closed under framing.  Each
    primitive has one rule, and [iwp_adequacy] turns a proof in the logic into a
    statement about the run of the program. *)

(** Memory the ghost maps may track; [None] is what is not allocated. *)
Class ipcG Σ := IpcG {
  ipcG_name :: ghost_mapG Σ loc (option Z);
  ipcG_ptr :: ghost_mapG Σ cell (option (option loc));
  ipcG_ist :: ghost_mapG Σ sid ipc_splay_tree;
  γname : gname;
  γptr : gname;
  γist : gname;
}.

Definition ipcΣ : gFunctors :=
  #[ghost_mapΣ loc (option Z); ghost_mapΣ cell (option (option loc)); ghost_mapΣ sid ipc_splay_tree].

Notation "e ↦n n" := (e ↪[γname] Some n)%I (at level 20) : bi_scope.
Notation "c ↦ v" := (c ↪[γptr] Some v)%I (at level 20) : bi_scope.
Notation "s ↦t T" := (s ↪[γist] T)%I (at level 20) : bi_scope.

Section logic.
Context `{!ipcG Σ}.
Implicit Types (σ : ipc).

Definition unused (e : loc) : iProp Σ :=
  e ↪[γname] None ∗ Lchild e ↪[γptr] None ∗ Rchild e ↪[γptr] None.

(** The tracked part of a map agrees with it. *)
Definition tracks {K V} `{Countable K} (m : gmap K V) (g : gmap K (option V)) : Prop :=
  ∀ k v, g !! k = Some v → m !! k = v.

Definition state_interp σ : iProp Σ :=
  ∃ N P, ghost_map_auth γname 1 N ∗ ghost_map_auth γptr 1 P ∗ ghost_map_auth γist 1 (ist σ) ∗
         ⌜tracks (ite_name σ) N⌝ ∗ ⌜tracks (ptr σ) P⌝.

Definition iwp {A} (m : M ipc A) (Q : A → iProp Σ) : iProp Σ :=
  ∀ σ, state_interp σ ==∗ ∃ a σ', ⌜m σ = Ok (a, σ')⌝ ∗ state_interp σ' ∗ Q a.

(** ** Structural rules *)

Lemma iwp_ret {A} (a : A) Q : Q a -∗ iwp (mret a) Q.
Proof. iIntros "HQ" (σ) "Hσ !>". iExists _, _. by iFrame. Qed.

Lemma iwp_bind {A B} (m : M ipc A) (f : A → M ipc B) Q : iwp m (λ a, iwp (f a) Q) -∗ iwp (m ≫= f) Q.
Proof.
  iIntros "Hm" (σ) "Hσ". iMod ("Hm" with "Hσ") as (a σ1 Hm) "[Hσ Hf]".
  iMod ("Hf" with "Hσ") as (b σ2 Hf) "[Hσ HQ]". iModIntro. iExists b, σ2. iFrame.
  iPureIntro. by rw (bind_Ok _ _ _ _ _ Hm).
Qed.

Lemma iwp_wand {A} (m : M ipc A) P Q : iwp m P -∗ (∀ a, P a -∗ Q a) -∗ iwp m Q.
Proof.
  iIntros "Hm HPQ" (σ) "Hσ". iMod ("Hm" with "Hσ") as (a σ1 Hm) "[Hσ HP]".
  iModIntro. iExists a, σ1. iFrame "Hσ". iSplit; [done|]. by iApply "HPQ".
Qed.

Lemma iwp_bupd {A} (m : M ipc A) Q : (|==> iwp m Q) -∗ iwp m Q.
Proof. iIntros "Hm" (σ) "Hσ". iMod "Hm". by iApply "Hm". Qed.

Lemma iwp_nonnull (e : loc) (Q : loc → iProp Σ) : Q e -∗ iwp (nonnull (Some e)) Q.
Proof. iApply iwp_ret. Qed.

Lemma iwp_assert b Q : b = true → Q () -∗ iwp (assert b) Q.
Proof. intros ->. iApply iwp_ret. Qed.

Lemma iwp_gets {A} (f : ipc → A) (φ : A → Prop) Q :
  (∀ σ, state_interp σ -∗ ⌜φ (f σ)⌝) ∧ (∀ a, ⌜φ a⌝ -∗ Q a) -∗ iwp (gets f) Q.
Proof.
  iIntros "HQ" (σ) "Hσ". iAssert ⌜φ (f σ)⌝%I as %Hφ; [by iApply "HQ"|].
  iModIntro. iExists (f σ), σ. iFrame. iSplit; [done|]. by iApply "HQ".
Qed.

(** ** Memory *)

Lemma tracks_insert {K V} `{Countable K} (m : gmap K V) g k v :
  tracks m g → tracks (<[k := v]> m) (<[k := Some v]> g).
Proof.
  intros Hm k' v'. destruct (decide (k = k')) as [->|Hk].
  - by rw !lookup_insert_eq; intros [= <-].
  - rw !lookup_insert_ne //; apply Hm.
Qed.

Lemma tracks_delete {K V} `{Countable K} (m : gmap K V) g k :
  tracks m g → tracks (delete k m) (<[k := None]> g).
Proof.
  intros Hm k' v'. destruct (decide (k = k')) as [->|Hk].
  - by rw lookup_insert_eq lookup_delete_eq; intros [= <-].
  - rw lookup_insert_ne // lookup_delete_ne //; apply Hm.
Qed.

Lemma iwp_read c v Q : c ↦ v -∗ (c ↦ v -∗ Q v) -∗ iwp (read c) Q.
Proof.
  iIntros "Hc HQ" (σ) "(%N & %P & HN & HP & HT & %HtN & %HtP)".
  iDestruct (ghost_map_lookup with "HP Hc") as %Hc. iModIntro. iExists v, σ.
  iSplit; [iPureIntro; unfold read; by rw (HtP _ _ Hc)|].
  iSplitR "Hc HQ"; [by iFrame|]. by iApply "HQ".
Qed.

Lemma iwp_write c v w Q : c ↦ v -∗ (c ↦ w -∗ Q ()) -∗ iwp (write c w) Q.
Proof.
  iIntros "Hc HQ" (σ) "(%N & %P & HN & HP & HT & %HtN & %HtP)".
  iDestruct (ghost_map_lookup with "HP Hc") as %Hc.
  iMod (ghost_map_update (Some w) with "HP Hc") as "[HP Hc]". iModIntro. iExists (), (set_ptr c w σ).
  iSplit; [iPureIntro; unfold write; by rw (HtP _ _ Hc)|].
  iSplitR "Hc HQ"; [|by iApply "HQ"]. iExists _, _. iFrame. iPureIntro. split; cbn; auto using tracks_insert.
Qed.

Lemma iwp_name_of e n Q : e ↦n n -∗ (e ↦n n -∗ Q n) -∗ iwp (name_of (Some e)) Q.
Proof.
  iIntros "He HQ" (σ) "(%N & %P & HN & HP & HT & %HtN & %HtP)".
  iDestruct (ghost_map_lookup with "HN He") as %He. iModIntro. iExists n, σ.
  iSplit; [iPureIntro; rw /name_of /ite_free (bind_Ok _ _ _ e σ) // /get_name (HtN _ _ He) //|].
  iSplitR "He HQ"; [by iFrame|]. by iApply "HQ".
Qed.

Lemma iwp_put_name e n n' Q : e ↦n n -∗ (e ↦n n' -∗ Q ()) -∗ iwp (put_name e n') Q.
Proof.
  iIntros "He HQ" (σ) "(%N & %P & HN & HP & HT & %HtN & %HtP)".
  iDestruct (ghost_map_lookup with "HN He") as %He.
  iMod (ghost_map_update (Some n') with "HN He") as "[HN He]". iModIntro. iExists (), (set_name e n' σ).
  iSplit; [iPureIntro; unfold put_name; by rw (HtN _ _ He)|].
  iSplitR "He HQ"; [|by iApply "HQ"]. iExists _, _. iFrame. iPureIntro. split; cbn; auto using tracks_insert.
Qed.

Lemma iwp_lchild e v Q : Lchild e ↦ v -∗ (Lchild e ↦ v -∗ Q v) -∗ iwp (lchild (Some e)) Q.
Proof. iIntros "Hc HQ". iApply iwp_bind. iApply iwp_nonnull. iApply (iwp_read with "Hc HQ"). Qed.
Lemma iwp_rchild e v Q : Rchild e ↦ v -∗ (Rchild e ↦ v -∗ Q v) -∗ iwp (rchild (Some e)) Q.
Proof. iIntros "Hc HQ". iApply iwp_bind. iApply iwp_nonnull. iApply (iwp_read with "Hc HQ"). Qed.
Lemma iwp_put_lchild e v w Q : Lchild e ↦ v -∗ (Lchild e ↦ w -∗ Q ()) -∗ iwp (put_lchild (Some e) w) Q.
Proof. iIntros "Hc HQ". iApply iwp_bind. iApply iwp_nonnull. iApply (iwp_write with "Hc HQ"). Qed.
Lemma iwp_put_rchild e v w Q : Rchild e ↦ v -∗ (Rchild e ↦ w -∗ Q ()) -∗ iwp (put_rchild (Some e) w) Q.
Proof. iIntros "Hc HQ". iApply iwp_bind. iApply iwp_nonnull. iApply (iwp_write with "Hc HQ"). Qed.

Lemma iwp_tree_of s T Q : s ↦t T -∗ (s ↦t T -∗ Q T) -∗ iwp (tree_of s) Q.
Proof.
  iIntros "Hs HQ" (σ) "(%N & %P & HN & HP & HT & %HtN & %HtP)".
  iDestruct (ghost_map_lookup with "HT Hs") as %Hs. iModIntro. iExists T, σ.
  iSplit; [iPureIntro; unfold tree_of; by rw Hs|].
  iSplitR "Hs HQ"; [by iFrame|]. by iApply "HQ".
Qed.

Lemma iwp_upd_tree s T f Q : s ↦t T -∗ (s ↦t f T -∗ Q ()) -∗ iwp (upd_tree s f) Q.
Proof.
  iIntros "Hs HQ" (σ) "(%N & %P & HN & HP & HT & %HtN & %HtP)".
  iDestruct (ghost_map_lookup with "HT Hs") as %Hs.
  iMod (ghost_map_update (f T) with "HT Hs") as "[HT Hs]". iModIntro. iExists (), (set_ist s (f T) σ).
  iSplit; [iPureIntro; unfold upd_tree; by rw Hs|].
  iSplitR "Hs HQ"; [|by iApply "HQ"]. iExists _, _. by iFrame.
Qed.

Lemma iwp_ite_alloc e n l r Q :
  unused e -∗ (e ↦n n -∗ Lchild e ↦ l -∗ Rchild e ↦ r -∗ Q ()) -∗ iwp (ite_alloc e n l r) Q.
Proof.
  iIntros "(He & Hl & Hr) HQ" (σ) "(%N & %P & HN & HP & HT & %HtN & %HtP)".
  iDestruct (ghost_map_lookup with "HN He") as %He.
  iMod (ghost_map_update (Some n) with "HN He") as "[HN He]".
  iMod (ghost_map_update (Some r) with "HP Hr") as "[HP Hr]".
  iMod (ghost_map_update (Some l) with "HP Hl") as "[HP Hl]". iModIntro. iExists (), _.
  iSplit; [iPureIntro; unfold ite_alloc; by rw (HtN _ _ He)|].
  iSplitR "He Hl Hr HQ"; [|by iApply ("HQ" with "He Hl Hr")].
  iExists _, _. iFrame. iPureIntro. split; cbn; auto using tracks_insert.
Qed.

Lemma iwp_ite_free e n l r Q :
  e ↦n n -∗ Lchild e ↦ l -∗ Rchild e ↦ r -∗ (unused e -∗ Q ()) -∗ iwp (ite_free (Some e)) Q.
Proof.
  iIntros "He Hl Hr HQ" (σ) "(%N & %P & HN & HP & HT & %HtN & %HtP)".
  iDestruct (ghost_map_lookup with "HN He") as %He.
  iMod (ghost_map_update None with "HN He") as "[HN He]".
  iMod (ghost_map_update None with "HP Hr") as "[HP Hr]".
  iMod (ghost_map_update None with "HP Hl") as "[HP Hl]". iModIntro. iExists (), _.
  iSplit; [iPureIntro; rw /name_of /ite_free (bind_Ok _ _ _ e σ) // /release (HtN _ _ He) //|].
  iSplitR "He Hl Hr HQ"; [|iApply "HQ"; iFrame].
  iExists _, _. iFrame. iPureIntro. split; cbn; auto using tracks_delete.
Qed.

Lemma unused_unique e : unused e -∗ unused e -∗ False.
Proof. iIntros "[He _] [He' _]". by iDestruct (ghost_map_elem_ne with "He He'") as %?. Qed.

Lemma unused_allocated e n : unused e -∗ e ↦n n -∗ False.
Proof. iIntros "[He _] He'". by iDestruct (ghost_map_elem_ne with "He He'") as %?. Qed.

(** Owned entries are different and allocated. *)
Lemma names_size σ (els : list (Z * loc)) :
  state_interp σ -∗ ([∗ list] p ∈ els, p.2 ↦n p.1) -∗ ⌜(length els ≤ size (ite_name σ))%nat⌝.
Proof.
  iIntros "(%N & %P & HN & _ & _ & %HtN & _) Hels".
  iAssert ⌜NoDup els.*2⌝%I as %Hnd.
  { iClear "HN". iInduction els as [|[n e] els] "IH"; [iPureIntro; constructor|].
    iDestruct "Hels" as "[He Hels]". iDestruct ("IH" with "Hels") as %Hnd. rw fmap_cons NoDup_cons.
    iSplit; [|done]. iIntros ([[n' e'] [[= ->] Hin]]%list_elem_of_fmap).
    iDestruct (big_sepL_elem_of with "Hels") as "He'"; [done|].
    by iDestruct (ghost_map_elem_ne with "He He'") as %?. }
  iAssert ⌜∀ e, e ∈ els.*2 → e ∈ dom (ite_name σ)⌝%I as %Hin.
  { iIntros (e [[n e'] [-> Hin]]%list_elem_of_fmap).
    iDestruct (big_sepL_elem_of with "Hels") as "He"; [done|].
    iDestruct (ghost_map_lookup with "HN He") as %He. iPureIntro. apply elem_of_dom.
    by rw (HtN _ _ He). }
  iPureIntro. rw -(length_fmap snd els) -(size_list_to_set (C := gset loc)) //.
  rw -size_dom. apply subseteq_size. intros e. rw elem_of_list_to_set. apply Hin.
Qed.

End logic.

(** ** Adequacy *)

(** Everything a memory owns, with the addresses [Z] the zone may hand out. *)
Definition memory `{!ipcG Σ} (σ : ipc) (zone : gset loc) : iProp Σ :=
  ([∗ map] e ↦ n ∈ ite_name σ, e ↦n n) ∗ ([∗ map] c ↦ v ∈ ptr σ, c ↦ v) ∗
  ([∗ map] s ↦ T ∈ ist σ, s ↦t T) ∗ ([∗ set] e ∈ zone, unused e).

Lemma alloc_tracked {Σ K V} `{Countable K, !ghost_mapG Σ K (option V)} (m : gmap K V) (X : gset K) :
  (∀ k, k ∈ X → m !! k = None) →
  ⊢ |==> ∃ γ g, ghost_map_auth γ 1 g ∗ ⌜tracks m g⌝ ∗ ([∗ map] k ↦ v ∈ m, k ↪[γ] Some v) ∗
                [∗ set] k ∈ X, k ↪[γ] None.
Proof.
  intros HX. iMod (ghost_map_alloc ((Some <$> m) ∪ gset_to_gmap None X)) as (γ) "[Hg Hel]".
  iModIntro. iExists γ, _. iFrame "Hg". iSplit.
  - iPureIntro. intros k v. rw lookup_union lookup_fmap lookup_gset_to_gmap.
    destruct (m !! k) as [v'|] eqn:Hk; cbn.
    + by rw union_Some_l; intros [= <-].
    + by rw left_id; case_guard; intros [= <-].
  - rw big_sepM_union.
    + by rw big_sepM_fmap big_sepM_gset_to_gmap.
    + apply map_disjoint_spec. intros k v v'. rw lookup_fmap lookup_gset_to_gmap_Some.
      intros Hk [Hin _]. by rw (HX k Hin) in Hk.
Qed.

Lemma big_sepS_inj_map {PROP : bi} `{Countable A, Countable B} (f : A → B) `{!Inj (=) (=) f} (X : gset A) (Φ : B → PROP) :
  ([∗ set] y ∈ set_map (D := gset B) f X, Φ y) ⊣⊢ [∗ set] x ∈ X, Φ (f x).
Proof.
  induction X as [|x X Hx IH] using set_ind_L; [by rw set_map_empty !big_sepS_empty|].
  rw set_map_union_L set_map_singleton_L !big_sepS_insert ?IH //. set_solver.
Qed.

#[export] Instance Lchild_inj : Inj (=) (=) Lchild.
Proof. by intros ?? [=]. Qed.
#[export] Instance Rchild_inj : Inj (=) (=) Rchild.
Proof. by intros ?? [=]. Qed.
#[export] Instance Ltree_inj : Inj (=) (=) Ltree.
Proof. by intros ?? [=]. Qed.
#[export] Instance Rtree_inj : Inj (=) (=) Rtree.
Proof. by intros ?? [=]. Qed.

(** A proof in the logic from the memory of [σ] is a statement about the run. *)
Lemma iwp_adequacy {A} (m : M ipc A) σ (zone : gset loc) (φ : A → Prop) :
  (∀ e, e ∈ zone → ite_name σ !! e = None ∧ ptr σ !! Lchild e = None ∧ ptr σ !! Rchild e = None) →
  (∀ (H : ipcG ipcΣ), memory σ zone ⊢ iwp m (λ a, ⌜φ a⌝)) →
  wp m σ (λ a _, φ a).
Proof.
  intros Hzone Hm. apply (sbi.pure_soundness (PROP := iPropI ipcΣ)), uPred.bupd_soundness; [apply _|].
  iMod (alloc_tracked (ite_name σ) zone) as (γn N) "(HN & %HtN & Hnames & Hzn)"; [by intros e [? _]%Hzone|].
  iMod (alloc_tracked (ptr σ) (set_map Lchild zone ∪ set_map Rchild zone)) as (γp P) "(HP & %HtP & Hptrs & Hzp)".
  { intros c. set_solver. }
  iMod (ghost_map_alloc (ist σ)) as (γt) "[HT Htrees]".
  pose (G := IpcG ipcΣ _ _ _ γn γp γt).
  iDestruct (Hm G with "[Hnames Hptrs Htrees Hzn Hzp]") as "Hm".
  { iFrame. rw big_sepS_union; [|set_solver].
    rw !big_sepS_inj_map !big_sepS_sep. by iFrame. }
  iMod ("Hm" $! σ with "[HN HP HT]") as (a σ' Ha) "[_ %Hφ]"; [iExists _, _; by iFrame|].
  iPureIntro. by rw /wp Ha.
Qed.

#[global] Opaque iwp unused.

(** ** Entries in order *)

Definition below (n : Z) (els : list (Z * loc)) : Prop := Forall (λ p, p.1 < n) els.
Definition above (n : Z) (els : list (Z * loc)) : Prop := Forall (λ p, n < p.1) els.
Definition ascending (els : list (Z * loc)) : Prop := StronglySorted (λ p q, p.1 < q.1) els.

Lemma ascending_app a b :
  ascending (a ++ b) ↔ ascending a ∧ ascending b ∧ ∀ p q, p ∈ a → q ∈ b → p.1 < q.1.
Proof. rw /ascending StronglySorted_app. naive_solver. Qed.

Lemma ascending_mid a n e b :
  ascending (a ++ (n, e) :: b) ↔ ascending a ∧ ascending b ∧ below n a ∧ above n b ∧ ascending (a ++ b).
Proof.
  rw !ascending_app /ascending StronglySorted_cons /below /above !Forall_forall.
  setoid_rewrite elem_of_cons. naive_solver.
Qed.

Lemma ascending_filter (P : Z * loc → Prop) `{!∀ q, Decision (P q)} els : ascending els → ascending (filter P els).
Proof.
  rw /ascending. induction els as [|q els IH]; [done|]. intros [Hq Hels]%StronglySorted_cons.
  rw filter_cons. case_decide; [|by apply IH]. apply StronglySorted_cons. split; [|by apply IH].
  rw Forall_forall in Hq. rw Forall_forall. intros q' [_ Hin]%list_elem_of_filter. by apply Hq.
Qed.

Lemma below_mono n n' els : below n els → n ≤ n' → below n' els.
Proof. intros H ?. eapply Forall_impl; [done|]. cbn. lia. Qed.
Lemma above_mono n n' els : above n els → n' ≤ n → above n' els.
Proof. intros H ?. eapply Forall_impl; [done|]. cbn. lia. Qed.
Lemma below_app n a b : below n (a ++ b) ↔ below n a ∧ below n b.
Proof. apply Forall_app. Qed.
Lemma above_app n a b : above n (a ++ b) ↔ above n a ∧ above n b.
Proof. apply Forall_app. Qed.
Lemma below_cons n p a : below n (p :: a) ↔ p.1 < n ∧ below n a.
Proof. apply (Forall_cons (λ p, p.1 < n)). Qed.
Lemma above_cons n p a : above n (p :: a) ↔ n < p.1 ∧ above n a.
Proof. apply (Forall_cons (λ p, n < p.1)). Qed.
Lemma below_nil n : below n [].
Proof. constructor. Qed.
Lemma above_nil n : above n [].
Proof. constructor. Qed.
Lemma below_elem n els k e : below n els → (k, e) ∈ els → k < n.
Proof. intros H Hin. by apply (proj1 (Forall_forall _ _) H (k, e)). Qed.
Lemma above_elem n els k e : above n els → (k, e) ∈ els → n < k.
Proof. intros H Hin. by apply (proj1 (Forall_forall _ _) H (k, e)). Qed.

Create HintDb splay.
#[export] Hint Resolve below_mono above_mono below_nil above_nil Z.lt_le_incl Z.le_refl : splay.

(** ** Trees *)

Inductive tree := Leaf | Node (l : tree) (n : Z) (e : loc) (r : tree).

#[export] Instance tree_eq_dec : EqDecision tree.
Proof. solve_decision. Defined.

Definition root (t : tree) : option loc := match t with Leaf => None | Node _ _ e _ => Some e end.

Fixpoint inorder (t : tree) : list (Z * loc) :=
  match t with Leaf => [] | Node l n e r => inorder l ++ (n, e) :: inorder r end.

(** A left tree as the path along its right spine, from the hole up: each entry
    with its left subtree; and the mirror image. *)
Definition spine : Type := list (Z * loc * tree).

Fixpoint lplug (L : spine) (t : tree) : tree :=
  match L with [] => t | (n, e, l) :: L => lplug L (Node l n e t) end.
Fixpoint rplug (R : spine) (t : tree) : tree :=
  match R with [] => t | (n, e, r) :: R => rplug R (Node t n e r) end.

Fixpoint lelems (L : spine) : list (Z * loc) :=
  match L with [] => [] | (n, e, l) :: L => lelems L ++ inorder l ++ [(n, e)] end.
Fixpoint relems (R : spine) : list (Z * loc) :=
  match R with [] => [] | (n, e, r) :: R => (n, e) :: inorder r ++ relems R end.

(** The field the hole is in. *)
Definition lcell (b : cell) (L : spine) : cell := match L with [] => b | (_, e, _) :: _ => Rchild e end.
Definition rcell (b : cell) (R : spine) : cell := match R with [] => b | (_, e, _) :: _ => Lchild e end.

Lemma inorder_lplug L t : inorder (lplug L t) = lelems L ++ inorder t.
Proof. induction L as [|[[n e] l] L IH] in t |- *; cbn; [done|]. by rw IH /= -!app_assoc. Qed.
Lemma inorder_rplug R t : inorder (rplug R t) = inorder t ++ relems R.
Proof. induction R as [|[[n e] r] R IH] in t |- *; cbn; [by rw app_nil_r|]. by rw IH /= -!app_assoc. Qed.

Lemma root_node t : negb (is_null (root t)) = true → t ≠ Leaf.
Proof. by destruct t. Qed.
Lemma node_root t : t ≠ Leaf → is_null (root t) = false.
Proof. by destruct t. Qed.

(** A part of a tree has fewer entries. *)
Ltac shorter := cbn; repeat rw length_app /=; lia.

(** Where a search for [name] ends. *)
Definition settled (name : Z) (t : tree) : Prop :=
  match t with
  | Leaf => False
  | Node l n _ r => n = name ∨ (name < n ∧ l = Leaf) ∨ (n < name ∧ r = Leaf)
  end.

(** The entries [els], split around a middle tree that a search for [name] has
    reached. *)
Record searching (name : Z) (els : list (Z * loc)) (L : spine) (t : tree) (R : spine) : Prop := Searching {
  sr_elems : els = lelems L ++ inorder t ++ relems R;
  sr_ascending : ascending els;
  sr_below : below name (lelems L);
  sr_above : above name (relems R);
  sr_node : t ≠ Leaf;
}.

Lemma searching_link_right name els L l n e r R :
  searching name els L (Node l n e r) R → name < n → l ≠ Leaf → searching name els L l ((n, e, r) :: R).
Proof.
  intros [-> Hasc Hlo Hhi _] Hn Hl. split; [by rw /= -!app_assoc|done|done| |done].
  cbn in Hasc |- *. rw -!app_assoc !app_assoc -app_assoc in Hasc.
  apply ascending_mid in Hasc as (_ & _ & _ & Habove & _). apply above_cons; split; [done|].
  eauto with splay.
Qed.

Lemma searching_link_left name els L l n e r R :
  searching name els L (Node l n e r) R → n < name → r ≠ Leaf → searching name els ((n, e, l) :: L) r R.
Proof.
  intros [-> Hasc Hlo Hhi _] Hn Hr. split; [by rw /= -!app_assoc|done| |done|done].
  cbn in Hasc |- *. rw -!app_assoc !app_assoc -app_assoc in Hasc.
  apply ascending_mid in Hasc as (_ & _ & Hbelow & _). rw app_assoc below_app below_cons.
  repeat split; eauto with splay.
Qed.

Lemma searching_inorder name els L t t' R :
  searching name els L t R → inorder t' = inorder t → t' ≠ Leaf → searching name els L t' R.
Proof. intros [????] Heq ?. by split; rw ?Heq. Qed.

(** ** In memory *)

(** [istep rule "H"] runs the first action of a program, with what "H" owns. *)
Tactic Notation "istep" open_constr(rule) constr(Hs) :=
  iApply iwp_bind; iApply (rule with Hs); iIntros Hs.
Tactic Notation "iskip" := iApply iwp_bind; iApply iwp_ret.
Tactic Notation "iassert" := iApply iwp_bind; iApply iwp_assert.

Section trees.
Context `{!ipcG Σ}.
Implicit Types (t l r : tree) (L R : spine) (b : cell) (x y : option loc).

Definition node (e : loc) (n : Z) x y : iProp Σ := e ↦n n ∗ Lchild e ↦ x ∗ Rchild e ↦ y.

Fixpoint rep t : iProp Σ :=
  match t with
  | Leaf => True
  | Node l n e r => node e n (root l) (root r) ∗ rep l ∗ rep r
  end.

(** A spine that hangs off the field [b], with [x] in the hole. *)
Fixpoint lseg b L x : iProp Σ :=
  match L with
  | [] => b ↦ x
  | (n, e, l) :: L => node e n (root l) x ∗ rep l ∗ lseg b L (Some e)
  end.
Fixpoint rseg b R x : iProp Σ :=
  match R with
  | [] => b ↦ x
  | (n, e, r) :: R => node e n x (root r) ∗ rep r ∗ rseg b R (Some e)
  end.

Lemma lseg_hole b L x : lseg b L x -∗ lcell b L ↦ x ∗ (∀ y, lcell b L ↦ y -∗ lseg b L y).
Proof.
  destruct L as [|[[n e] l] L]; cbn; [iIntros "$" (y) "$"|].
  iIntros "((He & Hl & Hr) & Ht & H)". iFrame. iIntros (y) "?". iFrame.
Qed.
Lemma rseg_hole b R x : rseg b R x -∗ rcell b R ↦ x ∗ (∀ y, rcell b R ↦ y -∗ rseg b R y).
Proof.
  destruct R as [|[[n e] r] R]; cbn; [iIntros "$" (y) "$"|].
  iIntros "((He & Hl & Hr) & Ht & H)". iFrame. iIntros (y) "?". iFrame.
Qed.

Lemma lseg_plug b L t : lseg b L (root t) -∗ rep t -∗ b ↦ root (lplug L t) ∗ rep (lplug L t).
Proof.
  iInduction L as [|[[n e] l] L] "IH" forall (t); cbn; [iIntros; iFrame|].
  iIntros "(He & Hl & HL) Ht". iApply ("IH" $! (Node l n e t) with "HL"). iFrame.
Qed.
Lemma rseg_plug b R t : rseg b R (root t) -∗ rep t -∗ b ↦ root (rplug R t) ∗ rep (rplug R t).
Proof.
  iInduction R as [|[[n e] r] R] "IH" forall (t); cbn; [iIntros; iFrame|].
  iIntros "(He & Hr & HR) Ht". iApply ("IH" $! (Node t n e r) with "HR"). iFrame.
Qed.

Lemma rep_names t : rep t -∗ [∗ list] p ∈ inorder t, p.2 ↦n p.1.
Proof.
  iInduction t as [|l ? n e r] "IH"; cbn; [by iIntros|]. iIntros "((He & _) & Hl & Hr)".
  rw big_sepL_app /=. iFrame "He". iSplitL "Hl"; [by iApply "IH"|by iApply "IH1"].
Qed.

(** ** The steps of the splay *)

Lemma iwp_link_left b L x l n e r Q :
  lseg b L x -∗ rep (Node l n e r) -∗
  (lseg b ((n, e, l) :: L) (root r) -∗ rep r -∗ Q (root r, lcell b ((n, e, l) :: L))) -∗
  iwp (link_left (Some e) (lcell b L)) Q.
Proof.
  iIntros "HL ((He & Hl & Hr) & Htl & Htr) HQ". iDestruct (lseg_hole with "HL") as "[Hc HL]".
  istep iwp_write "Hc". istep iwp_nonnull "". istep iwp_read "Hr". iApply iwp_ret.
  iDestruct ("HL" with "Hc") as "HL". iApply ("HQ" with "[-Htr] Htr"). iFrame.
Qed.

Lemma iwp_link_right b R x l n e r Q :
  rseg b R x -∗ rep (Node l n e r) -∗
  (rseg b ((n, e, r) :: R) (root l) -∗ rep l -∗ Q (root l, rcell b ((n, e, r) :: R))) -∗
  iwp (link_right (Some e) (rcell b R)) Q.
Proof.
  iIntros "HR ((He & Hl & Hr) & Htl & Htr) HQ". iDestruct (rseg_hole with "HR") as "[Hc HR]".
  istep iwp_write "Hc". istep iwp_nonnull "". istep iwp_read "Hl". iApply iwp_ret.
  iDestruct ("HR" with "Hc") as "HR". iApply ("HQ" with "[-Htl] Htl"). iFrame.
Qed.

Lemma iwp_rotate_left t1 n e t2 n' e' t3 Q :
  rep (Node t1 n e (Node t2 n' e' t3)) -∗
  (rep (Node (Node t1 n e t2) n' e' t3) -∗ Q (Some e')) -∗ iwp (rotate_left (Some e)) Q.
Proof.
  iIntros "((He & Hl & Hr) & Ha & (He' & Hl' & Hr') & Hb & Hc) HQ".
  istep iwp_rchild "Hr". istep iwp_lchild "Hl'". istep iwp_put_rchild "Hr". istep iwp_put_lchild "Hl'".
  iApply iwp_ret. iApply "HQ". iFrame.
Qed.

Lemma iwp_rotate_right t1 n e t2 n' e' t3 Q :
  rep (Node (Node t1 n' e' t2) n e t3) -∗
  (rep (Node t1 n' e' (Node t2 n e t3)) -∗ Q (Some e')) -∗ iwp (rotate_right (Some e)) Q.
Proof.
  iIntros "((He & Hl & Hr) & ((He' & Hl' & Hr') & Ha & Hb) & Hc) HQ".
  istep iwp_lchild "Hl". istep iwp_rchild "Hr'". istep iwp_put_lchild "Hl". istep iwp_put_rchild "Hr'".
  iApply iwp_ret. iApply "HQ". iFrame.
Qed.

(** A condition that looks at a child. *)
Lemma iwp_has_lchild a e v Q :
  Lchild e ↦ v -∗ (Lchild e ↦ v -∗ Q (a && negb (is_null v))) -∗
  iwp (andthen a (l ← lchild (Some e); mret (negb (is_null l)))) Q.
Proof. iIntros "H HQ". destruct a; cbn; [istep iwp_lchild "H"|]; iApply iwp_ret; by iApply "HQ". Qed.
Lemma iwp_has_rchild a e v Q :
  Rchild e ↦ v -∗ (Rchild e ↦ v -∗ Q (a && negb (is_null v))) -∗
  iwp (andthen a (r ← rchild (Some e); mret (negb (is_null r)))) Q.
Proof. iIntros "H HQ". destruct a; cbn; [istep iwp_rchild "H"|]; iApply iwp_ret; by iApply "HQ". Qed.

(** One round of the search leaves a smaller middle tree. *)
Definition descended (name : Z) (els : list (Z * loc)) (bl br : cell) (t : tree) (p : option loc * cell * cell) : iProp Σ :=
  ∃ L' t' R' x y, ⌜p = (root t', lcell bl L', rcell br R')⌝ ∗ ⌜searching name els L' t' R'⌝ ∗
    ⌜(length (inorder t') < length (inorder t))%nat⌝ ∗ lseg bl L' x ∗ rseg br R' y ∗ rep t'.

Lemma iwp_descend_left name els bl br L l n e r R x y :
  searching name els L (Node l n e r) R → name < n → l ≠ Leaf →
  lseg bl L x -∗ rseg br R y -∗ rep (Node l n e r) -∗
  iwp (descend_left name (Some e) (root l) (lcell bl L) (rcell br R)) (descended name els bl br (Node l n e r)).
Proof.
  iIntros (Hs Hlt Hl) "HL HR ((He & Hl & Hr) & Htl & Htr)". destruct l as [|ll ln le lr]; [done|].
  iDestruct "Htl" as "((He' & Hl' & Hr') & Htll & Htlr)". cbn [root].
  istep iwp_name_of "He'". istep iwp_has_lchild "Hl'". iApply iwp_bind.
  destruct ((name <? ln) && negb (is_null (root ll))) eqn:Hzig.
  - apply andb_prop in Hzig as [Hln%Z.ltb_lt Hll%root_node].
    iApply (iwp_rotate_right ll n e lr ln le r with "[-HL HR]"); [by iFrame|].
    iIntros "Ht". iApply iwp_bind. iApply (iwp_link_right with "HR Ht"). iIntros "HR Ht". cbn beta iota.
    rw (proj2 (Z.ltb_ge ln name)); [|lia]. iskip. iskip. iApply iwp_ret.
    iExists L, ll, _, _, _. iFrame. iSplit; [done|]. iPureIntro. split; [|shorter].
    eapply searching_link_right; [|done..]. eapply searching_inorder; [done| |done]. cbn. by rw -!app_assoc.
  - iApply iwp_ret. iApply iwp_bind.
    iApply (iwp_link_right _ _ _ (Node ll ln le lr) n e r with "HR [-HL]"); [by iFrame|].
    iIntros "HR Ht". cbn [root]. apply searching_link_right in Hs; [|done..].
    iDestruct "Ht" as "((He' & Hl' & Hr') & Htll & Htlr)". istep iwp_has_rchild "Hr'". iApply iwp_bind.
    destruct ((ln <? name) && negb (is_null (root lr))) eqn:Hzag.
    + apply andb_prop in Hzag as [Hln%Z.ltb_lt Hlr%root_node].
      iApply (iwp_link_left _ _ _ ll ln le lr with "HL [-HR]"); [by iFrame|].
      iIntros "HL Ht". cbn beta iota. iApply iwp_ret. iExists _, lr, _, _, _. iFrame. iSplit; [done|].
      iPureIntro. split; [by apply searching_link_left|shorter].
    + iApply iwp_ret. cbn beta iota. iApply iwp_ret. iExists L, (Node ll ln le lr), _, _, _. iFrame.
      iSplit; [done|]. iPureIntro. split; [done|shorter].
Qed.

Lemma iwp_descend_right name els bl br L l n e r R x y :
  searching name els L (Node l n e r) R → n < name → r ≠ Leaf →
  lseg bl L x -∗ rseg br R y -∗ rep (Node l n e r) -∗
  iwp (descend_right name (Some e) (root r) (lcell bl L) (rcell br R)) (descended name els bl br (Node l n e r)).
Proof.
  iIntros (Hs Hlt Hr) "HL HR ((He & Hl & Hr) & Htl & Htr)". destruct r as [|rl rn re rr]; [done|].
  iDestruct "Htr" as "((He' & Hl' & Hr') & Htrl & Htrr)". cbn [root].
  istep iwp_name_of "He'". istep iwp_has_rchild "Hr'". iApply iwp_bind.
  destruct ((rn <? name) && negb (is_null (root rr))) eqn:Hzig.
  - apply andb_prop in Hzig as [Hrn%Z.ltb_lt Hrr%root_node].
    iApply (iwp_rotate_left l n e rl rn re rr with "[-HL HR]"); [by iFrame|].
    iIntros "Ht". iApply iwp_bind. iApply (iwp_link_left with "HL Ht"). iIntros "HL Ht". cbn beta iota.
    rw (proj2 (Z.ltb_ge name rn)); [|lia]. iskip. iskip. iApply iwp_ret.
    iExists _, rr, R, _, _. iFrame. iSplit; [done|]. iPureIntro. split; [|shorter].
    eapply searching_link_left; [|done..]. eapply searching_inorder; [done| |done]. cbn. by rw -!app_assoc.
  - iApply iwp_ret. iApply iwp_bind.
    iApply (iwp_link_left _ _ _ l n e (Node rl rn re rr) with "HL [-HR]"); [by iFrame|].
    iIntros "HL Ht". cbn [root]. apply searching_link_left in Hs; [|done..].
    iDestruct "Ht" as "((He' & Hl' & Hr') & Htrl & Htrr)". istep iwp_has_lchild "Hl'". iApply iwp_bind.
    destruct ((name <? rn) && negb (is_null (root rl))) eqn:Hzag.
    + apply andb_prop in Hzag as [Hrn%Z.ltb_lt Hrl%root_node].
      iApply (iwp_link_right _ _ _ rl rn re rr with "HR [-HL]"); [by iFrame|].
      iIntros "HR Ht". cbn beta iota. iApply iwp_ret. iExists _, rl, _, _, _. iFrame. iSplit; [done|].
      iPureIntro. split; [by apply searching_link_right|shorter].
    + iApply iwp_ret. cbn beta iota. iApply iwp_ret. iExists _, (Node rl rn re rr), R, _, _. iFrame.
      iSplit; [done|]. iPureIntro. split; [done|shorter].
Qed.

Lemma iwp_prim_lookup_loop fuel name els bl br L t R x y Q :
  searching name els L t R → (length (inorder t) < fuel)%nat →
  lseg bl L x -∗ rseg br R y -∗ rep t -∗
  (∀ L t R x y, ⌜searching name els L t R⌝ -∗ ⌜settled name t⌝ -∗
     lseg bl L x -∗ rseg br R y -∗ rep t -∗ Q (root t, lcell bl L, rcell br R)) -∗
  iwp (prim_lookup_loop fuel name (root t) (lcell bl L) (rcell br R)) Q.
Proof.
  iIntros (Hs Hfuel) "HL HR Ht HQ". iInduction fuel as [|fuel] "IH" forall (L t R x y Hs Hfuel); [lia|].
  destruct t as [|l n e r]; [by destruct Hs|]. cbn [prim_lookup_loop root].
  iDestruct "Ht" as "((He & Hl & Hr) & Htl & Htr)". istep iwp_name_of "He".
  destruct (Z.eqb_spec name n) as [->|Hne].
  { iApply iwp_ret. iApply ("HQ" $! L (Node l n e r) R with "[//] [] HL HR"); [by iPureIntro; left|iFrame]. }
  destruct (Z.ltb_spec name n) as [Hlt|Hge].
  - istep iwp_lchild "Hl". destruct l as [|ll ln le lr]; cbn [root is_null].
    { iApply iwp_ret. iApply ("HQ" $! L (Node Leaf n e r) R with "[//] [] HL HR"); [|iFrame].
      iPureIntro. by right; left. }
    iApply iwp_bind. iApply (iwp_wand with "[-HQ]").
    { iApply (iwp_descend_left _ els bl br L (Node ll ln le lr) n e r R with "HL HR"); [done..|]. by iFrame. }
    iIntros (p) "(%L' & %t' & %R' & %x' & %y' & -> & %Hs' & %Hlen & HL & HR & Ht)".
    iassert; [by rw (node_root t'); [|destruct Hs']|].
    iApply ("IH" with "[//] [] HL HR Ht HQ"). iPureIntro. lia.
  - istep iwp_rchild "Hr". destruct r as [|rl rn re rr]; cbn [root is_null].
    { iApply iwp_ret. iApply ("HQ" $! L (Node l n e Leaf) R with "[//] [] HL HR"); [|iFrame].
      iPureIntro. right; right. split; [lia|done]. }
    iApply iwp_bind. iApply (iwp_wand with "[-HQ]").
    { iApply (iwp_descend_right _ els bl br L l n e (Node rl rn re rr) R with "HL HR"); [done|lia|done|]. by iFrame. }
    iIntros (p) "(%L' & %t' & %R' & %x' & %y' & -> & %Hs' & %Hlen & HL & HR & Ht)".
    iassert; [by rw (node_root t'); [|destruct Hs']|].
    iApply ("IH" with "[//] [] HL HR Ht HQ"). iPureIntro. lia.
Qed.

Lemma iwp_prim_lookup name bl br t x y Q :
  ascending (inorder t) → t ≠ Leaf →
  bl ↦ x -∗ br ↦ y -∗ rep t -∗
  (∀ L t' R x y, ⌜searching name (inorder t) L t' R⌝ -∗ ⌜settled name t'⌝ -∗
     lseg bl L x -∗ rseg br R y -∗ rep t' -∗ Q (root t', lcell bl L, rcell br R)) -∗
  iwp (ipc_splay_prim_lookup name (root t) bl br) Q.
Proof.
  iIntros (Hasc Ht) "Hl Hr Ht HQ". iassert; [by rw node_root|].
  iApply iwp_bind. iApply (iwp_gets _ (λ fuel, length (inorder t) < fuel)%nat). iSplit.
  - iIntros (σ) "Hσ". iDestruct (rep_names with "Ht") as "Ht".
    iDestruct (names_size with "Hσ Ht") as %?. iPureIntro. lia.
  - iIntros (fuel Hfuel). iApply (iwp_prim_lookup_loop _ _ (inorder t) bl br [] t [] with "Hl Hr Ht HQ"); [|done].
    split; [by rw /= app_nil_r|done|apply below_nil|apply above_nil|done].
Qed.

Lemma iwp_prim_assemble bl br L l n e r R x y Q :
  lseg bl L x -∗ rseg br R y -∗ rep (Node l n e r) -∗
  (∀ x y, bl ↦ x -∗ br ↦ y -∗ rep (Node (lplug L l) n e (rplug R r)) -∗ Q ()) -∗
  iwp (ipc_splay_prim_assemble (Some e) bl (lcell bl L) br (rcell br R)) Q.
Proof.
  iIntros "HL HR ((He & Hl & Hr) & Htl & Htr) HQ". iassert; [done|].
  iDestruct (lseg_hole with "HL") as "[Hc HL]". istep iwp_lchild "Hl". istep iwp_write "Hc".
  iDestruct (rseg_hole with "HR") as "[Hd HR]". istep iwp_rchild "Hr". istep iwp_write "Hd".
  iDestruct (lseg_plug with "(HL Hc) Htl") as "[Hbl Htl]". iDestruct (rseg_plug with "(HR Hd) Htr") as "[Hbr Htr]".
  istep iwp_read "Hbl". istep iwp_put_lchild "Hl". istep iwp_read "Hbr".
  iApply (iwp_put_rchild with "Hr"). iIntros "Hr". iApply ("HQ" with "Hbl Hbr"). iFrame.
Qed.

Lemma inorder_assembled L l n e r R :
  inorder (Node (lplug L l) n e (rplug R r)) = lelems L ++ inorder (Node l n e r) ++ relems R.
Proof. by rw /= inorder_lplug inorder_rplug -!app_assoc. Qed.

End trees.
