(* ===== verification/IpcSplayOps.v ===== *)
(** * xnu splay trees of port names: the operations

    What a tree structure owns in memory, as the ascending list of its entries, and
    the effect of every operation of ipc_splay.c on that list. *)

From iris.proofmode Require Import proofmode.
From iris.base_logic.lib Require Import ghost_map.
From stdpp Require Import sorting.
From S2P Require Import Prelude IpcSplay IpcSplayTree.

Import Splay.

(** ** What a finished search says *)

Definition name_ok (n : Z) : Prop := MACH_PORT_SMALLEST ≤ n ≤ MACH_PORT_LARGEST.
Definition names_ok (els : list (Z * loc)) : Prop := Forall (λ p, name_ok p.1) els.

(** The entries around a name that is found, or is not. *)
Lemma search_found name els L l n e r R :
  searching name els L (Node l n e r) R → n = name →
  els = (lelems L ++ inorder l) ++ (name, e) :: inorder r ++ relems R ∧
  below name (lelems L ++ inorder l) ∧ above name (inorder r ++ relems R).
Proof.
  intros [Hels Hasc _ _ _] ->. cbn in Hels. rw -!app_assoc !app_assoc -app_assoc in Hels. subst els.
  by apply ascending_mid in Hasc as (_ & _ & ? & ? & _).
Qed.

Lemma search_before name els L l n e r R :
  searching name els L (Node l n e r) R → settled name (Node l n e r) → name < n →
  l = Leaf ∧ els = lelems L ++ (n, e) :: inorder r ++ relems R ∧ below name (lelems L) ∧
  above name ((n, e) :: inorder r ++ relems R).
Proof.
  intros [Hels Hasc Hlo _ _] [?|[[_ ->]|[? _]]] Hn; [lia| |lia]. subst els. repeat split; [done|].
  apply ascending_mid in Hasc as (_ & _ & _ & ? & _). apply above_cons. split; eauto with splay.
Qed.

Lemma search_after name els L l n e r R :
  searching name els L (Node l n e r) R → settled name (Node l n e r) → n < name →
  r = Leaf ∧ els = (lelems L ++ inorder l ++ [(n, e)]) ++ relems R ∧ below name (lelems L ++ inorder l ++ [(n, e)]) ∧
  above name (relems R).
Proof.
  intros [Hels Hasc _ Hhi _] [?|[[? _]|[_ ->]]] Hn; [lia|lia|]. cbn in Hels. rw -!app_assoc in Hels.
  subst els. rw -!app_assoc. repeat split; [|done]. rw app_assoc in Hasc.
  apply ascending_mid in Hasc as (_ & _ & ? & _). rw app_assoc below_app below_cons.
  repeat split; eauto with splay.
Qed.

Lemma names_ok_app a b : names_ok (a ++ b) ↔ names_ok a ∧ names_ok b.
Proof. apply Forall_app. Qed.

(** A new entry between the smaller and the greater ones. *)
Lemma ascending_insert lo n e hi :
  ascending (lo ++ hi) → below n lo → above n hi → ascending (lo ++ (n, e) :: hi).
Proof. intros Hasc ??. destruct (proj1 (ascending_app _ _) Hasc) as (?&?&_). by apply ascending_mid. Qed.
Lemma names_ok_insert lo n e hi : names_ok (lo ++ hi) → name_ok n → names_ok (lo ++ (n, e) :: hi).
Proof. rw !names_ok_app. intros [??] ?. split; [done|]. by constructor. Qed.

(** A search for the last or the first possible name. *)
Lemma above_largest els : above MACH_PORT_LARGEST els → names_ok els → els = [].
Proof.
  destruct els as [|[n e] els]; [done|]. intros [? _]%above_cons [[_ ?] _]%Forall_cons. cbn in *. lia.
Qed.
Lemma below_smallest els : below MACH_PORT_SMALLEST els → names_ok els → els = [].
Proof.
  destruct els as [|[n e] els]; [done|]. intros [? _]%below_cons [[? _] _]%Forall_cons. cbn in *. lia.
Qed.
Lemma inorder_nil t : inorder t = [] → t = Leaf.
Proof. destruct t; [done|]. by intros [_ [=]]%app_eq_nil. Qed.

Lemma search_names_ok name els L l n e r R :
  searching name els L (Node l n e r) R → names_ok els →
  names_ok (lelems L ++ inorder l) ∧ name_ok n ∧ names_ok (inorder r ++ relems R).
Proof.
  intros [-> _ _ _ _] Hok. change (inorder (Node l n e r)) with (inorder l ++ [(n, e)] ++ inorder r) in Hok.
  rw -!app_assoc app_assoc in Hok. apply names_ok_app in Hok as [? [[? _]%Forall_cons ?]%names_ok_app]. done.
Qed.

Lemma search_largest els L l n e r R :
  searching MACH_PORT_LARGEST els L (Node l n e r) R → settled MACH_PORT_LARGEST (Node l n e r) → names_ok els →
  r = Leaf ∧ R = [].
Proof.
  intros Hs Ht Hok. assert (above MACH_PORT_LARGEST (inorder r ++ relems R)) as Hhi.
  { apply above_app. split; [|apply Hs]. destruct Ht as [Heq|[[Hlt _]|[_ ->]]]; [| |apply above_nil].
    - destruct (search_found _ _ _ _ _ _ _ _ Hs Heq) as (_ & _ & [? _]%above_app). done.
    - destruct (search_names_ok _ _ _ _ _ _ _ _ Hs Hok) as (_ & [_ ?] & _). lia. }
  assert (inorder r ++ relems R = []) as [Hr HR]%app_eq_nil.
  { apply above_largest; [done|]. by eapply search_names_ok. }
  split; [by apply inorder_nil|]. by destruct R as [|[[??]?] ?].
Qed.

Lemma search_smallest els L l n e r R :
  searching MACH_PORT_SMALLEST els L (Node l n e r) R → settled MACH_PORT_SMALLEST (Node l n e r) → names_ok els →
  l = Leaf ∧ L = [].
Proof.
  intros Hs Ht Hok. assert (below MACH_PORT_SMALLEST (lelems L ++ inorder l)) as Hlo.
  { apply below_app. split; [apply Hs|]. destruct Ht as [Heq|[[_ ->]|[Hlt _]]]; [|apply below_nil|].
    - destruct (search_found _ _ _ _ _ _ _ _ Hs Heq) as (_ & [_ ?]%below_app & _). done.
    - destruct (search_names_ok _ _ _ _ _ _ _ _ Hs Hok) as (_ & [? _] & _). lia. }
  assert (lelems L ++ inorder l = []) as [HL Hl]%app_eq_nil.
  { apply below_smallest; [done|]. by eapply search_names_ok. }
  split; [by apply inorder_nil|]. destruct L as [|[[??]?] ?]; [done|]. cbn in HL.
  by apply app_eq_nil in HL as [_ [_ [=]]%app_eq_nil].
Qed.

(** ** The entries as a map *)

Definition tmap (els : list (Z * loc)) : gmap Z loc := list_to_map els.

Lemma tmap_app a b : tmap (a ++ b) = tmap a ∪ tmap b.
Proof. apply list_to_map_app. Qed.

Lemma tmap_below n els : below n els → ∀ k, n ≤ k → tmap els !! k = None.
Proof.
  intros Hlo k Hk. apply not_elem_of_list_to_map_1. intros [[m e] [-> Hin]]%list_elem_of_fmap.
  eapply below_elem in Hin; [|done]. cbn in Hk. lia.
Qed.

Lemma tmap_above n els : above n els → ∀ k, k ≤ n → tmap els !! k = None.
Proof.
  intros Hhi k Hk. apply not_elem_of_list_to_map_1. intros [[m e] [-> Hin]]%list_elem_of_fmap.
  eapply above_elem in Hin; [|done]. cbn in Hk. lia.
Qed.

Lemma tmap_absent n lo hi : below n lo → above n hi → tmap (lo ++ hi) !! n = None.
Proof. intros. rw tmap_app lookup_union_None. by split; [eapply tmap_below|eapply tmap_above]. Qed.

Lemma tmap_mid n e lo hi : below n lo → tmap (lo ++ (n, e) :: hi) = <[n := e]> (tmap (lo ++ hi)).
Proof. intros. rw !tmap_app /= -insert_union_r //. by eapply tmap_below. Qed.

Lemma tmap_delete n e lo hi : below n lo → above n hi → delete n (tmap (lo ++ (n, e) :: hi)) = tmap (lo ++ hi).
Proof. intros. rw tmap_mid // delete_insert_id //. by apply tmap_absent. Qed.

Lemma tmap_lookup n e els : ascending els → tmap els !! n = Some e ↔ (n, e) ∈ els.
Proof.
  intros Hasc. symmetry. apply elem_of_list_to_map. induction els as [|[m f] els IH]; [constructor|].
  apply StronglySorted_cons in Hasc as [Hm Hasc]. apply NoDup_cons. split; [|by apply IH].
  intros [[k g] [Hk Hin]]%list_elem_of_fmap. pose proof (proj1 (Forall_forall _ _) Hm _ Hin). cbn in *. lia.
Qed.

(** The greatest name at or below a name, and the least one at or above it. *)
Definition is_lower (m : gmap Z loc) (name lo : Z) : Prop :=
  lo ≤ name ∧ is_Some (m !! lo) ∧ (∀ k, is_Some (m !! k) → k ≤ name → k ≤ lo) ∨
  lo = MACH_PORT_LARGEST ∧ (∀ k, is_Some (m !! k) → name < k).
Definition is_upper (m : gmap Z loc) (name hi : Z) : Prop :=
  name ≤ hi ∧ is_Some (m !! hi) ∧ (∀ k, is_Some (m !! k) → name ≤ k → hi ≤ k) ∨
  hi = MACH_PORT_SMALLEST ∧ (∀ k, is_Some (m !! k) → k < name).

Lemma tmap_dom els k : ascending els → is_Some (tmap els !! k) ↔ ∃ e, (k, e) ∈ els.
Proof. intros Hasc. by split; intros [e He]; exists e; apply (tmap_lookup _ _ _ Hasc). Qed.

Lemma is_lower_mid name lo k e hi :
  ascending (lo ++ (k, e) :: hi) → k ≤ name → above name hi → is_lower (tmap (lo ++ (k, e) :: hi)) name k.
Proof.
  intros Hasc Hk Hhi. left. repeat split; [done| |].
  - apply tmap_dom; [done|]. exists e. set_solver.
  - intros j [f Hin]%tmap_dom Hj; [|done]. apply ascending_mid in Hasc as (_ & _ & Hlo & _).
    apply elem_of_app in Hin as [Hin%(below_elem _ _ _ _ Hlo)|[[= -> ->]|Hin%(above_elem _ _ _ _ Hhi)]%elem_of_cons]; lia.
Qed.

Lemma is_upper_mid name lo k e hi :
  ascending (lo ++ (k, e) :: hi) → name ≤ k → below name lo → is_upper (tmap (lo ++ (k, e) :: hi)) name k.
Proof.
  intros Hasc Hk Hlo. left. repeat split; [done| |].
  - apply tmap_dom; [done|]. exists e. set_solver.
  - intros j [f Hin]%tmap_dom Hj; [|done]. apply ascending_mid in Hasc as (_ & _ & _ & Hhi & _).
    apply elem_of_app in Hin as [Hin%(below_elem _ _ _ _ Hlo)|[[= -> ->]|Hin%(above_elem _ _ _ _ Hhi)]%elem_of_cons]; lia.
Qed.

Lemma is_lower_none name els : ascending els → above name els → is_lower (tmap els) name MACH_PORT_LARGEST.
Proof.
  intros Hasc Hhi. right. split; [done|]. intros k [e Hin]%tmap_dom; [|done].
  by eapply above_elem.
Qed.

Lemma is_upper_none name els : ascending els → below name els → is_upper (tmap els) name MACH_PORT_SMALLEST.
Proof.
  intros Hasc Hlo. right. split; [done|]. intros k [e Hin]%tmap_dom; [|done].
  by eapply below_elem.
Qed.

(** ** Tree structures *)

Section ops.
Context `{!ipcG Σ}.
Implicit Types (s : sid) (T : ipc_splay_tree) (t : tree) (L R : spine) (x y : option loc).

(** A structure whose fields are those of a search that has stopped at [t]. *)
Definition unassembled s T L t R : iProp Σ :=
  ⌜ist_ltreep T = lcell (Ltree s) L⌝ ∗ ⌜ist_rtreep T = rcell (Rtree s) R⌝ ∗ s ↦t T ∗
  (∃ x, lseg (Ltree s) L x) ∗ (∃ y, rseg (Rtree s) R y) ∗ rep t.

(** The fields of a structure. *)
Definition fields s T : iProp Σ := s ↦t T ∗ (∃ x, Ltree s ↦ x) ∗ (∃ y, Rtree s ↦ y).

Definition splay s (els : list (Z * loc)) : iProp Σ :=
  ∃ T, ⌜ascending els⌝ ∗ ⌜names_ok els⌝ ∗
    (⌜ist_root T = None⌝ ∗ ⌜els = []⌝ ∗ fields s T ∨
     ∃ L t R, ⌜ist_root T = root t⌝ ∗ ⌜searching (ist_name T) els L t R⌝ ∗ ⌜settled (ist_name T) t⌝ ∗
       unassembled s T L t R).

Lemma splay_assembled s T t x y :
  ascending (inorder t) → names_ok (inorder t) → ist_root T = root t →
  (∀ l n e r, t = Node l n e r → ist_name T = n ∧ ist_ltreep T = Ltree s ∧ ist_rtreep T = Rtree s) →
  s ↦t T -∗ Ltree s ↦ x -∗ Rtree s ↦ y -∗ rep t -∗ splay s (inorder t).
Proof.
  iIntros (Hasc Hok Hroot HT) "Hs Hl Hr Ht". iExists T. iSplit; [done|]. iSplit; [done|].
  destruct t as [|l n e r]; [iLeft; by iFrame|iRight].
  destruct (HT l n e r) as (Hn & Hlt & Hrt); [done|]. iExists [], (Node l n e r), []. iSplit; [done|].
  iSplit; [|iSplit; [by iPureIntro; left|by iFrame]]. iPureIntro.
  split; [by rw /= app_nil_r|done|apply below_nil|apply above_nil|done].
Qed.

Lemma splay_empty s T : ist_root T = None → fields s T -∗ splay s [].
Proof.
  iIntros (?) "(Hs & [%x Hl] & [%y Hr])". by iApply (splay_assembled s T Leaf with "Hs Hl Hr"); [constructor|constructor|..].
Qed.

Lemma iwp_init s T Q : fields s T -∗ (splay s [] -∗ Q ()) -∗ iwp (ipc_splay_tree_init s) Q.
Proof.
  iIntros "(Hs & Hlr) HQ". iApply (iwp_upd_tree with "Hs"). iIntros "Hs". iApply "HQ".
  iApply splay_empty; [|iFrame "Hs Hlr"]. done.
Qed.

Lemma iwp_assembled s T Q :
  s ↦t T -∗ (s ↦t Ist (ist_name T) (ist_root T) (Ltree s) (Rtree s) -∗ Q ()) -∗ iwp (assembled s) Q.
Proof. iIntros "Hs HQ". istep iwp_upd_tree "Hs". by iApply (iwp_upd_tree with "Hs"). Qed.

Lemma iwp_settle s T t x y Q :
  ascending (inorder t) → names_ok (inorder t) →
  s ↦t T -∗ Ltree s ↦ x -∗ Rtree s ↦ y -∗ rep t -∗ (splay s (inorder t) -∗ Q ()) -∗ iwp (settle s (root t)) Q.
Proof.
  iIntros (Hasc Hok) "Hs Hl Hr Ht HQ". istep iwp_upd_tree "Hs".
  destruct t as [|l n e r]; cbn [is_null root].
  - iApply iwp_ret. iApply "HQ". iApply splay_empty; [|by iFrame "Hs Hl Hr"]. done.
  - iDestruct "Ht" as "((He & Ht1) & Ht2)". istep iwp_name_of "He". istep iwp_upd_tree "Hs".
    iApply (iwp_assembled with "Hs"). iIntros "Hs". iApply "HQ".
    iApply (splay_assembled _ _ (Node l n e r) with "Hs Hl Hr"); [done..| |by iFrame].
    by intros ???? [= -> -> -> ->].
Qed.

(** ** The search of every operation *)

Lemma iwp_assemble s T L l n e r R els Q :
  els = lelems L ++ inorder (Node l n e r) ++ relems R →
  unassembled s T L (Node l n e r) R -∗
  (∀ l' r' x y, ⌜inorder (Node l' n e r') = els⌝ -∗ s ↦t T -∗ Ltree s ↦ x -∗ Rtree s ↦ y -∗
     rep (Node l' n e r') -∗ Q ()) -∗
  iwp (ipc_splay_prim_assemble (Some e) (Ltree s) (ist_ltreep T) (Rtree s) (ist_rtreep T)) Q.
Proof.
  iIntros (->) "(-> & -> & Hs & [%x HL] & [%y HR] & Ht) HQ". iApply (iwp_prim_assemble with "HL HR Ht").
  iIntros (x' y') "Hl Hr Ht". iApply ("HQ" with "[] Hs Hl Hr Ht"). iPureIntro. apply inorder_assembled.
Qed.

Lemma iwp_splay_to s name els T L t R Q :
  searching (ist_name T) els L t R → settled (ist_name T) t →
  unassembled s T L t R -∗
  (∀ T' L' t' R', ⌜searching name els L' t' R'⌝ -∗ ⌜settled name t'⌝ -∗
     ⌜ist_name T' = ist_name T ∧ ist_root T' = ist_root T ∧ (ist_name T = name → root t' = root t)⌝ -∗
     unassembled s T' L' t' R' -∗ Q (root t')) -∗
  iwp (splay_to s name (root t)) Q.
Proof.
  iIntros (Hs Ht) "(%Hlt & %Hrt & Hs & HLR) HQ". istep iwp_tree_of "Hs".
  destruct (Z.eqb_spec (ist_name T) name) as [<-|Hne].
  { iApply iwp_ret. iApply ("HQ" $! T L t R with "[//] [//] [//]"). by iFrame. }
  destruct t as [|l n e r]; [done|]. iApply iwp_bind. cbn [root].
  iApply (iwp_assemble _ _ L l n e r R els with "[Hs HLR]"); [apply Hs|by iFrame|].
  iIntros (l' r' x y Hels) "Hs Hl Hr Ht". iApply iwp_bind.
  iApply (iwp_prim_lookup name _ _ (Node l' n e r') with "Hl Hr Ht"); [rw Hels; apply Hs|done|].
  iIntros (L' t' R' x' y' Hs' Ht') "HL HR Ht". rw Hels in Hs'. cbn beta iota.
  istep iwp_upd_tree "Hs". istep iwp_upd_tree "Hs". iApply iwp_ret.
  iApply ("HQ" with "[//] [//] []"); [|by iFrame "Hs"; iFrame]. by iPureIntro.
Qed.

Lemma splay_intro s T L t R els :
  names_ok els → ist_root T = root t → searching (ist_name T) els L t R → settled (ist_name T) t →
  unassembled s T L t R -∗ splay s els.
Proof.
  iIntros (Hok Hroot Hs Ht) "H". iExists T. iSplit; [iPureIntro; apply Hs|]. iSplit; [done|]. iRight. by iFrame.
Qed.

Lemma iwp_tree_of_unassembled s T L t R Q :
  unassembled s T L t R -∗ (unassembled s T L t R -∗ Q T) -∗ iwp (tree_of s) Q.
Proof.
  iIntros "(? & ? & Hs & H) HQ". iApply (iwp_tree_of with "Hs"). iIntros "Hs". iApply "HQ". iFrame.
Qed.

Lemma iwp_root_name s T L l n e r R Q :
  unassembled s T L (Node l n e r) R -∗ (unassembled s T L (Node l n e r) R -∗ Q n) -∗ iwp (name_of (Some e)) Q.
Proof.
  iIntros "(? & ? & Hs & HL & HR & (He & Hlr) & Ht) HQ". iApply (iwp_name_of with "He"). iIntros "He".
  iApply "HQ". iFrame.
Qed.

(** Open a tree: the list is empty, or there is a root and the rest of the program
    runs with it. *)
Lemma iwp_open {A} s els (f : ipc_splay_tree → M ipc A) Q :
  splay s els -∗
  (∀ T, ⌜ist_root T = None⌝ -∗ ⌜els = []⌝ -∗ fields s T -∗ iwp (f T) Q) ∧
  (∀ T L t R, ⌜ist_root T = root t⌝ -∗ ⌜searching (ist_name T) els L t R⌝ -∗ ⌜settled (ist_name T) t⌝ -∗
     ⌜names_ok els⌝ -∗ unassembled s T L t R -∗ iwp (f T) Q) -∗
  iwp (tree_of s ≫= f) Q.
Proof.
  iIntros "(%T & %Hasc & %Hok & [(%Hroot & -> & Hs & Hlr)|(%L & %t & %R & %Hroot & %Hs & %Ht & H)]) HQ".
  - istep iwp_tree_of "Hs". iDestruct "HQ" as "[HQ _]". iApply ("HQ" with "[//] [//]"). by iFrame.
  - istep iwp_tree_of_unassembled "H". iDestruct "HQ" as "[_ HQ]". by iApply ("HQ" with "[//] [//] [//] [//]").
Qed.

(** ** Lookups *)

Lemma search_lookup name els L l n e r R :
  searching name els L (Node l n e r) R → settled name (Node l n e r) →
  tmap els !! name = if name =? n then Some e else None.
Proof.
  intros Hs Ht. destruct (Z.eqb_spec name n) as [->|Hne].
  - destruct (search_found _ _ _ _ _ _ _ _ Hs eq_refl) as (-> & Hlo & _). by rw tmap_mid // lookup_insert_eq.
  - destruct (decide (name < n)).
    + destruct (search_before _ _ _ _ _ _ _ _ Hs Ht) as (_ & -> & ? & ?); [done|]. by apply tmap_absent.
    + destruct (search_after _ _ _ _ _ _ _ _ Hs Ht) as (_ & -> & ? & ?); [lia|]. by apply tmap_absent.
Qed.

Lemma iwp_remember s name T L t R Q :
  (ist_name T = name → ist_root T = root t) →
  unassembled s T L t R -∗
  (∀ T', ⌜ist_name T' = name⌝ -∗ ⌜ist_root T' = root t⌝ -∗ unassembled s T' L t R -∗ Q ()) -∗
  iwp (remember s name (root t)) Q.
Proof.
  iIntros (Hroot) "H HQ". istep iwp_tree_of_unassembled "H". destruct (Z.eqb_spec (ist_name T) name) as [Hn|Hn].
  - iApply iwp_ret. iApply ("HQ" with "[//] [] H"). auto.
  - iDestruct "H" as "(%Hl & %Hr & Hs & H)". istep iwp_upd_tree "Hs". iApply (iwp_upd_tree with "Hs").
    iIntros "Hs". iApply "HQ"; [| |iFrame "Hs"; by iFrame]; done.
Qed.

(** What lookup and bounds do first. *)
Lemma iwp_search {A} s name els T L t R (f : option loc → M ipc A) Q :
  ist_root T = root t → searching (ist_name T) els L t R → settled (ist_name T) t →
  unassembled s T L t R -∗
  (∀ T L l n e r R, ⌜ist_name T = name⌝ -∗ ⌜ist_root T = Some e⌝ -∗ ⌜searching name els L (Node l n e r) R⌝ -∗
     ⌜settled name (Node l n e r)⌝ -∗ unassembled s T L (Node l n e r) R -∗ iwp (f (Some e)) Q) -∗
  iwp (root ← splay_to s name (root t); _ ← remember s name root; f root) Q.
Proof.
  iIntros (Hroot Hs Ht) "H HQ". iApply iwp_bind. iApply (iwp_splay_to with "H"); [done..|].
  iIntros (T' L' t' R' Hs' Ht' (Hn & Hr & Heq)) "H". iApply iwp_bind. iApply (iwp_remember with "H").
  { intros Hname. rw Hr Hroot. symmetry. apply Heq. by rw -Hn. }
  iIntros (T2 Hn2 Hr2) "H". destruct t' as [|l n e r]; [done|]. by iApply ("HQ" with "[//] [//] [//] [//] H").
Qed.

Lemma iwp_lookup s els name Q :
  splay s els -∗ (splay s els -∗ Q (tmap els !! name)) -∗ iwp (ipc_splay_tree_lookup s name) Q.
Proof.
  iIntros "H HQ". iApply (iwp_open with "H"). iSplit.
  - iIntros (T Hroot ->) "H". rw Hroot. iApply iwp_ret. iApply "HQ"; [..|by iApply (splay_empty with "H")]; done.
  - iIntros (T L t R Hroot Hs Ht Hok) "H". rw Hroot node_root; [|apply Hs].
    iApply (iwp_search with "H"); [done..|]. iIntros (T' L' l n e r R' <- Hroot' Hs' Ht') "H".
    istep iwp_root_name "H". iApply iwp_ret. rw -(search_lookup _ _ _ _ _ _ _ _ Hs' Ht'). iApply "HQ".
    by iApply (splay_intro with "H").
Qed.

Lemma iwp_pick s els Q :
  splay s els -∗
  (∀ r, ⌜match r with None => els = [] | Some (n, p) => ∃ e, p = Some e ∧ tmap els !! n = Some e end⌝ -∗
     splay s els -∗ Q r) -∗
  iwp (ipc_splay_tree_pick s) Q.
Proof.
  iIntros "H HQ". iApply (iwp_open with "H"). iSplit.
  - iIntros (T Hroot ->) "H". rw Hroot. iApply iwp_ret. iApply "HQ"; [..|by iApply (splay_empty with "H")]; done.
  - iIntros (T L t R Hroot Hs Ht Hok) "H". rw Hroot node_root; [|apply Hs]. destruct t as [|l n e r]; [done|].
    istep iwp_root_name "H". iApply iwp_ret. iApply "HQ"; [|by iApply (splay_intro with "H")].
    iPureIntro. exists e. split; [done|]. apply tmap_lookup; [apply Hs|]. rw (sr_elems _ _ _ _ _ Hs). set_solver.
Qed.

Lemma iwp_lower s T L l n e r R els name Q :
  searching name els L (Node l n e r) R → settled name (Node l n e r) →
  unassembled s T L (Node l n e r) R -∗
  (∀ lo, ⌜is_lower (tmap els) name lo⌝ -∗ unassembled s T L (Node l n e r) R -∗ Q lo) -∗
  iwp (if n <=? name then mret n
       else if bool_decide (ist_ltreep T = Ltree s) then mret MACH_PORT_LARGEST
       else name_of (entry_of (ist_ltreep T))) Q.
Proof.
  iIntros (Hs Ht) "H HQ". pose proof (sr_ascending _ _ _ _ _ Hs) as Hasc.
  destruct (Z.leb_spec n name) as [Hle|Hgt].
  { iApply iwp_ret. iApply ("HQ" with "[] H"). iPureIntro. destruct (decide (n = name)) as [Heq|Hne].
    - destruct (search_found _ _ _ _ _ _ _ _ Hs Heq) as (-> & _ & ?). subst n. by apply is_lower_mid.
    - destruct (search_after _ _ _ _ _ _ _ _ Hs Ht) as (_ & Hels & _ & ?); [lia|].
      rw !app_assoc -(app_assoc _ [_]) in Hels. subst els. by apply is_lower_mid. }
  destruct (search_before _ _ _ _ _ _ _ _ Hs Ht Hgt) as (_ & Hels & Hlo & Hhi).
  iDestruct "H" as "(%Hlt & H)". rw Hlt. destruct L as [|[[k f] l'] L]; cbn [lcell entry_of].
  - rw bool_decide_true //. iApply iwp_ret. iApply "HQ"; [|by iFrame]. iPureIntro. subst els. by apply is_lower_none.
  - rw bool_decide_false //. iDestruct "H" as "(? & ? & [%x ((Hf & ?) & ? & ?)] & ?)".
    iApply (iwp_name_of with "Hf"). iIntros "Hf". iApply "HQ"; [|by iFrame]. iPureIntro. cbn in Hels, Hlo.
    rw !app_assoc -(app_assoc _ [_]) in Hels. subst els. apply is_lower_mid; [done| |done].
    rw app_assoc below_app below_cons in Hlo. cbn in Hlo. lia.
Qed.

Lemma iwp_upper s T L l n e r R els name Q :
  searching name els L (Node l n e r) R → settled name (Node l n e r) →
  unassembled s T L (Node l n e r) R -∗
  (∀ hi, ⌜is_upper (tmap els) name hi⌝ -∗ unassembled s T L (Node l n e r) R -∗ Q hi) -∗
  iwp (if name <=? n then mret n
       else if bool_decide (ist_rtreep T = Rtree s) then mret MACH_PORT_SMALLEST
       else name_of (entry_of (ist_rtreep T))) Q.
Proof.
  iIntros (Hs Ht) "H HQ". pose proof (sr_ascending _ _ _ _ _ Hs) as Hasc.
  destruct (Z.leb_spec name n) as [Hle|Hgt].
  { iApply iwp_ret. iApply ("HQ" with "[] H"). iPureIntro. destruct (decide (n = name)) as [Heq|Hne].
    - destruct (search_found _ _ _ _ _ _ _ _ Hs Heq) as (-> & ? & _). subst n. by apply is_upper_mid.
    - destruct (search_before _ _ _ _ _ _ _ _ Hs Ht) as (_ & -> & ? & _); [lia|]. by apply is_upper_mid. }
  destruct (search_after _ _ _ _ _ _ _ _ Hs Ht Hgt) as (_ & Hels & Hlo & Hhi).
  iDestruct "H" as "(? & %Hrt & H)". rw Hrt. destruct R as [|[[k f] r'] R]; cbn [rcell entry_of].
  - rw bool_decide_true //. iApply iwp_ret. iApply "HQ"; [|by iFrame]. iPureIntro. subst els.
    rw app_nil_r in Hasc |- *. by apply is_upper_none.
  - rw bool_decide_false //. iDestruct "H" as "(? & ? & [%y ((Hf & ?) & ? & ?)] & ?)".
    iApply (iwp_name_of with "Hf"). iIntros "Hf". iApply "HQ"; [|by iFrame]. iPureIntro. subst els.
    apply is_upper_mid; [done| |done]. apply above_cons in Hhi as [? _]. cbn in *. lia.
Qed.

Lemma iwp_bounds s els name Q :
  splay s els -∗
  (∀ lo hi, ⌜is_lower (tmap els) name lo⌝ -∗ ⌜is_upper (tmap els) name hi⌝ -∗ splay s els -∗ Q (lo, hi)) -∗
  iwp (ipc_splay_tree_bounds s name) Q.
Proof.
  iIntros "H HQ". iApply (iwp_open with "H"). iSplit.
  - iIntros (T Hroot ->) "H". rw Hroot. iApply iwp_ret. iApply "HQ"; [..|by iApply (splay_empty with "H")];
      iPureIntro; [apply is_lower_none|apply is_upper_none]; constructor.
  - iIntros (T L t R Hroot Hs Ht Hok) "H". rw Hroot node_root; [|apply Hs].
    iApply (iwp_search with "H"); [done..|]. iIntros (T' L' l n e r R' <- Hroot' Hs' Ht') "H".
    istep iwp_tree_of_unassembled "H". istep iwp_root_name "H".
    iApply iwp_bind. iApply (iwp_lower with "H"); [done..|]. iIntros (lo Hlo) "H".
    iApply iwp_bind. iApply (iwp_upper with "H"); [done..|]. iIntros (hi Hhi) "H".
    iApply iwp_ret. iApply ("HQ" with "[//] [//]"). by iApply (splay_intro with "H").
Qed.

(** ** Insertion *)

Lemma iwp_write_lhole b L t Q :
  (∃ x, lseg b L x) -∗ rep t -∗ (b ↦ root (lplug L t) -∗ rep (lplug L t) -∗ Q ()) -∗
  iwp (write (lcell b L) (root t)) Q.
Proof.
  iIntros "[%x HL] Ht HQ". iDestruct (lseg_hole with "HL") as "[Hc HL]". iApply (iwp_write with "Hc").
  iIntros "Hc". iDestruct (lseg_plug with "(HL Hc) Ht") as "[Hb Ht]". by iApply ("HQ" with "Hb").
Qed.
Lemma iwp_write_rhole b R t Q :
  (∃ x, rseg b R x) -∗ rep t -∗ (b ↦ root (rplug R t) -∗ rep (rplug R t) -∗ Q ()) -∗
  iwp (write (rcell b R) (root t)) Q.
Proof.
  iIntros "[%x HR] Ht HQ". iDestruct (rseg_hole with "HR") as "[Hc HR]". iApply (iwp_write with "Hc").
  iIntros "Hc". iDestruct (rseg_plug with "(HR Hc) Ht") as "[Hb Ht]". by iApply ("HQ" with "Hb").
Qed.

Lemma iwp_insert_finish s T name e n0 tl tr x y Q :
  ascending (inorder (Node tl name e tr)) → names_ok (inorder (Node tl name e tr)) →
  s ↦t T -∗ Ltree s ↦ x -∗ Rtree s ↦ y -∗ node e n0 (root tl) (root tr) -∗ rep tl -∗ rep tr -∗
  (splay s (inorder (Node tl name e tr)) -∗ Q ()) -∗
  iwp (_ ← put_name e name; _ ← upd_tree s (put_root (Some e)); _ ← upd_tree s (put_ist_name name); assembled s) Q.
Proof.
  iIntros (Hasc Hok) "Hs Hl Hr (He & Hch) Htl Htr HQ". istep iwp_put_name "He".
  istep iwp_upd_tree "Hs". istep iwp_upd_tree "Hs". iApply (iwp_assembled with "Hs"). iIntros "Hs".
  iApply "HQ". iApply (splay_assembled _ _ (Node tl name e tr) with "Hs Hl Hr"); [done..| |by iFrame].
  by intros ???? [= -> -> -> ->].
Qed.

(** The search has stopped beside the place of the new name: the two trees. *)
Lemma iwp_insert_split s T L l n f r R els name Q :
  searching name els L (Node l n f r) R → settled name (Node l n f r) → n ≠ name →
  unassembled s T L (Node l n f r) R -∗
  (∀ tl tr, ⌜els = inorder tl ++ inorder tr⌝ -∗ ⌜below name (inorder tl)⌝ -∗ ⌜above name (inorder tr)⌝ -∗
     s ↦t T -∗ Ltree s ↦ root tl -∗ rep tl -∗ Rtree s ↦ root tr -∗ rep tr -∗ Q ()) -∗
  iwp (if name <? n then
         l ← lchild (Some f);
         _ ← assert (is_null l);
         _ ← write (ist_ltreep T) None;
         write (ist_rtreep T) (Some f)
       else
         r ← rchild (Some f);
         _ ← assert (is_null r);
         _ ← write (ist_ltreep T) (Some f);
         write (ist_rtreep T) None) Q.
Proof.
  iIntros (Hs Ht Hne) "(-> & -> & Hs & HL & HR & (He & Hl & Hr) & Htl & Htr) HQ".
  destruct (Z.ltb_spec name n) as [Hlt|Hge].
  - destruct (search_before _ _ _ _ _ _ _ _ Hs Ht Hlt) as (-> & Hels & Hlo & Hhi).
    istep iwp_lchild "Hl". iassert; [done|]. iApply iwp_bind.
    iApply (iwp_write_lhole _ _ Leaf with "HL Htl"). iIntros "HL Htl".
    iApply (iwp_write_rhole _ _ (Node Leaf n f r) with "HR [He Hl Hr Htr]"); [by iFrame|]. iIntros "HR Htr".
    iApply ("HQ" with "[] [] [] Hs HL Htl HR Htr"); iPureIntro;
      by rw ?inorder_lplug ?inorder_rplug ?app_nil_r.
  - destruct (search_after _ _ _ _ _ _ _ _ Hs Ht) as (-> & Hels & Hlo & Hhi); [lia|].
    istep iwp_rchild "Hr". iassert; [done|]. iApply iwp_bind.
    iApply (iwp_write_lhole _ _ (Node l n f Leaf) with "HL [He Hl Hr Htl]"); [by iFrame|]. iIntros "HL Htl".
    iApply (iwp_write_rhole _ _ Leaf with "HR Htr"). iIntros "HR Htr".
    iApply ("HQ" with "[] [] [] Hs HL Htl HR Htr"); iPureIntro;
      by rw ?inorder_lplug ?inorder_rplug ?app_nil_l.
Qed.

Lemma iwp_insert s els name e n0 x y Q :
  name_ok name → tmap els !! name = None →
  splay s els -∗ node e n0 x y -∗
  (∀ lo hi, ⌜els = lo ++ hi⌝ -∗ ⌜below name lo⌝ -∗ ⌜above name hi⌝ -∗ splay s (lo ++ (name, e) :: hi) -∗ Q ()) -∗
  iwp (ipc_splay_tree_insert s name e) Q.
Proof.
  iIntros (Hname Hnew) "H (He & Hl & Hr) HQ". iApply (iwp_open with "H"). iSplit.
  - iIntros (T Hroot ->) "(Hs & [%a Hlt] & [%b Hrt])". rw Hroot. iApply iwp_bind. istep iwp_write "Hl".
    iApply (iwp_write with "Hr"). iIntros "Hr".
    iApply (iwp_insert_finish _ _ name e _ Leaf Leaf with "Hs Hlt Hrt [$He $Hl $Hr] [//] [//]").
    { repeat constructor. } { by constructor; [|constructor]. }
    iApply ("HQ" $! [] [] with "[//] [] []"); iPureIntro; constructor.
  - iIntros (T L t R Hroot Hs Ht Hok) "H". rw Hroot node_root; [|apply Hs]. iApply iwp_bind.
    iApply iwp_bind. iApply (iwp_splay_to with "H"); [done..|].
    iIntros (T' L' t' R' Hs' Ht' _) "H". destruct t' as [|l n f r]; [done|]. cbn [root].
    istep iwp_root_name "H". pose proof (search_lookup _ _ _ _ _ _ _ _ Hs' Ht') as Hfound. rw Hnew in Hfound.
    assert (n ≠ name) as Hne. { intros ->. by rw Z.eqb_refl in Hfound. }
    iassert; [by rw (proj2 (Z.eqb_neq n name))|].
    istep iwp_tree_of_unassembled "H". iApply iwp_bind. iApply (iwp_insert_split with "H"); [done..|].
    iIntros (tl tr Hels Hlo Hhi) "Hs Hlt Htl Hrt Htr". istep iwp_read "Hlt". istep iwp_write "Hl".
    istep iwp_read "Hrt". iApply (iwp_write with "Hr"). iIntros "Hr".
    iApply (iwp_insert_finish _ _ name e _ tl tr with "Hs Hlt Hrt [$He $Hl $Hr] Htl Htr").
    + apply ascending_insert; [rw -Hels; apply Hs|done..].
    + apply names_ok_insert; [by rw -Hels|done].
    + by iApply ("HQ" with "[//] [//] [//]").
Qed.

(** ** Deletion *)

Lemma iwp_lookup_largest bl br t x y Q :
  ascending (inorder t) → names_ok (inorder t) → t ≠ Leaf →
  bl ↦ x -∗ br ↦ y -∗ rep t -∗
  (∀ L l n e x, ⌜inorder t = lelems L ++ inorder (Node l n e Leaf)⌝ -∗
     lseg bl L x -∗ (∃ y, rseg br [] y) -∗ rep (Node l n e Leaf) -∗ Q (Some e, lcell bl L, rcell br [])) -∗
  iwp (ipc_splay_prim_lookup MACH_PORT_LARGEST (root t) bl br) Q.
Proof.
  iIntros (Hasc Hok Ht) "Hl Hr Ht HQ". iApply (iwp_prim_lookup with "Hl Hr Ht"); [done..|].
  iIntros (L t' R x' y' Hs Ht') "HL HR Ht". destruct t' as [|l n e r]; [done|].
  destruct (search_largest _ _ _ _ _ _ _ Hs Ht' Hok) as [-> ->].
  iApply ("HQ" with "[] HL [HR] Ht"); [|by iFrame]. iPureIntro. by rw (sr_elems _ _ _ _ _ Hs) app_nil_r.
Qed.

(** The two trees around the deleted entry become one. *)
Lemma iwp_delete_join s T tl tr x y Q :
  ascending (inorder tl ++ inorder tr) → names_ok (inorder tl ++ inorder tr) →
  s ↦t T -∗ Ltree s ↦ x -∗ Rtree s ↦ y -∗ rep tl -∗ rep tr -∗
  (∀ T t x y, ⌜inorder t = inorder tl ++ inorder tr⌝ -∗ s ↦t T -∗ Ltree s ↦ x -∗ Rtree s ↦ y -∗ rep t -∗
     Q (root t)) -∗
  iwp (if is_null (root tl) then mret (root tr)
       else if is_null (root tr) then mret (root tl)
       else
         '(root, ltreep, rtreep) ← ipc_splay_prim_lookup MACH_PORT_LARGEST (root tl) (Ltree s) (Rtree s);
         _ ← upd_tree s (put_ltreep ltreep);
         _ ← upd_tree s (put_rtreep rtreep);
         _ ← ipc_splay_prim_assemble root (Ltree s) ltreep (Rtree s) rtreep;
         r ← rchild root;
         _ ← assert (is_null r);
         _ ← put_rchild root (IpcSplayTree.root tr);
         mret root) Q.
Proof.
  iIntros (Hasc Hok) "Hs Hl Hr Htl Htr HQ". destruct (decide (tl = Leaf)) as [->|Hl]; cbn [is_null root].
  { iApply iwp_ret. by iApply ("HQ" with "[//] Hs Hl Hr Htr"). }
  rw (node_root tl) //. destruct (decide (tr = Leaf)) as [->|Hr]; cbn [is_null root].
  { iApply iwp_ret. iApply ("HQ" with "[] Hs Hl Hr Htl"). by rw /= app_nil_r. }
  rw (node_root tr) //. apply ascending_app in Hasc as (Hasc & _). apply names_ok_app in Hok as [Hok _].
  iApply iwp_bind. iApply (iwp_lookup_largest with "Hl Hr Htl"); [done..|].
  iIntros (L l n e x' Hels) "HL [%y' HR] Ht". cbn beta iota. istep iwp_upd_tree "Hs". istep iwp_upd_tree "Hs".
  iApply iwp_bind. iApply (iwp_prim_assemble with "HL HR Ht"). iIntros (x2 y2) "Hl Hr ((He & Hel & Her) & Htl & _)".
  istep iwp_rchild "Her". iassert; [done|]. istep iwp_put_rchild "Her". iApply iwp_ret.
  iApply ("HQ" $! _ (Node (lplug L l) n e tr) with "[] Hs Hl Hr [-]"); [|by iFrame].
  iPureIntro. by rw Hels /= inorder_lplug -!app_assoc.
Qed.

Lemma iwp_delete s els name e Q :
  tmap els !! name = Some e →
  splay s els -∗
  (∀ lo hi, ⌜els = lo ++ (name, e) :: hi⌝ -∗ ⌜below name lo⌝ -∗ ⌜above name hi⌝ -∗ splay s (lo ++ hi) -∗
     unused e -∗ Q ()) -∗
  iwp (ipc_splay_tree_delete s name e) Q.
Proof.
  iIntros (Hin) "H HQ". iApply (iwp_open with "H"). iSplit; [by iIntros (T _ ->)|].
  iIntros (T L t R Hroot Hs Ht Hok) "H". rw Hroot. iassert; [by rw node_root; [|apply Hs]|].
  iApply iwp_bind. iApply (iwp_splay_to with "H"); [done..|].
  iIntros (T' L' t' R' Hs' Ht' _) "H". destruct t' as [|l n f r]; [done|]. cbn [root].
  istep iwp_root_name "H". pose proof (search_lookup _ _ _ _ _ _ _ _ Hs' Ht') as Hfound. rw Hin in Hfound.
  destruct (Z.eqb_spec name n) as [<-|]; [|done]. injection Hfound as <-.
  destruct (search_found _ _ _ _ _ _ _ _ Hs' eq_refl) as (Hels & Hlo & Hhi).
  iassert; [by rw Z.eqb_refl|]. iassert; [by rw bool_decide_true|]. istep iwp_tree_of_unassembled "H".
  iDestruct "H" as "(-> & -> & Hs & HL & HR & (He & Hel & Her) & Htl & Htr)".
  istep iwp_lchild "Hel". iApply iwp_bind. iApply (iwp_write_lhole with "HL Htl"). iIntros "Hl Htl".
  istep iwp_rchild "Her". iApply iwp_bind. iApply (iwp_write_rhole with "HR Htr"). iIntros "Hr Htr".
  iApply iwp_bind. iApply (iwp_ite_free with "He Hel Her"). iIntros "He".
  istep iwp_read "Hl". istep iwp_read "Hr". rw -inorder_lplug -inorder_rplug in Hels, Hlo, Hhi.
  subst els. pose proof (sr_ascending _ _ _ _ _ Hs) as (_ & _ & _ & _ & Hasc)%ascending_mid.
  assert (names_ok (inorder (lplug L' l) ++ inorder (rplug R' r))) as Hok'.
  { rw names_ok_app in Hok. destruct Hok as [? [_ ?]%Forall_cons]. by apply names_ok_app. }
  iApply iwp_bind. iApply (iwp_delete_join with "Hs Hl Hr Htl Htr"); [done..|].
  iIntros (T2 t2 x y Ht2) "Hs Hl Hr Ht". rw -Ht2 in Hasc, Hok'.
  iApply (iwp_settle with "Hs Hl Hr Ht"); [done..|]. iIntros "H". rw Ht2. by iApply ("HQ" with "[//] [//] [//] H").
Qed.

(** ** Splitting and joining *)

Definition from (n : Z) (els : list (Z * loc)) : Prop := Forall (λ p, n ≤ p.1) els.

Lemma above_from n els : above n els → from n els.
Proof. intros H. eapply Forall_impl; [done|]. cbn. lia. Qed.

Lemma splay_nil s : splay s [] -∗ ∃ T, ⌜ist_root T = None⌝ ∗ fields s T.
Proof.
  iIntros "(%T & _ & _ & [(% & _ & H)|(%L & %t & %R & _ & %Hs & _)])"; [by iFrame|].
  destruct Hs as [Hels _ _ _ Ht]. symmetry in Hels. by apply app_eq_nil in Hels as [_ [?%inorder_nil _]%app_eq_nil].
Qed.

(** The root goes into the new tree. *)
Lemma iwp_split_after s T L l n e R els small name Q :
  searching name els L (Node l n e Leaf) R → n < name → names_ok els →
  unassembled s T L (Node l n e Leaf) R -∗ splay small [] -∗
  (∀ lo hi, ⌜els = lo ++ hi⌝ -∗ ⌜below name lo⌝ -∗ ⌜from name hi⌝ -∗ splay s hi -∗ splay small lo -∗ Q ()) -∗
  iwp (l ← lchild (Some e);
       _ ← write (ist_ltreep T) l;
       _ ← write (ist_rtreep T) None;
       l ← read (Ltree s);
       _ ← put_lchild (Some e) l;
       r ← rchild (Some e);
       _ ← assert (is_null r);
       _ ← settle small (Some e);
       root ← read (Rtree s);
       settle s root) Q.
Proof.
  iIntros (Hs Hn Hok) "(-> & -> & Hs & HL & HR & (He & Hel & Her) & Htl & Htr) Hsmall HQ".
  destruct (search_after _ _ _ _ _ _ _ _ Hs) as (_ & Hels & Hlo & Hhi); [by right; right|done|].
  istep iwp_lchild "Hel". iApply iwp_bind. iApply (iwp_write_lhole with "HL Htl"). iIntros "Hl Htl".
  iApply iwp_bind. iApply (iwp_write_rhole _ _ Leaf with "HR Htr"). iIntros "Hr Htr".
  istep iwp_read "Hl". istep iwp_put_lchild "Hel". istep iwp_rchild "Her". iassert; [done|].
  iDestruct (splay_nil with "Hsmall") as (T0 _) "(H0 & [%x0 Hl0] & [%y0 Hr0])". iApply iwp_bind.
  pose proof (sr_ascending _ _ _ _ _ Hs) as Hasc. rw Hels ascending_app in Hasc. rw Hels names_ok_app in Hok.
  destruct Hasc as (? & ? & _), Hok as [??].
  assert (lelems L ++ inorder l ++ [(n, e)] = inorder (Node (lplug L l) n e Leaf)) as Hi
    by by rw /= inorder_lplug -app_assoc. rw Hi in Hels, Hlo, H, H1.
  iApply (iwp_settle _ _ (Node (lplug L l) n e Leaf) with "H0 Hl0 Hr0 [$Htl $He $Hel $Her //]"); [done..|].
  iIntros "Hsmall". istep iwp_read "Hr". iApply (iwp_settle with "Hs Hl Hr Htr"); [by rw inorder_rplug..|].
  iIntros "H". rw inorder_rplug. iApply ("HQ" with "[//] [//] [] H Hsmall"). iPureIntro. by apply above_from.
Qed.

(** The root stays. *)
Lemma iwp_split_before s T L l n e r R els small name Q :
  searching name els L (Node l n e r) R → settled name (Node l n e r) → name ≤ n → names_ok els →
  unassembled s T L (Node l n e r) R -∗ splay small [] -∗
  (∀ lo hi, ⌜els = lo ++ hi⌝ -∗ ⌜below name lo⌝ -∗ ⌜from name hi⌝ -∗ splay s hi -∗ splay small lo -∗ Q ()) -∗
  iwp (l ← lchild (Some e);
       _ ← write (ist_ltreep T) l;
       _ ← put_lchild (Some e) None;
       _ ← upd_tree s (put_root (Some e));
       _ ← upd_tree s (put_ist_name name);
       _ ← upd_tree s (put_ltreep (Ltree s));
       root ← read (Ltree s);
       settle small root) Q.
Proof.
  iIntros (Hs Ht Hn Hok) "(-> & %Hrt & Hs & HL & HR & (He & Hel & Her) & Htl & Htr) Hsmall HQ".
  assert (els = (lelems L ++ inorder l) ++ (n, e) :: inorder r ++ relems R ∧ below name (lelems L ++ inorder l) ∧
          from name ((n, e) :: inorder r ++ relems R)) as (Hels & Hlo & Hhi).
  { destruct (decide (n = name)) as [->|Hne].
    - destruct (search_found _ _ _ _ _ _ _ _ Hs eq_refl) as (? & ? & ?%above_from). by repeat constructor.
    - destruct (search_before _ _ _ _ _ _ _ _ Hs Ht) as (-> & ? & ? & ?%above_from); [lia|]. by rw /= app_nil_r. }
  istep iwp_lchild "Hel". iApply iwp_bind. iApply (iwp_write_lhole with "HL Htl"). iIntros "Hl Htl".
  istep iwp_put_lchild "Hel". istep iwp_upd_tree "Hs". istep iwp_upd_tree "Hs". istep iwp_upd_tree "Hs".
  istep iwp_read "Hl". pose proof (sr_ascending _ _ _ _ _ Hs) as Hasc. rw Hels ascending_app in Hasc.
  rw Hels names_ok_app in Hok. destruct Hasc as (Hasc1 & Hasc2 & _), Hok as [Hok1 Hok2].
  rw -inorder_lplug in Hasc1, Hok1, Hels, Hlo.
  iDestruct (splay_nil with "Hsmall") as (T0 _) "(H0 & [%x0 Hl0] & [%y0 Hr0])".
  iApply (iwp_settle with "H0 Hl0 Hr0 Htl"); [done..|]. iIntros "Hsmall".
  iApply ("HQ" with "[//] [//] [//] [-Hsmall] Hsmall").
  iApply (splay_intro s _ [] (Node Leaf n e r) R); [done| | | |iFrame "Hs Hl"; by iFrame]; cbn; [done|..].
  - split; [done|done|apply below_nil|apply Hs|done].
  - destruct (decide (n = name)); [by left|]. right; left. split; [lia|done].
Qed.

Lemma iwp_split s els name small T Q :
  splay s els -∗ fields small T -∗
  (∀ lo hi, ⌜els = lo ++ hi⌝ -∗ ⌜below name lo⌝ -∗ ⌜from name hi⌝ -∗ splay s hi -∗ splay small lo -∗ Q ()) -∗
  iwp (ipc_splay_tree_split s name small) Q.
Proof.
  iIntros "H Hsmall HQ". iApply iwp_bind. iApply (iwp_init with "Hsmall"). iIntros "Hsmall".
  iApply (iwp_open with "H"). iSplit.
  - iIntros (T' Hroot ->) "H". rw Hroot. iApply iwp_ret.
    iApply ("HQ" $! [] [] with "[//] [] [] [H] Hsmall"); [..|by iApply (splay_empty with "H")]; iPureIntro; constructor.
  - iIntros (T' L t R Hroot Hs Ht Hok) "H". rw Hroot node_root; [|apply Hs].
    iApply iwp_bind. iApply (iwp_splay_to with "H"); [done..|].
    iIntros (T2 L' t' R' Hs' Ht' _) "H". destruct t' as [|l n e r]; [done|]. cbn [root].
    istep iwp_tree_of_unassembled "H". istep iwp_root_name "H". destruct (Z.ltb_spec n name) as [Hlt|Hge].
    + destruct (search_after _ _ _ _ _ _ _ _ Hs' Ht' Hlt) as (-> & _).
      by iApply (iwp_split_after with "H Hsmall HQ").
    + by iApply (iwp_split_before with "H Hsmall HQ").
Qed.

(** The entries of the small tree [t] go below the least entry. *)
Lemma iwp_join_into s els lo t l0 sn sroot r0 Q :
  lo = inorder t → t = Node l0 sn sroot r0 → ascending (lo ++ els) → names_ok lo →
  splay s els -∗ rep t -∗ (splay s (lo ++ els) -∗ Q ()) -∗
  iwp (T ← tree_of s;
       root ← (if is_null (ist_root T) then mret (Some sroot)
               else
                 root ← splay_to s MACH_PORT_SMALLEST (ist_root T);
                 T ← tree_of s;
                 _ ← ipc_splay_prim_assemble root (Ltree s) (ist_ltreep T) (Rtree s) (ist_rtreep T);
                 l ← lchild root;
                 _ ← assert (is_null l);
                 sn ← name_of (Some sroot);
                 n ← name_of root;
                 _ ← assert (sn <? n);
                 _ ← put_lchild root (Some sroot);
                 mret root);
       settle s root) Q.
Proof.
  iIntros (-> Heq Hasc Hoklo) "H Ht HQ". iApply (iwp_open with "H"). iSplit.
  - iIntros (T Hroot ->) "(Hs & [%a Hl] & [%b Hr])". rw Hroot. iskip. rw app_nil_r in Hasc |- *.
    subst t. by iApply (iwp_settle with "Hs Hl Hr Ht HQ").
  - iIntros (T L t' R Hroot Hs Ht' Hok) "H". rw Hroot node_root; [|apply Hs].
    iApply iwp_bind. iApply iwp_bind. iApply (iwp_splay_to with "H"); [done..|].
    iIntros (T2 L2 t2 R2 Hs2 Ht2 _) "H". destruct t2 as [|l n e r]; [done|]. cbn [root].
    destruct (search_smallest _ _ _ _ _ _ _ Hs2 Ht2 Hok) as [-> ->].
    istep iwp_tree_of_unassembled "H". iDestruct "H" as "(-> & -> & Hs & [%a HL] & [%b HR] & Ht2)".
    iApply iwp_bind. iApply (iwp_prim_assemble with "HL HR Ht2"). iIntros (a' b') "Hl Hr ((He & Hel & Her) & _ & Htr)".
    istep iwp_lchild "Hel". iassert; [done|]. subst t. iDestruct "Ht" as "((Hse & Hsch) & Hsl & Hsr)".
    istep iwp_name_of "Hse". istep iwp_name_of "He". pose proof (sr_elems _ _ _ _ _ Hs2) as Hels. cbn in Hels.
    iassert.
    { apply Z.ltb_lt. apply ascending_app in Hasc as (_ & _ & Hlt). apply (Hlt (sn, sroot) (n, e)); [|subst els];
        set_solver. }
    istep iwp_put_lchild "Hel". iApply iwp_ret.
    assert (inorder (Node l0 sn sroot r0) ++ els = inorder (Node (Node l0 sn sroot r0) n e (rplug R2 r))) as Hi
      by by rw Hels /= inorder_rplug.
    iApply (iwp_settle _ _ (Node (Node l0 sn sroot r0) n e (rplug R2 r)) with "Hs Hl Hr [-HQ] [HQ]"); rw -?Hi //.
    + by apply names_ok_app.
    + by iFrame.
Qed.

Lemma iwp_join s small els lo Q :
  ascending (lo ++ els) →
  splay s els -∗ splay small lo -∗ (splay s (lo ++ els) -∗ splay small [] -∗ Q ()) -∗
  iwp (ipc_splay_tree_join s small) Q.
Proof.
  iIntros (Hasc) "H Hsmall HQ". iApply (iwp_open with "Hsmall"). iSplit.
  - iIntros (T Hroot ->) "Hsmall". rw Hroot. iApply iwp_ret.
    iApply ("HQ" with "H"). by iApply (splay_empty with "Hsmall").
  - iIntros (T L t R Hroot Hs Ht Hok) "Hsmall". cbv zeta. rw Hroot node_root; [|apply Hs].
    destruct t as [|l n e r]; [done|]. cbn [root].
    iApply iwp_bind. iApply (iwp_assemble _ _ _ _ _ _ _ _ lo with "Hsmall"); [apply Hs|].
    iIntros (l' r' x y Hlo) "Hs Hl Hr Ht". istep iwp_upd_tree "Hs".
    iApply (iwp_join_into with "H Ht"); [done..|]. iIntros "H". iApply ("HQ" with "H").
    iApply splay_empty; [|iFrame "Hs Hl Hr"]. done.
Qed.

End ops.
