(* ===== verification/IpcSplayTraverse.v ===== *)
(** * xnu splay trees of port names: traversal

    The traversal keeps no stack: on the way down the child field that was followed
    holds the parent, and the way up restores it.  A [zipper] is that chain of
    inverted fields; [visit s done todo p] says that the traversal of [s] stands
    at the entry [p], has the entries [done] behind it and [todo] (with [p] first)
    before it. *)

From iris.proofmode Require Import proofmode.
From iris.base_logic.lib Require Import ghost_map.
From stdpp Require Import sorting.
From S2P Require Import Prelude IpcSplay IpcSplayTree IpcSplayOps.

Import Splay.

(** The traversal went into the left or into the right child of an entry; the
    other subtree is in place. *)
Inductive frame := InLeft (n : Z) (e : loc) (r : tree) | InRight (n : Z) (e : loc) (l : tree).
Definition zipper : Type := list frame.

Definition zroot (z : zipper) : option loc :=
  match z with [] => None | InLeft _ e _ :: _ | InRight _ e _ :: _ => Some e end.

(** The entries before and after the place. *)
Fixpoint zbefore (z : zipper) : list (Z * loc) :=
  match z with [] => [] | InLeft _ _ _ :: z => zbefore z | InRight n e l :: z => zbefore z ++ inorder l ++ [(n, e)] end.
Fixpoint zafter (z : zipper) : list (Z * loc) :=
  match z with [] => [] | InLeft n e r :: z => (n, e) :: inorder r ++ zafter z | InRight _ _ _ :: z => zafter z end.

Definition frame_entry (f : frame) : Z * loc := match f with InLeft n e _ | InRight n e _ => (n, e) end.

(** The entries that stay, and those that go. *)
Definition kept (body : Z → loc → bool) (els : list (Z * loc)) : list (Z * loc) :=
  filter (λ q, body q.1 q.2 = false) els.
Definition gone (body : Z → loc → bool) (els : list (Z * loc)) : list (Z * loc) :=
  filter (λ q, body q.1 q.2 = true) els.

Lemma names_ok_kept body els : names_ok els → names_ok (kept body els).
Proof.
  rw /names_ok !Forall_forall. intros H q [_ Hq]%list_elem_of_filter. by apply H.
Qed.

Lemma ascending_kept body els : ascending els → ascending (kept body els).
Proof. apply ascending_filter. Qed.

Section traverse.
Context `{!ipcG Σ}.
Implicit Types (s : sid) (T : ipc_splay_tree) (t l r : tree) (z : zipper) (p : option loc).

Fixpoint zrep z : iProp Σ :=
  match z with
  | [] => True
  | InLeft n e r :: z => node e n (zroot z) (root r) ∗ rep r ∗ zrep z
  | InRight n e l :: z => node e n (root l) (zroot z) ∗ rep l ∗ zrep z
  end.

Lemma zrep_names z : zrep z -∗ [∗ list] q ∈ (frame_entry <$> z), q.2 ↦n q.1.
Proof.
  iInduction z as [|[n e t|n e t] z] "IH"; cbn; [by iIntros|..]; iIntros "(($ & _) & _ & Hz)"; by iApply "IH".
Qed.

Definition visit s (before todo : list (Z * loc)) p : iProp Σ :=
  match todo with
  | [] => ⌜p = None⌝ ∗ ∃ t T, ⌜inorder t = before⌝ ∗ ⌜ist_root T = root t⌝ ∗ fields s T ∗ rep t
  | (n, e) :: todo =>
      ⌜p = Some e⌝ ∗ ∃ z l r T, ⌜before = zbefore z ++ inorder l⌝ ∗ ⌜todo = inorder r ++ zafter z⌝ ∗
        s ↦t T ∗ Ltree s ↦ Some e ∗ Rtree s ↦ zroot z ∗ node e n (root l) (root r) ∗ rep l ∗ rep r ∗ zrep z
  end.

(** ** The state machine *)

Lemma iwp_traverse_entry fuel s T l n e r z Q :
  fields s T -∗ rep (Node l n e r) -∗ zrep z -∗
  (∀ p, visit s (zbefore z ++ inorder l) ((n, e) :: inorder r ++ zafter z) p -∗ Q p) -∗
  iwp (traverse (S fuel) traverse_entry s (Some e) (zroot z)) Q.
Proof.
  iIntros "(Hs & [%x Hl] & [%y Hr]) (He & Htl & Htr) Hz HQ". istep iwp_write "Hl". istep iwp_write "Hr".
  iApply iwp_ret. iApply "HQ". iSplit; [done|]. iExists z, l, r, T. by iFrame.
Qed.

Lemma iwp_traverse_left fuel s T t z Q :
  (length (inorder t) < fuel)%nat → t ≠ Leaf →
  fields s T -∗ rep t -∗ zrep z -∗
  (∀ p, visit s (zbefore z) (inorder t ++ zafter z) p -∗ Q p) -∗
  iwp (traverse fuel traverse_left s (root t) (zroot z)) Q.
Proof.
  iIntros (Hfuel Ht) "Hs Ht Hz HQ".
  iInduction t as [|l ? n e r] "IH" forall (fuel z Hfuel); [done|]. destruct fuel as [|fuel]; [lia|].
  iDestruct "Ht" as "((He & Hel & Her) & Htl & Htr)". cbn [traverse root]. cbn in Hfuel. rw length_app /= in Hfuel.
  istep iwp_lchild "Hel". destruct (decide (l = Leaf)) as [->|Hl]; cbn [root is_null].
  - destruct fuel; [lia|]. iApply (iwp_traverse_entry _ _ _ Leaf n e r with "Hs [He Hel Her Htr] Hz"); [by iFrame|].
    by rw app_nil_r.
  - rw node_root //. istep iwp_put_lchild "Hel".
    iApply ("IH" $! Hl fuel (InLeft n e r :: z) with "[] Hs Htl [$He $Hel $Her $Htr $Hz]"); [iPureIntro; lia|].
    iIntros (p) "Hp". iApply "HQ". by rw /= -app_assoc.
Qed.

Lemma ascending_root z l n e r :
  ascending (zbefore z ++ inorder (Node l n e r) ++ zafter z) → below n (zbefore z) ∧ above n (zafter z).
Proof.
  rw /= -!app_assoc app_assoc. intros (_ & _ & [? _]%below_app & [_ ?]%above_app & _)%ascending_mid. done.
Qed.

Lemma iwp_traverse_back fuel s T t z Q :
  (length z < fuel)%nat → t ≠ Leaf → ascending (zbefore z ++ inorder t ++ zafter z) →
  fields s T -∗ rep t -∗ zrep z -∗
  (∀ p, visit s (zbefore z ++ inorder t) (zafter z) p -∗ Q p) -∗
  iwp (traverse fuel traverse_back s (root t) (zroot z)) Q.
Proof.
  iIntros (Hfuel Ht Hasc) "Hs Ht Hz HQ".
  iInduction z as [|[n e r|n e l] z] "IH" forall (fuel t Hfuel Ht Hasc); (destruct fuel as [|fuel]; [cbn in Hfuel; lia|]).
  { iDestruct "Hs" as "[Hs Hlr]". cbn [traverse zroot is_null]. istep iwp_upd_tree "Hs". iApply iwp_ret.
    iApply "HQ". iSplit; [done|]. iExists t, _. iFrame "Hs Hlr Ht". done. }
  all: destruct t as [|tl tn te tr]; [done|]; destruct (ascending_root _ _ _ _ _ Hasc) as [Hlo Hhi].
  all: iDestruct "Hz" as "((He & Hel & Her) & Hrest & Hz)"; cbn [traverse zroot is_null root].
  all: iDestruct "Ht" as "((Hte & Htch) & Htl & Htr)"; istep iwp_name_of "Hte"; istep iwp_name_of "He".
  - apply above_cons in Hhi as [Hn _]. rw (proj2 (Z.ltb_lt tn n)) //.
    istep iwp_lchild "Hel". istep iwp_put_lchild "Hel". destruct fuel as [|fuel]; [cbn in Hfuel; lia|].
    iApply (iwp_traverse_entry _ _ _ (Node tl tn te tr) n e r with "Hs [-Hz HQ] Hz HQ"). by iFrame.
  - apply below_app in Hlo as [_ [_ [Hn _]%below_cons]%below_app]. rw (proj2 (Z.ltb_ge tn n)); [|cbn in Hn; lia].
    istep iwp_rchild "Her". istep iwp_put_rchild "Her".
    iApply ("IH" $! fuel (Node l n e (Node tl tn te tr)) with "[] [//] [] Hs [-Hz HQ] Hz").
    + iPureIntro. cbn in Hfuel. lia.
    + iPureIntro. cbn in Hasc |- *. by rw -!app_assoc /= -!app_assoc in Hasc |- *.
    + by iFrame.
    + iIntros (p) "Hp". iApply "HQ". by rw /= -!app_assoc.
Qed.

(** The bound of the recursion is enough for the tree and the way up. *)
Lemma iwp_traverse_from at_ s t z c p Q :
  rep t -∗ zrep z -∗
  (∀ fuel, ⌜(1 + length (inorder t) < fuel)%nat⌝ -∗ ⌜(1 + length z < fuel)%nat⌝ -∗ rep t -∗ zrep z -∗
     iwp (traverse fuel at_ s c p) Q) -∗
  iwp (traverse_from at_ s c p) Q.
Proof.
  iIntros "Ht Hz HQ". iApply iwp_bind.
  iApply (iwp_gets _ (λ fuel, 1 + length (inorder t) < fuel ∧ 1 + length z < fuel)%nat). iSplit.
  - iIntros (σ) "Hσ". iDestruct (rep_names with "Ht") as "Ht". iDestruct (zrep_names with "Hz") as "Hz".
    iDestruct (names_size with "Hσ Ht") as %?. iDestruct (names_size with "Hσ Hz") as %Hz.
    rw length_fmap in Hz. iPureIntro. lia.
  - iIntros (fuel [??]). by iApply ("HQ" with "[//] [//] Ht Hz").
Qed.

(** Go on after an entry that stays. *)
Lemma iwp_traverse_right s T l n e r z Q :
  ascending (zbefore z ++ inorder (Node l n e r) ++ zafter z) →
  fields s T -∗ rep (Node l n e r) -∗ zrep z -∗
  (∀ p, visit s (zbefore z ++ inorder l ++ [(n, e)]) (inorder r ++ zafter z) p -∗ Q p) -∗
  iwp (traverse_from traverse_right s (Some e) (zroot z)) Q.
Proof.
  iIntros (Hasc) "Hs Ht Hz HQ". iApply (iwp_traverse_from with "Ht Hz"). iIntros ([|fuel] Hf Hf') "Ht Hz"; [lia|].
  iDestruct "Ht" as "((He & Hel & Her) & Htl & Htr)". cbn [traverse root]. istep iwp_rchild "Her".
  destruct (decide (r = Leaf)) as [->|Hr]; cbn [root is_null].
  - iApply (iwp_traverse_back _ _ _ (Node l n e Leaf) with "Hs [He Hel Her Htl] Hz HQ"); [lia|done|done|by iFrame].
  - rw node_root //. istep iwp_put_rchild "Her". cbn in Hf. rw length_app /= in Hf.
    iApply (iwp_traverse_left _ _ _ r (InRight n e l :: z) with "Hs Htr [$He $Hel $Her $Htl $Hz] HQ"); [lia|done].
Qed.

(** ** Deletion of the current entry *)

Definition locals : iProp Σ := (∃ x, Local_ltree ↦ x) ∗ (∃ y, Local_rtree ↦ y).

(** An entry without children: its parent's field is emptied. *)
Lemma iwp_delete_leaf s T n e z Q :
  ascending (zbefore z ++ (n, e) :: zafter z) →
  fields s T -∗ node e n None None -∗ zrep z -∗
  (∀ p, visit s (zbefore z) (zafter z) p -∗ unused e -∗ Q p) -∗
  iwp (if is_null (zroot z) then
         _ ← ite_free (Some e); _ ← upd_tree s (put_root None); mret None
       else
         n ← name_of (Some e);
         pn ← name_of (zroot z);
         _ ← ite_free (Some e);
         if n <? pn then
           up ← lchild (zroot z); _ ← put_lchild (zroot z) None; traverse_from traverse_entry s (zroot z) up
         else
           up ← rchild (zroot z); _ ← put_rchild (zroot z) None; traverse_from traverse_back s (zroot z) up) Q.
Proof.
  iIntros (Hasc) "Hs (He & Hel & Her) Hz HQ". apply ascending_mid in Hasc as (_ & _ & Hlo & Hhi & Hasc).
  destruct z as [|[n' e' r|n' e' l] z]; cbn [zroot is_null].
  { iApply iwp_bind. iApply (iwp_ite_free with "He Hel Her"). iIntros "He". iDestruct "Hs" as "[Hs Hlr]".
    istep iwp_upd_tree "Hs". iApply iwp_ret. iApply ("HQ" with "[-He] He"). iSplit; [done|].
    iExists Leaf, _. by iFrame "Hs Hlr". }
  all: iDestruct "Hz" as "((He' & Hel' & Her') & Hrest & Hz)".
  all: istep iwp_name_of "He"; istep iwp_name_of "He'"; iApply iwp_bind;
    iApply (iwp_ite_free with "He Hel Her"); iIntros "He".
  - apply above_cons in Hhi as [Hn _]. rw (proj2 (Z.ltb_lt n n')) //. istep iwp_lchild "Hel'". istep iwp_put_lchild "Hel'".
    iApply (iwp_traverse_from _ _ (Node Leaf n' e' r) z with "[He' Hel' Her' Hrest] Hz"); [by iFrame|].
    iIntros ([|fuel] Hf _) "Ht Hz"; [lia|]. iApply (iwp_traverse_entry with "Hs Ht Hz"). iIntros (p) "Hp".
    iApply ("HQ" with "[Hp] He"). by rw app_nil_r.
  - apply below_app in Hlo as [_ [_ [Hn _]%below_cons]%below_app]. rw (proj2 (Z.ltb_ge n n')); [|cbn in Hn; lia].
    istep iwp_rchild "Her'". istep iwp_put_rchild "Her'".
    iApply (iwp_traverse_from _ _ (Node l n' e' Leaf) z with "[He' Hel' Her' Hrest] Hz"); [by iFrame|].
    iIntros (fuel _ Hf) "Ht Hz". iApply (iwp_traverse_back _ _ _ (Node l n' e' Leaf) with "Hs Ht Hz"); [lia|done| |].
    + cbn in Hasc |- *. by rw -!app_assoc in Hasc |- *.
    + iIntros (p) "Hp". by iApply ("HQ" with "Hp He").
Qed.

(** An entry with two children: the greatest entry before it takes its place. *)
Lemma iwp_delete_inner s T l n e r z Q :
  ascending (zbefore z ++ inorder (Node l n e r) ++ zafter z) → names_ok (inorder l) → l ≠ Leaf →
  fields s T -∗ rep (Node l n e r) -∗ zrep z -∗ locals -∗
  (∀ p, visit s (zbefore z ++ inorder l) (inorder r ++ zafter z) p -∗ unused e -∗ locals -∗ Q p) -∗
  iwp ('(now, ltreep, rtreep) ← ipc_splay_prim_lookup MACH_PORT_LARGEST (root l) Local_ltree Local_rtree;
       _ ← ipc_splay_prim_assemble now Local_ltree ltreep Local_rtree rtreep;
       r' ← rchild now;
       _ ← assert (is_null r');
       r ← rchild (Some e);
       _ ← put_rchild now r;
       _ ← ite_free (Some e);
       traverse_from traverse_right s now (zroot z)) Q.
Proof.
  iIntros (Hasc Hok Hl) "Hs ((He & Hel & Her) & Htl & Htr) Hz [[%x Hll] [%y Hlr]] HQ".
  assert (ascending (zbefore z ++ inorder l ++ inorder r ++ zafter z)) as Hasc'.
  { cbn in Hasc. rw -!app_assoc /= app_assoc in Hasc. apply ascending_mid in Hasc. rw app_assoc. apply Hasc. }
  iApply iwp_bind. iApply (iwp_lookup_largest with "Hll Hlr Htl"); [|done..|].
  { apply ascending_app in Hasc' as (_ & [? _]%ascending_app & _). done. }
  iIntros (L l' n' e' x' Hels) "HL [%y' HR] Ht". cbn beta iota. iApply iwp_bind.
  iApply (iwp_prim_assemble with "HL HR Ht"). iIntros (x2 y2) "Hll Hlr ((He' & Hel' & Her') & Htl & _)".
  istep iwp_rchild "Her'". iassert; [done|]. istep iwp_rchild "Her". istep iwp_put_rchild "Her'".
  iApply iwp_bind. iApply (iwp_ite_free with "He Hel Her"). iIntros "He".
  assert (inorder l = inorder (lplug L l') ++ [(n', e')]) as Hi by by rw Hels inorder_lplug -app_assoc.
  iApply (iwp_traverse_right _ _ (lplug L l') n' e' r z with "Hs [$He' $Hel' $Her' $Htl $Htr] Hz").
  - rw Hi in Hasc'. cbn. by rw -!app_assoc in Hasc' |- *.
  - iIntros (p) "Hp". rw Hi. iApply ("HQ" with "Hp He"). iFrame.
Qed.

Lemma iwp_traverse_next s before n e todo (del : bool) Q :
  ascending (before ++ (n, e) :: todo) → names_ok before →
  visit s before ((n, e) :: todo) (Some e) -∗ locals -∗
  (∀ p, visit s (if del then before else before ++ [(n, e)]) todo p -∗ (if del then unused e else True) -∗ locals -∗ Q p) -∗
  iwp (ipc_splay_traverse_next s del) Q.
Proof.
  iIntros (Hasc Hok) "(_ & %z & %l & %r & %T & -> & -> & Hs & Hlt & Hrt & (He & Hel & Her) & Htl & Htr & Hz) Hloc HQ".
  assert (ascending (zbefore z ++ inorder (Node l n e r) ++ zafter z)) as Hasc'.
  { cbn. by rw -!app_assoc in Hasc |- *. }
  istep iwp_read "Hlt". istep iwp_read "Hrt". iassert; [done|].
  iAssert (fields s T) with "[Hs Hlt Hrt]" as "Hs"; [by iFrame|]. destruct del; cbn [negb].
  - istep iwp_lchild "Hel". istep iwp_rchild "Her".
    destruct (decide (l = Leaf)) as [->|Hl], (decide (r = Leaf)) as [->|Hr]; cbn [root is_null];
      rw ?(node_root l) // ?(node_root r) // ?app_nil_r.
    + iApply (iwp_delete_leaf with "Hs [$He $Hel $Her] Hz"); [done|].
      iIntros (p) "Hp He". by iApply ("HQ" with "Hp He").
    + iApply iwp_bind. iApply (iwp_ite_free with "He Hel Her"). iIntros "He".
      iApply (iwp_traverse_from with "Htr Hz"). iIntros (fuel Hf _) "Htr Hz".
      iApply (iwp_traverse_left with "Hs Htr Hz"); [lia|done|]. iIntros (p) "Hp". by iApply ("HQ" with "Hp He").
    + iApply iwp_bind. iApply (iwp_ite_free with "He Hel Her"). iIntros "He".
      iApply (iwp_traverse_from with "Htl Hz"). iIntros (fuel _ Hf) "Htl Hz".
      iApply (iwp_traverse_back with "Hs Htl Hz"); [lia|done| |iIntros (p) "Hp"; by iApply ("HQ" with "Hp He")].
      apply ascending_mid in Hasc as (_ & _ & _ & _ & Hasc). by rw -app_assoc in Hasc.
    + iApply (iwp_delete_inner _ _ l n e r with "Hs [$He $Hel $Her $Htl $Htr] Hz Hloc HQ"); [done| |done].
      by apply names_ok_app in Hok as [_ ?].
  - iApply (iwp_traverse_right _ _ l n e r with "Hs [$He $Hel $Her $Htl $Htr] Hz"); [done|].
    iIntros (p) "Hp". rw -app_assoc. by iApply ("HQ" with "Hp").
Qed.

(** ** The whole traversal *)

Lemma iwp_traverse_start s els Q :
  splay s els -∗ (∀ p, visit s [] els p -∗ Q p) -∗ iwp (ipc_splay_traverse_start s) Q.
Proof.
  iIntros "H HQ". iApply (iwp_open with "H"). iSplit.
  - iIntros (T Hroot ->) "H". cbv zeta. rw Hroot. iApply iwp_ret. iApply "HQ". iSplit; [done|].
    iExists Leaf, T. by iFrame.
  - iIntros (T L t R Hroot Hs Ht Hok) "H". cbv zeta. rw Hroot node_root; [|apply Hs].
    destruct t as [|l n e r]; [done|]. cbn [root].
    iApply iwp_bind. iApply (iwp_assemble _ _ _ _ _ _ _ _ els with "H"); [apply Hs|].
    iIntros (l' r' x y Hels) "Hs Hl Hr Ht".
    iApply (iwp_traverse_from _ _ _ [] with "Ht [//]"). iIntros (fuel Hf _) "Ht Hz".
    iApply (iwp_traverse_left _ _ _ (Node l' n e r') [] with "[$Hs $Hl $Hr] Ht Hz"); [lia|done|].
    iIntros (p) "Hp". iApply "HQ". by rw Hels app_nil_r.
Qed.

Lemma iwp_traverse_finish s els p Q :
  ascending els → names_ok els →
  visit s els [] p -∗ (splay s els -∗ Q ()) -∗ iwp (ipc_splay_traverse_finish s) Q.
Proof.
  iIntros (Hasc Hok) "(_ & %t & %T & <- & %Hroot & (Hs & [%x Hl] & [%y Hr]) & Ht) HQ".
  istep iwp_tree_of "Hs". rw Hroot. destruct t as [|l n e r]; cbn [root is_null].
  - iApply iwp_ret. iApply "HQ". iApply (splay_empty s T with "[$Hs $Hl $Hr]"). done.
  - iDestruct "Ht" as "((He & Hch) & Ht)". istep iwp_name_of "He". istep iwp_upd_tree "Hs".
    iApply (iwp_assembled with "Hs"). iIntros "Hs". iApply "HQ".
    iApply (splay_assembled _ _ (Node l n e r) with "Hs Hl Hr"); [done..| |by iFrame].
    by intros ???? [= -> -> -> ->].
Qed.

Lemma iwp_traverse_loop fuel s body before todo p Q :
  (length todo < fuel)%nat → ascending (before ++ todo) → names_ok (before ++ todo) →
  visit s before todo p -∗ locals -∗
  (∀ p, visit s (before ++ kept body todo) [] p -∗ ([∗ list] q ∈ gone body todo, unused q.2) -∗ locals -∗ Q todo) -∗
  iwp (traverse_loop fuel s body p) Q.
Proof.
  iIntros (Hfuel Hasc Hok) "H Hloc HQ".
  iInduction todo as [|[n e] todo] "IH" forall (fuel before p Q Hfuel Hasc Hok); (destruct fuel as [|fuel]; [cbn in Hfuel; lia|]).
  { iDestruct "H" as "[-> H]". cbn [traverse_loop]. iApply iwp_ret. rw app_nil_r.
    iApply ("HQ" $! None with "[$H //] [//] Hloc"). }
  iDestruct "H" as "[-> (%z & %l & %r & %T & -> & -> & Hs & Hlt & Hrt & (He & Hch) & Ht)]". cbn [traverse_loop].
  istep iwp_name_of "He". iApply iwp_bind. iApply (iwp_traverse_next _ _ n e _ (body n e) with "[$He $Hs $Hlt $Hrt $Hch $Ht //] Hloc").
  { done. } { by apply names_ok_app in Hok as [? _]. }
  iIntros (p) "H He Hloc". iApply iwp_bind.
  set (todo := inorder r ++ zafter z) in *. set (before := zbefore z ++ inorder l) in *. cbn in Hfuel.
  destruct (body n e) eqn:Hbody.
  - iApply ("IH" with "[] [] [] H Hloc"); [iPureIntro; lia|by apply ascending_mid in Hasc as (_&_&_&_&?)|..].
    { iPureIntro. apply names_ok_app in Hok as [? [_ ?]%Forall_cons]. by apply names_ok_app. }
    iIntros (p') "H Hgone Hloc". iApply iwp_ret. iApply ("HQ" with "[H] [He Hgone] Hloc").
    + rw /kept filter_cons_False //=. by rw Hbody.
    + rw /gone filter_cons_True //=. by iFrame.
  - iApply ("IH" with "[] [] [] H Hloc"); [iPureIntro; lia|by rw -app_assoc|by rw -app_assoc|].
    iIntros (p') "H Hgone Hloc". iApply iwp_ret. iApply ("HQ" with "[H] [Hgone] Hloc").
    + by rw /kept filter_cons_True //= -app_assoc.
    + rw /gone filter_cons_False //=. by rw Hbody.
Qed.

Lemma lseg_names b L x : lseg b L x -∗ [∗ list] q ∈ lelems L, q.2 ↦n q.1.
Proof.
  iInduction L as [|[[n e] l] L] "IH" forall (x); cbn; [by iIntros|]. iIntros "((He & _) & Hl & HL)".
  rw !big_sepL_app. iSplitL "HL"; [by iApply "IH"|]. iSplitL "Hl"; [by iApply rep_names|]. by iFrame.
Qed.
Lemma rseg_names b R x : rseg b R x -∗ [∗ list] q ∈ relems R, q.2 ↦n q.1.
Proof.
  iInduction R as [|[[n e] r] R] "IH" forall (x); cbn; [by iIntros|]. iIntros "(($ & _) & Hr & HR)".
  rw !big_sepL_app. iSplitL "Hr"; [by iApply rep_names|]. by iApply "IH".
Qed.
Lemma splay_names s els : splay s els -∗ [∗ list] q ∈ els, q.2 ↦n q.1.
Proof.
  iIntros "(%T & _ & _ & [(_ & -> & _)|(%L & %t & %R & _ & %Hs & _ & (_ & _ & _ & [%x HL] & [%y HR] & Ht))])"; [done|].
  rw (sr_elems _ _ _ _ _ Hs) !big_sepL_app. iSplitL "HL"; [by iApply lseg_names|].
  iSplitL "Ht"; [by iApply rep_names|by iApply rseg_names].
Qed.

Lemma iwp_traverse_all s els body Q :
  splay s els -∗ locals -∗
  (splay s (kept body els) -∗ ([∗ list] q ∈ gone body els, unused q.2) -∗ locals -∗ Q els) -∗
  iwp (traverse_all s body) Q.
Proof.
  iIntros "H Hloc HQ". iApply iwp_bind. iApply (iwp_gets _ (λ fuel, length els < fuel)%nat). iSplit.
  { iIntros (σ) "Hσ". iDestruct (splay_names with "H") as "H". iDestruct (names_size with "Hσ H") as %?.
    iPureIntro. lia. }
  iIntros (fuel Hfuel). iAssert (⌜ascending els ∧ names_ok els⌝)%I as %[Hasc Hok].
  { by iDestruct "H" as "(% & % & % & _)". }
  iApply iwp_bind. iApply (iwp_traverse_start with "H"). iIntros (p) "H". iApply iwp_bind.
  iApply (iwp_traverse_loop _ _ _ [] els with "H Hloc"); [done..|]. iIntros (p') "H Hgone Hloc".
  iApply iwp_bind. iApply (iwp_traverse_finish with "H").
  - by apply ascending_kept.
  - by apply names_ok_kept.
  - iIntros "H". iApply iwp_ret. iApply ("HQ" with "H Hgone Hloc").
Qed.

End traverse.
