(* ===== verification/IpcSplayCorrect.v ===== *)
(** * xnu splay trees of port names: refinement

    A client works on any number of tree structures: it initialises them, allocates
    entries and calls the operations in any order its contract permits.  The
    specification keeps a finite map from names to entries for every tree; every
    history of calls returns, and its results are those of the maps. *)

From iris.proofmode Require Import proofmode.
From iris.base_logic.lib Require Import ghost_map.
From stdpp Require Import sorting.
From S2P Require Import Prelude IpcSplay IpcSplayTree IpcSplayOps IpcSplayTraverse.

Import Splay.

(** ** Clients *)

Inductive op :=
| Init (s : sid)
| Alloc (e : loc) (n : Z) (l r : option loc)
| Free (e : loc)
| Pick (s : sid)
| Lookup (s : sid) (name : Z)
| Insert (s : sid) (name : Z) (entry : loc)
| Delete (s : sid) (name : Z) (entry : loc)
| Split (s : sid) (name : Z) (small : sid)
| Join (s small : sid)
| Bounds (s : sid) (name : Z)
| Traverse (s : sid) (body : Z → loc → bool).

Inductive res :=
| Done
| Picked (o : option (Z * option loc))
| Entry (o : option loc)
| Range (lower upper : Z)
| Visited (l : list (Z * loc)).

Definition perform (o : op) : M ipc res :=
  match o with
  | Init s => _ ← ipc_splay_tree_init s; mret Done
  | Alloc e n l r => _ ← ite_alloc e n l r; mret Done
  | Free e => _ ← ite_free (Some e); mret Done
  | Pick s => o ← ipc_splay_tree_pick s; mret (Picked o)
  | Lookup s name => o ← ipc_splay_tree_lookup s name; mret (Entry o)
  | Insert s name entry => _ ← ipc_splay_tree_insert s name entry; mret Done
  | Delete s name entry => _ ← ipc_splay_tree_delete s name entry; mret Done
  | Split s name small => _ ← ipc_splay_tree_split s name small; mret Done
  | Join s small => _ ← ipc_splay_tree_join s small; mret Done
  | Bounds s name => '(lower, upper) ← ipc_splay_tree_bounds s name; mret (Range lower upper)
  | Traverse s body => l ← traverse_all s body; mret (Visited l)
  end.

Fixpoint run_ops (ops : list op) : M ipc (list res) :=
  match ops with
  | [] => mret []
  | o :: ops => r ← perform o; rs ← run_ops ops; mret (r :: rs)
  end.

(** ** Specification *)

(** Trees by structure ([None]: not initialised), entries that are allocated and in
    no tree, and addresses the zone has free. *)
Record spec := Spec {
  trees : gmap sid (option (gmap Z loc));
  spare : gset loc;
  zone : gset loc;
}.

Definition set_tree (s : sid) (m : gmap Z loc) (A : spec) : spec :=
  Spec (<[s := Some m]> (trees A)) (spare A) (zone A).
Definition tree_at (A : spec) (s : sid) : option (gmap Z loc) := mjoin (trees A !! s).

#[export] Instance name_ok_dec n : Decision (name_ok n).
Proof. unfold name_ok. apply _. Defined.

(** Every name of [m'] is below every name of [m]. *)
Definition map_before (m' m : gmap Z loc) : Prop := map_Forall (λ k' _, map_Forall (λ k _, k' < k) m) m'.
#[export] Instance map_before_dec m' m : Decision (map_before m' m).
Proof. unfold map_before. apply _. Defined.

Definition map_gone (body : Z → loc → bool) (m : gmap Z loc) : gset loc :=
  map_img (filter (λ q, body q.1 q.2 = true) m).

(** The contract of a call and what it does; [None]: the call is not permitted. *)
Definition spec_next (A : spec) (o : op) : option spec :=
  match o with
  | Init s => _ ← trees A !! s; Some (set_tree s ∅ A)
  | Alloc e _ _ _ => guard (e ∈ zone A);; Some (Spec (trees A) ({[e]} ∪ spare A) (zone A ∖ {[e]}))
  | Free e => guard (e ∈ spare A);; Some (Spec (trees A) (spare A ∖ {[e]}) ({[e]} ∪ zone A))
  | Pick s | Lookup s _ | Bounds s _ => _ ← tree_at A s; Some A
  | Insert s name e =>
      m ← tree_at A s;
      guard (name_ok name ∧ m !! name = None ∧ e ∈ spare A);;
      Some (Spec (<[s := Some (<[name := e]> m)]> (trees A)) (spare A ∖ {[e]}) (zone A))
  | Delete s name e =>
      m ← tree_at A s;
      guard (m !! name = Some e);;
      Some (Spec (<[s := Some (delete name m)]> (trees A)) (spare A) ({[e]} ∪ zone A))
  | Split s name small =>
      m ← tree_at A s; _ ← trees A !! small;
      guard (s ≠ small);;
      Some (set_tree small (filter (λ q, q.1 < name) m) (set_tree s (filter (λ q, name ≤ q.1) m) A))
  | Join s small =>
      m ← tree_at A s; m' ← tree_at A small;
      guard (s ≠ small ∧ map_before m' m);;
      Some (set_tree small ∅ (set_tree s (m' ∪ m) A))
  | Traverse s body =>
      m ← tree_at A s;
      Some (Spec (<[s := Some (filter (λ q, body q.1 q.2 = false) m)]> (trees A)) (spare A) (map_gone body m ∪ zone A))
  end.

(** The results a call may have; only [Pick] has a choice. *)
Definition spec_result (A : spec) (o : op) (r : res) : Prop :=
  match o, r with
  | (Init _ | Alloc _ _ _ _ | Free _ | Insert _ _ _ | Delete _ _ _ | Split _ _ _ | Join _ _), Done => True
  | Pick s, Picked None => tree_at A s = Some ∅
  | Pick s, Picked (Some (n, p)) => ∃ m e, tree_at A s = Some m ∧ p = Some e ∧ m !! n = Some e
  | Lookup s name, Entry p => ∃ m, tree_at A s = Some m ∧ p = m !! name
  | Bounds s name, Range lower upper => ∃ m, tree_at A s = Some m ∧ is_lower m name lower ∧ is_upper m name upper
  | Traverse s _, Visited l => ∃ m, tree_at A s = Some m ∧ ascending l ∧ ∀ n e, (n, e) ∈ l ↔ m !! n = Some e
  | _, _ => False
  end.

Fixpoint spec_run (A : spec) (ops : list op) : option spec :=
  match ops with [] => Some A | o :: ops => A' ← spec_next A o; spec_run A' ops end.

Fixpoint spec_results (A : spec) (ops : list op) (rs : list res) : Prop :=
  match ops, rs with
  | [], [] => True
  | o :: ops, r :: rs => spec_result A o r ∧ ∃ A', spec_next A o = Some A' ∧ spec_results A' ops rs
  | _, _ => False
  end.

(** The memory a client starts with: uninitialised structures, the variables of
    the traversal, and addresses that are not allocated. *)
Definition boot (σ : ipc) (A : spec) : Prop :=
  (∀ s o, trees A !! s = Some o →
     o = None ∧ is_Some (ist σ !! s) ∧ is_Some (ptr σ !! Ltree s) ∧ is_Some (ptr σ !! Rtree s)) ∧
  is_Some (ptr σ !! Local_ltree) ∧ is_Some (ptr σ !! Local_rtree) ∧ spare A = ∅ ∧
  (∀ e, e ∈ zone A → ite_name σ !! e = None ∧ ptr σ !! Lchild e = None ∧ ptr σ !! Rchild e = None).

(** ** The maps of the trees *)

Lemma tmap_filter (P : Z * loc → Prop) `{!∀ q, Decision (P q)} els :
  ascending els → filter P (tmap els) = tmap (filter P els).
Proof.
  intros Hasc. apply map_eq. intros k. apply option_eq. intros e.
  rw map_lookup_filter_Some !tmap_lookup ?list_elem_of_filter //; [tauto|by apply ascending_filter].
Qed.

Lemma filter_keep {A} (P : A → Prop) `{!∀ x, Decision (P x)} l : Forall P l → filter P l = l.
Proof. induction 1; [done|]. rw filter_cons_True //. by f_equal. Qed.
Lemma filter_nothing {A} (P : A → Prop) `{!∀ x, Decision (P x)} l : Forall (λ x, ¬ P x) l → filter P l = [].
Proof. induction 1; [done|]. by rw filter_cons_False. Qed.

Lemma ascending_NoDup els : ascending els → NoDup els.
Proof.
  induction els as [|q els IH]; [constructor|]. intros [Hq Hels]%StronglySorted_cons. constructor; [|by apply IH].
  intros Hin. pose proof (proj1 (Forall_forall _ _) Hq q Hin). cbn in *. lia.
Qed.

Lemma split_maps name lo hi :
  ascending (lo ++ hi) → below name lo → from name hi →
  filter (λ q, q.1 < name) (tmap (lo ++ hi)) = tmap lo ∧ filter (λ q, name ≤ q.1) (tmap (lo ++ hi)) = tmap hi.
Proof.
  intros Hasc Hlo Hhi. rw !tmap_filter // !filter_app. split.
  - rw filter_keep // filter_nothing ?app_nil_r //. eapply Forall_impl; [exact Hhi|]. cbn. lia.
  - rw filter_nothing ?filter_keep //. eapply Forall_impl; [exact Hlo|]. cbn. lia.
Qed.

Lemma join_lists els lo : ascending els → ascending lo → map_before (tmap lo) (tmap els) → ascending (lo ++ els).
Proof.
  intros Hels Hlo Hbefore. apply ascending_app. repeat split; [done..|]. intros [k e] [k' e'] Hk Hk'.
  apply tmap_lookup in Hk, Hk'; [|done..]. by apply (Hbefore k e Hk k' e').
Qed.

Lemma tree_at_Some A s m : tree_at A s = Some m ↔ trees A !! s = Some (Some m).
Proof. unfold tree_at. destruct (trees A !! s) as [[]|]; naive_solver. Qed.

(** ** Simulation *)

Section simulation.
Context `{!ipcG Σ}.

Definition tree_own (s : sid) (o : option (gmap Z loc)) : iProp Σ :=
  match o with
  | None => ∃ T, fields s T
  | Some m => ∃ els, ⌜m = tmap els⌝ ∗ splay s els
  end.

Definition forest (F : gmap sid (option (gmap Z loc))) : iProp Σ := [∗ map] s ↦ o ∈ F, tree_own s o.
Definition spares (X : gset loc) : iProp Σ := [∗ set] e ∈ X, ∃ n x y, node e n x y.
Definition zoned (X : gset loc) : iProp Σ := [∗ set] e ∈ X, unused e.
Definition owned (A : spec) : iProp Σ := forest (trees A) ∗ spares (spare A) ∗ zoned (zone A) ∗ locals.

(** [o] does to the memory what the specification says. *)
Definition refines (o : op) : Prop :=
  ∀ A A', spec_next A o = Some A' → owned A ⊢ iwp (perform o) (λ r, ⌜spec_result A o r⌝ ∗ owned A').

Lemma forest_acc F s o :
  F !! s = Some o → forest F -∗ tree_own s o ∗ (∀ o', tree_own s o' -∗ forest (<[s := o']> F)).
Proof. intros. by apply bi.wand_intro_l; rw right_id; apply big_sepM_insert_acc. Qed.

Lemma forest_acc2 F s o s' o' :
  s ≠ s' → F !! s = Some o → F !! s' = Some o' →
  forest F -∗ tree_own s o ∗ tree_own s' o' ∗
    (∀ a b, tree_own s a -∗ tree_own s' b -∗ forest (<[s' := b]> (<[s := a]> F))).
Proof.
  iIntros (Hne Hs Hs') "HF". iDestruct (big_sepM_delete with "HF") as "[$ HF]"; [done|].
  iDestruct (forest_acc _ s' with "HF") as "[$ HF]"; [by rw lookup_delete_ne|].
  iIntros (a b) "Ha Hb". rw insert_insert_ne // /forest. rw (big_sepM_insert_delete _ _ s). iFrame "Ha".
  rw delete_insert_ne //. by iApply "HF".
Qed.

Lemma zoned_add X e : zoned X -∗ unused e -∗ zoned ({[e]} ∪ X).
Proof.
  iIntros "HX He". destruct (decide (e ∈ X)) as [Hin|Hin].
  - iDestruct (big_sepS_elem_of with "HX") as "He'"; [done|]. by iDestruct (unused_unique with "He He'") as %[].
  - rw /zoned big_sepS_insert //. iFrame.
Qed.

Lemma spares_add X e n x y : spares X -∗ node e n x y -∗ spares ({[e]} ∪ X).
Proof.
  iIntros "HX He". destruct (decide (e ∈ X)) as [Hin|Hin].
  - iDestruct (big_sepS_elem_of with "HX") as (n' x' y') "[He' _]"; [done|]. iDestruct "He" as "[He _]".
    by iDestruct (ghost_map_elem_ne with "He He'") as %?.
  - rw /spares big_sepS_insert //. iFrame.
Qed.

Lemma zoned_add_list X (els : list (Z * loc)) : zoned X -∗ ([∗ list] q ∈ els, unused q.2) -∗ zoned (list_to_set els.*2 ∪ X).
Proof.
  iIntros "HX H". iInduction els as [|[n e] els] "IH"; cbn; [by rw left_id_L|]. iDestruct "H" as "[He H]".
  rw -union_assoc_L. iApply (zoned_add with "[HX H] He"). by iApply ("IH" with "HX").
Qed.

Lemma lseg_base b L x : lseg b L x -∗ ∃ y, b ↦ y.
Proof. iInduction L as [|[[n e] l] L] "IH" forall (x); cbn; [eauto|]. iIntros "(_ & _ & H)". by iApply "IH". Qed.
Lemma rseg_base b R x : rseg b R x -∗ ∃ y, b ↦ y.
Proof. iInduction R as [|[[n e] r] R] "IH" forall (x); cbn; [eauto|]. iIntros "(_ & _ & H)". by iApply "IH". Qed.

(** Whatever a structure holds, it can be initialised anew. *)
Lemma tree_own_fields s o : tree_own s o -∗ ∃ T, fields s T.
Proof.
  destruct o as [m|]; [|by iIntros]. iIntros "(%els & _ & %T & _ & _ & [(_ & _ & H)|H])"; [by iExists T|].
  iDestruct "H" as "(%L & %t & %R & _ & _ & _ & _ & _ & Hs & [%x HL] & [%y HR] & _)". iExists T. iFrame "Hs".
  iSplitL "HL"; [by iApply lseg_base|by iApply rseg_base].
Qed.

(** Calls on one tree. *)
Lemma refines_init s : refines (Init s).
Proof.
  intros A A' (o & Ho & [= <-])%bind_Some. iIntros "(HF & HA)". iDestruct (forest_acc with "HF") as "[H HF]"; [done|].
  iDestruct (tree_own_fields with "H") as (T) "H". iApply iwp_bind. iApply (iwp_init with "H"). iIntros "H".
  iApply iwp_ret. iSplit; [done|]. iFrame "HA". iApply "HF". iExists []. by iFrame.
Qed.

Lemma refines_alloc e n l r : refines (Alloc e n l r).
Proof.
  intros A A' H. cbn in H. case_guard; [|done]. injection H as <-. iIntros "(HF & HS & HZ & Hloc)".
  iDestruct (big_sepS_delete with "HZ") as "[He HZ]"; [done|]. iApply iwp_bind.
  iApply (iwp_ite_alloc with "He"). iIntros "He Hl Hr". iApply iwp_ret. iSplit; [done|]. iFrame "HF HZ Hloc".
  iApply (spares_add with "HS [$He $Hl $Hr]").
Qed.

Lemma refines_free e : refines (Free e).
Proof.
  intros A A' H. cbn in H. case_guard; [|done]. injection H as <-. iIntros "(HF & HS & HZ & Hloc)".
  iDestruct (big_sepS_delete with "HS") as "[(%n & %x & %y & He & Hl & Hr) HS]"; [done|]. iApply iwp_bind.
  iApply (iwp_ite_free with "He Hl Hr"). iIntros "He". iApply iwp_ret. iSplit; [done|]. iFrame "HF HS Hloc".
  iApply (zoned_add with "HZ He").
Qed.

(** Calls that leave the map as it is. *)
Lemma observe A s m : tree_at A s = Some m → owned A -∗ ∃ els, ⌜m = tmap els⌝ ∗ splay s els ∗ (splay s els -∗ owned A).
Proof.
  intros Hm%tree_at_Some. iIntros "(HF & HA)". iDestruct (forest_acc _ _ _ Hm with "HF") as "[(%els & -> & H) HF]".
  iExists els. iFrame "H". iSplit; [done|]. iIntros "H". iFrame "HA". rw -{2}(insert_id _ _ _ Hm). iApply "HF".
  iExists els. by iFrame.
Qed.

Lemma refines_pick s : refines (Pick s).
Proof.
  intros A A' (m & Hm & [= <-])%bind_Some. iIntros "HA". iDestruct (observe _ _ _ Hm with "HA") as (els ->) "[H HA]".
  iApply iwp_bind. iApply (iwp_pick with "H"). iIntros (r Hr) "H". iApply iwp_ret. iSplit; [|by iApply "HA"].
  iPureIntro. destruct r as [[n p]|]; cbn; [destruct Hr as (e & -> & He); eauto|by subst els].
Qed.

Lemma refines_lookup s name : refines (Lookup s name).
Proof.
  intros A A' (m & Hm & [= <-])%bind_Some. iIntros "HA". iDestruct (observe _ _ _ Hm with "HA") as (els ->) "[H HA]".
  iApply iwp_bind. iApply (iwp_lookup with "H"). iIntros "H". iApply iwp_ret. iSplit; [|by iApply "HA"].
  iPureIntro. cbn. eauto.
Qed.

Lemma refines_bounds s name : refines (Bounds s name).
Proof.
  intros A A' (m & Hm & [= <-])%bind_Some. iIntros "HA". iDestruct (observe _ _ _ Hm with "HA") as (els ->) "[H HA]".
  iApply iwp_bind. iApply (iwp_bounds with "H"). iIntros (lo hi Hlo Hhi) "H". iApply iwp_ret.
  iSplit; [|by iApply "HA"]. iPureIntro. cbn. eauto.
Qed.

Lemma refines_insert s name e : refines (Insert s name e).
Proof.
  intros A A' (m & Hm%tree_at_Some & H)%bind_Some. case_guard as Hg; [|done]. injection H as <-.
  destruct Hg as (Hname & Hnew & He). iIntros "(HF & HS & HZ & Hloc)".
  iDestruct (forest_acc _ _ _ Hm with "HF") as "[(%els & -> & H) HF]".
  iDestruct (big_sepS_delete with "HS") as "[(%n & %x & %y & He) HS]"; [done|]. iApply iwp_bind.
  iApply (iwp_insert with "H He"); [done..|]. iIntros (lo hi -> Hlo Hhi) "H". iApply iwp_ret. iSplit; [done|].
  iFrame "HS HZ Hloc". iApply "HF". iExists _. iFrame "H". by rw tmap_mid.
Qed.

Lemma refines_delete s name e : refines (Delete s name e).
Proof.
  intros A A' (m & Hm%tree_at_Some & H)%bind_Some. case_guard as Hg; [|done]. injection H as <-.
  iIntros "(HF & HS & HZ & Hloc)". iDestruct (forest_acc _ _ _ Hm with "HF") as "[(%els & -> & H) HF]".
  iApply iwp_bind. iApply (iwp_delete with "H"); [done|]. iIntros (lo hi -> Hlo Hhi) "H He".
  iApply iwp_ret. iSplit; [done|]. iFrame "HS Hloc". iSplitR "HZ He"; [|by iApply (zoned_add with "HZ")].
  iApply "HF". iExists _. iFrame "H". by rw tmap_delete.
Qed.

Lemma refines_split s name small : refines (Split s name small).
Proof.
  intros A A' (m & Hm%tree_at_Some & (o & Ho & H)%bind_Some)%bind_Some. case_guard as Hne; [|done]. injection H as <-.
  iIntros "(HF & HA)". iDestruct (forest_acc2 _ _ _ _ _ Hne Hm Ho with "HF") as "((%els & -> & H) & Hsmall & HF)".
  iDestruct (tree_own_fields with "Hsmall") as (T) "Hsmall". iApply iwp_bind.
  iAssert ⌜ascending els⌝%I as %Hasc; [by iDestruct "H" as "(% & % & _)"|].
  iApply (iwp_split with "H Hsmall"). iIntros (lo hi -> Hlo Hhi) "H Hsmall". iApply iwp_ret. iSplit; [done|].
  iFrame "HA". destruct (split_maps _ _ _ Hasc Hlo Hhi) as [Hm1 Hm2].
  iApply ("HF" with "[H] [Hsmall]"); iExists _; by iFrame.
Qed.

Lemma refines_join s small : refines (Join s small).
Proof.
  intros A A' (m & Hm%tree_at_Some & (m' & Hm'%tree_at_Some & H)%bind_Some)%bind_Some.
  case_guard as Hg; [|done]. injection H as <-. destruct Hg as [Hne Hbefore]. iIntros "(HF & HA)".
  iDestruct (forest_acc2 _ _ _ _ _ Hne Hm Hm' with "HF") as "((%els & -> & H) & (%lo & -> & Hsmall) & HF)".
  iAssert ⌜ascending els⌝%I as %Hels; [by iDestruct "H" as "(% & % & _)"|].
  iAssert ⌜ascending lo⌝%I as %Hlo; [by iDestruct "Hsmall" as "(% & % & _)"|].
  iApply iwp_bind. iApply (iwp_join with "H Hsmall"); [by apply join_lists|]. iIntros "H Hsmall".
  iApply iwp_ret. iSplit; [done|]. iFrame "HA". iApply ("HF" with "[H] [Hsmall]"); iExists _; iFrame; by rw ?tmap_app.
Qed.

Lemma refines_traverse s body : refines (Traverse s body).
Proof.
  intros A A' (m & Hm%tree_at_Some & [= <-])%bind_Some. iIntros "(HF & HS & HZ & Hloc)".
  iDestruct (forest_acc _ _ _ Hm with "HF") as "[(%els & -> & H) HF]".
  iAssert ⌜ascending els⌝%I as %Hasc; [by iDestruct "H" as "(% & % & _)"|].
  iApply iwp_bind. iApply (iwp_traverse_all with "H Hloc"). iIntros "H Hgone Hloc". iApply iwp_ret. iSplit.
  { iPureIntro. exists (tmap els). split; [by apply tree_at_Some|]. split; [done|]. intros. by rw tmap_lookup. }
  iFrame "HS Hloc". iSplitL "HF H".
  - iApply "HF". iExists _. iFrame "H". by rw tmap_filter.
  - rw (_ : map_gone body (tmap els) = list_to_set (gone body els).*2); [by iApply (zoned_add_list with "HZ")|].
    apply set_eq. intros e. rw /map_gone tmap_filter // elem_of_map_img elem_of_list_to_set list_elem_of_fmap.
    split; [intros [k Hk]|intros [[k e'] [-> Hk]]]; [exists (k, e); split; [done|]|exists k];
      by eapply tmap_lookup; [apply ascending_filter|].
Qed.

Lemma perform_refines o : refines o.
Proof.
  destruct o; eauto using refines_init, refines_alloc, refines_free, refines_pick, refines_lookup, refines_insert, refines_delete,
    refines_split, refines_join, refines_bounds, refines_traverse.
Qed.

Lemma ops_refine A A' ops :
  spec_run A ops = Some A' → owned A ⊢ iwp (run_ops ops) (λ rs, ⌜spec_results A ops rs⌝ ∗ owned A').
Proof.
  induction ops as [|o ops IH] in A |- *; cbn.
  - intros [= <-]. iIntros "HA". iApply iwp_ret. by iFrame.
  - intros (A1 & HA1 & Hrun)%bind_Some. iIntros "HA". iApply iwp_bind.
    iApply (iwp_wand with "[HA]"); [by iApply (perform_refines with "HA")|]. iIntros (r) "[%Hr HA]".
    iApply iwp_bind. iApply (iwp_wand with "[HA]"); [by iApply (IH with "HA")|]. iIntros (rs) "[%Hrs HA]".
    iApply iwp_ret. iFrame. iPureIntro. cbn. eauto.
Qed.

End simulation.

(** ** Adequacy *)

Section boot.
Context `{!ipcG Σ}.

(** The values of some of the keys of a map. *)
Lemma big_sepM_keys {K V} `{Countable K} (Φ : K → V → iProp Σ) (m : gmap K V) (X : gset K) :
  (∀ k, k ∈ X → is_Some (m !! k)) → ([∗ map] k ↦ v ∈ m, Φ k v) -∗ [∗ set] k ∈ X, ∃ v, Φ k v.
Proof.
  iIntros (HX) "Hm". iApply (big_sepS_subseteq _ (dom m)).
  { intros k Hk. by apply elem_of_dom, HX. }
  rw -big_sepM_dom. iApply (big_sepM_impl with "Hm"). iIntros "!>" (k v _) "H". by iExists v.
Qed.

Lemma boot_owned σ A : boot σ A → memory σ (zone A) ⊢ owned A.
Proof.
  intros (HF & Hll & Hlr & Hspare & _). iIntros "(_ & Hptr & Hist & $)". set (D := dom (trees A)).
  iDestruct (big_sepM_keys _ _ D with "Hist") as "Hist".
  { intros s [o Ho]%elem_of_dom. by eapply HF. }
  iDestruct (big_sepM_keys _ _ (set_map Ltree D ∪ set_map Rtree D ∪ {[Local_ltree]} ∪ {[Local_rtree]}) with "Hptr") as "Hptr".
  { intros c [[[[s [-> [o Ho]%elem_of_dom]]%elem_of_map|[s [-> [o Ho]%elem_of_dom]]%elem_of_map]%elem_of_union
      | ->%elem_of_singleton]%elem_of_union| ->%elem_of_singleton]%elem_of_union; [by eapply HF..|done|done]. }
  rw !big_sepS_union; [|set_solver..]. rw !big_sepS_inj_map !big_sepS_singleton.
  iDestruct "Hptr" as "[[[Hl Hr] Hll] Hlr]". iFrame "Hll Hlr". iSplitL; [|by rw Hspare /spares big_sepS_empty].
  iCombine "Hist Hl Hr" as "H". rw -!big_sepS_sep /D -big_sepM_dom. iApply (big_sepM_impl with "H").
  iIntros "!>" (s o Ho) "([%T Hs] & Hl & Hr)". destruct (HF _ _ Ho) as [-> _]. iExists T. iFrame.
Qed.

End boot.

Lemma history_wp σ A ops A' φ :
  boot σ A → spec_run A ops = Some A' → (∀ rs, spec_results A ops rs → φ rs) → wp (run_ops ops) σ (λ rs _, φ rs).
Proof.
  intros Hboot Hrun Hφ. apply (iwp_adequacy _ _ (zone A)); [apply Hboot|]. intros G. iIntros "H".
  iApply (iwp_wand with "[H]"); [iApply ops_refine; [done|by iApply boot_owned]|].
  iIntros (rs) "[%Hrs _]". iPureIntro. by apply Hφ.
Qed.

(** ** Histories *)

Lemma spec_run_app A ops ops' : spec_run A (ops ++ ops') = spec_run A ops ≫= λ A', spec_run A' ops'.
Proof. induction ops as [|o ops IH] in A |- *; cbn; [done|]. destruct (spec_next A o); cbn; [apply IH|done]. Qed.

Lemma spec_results_app A ops A1 ops' rs :
  spec_run A ops = Some A1 → spec_results A (ops ++ ops') rs →
  ∃ rs1 rs2, rs = rs1 ++ rs2 ∧ length rs1 = length ops ∧ spec_results A1 ops' rs2.
Proof.
  induction ops as [|o ops IH] in A, rs |- *; cbn; [intros [= ->]; by exists [], rs|].
  intros (A' & HA' & Hrun)%bind_Some. destruct rs as [|r rs]; [done|]. intros (_ & A2 & HA2 & Hrs).
  simplify_eq. destruct (IH _ _ Hrun Hrs) as (rs1 & rs2 & -> & Hlen & Hrs2). exists (r :: rs1), rs2. cbn. auto.
Qed.

(** What some more calls return after a history. *)
Lemma history_then σ A ops A1 ops' A2 φ :
  boot σ A → spec_run A ops = Some A1 → spec_run A1 ops' = Some A2 → (∀ rs, spec_results A1 ops' rs → φ rs) →
  wp (run_ops (ops ++ ops')) σ (λ rs _, φ (drop (length ops) rs)).
Proof.
  intros Hboot Hrun Hrun' Hφ. apply (history_wp _ A _ A2); [done|by rw spec_run_app Hrun|].
  intros rs Hrs. destruct (spec_results_app _ _ _ _ _ Hrun Hrs) as (rs1 & rs2 & -> & <- & Hrs2).
  rw drop_app_length. by apply Hφ.
Qed.

Lemma spec_results_cons A o ops rs :
  spec_results A (o :: ops) rs →
  ∃ r rs' A', rs = r :: rs' ∧ spec_result A o r ∧ spec_next A o = Some A' ∧ spec_results A' ops rs'.
Proof. destruct rs as [|r rs]; [done|]. intros (Hr & A' & HA' & Hrs). by exists r, rs, A'. Qed.

Lemma spec_results_nil A rs : spec_results A [] rs → rs = [].
Proof. by destruct rs. Qed.

Lemma tree_at_set s m A : tree_at (set_tree s m A) s = Some m.
Proof. by rw /tree_at /= lookup_insert_eq. Qed.
Lemma tree_at_set_ne s s' m A : s ≠ s' → tree_at (set_tree s m A) s' = tree_at A s'.
Proof. intros. by rw /tree_at /= lookup_insert_ne. Qed.

Lemma split_union name (m : gmap Z loc) : filter (λ q, q.1 < name) m ∪ filter (λ q, name ≤ q.1) m = m.
Proof.
  rw -{3}(map_filter_union_complement (λ q, q.1 < name) m). f_equal. apply map_filter_ext. cbn. lia.
Qed.

Lemma split_before name (m : gmap Z loc) : map_before (filter (λ q, q.1 < name) m) (filter (λ q, name ≤ q.1) m).
Proof. intros k' e' [_ Hk']%map_lookup_filter_Some k e [_ Hk]%map_lookup_filter_Some. cbn in *. lia. Qed.

(** The specification of a split, and of a join after it. *)
Lemma next_split A s small m name :
  tree_at A s = Some m → is_Some (trees A !! small) → s ≠ small →
  spec_next A (Split s name small) =
    Some (set_tree small (filter (λ q, q.1 < name) m) (set_tree s (filter (λ q, name ≤ q.1) m) A)).
Proof. intros Hm [o Ho] Hne. rw /= Hm /= Ho /=. by case_guard. Qed.

Lemma next_join A s small m m' :
  tree_at A s = Some m → tree_at A small = Some m' → s ≠ small → map_before m' m →
  spec_next A (Join s small) = Some (set_tree small ∅ (set_tree s (m' ∪ m) A)).
Proof. intros Hm Hm' Hne Hb. rw /= Hm /= Hm' /=. case_guard; [done|tauto]. Qed.

(** The comment above [ipc_splay_tree_bounds]. *)
Definition bounds_table (m : gmap Z loc) (name lower upper : Z) : Prop :=
  (lower = upper → lower = name ∧ is_Some (m !! name)) ∧
  (lower = MACH_PORT_LARGEST → upper = MACH_PORT_SMALLEST → m = ∅) ∧
  (lower = MACH_PORT_LARGEST → upper > MACH_PORT_SMALLEST →
     name < upper ∧ is_Some (m !! upper) ∧ ∀ k, is_Some (m !! k) → upper ≤ k) ∧
  (lower < MACH_PORT_LARGEST → upper = MACH_PORT_SMALLEST →
     lower < name ∧ is_Some (m !! lower) ∧ ∀ k, is_Some (m !! k) → k ≤ lower) ∧
  (lower < MACH_PORT_LARGEST → upper > MACH_PORT_SMALLEST → lower ≠ upper →
     lower < name < upper ∧ is_Some (m !! lower) ∧ is_Some (m !! upper) ∧
     ∀ k, is_Some (m !! k) → k ≤ lower ∨ upper ≤ k).

Lemma bounds_table_intro m name lower upper :
  (∀ k, is_Some (m !! k) → MACH_PORT_SMALLEST < k < MACH_PORT_LARGEST) →
  is_lower m name lower → is_upper m name upper → bounds_table m name lower upper.
Proof.
  assert (MACH_PORT_SMALLEST < MACH_PORT_LARGEST) as Hc by done. intros Hres Hlo Hup.
  destruct Hlo as [(Hle & Hl & Hlmax)|[-> Hlo]], Hup as [(Hge & Hu & Humin)|[-> Hup]].
  all: try pose proof (Hres _ Hl); try pose proof (Hres _ Hu).
  - repeat split; try lia.
    + by replace name with lower by lia.
    + destruct (decide (lower = name)); [|lia]. pose proof (Humin lower Hl). lia.
    + destruct (decide (upper = name)); [|lia]. pose proof (Hlmax upper Hu). lia.
    + done.
    + done.
    + intros k Hk. destruct (decide (k ≤ name)); [left; by apply Hlmax|right; apply Humin; [done|lia]].
  - pose proof (Hup _ Hl). repeat split; try lia; [done|]. intros k Hk. apply Hlmax; [done|]. pose proof (Hup k Hk). lia.
  - pose proof (Hlo _ Hu). repeat split; try lia; [done|]. intros k Hk. apply Humin; [done|]. pose proof (Hlo k Hk). lia.
  - repeat split; try lia. intros _ _. apply map_empty. intros k. apply eq_None_not_Some. intros Hk.
    pose proof (Hlo k Hk). pose proof (Hup k Hk). lia.
Qed.

(** ** Theorems *)

(** C15. Every history of calls the contract permits, on any number of trees, from
    uninitialised structures: the code returns (no failed assertion, no access to
    memory that is not allocated, no bound of a loop reached) and every result is
    the one the finite maps give. *)
Theorem splay_refines_maps σ A ops A' :
  boot σ A → spec_run A ops = Some A' → wp (run_ops ops) σ (λ rs _, spec_results A ops rs).
Proof.
  intros Hboot Hrun. by apply (history_wp _ A _ A' (spec_results A ops)).
Qed.

(** C34. [ipc_splay_tree_bounds] after any history: the five cases of the comment
    above it hold when the two reserved names are not in the tree. *)
Theorem splay_bounds_table σ A ops A1 s m name :
  boot σ A → spec_run A ops = Some A1 → tree_at A1 s = Some m →
  (∀ k, is_Some (m !! k) → MACH_PORT_SMALLEST < k < MACH_PORT_LARGEST) →
  wp (run_ops (ops ++ [Bounds s name])) σ
    (λ rs _, ∃ lower upper, drop (length ops) rs = [Range lower upper] ∧ bounds_table m name lower upper).
Proof.
  intros Hboot Hrun Hm Hres.
  apply (history_then _ _ _ _ _ A1 (λ rs, ∃ lower upper, rs = [Range lower upper] ∧ bounds_table m name lower upper)
    Hboot Hrun); [by rw /= Hm|].
  intros rs (r & rs' & A' & -> & Hr & _ & ->%spec_results_nil)%spec_results_cons.
  destruct r; try done. destruct Hr as (m' & Hm' & Hlo & Hup). simplify_eq.
  eexists _, _. split; [done|]. by apply bounds_table_intro.
Qed.

(** Split and join are inverse: after any history, splitting a tree at a name
    and joining the parts again leaves every lookup as it was. *)
Theorem splay_split_join σ A ops A1 s small m name k :
  boot σ A → spec_run A ops = Some A1 → tree_at A1 s = Some m → is_Some (trees A1 !! small) → s ≠ small →
  wp (run_ops (ops ++ [Split s name small; Join s small; Lookup s k])) σ
    (λ rs _, drop (length ops) rs = [Done; Done; Entry (m !! k)]).
Proof.
  intros Hboot Hrun Hm Hsmall Hne.
  pose proof (next_split A1 s small m name Hm Hsmall Hne) as Hsplit.
  pose proof (λ A Hs Hsm, next_join A s small _ _ Hs Hsm Hne (split_before name m)) as Hjoin. rw split_union in Hjoin.
  specialize (Hjoin (set_tree small (filter (λ q, q.1 < name) m) (set_tree s (filter (λ q, name ≤ q.1) m) A1))).
  rw tree_at_set tree_at_set_ne // tree_at_set in Hjoin. specialize (Hjoin eq_refl eq_refl).
  eapply (history_then _ _ _ _ _ _ (λ rs, rs = [Done; Done; Entry (m !! k)]) Hboot Hrun).
  - cbn [spec_run]. rw Hsplit /= -/(spec_next _ (Join s small)) Hjoin /= tree_at_set_ne // tree_at_set //=.
  - intros rs (r1 & rs1 & B1 & -> & Hr1 & HB1 & (r2 & rs2 & B2 & -> & Hr2 & HB2 &
      (r3 & rs3 & B3 & -> & Hr3 & _ & ->%spec_results_nil)%spec_results_cons)%spec_results_cons)%spec_results_cons.
    rw Hsplit in HB1. injection HB1 as <-. rw Hjoin in HB2. injection HB2 as <-.
    destruct r1, r2, r3; try done. destruct Hr3 as (m' & Hm' & ->).
    rw tree_at_set_ne // tree_at_set in Hm'. by injection Hm' as <-.
Qed.

(** C16. A traversal after any history visits every entry of the tree once, in the
    order of the names, and leaves exactly the entries the caller did not ask to
    delete. *)
Theorem splay_traverse_all σ A ops A1 s m body k :
  boot σ A → spec_run A ops = Some A1 → tree_at A1 s = Some m →
  wp (run_ops (ops ++ [Traverse s body; Lookup s k])) σ
    (λ rs _, ∃ l, drop (length ops) rs = [Visited l; Entry (filter (λ q, body q.1 q.2 = false) m !! k)] ∧
       ascending l ∧ l ≡ₚ map_to_list m).
Proof.
  intros Hboot Hrun Hm. eapply (history_then _ _ _ _ _ _ (λ rs, ∃ l, rs = [Visited l; _] ∧ _) Hboot Hrun).
  - cbn [spec_run]. rw /= Hm /= /tree_at /= lookup_insert_eq //.
  - intros rs (r1 & rs1 & B1 & -> & Hr1 & HB1 & (r2 & rs2 & B2 & -> & Hr2 & _ & ->%spec_results_nil)%spec_results_cons)%spec_results_cons.
    rw /= Hm /= in HB1. injection HB1 as <-. destruct r1 as [| | | |l], r2; try done.
    destruct Hr1 as (m' & Hm' & Hasc & Hl), Hr2 as (m2 & Hm2 & ->). simplify_eq.
    rw /tree_at /= lookup_insert_eq /= in Hm2. injection Hm2 as <-. exists l. split; [done|]. split; [done|].
    apply NoDup_Permutation; [by apply ascending_NoDup|apply NoDup_map_to_list|]. intros [n e].
    by rw Hl elem_of_map_to_list.
Qed.

(** ** A client *)

(** Two structures with garbage in them and three addresses in the zone. *)
Definition demo_memory : ipc :=
  Ipc ∅ {[ Ltree 1 := Some 7%positive; Rtree 1 := None; Ltree 2 := None; Rtree 2 := Some 9%positive;
           Local_ltree := None; Local_rtree := Some 3%positive ]}
      {[ 1%positive := Ist 5 (Some 4%positive) (Lchild 4) (Rchild 4); 2%positive := Ist 0 None (Ltree 2) (Rtree 2) ]}.
Definition demo_spec : spec := Spec {[ 1%positive := None; 2%positive := None ]} ∅ {[ 10%positive; 11%positive; 12%positive ]}.

Definition demo_ops : list op :=
  [Init 1; Alloc 10 0 None None; Alloc 11 5 (Some 8%positive) None; Alloc 12 5 None None;
   Insert 1 5 10; Insert 1 9 11; Insert 1 7 12; Lookup 1 9; Lookup 1 8; Bounds 1 8].

Lemma demo_boot : boot demo_memory demo_spec.
Proof.
  split; [|repeat split; try (by eexists); set_solver].
  intros s o. cbn. intros [[<- <-]|[_ [<- <-]%lookup_singleton_Some]]%lookup_insert_Some; repeat split; by eexists.
Qed.

(** What the code returns, and what is deleted may be allocated and used again. *)
Example demo_results :
  (fst <$> match run_ops (demo_ops ++ [Split 1 7 2; Pick 2; Traverse 1 (λ n _, n =? 7); Join 1 2; Alloc 12 0 None None;
                                       Insert 1 6 12; Delete 1 5 10; Alloc 10 1 None None; Free 10; Traverse 1 (λ _ _, true); Pick 1]) demo_memory with
           | Ok p => Some p | Crash _ => None end) =
  Some [Done; Done; Done; Done; Done; Done; Done; Entry (Some 11%positive); Entry None; Range 7 9;
        Done; Picked (Some (5, Some 10%positive)); Visited [(7, 12%positive); (9, 11%positive)]; Done; Done;
        Done; Done; Done; Done; Visited [(6, 12%positive); (9, 11%positive)]; Picked None].
Proof. vm_compute. reflexivity. Qed.

Definition demo_after : spec := default demo_spec (spec_run demo_spec demo_ops).
Definition demo_map : gmap Z loc := default ∅ (tree_at demo_after 1).

Lemma splay_refines_maps_witness : wp (run_ops demo_ops) demo_memory (λ rs _, spec_results demo_spec demo_ops rs).
Proof. apply (splay_refines_maps demo_memory demo_spec demo_ops demo_after); [exact demo_boot|by vm_compute]. Defined.

Lemma splay_bounds_table_witness :
  wp (run_ops (demo_ops ++ [Bounds 1 6])) demo_memory
    (λ rs _, ∃ lower upper, drop (length demo_ops) rs = [Range lower upper] ∧ bounds_table demo_map 6 lower upper).
Proof.
  apply (splay_bounds_table demo_memory demo_spec demo_ops demo_after 1 demo_map 6);
    [exact demo_boot|by vm_compute|by vm_compute|].
  intros k Hk. assert (map_Forall (λ k _, MACH_PORT_SMALLEST < k < MACH_PORT_LARGEST) demo_map) as H.
  { apply (bool_decide_unpack _). by vm_compute. }
  destruct Hk as [e He]. by apply (H k e).
Defined.

Lemma splay_split_join_witness :
  wp (run_ops (demo_ops ++ [Split 1 7 2; Join 1 2; Lookup 1 5])) demo_memory
    (λ rs _, drop (length demo_ops) rs = [Done; Done; Entry (demo_map !! 5)]).
Proof.
  apply (splay_split_join demo_memory demo_spec demo_ops demo_after 1 2 demo_map 7 5);
    [exact demo_boot|by vm_compute|by vm_compute|by vm_compute; eexists|done].
Defined.

Lemma splay_traverse_all_witness :
  wp (run_ops (demo_ops ++ [Traverse 1 (λ n _, n =? 7); Lookup 1 7])) demo_memory
    (λ rs _, ∃ l, drop (length demo_ops) rs = [Visited l; Entry (filter (λ q, (q.1 =? 7) = false) demo_map !! 7)] ∧
       ascending l ∧ l ≡ₚ map_to_list demo_map).
Proof.
  apply (splay_traverse_all demo_memory demo_spec demo_ops demo_after 1 demo_map (λ n _, n =? 7) 7);
    [exact demo_boot|by vm_compute|by vm_compute].
Defined.

(** With the reserved name 0 in the tree, equal bounds do not mean that the name is
    there. *)
Example bounds_of_zero :
  (fst <$> match run_ops [Init 1; Alloc 10 0 None None; Insert 1 0 10; Bounds 1 5; Lookup 1 5] demo_memory with
           | Ok p => Some p | Crash _ => None end) =
  Some [Done; Done; Done; Range 0 0; Entry None].
Proof. vm_compute. reflexivity. Qed.
