(* ===== verification/IpcForest.v ===== *)
(** * xnu splay trees of port names: the interface for callers

    [trees_are σ A V]: the memory [σ] has the trees of [A], and when [V] says so a
    tree that is being traversed.  It is a plain proposition, defined by what the
    separation logic can derive about programs that run from [σ]; callers use it
    without the logic, through one rule for every routine of ipc_splay.c. *)

From iris.proofmode Require Import proofmode.
From iris.base_logic.lib Require Import ghost_map.
From stdpp Require Import sorting.
From S2P Require Import Prelude IpcSplay IpcSplayTree IpcSplayOps IpcSplayTraverse IpcSplayCorrect.

Import Splay.

(** ** Assertions as properties of a memory *)

Definition asrt : Type := ipcG ipcΣ → iProp ipcΣ.

(** What the logic derives from [P] about a program is true of its run from [σ]. *)
Definition holds (σ : ipc) (P : asrt) : Prop :=
  ∀ (A : Type) (m : M ipc A) (φ : A → Prop), (∀ G, P G ⊢ iwp m (λ a, ⌜φ a⌝)) → wp m σ (λ a _, φ a).

Lemma holds_mono σ (P Q : asrt) : (∀ G, P G ⊢ Q G) → holds σ P → holds σ Q.
Proof. intros HPQ HP A m φ Hm. apply HP. intros G. rw HPQ. apply Hm. Qed.

Lemma holds_fact σ (P : asrt) φ : (∀ G, P G ⊢ ⌜φ⌝) → holds σ P → φ.
Proof.
  intros HPφ HP. assert (wp (mret tt) σ (λ _ _, φ)) as H; [|done].
  apply (HP unit _ (λ _, φ)). intros G. iIntros "H". iDestruct (HPφ with "H") as %Hφ. by iApply iwp_ret.
Qed.

Lemma holds_step {A} `{!EqDecision A} (m : M ipc A) σ (P : asrt) (Q : A → asrt) :
  holds σ P → (∀ G, P G ⊢ iwp m (λ a, Q a G)) → wp m σ (λ a σ', holds σ' (Q a)).
Proof.
  intros HP Hm. destruct (wp_inv m σ (λ _ _, True)) as (a & σ1 & Ha & _).
  { apply (HP A m (λ _, True)). intros G. iIntros "H". iApply (iwp_wand with "[H]"); [by iApply Hm|]. auto. }
  unfold wp. rw Ha. intros B m' φ Hm'.
  assert (wp (m ≫= λ a', if decide (a' = a) then m' ≫= λ b, mret (Some b) else mret None) σ
             (λ o _, match o with Some b => φ b | None => True end)) as H.
  { apply HP. intros G. iIntros "H". iApply iwp_bind. iApply (iwp_wand with "[H]"); [by iApply Hm|].
    iIntros (a') "H". case_decide as Heq; [|by iApply iwp_ret]. subst a'. iApply iwp_bind.
    iApply (iwp_wand with "[H]"); [by iApply Hm'|]. iIntros (b Hb). by iApply iwp_ret. }
  unfold wp in *. rw (bind_Ok _ _ _ _ _ Ha) decide_True // in H. unfold mbind, M_bind in H.
  by destruct (m' σ1) as [[b σ2]|].
Qed.

(** ** Trees, and a tree that is being traversed *)

Abbreviation elist := (list (Z * loc)).

(** The structure, what the traversal has passed and what is before it. *)
Abbreviation traversal := (option (sid * elist * elist)).
Definition current (todo : elist) : option loc := snd <$> head todo.

Definition visiting `{!ipcG Σ} (V : traversal) : iProp Σ :=
  match V with
  | None => True
  | Some (s, before, todo) => ⌜ascending (before ++ todo) ∧ names_ok (before ++ todo)⌝ ∗ visit s before todo (current todo)
  end.

Definition trees_are (σ : ipc) (A : spec) (V : traversal) : Prop := holds σ (λ G, owned A ∗ visiting V)%I.

(** The entries of a map, in order. *)
Definition fst_le (p q : Z * loc) : Prop := p.1 ≤ q.1.
#[export] Instance fst_le_dec : RelDecision fst_le.
Proof. intros p q. unfold fst_le. apply _. Defined.
#[export] Instance fst_le_total : Total fst_le.
Proof. intros p q. unfold fst_le. lia. Qed.
#[export] Instance fst_le_trans : Transitive fst_le.
Proof. intros p q r. unfold fst_le. lia. Qed.

Definition elems (m : gmap Z loc) : elist := merge_sort fst_le (map_to_list m).

Lemma elems_perm m : elems m ≡ₚ map_to_list m.
Proof. apply merge_sort_Permutation. Qed.

Lemma elem_of_elems m n e : (n, e) ∈ elems m ↔ m !! n = Some e.
Proof. by rw elems_perm elem_of_map_to_list. Qed.

Lemma elems_ascending m : ascending (elems m).
Proof.
  assert (StronglySorted fst_le (elems m)) as Hs by apply (StronglySorted_merge_sort _).
  assert (NoDup (elems m).*1) as Hnd by (rw elems_perm; apply NoDup_fst_map_to_list).
  induction Hs as [|p l Hl IH Hp]; [constructor|]. apply NoDup_cons in Hnd as [Hnew Hnd]. constructor; [by apply IH|].
  apply Forall_forall. intros q Hq. pose proof (proj1 (Forall_forall _ _) Hp q Hq). assert (p.1 ≠ q.1); [|unfold fst_le in *; cbn in *; lia].
  intros Heq. apply Hnew. rw Heq. by apply list_elem_of_fmap_2.
Qed.

Lemma ascending_eq (a b : elist) : ascending a → ascending b → (∀ q, q ∈ a ↔ q ∈ b) → a = b.
Proof.
  intros Ha Hb Hab. apply (StronglySorted_unique_strong (λ p q : Z * loc, p.1 < q.1)); [|done..|].
  - intros p q _ _ ??. lia.
  - apply NoDup_Permutation; [by apply ascending_NoDup..|done].
Qed.

Lemma elems_tmap els : ascending els → elems (tmap els) = els.
Proof.
  intros Hasc. apply ascending_eq; [apply elems_ascending|done|]. intros [n e]. by rw elem_of_elems tmap_lookup.
Qed.

Lemma tmap_elems m : tmap (elems m) = m.
Proof.
  apply map_eq. intros n. apply option_eq. intros e. rw tmap_lookup; [apply elem_of_elems|apply elems_ascending].
Qed.

Lemma length_elems m : length (elems m) = size m.
Proof. by rw elems_perm length_map_to_list. Qed.

(** ** The routines *)

#[export] Instance res_eq_dec : EqDecision res.
Proof. solve_decision. Defined.

Lemma trees_perform σ A V o A' :
  trees_are σ A V → spec_next A o = Some A' →
  wp (perform o) σ (λ r σ', spec_result A o r ∧ trees_are σ' A' V).
Proof.
  intros Hσ Ho. eapply wp_mono.
  { apply (holds_step (perform o) σ _ (λ r G, ⌜spec_result A o r⌝ ∗ owned A' ∗ visiting V)%I Hσ).
    intros G. iIntros "[HA HV]". iApply (iwp_wand with "[HA]"); [by iApply perform_refines|].
    iIntros (r) "[% $]". by iFrame. }
  intros r σ' Hr. split.
  - eapply holds_fact; [|apply Hr]. intros G. iIntros "[% _]". done.
  - eapply holds_mono; [|apply Hr]. intros G. iIntros "[_ $]".
Qed.

Lemma wp_unret {S A B} (m : M S A) (f : A → B) s (Q : B → S → Prop) :
  wp (a ← m; mret (f a)) s Q → wp m s (λ a s', Q (f a) s').
Proof. unfold wp, mbind, M_bind. by destruct (m s) as [[a s']|]. Qed.

Section routines.
Context (σ : ipc) (A : spec) (V : traversal).
Hypothesis (Hσ : trees_are σ A V).

(** Calls without a result. *)
Lemma trees_done {B} (m : M ipc B) o A' :
  perform o = (_ ← m; mret Done) → spec_next A o = Some A' → wp m σ (λ _ σ', trees_are σ' A' V).
Proof.
  intros Ho HA'. pose proof (trees_perform _ _ _ _ _ Hσ HA') as H. rw Ho in H.
  eapply wp_mono; [apply (wp_unret _ (λ _, Done) _ _ H)|]. by intros _ σ' [_ ?].
Qed.

Lemma trees_init s :
  is_Some (trees A !! s) → wp (ipc_splay_tree_init s) σ (λ _ σ', trees_are σ' (set_tree s ∅ A) V).
Proof.
  intros [o Ho]. apply (trees_done _ (Init s)); [done|]. by rw /= Ho.
Qed.

Lemma trees_alloc e n l r :
  e ∈ zone A → wp (ite_alloc e n l r) σ (λ _ σ', trees_are σ' (Spec (trees A) ({[e]} ∪ spare A) (zone A ∖ {[e]})) V).
Proof.
  intros He. apply (trees_done _ (Alloc e n l r)); [done|]. rw /= option_guard_True //.
Qed.

Lemma trees_free e :
  e ∈ spare A → wp (ite_free (Some e)) σ (λ _ σ', trees_are σ' (Spec (trees A) (spare A ∖ {[e]}) ({[e]} ∪ zone A)) V).
Proof.
  intros He. apply (trees_done _ (Free e)); [done|]. rw /= option_guard_True //.
Qed.

Lemma trees_pick s m :
  tree_at A s = Some m →
  wp (ipc_splay_tree_pick s) σ (λ r σ', trees_are σ' A V ∧
    match r with None => m = ∅ | Some (n, p) => ∃ e, p = Some e ∧ m !! n = Some e end).
Proof.
  intros Hm. eapply wp_mono; [apply (wp_unret _ Picked), (trees_perform _ _ _ (Pick s) A Hσ); by cbn; rw Hm|].
  intros [[n p]|] σ'; cbn; rw Hm; [intros [(? & e & [= <-] & ? & ?) ?]; eauto|intros [[= ->] ?]; done].
Qed.

Lemma trees_lookup s m name :
  tree_at A s = Some m → wp (ipc_splay_tree_lookup s name) σ (λ r σ', trees_are σ' A V ∧ r = m !! name).
Proof.
  intros Hm. eapply wp_mono; [apply (wp_unret _ Entry), (trees_perform _ _ _ (Lookup s name) A Hσ); by cbn; rw Hm|].
  intros r σ' [(? & Hm' & ->) ?]. by simplify_eq.
Qed.

Lemma trees_bounds s m name :
  tree_at A s = Some m →
  wp (ipc_splay_tree_bounds s name) σ (λ r σ', trees_are σ' A V ∧ is_lower m name r.1 ∧ is_upper m name r.2).
Proof.
  intros Hm. assert (wp (perform (Bounds s name)) σ (λ r σ', spec_result A (Bounds s name) r ∧ trees_are σ' A V)) as H.
  { apply trees_perform; [done|]. by rw /= Hm. }
  unfold perform in H. unfold wp, mbind, M_bind in *. destruct (ipc_splay_tree_bounds s name σ) as [[[lo hi] σ1]|]; [|done].
  cbn in H. destruct H as [(? & Hm' & ?) ?]. by simplify_eq.
Qed.

Lemma trees_insert s m name e :
  tree_at A s = Some m → name_ok name → m !! name = None → e ∈ spare A →
  wp (ipc_splay_tree_insert s name e) σ
    (λ _ σ', trees_are σ' (Spec (<[s := Some (<[name := e]> m)]> (trees A)) (spare A ∖ {[e]}) (zone A)) V).
Proof.
  intros Hm ???. apply (trees_done _ (Insert s name e)); [done|]. rw /= Hm /= option_guard_True //.
Qed.

Lemma trees_delete s m name e :
  tree_at A s = Some m → m !! name = Some e →
  wp (ipc_splay_tree_delete s name e) σ
    (λ _ σ', trees_are σ' (Spec (<[s := Some (delete name m)]> (trees A)) (spare A) ({[e]} ∪ zone A)) V).
Proof.
  intros Hm ?. apply (trees_done _ (Delete s name e)); [done|]. rw /= Hm /= option_guard_True //.
Qed.

Lemma trees_split s small m name :
  tree_at A s = Some m → is_Some (trees A !! small) → s ≠ small →
  wp (ipc_splay_tree_split s name small) σ
    (λ _ σ', trees_are σ' (set_tree small (filter (λ q, q.1 < name) m) (set_tree s (filter (λ q, name ≤ q.1) m) A)) V).
Proof.
  intros. apply (trees_done _ (Split s name small)); [done|]. by apply next_split.
Qed.

Lemma trees_join s small m m' :
  tree_at A s = Some m → tree_at A small = Some m' → s ≠ small → map_before m' m →
  wp (ipc_splay_tree_join s small) σ (λ _ σ', trees_are σ' (set_tree small ∅ (set_tree s (m' ∪ m) A)) V).
Proof.
  intros. apply (trees_done _ (Join s small)); [done|]. by apply next_join.
Qed.

(** *** Facts about the memory *)

Lemma trees_name s m name e : tree_at A s = Some m → m !! name = Some e → ite_name σ !! e = Some name.
Proof.
  intros Hm He. assert (wp (name_of (Some e)) σ (λ n _, n = name)) as H.
  { apply Hσ. intros G. iIntros "[HA _]". iDestruct (observe _ _ _ Hm with "HA") as (els ->) "[H HA]".
    iAssert ⌜ascending els⌝%I as %Hasc; [by iDestruct "H" as "(% & % & _)"|].
    iDestruct (splay_names with "H") as "H". rw tmap_lookup // in He. 
    iDestruct (big_sepL_elem_of _ _ (name, e) with "H") as "He"; [done|]. iApply (iwp_name_of with "He"). by iIntros "_". }
  unfold wp, name_of, mbind, M_bind, nonnull in H. cbn in H. unfold get_name in H. destruct (ite_name σ !! e); [|done].
  by rw H.
Qed.

Lemma trees_size s m : tree_at A s = Some m → (size m ≤ size (ite_name σ))%nat.
Proof.
  intros Hm. assert (wp (gets (λ σ, size (ite_name σ))) σ (λ n _, size m ≤ n)%nat) as H; [|done].
  apply Hσ. intros G. iIntros "[HA _]". iApply (iwp_gets _ (λ n, size m ≤ n)%nat). iSplit; [|by iIntros (a Ha)].
  iIntros (σ0) "Hσ". iDestruct (observe _ _ _ Hm with "HA") as (els ->) "[H HA]".
  iAssert ⌜ascending els⌝%I as %Hasc; [by iDestruct "H" as "(% & % & _)"|].
  iDestruct (splay_names with "H") as "H". iDestruct (names_size with "Hσ H") as %Hlen. iPureIntro.
  by rw -length_elems elems_tmap.
Qed.

Lemma trees_disjoint s m n e s' m' n' :
  tree_at A s = Some m → m !! n = Some e → tree_at A s' = Some m' → m' !! n' = Some e → s = s' ∧ n = n'.
Proof.
  intros Hm He Hm' He'. destruct (decide (s = s')) as [<-|Hne].
  - split; [done|]. simplify_eq. pose proof (trees_name _ _ _ _ Hm He) as H1.
    pose proof (trees_name _ _ _ _ Hm He') as H2. congruence.
  - exfalso. eapply (holds_fact _ _ False); [|exact Hσ]. intros G. iIntros "[(HF & _) _]".
    iDestruct (forest_acc2 _ _ _ _ _ Hne (proj1 (tree_at_Some _ _ _) Hm) (proj1 (tree_at_Some _ _ _) Hm') with "HF")
      as "((%els & -> & H) & (%els' & -> & H') & _)".
    iAssert ⌜ascending els⌝%I as %Hasc; [by iDestruct "H" as "(% & % & _)"|].
    iAssert ⌜ascending els'⌝%I as %Hasc'; [by iDestruct "H'" as "(% & % & _)"|].
    iDestruct (splay_names with "H") as "H". iDestruct (splay_names with "H'") as "H'".
    rw tmap_lookup // in He. rw tmap_lookup // in He'.
    iDestruct (big_sepL_elem_of _ _ (n, e) with "H") as "He"; [done|].
    iDestruct (big_sepL_elem_of _ _ (n', e) with "H'") as "He'"; [done|].
    by iDestruct (ghost_map_elem_ne with "He He'") as %?.
Qed.

Lemma trees_spare s m n e : tree_at A s = Some m → m !! n = Some e → (e ∉ spare A) ∧ (e ∉ zone A).
Proof.
  intros Hm He. split; intros Hin; (eapply (holds_fact _ _ False); [|exact Hσ]); intros G; iIntros "[(HF & HS & HZ & _) _]".
  all: iDestruct (forest_acc _ _ _ (proj1 (tree_at_Some _ _ _) Hm) with "HF") as "[(%els & -> & H) _]".
  all: iAssert ⌜ascending els⌝%I as %Hasc; [by iDestruct "H" as "(% & % & _)"|].
  all: iDestruct (splay_names with "H") as "H"; rw tmap_lookup // in He.
  all: iDestruct (big_sepL_elem_of _ _ (n, e) with "H") as "He"; [done|].
  - iDestruct (big_sepS_elem_of with "HS") as (n' x y) "[He' _]"; [done|].
    by iDestruct (ghost_map_elem_ne with "He He'") as %?.
  - iDestruct (big_sepS_elem_of with "HZ") as "He'"; [done|]. by iDestruct (unused_allocated with "He' He") as %[].
Qed.

Lemma trees_spare_name e : e ∈ spare A → is_Some (ite_name σ !! e).
Proof.
  intros He. assert (wp (name_of (Some e)) σ (λ _ _, True)) as H.
  { apply Hσ. intros G. iIntros "[(_ & HS & _) _]". iDestruct (big_sepS_elem_of with "HS") as (n x y) "[He _]"; [done|].
    iApply (iwp_name_of with "He"). by iIntros "_". }
  unfold wp, name_of, mbind, M_bind, nonnull in H. cbn in H. unfold get_name in H. by destruct (ite_name σ !! e).
Qed.

Lemma trees_spare_zone e : e ∈ spare A → e ∉ zone A.
Proof.
  intros Hin Hin'. eapply (holds_fact _ _ False); [|exact Hσ]. intros G. iIntros "[(_ & HS & HZ & _) _]".
  iDestruct (big_sepS_elem_of with "HS") as (n' x y) "[He _]"; [done|].
  iDestruct (big_sepS_elem_of with "HZ") as "He'"; [done|]. by iDestruct (unused_allocated with "He' He") as %[].
Qed.

Lemma trees_names s m n : tree_at A s = Some m → is_Some (m !! n) → name_ok n.
Proof.
  intros Hm [e He]. eapply (holds_fact _ _ _); [|exact Hσ]. intros G. iIntros "[(HF & _) _]".
  iDestruct (forest_acc _ _ _ (proj1 (tree_at_Some _ _ _) Hm) with "HF") as "[(%els & -> & H) _]".
  iDestruct "H" as "(% & %Hasc & %Hok & _)". iPureIntro. rw tmap_lookup // in He.
  by apply (proj1 (Forall_forall _ _) Hok (n, e)).
Qed.

End routines.

(** ** Traversal *)

Definition hide (s : sid) (A : spec) : spec := Spec (delete s (trees A)) (spare A) (zone A).
Definition add_zone (e : loc) (A : spec) : spec := Spec (trees A) (spare A) ({[e]} ∪ zone A).

Lemma visit_current `{!ipcG Σ} s before todo p : visit s before todo p -∗ ⌜p = current todo⌝.
Proof. destruct todo as [|[n e] todo]; iIntros "[-> _]"; done. Qed.

Lemma trees_start σ A s m :
  trees_are σ A None → tree_at A s = Some m →
  wp (ipc_splay_traverse_start s) σ (λ p σ', p = current (elems m) ∧ trees_are σ' (hide s A) (Some (s, [], elems m))).
Proof.
  intros Hσ Hm. eapply wp_mono.
  { apply (holds_step _ σ _ (λ p G, ⌜p = current (elems m)⌝ ∗ owned (hide s A) ∗ visiting (Some (s, [], elems m)))%I Hσ).
    intros G. iIntros "[(HF & HA) _]". iDestruct (big_sepM_delete _ _ _ _ (proj1 (tree_at_Some _ _ _) Hm) with "HF") as "[(%els & -> & H) HF]".
    iAssert ⌜ascending els ∧ names_ok els⌝%I as %[Hasc Hok]; [by iDestruct "H" as "(% & % & % & _)"|].
    iApply (iwp_traverse_start with "H"). iIntros (p) "H". rw elems_tmap //.
    iDestruct (visit_current with "H") as %->. by iFrame. }
  intros p σ' H. split; [eapply holds_fact; [|apply H]; by iIntros (G) "[% _]"|].
  eapply holds_mono; [|apply H]. intros G. iIntros "[_ $]".
Qed.

Lemma trees_next σ A s before n e todo (del : bool) :
  trees_are σ A (Some (s, before, (n, e) :: todo)) →
  wp (ipc_splay_traverse_next s del) σ (λ p σ', p = current todo ∧
    trees_are σ' (if del then add_zone e A else A) (Some (s, if del then before else before ++ [(n, e)], todo))).
Proof.
  intros Hσ. eapply wp_mono.
  { apply (holds_step _ σ _ (λ p G, ⌜p = current todo⌝ ∗ owned (if del then add_zone e A else A) ∗
      visiting (Some (s, if del then before else before ++ [(n, e)], todo)))%I Hσ).
    intros G. iIntros "[(HF & HS & HZ & Hloc) [[%Hasc %Hok] H]]".
    iApply (iwp_traverse_next _ _ _ _ _ del with "H Hloc"); [done|by apply names_ok_app in Hok as [? _]|].
    iIntros (p) "H He Hloc". iDestruct (visit_current with "H") as %->. iSplit; [done|].
    destruct del.
    - iFrame "HF HS Hloc H". iSplit; [iApply (zoned_add with "HZ He")|iPureIntro].
      apply ascending_mid in Hasc. apply names_ok_app in Hok as [? [_ ?]%Forall_cons]. split; [apply Hasc|by apply names_ok_app].
    - iFrame. iPureIntro. by rw -!app_assoc. }
  intros p σ' H. split; [eapply holds_fact; [|apply H]; by iIntros (G) "[% _]"|].
  eapply holds_mono; [|apply H]. intros G. iIntros "[_ $]".
Qed.

Lemma trees_finish σ A s els :
  trees_are σ A (Some (s, els, [])) → trees A !! s = None →
  wp (ipc_splay_traverse_finish s) σ (λ _ σ', trees_are σ' (set_tree s (tmap els) A) None).
Proof.
  intros Hσ Hs. apply (holds_step _ σ _ (λ _ G, owned (set_tree s (tmap els) A) ∗ visiting None)%I Hσ).
  intros G. iIntros "[(HF & HA) [[%Hasc %Hok] H]]". rw app_nil_r in Hasc Hok.
  iApply (iwp_traverse_finish with "H"); [done..|]. iIntros "H". iSplit; [|done]. iFrame "HA".
  rw /forest big_sepM_insert //. iFrame "HF". iExists els. by iFrame.
Qed.

Lemma trees_visit_name σ A s before n e todo :
  trees_are σ A (Some (s, before, (n, e) :: todo)) → ite_name σ !! e = Some n.
Proof.
  intros Hσ. assert (wp (name_of (Some e)) σ (λ n' _, n' = n)) as H.
  { apply Hσ. intros G. iIntros "[_ [_ (_ & %z & %l & %r & %T & _ & _ & _ & _ & _ & (He & _) & _)]]".
    iApply (iwp_name_of with "He"). by iIntros "_". }
  unfold wp, name_of, mbind, M_bind, nonnull in H. cbn in H. unfold get_name in H. destruct (ite_name σ !! e); [|done].
  by rw H.
Qed.

(** ** The memory at boot *)

Lemma trees_boot σ A : boot σ A → trees_are σ A None.
Proof.
  intros Hboot B m φ Hm. apply (iwp_adequacy _ _ (zone A)); [apply Hboot|]. intros G. iIntros "H".
  iApply Hm. iSplit; [|done]. by iApply boot_owned.
Qed.
