(* ===== verification/IpcHash.v ===== *)
(** * xnu reverse hash tables of IPC spaces: definitions

    Model of src/xnu-792/osfmk/ipc/ipc_hash.c, with the structures of ipc_entry.h
    and ipc_space.h it works on.  A space has a table of entries; entries that do
    not fit in the table are tree entries, in the splay tree of the space.  Pure
    send rights are also found by their object: those of the table in an
    open-addressing hash table whose slots are the fields [ie_index] of the same
    table, those of the tree in the buckets of a global hash table, linked through
    [ite_next].  Addresses of objects and of spaces are 32 bits; 0 is NULL.  The
    bucket locks are held for the whole of each routine. *)

From Stdlib Require Import ZifyBool.
From S2P Require Import Prelude IpcSplay.

Module Ipc.
Export Splay.

(** ** Names and entries *)

Definition MACH_PORT_INDEX (name : Z) : Z := Z.shiftr name 8.
Definition MACH_PORT_GEN (name : Z) : Z := u32 (Z.shiftl (Z.land name 0xff) 24).
Definition MACH_PORT_MAKE (index gen : Z) : Z := Z.lor (u32 (Z.shiftl index 8)) (Z.shiftr gen 24).
Definition MACH_PORT_NULL : Z := 0.
Definition MACH_PORT_DEAD : Z := 2 ^ 32 - 1.
Definition MACH_PORT_VALID (name : Z) : bool := negb (name =? MACH_PORT_NULL) && negb (name =? MACH_PORT_DEAD).

Definition MACH_PORT_TYPE_NONE : Z := 0.
Definition MACH_PORT_TYPE_SEND : Z := 0x10000.

Definition IE_BITS_TYPE (bits : Z) : Z := Z.land bits 0x1f0000.
Definition IE_BITS_COLLISION : Z := 0x800000.
Definition IE_BITS_GEN_MASK : Z := 0xff000000.
Definition IE_BITS_GEN (bits : Z) : Z := Z.land bits IE_BITS_GEN_MASK.
Definition IE_BITS_GEN_ONE : Z := 0x4000000.
Definition IE_BITS_NEW_GEN (old : Z) : Z := Z.land (u32 (old + IE_BITS_GEN_ONE)) IE_BITS_GEN_MASK.

(** [ie_next] and [ie_request] are one field. *)
Record ipc_entry := Ie {
  ie_object : Z;
  ie_bits : Z;
  ie_next : Z;
  ie_index : Z;
}.
Abbreviation ie_request := ie_next.

(** The part of a tree entry the splay tree does not touch. *)
Record ipc_tree_entry := Ite {
  ite_object : Z;
  ite_bits : Z;
  ite_request : Z;
  ite_next : option loc;
  ite_space : positive;
}.

(** [is_table_next] is an index into [ipc_table_entries]; the tree of a space is
    the structure of the same number. *)
Record ipc_space := Is {
  is_active : bool;
  is_growing : bool;
  is_table : list ipc_entry;
  is_table_size : Z;
  is_table_next : nat;
  is_tree_total : Z;
  is_tree_small : Z;
  is_tree_hash : Z;
  is_fast : bool;
}.

Definition IO_NULL : Z := 0.

Local Abbreviation MI := (M ipc_space).

Definition set_entry (e : ipc_entry) (i : Z) (s : ipc_space) : ipc_space :=
  Is (is_active s) (is_growing s) (<[Z.to_nat i := e]> (is_table s)) (is_table_size s) (is_table_next s)
     (is_tree_total s) (is_tree_small s) (is_tree_hash s) (is_fast s).

(** [table[i]] *)
Definition get_entry (i : Z) : MI ipc_entry :=
  λ s, if i <? 0 then Crash BAD_ACCESS
       else match is_table s !! Z.to_nat i with Some e => Ok (e, s) | None => Crash BAD_ACCESS end.
Definition put_entry (i : Z) (e : ipc_entry) : MI unit :=
  λ s, if i <? 0 then Crash BAD_ACCESS
       else match is_table s !! Z.to_nat i with Some _ => Ok (tt, set_entry e i s) | None => Crash BAD_ACCESS end.

Definition with_index (v : Z) (e : ipc_entry) : ipc_entry := Ie (ie_object e) (ie_bits e) (ie_next e) v.
Definition put_index (i v : Z) : MI unit := e ← get_entry i; put_entry i (with_index v e).

(** ** The table of a space *)

Definition IH_LOCAL_HASH (obj size : Z) : Z := Z.shiftr (u32 obj) 6 `mod` size.

(** [if (++hindex == size) hindex = 0] *)
Definition step_index (hindex size : Z) : Z := if hindex + 1 =? size then 0 else hindex + 1.

Fixpoint local_lookup_loop (fuel : nat) (obj size hindex : Z) : MI (option (Z * Z)) :=
  match fuel with
  | O => crash OUT_OF_FUEL
  | S fuel =>
      slot ← get_entry hindex;
      let index := ie_index slot in
      if index =? 0 then mret None
      else
        entry ← get_entry index;
        if ie_object entry =? obj then mret (Some (MACH_PORT_MAKE index (IE_BITS_GEN (ie_bits entry)), index))
        else local_lookup_loop fuel obj size (step_index hindex size)
  end.

Definition loop_fuel : MI nat := gets (λ s, S (length (is_table s))).

Definition ipc_hash_local_lookup (obj : Z) : MI (option (Z * Z)) :=
  _ ← assert_M (negb (obj =? IO_NULL));
  size ← gets is_table_size;
  fuel ← loop_fuel;
  local_lookup_loop fuel obj size (IH_LOCAL_HASH obj size).

Fixpoint local_insert_loop (fuel : nat) (size hindex : Z) : MI Z :=
  match fuel with
  | O => crash OUT_OF_FUEL
  | S fuel =>
      slot ← get_entry hindex;
      if ie_index slot =? 0 then mret hindex else local_insert_loop fuel size (step_index hindex size)
  end.

Definition ipc_hash_local_insert (obj index : Z) : MI unit :=
  _ ← assert_M (negb (index =? 0));
  _ ← assert_M (negb (obj =? IO_NULL));
  size ← gets is_table_size;
  entry ← get_entry index;
  _ ← assert_M (ie_object entry =? obj);
  fuel ← loop_fuel;
  hindex ← local_insert_loop fuel size (IH_LOCAL_HASH obj size);
  put_index hindex index.

Fixpoint local_find_loop (fuel : nat) (index size hindex : Z) : MI Z :=
  match fuel with
  | O => crash OUT_OF_FUEL
  | S fuel =>
      slot ← get_entry hindex;
      if ie_index slot =? index then mret hindex else local_find_loop fuel index size (step_index hindex size)
  end.

(** The hole is on the way from [tindex], where the object belongs, to [dindex]. *)
Definition displaced (dindex hindex tindex : Z) : bool :=
  if dindex <? hindex then (dindex <? tindex) && (tindex <=? hindex)
  else (dindex <? tindex) || (tindex <=? hindex).

(** The inner loop: the next displaced object of the clump, or its end. *)
Fixpoint local_displaced_loop (fuel : nat) (size hindex dindex : Z) : MI (Z * Z) :=
  match fuel with
  | O => crash OUT_OF_FUEL
  | S fuel =>
      let dindex := step_index dindex size in
      _ ← assert_M (negb (dindex =? hindex));
      slot ← get_entry dindex;
      let index := ie_index slot in
      if index =? 0 then mret (dindex, index)
      else
        entry ← get_entry index;
        let tobj := ie_object entry in
        _ ← assert_M (negb (tobj =? IO_NULL));
        if displaced dindex hindex (IH_LOCAL_HASH tobj size) then mret (dindex, index)
        else local_displaced_loop fuel size hindex dindex
  end.

Fixpoint local_delete_loop (fuel : nat) (size hindex : Z) : MI unit :=
  match fuel with
  | O => crash OUT_OF_FUEL
  | S fuel =>
      inner ← loop_fuel;
      '(dindex, index) ← local_displaced_loop inner size hindex hindex;
      _ ← put_index hindex index;
      if index =? 0 then mret tt else local_delete_loop fuel size dindex
  end.

Definition ipc_hash_local_delete (obj index : Z) : MI unit :=
  _ ← assert_M (negb (index =? MACH_PORT_NULL));
  _ ← assert_M (negb (obj =? IO_NULL));
  size ← gets is_table_size;
  entry ← get_entry index;
  _ ← assert_M (ie_object entry =? obj);
  fuel ← loop_fuel;
  hindex ← local_find_loop fuel index size (IH_LOCAL_HASH obj size);
  fuel ← loop_fuel;
  local_delete_loop fuel size hindex.

End Ipc.

Import Ipc.

(** ** xnu reverse hash tables: open addressing in the table of a space

    The slots of the table as a function on positions, the invariant of linear
    probing (from the place an object belongs to, to the place it is, no slot is
    empty), and the three routines: lookup, insertion, and the deletion that moves
    displaced objects into the hole it leaves. *)

(** ** Cyclic distance *)

Section probing.
Context (n : Z) (Hn : 0 < n).
Implicit Types (f home : Z → Z).

Definition dist (a b : Z) : Z := if b <? a then b - a + n else b - a.
Definition pos (h : Z) : Prop := 0 ≤ h < n.

Lemma step_pos h : pos h → pos (step_index h n).
Proof. unfold pos, step_index. intros. case_match; lia. Qed.

Lemma step_dist t h : pos t → pos h → dist t h < n - 1 → dist t (step_index h n) = dist t h + 1.
Proof. unfold pos, dist, step_index. intros. repeat case_match; lia. Qed.

Lemma dist_range t h : pos t → pos h → 0 ≤ dist t h < n.
Proof. unfold pos, dist. intros. case_match; lia. Qed.

Lemma dist_inj t h h' : pos t → pos h → pos h' → dist t h = dist t h' → h = h'.
Proof. unfold pos, dist. intros. repeat case_match; lia. Qed.

Lemma dist_self t : dist t t = 0.
Proof. unfold dist. case_match; lia. Qed.

(** The test for a displaced object, as a comparison of distances. *)
Lemma displaced_spec d h t :
  pos d → pos h → pos t → d ≠ h → displaced d h t = true ↔ dist t h < dist t d.
Proof. unfold pos, displaced, dist. intros. repeat case_match; lia. Qed.

(** ** The probing invariant *)

Definition full f (t h : Z) : Prop := ∀ p, pos p → dist t p < dist t h → f p ≠ 0.

Record probing f home : Prop := {
  pr_home : ∀ h, pos h → f h ≠ 0 → pos (home (f h));
  pr_full : ∀ h, pos h → f h ≠ 0 → full f (home (f h)) h;
  pr_inj : ∀ h h', pos h → pos h' → f h ≠ 0 → f h = f h' → h = h';
  pr_index : ∀ h, pos h → f h ≠ 0 → 0 < f h < n;
}.

Definition upd f (h v : Z) : Z → Z := λ p, if p =? h then v else f p.

(** Index 0 is never hashed, so there is room. *)
Lemma empty_slot f home : probing f home → ∃ e, pos e ∧ f e = 0.
Proof.
  intros Hp. destruct (decide (Exists (λ h, f h = 0) (seqZ 0 n))) as [He|He].
  { apply Exists_exists in He as (e & He%elem_of_seqZ & Hf). exists e. split; [unfold pos; lia|done]. }
  exfalso. assert (∀ h, pos h → f h ≠ 0) as Hall.
  { intros h Hh Hf. apply He, Exists_exists. exists h. split; [apply elem_of_seqZ; unfold pos in Hh; lia|done]. }
  assert (NoDup (f <$> seqZ 0 n)) as Hnd.
  { apply NoDup_fmap_2_strong; [|apply NoDup_seqZ]. intros x y Hx%elem_of_seqZ Hy%elem_of_seqZ Hxy.
    apply (pr_inj _ _ Hp); unfold pos; [lia|lia|apply Hall; unfold pos; lia|done]. }
  assert (f <$> seqZ 0 n ⊆ seqZ 1 (n - 1)) as Hsub.
  { intros v (h & -> & Hh%elem_of_seqZ)%list_elem_of_fmap. apply elem_of_seqZ.
    pose proof (pr_index _ _ Hp h). unfold pos in *. pose proof (Hall h). lia. }
  apply (NoDup_submseteq _ _ Hnd) in Hsub. apply submseteq_length in Hsub.
  rewrite length_fmap, !length_seqZ in Hsub. lia.
Qed.

(** Fill the first empty slot after the place an object belongs to. *)
Lemma probing_insert f home h v :
  probing f home → pos h → f h = 0 → 0 < v < n → pos (home v) → full f (home v) h →
  (∀ p, pos p → f p ≠ v) → probing (upd f h v) home.
Proof.
  intros Hp Hh Hf Hv Ht Hfull Hnew. unfold upd. split.
  - intros p Hpp. case_match; intros; [done|]. by apply (pr_home _ _ Hp).
  - intros p Hpp Hfp q Hq Hd. destruct (q =? h) eqn:Hqh; [lia|].
    destruct (p =? h) eqn:Hph; [assert (p = h) as -> by lia; by apply Hfull|].
    by apply (pr_full _ _ Hp p).
  - intros p q Hpp Hq. destruct (p =? h) eqn:Hph, (q =? h) eqn:Hqh; intros Hne Heq; [lia|..].
    + by destruct (Hnew q).
    + by destruct (Hnew p).
    + by apply (pr_inj _ _ Hp).
  - intros p Hpp. case_match; [lia|]. by apply (pr_index _ _ Hp).
Qed.

(** ** Deletion *)

(** There is a hole at [h]; every object whose way leads over it lies at distance
    [k] of the hole or farther. *)
Record holed f home (h k : Z) : Prop := {
  ho_hole : pos h;
  ho_home : ∀ p, pos p → p ≠ h → f p ≠ 0 → pos (home (f p));
  ho_full : ∀ p, pos p → p ≠ h → f p ≠ 0 →
    ∀ q, pos q → q ≠ h → dist (home (f p)) q < dist (home (f p)) p → f q ≠ 0;
  ho_near : ∀ p, pos p → p ≠ h → f p ≠ 0 → dist h p < k → dist (home (f p)) p ≤ dist (home (f p)) h;
  ho_inj : ∀ p q, pos p → pos q → p ≠ h → q ≠ h → f p ≠ 0 → f p = f q → p = q;
  ho_index : ∀ p, pos p → p ≠ h → f p ≠ 0 → 0 < f p < n;
}.

Lemma holed_start f home h : probing f home → pos h → holed f home h 0.
Proof.
  intros Hp Hh. split; [done|..].
  - intros. by apply (pr_home _ _ Hp).
  - intros p Hpp Hne Hfp q Hq _ Hd. by apply (pr_full _ _ Hp p).
  - intros p Hpp _ _ Hd. pose proof (dist_range h p Hh Hpp). lia.
  - intros. by apply (pr_inj _ _ Hp).
  - intros. by apply (pr_index _ _ Hp).
Qed.

(** An object whose way does not lead over the hole stays. *)
Lemma holed_skip f home h d :
  holed f home h (dist h d) → pos d → d ≠ h → f d ≠ 0 → displaced d h (home (f d)) = false →
  holed f home h (dist h d + 1).
Proof.
  intros Hh Hd Hne Hfd Hnot. destruct Hh as [Hhole Hhome Hfull Hnear Hinj Hindex]. split; try done.
  intros p Hp Hph Hfp Hdist. destruct (decide (p = d)) as [->|Hpd].
  - pose proof (displaced_spec d h (home (f d)) Hd Hhole (Hhome _ Hd Hne Hfd) Hne). rewrite Hnot in H. lia.
  - apply Hnear; [done..|]. pose proof (dist_inj h p d Hhole Hp Hd). lia.
Qed.

(** A displaced object moves into the hole and leaves one. *)
Lemma hole_moves f home h d :
  holed f home h (dist h d) → pos d → d ≠ h → f d ≠ 0 → displaced d h (home (f d)) = true →
  holed (upd f h (f d)) home d 0.
Proof.
  intros Hh Hd Hne Hfd Hmove. destruct Hh as [Hhole Hhome Hfull Hnear Hinj Hindex].
  pose proof (Hhome _ Hd Hne Hfd) as Ht.
  apply (displaced_spec d h _ Hd Hhole Ht Hne) in Hmove. unfold upd. split; try done.
  - intros p Hp Hpd. case_match; intros; [done|]. apply Hhome; [done|lia|done].
  - intros p Hp Hpd Hfp q Hq Hqd Hdist. destruct (q =? h) eqn:Hqh; [done|].
    destruct (p =? h) eqn:Hph.
    + assert (p = h) as -> by lia. apply (Hfull d); [done..|lia|lia].
    + apply (Hfull p); [done|lia|done|done|lia|done].
  - intros p Hp Hpd _ Hdist. pose proof (dist_range d p Hd Hp). lia.
  - intros p q Hp Hq Hpd Hqd. destruct (p =? h) eqn:Hph, (q =? h) eqn:Hqh; intros Hnz Heq; [lia|..].
    + destruct Hqd. symmetry. apply Hinj; [done|done|done|lia|done|done].
    + destruct Hpd. apply Hinj; [done|done|lia|done|done|done].
    + apply Hinj; [done|done|lia|lia|done|done].
  - intros p Hp Hpd. case_match; intros; apply Hindex; try done; lia.
Qed.

(** At the end of the clump the hole may stay. *)
Lemma holed_stop f home h e :
  holed f home h (dist h e) → pos e → e ≠ h → f e = 0 → probing (upd f h 0) home.
Proof.
  intros Hh He Hne Hfe. destruct Hh as [Hhole Hhome Hfull Hnear Hinj Hindex]. unfold upd. split.
  - intros p Hp. case_match; intros; [done|]. apply Hhome; [done|lia|done].
  - intros p Hp Hfp q Hq Hdist. destruct (p =? h) eqn:Hph; [done|]. assert (p ≠ h) as Hph' by lia.
    destruct (q =? h) eqn:Hqh; [|apply (Hfull p); [done..|lia|done]]. assert (q = h) as -> by lia. exfalso.
    pose proof (Hhome p Hp Hph' Hfp) as Ht. destruct (decide (dist h p < dist h e)) as [Hlt|Hge].
    { pose proof (Hnear p Hp Hph' Hfp Hlt). lia. }
    apply (Hfull p Hp Hph' Hfp e He Hne); [|done].
    assert (p ≠ e) as Hpe by (intros ->; done).
    unfold pos, dist in *. repeat case_match; lia.
  - intros p q Hp Hq. destruct (p =? h) eqn:Hph, (q =? h) eqn:Hqh; intros Hnz Heq; [done..|]. apply Hinj; [done|done|lia|lia|done|done].
  - intros p Hp. case_match; [done|]. intros. apply Hindex; [done|lia|done].
Qed.

Lemma probing_ext f g home home' :
  (∀ p, pos p → f p = g p) → (∀ i, home i = home' i) → probing f home → probing g home'.
Proof.
  intros Hf Hhome [H1 H2 H3 H4]. split.
  - intros h Hh. rewrite <- (Hf h Hh), <- Hhome. auto.
  - intros h Hh Hne p Hp. rewrite <- (Hf h Hh), <- Hhome, <- (Hf p Hp) in *. by apply H2.
  - intros h h' Hh Hh'. rewrite <- !Hf by done. auto.
  - intros h Hh. rewrite <- (Hf h Hh). auto.
Qed.

Lemma holed_ext f g home home' h k :
  (∀ p, pos p → f p = g p) → (∀ i, home i = home' i) → holed f home h k → holed g home' h k.
Proof.
  intros Hf Hhome [H1 H2 H3 H4 H5 H6]. split; [done|..].
  - intros p Hp. rewrite <- (Hf p Hp), <- Hhome. auto.
  - intros p Hp Hph. rewrite <- (Hf p Hp), <- Hhome. intros Hne q Hq. rewrite <- (Hf q Hq). by apply H3.
  - intros p Hp. rewrite <- (Hf p Hp), <- Hhome. auto.
  - intros p q Hp Hq. rewrite <- !Hf by done. auto.
  - intros p Hp. rewrite <- (Hf p Hp). auto.
Qed.

End probing.

(** ** The table of a space *)

Implicit Types (s : ipc_space).

Definition slot s (h : Z) : Z := default 0 (ie_index <$> is_table s !! Z.to_nat h).
Definition objof s (i : Z) : Z := default 0 (ie_object <$> is_table s !! Z.to_nat i).
Definition genof s (i : Z) : Z := default 0 (IE_BITS_GEN ∘ ie_bits <$> is_table s !! Z.to_nat i).
Definition home s (i : Z) : Z := IH_LOCAL_HASH (objof s i) (is_table_size s).

Definition sized s : Prop := is_table_size s = Z.of_nat (length (is_table s)) ∧ 0 < is_table_size s.

(** Everything but the slots. *)
Definition unhashed s : ipc_space :=
  Is (is_active s) (is_growing s) (with_index 0 <$> is_table s) (is_table_size s) (is_table_next s)
     (is_tree_total s) (is_tree_small s) (is_tree_hash s) (is_fast s).

Lemma unhashed_lookup s s' i :
  unhashed s = unhashed s' → with_index 0 <$> is_table s !! i = with_index 0 <$> is_table s' !! i.
Proof. intros H. apply (f_equal is_table) in H. cbn in H. by rewrite <- !list_lookup_fmap, H. Qed.

Lemma unhashed_objof s s' i : unhashed s = unhashed s' → objof s i = objof s' i.
Proof.
  intros H%(λ H, unhashed_lookup _ _ (Z.to_nat i) H). unfold objof.
  apply (f_equal (fmap ie_object)) in H. destruct (is_table s !! _), (is_table s' !! _); cbn in *; congruence.
Qed.
Lemma unhashed_size s s' : unhashed s = unhashed s' → is_table_size s = is_table_size s'.
Proof. by intros H%(f_equal is_table_size). Qed.
Lemma unhashed_home s s' i : unhashed s = unhashed s' → home s i = home s' i.
Proof. intros H. unfold home. by rewrite (unhashed_objof _ _ _ H), (unhashed_size _ _ H). Qed.
Lemma unhashed_sized s s' : unhashed s = unhashed s' → sized s → sized s'.
Proof.
  intros H. unfold sized. rewrite <- (unhashed_size _ _ H). apply (f_equal is_table) in H. cbn in H.
  apply (f_equal length) in H. rewrite !length_fmap in H. by rewrite H.
Qed.

(** [H] has the index of every hashed object. *)
Record hash_inv s (H : gmap Z Z) : Prop := {
  hi_sized : sized s;
  hi_probing : probing (is_table_size s) (slot s) (home s);
  hi_object : ∀ h, pos (is_table_size s) h → slot s h ≠ 0 → objof s (slot s h) ≠ IO_NULL;
  hi_map : ∀ obj i, H !! obj = Some i ↔ i ≠ 0 ∧ objof s i = obj ∧ ∃ h, pos (is_table_size s) h ∧ slot s h = i;
}.

Lemma home_pos s i : sized s → pos (is_table_size s) (home s i).
Proof. intros [_ ?]. unfold home, IH_LOCAL_HASH, pos. by apply Z.mod_pos_bound. Qed.

(** ** Rules *)

Lemma wp_get_entry s i (Q : ipc_entry → ipc_space → Prop) :
  sized s → pos (is_table_size s) i → (∀ e, is_table s !! Z.to_nat i = Some e → Q e s) → wp (get_entry i) s Q.
Proof.
  intros [Hs _] [??] HQ. destruct (lookup_lt_is_Some_2 (is_table s) (Z.to_nat i)) as [e He]; [lia|].
  unfold wp, get_entry. destruct (Z.ltb_spec i 0); [lia|]. rewrite He. auto.
Qed.

Lemma wp_put_index s h v (Q : unit → ipc_space → Prop) :
  sized s → pos (is_table_size s) h →
  (∀ s', unhashed s' = unhashed s → (∀ p, pos (is_table_size s) p → slot s' p = upd (slot s) h v p) → Q tt s') →
  wp (put_index h v) s Q.
Proof.
  intros Hs Hh HQ. apply wp_bind, wp_get_entry; [done..|]. intros e He. unfold wp, put_entry.
  destruct Hh as [Hh0 Hh]. destruct (Z.ltb_spec h 0); [lia|]. rewrite He. apply HQ.
  - unfold unhashed, set_entry. cbn. f_equal. rewrite list_fmap_insert. apply list_insert_id.
    rewrite list_lookup_fmap, He. done.
  - intros p [Hp0 Hp]. unfold slot, upd. cbn. destruct (Z.eqb_spec p h) as [->|Hne].
    + rewrite list_lookup_insert_eq; [done|]. eapply lookup_lt_Some; eauto.
    + rewrite list_lookup_insert_ne by lia. done.
Qed.

Lemma slot_entry s h e : is_table s !! Z.to_nat h = Some e → ie_index e = slot s h.
Proof. unfold slot. by intros ->. Qed.
Lemma objof_entry s i e : is_table s !! Z.to_nat i = Some e → ie_object e = objof s i.
Proof. unfold objof. by intros ->. Qed.
Lemma genof_entry s i e : is_table s !! Z.to_nat i = Some e → IE_BITS_GEN (ie_bits e) = genof s i.
Proof. unfold genof. by intros ->. Qed.

(** ** Lookup *)

(** The part of the way from [t] that was walked. *)
Definition walked (n : Z) (P : Z → Prop) (t h : Z) : Prop := ∀ p, pos n p → dist n t p < dist n t h → P p.

Lemma walked_start n P t : pos n t → walked n P t t.
Proof. intros Ht p Hp. rewrite dist_self. pose proof (dist_range n t p Ht Hp). lia. Qed.

Lemma walked_step n P t h :
  pos n t → pos n h → dist n t h < n - 1 → walked n P t h → P h → walked n P t (step_index h n).
Proof.
  intros Ht Hh Hd Hw HP p Hp. assert (0 < n) by (unfold pos in *; lia). rewrite step_dist by done. intros Hlt.
  destruct (decide (p = h)) as [->|Hne]; [done|]. apply Hw; [done|].
  pose proof (dist_inj n t p h Ht Hp Hh). lia.
Qed.

(** The walk over full slots ends before it is back. *)
Lemma walk_ends n f home t h :
  0 < n → probing n f home → pos n t → pos n h → walked n (λ p, f p ≠ 0) t h → f h ≠ 0 → dist n t h < n - 1.
Proof.
  intros Hn Hp Ht Hh Hw Hf. destruct (empty_slot n Hn f home Hp) as (e & He & Hfe).
  pose proof (dist_range n t e Ht He). pose proof (dist_range n t h Ht Hh).
  destruct (decide (dist n t e < dist n t h)) as [Hlt|Hge]; [by destruct (Hw e He Hlt)|].
  pose proof (dist_inj n t e h Ht He Hh). destruct (decide (e = h)) as [->|]; [done|]. lia.
Qed.

Section lookup.
Context (s : ipc_space) (H : gmap Z Z) (Hinv : hash_inv s H) (obj : Z).
Abbreviation n := (is_table_size s).

Definition find_result (i : Z) : Z * Z := (MACH_PORT_MAKE i (genof s i), i).

Lemma wp_local_lookup_loop fuel t h :
  t = IH_LOCAL_HASH obj n → pos n h → n - dist n t h < Z.of_nat fuel →
  walked n (λ p, slot s p ≠ 0 ∧ objof s (slot s p) ≠ obj) t h →
  wp (local_lookup_loop fuel obj n h) s (λ r s', s' = s ∧ r = find_result <$> H !! obj).
Proof.
  destruct Hinv as [Hs Hp Hobj Hmap]. assert (0 < n) as Hn by apply Hs.
  intros Ht. assert (pos n t) as Htp by (subst t; unfold pos, IH_LOCAL_HASH; by apply Z.mod_pos_bound).
  induction fuel as [|fuel IH] in h |- *; intros Hh Hfuel Hw.
  { pose proof (dist_range n t h Htp Hh). lia. }
  cbn [local_lookup_loop]. apply wp_bind, wp_get_entry; [done..|]. intros e He.
  rewrite (slot_entry _ _ _ He). destruct (Z.eqb_spec (slot s h) 0) as [Hz|Hnz].
  - apply wp_ret. split; [done|]. destruct (H !! obj) as [i|] eqn:Hi; [|done]. exfalso.
    apply Hmap in Hi as (Hi0 & Hio & h' & Hh' & <-).
    assert (home s (slot s h') = t) as Hhome by (unfold home; by rewrite Hio).
    destruct (decide (dist n t h' < dist n t h)) as [Hlt|Hge]; [by destruct (Hw h' Hh' Hlt)|].
    pose proof (dist_inj n t h' h Htp Hh' Hh). destruct (decide (h' = h)) as [->|Hhh]; [done|].
    apply (pr_full n _ _ Hp h' Hh' Hi0 h Hh); [rewrite Hhome; lia|done].
  - apply wp_bind, wp_get_entry; [done| |].
    { pose proof (pr_index n _ _ Hp h Hh Hnz). unfold pos. lia. }
    intros e' He'. rewrite (objof_entry _ _ _ He'), (genof_entry _ _ _ He').
    destruct (Z.eqb_spec (objof s (slot s h)) obj) as [Heq|Hne].
    + apply wp_ret. split; [done|]. assert (H !! obj = Some (slot s h)) as -> by (apply Hmap; eauto). done.
    + assert (dist n t h < n - 1) as Hlt.
      { eapply walk_ends; [done..| |done]. intros p Hpp Hd. by destruct (Hw p Hpp Hd). }
      apply IH; [by apply step_pos|rewrite step_dist by done; lia|]. by apply walked_step.
Qed.

Lemma wp_local_lookup :
  obj ≠ IO_NULL → wp (ipc_hash_local_lookup obj) s (λ r s', s' = s ∧ r = find_result <$> H !! obj).
Proof.
  intros Hobj. destruct (hi_sized _ _ Hinv) as [Hs Hn].
  assert (pos n (IH_LOCAL_HASH obj n)) by (unfold pos, IH_LOCAL_HASH; by apply Z.mod_pos_bound).
  unfold ipc_hash_local_lookup, loop_fuel. apply wp_bind, wp_assert; [lia|]. apply wp_bind, wp_gets. apply wp_bind, wp_gets.
  eapply wp_local_lookup_loop; [done|done|rewrite dist_self; lia|by apply walked_start].
Qed.

End lookup.

(** ** Insertion *)

Lemma wp_local_insert_loop s home' fuel t h :
  sized s → probing (is_table_size s) (slot s) home' → pos (is_table_size s) t → pos (is_table_size s) h →
  is_table_size s - dist (is_table_size s) t h < Z.of_nat fuel →
  walked (is_table_size s) (λ p, slot s p ≠ 0) t h →
  wp (local_insert_loop fuel (is_table_size s) h) s
    (λ r s', s' = s ∧ pos (is_table_size s) r ∧ slot s r = 0 ∧ full (is_table_size s) (slot s) t r).
Proof.
  intros Hs Hp Ht. assert (0 < is_table_size s) as Hn by apply Hs.
  induction fuel as [|fuel IH] in h |- *; intros Hh Hfuel Hw.
  { pose proof (dist_range _ t h Ht Hh). lia. }
  cbn [local_insert_loop]. apply wp_bind, wp_get_entry; [done..|]. intros e He. rewrite (slot_entry _ _ _ He).
  destruct (Z.eqb_spec (slot s h) 0) as [Hz|Hnz]; [by apply wp_ret|].
  assert (dist (is_table_size s) t h < is_table_size s - 1) as Hlt by (by eapply walk_ends).
  apply IH; [by apply step_pos|rewrite step_dist by done; lia|]. by apply walked_step.
Qed.

Lemma wp_local_insert s H obj index :
  hash_inv s H → obj ≠ IO_NULL → 0 < index < is_table_size s → objof s index = obj → H !! obj = None →
  wp (ipc_hash_local_insert obj index) s (λ _ s', unhashed s' = unhashed s ∧ hash_inv s' (<[obj := index]> H)).
Proof.
  intros [Hs Hp Hnz Hmap] Hobj Hindex Ho Hnew. assert (0 < is_table_size s) as Hn by apply Hs.
  unfold ipc_hash_local_insert, loop_fuel. apply wp_bind, wp_assert; [lia|]. apply wp_bind, wp_assert; [lia|].
  apply wp_bind, wp_gets. apply wp_bind, wp_get_entry; [done|unfold pos; lia|]. intros e He.
  apply wp_bind, wp_assert; [rewrite (objof_entry _ _ _ He); lia|]. apply wp_bind, wp_gets.
  assert (IH_LOCAL_HASH obj (is_table_size s) = home s index) as Hhome by (unfold home; by rewrite Ho).
  pose proof (home_pos s index Hs) as Ht. rewrite Hhome.
  eapply wp_bind, wp_mono; [eapply wp_local_insert_loop; [done..|rewrite dist_self; destruct Hs; lia|by apply walked_start]|].
  intros h s0 (-> & Hh & Hz & Hfull). apply wp_put_index; [done..|]. intros s' Hu Hslot. split; [done|].
  assert (∀ p, pos (is_table_size s) p → slot s p ≠ index) as Hfresh.
  { intros p Hpp Heq. assert (H !! obj = Some index) by (apply Hmap; repeat split; [lia|done|eauto]). congruence. }
  pose proof (unhashed_size _ _ Hu) as Hsize.
  assert (∀ p, pos (is_table_size s) p → slot s' p ≠ 0 → p ≠ h → slot s p = slot s' p) as Hother.
  { intros p Hpp _ Hne. rewrite Hslot by done. unfold upd. by rewrite (proj2 (Z.eqb_neq p h)). }
  assert (slot s' h = index) as Hat by (rewrite Hslot by done; unfold upd; by rewrite Z.eqb_refl). split.
  - by eapply unhashed_sized.
  - rewrite Hsize. eapply probing_ext; [symmetry; by apply Hslot|intros; by eapply unhashed_home|].
    apply probing_insert; try done.
  - rewrite Hsize. intros p Hpp Hne. rewrite (unhashed_objof _ s) by done.
    destruct (decide (p = h)) as [->|Hph]; [by rewrite Hat, Ho|]. rewrite <- Hother by done.
    apply Hnz; [done|]. by rewrite Hother.
  - rewrite Hsize. intros obj' i. rewrite (unhashed_objof _ s) by done. rewrite lookup_insert_Some, Hmap. split.
    + intros [[<- <-]|(Hne & Hi & Hio & p & Hpp & Hip)]; [repeat split; [lia|done|by eauto]|]. repeat split; [done|done|].
      exists p. split; [done|]. rewrite Hslot by done. unfold upd.
      destruct (Z.eqb_spec p h) as [->|]; [congruence|done].
    + intros (Hi & Hio & p & Hpp & Hip). destruct (decide (p = h)) as [->|Hph]; [left; split; congruence|].
      right. rewrite <- Hother in Hip by (done || congruence). split; [|by eauto].
      intros <-. assert (H !! obj = Some i) by (apply Hmap; by eauto). congruence.
Qed.

(** ** Deletion *)

Lemma wp_local_find_loop s home' fuel t h h0 :
  sized s → probing (is_table_size s) (slot s) home' → pos (is_table_size s) t → pos (is_table_size s) h →
  pos (is_table_size s) h0 → slot s h0 ≠ 0 → full (is_table_size s) (slot s) t h0 →
  is_table_size s - dist (is_table_size s) t h < Z.of_nat fuel →
  dist (is_table_size s) t h ≤ dist (is_table_size s) t h0 →
  wp (local_find_loop fuel (slot s h0) (is_table_size s) h) s (λ r s', s' = s ∧ r = h0).
Proof.
  intros Hs Hp Ht Hh Hh0 Hnz Hfull. assert (0 < is_table_size s) as Hn by apply Hs.
  induction fuel as [|fuel IH] in h, Hh |- *; intros Hfuel Hd.
  { pose proof (dist_range _ t h Ht Hh). lia. }
  cbn [local_find_loop]. apply wp_bind, wp_get_entry; [done..|]. intros e He. rewrite (slot_entry _ _ _ He).
  destruct (Z.eqb_spec (slot s h) (slot s h0)) as [Heq|Hne].
  - apply wp_ret. split; [done|]. by apply (pr_inj _ _ _ Hp); [| |congruence|].
  - assert (h ≠ h0) as Hhh by congruence. pose proof (dist_inj _ t h h0 Ht Hh Hh0).
    pose proof (dist_range _ t h0 Ht Hh0). apply IH; [by apply step_pos|rewrite step_dist by (done || lia); lia..].
Qed.

(** What stays to be true while there is a hole: an empty slot elsewhere, and the
    objects of all others. *)
Record open_hole s (h e k : Z) : Prop := {
  oh_sized : sized s;
  oh_holed : holed (is_table_size s) (slot s) (home s) h k;
  oh_empty : pos (is_table_size s) e ∧ e ≠ h ∧ slot s e = 0;
  oh_object : ∀ p, pos (is_table_size s) p → p ≠ h → slot s p ≠ 0 → objof s (slot s p) ≠ IO_NULL;
}.

Lemma wp_local_displaced_loop s fuel h d e :
  open_hole s h e (if d =? h then 0 else dist (is_table_size s) h d + 1) →
  pos (is_table_size s) d → dist (is_table_size s) h d < dist (is_table_size s) h e →
  is_table_size s - dist (is_table_size s) h d < Z.of_nat fuel →
  wp (local_displaced_loop fuel (is_table_size s) h d) s (λ r s', s' = s ∧
    pos (is_table_size s) r.1 ∧ r.1 ≠ h ∧ r.2 = slot s r.1 ∧ open_hole s h e (dist (is_table_size s) h r.1) ∧
    (r.2 = 0 ∨ displaced r.1 h (home s r.2) = true ∧ dist (is_table_size s) h r.1 < dist (is_table_size s) h e)).
Proof.
  induction fuel as [|fuel IH] in d |- *; intros Hopen Hd Hde Hfuel; pose proof Hopen as [Hs Hh [He [Hne Hze]] Hobj];
    pose proof (ho_hole _ _ _ _ _ Hh) as Hhp; assert (0 < is_table_size s) as Hn by apply Hs;
    pose proof (dist_range _ h d Hhp Hd); [lia|].
  pose proof (dist_range _ h e Hhp He). cbn [local_displaced_loop].
  pose proof (step_dist _ Hn h d Hhp Hd) as Hstep. pose proof (step_pos _ Hn d Hd) as Hd'.
  set (d' := step_index d (is_table_size s)) in *. assert (d' ≠ h) as Hdh.
  { intros ->. rewrite dist_self in Hstep. lia. }
  assert (open_hole s h e (dist (is_table_size s) h d')) as Hopen'.
  { rewrite Hstep by lia. destruct (Z.eqb_spec d h) as [->|Hdne]; [|done]. split; [done| |done|done].
    rewrite dist_self. destruct Hh. split; try done. intros p Hp Hpne Hfp Hlt.
    pose proof (dist_inj _ h p h Hhp Hp Hhp). pose proof (dist_range _ h p Hhp Hp). rewrite dist_self in *. lia. }
  apply wp_bind, wp_assert; [lia|]. apply wp_bind, wp_get_entry; [done..|]. intros e1 He1.
  rewrite (slot_entry _ _ _ He1). destruct (Z.eqb_spec (slot s d') 0) as [Hz|Hnz].
  { apply wp_ret. cbn. split_and!; [done..|by left]. }
  apply wp_bind, wp_get_entry; [done| |].
  { pose proof (ho_index _ _ _ _ _ Hh d' Hd' Hdh Hnz). unfold pos. lia. }
  intros e2 He2. rewrite (objof_entry _ _ _ He2). apply wp_bind, wp_assert; [pose proof (Hobj d' Hd' Hdh Hnz); lia|].
  fold (home s (slot s d')). destruct (displaced d' h (home s (slot s d'))) eqn:Hdisp.
  - apply wp_ret. cbn. split_and!; [done..|]. right. split; [done|]. assert (d' ≠ e) as Hdne by congruence. pose proof (dist_inj _ h d' e Hhp Hd' He). lia.
  - assert (d' ≠ e) as Hdne by congruence. pose proof (dist_inj _ h d' e Hhp Hd' He).
    apply IH; [|done|lia|lia]. rewrite (proj2 (Z.eqb_neq d' h)) by done.
    destruct Hopen' as [_ Hh' _ _]. split; [done| |done|done]. by apply holed_skip.
Qed.

(** The indices in the slots other than the hole. *)
Definition content n (f : Z → Z) (h i : Z) : Prop := ∃ p, pos n p ∧ p ≠ h ∧ f p = i.

Lemma content_move n f h d i :
  pos n h → pos n d → d ≠ h → i ≠ 0 → content n f h i ↔ content n (upd f h (f d)) d i.
Proof.
  intros Hh Hd Hne Hi. unfold content, upd. split.
  - intros (p & Hp & Hph & Hpi). destruct (decide (p = d)) as [Hpd|Hpd].
    + exists h. rewrite Z.eqb_refl. split_and!; [done|done|congruence].
    + exists p. rewrite (proj2 (Z.eqb_neq p h)) by done. done.
  - intros (p & Hp & Hpd & Hpi). destruct (Z.eqb_spec p h) as [Hph|Hph]; [exists d|exists p]; done.
Qed.

Lemma wp_local_delete_loop s fuel h e :
  open_hole s h e 0 → dist (is_table_size s) h e < Z.of_nat fuel →
  wp (local_delete_loop fuel (is_table_size s) h) s (λ _ s', unhashed s' = unhashed s ∧
    probing (is_table_size s) (slot s') (home s') ∧
    ∀ i, i ≠ 0 → (∃ p, pos (is_table_size s) p ∧ slot s' p = i) ↔ content (is_table_size s) (slot s) h i).
Proof.
  induction fuel as [|fuel IH] in s, h |- *; intros Hopen Hfuel; pose proof Hopen as [Hs Hh [He [Hne Hze]] Hobj];
    pose proof (ho_hole _ _ _ _ _ Hh) as Hhp; pose proof (dist_range _ h e Hhp He); [lia|].
  cbn [local_delete_loop]. apply wp_bind, wp_gets. eapply wp_bind, wp_mono.
  { apply (wp_local_displaced_loop s _ h h e); [by rewrite Z.eqb_refl|done|..]; rewrite dist_self; [|destruct Hs; lia].
    pose proof (dist_inj _ h e h Hhp He Hhp). rewrite dist_self in *. lia. }
  intros [d v] s0 (-> & Hd & Hdh & Hv & Hopen' & Hcase). cbn [fst snd] in *.
  apply wp_bind, wp_put_index; [done..|]. intros s' Hu Hslot. pose proof (unhashed_size _ _ Hu) as Hsize.
  destruct (Z.eqb_spec v 0) as [Hz|Hnz].
  - apply wp_ret. split; [done|]. split.
    + eapply probing_ext; [symmetry; by apply Hslot|intros; symmetry; by apply unhashed_home|]. rewrite Hz.
      eapply holed_stop; [apply Hopen'|done..|congruence].
    + intros i Hi. unfold content. split; intros (p & Hp & Hrest).
      * rewrite Hslot in Hrest by done. unfold upd in Hrest. destruct (Z.eqb_spec p h); [congruence|eauto].
      * destruct Hrest as [Hph Hpi]. exists p. split; [done|]. rewrite Hslot by done. unfold upd.
        by rewrite (proj2 (Z.eqb_neq p h)).
  - destruct Hcase as [?|[Hdisp Hlt]]; [done|]. subst v. eapply wp_mono; [rewrite <- Hsize; apply IH|].
    + split; rewrite ?Hsize; [by eapply unhashed_sized| |split_and!; [done|congruence|]|].
      * eapply holed_ext; [symmetry; by apply Hslot|intros; symmetry; by apply unhashed_home|].
        eapply hole_moves; [apply Hopen'|done..].
      * rewrite Hslot by done. unfold upd. by rewrite (proj2 (Z.eqb_neq e h)).
      * intros p Hp Hpd. rewrite (unhashed_objof _ s) by done. rewrite Hslot by done. unfold upd.
        destruct (Z.eqb_spec p h); intros; by apply Hobj.
    + rewrite Hsize. unfold pos, dist in *. repeat case_match; lia.
    + intros _ s2 (Hu2 & Hp2 & Hc2). rewrite Hsize in *. split; [congruence|]. split; [done|].
      intros i Hi. rewrite Hc2 by done. rewrite (content_move _ (slot s) h d) by done.
      unfold content. split; intros (p & Hp & Hrest); exists p; by rewrite Hslot in *.
Qed.

Lemma wp_local_delete s H obj index :
  hash_inv s H → H !! obj = Some index →
  wp (ipc_hash_local_delete obj index) s (λ _ s', unhashed s' = unhashed s ∧ hash_inv s' (delete obj H)).
Proof.
  intros [Hs Hp Hnz Hmap] Hin. assert (0 < is_table_size s) as Hn by apply Hs.
  apply Hmap in Hin as Hin'. destruct Hin' as (Hi & Ho & h & Hh & Hslot).
  assert (slot s h ≠ 0) as Hsh by congruence. pose proof (pr_index _ _ _ Hp h Hh Hsh) as Hrange.
  pose proof (Hnz h Hh Hsh) as Hobj. rewrite Hslot in Hrange, Hobj.
  unfold ipc_hash_local_delete, loop_fuel. unfold MACH_PORT_NULL. apply wp_bind, wp_assert; [lia|].
  apply wp_bind, wp_assert; [lia|]. apply wp_bind, wp_gets.
  apply wp_bind, wp_get_entry; [done|unfold pos; lia|]. intros e He.
  apply wp_bind, wp_assert; [rewrite (objof_entry _ _ _ He); lia|]. apply wp_bind, wp_gets.
  assert (IH_LOCAL_HASH obj (is_table_size s) = home s (slot s h)) as -> by (unfold home; by rewrite Hslot, Ho).
  pose proof (home_pos s (slot s h) Hs) as Ht. rewrite <- Hslot at 1.
  eapply wp_bind, wp_mono.
  { eapply wp_local_find_loop; [done..|by apply (pr_full _ _ _ Hp)| |]; rewrite dist_self;
      [destruct Hs; lia|by apply dist_range]. }
  intros h' s0 [-> ->]. apply wp_bind, wp_gets. destruct (empty_slot _ Hn _ _ Hp) as (e0 & He0 & Hz).
  eapply wp_mono; [apply (wp_local_delete_loop s _ h e0)|].
  - split; [done|by apply holed_start|split_and!; [done|congruence|done]|]. intros. by apply Hnz.
  - pose proof (dist_range _ h e0 Hh He0). destruct Hs. lia.
  - intros _ s' (Hu & Hp' & Hc). pose proof (unhashed_size _ _ Hu) as Hsize.
    split; [done|]. split; rewrite ?Hsize; [by eapply unhashed_sized|done|..].
    + intros p Hpp Hne. rewrite (unhashed_objof _ s) by done.
      destruct (proj1 (Hc (slot s' p) Hne)) as (q & Hq & Hqh & Hqi); [by eauto|].
      rewrite <- Hqi. apply Hnz; [done|congruence].
    + intros obj' i. rewrite (unhashed_objof _ s) by done. rewrite lookup_delete_Some, Hmap. split.
      * intros (Hne & Hi0 & Hio & p & Hpp & Hpi). split_and!; [done|done|]. apply Hc; [done|].
        exists p. split_and!; [done|congruence|done].
      * intros (Hi0 & Hio & Hex). apply Hc in Hex as (p & Hpp & Hph & Hpi); [|done].
        split; [|split_and!; [done|done|by eauto]]. intros <-. destruct Hph.
        apply (pr_inj _ _ _ Hp); [done|done|congruence|].
        assert (H !! obj = Some i) by (apply Hmap; split_and!; [done|done|by eauto]). congruence.
Qed.
