(* ===== verification/IpcEntry.v ===== *)
(** * xnu IPC spaces: definitions

    Model of src/xnu-792/osfmk/ipc/ipc_entry.c and of the global part of
    ipc_hash.c.  A space maps port names to entries: a name is an index and a
    generation number; the entry is in the table of the space, or in its splay tree
    when the table is too small or the place is taken by another generation.  The
    lock of a space is a mutex; a routine that releases it is cut there, and each
    section, from one acquisition to the next release, is a definition of its own
    that says how the routine goes on.  The sizes of tables, [ipc_table_entries],
    are a parameter; [IpcSpace.v] computes them. *)

From Stdlib Require Import ZifyBool.
From S2P Require Import Prelude IpcSplay IpcHash.

Module Entry.
Export Ipc.

(** Memory of the splay trees, the rest of the tree entries, the spaces, and the
    heads of the global buckets. *)
Record kernel := Kernel {
  tmem : ipc;
  items : gmap loc ipc_tree_entry;
  spaces : gmap positive ipc_space;
  ihgb_head : list (option loc);
}.

Local Abbreviation MK := (M kernel).
Local Abbreviation spid := positive.

Definition in_tree {A} (m : M ipc A) : MK A :=
  λ k, match m (tmem k) with
       | Ok (a, σ) => Ok (a, Kernel σ (items k) (spaces k) (ihgb_head k))
       | Crash r => Crash r
       end.

Definition in_space {A} (sp : spid) (m : M ipc_space A) : MK A :=
  λ k, match spaces k !! sp with
       | None => Crash BAD_ACCESS
       | Some s => match m s with
                   | Ok (a, s') => Ok (a, Kernel (tmem k) (items k) (<[sp := s']> (spaces k)) (ihgb_head k))
                   | Crash r => Crash r
                   end
       end.

Definition space_of (sp : spid) : MK ipc_space := in_space sp (gets id).
Definition entry_at (sp : spid) (i : Z) : MK ipc_entry := in_space sp (get_entry i).
Definition put_entry_at (sp : spid) (i : Z) (e : ipc_entry) : MK unit := in_space sp (put_entry i e).

Definition get_item (e : loc) : MK ipc_tree_entry :=
  λ k, match items k !! e with Some t => Ok (t, k) | None => Crash BAD_ACCESS end.
Definition put_item (e : loc) (t : ipc_tree_entry) : MK unit :=
  λ k, match items k !! e with
       | Some _ => Ok (tt, Kernel (tmem k) (<[e := t]> (items k)) (spaces k) (ihgb_head k))
       | None => Crash BAD_ACCESS
       end.

Definition with_ite_next (v : option loc) (t : ipc_tree_entry) : ipc_tree_entry :=
  Ite (ite_object t) (ite_bits t) (ite_request t) v (ite_space t).

(** The structures 1 to 4 are local variables, [is_tree] of a space is one of the
    others. *)
Definition v_small : sid := 1.
Definition v_collisions : sid := 2.
Definition v_move : sid := 3.
Definition v_ignore : sid := 4.
Definition is_tree (sp : spid) : sid := (sp + 4)%positive.

Definition set_counts (total small hash : Z) (s : ipc_space) : ipc_space :=
  Is (is_active s) (is_growing s) (is_table s) (is_table_size s) (is_table_next s) total small hash (is_fast s).
Definition add_total (d : Z) (s : ipc_space) : ipc_space := set_counts (is_tree_total s + d) (is_tree_small s) (is_tree_hash s) s.
Definition add_small (d : Z) (s : ipc_space) : ipc_space := set_counts (is_tree_total s) (is_tree_small s + d) (is_tree_hash s) s.
Definition add_hash (d : Z) (s : ipc_space) : ipc_space := set_counts (is_tree_total s) (is_tree_small s) (is_tree_hash s + d) s.
Definition set_small (v : Z) (s : ipc_space) : ipc_space := set_counts (is_tree_total s) v (is_tree_hash s) s.
Definition set_growing (b : bool) (s : ipc_space) : ipc_space :=
  Is (is_active s) b (is_table s) (is_table_size s) (is_table_next s) (is_tree_total s) (is_tree_small s) (is_tree_hash s) (is_fast s).
Definition set_table (t : list ipc_entry) (size : Z) (next : nat) (s : ipc_space) : ipc_space :=
  Is (is_active s) (is_growing s) t size next (is_tree_total s) (is_tree_small s) (is_tree_hash s) (is_fast s).
Definition set_active (b : bool) (s : ipc_space) : ipc_space :=
  Is b (is_growing s) (is_table s) (is_table_size s) (is_table_next s) (is_tree_total s) (is_tree_small s) (is_tree_hash s) (is_fast s).

Definition update_space (sp : spid) (f : ipc_space → ipc_space) : MK unit := in_space sp (modify f).

(** ** The global reverse hash table *)

Definition IH_GLOBAL_HASH (sp : spid) (obj size : Z) : Z :=
  Z.land (u32 (Z.shiftr (u32 (Zpos sp)) 4 + Z.shiftr (u32 obj) 6)) (size - 1).

Definition bucket_of (sp : spid) (obj : Z) : MK nat :=
  gets (λ k, Z.to_nat (IH_GLOBAL_HASH sp obj (Z.of_nat (length (ihgb_head k))))).

Definition get_head (b : nat) : MK (option loc) :=
  λ k, match ihgb_head k !! b with Some p => Ok (p, k) | None => Crash BAD_ACCESS end.
Definition put_head (b : nat) (p : option loc) : MK unit :=
  λ k, match ihgb_head k !! b with
       | Some _ => Ok (tt, Kernel (tmem k) (items k) (spaces k) (<[b := p]> (ihgb_head k)))
       | None => Crash BAD_ACCESS
       end.

Definition put_next (e : loc) (p : option loc) : MK unit := t ← get_item e; put_item e (with_ite_next p t).

Definition bucket_fuel : MK nat := gets (λ k, S (size (items k))).

(** The loop over the rest of a bucket; [last] is the entry before. *)
Fixpoint global_lookup_loop (fuel : nat) (b : nat) (sp : spid) (obj : Z) (last : loc) : MK (option (Z * loc)) :=
  match fuel with
  | O => crash OUT_OF_FUEL
  | S fuel =>
      prev ← get_item last;
      match ite_next prev with
      | None => mret None
      | Some this =>
          t ← get_item this;
          if (ite_object t =? obj) && bool_decide (ite_space t = sp) then
            _ ← put_next last (ite_next t);
            head ← get_head b;
            _ ← put_next this head;
            _ ← put_head b (Some this);
            name ← in_tree (name_of (Some this));
            mret (Some (name, this))
          else global_lookup_loop fuel b sp obj this
      end
  end.

Definition ipc_hash_global_lookup (sp : spid) (obj : Z) : MK (option (Z * loc)) :=
  _ ← assert_M (negb (obj =? IO_NULL));
  s ← space_of sp;
  _ ← assert_M (negb (is_fast s));
  b ← bucket_of sp obj;
  head ← get_head b;
  match head with
  | None => mret None
  | Some this =>
      t ← get_item this;
      if (ite_object t =? obj) && bool_decide (ite_space t = sp) then
        name ← in_tree (name_of (Some this)); mret (Some (name, this))
      else fuel ← bucket_fuel; global_lookup_loop fuel b sp obj this
  end.

(** What both routines below assert. *)
Definition global_asserts (sp : spid) (obj name : Z) (entry : loc) : MK unit :=
  s ← space_of sp;
  _ ← assert_M (negb (is_fast s));
  n ← in_tree (name_of (Some entry));
  _ ← assert_M (n =? name);
  t ← get_item entry;
  _ ← assert_M (bool_decide (ite_space t = sp));
  _ ← assert_M (negb (obj =? IO_NULL));
  assert_M (ite_object t =? obj).

Definition ipc_hash_global_insert (sp : spid) (obj name : Z) (entry : loc) : MK unit :=
  _ ← global_asserts sp obj name entry;
  _ ← update_space sp (add_hash 1);
  s ← space_of sp;
  _ ← assert_M (is_tree_hash s <=? is_tree_total s);
  b ← bucket_of sp obj;
  head ← get_head b;
  _ ← put_next entry head;
  put_head b (Some entry).

(** [last] is the head of the bucket or the field of an entry. *)
Definition put_last (b : nat) (last : option loc) (p : option loc) : MK unit :=
  match last with None => put_head b p | Some e => put_next e p end.

Fixpoint global_delete_loop (fuel : nat) (b : nat) (entry : loc) (last this : option loc) : MK unit :=
  match fuel with
  | O => crash OUT_OF_FUEL
  | S fuel =>
      match this with
      | None => crash ASSERT_FAILED
      | Some e =>
          t ← get_item e;
          if bool_decide (e = entry) then put_last b last (ite_next t)
          else global_delete_loop fuel b entry (Some e) (ite_next t)
      end
  end.

Definition ipc_hash_global_delete (sp : spid) (obj name : Z) (entry : loc) : MK unit :=
  _ ← global_asserts sp obj name entry;
  s ← space_of sp;
  _ ← assert_M (0 <? is_tree_hash s);
  _ ← update_space sp (add_hash (-1));
  b ← bucket_of sp obj;
  head ← get_head b;
  fuel ← bucket_fuel;
  global_delete_loop fuel b entry None head.

(** ** Both tables *)

(** A pointer to an entry. *)
Inductive entry_ref := In_table (i : Z) | In_tree (e : loc).

#[export] Instance entry_ref_eq_dec : EqDecision entry_ref.
Proof. solve_decision. Defined.

Definition ipc_hash_lookup (sp : spid) (obj : Z) : MK (option (Z * entry_ref)) :=
  r ← in_space sp (ipc_hash_local_lookup obj);
  match r with
  | Some (name, index) => mret (Some (name, In_table index))
  | None =>
      s ← space_of sp;
      _ ← assert_M (negb (is_fast s) || (is_tree_hash s =? 0));
      if 0 <? is_tree_hash s then
        r ← ipc_hash_global_lookup sp obj; mret ((λ p, (p.1, In_tree p.2)) <$> r)
      else mret None
  end.

Definition ipc_hash_insert (sp : spid) (obj name : Z) (entry : entry_ref) : MK unit :=
  let index := MACH_PORT_INDEX name in
  s ← space_of sp;
  match entry with
  | In_table i =>
      if (index <? is_table_size s) && (i =? index) then in_space sp (ipc_hash_local_insert obj index)
      else crash UNDEFINED_BEHAVIOR
  | In_tree e => _ ← assert_M (negb (is_fast s)); ipc_hash_global_insert sp obj name e
  end.

Definition ipc_hash_delete (sp : spid) (obj name : Z) (entry : entry_ref) : MK unit :=
  let index := MACH_PORT_INDEX name in
  s ← space_of sp;
  match entry with
  | In_table i =>
      if (index <? is_table_size s) && (i =? index) then in_space sp (ipc_hash_local_delete obj index)
      else crash UNDEFINED_BEHAVIOR
  | In_tree e => _ ← assert_M (negb (is_fast s)); ipc_hash_global_delete sp obj name e
  end.

(** ** Entries *)

Section entries.
Context (ipc_table_entries : list Z).

(** [its->its_size] *)
Definition its_size (its : nat) : MK Z :=
  λ k, match ipc_table_entries !! its with Some n => Ok (n, k) | None => Crash BAD_ACCESS end.

(** What [ite_alloc] and [ite_free] do to the part outside the splay tree. *)
Definition alloc_item (e : loc) (t : ipc_tree_entry) : MK unit :=
  λ k, Ok (tt, Kernel (tmem k) (<[e := t]> (items k)) (spaces k) (ihgb_head k)).
Definition free_item (e : loc) : MK unit :=
  λ k, Ok (tt, Kernel (tmem k) (delete e (items k)) (spaces k) (ihgb_head k)).

Definition bits_of (sp : spid) (entry : entry_ref) : MK Z :=
  match entry with
  | In_table i => e ← entry_at sp i; mret (ie_bits e)
  | In_tree e => t ← get_item e; mret (ite_bits t)
  end.

Definition with_bits (v : Z) (e : ipc_entry) : ipc_entry := Ie (ie_object e) v (ie_next e) (ie_index e).
Definition with_next (v : Z) (e : ipc_entry) : ipc_entry := Ie (ie_object e) (ie_bits e) v (ie_index e).
Definition with_right (object bits request : Z) (e : ipc_entry) : ipc_entry := Ie object bits request (ie_index e).
Definition update_entry (sp : spid) (i : Z) (f : ipc_entry → ipc_entry) : MK unit :=
  e ← entry_at sp i; put_entry_at sp i (f e).

Definition no_type (bits : Z) : bool := IE_BITS_TYPE bits =? MACH_PORT_TYPE_NONE.
Definition has_collision (bits : Z) : bool := negb (Z.land bits IE_BITS_COLLISION =? 0).

Definition ipc_entry_tree_collision (sp : spid) (name : Z) : MK bool :=
  s ← space_of sp;
  _ ← assert_M (is_active s);
  '(lower, upper) ← in_tree (ipc_splay_tree_bounds (is_tree sp) name);
  let index := MACH_PORT_INDEX name in
  mret (negb (lower =? MACH_PORT_DEAD) && (MACH_PORT_INDEX lower =? index) ||
        negb (upper =? 0) && (MACH_PORT_INDEX upper =? index)).

(** The label [tree_lookup]. *)
Definition tree_lookup (sp : spid) (name : Z) : MK (option entry_ref) :=
  p ← in_tree (ipc_splay_tree_lookup (is_tree sp) name);
  match p with
  | None => mret None
  | Some e => t ← get_item e; mret (if no_type (ite_bits t) then None else Some (In_tree e))
  end.

Definition ipc_entry_lookup (sp : spid) (name : Z) : MK (option entry_ref) :=
  s ← space_of sp;
  _ ← assert_M (is_active s);
  let index := MACH_PORT_INDEX name in
  if is_fast s then
    e ← entry_at sp index;
    mret (if negb (IE_BITS_GEN (ie_bits e) =? MACH_PORT_GEN name) || no_type (ie_bits e) then None
          else Some (In_table index))
  else if index <? is_table_size s then
    e ← entry_at sp index;
    if negb (IE_BITS_GEN (ie_bits e) =? MACH_PORT_GEN name) then
      if has_collision (ie_bits e) then _ ← assert_M (0 <? is_tree_total s); tree_lookup sp name
      else mret None
    else mret (if no_type (ie_bits e) then None else Some (In_table index))
  else if is_tree_total s =? 0 then mret None
  else tree_lookup sp name.

Definition ipc_entry_get (sp : spid) : MK (option (Z * Z)) :=
  s ← space_of sp;
  _ ← assert_M (is_active s);
  table ← entry_at sp 0;
  let first_free := ie_next table in
  if first_free =? 0 then mret None
  else
    free_entry ← entry_at sp first_free;
    _ ← put_entry_at sp 0 (with_next (ie_next free_entry) table);
    let gen := IE_BITS_NEW_GEN (ie_bits free_entry) in
    _ ← update_entry sp first_free (with_bits gen);
    _ ← update_entry sp first_free (with_next 0);
    let new_name := MACH_PORT_MAKE first_free gen in
    _ ← assert_M (MACH_PORT_VALID new_name);
    _ ← assert_M (ie_object free_entry =? IO_NULL);
    mret (Some (new_name, first_free)).

(** *** Deallocation *)

(** The next entry of the tree with this index takes the place in the table. *)
Definition dealloc_collision (sp : spid) (index : Z) : MK unit :=
  _ ← in_tree (ipc_splay_tree_split (is_tree sp) (MACH_PORT_MAKE (index + 1) 0) v_collisions);
  _ ← in_tree (ipc_splay_tree_split v_collisions (MACH_PORT_MAKE index 0) v_small);
  pick ← in_tree (ipc_splay_tree_pick v_collisions);
  match pick with
  | Some (tname, Some tentry) =>
      _ ← assert_M (MACH_PORT_INDEX tname =? index);
      t ← get_item tentry;
      let obj := ite_object t in
      _ ← update_entry sp index (with_right obj (Z.lor (ite_bits t) (MACH_PORT_GEN tname)) (ite_request t));
      _ ← assert_M (bool_decide (ite_space t = sp));
      _ ← (if IE_BITS_TYPE (ite_bits t) =? MACH_PORT_TYPE_SEND then
             _ ← ipc_hash_global_delete sp obj tname tentry;
             in_space sp (ipc_hash_local_insert obj index)
           else mret tt);
      _ ← in_tree (ipc_splay_tree_delete v_collisions tname tentry);
      _ ← free_item tentry;
      s ← space_of sp;
      _ ← assert_M (0 <? is_tree_total s);
      _ ← update_space sp (add_total (-1));
      pick ← in_tree (ipc_splay_tree_pick v_collisions);
      _ ← (match pick with
           | Some _ =>
               _ ← update_entry sp index (λ e, with_bits (Z.lor (ie_bits e) IE_BITS_COLLISION) e);
               in_tree (ipc_splay_tree_join (is_tree sp) v_collisions)
           | None => mret tt
           end);
      in_tree (ipc_splay_tree_join (is_tree sp) v_small)
  | _ => crash ASSERT_FAILED
  end.

Definition dealloc_tree (sp : spid) (name : Z) (tentry : loc) : MK unit :=
  let index := MACH_PORT_INDEX name in
  t ← get_item tentry;
  _ ← assert_M (bool_decide (ite_space t = sp));
  _ ← in_tree (ipc_splay_tree_delete (is_tree sp) name tentry);
  _ ← free_item tentry;
  s ← space_of sp;
  _ ← assert_M (0 <? is_tree_total s);
  _ ← update_space sp (add_total (-1));
  if index <? is_table_size s then
    ientry ← entry_at sp index;
    _ ← assert_M (has_collision (ie_bits ientry));
    c ← ipc_entry_tree_collision sp name;
    if (c : bool) then mret tt else update_entry sp index (λ e, with_bits (Z.land (ie_bits e) (Z.lnot IE_BITS_COLLISION)) e)
  else
    next ← its_size (is_table_next s);
    if index <? next then
      c ← ipc_entry_tree_collision sp name;
      if (c : bool) then mret tt
      else
        s ← space_of sp;
        _ ← assert_M (0 <? is_tree_small s);
        update_space sp (add_small (-1))
    else mret tt.

(** The entry goes to the front of the free list. *)
Definition dealloc_table (sp : spid) (index : Z) : MK unit :=
  table ← entry_at sp 0;
  _ ← update_entry sp index (λ e, with_next (ie_next table) (with_bits (Z.land (ie_bits e) IE_BITS_GEN_MASK) e));
  update_entry sp 0 (with_next index).

Definition ipc_entry_dealloc (sp : spid) (name : Z) (entry : entry_ref) : MK unit :=
  s ← space_of sp;
  _ ← assert_M (is_active s);
  '(object, request) ← (match entry with
                        | In_table i => e ← entry_at sp i; mret (ie_object e, ie_request e)
                        | In_tree e => t ← get_item e; mret (ite_object t, ite_request t)
                        end);
  _ ← assert_M (object =? IO_NULL);
  _ ← assert_M (request =? 0);
  let index := MACH_PORT_INDEX name in
  match entry with
  | In_table i =>
      if is_fast s then
        _ ← assert_M (index <? is_table_size s);
        _ ← assert_M (i =? index);
        e ← entry_at sp index;
        _ ← assert_M (IE_BITS_GEN (ie_bits e) =? MACH_PORT_GEN name);
        _ ← assert_M (negb (has_collision (ie_bits e)));
        dealloc_table sp index
      else if (index <? is_table_size s) && (i =? index) then
        e ← entry_at sp index;
        _ ← assert_M (IE_BITS_GEN (ie_bits e) =? MACH_PORT_GEN name);
        if has_collision (ie_bits e) then dealloc_collision sp index else dealloc_table sp index
      else crash UNDEFINED_BEHAVIOR
  | In_tree e => _ ← assert_M (negb (is_fast s)); dealloc_tree sp name e
  end.

(** *** Growing the table *)

Inductive kern_return := KERN_SUCCESS | KERN_NO_SPACE | KERN_RESOURCE_SHORTAGE | KERN_INVALID_TASK | KERN_FAILURE.

(** What [ipc_entry_grow_table] has decided when it gives up the lock: it returns
    (with the lock or not), sleeps until another thread has finished, or allocates
    a table of the size [its] ([nits]: the next size). *)
Inductive grow_state :=
| Grow_return (kr : kern_return) (locked : bool)
| Grow_sleep
| Grow_alloc (its nits : nat).

#[export] Instance kern_return_eq_dec : EqDecision kern_return.
Proof. solve_decision. Defined.
#[export] Instance grow_state_eq_dec : EqDecision grow_state.
Proof. solve_decision. Defined.

(** The search for a size that is not below the target. *)
Fixpoint grow_target_loop (fuel : nat) (target psize size : Z) (its : nat) : MK (Z * Z * nat) :=
  match fuel with
  | O => crash OUT_OF_FUEL
  | S fuel =>
      if negb (psize =? size) && (size <? target) then
        size' ← its_size (S its); grow_target_loop fuel target size size' (S its)
      else mret (psize, size, its)
  end.

(** The first section; [target] is [None] for ITS_SIZE_NONE. *)
Definition grow_begin (sp : spid) (target : option Z) : MK grow_state :=
  s ← space_of sp;
  _ ← assert_M (is_active s);
  if is_growing s then mret Grow_sleep
  else
    let its := is_table_next s in
    size ← its_size its;
    osize ← its_size (its - 1);
    found ← (match target with
             | None => mret (inr (size, its))
             | Some target =>
                 if target <=? osize then mret (inl KERN_SUCCESS)
                 else
                   '(psize, size, its) ← grow_target_loop (length ipc_table_entries) target osize size its;
                   mret (if psize =? size then inl KERN_NO_SPACE else inr (size, its))
             end);
    match found with
    | inl kr => mret (Grow_return kr false)
    | inr (size, its) =>
        if osize =? size then mret (Grow_return KERN_NO_SPACE false)
        else
          nsize ← its_size (S its);
          _ ← assert_M ((osize <? size) && (size <=? nsize));
          _ ← update_space sp (set_growing true);
          mret (Grow_alloc its (S its))
    end.

Definition zero_entry : ipc_entry := Ie 0 0 0 0.

(** The old entries, not hashed, and the new part of the table. *)
Definition grown_table (old : list ipc_entry) (size : Z) : list ipc_entry :=
  (with_index 0 <$> old) ++ replicate (Z.to_nat size - length old) zero_entry.

Definition rehash_entry (sp : spid) (i : Z) : MK unit :=
  e ← entry_at sp i;
  if IE_BITS_TYPE (ie_bits e) =? MACH_PORT_TYPE_SEND then in_space sp (ipc_hash_local_insert (ie_object e) i)
  else mret tt.

(** The body of the traversal that moves entries into the table: whether to delete
    the entry from the tree. *)
Definition move_entry (sp : spid) (osize size : Z) (tentry : loc) : MK bool :=
  name ← in_tree (name_of (Some tentry));
  t ← get_item tentry;
  let gen := MACH_PORT_GEN name in
  let index := MACH_PORT_INDEX name in
  _ ← assert_M (bool_decide (ite_space t = sp));
  _ ← assert_M ((osize <=? index) && (index <? size));
  entry ← entry_at sp index;
  let bits := ie_bits entry in
  if negb (no_type bits) then
    _ ← assert_M (negb (IE_BITS_GEN bits =? gen));
    _ ← put_entry_at sp index (with_bits (Z.lor bits IE_BITS_COLLISION) entry);
    mret false
  else
    let bits := ite_bits t in
    let obj := ite_object t in
    _ ← assert_M (negb (no_type bits));
    _ ← put_entry_at sp index (with_right obj (Z.lor bits gen) (ite_request t) entry);
    _ ← (if IE_BITS_TYPE bits =? MACH_PORT_TYPE_SEND then
           _ ← ipc_hash_global_delete sp obj name tentry;
           in_space sp (ipc_hash_local_insert obj index)
         else mret tt);
    _ ← update_space sp (add_total (-1));
    mret true.

Fixpoint move_loop (fuel : nat) (sp : spid) (osize size : Z) (tentry : option loc) : MK unit :=
  match fuel with
  | O => crash OUT_OF_FUEL
  | S fuel =>
      match tentry with
      | None => mret tt
      | Some e =>
          delete ← move_entry sp osize size e;
          tentry ← in_tree (ipc_splay_traverse_next v_move delete);
          _ ← (if (delete : bool) then free_item e else mret tt);
          move_loop fuel sp osize size tentry
      end
  end.

Fixpoint count_loop (fuel : nat) (nosmall index : Z) (tentry : option loc) : MK Z :=
  match fuel with
  | O => crash OUT_OF_FUEL
  | S fuel =>
      match tentry with
      | None => mret nosmall
      | Some e =>
          name ← in_tree (name_of (Some e));
          let nindex := MACH_PORT_INDEX name in
          tentry ← in_tree (ipc_splay_traverse_next v_small false);
          if negb (nindex =? index) then count_loop fuel (nosmall + 1) nindex tentry
          else count_loop fuel nosmall index tentry
      end
  end.

Definition tree_fuel : MK nat := gets (λ k, S (size (ite_name (tmem k)))).

(** Transfer entries of the tree to the table and count the small ones. *)
Definition grow_tree (sp : spid) (osize size nsize : Z) : MK unit :=
  _ ← in_tree (ipc_splay_tree_split (is_tree sp) (MACH_PORT_MAKE nsize 0) v_small);
  _ ← in_tree (ipc_splay_tree_split v_small (MACH_PORT_MAKE size 0) v_move);
  _ ← in_tree (ipc_splay_tree_split v_move (MACH_PORT_MAKE osize 0) v_ignore);
  fuel ← tree_fuel;
  tentry ← in_tree (ipc_splay_traverse_start v_move);
  _ ← move_loop fuel sp osize size tentry;
  _ ← in_tree (ipc_splay_traverse_finish v_move);
  fuel ← tree_fuel;
  tentry ← in_tree (ipc_splay_traverse_start v_small);
  nosmall ← count_loop fuel 0 0 tentry;
  _ ← in_tree (ipc_splay_traverse_finish v_small);
  s ← space_of sp;
  _ ← assert_M (nosmall <=? nsize - size);
  _ ← assert_M (nosmall <=? is_tree_total s);
  _ ← update_space sp (set_small nosmall);
  _ ← in_tree (ipc_splay_tree_join (is_tree sp) v_small);
  _ ← in_tree (ipc_splay_tree_join (is_tree sp) v_move);
  in_tree (ipc_splay_tree_join (is_tree sp) v_ignore).

(** Add the unused entries of the new part to the free list, from the last one. *)
Fixpoint free_new (sp : spid) (l : list Z) (free_index : Z) : MK Z :=
  match l with
  | [] => mret free_index
  | i :: l =>
      e ← entry_at sp i;
      if ie_bits e =? 0 then
        _ ← put_entry_at sp i (with_next free_index (with_bits IE_BITS_GEN_MASK e));
        free_new sp l i
      else free_new sp l free_index
  end.

(** The second section, when the allocation has returned. *)
Definition grow_install (sp : spid) (target : option Z) (its nits : nat) (allocated : bool) : MK (option (kern_return * bool)) :=
  _ ← update_space sp (set_growing false);
  if negb allocated then mret (Some (KERN_RESOURCE_SHORTAGE, false))
  else
    s ← space_of sp;
    if negb (is_active s) then mret (Some (KERN_SUCCESS, true))
    else
      size ← its_size its;
      nsize ← its_size nits;
      osize ← its_size (is_table_next s - 1);
      _ ← assert_M (bool_decide (is_table_next s = its) || negb (bool_decide (target = None)));
      _ ← assert_M (is_table_size s =? osize);
      _ ← update_space sp (set_table (grown_table (is_table s) size) size nits);
      _ ← for_M (seqZ 0 osize) (rehash_entry sp);
      s ← space_of sp;
      _ ← assert_M (negb (is_fast s) || (is_tree_total s =? 0));
      _ ← (if 0 <? is_tree_total s then grow_tree sp osize size nsize else mret tt);
      table ← entry_at sp 0;
      free_index ← free_new sp (reverse (seqZ osize (size - osize))) (ie_next table);
      _ ← update_entry sp 0 (with_next free_index);
      mret None.

(** The third section, when the old table is freed: return, or go round again. *)
Definition grow_again (sp : spid) (target : option Z) (its nits : nat) : MK grow_state :=
  s ← space_of sp;
  if negb (is_active s) || negb (bool_decide (is_table_next s = nits)) then mret (Grow_return KERN_SUCCESS true)
  else
    size ← its_size its;
    nsize ← its_size nits;
    if (0 <? is_tree_small s) && ((nsize - size) * 16 <? is_tree_small s * 32) then grow_begin sp target
    else mret (Grow_return KERN_SUCCESS true).

(** *** Allocation *)

Inductive alloc_state :=
| Alloc_done (name : Z) (entry : entry_ref)
| Alloc_failed (kr : kern_return)
| Alloc_grow (g : grow_state)
| Alloc_item.

(** One round of [ipc_entry_alloc], with the lock. *)
Definition ipc_entry_alloc (sp : spid) : MK alloc_state :=
  s ← space_of sp;
  if negb (is_active s) then mret (Alloc_failed KERN_INVALID_TASK)
  else
    r ← ipc_entry_get sp;
    match r with
    | Some (name, index) => mret (Alloc_done name (In_table index))
    | None => g ← grow_begin sp None; mret (Alloc_grow g)
    end.

Definition free_tentry (tentry : option loc) : MK unit :=
  match tentry with
  | None => mret tt
  | Some e => _ ← in_tree (ite_free (Some e)); free_item e
  end.

(** The entry before [index] in the free list. *)
Fixpoint rip_loop (fuel : nat) (sp : spid) (index free_index : Z) : MK Z :=
  match fuel with
  | O => crash OUT_OF_FUEL
  | S fuel =>
      e ← entry_at sp free_index;
      if ie_next e =? index then mret free_index else rip_loop fuel sp index (ie_next e)
  end.

(** The part of a round under the table cutoff. *)
Definition alloc_name_table (sp : spid) (name : Z) (tentry : option loc) : MK (option alloc_state) :=
  let index := MACH_PORT_INDEX name in
  let gen := MACH_PORT_GEN name in
  s ← space_of sp;
  if negb (index <? is_table_size s) then mret None
  else
    entry ← entry_at sp index;
    if index =? 0 then
      _ ← assert_M (no_type (ie_bits entry));
      _ ← assert_M (IE_BITS_GEN (ie_bits entry) =? 0);
      mret None
    else if negb (no_type (ie_bits entry)) then
      if IE_BITS_GEN (ie_bits entry) =? gen then
        _ ← assert_M (bool_decide (tentry = None)); mret (Some (Alloc_done name (In_table index)))
      else mret None
    else
      fuel ← gets (λ k, S (Z.to_nat (is_table_size s)));
      free_index ← rip_loop fuel sp index 0;
      _ ← update_entry sp free_index (with_next (ie_next entry));
      _ ← update_entry sp index (λ e, with_next 0 (with_bits gen e));
      _ ← assert_M (ie_object entry =? IO_NULL);
      _ ← (if is_fast s then assert_M (bool_decide (tentry = None)) else free_tentry tentry);
      mret (Some (Alloc_done name (In_table index))).

(** The tree entry goes into the tree. *)
Definition alloc_name_tree (sp : spid) (name : Z) (tentry : loc) : MK alloc_state :=
  let index := MACH_PORT_INDEX name in
  s ← space_of sp;
  next ← its_size (is_table_next s);
  _ ← update_space sp (add_total 1);
  _ ← (if index <? is_table_size s then
         update_entry sp index (λ e, with_bits (Z.lor (ie_bits e) IE_BITS_COLLISION) e)
       else if index <? next then
         c ← ipc_entry_tree_collision sp name;
         if (c : bool) then mret tt else update_space sp (add_small 1)
       else mret tt);
  _ ← in_tree (ipc_splay_tree_insert (is_tree sp) name tentry);
  t ← get_item tentry;
  _ ← put_item tentry (Ite IO_NULL 0 0 (ite_next t) sp);
  mret (Alloc_done name (In_tree tentry)).

(** One round of [ipc_entry_alloc_name]; [tentry] is the tree entry allocated in an
    earlier round. *)
Definition ipc_entry_alloc_name (sp : spid) (name : Z) (tentry : option loc) : MK alloc_state :=
  _ ← assert_M (MACH_PORT_VALID name);
  s ← space_of sp;
  if negb (is_active s) then _ ← free_tentry tentry; mret (Alloc_failed KERN_INVALID_TASK)
  else
    r ← alloc_name_table sp name tentry;
    match r with
    | Some a => mret a
    | None =>
        if is_fast s then _ ← assert_M (bool_decide (tentry = None)); mret (Alloc_failed KERN_FAILURE)
        else
          tentry2 ← (if 0 <? is_tree_total s then in_tree (ipc_splay_tree_lookup (is_tree sp) name) else mret None);
          match tentry2 with
          | Some e =>
              t ← get_item e;
              _ ← assert_M (bool_decide (ite_space t = sp));
              _ ← assert_M (negb (no_type (ite_bits t)));
              _ ← free_tentry tentry;
              mret (Alloc_done name (In_tree e))
          | None =>
              next ← its_size (is_table_next s);
              let index := MACH_PORT_INDEX name in
              if (is_table_size s <=? index) && (index <? next) &&
                 ((next - is_table_size s) * 16 <? (is_tree_small s + 1) * 32) then
                g ← grow_begin sp None;
                _ ← assert_M (negb (bool_decide (g = Grow_return KERN_NO_SPACE false)));
                mret (Alloc_grow g)
              else
                match tentry with
                | Some e => alloc_name_tree sp name e
                | None => mret Alloc_item
                end
          end
    end.

End entries.

(** ** Callers *)

(** What [ipc_object_alloc], [ipc_right_copyout] and others do with an entry they
    have allocated, before they release the lock. *)
Definition fill_entry (sp : spid) (name : Z) (entry : entry_ref) (bits object : Z) : MK unit :=
  _ ← (match entry with
       | In_table i => update_entry sp i (λ e, with_right object (Z.lor (ie_bits e) bits) (ie_request e) e)
       | In_tree e =>
           t ← get_item e;
           put_item e (Ite object (Z.lor (ite_bits t) bits) (ite_request t) (ite_next t) (ite_space t))
       end);
  if IE_BITS_TYPE bits =? MACH_PORT_TYPE_SEND then ipc_hash_insert sp object name entry else mret tt.

(** What [ipc_right_destroy] and others do before they free an entry; the request
    for a notification is cancelled. *)
Definition clear_entry (sp : spid) (name : Z) (entry : entry_ref) : MK unit :=
  '(bits, object) ← (match entry with
                     | In_table i => e ← entry_at sp i; mret (ie_bits e, ie_object e)
                     | In_tree e => t ← get_item e; mret (ite_bits t, ite_object t)
                     end);
  _ ← (if IE_BITS_TYPE bits =? MACH_PORT_TYPE_SEND then ipc_hash_delete sp object name entry else mret tt);
  match entry with
  | In_table i => update_entry sp i (λ e, with_right IO_NULL (ie_bits e) 0 e)
  | In_tree e => t ← get_item e; put_item e (Ite IO_NULL (ite_bits t) 0 (ite_next t) (ite_space t))
  end.

(** [entry->ie_request = request] *)
Definition set_request (sp : spid) (entry : entry_ref) (request : Z) : MK unit :=
  match entry with
  | In_table i => update_entry sp i (λ e, with_right (ie_object e) (ie_bits e) request e)
  | In_tree e => t ← get_item e; put_item e (Ite (ite_object t) (ite_bits t) request (ite_next t) (ite_space t))
  end.

End Entry.

Import Entry.

(** ** xnu IPC spaces: names and entry bits

    A name is an index and a generation, the bits of an entry are a generation, the
    collision bit and the bits of a right.  The macros of ipc_entry.h and port.h on
    these parts. *)

(** ** Disjoint bits *)

Lemma land_shiftl_low a b k : 0 ≤ k → 0 ≤ b < 2 ^ k → Z.land (Z.shiftl a k) b = 0.
Proof.
  intros Hk Hb. apply Z.bits_inj'. intros i Hi. rewrite Z.land_spec, Z.bits_0.
  destruct (decide (i < k)) as [Hlt|Hge].
  - by rewrite Z.shiftl_spec_low.
  - rewrite andb_comm. replace (Z.testbit b i) with false; [done|]. symmetry.
    destruct (decide (b = 0)) as [->|]; [apply Z.bits_0|]. apply Z.bits_above_log2; [lia|].
    apply Z.log2_lt_pow2; [lia|]. eapply Z.lt_le_trans; [apply Hb|]. apply Z.pow_le_mono_r; lia.
Qed.

Lemma land_low_ones a k : 0 ≤ k → 0 ≤ a < 2 ^ k → Z.land a (Z.ones k) = a.
Proof. intros. rewrite Z.land_ones by done. by apply Z.mod_small. Qed.

Lemma lor_shiftl_low a b k : 0 ≤ k → 0 ≤ b < 2 ^ k → Z.lor (Z.shiftl a k) b = a * 2 ^ k + b.
Proof.
  intros Hk Hb. rewrite <- Z.lxor_lor by (by apply land_shiftl_low).
  rewrite <- Z.add_nocarry_lxor by (by apply land_shiftl_low). by rewrite Z.shiftl_mul_pow2.
Qed.

(** ** Names *)

(** A generation is 8 bits, the upper ones of the bits of an entry. *)
Definition gen_ok (g : Z) : Prop := 0 ≤ g < 256.
Definition gbits (g : Z) : Z := Z.shiftl g 24.
Definition idx_ok (i : Z) : Prop := 0 ≤ i < 2 ^ 24.
Definition mkname (i g : Z) : Z := i * 256 + g.
Definition gen_of (name : Z) : Z := name `mod` 256.

Lemma index_mkname i g : gen_ok g → MACH_PORT_INDEX (mkname i g) = i.
Proof.
  intros [??]. unfold MACH_PORT_INDEX, mkname. rewrite Z.shiftr_div_pow2 by done.
  change (2 ^ 8) with 256. rewrite Z.div_add_l by done. rewrite Z.div_small by lia. lia.
Qed.
Lemma gen_mkname i g : gen_ok g → gen_of (mkname i g) = g.
Proof.
  intros [??]. unfold gen_of, mkname. rewrite Z.add_comm, Z.mul_comm, Z.mul_comm, Z.mod_add by done.
  by apply Z.mod_small.
Qed.
Lemma name_split name : name = mkname (MACH_PORT_INDEX name) (gen_of name).
Proof.
  unfold mkname, MACH_PORT_INDEX, gen_of. rewrite Z.shiftr_div_pow2 by done. change (2 ^ 8) with 256.
  pose proof (Z.div_mod name 256). lia.
Qed.
Lemma gen_of_ok name : gen_ok (gen_of name).
Proof. unfold gen_ok, gen_of. by apply Z.mod_pos_bound. Qed.
Lemma name_eq name name' :
  MACH_PORT_INDEX name = MACH_PORT_INDEX name' → gen_of name = gen_of name' → name = name'.
Proof. intros Hi Hg. rewrite (name_split name), (name_split name'). congruence. Qed.
Lemma index_mono name name' : name ≤ name' → MACH_PORT_INDEX name ≤ MACH_PORT_INDEX name'.
Proof.
  intros. unfold MACH_PORT_INDEX. rewrite !Z.shiftr_div_pow2 by done. by apply Z.div_le_mono.
Qed.
Lemma index_range name : 0 ≤ name < 2 ^ 32 → idx_ok (MACH_PORT_INDEX name).
Proof.
  intros. unfold idx_ok, MACH_PORT_INDEX. rewrite Z.shiftr_div_pow2 by done. split.
  - apply Z.div_pos; lia.
  - apply Z.div_lt_upper_bound; lia.
Qed.

Lemma MACH_PORT_GEN_eq name : MACH_PORT_GEN name = gbits (gen_of name).
Proof.
  unfold MACH_PORT_GEN, gbits, gen_of. change 0xff with (Z.ones 8). rewrite Z.land_ones by done.
  change (2 ^ 8) with 256. apply wrapu_small. pose proof (Z.mod_pos_bound name 256).
  rewrite Z.shiftl_mul_pow2 by done. lia.
Qed.

Lemma MACH_PORT_MAKE_eq i g : idx_ok i → gen_ok g → MACH_PORT_MAKE i (gbits g) = mkname i g.
Proof.
  intros Hi Hg. unfold MACH_PORT_MAKE, gbits, mkname. rewrite Z.shiftr_shiftl_l by done.
  change (24 - 24) with 0. rewrite Z.shiftl_0_r. unfold idx_ok in Hi. rewrite wrapu_small.
  - by rewrite lor_shiftl_low by (done || apply Hg).
  - rewrite Z.shiftl_mul_pow2 by done. lia.
Qed.

Lemma MACH_PORT_MAKE_0 i : idx_ok i → MACH_PORT_MAKE i 0 = mkname i 0.
Proof. intros. change 0 with (gbits 0) at 1. by apply MACH_PORT_MAKE_eq. Qed.

(** All names of smaller indices are below [mkname i 0]. *)
Lemma index_lt_mkname name i : MACH_PORT_INDEX name < i ↔ name < mkname i 0.
Proof.
  rewrite (name_split name) at 2. pose proof (gen_of_ok name). unfold mkname, gen_ok in *. lia.
Qed.

Lemma gbits_inj g g' : gbits g = gbits g' → g = g'.
Proof. unfold gbits. rewrite !Z.shiftl_mul_pow2 by done. lia. Qed.

(** ** Entry bits *)

(** The bits of a right: a type, user references, no generation, no collision. *)
Definition right_bits (r : Z) : Prop := 0 ≤ r < 2 ^ 21.

Definition cbits (c : bool) : Z := if c then IE_BITS_COLLISION else 0.
Definition mkbits (g : Z) (c : bool) (r : Z) : Z := Z.lor (gbits g) (Z.lor (cbits c) r).

Lemma right_low r k : right_bits r → 21 ≤ k → 0 ≤ r < 2 ^ k.
Proof. intros [??] ?. split; [done|]. eapply Z.lt_le_trans; [done|]. apply Z.pow_le_mono_r; lia. Qed.

Lemma cbits_r c r k : right_bits r → 24 ≤ k → 0 ≤ Z.lor (cbits c) r < 2 ^ k.
Proof.
  intros Hr Hk. destruct c; cbn.
  - change IE_BITS_COLLISION with (Z.shiftl 1 23). rewrite lor_shiftl_low; [|done|apply right_low; [done|lia]].
    unfold right_bits in Hr. assert (2 ^ 24 ≤ 2 ^ k) by (apply Z.pow_le_mono_r; lia). lia.
  - apply right_low; [done|lia].
Qed.

Lemma mkbits_gen g c r : gen_ok g → right_bits r → IE_BITS_GEN (mkbits g c r) = gbits g.
Proof.
  intros Hg Hr. unfold IE_BITS_GEN, mkbits, gbits. rewrite Z.land_lor_distr_l.
  change IE_BITS_GEN_MASK with (Z.shiftl (Z.ones 8) 24).
  rewrite <- Z.shiftl_land, (land_low_ones g 8) by (done || apply Hg).
  rewrite (Z.land_comm (Z.lor _ r)), land_shiftl_low; [by rewrite Z.lor_0_r|done|by apply cbits_r].
Qed.

Lemma mkbits_type g c r : right_bits r → IE_BITS_TYPE (mkbits g c r) = IE_BITS_TYPE r.
Proof.
  intros Hr. unfold IE_BITS_TYPE, mkbits, gbits. rewrite !Z.land_lor_distr_l, land_shiftl_low by done.
  destruct c; done.
Qed.

Lemma mkbits_collision g c r : right_bits r → has_collision (mkbits g c r) = c.
Proof.
  intros Hr. unfold has_collision, mkbits, gbits. rewrite !Z.land_lor_distr_l, land_shiftl_low by done.
  change IE_BITS_COLLISION with (Z.shiftl 1 23).
  rewrite (Z.land_comm r), land_shiftl_low; [|done|apply right_low; [done|lia]]. by destruct c.
Qed.

Lemma mkbits_set g c r : Z.lor (mkbits g c r) IE_BITS_COLLISION = mkbits g true r.
Proof.
  unfold mkbits. rewrite <- !Z.lor_assoc. f_equal. rewrite (Z.lor_comm r). destruct c; cbn; [|done].
  by rewrite Z.lor_assoc, Z.lor_diag.
Qed.

Lemma mkbits_clear g c r : right_bits r → Z.land (mkbits g c r) (Z.lnot IE_BITS_COLLISION) = mkbits g false r.
Proof.
  intros Hr. unfold mkbits. rewrite !Z.land_lor_distr_l.
  assert (∀ x, Z.land x IE_BITS_COLLISION = 0 → Z.land x (Z.lnot IE_BITS_COLLISION) = x) as Hx.
  { intros x H0. apply Z.bits_inj'. intros i Hi. apply (f_equal (λ z, Z.testbit z i)) in H0.
    rewrite Z.land_spec, Z.bits_0 in H0. rewrite Z.land_spec, Z.lnot_spec by done.
    by destruct (Z.testbit x i), (Z.testbit IE_BITS_COLLISION i). }
  rewrite (Hx (gbits g)), (Hx r); [by destruct c| |by apply land_shiftl_low].
  change IE_BITS_COLLISION with (Z.shiftl 1 23). rewrite Z.land_comm. apply land_shiftl_low; [done|].
  apply right_low; [done|lia].
Qed.

Lemma mkbits_mask g c r : gen_ok g → right_bits r → Z.land (mkbits g c r) IE_BITS_GEN_MASK = gbits g.
Proof. apply mkbits_gen. Qed.

Lemma mkbits_right g r : Z.lor r (gbits g) = mkbits g false r.
Proof. unfold mkbits. cbn. apply Z.lor_comm. Qed.

Lemma gbits_mkbits g : gbits g = mkbits g false 0.
Proof. unfold mkbits. cbn. by rewrite Z.lor_0_r. Qed.

(** [ie_bits |= type | urefs] on an entry that has a generation only. *)
Lemma mkbits_fill g r : Z.lor (gbits g) r = mkbits g false r.
Proof. done. Qed.

(** The next generation. *)
Definition next_gen (g : Z) : Z := (g + 4) `mod` 256.

Lemma next_gen_ok g : gen_ok (next_gen g).
Proof. unfold gen_ok, next_gen. by apply Z.mod_pos_bound. Qed.

Lemma IE_BITS_NEW_GEN_eq g : gen_ok g → IE_BITS_NEW_GEN (gbits g) = gbits (next_gen g).
Proof.
  intros Hg. unfold IE_BITS_NEW_GEN. rewrite <- (mkbits_gen (next_gen g) false 0) by (apply next_gen_ok || done).
  unfold IE_BITS_GEN. f_equal. rewrite <- gbits_mkbits. unfold gbits, next_gen, IE_BITS_GEN_ONE, gen_ok in *.
  rewrite !Z.shiftl_mul_pow2 by done. wrap_lia.
Qed.
