(* ===== verification/IpcEntryInv.v ===== *)
(** * xnu IPC spaces: the invariant of a space

    A space as a function from names to rights: the entries of the table as views,
    the free list, the objects in the reverse hash, the entries of the tree, and how
    they fit together.  [held] is an entry that a routine has allocated and its
    caller has not filled in yet. *)

From Stdlib Require Import ZifyBool.
From S2P Require Import Prelude IpcSplay IpcHash IpcEntry.

Import Entry.

(** ** Lists with indices in [Z] *)

Definition zlookup {A} (l : list A) (i : Z) : option A := if i <? 0 then None else l !! Z.to_nat i.
Notation "l !z i" := (zlookup l i) (at level 20).
Definition zupdate {A} (i : Z) (x : A) (l : list A) : list A := <[Z.to_nat i := x]> l.

Section zlookup.
Context {A : Type}.
Implicit Types (l : list A) (i j : Z).

Lemma zlookup_range l i x : l !z i = Some x → 0 ≤ i < Z.of_nat (length l).
Proof. unfold zlookup. case_match; [done|]. intros ?%lookup_lt_Some. lia. Qed.
Lemma zlookup_lt l i : 0 ≤ i < Z.of_nat (length l) → ∃ x, l !z i = Some x.
Proof.
  intros. unfold zlookup. case_match; [lia|]. destruct (lookup_lt_is_Some_2 l (Z.to_nat i)) as [x Hx]; [lia|eauto].
Qed.
Lemma zlookup_update l i x : 0 ≤ i < Z.of_nat (length l) → zupdate i x l !z i = Some x.
Proof. intros. unfold zlookup, zupdate. case_match; [lia|]. apply list_lookup_insert_eq. lia. Qed.
Lemma zlookup_update_ne l i j x : 0 ≤ i → i ≠ j → zupdate i x l !z j = l !z j.
Proof. intros. unfold zlookup, zupdate. case_match; [done|]. apply list_lookup_insert_ne. lia. Qed.
Lemma zupdate_id l i x : l !z i = Some x → zupdate i x l = l.
Proof. unfold zlookup, zupdate. case_match; [done|]. apply list_insert_id. Qed.
Lemma length_zupdate l i x : length (zupdate i x l) = length l.
Proof. apply length_insert. Qed.
Lemma zlookup_app_l l l' i : 0 ≤ i < Z.of_nat (length l) → (l ++ l') !z i = l !z i.
Proof. intros. unfold zlookup. case_match; [done|]. apply lookup_app_l. lia. Qed.
Lemma zlookup_app_r l l' i : Z.of_nat (length l) ≤ i → (l ++ l') !z i = l' !z (i - Z.of_nat (length l)).
Proof.
  intros. unfold zlookup. repeat case_match; try lia. rewrite lookup_app_r by lia. f_equal. lia.
Qed.
End zlookup.

Lemma zlookup_fmap {A B} (f : A → B) l i : (f <$> l) !z i = f <$> l !z i.
Proof. unfold zlookup. case_match; [done|]. apply list_lookup_fmap. Qed.

Lemma Forall2_zlookup {A B} (P : A → B → Prop) l k i x :
  Forall2 P l k → l !z i = Some x → ∃ y, k !z i = Some y ∧ P x y.
Proof. unfold zlookup. case_match; [done|]. intros. by eapply Forall2_lookup_l. Qed.
Lemma Forall2_zlookup_r {A B} (P : A → B → Prop) l k i y :
  Forall2 P l k → k !z i = Some y → ∃ x, l !z i = Some x ∧ P x y.
Proof. unfold zlookup. case_match; [done|]. intros. by eapply Forall2_lookup_r. Qed.
Lemma Forall2_zupdate {A B} (P : A → B → Prop) l k i x y :
  Forall2 P l k → P x y → Forall2 P (zupdate i x l) (zupdate i y k).
Proof. intros. by apply Forall2_insert. Qed.

(** ** Views *)

Record right := Right { r_bits : Z; r_object : Z; r_request : Z }.
Definition right_ok (ρ : right) : Prop := right_bits (r_bits ρ) ∧ IE_BITS_TYPE (r_bits ρ) ≠ MACH_PORT_TYPE_NONE.
Definition is_send (ρ : right) : Prop := IE_BITS_TYPE (r_bits ρ) = MACH_PORT_TYPE_SEND ∧ r_object ρ ≠ IO_NULL.
#[export] Instance is_send_dec ρ : Decision (is_send ρ).
Proof. unfold is_send. apply _. Defined.

Inductive view := Free (g : Z) | Used (g : Z) (c : bool) (ρ : right).

Definition entry_is (e : ipc_entry) (v : view) : Prop :=
  match v with
  | Free g => gen_ok g ∧ ie_bits e = gbits g ∧ ie_object e = IO_NULL
  | Used g c ρ =>
      gen_ok g ∧ right_ok ρ ∧ ie_bits e = mkbits g c (r_bits ρ) ∧ ie_object e = r_object ρ ∧ ie_request e = r_request ρ
  end.

Lemma entry_free e g : entry_is e (Free g) → no_type (ie_bits e) = true.
Proof. intros (Hg & -> & _). unfold no_type. by rewrite gbits_mkbits, mkbits_type. Qed.
Lemma entry_used e g c ρ : entry_is e (Used g c ρ) → no_type (ie_bits e) = false.
Proof. intros (Hg & [Hr Ht] & -> & _). unfold no_type. rewrite mkbits_type by done. by apply Z.eqb_neq. Qed.

(** The object a view has in the reverse hash of the table. *)
Definition sends (v : view) : option Z :=
  match v with Used _ _ ρ => if decide (is_send ρ) then Some (r_object ρ) else None | Free _ => None end.

Lemma sends_Some v obj : sends v = Some obj ↔ ∃ g c ρ, v = Used g c ρ ∧ is_send ρ ∧ r_object ρ = obj.
Proof.
  destruct v as [g|g c ρ]; cbn; [naive_solver|]. case_decide; naive_solver.
Qed.
Lemma sends_object e v obj : entry_is e v → sends v = Some obj → ie_object e = obj ∧ obj ≠ IO_NULL.
Proof. intros He (g & c & ρ & -> & [_ Hn] & <-)%sends_Some. destruct He as (_ & _ & _ & -> & _). done. Qed.

(** The generation of a view with the collision bit. *)
Definition coll (v : view) : option Z := match v with Used g true _ => Some g | _ => None end.

Lemma entry_is_index e v x : entry_is (with_index x e) v ↔ entry_is e v.
Proof. by destruct v. Qed.

(** ** Entries of the table *)

Lemma wp_entry s i e (Q : ipc_entry → ipc_space → Prop) : is_table s !z i = Some e → Q e s → wp (get_entry i) s Q.
Proof. unfold zlookup, wp, get_entry. case_match; [done|]. by intros ->. Qed.
Lemma wp_set_entry s i e e' (Q : unit → ipc_space → Prop) :
  is_table s !z i = Some e → Q tt (set_entry e' i s) → wp (put_entry i e') s Q.
Proof. unfold zlookup, wp, put_entry. case_match; [done|]. by intros ->. Qed.

Lemma set_entry_table e i s : is_table (set_entry e i s) = zupdate i e (is_table s).
Proof. done. Qed.

Lemma slot_z s h : 0 ≤ h → slot s h = default 0 (ie_index <$> is_table s !z h).
Proof. intros. unfold slot, zlookup. by case_match; [lia|]. Qed.
Lemma objof_z s i : 0 ≤ i → objof s i = default 0 (ie_object <$> is_table s !z i).
Proof. intros. unfold objof, zlookup. by case_match; [lia|]. Qed.

(** ** The free list *)

Definition next_of (s : ipc_space) (i : Z) : Z := default 0 (ie_next <$> is_table s !z i).

(** The entries a walk from [i] meets, and where it stands after them. *)
Fixpoint path (s : ipc_space) (i : Z) (l : list Z) : Prop :=
  match l with [] => True | j :: l => next_of s i = j ∧ path s j l end.
Definition stop (i : Z) (l : list Z) : Z := default i (last l).

Lemma stop_cons i j l : stop i (j :: l) = stop j l.
Proof. unfold stop. rewrite last_cons. by destruct (last l). Qed.
Lemma stop_elem i l : stop i l ∈ i :: l.
Proof. induction l as [|j l IH] in i |- *; [set_solver|]. rewrite stop_cons. set_solver. Qed.

Lemma path_app s i l l' : path s i (l ++ l') ↔ path s i l ∧ path s (stop i l) l'.
Proof. induction l as [|j l IH] in i |- *; cbn [path app]; [tauto|]. rewrite IH, stop_cons. tauto. Qed.

Lemma path_ext s s' i l : (∀ j, j ∈ i :: l → stop i l ≠ j → next_of s' j = next_of s j) → NoDup (i :: l) → path s i l → path s' i l.
Proof.
  induction l as [|j l IH] in i |- *; cbn [path]; [done|]. intros Hext [Hi Hnd]%NoDup_cons [<- Hp].
  rewrite stop_cons in Hext. pose proof (stop_elem (next_of s i) l).
  split; [apply Hext; [set_solver|intros Heq; rewrite Heq in *; set_solver]|]. apply IH; [|done..]. intros. apply Hext; [set_solver|done].
Qed.

Definition chain (s : ipc_space) (i : Z) (fl : list Z) : Prop := path s i (fl ++ [0]).

Lemma free_chain_ext s s' i fl : (∀ j, j ∈ i :: fl → next_of s' j = next_of s j) → chain s i fl → chain s' i fl.
Proof.
  unfold chain. induction fl as [|j fl IH] in i |- *; cbn [path app]; intros Hext [<- Hp]; (split; [apply Hext; set_solver|]); [done|].
  apply IH; [|done]. intros. apply Hext. set_solver.
Qed.

(** ** The parts of the invariant *)

Definition gap (held : option entry_ref) (i : Z) : Prop := held = Some (In_table i).

Definition free_is (s : ipc_space) (vs : list view) (held : option entry_ref) (fl : list Z) : Prop :=
  chain s 0 fl ∧ NoDup fl ∧ ∀ i, i ∈ fl ↔ 0 < i ∧ ¬ gap held i ∧ ∃ g, vs !z i = Some (Free g).
Definition free_ok (s : ipc_space) (vs : list view) (held : option entry_ref) : Prop := ∃ fl, free_is s vs held fl.

Definition local_ok (s : ipc_space) (vs : list view) : Prop :=
  ∃ H, hash_inv s H ∧ ∀ obj i, H !! obj = Some i ↔ vs !z i ≫= sends = Some obj.

(** What the routines of a space see of a tree entry: right and space. *)
Abbreviation infos := (gmap loc (right * positive)).
Definition right_of (t : ipc_tree_entry) : right := Right (ite_bits t) (ite_object t) (ite_request t).
Definition info (t : ipc_tree_entry) : right * positive := (right_of t, ite_space t).

Definition tree_name (name : Z) : Prop := 0 < name < MACH_PORT_DEAD ∧ 0 < MACH_PORT_INDEX name.
Definition has_index (m : gmap Z loc) (i : Z) : Prop := ∃ name e, m !! name = Some e ∧ MACH_PORT_INDEX name = i.

(** The indices of the tree in a range. *)
Definition indices (m : gmap Z loc) (lo hi : Z) : gset Z :=
  filter (λ i, lo ≤ i < hi) (set_map MACH_PORT_INDEX (dom m)).

Lemma elem_of_indices m lo hi i : i ∈ indices m lo hi ↔ has_index m i ∧ lo ≤ i < hi.
Proof.
  unfold indices, has_index. rewrite elem_of_filter, elem_of_map. setoid_rewrite elem_of_dom. unfold is_Some. naive_solver.
Qed.

Definition sending (X : infos) (q : Z * loc) : Prop := ∃ ρ sp, X !! q.2 = Some (ρ, sp) ∧ is_send ρ.
#[export] Instance sending_dec X q : Decision (sending X q).
Proof.
  unfold sending. destruct (X !! q.2) as [[ρ sp]|]; [|right; naive_solver].
  destruct (decide (is_send ρ)); [left; eauto|right; naive_solver].
Defined.

(** The right a name denotes. *)
Definition tfind (m : gmap Z loc) (X : infos) (name : Z) : option right := e ← m !! name; fst <$> X !! e.
Definition vright (v : view) (g : Z) : option right :=
  match v with Used g' _ ρ => if decide (g' = g) then Some ρ else None | Free _ => None end.
Definition vfind (vs : list view) (name : Z) : option right := v ← vs !z MACH_PORT_INDEX name; vright v (gen_of name).
Definition find (vs : list view) (m : gmap Z loc) (X : infos) (name : Z) : option right :=
  match vfind vs name with Some ρ => Some ρ | None => tfind m X name end.

Section space.
Context (sizes : list Z).

Record table_ok (s : ipc_space) (vs : list view) : Prop := {
  ta_fast : is_fast s = false;
  ta_next : (1 ≤ is_table_next s)%nat;
  ta_size : sizes !! (is_table_next s - 1)%nat = Some (is_table_size s);
  ta_more : is_Some (sizes !! is_table_next s);
  ta_length : is_table_size s = Z.of_nat (length (is_table s));
  ta_views : Forall2 entry_is (is_table s) vs;
  ta_zero : vs !z 0 = Some (Free 255);
}.

Record tree_ok (sp : positive) (s : ipc_space) (vs : list view) (m : gmap Z loc) (X : infos) (held : option entry_ref) : Prop := {
  tr_inj : ∀ n n' e, m !! n = Some e → m !! n' = Some e → n = n';
  tr_name : ∀ n e, m !! n = Some e → tree_name n;
  tr_info : ∀ n e, m !! n = Some e → ∃ ρ, X !! e = Some (ρ, sp) ∧ (held = Some (In_tree e) ∨ right_ok ρ);
  tr_below : ∀ n e, m !! n = Some e → MACH_PORT_INDEX n < is_table_size s →
    ∃ g, vs !z MACH_PORT_INDEX n ≫= coll = Some g ∧ g ≠ gen_of n;
  tr_collision : ∀ i g, vs !z i ≫= coll = Some g → has_index m i;
  tr_total : is_tree_total s = Z.of_nat (size m);
  tr_small : ∀ nsize, sizes !! is_table_next s = Some nsize →
    is_tree_small s = Z.of_nat (size (indices m (is_table_size s) nsize));
  tr_hash : is_tree_hash s = Z.of_nat (size (filter (sending X) m));
}.

(** A pure send right for an object has one name. *)
Definition unique_sends (f : Z → option right) : Prop :=
  ∀ n n' ρ ρ', f n = Some ρ → f n' = Some ρ' → is_send ρ → is_send ρ' → r_object ρ = r_object ρ' → n = n'.

(** The names of the entry that is held. *)
Definition held_name (held : option entry_ref) (m : gmap Z loc) (n : Z) : Prop :=
  match held with
  | None => False
  | Some (In_table i) => MACH_PORT_INDEX n = i ∧ m !! n = None
  | Some (In_tree e) => m !! n = Some e
  end.

(** A pure send right has an object. *)
Definition sound_sends (held : option entry_ref) (m : gmap Z loc) (f : Z → option right) : Prop :=
  ∀ n ρ, f n = Some ρ → IE_BITS_TYPE (r_bits ρ) = MACH_PORT_TYPE_SEND → r_object ρ ≠ IO_NULL ∨ held_name held m n.

Record space_inv (sp : positive) (s : ipc_space) (vs : list view) (m : gmap Z loc) (X : infos)
    (held : option entry_ref) : Prop := {
  si_table : table_ok s vs;
  si_free : free_ok s vs held;
  si_local : local_ok s vs;
  si_tree : tree_ok sp s vs m X held;
  si_unique : unique_sends (find vs m X);
  si_sound : sound_sends held m (find vs m X);
}.

(** ** Tables *)

Section table.
Implicit Types (s : ipc_space) (vs : list view).

Lemma table_view s vs i v : table_ok s vs → vs !z i = Some v → ∃ e, is_table s !z i = Some e ∧ entry_is e v.
Proof. intros Ht Hv. by apply (Forall2_zlookup_r _ _ _ _ _ (ta_views _ _ Ht)). Qed.
Lemma table_entry s vs i e : table_ok s vs → is_table s !z i = Some e → ∃ v, vs !z i = Some v ∧ entry_is e v.
Proof. intros Ht He. by apply (Forall2_zlookup _ _ _ _ _ (ta_views _ _ Ht)). Qed.
Lemma table_range s vs i : table_ok s vs → 0 ≤ i < is_table_size s → ∃ v, vs !z i = Some v.
Proof.
  intros Ht Hi. rewrite (ta_length _ _ Ht), (Forall2_length _ _ _ (ta_views _ _ Ht)) in Hi. by apply zlookup_lt.
Qed.
Lemma table_in s vs i v : table_ok s vs → vs !z i = Some v → 0 ≤ i < is_table_size s.
Proof.
  intros Ht Hv%zlookup_range. by rewrite (ta_length _ _ Ht), (Forall2_length _ _ _ (ta_views _ _ Ht)).
Qed.
Lemma table_pos s vs : table_ok s vs → 0 < is_table_size s.
Proof. intros Ht. pose proof (table_in _ _ _ _ Ht (ta_zero _ _ Ht)). lia. Qed.

Lemma table_ok_set s vs i e e' v' :
  table_ok s vs → is_table s !z i = Some e → entry_is e' v' → i ≠ 0 ∨ v' = Free 255 →
  table_ok (set_entry e' i s) (zupdate i v' vs).
Proof.
  intros [Hf Hn Hsz Hm Hl Hv Hz] He He' Hi. split; [done..| | |].
  - rewrite set_entry_table, length_zupdate. done.
  - by apply Forall2_zupdate.
  - pose proof (zlookup_range _ _ _ He) as Hr. rewrite (Forall2_length _ _ _ Hv) in Hr.
    destruct (decide (i = 0)) as [->|Hne]; [|by rewrite zlookup_update_ne by lia].
    destruct Hi as [?| ->]; [done|]. by rewrite zlookup_update.
Qed.

Lemma table_ok_unhashed s s' vs : unhashed s' = unhashed s → table_ok s vs → table_ok s' vs.
Proof.
  intros Hu [Hf Hn Hsz Hm Hl Hv Hz]. pose proof (f_equal is_table Hu) as Htb.
  pose proof (f_equal is_fast Hu) as H1. pose proof (f_equal is_table_next Hu) as H2. pose proof (f_equal is_table_size Hu) as H3.
  cbn in Htb, H1, H2, H3. split; rewrite ?H1, ?H2, ?H3; [done..| | |done].
  - apply (f_equal length) in Htb. rewrite !length_fmap in Htb. by rewrite Htb.
  - assert (Forall2 entry_is (with_index 0 <$> is_table s') vs) as H.
    { rewrite Htb. apply Forall2_fmap_l. eapply Forall2_impl; [done|]. intros. by apply entry_is_index. }
    apply (proj1 (Forall2_fmap_l (with_index 0) _ _ _)) in H. eapply Forall2_impl; [exact H|]. intros e v He. by apply entry_is_index in He.
Qed.

Lemma next_of_unhashed s s' i : unhashed s' = unhashed s → next_of s' i = next_of s i.
Proof.
  intros Hu. pose proof (f_equal is_table Hu) as Htb. cbn in Htb. unfold next_of.
  assert (with_index 0 <$> is_table s' !z i = with_index 0 <$> is_table s !z i) as H by (by rewrite <- !zlookup_fmap, Htb).
  apply (f_equal (fmap ie_next)) in H. destruct (is_table s' !z i), (is_table s !z i); cbn in *; congruence.
Qed.

Lemma next_of_set s i e e' j :
  is_table s !z i = Some e → next_of (set_entry e' i s) j = if decide (i = j) then ie_next e' else next_of s j.
Proof.
  intros He%zlookup_range. unfold next_of. rewrite set_entry_table. case_decide as Hij; [subst j|].
  - by rewrite zlookup_update.
  - by rewrite zlookup_update_ne by lia.
Qed.
Lemma next_of_entry s i e : is_table s !z i = Some e → next_of s i = ie_next e.
Proof. unfold next_of. by intros ->. Qed.

End table.

End space.

(** ** The free list *)

Section free.
Implicit Types (s : ipc_space) (vs : list view).

Lemma free_ok_first s vs : free_ok s vs None → next_of s 0 ≠ 0 → 0 < next_of s 0 ∧ ∃ g, vs !z next_of s 0 = Some (Free g).
Proof.
  intros ([|j fl] & Hc & _ & Hfl) Hne; destruct Hc as [Hj _]; [done|]. rewrite Hj.
  destruct (proj1 (Hfl j)) as (? & _ & ?); [set_solver|done].
Qed.

(** The table has a free entry when the list has one. *)
Lemma free_ok_none s vs held i g : free_ok s vs held → next_of s 0 = 0 → vs !z i = Some (Free g) → 0 < i → gap held i.
Proof.
  intros ([|j fl] & Hc & _ & Hfl) Hz Hv Hi.
  - destruct (decide (held = Some (In_table i))) as [?|Hne]; [done|]. assert (i ∈ []) as H by (apply Hfl; eauto). by apply not_elem_of_nil in H.
  - destruct Hc as [Hj _]. destruct (proj1 (Hfl j)) as (? & _); [set_solver|]. lia.
Qed.

(** An entry that is not in the list changes. *)
Lemma free_ok_keep s s' vs held held' j v v' :
  free_ok s vs held → vs !z j = Some v → (∀ g, v = Free g → gap held j) → (∀ g, v' = Free g → gap held' j) →
  (∀ i, i ≠ j → gap held i ↔ gap held' i) → 0 < j → (∀ i, i ≠ j → next_of s' i = next_of s i) →
  free_ok s' (zupdate j v' vs) held'.
Proof.
  intros (fl & Hc & Hnd & Hfl) Hv Hgap Hgap' Hheld Hj Hnext. pose proof (zlookup_range _ _ _ Hv) as Hr. exists fl.
  assert (j ∉ fl) as Hnot.
  { intros (_ & Hng & g & Hg)%Hfl. apply Hng, (Hgap g). congruence. }
  split_and!; [|done|].
  - eapply free_chain_ext; [|done]. intros i Hi. apply Hnext. intros ->. set_solver by lia.
  - intros i. destruct (decide (i = j)) as [->|Hne].
    + split; [done|]. rewrite zlookup_update by lia. intros (_ & Hng & g & [= ->]). destruct Hng. by eapply Hgap'.
    + rewrite zlookup_update_ne by lia. rewrite Hfl, Hheld by done. done.
Qed.

(** The entry after [stop 0 fl] leaves the list. *)
Lemma free_is_unlink s s' vs fl j fl' g g' :
  free_is s vs None (fl ++ j :: fl') → vs !z j = Some (Free g) →
  next_of s' (stop 0 fl) = next_of s j → (∀ i, i ≠ j → i ≠ stop 0 fl → next_of s' i = next_of s i) →
  free_is s' (zupdate j (Free g') vs) (Some (In_table j)) (fl ++ fl').
Proof.
  intros (Hc & Hnd & Hfl) Hv Hp Hother. pose proof (zlookup_range _ _ _ Hv) as Hr.
  assert (∀ i, i ∈ fl ++ j :: fl' → 0 < i) as Hpos by (intros i Hi; by apply Hfl in Hi as [? _]).
  rewrite <- Permutation_middle in Hnd. apply NoDup_cons in Hnd as [Hj Hnd].
  assert (NoDup (0 :: fl)) as Hnd0.
  { apply NoDup_app in Hnd as (? & _). constructor; [|done]. intros H0. pose proof (Hpos 0). set_solver by lia. }
  split_and!; [|done|].
  - unfold chain in *. rewrite <- app_assoc in *. rewrite path_app in *. destruct Hc as [H1 [Hj2 H2]]. split.
    + eapply path_ext; [|done..]. intros i Hi Hne. apply Hother; [|done]. intros ->. pose proof (Hpos j). set_solver by lia.
    + assert (0 ∉ fl') as H0 by (intros H0; pose proof (Hpos 0); set_solver by lia).
      destruct fl' as [|j' fl']; cbn [app path] in *; destruct H2 as [H2 H3]; (split; [congruence|]); [done|].
      eapply (free_chain_ext s s' j' fl'); [|done]. intros i Hi. apply Hother; [set_solver|]. intros ->.
      pose proof (stop_elem 0 fl). apply NoDup_app in Hnd as (_ & Hd & _).
      assert (stop 0 fl = 0 ∨ stop 0 fl ∈ fl) as [Hs|Hs] by set_solver; [rewrite Hs in Hi; set_solver|]. by destruct (Hd _ Hs).
  - intros i. destruct (decide (i = j)) as [->|Hne].
    + split; [done|]. intros (_ & Hg & _). by destruct Hg.
    + rewrite zlookup_update_ne by (pose proof (Hpos j); set_solver by lia). unfold gap in *.
      assert (i ∈ fl ++ fl' ↔ i ∈ fl ++ j :: fl') as -> by set_solver. rewrite Hfl. naive_solver.
Qed.

(** An entry becomes the first of the list. *)
Lemma free_is_push s s' vs fl j v g :
  free_is s vs None fl → vs !z j = Some v → (∀ g, v ≠ Free g) → 0 < j →
  next_of s' 0 = j → next_of s' j = next_of s 0 → (∀ i, i ≠ j → i ≠ 0 → next_of s' i = next_of s i) →
  free_is s' (zupdate j (Free g) vs) None (j :: fl).
Proof.
  intros (Hc & Hnd & Hfl) Hv Hused Hj H0 H1 Hother. pose proof (zlookup_range _ _ _ Hv) as Hr.
  assert (j ∉ fl) as Hnot by (intros (_ & _ & g' & Hg)%Hfl; apply (Hused g'); congruence).
  split_and!; [|by constructor|].
  - split; [done|]. change (path s' j (fl ++ [0])). destruct fl as [|i fl]; cbn [app path] in *.
    { destruct Hc as [Hc _]. split; [congruence|done]. }
    destruct Hc as [Hi Hc]. split; [congruence|]. eapply (free_chain_ext s s' i fl); [|done]. intros a Ha.
    apply Hother; [set_solver|]. intros ->. apply Hfl in Ha. lia.
  - intros i. rewrite elem_of_cons. destruct (decide (i = j)) as [->|Hne].
    + rewrite zlookup_update by lia. unfold gap. naive_solver.
    + rewrite zlookup_update_ne by lia. rewrite Hfl. naive_solver.
Qed.

End free.

(** ** The reverse hash of the table *)

Section local.
Implicit Types (s : ipc_space) (vs : list view).

Lemma hash_inv_change s s' H :
  hash_inv s H → sized s' → is_table_size s' = is_table_size s → (∀ h, 0 ≤ h → slot s' h = slot s h) →
  (∀ obj i, H !! obj = Some i → objof s' i = objof s i) → hash_inv s' H.
Proof.
  intros [Hs Hp Ho Hm] Hs' Hsize Hslot Hobj. assert (∀ h, pos (is_table_size s) h → slot s h ≠ 0 → objof s' (slot s h) = objof s (slot s h)) as Hobj'.
  { intros h Hh Hne. apply (Hobj (objof s (slot s h))), Hm. eauto. }
  split; [done|..]; rewrite Hsize.
  - destruct Hp as [P1 P2 P3 P4]. assert (∀ h, pos (is_table_size s) h → slot s h ≠ 0 → home s' (slot s h) = home s (slot s h)) as Hh.
    { intros. unfold home. by rewrite Hobj', Hsize. }
    split; [intros h Hh0|intros h Hh0|intros h h' Hh0 Hh'|intros h Hh0]; rewrite (Hslot h) by apply Hh0.
    + intros. rewrite Hh by done. auto.
    + intros Hne p Hp0. rewrite Hh by done. intros. rewrite Hslot by apply Hp0. by apply (P2 h).
    + rewrite (Hslot h') by apply Hh'. auto.
    + auto.
  - intros h Hh. rewrite Hslot by apply Hh. intros Hne. rewrite Hobj' by done. auto.
  - intros obj i. split.
    + intros Hi. pose proof (proj1 (Hm _ _) Hi) as (Hi0 & Hio & h & Hh & Hhi). split_and!; [done|by rewrite (Hobj _ _ Hi)|].
      exists h. split; [done|]. by rewrite Hslot by apply Hh.
    + intros (Hi0 & Hio & h & Hh & Hhi). rewrite Hslot in Hhi by apply Hh. apply Hm. subst i. rewrite Hobj' in Hio by done. eauto.
Qed.

Lemma hash_inv_set s H i e e' :
  hash_inv s H → is_table s !z i = Some e → ie_index e' = ie_index e →
  (ie_object e' = ie_object e ∨ ∀ obj, H !! obj ≠ Some i) → hash_inv (set_entry e' i s) H.
Proof.
  intros Hinv He Hidx Ho. pose proof (zlookup_range _ _ _ He) as Hr. apply (hash_inv_change s); [done|..].
  - destruct (hi_sized _ _ Hinv) as [H1 H2]. split; [|done]. rewrite set_entry_table, length_zupdate. done.
  - done.
  - intros h Hh. rewrite !slot_z by done. rewrite set_entry_table. destruct (decide (i = h)) as [<-|Hne].
    + rewrite zlookup_update by done. by rewrite He; cbn; rewrite Hidx.
    + by rewrite zlookup_update_ne by lia.
  - intros obj j Hj. apply (hi_map _ _ Hinv) in Hj as Hj'. destruct Hj' as (_ & _ & h & Hh & Hhj).
    destruct (decide (slot s h = 0)) as [Hz|Hnz].
    { destruct (proj1 (hi_map _ _ Hinv _ _) Hj) as [? _]. congruence. }
    pose proof (pr_index _ _ _ (hi_probing _ _ Hinv) h Hh Hnz). rewrite !objof_z by lia. rewrite set_entry_table.
    destruct (decide (i = j)) as [<-|Hne]; [|by rewrite zlookup_update_ne by lia].
    rewrite zlookup_update by done. rewrite He. cbn. destruct Ho as [?|Ho]; [done|]. by destruct (Ho obj).
Qed.

Lemma local_ok_set s vs i e v e' v' :
  local_ok s vs → is_table s !z i = Some e → vs !z i = Some v → ie_index e' = ie_index e → sends v' = sends v →
  (sends v = None ∨ ie_object e' = ie_object e) → local_ok (set_entry e' i s) (zupdate i v' vs).
Proof.
  intros (H & Hinv & HH) He Hv Hidx Hsend Ho. pose proof (zlookup_range _ _ _ Hv) as Hr. exists H. split.
  - eapply hash_inv_set; [done..|]. destruct Ho as [Hn|?]; [right|by left]. intros obj Hi%HH. rewrite Hv in Hi. cbn in Hi. congruence.
  - intros obj j. rewrite HH. destruct (decide (i = j)) as [<-|Hne].
    + rewrite zlookup_update by done. rewrite Hv. cbn. by rewrite Hsend.
    + by rewrite zlookup_update_ne by lia.
Qed.

(** An object is hashed, after its entry has been filled in. *)
Lemma wp_local_add s vs i e v e' v' obj :
  local_ok s vs → is_table s !z i = Some e → vs !z i = Some v → ie_index e' = ie_index e → sends v = None →
  sends v' = Some obj → ie_object e' = obj → obj ≠ IO_NULL → 0 < i → (∀ j, vs !z j ≫= sends ≠ Some obj) →
  wp (ipc_hash_local_insert obj i) (set_entry e' i s) (λ _ s', unhashed s' = unhashed (set_entry e' i s) ∧
    local_ok s' (zupdate i v' vs)).
Proof.
  intros (H & Hinv & HH) He Hv Hidx Hn Hs Ho Hobj Hi Hnew. pose proof (zlookup_range _ _ _ Hv) as Hr.
  pose proof (zlookup_range _ _ _ He) as Hr'.
  assert (hash_inv (set_entry e' i s) H) as Hinv'.
  { eapply hash_inv_set; [done..|]. right. intros o Ho'%HH. rewrite Hv in Ho'. cbn in Ho'. congruence. }
  eapply wp_mono; [apply (wp_local_insert _ H); [done|done| | |]|].
  - pose proof (hi_sized _ _ Hinv) as [Hsz _]. cbn. lia.
  - rewrite objof_z by lia. rewrite set_entry_table, zlookup_update by done. done.
  - destruct (H !! obj) as [j|] eqn:Hj; [|done]. apply HH in Hj. by destruct (Hnew j).
  - intros _ s' [Hu Hinv2]. split; [done|]. exists (<[obj := i]> H). split; [done|]. intros o j.
    rewrite lookup_insert_Some, HH. destruct (decide (i = j)) as [<-|Hne].
    + rewrite zlookup_update by done. cbn. rewrite Hs, Hv. cbn. rewrite Hn. naive_solver.
    + rewrite zlookup_update_ne by lia. split; [naive_solver|]. intros Hj. right. split; [|done]. intros ->. by destruct (Hnew j).
Qed.

(** An object is taken out, before its entry is cleared. *)
Lemma wp_local_remove s vs i v obj :
  local_ok s vs → vs !z i = Some v → sends v = Some obj →
  wp (ipc_hash_local_delete obj i) s (λ _ s', unhashed s' = unhashed s ∧
    ∀ e e' v', is_table s' !z i = Some e → ie_index e' = ie_index e → sends v' = None → local_ok (set_entry e' i s') (zupdate i v' vs)).
Proof.
  intros (H & Hinv & HH) Hv Hs. pose proof (zlookup_range _ _ _ Hv) as Hr.
  assert (H !! obj = Some i) as Hin by (apply HH; by rewrite Hv).
  eapply wp_mono; [by apply (wp_local_delete _ H)|]. intros _ s' [Hu Hinv']. split; [done|].
  intros e e' v' He Hidx Hn. exists (delete obj H). split.
  - eapply hash_inv_set; [done..|]. right. intros o [Hne Ho%HH]%lookup_delete_Some. rewrite Hv in Ho. cbn in Ho. congruence.
  - intros o j. rewrite lookup_delete_Some, HH. destruct (decide (i = j)) as [<-|Hne].
    + rewrite zlookup_update by done. rewrite Hv. cbn. rewrite Hs, Hn. naive_solver.
    + rewrite zlookup_update_ne by lia. split; [naive_solver|]. intros Hj. split; [|done]. intros <-. apply HH in Hj. congruence.
Qed.

End local.

(** ** Trees *)

Section tree.
Context (sizes : list Z) (sp : positive).
Implicit Types (s : ipc_space) (vs : list view) (m : gmap Z loc) (X : infos).

Definition tree_fields s : Z * nat * Z * Z * Z := (is_table_size s, is_table_next s, is_tree_total s, is_tree_small s, is_tree_hash s).

Lemma tree_ok_fields s s' vs m X held :
  tree_fields s' = tree_fields s → tree_ok sizes sp s vs m X held → tree_ok sizes sp s' vs m X held.
Proof. intros [= E1 E2 E3 E4 E5] [T1 T2 T3 T4 T5 T6 T7 T8]. split; rewrite ?E1, ?E2, ?E3, ?E4, ?E5; done. Qed.

Lemma unhashed_fields s s' : unhashed s' = unhashed s → tree_fields s' = tree_fields s.
Proof. destruct s, s'. unfold unhashed, tree_fields. cbn. congruence. Qed.

(** A view changes, and has the same collision bit and generation. *)
Lemma tree_ok_view s vs m X held i v v' :
  tree_ok sizes sp s vs m X held → vs !z i = Some v → coll v' = coll v → tree_ok sizes sp s (zupdate i v' vs) m X held.
Proof.
  intros [T1 T2 T3 T4 T5 T6 T7 T8] Hv Hc. pose proof (zlookup_range _ _ _ Hv) as Hr.
  assert (∀ j, zupdate i v' vs !z j ≫= coll = vs !z j ≫= coll) as Hsame.
  { intros j. destruct (decide (i = j)) as [<-|Hne]; [|by rewrite zlookup_update_ne by lia].
    rewrite zlookup_update by done. rewrite Hv. done. }
  split; try done.
  - intros n e He Hlt. destruct (T4 n e He Hlt) as (g & Hg & ?). exists g. by rewrite Hsame.
  - intros j g. rewrite Hsame. apply T5.
Qed.

Lemma tree_ok_infos s vs m X X' held :
  (∀ n e, m !! n = Some e → X' !! e = X !! e) → tree_ok sizes sp s vs m X held → tree_ok sizes sp s vs m X' held.
Proof.
  intros HX [T1 T2 T3 T4 T5 T6 T7 T8]. split; try done.
  - intros n e He. rewrite (HX n e He). by apply (T3 n).
  - rewrite T8. do 2 f_equal. apply map_filter_ext. intros n e He. unfold sending. cbn. by rewrite (HX n e He).
Qed.

Lemma tfind_infos m X X' n : (∀ n e, m !! n = Some e → X' !! e = X !! e) → tfind m X' n = tfind m X n.
Proof. intros HX. unfold tfind. destruct (m !! n) as [e|] eqn:He; [|done]. cbn. by rewrite (HX n e He). Qed.

End tree.

(** ** Names *)

Section names.
Implicit Types (vs : list view) (m : gmap Z loc) (X : infos) (f : Z → option right).

Lemma unique_sub f f' : (∀ n ρ, f' n = Some ρ → is_send ρ → f n = Some ρ) → unique_sends f → unique_sends f'.
Proof. intros Hsub Hf n n' ρ ρ' Hn Hn' Hs Hs'. apply Hf; auto. Qed.

Definition put (name : Z) (o : option right) f : Z → option right := λ n, if decide (n = name) then o else f n.

Lemma unique_put f name ρ :
  unique_sends f → (is_send ρ → ∀ n ρ', n ≠ name → f n = Some ρ' → is_send ρ' → r_object ρ' ≠ r_object ρ) →
  unique_sends (put name (Some ρ) f).
Proof.
  intros Hf Hnew n n' ρ1 ρ2. unfold put. repeat case_decide; intros E1 E2 S1 S2 Ho; simplify_eq; try done.
  - exfalso. by apply (Hnew S1 n' ρ2).
  - exfalso. by apply (Hnew S2 n ρ1).
  - by eapply Hf.
Qed.

Lemma unique_put_None f name : unique_sends f → unique_sends (put name None f).
Proof. apply unique_sub. unfold put. intros n ρ. by case_decide. Qed.

Lemma vfind_update vs i v' n :
  0 ≤ i < Z.of_nat (length vs) →
  vfind (zupdate i v' vs) n = if decide (MACH_PORT_INDEX n = i) then vright v' (gen_of n) else vfind vs n.
Proof.
  intros Hi. unfold vfind. case_decide as Hn; [by rewrite Hn, zlookup_update|]. rewrite zlookup_update_ne by lia. done.
Qed.

Lemma name_is n i g : gen_ok g → n = mkname i g ↔ MACH_PORT_INDEX n = i ∧ gen_of n = g.
Proof.
  intros Hg. split; [intros ->; by rewrite index_mkname, gen_mkname|]. intros [<- <-]. apply name_split.
Qed.

(** A view that holds no right, or one of this generation, gets a new right. *)
Lemma find_put vs m X i v g c ρ n :
  vs !z i = Some v → gen_ok g → (∀ g' ρ', vright v g' = Some ρ' → g' = g) →
  find (zupdate i (Used g c ρ) vs) m X n = put (mkname i g) (Some ρ) (find vs m X) n.
Proof.
  intros Hv Hg Hold. pose proof (zlookup_range _ _ _ Hv) as Hr. unfold find, put. rewrite vfind_update by done.
  pose proof (name_is n i g Hg) as Hn. repeat case_decide; try tauto; cbn.
  - rewrite decide_True; [done|]. naive_solver.
  - rewrite decide_False by naive_solver. unfold vfind. rewrite H, Hv. cbn. destruct (vright v (gen_of n)) eqn:Hvr; [|done].
    apply Hold in Hvr. naive_solver.
Qed.

Lemma find_None vs m X n : find vs m X n = None ↔ vfind vs n = None ∧ tfind m X n = None.
Proof. unfold find. destruct (vfind vs n); naive_solver. Qed.

End names.

(** ** Changes of a space *)

Section changes.
Context (sizes : list Z) (sp : positive).
Implicit Types (s : ipc_space) (vs : list view) (m : gmap Z loc) (X : infos).

Lemma set_entry_twice e e' i s : set_entry e i (set_entry e' i s) = set_entry e i s.
Proof. unfold set_entry. cbn. by rewrite list_insert_insert_eq. Qed.

Lemma set_entry_fields e i s : tree_fields (set_entry e i s) = tree_fields s.
Proof. done. Qed.

(** The link of a free entry changes. *)
Lemma set_next_table s vs i e x g :
  table_ok sizes s vs → is_table s !z i = Some e → vs !z i = Some (Free g) → table_ok sizes (set_entry (with_next x e) i s) vs.
Proof.
  intros Ht He Hv. rewrite <- (zupdate_id vs i (Free g)) by done. eapply table_ok_set; [done..| |].
  - destruct (table_view _ _ _ _ _ Ht Hv) as (e' & He' & Hev). rewrite He in He'. by injection He' as <-.
  - destruct (decide (i = 0)) as [->|]; [right|by left]. rewrite (ta_zero _ _ _ Ht) in Hv. by injection Hv as <-.
Qed.
Lemma set_next_local s vs i e x v :
  local_ok s vs → is_table s !z i = Some e → vs !z i = Some v → local_ok (set_entry (with_next x e) i s) vs.
Proof. intros Hl He Hv. rewrite <- (zupdate_id vs i v) by done. eapply local_ok_set; try done. by right. Qed.

Lemma set_entry_other s i e j e' : i ≠ j → is_table s !z i = Some e → is_table (set_entry e' j s) !z i = Some e ∨ j < 0.
Proof. intros Hne He. rewrite set_entry_table. destruct (decide (j < 0)); [by right|left]. by rewrite zlookup_update_ne by lia. Qed.

Lemma find_free vs m X i g g' n : vs !z i = Some (Free g) → find (zupdate i (Free g') vs) m X n = find vs m X n.
Proof.
  intros Hv. pose proof (zlookup_range _ _ _ Hv). unfold find. rewrite vfind_update by done. case_decide as Hn; [|done].
  unfold vfind. by rewrite Hn, Hv.
Qed.

Lemma unique_ext f f' : (∀ n, f' n = f n) → unique_sends f → unique_sends f'.
Proof. intros Hf. apply unique_sub. intros n ρ. by rewrite Hf. Qed.

(** An entry leaves the free list. *)
Lemma space_unlink s vs m X fl j fl' g g' ep ej :
  space_inv sizes sp s vs m X None → free_is s vs None (fl ++ j :: fl') → vs !z j = Some (Free g) → gen_ok g' →
  is_table s !z stop 0 fl = Some ep → is_table s !z j = Some ej →
  space_inv sizes sp (set_entry (with_next 0 (with_bits (gbits g') ej)) j (set_entry (with_next (ie_next ej) ep) (stop 0 fl) s))
    (zupdate j (Free g') vs) m X (Some (In_table j)).
Proof.
  intros [Ht _ Hl Htr Hu Hso] Hfl Hj Hg' Hep Hej. pose proof Hfl as (Hc & Hnd & Hin). set (p := stop 0 fl) in *.
  assert (0 < j) as Hj0 by (apply (Hin j); set_solver).
  assert (p ≠ j ∧ ∃ gp, vs !z p = Some (Free gp)) as [Hpj [gp Hp]].
  { rewrite <- Permutation_middle in Hnd. apply NoDup_cons in Hnd as [Hnot _].
    assert (p = 0 ∨ p ∈ fl) as [H|H] by (pose proof (stop_elem 0 fl); set_solver).
    - split; [lia|]. rewrite H. exists 255. apply (ta_zero _ _ _ Ht).
    - split; [intros ->; set_solver|]. apply (Hin p). set_solver. }
  pose proof (zlookup_range _ _ _ Hp) as [Hp0 _].
  set (s1 := set_entry (with_next (ie_next ej) ep) p s).
  assert (is_table s1 !z j = Some ej) as Hej1 by (destruct (set_entry_other s j ej p (with_next (ie_next ej) ep)); [done|done|done|lia]).
  assert (table_ok sizes s1 vs) as Ht1 by (by eapply set_next_table).
  assert (local_ok s1 vs) as Hl1 by (by eapply set_next_local).
  assert (entry_is ej (Free g)) as Hev.
  { destruct (table_view _ _ _ _ _ Ht Hj) as (e' & He' & Hev). rewrite Hej in He'. by injection He' as <-. }
  split.
  - eapply table_ok_set; [done..| |left; lia]. destruct Hev as (_ & _ & Ho). by split_and!.
  - eexists. eapply free_is_unlink; [done..| |].
    + rewrite (next_of_set s1 j ej) by done. rewrite decide_False by done. unfold s1. rewrite (next_of_set s p ep) by done.
      rewrite decide_True by done. by rewrite (next_of_entry _ _ _ Hej).
    + intros i Hij Hip. rewrite (next_of_set s1 j ej) by done. rewrite decide_False by done. unfold s1.
      rewrite (next_of_set s p ep) by done. by rewrite decide_False.
  - eapply local_ok_set; try done. by left.
  - eapply tree_ok_fields; [|eapply tree_ok_view]; [done| |done|done]. destruct Htr as [T1 T2 T3 T4 T5 T6 T7 T8]. split; try done.
    intros n e He. destruct (T3 n e He) as (ρ & HX & [?|?]); [done|]. eauto.
  - eapply unique_ext; [|done]. intros n. by eapply find_free.
  - intros n ρ. erewrite find_free by done. intros Hn Hty. destruct (Hso n ρ Hn Hty) as [?|[]]. by left.
Qed.

(** An entry gets a right. *)
Lemma space_put s s' vs m X held held' j v e e' g c ρ :
  space_inv sizes sp s vs m X held → vs !z j = Some v → is_table s !z j = Some e → 0 < j →
  entry_is e' (Used g c ρ) → coll (Used g c ρ) = coll v →
  (∀ g', v = Free g' → gap held j) → (∀ i, i ≠ j → gap held i ↔ gap held' i) →
  (∀ l, held = Some (In_tree l) → held' = held) → (∀ g' ρ', vright v g' = Some ρ' → g' = g) →
  unhashed s' = unhashed (set_entry e' j s) → local_ok s' (zupdate j (Used g c ρ) vs) →
  unique_sends (put (mkname j g) (Some ρ) (find vs m X)) → sound_sends held' m (put (mkname j g) (Some ρ) (find vs m X)) →
  space_inv sizes sp s' (zupdate j (Used g c ρ) vs) m X held'.
Proof.
  intros [Ht [fl Hfl] _ Htr Hu Hso] Hv He Hj Hev Hc Hfree Hgap Htheld Hvr Hs' Hl' Hu' Hso'.
  assert (gen_ok g) as Hg by apply Hev.
  assert (∀ n, find (zupdate j (Used g c ρ) vs) m X n = put (mkname j g) (Some ρ) (find vs m X) n) as Hfind by (intros; by eapply find_put).
  split.
  - eapply table_ok_unhashed; [done|]. eapply table_ok_set; [done..|left; lia].
  - eapply (free_ok_keep s); [by exists fl|done..| |done|done|].
    + done.
    + intros i Hi. rewrite (next_of_unhashed _ _ _ Hs'), (next_of_set s j e) by done. by rewrite decide_False.
  - done.
  - eapply (tree_ok_fields _ _ (set_entry e' j s)); [by apply unhashed_fields|]. eapply tree_ok_fields; [done|].
    eapply tree_ok_view; [|done..]. destruct Htr as [T1 T2 T3 T4 T5 T6 T7 T8]. split; try done.
    intros n l Hl. destruct (T3 n l Hl) as (ρ0 & HX & [Hh|?]); [|by eauto]. exists ρ0. split; [done|]. left. by rewrite (Htheld l Hh).
  - by eapply unique_ext.
  - intros n ρ0. rewrite Hfind. apply Hso'.
Qed.

(** The right of a tree entry changes. *)
Lemma filter_sending m X n e ρ :
  (∀ n', m !! n' = Some e → n' = n) → m !! n = Some e →
  filter (sending (<[e := (ρ, sp)]> X)) m =
    if decide (is_send ρ) then <[n := e]> (filter (sending X) m) else delete n (filter (sending X) m).
Proof.
  intros Hinj Hn. apply map_eq. intros k. apply option_eq. intros l. rewrite map_lookup_filter_Some.
  destruct (decide (k = n)) as [->|Hk].
  - assert (sending (<[e := (ρ, sp)]> X) (n, e) ↔ is_send ρ) as Hs.
    { unfold sending. cbn. rewrite lookup_insert_eq. naive_solver. }
    case_decide; [rewrite lookup_insert_eq|rewrite lookup_delete_eq]; naive_solver.
  - assert (m !! k = Some l → sending (<[e := (ρ, sp)]> X) (k, l) ↔ sending X (k, l)) as Hs.
    { intros Hl. unfold sending. cbn. rewrite lookup_insert_ne; [done|]. intros <-. by apply Hk, Hinj. }
    case_decide; [rewrite lookup_insert_ne by done|rewrite lookup_delete_ne by done]; rewrite map_lookup_filter_Some; naive_solver.
Qed.

Definition one (ρ : right) : Z := if decide (is_send ρ) then 1 else 0.

Lemma size_sending m X n e ρ0 ρ :
  (∀ n', m !! n' = Some e → n' = n) → m !! n = Some e → X !! e = Some (ρ0, sp) →
  Z.of_nat (size (filter (sending (<[e := (ρ, sp)]> X)) m)) = Z.of_nat (size (filter (sending X) m)) + one ρ - one ρ0.
Proof.
  intros Hinj Hn HX. rewrite (filter_sending m X n e ρ) by done. unfold one.
  assert (filter (sending X) m !! n = if decide (is_send ρ0) then Some e else None) as Hl.
  { case_decide as Hs.
    - apply map_lookup_filter_Some. split; [done|]. by exists ρ0, sp.
    - apply map_lookup_filter_None. right. intros e' He' (ρ' & sp' & HX' & Hs'). simplify_eq. cbn in HX'. congruence. }
  destruct (decide (is_send ρ)) as [H1|H1], (decide (is_send ρ0)) as [H2|H2].
  - rewrite map_size_insert_Some by (by rewrite Hl). lia.
  - rewrite map_size_insert_None by done. lia.
  - rewrite map_size_delete_Some by (by rewrite Hl).
    assert (size (filter (sending X) m) ≠ 0%nat); [|lia]. intros Hz%map_size_empty_inv. rewrite Hz in Hl. done.
  - rewrite map_size_delete_None by done. lia.
Qed.

Definition with_hash (h : Z) s : ipc_space := set_counts (is_tree_total s) (is_tree_small s) h s.

Lemma with_hash_id s h : h = is_tree_hash s → with_hash h s = s.
Proof. intros ->. by destruct s. Qed.

Lemma one_send ρ : is_send ρ → one ρ = 1.
Proof. intros. unfold one. by rewrite decide_True. Qed.
Lemma one_not ρ : ¬ is_send ρ → one ρ = 0.
Proof. intros. unfold one. by rewrite decide_False. Qed.

Lemma tree_ok_put s s' vs m X held held' n e ρ0 ρ :
  tree_ok sizes sp s vs m X held → m !! n = Some e → X !! e = Some (ρ0, sp) → held' = Some (In_tree e) ∨ right_ok ρ →
  (∀ l, l ≠ e → held = Some (In_tree l) → held' = held) →
  tree_fields s' = tree_fields (with_hash (is_tree_hash s + one ρ - one ρ0) s) →
  tree_ok sizes sp s' vs m (<[e := (ρ, sp)]> X) held'.
Proof.
  intros [T1 T2 T3 T4 T5 T6 T7 T8] Hn HX Hρ Hheld Hs'. eapply tree_ok_fields; [exact Hs'|]. split; try done.
  - intros n' l Hl. destruct (decide (l = e)) as [->|Hne].
    + rewrite lookup_insert_eq. by exists ρ.
    + rewrite lookup_insert_ne by done. destruct (T3 n' l Hl) as (ρ' & HX' & [Hh|?]); [|by eauto].
      exists ρ'. split; [done|]. left. by rewrite (Hheld l Hne Hh).
  - cbn. rewrite (size_sending m X n e ρ0 ρ) by (done || by eauto). lia.
Qed.

Lemma tree_not_view s vs m X held n e : table_ok sizes s vs → tree_ok sizes sp s vs m X held → m !! n = Some e → vfind vs n = None.
Proof.
  intros Ht Htr He. unfold vfind. destruct (vs !z MACH_PORT_INDEX n) as [v|] eqn:Hv; [|done]. cbn.
  pose proof (table_in _ _ _ _ _ Ht Hv) as [_ Hlt]. destruct (tr_below _ _ _ _ _ _ _ Htr _ _ He Hlt) as (g & Hg & Hne).
  rewrite Hv in Hg. destruct v as [|g' [] ρ]; cbn in *; [done| |done]. rewrite decide_False; congruence.
Qed.

Lemma find_tree_put s vs m X held n e ρ k :
  table_ok sizes s vs → tree_ok sizes sp s vs m X held → m !! n = Some e →
  find vs m (<[e := (ρ, sp)]> X) k = put n (Some ρ) (find vs m X) k.
Proof.
  intros Ht Htr He. unfold find, put, tfind. case_decide as Hk; [subst k|].
  - rewrite (tree_not_view _ _ _ _ _ _ _ Ht Htr He), He. cbn. by rewrite lookup_insert_eq.
  - destruct (vfind vs k); [done|]. destruct (m !! k) as [l|] eqn:Hl; [|done]. cbn.
    rewrite lookup_insert_ne; [done|]. intros <-. apply Hk. by eapply tr_inj.
Qed.

Lemma unhashed_entry s s' i e :
  unhashed s' = unhashed s → is_table s !z i = Some e → ∃ e', is_table s' !z i = Some e' ∧ with_index 0 e' = with_index 0 e.
Proof.
  intros Hu He. pose proof (f_equal is_table Hu) as Htb. cbn in Htb.
  assert (with_index 0 <$> is_table s' !z i = with_index 0 <$> is_table s !z i) as H by (by rewrite <- !zlookup_fmap, Htb).
  rewrite He in H. apply fmap_Some in H as (e' & He' & Heq). eauto.
Qed.

Lemma unhashed_set s s' i e e' :
  unhashed s' = unhashed s → with_index 0 e' = with_index 0 e → unhashed (set_entry e' i s') = unhashed (set_entry e i s).
Proof.
  intros Hu He. unfold unhashed in *. injection Hu as E1 E2 E3 E4 E5 E6 E7 E8 E9. cbn. f_equal; try done.
  rewrite !list_fmap_insert. by rewrite E3, He.
Qed.

End changes.
