(* ===== verification/IpcHashGlobal.v ===== *)
(** * xnu IPC spaces: the global reverse hash table

    The buckets as lists of tree entries, linked through [ite_next]; lookup (which
    moves what it finds to the front), insertion and deletion.  [K] is the state of
    the kernel with one space in focus. *)

From Stdlib Require Import ZifyBool.
From S2P Require Import Prelude IpcSplay IpcHash IpcEntry IpcEntryInv.

Import Entry.

(** ** One space in focus *)

Section focus.
Context (sp : positive) (ss : gmap positive ipc_space).

Definition K (σ : ipc) (its : gmap loc ipc_tree_entry) (s : ipc_space) (hs : list (option loc)) : kernel :=
  Kernel σ its (<[sp := s]> ss) hs.

Context (σ : ipc) (its : gmap loc ipc_tree_entry) (s : ipc_space) (hs : list (option loc)).

Lemma wp_K_tree {A} (m : M ipc A) Q : wp m σ (λ a σ', Q a (K σ' its s hs)) → wp (in_tree m) (K σ its s hs) Q.
Proof. unfold wp, in_tree. cbn. by destruct (m σ) as [[a σ']|]. Qed.

Lemma wp_K_space {A} (m : M ipc_space A) Q : wp m s (λ a s', Q a (K σ its s' hs)) → wp (in_space sp m) (K σ its s hs) Q.
Proof.
  unfold wp, in_space, K. cbn. rewrite lookup_insert_eq. destruct (m s) as [[a s']|]; [|done]. by rewrite insert_insert_eq.
Qed.

Lemma wp_K_space_of (Q : ipc_space → kernel → Prop) : Q s (K σ its s hs) → wp (space_of sp) (K σ its s hs) Q.
Proof. intros. apply wp_K_space. by apply wp_gets. Qed.
Lemma wp_K_update f (Q : unit → kernel → Prop) : Q tt (K σ its (f s) hs) → wp (update_space sp f) (K σ its s hs) Q.
Proof. intros. by apply wp_K_space. Qed.
Lemma wp_K_entry i e (Q : ipc_entry → kernel → Prop) :
  is_table s !z i = Some e → Q e (K σ its s hs) → wp (entry_at sp i) (K σ its s hs) Q.
Proof. intros. apply wp_K_space. by eapply wp_entry. Qed.
Lemma wp_K_put_entry i e e' (Q : unit → kernel → Prop) :
  is_table s !z i = Some e → Q tt (K σ its (set_entry e' i s) hs) → wp (put_entry_at sp i e') (K σ its s hs) Q.
Proof. intros. apply wp_K_space. by eapply wp_set_entry. Qed.
Lemma wp_K_update_entry i f e (Q : unit → kernel → Prop) :
  is_table s !z i = Some e → Q tt (K σ its (set_entry (f e) i s) hs) → wp (update_entry sp i f) (K σ its s hs) Q.
Proof. intros. eapply wp_bind, wp_K_entry; [done|]. by eapply wp_K_put_entry. Qed.

Lemma wp_K_item e t (Q : ipc_tree_entry → kernel → Prop) :
  its !! e = Some t → Q t (K σ its s hs) → wp (get_item e) (K σ its s hs) Q.
Proof. unfold wp, get_item. cbn. by intros ->. Qed.
Lemma wp_K_put_item e t t' (Q : unit → kernel → Prop) :
  its !! e = Some t → Q tt (K σ (<[e := t']> its) s hs) → wp (put_item e t') (K σ its s hs) Q.
Proof. unfold wp, put_item. cbn. by intros ->. Qed.
Lemma wp_K_put_next e t p (Q : unit → kernel → Prop) :
  its !! e = Some t → Q tt (K σ (<[e := with_ite_next p t]> its) s hs) → wp (put_next e p) (K σ its s hs) Q.
Proof. intros. eapply wp_bind, wp_K_item; [done|]. by eapply wp_K_put_item. Qed.
Lemma wp_K_free_item e (Q : unit → kernel → Prop) : Q tt (K σ (delete e its) s hs) → wp (free_item e) (K σ its s hs) Q.
Proof. done. Qed.

Lemma wp_K_head b p (Q : option loc → kernel → Prop) :
  hs !! b = Some p → Q p (K σ its s hs) → wp (get_head b) (K σ its s hs) Q.
Proof. unfold wp, get_head. cbn. by intros ->. Qed.
Lemma wp_K_put_head b p p' (Q : unit → kernel → Prop) :
  hs !! b = Some p → Q tt (K σ its s (<[b := p']> hs)) → wp (put_head b p') (K σ its s hs) Q.
Proof. unfold wp, put_head. cbn. by intros ->. Qed.

Lemma wp_K_name e n (Q : Z → kernel → Prop) :
  ite_name σ !! e = Some n → Q n (K σ its s hs) → wp (in_tree (name_of (Some e))) (K σ its s hs) Q.
Proof. intros He HQ. apply wp_K_tree. unfold wp, name_of, mbind, M_bind. cbn. unfold get_name. by rewrite He. Qed.

End focus.

Lemma K_focus sp k s : spaces k !! sp = Some s → k = K sp (spaces k) (tmem k) (items k) s (ihgb_head k).
Proof. destruct k as [σ its ss hs]. cbn. intros Hs. unfold K. by rewrite insert_id. Qed.

(** ** Linked entries *)

Section linked.
Implicit Types (its : gmap loc ipc_tree_entry) (l : list loc) (p : option loc).

(** [l] from the pointer [p], then the pointer [q]. *)
Fixpoint links its p l (q : option loc) : Prop :=
  match l with
  | [] => p = q
  | e :: l => p = Some e ∧ ∃ t, its !! e = Some t ∧ links its (ite_next t) l q
  end.

Lemma links_app its p l l' q : links its p (l ++ l') q ↔ ∃ r, links its p l r ∧ links its r l' q.
Proof.
  induction l as [|e l IH] in p |- *; cbn; [naive_solver|]. split.
  - intros (-> & t & Ht & (r & ? & ?)%IH). eauto 7.
  - intros (r & (-> & t & Ht & ?) & ?). split; [done|]. exists t. split; [done|]. apply IH. eauto.
Qed.

Lemma links_ext its its' p l q : (∀ e, e ∈ l → its' !! e = its !! e) → links its p l q → links its' p l q.
Proof.
  induction l as [|e l IH] in p |- *; cbn; [done|]. intros Hext (-> & t & Ht & Hl). split; [done|].
  exists t. rewrite Hext by set_solver. split; [done|]. apply IH; [|done]. intros. apply Hext. set_solver.
Qed.

Lemma links_insert its e t p l q : e ∉ l → links its p l q → links (<[e := t]> its) p l q.
Proof. intros He. apply links_ext. intros e' He'. apply lookup_insert_ne. set_solver. Qed.

(** The last entry of a list points elsewhere. *)
Lemma links_last its e t p l q q' :
  NoDup (l ++ [e]) → its !! e = Some t → links its p (l ++ [e]) q →
  links (<[e := with_ite_next q' t]> its) p (l ++ [e]) q'.
Proof.
  intros Hnd He (r & Hl & -> & _)%links_app. apply links_app. exists (Some e).
  apply NoDup_app in Hnd as (_ & Hd & _). split; [apply links_insert; [|done]; set_solver|].
  split; [done|]. exists (with_ite_next q' t). by rewrite lookup_insert_eq.
Qed.

Lemma links_items its p l q e : links its p l q → e ∈ l → is_Some (its !! e).
Proof. induction l as [|a l IH] in p |- *; cbn; [set_solver|]. intros (_ & t & Ht & Hl) [->|?]%elem_of_cons; eauto. Qed.

Lemma info_put_next its e t p : its !! e = Some t → info <$> <[e := with_ite_next p t]> its = info <$> its.
Proof.
  intros He. rewrite fmap_insert. apply insert_id. by rewrite lookup_fmap, He.
Qed.

End linked.

(** ** Buckets *)

Definition place (n : nat) (t : right * positive) : nat :=
  Z.to_nat (IH_GLOBAL_HASH t.2 (r_object t.1) (Z.of_nat n)).

Record buckets (hs : list (option loc)) (its : gmap loc ipc_tree_entry) (P : loc → Prop) (bs : list (list loc)) : Prop := {
  bk_length : length bs = length hs;
  bk_pow : ∃ n, length hs = (2 ^ n)%nat;
  bk_links : ∀ b h l, hs !! b = Some h → bs !! b = Some l → links its h l None;
  bk_nodup : ∀ b l, bs !! b = Some l → NoDup l;
  bk_elem : ∀ b l e, bs !! b = Some l → e ∈ l ↔ P e ∧ ∃ x, info <$> its !! e = Some x ∧ place (length hs) x = b;
}.

Lemma place_range n x : (place (2 ^ n) x < 2 ^ n)%nat.
Proof.
  unfold place, IH_GLOBAL_HASH. rewrite Nat2Z.inj_pow. change (Z.of_nat 2) with 2.
  replace (2 ^ Z.of_nat n - 1) with (Z.ones (Z.of_nat n)) by (rewrite Z.ones_equiv; lia). rewrite Z.land_ones by lia.
  pose proof (Z.mod_pos_bound (u32 (Z.shiftr (u32 (Zpos x.2)) 4 + Z.shiftr (u32 (r_object x.1)) 6)) (2 ^ Z.of_nat n)) as H.
  assert (0 < 2 ^ Z.of_nat n) by (apply Z.pow_pos_nonneg; lia).
  apply Nat2Z.inj_lt. rewrite Z2Nat.id by lia. rewrite Nat2Z.inj_pow. lia.
Qed.

Section buckets.
Implicit Types (hs : list (option loc)) (its : gmap loc ipc_tree_entry) (P : loc → Prop).

(** The bucket of a right. *)
Lemma bucket_at hs its P bs x :
  buckets hs its P bs → ∃ h l, hs !! place (length hs) x = Some h ∧ bs !! place (length hs) x = Some l ∧ links its h l None.
Proof.
  intros HB. destruct (bk_pow _ _ _ _ HB) as [n Hn]. pose proof (place_range n x) as Hx. rewrite <- Hn in Hx.
  destruct (lookup_lt_is_Some_2 hs _ Hx) as [h Hh].
  destruct (lookup_lt_is_Some_2 bs (place (length hs) x)) as [l Hl]; [by rewrite (bk_length _ _ _ _ HB)|].
  exists h, l. split_and!; [done..|]. by eapply bk_links.
Qed.

(** One bucket changes, with the fields [ite_next] of its entries. *)
Lemma buckets_set hs its its' P P' bs b h l l' p :
  buckets hs its P bs → hs !! b = Some h → bs !! b = Some l → links its' p l' None → NoDup l' →
  info <$> its' = info <$> its → (∀ e, e ∉ l → e ∉ l' → its' !! e = its !! e) →
  (∀ e, e ∈ l' ↔ P' e ∧ ∃ x, info <$> its !! e = Some x ∧ place (length hs) x = b) →
  (∀ e x, info <$> its !! e = Some x → place (length hs) x ≠ b → P' e ↔ P e) →
  buckets (<[b := p]> hs) its' P' (<[b := l']> bs).
Proof.
  intros [Hlen Hpow Hlinks Hnd Helem] Hh Hl Hl' Hnd' Hinfo Hits Hb Hother.
  pose proof (lookup_lt_Some _ _ _ Hh) as Hlt. pose proof (lookup_lt_Some _ _ _ Hl) as Hlt'.
  split; rewrite ?length_insert; [done|done|..].
  - intros b' h' l1. destruct (decide (b = b')) as [<-|Hne].
    + rewrite !list_lookup_insert_eq by done. by intros [= <-] [= <-].
    + rewrite !list_lookup_insert_ne by done. intros Hh' Hl1. eapply links_ext; [|by eapply Hlinks].
      assert (∀ e x, e ∈ l1 → info <$> its !! e = Some x → place (length hs) x ≠ b) as Hno.
      { intros e x [_ (x' & Hx' & Hb')]%(Helem _ _ e Hl1) Hx. congruence. }
      intros e He. destruct (proj1 (Helem _ _ e Hl1) He) as [_ (x & Hx & Hbx)]. apply Hits.
      * intros (_ & x' & Hx' & Hb')%(Helem _ _ e Hl). by apply (Hno e x').
      * intros (_ & x' & Hx' & Hb')%Hb. by apply (Hno e x').
  - intros b' l1. destruct (decide (b = b')) as [<-|Hne].
    + rewrite list_lookup_insert_eq by done. by intros [= <-].
    + rewrite list_lookup_insert_ne by done. apply Hnd.
  - intros b' l1 e. rewrite <- lookup_fmap, Hinfo, lookup_fmap. destruct (decide (b = b')) as [<-|Hne].
    + rewrite list_lookup_insert_eq by done. by intros [= <-].
    + rewrite list_lookup_insert_ne by done. intros Hl1. rewrite (Helem _ _ e Hl1). split; intros [He (x & Hx & Hbx)].
      * split; [|by eauto]. apply (Hother e x); [done|congruence|done].
      * split; [|by eauto]. apply (Hother e x); [done|congruence|done].
Qed.

Lemma buckets_ext hs its P P' bs : (∀ e, P e ↔ P' e) → buckets hs its P bs → buckets hs its P' bs.
Proof. intros HP [? ? ? ? He]. split; [done..|]. intros b l e Hl. by rewrite <- HP, (He b l). Qed.

(** An entry that is in no bucket changes. *)
Lemma buckets_item hs its P bs e t' : buckets hs its P bs → ¬ P e → buckets hs (<[e := t']> its) P bs.
Proof.
  intros [B1 B2 B3 B4 B5] He. split; [done..| |done|].
  - intros b h l Hh Hl. apply links_insert; [|by eapply B3]. by intros [? _]%(B5 b l e Hl).
  - intros b l e' Hl. rewrite (B5 b l e' Hl). destruct (decide (e' = e)) as [->|Hne]; [tauto|]. by rewrite lookup_insert_ne.
Qed.
Lemma buckets_same hs its P bs e t t' :
  buckets hs its P bs → its !! e = Some t → ite_next t' = ite_next t → ite_object t' = ite_object t → ite_space t' = ite_space t →
  buckets hs (<[e := t']> its) P bs.
Proof.
  intros [B1 B2 B3 B4 B5] Ht Hn Ho Hsp. split; [done..| |done|].
  - intros b h l Hh Hl. pose proof (B3 b h l Hh Hl) as Hlinks. clear Hh Hl. revert h Hlinks.
    induction l as [|e' l IH]; [done|]. intros h (-> & t0 & Ht0 & Hlinks). split; [done|].
    destruct (decide (e' = e)) as [->|Hne].
    + rewrite lookup_insert_eq. exists t'. split; [done|]. apply IH. rewrite Ht in Ht0. injection Ht0 as <-. by rewrite Hn.
    + rewrite lookup_insert_ne by done. exists t0. split; [done|]. by apply IH.
  - intros b l e' Hl. rewrite (B5 b l e' Hl). destruct (decide (e' = e)) as [->|Hne]; [|by rewrite lookup_insert_ne].
    rewrite lookup_insert_eq, Ht. cbn. assert (place (length hs) (info t') = place (length hs) (info t)) as Hp.
    { unfold place, info. cbn. by rewrite Ho, Hsp. }
    split; intros [? (x & [= <-] & Hb)]; (split; [done|]); eexists; (split; [done|]); congruence.
Qed.
Lemma buckets_items hs its its' P bs : (∀ e, P e → its' !! e = its !! e) → buckets hs its P bs → buckets hs its' P bs.
Proof.
  intros Hits [B1 B2 B3 B4 B5]. split; [done..| |done|].
  - intros b h l Hh Hl. eapply links_ext; [|by eapply B3]. intros e [? _]%(B5 b l e Hl). by apply Hits.
  - intros b l e Hl. rewrite (B5 b l e Hl). split; intros [HP Hx]; by rewrite Hits in * by done.
Qed.
Lemma buckets_delete hs its P bs e : buckets hs its P bs → ¬ P e → buckets hs (delete e its) P bs.
Proof.
  intros [B1 B2 B3 B4 B5] He. split; [done..| |done|].
  - intros b h l Hh Hl. eapply links_ext; [|by eapply B3]. intros e' He'. apply lookup_delete_ne. intros ->.
    by apply (B5 b l e' Hl) in He' as [? _].
  - intros b l e' Hl. rewrite (B5 b l e' Hl). destruct (decide (e' = e)) as [->|Hne]; [tauto|]. by rewrite lookup_delete_ne.
Qed.

End buckets.

(** ** The routines *)

Section routines.
Context (sp : positive) (ss : gmap positive ipc_space) (σ : ipc) (s : ipc_space).
Context (its : gmap loc ipc_tree_entry) (hs : list (option loc)) (P : loc → Prop) (bs : list (list loc)).
Hypothesis (HB : buckets hs its P bs) (Hfast : is_fast s = false).

Abbreviation KK := (K sp ss).

(** The state after a routine: other links, the same rights, [P'] hashed. *)
Definition relinked (s' : ipc_space) (P' : loc → Prop) (k : kernel) : Prop :=
  ∃ its' hs', k = KK σ its' s' hs' ∧ info <$> its' = info <$> its ∧ ∃ bs', buckets hs' its' P' bs'.

Lemma bucket_of_place obj (Q : nat → kernel → Prop) s0 ρ :
  r_object ρ = obj → Q (place (length hs) (ρ, sp)) (KK σ its s0 hs) → wp (bucket_of sp obj) (KK σ its s0 hs) Q.
Proof. intros <- HQ. by apply wp_gets. Qed.

Lemma wp_global_asserts obj name e t (Q : unit → kernel → Prop) :
  its !! e = Some t → ite_space t = sp → ite_object t = obj → obj ≠ IO_NULL → ite_name σ !! e = Some name →
  Q tt (KK σ its s hs) → wp (global_asserts sp obj name e) (KK σ its s hs) Q.
Proof.
  intros Ht Hsp Ho Hobj Hname HQ. apply wp_bind, wp_K_space_of. apply wp_bind, wp_assert; [by rewrite Hfast|].
  eapply wp_bind, wp_K_name; [done|]. apply wp_bind, wp_assert; [lia|]. eapply wp_bind, wp_K_item; [done|].
  apply wp_bind, wp_assert; [by rewrite bool_decide_true|]. apply wp_bind, wp_assert; [lia|]. by apply wp_assert; [lia|].
Qed.

Lemma wp_global_insert obj name e t :
  its !! e = Some t → ite_space t = sp → ite_object t = obj → obj ≠ IO_NULL → ite_name σ !! e = Some name →
  ¬ P e → is_tree_hash s + 1 ≤ is_tree_total s →
  wp (ipc_hash_global_insert sp obj name e) (KK σ its s hs) (λ _, relinked (add_hash 1 s) (λ e', P e' ∨ e' = e)).
Proof.
  intros Ht Hsp Ho Hobj Hname Hnew Hle. eapply wp_bind, wp_global_asserts; [done..|].
  apply wp_bind, wp_K_update. apply wp_bind, wp_K_space_of. apply wp_bind, wp_assert; [cbn; lia|].
  eapply wp_bind, (bucket_of_place _ _ _ (right_of t)); [done|]. set (b := place (length hs) (right_of t, sp)).
  destruct (bucket_at _ _ _ _ (right_of t, sp) HB) as (h & l & Hh & Hl & Hlinks).
  eapply wp_bind, wp_K_head; [done|]. eapply wp_bind, wp_K_put_next; [done|]. eapply wp_K_put_head; [done|].
  assert (info <$> its !! e = Some (right_of t, sp)) as Hi by (rewrite Ht; cbn; unfold info; by rewrite Hsp).
  assert (e ∉ l) as Hel by (intros [? _]%(bk_elem _ _ _ _ HB _ _ e Hl); done).
  eexists _, _. split; [done|]. split; [by apply info_put_next|]. exists (<[b := e :: l]> bs).
  eapply buckets_set; [exact HB|done|done| | |by apply info_put_next|..].
  - split; [done|]. exists (with_ite_next h t). rewrite lookup_insert_eq. split; [done|]. by apply links_insert.
  - constructor; [done|]. by eapply bk_nodup.
  - intros e' _ Hne. apply lookup_insert_ne. set_solver.
  - intros e'. rewrite elem_of_cons, (bk_elem _ _ _ _ HB _ _ e' Hl). split.
    + intros [->|[??]]; [|by auto]. split; [by right|]. by eexists.
    + intros [[?| ->] ?]; auto.
  - intros e' x Hx Hne. split; [|by left]. intros [?| ->]; [done|]. rewrite Hi in Hx. by simplify_eq.
Qed.

(** The walk to [e]; the entries [pre1] are passed. *)
Lemma wp_global_delete_loop fuel b e h l pre1 pre2 post this s0 :
  hs !! b = Some h → l = (pre1 ++ pre2) ++ e :: post → NoDup l → (length pre2 < fuel)%nat →
  links its h pre1 this → links its this (pre2 ++ e :: post) None →
  wp (global_delete_loop fuel b e (last pre1) this) (KK σ its s0 hs) (λ _ k, ∃ its' h',
    k = KK σ its' s0 (<[b := h']> hs) ∧ info <$> its' = info <$> its ∧ (∀ e', e' ∉ l → its' !! e' = its !! e') ∧
    links its' h' ((pre1 ++ pre2) ++ post) None).
Proof.
  intros Hh -> Hnd Hf. induction fuel as [|fuel IH] in pre1, pre2, this, Hf, Hnd |- *; [lia|]. intros Hl1 Hl2.
  destruct pre2 as [|e' pre2]; cbn [global_delete_loop app].
  - destruct Hl2 as (-> & t & Ht & Hpost). eapply wp_bind, wp_K_item; [done|]. rewrite bool_decide_true by done.
    rewrite app_nil_r in *. destruct pre1 as [|p pre1 _] using rev_ind.
    + cbn in *. eapply wp_K_put_head; [done|]. exists its, (ite_next t). done.
    + rewrite last_snoc. destruct (links_items _ _ _ _ p Hl1) as [tp Htp]; [set_solver|].
      eapply wp_K_put_next; [done|]. eexists _, h. split; [by rewrite list_insert_id|].
      apply NoDup_app in Hnd as (Hnd1 & Hd & [? _]%NoDup_cons). split; [by apply info_put_next|]. split.
      * intros e' He'. apply lookup_insert_ne. set_solver.
      * apply links_app. eexists. split; [by eapply links_last|]. apply links_insert; [|done].
        pose proof (Hd p). set_solver.
  - destruct Hl2 as (-> & t & Ht & Hrest). eapply wp_bind, wp_K_item; [done|]. rewrite bool_decide_false.
    + specialize (IH (pre1 ++ [e']) pre2 (ite_next t)). rewrite last_snoc, <- (app_assoc pre1) in IH.
      apply IH; [done|cbn in Hf; lia| |done]. apply links_app. exists (Some e'). split; [done|]. split; [done|]. by exists t.
    + intros ->. rewrite <- app_assoc in Hnd. cbn in Hnd. apply NoDup_app in Hnd as (_ & _ & [Hin _]%NoDup_cons). set_solver.
Qed.

Lemma wp_global_delete obj name e t :
  its !! e = Some t → ite_space t = sp → ite_object t = obj → obj ≠ IO_NULL → ite_name σ !! e = Some name →
  P e → 0 < is_tree_hash s →
  wp (ipc_hash_global_delete sp obj name e) (KK σ its s hs) (λ _, relinked (add_hash (-1) s) (λ e', P e' ∧ e' ≠ e)).
Proof.
  intros Ht Hsp Ho Hobj Hname Hin Hpos. eapply wp_bind, wp_global_asserts; [done..|].
  apply wp_bind, wp_K_space_of. apply wp_bind, wp_assert; [lia|]. apply wp_bind, wp_K_update.
  eapply wp_bind, (bucket_of_place _ _ _ (right_of t)); [done|]. set (b := place (length hs) (right_of t, sp)).
  destruct (bucket_at _ _ _ _ (right_of t, sp) HB) as (h & l & Hh & Hl & Hlinks).
  eapply wp_bind, wp_K_head; [done|]. apply wp_bind, wp_gets.
  assert (info <$> its !! e = Some (right_of t, sp)) as Hi by (rewrite Ht; cbn; unfold info; by rewrite Hsp).
  assert (e ∈ l) as Hel by (apply (bk_elem _ _ _ _ HB _ _ e Hl); eauto).
  pose proof (bk_nodup _ _ _ _ HB _ _ Hl) as Hnd. apply list_elem_of_split in Hel as (pre & post & ->).
  eapply wp_mono.
  { apply (wp_global_delete_loop _ b e h (pre ++ e :: post) [] pre post); [done|done|done| |done|done]. cbn.
    assert (length (pre ++ e :: post) ≤ size its)%nat as Hle.
    { rewrite <- (size_list_to_set (C := gset loc)) by done. rewrite <- size_dom. apply subseteq_size. intros e'.
      rewrite elem_of_list_to_set, elem_of_dom. intros He'. by eapply links_items. }
    rewrite length_app in Hle. cbn in *. lia. }
  cbn [app]. intros _ k (its' & h' & -> & Hinfo & Hsame & Hl'). eexists _, _. split; [done|]. split; [done|].
  exists (<[b := pre ++ post]> bs). rewrite <- Permutation_middle in Hnd. apply NoDup_cons in Hnd as [Hne Hnd].
  eapply buckets_set; [exact HB|done|done|done|done|done|by auto| |].
  - intros e'. split.
    + intros He'. destruct (proj1 (bk_elem _ _ _ _ HB _ _ e' Hl)) as [? Hx]; [set_solver|]. split; [|done].
      split; [done|]. intros ->. done.
    + intros [[HPe Hne'] Hx]. assert (e' ∈ pre ++ e :: post) by (by apply (bk_elem _ _ _ _ HB _ _ e' Hl)). set_solver.
  - intros e' x Hx Hnb. split; [by intros [? _]|]. intros. split; [done|]. intros ->. rewrite Hi in Hx. by simplify_eq.
Qed.

(** The entries a lookup looks for. *)
Definition hit (obj : Z) (e : loc) : Prop := ∃ t, its !! e = Some t ∧ ite_object t = obj ∧ ite_space t = sp.

Definition lookup_result (obj : Z) (l : list loc) (r : option (Z * loc)) : Prop :=
  match r with
  | Some (n, e) => e ∈ l ∧ hit obj e ∧ ite_name σ !! e = Some n
  | None => ∀ e, e ∈ l → ¬ hit obj e
  end.

(** What is found goes to the front of the bucket. *)
Lemma relinked_front b h pre p e post t tp :
  hs !! b = Some h → bs !! b = Some (pre ++ p :: e :: post) → its !! e = Some t → its !! p = Some tp →
  relinked s P (KK σ (<[e := with_ite_next h t]> (<[p := with_ite_next (ite_next t) tp]> its)) s (<[b := Some e]> hs)).
Proof.
  intros Hh Hl Ht Htp. pose proof (bk_nodup _ _ _ _ HB _ _ Hl) as Hnd. pose proof (bk_links _ _ _ _ HB _ _ _ Hh Hl) as Hlinks.
  assert (p ≠ e) as Hpe by (apply NoDup_app in Hnd as (_ & _ & [? _]%NoDup_cons); set_solver).
  set (its1 := <[p := with_ite_next (ite_next t) tp]> its).
  assert (its1 !! e = Some t) as Ht1 by (unfold its1; by rewrite lookup_insert_ne).
  assert (info <$> <[e := with_ite_next h t]> its1 = info <$> its) as Hinfo.
  { rewrite info_put_next by done. by apply info_put_next. }
  eexists _, _. split; [done|]. split; [done|]. exists (<[b := e :: (pre ++ [p]) ++ post]> bs).
  replace (pre ++ p :: e :: post) with ((pre ++ [p]) ++ e :: post) in * by (by rewrite <- app_assoc).
  apply links_app in Hlinks as (r & Hl1 & -> & t' & Ht' & Hl2). rewrite Ht in Ht'. injection Ht' as <-.
  rewrite <- Permutation_middle in Hnd. apply NoDup_cons in Hnd as [He Hnd].
  eapply buckets_set; [exact HB|done|done| |by constructor|done| | |].
  - split; [done|]. exists (with_ite_next h t). rewrite lookup_insert_eq. split; [done|]. apply links_insert; [done|].
    pose proof (proj1 (NoDup_app _ _) Hnd) as (Hnd1 & Hd & _).
    apply links_app. exists (ite_next t). split; [by eapply links_last|]. apply links_insert; [|done]. pose proof (Hd p). set_solver.
  - intros e' Hnot _. unfold its1. rewrite !lookup_insert_ne by set_solver. done.
  - intros e'. rewrite <- (bk_elem _ _ _ _ HB _ _ e' Hl). set_solver.
  - done.
Qed.

Lemma wp_global_lookup_loop obj fuel b h l pre p rest :
  hs !! b = Some h → bs !! b = Some l → l = pre ++ p :: rest → (length rest < fuel)%nat →
  (∀ e, e ∈ pre ++ [p] → ¬ hit obj e) → (∀ e, e ∈ l → is_Some (ite_name σ !! e)) →
  wp (global_lookup_loop fuel b sp obj p) (KK σ its s hs) (λ r k, relinked s P k ∧ lookup_result obj l r).
Proof.
  intros Hh Hl -> Hf Hno Hname. induction fuel as [|fuel IH] in pre, p, rest, Hl, Hf, Hno, Hname |- *; [lia|].
  pose proof (bk_links _ _ _ _ HB _ _ _ Hh Hl) as (r & Hl1 & -> & tp & Htp & Hl2)%links_app.
  cbn [global_lookup_loop]. eapply wp_bind, wp_K_item; [done|]. destruct rest as [|e rest].
  { cbn in Hl2. rewrite Hl2. apply wp_ret. split; [by exists its, hs; eauto|]. done. }
  destruct Hl2 as (Hnext & t & Ht & Hl2). rewrite Hnext. eapply wp_bind, wp_K_item; [done|].
  destruct ((ite_object t =? obj) && bool_decide (ite_space t = sp)) eqn:Htest.
  - apply andb_true_iff in Htest as [Ho%Z.eqb_eq Hsp%bool_decide_eq_true].
    destruct (Hname e) as [n Hn]; [set_solver|]. assert (p ≠ e) as Hpe.
    { intros ->. apply (Hno e); [set_solver|]. by exists t. }
    eapply wp_bind, wp_K_put_next; [done|]. eapply wp_bind, wp_K_head; [done|].
    eapply wp_bind, wp_K_put_next; [by rewrite lookup_insert_ne|]. eapply wp_bind, wp_K_put_head; [done|].
    eapply wp_bind, wp_K_name; [done|]. apply wp_ret. split; [by eapply relinked_front|].
    split_and!; [set_solver|by exists t|done].
  - replace (pre ++ p :: e :: rest) with ((pre ++ [p]) ++ e :: rest) in * by (by rewrite <- app_assoc).
    apply IH; [done|cbn in Hf; lia| |done]. intros e' [?| ->%list_elem_of_singleton]%elem_of_app; [by apply Hno|].
    intros (t' & Ht' & Ho & Hsp). rewrite Ht in Ht'. injection Ht' as <-. rewrite bool_decide_true in Htest by done. lia.
Qed.

Lemma wp_global_lookup obj :
  obj ≠ IO_NULL → (∀ e, P e → is_Some (ite_name σ !! e)) →
  wp (ipc_hash_global_lookup sp obj) (KK σ its s hs) (λ r k, relinked s P k ∧
    match r with
    | Some (n, e) => P e ∧ hit obj e ∧ ite_name σ !! e = Some n
    | None => ∀ e, P e → ¬ hit obj e
    end).
Proof.
  intros Hobj Hname. apply wp_bind, wp_assert; [lia|]. apply wp_bind, wp_K_space_of. apply wp_bind, wp_assert; [by rewrite Hfast|].
  pose (x := (Right 0 obj 0, sp)). eapply wp_bind, (bucket_of_place _ _ _ (Right 0 obj 0)); [done|].
  destruct (bucket_at _ _ _ _ x HB) as (h & l & Hh & Hl & Hlinks). eapply wp_bind, wp_K_head; [done|].
  assert (∀ e, e ∈ l → is_Some (ite_name σ !! e)) as Hname' by (intros e [? _]%(bk_elem _ _ _ _ HB _ _ e Hl); auto).
  assert (∀ e, P e → hit obj e → e ∈ l) as Hin.
  { intros e He (t & Ht & Ho & Hsp). apply (bk_elem _ _ _ _ HB _ _ e Hl). split; [done|]. exists (info t).
    rewrite Ht. split; [done|]. unfold place, info. cbn. by rewrite Ho, Hsp. }
  assert (relinked s P (KK σ its s hs)) as Hsame by (exists its, hs; eauto).
  eapply wp_mono with (Q := λ r k, relinked s P k ∧ lookup_result obj l r).
  - destruct l as [|e l]; cbn in Hlinks; [subst h; by apply wp_ret; split; [|set_solver]|].
    destruct Hlinks as (-> & t & Ht & Hl2). eapply wp_bind, wp_K_item; [done|].
    destruct ((ite_object t =? obj) && bool_decide (ite_space t = sp)) eqn:Htest.
    + apply andb_true_iff in Htest as [Ho%Z.eqb_eq Hsp%bool_decide_eq_true]. destruct (Hname' e) as [n Hn]; [set_solver|].
      eapply wp_bind, wp_K_name; [done|]. apply wp_ret. split; [done|]. split_and!; [set_solver|by exists t|done].
    + apply wp_bind, wp_gets. eapply (wp_global_lookup_loop _ _ _ _ _ []); [done..| | |done].
      * cbn. assert (NoDup l) as Hnd by (pose proof (bk_nodup _ _ _ _ HB _ _ Hl) as [_ ?]%NoDup_cons; done).
        apply Nat.lt_succ_r. rewrite <- (size_list_to_set (C := gset loc)) by done. rewrite <- size_dom. apply subseteq_size.
        intros e'. rewrite elem_of_list_to_set, elem_of_dom. intros He'. by eapply links_items.
      * intros e' ->%list_elem_of_singleton (t' & Ht' & Ho & Hsp). rewrite Ht in Ht'. injection Ht' as <-.
        rewrite bool_decide_true in Htest by done. lia.
  - intros [[n e]|] k [Hk Hr]; (split; [done|]).
    + destruct Hr as (He & Hhit & Hn). apply (bk_elem _ _ _ _ HB _ _ e Hl) in He as [? _]. done.
    + intros e He Hhit. by apply (Hr e); [apply Hin|].
Qed.

End routines.
