(* ===== verification/IpcEntryOps.v ===== *)
(** * xnu IPC spaces: lookup, allocation and deallocation

    The invariant of the kernel with one space in focus, and what each routine of
    ipc_entry.c does to the names of that space. *)

From Stdlib Require Import ZifyBool.
From S2P Require Import Prelude IpcSplay IpcSplayOps IpcSplayCorrect IpcForest IpcHash IpcEntry IpcEntryInv IpcHashGlobal.

Import Entry.

(** The sizes of tables: increasing, but for the last two, and small enough for
    the indices of names. *)
Record sizes_ok (sizes : list Z) : Prop := {
  so_range : ∀ i n, sizes !! i = Some n → 0 < n < 2 ^ 24;
  so_next : ∀ i n n', sizes !! i = Some n → sizes !! S i = Some n' → n < n' ∨ (n = n' ∧ S (S i) = length sizes);
  so_two : (2 ≤ length sizes)%nat;
  so_last : ∀ n, sizes !! (length sizes - 1)%nat = Some n → sizes !! (length sizes - 2)%nat = Some n;
}.

(** ** The space in focus *)

(** What the routines change, with the views and the tree of the space. *)
Record lst := L {
  lA : spec;
  lσ : ipc;
  lits : gmap loc ipc_tree_entry;
  ls : ipc_space;
  lhs : list (option loc);
  lvs : list view;
  lm : gmap Z loc;
  lheld : option entry_ref;
}.

Ltac lcbn := cbn [lA lσ lits ls lhs lvs lm lheld] in *.

Definition infos_of (x : lst) : infos := info <$> lits x.
Definition names (x : lst) : Z → option right := find (lvs x) (lm x) (infos_of x).

Section space_ops.
Context (sizes : list Z) (Hsizes : sizes_ok sizes) (sp : positive) (ss : gmap positive ipc_space).

(** The trees of the other spaces, and what is known of their entries. *)
Context (F : gmap positive (gmap Z loc)) (X0 : infos).
Hypothesis (HF : ∀ sp' m, F !! sp' = Some m → sp' ≠ sp ∧ ∀ n e, m !! n = Some e → ∃ ρ, X0 !! e = Some (ρ, sp')).

Definition here (m : gmap Z loc) (X : infos) (e : loc) : Prop := ∃ n ρ, m !! n = Some e ∧ X !! e = Some (ρ, sp) ∧ is_send ρ.
Definition elsewhere (e : loc) : Prop := ∃ sp' m n ρ, F !! sp' = Some m ∧ m !! n = Some e ∧ X0 !! e = Some (ρ, sp') ∧ is_send ρ.

Record linv (x : lst) : Prop := {
  li_trees : trees_are (lσ x) (lA x) None;
  li_tree : tree_at (lA x) (is_tree sp) = Some (lm x);
  li_locals : ∀ v, v ∈ [v_small; v_collisions; v_move; v_ignore] → is_Some (trees (lA x) !! v);
  li_spare : ∀ e, e ∈ spare (lA x) → is_Some (lits x !! e);
  li_space : space_inv sizes sp (ls x) (lvs x) (lm x) (infos_of x) (lheld x);
  li_buckets : ∃ bs, buckets (lhs x) (lits x) (λ e, here (lm x) (infos_of x) e ∨ elsewhere e) bs;
  li_others : ∀ sp' m, F !! sp' = Some m → tree_at (lA x) (is_tree sp') = Some m;
  li_frame : ∀ sp' m n e, F !! sp' = Some m → m !! n = Some e → infos_of x !! e = X0 !! e;
}.

(** Every tree entry that was free, spare or in the tree of a space is so still; no
    tree structure is lost, and the trees of other spaces are the same. *)
Definition accounted (A : spec) (e : loc) : Prop := e ∈ zone A ∨ e ∈ spare A ∨ ∃ sp' m n, tree_at A (is_tree sp') = Some m ∧ m !! n = Some e.
Definition kept (A A' : spec) : Prop :=
  (∀ e, accounted A e → accounted A' e) ∧ (∀ v, is_Some (trees A !! v) → is_Some (trees A' !! v)) ∧
  ∀ sp', sp' ≠ sp → tree_at A' (is_tree sp') = tree_at A (is_tree sp').

Definition kst (x : lst) : kernel := K sp ss (lσ x) (lits x) (ls x) (lhs x).

(** [Q] holds of the result and of a state of the invariant. *)
Definition lwp {A} (m : M kernel A) (x : lst) (Q : A → lst → Prop) : Prop :=
  wp m (kst x) (λ a k, ∃ x', k = kst x' ∧ linv x' ∧ Q a x').

(** The memory of the trees has changed, not the trees. *)
Lemma linv_memory A σ σ' its s hs vs m held :
  linv (L A σ its s hs vs m held) → trees_are σ' A None → linv (L A σ' its s hs vs m held).
Proof. intros [] ?. by split. Qed.

(** The links of the global buckets have changed. *)
Lemma linv_links A σ its its' s hs hs' vs m held bs :
  linv (L A σ its s hs vs m held) → info <$> its' = info <$> its →
  buckets hs' its' (λ e, here m (info <$> its) e ∨ elsewhere e) bs → linv (L A σ its' s hs' vs m held).
Proof.
  intros [L1 L2 L3 L4 L5 L6 L7 L8] Hi HB. unfold infos_of in *. cbn in *. split; unfold infos_of; cbn; rewrite ?Hi; try done.
  - intros e He. apply L4 in He as [t Ht]. assert (is_Some ((info <$> its') !! e)) as H.
    { rewrite Hi, lookup_fmap, Ht. by eexists. }
    by rewrite lookup_fmap, fmap_is_Some in H.
  - by exists bs.
Qed.

Lemma item_info (its : gmap loc ipc_tree_entry) e ρ sp' : (info <$> its) !! e = Some (ρ, sp') → ∃ t, its !! e = Some t ∧ right_of t = ρ ∧ ite_space t = sp'.
Proof. rewrite lookup_fmap, fmap_Some. intros (t & Ht & [= -> ->]). eauto. Qed.

Lemma here_sp m X e : here m X e → ∃ ρ, X !! e = Some (ρ, sp).
Proof. intros (n & ρ & _ & ? & _). eauto. Qed.

(** ** Lookup *)

(** An entry of the space, with the right of a name. *)
Definition refers (x : lst) (r : entry_ref) (name : Z) (ρ : right) : Prop :=
  match r with
  | In_table i => i = MACH_PORT_INDEX name ∧ ∃ c, lvs x !z i = Some (Used (gen_of name) c ρ)
  | In_tree e => lm x !! name = Some e ∧ infos_of x !! e = Some (ρ, sp)
  end.

(** Nothing a caller can see has changed. *)
Definition still (x x' : lst) : Prop :=
  lA x' = lA x ∧ ls x' = ls x ∧ lvs x' = lvs x ∧ lm x' = lm x ∧ lheld x' = lheld x ∧ infos_of x' = infos_of x.

Lemma refers_names x r name ρ : linv x → refers x r name ρ → names x name = Some ρ.
Proof.
  intros HI. destruct r as [i|e]; cbn; unfold names, find, vfind.
  - intros (-> & c & ->). cbn. by rewrite decide_True.
  - intros [He HX]. destruct (vfind (lvs x) name) as [ρ'|] eqn:Hv; unfold vfind in Hv.
    + exfalso. apply bind_Some in Hv as (v & Hv & Hr). destruct (li_space _ HI) as [Ht _ _ Htr _ _].
      pose proof (table_in _ _ _ _ _ Ht Hv) as [_ Hlt]. destruct (tr_below _ _ _ _ _ _ _ Htr _ _ He Hlt) as (g & Hg & Hne).
      rewrite Hv in Hg. destruct v as [|g' [] ρ0]; cbn in *; [done| |done]. case_decide; congruence.
    + rewrite Hv. unfold tfind. by rewrite He; cbn; rewrite HX.
Qed.

Lemma wp_tree_lookup x name :
  linv x → lheld x = None → vfind (lvs x) name = None →
  lwp (tree_lookup sp name) x (λ r x', still x x' ∧
    match r with Some ref => ∃ ρ, refers x' ref name ρ | None => names x name = None end).
Proof.
  intros HI Hheld Hv. destruct x as [A σ its s hs vs m held]. cbn in Hheld, Hv. subst held.
  pose proof HI as [L1 L2 L3 L4 L5 L6 L7 L8]. cbn in *. eapply wp_bind, wp_K_tree, wp_mono; [by apply trees_lookup|].
  intros r σ' [Hσ' ->]. set (x' := L A σ' its s hs vs m None).
  assert (linv x') as HI' by by eapply linv_memory.
  destruct (m !! name) as [e|] eqn:He.
  - destruct (tr_info _ _ _ _ _ _ _ (si_tree _ _ _ _ _ _ _ L5) _ _ He) as (ρ & HX & [?|[Hb Hok]]); [done|].
    destruct (item_info _ _ _ _ HX) as (t & Ht & Hρ & Hsp). eapply wp_bind, wp_K_item; [done|]. apply wp_ret. exists x'.
    split; [done|]. split; [done|]. split; [by repeat split|]. assert (ite_bits t = r_bits ρ) as -> by by rewrite <- Hρ.
    unfold no_type. rewrite (proj2 (Z.eqb_neq _ _)) by done. by exists ρ.
  - apply wp_ret. exists x'. split; [done|]. split; [done|]. split; [by repeat split|]. unfold names, find. cbn.
    rewrite Hv. unfold tfind. by rewrite He.
Qed.

(** A tree that is not empty is counted. *)
Lemma tree_counted x n e : linv x → lm x !! n = Some e → 0 < is_tree_total (ls x).
Proof.
  intros HI He. rewrite (tr_total _ _ _ _ _ _ _ (si_tree _ _ _ _ _ _ _ (li_space _ HI))).
  destruct (decide (size (lm x) = 0%nat)) as [Hz%map_size_empty_inv|]; [by rewrite Hz in He|lia].
Qed.

Lemma index_nonneg name : 0 ≤ name → 0 ≤ MACH_PORT_INDEX name.
Proof. intros. unfold MACH_PORT_INDEX. by apply Z.shiftr_nonneg. Qed.

Lemma entry_gen e v : entry_is e v → ∃ g, IE_BITS_GEN (ie_bits e) = gbits g ∧ g = match v with Free g | Used g _ _ => g end ∧ gen_ok g.
Proof.
  destruct v as [g|g c ρ]; [intros (Hg & -> & _)|intros (Hg & [Hr _] & -> & _)]; exists g.
  - by rewrite gbits_mkbits at 1; rewrite mkbits_gen.
  - by rewrite mkbits_gen.
Qed.

Lemma entry_collision e v : entry_is e v → has_collision (ie_bits e) = match coll v with Some _ => true | None => false end.
Proof.
  destruct v as [g'|g' c ρ]; [intros (? & -> & _)|intros (_ & [? _] & -> & _)].
  - by rewrite gbits_mkbits, mkbits_collision.
  - rewrite mkbits_collision by done. by destruct c.
Qed.

Lemma gen_test name g : gen_ok g → (gbits g =? MACH_PORT_GEN name) = bool_decide (g = gen_of name).
Proof.
  intros. rewrite MACH_PORT_GEN_eq. destruct (decide (g = gen_of name)) as [->|Hne].
  - by rewrite Z.eqb_refl, bool_decide_true.
  - rewrite bool_decide_false by done. apply Z.eqb_neq. by intros ?%gbits_inj.
Qed.

Lemma wp_entry_lookup x name :
  linv x → lheld x = None → 0 ≤ name → is_active (ls x) = true →
  lwp (ipc_entry_lookup sp name) x (λ r x', still x x' ∧
    match r with Some ref => ∃ ρ, refers x' ref name ρ | None => names x name = None end).
Proof.
  intros HI Hheld Hname Hact. pose proof (li_space _ HI) as [Ht _ _ Htr _ _].
  pose proof (wp_tree_lookup x name HI Hheld) as Htree.
  apply wp_bind, wp_K_space_of. apply wp_bind, wp_assert; [done|]. cbv zeta. rewrite (ta_fast _ _ _ Ht).
  destruct (Z.ltb_spec (MACH_PORT_INDEX name) (is_table_size (ls x))) as [Hlt|Hge].
  - destruct (table_range _ _ _ _ Ht (conj (index_nonneg _ Hname) Hlt)) as [v Hv].
    destruct (table_view _ _ _ _ _ Ht Hv) as (e & He & Hev). eapply wp_bind, wp_K_entry; [done|].
    destruct (entry_gen _ _ Hev) as (g & Hg & Hgv & Hgok). rewrite Hg, gen_test by done.
    assert (vfind (lvs x) name = vright v (gen_of name)) as Hvf by (unfold vfind; by rewrite Hv).
    case_bool_decide as Hgn; cbn [negb].
    + apply wp_ret. exists x. split; [done|]. split; [done|]. split; [by repeat split|]. destruct v as [g'|g' c ρ].
      * rewrite (entry_free _ _ Hev). unfold names, find. rewrite Hvf. cbn. unfold tfind.
        destruct (lm x !! name) as [l|] eqn:Hl; [|done]. exfalso.
        destruct (tr_below _ _ _ _ _ _ _ Htr _ _ Hl Hlt) as (g2 & Hg2 & _). by rewrite Hv in Hg2.
      * rewrite (entry_used _ _ _ _ Hev). exists ρ. split; [done|]. exists c. congruence.
    + assert (vright v (gen_of name) = None) as Hnone by (destruct v; cbn; [done|]; rewrite decide_False; congruence).
      rewrite (entry_collision _ _ Hev). destruct (coll v) as [g2|] eqn:Hc.
      * destruct (tr_collision _ _ _ _ _ _ _ Htr (MACH_PORT_INDEX name) g2) as (n & l & Hl & _); [by rewrite Hv|].
        apply wp_bind, wp_assert; [pose proof (tree_counted _ _ _ HI Hl); lia|]. apply Htree. congruence.
      * apply wp_ret. exists x. split; [done|]. split; [done|]. split; [by repeat split|].
        unfold names, find. rewrite Hvf, Hnone. unfold tfind. destruct (lm x !! name) as [l|] eqn:Hl; [|done]. exfalso.
        destruct (tr_below _ _ _ _ _ _ _ Htr _ _ Hl Hlt) as (g3 & Hg3 & _). rewrite Hv in Hg3. cbn in Hg3. congruence.
  - assert (vfind (lvs x) name = None) as Hvf.
    { unfold vfind. destruct (lvs x !z MACH_PORT_INDEX name) eqn:Hv; [|done]. pose proof (table_in _ _ _ _ _ Ht Hv). lia. }
    destruct (Z.eqb_spec (is_tree_total (ls x)) 0) as [Hz|Hnz]; [|by apply Htree].
    apply wp_ret. exists x. split; [done|]. split; [done|]. split; [by repeat split|].
    unfold names, find. rewrite Hvf. unfold tfind. destruct (lm x !! name) as [l|] eqn:Hl; [|done].
    pose proof (tree_counted _ _ _ HI Hl). lia.
Qed.

(** ** Reverse lookup *)

Lemma size_index s vs i v : table_ok sizes s vs → vs !z i = Some v → idx_ok i.
Proof using Hsizes HF.
  intros Ht Hv. pose proof (table_in _ _ _ _ _ Ht Hv). pose proof (so_range _ Hsizes _ _ (ta_size _ _ _ Ht)). unfold idx_ok. lia.
Qed.

Lemma names_Some x n ρ :
  names x n = Some ρ →
  (∃ c, lvs x !z MACH_PORT_INDEX n = Some (Used (gen_of n) c ρ)) ∨ (∃ e sp', lm x !! n = Some e ∧ infos_of x !! e = Some (ρ, sp')).
Proof.
  unfold names, find, vfind, tfind. destruct (lvs x !z MACH_PORT_INDEX n) as [v|] eqn:Hv; cbn.
  - destruct (vright v (gen_of n)) as [ρ'|] eqn:Hr.
    + intros [= <-]. left. destruct v as [|g c ρ0]; cbn in Hr; [done|]. case_decide; simplify_eq. eauto.
    + intros (e & He & ([ρ1 sp1] & HX & ->)%fmap_Some)%bind_Some. right. by exists e, sp1.
  - intros (e & He & ([ρ1 sp1] & HX & ->)%fmap_Some)%bind_Some. right. by exists e, sp1.
Qed.

Lemma tree_owner x n e ρ sp' : linv x → lm x !! n = Some e → infos_of x !! e = Some (ρ, sp') → sp' = sp.
Proof.
  intros HI He HX. destruct (tr_info _ _ _ _ _ _ _ (si_tree _ _ _ _ _ _ _ (li_space _ HI)) _ _ He) as (ρ' & HX' & _). congruence.
Qed.

Lemma hashed_name x e : linv x → here (lm x) (infos_of x) e ∨ elsewhere e → is_Some (ite_name (lσ x) !! e).
Proof.
  intros HI [(n & ρ & He & _)|(sp' & m & n & ρ & Hm & He & _)].
  - exists n. by eapply trees_name; [apply HI|apply HI|].
  - exists n. by eapply trees_name; [apply HI|by apply (li_others _ HI)|].
Qed.

Lemma elsewhere_sp x e : linv x → elsewhere e → ∃ ρ sp', infos_of x !! e = Some (ρ, sp') ∧ sp' ≠ sp.
Proof using HF.
  intros HI (sp' & m & n & ρ & Hm & He & HX & _). exists ρ, sp'. rewrite (li_frame _ HI _ _ _ _ Hm He). split; [done|].
  by eapply (HF _ m).
Qed.

Lemma wp_hash_lookup x obj :
  linv x → obj ≠ IO_NULL →
  lwp (ipc_hash_lookup sp obj) x (λ r x', still x x' ∧
    match r with
    | Some (name, ref) => ∃ ρ, refers x' ref name ρ ∧ is_send ρ ∧ r_object ρ = obj
    | None => ∀ n ρ, names x n = Some ρ → is_send ρ → r_object ρ ≠ obj
    end).
Proof using Hsizes HF.
  intros HI Hobj. pose proof (li_space _ HI) as [Ht _ (H & Hinv & HH) Htr _ _].
  eapply wp_bind, wp_K_space, wp_mono; [by apply (wp_local_lookup _ H)|]. intros r s' [-> ->].
  destruct (H !! obj) as [i|] eqn:Hi; cbn [fmap option_fmap option_map].
  - apply HH, bind_Some in Hi as (v & Hv & (g & c & ρ & -> & Hs & Ho)%sends_Some). unfold find_result. apply wp_ret. exists x.
    split; [done|]. split; [done|]. split; [by repeat split|]. exists ρ. split; [|done].
    destruct (table_view _ _ _ _ _ Ht Hv) as (e & He & Hev). destruct (entry_gen _ _ Hev) as (g' & Hg & -> & Hgok).
    assert (genof (ls x) i = gbits g) as ->.
    { unfold genof. unfold zlookup in He. case_match; [done|]. by rewrite He. }
    rewrite MACH_PORT_MAKE_eq by (done || by eapply size_index). cbn. rewrite index_mkname, gen_mkname by done. eauto.
  - assert (∀ n ρ, names x n = Some ρ → is_send ρ → r_object ρ = obj →
      ∃ e, lm x !! n = Some e ∧ infos_of x !! e = Some (ρ, sp)) as Hin_tree.
    { intros n ρ [(c & Hc)|(e & sp' & He & HX)]%names_Some Hs Ho.
      - exfalso. assert (H !! obj = Some (MACH_PORT_INDEX n)); [|congruence]. apply HH. rewrite Hc. cbn.
        by rewrite decide_True, Ho.
      - exists e. split; [done|]. by rewrite <- (tree_owner _ _ _ _ _ HI He HX). }
    apply wp_bind, wp_K_space_of. apply wp_bind, wp_assert; [by rewrite (ta_fast _ _ _ Ht)|].
    destruct (Z.ltb_spec 0 (is_tree_hash (ls x))) as [Hpos|Hz].
    + destruct (li_buckets _ HI) as [bs HB]. eapply wp_bind, wp_mono.
      { eapply wp_global_lookup; [done|apply Ht|done|]. intros e. by apply hashed_name. }
      intros r k [(its' & hs' & -> & Hinfo & bs' & HB') Hr]. destruct x as [A σ its s hs vs m held].
      pose proof (linv_links _ _ _ _ _ _ _ _ _ _ _ HI Hinfo HB') as HI'. unfold infos_of in *; lcbn.
      apply wp_ret. exists (L A σ its' s hs' vs m held). split; [done|]. split; [done|].
      split; [by repeat split; cbn|]. destruct r as [[n e]|]; cbn.
      * destruct Hr as (HP & (t & Ht' & Ho & Hsp) & Hn).
        assert ((info <$> its) !! e = Some (right_of t, sp)) as HX by (rewrite lookup_fmap, Ht'; cbn; unfold info; by rewrite Hsp).
        destruct HP as [(n' & ρ & He & HX' & Hs)|Hel].
        -- rewrite HX in HX'. injection HX' as <-. exists (right_of t). split; [|done].
           assert (n' = n) as ->; [|unfold infos_of; cbn; by rewrite Hinfo].
           enough (ite_name σ !! e = Some n') by congruence. by eapply trees_name; [apply HI|apply HI|].
        -- destruct (elsewhere_sp _ _ HI Hel) as (ρ & sp' & HX' & Hne). unfold infos_of in HX'. cbn in HX'. congruence.
      * intros n ρ Hn Hs Ho. destruct (Hin_tree _ _ Hn Hs Ho) as (e & He & HX).
        destruct (item_info _ _ _ _ HX) as (t & Ht' & Hρ & Hsp). apply (Hr e); [left; by exists n, ρ|].
        exists t. split; [done|]. split; [by subst ρ|done].
    + apply wp_ret. exists x. split; [done|]. split; [done|]. split; [by repeat split|]. intros n ρ Hn Hs Ho.
      destruct (Hin_tree _ _ Hn Hs Ho) as (e & He & HX). pose proof (tr_hash _ _ _ _ _ _ _ Htr) as Hh.
      assert (size (filter (sending (infos_of x)) (lm x)) = 0%nat) as Hz'%map_size_empty_inv by lia.
      assert (filter (sending (infos_of x)) (lm x) !! n = Some e) as Hf; [|by rewrite Hz' in Hf].
      apply map_lookup_filter_Some. split; [done|]. by exists ρ, sp.
Qed.

(** ** Allocation *)

Definition flags (s : ipc_space) : bool * bool * Z * nat := (is_active s, is_growing s, is_table_size s, is_table_next s).

(** The table has changed. *)
Lemma linv_table A σ its s s' hs vs vs' m held held' :
  linv (L A σ its s hs vs m held) → space_inv sizes sp s' vs' m (info <$> its) held' → linv (L A σ its s' hs vs' m held').
Proof. intros [] ?. by split. Qed.

(** An entry of the table that waits for its right. *)
Definition fresh (x : lst) (name i : Z) : Prop :=
  lheld x = Some (In_table i) ∧ 0 < i ∧ next_of (ls x) i = 0 ∧ ∃ g, lvs x !z i = Some (Free g) ∧ gen_ok g ∧ name = mkname i g.

Lemma fresh_names x name i : linv x → fresh x name i → names x name = None.
Proof.
  intros HI (_ & _ & _ & g & Hv & Hg & ->). unfold names, find, vfind. rewrite index_mkname by done. rewrite Hv. cbn.
  unfold tfind. destruct (lm x !! mkname i g) as [e|] eqn:He; [|done]. exfalso. destruct (li_space _ HI) as [Ht _ _ Htr _ _].
  destruct (tr_below _ _ _ _ _ _ _ Htr _ _ He) as (g' & Hg' & _); rewrite index_mkname in * by done.
  - by apply (table_in _ _ _ _ _ Ht Hv).
  - by rewrite Hv in Hg'.
Qed.

Lemma fresh_valid x name i : linv x → fresh x name i → MACH_PORT_VALID name = true.
Proof using Hsizes HF.
  intros HI (_ & Hi & _ & g & Hv & Hg & ->). destruct (li_space _ HI) as [Ht _ _ Htr _ _].
  pose proof (table_in _ _ _ _ _ Ht Hv) as [_ Hlt]. pose proof (so_range _ Hsizes _ _ (ta_size _ _ _ Ht)).
  unfold MACH_PORT_VALID, MACH_PORT_NULL, MACH_PORT_DEAD, mkname. unfold gen_ok in Hg. lia.
Qed.

Lemma wp_entry_get x :
  linv x → lheld x = None → is_active (ls x) = true →
  lwp (ipc_entry_get sp) x (λ r x', lA x' = lA x ∧ flags (ls x') = flags (ls x) ∧ (∀ n, names x' n = names x n) ∧
    match r with Some (name, i) => fresh x' name i | None => x' = x ∧ next_of (ls x) 0 = 0 end).
Proof using Hsizes HF.
  intros HI Hheld Hact. destruct x as [A σ its s hs vs m held]. lcbn. subst held. unfold lwp, kst. lcbn.
  pose proof (li_space _ HI) as Hsi. lcbn. pose proof Hsi as [Ht [fl Hfl] _ Htr Hu Hso]. unfold infos_of in *. lcbn.
  destruct (table_view _ _ _ _ _ Ht (ta_zero _ _ _ Ht)) as (e0 & He0 & _).
  apply wp_bind, wp_K_space_of. apply wp_bind, wp_assert; [done|]. eapply wp_bind, wp_K_entry; [done|]. cbv zeta.
  rewrite <- (next_of_entry _ _ _ He0). destruct (Z.eqb_spec (next_of s 0) 0) as [Hz|Hnz].
  { apply wp_ret. eexists (L A σ its s hs vs m None). by split_and!. }
  destruct (free_ok_first s vs) as (Hj & g & Hg); [by exists fl|done|]. set (j := next_of s 0) in *.
  destruct fl as [|j' fl]; [by destruct Hfl as [[? _] _]|].
  assert (j' = j) as -> by (by destruct Hfl as [[<- _] _]).
  destruct (table_view _ _ _ _ _ Ht Hg) as (ej & Hej & Hevj). eapply wp_bind, wp_K_entry; [done|].
  eapply wp_bind, wp_K_put_entry; [done|]. set (s1 := set_entry (with_next (ie_next ej) e0) 0 s).
  assert (is_table s1 !z j = Some ej) as Hej1.
  { destruct (set_entry_other s j ej 0 (with_next (ie_next ej) e0)); [lia|done|done|lia]. }
  pose proof (zlookup_range _ _ _ Hej1) as Hr1.
  eapply wp_bind, wp_K_update_entry; [done|].
  eapply wp_bind, wp_K_update_entry; [rewrite set_entry_table; by apply zlookup_update|]. rewrite set_entry_twice.
  destruct Hevj as (Hgok & Hbits & Hobj). rewrite Hbits, IE_BITS_NEW_GEN_eq by done.
  assert (linv (L A σ its (set_entry (with_next 0 (with_bits (gbits (next_gen g)) ej)) j s1) hs (zupdate j (Free (next_gen g)) vs) m
    (Some (In_table j)))) as HI'.
  { eapply linv_table; [done|]. apply (space_unlink _ _ _ _ _ _ [] _ fl _ _ e0 ej Hsi Hfl Hg (next_gen_ok g)); done. }
  pose proof (zlookup_range _ _ _ Hg) as Hr.
  assert (fresh (L A σ its (set_entry (with_next 0 (with_bits (gbits (next_gen g)) ej)) j s1) hs (zupdate j (Free (next_gen g)) vs) m
    (Some (In_table j))) (MACH_PORT_MAKE j (gbits (next_gen g))) j) as Hfresh.
  { split; [done|]. split; [done|]. lcbn. split; [by rewrite (next_of_set s1 j ej), decide_True|].
    exists (next_gen g). rewrite zlookup_update by done. split; [done|]. split; [apply next_gen_ok|].
    rewrite MACH_PORT_MAKE_eq; [done|by eapply size_index|apply next_gen_ok]. }
  apply wp_bind, wp_assert; [by eapply fresh_valid|]. apply wp_bind, wp_assert; [rewrite Hobj; done|]. apply wp_ret.
  eexists. split; [|split; [exact HI'|]]; [done|]. split_and!; [done|done| |done].
  intros n. unfold names. lcbn. by eapply find_free.
Qed.

(** A right a caller may put into an entry. *)
Definition may_fill (x : lst) (ρ : right) : Prop :=
  right_ok ρ ∧ (IE_BITS_TYPE (r_bits ρ) = MACH_PORT_TYPE_SEND → r_object ρ ≠ IO_NULL) ∧
  (is_send ρ → ∀ n ρ', names x n = Some ρ' → is_send ρ' → r_object ρ' ≠ r_object ρ).

(** The result of an operation that changes one name. *)
Definition becomes (x x' : lst) (name : Z) (o : option right) : Prop :=
  lheld x' = None ∧ flags (ls x') = flags (ls x) ∧ ∀ n, names x' n = put name o (names x) n.

Lemma sound_put held m f name ρ :
  sound_sends held m f → (∀ n, n ≠ name → held_name held m n → ∀ ρ', f n = Some ρ' → False) →
  (IE_BITS_TYPE (r_bits ρ) = MACH_PORT_TYPE_SEND → r_object ρ ≠ IO_NULL) → sound_sends None m (put name (Some ρ) f).
Proof.
  intros Hf Hother Hρ n ρ'. unfold put. case_decide as Hn; intros Hn' Hty; left.
  - injection Hn' as <-. by apply Hρ.
  - destruct (Hf n ρ' Hn' Hty) as [?|Hh]; [done|]. by destruct (Hother n Hn Hh ρ').
Qed.

Lemma may_fill_unique x ρ name : linv x → may_fill x ρ → unique_sends (put name (Some ρ) (names x)).
Proof.
  intros HI (_ & _ & Hnew). apply unique_put; [apply (si_unique _ _ _ _ _ _ _ (li_space _ HI))|]. intros Hs n ρ' _. by apply Hnew.
Qed.

(** No view has the object. *)
Lemma view_sends x j obj ρ : linv x → may_fill x ρ → is_send ρ → r_object ρ = obj → lvs x !z j ≫= sends ≠ Some obj.
Proof using Hsizes HF.
  intros HI (_ & _ & Hnew) Hs Ho (v & Hv & (g & c & ρ' & -> & Hs' & Ho')%sends_Some)%bind_Some.
  destruct (li_space _ HI) as [Ht _ _ _ _ _]. destruct (table_view _ _ _ _ _ Ht Hv) as (e & _ & Hg & _).
  apply (Hnew Hs (mkname j g) ρ'); [|done|congruence]. unfold names, find, vfind.
  rewrite index_mkname, gen_mkname by done. rewrite Hv. cbn. by rewrite decide_True.
Qed.

Lemma wp_fill_table x name i bits obj :
  linv x → fresh x name i → may_fill x (Right bits obj 0) →
  lwp (fill_entry sp name (In_table i) bits obj) x (λ _ x', lA x' = lA x ∧ becomes x x' name (Some (Right bits obj 0))).
Proof using Hsizes HF.
  intros HI Hfresh Hρ. destruct Hfresh as (Hheld & Hi & Hnext & g & Hv & Hg & ->). destruct x as [A σ its s hs vs m held]. lcbn. subst held.
  pose proof (li_space _ HI) as Hsi. lcbn. pose proof Hsi as [Ht _ Hl Htr _ Hso]. unfold infos_of in *. lcbn.
  destruct (table_view _ _ _ _ _ Ht Hv) as (e & He & Hev). pose proof Hev as (_ & Hbits & Hobj).
  rewrite (next_of_entry _ _ _ He) in Hnext. set (ρ := Right bits obj 0) in *. pose proof Hρ as ([Hb Hty] & Hsend & _).
  unfold lwp, kst. lcbn. eapply wp_bind, wp_K_update_entry; [done|].
  rewrite Hbits, mkbits_fill, Hnext. set (e' := with_right obj (mkbits g false bits) 0 e).
  assert (entry_is e' (Used g false ρ)) as Hev' by (split; [done|]; split; [done|]; by split_and!).
  assert (∀ s', unhashed s' = unhashed (set_entry e' i s) → local_ok s' (zupdate i (Used g false ρ) vs) →
    ∃ x', K sp ss σ its s' hs = kst x' ∧ linv x' ∧ lA x' = A ∧
      becomes (L A σ its s hs vs m (Some (In_table i))) x' (mkname i g) (Some ρ)) as Hdone.
  { intros s' Hu' Hl'. exists (L A σ its s' hs (zupdate i (Used g false ρ) vs) m None). split; [done|]. split.
    - eapply linv_table; [done|]. eapply (space_put _ _ s); [done..| | | | |done|done| |].
      + by intros.
      + intros j Hj. unfold gap. naive_solver.
      + by intros.
      + by intros.
      + by apply (may_fill_unique (L A σ its s hs vs m (Some (In_table i)))).
      + eapply sound_put; [done| |done]. intros n Hn [Hin Hm] ρ' Hf. cbn in Hin, Hm.
        unfold find, vfind, tfind in Hf. rewrite Hin, Hv, Hm in Hf. done.
    - split; [done|]. split; [done|]. split.
      + apply (f_equal flags) in Hu'. exact Hu'.
      + intros n. unfold names. lcbn. by eapply find_put. }
  destruct (Z.eqb_spec (IE_BITS_TYPE bits) MACH_PORT_TYPE_SEND) as [Hs|Hns].
  - assert (is_send ρ) as Hsρ by (split; [done|by apply Hsend]). apply wp_bind, wp_K_space_of. cbv zeta. rewrite index_mkname by done.
    pose proof (table_in _ _ _ _ _ Ht Hv) as [_ Hlt]. rewrite (proj2 (Z.ltb_lt _ _)) by done. rewrite Z.eqb_refl. cbn [andb].
    apply wp_K_space. eapply wp_mono.
    { eapply (wp_local_add s vs i e _ e' (Used g false ρ)); [done|done|done|done|done|..]; cbn.
      - by rewrite decide_True.
      - done.
      - by apply Hsend.
      - done.
      - intros j. by apply (view_sends (L A σ its s hs vs m (Some (In_table i))) j obj ρ). }
    intros _ s' [Hu' Hl']. by apply Hdone.
  - apply wp_ret. apply Hdone; [done|]. eapply local_ok_set; try done; [|by left]. cbn. rewrite decide_False; [done|]. by intros [? _].
Qed.

(** ** Rights of tree entries *)

Lemma here_put m X n e ρ e' :
  (∀ n', m !! n' = Some e → n' = n) → m !! n = Some e →
  here m (<[e := (ρ, sp)]> X) e' ↔ (e' = e ∧ is_send ρ) ∨ (e' ≠ e ∧ here m X e').
Proof.
  intros Hinj Hn. unfold here. destruct (decide (e' = e)) as [->|Hne].
  - rewrite lookup_insert_eq. naive_solver.
  - rewrite lookup_insert_ne by done. naive_solver.
Qed.

Lemma not_elsewhere x n e : linv x → lm x !! n = Some e → ¬ elsewhere e.
Proof using Hsizes HF.
  intros HI He Hel. destruct (elsewhere_sp _ _ HI Hel) as (ρ & sp' & HX & Hne). by apply Hne, (tree_owner _ _ _ _ _ HI He HX).
Qed.

Lemma info_insert (its : gmap loc ipc_tree_entry) e t ρ :
  right_of t = ρ → ite_space t = sp → info <$> <[e := t]> its = <[e := (ρ, sp)]> (info <$> its).
Proof. intros Hr Hs. rewrite fmap_insert. unfold info. by rewrite Hr, Hs. Qed.

(** A tree entry of the space has got the right [ρ], and the buckets follow. *)
Lemma linv_right A σ its its' s s' hs hs' vs m held held' n e ρ0 ρ bs :
  let x := L A σ its s hs vs m held in
  linv x → m !! n = Some e → infos_of x !! e = Some (ρ0, sp) → held' = Some (In_tree e) ∨ right_ok ρ →
  (∀ l, l ≠ e → held = Some (In_tree l) → held' = held) → (∀ i, held = Some (In_table i) → held' = held) →
  (held' = None ∨ held' = held ∨ held' = Some (In_tree e)) → (∀ i, held' = Some (In_table i) → held' = held) →
  info <$> its' = <[e := (ρ, sp)]> (info <$> its) → s' = with_hash (is_tree_hash s + one ρ - one ρ0) s →
  buckets hs' its' (λ e', here m (<[e := (ρ, sp)]> (info <$> its)) e' ∨ elsewhere e') bs →
  unique_sends (put n (Some ρ) (names x)) → sound_sends held' m (put n (Some ρ) (names x)) →
  let x' := L A σ its' s' hs' vs m held' in linv x' ∧ ∀ k, names x' k = put n (Some ρ) (names x) k.
Proof using Hsizes HF.
  intros x HI Hn HX Hρ Hh1 Hh2 Hh3 Hh4 Hi -> HB Hu Hso x'. pose proof HI as [L1 L2 L3 L4 L5 L6 L7 L8].
  pose proof L5 as [Ht Hfr Hl Htr _ _]. unfold infos_of, x, x' in *. lcbn.
  assert (∀ k, find vs m (<[e := (ρ, sp)]> (info <$> its)) k = put n (Some ρ) (names x) k) as Hfind.
  { intros k. by eapply find_tree_put. }
  assert (∀ l, is_Some (its !! l) → is_Some (its' !! l)) as Hdom.
  { intros l [t Htl]. assert (is_Some ((info <$> its') !! l)) as H; [|by rewrite lookup_fmap, fmap_is_Some in H].
    rewrite Hi. destruct (decide (l = e)) as [->|]; [rewrite lookup_insert_eq; by eexists|].
    rewrite lookup_insert_ne by done. rewrite lookup_fmap, Htl. by eexists. }
  split; [|intros k; unfold names, infos_of; lcbn; by rewrite Hi].
  split; unfold infos_of; lcbn; rewrite ?Hi; try done.
  - intros l Hl'. by apply Hdom, L4.
  - split.
    + by destruct Ht.
    + destruct Hfr as (fl & Hc & Hnd & Hin). exists fl. split; [by apply (free_chain_ext s)|]. split; [done|]. intros i. rewrite (Hin i). unfold gap.
      split; intros (? & Hg & ?); (split; [done|]); (split; [|done]); contradict Hg; [by rewrite <- (Hh4 i Hg)|by rewrite (Hh2 i Hg)].
    + destruct Hl as (H & Hinv & HH). exists H. split; [|done]. by destruct Hinv.
    + by eapply tree_ok_put.
    + by eapply unique_ext.
    + intros k ρ'. rewrite Hfind. apply Hso.
  - by exists bs.
  - intros sp' m' k l Hm' Hk. rewrite lookup_insert_ne; [by eapply L8|]. intros <-.
    destruct (HF _ _ Hm') as [Hne HX1]. destruct (HX1 _ _ Hk) as [ρ' HX']. rewrite (L8 _ _ _ _ Hm' Hk) in HX. congruence.
Qed.

Definition fresh_tree (x : lst) (name : Z) (e : loc) : Prop :=
  lheld x = Some (In_tree e) ∧ lm x !! name = Some e ∧ infos_of x !! e = Some (Right 0 IO_NULL 0, sp).

Lemma tree_name_of x n e : linv x → lm x !! n = Some e → ite_name (lσ x) !! e = Some n.
Proof. intros HI He. by eapply trees_name; [apply HI|apply HI|]. Qed.

Lemma tree_inj x n n' e : linv x → lm x !! n = Some e → lm x !! n' = Some e → n' = n.
Proof. intros HI Hn Hn'. by eapply (tr_inj _ _ _ _ _ _ _ (si_tree _ _ _ _ _ _ _ (li_space _ HI))). Qed.

Lemma not_hashed x n e ρ : linv x → lm x !! n = Some e → infos_of x !! e = Some (ρ, sp) → ¬ is_send ρ → ¬ (here (lm x) (infos_of x) e ∨ elsewhere e).
Proof using Hsizes HF.
  intros HI He HX Hs [(n' & ρ' & _ & HX' & Hs')|Hel]; [congruence|]. by eapply not_elsewhere.
Qed.

Lemma wp_fill_tree x name e bits obj :
  linv x → fresh_tree x name e → may_fill x (Right bits obj 0) →
  lwp (fill_entry sp name (In_tree e) bits obj) x (λ _ x', lA x' = lA x ∧ becomes x x' name (Some (Right bits obj 0))).
Proof using Hsizes HF.
  intros HI (Hheld & Hm & HX) Hρ. destruct (item_info _ _ _ _ HX) as (t & Ht & Hr & Hsp). injection Hr as Hb Ho Hq.
  set (ρ := Right bits obj 0) in *. set (t' := Ite obj (Z.lor (ite_bits t) bits) (ite_request t) (ite_next t) (ite_space t)).
  assert (right_of t' = ρ) as Hrt by (unfold right_of; cbn; by rewrite Hb, Hq, Z.lor_0_l).
  assert (¬ is_send (Right 0 IO_NULL 0)) as Hns0 by (by intros [? _]).
  pose proof (not_hashed _ _ _ _ HI Hm HX Hns0) as Hnew. destruct (li_buckets _ HI) as [bs HB].
  pose proof (buckets_item _ _ _ _ e t' HB Hnew) as HB'. pose proof (λ n', tree_inj _ name n' e HI Hm) as Hinj.
  pose proof (tree_name_of _ _ _ HI Hm) as Hname. destruct x as [A σ its s hs vs m held]. lcbn. subst held.
  pose proof (li_space _ HI) as [Htb _ _ Htr _ Hso]. unfold infos_of in *. lcbn.
  assert (∀ its' hs' s' bs', info <$> its' = <[e := (ρ, sp)]> (info <$> its) →
      buckets hs' its' (λ e', here m (<[e := (ρ, sp)]> (info <$> its)) e' ∨ elsewhere e') bs' →
      s' = with_hash (is_tree_hash s + one ρ - 0) s →
      ∃ x', K sp ss σ its' s' hs' = kst x' ∧ linv x' ∧ lA x' = A ∧
        becomes (L A σ its s hs vs m (Some (In_tree e))) x' name (Some ρ)) as Hdone.
  { intros its' hs' s' bs' Hi HBB ->. pose proof Hρ as (Hok & Hsend & _).
    destruct (linv_right A σ its its' s (with_hash (is_tree_hash s + one ρ - 0) s) hs hs' vs m (Some (In_tree e)) None name e (Right 0 IO_NULL 0) ρ bs' HI Hm HX) as [HI' Hn];
      try done; [by right|naive_solver|by left|by eapply may_fill_unique| |].
    - eapply sound_put; [done| |done]. intros n Hn Hh. cbn in Hh. destruct Hn. by apply Hinj.
    - eexists. split; [|split; [exact HI'|]]; [done|]. by split_and!. }
  unfold lwp, kst. lcbn. eapply wp_bind; cbn beta iota. eapply wp_bind, wp_K_item; [done|]. eapply wp_K_put_item; [done|]. fold t'.
  pose proof (info_insert its e t' ρ Hrt Hsp) as Hinfo.
  destruct (Z.eqb_spec (IE_BITS_TYPE bits) MACH_PORT_TYPE_SEND) as [Hs|Hns].
  - assert (is_send ρ) as Hsρ by (split; [done|by apply Hρ]). apply wp_bind, wp_K_space_of.
    apply wp_bind, wp_assert; [by rewrite (ta_fast _ _ _ Htb)|]. eapply wp_mono.
    { eapply wp_global_insert; [exact HB'|apply Htb|by rewrite lookup_insert_eq|done|done|by apply Hρ|done|done|].
      rewrite (tr_hash _ _ _ _ _ _ _ Htr), (tr_total _ _ _ _ _ _ _ Htr).
      assert (size (filter (sending (<[e := (ρ, sp)]> (info <$> its))) m) ≤ size m)%nat as Hle.
      { apply map_subseteq_size, map_filter_subseteq. }
      pose proof (size_sending sp m (info <$> its) name e _ ρ Hinj Hm HX) as Hsz. 
      rewrite one_send, one_not in Hsz by done. lia. }
    intros _ k (its' & hs' & -> & Hi' & bs' & HB2). eapply Hdone; [by rewrite Hi'| |by rewrite one_send, Z.sub_0_r].
    eapply buckets_ext; [|done]. intros e'. cbn. rewrite (here_put m _ name e) by (done || eauto).
    destruct (decide (e' = e)) as [->|Hne]; naive_solver.
  - assert (¬ is_send ρ) as Hnsρ by (by intros [? _]). apply wp_ret.
    eapply Hdone; [done| |by rewrite with_hash_id; [|rewrite one_not by done; lia]]. eapply buckets_ext; [|done]. intros e'. cbn.
    rewrite (here_put m _ name e) by (done || eauto). destruct (decide (e' = e)) as [->|Hne]; naive_solver.
Qed.

(** ** Requests *)

Definition with_request (q : Z) (ρ : right) : right := Right (r_bits ρ) (r_object ρ) q.

Lemma same_send f name ρ ρ' :
  unique_sends f → f name = Some ρ → is_send ρ ↔ is_send ρ' → r_object ρ = r_object ρ' → unique_sends (put name (Some ρ') f).
Proof.
  intros Hf Hn Hs Ho. apply unique_put; [done|]. intros Hs' n ρ1 Hne Hn1 Hs1 Heq. apply Hne. eapply (Hf n name); [done..|by apply Hs|].
  congruence.
Qed.

Lemma wp_set_request x ref name ρ q :
  linv x → lheld x = None → refers x ref name ρ →
  lwp (set_request sp ref q) x (λ _ x', lA x' = lA x ∧ becomes x x' name (Some (with_request q ρ))).
Proof using Hsizes HF.
  intros HI Hheld Href. pose proof (refers_names _ _ _ _ HI Href) as Hname.
  destruct x as [A σ its s hs vs m held]. lcbn. subst held.
  pose proof (li_space _ HI) as Hsi. lcbn. pose proof Hsi as [Ht Hfr Hl Htr Hu Hso]. unfold infos_of in *. lcbn.
  assert (unique_sends (put name (Some (with_request q ρ)) (names (L A σ its s hs vs m None)))) as Hu' by (by eapply same_send).
  assert (sound_sends None m (put name (Some (with_request q ρ)) (names (L A σ its s hs vs m None)))) as Hso'.
  { eapply sound_put; [exact Hso|by intros|]. intros Hty. by destruct (Hso name ρ Hname Hty). }
  destruct ref as [i|e].
  - destruct Href as (-> & c & Hv). lcbn. destruct (table_view _ _ _ _ _ Ht Hv) as (e & He & Hev).
    pose proof Hev as (Hg & Hok & Hbits & Hobj & Hreq). unfold lwp, kst. lcbn. eapply wp_K_update_entry; [done|].
    set (e' := with_right (ie_object e) (ie_bits e) q e).
    assert (entry_is e' (Used (gen_of name) c (with_request q ρ))) as Hev' by (split; [done|]; split; [done|]; by split_and!).
    assert (0 < MACH_PORT_INDEX name) as Hi.
    { pose proof (zlookup_range _ _ _ Hv). destruct (decide (MACH_PORT_INDEX name = 0)) as [Hz|]; [|lia].
      rewrite Hz, (ta_zero _ _ _ Ht) in Hv. done. }
    assert (name = mkname (MACH_PORT_INDEX name) (gen_of name)) as Hsplit by apply name_split.
    exists (L A σ its (set_entry e' (MACH_PORT_INDEX name) s) hs (zupdate (MACH_PORT_INDEX name) (Used (gen_of name) c (with_request q ρ)) vs) m None).
    split; [done|]. split; [|split_and!; [done..|]].
    + eapply linv_table; [done|]. eapply (space_put _ _ s); [done..|by intros|done|by intros| |done| | |].
      * intros g' ρ'. cbn. case_decide; [congruence|done].
      * eapply local_ok_set; try done. by right.
      * by rewrite <- Hsplit.
      * by rewrite <- Hsplit.
    + split; [done|]. split; [done|]. intros n. unfold names. lcbn. erewrite find_put; [by rewrite <- Hsplit|done|done|].
      intros g' ρ'. cbn. case_decide; [congruence|done].
  - destruct Href as [Hm HX]. unfold infos_of in HX. lcbn. destruct (item_info _ _ _ _ HX) as (t & Htt & Hr & Hsp).
    unfold lwp, kst. lcbn. eapply wp_bind, wp_K_item; [done|]. eapply wp_K_put_item; [done|].
    set (t' := Ite (ite_object t) (ite_bits t) q (ite_next t) (ite_space t)).
    assert (right_of t' = with_request q ρ) as Hrt by (by rewrite <- Hr).
    destruct (li_buckets _ HI) as [bs HB]. lcbn. pose proof (buckets_same _ _ _ _ e t t' HB Htt eq_refl eq_refl eq_refl) as HB'.
    destruct (linv_right A σ its (<[e := t']> its) s s hs hs vs m None None name e ρ (with_request q ρ) bs HI Hm HX) as [HI' Hn]; try done.
    + right. destruct (tr_info _ _ _ _ _ _ _ Htr _ _ Hm) as (ρ' & HX' & [?|Hok]); [done|]. rewrite HX in HX'. by injection HX' as <-.
    + by left.
    + by apply info_insert.
    + symmetry. apply with_hash_id. assert (one (with_request q ρ) = one ρ) as -> by done. lia.
    + eapply buckets_ext; [|exact HB']. intros e'. unfold infos_of. lcbn.
      rewrite (here_put m _ name e) by (done || intros; by eapply (tree_inj (L A σ its s hs vs m None))).
      destruct (decide (e' = e)) as [->|Hne]; [|tauto]. split; [|intros [[[_ Hs]|[? _]]|?]; [left; by exists name, ρ|done|by right]].
      intros [(n' & ρ' & _ & HX' & Hs')|?]; [|by right]. rewrite HX in HX'. injection HX' as <-. by left; left.
    + eexists. split; [|split; [exact HI'|]]; [done|]. by split_and!.
Qed.

(** ** Deallocation *)

Definition cleared (ρ : right) : right := Right (r_bits ρ) IO_NULL 0.

Lemma cleared_send ρ : ¬ is_send (cleared ρ).
Proof. by intros [_ ?]. Qed.

(** What is left of an entry before it is freed. *)
Definition emptied (x x' : lst) (name : Z) (ref : entry_ref) (ρ : right) : Prop :=
  lA x' = lA x ∧ lm x' = lm x ∧ flags (ls x') = flags (ls x) ∧ lheld x' = Some ref ∧ refers x' ref name (cleared ρ) ∧
  ∀ n, names x' n = put name (Some (cleared ρ)) (names x) n.

Lemma unique_cleared f name ρ : unique_sends f → unique_sends (put name (Some (cleared ρ)) f).
Proof. intros. apply unique_put; [done|]. intros Hs. by apply cleared_send in Hs. Qed.

Lemma sound_cleared held m f name ρ : sound_sends None m f → held_name held m name → sound_sends held m (put name (Some (cleared ρ)) f).
Proof.
  intros Hf Hh n ρ'. unfold put. case_decide as Hn; intros Hn' Hty; [subst n; by right|].
  destruct (Hf n ρ' Hn' Hty) as [?|[]]. by left.
Qed.

Lemma view_index x i g c ρ : linv x → lvs x !z i = Some (Used g c ρ) → 0 < i.
Proof.
  intros HI Hv. pose proof (zlookup_range _ _ _ Hv). destruct (decide (i = 0)) as [->|]; [|lia].
  rewrite (ta_zero _ _ _ (si_table _ _ _ _ _ _ _ (li_space _ HI))) in Hv. done.
Qed.

Lemma wp_clear_table x name i ρ :
  linv x → lheld x = None → refers x (In_table i) name ρ →
  lwp (clear_entry sp name (In_table i)) x (λ _ x', emptied x x' name (In_table i) ρ).
Proof using Hsizes HF.
  intros HI Hheld Href. pose proof (refers_names _ _ _ _ HI Href) as Hname. destruct Href as (-> & c & Hv).
  pose proof (view_index _ _ _ _ _ HI Hv) as Hi. set (i := MACH_PORT_INDEX name) in *.
  destruct x as [A σ its s hs vs m held]. lcbn. subst held. set (x := L A σ its s hs vs m None) in *.
  pose proof (li_space _ HI) as Hsi. pose proof Hsi as [Ht Hfr Hl Htr Hu Hso]. unfold infos_of, x in *. lcbn.
  destruct (table_view _ _ _ _ _ Ht Hv) as (e & He & Hev). pose proof Hev as (Hg & [Hrb Hty0] & Hbits & Hobj & Hreq).
  assert (IE_BITS_TYPE (ie_bits e) = IE_BITS_TYPE (r_bits ρ)) as Htype by (rewrite Hbits; by apply mkbits_type).
  assert (name = mkname i (gen_of name)) as Hsplit by apply name_split.
  assert (m !! name = None) as Hnone.
  { destruct (m !! name) as [l|] eqn:Hml; [|done]. pose proof (tree_not_view _ _ _ _ _ _ _ _ _ Ht Htr Hml) as Hvf.
    unfold vfind in Hvf. fold i in Hvf. rewrite Hv in Hvf. cbn in Hvf. by rewrite decide_True in Hvf. }
  set (v' := Used (gen_of name) c (cleared ρ)). set (e' := with_right IO_NULL (ie_bits e) 0 e).
  assert (entry_is e' v') as Hev' by (split; [done|]; split; [done|]; by split_and!).
  assert (∀ s', unhashed s' = unhashed (set_entry e' i s) → local_ok s' (zupdate i v' vs) →
    ∃ x', K sp ss σ its s' hs = kst x' ∧ linv x' ∧ emptied x x' name (In_table i) ρ) as Hdone.
  { intros s' Hu' Hl'. exists (L A σ its s' hs (zupdate i v' vs) m (Some (In_table i))). split; [done|]. split; [|split_and!].
    - eapply linv_table; [done|]. eapply (space_put _ _ s); [done..|by intros| |by intros| |done|done| |].
      + intros j Hj. unfold gap. naive_solver.
      + intros g' ρ'. cbn. case_decide; [congruence|done].
      + rewrite <- Hsplit. by apply unique_cleared.
      + rewrite <- Hsplit. by apply sound_cleared.
    - done.
    - done.
    - apply (f_equal flags) in Hu'. exact Hu'.
    - done.
    - split; [done|]. exists c. lcbn. apply zlookup_update. by eapply zlookup_range.
    - intros n. unfold names. lcbn. unfold v'. erewrite find_put; [by rewrite <- Hsplit|done|done|].
      intros g' ρ'. cbn. case_decide; [congruence|done]. }
  unfold lwp, kst, x. lcbn. eapply wp_bind, wp_bind, wp_K_entry; [done|]. apply wp_ret. rewrite Htype.
  destruct (Z.eqb_spec (IE_BITS_TYPE (r_bits ρ)) MACH_PORT_TYPE_SEND) as [Hs|Hns].
  - assert (is_send ρ) as Hsend by (split; [done|]; by destruct (Hso name ρ Hname Hs)).
    apply wp_bind, wp_bind, wp_K_space_of. cbv zeta. fold i. pose proof (table_in _ _ _ _ _ Ht Hv) as [_ Hlt].
    rewrite (proj2 (Z.ltb_lt _ _)) by done. rewrite Z.eqb_refl. cbn [andb]. apply wp_K_space. eapply wp_mono.
    { apply (wp_local_remove s vs i _ (ie_object e) Hl Hv). cbn. by rewrite decide_True, Hobj. }
    intros _ s' [Hu' Hl']. destruct (unhashed_entry _ _ _ _ Hu' He) as (e2 & He2 & Heq). cbn beta.
    eapply wp_K_update_entry; [done|]. destruct e as [eo eb en ei], e2 as [eo2 eb2 en2 ei2]. cbn in Heq. injection Heq as -> -> ->.
    apply Hdone; [by apply unhashed_set|]. eapply Hl'; [done|done|]. cbn. rewrite decide_False; [done|apply cleared_send].
  - apply wp_bind, wp_ret. eapply wp_K_update_entry; [done|]. apply Hdone; [done|]. eapply local_ok_set; try done; [|left]; cbn.
    + rewrite !decide_False; [done| |apply cleared_send]. by intros [? _].
    + rewrite decide_False; [done|]. by intros [? _].
Qed.

(** A space with a hashed tree entry counts it. *)
Lemma tree_hash_pos x n e ρ : linv x → lm x !! n = Some e → infos_of x !! e = Some (ρ, sp) → is_send ρ → 0 < is_tree_hash (ls x).
Proof.
  intros HI He HX Hs. rewrite (tr_hash _ _ _ _ _ _ _ (si_tree _ _ _ _ _ _ _ (li_space _ HI))).
  destruct (decide (size (filter (sending (infos_of x)) (lm x)) = 0%nat)) as [Hz%map_size_empty_inv|]; [|lia].
  assert (filter (sending (infos_of x)) (lm x) !! n = Some e) as Hf; [|by rewrite Hz in Hf].
  apply map_lookup_filter_Some. split; [done|]. by exists ρ, sp.
Qed.

Lemma wp_clear_tree x name e ρ :
  linv x → lheld x = None → refers x (In_tree e) name ρ →
  lwp (clear_entry sp name (In_tree e)) x (λ _ x', emptied x x' name (In_tree e) ρ).
Proof using Hsizes HF.
  intros HI Hheld Href. pose proof (refers_names _ _ _ _ HI Href) as Hname. destruct Href as [Hm HX].
  destruct (item_info _ _ _ _ HX) as (t & Ht & Hr & Hsp). pose proof (λ n', tree_inj _ name n' e HI Hm) as Hinj.
  pose proof (tree_name_of _ _ _ HI Hm) as Hn. pose proof (tree_hash_pos _ _ _ _ HI Hm HX) as Hpos.
  pose proof (not_hashed _ _ _ _ HI Hm HX) as Hnot. pose proof (not_elsewhere _ _ _ HI Hm) as Hnel.
  destruct x as [A σ its s hs vs m held]. lcbn. subst held. set (x := L A σ its s hs vs m None) in *.
  pose proof (li_space _ HI) as Hsi. pose proof Hsi as [Htb Hfr Hl Htr Hu Hso]. destruct (li_buckets _ HI) as [bs HB].
  unfold infos_of, x in *. lcbn. set (X' := <[e := (cleared ρ, sp)]> (info <$> its)).
  assert (∀ its' hs' s' bs', info <$> its' = X' → buckets hs' its' (λ e', here m X' e' ∨ elsewhere e') bs' →
      s' = with_hash (is_tree_hash s - one ρ) s →
      ∃ x', K sp ss σ its' s' hs' = kst x' ∧ linv x' ∧ emptied x x' name (In_tree e) ρ) as Hdone.
  { intros its' hs' s' bs' Hi HBB ->.
    destruct (linv_right A σ its its' s (with_hash (is_tree_hash s - one ρ) s) hs hs' vs m None (Some (In_tree e)) name e ρ (cleared ρ) bs' HI Hm HX)
      as [HI' Hnames]; try done; [by left|by right; right| |by apply unique_cleared|by apply sound_cleared|].
    - f_equal. rewrite (one_not (cleared ρ)) by apply cleared_send. lia.
    - eexists. split; [|split; [exact HI'|]]; [done|]. split_and!; try done. split; [done|].
      unfold infos_of. lcbn. rewrite Hi. apply lookup_insert_eq. }
  assert (∀ e', here m X' e' ∨ elsewhere e' ↔ (here m (info <$> its) e' ∨ elsewhere e') ∧ e' ≠ e) as HP.
  { intros e'. unfold X'. rewrite (here_put m _ name e) by done. pose proof (cleared_send ρ).
    destruct (decide (e' = e)) as [->|Hne]; naive_solver. }
  unfold lwp, kst, x. lcbn. eapply wp_bind, wp_bind, wp_K_item; [done|]. apply wp_ret.
  assert (ite_bits t = r_bits ρ ∧ ite_object t = r_object ρ) as [Hb Ho] by (by rewrite <- Hr). rewrite Hb, Ho.
  destruct (Z.eqb_spec (IE_BITS_TYPE (r_bits ρ)) MACH_PORT_TYPE_SEND) as [Hs|Hns].
  - assert (is_send ρ) as Hsend by (split; [done|]; by destruct (Hso name ρ Hname Hs)).
    apply wp_bind, wp_bind, wp_K_space_of. apply wp_bind, wp_assert; [by rewrite (ta_fast _ _ _ Htb)|]. eapply wp_mono.
    { eapply wp_global_delete; [exact HB|apply Htb|done|done|done|by apply Hsend|done| |by apply Hpos]. left. by exists name, ρ. }
    intros _ k (its' & hs' & -> & Hi' & bs' & HB').
    assert ((info <$> its') !! e = Some (ρ, sp)) as HX2 by by rewrite Hi'.
    destruct (item_info _ _ _ _ HX2) as (t2 & Ht2 & Hr2 & Hsp2). cbn beta. eapply wp_bind, wp_K_item; [done|]. eapply wp_K_put_item; [done|].
    eapply Hdone.
    + rewrite (info_insert _ _ _ (cleared ρ)); [by rewrite Hi'|by rewrite <- Hr2|done].
    + eapply buckets_ext; [intros e'; symmetry; apply HP|]. apply buckets_item; [done|]. tauto.
    + by rewrite one_send.
  - assert (¬ is_send ρ) as Hnsend by (by intros [? _]). apply wp_bind, wp_ret. eapply wp_bind, wp_K_item; [done|].
    eapply wp_K_put_item; [done|]. eapply Hdone.
    + rewrite (info_insert _ _ _ (cleared ρ)); [done|by rewrite <- Hr|done].
    + eapply buckets_ext; [intros e'; symmetry; apply HP|]. apply buckets_item; [|tauto]. eapply buckets_ext; [|exact HB].
      intros e'. split; [|tauto]. intros HPe. split; [done|]. intros ->. by apply Hnot.
    + symmetry. apply with_hash_id. rewrite one_not by done. lia.
Qed.

End space_ops.
