(* ===== verification/IpcEntryDealloc.v ===== *)
(** * xnu IPC spaces: deallocation of entries

    [ipc_entry_dealloc] on each of its branches: an entry of the table goes to the
    free list, or a tree entry of the same index takes its place; a tree entry is
    deleted from the tree, with the collision bit and the count of small names. *)

From Stdlib Require Import ZifyBool.
From S2P Require Import Prelude IpcSplay IpcSplayOps IpcSplayCorrect IpcForest IpcHash IpcEntry IpcEntryInv IpcHashGlobal IpcEntryOps.

Import Entry.

(** ** Indices of a tree *)

Section indices.
Implicit Types (m : gmap Z loc).

Lemma has_index_insert m n e i : has_index (<[n := e]> m) i ↔ MACH_PORT_INDEX n = i ∨ has_index m i.
Proof.
  unfold has_index. split.
  - intros (k & l & [[<- <-]|[_ Hk]]%lookup_insert_Some & Hi); [by left|right; eauto].
  - intros [Hi|(k & l & Hk & Hi)]; [exists n, e; by rewrite lookup_insert_eq|].
    destruct (decide (k = n)) as [->|]; [exists n, e; by rewrite lookup_insert_eq|]. exists k, l. by rewrite lookup_insert_ne.
Qed.

Lemma has_index_delete m n i : has_index (delete n m) i → has_index m i.
Proof. intros (k & l & [_ Hk]%lookup_delete_Some & Hi). by exists k, l. Qed.

Lemma has_index_other m n i : MACH_PORT_INDEX n ≠ i → has_index (delete n m) i ↔ has_index m i.
Proof.
  intros Hne. split; [apply has_index_delete|]. intros (k & l & Hk & Hi). exists k, l.
  rewrite lookup_delete_ne by congruence. done.
Qed.

#[export] Instance has_index_dec m i : Decision (has_index m i).
Proof.
  destruct (decide (map_Forall (λ k _, MACH_PORT_INDEX k ≠ i) m)) as [Hno|Hyes]; [right|left].
  - intros (k & l & Hk & Hi). by apply (Hno k l Hk).
  - apply map_not_Forall in Hyes as (k & l & Hk & Hi); [|apply _]. exists k, l. split; [done|]. by apply dec_stable.
Defined.

Lemma size_indices_delete m n e lo hi :
  m !! n = Some e → Z.of_nat (size (indices (delete n m) lo hi)) =
  Z.of_nat (size (indices m lo hi)) -
    (if decide (lo ≤ MACH_PORT_INDEX n < hi ∧ ¬ has_index (delete n m) (MACH_PORT_INDEX n)) then 1 else 0).
Proof.
  intros Hn. case_decide as Hc.
  - destruct Hc as [Hr Hno]. assert (indices m lo hi = {[MACH_PORT_INDEX n]} ∪ indices (delete n m) lo hi) as ->.
    { apply set_eq. intros i. rewrite elem_of_union, elem_of_singleton, !elem_of_indices.
      destruct (decide (MACH_PORT_INDEX n = i)) as [<-|Hne]; [|rewrite has_index_other by done; naive_solver].
      split; [by left|]. intros _. split; [by exists n, e|done]. }
    rewrite size_union by (apply disjoint_singleton_l; rewrite elem_of_indices; by intros [? _]). rewrite size_singleton. lia.
  - assert (indices (delete n m) lo hi = indices m lo hi) as ->; [|lia]. apply set_eq. intros i. rewrite !elem_of_indices.
    destruct (decide (MACH_PORT_INDEX n = i)) as [<-|Hne]; [|by rewrite has_index_other].
    split; intros [Hi Hr]; (split; [|done]); [by apply has_index_delete in Hi|]. apply dec_stable. tauto.
Qed.

Lemma size_indices_insert m n e lo hi :
  Z.of_nat (size (indices (<[n := e]> m) lo hi)) =
  Z.of_nat (size (indices m lo hi)) + (if decide (lo ≤ MACH_PORT_INDEX n < hi ∧ ¬ has_index m (MACH_PORT_INDEX n)) then 1 else 0).
Proof.
  case_decide as Hc.
  - destruct Hc as [Hr Hno]. assert (indices (<[n := e]> m) lo hi = {[MACH_PORT_INDEX n]} ∪ indices m lo hi) as ->.
    { apply set_eq. intros i. rewrite elem_of_union, elem_of_singleton, !elem_of_indices, has_index_insert. naive_solver. }
    rewrite size_union by (apply disjoint_singleton_l; rewrite elem_of_indices; by intros [? _]). rewrite size_singleton. lia.
  - assert (indices (<[n := e]> m) lo hi = indices m lo hi) as ->; [|lia]. apply set_eq. intros i.
    rewrite !elem_of_indices, has_index_insert. split; [|naive_solver]. intros [[<-|?] Hr]; [|done]. split; [|done].
    apply dec_stable. tauto.
Qed.

(** The neighbours of a name say whether its index is in the tree. *)
Lemma bounds_index m name lower upper :
  (∀ n, is_Some (m !! n) → tree_name n) → is_lower m name lower → is_upper m name upper →
  (negb (lower =? MACH_PORT_DEAD) && (MACH_PORT_INDEX lower =? MACH_PORT_INDEX name) ||
   negb (upper =? 0) && (MACH_PORT_INDEX upper =? MACH_PORT_INDEX name)) = bool_decide (has_index m (MACH_PORT_INDEX name)).
Proof.
  intros Hnames Hlo Hup. apply eq_true_iff_eq. rewrite bool_decide_eq_true, orb_true_iff, !andb_true_iff, !negb_true_iff, !Z.eqb_neq, !Z.eqb_eq.
  split.
  - intros [[Hd Hi]|[Hd Hi]].
    + destruct Hlo as [(_ & [e He] & _)|[-> _]]; [by exists lower, e|done].
    + destruct Hup as [(_ & [e He] & _)|[-> _]]; [by exists upper, e|done].
  - intros (n & e & He & Hi). destruct (decide (n ≤ name)) as [Hle|Hgt].
    + left. destruct Hlo as [(Hl & Hs & Hmax)|[_ Hno]]; [|pose proof (Hno n (mk_is_Some _ _ He)); lia].
      pose proof (Hmax n (mk_is_Some _ _ He) Hle). destruct (Hnames _ Hs) as [? _]. split; [lia|].
      pose proof (index_mono n lower). pose proof (index_mono lower name). lia.
    + right. destruct Hup as [(Hl & Hs & Hmin)|[_ Hno]]; [|pose proof (Hno n (mk_is_Some _ _ He)); lia].
      pose proof (Hmin n (mk_is_Some _ _ He)). destruct (Hnames _ Hs) as [? _]. split; [lia|].
      pose proof (index_mono upper n). pose proof (index_mono name upper). lia.
Qed.

End indices.

(** ** Changes of the tree *)

Section tree_changes.
Context (sizes : list Z) (sp : positive).
Implicit Types (s : ipc_space) (vs : list view) (m : gmap Z loc) (X : infos).

(** The names that are in the global hash, after one has left. *)
Lemma sending_delete m X X' n e ρ :
  m !! n = Some e → X !! e = Some (ρ, sp) → (∀ k l, k ≠ n → m !! k = Some l → X' !! l = X !! l) →
  Z.of_nat (size (filter (sending X') (delete n m))) = Z.of_nat (size (filter (sending X) m)) - one ρ.
Proof.
  intros Hn HX HX'. assert (filter (sending X') (delete n m) = delete n (filter (sending X) m)) as ->.
  { apply map_eq. intros k. apply option_eq. intros l. rewrite lookup_delete_Some, !map_lookup_filter_Some, lookup_delete_Some.
    assert (k ≠ n → m !! k = Some l → sending X' (k, l) ↔ sending X (k, l)) as Hs; [|naive_solver].
    intros Hne Hk. unfold sending. cbn. by rewrite (HX' k l). }
  assert (filter (sending X) m !! n = if decide (is_send ρ) then Some e else None) as Hl.
  { case_decide as Hs.
    - apply map_lookup_filter_Some. split; [done|]. by exists ρ, sp.
    - apply map_lookup_filter_None. right. intros e' He' (ρ' & sp' & HXe & Hs'). simplify_eq. cbn in HXe. congruence. }
  unfold one. case_decide.
  - assert (size (filter (sending X) m) ≠ 0%nat) by (intros Hz%map_size_empty_inv; by rewrite Hz in Hl).
    rewrite map_size_delete_Some by (by rewrite Hl). lia.
  - rewrite map_size_delete_None by done. lia.
Qed.

(** A name leaves the tree. *)
Lemma tree_ok_delete s s' vs vs' m X X' held n e ρ :
  tree_ok sizes sp s vs m X held → m !! n = Some e → X !! e = Some (ρ, sp) →
  (∀ l, held = Some (In_tree l) → l = e) → (∀ k l, k ≠ n → m !! k = Some l → X' !! l = X !! l) →
  is_table_size s' = is_table_size s → is_table_next s' = is_table_next s → is_tree_total s' = is_tree_total s - 1 →
  is_tree_hash s' = is_tree_hash s - one ρ →
  (∀ nsize, sizes !! is_table_next s = Some nsize → is_tree_small s' = Z.of_nat (size (indices (delete n m) (is_table_size s) nsize))) →
  (∀ j, j ≠ MACH_PORT_INDEX n → vs' !z j ≫= coll = vs !z j ≫= coll) →
  (∀ k, k ≠ n → is_Some (m !! k) → MACH_PORT_INDEX k = MACH_PORT_INDEX n → MACH_PORT_INDEX n < is_table_size s →
     ∃ g, vs' !z MACH_PORT_INDEX n ≫= coll = Some g ∧ g ≠ gen_of k) →
  (∀ g, vs' !z MACH_PORT_INDEX n ≫= coll = Some g → has_index (delete n m) (MACH_PORT_INDEX n)) →
  tree_ok sizes sp s' vs' (delete n m) X' None.
Proof.
  intros [T1 T2 T3 T4 T5 T6 T7 T8] Hn HX Hheld HX' E1 E2 E3 E4 Hsmall Hviews Hat Hcoll. split; rewrite ?E1, ?E2, ?E3, ?E4.
  - intros k k' l [_ Hk]%lookup_delete_Some [_ Hk']%lookup_delete_Some. by eapply T1.
  - intros k l [_ Hk]%lookup_delete_Some. by eapply T2.
  - intros k l [Hne Hk]%lookup_delete_Some. rewrite (HX' k l) by done. destruct (T3 k l Hk) as (ρ' & HXl & [Hh|?]); [|by eauto].
    apply Hheld in Hh as ->. destruct Hne. by eapply T1.
  - intros k l [Hne Hk]%lookup_delete_Some Hlt. destruct (decide (MACH_PORT_INDEX k = MACH_PORT_INDEX n)) as [Heq|Hidx].
    + rewrite Heq in *. apply Hat; [done|by eexists|done|done].
    + rewrite Hviews by done. by eapply T4.
  - intros i g Hg. destruct (decide (i = MACH_PORT_INDEX n)) as [->|Hidx]; [by eapply Hcoll|].
    rewrite Hviews in Hg by done. apply has_index_other; [done|]. by eapply T5.
  - rewrite T6. assert (size m ≠ 0%nat) by (intros Hz%map_size_empty_inv; by rewrite Hz in Hn).
    rewrite map_size_delete_Some by (by rewrite Hn). lia.
  - done.
  - rewrite T8. by rewrite (sending_delete m X X' n e ρ).
Qed.

Lemma tfind_delete m X X' n k :
  (∀ k l, k ≠ n → m !! k = Some l → X' !! l = X !! l) → k ≠ n → tfind (delete n m) X' k = tfind m X k.
Proof.
  intros HX Hk. unfold tfind. rewrite lookup_delete_ne by done. destruct (m !! k) as [l|] eqn:Hl; [|done]. cbn. by rewrite (HX k l).
Qed.
Lemma tfind_deleted m X n : tfind (delete n m) X n = None.
Proof. unfold tfind. by rewrite lookup_delete_eq. Qed.

Lemma free_ok_held s vs held held' :
  (∀ i g, vs !z i = Some (Free g) → gap held i ↔ gap held' i) → free_ok s vs held → free_ok s vs held'.
Proof.
  intros Hh (fl & Hc & Hnd & Hin). exists fl. split; [done|]. split; [done|]. intros i. rewrite Hin. split.
  - intros (? & Hg & g & Hv). split; [done|]. split; [by rewrite <- (Hh i g)|eauto].
  - intros (? & Hg & g & Hv). split; [done|]. split; [by rewrite (Hh i g)|eauto].
Qed.

(** Fields outside the table. *)
Lemma same_table s s' vs held :
  is_table s' = is_table s → is_table_size s' = is_table_size s → is_table_next s' = is_table_next s → is_fast s' = is_fast s →
  (table_ok sizes s vs → table_ok sizes s' vs) ∧ (free_ok s vs held → free_ok s' vs held) ∧ (local_ok s vs → local_ok s' vs).
Proof.
  intros E1 E2 E3 E4. split_and!.
  - intros []. by split; rewrite ?E1, ?E2, ?E3, ?E4.
  - intros (fl & Hc & Hnd & Hin). exists fl. split; [|done]. eapply free_chain_ext; [|done]. intros. unfold next_of. by rewrite E1.
  - intros (H & Hinv & HH). exists H. split; [|done]. apply (hash_inv_change s); [done| |done|..].
    + destruct (hi_sized _ _ Hinv). unfold sized. by rewrite E1, E2.
    + intros. unfold slot. by rewrite E1.
    + intros. unfold objof. by rewrite E1.
Qed.

End tree_changes.

Lemma is_tree_inj sp1 sp2 : is_tree sp1 = is_tree sp2 → sp1 = sp2.
Proof. unfold is_tree. lia. Qed.
Lemma is_tree_local sp1 v : v ∈ [v_small; v_collisions; v_move; v_ignore] → is_tree sp1 ≠ v.
Proof. unfold is_tree, v_small, v_collisions, v_move, v_ignore. set_unfold. lia. Qed.

Section dealloc.
Context (sizes : list Z) (Hsizes : sizes_ok sizes) (sp : positive) (ss : gmap positive ipc_space).
Context (F : gmap positive (gmap Z loc)) (X0 : infos).
Hypothesis (HF : ∀ sp' m, F !! sp' = Some m → sp' ≠ sp ∧ ∀ n e, m !! n = Some e → ∃ ρ, X0 !! e = Some (ρ, sp')).

Local Abbreviation linv := (linv sizes sp F X0).
Local Abbreviation lwp := (lwp sizes sp ss F X0).
Local Abbreviation kst := (kst sp ss).
Local Abbreviation elsewhere := (elsewhere F X0).
Local Abbreviation refers := (refers sp).
Local Abbreviation kept := (kept sp).

(** What a deallocation does: the name is gone, everything else as it was. *)
Definition released (x x' : lst) (name : Z) : Prop :=
  lheld x' = None ∧ flags (ls x') = flags (ls x) ∧ spare (lA x') = spare (lA x) ∧ kept (lA x) (lA x') ∧
  ∀ n, names x' n = put name None (names x) n.

Lemma wp_dealloc_table x name i ρ :
  linv x → lheld x = Some (In_table i) → i = MACH_PORT_INDEX name → lvs x !z i = Some (Used (gen_of name) false ρ) →
  r_object ρ = IO_NULL →
  lwp (dealloc_table sp i) x (λ _ x', released x x' name).
Proof using Hsizes HF.
  intros HI Hheld Hi Hv Ho. pose proof (view_index _ _ _ _ _ _ _ _ _ HI Hv) as Hpos.
  destruct x as [A σ its s hs vs m held]. lcbn. subst held. set (x := L A σ its s hs vs m (Some (In_table i))) in *.
  pose proof (li_space _ _ _ _ _ HI) as Hsi. pose proof Hsi as [Ht Hfr Hl Htr Hu Hso]. unfold infos_of, x in *. lcbn.
  destruct (table_view _ _ _ _ _ Ht Hv) as (e & He & Hev). pose proof Hev as (Hg & [Hrb _] & Hbits & Hobj & _).
  destruct (table_view _ _ _ _ _ Ht (ta_zero _ _ _ Ht)) as (e0 & He0 & _). unfold lwp, kst, x. lcbn.
  eapply wp_bind, wp_K_entry; [done|]. eapply wp_bind, wp_K_update_entry; [done|]. rewrite Hbits, mkbits_mask by done.
  set (e' := with_next (ie_next e0) (with_bits (gbits (gen_of name)) e)). set (s1 := set_entry e' i s).
  assert (is_table s1 !z 0 = Some e0) as He01 by (destruct (set_entry_other s 0 e0 i e'); [lia|done|done|lia]).
  eapply wp_K_update_entry; [done|]. set (s2 := set_entry (with_next i e0) 0 s1). set (vs' := zupdate i (Free (gen_of name)) vs).
  pose proof (zlookup_range _ _ _ Hv) as Hr.
  assert (entry_is e' (Free (gen_of name))) as Hev' by (split_and!; [done|done|by cbn; rewrite Hobj, Ho]).
  assert (table_ok sizes s1 vs') as Ht1 by (eapply table_ok_set; [done..|left; lia]).
  assert (vs' !z 0 = Some (Free 255)) as Hz' by apply Ht1.
  assert (∀ k l, m !! k = Some l → MACH_PORT_INDEX k ≠ i) as Hnone.
  { intros k l Hk Heq. destruct (tr_below _ _ _ _ _ _ _ Htr k l Hk) as (g & Hgc & _); rewrite Heq in *; [by eapply table_in|].
    by rewrite Hv in Hgc. }
  assert (∀ n, find vs' m (info <$> its) n = put name None (find vs m (info <$> its)) n) as Hfind.
  { intros n. unfold find, put, vs'. rewrite vfind_update by done. case_decide as Hn; cbn [vright].
    - assert (tfind m (info <$> its) n = None) as Htn.
      { unfold tfind. destruct (m !! n) as [l|] eqn:Hl'; [|done]. by destruct (Hnone n l Hl'). }
      rewrite Htn. case_decide as Hnn; [done|]. unfold vfind. rewrite Hn, Hv. cbn. rewrite decide_False; [done|].
      intros Hgg. apply Hnn. apply name_eq; congruence.
    - rewrite decide_False by congruence. done. }
  exists (L A σ its s2 hs vs' m None). split; [done|]. split; [|by split_and!].
  eapply linv_table; [done|]. split.
  - by eapply set_next_table.
  - destruct (free_ok_held s vs (Some (In_table i)) None) as [fl Hfl]; [|done|].
    { intros j g Hj. unfold gap. split; [|done]. intros [= <-]. congruence. }
    eexists. eapply (free_is_push s s2); [done..|lia| | |].
    + unfold s2. rewrite (next_of_set s1 0 e0), decide_True by done. done.
    + unfold s2. rewrite (next_of_set s1 0 e0), decide_False by (done || lia). unfold s1. rewrite (next_of_set s i e), decide_True by done.
      by rewrite (next_of_entry _ _ _ He0).
    + intros j Hj Hj0. unfold s2. rewrite (next_of_set s1 0 e0), decide_False by done. unfold s1.
      by rewrite (next_of_set s i e), decide_False by done.
  - eapply set_next_local; [|done|done]. eapply local_ok_set; try done; [|left]; cbn; (rewrite decide_False; [done|by intros [_ ?]]).
  - eapply tree_ok_fields; [|eapply tree_ok_view]; [done| |done|done]. destruct Htr as [T1 T2 T3 T4 T5 T6 T7 T8]. split; try done.
    intros k l Hk. destruct (T3 k l Hk) as (ρ' & HX & [?|?]); [done|]. eauto.
  - eapply unique_ext; [exact Hfind|]. by apply unique_put_None.
  - intros n ρ'. rewrite Hfind. unfold put. case_decide as Hn; [done|]. intros Hn' Hty. destruct (Hso n ρ' Hn' Hty) as [?|[Hin Hmn]]; [by left|].
    exfalso. unfold find, vfind, tfind in Hn'. rewrite Hin, Hv, Hmn in Hn'. cbn in Hn'. case_decide as Hgg; [|done].
    apply Hn. apply name_eq; congruence.
Qed.

(** ** A tree entry is freed *)

(** Trees, local variables included, in which only the tree of the space differs. *)
Definition rest (A A' : spec) : Prop :=
  (∀ sp', sp' ≠ sp → tree_at A' (is_tree sp') = tree_at A (is_tree sp')) ∧
  (∀ v, v ∈ [v_small; v_collisions; v_move; v_ignore] → is_Some (trees A' !! v)) ∧
  spare A' = spare A ∧ zone A ⊆ zone A' ∧ ∀ v, is_Some (trees A !! v) → is_Some (trees A' !! v).

Lemma rest_refl A : (∀ v, v ∈ [v_small; v_collisions; v_move; v_ignore] → is_Some (trees A !! v)) → rest A A.
Proof. intros. by split_and!. Qed.

Lemma rest_trans A A1 A2 : rest A A1 → rest A1 A2 → rest A A2.
Proof.
  intros (R1 & R2 & R3 & R4 & R5) (Q1 & Q2 & Q3 & Q4 & Q5). split_and!; [|done|congruence|set_solver|auto].
  intros sp' Hne. by rewrite Q1, R1.
Qed.

(** Entries that leave the tree of the space are free. *)
Lemma rest_kept A A' m m' :
  rest A A' → tree_at A (is_tree sp) = Some m → tree_at A' (is_tree sp) = Some m' →
  (∀ n e, m !! n = Some e → e ∈ zone A' ∨ ∃ n', m' !! n' = Some e) → kept A A'.
Proof.
  intros (R1 & _ & R3 & R4 & R5) Hm Hm' Hout. split; [|by split]. intros e [?|[?|(sp' & mm & n & Hmm & Hn)]].
  - left. set_solver.
  - right; left. by rewrite R3.
  - destruct (decide (sp' = sp)) as [->|Hne].
    + assert (mm = m) as -> by congruence. destruct (Hout n e Hn) as [?|[n' Hn']]; [by left|]. right; right. by exists sp, m', n'.
    + right; right. exists sp', mm, n. by rewrite R1.
Qed.

Lemma rest_set A A' v o : rest A A' → v ∈ [is_tree sp; v_small; v_collisions; v_move; v_ignore] →
  rest A (Spec (<[v := Some o]> (trees A')) (spare A') (zone A')).
Proof.
  intros (R1 & R2 & R3 & R4 & R5) Hv. split_and!; [|intros v' Hv'; cbn|done|done|intros v' Hv'; cbn].
  - intros sp' Hne. rewrite <- R1 by done. unfold tree_at. cbn. rewrite lookup_insert_ne; [done|]. intros ->.
    apply elem_of_cons in Hv as [?%is_tree_inj|Hv]; [done|]. by apply (is_tree_local sp' _ Hv).
  - destruct (decide (v = v')) as [<-|]; [rewrite lookup_insert_eq; by eexists|]. rewrite lookup_insert_ne by done. by apply R2.
  - destruct (decide (v = v')) as [<-|]; [rewrite lookup_insert_eq; by eexists|]. rewrite lookup_insert_ne by done. by apply R5.
Qed.

Lemma rest_free A v o e :
  (∀ v, v ∈ [v_small; v_collisions; v_move; v_ignore] → is_Some (trees A !! v)) → v ∈ [is_tree sp; v_small; v_collisions; v_move; v_ignore] →
  rest A (Spec (<[v := Some o]> (trees A)) (spare A) ({[e]} ∪ zone A)).
Proof.
  intros Hl Hv. destruct (rest_set A A v o (rest_refl _ Hl) Hv) as (R1 & R2 & R3 & R4 & R5). split_and!; try done. cbn. set_solver.
Qed.

Lemma kept_delete A A' m n e :
  rest A A' → tree_at A (is_tree sp) = Some m → tree_at A' (is_tree sp) = Some (delete n m) → m !! n = Some e → e ∈ zone A' → kept A A'.
Proof.
  intros HR Hm Hm' Hn He. eapply rest_kept; [done..|]. intros k l Hk. destruct (decide (k = n)) as [->|Hne].
  - left. by assert (l = e) as -> by congruence.
  - right. exists k. by rewrite lookup_delete_ne.
Qed.

(** The trees after the entry of [n] has been freed. *)
Definition without (A : spec) (m : gmap Z loc) (n : Z) (e : loc) : spec :=
  Spec (<[is_tree sp := Some (delete n m)]> (trees A)) (spare A) ({[e]} ∪ zone A).

Lemma linv_deleted A A' σ σ' its its' s s' hs hs' vs vs' m held n e bs :
  let x := L A σ its s hs vs m held in
  linv x → m !! n = Some e → trees_are σ' A' None → tree_at A' (is_tree sp) = Some (delete n m) → rest A A' →
  info <$> its' = info <$> its →
  buckets hs' its' (λ e', (here sp m (info <$> its) e' ∨ elsewhere e') ∧ e' ≠ e) bs →
  space_inv sizes sp s' vs' (delete n m) (delete e (info <$> its)) None →
  linv (L A' σ' (delete e its') s' hs' vs' (delete n m) None).
Proof using Hsizes HF.
  intros x HI Hn Hσ' Htree' (R1 & R2 & R3 & R4 & _) Hi HB Hsi. pose proof (λ n', tree_inj sizes sp F X0 x n n' e HI Hn) as Hinj.
  pose proof HI as [L1 L2 L3 L4 L5 L6 L7 L8]. unfold x, infos_of in *. lcbn. cbn in Hinj.
  assert (info <$> delete e its' = delete e (info <$> its)) as Hi' by (by rewrite fmap_delete, Hi).
  split; unfold infos_of; lcbn; rewrite ?Hi'; try done.
  - intros l Hl. rewrite R3 in Hl. destruct (L4 l Hl) as [t Ht]. rewrite lookup_delete_ne.
    + assert (is_Some ((info <$> its') !! l)) as H; [|by rewrite lookup_fmap, fmap_is_Some in H]. rewrite Hi, lookup_fmap, Ht. by eexists.
    + intros <-. by destruct (trees_spare _ _ _ L1 _ _ _ _ L2 Hn) as [? _].
  - exists bs. eapply buckets_ext; [|apply buckets_delete; [exact HB|by intros [_ ?]]]. intros e'. cbn. split.
    + intros [[(k & ρ & Hk & HX & Hs)|?] Hne]; [left|by right]. exists k, ρ. rewrite !lookup_delete_ne by (done || by intros ->; simplify_eq). done.
    + intros [(k & ρ & [_ Hk]%lookup_delete_Some & [Hne HX]%lookup_delete_Some & Hs)|Hel].
      * split; [left; by exists k, ρ|done].
      * split; [by right|]. intros ->. eapply (not_elsewhere sizes Hsizes sp F X0 HF x n e HI Hn Hel).
  - intros sp' m' Hm'. destruct (HF _ _ Hm') as [Hne _]. rewrite R1 by done. by apply L7.
  - intros sp' m' k l Hm' Hk. rewrite lookup_delete_ne; [by eapply L8|]. intros <-. destruct (HF _ _ Hm') as [Hne HX1].
    destruct (HX1 _ _ Hk) as [ρ' HX']. rewrite <- (L8 _ _ _ _ Hm' Hk) in HX'.
    destruct (tr_info _ _ _ _ _ _ _ (si_tree _ _ _ _ _ _ _ L5) _ _ Hn) as (ρ & HX & _). congruence.
Qed.

Lemma wp_its_size i n k (Q : Z → kernel → Prop) : sizes !! i = Some n → Q n k → wp (its_size sizes i) k Q.
Proof. intros Hn. unfold wp, its_size. by rewrite Hn. Qed.

Lemma wp_tree_collision A σ its s hs m name (Q : bool → kernel → Prop) :
  trees_are σ A None → tree_at A (is_tree sp) = Some m → (∀ n, is_Some (m !! n) → tree_name n) → is_active s = true →
  (∀ σ', trees_are σ' A None → Q (bool_decide (has_index m (MACH_PORT_INDEX name))) (K sp ss σ' its s hs)) →
  wp (ipc_entry_tree_collision sp name) (K sp ss σ its s hs) Q.
Proof.
  intros Hσ Hm Hnames Hact HQ. apply wp_bind, wp_K_space_of. apply wp_bind, wp_assert; [done|].
  eapply wp_bind, wp_K_tree, wp_mono; [by apply trees_bounds|]. intros [lower upper] σ' (Hσ' & Hlo & Hup). cbv zeta.
  apply wp_ret. cbn [fst snd] in *. rewrite (bounds_index _ _ _ _ Hnames Hlo Hup). by apply HQ.
Qed.

Lemma coll_vright v v' : (∀ g, vright v' g = vright v g) → ∀ vs i n, vs !z i = Some v → vfind (zupdate i v' vs) n = vfind vs n.
Proof.
  intros Hv vs i n Hi. rewrite vfind_update by (by eapply zlookup_range). case_decide as Hn; [|done].
  unfold vfind. rewrite Hn, Hi. apply Hv.
Qed.

Section tree_entry.
Context (A : spec) (σ : ipc) (its : gmap loc ipc_tree_entry) (s : ipc_space) (hs : list (option loc)) (vs : list view) (m : gmap Z loc).
Context (name : Z) (e : loc) (ρ : right).
Local Abbreviation x := (L A σ its s hs vs m (Some (In_tree e))).
Hypothesis (HI : linv x) (Hm : m !! name = Some e) (HX : (info <$> its) !! e = Some (ρ, sp)) (Hns : ¬ is_send ρ).

(** The entry has left the tree, and the table is as it should be. *)
Lemma tree_deleted s' vs' σ' :
  trees_are σ' (without A m name e) None → table_ok sizes s' vs' → free_ok s' vs' None → local_ok s' vs' →
  tree_ok sizes sp s' vs' (delete name m) (delete e (info <$> its)) None → flags s' = flags s → (∀ n, vfind vs' n = vfind vs n) →
  ∃ x', K sp ss σ' (delete e its) s' hs = kst x' ∧ linv x' ∧ released x x' name.
Proof using All.
  intros Hσ' Ht' Hfr' Hl' Htr' Hfl Hvf. pose proof (not_hashed _ Hsizes _ _ _ HF _ _ _ _ HI Hm HX Hns) as Hnot.
  pose proof (λ n', tree_inj sizes sp F X0 x name n' e HI Hm) as Hinj. pose proof (li_space _ _ _ _ _ HI) as Hsi.
  pose proof Hsi as [Htb Hfr Hl Htr Hu Hso]. destruct (li_buckets _ _ _ _ _ HI) as [bs HB]. pose proof (li_tree _ _ _ _ _ HI) as Htree. unfold infos_of in *. lcbn.
  assert (∀ n, find vs' (delete name m) (delete e (info <$> its)) n = put name None (find vs m (info <$> its)) n) as Hfind.
  { intros n. unfold find, put. rewrite Hvf. case_decide as Hn.
    - subst n. rewrite (tree_not_view _ _ _ _ _ _ _ _ _ Htb Htr Hm). apply tfind_deleted.
    - rewrite (tfind_delete m (info <$> its)); [done| |done]. intros k l Hk Hl0. apply lookup_delete_ne. intros <-. by apply Hk, Hinj. }
  eexists. split; [|split; [eapply (linv_deleted A (without A m name e) σ σ' its its s s' hs hs vs vs' m (Some (In_tree e)) name e bs); try done|]];
    [done| | | | |].
  - unfold tree_at. cbn. by rewrite lookup_insert_eq.
  - apply rest_free; [apply HI|set_solver].
  - eapply buckets_ext; [|exact HB]. intros e'. cbn. split; [|tauto]. intros HP. split; [done|]. by intros ->.
  - split; [done..| |].
    + eapply unique_ext; [exact Hfind|]. by apply unique_put_None.
    + intros n ρ'. rewrite Hfind. unfold put. case_decide as Hn; [done|]. intros Hn' Hty. destruct (Hso n ρ' Hn' Hty) as [?|Hh]; [by left|].
      cbn in Hh. destruct Hn. by apply Hinj.
  - split_and!; [done|done|done| |].
    + eapply (kept_delete A _ m name e); [apply rest_free; [apply HI|set_solver]|done| |done|cbn; set_solver]. unfold tree_at. cbn. by rewrite lookup_insert_eq.
    + intros n. unfold names, infos_of. lcbn. by rewrite fmap_delete.
Qed.

(** The number of indices between the table and the next size. *)
Lemma small_after_delete nsize :
  sizes !! is_table_next s = Some nsize →
  Z.of_nat (size (indices (delete name m) (is_table_size s) nsize)) =
    is_tree_small s - (if decide (is_table_size s ≤ MACH_PORT_INDEX name < nsize ∧ ¬ has_index (delete name m) (MACH_PORT_INDEX name)) then 1 else 0).
Proof using All.
  intros Hn. pose proof (li_space _ _ _ _ _ HI) as [_ _ _ Htr _ _]. lcbn. rewrite (tr_small _ _ _ _ _ _ _ Htr nsize Hn).
  pose proof (size_indices_delete m name e (is_table_size s) nsize Hm). case_decide; lia.
Qed.

(** The table does not change: its entry still has a collision, or there is none. *)
Lemma tree_deleted_same s' σ' :
  trees_are σ' (without A m name e) None → flags s' = flags s → is_table s' = is_table s → is_fast s' = is_fast s →
  is_tree_total s' = is_tree_total s - 1 → is_tree_hash s' = is_tree_hash s →
  (∀ nsize, sizes !! is_table_next s = Some nsize → is_tree_small s' = Z.of_nat (size (indices (delete name m) (is_table_size s) nsize))) →
  (MACH_PORT_INDEX name < is_table_size s → has_index (delete name m) (MACH_PORT_INDEX name)) →
  ∃ x', K sp ss σ' (delete e its) s' hs = kst x' ∧ linv x' ∧ released x x' name.
Proof using All.
  intros Hσ' Hfl E1 E2 E3 E4 E5 Hc. pose proof Hfl as [= F1 F2 F3 F4]. pose proof (li_space _ _ _ _ _ HI) as [Htb Hfr Hl Htr _ _]. unfold infos_of in *. lcbn.
  destruct (same_table sizes s s' vs None E1 F3 F4 E2) as (S1 & S2 & S3).
  assert (free_ok s vs None) as Hfr0 by (eapply free_ok_held; [|exact Hfr]; by intros).
  apply (tree_deleted s' vs σ'); auto.
  eapply (tree_ok_delete _ _ s s' vs vs m); try done; [by intros l [= ->]|..].
  - intros k l Hk Hl0. apply lookup_delete_ne. intros <-. by apply Hk, (tree_inj sizes sp F X0 x name k e HI Hm).
  - rewrite E4, one_not by done. lia.
  - intros k Hk [l Hl'] Hik Hlt. rewrite <- Hik. apply (tr_below _ _ _ _ _ _ _ Htr _ _ Hl'). by rewrite Hik.
  - intros g Hg. apply Hc. apply bind_Some in Hg as (v & Hv & _). apply (table_in _ _ _ _ _ Htb Hv).
Qed.

(** The last entry of the tree with this index is gone: the bit is cleared. *)
Lemma tree_deleted_clear g ρ1 e1 σ' :
  let idx := MACH_PORT_INDEX name in
  trees_are σ' (without A m name e) None → idx < is_table_size s → vs !z idx = Some (Used g true ρ1) → is_table s !z idx = Some e1 →
  entry_is e1 (Used g true ρ1) → ¬ has_index (delete name m) idx →
  ∃ x', K sp ss σ' (delete e its) (set_entry (with_bits (mkbits g false (r_bits ρ1)) e1) idx (add_total (-1) s)) hs = kst x' ∧ linv x' ∧ released x x' name.
Proof using All.
  intros idx Hσ' Hlt Hv He1 (Hg1 & [Hrb Hty] & Hb1 & Ho1 & Hq1) Hidx. pose proof (li_space _ _ _ _ _ HI) as [Htb Hfr Hl Htr _ _].
  assert (0 < idx) as Hi0 by (by apply (view_index _ _ _ _ _ _ _ _ _ HI Hv)). unfold infos_of in *. lcbn.
  set (s1 := add_total (-1) s). destruct (same_table sizes s s1 vs None eq_refl eq_refl eq_refl eq_refl) as (S1 & S2 & S3).
  assert (free_ok s vs None) as Hfr0 by (eapply free_ok_held; [|exact Hfr]; by intros). pose proof (zlookup_range _ _ _ Hv) as Hrng.
  apply (tree_deleted _ (zupdate idx (Used g false ρ1) vs) σ'); auto.
  - eapply table_ok_set; [by apply S1|done| |left; lia]. split; [done|]. split; [done|]. by split_and!.
  - eapply (free_ok_keep s1); [by apply S2|done|by intros|by intros|done|done|]. intros j Hj. rewrite (next_of_set s1 idx e1) by done.
    by rewrite decide_False.
  - eapply local_ok_set; [by apply S3|done|done|done|done|by right].
  - eapply (tree_ok_delete _ _ s _ vs _ m); try done; [by intros l [= ->]|..].
    + intros k l Hk Hl0. apply lookup_delete_ne. intros <-. by apply Hk, (tree_inj sizes sp F X0 x name k e HI Hm).
    + cbn. rewrite one_not by done. lia.
    + intros nsize Hn. rewrite (small_after_delete nsize Hn), decide_False by lia. cbn. lia.
    + intros j Hj. by rewrite zlookup_update_ne by lia.
    + intros k Hk [l Hl'] Hik. destruct Hidx. exists k, l. by rewrite lookup_delete_ne.
    + intros g0. fold idx. by rewrite zlookup_update.
  - intros n. eapply coll_vright; [|done]. done.
Qed.
End tree_entry.

Lemma wp_dealloc_tree x name e ρ :
  linv x → lheld x = Some (In_tree e) → refers x (In_tree e) name ρ → r_object ρ = IO_NULL → is_active (ls x) = true →
  lwp (dealloc_tree sizes sp name e) x (λ _ x', released x x' name).
Proof using Hsizes HF.
  intros HI Hheld [Hm HX] Ho Hact. destruct (item_info _ _ _ _ HX) as (t & Ht & Hr & Hsp). pose proof (tree_counted _ _ _ _ _ _ _ HI Hm) as Hcount.
  assert (¬ is_send ρ) as Hns by (by intros [_ ?]). destruct x as [A σ its s hs vs m held]. unfold infos_of in HX. lcbn. subst held.
  pose proof (li_space _ _ _ _ _ HI) as [Htb _ _ Htr _ _]. pose proof (li_trees _ _ _ _ _ HI) as Hσ. pose proof (li_tree _ _ _ _ _ HI) as Htree. lcbn.
  assert (∀ n, is_Some (delete name m !! n) → tree_name n) as Hnames.
  { intros n [l [_ Hn]%lookup_delete_Some]. by eapply (tr_name _ _ _ _ _ _ _ Htr). }
  destruct (ta_more _ _ _ Htb) as [nsize Hnext]. pose proof (small_after_delete A σ its s hs vs m name e ρ HI Hm HX Hns nsize Hnext) as Hsmall.
  pose proof (tree_deleted_same A σ its s hs vs m name e ρ HI Hm HX Hns) as Hsame.
  assert (tree_at (without A m name e) (is_tree sp) = Some (delete name m)) as Htree1 by (unfold tree_at; cbn; by rewrite lookup_insert_eq).
  unfold lwp, kst. lcbn. eapply wp_bind, wp_K_item; [done|]. apply wp_bind, wp_assert; [by rewrite bool_decide_true|].
  eapply wp_bind, wp_K_tree, wp_mono; [by apply (trees_delete σ A None Hσ (is_tree sp) m)|]. intros u σ1 Hσ1. cbn beta in Hσ1. clear u.
  apply wp_bind, wp_K_free_item. apply wp_bind, wp_K_space_of. apply wp_bind, wp_assert; [lia|]. apply wp_bind, wp_K_update.
  set (idx := MACH_PORT_INDEX name) in *. destruct (Z.ltb_spec idx (is_table_size s)) as [Hlt|Hge].
  - destruct (tr_below _ _ _ _ _ _ _ Htr _ _ Hm Hlt) as (g & (v & Hv & Hc)%bind_Some & _). fold idx in Hv.
    destruct v as [|g' [] ρ1]; [done| |done]. injection Hc as ->. destruct (table_view _ _ _ _ _ Htb Hv) as (e1 & He1 & Hev1).
    eapply wp_bind, wp_K_entry; [done|]. apply wp_bind, wp_assert; [by rewrite (entry_collision _ _ Hev1)|]. apply wp_bind.
    eapply wp_tree_collision; [done..|]. intros σ2 Hσ2. case_bool_decide as Hidx.
    + apply wp_ret. apply Hsame; try done. intros nsize' Hn'. simplify_eq. rewrite Hsmall, decide_False by lia. cbn. lia.
    + pose proof Hev1 as (_ & [Hrb _] & Hb1 & _). eapply wp_K_update_entry; [done|]. rewrite Hb1, mkbits_clear by done.
      by apply (tree_deleted_clear A σ its s hs vs m name e ρ HI Hm HX Hns).
  - eapply wp_bind, wp_its_size; [done|]. destruct (Z.ltb_spec idx nsize) as [Hlt|Hge'].
    + apply wp_bind. eapply wp_tree_collision; [done..|]. intros σ2 Hσ2. fold idx. case_bool_decide as Hidx.
      * apply wp_ret. apply Hsame; try done. intros nsize' Hn'. simplify_eq. rewrite Hsmall, decide_False by tauto. cbn. lia.
      * rewrite decide_True in Hsmall by (split; [lia|done]). apply wp_bind, wp_K_space_of. apply wp_bind, wp_assert; [cbn; lia|].
        apply wp_K_update. apply Hsame; try done; [|lia]. intros nsize' Hn'. simplify_eq. rewrite Hsmall. done.
    + apply wp_ret. apply Hsame; try done; [|lia]. intros nsize' Hn'. simplify_eq. rewrite Hsmall, decide_False by lia. cbn. lia.
Qed.

(** ** The next entry of an index takes the place in the table *)

Definition mbelow (i : Z) (m : gmap Z loc) : gmap Z loc := filter (λ q, MACH_PORT_INDEX q.1 < i) m.
Definition mat (i : Z) (m : gmap Z loc) : gmap Z loc := filter (λ q, MACH_PORT_INDEX q.1 = i) m.
Definition mabove (i : Z) (m : gmap Z loc) : gmap Z loc := filter (λ q, i < MACH_PORT_INDEX q.1) m.

Lemma filter_iff (P Q : Z * loc → Prop) `{!∀ q, Decision (P q), !∀ q, Decision (Q q)} (m : gmap Z loc) :
  (∀ q, P q ↔ Q q) → filter P m = filter Q m.
Proof. intros Hpq. apply map_filter_ext. intros. apply Hpq. Qed.

Lemma tree_at_with s o T spr zn : tree_at (Spec (<[s := Some o]> T) spr zn) s = Some o.
Proof. unfold tree_at. cbn. by rewrite lookup_insert_eq. Qed.
Lemma tree_at_without s s' o A : s ≠ s' → tree_at (Spec (<[s := Some o]> (trees A)) (spare A) (zone A)) s' = tree_at A s'.
Proof. intros. unfold tree_at. cbn. by rewrite lookup_insert_ne. Qed.

Lemma wp_slice A σ its s hs m i (Q : unit → kernel → Prop) :
  trees_are σ A None → tree_at A (is_tree sp) = Some m → rest A A → idx_ok i → idx_ok (i + 1) →
  (∀ σ' A', trees_are σ' A' None → tree_at A' (is_tree sp) = Some (mabove i m) → tree_at A' v_collisions = Some (mat i m) →
     tree_at A' v_small = Some (mbelow i m) → rest A A' → zone A' = zone A → Q tt (K sp ss σ' its s hs)) →
  wp (_ ← in_tree (ipc_splay_tree_split (is_tree sp) (MACH_PORT_MAKE (i + 1) 0) v_collisions);
      in_tree (ipc_splay_tree_split v_collisions (MACH_PORT_MAKE i 0) v_small)) (K sp ss σ its s hs) Q.
Proof.
  intros Hσ Hm HR Hi Hi1 HQ. pose proof (is_tree_local sp v_collisions). pose proof (is_tree_local sp v_small).
  assert (is_tree sp ≠ v_collisions ∧ is_tree sp ≠ v_small) as [Hne1 Hne2] by set_solver.
  rewrite !MACH_PORT_MAKE_0 by done. pose proof HR as (_ & R2 & _ & _). eapply wp_bind, wp_K_tree, wp_mono.
  { apply (trees_split σ A None Hσ (is_tree sp) v_collisions m); [done|apply R2; set_solver|done]. }
  intros u σ1 Hσ1. cbn beta in Hσ1. clear u. set (A1 := set_tree v_collisions _ _) in Hσ1.
  assert (rest A A1) as HR1 by (apply rest_set; [apply rest_set; [done|set_solver]|set_solver]). pose proof HR1 as (_ & R21 & _ & _).
  eapply wp_K_tree, wp_mono.
  { eapply (trees_split σ1 A1 None Hσ1 v_collisions v_small); [apply tree_at_set|apply R21; set_solver|done]. }
  intros [] σ2 Hσ2. eapply HQ; [exact Hσ2|..].
  - rewrite !tree_at_set_ne by done. unfold A1. rewrite tree_at_set_ne, tree_at_set by done. f_equal. apply filter_iff.
    intros [k l]. cbn. pose proof (index_lt_mkname k (i + 1)). lia.
  - rewrite tree_at_set_ne, tree_at_set by done. f_equal. rewrite map_filter_filter. apply filter_iff.
    intros [k l]. cbn. pose proof (index_lt_mkname k (i + 1)). pose proof (index_lt_mkname k i). lia.
  - rewrite tree_at_set. f_equal. rewrite map_filter_filter. apply filter_iff.
    intros [k l]. cbn. pose proof (index_lt_mkname k (i + 1)). pose proof (index_lt_mkname k i). lia.
  - apply rest_set; [apply rest_set; [done|set_solver]|set_solver].
  - done.
Qed.

Lemma wp_rejoin A σ its s hs m mc i e (Q : unit → kernel → Prop) :
  trees_are σ A None → tree_at A (is_tree sp) = Some (mabove i m) → tree_at A v_collisions = Some mc →
  tree_at A v_small = Some (mbelow i m) → rest A A → (∀ n, is_Some (mc !! n) → MACH_PORT_INDEX n = i) → is_table s !z i = Some e →
  (∀ σ' A', trees_are σ' A' None → tree_at A' (is_tree sp) = Some (mbelow i m ∪ (mc ∪ mabove i m)) → rest A A' → zone A' = zone A →
     Q tt (K sp ss σ' its (if decide (mc = ∅) then s else set_entry (with_bits (Z.lor (ie_bits e) IE_BITS_COLLISION) e) i s) hs)) →
  wp (pick ← in_tree (ipc_splay_tree_pick v_collisions);
      _ ← (match pick with
           | Some _ =>
               _ ← update_entry sp i (λ e, with_bits (Z.lor (ie_bits e) IE_BITS_COLLISION) e);
               in_tree (ipc_splay_tree_join (is_tree sp) v_collisions)
           | None => mret tt
           end);
      in_tree (ipc_splay_tree_join (is_tree sp) v_small)) (K sp ss σ its s hs) Q.
Proof.
  intros Hσ Hm Hc Hb HR Hmc He HQ. pose proof (is_tree_local sp v_collisions). pose proof (is_tree_local sp v_small).
  assert (is_tree sp ≠ v_collisions ∧ is_tree sp ≠ v_small) as [Hne1 Hne2] by set_solver.
  eapply wp_bind, wp_K_tree, wp_mono; [by apply (trees_pick σ A None Hσ v_collisions mc)|]. intros pick σ1 [Hσ1 Hpick].
  assert (∀ A1 σ2 s', trees_are σ2 A1 None → tree_at A1 (is_tree sp) = Some (mc ∪ mabove i m) → tree_at A1 v_small = Some (mbelow i m) →
    rest A A1 → zone A1 = zone A → s' = (if decide (mc = ∅) then s else set_entry (with_bits (Z.lor (ie_bits e) IE_BITS_COLLISION) e) i s) →
    wp (in_tree (ipc_splay_tree_join (is_tree sp) v_small)) (K sp ss σ2 its s' hs) Q) as Hlast.
  { intros A1 σ2 s' Hσ2 Ht1 Hs1 HR1 Hz ->. eapply wp_K_tree, wp_mono.
    { eapply (trees_join σ2 A1 None Hσ2 (is_tree sp) v_small); [done..|].
      intros k' e' [_ Hk']%map_lookup_filter_Some k l Hk. cbn in Hk'.
      assert (i ≤ MACH_PORT_INDEX k); [|pose proof (index_mono k k'); lia].
      apply lookup_union_Some_raw in Hk as [Hk|[_ [_ Hk]%map_lookup_filter_Some]]; [|cbn in Hk; lia].
      pose proof (Hmc k (mk_is_Some _ _ Hk)). lia. }
    intros [] σ3 Hσ3. eapply HQ; [exact Hσ3|..]; [|apply rest_set; [apply rest_set; [done|set_solver]|set_solver]|done].
    rewrite tree_at_set_ne, tree_at_set by done. done. }
  destruct pick as [[n p]|].
  - destruct Hpick as (e1 & -> & Hn). assert (mc ≠ ∅) as Hnonempty by (by intros ->). rewrite decide_False in Hlast by done.
    apply wp_bind. eapply wp_bind, wp_K_update_entry; [done|]. eapply wp_K_tree, wp_mono.
    { eapply (trees_join σ1 A None Hσ1 (is_tree sp) v_collisions); [done..|].
      intros k' e' Hk' k l [_ Hk]%map_lookup_filter_Some. cbn in Hk. pose proof (Hmc k' (mk_is_Some _ _ Hk')).
      pose proof (index_mono k k'). lia. }
    intros u σ2 Hσ2. cbn beta in Hσ2. eapply Hlast; [exact Hσ2|..]; [| |apply rest_set; [apply rest_set; [done|set_solver]|set_solver]|done|done].
    + rewrite tree_at_set_ne, tree_at_set by done. done.
    + by rewrite !tree_at_set_ne.
  - subst mc. apply wp_bind, wp_ret. eapply Hlast; [exact Hσ1|by rewrite map_empty_union|done..].
Qed.

(** A hashed tree entry becomes a hashed entry of the table, after its right has been
    copied to the entry [e'] of index [i]. *)
Lemma wp_move_hash σ its s hs vs P bs i v e e' v' name tentry t ρ (Q : unit → kernel → Prop) :
  is_fast s = false → local_ok s vs → is_table s !z i = Some e → vs !z i = Some v → sends v = None → 0 < i →
  ie_index e' = ie_index e → ie_object e' = r_object ρ → sends v' = (if decide (is_send ρ) then Some (r_object ρ) else None) →
  buckets hs its P bs → its !! tentry = Some t → right_of t = ρ → ite_space t = sp → ite_name σ !! tentry = Some name →
  (is_send ρ ↔ P tentry) → (is_send ρ → 0 < is_tree_hash s) → (is_send ρ → ∀ j, vs !z j ≫= sends ≠ Some (r_object ρ)) →
  (IE_BITS_TYPE (r_bits ρ) = MACH_PORT_TYPE_SEND → r_object ρ ≠ IO_NULL) →
  (∀ its' hs' bs' s', info <$> its' = info <$> its → buckets hs' its' (λ e', P e' ∧ e' ≠ tentry) bs' →
     local_ok s' (zupdate i v' vs) → unhashed s' = unhashed (set_entry e' i (with_hash (is_tree_hash s - one ρ) s)) →
     Q tt (K sp ss σ its' s' hs')) →
  wp (if IE_BITS_TYPE (r_bits ρ) =? MACH_PORT_TYPE_SEND then
        _ ← ipc_hash_global_delete sp (r_object ρ) name tentry;
        in_space sp (ipc_hash_local_insert (r_object ρ) i)
      else mret tt) (K sp ss σ its (set_entry e' i s) hs) Q.
Proof.
  intros Hfast Hl He Hv Hsv Hi Hidx Hobj Hsv' HB Ht Hr Hsp Hname HP Hpos Hnew Hsound HQ.
  destruct (Z.eqb_spec (IE_BITS_TYPE (r_bits ρ)) MACH_PORT_TYPE_SEND) as [Hty|Hty].
  - assert (is_send ρ) as Hs by (split; [done|by apply Hsound]). rewrite decide_True in Hsv' by done.
    eapply wp_bind, wp_mono.
    { eapply wp_global_delete; [exact HB|done|done|done|by rewrite <- Hr|by apply Hsound|done|by apply HP|by apply Hpos]. }
    intros _ k (its' & hs' & -> & Hi' & bs' & HB'). apply wp_K_space.
    set (s0 := with_hash (is_tree_hash s - one ρ) s).
    destruct (same_table [] s s0 vs None eq_refl eq_refl eq_refl eq_refl) as (_ & _ & S3).
    assert (add_hash (-1) (set_entry e' i s) = set_entry e' i s0) as -> by (unfold s0; by rewrite one_send).
    eapply wp_mono; [by eapply (wp_local_add s0 vs i e v e' v' (r_object ρ)); auto|]. intros [] s' [Hu' Hl']. by eapply HQ.
  - assert (¬ is_send ρ) as Hs by (by intros [? _]). rewrite decide_False in Hsv' by done. apply wp_ret. eapply HQ; [done| | |].
    + eapply buckets_ext; [|exact HB]. intros e1. split; [|tauto]. intros HPe. split; [done|]. intros ->. by apply Hs, HP.
    + eapply local_ok_set; [done..|congruence|by left].
    + by rewrite with_hash_id by (rewrite one_not by done; lia).
Qed.

(** The space after a tree entry has taken the place of an entry without right. *)
Definition taken (vs : list view) (m : gmap Z loc) (i tname : Z) (ρ : right) : list view :=
  zupdate i (Used (gen_of tname) (bool_decide (has_index (delete tname m) i)) ρ) vs.

Lemma find_taken s vs m X held i g ρ0 tname tentry ρ n :
  table_ok sizes s vs → tree_ok sizes sp s vs m X held → vs !z i = Some (Used g true ρ0) → m !! tname = Some tentry →
  MACH_PORT_INDEX tname = i → X !! tentry = Some (ρ, sp) →
  find (taken vs m i tname ρ) (delete tname m) (delete tentry X) n = put (mkname i g) None (find vs m X) n.
Proof.
  intros Ht Htr Hv Hm Hi HX. pose proof (zlookup_range _ _ _ Hv) as Hr. unfold find, put, taken. rewrite vfind_update by done.
  assert (gen_ok g) as Hg by (destruct (table_view _ _ _ _ _ Ht Hv) as (e & _ & Hev); apply Hev).
  assert (∀ k, k ≠ tname → tfind (delete tname m) (delete tentry X) k = tfind m X k) as Htf.
  { intros k Hk. apply tfind_delete; [|done]. intros k' l Hk' Hl. apply lookup_delete_ne. intros <-. by apply Hk', (tr_inj _ _ _ _ _ _ _ Htr _ _ _ Hl). }
  pose proof (name_is n i g Hg) as Hname. case_decide as Hn; cbn [vright].
  - assert (vfind vs n = if decide (g = gen_of n) then Some ρ0 else None) as -> by (unfold vfind; by rewrite Hn, Hv).
    destruct (decide (gen_of tname = gen_of n)) as [Hgt|Hgt].
    + assert (n = tname) as -> by (apply name_eq; congruence). destruct (tr_below _ _ _ _ _ _ _ Htr _ _ Hm) as (g1 & Hg1 & Hne).
      { rewrite Hi. by eapply table_in. }
      rewrite Hi, Hv in Hg1. injection Hg1 as ->. rewrite decide_False by naive_solver. rewrite decide_False by done.
      unfold tfind. by rewrite Hm; cbn; rewrite HX.
    + rewrite Htf by congruence. destruct (decide (g = gen_of n)) as [Hgn|Hgn].
      * rewrite decide_True by naive_solver. unfold tfind. destruct (m !! n) as [l|] eqn:Hl; [|done]. exfalso.
        destruct (tr_below _ _ _ _ _ _ _ Htr _ _ Hl) as (g1 & Hg1 & Hne); rewrite Hn in *; [by eapply table_in|].
        rewrite Hv in Hg1. by injection Hg1 as ->.
      * by rewrite decide_False by naive_solver.
  - rewrite decide_False by naive_solver. by rewrite Htf by congruence.
Qed.

Lemma space_taken s s' vs m X i g ρ0 tname tentry ρ e e' :
  space_inv sizes sp s vs m X (Some (In_table i)) → vs !z i = Some (Used g true ρ0) → 0 < i → m !! tname = Some tentry →
  MACH_PORT_INDEX tname = i → X !! tentry = Some (ρ, sp) → right_ok ρ → is_table s !z i = Some e →
  entry_is e' (Used (gen_of tname) (bool_decide (has_index (delete tname m) i)) ρ) →
  unhashed s' = unhashed (set_entry e' i (set_counts (is_tree_total s - 1) (is_tree_small s) (is_tree_hash s - one ρ) s)) →
  local_ok s' (taken vs m i tname ρ) →
  space_inv sizes sp s' (taken vs m i tname ρ) (delete tname m) (delete tentry X) None.
Proof.
  intros [Ht Hfr Hl Htr Hu Hso] Hv Hi0 Hm Hi HX Hρ He Hev Hs' Hl'. pose proof (zlookup_range _ _ _ Hv) as Hr.
  set (s0 := set_counts (is_tree_total s - 1) (is_tree_small s) (is_tree_hash s - one ρ) s) in *.
  destruct (same_table sizes s s0 vs (Some (In_table i)) eq_refl eq_refl eq_refl eq_refl) as (S1 & S2 & S3).
  pose proof (unhashed_fields _ _ Hs') as Hfields. pose proof (table_in _ _ _ _ _ Ht Hv) as [_ Hlt].
  assert (∀ n, find (taken vs m i tname ρ) (delete tname m) (delete tentry X) n = put (mkname i g) None (find vs m X) n) as Hfind.
  { intros. by eapply find_taken. }
  assert (gen_ok g) as Hg by (destruct (table_view _ _ _ _ _ Ht Hv) as (e1 & _ & Hev1); apply Hev1). split.
  - eapply table_ok_unhashed; [done|]. eapply table_ok_set; [by apply S1|done|done|left; lia].
  - eapply (free_ok_keep s0); [by apply S2|done|by intros|by intros| |done|].
    + intros j Hj. unfold gap. naive_solver.
    + intros j Hj. rewrite (next_of_unhashed _ _ _ Hs'), (next_of_set s0 i e) by done. by rewrite decide_False.
  - done.
  - injection Hfields as F1 F2 F3 F4 F5. eapply (tree_ok_delete _ _ s s' vs _ m); try done; rewrite ?F4.
    + intros k l Hk Hkl. apply lookup_delete_ne. intros <-. by apply Hk, (tr_inj _ _ _ _ _ _ _ Htr _ _ _ Hkl).
    + intros nsize Hn. cbn. rewrite (tr_small _ _ _ _ _ _ _ Htr _ Hn). pose proof (size_indices_delete m tname tentry (is_table_size s) nsize Hm) as Hsz.
      rewrite decide_False in Hsz by lia. lia.
    + intros j Hj. unfold taken. rewrite zlookup_update_ne by lia. done.
    + intros k Hk [l Hl1] Hik _. unfold taken. rewrite Hi, zlookup_update by done. cbn. rewrite bool_decide_true.
      * eexists. split; [done|]. intros Hgg. apply Hk. by apply name_eq.
      * exists k, l. rewrite lookup_delete_ne by done. split; congruence.
    + intros g1. unfold taken. rewrite Hi, zlookup_update by done. cbn. by case_bool_decide.
  - eapply unique_ext; [exact Hfind|]. by apply unique_put_None.
  - intros n ρ'. rewrite Hfind. unfold put. case_decide as Hn; [done|]. intros Hn' Hty. destruct (Hso n ρ' Hn' Hty) as [?|[Hin Hmn]]; [by left|].
    exfalso. unfold find, vfind, tfind in Hn'. rewrite Hin, Hv, Hmn in Hn'. cbn in Hn'. case_decide as Hgg; [|done].
    apply Hn. apply name_is; [done|]. by split.
Qed.

Lemma slices_whole i m n : MACH_PORT_INDEX n = i → mbelow i m ∪ (delete n (mat i m) ∪ mabove i m) = delete n m.
Proof.
  intros Hn. apply map_eq. intros k. unfold mbelow, mat, mabove. rewrite !lookup_union.
  assert (MACH_PORT_INDEX k < i ∨ MACH_PORT_INDEX k = i ∨ i < MACH_PORT_INDEX k) as Hcase by lia.
  assert (∀ P (Hd : ∀ q, Decision (P q)), (filter P m : gmap Z loc) !! k = if decide (P (k, default 1%positive (m !! k))) then m !! k else None) as Hf.
  { intros P Hd. destruct (m !! k) as [l|] eqn:Hk; cbn; case_decide; (apply map_lookup_filter_Some; done) || (apply map_lookup_filter_None; naive_solver). }
  rewrite !Hf. cbn. destruct (decide (k = n)) as [->|Hne].
  - rewrite !lookup_delete_eq. by rewrite !decide_False by lia.
  - rewrite !lookup_delete_ne by done. rewrite Hf. cbn. destruct Hcase as [H|[H|H]].
    + rewrite (decide_True (P := _ < i)), !decide_False by lia. by destruct (m !! k).
    + rewrite (decide_False (P := _ < i)), (decide_True (P := _ = i)), decide_False by lia. by destruct (m !! k).
    + rewrite (decide_False (P := _ < i)), (decide_False (P := _ = i)), decide_True by lia. by destruct (m !! k).
Qed.

Lemma mat_index i m n : is_Some (mat i m !! n) → MACH_PORT_INDEX n = i.
Proof. by intros [l [_ Hn]%map_lookup_filter_Some]. Qed.

Lemma mat_nonempty i m n : MACH_PORT_INDEX n = i → delete n (mat i m) = ∅ ↔ ¬ has_index (delete n m) i.
Proof.
  intros Hn. split.
  - intros Hz (k & l & [Hne Hk]%lookup_delete_Some & Hi).
    assert (delete n (mat i m) !! k = Some l) as H; [|by rewrite Hz in H].
    apply lookup_delete_Some. split; [done|]. by apply map_lookup_filter_Some.
  - intros Hno. apply map_empty. intros k. apply eq_None_not_Some. intros [l [Hne [Hk Hi]%map_lookup_filter_Some]%lookup_delete_Some].
    apply Hno. exists k, l. by rewrite lookup_delete_ne.
Qed.

Lemma sends_unique s vs m X tname ρ j :
  table_ok sizes s vs → unique_sends (find vs m X) → find vs m X tname = Some ρ → vfind vs tname = None → is_send ρ →
  vs !z j ≫= sends ≠ Some (r_object ρ).
Proof.
  intros Ht Hu Hf Hvf Hs (v & Hv & (g & c & ρ' & -> & Hs' & Ho')%sends_Some)%bind_Some.
  destruct (table_view _ _ _ _ _ Ht Hv) as (e & _ & Hg & _).
  assert (vfind vs (mkname j g) = Some ρ') as Hvj by (unfold vfind; rewrite index_mkname, gen_mkname, Hv by done; cbn; by rewrite decide_True).
  assert (find vs m X (mkname j g) = Some ρ') as Hfj by (unfold find; by rewrite Hvj).
  pose proof (Hu _ _ _ _ Hfj Hf Hs' Hs Ho'). congruence.
Qed.

Lemma zupdate_twice (vs : list view) i v v' : zupdate i v (zupdate i v' vs) = zupdate i v vs.
Proof. apply list_insert_insert_eq. Qed.

(** The collision bit of the entry that took the place. *)
Lemma taken_bit s s1 vs m i tname ρ e :
  let e1 := with_right (r_object ρ) (mkbits (gen_of tname) false (r_bits ρ)) (r_request ρ) e in
  let c := bool_decide (has_index (delete tname m) i) in
  right_ok ρ → vs !z i ≠ None → is_table s !z i = Some e → MACH_PORT_INDEX tname = i →
  unhashed s1 = unhashed (set_entry e1 i s) → local_ok s1 (zupdate i (Used (gen_of tname) false ρ) vs) →
  ∃ e2, is_table s1 !z i = Some e2 ∧
    let s2 := if decide (delete tname (mat i m) = ∅) then s1 else set_entry (with_bits (Z.lor (ie_bits e2) IE_BITS_COLLISION) e2) i s1 in
    unhashed s2 = unhashed (set_entry (with_right (r_object ρ) (mkbits (gen_of tname) c (r_bits ρ)) (r_request ρ) e) i s) ∧
    local_ok s2 (taken vs m i tname ρ).
Proof.
  intros e1 c Hρ Hv He Hi Hs1 Hl. destruct (vs !z i) as [v|] eqn:Hvi; [|done]. pose proof (zlookup_range _ _ _ Hvi) as Hr.
  pose proof (zlookup_range _ _ _ He) as Hre.
  destruct (unhashed_entry (set_entry e1 i s) s1 i e1 Hs1) as (e2 & He2 & Heq); [rewrite set_entry_table; by apply zlookup_update|].
  exists e2. split; [done|]. destruct e as [eo eb en ei], e2 as [eo2 eb2 en2 ei2]. cbn in Heq. injection Heq as -> -> ->. cbv zeta.
  unfold taken. destruct (decide (delete tname (mat i m) = ∅)) as [Hz|Hnz].
  - apply mat_nonempty in Hz; [|done]. unfold c. by rewrite (bool_decide_false (has_index (delete tname m) i)).
  - assert (has_index (delete tname m) i) as Hidx by (apply dec_stable; intros Hno; by apply Hnz, mat_nonempty).
    unfold c. rewrite bool_decide_true by done. cbn [ie_bits]. rewrite mkbits_set. split.
    + rewrite <- (set_entry_twice _ e1 i s). by apply unhashed_set.
    + rewrite <- (zupdate_twice vs i _ (Used (gen_of tname) false ρ)). eapply local_ok_set; [done..|by apply zlookup_update|done|done|by right].
Qed.

Lemma wp_dealloc_collision x name i ρ0 :
  linv x → lheld x = Some (In_table i) → i = MACH_PORT_INDEX name → lvs x !z i = Some (Used (gen_of name) true ρ0) →
  r_object ρ0 = IO_NULL → lwp (dealloc_collision sp i) x (λ _ x', released x x' name).
Proof using Hsizes HF.
  intros HI Hheld Hi Hv Ho. pose proof (view_index _ _ _ _ _ _ _ _ _ HI Hv) as Hpos. pose proof (zlookup_range _ _ _ Hv) as Hr.
  assert (name = mkname i (gen_of name)) as Hsplit by (subst i; apply name_split).
  destruct x as [A σ its s hs vs m held]. lcbn. subst held. set (x := L A σ its s hs vs m (Some (In_table i))) in *.
  pose proof (li_space _ _ _ _ _ HI) as Hsi. pose proof Hsi as [Ht Hfr Hl Htr Hu Hso]. destruct (li_buckets _ _ _ _ _ HI) as [bs HB].
  pose proof (li_trees _ _ _ _ _ HI) as Hσ. pose proof (li_tree _ _ _ _ _ HI) as Htree. unfold infos_of, x in *. lcbn.
  assert (rest A A) as HR by (apply rest_refl, HI).
  assert (idx_ok i ∧ idx_ok (i + 1)) as [Hio Hio1].
  { pose proof (table_in _ _ _ _ _ Ht Hv). pose proof (so_range _ Hsizes _ _ (ta_size _ _ _ Ht)). unfold idx_ok. lia. }
  destruct (table_view _ _ _ _ _ Ht Hv) as (e & He & Hev). destruct (tr_collision _ _ _ _ _ _ _ Htr i (gen_of name)) as (n0 & l0 & Hl0 & Hn0); [by rewrite Hv|].
  unfold lwp, kst, x. lcbn. apply wp_then. eapply wp_slice; [done..|]. intros σ1 A1 Hσ1 T1 T2 T3 HR1 HZ1.
  eapply wp_bind, wp_K_tree, wp_mono; [by eapply trees_pick|]. intros pick σ2 [Hσ2 Hpick]. destruct pick as [[tname p]|].
  2: { exfalso. assert (mat i m !! n0 = Some l0) as H by (by apply map_lookup_filter_Some). by rewrite Hpick in H. }
  destruct Hpick as (tentry & -> & Hmat). pose proof Hmat as [Hm Hti]%map_lookup_filter_Some. cbn in Hti.
  destruct (tr_info _ _ _ _ _ _ _ Htr _ _ Hm) as (ρ & HX & [?|Hρ]); [done|]. destruct (item_info _ _ _ _ HX) as (t & Htt & Htr' & Hsp).
  pose proof (tree_not_view _ _ _ _ _ _ _ _ _ Ht Htr Hm) as Hvf.
  assert (find vs m (info <$> its) tname = Some ρ) as Hfind by (unfold find, tfind; by rewrite Hvf, Hm; cbn; rewrite HX).
  assert (ite_bits t = r_bits ρ ∧ ite_object t = r_object ρ ∧ ite_request t = r_request ρ) as (Hb & Hob & Hq) by (by rewrite <- Htr').
  apply wp_bind, wp_assert; [lia|]. eapply wp_bind, wp_K_item; [done|]. cbv zeta. eapply wp_bind, wp_K_update_entry; [done|].
  apply wp_bind, wp_assert; [by rewrite bool_decide_true|]. rewrite Hb, Hob, Hq, MACH_PORT_GEN_eq, mkbits_right.
  set (e1 := with_right (r_object ρ) (mkbits (gen_of tname) false (r_bits ρ)) (r_request ρ) e).
  apply wp_bind. eapply (wp_move_hash σ2 its s hs vs _ bs i _ e e1 (Used (gen_of tname) false ρ)); try done.
  { apply Ht. } { cbn. rewrite decide_False; [done|by intros [_ ?]]. } { by apply (trees_name _ _ _ Hσ2 v_collisions (mat i m)). }
  { split; [intros Hs; left; by exists tname, ρ|]. intros [(n' & ρ' & _ & HX' & ?)|Hel]; [congruence|].
    by destruct (not_elsewhere sizes Hsizes sp F X0 HF x tname tentry HI Hm). }
  { intros Hs. by eapply (tree_hash_pos _ _ _ _ x). } { intros Hs j. by eapply (sends_unique s vs m (info <$> its) tname). }
  { intros Hty. destruct (Hso tname ρ Hfind Hty) as [?|[_ ?]]; [done|congruence]. }
  intros its' hs' bs' s1 Hi' HB' Hl1 Hs1. pose proof (unhashed_fields _ _ Hs1) as [= F1 F2 F3 F4 F5].
  eapply wp_bind, wp_K_tree, wp_mono; [by apply (trees_delete σ2 A1 None Hσ2 v_collisions (mat i m))|]. intros u σ3 Hσ3. cbn beta in Hσ3. clear u.
  apply wp_bind, wp_K_free_item. apply wp_bind, wp_K_space_of.
  apply wp_bind, wp_assert; [pose proof (tree_counted _ _ _ _ x tname tentry HI Hm) as Hc; cbn in Hc, F3; lia|].
  apply wp_bind, wp_K_update. set (s2 := add_total (-1) s1). set (A3 := Spec _ _ _) in Hσ3.
  set (s0 := set_counts (is_tree_total s - 1) (is_tree_small s) (is_tree_hash s - one ρ) s).
  destruct (same_table sizes s1 s2 (zupdate i (Used (gen_of tname) false ρ) vs) None eq_refl eq_refl eq_refl eq_refl) as (_ & _ & S3).
  assert (unhashed s2 = unhashed (set_entry e1 i s0)) as Hs2.
  { unfold s2. apply (f_equal (add_total (-1))) in Hs1. exact Hs1. }
  destruct (taken_bit s0 s2 vs m i tname ρ e) as (e2 & He2 & Hs3 & Hl3); [done|by rewrite Hv|done..|by apply S3|].
  assert (rest A1 A3) as HR3.
  { apply rest_free; [apply HR1|set_solver]. }
  pose proof (is_tree_local sp v_collisions). assert (is_tree sp ≠ v_collisions) as Hne by set_solver.
  eapply (wp_rejoin A3 σ3 _ s2 _ m (delete tname (mat i m)) i e2); [done|..|done|].
  { unfold A3, tree_at. cbn. by rewrite lookup_insert_ne. } { apply tree_at_with. } { unfold A3, tree_at. cbn. by rewrite lookup_insert_ne. }
  { apply rest_refl, HR3. } { intros n [l [_ Hn]%lookup_delete_Some]. by eapply mat_index. }
  intros σ4 A4 Hσ4 T4 HR4 HZ4. rewrite slices_whole in T4 by done.
  assert (rest A A4) as HRA.
  { eapply rest_trans; [done|]. by eapply rest_trans. }
  eexists. split; [|split; [eapply (linv_deleted A A4 σ σ4 its its' s _ hs hs' vs (taken vs m i tname ρ) m (Some (In_table i)) tname tentry bs'); try done|]]; [done| |].
  - eapply (space_taken s _ vs m _ i _ ρ0 tname tentry ρ e); try done. split; [apply gen_of_ok|]. split; [done|]. by split_and!.
  - split_and!; [done| |apply HRA|eapply (kept_delete A A4 m tname tentry); [done..|rewrite HZ4; cbn; set_solver]|].
    + apply (f_equal flags) in Hs3. exact Hs3.
    + intros n. unfold names, infos_of. lcbn. rewrite fmap_delete, Hi'. erewrite find_taken; [by rewrite <- Hsplit|done..].
Qed.

(** ** All branches *)

Lemma lwp_bind {A B} (m : M kernel A) (f : A → M kernel B) x Q : lwp m x (λ a x', lwp (f a) x' Q) → lwp (m ≫= f) x Q.
Proof.
  intros Hm. eapply wp_bind, wp_mono; [exact Hm|]. intros a k (x' & -> & _ & Hf). exact Hf.
Qed.
Lemma lwp_mono {A} (m : M kernel A) x (Q Q' : A → lst → Prop) : lwp m x Q → (∀ a x', linv x' → Q a x' → Q' a x') → lwp m x Q'.
Proof. intros Hm HQ. eapply wp_mono; [exact Hm|]. intros a k (x' & -> & HI & Hx). exists x'. auto. Qed.

Lemma wp_entry_dealloc x name ref ρ :
  linv x → lheld x = Some ref → refers x ref name ρ → r_object ρ = IO_NULL → r_request ρ = 0 → is_active (ls x) = true →
  lwp (ipc_entry_dealloc sizes sp name ref) x (λ _ x', released x x' name).
Proof using Hsizes HF.
  intros HI Hheld Href Ho Hq Hact. pose proof (li_space _ _ _ _ _ HI) as [Ht _ _ _ _ _].
  apply wp_bind, wp_K_space_of. apply wp_bind, wp_assert; [done|]. rewrite (ta_fast _ _ _ Ht). destruct ref as [i|e].
  - destruct Href as (Hi & c & Hv). destruct (table_view _ _ _ _ _ Ht Hv) as (e & He & Hev).
    pose proof Hev as (Hg & [Hrb _] & Hbits & Hobj & Hreq). eapply wp_bind, wp_bind, wp_K_entry; [done|]. apply wp_ret.
    apply wp_bind, wp_assert; [by rewrite Hobj, Ho|]. apply wp_bind, wp_assert; [by rewrite Hreq, Hq|]. cbv zeta. rewrite <- Hi.
    pose proof (table_in _ _ _ _ _ Ht Hv) as [_ Hlt]. rewrite (proj2 (Z.ltb_lt _ _)) by done. rewrite Z.eqb_refl. cbn [andb].
    eapply wp_bind, wp_K_entry; [done|]. apply wp_bind, wp_assert; [by rewrite Hbits, mkbits_gen, MACH_PORT_GEN_eq, Z.eqb_refl by done|].
    rewrite Hbits, mkbits_collision by done. destruct c; [by eapply wp_dealloc_collision|by eapply wp_dealloc_table].
  - destruct Href as [Hm HX]. destruct (item_info _ _ _ _ HX) as (t & Htt & Hr & Hsp).
    eapply wp_bind, wp_bind, wp_K_item; [done|]. apply wp_ret. rewrite <- Hr in Ho, Hq. cbn in Ho, Hq.
    apply wp_bind, wp_assert; [by rewrite Ho|]. apply wp_bind, wp_assert; [by rewrite Hq|]. apply wp_bind, wp_assert; [done|].
    by eapply (wp_dealloc_tree x name e ρ); [..|rewrite <- Hr|].
Qed.

(** What callers do to give a right up. *)
Lemma wp_release x name ref ρ :
  linv x → lheld x = None → refers x ref name ρ → is_active (ls x) = true →
  lwp (_ ← clear_entry sp name ref; ipc_entry_dealloc sizes sp name ref) x (λ _ x', released x x' name).
Proof using Hsizes HF.
  intros HI Hheld Href Hact. apply lwp_bind. apply (lwp_mono _ _ (λ _ x1, emptied sp x x1 name ref ρ)).
  { destruct ref; [by eapply wp_clear_table|by eapply wp_clear_tree]. }
  intros _ x1 HI1 (EA & Em & Ef & Eh & Er & En). eapply lwp_mono; [eapply wp_entry_dealloc; try done|].
  { by injection Ef as -> _. }
  intros _ x2 _ (R1 & R2 & R3 & R4 & R5). rewrite EA in R3, R4. split_and!; [done|congruence|done|done|].
  intros n. rewrite R5. unfold put. case_decide as Hn; [done|]. rewrite En. unfold put. by rewrite decide_False.
Qed.

End dealloc.
