(* ===== verification/IpcEntryAlloc.v ===== *)
(** * xnu IPC spaces: allocation of entries

    The rounds of [ipc_entry_alloc] and [ipc_entry_alloc_name], and the decision of
    [ipc_entry_grow_table] before it gives up the lock. *)

From Stdlib Require Import ZifyBool.
From S2P Require Import Prelude IpcSplay IpcSplayOps IpcSplayCorrect IpcForest IpcHash IpcEntry IpcEntryInv IpcHashGlobal IpcEntryOps IpcEntryDealloc.

Import Entry.

(** ** Sizes *)

Section sizes.
Context (sizes : list Z) (Hsizes : sizes_ok sizes).

Lemma sizes_step i n n' : sizes !! i = Some n → sizes !! S i = Some n' → n ≤ n'.
Proof. intros Hn Hn'. destruct (so_next _ Hsizes _ _ _ Hn Hn') as [?|[? _]]; lia. Qed.

Lemma sizes_le i j n n' : (i ≤ j)%nat → sizes !! i = Some n → sizes !! j = Some n' → n ≤ n'.
Proof.
  intros Hij. induction Hij as [|j Hij IH] in n' |- *; intros Hn Hn'; [simplify_eq; lia|].
  destruct (lookup_lt_is_Some_2 sizes j) as [k Hk]; [apply lookup_lt_Some in Hn'; lia|].
  pose proof (IH k Hn Hk). pose proof (sizes_step _ _ _ Hk Hn'). lia.
Qed.

(** A size that is not the last one has a next size. *)
Lemma sizes_more i n n' : sizes !! i = Some n → sizes !! S i = Some n' → n ≠ n' → is_Some (sizes !! S (S i)).
Proof.
  intros Hn Hn' Hne. apply lookup_lt_is_Some_2. pose proof (lookup_lt_Some _ _ _ Hn').
  destruct (decide (S (S i) = length sizes)) as [Hlast|]; [|lia]. exfalso. apply Hne.
  assert (sizes !! (length sizes - 1)%nat = Some n') as H1 by (rewrite <- Hlast; by replace (S (S i) - 1)%nat with (S i) by lia).
  apply (so_last _ Hsizes) in H1. rewrite <- Hlast in H1. replace (S (S i) - 2)%nat with i in H1 by lia. congruence.
Qed.

Lemma wp_grow_target fuel target psize size its k (Q : Z * Z * nat → kernel → Prop) :
  sizes !! its = Some psize → sizes !! S its = Some size → (length sizes - its ≤ fuel)%nat →
  (∀ psize' size' its', (its ≤ its')%nat → sizes !! its' = Some psize' → sizes !! S its' = Some size' →
     psize' = size' ∨ target ≤ size' → Q (psize', size', S its') k) →
  wp (grow_target_loop sizes fuel target psize size (S its)) k Q.
Proof using Hsizes.
  induction fuel as [|fuel IH] in psize, size, its |- *; intros Hp Hs Hf HQ; pose proof (lookup_lt_Some _ _ _ Hp); [lia|].
  cbn [grow_target_loop]. destruct (negb (psize =? size) && (size <? target)) eqn:Htest.
  - assert (psize ≠ size) as Hne by lia. destruct (sizes_more _ _ _ Hp Hs Hne) as [size' Hs'].
    eapply wp_bind, wp_its_size; [done|]. apply IH; [done|done|lia|]. intros. apply HQ; [lia|done..].
  - apply wp_ret. apply HQ; [done..|]. lia.
Qed.

End sizes.

(** What is decided about growing a table: [s] before, [s'] after. *)
Definition grow_decided (sizes : list Z) (s s' : ipc_space) (target : option Z) (r : grow_state) : Prop :=
  match r with
  | Grow_sleep => is_growing s = true ∧ s' = s
  | Grow_return KERN_SUCCESS false => is_growing s = false ∧ s' = s ∧ ∃ t, target = Some t ∧ t ≤ is_table_size s
  | Grow_return KERN_NO_SPACE false =>
      is_growing s = false ∧ s' = s ∧
      match target with None => sizes !! is_table_next s = Some (is_table_size s) | Some t => is_table_size s < t end
  | Grow_return _ _ => False
  | Grow_alloc its nits =>
      is_growing s = false ∧ s' = set_growing true s ∧ nits = S its ∧ (is_table_next s ≤ its)%nat ∧
      (∃ size, sizes !! its = Some size ∧ is_table_size s < size ∧ ∀ t, target = Some t → t ≤ size) ∧
      is_Some (sizes !! nits) ∧ (target = None → its = is_table_next s)
  end.

Section alloc.
Context (sizes : list Z) (Hsizes : sizes_ok sizes) (sp : positive) (ss : gmap positive ipc_space).
Context (F : gmap positive (gmap Z loc)) (X0 : infos).
Hypothesis (HF : ∀ sp' m, F !! sp' = Some m → sp' ≠ sp ∧ ∀ n e, m !! n = Some e → ∃ ρ, X0 !! e = Some (ρ, sp')).

Local Abbreviation linv := (linv sizes sp F X0).
Local Abbreviation lwp := (lwp sizes sp ss F X0).
Local Abbreviation kst := (kst sp ss).
Local Abbreviation elsewhere := (elsewhere F X0).
Local Abbreviation refers := (refers sp).
Local Abbreviation kept := (kept sp).

Lemma wp_grow_begin σ its s hs vs target (Q : grow_state → kernel → Prop) :
  table_ok sizes s vs → is_active s = true →
  (∀ r s', grow_decided sizes s s' target r → Q r (K sp ss σ its s' hs)) →
  wp (grow_begin sizes sp target) (K sp ss σ its s hs) Q.
Proof using Hsizes.
  intros Ht Hact HQ. apply wp_bind, wp_K_space_of. apply wp_bind, wp_assert; [done|].
  destruct (is_growing s) eqn:Hg; [apply wp_ret, HQ; by split|]. cbv zeta.
  destruct (ta_more _ _ _ Ht) as [size Hsize]. pose proof (ta_size _ _ _ Ht) as Hosize. pose proof (ta_next _ _ _ Ht) as Hnext.
  set (osize := is_table_size s) in *. remember (is_table_next s - 1)%nat as i eqn:Hi. assert (is_table_next s = S i) as Hn by lia.
  eapply wp_bind, wp_its_size; [done|]. eapply wp_bind, wp_its_size; [done|].
  assert (∀ size' its', (S i ≤ its')%nat → sizes !! its' = Some size' → (∀ t, target = Some t → t ≤ size') → (target = None → its' = is_table_next s) →
    (osize = size' → match target with None => sizes !! is_table_next s = Some osize | Some t => osize < t end) →
    (osize ≠ size' → is_Some (sizes !! S its')) →
    wp (if osize =? size' then mret (Grow_return KERN_NO_SPACE false)
        else nsize ← its_size sizes (S its');
             _ ← assert_M ((osize <? size') && (size' <=? nsize));
             _ ← update_space sp (set_growing true); mret (Grow_alloc its' (S its'))) (K sp ss σ its s hs) Q) as Hlast.
  { intros size' its' Hle Hs' Ht' Hnone Hfull Hmore. destruct (Z.eqb_spec osize size') as [Heq|Hne].
    { apply wp_ret, HQ. split_and!; [done|done|]. by apply Hfull. }
    destruct (Hmore Hne) as [nsize Hns]. eapply wp_bind, wp_its_size; [done|].
    assert (osize ≤ size') by (by eapply (sizes_le sizes Hsizes i its'); [lia|..]). pose proof (sizes_step sizes Hsizes _ _ _ Hs' Hns).
    apply wp_bind, wp_assert; [lia|]. apply wp_bind, wp_K_update. apply wp_ret, HQ. split_and!; [done|done|done|lia|..|done].
    - exists size'. split_and!; [done|lia|done].
    - by eexists. }
  rewrite Hn in Hsize. apply wp_bind. destruct target as [target|].
  - destruct (Z.leb_spec target osize) as [Hle|Hgt].
    { apply wp_ret. apply wp_ret, HQ. split_and!; [done|done|by eauto]. }
    rewrite Hn. apply wp_bind. eapply (wp_grow_target sizes Hsizes); [done..|lia|]. intros psize' size' its' Hle Hp' Hs' Hstop. apply wp_ret.
    destruct (Z.eqb_spec psize' size') as [Heq|Hne]; [apply wp_ret, HQ; by split_and!|].
    apply Hlast; [lia|done| |done| |].
    + intros t [= <-]. destruct Hstop; [done|lia].
    + intros ->. lia.
    + intros _. by eapply sizes_more.
  - apply wp_ret. apply Hlast; [lia|by rewrite Hn|done|done| |].
    + intros <-. by rewrite Hn.
    + intros Hne. rewrite Hn. by eapply sizes_more.
Qed.

(** ** Tree entries outside the tree *)

Definition in_trees (A : spec) (e : loc) : Prop := ∃ s m n, tree_at A s = Some m ∧ m !! n = Some e.

(** Tree entries that are in no tree may change. *)
Lemma linv_items A A' σ σ' its its' s hs vs m held :
  linv (L A σ its s hs vs m held) → trees_are σ' A' None → trees A' = trees A → (∀ e, e ∈ spare A' → is_Some (its' !! e)) →
  (∀ e, in_trees A e → its' !! e = its !! e) →
  linv (L A' σ' its' s hs vs m held) ∧ ∀ n, names (L A' σ' its' s hs vs m held) n = names (L A σ its s hs vs m held) n.
Proof.
  intros [L1 L2 L3 L4 L5 L6 L7 L8] Hσ' Htrees Hspare Hits. unfold infos_of in *. lcbn.
  assert (∀ t, tree_at A' t = tree_at A t) as Htree by (intros; unfold tree_at; by rewrite Htrees).
  assert (∀ n e, m !! n = Some e → (info <$> its') !! e = (info <$> its) !! e) as HX.
  { intros n e He. rewrite !lookup_fmap, Hits; [done|]. by exists (is_tree sp), m, n. }
  assert (∀ n, find vs m (info <$> its') n = find vs m (info <$> its) n) as Hfind.
  { intros n. unfold find. by rewrite (tfind_infos m (info <$> its)). }
  assert (∀ e, here sp m (info <$> its') e ↔ here sp m (info <$> its) e) as Hhere.
  { intros e. unfold here. split; intros (n & ρ & Hn & Hρ & Hs); exists n, ρ; split_and!; [done|by rewrite <- (HX n e Hn)|done|done|by rewrite (HX n e Hn)|done]. }
  split; [|exact Hfind]. split; unfold infos_of; lcbn; try done.
  - by rewrite Htree.
  - by rewrite Htrees.
  - destruct L5 as [Ht Hfr Hl Htr Hu Hso]. split; [done|done|done| |by eapply unique_ext|intros n ρ; rewrite Hfind; apply Hso].
    by eapply tree_ok_infos.
  - destruct L6 as [bs HB]. exists bs. eapply (buckets_ext _ _ (λ e, here sp m (info <$> its) e ∨ elsewhere e)); [intros e; cbn; by rewrite Hhere|]. eapply buckets_items; [|exact HB]. cbn.
    intros e [(n & ρ & Hn & _)|(sp' & m' & n & ρ & Hm' & Hn & _)]; apply Hits; [by exists (is_tree sp), m, n|].
    exists (is_tree sp'), m', n. split; [by apply L7|done].
  - intros sp' m' Hm'. rewrite Htree. by apply L7.
  - intros sp' m' n e Hm' Hn. rewrite <- (L8 _ _ _ _ Hm' Hn), !lookup_fmap, Hits; [done|]. exists (is_tree sp'), m', n.
    split; [by apply L7|done].
Qed.

(** A tree entry that was not used is given back. *)
Definition given_back (A A' : spec) (tentry : option loc) : Prop :=
  trees A' = trees A ∧
  match tentry with
  | None => spare A' = spare A ∧ zone A' = zone A
  | Some e => spare A' = spare A ∖ {[e]} ∧ zone A' = {[e]} ∪ zone A
  end.

Lemma wp_free_tentry x tentry :
  linv x → (∀ e, tentry = Some e → e ∈ spare (lA x)) →
  lwp (free_tentry tentry) x (λ _ x', given_back (lA x) (lA x') tentry ∧ ls x' = ls x ∧ lvs x' = lvs x ∧ lm x' = lm x ∧ lheld x' = lheld x ∧
    ∀ n, names x' n = names x n).
Proof.
  intros HI Hsp. destruct tentry as [e|]; [|by apply wp_ret; exists x]. specialize (Hsp e eq_refl).
  destruct x as [A σ its s hs vs m held]. pose proof (li_trees _ _ _ _ _ HI) as Hσ. lcbn. unfold lwp, kst. lcbn.
  eapply wp_bind, wp_K_tree, wp_mono; [by apply (trees_free σ A None Hσ)|]. intros u σ' Hσ'. cbn beta in Hσ'. clear u.
  apply wp_K_free_item. destruct (linv_items A (Spec (trees A) (spare A ∖ {[e]}) ({[e]} ∪ zone A)) σ σ' its (delete e its) s hs vs m held)
    as [HI' Hn]; try done.
  - intros l [Hl Hne]%elem_of_difference. rewrite lookup_delete_ne by set_solver. by apply (li_spare _ _ _ _ _ HI).
  - intros l (t & m' & n & Hm' & Hl). apply lookup_delete_ne. intros <-. by destruct (trees_spare _ _ _ Hσ _ _ _ _ Hm' Hl) as [? _].
  - eexists. split; [|split; [exact HI'|]]; [done|]. by split_and!.
Qed.

(** ** A round of [ipc_entry_alloc] *)

Lemma linv_growing A σ its s hs vs m held b :
  linv (L A σ its s hs vs m held) → linv (L A σ its (set_growing b s) hs vs m held).
Proof.
  intros HI. pose proof (li_space _ _ _ _ _ HI) as [Ht Hfr Hl Htr Hu Hso]. lcbn. eapply linv_table; [done|].
  destruct (same_table sizes s (set_growing b s) vs held eq_refl eq_refl eq_refl eq_refl) as (S1 & S2 & S3).
  split; [by apply S1|by apply S2|by apply S3| |done|done]. by eapply (tree_ok_fields _ _ s).
Qed.

Lemma grow_decided_linv A σ its s s' hs vs m held target r :
  linv (L A σ its s hs vs m held) → grow_decided sizes s s' target r → linv (L A σ its s' hs vs m held).
Proof.
  intros HI Hr. destruct r as [[] []| |its1 nits1]; cbn in Hr; try done; destruct Hr as (_ & Hr); destruct_and?; subst; try done.
  by apply linv_growing.
Qed.

Lemma wp_entry_alloc x :
  linv x → lheld x = None →
  lwp (ipc_entry_alloc sizes sp) x (λ r x', lA x' = lA x ∧ (∀ n, names x' n = names x n) ∧
    match r with
    | Alloc_done name (In_table i) => is_active (ls x) = true ∧ flags (ls x') = flags (ls x) ∧ fresh x' name i
    | Alloc_failed kr => kr = KERN_INVALID_TASK ∧ is_active (ls x) = false ∧ x' = x
    | Alloc_grow g => is_active (ls x) = true ∧ lheld x' = None ∧ next_of (ls x) 0 = 0 ∧ grow_decided sizes (ls x) (ls x') None g
    | _ => False
    end).
Proof using Hsizes HF.
  intros HI Hheld. apply wp_bind, wp_K_space_of. destruct (is_active (ls x)) eqn:Hact; cbn [negb].
  2: { apply wp_ret. exists x. by split_and!. }
  apply lwp_bind. eapply lwp_mono; [by eapply wp_entry_get|]. intros [[name i]|] x' HI' (EA & Ef & En & Hr).
  - apply wp_ret. exists x'. by split_and!.
  - destruct Hr as [-> Hz]. clear Ef En EA HI'. destruct x as [A σ its s hs vs m held]. lcbn. unfold lwp, kst. lcbn.
    pose proof (li_space _ _ _ _ _ HI) as [Ht _ _ _ _ _]. lcbn. eapply wp_bind, (wp_grow_begin _ _ _ _ vs); [done..|].
    intros r s' Hr. apply wp_ret. eexists (L A σ its s' hs vs m held). split; [done|]. split; [by eapply grow_decided_linv|]. by split_and!.
Qed.

(** ** A given name in the table *)

(** The entry before [index] in the free list. *)
Lemma wp_rip_loop fuel σ its s hs vs fl pre1 pre2 index post (Q : Z → kernel → Prop) :
  table_ok sizes s vs → free_is s vs None fl → fl = (pre1 ++ pre2) ++ index :: post → (length pre2 < fuel)%nat →
  Q (stop 0 (pre1 ++ pre2)) (K sp ss σ its s hs) → wp (rip_loop fuel sp index (stop 0 pre1)) (K sp ss σ its s hs) Q.
Proof.
  intros Ht (Hc & Hnd & Hin) -> Hf HQ. induction fuel as [|fuel IH] in pre1, pre2, Hc, Hnd, Hin, Hf, HQ |- *; [lia|]. cbn [rip_loop].
  assert (∃ e, is_table s !z stop 0 pre1 = Some e) as [e He].
  { assert (stop 0 pre1 = 0 ∨ stop 0 pre1 ∈ (pre1 ++ pre2) ++ index :: post) as [Hz|(_ & _ & g & Hv)%Hin] by (pose proof (stop_elem 0 pre1); set_solver).
    - rewrite Hz. destruct (table_view _ _ _ _ _ Ht (ta_zero _ _ _ Ht)) as (e & He & _). eauto.
    - destruct (table_view _ _ _ _ _ Ht Hv) as (e & He & _). eauto. }
  eapply wp_bind, wp_K_entry; [done|]. rewrite <- (next_of_entry _ _ _ He).
  assert (path s (stop 0 pre1) (pre2 ++ index :: post ++ [0])) as Hp.
  { unfold chain in Hc. rewrite <- !app_assoc in Hc. apply path_app in Hc as [_ Hc]. exact Hc. }
  destruct pre2 as [|j pre2]; destruct Hp as [Hj Hp].
  - rewrite Hj, Z.eqb_refl. apply wp_ret. by rewrite app_nil_r in HQ.
  - rewrite Hj. rewrite (proj2 (Z.eqb_neq j index)).
    + assert (j = stop 0 (pre1 ++ [j])) as Hstop by (unfold stop; by rewrite last_snoc). rewrite Hstop at 1.
      replace ((pre1 ++ j :: pre2) ++ index :: post) with (((pre1 ++ [j]) ++ pre2) ++ index :: post) in * by (by rewrite <- !app_assoc).
      apply (IH (pre1 ++ [j]) pre2); [done..|cbn in Hf; lia|]. by rewrite <- app_assoc.
    + intros ->. rewrite <- app_assoc in Hnd. apply NoDup_app in Hnd as (_ & _ & [Hnot _]%NoDup_cons). set_solver.
Qed.

Lemma free_length s vs fl : table_ok sizes s vs → free_is s vs None fl → Z.of_nat (length fl) ≤ is_table_size s.
Proof.
  intros Ht (_ & Hnd & Hin). assert (fl ⊆ seqZ 0 (is_table_size s)) as Hsub.
  { intros i (_ & _ & g & Hv)%Hin. apply elem_of_seqZ. pose proof (table_in _ _ _ _ _ Ht Hv). lia. }
  apply (NoDup_submseteq _ _ Hnd) in Hsub. apply submseteq_length in Hsub. rewrite length_seqZ in Hsub. pose proof (table_pos _ _ _ Ht). lia.
Qed.

(** The table part of a round: an entry, or [None] when the name belongs to the tree. *)
Lemma wp_alloc_name_table x name tentry :
  linv x → lheld x = None → 0 ≤ name → 0 < MACH_PORT_INDEX name →
  (∀ e, tentry = Some e → e ∈ spare (lA x) ∧ vfind (lvs x) name = None) →
  lwp (alloc_name_table sp name tentry) x (λ r x', flags (ls x') = flags (ls x) ∧ (∀ n, names x' n = names x n) ∧
    match r with
    | None => x' = x ∧ vfind (lvs x) name = None ∧
        (MACH_PORT_INDEX name < is_table_size (ls x) → ∃ g c ρ, lvs x !z MACH_PORT_INDEX name = Some (Used g c ρ) ∧ g ≠ gen_of name)
    | Some (Alloc_done n (In_table i)) => n = name ∧
        ((fresh x' name i ∧ given_back (lA x) (lA x') tentry) ∨ (x' = x ∧ tentry = None ∧ ∃ ρ, refers x (In_table i) name ρ))
    | _ => False
    end).
Proof using Hsizes HF.
  intros HI Hheld Hname Hidx Htentry. destruct x as [A σ its s hs vs m held]. lcbn. subst held. set (x := L A σ its s hs vs m None) in *.
  pose proof (li_space _ _ _ _ _ HI) as Hsi. pose proof Hsi as [Ht [fl Hfl] Hl Htr Hu Hso]. unfold infos_of, x in *. lcbn.
  unfold lwp, kst. lcbn. apply wp_bind, wp_K_space_of. set (index := MACH_PORT_INDEX name) in *.
  assert (vfind vs name = v ← vs !z index; vright v (gen_of name)) as Hvf by done.
  destruct (Z.ltb_spec index (is_table_size s)) as [Hlt|Hge]; cbn [negb].
  2: { apply wp_ret. exists x. split; [done|]. split; [done|]. split; [done|]. split; [done|]. split; [done|]. split; [|lia].
    rewrite Hvf. destruct (vs !z index) eqn:Hv; [|done]. pose proof (table_in _ _ _ _ _ Ht Hv). lia. }
  destruct (table_range _ _ _ index Ht) as [v Hv]; [lia|]. destruct (table_view _ _ _ _ _ Ht Hv) as (e & He & Hev).
  eapply wp_bind, wp_K_entry; [done|]. rewrite (proj2 (Z.eqb_neq index 0)) by lia. rewrite Hv in Hvf. cbn [mbind option_bind] in Hvf. destruct v as [g|g c ρ].
  - rewrite (entry_free _ _ Hev). cbn [negb]. apply wp_bind, wp_gets.
    assert (index ∈ fl) as Hin by (apply Hfl; split_and!; [lia|done|by eauto]). apply list_elem_of_split in Hin as (pre & post & Hsplit).
    assert (0 = stop 0 []) as -> by done. apply wp_bind. eapply (wp_rip_loop _ _ _ _ _ vs fl [] pre); [done|done|done| |].
    { pose proof (free_length _ _ _ Ht Hfl) as Hlen. rewrite Hsplit, length_app in Hlen. cbn in Hlen. lia. }
    cbn [app]. subst fl. assert (∃ ep, is_table s !z stop 0 pre = Some ep) as [ep Hep].
    { destruct Hfl as (_ & _ & Hin). assert (stop 0 pre = 0 ∨ stop 0 pre ∈ pre ++ index :: post) as [Hz|(_ & _ & g' & Hv')%Hin] by (pose proof (stop_elem 0 pre); set_solver).
      - rewrite Hz. destruct (table_view _ _ _ _ _ Ht (ta_zero _ _ _ Ht)) as (e' & He' & _). eauto.
      - destruct (table_view _ _ _ _ _ Ht Hv') as (e' & He' & _). eauto. }
    pose proof (space_unlink _ _ _ _ _ _ pre index post g (gen_of name) ep e Hsi Hfl Hv (gen_of_ok name) Hep He) as Hsi'.
    assert (stop 0 pre ≠ index) as Hne.
    { destruct Hfl as (_ & Hnd & Hin). rewrite <- Permutation_middle in Hnd. apply NoDup_cons in Hnd as [Hnot _]. intros Heq.
      pose proof (stop_elem 0 pre). rewrite Heq in *. set_solver by lia. }
    pose proof (zlookup_range _ _ _ Hep) as [Hp0 _].
    eapply wp_bind, wp_K_update_entry; [done|]. set (s1 := set_entry (with_next (ie_next e) ep) (stop 0 pre) s) in *.
    assert (is_table s1 !z index = Some e) as He1 by (destruct (set_entry_other s index e (stop 0 pre) (with_next (ie_next e) ep)); [done|done|done|lia]).
    eapply wp_bind, wp_K_update_entry; [done|]. rewrite MACH_PORT_GEN_eq.
    set (s2 := set_entry _ index s1) in *. apply wp_bind, wp_assert; [destruct Hev as (_ & _ & Ho); by rewrite Ho|]. rewrite (ta_fast _ _ _ Ht).
    set (x1 := L A σ its s2 hs (zupdate index (Free (gen_of name)) vs) m (Some (In_table index))).
    assert (linv x1) as HI1 by (by eapply linv_table).
    assert (∀ n, names x1 n = names x n) as Hn1 by (intros n; by eapply find_free).
    apply (lwp_bind sizes sp ss F X0 _ _ x1). eapply lwp_mono; [apply wp_free_tentry; [done|]; intros l Hl'; by apply Htentry|].
    intros _ x2 HI2 (G & Es & Ev & Em & Eh & En). apply wp_ret. exists x2. split; [done|]. split; [done|]. split; [by rewrite Es|].
    split; [intros n; by rewrite En|]. split; [done|]. left. split; [|done]. unfold fresh. rewrite Eh, Es, Ev. unfold x1. lcbn.
    split_and!; [done|lia|unfold s2; by rewrite (next_of_set s1 index e), decide_True by done|]. exists (gen_of name).
    rewrite zlookup_update by (by eapply zlookup_range). split; [done|]. split; [apply gen_of_ok|apply name_split].
  - rewrite (entry_used _ _ _ _ Hev). cbn [negb]. pose proof Hev as (Hg & [Hrb _] & Hbits & _). rewrite Hbits, mkbits_gen, gen_test by done.
    cbn [vright] in Hvf. case_bool_decide as Hgen.
    + rewrite decide_True in Hvf by done. assert (tentry = None) as ->. { destruct tentry as [l|]; [|done]. destruct (Htentry l eq_refl). congruence. }
      apply wp_bind, wp_assert; [done|]. apply wp_ret. exists x. split; [done|]. split; [done|]. split; [done|]. split; [done|]. split; [done|].
      right. split; [done|]. split; [done|]. exists ρ. split; [done|]. exists c. cbn. congruence.
    + apply wp_ret. exists x. split; [done|]. split; [done|]. split; [done|]. split; [done|]. split; [done|].
      rewrite Hvf, decide_False by done. split; [done|]. eauto 7.
Qed.

(** ** A given name in the tree *)

Definition no_right : right := Right 0 IO_NULL 0.

Lemma no_right_send : ¬ is_send no_right.
Proof. by intros [? _]. Qed.

Lemma tree_ok_insert s s' vs vs' m X n e :
  tree_ok sizes sp s vs m X None → m !! n = None → (∀ k, m !! k ≠ Some e) → tree_name n →
  is_table_size s' = is_table_size s → is_table_next s' = is_table_next s → is_tree_total s' = is_tree_total s + 1 →
  is_tree_hash s' = is_tree_hash s →
  (∀ nsize, sizes !! is_table_next s = Some nsize → is_tree_small s' = Z.of_nat (size (indices (<[n := e]> m) (is_table_size s) nsize))) →
  (∀ j, j ≠ MACH_PORT_INDEX n ∨ is_table_size s ≤ j → vs' !z j ≫= coll = vs !z j ≫= coll) →
  (MACH_PORT_INDEX n < is_table_size s → ∃ g, vs' !z MACH_PORT_INDEX n ≫= coll = Some g ∧ g ≠ gen_of n ∧
     ∀ g', vs !z MACH_PORT_INDEX n ≫= coll = Some g' → g' = g) →
  tree_ok sizes sp s' vs' (<[n := e]> m) (<[e := (no_right, sp)]> X) (Some (In_tree e)).
Proof.
  intros [T1 T2 T3 T4 T5 T6 T7 T8] Hn He Hname E1 E2 E3 E4 Hsmall Hviews Hat. split; rewrite ?E1, ?E2, ?E3, ?E4.
  - intros k k' l [[<- <-]|[Hk Hkl]]%lookup_insert_Some [[<- Heq]|[Hk' Hkl']]%lookup_insert_Some; [done|by destruct (He k')| |by eapply T1].
    subst l. by destruct (He k).
  - intros k l [[<- <-]|[Hk Hkl]]%lookup_insert_Some; [done|by eapply T2].
  - intros k l [[<- <-]|[Hk Hkl]]%lookup_insert_Some; [exists no_right; rewrite lookup_insert_eq; auto|].
    destruct (T3 k l Hkl) as (ρ & HX & [?|?]); [done|]. exists ρ. rewrite lookup_insert_ne; [auto|]. intros <-. by destruct (He k).
  - intros k l Hkl Hlt. assert (k = n ∨ m !! k = Some l) as [->|Hold] by (apply lookup_insert_Some in Hkl; naive_solver).
    { destruct (Hat Hlt) as (g & Hg & Hgn & _). eauto. }
    destruct (decide (MACH_PORT_INDEX k = MACH_PORT_INDEX n)) as [Heq|Hne].
    + rewrite Heq in *. destruct (Hat Hlt) as (g & Hg & _ & Hsame). destruct (T4 k l Hold) as (g' & Hg' & Hne); [by rewrite Heq|].
      rewrite Heq in Hg'. apply Hsame in Hg' as ->. eauto.
    + rewrite Hviews by (by left). by eapply T4.
  - intros i g Hg. apply has_index_insert. destruct (decide (i = MACH_PORT_INDEX n)) as [->|Hne]; [by left|].
    right. rewrite Hviews in Hg by (by left). by eapply T5.
  - rewrite T6, map_size_insert_None by done. lia.
  - done.
  - rewrite T8. do 2 f_equal. apply map_eq. intros k. apply option_eq. intros l. rewrite !map_lookup_filter_Some, lookup_insert_Some.
    unfold sending. cbn. destruct (decide (l = e)) as [->|Hne].
    + rewrite lookup_insert_eq. pose proof no_right_send. pose proof (He k). naive_solver.
    + rewrite lookup_insert_ne by done. naive_solver.
Qed.

Lemma find_inserted s vs m X n e k :
  table_ok sizes s vs → tree_ok sizes sp s vs m X None → (∀ k, m !! k ≠ Some e) → vfind vs n = None →
  find vs (<[n := e]> m) (<[e := (no_right, sp)]> X) k = put n (Some no_right) (find vs m X) k.
Proof.
  intros Ht Htr He Hvf. unfold find, put, tfind. case_decide as Hk; [subst k|].
  - rewrite Hvf, lookup_insert_eq. cbn. by rewrite lookup_insert_eq.
  - destruct (vfind vs k); [done|]. rewrite lookup_insert_ne by done. destruct (m !! k) as [l|] eqn:Hl; [|done]. cbn.
    rewrite lookup_insert_ne; [done|]. intros <-. by destruct (He k).
Qed.

Definition with_tree (A : spec) (m : gmap Z loc) (n : Z) (e : loc) : spec :=
  Spec (<[is_tree sp := Some (<[n := e]> m)]> (trees A)) (spare A ∖ {[e]}) (zone A).

Lemma kept_insert A m n e : tree_at A (is_tree sp) = Some m → m !! n = None → kept A (with_tree A m n e).
Proof.
  intros Hm Hn. split; [|split].
  - intros l [?|[Hl|(sp' & mm & k & Hmm & Hk)]]; [by left| |].
    + destruct (decide (l = e)) as [->|Hne]; [|right; left; cbn; set_solver]. right; right. exists sp, (<[n := e]> m), n.
      split; [apply tree_at_with|apply lookup_insert_eq].
    + right; right. destruct (decide (sp' = sp)) as [->|Hne].
      * assert (mm = m) as -> by congruence. exists sp, (<[n := e]> m), k. split; [apply tree_at_with|]. by rewrite lookup_insert_ne by (intros ->; congruence).
      * exists sp', mm, k. split; [|done]. rewrite <- Hmm. unfold tree_at. cbn. by rewrite lookup_insert_ne by (by intros ?%is_tree_inj).
  - intros v Hv. cbn. destruct (decide (is_tree sp = v)) as [<-|]; [by rewrite lookup_insert_eq|by rewrite lookup_insert_ne].
  - intros sp' Hne. unfold tree_at. cbn. by rewrite lookup_insert_ne by (by intros ?%is_tree_inj).
Qed.

Lemma linv_inserted A σ σ' its s s' hs vs vs' m n e t :
  linv (L A σ its s hs vs m None) → e ∈ spare A → m !! n = None → trees_are σ' (with_tree A m n e) None →
  right_of t = no_right → ite_space t = sp →
  space_inv sizes sp s' vs' (<[n := e]> m) (<[e := (no_right, sp)]> (info <$> its)) (Some (In_tree e)) →
  linv (L (with_tree A m n e) σ' (<[e := t]> its) s' hs vs' (<[n := e]> m) (Some (In_tree e))).
Proof using Hsizes HF.
  intros HI Hsp Hn Hσ' Hr Ht Hsi. pose proof HI as [L1 L2 L3 L4 L5 L6 L7 L8]. unfold infos_of in *. lcbn.
  assert (info <$> <[e := t]> its = <[e := (no_right, sp)]> (info <$> its)) as Hi by (by apply info_insert).
  assert (∀ s0 m0 k l, tree_at A s0 = Some m0 → m0 !! k = Some l → l ≠ e) as Hne.
  { intros s0 m0 k l Hm0 Hk ->. by destruct (trees_spare _ _ _ L1 _ _ _ _ Hm0 Hk) as [? _]. }
  assert (∀ e', here sp (<[n := e]> m) (<[e := (no_right, sp)]> (info <$> its)) e' ↔ here sp m (info <$> its) e') as Hhere.
  { intros e'. unfold here. split; intros (k & ρ & Hk & HX & Hs).
    - destruct (decide (e' = e)) as [->|Hne']; [rewrite lookup_insert_eq in HX; injection HX as <-; by apply no_right_send in Hs|].
      rewrite lookup_insert_ne in HX by done. apply lookup_insert_Some in Hk as [[_ ?]|[_ ?]]; [done|]. by exists k, ρ.
    - assert (e' ≠ e) by (by eapply Hne). exists k, ρ. rewrite !lookup_insert_ne by (done || by intros ->; simplify_eq). done. }
  split; unfold infos_of; lcbn; rewrite ?Hi; try done.
  - unfold tree_at. cbn. by rewrite lookup_insert_eq.
  - intros v Hv. cbn. rewrite lookup_insert_ne by (by apply is_tree_local). by apply L3.
  - intros l [Hl Hle]%elem_of_difference. rewrite lookup_insert_ne by set_solver. by apply L4.
  - destruct L6 as [bs HB]. exists bs. eapply (buckets_ext _ _ (λ e', here sp m (info <$> its) e' ∨ elsewhere e')); [intros e'; cbn; by rewrite Hhere|].
    apply buckets_item; [done|]. intros [(k & ρ & Hk & _)|(sp' & m' & k & ρ & Hm' & Hk & _)]; [by apply (Hne _ _ _ _ L2 Hk)|].
    by apply (Hne _ _ _ _ (L7 _ _ Hm') Hk).
  - intros sp' m' Hm'. destruct (HF _ _ Hm') as [Hsp' _]. unfold tree_at. cbn. rewrite lookup_insert_ne by (by intros ?%is_tree_inj). by apply L7.
  - intros sp' m' k l Hm' Hk. rewrite lookup_insert_ne; [by eapply L8|]. apply not_eq_sym. by eapply Hne; [apply (L7 _ _ Hm')|].
Qed.

(** The end of a round that puts the name into the tree. *)
Definition in_tree_now (x x' : lst) (name : Z) (e : loc) : Prop :=
  flags (ls x') = flags (ls x) ∧ fresh_tree sp x' name e ∧ spare (lA x') = spare (lA x) ∖ {[e]} ∧ kept (lA x) (lA x') ∧
  ∀ n, names x' n = put name (Some no_right) (names x) n.

Section new_tree_entry.
Context (A : spec) (σ : ipc) (its : gmap loc ipc_tree_entry) (s : ipc_space) (hs : list (option loc)) (vs : list view) (m : gmap Z loc).
Context (name : Z) (e : loc).
Local Abbreviation x := (L A σ its s hs vs m None).
Hypothesis (HI : linv x) (Hname : tree_name name) (Hm : m !! name = None) (Hvf : vfind vs name = None) (He : e ∈ spare A).
Hypothesis (Hact : is_active s = true).

Local Abbreviation insert_last :=
  (_ ← in_tree (ipc_splay_tree_insert (is_tree sp) name e);
   t ← get_item e;
   _ ← put_item e (Ite IO_NULL 0 0 (ite_next t) sp);
   mret (Alloc_done name (In_tree e))).
Local Abbreviation inserted := (λ r k, ∃ x', k = kst x' ∧ linv x' ∧ r = Alloc_done name (In_tree e) ∧ in_tree_now x x' name e).

(** The table is ready for the entry, which goes into the tree. *)
Lemma wp_insert_last s' vs' σ' :
  trees_are σ' A None → table_ok sizes s' vs' → free_ok s' vs' None → local_ok s' vs' → flags s' = flags s →
  is_tree_total s' = is_tree_total s + 1 → is_tree_hash s' = is_tree_hash s →
  (∀ nsize, sizes !! is_table_next s = Some nsize → is_tree_small s' = Z.of_nat (size (indices (<[name := e]> m) (is_table_size s) nsize))) →
  (∀ j, j ≠ MACH_PORT_INDEX name ∨ is_table_size s ≤ j → vs' !z j ≫= coll = vs !z j ≫= coll) →
  (MACH_PORT_INDEX name < is_table_size s → ∃ g, vs' !z MACH_PORT_INDEX name ≫= coll = Some g ∧ g ≠ gen_of name ∧
     ∀ g', vs !z MACH_PORT_INDEX name ≫= coll = Some g' → g' = g) →
  (∀ n, vfind vs' n = vfind vs n) → wp insert_last (K sp ss σ' its s' hs) inserted.
Proof using All.
  intros Hσ1 Ht' Hfr' Hl' Hfl E3 E4 E5 Hviews Hat Hvf'. pose proof Hfl as [= F1 F2 F3 F4]. destruct (li_spare _ _ _ _ _ HI e He) as [t Ht].
  pose proof (li_space _ _ _ _ _ HI) as [Htb Hfr Hl Htr Hu Hso]. pose proof (li_trees _ _ _ _ _ HI) as Hσ. pose proof (li_tree _ _ _ _ _ HI) as Htree.
  unfold infos_of in *. lcbn. assert (∀ k, m !! k ≠ Some e) as Hnew by (intros k Hk; by destruct (trees_spare _ _ _ Hσ _ _ _ _ Htree Hk) as [? _]).
  assert (name_ok name) as Hok by (unfold name_ok, MACH_PORT_SMALLEST, MACH_PORT_LARGEST; destruct Hname as [? _]; unfold MACH_PORT_DEAD in *; lia).
  eapply wp_bind, wp_K_tree, wp_mono; [by apply (trees_insert σ' A None Hσ1 (is_tree sp) m)|]. intros u σ2 Hσ2. cbn beta in Hσ2. clear u.
  eapply wp_bind, wp_K_item; [done|]. eapply wp_bind, wp_K_put_item; [done|]. apply wp_ret.
  assert (∀ n, find vs' (<[name := e]> m) (<[e := (no_right, sp)]> (info <$> its)) n = put name (Some no_right) (find vs m (info <$> its)) n) as Hfind.
  { intros n. rewrite <- (find_inserted s vs m (info <$> its) name e n) by done. unfold find. by rewrite Hvf'. }
  set (t' := Ite IO_NULL 0 0 (ite_next t) sp). assert (right_of t' = no_right) as Hr by done.
  eexists. split; [|split; [eapply (linv_inserted A σ σ2 its s s' hs vs vs' m name e t'); try done|]]; [done| |].
  - split; [done|by eapply free_ok_held; [|exact Hfr']|done| | |].
    + eapply tree_ok_insert; done.
    + eapply unique_ext; [exact Hfind|]. apply unique_put; [done|]. intros Hs. by apply no_right_send in Hs.
    + intros n ρ. rewrite Hfind. unfold put. destruct (decide (n = name)) as [Hn|Hn]; intros Hn' Hty.
      { right. cbn. rewrite Hn. by rewrite lookup_insert_eq. }
      destruct (Hso n ρ Hn' Hty) as [?|[]]. by left.
  - split; [done|]. unfold in_tree_now, fresh_tree. split_and!; try done; lcbn; [by rewrite lookup_insert_eq| |by apply kept_insert|].
    + unfold infos_of. lcbn. rewrite (info_insert sp its e t' no_right) by done. by rewrite lookup_insert_eq.
    + intros n. unfold names, infos_of. lcbn. rewrite (info_insert sp its e t' no_right) by done. exact (Hfind n).
Qed.

Lemma small_after_insert nsize :
  sizes !! is_table_next s = Some nsize →
  Z.of_nat (size (indices (<[name := e]> m) (is_table_size s) nsize)) =
    is_tree_small s + (if decide (is_table_size s ≤ MACH_PORT_INDEX name < nsize ∧ ¬ has_index m (MACH_PORT_INDEX name)) then 1 else 0).
Proof using All.
  intros Hn. pose proof (li_space _ _ _ _ _ HI) as [_ _ _ Htr _ _]. lcbn. rewrite (tr_small _ _ _ _ _ _ _ Htr nsize Hn).
  pose proof (size_indices_insert m name e (is_table_size s) nsize). case_decide; lia.
Qed.

(** Beyond the table nothing but the counters changes. *)
Lemma wp_insert_beyond s' σ' :
  is_table_size s ≤ MACH_PORT_INDEX name → trees_are σ' A None → is_table s' = is_table s → is_fast s' = is_fast s → flags s' = flags s →
  is_tree_total s' = is_tree_total s + 1 → is_tree_hash s' = is_tree_hash s →
  (∀ nsize, sizes !! is_table_next s = Some nsize → is_tree_small s' = Z.of_nat (size (indices (<[name := e]> m) (is_table_size s) nsize))) →
  wp insert_last (K sp ss σ' its s' hs) inserted.
Proof using All.
  intros Hge Hσ' E1 E2 Hfl E3 E4 E5. pose proof Hfl as [= F1 F2 F3 F4]. pose proof (li_space _ _ _ _ _ HI) as [Htb Hfr Hl Htr Hu Hso].
  destruct (same_table sizes s s' vs None E1 F3 F4 E2) as (S1 & S2 & S3). apply (wp_insert_last s' vs σ'); auto. lia.
Qed.

(** In the table the entry of another generation gets the collision bit. *)
Lemma wp_insert_collision g c ρ :
  MACH_PORT_INDEX name < is_table_size s → vs !z MACH_PORT_INDEX name = Some (Used g c ρ) → g ≠ gen_of name →
  wp (_ ← update_entry sp (MACH_PORT_INDEX name) (λ e, with_bits (Z.lor (ie_bits e) IE_BITS_COLLISION) e); insert_last)
    (K sp ss σ its (add_total 1 s) hs) inserted.
Proof using All.
  intros Hlt Hv Hg. pose proof (li_space _ _ _ _ _ HI) as [Htb Hfr Hl Htr _ _]. pose proof (li_trees _ _ _ _ _ HI) as Hσ. lcbn.
  set (idx := MACH_PORT_INDEX name) in *. set (s1 := add_total 1 s).
  destruct (same_table sizes s s1 vs None eq_refl eq_refl eq_refl eq_refl) as (S1 & S2 & S3). destruct (table_view _ _ _ _ _ Htb Hv) as (e1 & He1 & Hev).
  pose proof Hev as (Hg1 & Hok1 & Hb1 & Ho1 & Hq1). pose proof (zlookup_range _ _ _ Hv) as Hr. assert (0 < idx) as Hn2 by apply Hname.
  eapply wp_bind, wp_K_update_entry; [done|]. rewrite Hb1, mkbits_set.
  apply (wp_insert_last _ (zupdate idx (Used g true ρ) vs) σ); try done.
  - eapply table_ok_set; [by apply S1|done| |left; lia]. split; [done|]. split; [done|]. by split_and!.
  - eapply (free_ok_keep s1); [by apply S2|done|by intros|by intros|done|lia|]. intros j Hj. rewrite (next_of_set s1 idx e1) by done. by rewrite decide_False.
  - eapply local_ok_set; [by apply S3|done|done|done|done|by right].
  - intros nsize Hn. rewrite (small_after_insert nsize Hn), decide_False by lia. cbn. lia.
  - intros j Hj. destruct (decide (j = idx)) as [->|Hne]; [lia|]. by rewrite zlookup_update_ne by lia.
  - intros _. exists g. fold idx. rewrite zlookup_update by done. split; [done|]. split; [done|]. intros g'. rewrite Hv. cbn. destruct c; congruence.
  - intros n. by apply (coll_vright (Used g c ρ)).
Qed.
End new_tree_entry.

Lemma wp_alloc_name_tree x name e :
  linv x → lheld x = None → tree_name name → lm x !! name = None → vfind (lvs x) name = None → e ∈ spare (lA x) → is_active (ls x) = true →
  (MACH_PORT_INDEX name < is_table_size (ls x) → ∃ g c ρ, lvs x !z MACH_PORT_INDEX name = Some (Used g c ρ) ∧ g ≠ gen_of name) →
  lwp (alloc_name_tree sizes sp name e) x (λ r x', r = Alloc_done name (In_tree e) ∧ in_tree_now x x' name e).
Proof using Hsizes HF.
  intros HI Hheld Hname Hm Hvf He Hact Hused. destruct x as [A σ its s hs vs m held]. lcbn. subst held.
  pose proof (li_space _ _ _ _ _ HI) as [Htb _ _ Htr _ _]. pose proof (li_trees _ _ _ _ _ HI) as Hσ. pose proof (li_tree _ _ _ _ _ HI) as Htree. lcbn.
  destruct (ta_more _ _ _ Htb) as [nsize Hns].
  pose proof (small_after_insert A σ its s hs vs m name e HI Hname Hm Hvf He Hact nsize Hns) as Hsm.
  pose proof (wp_insert_beyond A σ its s hs vs m name e HI Hname Hm Hvf He Hact) as Hbeyond.
  unfold lwp, kst. lcbn. apply wp_bind, wp_K_space_of. eapply wp_bind, wp_its_size; [done|]. apply wp_bind, wp_K_update.
  destruct (Z.ltb_spec (MACH_PORT_INDEX name) (is_table_size s)) as [Hlt|Hge].
  { destruct (Hused Hlt) as (g & c & ρ & Hv & Hg). by apply (wp_insert_collision A σ its s hs vs m name e HI Hname Hm Hvf He Hact g c ρ). }
  apply wp_bind. destruct (Z.ltb_spec (MACH_PORT_INDEX name) nsize) as [Hlt|Hge'].
  - apply wp_bind. eapply wp_tree_collision; [done|done| |done|].
    { intros n [l Hn]. by eapply (tr_name _ _ _ _ _ _ _ Htr). }
    intros σ1 Hσ1. case_bool_decide as Hidx.
    + rewrite decide_False in Hsm by tauto. apply wp_ret. apply Hbeyond; try done. intros nsize' Hn'. simplify_eq. cbn. lia.
    + rewrite decide_True in Hsm by (split; [lia|done]). apply wp_K_update. apply Hbeyond; try done. intros nsize' Hn'. by simplify_eq.
  - rewrite decide_False in Hsm by lia. apply wp_ret. apply Hbeyond; try done. intros nsize' Hn'. simplify_eq. cbn. lia.
Qed.

(** ** A round of [ipc_entry_alloc_name] *)

(** The entry is there, it is made in the table, or the given one is put into the tree. *)
Definition named (x x' : lst) (name : Z) (tentry : option loc) (ref : entry_ref) : Prop :=
  (∃ ρ, refers x' ref name ρ ∧ lheld x' = None ∧ given_back (lA x) (lA x') tentry ∧ ∀ n, names x' n = names x n) ∨
  (∃ i, ref = In_table i ∧ fresh x' name i ∧ given_back (lA x) (lA x') tentry ∧ ∀ n, names x' n = names x n) ∨
  (∃ e, tentry = Some e ∧ ref = In_tree e ∧ names x name = None ∧ in_tree_now x x' name e).

(** The search in the tree. *)
Lemma wp_tentry2 A σ its s hs vs m name (Q : option loc → kernel → Prop) :
  let x := L A σ its s hs vs m None in
  linv x → (∀ σ', trees_are σ' A None → Q (m !! name) (K sp ss σ' its s hs)) →
  wp (if 0 <? is_tree_total s then in_tree (ipc_splay_tree_lookup (is_tree sp) name) else mret None) (kst x) Q.
Proof.
  intros x HI HQ. pose proof (li_trees _ _ _ _ _ HI) as Hσ. destruct (Z.ltb_spec 0 (is_tree_total s)) as [Hpos|Hz].
  - eapply wp_K_tree, wp_mono; [apply (trees_lookup _ _ _ Hσ); apply HI|]. intros r σ' [Hσ' ->]. by apply HQ.
  - apply wp_ret. destruct (m !! name) as [e|] eqn:He; [|by apply HQ].
    pose proof (tree_counted _ _ _ _ x name e HI He). unfold x in *. lcbn. lia.
Qed.

Lemma wp_entry_alloc_name x name tentry :
  linv x → lheld x = None → tree_name name → 0 < MACH_PORT_INDEX name → MACH_PORT_VALID name = true →
  (∀ e, tentry = Some e → e ∈ spare (lA x) ∧ vfind (lvs x) name = None) →
  lwp (ipc_entry_alloc_name sizes sp name tentry) x (λ r x',
    match r with
    | Alloc_done n ref => n = name ∧ is_active (ls x) = true ∧ flags (ls x') = flags (ls x) ∧ named x x' name tentry ref
    | Alloc_failed kr => kr = KERN_INVALID_TASK ∧ is_active (ls x) = false ∧ ls x' = ls x ∧ lheld x' = None ∧
        given_back (lA x) (lA x') tentry ∧ ∀ n, names x' n = names x n
    | Alloc_grow g => is_active (ls x) = true ∧ lA x' = lA x ∧ lheld x' = None ∧ (∀ n, names x' n = names x n) ∧
        g ≠ Grow_return KERN_NO_SPACE false ∧ grow_decided sizes (ls x) (ls x') None g
    | Alloc_item => is_active (ls x) = true ∧ tentry = None ∧ still x x' ∧ names x name = None
    end).
Proof using Hsizes HF.
  intros HI Hheld Hname Hidx Hvalid Htentry. apply wp_bind, wp_assert; [done|]. apply wp_bind, wp_K_space_of.
  destruct (is_active (ls x)) eqn:Hact; cbn [negb].
  2: { apply lwp_bind. eapply lwp_mono; [apply wp_free_tentry; [done|]; intros e He; by apply Htentry|].
    intros _ x' HI' (G & Es & Ev & Em & Eh & En). apply wp_ret. exists x'. rewrite Eh. by split_and!. }
  apply lwp_bind. eapply lwp_mono; [by apply wp_alloc_name_table; [..|destruct Hname; lia| |]|]. intros [a|] x1 HI1 (Hfl & Hn & Hr).
  { apply wp_ret. exists x1. destruct a as [n [i|]| | |]; try done. destruct Hr as [-> [[Hfresh G]|(-> & -> & ρ & Href)]]; split_and!; try done.
    - right; left. by exists i.
    - left. by exists ρ. }
  destruct Hr as (-> & Hvf & Hused). clear HI1 Hfl Hn. pose proof (li_space _ _ _ _ _ HI) as [Ht _ _ Htr _ _].
  rewrite (ta_fast _ _ _ Ht). destruct x as [A σ its s hs vs m held]. lcbn. subst held. unfold infos_of in *. lcbn.
  apply wp_bind. apply (wp_tentry2 A σ its s hs vs m name); [done|]. intros σ' Hσ'. set (x' := L A σ' its s hs vs m None).
  assert (linv x') as HI' by (by eapply linv_memory). destruct (m !! name) as [e|] eqn:He.
  - destruct (tr_info _ _ _ _ _ _ _ Htr _ _ He) as (ρ & HX & [?|[Hb Hok]]); [done|].
    destruct (item_info _ _ _ _ HX) as (t & Ht' & Hρ & Hsp). eapply wp_bind, wp_K_item; [done|].
    apply wp_bind, wp_assert; [by rewrite bool_decide_true|].
    apply wp_bind, wp_assert. { assert (ite_bits t = r_bits ρ) as -> by (by rewrite <- Hρ). unfold no_type. by rewrite (proj2 (Z.eqb_neq _ _)). }
    apply (lwp_bind sizes sp ss F X0 _ _ x'). eapply lwp_mono; [apply wp_free_tentry; [done|]; intros l Hl; by apply Htentry|].
    intros _ x2 HI2 (G & Es & Ev & Em & Eh & En). apply wp_ret. exists x2. split_and!; [done|done|done|done|by rewrite Es|].
    left. exists ρ. split; [|done]. destruct (names_Some x2 name ρ) as [(c & Hc)|(e' & sp' & He' & HX')].
    + rewrite En. unfold names, find, x', infos_of. lcbn. rewrite Hvf. unfold tfind. rewrite He. cbn. by rewrite HX.
    + exfalso. rewrite Ev in Hc. unfold vfind in Hvf. unfold x' in Hc. lcbn. rewrite Hc in Hvf. cbn in Hvf. by rewrite decide_True in Hvf.
    + cbn. rewrite Em in *. unfold x' in He'. lcbn. assert (e' = e) as -> by congruence. split; [done|].
      by rewrite <- (tree_owner _ _ _ _ x2 name e ρ sp' HI2) by (rewrite ?Em; done).
  - destruct (ta_more _ _ _ Ht) as [next Hnext]. eapply wp_bind, wp_its_size; [done|]. cbv zeta. set (index := MACH_PORT_INDEX name) in *.
    destruct ((is_table_size s <=? index) && (index <? next) && ((next - is_table_size s) * 16 <? (is_tree_small s + 1) * 32)) eqn:Htest.
    + apply wp_bind. eapply (wp_grow_begin _ _ _ _ vs); [done..|]. intros g s' Hg.
      assert (g ≠ Grow_return KERN_NO_SPACE false) as Hg'. { intros ->. destruct Hg as (_ & _ & Hfull). rewrite Hnext in Hfull. injection Hfull. lia. }
      apply wp_bind, wp_assert; [by rewrite bool_decide_false|]. apply wp_ret. eexists (L A σ' its s' hs vs m None).
      split; [done|]. split; [by eapply grow_decided_linv|]. by split_and!.
    + assert (names (L A σ its s hs vs m None) name = None) as Hnone by (unfold names, find; lcbn; rewrite Hvf; unfold tfind; by rewrite He).
      destruct tentry as [e|]; [|apply wp_ret; exists x'; by split_and!].
      eapply (lwp_mono sizes sp ss F X0 _ x'); [apply (wp_alloc_name_tree x'); try done; by apply Htentry|]. intros r x2 HI2 [-> Hin].
      split_and!; [done|done|apply Hin|]. right; right. exists e. by split_and!.
Qed.

End alloc.
