(* ===== verification/IpcEntryGrow.v ===== *)
(** * xnu IPC spaces: growing the table

    The second section of [ipc_entry_grow_table]: the old entries are put into the
    new reverse hash, tree entries whose index fits now move into the table, the
    names that will fit next time are counted, and the rest of the new part goes to
    the free list.  The names of the space are the same throughout. *)

From Stdlib Require Import ZifyBool.
From S2P Require Import Prelude IpcSplay IpcSplayTree IpcSplayOps IpcSplayCorrect IpcForest IpcHash IpcEntry IpcEntryInv IpcHashGlobal IpcEntryOps IpcEntryDealloc IpcEntryAlloc.

Import Entry.

(** A loop over a range of indices. *)
Lemma wp_for_range {S} (f : Z → M S unit) (I : Z → S → Prop) lo n s :
  0 ≤ n → I lo s → (∀ i s, lo ≤ i < lo + n → I i s → wp (f i) s (λ _ s', I (i + 1) s')) →
  wp (for_M (seqZ lo n) f) s (λ _ s', I (lo + n) s').
Proof.
  intros Hn. remember (Z.to_nat n) as k eqn:Hk. induction k as [|k IH] in lo, n, s, Hn, Hk |- *; intros HI Hf.
  - assert (n = 0) as -> by lia. apply wp_ret. by rewrite Z.add_0_r.
  - rewrite seqZ_cons by lia. apply wp_bind. eapply wp_mono; [apply Hf; [lia|done]|]. intros [] s' HI'.
    replace (lo + n) with (Z.succ lo + Z.pred n) by lia. apply IH; [lia|lia|done|]. intros i s0 Hi. apply Hf. lia.
Qed.

(** ** The new table *)

(** New entries are like free ones of generation 0, but in no list. *)
Definition new_views (vs : list view) (osize size : Z) : list view := vs ++ replicate (Z.to_nat (size - osize)) (Free 0).

Lemma new_views_old vs osize size i : osize = Z.of_nat (length vs) → i < osize → new_views vs osize size !z i = vs !z i.
Proof.
  intros -> Hi. unfold new_views. destruct (decide (i < 0)); [unfold zlookup; by case_match; [|lia]|]. apply zlookup_app_l. lia.
Qed.
Lemma new_views_new vs osize size i v : osize = Z.of_nat (length vs) → osize ≤ i → new_views vs osize size !z i = Some v → v = Free 0.
Proof.
  intros -> Hi. unfold new_views. rewrite zlookup_app_r by done. unfold zlookup. case_match; [done|].
  intros [-> _]%lookup_replicate_1. done.
Qed.
Lemma new_views_is vs osize size i : osize = Z.of_nat (length vs) → osize ≤ i < size → new_views vs osize size !z i = Some (Free 0).
Proof.
  intros Ho Hi. destruct (zlookup_lt (new_views vs osize size) i) as [v Hv].
  - unfold new_views. rewrite length_app, length_replicate. lia.
  - pose proof (new_views_new vs osize size i v Ho). naive_solver lia.
Qed.

Lemma vfind_new vs osize size n : osize = Z.of_nat (length vs) → vfind (new_views vs osize size) n = vfind vs n.
Proof.
  intros Ho. unfold vfind. destruct (decide (MACH_PORT_INDEX n < osize)) as [Hlt|Hge]; [by rewrite new_views_old|].
  destruct (new_views vs osize size !z MACH_PORT_INDEX n) as [v|] eqn:Hv.
  - apply new_views_new in Hv as ->; [|done|lia]. cbn. destruct (vs !z MACH_PORT_INDEX n) eqn:Hv'; [|done].
    apply zlookup_range in Hv'. lia.
  - destruct (vs !z MACH_PORT_INDEX n) eqn:Hv'; [|done]. apply zlookup_range in Hv'. lia.
Qed.

(** ** Parts of the tree, by index *)

Definition slice (lo hi : Z) (m : gmap Z loc) : gmap Z loc := filter (λ q, lo ≤ MACH_PORT_INDEX q.1 < hi) m.

Lemma slice_delete lo hi m n : ¬ (lo ≤ MACH_PORT_INDEX n < hi) → slice lo hi (delete n m) = slice lo hi m.
Proof. intros Hn. apply map_filter_delete_not. done. Qed.

Lemma slice_lookup lo hi m n : slice lo hi m !! n = if decide (lo ≤ MACH_PORT_INDEX n < hi) then m !! n else None.
Proof.
  unfold slice. case_decide as Hn; destruct (m !! n) as [e|] eqn:He.
  - by apply map_lookup_filter_Some.
  - apply map_lookup_filter_None. by left.
  - apply map_lookup_filter_None. by right.
  - apply map_lookup_filter_None. by left.
Qed.

Lemma slice_union lo mid hi m : lo ≤ mid ≤ hi → slice lo mid m ∪ slice mid hi m = slice lo hi m.
Proof.
  intros Hle. apply map_eq. intros n. rewrite lookup_union, !slice_lookup. destruct (m !! n); repeat case_decide; done || lia.
Qed.

Lemma slice_slice lo hi lo' hi' m : slice lo hi (slice lo' hi' m) = slice (lo `max` lo') (hi `min` hi') m.
Proof. apply map_eq. intros n. rewrite !slice_lookup. repeat case_decide; done || lia. Qed.

Lemma slice_all m : (∀ n, is_Some (m !! n) → tree_name n) → slice 0 (2 ^ 24) m = m.
Proof.
  intros Hm. apply map_eq. intros n. rewrite slice_lookup. case_decide as Hn; [done|]. destruct (m !! n) as [e|] eqn:He; [|done]. exfalso.
  destruct (Hm n (mk_is_Some _ _ He)) as [Hr Hi]. apply Hn. unfold MACH_PORT_DEAD in Hr. destruct (index_range n); lia.
Qed.

Lemma slice_below i lo hi m : lo ≤ i ≤ hi → filter (λ q, q.1 < mkname i 0) (slice lo hi m) = slice lo i m.
Proof.
  intros Hi. unfold slice. rewrite map_filter_filter. apply filter_iff. intros [k l]. cbn. pose proof (index_lt_mkname k i). lia.
Qed.
Lemma slice_above i lo hi m : lo ≤ i ≤ hi → filter (λ q, mkname i 0 ≤ q.1) (slice lo hi m) = slice i hi m.
Proof.
  intros Hi. unfold slice. rewrite map_filter_filter. apply filter_iff. intros [k l]. cbn. pose proof (index_lt_mkname k i). lia.
Qed.

Lemma slice_before lo mid hi m : map_before (slice lo mid m) (slice mid hi m).
Proof.
  intros k' e' [_ Hk']%map_lookup_filter_Some k e [_ Hk]%map_lookup_filter_Some. cbn in *. pose proof (index_mono k k'). lia.
Qed.

(** ** Free lists *)

(** The list [fl] from its first entry [i]. *)
Definition from (s : ipc_space) (i : Z) (fl : list Z) : Prop :=
  match fl with [] => i = 0 | j :: fl' => i = j ∧ chain s j fl' end.

Lemma chain_from s i fl : chain s i fl ↔ from s (next_of s i) fl.
Proof. destruct fl as [|j fl]; cbn; [|done]. unfold chain. cbn. tauto. Qed.

Lemma from_ext s s' i fl : (∀ j, j ∈ fl → next_of s' j = next_of s j) → from s i fl → from s' i fl.
Proof. destruct fl as [|j fl]; [done|]. intros Hext [-> Hc]. split; [done|]. by eapply free_chain_ext. Qed.

Lemma from_push s s' i fi fl : next_of s' i = fi → (∀ j, j ∈ fl → next_of s' j = next_of s j) → from s fi fl → from s' i (i :: fl).
Proof. intros Hi Hext Hf. split; [done|]. apply chain_from. rewrite Hi. by eapply from_ext. Qed.

(** Two states of the table that differ in free entries only. *)
Definition alike (s s' : ipc_space) (vs vs' : list view) : Prop :=
  flags s' = flags s ∧ tree_fields s' = tree_fields s ∧ (∀ i, vs' !z i ≫= coll = vs !z i ≫= coll) ∧ ∀ n, vfind vs' n = vfind vs n.

Lemma alike_trans s s1 s2 vs vs1 vs2 : alike s s1 vs vs1 → alike s1 s2 vs1 vs2 → alike s s2 vs vs2.
Proof. intros (A1 & A2 & A3 & A4) (B1 & B2 & B3 & B4). split_and!; [congruence|congruence|intros; by rewrite B3|intros; by rewrite B4]. Qed.

Section grow.
Context (sizes : list Z) (Hsizes : sizes_ok sizes) (sp : positive) (ss : gmap positive ipc_space).
Context (F : gmap positive (gmap Z loc)) (X0 : infos).
Hypothesis (HF : ∀ sp' m, F !! sp' = Some m → sp' ≠ sp ∧ ∀ n e, m !! n = Some e → ∃ ρ, X0 !! e = Some (ρ, sp')).

Local Abbreviation linv := (linv sizes sp F X0).
Local Abbreviation lwp := (lwp sizes sp ss F X0).
Local Abbreviation kst := (kst sp ss).
Local Abbreviation elsewhere := (elsewhere F X0).
Local Abbreviation refers := (refers sp).
Local Abbreviation kept := (kept sp).

(** The state with the new table. *)
Definition installed (s : ipc_space) (size : Z) (nits : nat) : ipc_space := set_table (grown_table (is_table s) size) size nits s.

Lemma installed_old s size nits i e :
  is_table s !z i = Some e → is_table (installed s size nits) !z i = Some (with_index 0 e).
Proof.
  intros He. pose proof (zlookup_range _ _ _ He). cbn. unfold grown_table. rewrite zlookup_app_l by (rewrite length_fmap; lia).
  by rewrite zlookup_fmap, He.
Qed.

Lemma next_of_installed s size nits i : 0 ≤ i < Z.of_nat (length (is_table s)) → next_of (installed s size nits) i = next_of s i.
Proof.
  intros Hi. destruct (zlookup_lt (is_table s) i Hi) as [e He].
  by rewrite (next_of_entry _ _ _ (installed_old s size nits i e He)), (next_of_entry _ _ _ He).
Qed.

Lemma table_ok_installed s vs size its nits :
  table_ok sizes s vs → sizes !! its = Some size → nits = S its → is_Some (sizes !! nits) → is_table_size s < size →
  table_ok sizes (installed s size nits) (new_views vs (is_table_size s) size).
Proof.
  intros [Hf Hn Hsz Hm Hl Hv Hz] Hsize -> Hnits Hlt. split; [done|cbn; lia|cbn; by rewrite Nat.sub_0_r|done| | |].
  - cbn. unfold grown_table. rewrite length_app, length_fmap, length_replicate. lia.
  - unfold grown_table, new_views. apply Forall2_app.
    + apply Forall2_fmap_l. eapply Forall2_impl; [done|]. intros. by apply entry_is_index.
    + replace (Z.to_nat size - length (is_table s))%nat with (Z.to_nat (size - is_table_size s)) by lia. by apply Forall2_replicate.
  - pose proof (zlookup_range _ _ _ Hz). rewrite new_views_old; [done| |]; rewrite Hl, (Forall2_length _ _ _ Hv); lia.
Qed.

(** ** The old entries are hashed again *)

Definition local_upto (k : Z) (s : ipc_space) (vs : list view) : Prop :=
  ∃ H, hash_inv s H ∧ ∀ obj i, H !! obj = Some i ↔ i < k ∧ vs !z i ≫= sends = Some obj.

Lemma local_upto_0 s vs : sized s → (∀ h, pos (is_table_size s) h → slot s h = 0) → local_upto 0 s vs.
Proof.
  intros Hs Hslot. exists ∅. split.
  - split; [done| |by intros h Hh []; apply Hslot|].
    + split; [intros h Hh Hne|intros h Hh Hne|intros h h' Hh _ Hne|intros h Hh Hne]; by rewrite Hslot in Hne.
    + intros obj i. split; [done|]. intros (Hi & _ & h & Hh & Hslot'). by rewrite Hslot in Hslot' by done.
  - intros obj i. split; [done|]. intros [Hi (v & Hv & _)%bind_Some]. apply zlookup_range in Hv. lia.
Qed.

Lemma slot_installed s vs size nits h : table_ok sizes s vs → 0 ≤ h → slot (installed s size nits) h = 0.
Proof.
  intros Ht Hh. rewrite slot_z by done. cbn. unfold grown_table.
  destruct (decide (h < Z.of_nat (length (is_table s)))) as [Hlt|Hge].
  - rewrite zlookup_app_l by (rewrite length_fmap; lia). rewrite zlookup_fmap. by destruct (is_table s !z h).
  - rewrite zlookup_app_r by (rewrite length_fmap; lia). unfold zlookup. case_match; [done|].
    destruct (replicate _ _ !! _) eqn:Hr; [|done]. by apply lookup_replicate_1 in Hr as [-> _].
Qed.

(** Two entries of the table do not send to one object. *)
Lemma views_unique s vs m X i j obj :
  table_ok sizes s vs → unique_sends (find vs m X) → vs !z i ≫= sends = Some obj → vs !z j ≫= sends = Some obj → i = j.
Proof.
  intros Ht Hu (v & Hv & (g & c & ρ & -> & Hs & Ho)%sends_Some)%bind_Some (v' & Hv' & (g' & c' & ρ' & -> & Hs' & Ho')%sends_Some)%bind_Some.
  destruct (table_view _ _ _ _ _ Ht Hv) as (e & _ & Hg & _). destruct (table_view _ _ _ _ _ Ht Hv') as (e' & _ & Hg' & _).
  assert (∀ k g c ρ, vs !z k = Some (Used g c ρ) → gen_ok g → find vs m X (mkname k g) = Some ρ) as Hfind.
  { intros k g1 c1 ρ1 Hk Hg1. unfold find, vfind. rewrite index_mkname, gen_mkname, Hk by done. cbn. by rewrite decide_True. }
  assert (mkname i g = mkname j g') as Heq by (eapply Hu; [by eapply Hfind..|done|done|congruence]).
  apply (f_equal MACH_PORT_INDEX) in Heq. by rewrite !index_mkname in Heq.
Qed.

Lemma wp_rehash σ its s hs vs m X i (s0 : ipc_space) :
  table_ok sizes s0 vs → unique_sends (find vs m X) → sound_sends None m (find vs m X) → 0 ≤ i < is_table_size s0 →
  unhashed s = unhashed s0 → local_upto i s vs →
  wp (rehash_entry sp i) (K sp ss σ its s hs) (λ _ k, ∃ s', k = K sp ss σ its s' hs ∧ unhashed s' = unhashed s0 ∧ local_upto (i + 1) s' vs).
Proof.
  intros Ht0 Hu Hso Hi Hs (H & Hinv & HH). assert (table_ok sizes s vs) as Ht by (by eapply table_ok_unhashed).
  pose proof (unhashed_size _ _ Hs) as Hsz. destruct (table_range _ _ _ i Ht0 Hi) as [v Hv].
  destruct (table_view _ _ _ _ _ Ht Hv) as (e & He & Hev). eapply wp_bind, wp_K_entry; [done|].
  assert (sends v = None → local_upto (i + 1) s vs) as Hnone.
  { intros Hn. exists H. split; [done|]. intros obj j. rewrite HH. split; [intros []; split; [lia|done]|].
    intros [Hj Hvj]. split; [|done]. assert (j ≠ i); [|lia]. intros ->. rewrite Hv in Hvj. cbn in Hvj. congruence. }
  assert (IE_BITS_TYPE (ie_bits e) = match v with Free _ => 0 | Used _ _ ρ => IE_BITS_TYPE (r_bits ρ) end) as Hty.
  { destruct v as [g|g c ρ]; [destruct Hev as (_ & -> & _); by rewrite gbits_mkbits, mkbits_type|].
    destruct Hev as (_ & [? _] & -> & _). by apply mkbits_type. }
  destruct (Z.eqb_spec (IE_BITS_TYPE (ie_bits e)) MACH_PORT_TYPE_SEND) as [Hsend|Hsend].
  - destruct v as [g|g c ρ]; [by rewrite Hsend in Hty|]. pose proof Hev as (Hg & Hρ & Hb & Hob & Hq).
    assert (find vs m X (mkname i g) = Some ρ) as Hf.
    { unfold find, vfind. rewrite index_mkname, gen_mkname, Hv by done. cbn. by rewrite decide_True. }
    assert (is_send ρ) as Hs'. { split; [congruence|]. destruct (Hso _ _ Hf) as [?|[]]; [congruence|done]. }
    assert (sends (Used g c ρ) = Some (r_object ρ)) as Hsv by (cbn; by rewrite decide_True).
    assert (0 < i) as Hpos. { destruct (decide (i = 0)) as [->|]; [|lia]. rewrite (ta_zero _ _ _ Ht) in Hv. done. }
    apply wp_K_space. eapply wp_mono; [apply (wp_local_insert s H); [done|rewrite Hob; apply Hs'|rewrite Hsz; lia| |]|].
    + rewrite objof_z by lia. by rewrite He.
    + destruct (H !! ie_object e) as [j|] eqn:Hj; [|done]. exfalso. apply HH in Hj as [Hlt Hj]. rewrite Hob in Hj.
      assert (j = i); [|lia]. eapply views_unique; [done..|]. by rewrite Hv.
    + intros _ s' [Hu' Hinv']. exists s'. split; [done|]. split; [congruence|]. exists (<[ie_object e := i]> H). split; [done|].
      intros obj j. rewrite lookup_insert_Some, HH, Hob. split.
      * intros [[<- <-]|(_ & ? & ?)]; [split; [lia|by rewrite Hv]|split; [lia|done]].
      * intros [Hj Hvj]. destruct (decide (j = i)) as [->|Hne]; [left; rewrite Hv in Hvj; cbn in Hvj, Hsv; split; [congruence|done]|].
        right. split; [|split; [lia|done]]. intros <-. apply Hne. eapply views_unique; [done..|]. by rewrite Hv.
  - apply wp_ret. exists s. split; [done|]. split; [done|]. apply Hnone. destruct v as [|g c ρ]; [done|]. cbn. rewrite decide_False; [done|].
    intros [? _]. congruence.
Qed.

(** ** Entries of the tree move into the table *)

(** The tree while the entries [todo] of it are still to be looked at: they have no
    collision bits yet. *)
Record moving (s : ipc_space) (vs : list view) (m : gmap Z loc) (X : infos) (todo : elist) : Prop := {
  mv_inj : ∀ n n' e, m !! n = Some e → m !! n' = Some e → n = n';
  mv_name : ∀ n e, m !! n = Some e → tree_name n;
  mv_info : ∀ n e, m !! n = Some e → ∃ ρ, X !! e = Some (ρ, sp) ∧ right_ok ρ;
  mv_below : ∀ n e, m !! n = Some e → n ∉ todo.*1 → MACH_PORT_INDEX n < is_table_size s →
    ∃ g, vs !z MACH_PORT_INDEX n ≫= coll = Some g ∧ g ≠ gen_of n;
  mv_todo : ∀ n, n ∈ todo.*1 → vs !z MACH_PORT_INDEX n = Some (Free 0) ∨
    ∃ g c ρ, vs !z MACH_PORT_INDEX n = Some (Used g c ρ) ∧ g ≠ gen_of n;
  mv_collision : ∀ i g, vs !z i ≫= coll = Some g → ∃ n e, m !! n = Some e ∧ MACH_PORT_INDEX n = i ∧ n ∉ todo.*1;
  mv_total : is_tree_total s = Z.of_nat (size m);
  mv_hash : is_tree_hash s = Z.of_nat (size (filter (sending X) m));
}.

Definition counts (s : ipc_space) : Z * Z * Z := (is_table_size s, is_tree_total s, is_tree_hash s).

Lemma moving_counts s s' vs m X todo : counts s' = counts s → moving s vs m X todo → moving s' vs m X todo.
Proof. intros [= E1 E2 E3] [M1 M2 M3 M4 M5 M6 M7 M8]. split; rewrite ?E1, ?E2, ?E3; done. Qed.

(** The place is taken by another generation: the entry stays. *)
Lemma moving_stay s vs m X n e todo g c ρ :
  moving s vs m X ((n, e) :: todo) → m !! n = Some e → n ∉ todo.*1 → vs !z MACH_PORT_INDEX n = Some (Used g c ρ) →
  g ≠ gen_of n ∧ moving s (zupdate (MACH_PORT_INDEX n) (Used g true ρ) vs) m X todo.
Proof.
  intros [M1 M2 M3 M4 M5 M6 M7 M8] Hn Hnew Hv. pose proof (zlookup_range _ _ _ Hv) as Hr.
  assert (g ≠ gen_of n) as Hg. { destruct (M5 n) as [?|(? & ? & ? & ? & ?)]; [set_solver|congruence..]. }
  split; [done|]. set (i := MACH_PORT_INDEX n) in *. split; try done.
  - intros k l Hk Hkt Hlt. destruct (decide (k = n)) as [->|Hne]; [rewrite zlookup_update by done; by exists g|].
    destruct (M4 k l Hk) as (g' & Hg' & Hgk); [set_solver|done|]. exists g'. split; [|done].
    destruct (decide (i = MACH_PORT_INDEX k)) as [Heq|Hi]; [|by rewrite zlookup_update_ne by lia].
    rewrite <- Heq in *. rewrite zlookup_update by done. rewrite Hv in Hg'. cbn in Hg' |- *. by destruct c.
  - intros k Hk. destruct (decide (i = MACH_PORT_INDEX k)) as [Heq|Hi].
    + rewrite <- Heq. rewrite zlookup_update by done. right. exists g, true, ρ. split; [done|].
      destruct (M5 k) as [Hf|(g1 & c1 & ρ1 & Hu & Hg1)]; [set_solver| |]; rewrite <- Heq in *; congruence.
    + rewrite zlookup_update_ne by lia. apply M5. set_solver.
  - intros j g' Hg'. destruct (decide (i = j)) as [<-|Hi]; [by exists n, e|]. rewrite zlookup_update_ne in Hg' by lia.
    destruct (M6 j g' Hg') as (k & l & Hk & Hj & Hkt). exists k, l. split_and!; [done|done|set_solver].
Qed.

(** The place is free: the entry moves. *)
Lemma moving_take s s' vs m X n e todo ρ :
  moving s vs m X ((n, e) :: todo) → m !! n = Some e → X !! e = Some (ρ, sp) → n ∉ todo.*1 → vs !z MACH_PORT_INDEX n = Some (Free 0) →
  counts s' = (is_table_size s, is_tree_total s - 1, is_tree_hash s - one ρ) →
  moving s' (zupdate (MACH_PORT_INDEX n) (Used (gen_of n) false ρ) vs) (delete n m) (delete e X) todo.
Proof.
  intros [M1 M2 M3 M4 M5 M6 M7 M8] Hn HX Hnew Hv [= E1 E2 E3]. pose proof (zlookup_range _ _ _ Hv) as Hr.
  set (i := MACH_PORT_INDEX n) in *. assert (∀ k l, k ≠ n → m !! k = Some l → delete e X !! l = X !! l) as HX'.
  { intros k l Hk Hkl. apply lookup_delete_ne. intros <-. by apply Hk, (M1 _ _ e). }
  split; rewrite ?E1, ?E2, ?E3.
  - intros k k' l [_ Hk]%lookup_delete_Some [_ Hk']%lookup_delete_Some. by eapply M1.
  - intros k l [_ Hk]%lookup_delete_Some. by eapply M2.
  - intros k l [Hne Hk]%lookup_delete_Some. rewrite (HX' k l) by done. by eapply M3.
  - intros k l [Hne Hk]%lookup_delete_Some Hkt Hlt. destruct (M4 k l Hk) as (g & Hg & Hgk); [set_solver|done|]. exists g.
    split; [|done]. rewrite zlookup_update_ne; [done|lia|]. intros Heq. rewrite <- Heq in Hg. unfold i in *. by rewrite Hv in Hg.
  - intros k Hk. destruct (decide (i = MACH_PORT_INDEX k)) as [Heq|Hi].
    + rewrite <- Heq. rewrite zlookup_update by done. right. exists (gen_of n), false, ρ. split; [done|]. intros Hg.
      assert (n = k) as -> by (by apply name_eq). done.
    + rewrite zlookup_update_ne by lia. apply M5. set_solver.
  - intros j g Hg. destruct (decide (i = j)) as [<-|Hi]; [by rewrite zlookup_update in Hg by done|]. rewrite zlookup_update_ne in Hg by lia.
    destruct (M6 j g Hg) as (k & l & Hk & Hj & Hkt). exists k, l. rewrite lookup_delete_ne by set_solver. split_and!; [done|done|set_solver].
  - rewrite M7. assert (size m ≠ 0%nat) by (intros Hz%map_size_empty_inv; by rewrite Hz in Hn).
    rewrite map_size_delete_Some by (by rewrite Hn). lia.
  - rewrite M8. symmetry. by apply (sending_delete sp m X (delete e X) n e ρ).
Qed.

Lemma find_moved vs m X n e ρ k :
  (∀ n', m !! n' = Some e → n' = n) → m !! n = Some e → X !! e = Some (ρ, sp) → vs !z MACH_PORT_INDEX n = Some (Free 0) →
  find (zupdate (MACH_PORT_INDEX n) (Used (gen_of n) false ρ) vs) (delete n m) (delete e X) k = find vs m X k.
Proof.
  intros Hinj Hn HX Hv. rewrite (find_put vs (delete n m) (delete e X) _ (Free 0)) by (done || apply gen_of_ok). rewrite <- name_split.
  unfold put, find. case_decide as Hk.
  - subst k. unfold vfind. rewrite Hv. cbn. unfold tfind. rewrite Hn. cbn. by rewrite HX.
  - rewrite (tfind_delete m X (delete e X)); [done| |done]. intros k' l Hk' Hl. apply lookup_delete_ne. intros <-. by apply Hk', Hinj.
Qed.

Section moves.
(** The old size, the new one and the next, and the names of the space. *)
Context (osize size nsize : Z) (nits : nat) (f : Z → option right).
Hypothesis (Hrange : 0 < osize < size) (Hnsize : sizes !! nits = Some nsize) (Hsz : size ≤ nsize).
Hypothesis (Hunique : unique_sends f) (Hsound : ∀ n ρ, f n = Some ρ → IE_BITS_TYPE (r_bits ρ) = MACH_PORT_TYPE_SEND → r_object ρ ≠ IO_NULL).

(** The old part of the free list; nothing in the new part is in it. *)
Definition old_free (s : ipc_space) (vs : list view) : Prop :=
  (∃ fl, chain s 0 fl ∧ NoDup fl ∧ ∀ i, i ∈ fl ↔ 0 < i < osize ∧ ∃ g, vs !z i = Some (Free g)) ∧
  ∀ i g, osize ≤ i → vs !z i = Some (Free g) → g = 0.

Lemma old_free_set s s' vs i v' :
  old_free s vs → osize ≤ i → (∀ g, v' ≠ Free g) → (∀ j, j < osize → next_of s' j = next_of s j) → old_free s' (zupdate i v' vs).
Proof using All.
  intros [(fl & Hc & Hnd & Hin) Hnew] Hi Hv' Hnext. split.
  - exists fl. split_and!; [|done|].
    + eapply free_chain_ext; [|done]. intros j [->|[? _]%Hin]%elem_of_cons; apply Hnext; lia.
    + intros j. rewrite Hin. split; intros [? ?]; (split; [done|]); by rewrite zlookup_update_ne in * by lia.
  - intros j g Hj Hg. destruct (decide (i = j)) as [<-|Hne]; [|rewrite zlookup_update_ne in Hg by lia; by eapply Hnew].
    pose proof (zlookup_range _ _ _ Hg) as Hr. unfold zupdate in Hr. rewrite length_insert in Hr.
    rewrite zlookup_update in Hg by done. injection Hg as Hg. by destruct (Hv' g).
Qed.

Record ginv (A : spec) (σ : ipc) (V : traversal) (its : gmap loc ipc_tree_entry) (s : ipc_space) (hs : list (option loc))
    (vs : list view) (m : gmap Z loc) (todo : elist) : Prop := {
  g_trees : trees_are σ A V;
  g_spare : ∀ e, e ∈ spare A → is_Some (its !! e);
  g_apart : ∀ n e, m !! n = Some e → e ∉ spare A;
  g_table : table_ok sizes s vs;
  g_flags : flags s = (true, false, size, nits);
  g_free : old_free s vs;
  g_local : local_ok s vs;
  g_tree : moving s vs m (info <$> its) todo;
  g_names : ∀ n, find vs m (info <$> its) n = f n;
  g_buckets : ∃ bs, buckets hs its (λ e, here sp m (info <$> its) e ∨ elsewhere e) bs;
  g_others : ∀ sp' m', F !! sp' = Some m' → tree_at A (is_tree sp') = Some m';
  g_frame : ∀ sp' m' n e, F !! sp' = Some m' → m' !! n = Some e → (info <$> its) !! e = X0 !! e;
}.

(** The memory and the local trees change. *)
Lemma ginv_trees A A' σ σ' V V' its s hs vs m todo :
  ginv A σ V its s hs vs m todo → trees_are σ' A' V' → spare A' = spare A →
  (∀ sp', sp' ≠ sp → tree_at A' (is_tree sp') = tree_at A (is_tree sp')) → ginv A' σ' V' its s hs vs m todo.
Proof using All.
  intros [G1 G2 G3 G4 G5 G6 G7 G8 G9 G10 G11 G12] Hσ' Hsp Hoth. split; try done; rewrite ?Hsp; try done.
  intros sp' m' Hm'. rewrite Hoth; [by apply G11|]. by apply (HF _ _ Hm').
Qed.

Lemma ginv_elsewhere A σ V its s hs vs m todo n e : ginv A σ V its s hs vs m todo → m !! n = Some e → ¬ elsewhere e.
Proof using All.
  intros HG Hn (sp' & m' & n' & ρ & Hm' & Hn' & HX & _). destruct (mv_info _ _ _ _ _ (g_tree _ _ _ _ _ _ _ _ _ HG) _ _ Hn) as (ρ' & HX' & _).
  rewrite (g_frame _ _ _ _ _ _ _ _ _ HG _ _ _ _ Hm' Hn') in HX'. destruct (HF _ _ Hm') as [Hne _]. congruence.
Qed.

(** The entry has been copied to its place in the table. *)
Lemma ginv_take A A' σ σ' V V' its its' s s' hs hs' vs m n e todo ρ bs e1 e' :
  let i := MACH_PORT_INDEX n in
  ginv A σ V its s hs vs m ((n, e) :: todo) → m !! n = Some e → (info <$> its) !! e = Some (ρ, sp) → n ∉ todo.*1 →
  vs !z i = Some (Free 0) → osize ≤ i → right_ok ρ → is_table s !z i = Some e1 → entry_is e' (Used (gen_of n) false ρ) →
  trees_are σ' A' V' → spare A' = spare A → (∀ sp', sp' ≠ sp → tree_at A' (is_tree sp') = tree_at A (is_tree sp')) →
  info <$> its' = info <$> its → buckets hs' its' (λ e', (here sp m (info <$> its) e' ∨ elsewhere e') ∧ e' ≠ e) bs →
  local_ok s' (zupdate i (Used (gen_of n) false ρ) vs) →
  unhashed s' = unhashed (set_entry e' i (set_counts (is_tree_total s - 1) (is_tree_small s) (is_tree_hash s - one ρ) s)) →
  ginv A' σ' V' (delete e its') s' hs' (zupdate i (Used (gen_of n) false ρ) vs) (delete n m) todo.
Proof using All.
  intros i HG Hn HX Hnew Hv Hi Hρ He1 Hev Hσ' Hsp Hoth Hi' HB Hl Hs'. pose proof (λ l, ginv_elsewhere _ _ _ _ _ _ _ _ _ n l HG) as Hels.
  destruct HG as [G1 G2 G3 G4 G5 G6 G7 G8 G9 G10 G11 G12]. set (s0 := set_counts _ _ _ _) in *.
  pose proof (λ n' Hn', mv_inj _ _ _ _ _ G8 n' n e Hn' Hn) as Hinj. pose proof (unhashed_fields _ _ Hs') as [= F1 F2 F3 F4 F5].
  assert (info <$> delete e its' = delete e (info <$> its)) as Hi2 by (by rewrite fmap_delete, Hi').
  destruct (same_table sizes s s0 vs None eq_refl eq_refl eq_refl eq_refl) as (S1 & _ & _).
  split; rewrite ?Hi2, ?Hsp; try done.
  - intros l Hl'. destruct (G2 l Hl') as [t Ht]. rewrite lookup_delete_ne by (intros <-; by apply (G3 n e)).
    assert (is_Some ((info <$> its') !! l)) as H by (rewrite Hi', lookup_fmap, Ht; by eexists). by rewrite lookup_fmap, fmap_is_Some in H.
  - intros k l [_ Hk]%lookup_delete_Some. by eapply G3.
  - eapply table_ok_unhashed; [done|]. eapply table_ok_set; [by apply S1|done|done|left; lia].
  - apply (f_equal flags) in Hs'. by rewrite <- G5.
  - eapply (old_free_set s); [done|done|done|]. intros j Hj. rewrite (next_of_unhashed _ _ _ Hs'), (next_of_set s0 i e1) by done.
    rewrite decide_False by lia. done.
  - eapply moving_take; try done. unfold counts. rewrite F1, F3, F5. done.
  - intros k. rewrite <- G9. by apply find_moved.
  - exists bs. eapply buckets_ext; [|apply buckets_delete; [exact HB|by intros [_ ?]]]. intros e2. cbn. split.
    + intros [[(k & ρ' & Hk & HXk & Hs)|?] Hne]; [left|by right]. exists k, ρ'. rewrite !lookup_delete_ne by (done || by intros ->; simplify_eq). done.
    + intros [(k & ρ' & [_ Hk]%lookup_delete_Some & [Hne HXk]%lookup_delete_Some & Hs)|Hel]; [split; [left; by exists k, ρ'|done]|].
      split; [by right|]. intros ->. by apply (Hels e).
  - intros sp' m' Hm'. rewrite Hoth; [by apply G11|]. by apply (HF _ _ Hm').
  - intros sp' m' k l Hm' Hk. rewrite lookup_delete_ne; [by eapply G12|]. intros <-. destruct (HF _ _ Hm') as [Hne HX1].
    destruct (HX1 _ _ Hk) as [ρ' HX']. rewrite <- (G12 _ _ _ _ Hm' Hk) in HX'. congruence.
Qed.

(** The entry stays in the tree. *)
Lemma ginv_stay A A' σ σ' V V' its s hs vs m n e todo g c ρ e1 :
  let i := MACH_PORT_INDEX n in
  ginv A σ V its s hs vs m ((n, e) :: todo) → m !! n = Some e → n ∉ todo.*1 → vs !z i = Some (Used g c ρ) → osize ≤ i →
  is_table s !z i = Some e1 →
  trees_are σ' A' V' → spare A' = spare A → (∀ sp', sp' ≠ sp → tree_at A' (is_tree sp') = tree_at A (is_tree sp')) →
  ginv A' σ' V' its (set_entry (with_bits (Z.lor (ie_bits e1) IE_BITS_COLLISION) e1) i s) hs (zupdate i (Used g true ρ) vs) m todo.
Proof using All.
  intros i HG Hn Hnew Hv Hi He1 Hσ' Hsp Hoth. eapply (ginv_trees A A' σ σ' V V') in HG; [|done..].
  destruct HG as [G1 G2 G3 G4 G5 G6 G7 G8 G9 G10 G11 G12]. destruct (moving_stay _ _ _ _ _ _ _ _ _ _ G8 Hn Hnew Hv) as [Hg Hmv].
  destruct (table_view _ _ _ _ _ G4 Hv) as (e2 & He2 & Hev). assert (e2 = e1) as -> by congruence.
  destruct Hev as (Hgok & Hρ & Hb & Ho & Hq). rewrite Hb, mkbits_set. split; try done.
  - eapply table_ok_set; [done..| |left; lia]. split_and!; try done; apply Hρ.
  - eapply (old_free_set s); [done|done|done|]. intros j Hj. rewrite (next_of_set s i e1) by done. by rewrite decide_False by lia.
  - eapply local_ok_set; [done|done|done|done|done|by right].
  - by eapply moving_counts; [|exact Hmv].
  - intros k. rewrite <- G9. unfold find. by rewrite (coll_vright (Used g c ρ)).
Qed.

(** The parts of the tree; the part that moves is the list [els]. *)
Record cut (A : spec) (m : gmap Z loc) (els : elist) : Prop := {
  ct_large : tree_at A (is_tree sp) = Some (slice nsize (2 ^ 24) m);
  ct_small : tree_at A v_small = Some (slice size nsize m);
  ct_ignore : tree_at A v_ignore = Some (slice 0 osize m);
  ct_collisions : is_Some (trees A !! v_collisions);
  ct_move : trees A !! v_move = None;
  ct_els : ascending els;
  ct_elem : ∀ n e, (n, e) ∈ els ↔ m !! n = Some e ∧ osize ≤ MACH_PORT_INDEX n < size;
}.

Lemma cut_delete A m before n e todo : cut A m (before ++ (n, e) :: todo) → cut (add_zone e A) (delete n m) (before ++ todo).
Proof using All.
  intros [C1 C2 C3 C4 C5 C6 C7]. destruct (proj1 (C7 n e)) as [Hn Hidx]; [set_solver|]. pose proof C6 as (_ & _ & Hlo & Hhi & Hasc)%ascending_mid.
  split; rewrite ?slice_delete by lia; try done. intros k l. rewrite lookup_delete_Some.
  assert ((k, l) ∈ before ++ (n, e) :: todo ↔ (k, l) = (n, e) ∨ (k, l) ∈ before ++ todo) as Hmid by set_solver.
  pose proof (C7 k l) as Hk. rewrite Hmid in Hk. split.
  - intros Hin. assert (n ≠ k); [|naive_solver]. intros <-. apply elem_of_app in Hin as [Hin|Hin].
    + apply (proj1 (Forall_forall _ _) Hlo) in Hin. cbn in Hin. lia.
    + apply (proj1 (Forall_forall _ _) Hhi) in Hin. cbn in Hin. lia.
  - intros [[Hne Hk'] Hr]. naive_solver.
Qed.

Lemma not_waiting before n e (todo : elist) : ascending (before ++ (n, e) :: todo) → n ∉ todo.*1.
Proof.
  intros (_ & _ & _ & Hhi & _)%ascending_mid. intros ((k & l) & -> & Hin)%list_elem_of_fmap. apply (proj1 (Forall_forall _ _) Hhi) in Hin. cbn in Hin. lia.
Qed.

(** One entry: whether it leaves the tree, and the state when the traversal has gone on. *)
Lemma wp_move_entry A σ its s hs vs m before n e todo (Q : bool → kernel → Prop) :
  ginv A σ (Some (v_move, before, (n, e) :: todo)) its s hs vs m ((n, e) :: todo) → cut A m (before ++ (n, e) :: todo) →
  (∀ its' s' hs' vs', (∀ σ', trees_are σ' (add_zone e A) (Some (v_move, before, todo)) →
       ginv (add_zone e A) σ' (Some (v_move, before, todo)) (delete e its') s' hs' vs' (delete n m) todo) →
     Q true (K sp ss σ its' s' hs')) →
  (∀ s' vs', (∀ σ', trees_are σ' A (Some (v_move, before ++ [(n, e)], todo)) →
       ginv A σ' (Some (v_move, before ++ [(n, e)], todo)) its s' hs vs' m todo) →
     Q false (K sp ss σ its s' hs)) →
  wp (move_entry sp osize size e) (K sp ss σ its s hs) Q.
Proof using All.
  intros HG HC Htake Hstay. pose proof HG as [G1 G2 G3 G4 G5 G6 G7 G8 G9 [bs HB] G11 G12]. pose proof G5 as [= F1 F2 F3 F4].
  destruct (proj1 (ct_elem _ _ _ HC n e)) as [Hn Hidx]; [set_solver|]. pose proof (not_waiting _ _ _ _ (ct_els _ _ _ HC)) as Hnew.
  destruct (mv_info _ _ _ _ _ G8 _ _ Hn) as (ρ & HX & Hρ). destruct (item_info _ _ _ _ HX) as (t & Ht & Hr & Hsp).
  assert (ite_bits t = r_bits ρ ∧ ite_object t = r_object ρ ∧ ite_request t = r_request ρ) as (Hb & Hob & Hq) by (by rewrite <- Hr).
  eapply wp_bind, wp_K_name; [by eapply trees_visit_name|]. eapply wp_bind, wp_K_item; [done|]. cbv zeta. set (i := MACH_PORT_INDEX n) in *.
  apply wp_bind, wp_assert; [by rewrite bool_decide_true|]. apply wp_bind, wp_assert; [lia|].
  destruct (table_range _ _ _ i G4) as [v Hv]; [lia|]. destruct (table_view _ _ _ _ _ G4 Hv) as (e1 & He1 & Hev).
  eapply wp_bind, wp_K_entry; [done|]. destruct v as [g|g c ρ1].
  - assert (g = 0) as -> by (eapply (proj2 G6); [|done]; lia). rewrite (entry_free _ _ Hev). cbn [negb].
    apply wp_bind, wp_assert. { unfold no_type. rewrite Hb, (proj2 (Z.eqb_neq _ _)); [done|apply Hρ]. }
    eapply wp_bind, wp_K_put_entry; [done|]. rewrite Hb, Hob, Hq, MACH_PORT_GEN_eq, mkbits_right.
    set (e' := with_right (r_object ρ) (mkbits (gen_of n) false (r_bits ρ)) (r_request ρ) e1).
    assert (f n = Some ρ) as Hfn by (rewrite <- G9; unfold find, vfind, tfind; fold i; rewrite Hv; cbn; rewrite Hn; cbn; by rewrite HX).
    apply wp_bind. eapply (wp_move_hash sp ss σ its s hs vs _ bs i (Free 0) e1 e' (Used (gen_of n) false ρ) n e t ρ); try done; [apply G4|lia|by eapply trees_visit_name|..].
    { split; [intros Hs; left; by exists n, ρ|]. intros [(n' & ρ' & _ & HX' & ?)|Hel]; [congruence|]. by apply (ginv_elsewhere _ _ _ _ _ _ _ _ _ n e HG) in Hel. }
    { intros Hs. rewrite (mv_hash _ _ _ _ _ G8). assert (filter (sending (info <$> its)) m !! n = Some e) as Hf by (apply map_lookup_filter_Some; split; [done|by exists ρ, sp]).
      destruct (decide (base.size (filter (sending (info <$> its)) m) = 0%nat)) as [Hz%map_size_empty_inv|]; [by rewrite Hz in Hf|lia]. }
    { intros Hs j. eapply (sends_unique sizes s vs m (info <$> its) n); [done| | |unfold vfind; fold i; by rewrite Hv|done].
      - by eapply unique_ext; [exact G9|].
      - by rewrite G9. }
    { by apply Hsound with n. }
    intros its' hs' bs' s1 Hi' HB' Hl1 Hs1. apply wp_bind, wp_K_update. apply wp_ret.
    apply (Htake its' (add_total (-1) s1) hs' (zupdate i (Used (gen_of n) false ρ) vs)). intros σ' Hσ'.
    eapply (ginv_take A (add_zone e A) σ σ' _ _ its its' s _ hs hs' vs m n e todo ρ bs' e1 e'); try done; [lia| | |].
    + split; [apply gen_of_ok|]. by split_and!.
    + destruct (same_table sizes s1 (add_total (-1) s1) (zupdate i (Used (gen_of n) false ρ) vs) None eq_refl eq_refl eq_refl eq_refl) as (_ & _ & S3). by apply S3.
    + apply (f_equal (add_total (-1))) in Hs1. exact Hs1.
  - rewrite (entry_used _ _ _ _ Hev). cbn [negb]. destruct (moving_stay _ _ _ _ _ _ _ _ _ _ G8 Hn Hnew Hv) as [Hg _].
    pose proof Hev as (Hgok & [Hrb _] & Hb1 & _). apply wp_bind, wp_assert.
    { rewrite Hb1, mkbits_gen, gen_test by done. by rewrite bool_decide_false. }
    eapply wp_bind, wp_K_put_entry; [done|]. apply wp_ret. apply (Hstay _ (zupdate i (Used g true ρ1) vs)). intros σ' Hσ'. 
    eapply (ginv_stay A A σ σ'); try done. lia.
Qed.

Lemma wp_move_loop fuel A σ its s hs vs m before todo (Q : unit → kernel → Prop) :
  ginv A σ (Some (v_move, before, todo)) its s hs vs m todo → cut A m (before ++ todo) → (length todo < fuel)%nat →
  (∀ A' σ' its' s' hs' vs' m' els, ginv A' σ' (Some (v_move, els, [])) its' s' hs' vs' m' [] → cut A' m' els →
     trees A' = trees A → spare A' = spare A → zone A ⊆ zone A' → (∀ n e, m !! n = Some e → e ∈ zone A' ∨ m' !! n = Some e) →
     Q tt (K sp ss σ' its' s' hs')) →
  wp (move_loop fuel sp osize size (current todo)) (K sp ss σ its s hs) Q.
Proof using All.
  induction todo as [|[n e] todo IH] in fuel, A, σ, its, s, hs, vs, m, before |- *; intros HG HC Hfuel HQ; (destruct fuel as [|fuel]; [cbn in Hfuel; lia|]); cbn [move_loop current fmap option_fmap option_map head].
  { apply wp_ret. eapply (HQ A σ its s hs vs m before); [done| |done|done|done|by right]. by rewrite app_nil_r in HC. }
  pose proof (g_trees _ _ _ _ _ _ _ _ _ HG) as Hσ. cbn in Hfuel. apply wp_bind. eapply wp_move_entry; [done|done| |].
  - intros its' s' hs' vs' HG'. eapply wp_bind, wp_K_tree, wp_mono; [by apply (trees_next σ A v_move before n e todo true)|].
    intros p σ' [-> Hσ']. apply wp_bind, wp_K_free_item. eapply IH; [by apply HG'|by apply cut_delete|lia|].
    intros A2 σ2 its2 s2 hs2 vs2 m2 els HG2 HC2 Ht2 Hs2 Hz2 Hout. cbn in Hz2. eapply HQ; [done|done|done|done|set_solver|].
    intros k l Hk. destruct (decide (k = n)) as [->|Hne]; [|apply Hout; by rewrite lookup_delete_ne]. left.
    destruct (proj1 (ct_elem _ _ _ HC n e)) as [Hn _]; [set_solver|]. assert (l = e) as -> by congruence. set_solver.
  - intros s' vs' HG'. eapply wp_bind, wp_K_tree, wp_mono; [by apply (trees_next σ A v_move before n e todo false)|].
    intros p σ' [-> Hσ']. apply wp_bind, wp_ret. eapply IH; [by apply HG'|by rewrite <- app_assoc|lia|done].
Qed.

(** *** The tree is cut and put back together *)

Lemma wp_cut {B} A σ its s hs m (c : M kernel B) (Q : B → kernel → Prop) :
  trees_are σ A None → tree_at A (is_tree sp) = Some m → rest sp A A → (∀ n, is_Some (m !! n) → tree_name n) →
  (∀ σ' A', trees_are σ' A' None → tree_at A' (is_tree sp) = Some (slice nsize (2 ^ 24) m) → tree_at A' v_small = Some (slice size nsize m) →
     tree_at A' v_move = Some (slice osize size m) → tree_at A' v_ignore = Some (slice 0 osize m) → rest sp A A' → zone A' = zone A →
     wp c (K sp ss σ' its s hs) Q) →
  wp (_ ← in_tree (ipc_splay_tree_split (is_tree sp) (MACH_PORT_MAKE nsize 0) v_small);
      _ ← in_tree (ipc_splay_tree_split v_small (MACH_PORT_MAKE size 0) v_move);
      _ ← in_tree (ipc_splay_tree_split v_move (MACH_PORT_MAKE osize 0) v_ignore);
      c) (K sp ss σ its s hs) Q.
Proof using All.
  intros Hσ Hm HR Hnames HQ. pose proof (so_range _ Hsizes _ _ Hnsize) as Hmax. rewrite !MACH_PORT_MAKE_0 by (unfold idx_ok; lia).
  assert (is_tree sp ≠ v_small ∧ is_tree sp ≠ v_move ∧ is_tree sp ≠ v_ignore) as (N1 & N2 & N3) by (split_and!; apply is_tree_local; set_solver).
  pose proof HR as (_ & R2 & _ & _). rewrite <- (slice_all m Hnames) in Hm. eapply wp_bind, wp_K_tree, wp_mono.
  { apply (trees_split σ A None Hσ (is_tree sp) v_small _ _ Hm); [apply R2; set_solver|done]. }
  rewrite slice_below, slice_above by lia. intros u σ1 Hσ1. cbn beta in Hσ1. clear u. set (A1 := set_tree v_small _ _) in Hσ1.
  assert (rest sp A A1) as HR1 by (apply rest_set; [apply rest_set; [done|set_solver]|set_solver]). pose proof HR1 as (_ & R21 & _ & _).
  eapply wp_bind, wp_K_tree, wp_mono.
  { eapply (trees_split σ1 A1 None Hσ1 v_small v_move); [apply tree_at_set|apply R21; set_solver|done]. }
  rewrite slice_below, slice_above by lia. intros u σ2 Hσ2. cbn beta in Hσ2. clear u. set (A2 := set_tree v_move _ _) in Hσ2.
  assert (rest sp A A2) as HR2 by (apply rest_set; [apply rest_set; [done|set_solver]|set_solver]). pose proof HR2 as (_ & R22 & _ & _).
  eapply wp_bind, wp_K_tree, wp_mono.
  { eapply (trees_split σ2 A2 None Hσ2 v_move v_ignore); [apply tree_at_set|apply R22; set_solver|done]. }
  rewrite slice_below, slice_above by lia. intros u σ3 Hσ3. eapply HQ; [exact Hσ3|..].
  - rewrite !tree_at_set_ne by done. unfold A2. rewrite !tree_at_set_ne by done. unfold A1. by rewrite tree_at_set_ne, tree_at_set.
  - rewrite !tree_at_set_ne by done. unfold A2. by rewrite tree_at_set_ne, tree_at_set.
  - by rewrite tree_at_set_ne, tree_at_set.
  - apply tree_at_set.
  - apply rest_set; [apply rest_set; [done|set_solver]|set_solver].
  - done.
Qed.

Lemma wp_uncut A σ its s hs m (Q : unit → kernel → Prop) :
  trees_are σ A None → tree_at A (is_tree sp) = Some (slice nsize (2 ^ 24) m) → tree_at A v_small = Some (slice size nsize m) →
  tree_at A v_move = Some (slice osize size m) → tree_at A v_ignore = Some (slice 0 osize m) → rest sp A A → (∀ n, is_Some (m !! n) → tree_name n) →
  (∀ σ' A', trees_are σ' A' None → tree_at A' (is_tree sp) = Some m → rest sp A A' → zone A' = zone A → Q tt (K sp ss σ' its s hs)) →
  wp (_ ← in_tree (ipc_splay_tree_join (is_tree sp) v_small);
      _ ← in_tree (ipc_splay_tree_join (is_tree sp) v_move);
      in_tree (ipc_splay_tree_join (is_tree sp) v_ignore)) (K sp ss σ its s hs) Q.
Proof using All.
  intros Hσ T1 T2 T3 T4 HR Hnames HQ. pose proof (so_range _ Hsizes _ _ Hnsize) as Hmax.
  assert (is_tree sp ≠ v_small ∧ is_tree sp ≠ v_move ∧ is_tree sp ≠ v_ignore) as (N1 & N2 & N3) by (split_and!; apply is_tree_local; set_solver).
  eapply wp_bind, wp_K_tree, wp_mono; [apply (trees_join σ A None Hσ (is_tree sp) v_small _ _ T1 T2 N1), slice_before|].
  rewrite slice_union by lia. intros u σ1 Hσ1. cbn beta in Hσ1. clear u. set (A1 := set_tree v_small _ _) in Hσ1.
  assert (rest sp A A1) as HR1 by (apply rest_set; [apply rest_set; [done|set_solver]|set_solver]).
  eapply wp_bind, wp_K_tree, wp_mono.
  { eapply (trees_join σ1 A1 None Hσ1 (is_tree sp) v_move); [unfold A1; by rewrite tree_at_set_ne, tree_at_set|unfold A1; rewrite !tree_at_set_ne by done; exact T3|done|apply slice_before]. }
  rewrite slice_union by lia. intros u σ2 Hσ2. cbn beta in Hσ2. clear u. set (A2 := set_tree v_move _ _) in Hσ2.
  assert (rest sp A A2) as HR2 by (apply rest_set; [apply rest_set; [done|set_solver]|set_solver]).
  eapply wp_K_tree, wp_mono.
  { eapply (trees_join σ2 A2 None Hσ2 (is_tree sp) v_ignore); [unfold A2; by rewrite tree_at_set_ne, tree_at_set|
      unfold A2, A1; rewrite !tree_at_set_ne by done; exact T4|done|apply slice_before]. }
  rewrite slice_union, slice_all by (lia || done). intros [] σ3 Hσ3. eapply HQ; [exact Hσ3|..]; [by rewrite tree_at_set_ne, tree_at_set| |done].
  apply rest_set; [apply rest_set; [done|set_solver]|set_solver].
Qed.

(** *** Names that will fit next time *)

Definition index_set (els : elist) : gset Z := list_to_set (MACH_PORT_INDEX ∘ fst <$> els).

Lemma elem_of_index_set els i : i ∈ index_set els ↔ ∃ n e, (n, e) ∈ els ∧ MACH_PORT_INDEX n = i.
Proof.
  unfold index_set. rewrite elem_of_list_to_set, list_elem_of_fmap. split.
  - intros ([n e] & -> & Hin). by exists n, e.
  - intros (n & e & Hin & <-). by exists (n, e).
Qed.

Lemma index_set_snoc els n e : index_set (els ++ [(n, e)]) = index_set els ∪ {[MACH_PORT_INDEX n]}.
Proof. unfold index_set. rewrite fmap_app, list_to_set_app_L. cbn. set_solver. Qed.

(** The last index that was counted. *)
Definition counted (before : elist) (index : Z) : Prop :=
  (∀ n e, (n, e) ∈ before → MACH_PORT_INDEX n ≤ index) ∧ (index ∈ index_set before ∨ (before = [] ∧ index = 0)).

Lemma wp_count_loop fuel A σ its s hs before todo nosmall index (Q : Z → kernel → Prop) :
  trees_are σ A (Some (v_small, before, todo)) → ascending (before ++ todo) → (∀ n e, (n, e) ∈ todo → 0 < MACH_PORT_INDEX n) →
  nosmall = Z.of_nat (base.size (index_set before)) → counted before index → (length todo < fuel)%nat →
  (∀ σ', trees_are σ' A (Some (v_small, before ++ todo, [])) → Q (Z.of_nat (base.size (index_set (before ++ todo)))) (K sp ss σ' its s hs)) →
  wp (count_loop fuel nosmall index (current todo)) (K sp ss σ its s hs) Q.
Proof using All.
  induction todo as [|[n e] todo IH] in fuel, σ, before, nosmall, index |- *; intros Hσ Hasc Hpos Hno Hidx Hfuel HQ;
    (destruct fuel as [|fuel]; [cbn in Hfuel; lia|]); cbn [count_loop current fmap option_fmap option_map head].
  { apply wp_ret. rewrite app_nil_r in HQ. subst nosmall. by apply HQ. }
  cbn in Hfuel. eapply wp_bind, wp_K_name; [by eapply trees_visit_name|]. cbv zeta.
  eapply wp_bind, wp_K_tree, wp_mono; [by apply (trees_next σ A v_small before n e todo false)|]. intros p σ' [-> Hσ'].
  assert (0 < MACH_PORT_INDEX n) as Hn by (apply (Hpos n e); set_solver). destruct Hidx as [Hle Hlast].
  assert (∀ k l, (k, l) ∈ before → MACH_PORT_INDEX k ≤ MACH_PORT_INDEX n) as Hmono.
  { intros k l Hk. apply index_mono. apply ascending_mid in Hasc as (_ & _ & Hlo & _). apply (proj1 (Forall_forall _ _) Hlo) in Hk. cbn in Hk. lia. }
  assert (counted (before ++ [(n, e)]) (MACH_PORT_INDEX n)) as Hidx'.
  { split; [|left; rewrite index_set_snoc; set_solver]. intros k l [Hk|Hk]%elem_of_app; [by eapply Hmono|].
    apply list_elem_of_singleton in Hk as [= -> ->]. done. }
  replace (before ++ (n, e) :: todo) with ((before ++ [(n, e)]) ++ todo) in * by (by rewrite <- app_assoc).
  destruct (Z.eqb_spec (MACH_PORT_INDEX n) index) as [Heq|Hne]; cbn [negb].
  - eapply (IH _ _ (before ++ [(n, e)])); [done|done|set_solver| |by rewrite Heq in Hidx'|lia|done].
    subst nosmall. do 2 f_equal. rewrite index_set_snoc. destruct Hlast as [Hin|[_ Hz]]; [set_solver|lia].
  - eapply (IH _ _ (before ++ [(n, e)])); [done|done|set_solver| |done|lia|done].
    subst nosmall. rewrite index_set_snoc, size_union, size_singleton; [lia|]. apply disjoint_singleton_r.
    intros (k & l & Hk & Hkn)%elem_of_index_set. destruct Hlast as [(k' & l' & Hk' & Hi')%elem_of_index_set|[-> _]]; [|set_solver].
    pose proof (Hle _ _ Hk). pose proof (Hmono _ _ Hk'). lia.
Qed.

Lemma index_set_indices lo hi m : index_set (elems (slice lo hi m)) = indices m lo hi.
Proof.
  apply set_eq. intros i. rewrite elem_of_index_set, elem_of_indices. unfold has_index. split.
  - intros (n & e & [Hn Hr]%elem_of_elems%map_lookup_filter_Some & <-). cbn in Hr. eauto.
  - intros [(n & e & Hn & <-) Hr]. exists n, e. split; [|done]. apply elem_of_elems, map_lookup_filter_Some. done.
Qed.

Lemma index_set_size els : (base.size (index_set els) ≤ length els)%nat.
Proof.
  induction els as [|[n e] els IH]; [done|]. change (index_set ((n, e) :: els)) with ({[MACH_PORT_INDEX n]} ∪ index_set els).
  rewrite size_union_alt, size_singleton. etransitivity; [apply Nat.add_le_mono_l, (subseteq_size _ (index_set els)); set_solver|]. cbn. lia.
Qed.

Lemma indices_size m lo hi : lo ≤ hi → Z.of_nat (base.size (indices m lo hi)) ≤ hi - lo ∧ (base.size (indices m lo hi) ≤ base.size m)%nat.
Proof.
  intros Hle. split.
  - assert (indices m lo hi ⊆ list_to_set (seqZ lo (hi - lo))) as Hsub%subseteq_size.
    { intros i [_ Hr]%elem_of_indices. apply elem_of_list_to_set, elem_of_seqZ. lia. }
    rewrite size_list_to_set in Hsub by apply NoDup_seqZ. rewrite length_seqZ in Hsub. lia.
  - rewrite <- index_set_indices. etransitivity; [apply index_set_size|]. rewrite length_elems. apply map_subseteq_size, map_filter_subseteq.
Qed.

(** *** The whole work on the tree *)

Lemma ginv_small A σ V its s hs vs m todo k : ginv A σ V its s hs vs m todo → ginv A σ V its (set_small k s) hs vs m todo.
Proof using All.
  intros [G1 G2 G3 G4 G5 G6 G7 G8 G9 G10 G11 G12].
  destruct (same_table sizes s (set_small k s) vs None eq_refl eq_refl eq_refl eq_refl) as (S1 & _ & S3).
  split; try done; [by apply S1| |by apply S3|by eapply moving_counts; [|exact G8]].
  destruct G6 as [(fl & Hc & Hfl) Hnew]. split; [|done]. exists fl. split; [|done]. by eapply free_chain_ext; [|exact Hc].
Qed.

Lemma wp_grow_tree A σ its s hs vs m (Q : unit → kernel → Prop) :
  ginv A σ None its s hs vs m (elems (slice osize size m)) → tree_at A (is_tree sp) = Some m → rest sp A A →
  (∀ A' σ' its' s' hs' vs' m', ginv A' σ' None its' s' hs' vs' m' [] → tree_at A' (is_tree sp) = Some m' → rest sp A A' →
     is_tree_small s' = Z.of_nat (base.size (indices m' size nsize)) → (∀ n e, m !! n = Some e → e ∈ zone A' ∨ m' !! n = Some e) →
     Q tt (K sp ss σ' its' s' hs')) →
  wp (grow_tree sp osize size nsize) (K sp ss σ its s hs) Q.
Proof using All.
  intros HG Hm HR HQ. pose proof (mv_name _ _ _ _ _ (g_tree _ _ _ _ _ _ _ _ _ HG)) as Hnames.
  assert (is_tree sp ≠ v_small ∧ is_tree sp ≠ v_move ∧ is_tree sp ≠ v_ignore) as (N1 & N2 & N3) by (split_and!; apply is_tree_local; set_solver).
  assert (∀ sp', is_tree sp' ≠ v_move ∧ is_tree sp' ≠ v_small) as Hloc by (split; apply is_tree_local; set_solver).
  eapply (wp_cut A σ its s hs m); [apply HG|done|done|intros n [e He]; by eapply Hnames|].
  intros σ1 A1 Hσ1 T1 T2 T3 T4 HR1 HZ1. apply wp_bind, wp_gets. cbn [tmem K].
  pose proof (trees_size _ _ _ Hσ1 _ _ T3) as Hfuel. rewrite <- length_elems in Hfuel.
  eapply wp_bind, wp_K_tree, wp_mono; [by apply trees_start|]. intros p σ2 [-> Hσ2]. destruct HR1 as (Q1 & Q2 & Q3 & Q4 & Q5).
  assert (∀ sp', tree_at (hide v_move A1) (is_tree sp') = tree_at A1 (is_tree sp')) as Hhide.
  { intros sp'. unfold tree_at, hide. cbn. rewrite lookup_delete_ne; [done|]. apply not_eq_sym, Hloc. }
  apply wp_bind. eapply (wp_move_loop _ (hide v_move A1) σ2 its s hs vs m []); [|split|cbn [app]; lia|]; try done.
  { eapply ginv_trees; [exact HG|done|by cbn|]. intros sp' Hsp'. rewrite Hhide. by apply Q1. }
  { by rewrite Hhide. } { unfold tree_at. cbn. rewrite lookup_delete_ne by done. exact T2. }
  { unfold tree_at. cbn. rewrite lookup_delete_ne by done. exact T4. } { cbn. rewrite lookup_delete_ne by done. apply Q2. set_solver. }
  { cbn. apply lookup_delete_eq. } { apply elems_ascending. } { intros n e. cbn [app]. rewrite elem_of_elems. apply map_lookup_filter_Some. }
  intros A3 σ3 its3 s3 hs3 vs3 m3 els HG3 [C1 C2 C3 C4 C5 C6 C7] Ht3 Hsp3 Hz3 Hout. cbn in Hz3, Hsp3.
  pose proof (g_trees _ _ _ _ _ _ _ _ _ HG3) as Hσ3. pose proof (mv_name _ _ _ _ _ (g_tree _ _ _ _ _ _ _ _ _ HG3)) as Hnames3.
  assert (tmap els = slice osize size m3) as Hels.
  { apply map_eq. intros n. apply option_eq. intros e. rewrite tmap_lookup by done. rewrite C7. symmetry. apply map_lookup_filter_Some. }
  eapply wp_bind, wp_K_tree, wp_mono; [by apply (trees_finish σ3 A3 v_move els)|]. rewrite Hels. intros u σ4 Hσ4. cbn beta in Hσ4. clear u.
  set (A4 := set_tree v_move _ _) in Hσ4. assert (tree_at A4 v_small = Some (slice size nsize m3)) as T42 by (unfold A4; by rewrite tree_at_set_ne).
  apply wp_bind, wp_gets. cbn [tmem K]. pose proof (trees_size _ _ _ Hσ4 _ _ T42) as Hfuel4. rewrite <- length_elems in Hfuel4.
  eapply wp_bind, wp_K_tree, wp_mono; [by apply trees_start|]. intros p σ5 [-> Hσ5].
  apply wp_bind. eapply (wp_count_loop _ (hide v_small A4) σ5 its3 s3 hs3 []); [done|apply elems_ascending| |done| |cbn [app]; lia|].
  { intros n e He%elem_of_elems. apply map_lookup_filter_Some in He as [_ Hr]. cbn in Hr. lia. }
  { split; [set_solver|by right]. }
  cbn [app]. intros σ6 Hσ6. rewrite index_set_indices. destruct (indices_size m3 size nsize) as [Hs1 Hs2]; [lia|].
  eapply wp_bind, wp_K_tree, wp_mono; [apply (trees_finish σ6 _ v_small _ Hσ6); cbn; apply lookup_delete_eq|]. rewrite tmap_elems. intros u σ7 Hσ7. cbn beta in Hσ7. clear u.
  set (A7 := set_tree v_small _ _) in Hσ7. apply wp_bind, wp_K_space_of. apply wp_bind, wp_assert; [lia|].
  apply wp_bind, wp_assert; [rewrite (mv_total _ _ _ _ _ (g_tree _ _ _ _ _ _ _ _ _ HG3)); lia|]. apply wp_bind, wp_K_update.
  assert (∀ v, v ≠ v_small → v ≠ v_move → trees A7 !! v = trees A3 !! v) as E7.
  { intros v H1 H2. unfold A7, A4. cbn. rewrite !lookup_insert_ne, lookup_delete_ne, lookup_insert_ne; done. }
  assert (trees A7 !! v_move = Some (Some (slice osize size m3))) as E7m.
  { unfold A7, A4. cbn. rewrite lookup_insert_ne, lookup_delete_ne by done. apply lookup_insert_eq. }
  assert (∀ v, v ∈ [v_small; v_collisions; v_move; v_ignore] → is_Some (trees A7 !! v)) as HR7.
  { intros v Hv. repeat apply elem_of_cons in Hv as [->|Hv]; [unfold A7; cbn; by rewrite lookup_insert_eq|by rewrite E7|by rewrite E7m| |by apply not_elem_of_nil in Hv].
    rewrite E7 by done. apply tree_at_Some in C3. by rewrite C3. }
  assert (∀ sp', tree_at A7 (is_tree sp') = tree_at A3 (is_tree sp')) as E7t by (intros sp'; unfold tree_at; rewrite E7; [done|apply Hloc..]).
  eapply (wp_uncut A7 σ7 its3 _ hs3 m3); [done|by rewrite E7t|apply tree_at_set|unfold tree_at; by rewrite E7m|unfold tree_at; rewrite E7 by done; exact C3| |by intros n [e He]; eapply Hnames3|].
  { by split_and!. }
  intros σ8 A8 Hσ8 T8 (U1 & U2 & U3 & U4 & U5) HZ8. assert (∀ sp', sp' ≠ sp → tree_at A3 (is_tree sp') = tree_at A (is_tree sp')) as E3.
  { intros sp' Hsp'. rewrite <- Q1 by done. rewrite <- Hhide. unfold tree_at. by rewrite Ht3. }
  eapply HQ; [eapply (ginv_trees A3 A8 σ3 σ8); [|done|..]; [by apply ginv_small, HG3| |]|done| |done|].
  - rewrite U3. done.
  - intros sp' Hsp'. by rewrite U1, E7t.
  - split_and!; [|done|rewrite U3; cbn; congruence|rewrite HZ8; cbn; set_solver|].
    + intros sp' Hsp'. by rewrite U1, E7t, E3.
    + intros v Hv%Q5. apply U5. destruct (decide (v = v_small)) as [->|Hv1]; [apply HR7; set_solver|].
      destruct (decide (v = v_move)) as [->|Hv2]; [apply HR7; set_solver|]. rewrite E7, Ht3 by done. cbn. by rewrite lookup_delete_ne.
  - intros n e He. rewrite HZ8. by apply Hout.
Qed.

(** ** The rest of the new part becomes free *)

Lemma wp_free_new (k : nat) σ its s hs vs fi fl (Q : Z → kernel → Prop) :
  table_ok sizes s vs → local_ok s vs → from s fi fl → NoDup fl →
  (∀ i, i ∈ fl ↔ 0 < i ∧ (i < osize ∨ osize + Z.of_nat k ≤ i) ∧ ∃ g, vs !z i = Some (Free g)) →
  (∀ i g, osize ≤ i < osize + Z.of_nat k → vs !z i = Some (Free g) → g = 0) → osize + Z.of_nat k ≤ is_table_size s →
  (∀ s' vs' fi' fl', table_ok sizes s' vs' → local_ok s' vs' → from s' fi' fl' → NoDup fl' →
     (∀ i, i ∈ fl' ↔ 0 < i ∧ ∃ g, vs' !z i = Some (Free g)) → alike s s' vs vs' → Q fi' (K sp ss σ its s' hs)) →
  wp (free_new sp (reverse (seqZ osize (Z.of_nat k))) fi) (K sp ss σ its s hs) Q.
Proof using All.
  induction k as [|k IH] in s, vs, fi, fl |- *; intros Ht Hl Hfrom Hnd Hin Hz Hsize HQ.
  { apply wp_ret. eapply HQ; [done..| |by split_and!]. intros i. rewrite Hin. split; [tauto|]. intros [? ?]. split_and!; [done|lia|done]. }
  rewrite seqZ_S, reverse_snoc. cbn [free_new]. set (i := osize + Z.of_nat k) in *.
  destruct (table_range _ _ _ i Ht) as [v Hv]; [lia|]. pose proof (zlookup_range _ _ _ Hv) as Hr.
  destruct (table_view _ _ _ _ _ Ht Hv) as (e & He & Hev). eapply wp_bind, wp_K_entry; [done|]. destruct v as [g|g c ρ].
  - assert (g = 0) as -> by (apply (Hz i); [lia|done]). destruct Hev as (_ & Hb & Ho). rewrite Hb. cbn [gbits].
    change (Z.shiftl 0 24 =? 0) with true. cbv iota. eapply wp_bind, wp_K_put_entry; [done|].
    set (e' := with_next fi (with_bits IE_BITS_GEN_MASK e)). set (s' := set_entry e' i s). set (vs' := zupdate i (Free 255) vs).
    assert (i ∉ fl) as Hnot by (rewrite Hin; lia).
    assert (∀ j, next_of s' j = if decide (i = j) then fi else next_of s j) as Hnext by (intros j; by apply (next_of_set s i e)).
    assert (alike s s' vs vs') as Halike.
    { split_and!; [done|done| |].
      - intros j. unfold vs'. destruct (decide (i = j)) as [<-|Hne]; [rewrite zlookup_update by done; by rewrite Hv|by rewrite zlookup_update_ne by lia].
      - intros n. unfold vs'. by apply (coll_vright (Free 0)). }
    eapply (IH s' vs' i (i :: fl)).
    + eapply table_ok_set; [done|done| |left; lia]. by split_and!.
    + eapply local_ok_set; [done|done|done|done|done|by left].
    + eapply from_push; [by rewrite Hnext, decide_True| |exact Hfrom]. intros j Hj. rewrite Hnext, decide_False; [done|]. by intros ->.
    + by constructor.
    + intros j. rewrite elem_of_cons, Hin. unfold vs'. destruct (decide (i = j)) as [<-|Hne].
      * rewrite zlookup_update by done. split; [|by left]. intros _. split_and!; [lia|lia|eauto].
      * rewrite zlookup_update_ne by lia. split; [intros [?|(? & ? & ?)]; [done|split_and!; [done|lia|done]]|].
        intros (? & ? & ?). right. split_and!; [done|lia|done].
    + intros j g Hj. unfold vs'. rewrite zlookup_update_ne by lia. apply Hz. lia.
    + cbn. lia.
    + intros s2 vs2 fi2 fl2 T2 L2 F2 N2 I2 A2. eapply HQ; [done..|]. by eapply alike_trans.
  - rewrite (proj2 (Z.eqb_neq (ie_bits e) 0)). 2: { intros Hb. pose proof (entry_used _ _ _ _ Hev) as Hu. by rewrite Hb in Hu. }
    eapply (IH s vs fi fl); try done; [| |lia].
    + intros j. rewrite Hin. split; intros (? & ? & g' & Hg'); (split_and!; [done| |by eauto]); [lia|].
      assert (j ≠ i) by congruence. lia.
    + intros j g' Hj. apply Hz. lia.
Qed.

(** The space when the work is done. *)
Lemma linv_grown A σ its s hs vs m s1 vs1 fi fl e0 :
  ginv A σ None its s hs vs m [] → tree_at A (is_tree sp) = Some m → (∀ v, v ∈ [v_small; v_collisions; v_move; v_ignore] → is_Some (trees A !! v)) →
  is_tree_small s = Z.of_nat (base.size (indices m size nsize)) →
  table_ok sizes s1 vs1 → local_ok s1 vs1 → from s1 fi fl → NoDup fl → (∀ i, i ∈ fl ↔ 0 < i ∧ ∃ g, vs1 !z i = Some (Free g)) → alike s s1 vs vs1 →
  is_table s1 !z 0 = Some e0 → 
  let x := L A σ its (set_entry (with_next fi e0) 0 s1) hs vs1 m None in linv x ∧ ∀ n, names x n = f n.
Proof using All.
  intros [G1 G2 G3 G4 G5 G6 G7 G8 G9 G10 G11 G12] Hm Hloc Hsmall Ht1 Hl1 Hfrom Hnd Hin (E1 & E2 & E3 & E4) He0 x.
  assert (∀ n, find vs1 m (info <$> its) n = f n) as Hfind by (intros n; rewrite <- G9; unfold find; by rewrite E4).
  pose proof (ta_zero _ _ _ Ht1) as Hz. split; [|exact Hfind]. unfold x. split; unfold infos_of; lcbn; try done. split.
  - by eapply set_next_table.
  - exists fl. split_and!; [|done|].
    + apply chain_from. rewrite (next_of_set s1 0 e0), decide_True by done. eapply from_ext; [|exact Hfrom]. intros j [? _]%Hin.
      rewrite (next_of_set s1 0 e0), decide_False by (done || lia). done.
    + intros i. rewrite Hin. unfold gap. naive_solver.
  - by eapply set_next_local.
  - pose proof E2 as [= F1 F2 F3 F4 F5]. pose proof G5 as [= _ _ F6 F7]. destruct G8 as [M1 M2 M3 M4 M5 M6 M7 M8].
    eapply (tree_ok_fields _ _ s); [exact E2|]. split; try done.
    + intros n e He. destruct (M3 n e He) as (ρ & HX & Hρ). eauto.
    + intros n e He Hlt. rewrite E3. apply (M4 n e He); [set_solver|done].
    + intros i g. rewrite E3. intros (n & e & He & Hi & _)%M6. by exists n, e.
    + intros nsize' Hn'. rewrite F7, Hnsize in Hn'. injection Hn' as <-. by rewrite F6.
  - by eapply unique_ext.
  - intros n ρ. rewrite Hfind. intros Hn Hty. left. by eapply Hsound.
Qed.

(** The rest of the second section: the new entries that are not used become free. *)
Definition free_rest : M kernel (option (kern_return * bool)) :=
  table ← entry_at sp 0;
  free_index ← free_new sp (reverse (seqZ osize (size - osize))) (ie_next table);
  _ ← update_entry sp 0 (with_next free_index); mret None.

Lemma wp_free_rest A σ its s hs vs m :
  ginv A σ None its s hs vs m [] → tree_at A (is_tree sp) = Some m → (∀ v, v ∈ [v_small; v_collisions; v_move; v_ignore] → is_Some (trees A !! v)) →
  is_tree_small s = Z.of_nat (base.size (indices m size nsize)) →
  wp free_rest (K sp ss σ its s hs) (λ r k, ∃ x', k = kst x' ∧ linv x' ∧
    r = None ∧ lheld x' = None ∧ flags (ls x') = (true, false, size, nits) ∧ lA x' = A ∧ ∀ n, names x' n = f n).
Proof using All.
  intros HG Hm HR Hsmall. pose proof HG as [_ _ _ G4 G5 [(fl & Hc & Hnd & Hin) Hnew] G7 _ _ _ _ _].
  pose proof G5 as [= _ _ F6 F7]. destruct (table_view _ _ _ _ _ G4 (ta_zero _ _ _ G4)) as (e0 & He0 & _). eapply wp_bind, wp_K_entry; [done|].
  rewrite <- (next_of_entry _ _ _ He0). replace (size - osize) with (Z.of_nat (Z.to_nat (size - osize))) by lia. apply wp_bind.
  eapply (wp_free_new _ σ its s hs vs _ fl); [done|done|by apply chain_from|done| | |lia|].
  - intros i. rewrite Hin. split; intros (? & g & Hg); [split_and!; [lia|lia|by eauto]|]. destruct Hg as (g' & Hg'). 
    split; [|by eauto]. pose proof (table_in _ _ _ _ _ G4 Hg'). lia.
  - intros i g Hi. apply Hnew. lia.
  - intros s3 vs3 fi fl3 T3 L3 Hfrom Hnd3 Hin3 Hal. destruct (table_view _ _ _ _ _ T3 (ta_zero _ _ _ T3)) as (e3 & He3 & _).
    eapply wp_bind, wp_K_update_entry; [done|]. apply wp_ret.
    destruct (linv_grown A σ its s hs vs m s3 vs3 fi fl3 e3) as [HI' Hn']; try done.
    eexists. split; [|split; [exact HI'|]]; [done|]. split_and!; [done|done| |done|exact Hn']. destruct Hal as (Hal & _). by rewrite <- G5.
Qed.

End moves.

(** ** The second section *)

Lemma local_upto_all s vs osize size :
  osize = Z.of_nat (length vs) → local_upto osize s (new_views vs osize size) → local_ok s (new_views vs osize size).
Proof.
  intros Ho (H & Hinv & HH). exists H. split; [done|]. intros obj i. rewrite HH. split; [by intros [_ ?]|]. intros Hi. split; [|done].
  destruct (decide (i < osize)); [done|]. exfalso. apply bind_Some in Hi as (v & Hv & Hs). apply new_views_new in Hv as ->; [done|done|lia].
Qed.

Lemma moving_start s s1 vs m X size :
  tree_ok sizes sp s vs m X None → is_table_size s = Z.of_nat (length vs) → is_table_size s < size →
  counts s1 = (size, is_tree_total s, is_tree_hash s) →
  moving s1 (new_views vs (is_table_size s) size) m X (elems (slice (is_table_size s) size m)).
Proof.
  intros [T1 T2 T3 T4 T5 T6 T7 T8] Hlen Hlt [= E1 E2 E3].
  assert (∀ n, n ∈ (elems (slice (is_table_size s) size m)).*1 ↔ ∃ e, m !! n = Some e ∧ is_table_size s ≤ MACH_PORT_INDEX n < size) as Helem.
  { intros n. rewrite list_elem_of_fmap. split.
    - intros ([k e] & -> & He%elem_of_elems). apply map_lookup_filter_Some in He. by exists e.
    - intros (e & He). exists (n, e). split; [done|]. apply elem_of_elems. by apply map_lookup_filter_Some. }
  split; rewrite ?E1, ?E2, ?E3; try done.
  - intros n e He. destruct (T3 n e He) as (ρ & HX & [?|?]); [done|]. eauto.
  - intros n e He Hnot Hsz. assert (MACH_PORT_INDEX n < is_table_size s) as Hold.
    { destruct (decide (MACH_PORT_INDEX n < is_table_size s)); [done|]. destruct Hnot. apply Helem. exists e. split; [done|lia]. }
    rewrite new_views_old by done. by eapply T4.
  - intros n (e & He & Hr)%Helem. left. by apply new_views_is.
  - intros i g (v & Hv & Hc)%bind_Some. destruct (decide (i < is_table_size s)) as [Hi|Hi]; [|by apply new_views_new in Hv as ->; [|done|lia]].
    rewrite new_views_old in Hv by done. destruct (T5 i g) as (n & e & He & Hn); [by rewrite Hv|]. exists n, e. split_and!; [done|done|].
    rewrite Helem. intros (e' & _ & ?). lia.
Qed.

(** What is known of a table that is being allocated. *)
Definition pending (s : ipc_space) (target : option Z) (its nits : nat) : Prop :=
  nits = S its ∧ (is_table_next s ≤ its)%nat ∧ (∃ size, sizes !! its = Some size ∧ is_table_size s < size) ∧
  is_Some (sizes !! nits) ∧ (target = None → its = is_table_next s).

Lemma ginv_start A σ its s s1 hs vs m size nits :
  let x := L A σ its s hs vs m None in
  let vs1 := new_views vs (is_table_size s) size in
  linv x → is_active s = true → is_table_size s < size → unhashed s1 = unhashed (installed (set_growing false s) size nits) →
  table_ok sizes s1 vs1 → local_upto (is_table_size s) s1 vs1 →
  ginv (is_table_size s) size nits (names x) A σ None its s1 hs vs1 m (elems (slice (is_table_size s) size m)).
Proof using All.
  intros x vs1 HI Hact Hlt Hs1 Ht1 Hl1. pose proof HI as [L1 L2 L3 L4 [Ht (fl & Hc & Hnd & Hin) _ Htr Hu Hso] L6 L7 L8]. unfold x, infos_of in *. lcbn.
  assert (is_table_size s = Z.of_nat (length vs)) as Hlen by (rewrite (ta_length _ _ _ Ht); by rewrite (Forall2_length _ _ _ (ta_views _ _ _ Ht))).
  pose proof (unhashed_fields _ _ Hs1) as [= F1 F2 F3 F4 F5]. pose proof (table_pos _ _ _ Ht) as Hpos.
  split; try done.
  - intros n e He. by destruct (trees_spare _ _ _ L1 _ _ _ _ L2 He).
  - pose proof (f_equal flags Hs1) as Hf. unfold flags in *. cbn in Hf. by rewrite <- Hact.
  - split.
    + exists fl. split_and!; [|done|].
      * eapply free_chain_ext; [|exact Hc]. intros j Hj. rewrite (next_of_unhashed _ _ _ Hs1).
        assert (0 ≤ j < is_table_size s) as Hr.
        { apply elem_of_cons in Hj as [->|(? & _ & g & Hg)%Hin]; [lia|]. apply zlookup_range in Hg. lia. }
        rewrite next_of_installed; [done|]. cbn. by rewrite <- (ta_length _ _ _ Ht).
      * intros i. rewrite Hin. split.
        -- intros (? & _ & g & Hg). pose proof (zlookup_range _ _ _ Hg). split; [lia|]. exists g. unfold vs1. by rewrite new_views_old by lia.
        -- intros (? & g & Hg). unfold vs1 in Hg. rewrite new_views_old in Hg by lia. split; [lia|]. split; [done|]. eauto.
    + intros i g Hi Hg. apply new_views_new in Hg; [congruence|done|done].
  - by apply local_upto_all.
  - eapply moving_start; try done. unfold counts. by rewrite F1, F3, F5.
  - intros n. unfold names, find, infos_of. lcbn. unfold vs1. by rewrite vfind_new.
Qed.

(** All entries go back into the hash of the table. *)
Lemma wp_rehash_all A σ its s hs vs m size it nits (Q : unit → kernel → Prop) :
  let s1 := installed (set_growing false s) size nits in
  let vs1 := new_views vs (is_table_size s) size in
  linv (L A σ its s hs vs m None) → sizes !! it = Some size → nits = S it → is_Some (sizes !! nits) → is_table_size s < size →
  (∀ s2, unhashed s2 = unhashed s1 → table_ok sizes s2 vs1 → local_upto (is_table_size s) s2 vs1 → Q tt (K sp ss σ its s2 hs)) →
  wp (for_M (seqZ 0 (is_table_size s)) (rehash_entry sp)) (K sp ss σ its s1 hs) Q.
Proof using All.
  intros s1 vs1 HI Hsize Hnits Hmore Hlt HQ. pose proof (li_space _ _ _ _ _ HI) as [Ht _ _ _ Hu Hso]. unfold infos_of in *. lcbn.
  destruct (same_table sizes s (set_growing false s) vs None eq_refl eq_refl eq_refl eq_refl) as (S1 & _ & _).
  assert (table_ok sizes s1 vs1) as Ht1 by (by apply (table_ok_installed (set_growing false s) vs size it nits); [apply S1|..]).
  assert (is_table_size s = Z.of_nat (length vs)) as Hlen by (rewrite (ta_length _ _ _ Ht); by rewrite (Forall2_length _ _ _ (ta_views _ _ _ Ht))).
  assert (∀ n, find vs1 m (info <$> its) n = find vs m (info <$> its) n) as Hfind by (intros n; unfold find, vs1; by rewrite vfind_new).
  pose proof (table_pos _ _ _ Ht) as Hpos. eapply wp_mono; [eapply (wp_for_range _ (λ i k, ∃ s2, k = K sp ss σ its s2 hs ∧ unhashed s2 = unhashed s1 ∧ local_upto i s2 vs1))|].
  - lia.
  - exists s1. split; [done|]. split; [done|]. apply local_upto_0.
    + split; [apply (ta_length _ _ _ Ht1)|]. cbn. lia.
    + intros h [? _]. by eapply (slot_installed (set_growing false s) vs); [apply S1|].
  - intros i k Hi (s2 & -> & Hs2 & Hl2). eapply wp_rehash; [exact Ht1| | |cbn; lia|done|done].
    + by eapply unique_ext; [exact Hfind|].
    + intros n ρ. rewrite Hfind. apply Hso.
  - intros [] k (s2 & -> & Hs2 & Hl2). rewrite Z.add_0_l in Hl2. apply HQ; [done| |done]. by eapply table_ok_unhashed.
Qed.

(** What the second section leaves behind. *)
Definition grown (x x' : lst) (its nits : nat) : Prop :=
  lheld x' = None ∧ (∃ size, sizes !! its = Some size ∧ flags (ls x') = (true, false, size, nits)) ∧
  spare (lA x') = spare (lA x) ∧ kept (lA x) (lA x') ∧ ∀ n, names x' n = names x n.

Definition not_grown (x x' : lst) : Prop := x' = L (lA x) (lσ x) (lits x) (set_growing false (ls x)) (lhs x) (lvs x) (lm x) (lheld x).

Lemma wp_grow_install x target its nits allocated :
  linv x → lheld x = None → pending (ls x) target its nits →
  lwp (grow_install sizes sp target its nits allocated) x (λ r x',
    match r with
    | Some (KERN_RESOURCE_SHORTAGE, false) => allocated = false ∧ not_grown x x'
    | Some (KERN_SUCCESS, true) => allocated = true ∧ is_active (ls x) = false ∧ not_grown x x'
    | None => allocated = true ∧ is_active (ls x) = true ∧ grown x x' its nits
    | _ => False
    end).
Proof using All.
  intros HI Hheld (Hnits & Hnext & (size & Hsize & Hlt) & [nsize Hnsize] & Htarget). destruct x as [A σ ms s hs vs m held]. lcbn. subst held.
  assert (linv (L A σ ms (set_growing false s) hs vs m None)) as HI0 by by apply linv_growing.
  unfold lwp, kst. lcbn. apply wp_bind, wp_K_update. destruct allocated; cbn [negb].
  2: { apply wp_ret. eexists. split; [|split; [exact HI0|]]; done. }
  apply wp_bind, wp_K_space_of. destruct (is_active (set_growing false s)) eqn:Hact; cbn [negb].
  2: { apply wp_ret. eexists. split; [|split; [exact HI0|]]; done. }
  pose proof (li_space _ _ _ _ _ HI) as [Ht _ _ Htr Hu Hso]. unfold infos_of in *. lcbn. cbn in Hact.
  eapply wp_bind, wp_its_size; [done|]. eapply wp_bind, wp_its_size; [done|]. eapply wp_bind, wp_its_size; [apply Ht|]. cbn [is_table_next set_growing is_table_size].
  apply wp_bind, wp_assert. { destruct target; [apply orb_true_r|]. rewrite (Htarget eq_refl). by rewrite bool_decide_true. }
  apply wp_bind, wp_assert; [apply Z.eqb_refl|]. apply wp_bind, wp_K_update. set (osize := is_table_size s) in *.
  apply wp_bind. eapply (wp_rehash_all A σ ms s hs vs m size its nits); [done..|]. intros s2 Hs2 Ht2 Hl2. fold osize in Ht2, Hl2.
  pose proof (unhashed_fields _ _ Hs2) as [= F1 F2 F3 F4 F5]. pose proof (table_pos _ _ _ Ht) as Hpos. fold osize in Hpos.
  pose proof (ginv_start A σ ms s s2 hs vs m size nits HI Hact Hlt Hs2 Ht2 Hl2) as HG. fold osize in HG.
  set (f := names (L A σ ms s hs vs m None)) in *.
  assert (size ≤ nsize) as Hle by (subst nits; by eapply sizes_step).
  assert (unique_sends f) as Hunique by exact Hu.
  assert (∀ n ρ, f n = Some ρ → IE_BITS_TYPE (r_bits ρ) = MACH_PORT_TYPE_SEND → r_object ρ ≠ IO_NULL) as Hsound.
  { intros n ρ Hn Hty. by destruct (Hso n ρ Hn Hty) as [?|[]]. }
  assert (0 < osize < size) as Hrange by lia.
  apply wp_bind, wp_K_space_of. apply wp_bind, wp_assert; [by rewrite (ta_fast _ _ _ Ht2)|].
  assert (rest sp A A) as HR by (apply rest_refl, HI).
  assert (∀ A' σ' its' s' hs' vs' m', ginv osize size nits f A' σ' None its' s' hs' vs' m' [] → tree_at A' (is_tree sp) = Some m' → rest sp A A' →
    is_tree_small s' = Z.of_nat (base.size (indices m' size nsize)) → (∀ n e, m !! n = Some e → e ∈ zone A' ∨ m' !! n = Some e) →
    wp (free_rest osize size) (K sp ss σ' its' s' hs') (λ r k, ∃ x', k = kst x' ∧ linv x' ∧
      r = None ∧ grown (L A σ ms s hs vs m None) x' its nits)) as Hlast.
  { intros A' σ' its' s' hs' vs' m' HG' Hm' HRA Hsmall Hout. eapply wp_mono; [eapply (wp_free_rest osize size nsize nits f Hrange Hnsize Hle Hunique Hsound); [done|done|apply HRA|done]|].
    intros r k (x' & -> & HI' & -> & Hheld' & Hfl & <- & Hn'). exists x'. split; [done|]. split; [done|]. split; [done|]. split_and!; [done|by exists size|apply HRA| |done].
    eapply (rest_kept sizes Hsizes sp F X0 HF A (lA x') m m'); [done|apply HI|done|]. intros n l Hl. destruct (Hout n l Hl); eauto. }
  eapply wp_mono with (λ r k, ∃ x', k = kst x' ∧ linv x' ∧ r = None ∧ grown (L A σ ms s hs vs m None) x' its nits).
  2: { intros r k (x' & -> & HI' & -> & Hgr). by exists x'. }
  apply wp_bind. destruct (Z.ltb_spec 0 (is_tree_total s2)) as [Htot|Htot].
  - eapply (wp_grow_tree osize size nsize nits f Hrange Hnsize Hle Hunique Hsound A σ ms s2 hs _ m); [done|apply HI|done|]. intros. by eapply Hlast.
  - apply wp_ret. assert (m = ∅) as ->. { apply map_size_empty_inv. pose proof (mv_total _ _ _ _ _ (g_tree _ _ _ _ _ _ _ _ _ _ _ _ _ HG)). lia. }
    assert (elems (slice osize size ∅) = []) as Hels by (apply nil_length_inv; by rewrite length_elems). rewrite Hels in HG.
    eapply Hlast; [exact HG|apply HI|done| |by right]. rewrite F4. cbn. destruct (ta_more _ _ _ Ht) as [ns Hns]. rewrite (tr_small _ _ _ _ _ _ _ Htr _ Hns).
    assert (∀ lo hi, indices ∅ lo hi = ∅) as Hemp; [|by rewrite !Hemp]. intros lo hi. apply set_eq. intros i. rewrite elem_of_indices.
    split; [|set_solver]. intros [(n & e & Hn & _) _]. done.
Qed.

(** ** The third section *)

Lemma wp_grow_again x target its nits :
  linv x → lheld x = None → is_Some (sizes !! its) → is_Some (sizes !! nits) →
  lwp (grow_again sizes sp target its nits) x (λ g x', lA x' = lA x ∧ lheld x' = None ∧ (∀ n, names x' n = names x n) ∧
    (g = Grow_return KERN_SUCCESS true ∧ x' = x ∨ is_active (ls x) = true ∧ grow_decided sizes (ls x) (ls x') target g)).
Proof using All.
  intros HI Hheld [size Hsize] [nsize Hnsize]. destruct x as [A σ ms s hs vs m held]. lcbn. subst held. unfold lwp, kst. lcbn.
  apply wp_bind, wp_K_space_of. destruct (is_active s) eqn:Hact; cbn [negb orb].
  2: { apply wp_ret. eexists. split; [|split; [exact HI|]]; [done|]. split_and!; [done..|by left]. }
  destruct (bool_decide (is_table_next s = nits)); cbn [negb].
  2: { apply wp_ret. eexists. split; [|split; [exact HI|]]; [done|]. split_and!; [done..|by left]. }
  eapply wp_bind, wp_its_size; [done|]. eapply wp_bind, wp_its_size; [done|].
  destruct ((0 <? is_tree_small s) && ((nsize - size) * 16 <? is_tree_small s * 32)).
  2: { apply wp_ret. eexists. split; [|split; [exact HI|]]; [done|]. split_and!; [done..|by left]. }
  pose proof (li_space _ _ _ _ _ HI) as [Ht _ _ _ _ _]. lcbn. eapply (wp_grow_begin sizes Hsizes sp ss _ _ _ _ vs); [done..|]. intros r s' Hr.
  eexists (L A σ ms s' hs vs m None). split; [done|]. split; [by eapply grow_decided_linv|]. split_and!; [done..|]. right. by split.
Qed.

End grow.
