(* ===== verification/IpcSpace.v ===== *)
(** * xnu IPC spaces: calls and their specification

    A client of the spaces: the calls of ipc_entry.c and ipc_hash.c with what their
    callers do before they release the lock of the space, creation of a space
    (ipc_space.c, with the field kern/ipc_tt.c sets) and its death, and the sizes of
    tables (ipc_table.c).  The specification is a finite map from names to rights for
    every space. *)

From S2P Require Import Prelude IpcSplay IpcSplayCorrect IpcHash IpcEntry IpcEntryInv IpcEntryOps.

Module Space.
Export Entry.

Local Abbreviation MK := (M kernel).

(** ** Sizes of tables *)

Definition PAGE_SIZE : Z := 4096.

(** The powers of two below the page size, from the first that is not below [minsize]. *)
Fixpoint fill_powers (fuel : nat) (num : nat) (minsize elemsize size : Z) : list Z * Z :=
  match fuel with
  | O => ([], size)
  | S fuel =>
      match num with
      | O => ([], size)
      | S num' =>
          if size <? PAGE_SIZE then
            if minsize <=? size then
              let '(l, size') := fill_powers fuel num' minsize elemsize (2 * size) in (size / elemsize :: l, size')
            else fill_powers fuel num minsize elemsize (2 * size)
          else ([], size)
      end
  end.

(** Fifteen sizes with each increment; [period] of them are done. *)
Fixpoint fill_pages (fuel : nat) (num : nat) (minsize elemsize size incrsize : Z) (period : nat) : list Z :=
  match fuel, num with
  | S fuel, S num' =>
      if bool_decide (period < 15)%nat then
        if minsize <=? size then size / elemsize :: fill_pages fuel num' minsize elemsize (size + incrsize) incrsize (S period)
        else fill_pages fuel num minsize elemsize (size + incrsize) incrsize (S period)
      else fill_pages fuel num minsize elemsize size (if incrsize <? Z.shiftl PAGE_SIZE 3 then 2 * incrsize else incrsize) 0
  | _, _ => []
  end.

Definition ipc_table_fill (num : nat) (min elemsize : Z) : list Z :=
  let minsize := min * elemsize in
  let '(l, size) := fill_powers 64 num minsize elemsize 1 in
  l ++ fill_pages (2 * num) (num - length l) minsize elemsize size PAGE_SIZE 0.

Definition ipc_table_entries_size : nat := 512.

(** [ipc_table_init]: the last two elements have the same size. *)
Definition ipc_table_entries : list Z :=
  let l := ipc_table_fill (ipc_table_entries_size - 1) 16 16 in l ++ [default 0 (last l)].

Section calls.
Context (sizes : list Z).

(** ** Creation and death *)

(** [table[index]] of a new space. *)
Definition initial_entry (new_size index : Z) : ipc_entry :=
  Ie IO_NULL IE_BITS_GEN_MASK (if index =? new_size - 1 then 0 else index + 1) 0.

Definition put_space (sp : positive) (s : ipc_space) : MK unit :=
  λ k, Ok (tt, Kernel (tmem k) (items k) (<[sp := s]> (spaces k)) (ihgb_head k)).

(** [memory]: whether the space and its table could be allocated; [fast] is what the
    memory holds in the field that is not set here. *)
Definition ipc_space_create (sp : positive) (initial : nat) (memory fast : bool) : MK kern_return :=
  if negb memory then mret KERN_RESOURCE_SHORTAGE
  else
    new_size ← its_size sizes initial;
    _ ← in_tree (ipc_splay_tree_init (is_tree sp));
    _ ← put_space sp (Is true false (initial_entry new_size <$> seqZ 0 new_size) new_size (S initial) 0 0 0 fast);
    mret KERN_SUCCESS.

Definition set_fast (b : bool) (s : ipc_space) : ipc_space :=
  Is (is_active s) (is_growing s) (is_table s) (is_table_size s) (is_table_next s) (is_tree_total s) (is_tree_small s) (is_tree_hash s) b.

(** The part of [ipc_task_init] that is about the space. *)
Definition task_space (sp : positive) (memory fast : bool) : MK kern_return :=
  kr ← ipc_space_create sp 0 memory fast;
  _ ← (if bool_decide (kr = KERN_SUCCESS) then update_space sp (set_fast false) else mret tt);
  mret kr.

(** The first section of [ipc_space_destroy]: whether the space was active. *)
Definition ipc_space_mark (sp : positive) : MK bool :=
  s ← space_of sp;
  _ ← update_space sp (set_active false);
  mret (is_active s).

(** ** Callers *)

Definition IE_BITS_RIGHT_MASK : Z := 0x7fffff.

(** The fields of an entry that callers use. *)
Definition read_entry (sp : positive) (ref : entry_ref) : MK right :=
  match ref with
  | In_table i => e ← entry_at sp i; mret (Right (Z.land (ie_bits e) IE_BITS_RIGHT_MASK) (ie_object e) (ie_request e))
  | In_tree e => t ← get_item e; mret (Right (Z.land (ite_bits t) IE_BITS_RIGHT_MASK) (ite_object t) (ite_request t))
  end.

Definition with_entry (sp : positive) (name : Z) (f : entry_ref → MK unit) : MK (option right) :=
  r ← ipc_entry_lookup sp name;
  match r with
  | None => mret None
  | Some ref => ρ ← read_entry sp ref; _ ← f ref; mret (Some ρ)
  end.

(** [NewItem]: [ite_alloc] before a round of [ipc_entry_alloc_name]; the memory has
    some contents.  [Drop]: [ite_free], when the table could not grow.  A round fills
    in the entry unless the name is in use. *)
Inductive call :=
| Create (sp : positive) (memory fast : bool)
| Mark (sp : positive)
| NewItem (e : loc) (name : Z) (l r : option loc) (t : ipc_tree_entry)
| Drop (e : loc)
| Lookup (sp : positive) (name : Z)
| Reverse (sp : positive) (obj : Z)
| Alloc (sp : positive) (bits obj : Z)
| AllocName (sp : positive) (name : Z) (tentry : option loc) (bits obj : Z)
| Request (sp : positive) (name q : Z)
| Release (sp : positive) (name : Z)
| Grow (sp : positive) (target : option Z)
| Install (sp : positive) (target : option Z) (its nits : nat) (allocated : bool)
| Again (sp : positive) (target : option Z) (its nits : nat).

Inductive reply :=
| Returned (kr : kern_return)
| Was (active : bool)
| Done
| Found (o : option right)
| Named (o : option Z)
| Allocated (a : alloc_state)
| Grows (g : grow_state)
| Installed (o : option (kern_return * bool)).

Definition perform (c : call) : MK reply :=
  match c with
  | Create sp memory fast => kr ← task_space sp memory fast; mret (Returned kr)
  | Mark sp => b ← ipc_space_mark sp; mret (Was b)
  | NewItem e name l r t => _ ← in_tree (ite_alloc e name l r); _ ← alloc_item e t; mret Done
  | Drop e => _ ← free_tentry (Some e); mret Done
  | Lookup sp name => o ← with_entry sp name (λ _, mret tt); mret (Found o)
  | Reverse sp obj => o ← ipc_hash_lookup sp obj; mret (Named (fst <$> o))
  | Alloc sp bits obj =>
      a ← ipc_entry_alloc sizes sp;
      _ ← (match a with Alloc_done name ref => fill_entry sp name ref bits obj | _ => mret tt end);
      mret (Allocated a)
  | AllocName sp name tentry bits obj =>
      a ← ipc_entry_alloc_name sizes sp name tentry;
      _ ← (match a with
           | Alloc_done name ref => ρ ← read_entry sp ref; if no_type (r_bits ρ) then fill_entry sp name ref bits obj else mret tt
           | _ => mret tt
           end);
      mret (Allocated a)
  | Request sp name q => o ← with_entry sp name (λ ref, set_request sp ref q); mret (Found o)
  | Release sp name =>
      o ← with_entry sp name (λ ref, _ ← clear_entry sp name ref; ipc_entry_dealloc sizes sp name ref); mret (Found o)
  | Grow sp target => g ← grow_begin sizes sp target; mret (Grows g)
  | Install sp target its nits allocated => o ← grow_install sizes sp target its nits allocated; mret (Installed o)
  | Again sp target its nits => g ← grow_again sizes sp target its nits; mret (Grows g)
  end.

(** ** The specification *)

(** A space: its rights by name, whether it is active, the size of its table and the
    table that is being allocated. *)
Record aspace := ASpace {
  a_active : bool;
  a_rights : gmap Z right;
  a_size : Z;
  a_next : nat;
  a_grow : option (option Z * nat * nat);
}.

(** All spaces, and the tree entries that clients have allocated. *)
Record astate := AState { a_spaces : gmap positive aspace; a_spare : gset loc }.

Definition on_space (a : astate) (sp : positive) (x : aspace) : astate := AState (<[sp := x]> (a_spaces a)) (a_spare a).
Definition with_rights (m : gmap Z right) (x : aspace) : aspace := ASpace (a_active x) m (a_size x) (a_next x) (a_grow x).
Definition with_grow (g : option (option Z * nat * nat)) (x : aspace) : aspace := ASpace (a_active x) (a_rights x) (a_size x) (a_next x) g.
Definition with_active (b : bool) (x : aspace) : aspace := ASpace b (a_rights x) (a_size x) (a_next x) (a_grow x).
Definition with_size (size : Z) (next : nat) (x : aspace) : aspace := ASpace (a_active x) (a_rights x) size next None.
Definition without_item (tentry : option loc) (a : astate) : astate :=
  AState (a_spaces a) (match tentry with Some e => a_spare a ∖ {[e]} | None => a_spare a end).

Definition fillable (m : gmap Z right) (ρ : right) : Prop :=
  right_ok ρ ∧ (IE_BITS_TYPE (r_bits ρ) = MACH_PORT_TYPE_SEND → r_object ρ ≠ IO_NULL) ∧
  (is_send ρ → ∀ n ρ', m !! n = Some ρ' → is_send ρ' → r_object ρ' ≠ r_object ρ).

(** Whether the table, not the tree, has the name. *)
Definition in_table (k : kernel) (sp : positive) (name : Z) : bool :=
  match spaces k !! sp ≫= λ s, is_table s !z MACH_PORT_INDEX name with
  | Some e => negb (no_type (ie_bits e)) && (IE_BITS_GEN (ie_bits e) =? MACH_PORT_GEN name)
  | None => false
  end.

(** The contract of a call: what a client must know.  [zone0] has the addresses the
    zone of tree entries may hand out, [rooms] those of spaces. *)
Definition permitted (zone0 : gset loc) (rooms : gset positive) (k : kernel) (a : astate) (c : call) : Prop :=
  match c with
  | Create sp _ _ => sp ∈ rooms ∧ a_spaces a !! sp = None
  | Mark sp => is_Some (a_spaces a !! sp)
  | NewItem e _ _ _ _ => e ∈ zone0 ∧ ite_name (tmem k) !! e = None
  | Drop e => e ∈ a_spare a
  | Lookup sp name => ∃ x, a_spaces a !! sp = Some x ∧ a_active x = true ∧ 0 ≤ name
  | Reverse sp obj => is_Some (a_spaces a !! sp) ∧ obj ≠ IO_NULL
  | Alloc sp bits obj => ∃ x, a_spaces a !! sp = Some x ∧ fillable (a_rights x) (Right bits obj 0)
  | AllocName sp name tentry bits obj => ∃ x, a_spaces a !! sp = Some x ∧ fillable (a_rights x) (Right bits obj 0) ∧
      tree_name name ∧ ∀ e, tentry = Some e → e ∈ a_spare a ∧ in_table k sp name = false
  | Request sp name _ | Release sp name => ∃ x, a_spaces a !! sp = Some x ∧ a_active x = true ∧ 0 ≤ name
  | Grow sp _ => ∃ x, a_spaces a !! sp = Some x ∧ a_active x = true
  | Install sp target its nits _ => ∃ x, a_spaces a !! sp = Some x ∧ a_grow x = Some (target, its, nits)
  | Again sp target its nits => is_Some (a_spaces a !! sp) ∧ is_Some (sizes !! its) ∧ is_Some (sizes !! nits)
  end.

(** What is decided about growing. *)
Definition grows (x x' : aspace) (target : option Z) (g : grow_state) : Prop :=
  match g with
  | Grow_sleep => is_Some (a_grow x) ∧ x' = x
  | Grow_return KERN_SUCCESS false => a_grow x = None ∧ x' = x ∧ ∃ t, target = Some t ∧ t ≤ a_size x
  | Grow_return KERN_NO_SPACE false => a_grow x = None ∧ x' = x ∧
      match target with None => sizes !! a_next x = Some (a_size x) | Some t => a_size x < t end
  | Grow_return _ _ => False
  | Grow_alloc its nits => a_grow x = None ∧ x' = with_grow (Some (target, its, nits)) x ∧ nits = S its ∧
      ∃ size, sizes !! its = Some size ∧ a_size x < size ∧ ∀ t, target = Some t → t ≤ size
  end.

(** Every index of the table has a name. *)
Definition full (x : aspace) : Prop := ∀ i, 0 < i < a_size x → ∃ n ρ, a_rights x !! n = Some ρ ∧ MACH_PORT_INDEX n = i.

(** The replies a call may have, and the state after it. *)
Definition answers (a : astate) (c : call) (r : reply) (a' : astate) : Prop :=
  match c, r with
  | Create sp memory _, Returned kr =>
      if memory then kr = KERN_SUCCESS ∧ ∃ size, sizes !! 0%nat = Some size ∧ a' = on_space a sp (ASpace true ∅ size 1 None)
      else kr = KERN_RESOURCE_SHORTAGE ∧ a' = a
  | Mark sp, Was b => ∃ x, a_spaces a !! sp = Some x ∧ b = a_active x ∧ a' = on_space a sp (with_active false x)
  | NewItem e _ _ _ _, Done => a' = AState (a_spaces a) ({[e]} ∪ a_spare a)
  | Drop e, Done => a' = without_item (Some e) a
  | Lookup sp name, Found o => ∃ x, a_spaces a !! sp = Some x ∧ o = a_rights x !! name ∧ a' = a
  | Reverse sp obj, Named o => ∃ x, a_spaces a !! sp = Some x ∧ a' = a ∧
      match o with
      | Some n => ∃ ρ, a_rights x !! n = Some ρ ∧ is_send ρ ∧ r_object ρ = obj
      | None => ∀ n ρ, a_rights x !! n = Some ρ → is_send ρ → r_object ρ ≠ obj
      end
  | Alloc sp bits obj, Allocated st => ∃ x, a_spaces a !! sp = Some x ∧
      match st with
      | Alloc_done n (In_table i) => a_active x = true ∧ MACH_PORT_VALID n = true ∧ i = MACH_PORT_INDEX n ∧ a_rights x !! n = None ∧
          a' = on_space a sp (with_rights (<[n := Right bits obj 0]> (a_rights x)) x)
      | Alloc_failed kr => kr = KERN_INVALID_TASK ∧ a_active x = false ∧ a' = a
      | Alloc_grow g => a_active x = true ∧ full x ∧ ∃ x', grows x x' None g ∧ a' = on_space a sp x'
      | _ => False
      end
  | AllocName sp name tentry bits obj, Allocated st => ∃ x, a_spaces a !! sp = Some x ∧
      match st with
      | Alloc_done n _ => n = name ∧ a_active x = true ∧
          a' = without_item tentry (match a_rights x !! name with
                                    | Some _ => a
                                    | None => on_space a sp (with_rights (<[name := Right bits obj 0]> (a_rights x)) x)
                                    end)
      | Alloc_failed kr => kr = KERN_INVALID_TASK ∧ a_active x = false ∧ a' = without_item tentry a
      | Alloc_grow g => a_active x = true ∧ g ≠ Grow_return KERN_NO_SPACE false ∧ ∃ x', grows x x' None g ∧ a' = on_space a sp x'
      | Alloc_item => a_active x = true ∧ tentry = None ∧ a_rights x !! name = None ∧ a' = a
      end
  | Request sp name q, Found o => ∃ x, a_spaces a !! sp = Some x ∧ o = a_rights x !! name ∧
      a' = match o with Some ρ => on_space a sp (with_rights (<[name := with_request q ρ]> (a_rights x)) x) | None => a end
  | Release sp name, Found o => ∃ x, a_spaces a !! sp = Some x ∧ o = a_rights x !! name ∧
      a' = match o with Some _ => on_space a sp (with_rights (delete name (a_rights x)) x) | None => a end
  | Grow sp target, Grows g => ∃ x x', a_spaces a !! sp = Some x ∧ grows x x' target g ∧ a' = on_space a sp x'
  | Install sp target its nits allocated, Installed o => ∃ x, a_spaces a !! sp = Some x ∧
      match o with
      | Some (KERN_RESOURCE_SHORTAGE, false) => allocated = false ∧ a' = on_space a sp (with_grow None x)
      | Some (KERN_SUCCESS, true) => allocated = true ∧ a_active x = false ∧ a' = on_space a sp (with_grow None x)
      | None => allocated = true ∧ a_active x = true ∧ ∃ size, sizes !! its = Some size ∧ a' = on_space a sp (with_size size nits x)
      | _ => False
      end
  | Again sp target its nits, Grows g => ∃ x, a_spaces a !! sp = Some x ∧
      (g = Grow_return KERN_SUCCESS true ∧ a' = a ∨ a_active x = true ∧ ∃ x', grows x x' target g ∧ a' = on_space a sp x')
  | _, _ => False
  end.

(** ** Histories *)

(** At boot no space exists and the global buckets are empty. *)
Record booted (zone0 : gset loc) (rooms : gset positive) (k : kernel) : Prop := {
  bo_memory : ∃ A, IpcSplayCorrect.boot (tmem k) A ∧ IpcSplayCorrect.zone A = zone0 ∧
    (∀ v, v ∈ [v_small; v_collisions; v_move; v_ignore] → is_Some (IpcSplayCorrect.trees A !! v)) ∧
    ∀ sp, sp ∈ rooms → is_Some (IpcSplayCorrect.trees A !! is_tree sp);
  bo_spaces : spaces k = ∅;
  bo_buckets : ∃ n, ihgb_head k = replicate (2 ^ n) None;
}.

(** The states of kernel and specification that permitted calls lead to. *)
Inductive reached (zone0 : gset loc) (rooms : gset positive) : kernel → astate → Prop :=
| reached_boot k : booted zone0 rooms k → reached zone0 rooms k (AState ∅ ∅)
| reached_call k a c r k' a' :
    reached zone0 rooms k a → permitted zone0 rooms k a c → perform c k = Ok (r, k') → answers a c r a' → reached zone0 rooms k' a'.

End calls.

End Space.
