(* ===== verification/IpcSpaceCorrect.v ===== *)
(** * xnu IPC spaces: correctness

    The invariant of all spaces, opened at the space a call is about, and the
    simulation: in every state that permitted calls lead to, a permitted call
    returns, with a reply the specification allows. *)

From Stdlib Require Import ZifyBool.
From S2P Require Import Prelude IpcSplay IpcSplayOps IpcSplayCorrect IpcForest IpcHash IpcEntry IpcEntryInv IpcHashGlobal IpcEntryOps IpcEntryDealloc IpcEntryAlloc IpcEntryGrow IpcSpace.

Import Space.

Section correct.
Context (sizes : list Z) (Hsizes : sizes_ok sizes) (zone0 : gset loc) (rooms : gset positive).

(** ** The invariant *)

Definition grow_ok (x : aspace) : Prop :=
  ∀ target its nits, a_grow x = Some (target, its, nits) →
    nits = S its ∧ (a_next x ≤ its)%nat ∧ (∃ size, sizes !! its = Some size ∧ a_size x < size) ∧ is_Some (sizes !! nits) ∧
    (target = None → its = a_next x).

Record abstracts (x : aspace) (s : ipc_space) (f : Z → option right) : Prop := {
  ab_flags : flags s = (a_active x, bool_decide (a_grow x ≠ None), a_size x, a_next x);
  ab_grow : grow_ok x;
  ab_rights : ∀ n, f n = a_rights x !! n;
}.

(** One space: the tree, the views and the map. *)
Definition one_space (A : spec) (X : infos) (sp : positive) (s : option ipc_space) (x : option aspace) (m : option (gmap Z loc)) : Prop :=
  match s, x, m with
  | Some s, Some x, Some m => tree_at A (is_tree sp) = Some m ∧ ∃ vs, space_inv sizes sp s vs m X None ∧ abstracts x s (find vs m X)
  | None, None, None => tree_at A (is_tree sp) = None
  | _, _, _ => False
  end.

(** The rest of the kernel changes. *)
Lemma one_space_infos A A' X X' sp s x m :
  (∀ m' n e, m = Some m' → m' !! n = Some e → X' !! e = X !! e) → tree_at A' (is_tree sp) = tree_at A (is_tree sp) →
  one_space A X sp s x m → one_space A' X' sp s x m.
Proof.
  intros HX Htree. unfold one_space. rewrite Htree. destruct s as [s|], x as [x|], m as [m|]; try done.
  intros (Hm & vs & [Ht Hfr Hl Htr Hu Hso] & [B1 B2 B3]). split; [done|]. exists vs.
  assert (∀ n e, m !! n = Some e → X' !! e = X !! e) as HX' by (intros n e; by apply HX).
  assert (∀ n, find vs m X' n = find vs m X n) as Hfind by (intros n; unfold find; by rewrite (tfind_infos m X)).
  split; split; try done; [by eapply tree_ok_infos|by eapply unique_ext|intros n ρ; rewrite Hfind; apply Hso|intros n; by rewrite Hfind].
Qed.

Definition hashed (ms : gmap positive (gmap Z loc)) (X : infos) (e : loc) : Prop :=
  ∃ sp m n ρ, ms !! sp = Some m ∧ m !! n = Some e ∧ X !! e = Some (ρ, sp) ∧ is_send ρ.

Record kinv (A : spec) (ms : gmap positive (gmap Z loc)) (k : kernel) (a : astate) : Prop := {
  ki_trees : trees_are (tmem k) A None;
  ki_locals : ∀ v, v ∈ [v_small; v_collisions; v_move; v_ignore] → is_Some (trees A !! v);
  ki_spare : spare A = a_spare a;
  ki_items : ∀ e, e ∈ spare A → is_Some (items k !! e);
  ki_zone : ∀ e, e ∈ zone0 → accounted A e;
  ki_rooms : ∀ sp, sp ∈ rooms → is_Some (trees A !! is_tree sp);
  ki_spaces : ∀ sp, one_space A (info <$> items k) sp (spaces k !! sp) (a_spaces a !! sp) (ms !! sp);
  ki_buckets : ∃ bs, buckets (ihgb_head k) (items k) (hashed ms (info <$> items k)) bs;
}.

(** ** One space in focus *)

Section focus.
Context (A : spec) (ms : gmap positive (gmap Z loc)) (k : kernel) (a : astate) (HK : kinv A ms k a) (sp : positive) (x : aspace).
Hypothesis (Hx : a_spaces a !! sp = Some x).

Let F := delete sp ms.
Let X0 := info <$> items k.

Lemma focus_others sp' m : F !! sp' = Some m → sp' ≠ sp ∧ ∀ n e, m !! n = Some e → ∃ ρ, X0 !! e = Some (ρ, sp').
Proof using HK.
  intros [Hne Hm]%lookup_delete_Some. split; [done|]. intros n e He. pose proof (ki_spaces _ _ _ _ HK sp') as H. rewrite Hm in H.
  destruct (spaces k !! sp'), (a_spaces a !! sp'); try done. destruct H as (_ & vs & [_ _ _ Htr _ _] & _).
  destruct (tr_info _ _ _ _ _ _ _ Htr _ _ He) as (ρ & HX & _). eauto.
Qed.

Lemma focus_map :
  ∃ y, ms !! sp = Some (lm y) ∧ k = kst sp (spaces k) y ∧ linv sizes sp F X0 y ∧ lA y = A ∧ lheld y = None ∧ abstracts x (ls y) (names y).
Proof using HK Hx.
  pose proof (ki_spaces _ _ _ _ HK sp) as H. rewrite Hx in H. destruct (spaces k !! sp) as [s|] eqn:Hs; [|done].
  destruct (ms !! sp) as [m|] eqn:Hm; [|done]. destruct H as (Htree & vs & Hsi & Hab).
  exists (L A (tmem k) (items k) s (ihgb_head k) vs m None). split; [done|]. split; [by apply K_focus|]. split; [|done].
  destruct HK as [K1 K2 K3 K4 K5 K6 K7 [bs K8]]. split; lcbn; try done.
  - exists bs. eapply buckets_ext; [|exact K8]. intros e. unfold hashed, here, elsewhere. split.
    + intros (sp' & m' & n & ρ & Hm' & Hn & HX & Hs'). destruct (decide (sp' = sp)) as [->|Hne].
      * left. exists n, ρ. assert (m' = m) as -> by congruence. done.
      * right. exists sp', m', n, ρ. split; [|done]. by apply lookup_delete_Some.
    + intros [(n & ρ & Hn & HX & Hs')|(sp' & m' & n & ρ & [_ Hm']%lookup_delete_Some & ?)]; [by exists sp, m, n, ρ|by exists sp', m', n, ρ].
  - intros sp' m' [Hne Hm']%lookup_delete_Some. pose proof (K7 sp') as H. rewrite Hm' in H.
    destruct (spaces k !! sp'), (a_spaces a !! sp'); try done. by destruct H.
Qed.

Lemma focus : ∃ y, k = kst sp (spaces k) y ∧ linv sizes sp F X0 y ∧ lA y = A ∧ lheld y = None ∧ abstracts x (ls y) (names y).
Proof using HK Hx. destruct focus_map as (y & _ & ?). eauto. Qed.

Lemma unfocus y x' :
  linv sizes sp F X0 y → lheld y = None → kept sp A (lA y) → abstracts x' (ls y) (names y) →
  kinv (lA y) (<[sp := lm y]> ms) (kst sp (spaces k) y) (AState (<[sp := x']> (a_spaces a)) (spare (lA y))).
Proof using HK Hx.
  intros [L1 L2 L3 L4 L5 [bs L6] L7 L8] Hheld (Kp1 & Kp2 & Kp3) Hab. destruct HK as [K1 K2 K3 K4 K5 K6 K7 _].
  unfold infos_of in *. split; try done; cbn [tmem items spaces ihgb_head kst K a_spaces a_spare].
  - intros e He. by apply Kp1, K5.
  - intros sp' Hsp'. by apply Kp2, K6.
  - intros sp'. destruct (decide (sp' = sp)) as [->|Hne].
    + rewrite !lookup_insert_eq. split; [done|]. exists (lvs y). rewrite Hheld in L5. done.
    + rewrite !lookup_insert_ne by done. eapply one_space_infos; [|by apply Kp3|apply K7].
      intros m' n e Hm' He. apply (L8 sp' m' n e); [|done]. by apply lookup_delete_Some.
  - exists bs. eapply buckets_ext; [|exact L6]. intros e. unfold hashed, here, elsewhere. split.
    + intros [(n & ρ & Hn & HX & Hs')|(sp' & m' & n & ρ & Hm' & Hn & HX & Hs')].
      * exists sp, (lm y), n, ρ. by rewrite lookup_insert_eq.
      * exists sp', m', n, ρ. rewrite (L8 _ _ _ _ Hm' Hn). apply lookup_delete_Some in Hm' as [Hne Hm']. by rewrite lookup_insert_ne.
    + intros (sp' & m' & n & ρ & Hm' & Hn & HX & Hs'). destruct (decide (sp' = sp)) as [->|Hne].
      * rewrite lookup_insert_eq in Hm'. injection Hm' as <-. left. by exists n, ρ.
      * rewrite lookup_insert_ne in Hm' by done. right. assert (F !! sp' = Some m') as HFm by (by apply lookup_delete_Some).
        exists sp', m', n, ρ. by rewrite <- (L8 _ _ _ _ HFm Hn).
Qed.

(** A call on the space: [P] relates the reply and the state of the specification. *)
Lemma call_space {R} (m : M kernel R) (P : R → astate → Prop) :
  (∀ y, linv sizes sp F X0 y → lA y = A → lheld y = None → abstracts x (ls y) (names y) → spaces k !! sp = Some (ls y) →
     lwp sizes sp (spaces k) F X0 m y (λ r y', lheld y' = None ∧ kept sp A (lA y') ∧
       ∃ x', abstracts x' (ls y') (names y') ∧ P r (AState (<[sp := x']> (a_spaces a)) (spare (lA y'))))) →
  wp m k (λ r k', ∃ A' ms' a', kinv A' ms' k' a' ∧ P r a').
Proof using HK Hx.
  intros Hm. destruct focus as (y & Hk & HI & HA & Hheld & Hab).
  assert (spaces k !! sp = Some (ls y)) as Hs by (rewrite Hk; cbn; apply lookup_insert_eq).
  rewrite Hk at 1. eapply wp_mono; [by apply Hm|]. intros r k' (y' & -> & HI' & Hheld' & Hkept & x' & Hab' & HP).
  do 3 eexists. split; [by apply (unfocus y' x')|done].
Qed.

End focus.

Lemma kept_refl sp A : kept sp A A.
Proof. by split_and!. Qed.

Lemma given_back_kept sp A A' tentry : given_back A A' tentry → (∀ e, tentry = Some e → e ∈ spare A) → kept sp A A'.
Proof.
  intros [Ht Hsp] Hin. split_and!.
  - intros e [He|[He|(sp' & m & n & Hm & Hn)]].
    + left. destruct tentry; destruct Hsp as [_ ->]; set_solver.
    + destruct tentry as [l|]; destruct Hsp as [Hs Hz]; [|right; left; by rewrite Hs].
      destruct (decide (e = l)) as [->|]; [left|right; left]; set_solver.
    + right; right. exists sp', m, n. split; [|done]. rewrite <- Hm. unfold tree_at. by rewrite Ht.
  - intros v. by rewrite Ht.
  - intros sp' _. unfold tree_at. by rewrite Ht.
Qed.

Lemma on_space_id a sp x : a_spaces a !! sp = Some x → AState (<[sp := x]> (a_spaces a)) (a_spare a) = a.
Proof. intros Hx. rewrite insert_id by done. by destruct a. Qed.

Lemma mkbits_read g c r : right_bits r → Z.land (mkbits g c r) IE_BITS_RIGHT_MASK = r.
Proof.
  intros Hr. unfold mkbits, gbits. rewrite !Z.land_lor_distr_l, land_shiftl_low by done. rewrite Z.lor_0_l.
  assert (Z.land r IE_BITS_RIGHT_MASK = r) as -> by (apply (land_low_ones r 23); [done|unfold right_bits in Hr; lia]).
  destruct c; [|done]. change (Z.land (cbits true) IE_BITS_RIGHT_MASK) with 0. done.
Qed.

Lemma abstracts_ext x s s' f f' : abstracts x s f → flags s' = flags s → (∀ n, f' n = f n) → abstracts x s' f'.
Proof. intros [B1 B2 B3] Hfl Hf. split; [by rewrite Hfl|done|intros n; by rewrite Hf]. Qed.

Lemma abstracts_rights x s s' f f' m :
  abstracts x s f → flags s' = flags s → (∀ n, f' n = m !! n) → abstracts (with_rights m x) s' f'.
Proof. intros [B1 B2 B3] Hfl Hf. split; [by rewrite Hfl|done|done]. Qed.

Section space_calls.
Context (sp : positive) (ss : gmap positive ipc_space) (F : gmap positive (gmap Z loc)) (X0 : infos).
Hypothesis (HF : ∀ sp' m, F !! sp' = Some m → sp' ≠ sp ∧ ∀ n e, m !! n = Some e → ∃ ρ, X0 !! e = Some (ρ, sp')).

Local Abbreviation linv := (linv sizes sp F X0).
Local Abbreviation lwp := (lwp sizes sp ss F X0).
Local Abbreviation refers := (refers sp).

Lemma lwp_map {A B} (m : M kernel A) (f : A → B) y (Q : B → lst → Prop) : lwp m y (λ o y', Q (f o) y') → lwp (o ← m; mret (f o)) y Q.
Proof. intros Hm. apply (lwp_bind sizes sp ss F X0). eapply lwp_mono; [exact Hm|]. intros o y' HI HQ. apply wp_ret. by exists y'. Qed.

Lemma still_names y y' : still y y' → ∀ n, names y' n = names y n.
Proof. intros (_ & _ & E1 & E2 & _ & E3) n. unfold names. by rewrite E1, E2, E3. Qed.

Lemma still_abstracts y y' x : still y y' → abstracts x (ls y) (names y) → abstracts x (ls y') (names y').
Proof. intros Hst Hab. eapply abstracts_ext; [done| |by apply still_names]. by destruct Hst as (_ & -> & _). Qed.

Lemma wp_read y ref name ρ (Q : right → lst → Prop) :
  linv y → lheld y = None → refers y ref name ρ → Q ρ y → lwp (read_entry sp ref) y Q.
Proof using All.
  intros HI Hheld Href HQ. pose proof (li_space _ _ _ _ _ HI) as [Ht _ _ Htr _ _]. destruct ref as [i|e].
  - destruct Href as (-> & c & Hv). destruct (table_view _ _ _ _ _ Ht Hv) as (e & He & Hg & [Hr _] & Hb & Ho & Hq).
    eapply wp_bind, wp_K_entry; [done|]. apply wp_ret. exists y. split; [done|]. split; [done|].
    rewrite Hb, Ho, Hq, mkbits_read by done. by destruct ρ.
  - destruct Href as [Hm HX]. destruct (tr_info _ _ _ _ _ _ _ Htr _ _ Hm) as (ρ' & HX' & Hok). rewrite Hheld in Hok. destruct Hok as [?|[Hr _]]; [done|].
    unfold infos_of in *. assert (ρ' = ρ) as -> by congruence. destruct (item_info _ _ _ _ HX) as (t & Htt & <- & _).
    eapply wp_bind, wp_K_item; [done|]. apply wp_ret. exists y. split; [done|]. split; [done|].
    cbn in Hr.
    assert (Z.land (ite_bits t) IE_BITS_RIGHT_MASK = ite_bits t) as -> by (apply (land_low_ones _ 23); [done|unfold right_bits in Hr; lia]). done.
Qed.

Lemma wp_with_entry y name f (Q : option right → lst → Prop) :
  linv y → lheld y = None → 0 ≤ name → is_active (ls y) = true →
  (∀ y1, linv y1 → still y y1 → names y name = None → Q None y1) →
  (∀ y1 ref ρ, linv y1 → still y y1 → refers y1 ref name ρ → names y name = Some ρ → lwp (f ref) y1 (λ _ y2, Q (Some ρ) y2)) →
  lwp (with_entry sp name f) y Q.
Proof using All.
  intros HI Hheld Hname Hact Hnone Hsome. apply (lwp_bind sizes sp ss F X0).
  eapply lwp_mono; [by apply wp_entry_lookup|]. intros [ref|] y1 HI1 [Hst Hr].
  - destruct Hr as [ρ Href]. assert (lheld y1 = None) as Hheld1 by (destruct Hst as (_ & _ & _ & _ & -> & _); done).
    apply (lwp_bind sizes sp ss F X0). eapply wp_read; [done..|]. apply (lwp_bind sizes sp ss F X0).
    eapply lwp_mono; [apply (Hsome y1 ref ρ); try done|].
    + rewrite <- (still_names y y1 Hst). by eapply refers_names.
    + intros u y2 HI2 HQ. apply wp_ret. by exists y2.
  - apply wp_ret. exists y1. split; [done|]. split; [done|]. by apply Hnone.
Qed.

End space_calls.

(** ** The calls *)

Section calls.
Context (A : spec) (ms : gmap positive (gmap Z loc)) (k : kernel) (a : astate) (HK : kinv A ms k a).

(** The result of a call: the invariant again, and a reply that the specification allows. *)
Definition serves (c : call) : Prop :=
  wp (perform sizes c) k (λ r k', ∃ A' ms' a', kinv A' ms' k' a' ∧ answers sizes a c r a').

(** The post-condition of [call_space]. *)
Definition settles (sp : positive) (y : lst) (P : astate → Prop) : Prop :=
  lheld y = None ∧ kept sp A (lA y) ∧ ∃ x, abstracts x (ls y) (names y) ∧ P (AState (<[sp := x]> (a_spaces a)) (spare (lA y))).

Section one.
Context (sp : positive) (x : aspace) (Hx : a_spaces a !! sp = Some x).
Context (y : lst) (HI : linv sizes sp (delete sp ms) (info <$> items k) y) (HA : lA y = A) (Hheld : lheld y = None) (Hab : abstracts x (ls y) (names y)).

Lemma settles_same y1 (P : astate → Prop) :
  lheld y1 = None → lA y1 = A → flags (ls y1) = flags (ls y) → (∀ n, names y1 n = names y n) → P a → settles sp y1 P.
Proof using HK Hx Hab.
  intros Hh EA Hfl Hn HP. split; [done|]. rewrite EA. split; [apply kept_refl|]. exists x. split; [by eapply abstracts_ext|].
  by rewrite (ki_spare _ _ _ _ HK), (on_space_id _ _ _ Hx).
Qed.

Lemma settles_still y1 (P : astate → Prop) : still y y1 → P a → settles sp y1 P.
Proof using HK Hx Hab HA Hheld.
  intros Hst HP. pose proof (still_names _ _ Hst). destruct Hst as (E1 & E2 & _ & _ & E5 & _). apply settles_same; [congruence|congruence|congruence|done|done].
Qed.

(** One name has changed. *)
Lemma settles_put y1 name o (P : astate → Prop) :
  lheld y1 = None → spare (lA y1) = spare A → kept sp A (lA y1) → flags (ls y1) = flags (ls y) → (∀ n, names y1 n = put name o (names y) n) →
  P (on_space a sp (with_rights (match o with Some ρ => <[name := ρ]> (a_rights x) | None => delete name (a_rights x) end) x)) →
  settles sp y1 P.
Proof using HK Hx Hab.
  intros Hh Hsp Hk Hfl Hn HP. split; [done|]. split; [done|]. eexists. split; [|rewrite Hsp, (ki_spare _ _ _ _ HK); exact HP].
  eapply abstracts_rights; [done|done|]. intros n. rewrite Hn. unfold put. destruct (decide (n = name)) as [->|Hne].
  - destruct o; [by rewrite lookup_insert_eq|by rewrite lookup_delete_eq].
  - destruct o; [rewrite lookup_insert_ne by done|rewrite lookup_delete_ne by done]; apply Hab.
Qed.

(** A decision about growing. *)
Lemma grow_abstracts s' f' target g :
  grow_decided sizes (ls y) s' target g → (∀ n, f' n = names y n) → ∃ x', grows sizes x x' target g ∧ abstracts x' s' f'.
Proof using Hab.
  intros Hg Hn. pose proof Hab as [B1 B2 B3]. pose proof B1 as [= E1 E2 E3 E4].
  assert (is_growing (ls y) = false → a_grow x = None) as Hnone.
  { intros Hgr. rewrite Hgr in E2. symmetry in E2. apply bool_decide_eq_false in E2. by apply dec_stable. }
  destruct g as [kr locked| |its nits]; cbn in Hg.
  - destruct kr, locked; try done; destruct Hg as (Hgr & -> & Hg); exists x; (split; [|by eapply abstracts_ext]);
      (split; [by apply Hnone|]); (split; [done|]); rewrite <- ?E3, <- ?E4; done.
  - destruct Hg as [Hgr ->]. exists x. split; [|by eapply abstracts_ext]. split; [|done]. rewrite Hgr in E2. symmetry in E2.
    apply bool_decide_eq_true in E2. destruct (a_grow x); [by eexists|done].
  - destruct Hg as (Hgr & -> & -> & Hle & (size & Hs & Hlt & Ht) & Hmore & Hnext). exists (with_grow (Some (target, its, S its)) x). split.
    + split; [by apply Hnone|]. split; [done|]. split; [done|]. exists size. rewrite <- E3. done.
    + split; [|intros t i n [= <- <- <-]; cbn; rewrite <- E3, <- E4; eauto 8|intros n; rewrite Hn; apply Hab]. unfold flags. cbn. by rewrite E1, E3, E4.
Qed.

Lemma settles_grow y1 target g (P : astate → Prop) :
  lheld y1 = None → lA y1 = A → (∀ n, names y1 n = names y n) → grow_decided sizes (ls y) (ls y1) target g →
  (∀ x', grows sizes x x' target g → P (on_space a sp x')) → settles sp y1 P.
Proof using HK Hx Hab.
  intros Hh EA Hn Hg HP. destruct (grow_abstracts (ls y1) (names y1) target g Hg Hn) as (x' & Hgr & Hab').
  split; [done|]. rewrite EA. split; [apply kept_refl|]. exists x'. split; [done|]. rewrite (ki_spare _ _ _ _ HK). by apply HP.
Qed.

(** A table without a free entry. *)
Lemma full_table : next_of (ls y) 0 = 0 → full x.
Proof using Hab HI Hheld.
  intros Hz i Hi. pose proof (li_space _ _ _ _ _ HI) as [Ht Hfr _ _ _ _]. pose proof (ab_flags _ _ _ Hab) as [= E1 E2 E3 E4]. rewrite Hheld in Hfr.
  destruct (table_range _ _ _ i Ht) as [v Hv]; [lia|]. destruct v as [g|g c ρ].
  - assert (gap None i) as Hgap by (eapply free_ok_none; [done..|lia]). done.
  - destruct (table_view _ _ _ _ _ Ht Hv) as (e & _ & Hg & _). exists (mkname i g), ρ. rewrite index_mkname by done. split; [|done].
    rewrite <- (ab_rights _ _ _ Hab). unfold names, find, vfind. rewrite index_mkname, gen_mkname, Hv by done. cbn. by rewrite decide_True.
Qed.

Lemma fillable_may y1 ρ : fillable (a_rights x) ρ → (∀ n ρ', names y1 n = Some ρ' → is_send ρ' → names y n = Some ρ') → may_fill y1 ρ.
Proof using Hab.
  intros (F1 & F2 & F3) Hn. split_and!; [done|done|]. intros Hs n ρ' Hn' Hs'. apply (F3 Hs n); [|done].
  rewrite <- (ab_rights _ _ _ Hab). by apply Hn.
Qed.

End one.

Local Abbreviation others sp := (focus_others A ms k a HK sp).

Lemma serve_lookup sp name : permitted sizes zone0 rooms k a (Lookup sp name) → serves (Lookup sp name).
Proof using All.
  intros (x & Hx & Hact & Hname). eapply (call_space A ms k a HK sp x Hx). intros y HI HA Hheld Hab _.
  pose proof (ab_flags _ _ _ Hab) as [= E1 E2 E3 E4]. apply lwp_map. eapply (wp_with_entry sp (spaces k) _ _ (others sp)); [done|done|done|congruence|..].
  - intros y1 HI1 Hst Hn. eapply (settles_still sp x Hx y HA Hheld Hab); [done|]. exists x. split; [done|]. split; [|done]. by rewrite <- (ab_rights _ _ _ Hab).
  - intros y1 ref ρ HI1 Hst Href Hn. apply wp_ret. exists y1. split; [done|]. split; [done|].
    eapply (settles_still sp x Hx y HA Hheld Hab); [done|]. exists x. split; [done|]. split; [|done]. by rewrite <- (ab_rights _ _ _ Hab).
Qed.

Lemma serve_reverse sp obj : permitted sizes zone0 rooms k a (Reverse sp obj) → serves (Reverse sp obj).
Proof using All.
  intros ([x Hx] & Hobj). eapply (call_space A ms k a HK sp x Hx). intros y HI HA Hheld Hab _. apply lwp_map.
  eapply lwp_mono; [by apply (wp_hash_lookup sizes Hsizes sp (spaces k) _ _ (others sp))|]. intros r y1 HI1 [Hst Hr].
  eapply (settles_still sp x Hx y HA Hheld Hab); [done|]. exists x. split; [done|]. split; [done|]. destruct r as [[n ref]|]; cbn.
  - destruct Hr as (ρ & Href & Hs & Ho). exists ρ. split; [|done]. rewrite <- (ab_rights _ _ _ Hab), <- (still_names _ _ Hst). by eapply refers_names.
  - intros n ρ. rewrite <- (ab_rights _ _ _ Hab). apply Hr.
Qed.

Lemma serve_request sp name q : permitted sizes zone0 rooms k a (Request sp name q) → serves (Request sp name q).
Proof using All.
  intros (x & Hx & Hact & Hname). eapply (call_space A ms k a HK sp x Hx). intros y HI HA Hheld Hab _.
  pose proof (ab_flags _ _ _ Hab) as [= E1 E2 E3 E4]. apply lwp_map. eapply (wp_with_entry sp (spaces k) _ _ (others sp)); [done|done|done|congruence|..].
  - intros y1 HI1 Hst Hn. eapply (settles_still sp x Hx y HA Hheld Hab); [done|]. exists x. split; [done|]. split; [|done]. by rewrite <- (ab_rights _ _ _ Hab).
  - intros y1 ref ρ HI1 Hst Href Hn. pose proof (still_names _ _ Hst) as Hst'. destruct Hst as (S1 & S2 & _ & _ & S5 & _).
    eapply lwp_mono; [apply (wp_set_request sizes Hsizes sp (spaces k) _ _ (others sp)); [done|congruence|done]|]. intros u y2 HI2 (EA & R1 & R2 & R3).
    eapply (settles_put sp x Hx y Hab y2 name (Some (with_request q ρ))); [done|congruence| |congruence| |].
    + assert (lA y2 = A) as -> by congruence. apply kept_refl.
    + intros n. rewrite R3. unfold put. by rewrite Hst'.
    + exists x. split; [done|]. split; [by rewrite <- (ab_rights _ _ _ Hab)|done].
Qed.

Lemma serve_release sp name : permitted sizes zone0 rooms k a (Release sp name) → serves (Release sp name).
Proof using All.
  intros (x & Hx & Hact & Hname). eapply (call_space A ms k a HK sp x Hx). intros y HI HA Hheld Hab _.
  pose proof (ab_flags _ _ _ Hab) as [= E1 E2 E3 E4]. apply lwp_map. eapply (wp_with_entry sp (spaces k) _ _ (others sp)); [done|done|done|congruence|..].
  - intros y1 HI1 Hst Hn. eapply (settles_still sp x Hx y HA Hheld Hab); [done|]. exists x. split; [done|]. split; [|done]. by rewrite <- (ab_rights _ _ _ Hab).
  - intros y1 ref ρ HI1 Hst Href Hn. pose proof (still_names _ _ Hst) as Hst'. destruct Hst as (S1 & S2 & _ & _ & S5 & _).
    eapply lwp_mono; [apply (wp_release sizes Hsizes sp (spaces k) _ _ (others sp) y1 name ref ρ); [done|congruence|done|congruence]|]. intros u y2 HI2 (R1 & R2 & R3 & R4 & R5).
    rewrite S1, HA in R3, R4. eapply (settles_put sp x Hx y Hab y2 name None); [done|done|done|congruence| |].
    + intros n. rewrite R5. unfold put. by rewrite Hst'.
    + exists x. split; [done|]. split; [by rewrite <- (ab_rights _ _ _ Hab)|done].
Qed.

(** *** Growing *)

Lemma serve_grow sp target : permitted sizes zone0 rooms k a (Grow sp target) → serves (Grow sp target).
Proof using All.
  intros (x & Hx & Hact). eapply (call_space A ms k a HK sp x Hx). intros y HI HA Hheld Hab _. apply lwp_map.
  pose proof (ab_flags _ _ _ Hab) as [= E1 E2 E3 E4]. pose proof (li_space _ _ _ _ _ HI) as [Ht _ _ _ _ _].
  eapply (wp_grow_begin sizes Hsizes sp (spaces k) (lσ y) (lits y) (ls y) (lhs y) (lvs y)); [done|by rewrite E1|].
  intros g s' Hg. exists (L (lA y) (lσ y) (lits y) s' (lhs y) (lvs y) (lm y) (lheld y)). split; [done|]. split.
  { destruct y. by eapply grow_decided_linv. }
  eapply (settles_grow sp x Hx y Hab _ target g); [done|done|by destruct y|done|]. intros x' Hgr. by exists x, x'.
Qed.

Lemma serve_again sp target its nits : permitted sizes zone0 rooms k a (Again sp target its nits) → serves (Again sp target its nits).
Proof using All.
  intros ([x Hx] & Hits & Hnits). eapply (call_space A ms k a HK sp x Hx). intros y HI HA Hheld Hab _. apply lwp_map.
  pose proof (ab_flags _ _ _ Hab) as [= E1 E2 E3 E4].
  eapply lwp_mono; [by apply (wp_grow_again sizes Hsizes sp (spaces k) _ _ (others sp))|]. intros g y1 HI1 (EA & Eh & En & [[-> ->]|[Hact Hg]]).
  - eapply (settles_same sp x Hx y Hab); [done|congruence|done|done|]. exists x. split; [done|]. by left.
  - eapply (settles_grow sp x Hx y Hab _ target g); [done|congruence|done|done|]. intros x' Hgr. exists x. split; [done|]. right. split; [congruence|]. by exists x'.
Qed.

Lemma serve_install sp target its nits b : permitted sizes zone0 rooms k a (Install sp target its nits b) → serves (Install sp target its nits b).
Proof using All.
  intros (x & Hx & Hgrow). eapply (call_space A ms k a HK sp x Hx). intros y HI HA Hheld Hab _. apply lwp_map.
  pose proof (ab_flags _ _ _ Hab) as [= E1 E2 E3 E4]. destruct (ab_grow _ _ _ Hab _ _ _ Hgrow) as (G1 & G2 & (size & G3 & G4) & G5 & G6).
  eapply lwp_mono; [apply (wp_grow_install sizes Hsizes sp (spaces k) _ _ (others sp)); [done|done|]|].
  { split_and!; [done|lia| |done|by rewrite E4]. exists size. rewrite E3. done. }
  assert (∀ y1, not_grown y y1 → abstracts (with_grow None x) (ls y1) (names y1) ∧ lheld y1 = None ∧ kept sp A (lA y1) ∧ spare (lA y1) = a_spare a) as Hnot.
  { intros y1 ->. cbn [ls lheld lA]. rewrite HA, (ki_spare _ _ _ _ HK). split; [|split; [done|split; [apply kept_refl|done]]].
    split; [unfold flags; cbn; by rewrite E1, E3, E4|done|]. intros n. rewrite <- (ab_rights _ _ _ Hab). by destruct y. }
  intros [[kr locked]|] y1 HI1 Hr.
  - destruct kr, locked; try done; destruct Hr as [Hb Hr].
    + destruct Hr as [Hin (N1 & N2 & N3 & N4)%Hnot]. split; [done|]. split; [done|]. exists (with_grow None x). split; [done|]. rewrite N4. exists x.
      split; [done|]. split; [done|]. split; [congruence|done].
    + apply Hnot in Hr as (N1 & N2 & N3 & N4). split; [done|]. split; [done|]. exists (with_grow None x). split; [done|]. rewrite N4. by exists x.
  - destruct Hr as (Hb & Hact & Hh & (size' & Hs' & Hfl) & Hsp & Hk & Hn). rewrite HA in Hsp, Hk. split; [done|]. split; [done|].
    exists (with_size size' nits x). split; [|rewrite Hsp, (ki_spare _ _ _ _ HK); exists x; split; [done|]; split; [done|]; split; [congruence|]; by exists size'].
    split; [rewrite Hfl; cbn; congruence|done|]. intros n. rewrite Hn. apply Hab.
Qed.

(** *** Allocation *)

Lemma serve_alloc sp bits obj : permitted sizes zone0 rooms k a (Alloc sp bits obj) → serves (Alloc sp bits obj).
Proof using All.
  intros (x & Hx & Hfill). eapply (call_space A ms k a HK sp x Hx). intros y HI HA Hheld Hab _. pose proof (ab_flags _ _ _ Hab) as [= E1 E2 E3 E4].
  apply (lwp_bind sizes sp (spaces k) _ _). eapply lwp_mono; [by apply (wp_entry_alloc sizes Hsizes sp (spaces k) _ _ (others sp))|].
  intros st y1 HI1 (EA & En & Hr). destruct st as [name [i|]|kr|g|]; try done.
  - destruct Hr as (Hact & Hfl & Hfresh). apply lwp_map. eapply lwp_mono.
    { apply (wp_fill_table sizes Hsizes sp (spaces k) _ _ (others sp)); [done|done|]. eapply (fillable_may x y Hab); [done|]. intros n ρ'. by rewrite En. }
    intros u y2 HI2 (EA2 & R1 & R2 & R3). assert (lA y2 = A) as EA' by congruence.
    eapply (settles_put sp x Hx y Hab y2 name (Some (Right bits obj 0))); [done|by rewrite EA'|rewrite EA'; apply kept_refl|congruence| |].
    + intros n. rewrite R3. unfold put. by rewrite En.
    + exists x. split; [done|]. split; [congruence|]. split; [by eapply (fresh_valid sizes Hsizes sp _ _ (others sp) y1)|].
      split; [destruct Hfresh as (_ & _ & _ & g & _ & Hg & ->); by rewrite index_mkname|]. split; [|done].
      rewrite <- (ab_rights _ _ _ Hab), <- En. by eapply fresh_names.
  - destruct Hr as (-> & Hact & ->). apply lwp_map. apply wp_ret. exists y. split; [done|]. split; [done|].
    eapply (settles_same sp x Hx y Hab); try done. exists x. split; [done|]. split; [done|]. split; [congruence|done].
  - destruct Hr as (Hact & Hh & Hz & Hg). apply lwp_map. apply wp_ret. exists y1. split; [done|]. split; [done|].
    eapply (settles_grow sp x Hx y Hab _ None g); [done|congruence|done|done|]. intros x' Hgr. exists x. split; [done|]. split; [congruence|].
    split; [by apply (full_table sp x y HI Hheld Hab)|]. by exists x'.
Qed.

Lemma in_table_vfind sp y name :
  linv sizes sp (delete sp ms) (info <$> items k) y → spaces k !! sp = Some (ls y) → in_table k sp name = false → vfind (lvs y) name = None.
Proof using All.
  intros HI Hs Hno. pose proof (li_space _ _ _ _ _ HI) as [Ht _ _ _ _ _]. unfold in_table in Hno. rewrite Hs in Hno. cbn in Hno.
  unfold vfind. destruct (lvs y !z MACH_PORT_INDEX name) as [v|] eqn:Hv; [|done]. cbn. destruct (table_view _ _ _ _ _ Ht Hv) as (e & He & Hev).
  rewrite He in Hno. destruct v as [g|g c ρ]; [done|]. pose proof Hev as (Hg & [Hr _] & Hb & _).
  rewrite (entry_used _ _ _ _ Hev), Hb, mkbits_gen, gen_test in Hno by done. apply bool_decide_eq_false in Hno. cbn. by rewrite decide_False.
Qed.

(** An entry without a right, as its caller sees it. *)
Lemma wp_read_fresh sp y ref :
  linv sizes sp (delete sp ms) (info <$> items k) y →
  (∃ name i, ref = In_table i ∧ fresh y name i) ∨ (∃ name e, ref = In_tree e ∧ fresh_tree sp y name e) →
  lwp sizes sp (spaces k) (delete sp ms) (info <$> items k) (read_entry sp ref) y (λ ρ y', y' = y ∧ no_type (r_bits ρ) = true).
Proof using All.
  intros HI [(name & i & -> & _ & _ & _ & g & Hv & Hg & _)|(name & e & -> & _ & Hm & HX)].
  - pose proof (li_space _ _ _ _ _ HI) as [Ht _ _ _ _ _]. destruct (table_view _ _ _ _ _ Ht Hv) as (e & He & _ & Hb & _).
    eapply wp_bind, wp_K_entry; [done|]. apply wp_ret. exists y. split; [done|]. split; [done|]. split; [done|]. cbn [r_bits].
    by rewrite Hb, gbits_mkbits, mkbits_read.
  - destruct (item_info _ _ _ _ HX) as (t & Ht & Hr & _). eapply wp_bind, wp_K_item; [done|]. apply wp_ret. exists y.
    split; [done|]. split; [done|]. split; [done|]. cbn [r_bits]. injection Hr as -> _ _. done.
Qed.

Lemma given_back_spare A' tentry : given_back A A' tentry → spare A' = a_spare (without_item tentry a).
Proof using All. intros [_ Hs]. destruct tentry; destruct Hs as [-> _]; cbn; by rewrite (ki_spare _ _ _ _ HK). Qed.

Lemma serve_alloc_name sp name tentry bits obj :
  permitted sizes zone0 rooms k a (AllocName sp name tentry bits obj) → serves (AllocName sp name tentry bits obj).
Proof using All.
  intros (x & Hx & Hfill & Hname & Htentry). eapply (call_space A ms k a HK sp x Hx). intros y HI HA Hheld Hab Hs. pose proof (ab_flags _ _ _ Hab) as [= E1 E2 E3 E4].
  assert (∀ e, tentry = Some e → e ∈ spare (lA y) ∧ vfind (lvs y) name = None) as Ht.
  { intros e [He Hno]%Htentry. rewrite HA, (ki_spare _ _ _ _ HK). split; [done|]. by eapply in_table_vfind. }
  assert (∀ e, tentry = Some e → e ∈ spare A) as Hin by (intros e He; rewrite <- HA; by apply Ht).
  assert (MACH_PORT_VALID name = true) as Hvalid by (destruct Hname as [? _]; unfold MACH_PORT_VALID, MACH_PORT_NULL; lia).
  apply (lwp_bind sizes sp (spaces k) _ _). eapply lwp_mono; [apply (wp_entry_alloc_name sizes Hsizes sp (spaces k) _ _ (others sp)); try done; apply Hname|].
  intros st y1 HI1 Hr. destruct st as [n ref|kr|g|].
  - destruct Hr as (-> & Hact & Hfl & Hnamed). apply lwp_map. apply (lwp_bind sizes sp (spaces k) _ _).
    destruct Hnamed as [(ρ & Href & Hh & G & En)|[(i & -> & Hfresh & G & En)|(e & -> & -> & Hnone & _ & Hfresh & Hsp & Hk & En)]].
    + eapply (wp_read sp (spaces k) _ _ (others sp)); [done..|]. pose proof (refers_names _ _ _ _ _ _ _ _ HI1 Href) as Hn.
      assert (right_ok ρ) as [_ Hty]. { pose proof (li_space _ _ _ _ _ HI1) as [Ht1 _ _ Htr1 _ _]. destruct ref as [i|e].
        - destruct Href as (-> & c & Hv). destruct (table_view _ _ _ _ _ Ht1 Hv) as (e & _ & _ & Hok & _). done.
        - destruct Href as [Hm HX]. destruct (tr_info _ _ _ _ _ _ _ Htr1 _ _ Hm) as (ρ' & HX' & Hok). rewrite Hh in Hok.
          destruct Hok as [?|Hok]; [done|]. unfold infos_of in *. congruence. }
      unfold no_type. rewrite (proj2 (Z.eqb_neq _ _)) by done. apply wp_ret. exists y1. split; [done|]. split; [done|].
      split; [done|]. rewrite HA in G. split; [by eapply given_back_kept|]. exists x. split; [by eapply abstracts_ext|]. exists x.
      split; [done|]. split; [done|]. split; [congruence|]. rewrite <- (ab_rights _ _ _ Hab), <- En, Hn. unfold without_item. rewrite (given_back_spare _ _ G).
      by rewrite insert_id.
    + eapply lwp_mono; [apply (wp_read_fresh sp y1); [done|]; left; by exists name, i|]. intros ρ y2 _ [-> Hno]. rewrite Hno. eapply lwp_mono.
      { apply (wp_fill_table sizes Hsizes sp (spaces k) _ _ (others sp)); [done|done|]. eapply (fillable_may x y Hab); [done|]. intros n ρ'. by rewrite En. }
      intros u y2 HI2 (EA & R1 & R2 & R3). rewrite HA in G. rewrite <- EA in G. split; [done|]. split; [by eapply given_back_kept|].
      exists (with_rights (<[name := Right bits obj 0]> (a_rights x)) x). split.
      * eapply abstracts_rights; [done|congruence|]. intros n. rewrite R3. unfold put. case_decide as Hn; [subst n; by rewrite lookup_insert_eq|].
        rewrite lookup_insert_ne by done. rewrite En. apply Hab.
      * exists x. split; [done|]. split; [done|]. split; [congruence|]. rewrite <- (ab_rights _ _ _ Hab), <- En, (fresh_names _ _ _ _ _ _ _ HI1 Hfresh).
        by rewrite (given_back_spare _ _ G).
    + eapply lwp_mono; [apply (wp_read_fresh sp y1); [done|]; right; by exists name, e|]. intros ρ y2 _ [-> Hno]. rewrite Hno. eapply lwp_mono.
      { apply (wp_fill_tree sizes Hsizes sp (spaces k) _ _ (others sp)); [done|done|]. eapply (fillable_may x y Hab); [done|]. intros n ρ'. rewrite En. unfold put.
        case_decide; [|done]. intros [= <-] Hs'. by apply no_right_send in Hs'. }
      intros u y2 HI2 (EA & R1 & R2 & R3). rewrite HA in Hsp, Hk. rewrite <- EA in Hsp, Hk. split; [done|]. split; [done|].
      exists (with_rights (<[name := Right bits obj 0]> (a_rights x)) x). split.
      * eapply abstracts_rights; [done|congruence|]. intros n. rewrite R3. unfold put. case_decide as Hn; [subst n; by rewrite lookup_insert_eq|].
        rewrite lookup_insert_ne by done. rewrite En. unfold put. rewrite decide_False by done. apply Hab.
      * exists x. split; [done|]. split; [done|]. split; [congruence|]. rewrite <- (ab_rights _ _ _ Hab), Hnone.
        by rewrite Hsp, (ki_spare _ _ _ _ HK).
  - destruct Hr as (-> & Hact & Es & Hh & G & En). apply lwp_map. apply wp_ret. exists y1. split; [done|]. split; [done|].
    rewrite HA in G. split; [done|]. split; [by eapply given_back_kept|]. exists x. split; [eapply abstracts_ext; [done|by rewrite Es|done]|].
    exists x. split; [done|]. split; [done|]. split; [congruence|]. rewrite (given_back_spare _ _ G). unfold without_item. by rewrite insert_id.
  - destruct Hr as (Hact & EA & Hh & En & Hg & Hgr). apply lwp_map. apply wp_ret. exists y1. split; [done|]. split; [done|].
    eapply (settles_grow sp x Hx y Hab _ None g); [done|congruence|done|done|]. intros x' Hgr'. exists x. split; [done|]. split; [congruence|]. split; [done|]. by exists x'.
  - destruct Hr as (Hact & -> & Hst & Hnone). apply lwp_map. apply wp_ret. exists y1. split; [done|]. split; [done|].
    eapply (settles_still sp x Hx y HA Hheld Hab); [done|]. exists x. split; [done|]. split; [congruence|]. split; [done|]. split; [|done].
    by rewrite <- (ab_rights _ _ _ Hab).
Qed.

(** *** Death *)

Lemma serve_mark sp : permitted sizes zone0 rooms k a (Mark sp) → serves (Mark sp).
Proof using All.
  intros [x Hx]. eapply (call_space A ms k a HK sp x Hx). intros y HI HA Hheld Hab _. pose proof (ab_flags _ _ _ Hab) as [= E1 E2 E3 E4].
  apply lwp_map. apply wp_bind, wp_K_space_of. apply wp_bind, wp_K_update. apply wp_ret.
  exists (L (lA y) (lσ y) (lits y) (set_active false (ls y)) (lhs y) (lvs y) (lm y) (lheld y)). split; [done|]. split.
  { pose proof (li_space _ _ _ _ _ HI) as [Ht Hfr Hl Htr Hu Hso]. destruct y as [Ay σ its s hs vs m held]. lcbn. eapply linv_table; [exact HI|].
    destruct (same_table sizes s (set_active false s) vs held eq_refl eq_refl eq_refl eq_refl) as (S1 & S2 & S3).
    split; [by apply S1|by apply S2|by apply S3| |done|done]. by eapply (tree_ok_fields _ _ s). }
  split; [done|]. lcbn. rewrite HA. split; [apply kept_refl|]. exists (with_active false x). split.
  - split; [unfold flags; cbn; by rewrite E2, E3, E4|apply (ab_grow _ _ _ Hab)|]. intros n. rewrite <- (ab_rights _ _ _ Hab). by destruct y.
  - exists x. rewrite (ki_spare _ _ _ _ HK). by split_and!.
Qed.

(** *** Memory *)

Lemma tree_entry sp m n e : ms !! sp = Some m → m !! n = Some e → tree_at A (is_tree sp) = Some m.
Proof using All.
  intros Hm _. pose proof (ki_spaces _ _ _ _ HK sp) as H. rewrite Hm in H. destruct (spaces k !! sp), (a_spaces a !! sp); try done. by destruct H.
Qed.

(** A tree entry that is in no tree is allocated or freed. *)
Lemma kinv_item A' σ' its' e :
  trees_are σ' A' None → trees A' = trees A → (∀ l, l ≠ e → its' !! l = items k !! l) →
  (∀ sp m n, ms !! sp = Some m → m !! n ≠ Some e) →
  (∀ l, l ∈ spare A' → l ≠ e → l ∈ spare A) → (e ∈ spare A' → is_Some (its' !! e)) → (∀ l, accounted A l → accounted A' l) →
  kinv A' ms (Kernel σ' its' (spaces k) (ihgb_head k)) (AState (a_spaces a) (spare A')).
Proof using All.
  intros Hσ Ht Hits Hno Hsp He Hacc. pose proof HK as [K1 K2 K3 K4 K5 K6 K7 [bs K8]].
  assert (∀ sp m n l, ms !! sp = Some m → m !! n = Some l → l ≠ e) as Hne by (intros sp m n l Hm Hl ->; by eapply Hno).
  assert (∀ sp m n l, ms !! sp = Some m → m !! n = Some l → (info <$> its') !! l = (info <$> items k) !! l) as HX.
  { intros sp m n l Hm Hl. rewrite !lookup_fmap, Hits; [done|]. by eapply Hne. }
  split; cbn [tmem items spaces ihgb_head a_spaces a_spare]; try done; rewrite ?Ht; try done.
  - intros l Hl. destruct (decide (l = e)) as [->|]; [by apply He|]. rewrite Hits by done. by apply K4, Hsp.
  - intros l Hl. by apply Hacc, K5.
  - intros sp. eapply one_space_infos; [|unfold tree_at; by rewrite Ht|apply K7]. intros m' n l. apply HX.
  - exists bs. eapply (buckets_ext _ _ (hashed ms (info <$> items k))).
    + intros l. unfold hashed. split; intros (sp & m & n & ρ & Hm & Hn & H & Hs); exists sp, m, n, ρ; rewrite (HX sp m n l Hm Hn) in *; done.
    + apply (buckets_items _ (items k)); [|done]. intros l (sp & m & n & ρ & Hm & Hn & _). apply Hits. by eapply Hne.
Qed.

Lemma serve_item e name l r t : permitted sizes zone0 rooms k a (NewItem e name l r t) → serves (NewItem e name l r t).
Proof using All.
  intros [He Hfree]. pose proof (ki_trees _ _ _ _ HK) as K1. assert (e ∈ zone A) as Hz.
  { destruct (ki_zone _ _ _ _ HK e He) as [?|[Hs|(sp & m & n & Hm & Hn)]]; [done| |].
    - apply (trees_spare_name _ _ _ K1) in Hs as [? ?]. congruence.
    - apply (trees_name _ _ _ K1 _ _ _ _ Hm) in Hn. congruence. }
  unfold serves. cbn [perform]. unfold wp, mbind, M_bind, in_tree.
  pose proof (trees_alloc _ _ _ K1 e name l r Hz) as Hwp. unfold wp in Hwp. destruct (ite_alloc e name l r (tmem k)) as [[[] σ']|]; [|done].
  eexists (Spec (trees A) ({[e]} ∪ spare A) (zone A ∖ {[e]})), ms, _. split.
  - apply (kinv_item _ _ _ e); [done|done|..]; cbn [spare tmem items].
    + intros l' Hl. by apply lookup_insert_ne.
    + intros sp m n Hm Hn. by destruct (trees_spare _ _ _ K1 _ _ _ _ (tree_entry sp m n e Hm Hn) Hn).
    + set_solver.
    + intros _. by rewrite lookup_insert_eq.
    + intros l' [?|[?|?]]; [|right; left; cbn; set_solver|by right; right].
      destruct (decide (l' = e)) as [->|]; [right; left|left]; cbn; set_solver.
  - cbn. by rewrite (ki_spare _ _ _ _ HK).
Qed.

Lemma serve_drop e : permitted sizes zone0 rooms k a (Drop e) → serves (Drop e).
Proof using All.
  cbn [permitted]. rewrite <- (ki_spare _ _ _ _ HK). intros He. pose proof (ki_trees _ _ _ _ HK) as K1.
  unfold serves. cbn [perform]. unfold wp, free_tentry, mbind, M_bind, in_tree.
  pose proof (trees_free _ _ _ K1 e He) as Hwp. unfold wp in Hwp. destruct (ite_free (Some e) (tmem k)) as [[[] σ']|]; [|done].
  eexists (Spec (trees A) (spare A ∖ {[e]}) ({[e]} ∪ zone A)), ms, _. split.
  - apply (kinv_item _ _ _ e); [done|done|..]; cbn [spare tmem items].
    + intros l Hl. by apply lookup_delete_ne.
    + intros sp m n Hm Hn. by destruct (trees_spare _ _ _ K1 _ _ _ _ (tree_entry sp m n e Hm Hn) Hn).
    + set_solver.
    + set_solver.
    + intros l [?|[?|?]]; [left; cbn; set_solver| |by right; right].
      destruct (decide (l = e)) as [->|]; [left|right; left]; cbn; set_solver.
  - cbn. by rewrite (ki_spare _ _ _ _ HK).
Qed.

(** [ipc_entry_lookup] finds a tree entry by its name. *)
Lemma tree_entry_found sp x m n e :
  a_spaces a !! sp = Some x → a_active x = true → ms !! sp = Some m → m !! n = Some e →
  wp (ipc_entry_lookup sp n) k (λ r _, r = Some (In_tree e)).
Proof using All.
  intros Hx Hact Hm Hn. destruct (focus_map A ms k a HK sp x Hx) as (y & Hmy & Hk & HI & HA & Hheld & Hab).
  rewrite Hm in Hmy. injection Hmy as ->. pose proof (ab_flags _ _ _ Hab) as [= E1 _ _ _].
  destruct (li_space _ _ _ _ _ HI) as [Ht _ _ Htr _ _]. destruct (tr_name _ _ _ _ _ _ _ Htr _ _ Hn) as [Hname _].
  rewrite Hk. eapply wp_mono; [apply (wp_entry_lookup sizes sp (spaces k) (delete sp ms) (info <$> items k) y n); [done|done|lia|congruence]|].
  intros r k' (y' & -> & HI' & Hst & Hr). pose proof Hst as (_ & _ & Ev & Em & _ & EX).
  destruct r as [[i|e']|]; cbn in Hr.
  - destruct Hr as (ρ & -> & c & Hv). pose proof (tree_not_view _ _ _ _ _ _ _ _ _ Ht Htr Hn) as Hnv.
    rewrite Ev in Hv. unfold vfind in Hnv. rewrite Hv in Hnv. cbn in Hnv. by rewrite decide_True in Hnv.
  - destruct Hr as (ρ & He' & _). rewrite Em in He'. congruence.
  - destruct (tr_info _ _ _ _ _ _ _ Htr _ _ Hn) as (ρ & HX & _).
    unfold names, find in Hr. rewrite (tree_not_view _ _ _ _ _ _ _ _ _ Ht Htr Hn) in Hr. unfold tfind in Hr.
    rewrite Hn in Hr. cbn in Hr. by rewrite HX in Hr.
Qed.

End calls.

(** *** Creation *)

Lemma chain_seq s i (n : nat) :
  (∀ j, i ≤ j < i + Z.of_nat n → next_of s j = j + 1) → next_of s (i + Z.of_nat n) = 0 → chain s i (seqZ (i + 1) (Z.of_nat n)).
Proof.
  induction n as [|n IH] in i |- *; intros Hnext Hlast; apply chain_from.
  - rewrite Z.add_0_r in Hlast. done.
  - rewrite seqZ_cons by lia. split; [apply Hnext; lia|]. replace (Z.pred (Z.of_nat (S n))) with (Z.of_nat n) by lia.
    replace (Z.succ (i + 1)) with (i + 1 + 1) by lia. apply IH; [|replace (i + 1 + Z.of_nat n) with (i + Z.of_nat (S n)) by lia; done].
    intros j Hj. apply Hnext. lia.
Qed.

(** The space [ipc_task_init] starts with. *)
Definition first_space (size : Z) : ipc_space := Is true false (initial_entry size <$> seqZ 0 size) size 1 0 0 0 false.

Lemma first_entry size i : 0 ≤ i < size → is_table (first_space size) !z i = Some (initial_entry size i).
Proof.
  intros Hi. cbn [is_table first_space]. rewrite zlookup_fmap. unfold zlookup. case_match; [lia|]. rewrite lookup_seqZ_lt by lia. cbn. do 2 f_equal. lia.
Qed.

Lemma space_first sp size X :
  sizes !! 0%nat = Some size → space_inv sizes sp (first_space size) (replicate (Z.to_nat size) (Free 255)) ∅ X None ∧
  ∀ n, find (replicate (Z.to_nat size) (Free 255)) ∅ X n = None.
Proof using Hsizes.
  intros Hsize. pose proof (so_range _ Hsizes _ _ Hsize) as Hr. set (vs := replicate (Z.to_nat size) (Free 255)).
  assert (∀ i v, vs !z i = Some v → v = Free 255 ∧ 0 ≤ i < size) as Hvs.
  { intros i v Hv. pose proof (zlookup_range _ _ _ Hv) as Hi. unfold vs in Hi. rewrite length_replicate in Hi.
    unfold zlookup in Hv. case_match; [done|]. apply lookup_replicate_1 in Hv as [-> _]. split; [done|lia]. }
  assert (∀ i, 0 ≤ i < size → vs !z i = Some (Free 255)) as Hvs'.
  { intros i Hi. destruct (zlookup_lt vs i) as [v Hv]; [unfold vs; rewrite length_replicate; lia|]. destruct (Hvs _ _ Hv) as [-> _]. done. }
  assert (∀ n, find vs ∅ X n = None) as Hfind.
  { intros n. unfold find, vfind. destruct (vs !z MACH_PORT_INDEX n) as [v|] eqn:Hv; [|done]. by destruct (Hvs _ _ Hv) as [-> _]. }
  assert (∀ i, 0 ≤ i < size → next_of (first_space size) i = if i =? size - 1 then 0 else i + 1) as Hnext.
  { intros i Hi. by rewrite (next_of_entry _ _ _ (first_entry size i Hi)). }
  split; [|done]. split.
  - split; try done; cbn [is_table is_table_next is_table_size first_space].
    + apply lookup_lt_is_Some. apply (so_two _ Hsizes).
    + rewrite length_fmap, length_seqZ. lia.
    + apply Forall2_fmap_l. unfold vs. apply Forall2_replicate_r; [by rewrite length_seqZ|]. apply Forall_forall. intros i _. by split_and!.
    + apply Hvs'. lia.
  - exists (seqZ 1 (size - 1)). split_and!; [|apply NoDup_seqZ|].
    + replace (size - 1) with (Z.of_nat (Z.to_nat (size - 1))) by lia. apply (chain_seq _ 0).
      * intros j Hj. rewrite Hnext by lia. by rewrite (proj2 (Z.eqb_neq _ _)) by lia.
      * rewrite Hnext by lia. by rewrite (proj2 (Z.eqb_eq _ _)) by lia.
    + intros i. rewrite elem_of_seqZ. split.
      * intros Hi. split; [lia|]. split; [done|]. exists 255. apply Hvs'. lia.
      * intros (? & _ & g & Hg). destruct (Hvs _ _ Hg). lia.
  - destruct (local_upto_0 (first_space size) vs) as (H & Hinv & HH).
    + split; [cbn; rewrite length_fmap, length_seqZ; lia|cbn; lia].
    + intros h Hh. rewrite slot_z by apply Hh. by rewrite first_entry by apply Hh.
    + exists H. split; [done|]. intros obj i. rewrite HH. split; [by intros [_ ?]|]. intros (v & Hv & Hs)%bind_Some. by destruct (Hvs _ _ Hv) as [-> _].
  - split; try done. intros i g (v & Hv & Hs)%bind_Some. by destruct (Hvs _ _ Hv) as [-> _].
  - intros n n' ρ ρ' Hn. by rewrite Hfind in Hn.
  - intros n ρ Hn. by rewrite Hfind in Hn.
Qed.

Lemma serve_create A ms k a (HK : kinv A ms k a) sp memory fast :
  permitted sizes zone0 rooms k a (Create sp memory fast) → serves k a (Create sp memory fast).
Proof using All.
  intros [Hroom Hnew]. destruct memory; [|apply wp_ret; by exists A, ms, a].
  pose proof HK as [K1 K2 K3 K4 K5 K6 K7 [bs K8]]. destruct (lookup_lt_is_Some_2 sizes 0) as [size Hsize]; [pose proof (so_two _ Hsizes); lia|].
  pose proof (K7 sp) as H. rewrite Hnew in H. destruct (spaces k !! sp) eqn:Hs, (ms !! sp) eqn:Hm; try done. cbn in H.
  pose proof (trees_init _ _ _ K1 (is_tree sp) (K6 sp Hroom)) as Hwp. unfold wp in Hwp.
  unfold serves, wp. cbn [perform]. unfold task_space, ipc_space_create, mbind, M_bind, its_size, in_tree. cbn [negb]. rewrite Hsize.
  destruct (ipc_splay_tree_init (is_tree sp) (tmem k)) as [[[] σ']|]; [|done]. cbn beta in Hwp.
  unfold put_space, update_space, in_space, modify. cbn [mret M_ret bool_decide decide kern_return_eq_dec tmem items spaces ihgb_head]. 
  rewrite bool_decide_true by done. cbn. rewrite lookup_insert_eq. rewrite insert_insert_eq. cbn.
  change (set_fast false _) with (first_space size). destruct (space_first sp size (info <$> items k) Hsize) as [Hsi Hfind].
  exists (set_tree (is_tree sp) ∅ A), (<[sp := ∅]> ms), (on_space a sp (ASpace true ∅ size 1 None)). split; [|split; [done|]; by exists size].
  assert (∀ sp', sp' ≠ sp → tree_at (set_tree (is_tree sp) ∅ A) (is_tree sp') = tree_at A (is_tree sp')) as Hoth.
  { intros sp' Hne. rewrite tree_at_set_ne; [done|]. by intros ?%is_tree_inj. }
  split; cbn [tmem items spaces ihgb_head a_spaces a_spare on_space]; try done.
  - intros v Hv. cbn. destruct (decide (is_tree sp = v)) as [<-|]; [by rewrite lookup_insert_eq|]. rewrite lookup_insert_ne by done. by apply K2.
  - intros e He. destruct (K5 e He) as [?|[?|(sp' & m & n & Hm' & Hn)]]; [by left|by right; left|]. right; right.
    exists sp', m, n. split; [|done]. rewrite Hoth; [done|]. intros ->. congruence.
  - intros sp' Hsp'. cbn. destruct (decide (is_tree sp = is_tree sp')) as [<-|]; [by rewrite lookup_insert_eq|]. rewrite lookup_insert_ne by done. by apply K6.
  - intros sp'. destruct (decide (sp' = sp)) as [->|Hne].
    + rewrite !lookup_insert_eq. split; [apply tree_at_set|]. eexists. split; [exact Hsi|]. split; [done|done|]. intros n. by rewrite Hfind.
    + rewrite !lookup_insert_ne by done. eapply one_space_infos; [done|by apply Hoth|apply K7].
  - exists bs. eapply buckets_ext; [|exact K8]. intros e. unfold hashed. split; intros (sp' & m & n & ρ & Hm' & Hn & Hr); exists sp', m, n, ρ; (split; [|done]).
    + rewrite lookup_insert_ne; [done|]. intros <-. congruence.
    + apply lookup_insert_Some in Hm' as [[<- <-]|[_ ?]]; done.
Qed.

(** ** Every history *)

Lemma serve A ms k a c : kinv A ms k a → permitted sizes zone0 rooms k a c → serves k a c.
Proof using Hsizes.
  intros HK. destruct c.
  - by eapply serve_create.
  - by eapply serve_mark.
  - by eapply serve_item.
  - by eapply serve_drop.
  - by eapply serve_lookup.
  - by eapply serve_reverse.
  - by eapply serve_alloc.
  - by eapply serve_alloc_name.
  - by eapply serve_request.
  - by eapply serve_release.
  - by eapply serve_grow.
  - by eapply serve_install.
  - by eapply serve_again.
Qed.

Lemma kinv_boot k : booted zone0 rooms k → ∃ A ms, kinv A ms k (AState ∅ ∅).
Proof using Hsizes.
  intros [(A & Hboot & Hz & Hl & Hr) Hsp [n Hb]]. pose proof (trees_boot _ _ Hboot) as Hσ. destruct Hboot as (B1 & _ & _ & B2 & _).
  assert (∀ s, tree_at A s = None) as Hnone.
  { intros s. unfold tree_at. destruct (trees A !! s) as [o|] eqn:Ho; [|done]. by destruct (B1 s o Ho) as [-> _]. }
  exists A, ∅. split; try done; rewrite ?B2.
  - intros e. set_solver.
  - intros e He. left. by rewrite Hz.
  - intros sp. rewrite Hsp, !lookup_empty. apply Hnone.
  - rewrite Hb. exists (replicate (2 ^ n) []). split; rewrite ?length_replicate; [done|by exists n|..].
    + intros b h l [-> _]%lookup_replicate_1 [-> _]%lookup_replicate_1. done.
    + intros b l [-> _]%lookup_replicate_1. constructor.
    + intros b l e [-> _]%lookup_replicate_1. split; [by intros ?%not_elem_of_nil|]. intros [(sp & m & k' & ρ & Hm & _) _]. done.
Qed.

Lemma answers_unique a c r a1 a2 : answers sizes a c r a1 → answers sizes a c r a2 → a1 = a2.
Proof.
  assert (∀ x x1 x2 target g, grows sizes x x1 target g → grows sizes x x2 target g → x1 = x2) as Hg.
  { intros x x1 x2 target [[] []| |its nits]; cbn; intros H1 H2; naive_solver. }
  intros H1 H2. destruct c, r; try done; cbn in H1, H2.
  - destruct memory; naive_solver.
  - naive_solver.
  - congruence.
  - congruence.
  - naive_solver.
  - naive_solver.
  - destruct H1 as (x1 & Hx1 & H1), H2 as (x2 & Hx2 & H2). simplify_eq. destruct a0 as [n [i|]|kr|g|]; try done; [naive_solver..|].
    destruct H1 as (_ & _ & x3 & H3 & ->), H2 as (_ & _ & x4 & H4 & ->). by rewrite (Hg _ _ _ _ _ H3 H4).
  - destruct H1 as (x1 & Hx1 & H1), H2 as (x2 & Hx2 & H2). simplify_eq. destruct a0 as [n i|kr|g|]; [naive_solver..| |naive_solver].
    destruct H1 as (_ & _ & x3 & H3 & ->), H2 as (_ & _ & x4 & H4 & ->). by rewrite (Hg _ _ _ _ _ H3 H4).
  - naive_solver.
  - naive_solver.
  - destruct H1 as (x1 & x3 & Hx1 & H3 & ->), H2 as (x2 & x4 & Hx2 & H4 & ->). simplify_eq. by rewrite (Hg _ _ _ _ _ H3 H4).
  - destruct H1 as (x1 & Hx1 & H1), H2 as (x2 & Hx2 & H2). simplify_eq. destruct o as [[[] []]|]; try done; naive_solver.
  - destruct H1 as (x1 & Hx1 & H1), H2 as (x2 & Hx2 & H2). simplify_eq.
    destruct H1 as [[E1 ->]|(_ & x3 & H3 & ->)], H2 as [[E2 ->]|(_ & x4 & H4 & ->)]; simplify_eq; try done. by rewrite (Hg _ _ _ _ _ H3 H4).
Qed.

Lemma kinv_reached k a : reached sizes zone0 rooms k a → ∃ A ms, kinv A ms k a.
Proof using Hsizes.
  induction 1 as [k Hk|k a c r k' a' _ (A & ms & HK) Hp Hrun Ha]; [by apply kinv_boot|].
  pose proof (serve A ms k a c HK Hp) as Hs. unfold serves, wp in Hs. rewrite Hrun in Hs. destruct Hs as (A1 & ms1 & a1 & HK1 & Ha1).
  rewrite (answers_unique _ _ _ _ _ Ha Ha1). by exists A1, ms1.
Qed.

Lemma kinv_unique A ms k a sp x n n' ρ ρ' :
  kinv A ms k a → a_spaces a !! sp = Some x → a_rights x !! n = Some ρ → a_rights x !! n' = Some ρ' → is_send ρ → is_send ρ' →
  r_object ρ = r_object ρ' → n = n'.
Proof using Hsizes.
  intros HK Hx Hn Hn' Hs Hs' Ho. pose proof (ki_spaces _ _ _ _ HK sp) as H. rewrite Hx in H. destruct (spaces k !! sp), (ms !! sp); try done.
  destruct H as (_ & vs & Hsi & Hab). eapply (si_unique _ _ _ _ _ _ _ Hsi); [rewrite (ab_rights _ _ _ Hab); done..|done|done|done].
Qed.

End correct.

(** ** Theorems *)


(** C13. The reverse hash is the inverse of the table and the tree: when a name denotes
    a send right, looking its object up gives back that name, and nothing else has
    a send right for the object. *)
Theorem spaces_reverse sizes zone0 rooms k a sp x n ρ :
  sizes_ok sizes → reached sizes zone0 rooms k a → a_spaces a !! sp = Some x → a_rights x !! n = Some ρ → is_send ρ →
  (∃ k', perform sizes (Reverse sp (r_object ρ)) k = Ok (Named (Some n), k')) ∧
  ∀ n' ρ', a_rights x !! n' = Some ρ' → is_send ρ' → r_object ρ' = r_object ρ → n' = n.
Proof.
  intros Hsizes Hr Hx Hn Hs. destruct (kinv_reached sizes Hsizes zone0 rooms k a Hr) as (A & ms & HK).
  assert (∀ n' ρ', a_rights x !! n' = Some ρ' → is_send ρ' → r_object ρ' = r_object ρ → n' = n) as Hu.
  { intros n' ρ' Hn' Hs' Ho. by eapply (kinv_unique sizes Hsizes). }
  split; [|done]. assert (permitted sizes zone0 rooms k a (Reverse sp (r_object ρ))) as Hp by (split; [by eexists|apply Hs]).
  destruct (wp_inv _ _ _ (serve sizes Hsizes zone0 rooms A ms k a _ HK Hp)) as (r & k' & Hrun & _ & _ & a' & _ & Ha). exists k'. rewrite Hrun.
  destruct r as [| | | |o| | |]; try done. destruct Ha as (x' & Hx' & _ & Ho). simplify_eq. destruct o as [n'|].
  - destruct Ho as (ρ' & Hn' & Hs' & Ho). by rewrite (Hu n' ρ').
  - by destruct (Ho n ρ Hn Hs).
Qed.

(** C14. No tree entry is lost, over any history of permitted calls: one that is
    allocated is held by a client, or it is the entry of a name that has a right in
    some space, and as long as the space is active [ipc_entry_lookup] of the name
    returns this very entry. *)
Theorem spaces_no_leak sizes zone0 rooms k a e n :
  sizes_ok sizes → reached sizes zone0 rooms k a → e ∈ zone0 → ite_name (tmem k) !! e = Some n →
  e ∈ a_spare a ∨
  ∃ sp x, a_spaces a !! sp = Some x ∧ is_Some (a_rights x !! n) ∧
    (a_active x = true → ∃ k', ipc_entry_lookup sp n k = Ok (Some (In_tree e), k')).
Proof.
  intros Hsizes Hr He Hname. destruct (kinv_reached sizes Hsizes zone0 rooms k a Hr) as (A & ms & HK).
  pose proof HK as [K1 K2 K3 K4 K5 K6 K7 K8]. destruct (K5 e He) as [Hz|[Hs|(sp & m & n' & Hm & Hn)]].
  - pose proof (trees_alloc _ _ _ K1 e 0 None None Hz) as Hw. unfold wp, ite_alloc in Hw. by rewrite Hname in Hw.
  - left. by rewrite <- K3.
  - right. pose proof (trees_name _ _ _ K1 _ _ _ _ Hm Hn). assert (n' = n) as -> by congruence. pose proof (K7 sp) as Hone. unfold one_space in Hone.
    destruct (spaces k !! sp) as [s|], (a_spaces a !! sp) as [x|] eqn:Hx, (ms !! sp) as [m'|] eqn:Hms; try done; [|congruence].
    destruct Hone as (Hm' & vs & [Ht _ _ Htr _ _] & Hab). assert (m' = m) as -> by congruence. exists sp, x. split_and!; [done| |].
    + rewrite <- (ab_rights _ _ _ _ Hab). unfold find. rewrite (tree_not_view _ _ _ _ _ _ _ _ _ Ht Htr Hn). unfold tfind. rewrite Hn. cbn.
      destruct (tr_info _ _ _ _ _ _ _ Htr _ _ Hn) as (ρ & HX & _). rewrite HX. by eexists.
    + intros Hact. destruct (wp_inv _ _ _ (tree_entry_found sizes Hsizes zone0 rooms A ms k a HK sp x m n e Hx Hact Hms Hn)) as (r & k' & E & ->). eauto.
Qed.

(** ** The sizes of tables *)

(** What [sizes_ok] says, as a test. *)
Fixpoint increasing (l : list Z) : bool :=
  match l with
  | [] => true
  | n :: l => (0 <? n) && (n <? 2 ^ 24) && match l with n' :: (_ :: _) => n <? n' | [n'] => n =? n' | [] => true end && increasing l
  end.

Lemma increasing_ok l : (2 ≤ length l)%nat → increasing l = true → sizes_ok l.
Proof.
  intros Hlen Hinc. assert (∀ i n, l !! i = Some n → 0 < n < 2 ^ 24 ∧
    ∀ n', l !! S i = Some n' → if bool_decide (S (S i) = length l) then n = n' else n < n') as H.
  { clear Hlen. induction l as [|n0 l IH]; [done|]. cbn [increasing] in Hinc. apply andb_prop in Hinc as [[Hr Hn]%andb_prop Hl].
    intros [|i] n Hi; cbn in Hi.
    - injection Hi as <-. split; [lia|]. intros n' Hn'. destruct l as [|n1 [|n2 l]]; try done; cbn in Hn'; injection Hn' as <-.
      + rewrite bool_decide_true by done. lia.
      + rewrite bool_decide_false by done. lia.
    - destruct (IH Hl i n Hi) as [? Hnext]. split; [done|]. intros n' Hn'. specialize (Hnext n' Hn'). cbn [length].
      by rewrite (bool_decide_ext _ (S (S i) = length l)) by lia. }
  split; [intros i n Hi; by apply (H i n)| |done|].
  - intros i n n' Hi Hn'. destruct (H i n Hi) as [_ Hn]. specialize (Hn n' Hn'). case_bool_decide; [by right|by left].
  - intros n Hn. destruct (lookup_lt_is_Some_2 l (length l - 2)) as [n0 Hn0]; [lia|]. destruct (H _ _ Hn0) as [_ Hnext].
    replace (S (length l - 2)) with (length l - 1)%nat in Hnext by lia. specialize (Hnext n Hn).
    rewrite bool_decide_true in Hnext by lia. by subst.
Qed.


(** ** A client *)

Definition demo_sizes : list Z := [4; 8; 16; 16].

(** Structures for the local variables and for two spaces, and two tree entries. *)
Definition space_demo_spec : spec :=
  Spec (list_to_map ((λ v, (v, None)) <$> [1; 2; 3; 4; 5; 6]%positive)) ∅ {[ 40%positive; 41%positive ]}.
Definition space_demo_memory : ipc :=
  Ipc ∅ (list_to_map (((λ v, (Ltree v, None)) <$> [1; 2; 3; 4; 5; 6]%positive) ++ ((λ v, (Rtree v, Some 9%positive)) <$> [1; 2; 3; 4; 5; 6]%positive) ++
                      [(Local_ltree, None); (Local_rtree, None)]))
      (list_to_map ((λ v, (v, Ist 7 None (Ltree v) (Rtree v))) <$> [1; 2; 3; 4; 5; 6]%positive)).
Definition demo_kernel : kernel := Kernel space_demo_memory ∅ ∅ (replicate 4 None).
Definition demo_zone : gset loc := {[ 40%positive; 41%positive ]}.
Definition demo_rooms : gset positive := {[ 1%positive; 2%positive ]}.

Lemma demo_sizes_ok : sizes_ok demo_sizes.
Proof. apply increasing_ok; [cbn; lia|done]. Qed.

Lemma demo_booted : booted demo_zone demo_rooms demo_kernel.
Proof.
  split; [|done|by exists 2%nat]. exists space_demo_spec. split; [|split; [done|split]].
  - split; [|repeat split; try (by eexists); set_solver].
    assert (map_Forall (λ s o, o = None ∧ is_Some (ist space_demo_memory !! s) ∧ is_Some (ptr space_demo_memory !! Ltree s) ∧ is_Some (ptr space_demo_memory !! Rtree s)) (trees space_demo_spec)) as H.
    { apply (bool_decide_unpack _). by vm_compute. }
    exact H.
  - assert (Forall (λ v, is_Some (trees space_demo_spec !! v)) [v_small; v_collisions; v_move; v_ignore]) as H by (apply (bool_decide_unpack _); by vm_compute).
    by apply Forall_forall.
  - assert (set_Forall (λ sp, is_Some (trees space_demo_spec !! is_tree sp)) demo_rooms) as H by (apply (bool_decide_unpack _); by vm_compute). exact H.
Qed.

Fixpoint run_calls (sizes : list Z) (cs : list call) (k : kernel) : option (list reply * kernel) :=
  match cs with
  | [] => Some ([], k)
  | c :: cs => match perform sizes c k with
               | Ok (r, k') => '(rs, k'') ← run_calls sizes cs k'; Some (r :: rs, k'')
               | Crash _ => None
               end
  end.

Definition SEND : Z := 0x10001.
Definition RECEIVE : Z := 0x20000.
Definition junk : ipc_tree_entry := Ite 5 6 7 (Some 8%positive) 9.

(** The table is full, a name beyond it goes to the tree, the table grows and takes it
    over; the names are the same before and after. *)
Example demo_session :
  fst <$> run_calls demo_sizes
    [Create 1 true true; Alloc 1 SEND 64; Alloc 1 RECEIVE 128; Alloc 1 SEND 192; Alloc 1 SEND 256;
     Install 1 None 1 2 false; NewItem 40 0 None None junk; AllocName 1 0x503 None SEND 256; AllocName 1 0xa03 (Some 40%positive) SEND 256;
     NewItem 41 0 None None junk; AllocName 1 0x907 (Some 41%positive) RECEIVE 320; Reverse 1 256; Grow 1 (Some 10);
     Install 1 (Some 10) 2 3 true; Reverse 1 256; Lookup 1 0x907; Release 1 0x103; Lookup 1 0x103; Alloc 1 SEND 64] demo_kernel =
  Some [Returned KERN_SUCCESS; Allocated (Alloc_done 0x103 (In_table 1)); Allocated (Alloc_done 0x203 (In_table 2));
        Allocated (Alloc_done 0x303 (In_table 3)); Allocated (Alloc_grow (Grow_alloc 1 2)); Installed (Some (KERN_RESOURCE_SHORTAGE, false));
        Done; Allocated Alloc_item; Allocated (Alloc_done 0xa03 (In_tree 40)); Done; Allocated (Alloc_done 0x907 (In_tree 41)); Named (Some 0xa03);
        Grows (Grow_alloc 2 3); Installed None; Named (Some 0xa03); Found (Some (Right RECEIVE 320 0)); Found (Some (Right SEND 64 0));
        Found None; Allocated (Alloc_done 0x107 (In_table 1))].
Proof. vm_compute. reflexivity. Qed.

(** The first calls of the session, with the state of the specification. *)
Definition after (c : call) (k : kernel) : kernel := match perform demo_sizes c k with Ok (_, k') => k' | Crash _ => k end.
Definition demo_k1 : kernel := after (Create 1 true true) demo_kernel.
Definition demo_k2 : kernel := after (Alloc 1 SEND 64) demo_k1.
Definition demo_k3 : kernel := after (NewItem 40 0 None None junk) demo_k2.
Definition demo_x1 : aspace := ASpace true ∅ 4 1 None.
Definition demo_x2 : aspace := with_rights (<[0x103 := Right SEND 64 0]> (a_rights demo_x1)) demo_x1.
Definition demo_a1 : astate := on_space (AState ∅ ∅) 1 demo_x1.
Definition demo_a2 : astate := on_space demo_a1 1 demo_x2.

Definition demo_a3 : astate := AState (a_spaces demo_a2) ({[40%positive]} ∪ ∅).

(** A name with index 0, such as 5, fails the assertion that [table[0]] has no
    generation number: [ipc_space_create] has set it to [IE_BITS_GEN_MASK]. *)
Example alloc_name_index_zero : perform demo_sizes (AllocName 1 5 None SEND 64) demo_k1 = Crash ASSERT_FAILED.
Proof. by vm_compute. Qed.

(** Another thread grows the table and takes the name while a tree entry is being
    allocated for it: the second round finds the name in the table, and fails the
    assertion that there is no tree entry. *)
Example alloc_name_race :
  let k4 := after (Install 1 (Some 8) 1 2 true) (after (Grow 1 (Some 8)) (after (NewItem 40 0 None None junk) demo_k1)) in
  fst <$> (match perform demo_sizes (AllocName 1 0x503 None SEND 64) demo_k1 with Ok p => Some p | Crash _ => None end) = Some (Allocated Alloc_item) ∧
  perform demo_sizes (AllocName 1 0x503 (Some 40%positive) SEND 64) (after (AllocName 1 0x503 None SEND 64) k4) = Crash ASSERT_FAILED.
Proof. by vm_compute. Qed.

Lemma demo_fillable : fillable ∅ (Right SEND 64 0).
Proof. split; [split; [vm_compute; split; congruence|done]|]. split; [done|]. intros _ n ρ. by rewrite lookup_empty. Qed.

Lemma demo_reached1 : reached demo_sizes demo_zone demo_rooms demo_k1 demo_a1.
Proof.
  apply (reached_call demo_sizes _ _ demo_kernel (AState ∅ ∅) (Create 1 true true) (Returned KERN_SUCCESS)).
  - apply reached_boot, demo_booted.
  - split; [set_solver|done].
  - by vm_compute.
  - split; [done|]. by exists 4.
Qed.

Lemma demo_reached2 : reached demo_sizes demo_zone demo_rooms demo_k2 demo_a2.
Proof.
  apply (reached_call demo_sizes _ _ demo_k1 demo_a1 (Alloc 1 SEND 64) (Allocated (Alloc_done 0x103 (In_table 1)))).
  - exact demo_reached1.
  - exists demo_x1. split; [done|exact demo_fillable].
  - by vm_compute.
  - exists demo_x1. by split_and!.
Qed.

Lemma demo_reached3 : reached demo_sizes demo_zone demo_rooms demo_k3 demo_a3.
Proof.
  apply (reached_call demo_sizes _ _ demo_k2 demo_a2 (NewItem 40 0 None None junk) Done).
  - exact demo_reached2.
  - split; [set_solver|by vm_compute].
  - by vm_compute.
  - done.
Qed.


Lemma spaces_reverse_witness :
  (∃ k', perform demo_sizes (Reverse 1 64) demo_k2 = Ok (Named (Some 0x103), k')) ∧
  ∀ n' ρ', a_rights demo_x2 !! n' = Some ρ' → is_send ρ' → r_object ρ' = 64 → n' = 0x103.
Proof.
  apply (spaces_reverse demo_sizes demo_zone demo_rooms demo_k2 demo_a2 1 demo_x2 0x103 (Right SEND 64 0));
    [exact demo_sizes_ok|exact demo_reached2|done|done|by split].
Defined.

Lemma spaces_no_leak_witness :
  40%positive ∈ a_spare demo_a3 ∨
  ∃ sp x, a_spaces demo_a3 !! sp = Some x ∧ is_Some (a_rights x !! 0) ∧
    (a_active x = true → ∃ k', ipc_entry_lookup sp 0 demo_k3 = Ok (Some (In_tree 40%positive), k')).
Proof.
  apply (spaces_no_leak demo_sizes demo_zone demo_rooms demo_k3 demo_a3 40 0);
    [exact demo_sizes_ok|exact demo_reached3|set_solver|by vm_compute].
Defined.
